(* ===== verification/_CoqProject ===== *)
-Q . S2P
Prelude.v
Overflow.v
Serialize.v
Hex.v
Crypto.v
SchemeLifecycle.v
Primitives.v
Target.v
Work.v
Asert.v
Issuance.v
Params.v
Merkle.v
Sighash.v
Validation.v
Genesis.v
BlockIndex.v
Coins.v
Connect.v
BlockStore.v
ChainState.v
Mempool.v
MempoolInv.v
BlockAssembler.v
Message.v
Protocol.v
Handshake.v
Sync.v
Text.v
AddressBook.v
PeerConnection.v
PeerManager.v
Daemon.v
ChainDb.v
Restart.v
HeaderLog.v
Address.v
CoinSelection.v
Mnemonic.v
Signing.v
TxBuilder.v
WalletDb.v
Wallet.v
JsonValue.v
Http.v
RpcClient.v
Rpc.v
RpcServer.v
Args.v
Explorer.v
Gpu.v
Miner.v
Cli.v
GenesisTool.v
WalletTool.v
Logging.v
NodeMain.v
