(* ===== verification/Prelude.v ===== *)
(** * Amarian: a verification library for the node

    Amarian is a proof-of-work node in C++: a library of consensus rules, a set
    of unspent coins, an index of headers and an active chain over them, a pool of
    unconfirmed transactions, block assembly, a peer-to-peer protocol, a store of
    chain data, a wallet, an RPC server, and programs around them.  This library
    translates the parts that decide what the node believes and what it says to
    others, and proves that they do what they are for.

    ** How the parts interact

    Bytes from a peer are framed into messages ([Message]), decoded ([Protocol]) and
    given by a connection ([PeerConnection]) to the manager ([PeerManager]), which
    offers headers and blocks to the chain state ([ChainState]) and transactions to
    the pool ([Mempool]).  The chain state puts headers into the index
    ([BlockIndex]), which judges them in context ([Validation], [Asert], [Target],
    [Work]); bodies are judged on their own ([Validation], [Merkle], [Primitives])
    and kept in the store ([BlockStore]); then the chain follows the heaviest branch
    whose bodies are here, by disconnecting and connecting blocks ([Connect]) on a
    layered cache of coins ([Coins]).  Spends are authorised by signatures
    ([Crypto], [Sighash], [SchemeLifecycle]); the reward is bounded by the schedule
    ([Issuance]).  A miner asks [BlockAssembler] for a template over the pool.  The
    daemon's glue ([Daemon]) keeps the pool in step with the chain.  What must outlive
    the process is committed to a database ([ChainDb]), from which a start rebuilds the
    index and finds the tip ([Restart], [HeaderLog]).

    A wallet ([Wallet]) derives keys from a seed ([Signing]), gives out their locks as
    addresses ([Address]), scans blocks for coins of its locks, chooses among them
    ([CoinSelection]), builds and signs a transaction ([TxBuilder]) that the rules above
    judge, keeps accounts in a file ([WalletDb]) and is backed up as a phrase of words
    ([Mnemonic]) with metadata.

    The node program ([NodeMain]) reads its options ([Args]), sets up its log ([Logging]),
    opens the database, brings the chain up, imports, mines and exports as asked, and then
    serves.  Its RPC server ([RpcServer]) frames and screens HTTP requests ([Http]) and
    runs methods ([Rpc]) on the chain, the pool and the wallet; the explorer ([Explorer])
    answers read-only requests.  The clients of the server are the command-line client
    ([Cli]), the wallet program ([WalletTool]) and the miner ([Miner]), which render calls
    and read replies with one library ([RpcClient]); the miner searches nonces on a graphics
    card ([Gpu]).  [GenesisTool] finds the nonces of the parameter table.

    ** Files and sources

    - [Prelude]: notation, tactics, hint databases and lemmas all files share.
    - [Overflow]: include/amarian/util/overflow.hpp.
    - [Serialize]: util/serialize; its class [Codec] is the contract every pair
      of encoder and decoder discharges and every composite codec is built from.
    - [Hex]: util/hex and util/types.   [Text]: number printing and extraction.
    - [Crypto]: crypto/hash and crypto/signature.  SHA-256, libsecp256k1 and OpenSSL
      are the parameters of the classes [Sha256Impl] and [SignatureBackends].
    - [SchemeLifecycle]: consensus/scheme_lifecycle.
    - [Primitives]: primitives/ (amounts, outpoints, locks, conditions, witnesses,
      transactions, blocks, coins).   [Merkle], [Sighash]: the files of those names.
    - [Target], [Work], [Asert], [Issuance], [Params], [Validation], [Genesis]:
      the files of consensus/ of those names.
    - [BlockIndex], [BlockStore], [ChainState]: chain/.   [Coins], [Connect]: utxo/.
    - [Mempool] and [MempoolInv]: mempool.cpp, its operations and their invariant.
    - [BlockAssembler]: mining/block_assembler.
    - [Message], [Protocol], [Handshake], [Sync]: the files of net/ of those names.
    - [AddressBook], [PeerConnection], [PeerManager]: net/peer_manager.
    - [Daemon]: the pool keeper, [Advance], mining, block files and network hooks
      of src/node/amariand.cpp.
    - [ChainDb]: storage/chain_db, over the class [RocksDB] of what the store underneath
      does and [LawfulRocks] of what it promises.   [Restart]: loading a chain from
      stored headers.   [HeaderLog]: the chain state over the database, from the first
      start to the next.
    - [Address], [TxBuilder]: wallet/address and wallet/txbuilder.   [CoinSelection]:
      wallet/coinselection and wallet/fees.   [Mnemonic]: the phrases of wallet/backup.
      [Signing]: wallet/seed, wallet/signing and wallet/hybrid, over the class
      [SigningBackends].   [WalletDb]: wallet/wallet and the metadata of wallet/backup,
      over the class [Json].   [Wallet]: wallet/wallet_api.
    - [JsonValue]: JSON values as the code uses them, over the class [JsonText] of their
      texts.   [Http]: rpc/http.   [RpcClient]: rpc/client, and the reading of a reply in
      cli/amarian_cli.cpp.   [Rpc]: rpc/dispatch and the callbacks src/node/amariand.cpp
      gives it.   [RpcServer]: rpc/server, the envelopes of rpc/http and the printing of
      replies.
    - [Args]: util/args.   [Logging]: util/logging.
    - [Explorer]: explorer/http_api and explorer/server.
    - [Gpu]: miner/cuda_sha256.cu, threads as interleaved steps, and SHA-256 as the standard
      defines it, by which the genesis blocks are recomputed.   [Miner]:
      miner/amarian_miner.cpp.
    - [Cli]: cli/amarian_cli.cpp.   [WalletTool]: wallet/amarian_wallet.cpp.
      [GenesisTool]: tools/genesis_tool.cpp.
    - [NodeMain]: the options, the start, the one-shot actions, the RPC service and the exit
      of src/node/amariand.cpp.

    ** Conventions

    A w-bit integer is a [Z] in its range; where the code can wrap, [wrapu] writes
    the wrap-around.  Bytes are Rocq's [byte], byte arrays and vectors lists of them.
    Hash maps are [gmap]s; where the code iterates over one, the order is a parameter
    and theorems hold for every order.  An early return with an error is a value of a
    sum type that carries the source's error.  A pointer to an index entry is the
    entry's hash.  An asynchronous operation is an effect in a list, its completion
    an event.  Interfaces of the source ([CoinsView], [CoinsSink], [BlockStore],
    [ChainSink]) are classes, with a class of laws that the clients' theorems use
    and that the implementations here discharge.

    Loops that are not structural take fuel and give [None] when it runs out; the
    same [None] is what C++ leaves undefined.  Theorems that an operation answers
    show that neither happens: 512 steps for the emission loops (six retentions at
    least halve a reward), the number of leaves for the Merkle loop, heights for
    walks along parents, the size of the index for marking a branch, and for
    activation a bound on the passes, since each rules out a block or ends.
    The [uint32_t] loops up to and including a height or an index are finite lists here
    ([heights], [indices]): at 2^32 - 1 the code's comparison always holds.  The
    [int64_t] sums of block assembly are the numbers they stand for.

    ** What the theorems show

    - Data.  [block_parse_canonical], [payloads_canonical], [framing_exact]: one
      byte string per value and one value per byte string, so that what is hashed,
      stored and sent cannot be reread differently.  [merkle_root_binds] and
      [sighash_commits]: a commitment opens one way, or the two openings exhibit a
      SHA-256 collision among what was hashed.
    - Rules.  [block_rule], [transaction_rule], [spend_rule]: each check accepts
      exactly what a declarative rule allows; [threshold_matching]: the greedy
      walk over keys is as good as any assignment.  [asert_implements_formula]: the
      limb arithmetic is the formula.  [issuance_supply_cap] and
      [chain_supply_cap]: what is emitted, and that coins never exceed it.
    - Coins and chain.  [cache_refines_set], [connect_refines_ledger],
      [connect_disconnect_roundtrip]: the cache is a set and blocks act on it as the
      ledger says, reversibly.  [index_stays_a_tree], [failure_rules_out_branch],
      [coins_follow_tip], [activation_completes], [activation_never_loses_ground]:
      the index, the chain and the coins stay consistent in every reachable state,
      and following the best chain ends, at the best header or as far as the stored
      bodies on the path to it are worth.
    - Pool and mining.  [pool_stays_sound], [accept_outcome],
      [replacement_raises_fees], [reorg_keeps_what_holds], [templates_fit]:
      the pool's bookkeeping, after any calls, and what each call does.  [template_becomes_block],
      [solve_finds_first]: what is mined is accepted.
    - Network and daemon.  [wire_delivers], [handshake_completes],
      [handshake_vets_peer], [deliveries_checked], [getheaders_answered]: what
      peers say reaches each other, and only what was said.  [net_keeps_chain],
      [daemon_keeps_chain], [advance_settles_pool], [block_file_roundtrip]: whatever
      arrives or is read, the chain is one a node can reach.
    - Storage.  [database_refines_store], [tip_matches_coins],
      [directory_keeps_network]: the database is a store of maps, its coins and its tip
      are of one moment whatever fails, and it belongs to one network.
      [restart_resumes]: a first run that is stopped between operations and started again
      is the node it was, or, if its tip was ruled out, refuses to load.
    - Wallet.  [rescan_finds_coins], [wallet_send_valid], [signed_spend_valid],
      [hybrid_input_authorised]: a scanned wallet has the chain's coins of its locks,
      and what it signs is valid where it is mined, with and without the coins.  [build_pays], [select_coins_best],
      [fee_estimates_ordered]: payments are what was asked for, with the fewest coins
      that do.  [address_decodes], [address_errors_detected], [address_lock_roundtrip],
      [mnemonic_recovers], [mnemonic_unique], [derivation_binds], [metadata_roundtrip],
      [wallet_reopens]: what is written down is read back, and a slip is noticed.
    - Programs.  [parse_refines_grammar], [accessors_typed]: command lines mean what their
      grammar says.  [log_filter_exact]: the log shows what was asked for.
      [clean_exit_restarts]: a first run that exits with 0 leaves a database from which the
      chain it reported is resumed; [plan_ok]: its settings are in range.
      [framing_restartable], [screen_admits], [cookie_written_safely],
      [cookie_does_not_outlive], [server_bounded], [connection_answers_once]: requests are
      framed the same in any pieces (but for one boundary), only the holder of the
      credential is served, the credential is never exposed, and memory is bounded.
      [rpc_keeps_node], [reads_change_nothing], [submit_verdict], [template_mined]: what
      methods do to the node.  [client_request_served], [response_delivered],
      [cli_shows_answer]: the client's request is run and its answer is shown.
      [explorer_guarded], [explorer_serves_heights]: the explorer answers only this machine,
      with the chain.  [gpu_hashes_header], [mine_exact], [miner_solves_template]: the card
      hashes as the node does, its search is exact in any order of threads, and what the
      miner submits is the solved block, whatever calls to the card fail.  [genesis_blocks_valid], [mined_nonce_smallest]:
      the recorded genesis blocks are right and the tool that finds them is deterministic.
      [phrase_restores_wallet]: the phrase the wallet program prints brings the wallet back.
    - Defects.  [bad_body_condemns_header], [hollow_genesis_ends_chain],
      [hollow_genesis_bricks_node], [lost_header_bricks_node],
      [withheld_bodies_lower_tip], [network_never_settles], [full_template_refused],
      [slots_never_freed], [address_keys_collide], [stranger_is_served];
      [standard_address_refused], [other_schemes_unsignable],
      [seed_opens_under_any_password], [open_never_refuses], [sends_conflict],
      [restore_forgets_password], [restore_reuses_address]; [displayed_hash_lookup],
      [explorer_displayed_hash], [vout_truncated], [submit_leaves_sweep],
      [boundary_refused], [switched_off_serves], [offline_wallet_blind];
      [late_parent_unlinked], [moves_past_documented_bound],
      [second_content_type_admitted]: runs in which the
      code does not do what its comments say it means to.

    ** Not modelled

    - RocksDB, nlohmann::json, libsecp256k1 and OpenSSL are not in the repository: they
      are parameters with the promises the code relies on.  The order in which
      [std::sort] leaves equal coins is open, as is the order of hash containers.
    - Sockets, signals and the event loops of Asio: a connection is the sequence of its
      events, and what the machine's loopback network does with a request is an argument of
      the programs.  The threads of the daemon's network, RPC server and explorer are one
      sequence of operations here; time appears only as an argument.
    - The texts of log lines; crypto/random (a call into OpenSSL, its result is an
      argument); version (generated by the build).
    - The graphical programs under gui/ (a third-party toolkit) and tools/retarget_sim.cpp
      (a floating-point simulation that calls the difficulty rule of [Asert]). *)

From coqutil Require Export Byte Word.LittleEndianList.
From Stdlib Require Export ZArith Lia.
From stdpp Require Export base list numbers countable.

#[global] Open Scope Z_scope.

(** ** Bytes *)

Abbreviation bytes := (list Init.Byte.byte).
Abbreviation b2z := byte.unsigned.

(** [static_cast<uint8_t>(z)]: truncation to one byte. *)
Abbreviation z2b := byte.of_Z.

(** The [size()] of a C++ container, as the [size_t] it is compared as. *)
Definition zlen {A} (l : list A) : Z := Z.of_nat (length l).

(** ** Machine integers, kept as [Z] with their width written out *)

Definition u8 (z : Z) : Prop := 0 <= z < 2 ^ 8.
Definition u16 (z : Z) : Prop := 0 <= z < 2 ^ 16.
Definition u32 (z : Z) : Prop := 0 <= z < 2 ^ 32.
Definition u64 (z : Z) : Prop := 0 <= z < 2 ^ 64.
Definition i64 (z : Z) : Prop := - 2 ^ 63 <= z < 2 ^ 63.

(** Unsigned arithmetic wraps; [wrapu w z] is the value a [w]-bit unsigned
    variable holds after being assigned [z]. *)
Definition wrapu (w z : Z) : Z := z mod 2 ^ w.

(** Two's complement reinterpretation of a 64-bit pattern. *)
Definition to_i64 (z : Z) : Z := (z + 2 ^ 63) mod 2 ^ 64 - 2 ^ 63.

(** The value of a [char], which is signed. *)
Definition char_value (c : Init.Byte.byte) : Z := if b2z c <? 128 then b2z c else b2z c - 256.

(** The number a big-endian byte array spells. *)
Definition be_val (bs : bytes) : Z := le_combine (rev bs).

Create HintDb amarian.
Create Rewrite HintDb amarian.

(** ** Tactics *)

(** [lia] over goals that mention the machine ranges and container sizes. *)
Ltac mlia := unfold zlen, u8, u16, u32, u64, i64, wrapu in *; lia.

(** [lia] over quotients and remainders by constants. *)
Ltac dlia := Z.to_euclidean_division_equations; lia.

(** Case analysis on the first [if] or [match] of a hypothesis. *)
Ltac break_in H :=
  match type of H with
  | context [match ?x with _ => _ end] => let E := fresh "E" in destruct x eqn:E
  end.

(** Boolean comparison hypotheses as propositions. *)
Ltac bprop :=
  repeat match goal with
  | H : _ && _ = true |- _ => apply andb_true_iff in H; destruct H
  | H : _ || _ = false |- _ => apply orb_false_iff in H; destruct H
  | H : negb _ = true |- _ => apply negb_true_iff in H
  | H : negb _ = false |- _ => apply negb_false_iff in H
  | H : (_ <? _) = true |- _ => apply Z.ltb_lt in H
  | H : (_ <? _) = false |- _ => apply Z.ltb_ge in H
  | H : (_ <=? _) = true |- _ => apply Z.leb_le in H
  | H : (_ <=? _) = false |- _ => apply Z.leb_gt in H
  | H : (_ =? _) = true |- _ => apply Z.eqb_eq in H
  | H : (_ =? _) = false |- _ => apply Z.eqb_neq in H
  end.

(** ** Decidable equality on bytes *)

#[global] Instance byte_eq_dec : EqDecision Init.Byte.byte := Byte.byte_eq_dec.

#[global] Program Instance byte_countable : Countable Init.Byte.byte :=
  inj_countable Byte.to_N Byte.of_N _.
Next Obligation. intros b. apply Byte.of_to_N. Qed.

#[global] Instance byte_inhabited : Inhabited Init.Byte.byte := populate Byte.x00.

(** ** Lists and sizes *)

Lemma zlen_nil {A} : zlen (@nil A) = 0.
Proof. reflexivity. Qed.

Lemma zlen_cons {A} (x : A) l : zlen (x :: l) = 1 + zlen l.
Proof. unfold zlen. simpl. lia. Qed.

Lemma zlen_app {A} (l k : list A) : zlen (l ++ k) = zlen l + zlen k.
Proof. unfold zlen. rewrite length_app. lia. Qed.

Lemma zlen_nonneg {A} (l : list A) : 0 <= zlen l.
Proof. unfold zlen. lia. Qed.

Lemma zlen_map {A B} (f : A -> B) l : zlen (map f l) = zlen l.
Proof. unfold zlen. now rewrite length_map. Qed.

Lemma zlen_rev {A} (l : list A) : zlen (rev l) = zlen l.
Proof. unfold zlen. now rewrite length_rev. Qed.

Lemma zlen_le_split n z : zlen (le_split n z) = Z.of_nat n.
Proof. unfold zlen. now rewrite length_le_split. Qed.

Lemma zlen_zero_nil {A} (l : list A) : zlen l = 0 -> l = [].
Proof. destruct l; [done|]. rewrite zlen_cons. pose proof (zlen_nonneg l). lia. Qed.

Lemma Forall_map_iff {A B} (f : A -> B) (P : B -> Prop) l :
  Forall P (map f l) <-> Forall (fun x => P (f x)) l.
Proof. apply Forall_fmap. Qed.

Lemma lookup_map_seq {A} `{Inhabited A} (f : nat -> A) n p :
  (p < n)%nat -> map f (seq 0 n) !!! p = f p.
Proof.
  intros. apply list_lookup_total_correct.
  change (map f (seq 0 n)) with (f <$> seq 0 n). by rewrite list_lookup_fmap, lookup_seq_lt by lia.
Qed.

Lemma Forall_map_seq {A} (f : nat -> A) (P : A -> Prop) n :
  (forall i, (i < n)%nat -> P (f i)) -> Forall P (map f (seq 0 n)).
Proof. intros H. apply Forall_map_iff, Forall_seq. intros i Hi. apply H. lia. Qed.

#[export] Hint Rewrite @zlen_nil @zlen_cons @zlen_app @zlen_map @zlen_rev
  zlen_le_split : amarian.

(** Two appends that agree, with equally long heads, agree piecewise. *)
Lemma app_inj_zlen {A} (l1 l2 k1 k2 : list A) :
  zlen l1 = zlen l2 -> l1 ++ k1 = l2 ++ k2 -> l1 = l2 /\ k1 = k2.
Proof. unfold zlen. intros Hl. apply app_inj_1. lia. Qed.

(** Sums of amounts. *)
Definition zsum (l : list Z) : Z := foldr Z.add 0 l.

Lemma zsum_cons x l : zsum (x :: l) = x + zsum l.
Proof. reflexivity. Qed.

Lemma zsum_app l k : zsum (l ++ k) = zsum l + zsum k.
Proof. induction l as [|x l IH]; [reflexivity|]. cbn [app]. rewrite !zsum_cons, IH. lia. Qed.

Lemma zsum_nonneg l : Forall (fun x => 0 <= x) l -> 0 <= zsum l.
Proof. induction 1 as [|x l Hx _ IH]; [reflexivity|]. rewrite zsum_cons. lia. Qed.

Lemma zsum_perm l k : l ≡ₚ k -> zsum l = zsum k.
Proof.
  induction 1 as [|x l k _ IH|x y l|l k m _ IH1 _ IH2]; [done| | |congruence];
    rewrite !zsum_cons; lia.
Qed.

(** ** Bytes as numbers *)

Lemma b2z_range b : 0 <= b2z b < 256.
Proof. exact (byte.unsigned_range b). Qed.

Lemma b2z_z2b z : b2z (z2b z) = z mod 256.
Proof. exact (byte.unsigned_of_Z z). Qed.

Lemma b2z_z2b_small z : 0 <= z < 256 -> b2z (z2b z) = z.
Proof. intros. rewrite b2z_z2b. now apply Z.mod_small. Qed.

Lemma z2b_b2z b : z2b (b2z b) = b.
Proof. apply byte.of_Z_unsigned. Qed.

Lemma b2z_inj b c : b2z b = b2z c -> b = c.
Proof. apply byte.unsigned_inj. Qed.

#[export] Hint Resolve b2z_range zlen_nonneg : amarian.

(** [le_combine] as a positional sum, the form arithmetic wants. *)
Lemma le_combine_cons b l : le_combine (b :: l) = b2z b + 256 * le_combine l.
Proof.
  change (le_combine (b :: l)) with (Z.lor (b2z b) (Z.shiftl (le_combine l) 8)).
  rewrite Z.shiftl_mul_pow2 by lia.
  rewrite <- Z.add_lor_land, (Z.mul_comm 256). change (2 ^ 8) with 256.
  replace (Z.land (b2z b) (le_combine l * 256)) with 0; [lia|].
  symmetry. apply Z.bits_inj'. intros n Hn.
  rewrite Z.bits_0, Z.land_spec. change 256 with (2 ^ 8).
  destruct (Z.lt_ge_cases n 8).
  - now rewrite Z.mul_pow2_bits_low, andb_false_r by lia.
  - rewrite <- (Z.mod_small (b2z b) (2 ^ 8)) by (pose proof (b2z_range b); lia).
    now rewrite Z.mod_pow2_bits_high by lia.
Qed.

Lemma le_combine_nil_eq : le_combine [] = 0.
Proof. reflexivity. Qed.

Lemma le_combine_app_sum l k :
  le_combine (l ++ k) = le_combine l + 256 ^ zlen l * le_combine k.
Proof.
  induction l as [|b l IH]; [cbn [app]; rewrite (zlen_nil (A:=Init.Byte.byte)), le_combine_nil_eq; lia|].
  cbn [app]. rewrite !le_combine_cons, IH, zlen_cons.
  rewrite Z.pow_add_r by (pose proof (zlen_nonneg l); lia). lia.
Qed.

Lemma le_combine_range l : 0 <= le_combine l < 256 ^ zlen l.
Proof.
  pose proof (le_combine_bound l) as H. unfold zlen.
  change 256 with (2 ^ 8). rewrite <- Z.pow_mul_r by lia. exact H.
Qed.

Lemma le_combine_le_split n z :
  0 <= z < 256 ^ Z.of_nat n -> le_combine (le_split n z) = z.
Proof.
  intros H. rewrite le_combine_split. apply Z.mod_small.
  rewrite Z.mul_comm, Z.pow_mul_r by lia. exact H.
Qed.

Lemma le_split_le_combine n l :
  length l = n -> le_split n (le_combine l) = l.
Proof. apply split_le_combine'. Qed.

Lemma le_split_inj n x y :
  0 <= x < 256 ^ Z.of_nat n -> 0 <= y < 256 ^ Z.of_nat n ->
  le_split n x = le_split n y -> x = y.
Proof.
  intros Hx Hy E. rewrite <- (le_combine_le_split n x Hx), E.
  now apply le_combine_le_split.
Qed.

(** ** Big-endian numbers *)

Lemma be_val_nil : be_val [] = 0.
Proof. reflexivity. Qed.

Lemma be_val_cons b l : be_val (b :: l) = b2z b * 256 ^ zlen l + be_val l.
Proof.
  unfold be_val. cbn [rev]. rewrite le_combine_app_sum, le_combine_cons.
  rewrite zlen_rev. change (le_combine []) with 0. lia.
Qed.

Lemma be_val_app l k : be_val (l ++ k) = be_val l * 256 ^ zlen k + be_val k.
Proof.
  unfold be_val. rewrite rev_app_distr, le_combine_app_sum, zlen_rev. lia.
Qed.

Lemma be_val_range l : 0 <= be_val l < 256 ^ zlen l.
Proof. unfold be_val. rewrite <- (zlen_rev l). apply le_combine_range. Qed.

Lemma be_val_inj l k : length l = length k -> be_val l = be_val k -> l = k.
Proof.
  unfold be_val. intros Hl H.
  apply le_combine_inj in H; [|now rewrite !length_rev].
  now rewrite <- (rev_involutive l), H, rev_involutive.
Qed.

(** ** Lexicographic order, as [std::vector] and [std::array] define it *)

Fixpoint lex_compare (a b : bytes) : comparison :=
  match a, b with
  | [], [] => Eq
  | [], _ :: _ => Lt
  | _ :: _, [] => Gt
  | x :: a, y :: b =>
      match b2z x ?= b2z y with
      | Eq => lex_compare a b
      | c => c
      end
  end.

Definition lex_lt (a b : bytes) : bool := match lex_compare a b with Lt => true | _ => false end.
Definition lex_gt (a b : bytes) : bool := match lex_compare a b with Gt => true | _ => false end.

Lemma lex_compare_eq a : forall b, lex_compare a b = Eq <-> a = b.
Proof.
  induction a as [|x a IH]; intros [|y b]; simpl; try done.
  destruct (Z.compare_spec (b2z x) (b2z y)) as [E|E|E].
  - apply b2z_inj in E as ->. rewrite IH. naive_solver.
  - split; [done|]. intros [= -> ->]. lia.
  - split; [done|]. intros [= -> ->]. lia.
Qed.

Lemma lex_compare_lt_trans a : forall b c,
  lex_compare a b = Lt -> lex_compare b c = Lt -> lex_compare a c = Lt.
Proof.
  induction a as [|x a IH]; intros [|y b] [|z c]; simpl; try done.
  destruct (Z.compare_spec (b2z x) (b2z y)), (Z.compare_spec (b2z y) (b2z z)),
    (Z.compare_spec (b2z x) (b2z z)); try done; try lia. apply IH.
Qed.

(** On arrays of one length, lexicographic order is numeric order. *)
Lemma lex_compare_be_val a : forall b,
  length a = length b -> lex_compare a b = (be_val a ?= be_val b).
Proof.
  induction a as [|x a IH]; intros [|y b] Hl; try done.
  cbn [lex_compare]. rewrite !be_val_cons, IH by (simpl in *; lia).
  assert (zlen a = zlen b) as <- by (unfold zlen; simpl in *; lia).
  pose proof (be_val_range a). pose proof (be_val_range b).
  assert (zlen b = zlen a) as Hz by (unfold zlen; simpl in *; lia). rewrite Hz in *.
  set (p := 256 ^ zlen a) in *.
  destruct (Z.compare_spec (b2z x) (b2z y)) as [->|E|E].
  - symmetry. apply Z.add_compare_mono_l.
  - symmetry. apply Z.compare_lt_iff. nia.
  - symmetry. apply Z.compare_gt_iff. nia.
Qed.

Lemma lex_gt_be_val a b : length a = length b -> lex_gt a b = (be_val b <? be_val a).
Proof.
  intros Hl. unfold lex_gt. rewrite lex_compare_be_val by done.
  rewrite Z.ltb_compare, (Z.compare_antisym (be_val a)). by destruct (be_val a ?= be_val b).
Qed.

(** ** Two's complement *)

Lemma to_i64_range z : i64 (to_i64 z).
Proof.
  unfold to_i64, i64. pose proof (Z.mod_pos_bound (z + 2 ^ 63) (2 ^ 64)). lia.
Qed.

Lemma to_i64_wrapu z : i64 z -> to_i64 (wrapu 64 z) = z.
Proof.
  unfold i64, to_i64, wrapu. intros H.
  rewrite Zplus_mod_idemp_l. rewrite Z.mod_small; lia.
Qed.

(** Bits put beside each other add up. *)
Lemma lor_add a b k : 0 <= k -> 0 <= b < 2 ^ k -> Z.lor (a * 2 ^ k) b = a * 2 ^ k + b.
Proof.
  intros Hk Hb. rewrite <- Z.add_lor_land.
  replace (Z.land (a * 2 ^ k) b) with 0; [lia|].
  symmetry. apply Z.bits_inj'. intros n Hn. rewrite Z.bits_0, Z.land_spec.
  destruct (Z.lt_ge_cases n k).
  - by rewrite Z.mul_pow2_bits_low by lia.
  - rewrite <- (Z.mod_small b (2 ^ k)) by lia.
    by rewrite Z.mod_pow2_bits_high, andb_false_r by lia.
Qed.

Lemma to_i64_small z : i64 z -> to_i64 z = z.
Proof. unfold i64, to_i64. intros. rewrite Z.mod_small; lia. Qed.

Lemma wrapu_to_i64 z : u64 z -> wrapu 64 (to_i64 z) = z.
Proof.
  unfold u64, to_i64, wrapu. intros H.
  rewrite Zminus_mod_idemp_l. replace (z + 2 ^ 63 - 2 ^ 63) with z by lia.
  apply Z.mod_small; lia.
Qed.

Lemma wrapu_range w z : 0 <= w -> 0 <= wrapu w z < 2 ^ w.
Proof. intros. apply Z.mod_pos_bound. lia. Qed.

Lemma wrapu_small w z : 0 <= z < 2 ^ w -> wrapu w z = z.
Proof. apply Z.mod_small. Qed.
