(* ===== verification/Overflow.v ===== *)
(** * Checked integer arithmetic (include/amarian/util/overflow.hpp)

    The header has two implementations of each operation, chosen by the
    toolchain: the compiler builtins, and a hand-written range test used under
    MSVC.  Both are modelled, for every signed and unsigned width, and shown to
    be the same function. *)

From S2P Require Import Prelude.

Module Overflow.

(** An integral type [T]: its signedness and width in bits. *)
Record integral := Integral { is_signed : bool; width : Z }.

Definition T_u32 := Integral false 32.
Definition T_u64 := Integral false 64.
Definition T_i64 := Integral true 64.
Definition T_size := T_u64.

(** [std::numeric_limits<T>]. *)
Definition tmin (T : integral) : Z :=
  if is_signed T then - 2 ^ (width T - 1) else 0.
Definition tmax (T : integral) : Z :=
  if is_signed T then 2 ^ (width T - 1) - 1 else 2 ^ width T - 1.

Definition in_type (T : integral) (z : Z) : Prop := tmin T <= z <= tmax T.
Definition in_typeb (T : integral) (z : Z) : bool := (tmin T <=? z) && (z <=? tmax T).

(** [static_cast<T>(z)]. *)
Definition cast (T : integral) (z : Z) : Z :=
  (z - tmin T) mod 2 ^ width T + tmin T.

(** ** The builtin branch *)

(** [__builtin_*_overflow] computes in infinite precision and reports whether
    the result fits. *)
Definition CheckedAdd (T : integral) (a b : Z) : option Z :=
  if in_typeb T (a + b) then Some (a + b) else None.

Definition CheckedSub (T : integral) (a b : Z) : option Z :=
  if in_typeb T (a - b) then Some (a - b) else None.

Definition CheckedMul (T : integral) (a b : Z) : option Z :=
  if in_typeb T (a * b) then Some (a * b) else None.

(** ** The MSVC branch; C++ division truncates, which is [Z.quot] *)

Definition CheckedAdd_msvc (T : integral) (a b : Z) : option Z :=
  if is_signed T then
    if ((b >? 0) && (a >? tmax T - b)) || ((b <? 0) && (a <? tmin T - b))
    then None else Some (cast T (a + b))
  else if a >? tmax T - b then None else Some (cast T (a + b)).

Definition CheckedSub_msvc (T : integral) (a b : Z) : option Z :=
  if is_signed T then
    if ((b >? 0) && (a <? tmin T + b)) || ((b <? 0) && (a >? tmax T + b))
    then None else Some (cast T (a - b))
  else if a <? b then None else Some (cast T (a - b)).

Definition CheckedMul_msvc (T : integral) (a b : Z) : option Z :=
  if is_signed T then
    if negb (a =? 0) && negb (b =? 0) then
      if ((a =? -1) && (b =? tmin T)) || ((b =? -1) && (a =? tmin T)) then None
      else if a >? 0 then
        if (if b >? 0 then a >? Z.quot (tmax T) b else b <? Z.quot (tmin T) a)
        then None else Some (cast T (a * b))
      else
        if (if b >? 0 then a <? Z.quot (tmin T) b else a <? Z.quot (tmax T) b)
        then None else Some (cast T (a * b))
    else Some (cast T (a * b))
  else
    if negb (a =? 0) && (b >? Z.quot (tmax T) a) then None
    else Some (cast T (a * b)).

(** ** Accumulation and narrowing *)

(** Returns whether it added, and the accumulator afterwards. *)
Definition TryAccumulate (T : integral) (acc value : Z) : bool * Z :=
  match CheckedAdd T acc value with
  | None => (false, acc)
  | Some sum => (true, sum)
  end.

(** [std::cmp_less] and [std::cmp_greater] compare mathematical values. *)
Definition TryNarrow (To : integral) (value : Z) : option Z :=
  if value <? tmin To then None
  else if value >? tmax To then None
  else Some (cast To value).

(** ** Lemmas *)

Lemma in_typeb_spec T z : in_typeb T z = true <-> in_type T z.
Proof. unfold in_typeb, in_type. rewrite andb_true_iff. lia. Qed.

Lemma type_span T : 0 < width T -> tmax T - tmin T + 1 = 2 ^ width T.
Proof.
  unfold tmax, tmin. intros H. destruct (is_signed T); [|lia].
  replace (2 ^ width T) with (2 * 2 ^ (width T - 1)); [lia|].
  rewrite <- Z.pow_succ_r by lia. f_equal. lia.
Qed.

Lemma cast_id T z : 0 < width T -> in_type T z -> cast T z = z.
Proof.
  intros Hw Hz. unfold cast, in_type in *. pose proof (type_span T Hw).
  rewrite Z.mod_small; lia.
Qed.

Lemma CheckedAdd_Some T a b c :
  CheckedAdd T a b = Some c <-> c = a + b /\ in_type T (a + b).
Proof.
  unfold CheckedAdd. rewrite <- in_typeb_spec. destruct (in_typeb T (a + b)); naive_solver.
Qed.

Lemma TryAccumulate_true T acc v acc' :
  TryAccumulate T acc v = (true, acc') <-> acc' = acc + v /\ in_type T (acc + v).
Proof.
  unfold TryAccumulate. destruct (CheckedAdd T acc v) eqn:E.
  - apply CheckedAdd_Some in E. naive_solver.
  - split; [done|]. intros H. apply CheckedAdd_Some in H. congruence.
Qed.

Lemma TryNarrow_size z : u64 z -> TryNarrow T_size z = Some z.
Proof.
  unfold u64, TryNarrow. intros H.
  destruct (Z.ltb_spec z (tmin T_size)); [unfold tmin in *; simpl in *; lia|].
  rewrite Z.gtb_ltb.
  destruct (Z.ltb_spec (tmax T_size) z); [unfold tmax in *; simpl in *; lia|].
  f_equal. apply cast_id; [reflexivity|]. unfold in_type. lia.
Qed.

(** A product bound read off a truncated quotient. *)
Lemma quot_ceil_neg m b a : m <= 0 -> 0 < b -> (a < Z.quot m b <-> a * b < m).
Proof.
  intros Hm Hb. pose proof (Z.quot_rem' m b) as E.
  pose proof (Z.rem_nonpos m b ltac:(lia) Hm).
  pose proof (Z.rem_bound_abs m b ltac:(lia)). split; nia.
Qed.

Lemma quot_floor_pos m b a : 0 <= m -> 0 < b -> (Z.quot m b < a <-> m < a * b).
Proof.
  intros Hm Hb. pose proof (Z.quot_rem' m b) as E.
  pose proof (Z.rem_nonneg m b ltac:(lia) Hm).
  pose proof (Z.rem_bound_abs m b ltac:(lia)). split; nia.
Qed.

Lemma quot_ceil_pos m b a : 0 <= m -> b < 0 -> (a < Z.quot m b <-> m < a * b).
Proof.
  intros Hm Hb. rewrite <- (Z.opp_involutive b), Z.quot_opp_r by lia.
  pose proof (quot_floor_pos m (- b) (- a) Hm ltac:(lia)). nia.
Qed.

Lemma some_cast_eq T z :
  0 < width T -> in_type T z -> Some (cast T z) = if in_typeb T z then Some z else None.
Proof.
  intros Hw Hz. rewrite cast_id by done.
  destruct (in_typeb T z) eqn:E; [done|].
  apply in_typeb_spec in Hz. congruence.
Qed.

Lemma none_eq T z : ~ in_type T z -> None = if in_typeb T z then Some z else None.
Proof. intros H. destruct (in_typeb T z) eqn:E; [|done]. now apply in_typeb_spec in E. Qed.

(** One checked operation: refusal exactly out of range, otherwise the result. *)
Lemma checked_branch T (refuse : bool) z :
  0 < width T -> (refuse = true <-> ~ in_type T z) ->
  (if refuse then None else Some (cast T z)) = if in_typeb T z then Some z else None.
Proof.
  intros Hw H. destruct refuse.
  - apply none_eq. now apply H.
  - apply some_cast_eq; [done|]. apply in_typeb_spec.
    destruct (in_typeb T z) eqn:E; [done|]. exfalso.
    enough (false = true) by done. apply H.
    intros Hz. apply in_typeb_spec in Hz. congruence.
Qed.

Lemma type_signs T : 0 < width T -> tmin T <= 0 <= tmax T.
Proof.
  intros H. unfold tmin, tmax. destruct (is_signed T).
  - pose proof (Z.pow_pos_nonneg 2 (width T - 1) ltac:(lia) ltac:(lia)). lia.
  - pose proof (Z.pow_gt_1 2 (width T) ltac:(lia)). lia.
Qed.

Section equivalence.
Context (T : integral) (a b : Z).
Hypothesis (Hw : 0 < width T) (Ha : in_type T a) (Hb : in_type T b).

Lemma add_msvc_eq : CheckedAdd_msvc T a b = CheckedAdd T a b.
Proof.
  unfold CheckedAdd_msvc, CheckedAdd. unfold in_type in *.
  pose proof (type_signs T Hw).
  destruct (is_signed T) eqn:Hs; apply checked_branch; trivial;
    unfold in_type; rewrite ?Z.gtb_ltb.
  - rewrite orb_true_iff, !andb_true_iff, !Z.ltb_lt. lia.
  - rewrite Z.ltb_lt. unfold tmin in *. rewrite Hs in *. lia.
Qed.

Lemma sub_msvc_eq : CheckedSub_msvc T a b = CheckedSub T a b.
Proof.
  unfold CheckedSub_msvc, CheckedSub. unfold in_type in *.
  pose proof (type_signs T Hw).
  destruct (is_signed T) eqn:Hs; apply checked_branch; trivial;
    unfold in_type; rewrite ?Z.gtb_ltb.
  - rewrite orb_true_iff, !andb_true_iff, !Z.ltb_lt. lia.
  - rewrite Z.ltb_lt. unfold tmin in *. rewrite Hs in *. lia.
Qed.

Lemma mul_msvc_eq : CheckedMul_msvc T a b = CheckedMul T a b.
Proof.
  unfold CheckedMul_msvc, CheckedMul. unfold in_type in *.
  pose proof (type_signs T Hw) as Hsg. pose proof (type_span T Hw).
  destruct (is_signed T) eqn:Hs; rewrite ?Z.gtb_ltb.
  - assert (Hlo : tmin T = - tmax T - 1) by (unfold tmin, tmax; rewrite Hs; lia).
    destruct (Z.eqb_spec a 0); [subst; apply some_cast_eq; [done|unfold in_type; lia]|].
    destruct (Z.eqb_spec b 0); [subst; apply some_cast_eq; [done|unfold in_type; lia]|].
    cbn [negb andb].
    destruct ((a =? -1) && (b =? tmin T) || (b =? -1) && (a =? tmin T)) eqn:E1.
    { apply none_eq. unfold in_type.
      apply orb_true_iff in E1. rewrite !andb_true_iff, !Z.eqb_eq in E1. nia. }
    destruct (Z.ltb_spec 0 a), (Z.ltb_spec 0 b); apply checked_branch; trivial;
      unfold in_type; rewrite ?Z.gtb_ltb, Z.ltb_lt;
      rewrite ?quot_floor_pos, ?quot_ceil_neg, ?quot_ceil_pos by lia; nia.
  - assert (Hlo : tmin T = 0) by (unfold tmin; now rewrite Hs).
    apply checked_branch; trivial. unfold in_type.
    rewrite andb_true_iff, negb_true_iff, Z.eqb_neq, Z.ltb_lt.
    destruct (Z.eq_dec a 0); [subst; lia|].
    rewrite quot_floor_pos by lia. nia.
Qed.
End equivalence.

(** ** Claims *)

(** The MSVC implementations of CheckedAdd, CheckedSub and CheckedMul are the
    builtin ones on every signed and unsigned width: for operands that are
    values of the type, the hand-written range tests refuse exactly the
    operations whose exact result does not fit, and otherwise return it. *)
Theorem checked_ops_agree (T : integral) (a b : Z) :
  0 < width T -> in_type T a -> in_type T b ->
  CheckedAdd_msvc T a b = CheckedAdd T a b /\
  CheckedSub_msvc T a b = CheckedSub T a b /\
  CheckedMul_msvc T a b = CheckedMul T a b.
Proof. auto using add_msvc_eq, sub_msvc_eq, mul_msvc_eq. Qed.

Lemma checked_ops_agree_witness :
  CheckedMul_msvc T_i64 (- 2 ^ 63) (-1) = None /\
  CheckedMul_msvc T_i64 (- 2 ^ 63) (-1) = CheckedMul T_i64 (- 2 ^ 63) (-1).
Proof.
  split; [reflexivity|].
  apply (checked_ops_agree T_i64 (- 2 ^ 63) (-1));
    [reflexivity | unfold in_type, tmin, tmax; simpl; lia
     | unfold in_type, tmin, tmax; simpl; lia].
Defined.

End Overflow.
