(* ===== verification/Serialize.v ===== *)
(** * Canonical bounded serialisation (util/serialize.hpp, util/serialize.cpp)

    [Writer] appends to an owned buffer; [Reader] consumes a borrowed one with a
    sticky failure flag.  [Codec] is the contract every encoder/decoder pair of
    the node is proved against: a decoder succeeds exactly on the canonical
    encoding of a well-formed value, consumes exactly that encoding, and
    otherwise leaves the reader failed. *)

From S2P Require Import Prelude Overflow.

(** ** Writer *)

Definition Writer := bytes.
Definition new_Writer : Writer := [].

Definition CompactSizeLen (value : Z) : Z :=
  if value <? 0xFD then 1
  else if value <=? 0xFFFF then 3
  else if value <=? 0xFFFFFFFF then 5
  else 9.

(** [AppendLittleEndian<T>] for a [n]-byte unsigned type. *)
Definition AppendLittleEndian (n : nat) (value : Z) (w : Writer) : Writer :=
  w ++ le_split n value.

Definition WriteU8 (value : Z) (w : Writer) : Writer := w ++ [z2b value].
Definition WriteU16 (value : Z) (w : Writer) : Writer := AppendLittleEndian 2 value w.
Definition WriteU32 (value : Z) (w : Writer) : Writer := AppendLittleEndian 4 value w.
Definition WriteU64 (value : Z) (w : Writer) : Writer := AppendLittleEndian 8 value w.
Definition WriteI64 (value : Z) (w : Writer) : Writer :=
  AppendLittleEndian 8 (wrapu 64 value) w.
Definition WriteBytes (bs : bytes) (w : Writer) : Writer := w ++ bs.
Definition WriteHash256 (hash : bytes) (w : Writer) : Writer := WriteBytes hash w.

Definition WriteCompactSize (value : Z) (w : Writer) : Writer :=
  if value <? 0xFD then WriteU8 value w
  else if value <=? 0xFFFF then WriteU16 value (WriteU8 0xFD w)
  else if value <=? 0xFFFFFFFF then WriteU32 value (WriteU8 0xFE w)
  else WriteU64 value (WriteU8 0xFF w).

Definition WriteByteString (bs : bytes) (w : Writer) : Writer :=
  WriteBytes bs (WriteCompactSize (zlen bs) w).

(** [for (const T& x : xs) x.Serialize(writer);] *)
Definition write_all {A} (ser : A -> Writer -> Writer) (xs : list A) (w : Writer) : Writer :=
  fold_left (fun w x => ser x w) xs w.

(** ** Reader *)

Record Reader := mkReader { bytes_ : bytes; pos_ : Z; ok_ : bool }.

Definition new_Reader (bs : bytes) : Reader := mkReader bs 0 true.

(** A read returns [true] with its output parameter assigned ([Some]), or
    [false] with it untouched ([None]); the reader changes either way. *)
Definition Read (A : Type) : Type := Reader -> option A * Reader.

#[global] Instance read_ret : MRet Read := fun A a r => (Some a, r).
#[global] Instance read_bind : MBind Read := fun A B k m r =>
  match m r with
  | (Some a, r') => k a r'
  | (None, r') => (None, r')
  end.

Definition Remaining (r : Reader) : Z :=
  if ok_ r then wrapu 64 (zlen (bytes_ r) - pos_ r) else 0.

Definition AtEnd (r : Reader) : bool := Remaining r =? 0.

Definition set_failed (r : Reader) : Reader := mkReader (bytes_ r) (pos_ r) false.

(** [Fail()] followed by [return false]. *)
Definition Fail {A} : Read A := fun r => (None, set_failed r).

Definition Finish (r : Reader) : bool * Reader :=
  let r' := if pos_ r =? zlen (bytes_ r) then r else set_failed r in
  (ok_ r', r').

Definition Consume (count : Z) : Read bytes := fun r =>
  if negb (ok_ r) || (wrapu 64 (zlen (bytes_ r) - pos_ r) <? count)
  then (None, set_failed r)
  else (Some (take (Z.to_nat count) (drop (Z.to_nat (pos_ r)) (bytes_ r))),
        mkReader (bytes_ r) (wrapu 64 (pos_ r + count)) (ok_ r)).

Definition ReadLittleEndian (n : nat) : Read Z :=
  src ← Consume (Z.of_nat n); mret (le_combine src).

Definition ReadU8 : Read Z := ReadLittleEndian 1.
Definition ReadU16 : Read Z := ReadLittleEndian 2.
Definition ReadU32 : Read Z := ReadLittleEndian 4.
Definition ReadU64 : Read Z := ReadLittleEndian 8.
Definition ReadI64 : Read Z := raw ← ReadLittleEndian 8; mret (to_i64 raw).
Definition ReadBytes (size : Z) : Read bytes := Consume size.
Definition ReadHash256 : Read bytes := ReadBytes 32.
Definition ReadRawSpan (count : Z) : Read bytes := Consume count.

(** The allocation bound: could the bytes left hold that many elements? *)
Definition CheckPlausible (value min_element_bytes : Z) : Read Z := fun r =>
  if value >? Remaining r / min_element_bytes then Fail r else (Some value, r).

Definition ReadCompactSize (min_element_bytes : Z) : Read Z :=
  if min_element_bytes =? 0 then Fail else
  tag ← ReadU8;
  value ←
    (if tag <? 0xFD then mret tag
     else if tag =? 0xFD then
       wide ← ReadU16; if wide <? 0xFD then Fail else mret wide
     else if tag =? 0xFE then
       wide ← ReadU32; if wide <=? 0xFFFF then Fail else mret wide
     else
       wide ← ReadU64; if wide <=? 0xFFFFFFFF then Fail else mret wide);
  CheckPlausible value min_element_bytes.

Definition ReadByteString (max_len : Z) : Read bytes :=
  len ← ReadCompactSize 1;
  if len >? max_len then Fail else
  match Overflow.TryNarrow Overflow.T_size len with
  | None => Fail
  | Some count => Consume count
  end.

(** [for (size_t index = 0; index < count; ++index)] reading one element each. *)
Fixpoint read_many {A} (de : Read A) (count : nat) : Read (list A) :=
  match count with
  | O => mret []
  | S n => x ← de; xs ← read_many de n; mret (x :: xs)
  end.

(** Reads a compact-size count, rejects it above [max], narrows it to [size_t].
    [ReadCount] of transaction.cpp; SpendCondition, Witness, Block, TxUndo and
    BlockUndo repeat the same statements inline. *)
Definition ReadCount (max min_element_bytes : Z) : Read Z := fun r =>
  match ReadCompactSize min_element_bytes r with
  | (None, r') => Fail r'
  | (Some count, r') =>
      if count >? max then Fail r' else
      match Overflow.TryNarrow Overflow.T_size count with
      | None => Fail r'
      | Some narrowed => (Some narrowed, r')
      end
  end.

(** A count and then that many elements. *)
Definition read_vector {A} (max min_element_bytes : Z) (de : Read A) : Read (list A) :=
  count ← ReadCount max min_element_bytes;
  read_many de (Z.to_nat count).

(** A count and then the elements: [WriteCompactSize(xs.size())] and a loop. *)
Definition write_vector {A} (ser : A -> Writer -> Writer) (xs : list A) (w : Writer) : Writer :=
  write_all ser xs (WriteCompactSize (zlen xs) w).

(** ** The reader's invariant and what it has left *)

(** [pos_ <= bytes_.size()], and the buffer is addressable. *)
Definition Reader_inv (r : Reader) : Prop :=
  0 <= pos_ r <= zlen (bytes_ r) /\ zlen (bytes_ r) < 2 ^ 64.

Definition rest (r : Reader) : bytes := drop (Z.to_nat (pos_ r)) (bytes_ r).

Definition advance (r : Reader) (n : Z) : Reader :=
  mkReader (bytes_ r) (pos_ r + n) (ok_ r).

Lemma new_Reader_inv bs : zlen bs < 2 ^ 64 -> Reader_inv (new_Reader bs).
Proof. intros. split; simpl; [|done]. pose proof (zlen_nonneg bs). lia. Qed.

Lemma rest_new bs : rest (new_Reader bs) = bs.
Proof. reflexivity. Qed.

Lemma zlen_rest r : Reader_inv r -> zlen (rest r) = zlen (bytes_ r) - pos_ r.
Proof. intros [H _]. unfold rest, zlen in *. rewrite length_drop. lia. Qed.

Lemma rest_advance r x tail :
  Reader_inv r -> rest r = x ++ tail -> rest (advance r (zlen x)) = tail.
Proof.
  intros [H _] E. unfold rest, advance in *. simpl. unfold zlen.
  rewrite Z2Nat.inj_add, Nat2Z.id by lia.
  rewrite <- drop_drop, E. apply drop_app_length.
Qed.

Lemma advance_inv r x tail :
  Reader_inv r -> rest r = x ++ tail -> Reader_inv (advance r (zlen x)).
Proof.
  intros Hr E. pose proof (zlen_rest r Hr) as Hl. rewrite E, zlen_app in Hl.
  destruct Hr. split; simpl; [|done].
  pose proof (zlen_nonneg x). pose proof (zlen_nonneg tail). lia.
Qed.

Lemma advance_advance r n m : advance (advance r n) m = advance r (n + m).
Proof. unfold advance. simpl. f_equal. lia. Qed.

Lemma advance_0 r : advance r 0 = r.
Proof. destruct r. unfold advance. simpl. f_equal. lia. Qed.

Lemma set_failed_inv r : Reader_inv r -> Reader_inv (set_failed r).
Proof. done. Qed.

Lemma Remaining_ok r : Reader_inv r -> ok_ r = true -> Remaining r = zlen (rest r).
Proof.
  intros Hr Hk. rewrite zlen_rest by done. unfold Remaining. rewrite Hk.
  destruct Hr. apply wrapu_small. lia.
Qed.

#[export] Hint Resolve new_Reader_inv advance_inv set_failed_inv : amarian.

(** ** Writers append *)

(** A serialiser only appends, so what it writes does not depend on what the
    buffer already holds. *)
Class Appends (f : Writer -> Writer) : Prop := appends w : f w = w ++ f [].

#[global] Instance appends_app bs : Appends (fun w => w ++ bs).
Proof. done. Qed.

#[global] Instance appends_compose f g : Appends f -> Appends g -> Appends (fun w => f (g w)).
Proof. intros Hf Hg w. rewrite (Hf (g w)), (Hf (g [])), (Hg w). by rewrite <- app_assoc. Qed.

#[global] Instance appends_WriteU8 v : Appends (WriteU8 v).
Proof. done. Qed.
#[global] Instance appends_WriteU16 v : Appends (WriteU16 v).
Proof. done. Qed.
#[global] Instance appends_WriteU32 v : Appends (WriteU32 v).
Proof. done. Qed.
#[global] Instance appends_WriteU64 v : Appends (WriteU64 v).
Proof. done. Qed.
#[global] Instance appends_WriteI64 v : Appends (WriteI64 v).
Proof. done. Qed.
#[global] Instance appends_WriteBytes v : Appends (WriteBytes v).
Proof. done. Qed.
#[global] Instance appends_WriteHash256 v : Appends (WriteHash256 v).
Proof. done. Qed.
#[global] Instance appends_WriteCompactSize v : Appends (WriteCompactSize v).
Proof.
  intros w. unfold WriteCompactSize, WriteU8, WriteU16, WriteU32, WriteU64, AppendLittleEndian.
  repeat case_match; rewrite <- ?app_assoc; done.
Qed.
#[global] Instance appends_WriteByteString v : Appends (WriteByteString v).
Proof. apply (appends_compose (WriteBytes v) (WriteCompactSize (zlen v))); apply _. Qed.

#[global] Instance appends_write_all {A} (ser : A -> Writer -> Writer) xs :
  (forall x, Appends (ser x)) -> Appends (write_all ser xs).
Proof.
  intros H. unfold write_all. induction xs as [|x xs IH]; intros w; simpl.
  - by rewrite app_nil_r.
  - rewrite IH, (IH (ser x [])), (H x w). by rewrite <- app_assoc.
Qed.

#[global] Instance appends_write_vector {A} (ser : A -> Writer -> Writer) xs :
  (forall x, Appends (ser x)) -> Appends (write_vector ser xs).
Proof.
  intros H. apply (appends_compose (write_all ser xs) (WriteCompactSize (zlen xs))); apply _.
Qed.

(** The bytes one serialiser contributes. *)
Definition encode {A} (ser : A -> Writer -> Writer) (x : A) : bytes := ser x new_Writer.

Lemma write_all_cons {A} (ser : A -> Writer -> Writer) x xs :
  (forall x, Appends (ser x)) ->
  write_all ser (x :: xs) [] = encode ser x ++ write_all ser xs [].
Proof. intros H. unfold encode. apply (appends_write_all ser xs H (ser x [])). Qed.

Lemma encode_write_vector {A} (ser : A -> Writer -> Writer) xs :
  (forall x, Appends (ser x)) ->
  encode (write_vector ser) xs = WriteCompactSize (zlen xs) [] ++ write_all ser xs [].
Proof. intros H. apply (appends_write_all ser xs H). Qed.

(** ** The codec contract *)

(** What an encoder/decoder pair promises, from any sound reader that has not
    failed: decoding yields [x] exactly when [x] is well-formed and the input
    starts with [enc x], and then exactly those bytes are consumed; a decoder
    that reports failure leaves the reader failed. *)
Class Codec {A} (enc : A -> bytes) (dec : Read A) (wf : A -> Prop) : Prop := {
  codec_iff r x r' :
    Reader_inv r -> ok_ r = true ->
    dec r = (Some x, r') <->
    wf x /\ (exists tail, rest r = enc x ++ tail) /\ r' = advance r (zlen (enc x));
  codec_fail r r' :
    Reader_inv r -> ok_ r = true -> dec r = (None, r') ->
    ok_ r' = false /\ Reader_inv r' /\ bytes_ r' = bytes_ r }.

(** Failure is sticky: a failed reader answers no read and moves nowhere. *)
Class Sticky {A} (dec : Read A) : Prop :=
  sticky r : ok_ r = false -> dec r = (None, r).

Lemma set_failed_id r : ok_ r = false -> set_failed r = r.
Proof. destruct r; simpl. by intros ->. Qed.

Lemma codec_proper {A} (enc enc' : A -> bytes) dec (wf wf' : A -> Prop) :
  Codec enc dec wf -> (forall x, wf x <-> wf' x) -> (forall x, wf x -> enc x = enc' x) ->
  Codec enc' dec wf'.
Proof.
  intros C Hwf Henc. split; [|apply C].
  intros r x r' Hr Hk. rewrite codec_iff by done. rewrite <- Hwf.
  split; intros (H1 & H2 & H3); rewrite (Henc x H1) in *; auto.
Qed.

Lemma codec_reenc {A} (enc enc' : A -> bytes) dec wf :
  Codec enc dec wf -> (forall x, wf x -> enc x = enc' x) -> Codec enc' dec wf.
Proof. intros C E. by eapply codec_proper. Qed.

Lemma codec_ext {A} (enc : A -> bytes) dec dec' wf :
  (forall r, dec r = dec' r) -> Codec enc dec wf -> Codec enc dec' wf.
Proof.
  intros E C. split.
  - intros. rewrite <- E. by apply codec_iff.
  - intros r r'. rewrite <- E. apply codec_fail.
Qed.

(** Closes the encoding side condition of [codec_proper]. *)
Ltac enc_eq := intros; cbv beta; rewrite ?app_nil_r; done.

Lemma codec_ret {A} (x0 : A) : Codec (fun _ => []) (mret x0) (fun x => x = x0).
Proof.
  split; [|done]. intros r x r' Hr Hk. rewrite zlen_nil, advance_0. split.
  - intros [= -> ->]. split_and!; eauto.
  - intros (-> & _ & ->). done.
Qed.

Lemma fail_codec_fail {A} r r' :
  Reader_inv r -> @Fail A r = (None, r') ->
  ok_ r' = false /\ Reader_inv r' /\ bytes_ r' = bytes_ r.
Proof. intros Hr [= <-]. auto. Qed.

(** A codec decides: where its encoding is present it must be what is decoded. *)
Lemma codec_reads {A} enc (dec : Read A) wf (C : Codec enc dec wf) r x tail :
  Reader_inv r -> ok_ r = true -> wf x -> rest r = enc x ++ tail ->
  dec r = (Some x, advance r (zlen (enc x))).
Proof. intros. apply codec_iff; eauto. Qed.

(** Sequencing: read a part [a] of [b] first, where [R a b] says which part it
    is, then the rest of [b]. *)
Lemma codec_seq {A B} (R : A -> B -> Prop) enc1 enc2 enc (dec1 : Read A) (k : A -> Read B) wf1 wf :
  Codec enc1 dec1 wf1 ->
  (forall a, wf1 a -> Codec enc2 (k a) (fun b => R a b /\ wf b)) ->
  (forall b, wf b -> exists a, wf1 a /\ R a b) ->
  (forall a b, R a b -> wf b -> enc b = enc1 a ++ enc2 b) ->
  Codec enc (a ← dec1; k a) wf.
Proof.
  intros C1 C2 Hpart Henc.
  assert (forall r b t, Reader_inv r -> ok_ r = true -> wf b -> rest r = enc b ++ t ->
    exists a, wf1 a /\ R a b /\ dec1 r = (Some a, advance r (zlen (enc1 a))) /\
      rest r = enc1 a ++ enc2 b ++ t) as First.
  { intros r b t Hr Hk Wb T. destruct (Hpart b Wb) as (a & Wa & Hab). exists a.
    rewrite (Henc a b Hab Wb), <- app_assoc in T. split_and!; try done.
    by eapply codec_reads. }
  split; unfold mbind, read_bind.
  - intros r b r' Hr Hk. split.
    + destruct (dec1 r) as [[a|] r1] eqn:E1; [|done].
      apply codec_iff in E1 as (Wa & [t1 T1] & ->); try done.
      pose proof (C2 a Wa) as C2'. intros E2.
      apply codec_iff in E2 as ([Hab Wb] & [t2 T2] & ->); [|by eapply advance_inv|done].
      rewrite (rest_advance r _ _ Hr T1) in T2. subst t1.
      rewrite advance_advance, (Henc a b Hab Wb), zlen_app.
      split_and!; try done. exists t2. by rewrite <- app_assoc.
    + intros (Wb & [t T] & ->).
      destruct (First r b t Hr Hk Wb T) as (a & Wa & Hab & -> & T1).
      rewrite (Henc a b Hab Wb), zlen_app, <- advance_advance.
      eapply (codec_reads _ _ _ (C2 a Wa)); [by eapply advance_inv|done|done|].
      by apply rest_advance.
  - intros r r' Hr Hk. destruct (dec1 r) as [[a|] r1] eqn:E1.
    + apply codec_iff in E1 as (Wa & [t1 T1] & ->); try done.
      pose proof (C2 a Wa) as C2'. intros E.
      by apply codec_fail in E; [|eapply advance_inv|].
    + intros [= <-]. by apply codec_fail in E1.
Qed.

(** The common case: the part is a field of [b]. *)
Lemma codec_bind {A B} (pi : B -> A) enc1 enc2 (dec1 : Read A) (k : A -> Read B) wf1 wf2 :
  Codec enc1 dec1 wf1 ->
  (forall a, wf1 a -> Codec enc2 (k a) (fun b => pi b = a /\ wf2 b)) ->
  Codec (fun b => enc1 (pi b) ++ enc2 b) (a ← dec1; k a) (fun b => wf1 (pi b) /\ wf2 b).
Proof.
  intros C1 C2. apply (codec_seq (fun a b => pi b = a) enc1 enc2 _ dec1 k wf1); try done.
  - intros a Wa. eapply codec_proper; [by apply C2| |done]. naive_solver.
  - naive_solver.
  - by intros a b <-.
Qed.

(** A check on the value read, failing the reader when it does not hold. *)
Lemma codec_guard {A} enc (dec : Read A) wf (test : A -> bool) :
  Codec enc dec wf ->
  Codec enc (x ← dec; if test x then mret x else Fail) (fun x => wf x /\ test x = true).
Proof.
  intros C. eapply codec_proper;
    [apply (codec_bind id enc (fun _ => []) dec _ wf (fun x => test x = true)); [done|]| |].
  - intros a _. destruct (test a) eqn:Et.
    + eapply codec_proper; [apply codec_ret| |done]. naive_solver.
    + split; [|intros; by eapply fail_codec_fail].
      intros r x r' _ _. split; [done|]. unfold id. intros ([-> Ht] & _). congruence.
  - done.
  - enc_eq.
Qed.

#[global] Instance sticky_bind {A B} (dec : Read A) (k : A -> Read B) :
  Sticky dec -> Sticky (a ← dec; k a).
Proof. intros H r Hr. unfold mbind, read_bind. by rewrite H. Qed.

#[global] Instance sticky_Fail {A} : Sticky (@Fail A).
Proof. intros r Hr. unfold Fail. by rewrite set_failed_id. Qed.

(** *** Fixed-width fields *)

#[global] Instance sticky_Consume n : Sticky (Consume n).
Proof. intros r Hr. unfold Consume. rewrite Hr. simpl. by rewrite set_failed_id. Qed.

#[global] Instance codec_Consume n :
  0 <= n < 2 ^ 64 -> Codec (fun x => x) (Consume n) (fun x => zlen x = n).
Proof.
  intros Hn. unfold Consume. split.
  - intros r x r' Hr Hk. rewrite Hk. simpl.
    pose proof (zlen_rest r Hr) as Hl. destruct Hr as [Hp Hs]. fold (rest r).
    rewrite wrapu_small by lia.
    destruct (Z.ltb_spec (zlen (bytes_ r) - pos_ r) n).
    + split; [done|]. intros (Hx & [t Ht] & _). rewrite Ht, zlen_app in Hl.
      pose proof (zlen_nonneg t). lia.
    + rewrite wrapu_small by lia. split.
      * intros [= <- <-]. assert (zlen (take (Z.to_nat n) (rest r)) = n) as Hx.
        { unfold zlen in *. rewrite length_take. lia. }
        split_and!; [done| |by rewrite Hx, <- Hk].
        exists (drop (Z.to_nat n) (rest r)). by rewrite take_drop.
      * intros (Hx & [t ->] & ->). unfold advance. rewrite Hk, Hx.
        rewrite <- Hx at 1. unfold zlen. by rewrite Nat2Z.id, take_app_length.
  - intros r r' Hr Hk. rewrite Hk. simpl. case_match; [|done]. by intros [= <-].
Qed.

#[global] Instance sticky_ReadLittleEndian n : Sticky (ReadLittleEndian n).
Proof. apply _. Qed.

Lemma codec_ReadLittleEndian n :
  Z.of_nat n < 2 ^ 64 ->
  Codec (le_split n) (ReadLittleEndian n) (fun z => 0 <= z < 256 ^ Z.of_nat n).
Proof.
  intros Hn. unfold ReadLittleEndian. eapply codec_proper.
  - apply (codec_bind (le_split n) (fun x => x) (fun _ => []) _ _ (fun x => zlen x = Z.of_nat n)
             (fun z => 0 <= z < 256 ^ Z.of_nat n)); [apply codec_Consume; lia|].
    intros bs Hbs. eapply codec_proper; [apply codec_ret| |done].
    assert (length bs = n) by mlia. intros z. split.
    + intros ->. split; [by apply le_split_le_combine|].
      rewrite <- Hbs. apply le_combine_range.
    + intros [<- Hz]. symmetry. by apply le_combine_le_split.
  - intros z. cbv beta. rewrite zlen_le_split. naive_solver.
  - enc_eq.
Qed.

#[global] Instance codec_U8 : Codec (encode WriteU8) ReadU8 u8.
Proof. eapply codec_proper; [by apply (codec_ReadLittleEndian 1)| |]; done. Qed.
#[global] Instance codec_U16 : Codec (encode WriteU16) ReadU16 u16.
Proof. eapply codec_proper; [by apply (codec_ReadLittleEndian 2)| |]; done. Qed.
#[global] Instance codec_U32 : Codec (encode WriteU32) ReadU32 u32.
Proof. eapply codec_proper; [by apply (codec_ReadLittleEndian 4)| |]; done. Qed.
#[global] Instance codec_U64 : Codec (encode WriteU64) ReadU64 u64.
Proof. eapply codec_proper; [by apply (codec_ReadLittleEndian 8)| |]; done. Qed.

#[global] Instance codec_I64 : Codec (encode WriteI64) ReadI64 i64.
Proof.
  unfold ReadI64. eapply codec_proper.
  - apply (codec_bind (wrapu 64) (encode WriteU64) (fun _ => []) _ _ u64 i64); [apply _|].
    intros raw Hraw. eapply codec_proper; [apply codec_ret| |done].
    intros z. split.
    + intros ->. split; [by apply wrapu_to_i64|apply to_i64_range].
    + intros [<- Hz]. symmetry. by apply to_i64_wrapu.
  - intros z. pose proof (wrapu_range 64 z). unfold u64. naive_solver lia.
  - enc_eq.
Qed.

Definition is_hash (h : bytes) : Prop := zlen h = 32.

#[global] Instance codec_Hash256 : Codec (encode WriteHash256) ReadHash256 is_hash.
Proof. by apply codec_Consume. Qed.

(** *** Compact sizes *)

(** The length prefix before the allocation bound is applied. *)
Definition ReadCompactRaw : Read Z :=
  tag ← ReadU8;
  if tag <? 0xFD then mret tag
  else if tag =? 0xFD then
    wide ← ReadU16; if wide <? 0xFD then Fail else mret wide
  else if tag =? 0xFE then
    wide ← ReadU32; if wide <=? 0xFFFF then Fail else mret wide
  else
    wide ← ReadU64; if wide <=? 0xFFFFFFFF then Fail else mret wide.

Definition compact_tag (v : Z) : Z :=
  if v <? 0xFD then v else if v <=? 0xFFFF then 0xFD
  else if v <=? 0xFFFFFFFF then 0xFE else 0xFF.

Definition compact_body (v : Z) : bytes :=
  if v <? 0xFD then [] else if v <=? 0xFFFF then encode WriteU16 v
  else if v <=? 0xFFFFFFFF then encode WriteU32 v else encode WriteU64 v.

Lemma encode_compact v :
  encode WriteCompactSize v = encode WriteU8 (compact_tag v) ++ compact_body v.
Proof.
  unfold encode, WriteCompactSize, compact_tag, compact_body, WriteU8, WriteU16, WriteU32,
    WriteU64, AppendLittleEndian. repeat case_match; done.
Qed.

(** One escape form: a wide read refused below the form's own minimum. *)
Lemma codec_wide (enc : Z -> bytes) (dec : Read Z) (wf : Z -> Prop) (small : Z -> bool) tag :
  Codec enc dec wf ->
  (forall v, wf v /\ small v = false <-> compact_tag v = tag /\ u64 v) ->
  (forall v, compact_tag v = tag -> enc v = compact_body v) ->
  Codec compact_body (wide ← dec; if small wide then Fail else mret wide)
    (fun v => compact_tag v = tag /\ u64 v).
Proof.
  intros C Hwf Henc.
  assert (Codec enc (wide ← dec; if small wide then Fail else mret wide)
            (fun v => wf v /\ negb (small v) = true)) as C'.
  { eapply codec_ext; [|exact (codec_guard enc dec wf (fun v => negb (small v)) C)].
    intros r. unfold mbind, read_bind.
    destruct (dec r) as [[v|] ?]; [|done]. by destruct (small v). }
  eapply codec_proper; [exact C'| |].
  - intros v. rewrite <- Hwf. by rewrite negb_true_iff.
  - intros v [H1 H2]. apply Henc. apply Hwf. by rewrite negb_true_iff in H2.
Qed.

Ltac compact_cases :=
  unfold compact_tag, u8, u16, u32, u64 in *;
  repeat match goal with
  | |- context [?x <? ?y] => destruct (Z.ltb_spec x y)
  | |- context [?x <=? ?y] => destruct (Z.leb_spec x y)
  end; try lia; naive_solver lia.

Lemma codec_CompactRaw : Codec (encode WriteCompactSize) ReadCompactRaw u64.
Proof.
  eapply codec_proper.
  - apply (codec_bind compact_tag (encode WriteU8) compact_body _ _ u8 u64); [apply _|].
    intros tag Ht.
    destruct (Z.ltb_spec tag 0xFD).
    { eapply codec_proper; [apply codec_ret| |].
      - intros v. compact_cases.
      - intros v ->. unfold compact_body. destruct (Z.ltb_spec tag 0xFD); [done|lia]. }
    destruct (Z.eqb_spec tag 0xFD) as [->|];
      [|destruct (Z.eqb_spec tag 0xFE) as [->|]; [|assert (tag = 0xFF) as -> by mlia]].
    + eapply codec_wide; [apply codec_U16| |].
      * intros v. compact_cases.
      * intros v. unfold compact_tag, compact_body. repeat case_match; try done; bprop; lia.
    + eapply codec_wide; [apply codec_U32| |].
      * intros v. compact_cases.
      * intros v. unfold compact_tag, compact_body. repeat case_match; try done; bprop; lia.
    + eapply codec_wide; [apply codec_U64| |].
      * intros v. compact_cases.
      * intros v. unfold compact_tag, compact_body. repeat case_match; try done; bprop; lia.
  - intros v. cbv beta. compact_cases.
  - intros v _. by rewrite encode_compact.
Qed.

Lemma ReadCompactSize_raw m r :
  0 < m ->
  ReadCompactSize m r = (v ← ReadCompactRaw; CheckPlausible v m) r.
Proof.
  intros Hm. unfold ReadCompactSize, ReadCompactRaw, mbind, read_bind.
  destruct (Z.eqb_spec m 0); [lia|].
  by destruct (ReadU8 r) as [[tag|] ?].
Qed.

Lemma zlen_compact v : u64 v -> zlen (encode WriteCompactSize v) = CompactSizeLen v.
Proof.
  intros Hv. rewrite encode_compact. unfold compact_body, CompactSizeLen.
  change (encode WriteU8 (compact_tag v)) with [z2b (compact_tag v)].
  rewrite zlen_app, zlen_cons, zlen_nil.
  repeat case_match; try done; unfold encode, WriteU16, WriteU32, WriteU64, AppendLittleEndian;
    rewrite zlen_app, zlen_le_split, zlen_nil; done.
Qed.

Lemma ReadCompactSize_iff m r v r' :
  Reader_inv r -> ok_ r = true -> 0 < m ->
  ReadCompactSize m r = (Some v, r') <->
  u64 v /\ exists tail, rest r = encode WriteCompactSize v ++ tail /\
    v * m <= zlen tail /\ r' = advance r (zlen (encode WriteCompactSize v)).
Proof.
  intros Hr Hk Hm. rewrite ReadCompactSize_raw by done.
  pose proof codec_CompactRaw as C. unfold mbind, read_bind.
  assert (forall tail : bytes, v <= zlen tail / m <-> v * m <= zlen tail) as Hdiv.
  { intros tail. rewrite Z.mul_comm. split; intros.
    - pose proof (Z.mul_div_le (zlen tail) m Hm). nia.
    - apply Z.div_le_lower_bound; lia. }
  destruct (ReadCompactRaw r) as [[v0|] r1] eqn:E.
  - apply codec_iff in E as (Hu & [t T] & ->); try done.
    unfold CheckPlausible. rewrite Z.gtb_ltb.
    rewrite Remaining_ok by (eauto with amarian). rewrite (rest_advance _ _ _ Hr T). split.
    + destruct (Z.ltb_spec (zlen t / m) v0) as [|Hle]; [done|]. intros [= -> <-].
      split; [done|]. exists t. rewrite <- Hdiv. auto.
    + intros (Hv & t' & T' & Hle & ->).
      assert (ReadCompactRaw r = (Some v, advance r (zlen (encode WriteCompactSize v)))) as E1
        by (apply codec_iff; eauto).
      assert (ReadCompactRaw r = (Some v0, advance r (zlen (encode WriteCompactSize v0)))) as E2
        by (apply codec_iff; eauto).
      assert (v0 = v) as -> by congruence. rewrite T in T'. apply app_inv_head in T' as ->.
      apply Hdiv in Hle. destruct (Z.ltb_spec (zlen t' / m) v); [lia|done].
  - split; [done|]. intros (Hv & t' & T' & _).
    assert (ReadCompactRaw r = (Some v, advance r (zlen (encode WriteCompactSize v))))
      by (apply codec_iff; eauto). congruence.
Qed.

Lemma ReadCompactSize_fail m r r' :
  Reader_inv r -> ok_ r = true -> ReadCompactSize m r = (None, r') ->
  ok_ r' = false /\ Reader_inv r' /\ bytes_ r' = bytes_ r.
Proof.
  intros Hr Hk. destruct (Z.eqb_spec m 0) as [->|].
  { intros [= <-]. auto. }
  intros E. assert ((v ← ReadCompactRaw; CheckPlausible v m) r = (None, r')) as E'.
  { rewrite <- E. unfold ReadCompactSize, ReadCompactRaw, mbind, read_bind.
    destruct (Z.eqb_spec m 0); [done|]. by destruct (ReadU8 r) as [[tag|] ?]. }
  revert E'. unfold mbind, read_bind. pose proof codec_CompactRaw as C.
  destruct (ReadCompactRaw r) as [[v|] r1] eqn:E1.
  - apply codec_iff in E1 as (Hu & [t T] & ->); try done.
    unfold CheckPlausible. case_match; [|done]. intros [= <-].
    split_and!; try done. by eapply advance_inv.
  - intros [= <-]. by apply codec_fail in E1.
Qed.

#[global] Instance sticky_ReadCompactSize m : Sticky (ReadCompactSize m).
Proof. unfold ReadCompactSize. case_match; apply _. Qed.

(** *** Counts, vectors and byte strings *)

(** A reader of a count prefix: it yields [v] exactly when the canonical prefix
    of [v] is next, [v] is at most [max], and [v] elements of [m] bytes each fit
    in what follows. *)
Class CountPrefix (P : Read Z) (max m : Z) : Prop := {
  count_iff r v r' :
    Reader_inv r -> ok_ r = true ->
    P r = (Some v, r') <->
    u64 v /\ v <= max /\ exists tail, rest r = encode WriteCompactSize v ++ tail /\
      v * m <= zlen tail /\ r' = advance r (zlen (encode WriteCompactSize v));
  count_fail r r' :
    Reader_inv r -> ok_ r = true -> P r = (None, r') ->
    ok_ r' = false /\ Reader_inv r' /\ bytes_ r' = bytes_ r }.

Lemma ReadCompactSize_prefix m : 0 < m -> CountPrefix (ReadCompactSize m) (2 ^ 64 - 1) m.
Proof.
  intros Hm. split; [|intros; by eapply ReadCompactSize_fail].
  intros. rewrite ReadCompactSize_iff by done. unfold u64. naive_solver lia.
Qed.

(** Rejecting a count above the protocol limit. *)
Lemma limit_prefix (P P' : Read Z) max m :
  CountPrefix P (2 ^ 64 - 1) m ->
  (forall r v r', P r = (Some v, r') -> u64 v ->
    P' r = if v >? max then Fail r' else (Some v, r')) ->
  (forall r r', P r = (None, r') -> P' r = (None, r') \/ P' r = Fail r') ->
  CountPrefix P' max m.
Proof.
  intros C HS HN. split.
  - intros r v r' Hr Hk. destruct (P r) as [[v0|] r1] eqn:E.
    + pose proof E as E0. apply count_iff in E0 as (Hu & _ & t & T & Hle & ->); try done.
      rewrite (HS _ _ _ E Hu), Z.gtb_ltb. destruct (Z.ltb_spec max v0).
      * split; [done|]. intros (Hv & Hmax & H'). exfalso.
        assert (P r = (Some v, r')) as E' by (apply count_iff; unfold u64 in *; naive_solver lia).
        assert (v0 = v) by congruence. lia.
      * split; [intros [= <- <-]; eauto 10|]. intros (Hv & Hmax & H').
        assert (P r = (Some v, r')) as E' by (apply count_iff; unfold u64 in *; naive_solver lia).
        congruence.
    + assert (fst (P' r) = None) as EP by (destruct (HN _ _ E) as [-> | ->]; done).
      split; [intros F; by rewrite F in EP|]. intros (Hv & Hmax & H').
      assert (P r = (Some v, r')) as E' by (apply count_iff; unfold u64 in *; naive_solver lia).
      congruence.
  - intros r r' Hr Hk. destruct (P r) as [[v0|] r1] eqn:E.
    + pose proof E as E0. apply count_iff in E0 as (Hu & _ & t & T & Hle & ->); try done.
      rewrite (HS _ _ _ E Hu). case_match; [|done]. intros [= <-].
      split_and!; try done. by eapply advance_inv.
    + pose proof E as E0. apply count_fail in E0 as (F & Hi & Hb); try done.
      destruct (HN _ _ E) as [-> | ->]; [by intros [= <-]|].
      intros [= <-]. auto.
Qed.

#[global] Instance ReadCount_prefix max m : 0 < m -> CountPrefix (ReadCount max m) max m.
Proof.
  intros Hm. eapply limit_prefix; [by apply ReadCompactSize_prefix| |]; unfold ReadCount.
  - intros r v r' -> Hu. by rewrite (Overflow.TryNarrow_size v Hu).
  - intros r r' ->. auto.
Qed.

#[global] Instance sticky_ReadCount max m : Sticky (ReadCount max m).
Proof. intros r Hr. unfold ReadCount. by rewrite sticky, sticky. Qed.

(** A count prefix and a body whose size it announces. *)
Lemma codec_counted {B} (P : Read Z) max m (body : Z -> Read B) enc2 size wf :
  CountPrefix P max m -> max < 2 ^ 64 ->
  (forall n, u64 n -> Codec enc2 (body n) (fun b => size b = n /\ wf b)) ->
  (forall b, wf b -> 0 <= size b /\ size b * m <= zlen (enc2 b)) ->
  Codec (fun b => encode WriteCompactSize (size b) ++ enc2 b) (n ← P; body n)
    (fun b => wf b /\ size b <= max).
Proof.
  intros CP Hmax Cb Hsize. split; unfold mbind, read_bind.
  - intros r b r' Hr Hk. rewrite zlen_app. split.
    + destruct (P r) as [[v|] r1] eqn:E; [|done].
      apply count_iff in E as (Hv & Hle & t & T & _ & ->); try done.
      pose proof (Cb v Hv) as C. intros E.
      apply codec_iff in E as ([<- W] & [t' T'] & ->); [|by eapply advance_inv|done].
      rewrite (rest_advance _ _ _ Hr T) in T'. subst t.
      rewrite advance_advance. split_and!; try done.
      exists t'. by rewrite T, <- app_assoc.
    + intros ([W Hle] & [t T] & ->). rewrite <- app_assoc in T.
      destruct (Hsize b W) as [Hpos Hm].
      assert (Hv : u64 (size b)) by mlia.
      assert (P r = (Some (size b), advance r (zlen (encode WriteCompactSize (size b))))) as ->.
      { apply count_iff; try done. split_and!; try done. eexists. split_and!; [done| |done].
        rewrite zlen_app. pose proof (zlen_nonneg t). lia. }
      rewrite <- advance_advance.
      apply (codec_reads _ _ _ (Cb _ Hv) _ b t); try done.
      * by eapply advance_inv.
      * by apply rest_advance.
  - intros r r' Hr Hk. destruct (P r) as [[v|] r1] eqn:E.
    + apply count_iff in E as (Hv & Hle & t & T & _ & ->); try done.
      pose proof (Cb v Hv) as C. intros E. by apply codec_fail in E; [|eapply advance_inv|].
    + intros [= <-]. by eapply count_fail.
Qed.

Section vectors.
Context {A : Type} (ser : A -> Writer -> Writer) (dec : Read A) (wf : A -> Prop).
Context {Happ : forall x, Appends (ser x)} (C : Codec (encode ser) dec wf).

Lemma codec_read_many n :
  Codec (fun l => write_all ser l []) (read_many dec n) (fun l => length l = n /\ Forall wf l).
Proof.
  induction n as [|n IH]; cbn [read_many].
  - eapply codec_proper; [apply codec_ret| |by intros ? ->].
    intros l. rewrite length_zero_iff_nil. naive_solver.
  - apply (codec_seq (fun x l => exists xs, l = x :: xs) (encode ser)
             (fun l => write_all ser (tail l) []) _ _ _ wf); [done| | |].
    + intros x Wx.
      apply (codec_seq (fun xs l => l = x :: xs) (fun l => write_all ser l []) (fun _ => [])
               _ _ _ (fun l => length l = n /\ Forall wf l)); [done| | |].
      * intros xs [Hl Wxs]. eapply codec_proper; [apply codec_ret| |done].
        intros l. split; [|naive_solver]. intros ->. split_and!; simpl; eauto.
      * intros l ([xs ->] & [= Hl] & [_ W]%Forall_cons_1). eauto.
      * intros xs l -> _. by rewrite app_nil_r.
    + intros l [Hl W]. destruct l as [|x xs]; [done|]. apply Forall_cons_1 in W as [Wx _]. eauto.
    + intros x l [xs ->] _. by apply write_all_cons.
Qed.

Context (max m : Z) (Hm : 0 < m) (Hmax : max < 2 ^ 64)
        (Hsize : forall x, wf x -> m <= zlen (encode ser x)).

Lemma write_all_size l : Forall wf l -> zlen l * m <= zlen (write_all ser l []).
Proof.
  induction 1 as [|x l Wx _ IH]; [done|].
  rewrite (write_all_cons ser x l Happ), zlen_cons, zlen_app.
  pose proof (Hsize x Wx). lia.
Qed.

Lemma codec_vector :
  Codec (encode (write_vector ser)) (read_vector max m dec)
    (fun l => Forall wf l /\ zlen l <= max).
Proof.
  eapply codec_proper; [eapply (codec_counted (ReadCount max m) max m
    (fun n => read_many dec (Z.to_nat n)) (fun l => write_all ser l []) zlen (Forall wf))| |].
  - by apply ReadCount_prefix.
  - done.
  - intros n Hn. eapply codec_proper; [apply codec_read_many| |done].
    intros l. cbv beta. split; intros []; split; try done; mlia.
  - intros l W. split; [apply zlen_nonneg|by apply write_all_size].
  - done.
  - intros l _. cbv beta. by rewrite (encode_write_vector ser l Happ).
Qed.
End vectors.

#[global] Instance sticky_vector {A} max m (dec : Read A) : Sticky (read_vector max m dec).
Proof. apply _. Qed.

Lemma codec_ByteString max :
  max < 2 ^ 64 ->
  Codec (encode WriteByteString) (ReadByteString max) (fun bs => zlen bs <= max).
Proof.
  intros Hmax.
  set (P := len ← ReadCompactSize 1; if len >? max then Fail else
            match Overflow.TryNarrow Overflow.T_size len with
            | None => Fail | Some count => mret count end : Read Z).
  assert (CountPrefix P max 1) as CP.
  { eapply limit_prefix; [by apply (ReadCompactSize_prefix 1)| |];
      unfold P, mbind, read_bind.
    - intros r v r' -> Hu. rewrite (Overflow.TryNarrow_size v Hu). by case_match.
    - intros r r' ->. auto. }
  eapply (codec_ext _ (n ← P; Consume n)).
  { intros r. unfold ReadByteString, P, mbind, read_bind.
    destruct (ReadCompactSize 1 r) as [[v|] r1]; [|done].
    destruct (v >? max); [done|]. by destruct (Overflow.TryNarrow _ v). }
  eapply codec_proper; [eapply (codec_counted P max 1 Consume (fun x => x) zlen (fun _ => True))| |].
  - done.
  - done.
  - intros n Hn. eapply codec_proper; [apply codec_Consume; mlia| |done]. naive_solver.
  - intros b _. pose proof (zlen_nonneg b). lia.
  - naive_solver.
  - done.
Qed.

#[global] Instance sticky_ByteString max : Sticky (ReadByteString max).
Proof. apply _. Qed.

(** ** Whole-input parses *)

(** How every caller uses a decoder on a complete buffer: decode, then [Finish],
    which fails on leftover bytes. *)
Definition Parse {A} (dec : Read A) (bs : bytes) : option A :=
  match dec (new_Reader bs) with
  | (Some x, r) => if fst (Finish r) then Some x else None
  | (None, _) => None
  end.

Lemma Finish_new bs n : fst (Finish (advance (new_Reader bs) n)) = (n =? zlen bs).
Proof.
  unfold Finish, advance, new_Reader. cbn [pos_ bytes_ ok_]. rewrite Z.add_0_l.
  by destruct (n =? zlen bs).
Qed.

(** A codec parses a buffer exactly when the buffer is the one encoding. *)
Lemma codec_parse {A} (enc : A -> bytes) dec wf (C : Codec enc dec wf) bs x :
  zlen bs < 2 ^ 64 -> Parse dec bs = Some x <-> wf x /\ bs = enc x.
Proof.
  intros Hbs. pose proof (new_Reader_inv bs Hbs) as Hr. unfold Parse. split.
  - destruct (dec (new_Reader bs)) as [[y|] r] eqn:E; [|done].
    apply codec_iff in E as (W & [t T] & ->); try done. rewrite rest_new in T.
    rewrite Finish_new. destruct (Z.eqb_spec (zlen (enc y)) (zlen bs)) as [Hl|]; [|done].
    intros [= <-]. split; [done|]. rewrite T, zlen_app in Hl.
    rewrite T, (zlen_zero_nil t) by lia. by rewrite app_nil_r.
  - intros [W ->]. rewrite (codec_reads _ _ _ C _ x []); try done.
    + by rewrite Finish_new, Z.eqb_refl.
    + by rewrite app_nil_r.
Qed.

(** Two well-formed values with the same encoding, or one encoding a prefix of
    the other, are the same value. *)
Lemma codec_inj {A} (enc : A -> bytes) dec wf (C : Codec enc dec wf) x y t u :
  wf x -> wf y -> zlen (enc x ++ t) < 2 ^ 64 -> enc x ++ t = enc y ++ u -> x = y.
Proof.
  intros Wx Wy Hl E. pose proof (new_Reader_inv _ Hl) as Hr.
  pose proof (codec_reads _ _ _ C _ x t Hr eq_refl Wx eq_refl) as Ex.
  rewrite E in Hr, Ex at 1.
  pose proof (codec_reads _ _ _ C _ y u Hr eq_refl Wy eq_refl) as Ey.
  congruence.
Qed.

(** ** Structures, field by field *)

(** Read the field [pi] of [b]; the fields already read are recorded in [known]. *)
Lemma codec_field {A B} (pi : B -> A) enc1 enc2 (dec1 : Read A) (k : A -> Read B) wf1 known wf :
  Codec enc1 dec1 wf1 ->
  (forall a, wf1 a -> Codec enc2 (k a) (fun b => (known b /\ pi b = a) /\ wf b)) ->
  (forall b, known b -> wf b -> wf1 (pi b)) ->
  Codec (fun b => enc1 (pi b) ++ enc2 b) (a ← dec1; k a) (fun b => known b /\ wf b).
Proof.
  intros C1 C2 Hwf.
  apply (codec_seq (fun a b => pi b = a) enc1 enc2 _ dec1 k wf1); try done.
  - intros a Wa. eapply codec_proper; [by apply C2| |done]. naive_solver.
  - naive_solver.
  - by intros a b <-.
Qed.

Lemma codec_struct {B} enc enc' (dec : Read B) wf :
  Codec enc' dec (fun b => True /\ wf b) -> (forall b, enc b = enc' b) -> Codec enc dec wf.
Proof. intros C E. eapply codec_proper; [exact C| |]; naive_solver. Qed.

(** All fields read: the structure is built. *)
Lemma codec_done {B} (b0 : B) (known wf : B -> Prop) :
  known b0 -> wf b0 -> (forall b, known b -> wf b -> b = b0) ->
  Codec (fun _ => []) (mret b0) (fun b => known b /\ wf b).
Proof. intros Hk Hw Hu. eapply codec_proper; [apply codec_ret| |done]. naive_solver. Qed.

Create Rewrite HintDb enc.

Lemma snoc_enc {A} (ser : A -> Writer -> Writer) x w :
  Appends (ser x) -> ser x w = w ++ encode ser x.
Proof. intros H. apply H. Qed.

Lemma snoc_vector {A} (ser : A -> Writer -> Writer) xs w :
  (forall x, Appends (ser x)) ->
  write_all ser xs (WriteCompactSize (zlen xs) w) = w ++ encode (write_vector ser) xs.
Proof. intros H. apply (appends_write_vector ser xs H). Qed.

#[export] Hint Rewrite (fun v w => snoc_enc WriteU8 v w (appends_WriteU8 v))
  (fun v w => snoc_enc WriteU16 v w (appends_WriteU16 v))
  (fun v w => snoc_enc WriteU32 v w (appends_WriteU32 v))
  (fun v w => snoc_enc WriteU64 v w (appends_WriteU64 v))
  (fun v w => snoc_enc WriteI64 v w (appends_WriteI64 v))
  (fun v w => snoc_enc WriteHash256 v w (appends_WriteHash256 v))
  (fun v w => snoc_enc WriteByteString v w (appends_WriteByteString v)) : enc.

(** The encoding of a structure as the concatenation of its fields'. *)
Ltac flat_enc ser :=
  intros; unfold encode at 1; unfold ser, new_Writer; autorewrite with enc;
  rewrite ?app_nil_r, <- ?app_assoc; try done.

(** A serialiser built from appending writes appends. *)
Ltac solve_appends ser :=
  intros w; unfold ser; cbv zeta; autorewrite with enc; repeat case_match; autorewrite with enc;
  rewrite ?app_nil_l, <- ?app_assoc; done.

Ltac field pi :=
  eapply (codec_field pi);
  [apply _ | intros ? ? | let H := fresh in intros ? _ H; hnf in H; naive_solver].

Ltac struct_done :=
  apply codec_done; [naive_solver | hnf; naive_solver
    | let b := fresh in let K := fresh in intros b K _; revert K; destruct b; simpl; naive_solver].

(** *** Encoded sizes *)

Lemma zlen_U8 v : zlen (encode WriteU8 v) = 1.
Proof. reflexivity. Qed.
Lemma zlen_U16 v : zlen (encode WriteU16 v) = 2.
Proof. unfold encode, WriteU16, AppendLittleEndian. by rewrite zlen_app, zlen_le_split. Qed.
Lemma zlen_U32 v : zlen (encode WriteU32 v) = 4.
Proof. unfold encode, WriteU32, AppendLittleEndian. by rewrite zlen_app, zlen_le_split. Qed.
Lemma zlen_U64 v : zlen (encode WriteU64 v) = 8.
Proof. unfold encode, WriteU64, AppendLittleEndian. by rewrite zlen_app, zlen_le_split. Qed.
Lemma zlen_I64 v : zlen (encode WriteI64 v) = 8.
Proof. unfold encode, WriteI64, AppendLittleEndian. by rewrite zlen_app, zlen_le_split. Qed.
Lemma zlen_Hash256 h : zlen (encode WriteHash256 h) = zlen h.
Proof. reflexivity. Qed.

Lemma zlen_compact_pos v : 1 <= zlen (encode WriteCompactSize v).
Proof.
  rewrite encode_compact, zlen_app, zlen_U8. pose proof (zlen_nonneg (compact_body v)).
  lia.
Qed.

Lemma zlen_ByteString bs : zlen (encode WriteByteString bs) =
  zlen (encode WriteCompactSize (zlen bs)) + zlen bs.
Proof. unfold encode at 1, WriteByteString, WriteBytes. by rewrite zlen_app. Qed.

Lemma zlen_ByteString_pos bs : 1 <= zlen (encode WriteByteString bs).
Proof.
  rewrite zlen_ByteString. pose proof (zlen_compact_pos (zlen bs)).
  pose proof (zlen_nonneg bs). lia.
Qed.

Lemma zlen_vector_pos {A} (ser : A -> Writer -> Writer) xs :
  (forall x, Appends (ser x)) -> 1 <= zlen (encode (write_vector ser) xs).
Proof.
  intros H. rewrite encode_write_vector, zlen_app by done.
  pose proof (zlen_compact_pos (zlen xs)). unfold encode, new_Writer in *.
  pose proof (zlen_nonneg (write_all ser xs [])). lia.
Qed.

#[export] Hint Rewrite zlen_U8 zlen_U16 zlen_U32 zlen_U64 zlen_I64 zlen_Hash256 : amarian.

(** A refusal decodes nothing. *)
Lemma codec_refuse {B} (enc : B -> bytes) (wf : B -> Prop) :
  (forall b, ~ wf b) -> Codec enc Fail wf.
Proof.
  intros H. split; [|intros; by eapply fail_codec_fail].
  intros r x r' _ _. split; [done|]. intros [W _]. by destruct (H x).
Qed.
