(* ===== verification/Hex.v ===== *)
(** * Strict hex (util/hex.cpp) and the 256-bit blob (util/types.cpp)

    Characters are bytes.  [FromHex] accepts exactly the strings that spell a
    byte vector in hex, in either case, and [ToHex] spells them in lower case. *)

From S2P Require Import Prelude Serialize.

Module Hex.

(** Character codes used by the source's literals. *)
Definition c_0 := 48.
Definition c_9 := 57.
Definition c_a := 97.
Definition c_f := 102.
Definition c_A := 65.
Definition c_F := 70.

(** [HEX_DIGITS = "0123456789abcdef"]. *)
Definition HEX_DIGITS : bytes :=
  map z2b [48;49;50;51;52;53;54;55;56;57;97;98;99;100;101;102].

Definition HexVal (c : Init.Byte.byte) : Z :=
  let c := b2z c in
  if (c_0 <=? c) && (c <=? c_9) then c - c_0
  else if (c_a <=? c) && (c <=? c_f) then c - c_a + 10
  else if (c_A <=? c) && (c <=? c_F) then c - c_A + 10
  else -1.

Definition hex_digit (v : Z) : Init.Byte.byte := default Byte.x00 (HEX_DIGITS !! Z.to_nat v).

Fixpoint ToHex (bs : bytes) : bytes :=
  match bs with
  | [] => []
  | b :: bs =>
      hex_digit (Z.shiftr (b2z b) 4) :: hex_digit (Z.land (b2z b) 0x0F) :: ToHex bs
  end.

(** The decoding loop, two characters at a time; the odd trailing character is
    excluded by the length test before it. *)
Fixpoint from_hex_loop (hex : bytes) : option bytes :=
  match hex with
  | h :: l :: hex =>
      let hi := HexVal h in
      let lo := HexVal l in
      if (hi <? 0) || (lo <? 0) then None
      else match from_hex_loop hex with
           | None => None
           | Some out => Some (z2b (Z.lor (Z.shiftl hi 4) lo) :: out)
           end
  | _ => Some []
  end.

Definition FromHex (hex : bytes) : option bytes :=
  if negb (zlen hex mod 2 =? 0) then None else from_hex_loop hex.

Definition FromHexExact (hex : bytes) (expected_len : Z) : option bytes :=
  if negb (zlen hex =? expected_len * 2) then None else FromHex hex.

(** [Hash256::FromBytes] throws unless given exactly 32 bytes. *)
Definition Hash256_FromBytes (bs : bytes) : option bytes :=
  if negb (zlen bs =? 32) then None else Some bs.

Definition Hash256_ToHexInternal (h : bytes) : bytes := ToHex h.
Definition Hash256_ToHex (h : bytes) : bytes := ToHex (rev h).

Definition Hash256FromHexInternal (hex : bytes) : option bytes :=
  match FromHexExact hex 32 with
  | None => None
  | Some bs => Hash256_FromBytes bs
  end.

Definition Hash256FromHex (hex : bytes) : option bytes :=
  match FromHexExact hex 32 with
  | None => None
  | Some bs => Hash256_FromBytes (rev bs)
  end.

(** [Hash256::IsZero]. *)
Definition Hash256_IsZero (h : bytes) : bool := forallb (fun b => b2z b =? 0) h.

(** The accumulator loop of [ConstantTimeEqual]. *)
Fixpoint ct_loop (acc : Z) (a b : bytes) : Z :=
  match a, b with
  | x :: a, y :: b => ct_loop (wrapu 8 (Z.lor acc (Z.lxor (b2z x) (b2z y)))) a b
  | _, _ => acc
  end.

Definition ConstantTimeEqual (a b : bytes) : bool :=
  if negb (zlen a =? zlen b) then false else ct_loop 0 a b =? 0.

(** Upper-case hex letters to lower case, everything else unchanged. *)
Definition lower (c : Init.Byte.byte) : Init.Byte.byte :=
  if (c_A <=? b2z c) && (b2z c <=? c_F) then z2b (b2z c + 32) else c.

(** ** Lemmas *)

Lemma digit_high b :
  HexVal (hex_digit (Z.shiftr (b2z b) 4)) = Z.shiftr (b2z b) 4.
Proof. destruct b; reflexivity. Qed.

Lemma digit_low b :
  HexVal (hex_digit (Z.land (b2z b) 0x0F)) = Z.land (b2z b) 0x0F.
Proof. destruct b; reflexivity. Qed.

Lemma nibbles b : z2b (Z.lor (Z.shiftl (Z.shiftr (b2z b) 4) 4) (Z.land (b2z b) 0x0F)) = b.
Proof. destruct b; reflexivity. Qed.

Lemma zlen_ToHex bs : zlen (ToHex bs) = 2 * zlen bs.
Proof.
  induction bs as [|b bs IH]; [done|]. cbn [ToHex]. rewrite !zlen_cons. lia.
Qed.

Lemma from_hex_loop_ToHex bs : from_hex_loop (ToHex bs) = Some bs.
Proof.
  induction bs as [|b bs IH]; [done|]. cbn [ToHex from_hex_loop].
  rewrite digit_high, digit_low, IH, nibbles.
  destruct (Z.ltb_spec (Z.shiftr (b2z b) 4) 0) as [H|H].
  { apply Z.shiftr_neg in H. pose proof (b2z_range b). lia. }
  destruct (Z.ltb_spec (Z.land (b2z b) 15) 0) as [H'|H']; [|done].
  apply Z.land_neg in H'. lia.
Qed.

Lemma HexVal_range c : -1 <= HexVal c < 16.
Proof. destruct c; vm_compute; split; congruence. Qed.

(** The digit a hex character stands for is spelled as its lower case. *)
Lemma hex_digit_HexVal c : 0 <= HexVal c -> hex_digit (HexVal c) = lower c.
Proof. destruct c; vm_compute; intros H; try reflexivity; now destruct H. Qed.

Lemma nibble_pair hi lo :
  0 <= hi < 16 -> 0 <= lo < 16 ->
  let b := b2z (z2b (Z.lor (Z.shiftl hi 4) lo)) in
  Z.shiftr b 4 = hi /\ Z.land b 0x0F = lo.
Proof.
  intros Hh Hl.
  assert (Z.to_nat hi < 16)%nat as Ha by lia. assert (Z.to_nat lo < 16)%nat as Hb by lia.
  replace hi with (Z.of_nat (Z.to_nat hi)) by lia.
  replace lo with (Z.of_nat (Z.to_nat lo)) by lia.
  generalize dependent (Z.to_nat lo). generalize dependent (Z.to_nat hi). intros h Ha l Hb.
  do 16 (destruct h as [|h]; [do 16 (destruct l as [|l]; [vm_compute; split; reflexivity|]); lia|]).
  lia.
Qed.

Lemma from_hex_loop_lower : forall n hex bs,
  (length hex <= 2 * n)%nat -> Z.even (zlen hex) = true ->
  from_hex_loop hex = Some bs -> ToHex bs = map lower hex.
Proof.
  induction n as [|n IH]; intros hex bs Hn He H.
  - destruct hex; [|simpl in *; lia]. by injection H as <-.
  - destruct hex as [|h [|l hex]]; [by injection H as <-|done|].
    cbn [from_hex_loop] in H. destruct ((HexVal h <? 0) || (HexVal l <? 0)) eqn:E; [done|].
    bprop. destruct (from_hex_loop hex) as [out|] eqn:El; [|done]. injection H as <-.
    cbn [ToHex map]. pose proof (HexVal_range h). pose proof (HexVal_range l).
    destruct (nibble_pair (HexVal h) (HexVal l)) as [-> ->]; [lia..|].
    rewrite !hex_digit_HexVal by lia. f_equal. f_equal.
    apply IH; [simpl in *; lia| |done].
    rewrite !zlen_cons in He. replace (1 + (1 + zlen hex)) with (zlen hex + 2) in He by lia.
    by rewrite Z.even_add in He; destruct (Z.even (zlen hex)).
Qed.

Lemma lor_eq_0_range x y : 0 <= x < 256 -> 0 <= y < 256 -> 0 <= Z.lor x y < 256.
Proof.
  intros Hx Hy. split; [apply Z.lor_nonneg; lia|].
  destruct (Z.eq_dec (Z.lor x y) 0) as [->|Hn]; [lia|].
  apply (Z.log2_lt_pow2 _ 8).
  - pose proof (proj2 (Z.lor_nonneg x y)). lia.
  - rewrite Z.log2_lor by lia. apply Z.max_lub_lt.
    + destruct (Z.eq_dec x 0) as [->|]; [done|]. apply (Z.log2_lt_pow2 _ 8); lia.
    + destruct (Z.eq_dec y 0) as [->|]; [done|]. apply (Z.log2_lt_pow2 _ 8); lia.
Qed.

Lemma lxor_byte_range (x y : Init.Byte.byte) : 0 <= Z.lxor (b2z x) (b2z y) < 256.
Proof.
  pose proof (b2z_range x). pose proof (b2z_range y).
  split; [apply Z.lxor_nonneg; lia|].
  destruct (Z.eq_dec (Z.lxor (b2z x) (b2z y)) 0) as [->|Hn]; [lia|].
  assert (0 <= Z.lxor (b2z x) (b2z y)) by (apply Z.lxor_nonneg; lia).
  apply (Z.log2_lt_pow2 _ 8); [lia|].
  pose proof (Z.log2_lxor (b2z x) (b2z y) ltac:(lia) ltac:(lia)).
  pose proof (Z.log2_le_mono (b2z x) 255 ltac:(lia)).
  pose proof (Z.log2_le_mono (b2z y) 255 ltac:(lia)).
  change (Z.log2 255) with 7 in *. lia.
Qed.

Lemma ct_loop_zero a : forall acc b,
  0 <= acc < 256 -> length a = length b -> ct_loop acc a b = 0 <-> acc = 0 /\ a = b.
Proof.
  induction a as [|x a IH]; intros acc [|y b] Hacc Hl; try done; cbn [ct_loop].
  { naive_solver. }
  pose proof (lxor_byte_range x y).
  pose proof (lor_eq_0_range acc _ Hacc (lxor_byte_range x y)).
  rewrite wrapu_small by done. rewrite IH by (try done; simpl in *; lia).
  rewrite Z.lor_eq_0_iff, Z.lxor_eq_0_iff.
  split; [|naive_solver]. intros [[-> E%b2z_inj] ->]. by subst.
Qed.

Lemma rev_zlen_hash h : is_hash h -> is_hash (rev h).
Proof. unfold is_hash. by rewrite zlen_rev. Qed.

(** ** Claims *)

(** Hex is an exact round trip. ToHex then FromHex is the identity on every byte
    vector, and FromHex accepts a string only if that string is the hex
    spelling of its result, up to the case of the letters; no other string
    (odd length, foreign character, prefix) decodes. *)
Theorem hex_roundtrip (bs hex : bytes) :
  FromHex (ToHex bs) = Some bs /\
  (forall out, FromHex hex = Some out -> ToHex out = map lower hex).
Proof.
  unfold FromHex. split.
  - rewrite zlen_ToHex, Z.mul_comm, Z.mod_mul by lia. apply from_hex_loop_ToHex.
  - intros out. destruct (Z.eqb_spec (zlen hex mod 2) 0) as [E|E]; [|done].
    apply (from_hex_loop_lower (length hex)); [lia|].
    rewrite Zeven_mod. by apply Z.eqb_eq.
Qed.

(** The printed form of a 256-bit value parses back to it, in both byte
    orders, and no string parses in display order unless it has exactly 64
    characters. *)
Theorem hash_hex_roundtrip (h hex : bytes) :
  is_hash h ->
  Hash256FromHex (Hash256_ToHex h) = Some h /\
  Hash256FromHexInternal (Hash256_ToHexInternal h) = Some h /\
  (zlen hex <> 64 -> Hash256FromHex hex = None).
Proof.
  intros Hh. unfold Hash256FromHex, Hash256FromHexInternal, Hash256_ToHex,
    Hash256_ToHexInternal, FromHexExact, Hash256_FromBytes.
  assert (forall k, is_hash k -> FromHex (ToHex k) = Some k) as Hrt.
  { intros k _. unfold FromHex. rewrite zlen_ToHex, Z.mul_comm, Z.mod_mul by lia.
    apply from_hex_loop_ToHex. }
  rewrite !zlen_ToHex, zlen_rev, Hh. change (2 * 32 =? 32 * 2) with true. cbn [negb].
  rewrite (Hrt h), (Hrt (rev h)) by auto using rev_zlen_hash.
  rewrite rev_involutive, Hh. split_and!; try done.
  intros Hn. destruct (Z.eqb_spec (zlen hex) (32 * 2)); [lia|done].
Qed.

Lemma hash_hex_roundtrip_witness :
  Hash256FromHex (Hash256_ToHex (replicate 31 Byte.x00 ++ [Byte.xab])) =
    Some (replicate 31 Byte.x00 ++ [Byte.xab]).
Proof. apply (hash_hex_roundtrip (replicate 31 Byte.x00 ++ [Byte.xab]) []). reflexivity. Defined.

(** The constant-time comparison decides equality: the accumulator that never
    exits early is zero exactly when the two byte strings are the same. *)
Theorem constant_time_equal_correct (a b : bytes) :
  ConstantTimeEqual a b = true <-> a = b.
Proof.
  unfold ConstantTimeEqual. destruct (Z.eqb_spec (zlen a) (zlen b)) as [E|E]; cbn [negb].
  - rewrite Z.eqb_eq, ct_loop_zero by mlia. naive_solver.
  - split; [done|]. by intros ->.
Qed.

End Hex.
