(* ===== verification/Crypto.v ===== *)
(** * The cryptographic boundary (src/crypto/hash.cpp, src/crypto/signature.cpp)

    SHA-256, libsecp256k1 and OpenSSL are not part of this repository: they are
    parameters of the model, gathered in two classes.  What is modelled is the
    code on this side of the boundary: how hashes are composed, the scheme
    registry, and the size checks that guard every call into a backend. *)

From Stdlib Require Import String.
From S2P Require Import Prelude Serialize.
#[local] Open Scope Z_scope.

(** OpenSSL's one-shot [SHA256]: a total function whose digest is always
    [SHA256_DIGEST_LENGTH] = 32 bytes. *)
Class Sha256Impl := {
  SHA256 : bytes -> bytes;
  SHA256_length m : zlen (SHA256 m) = 32 }.

(** The bytes of a [std::string_view] literal. *)
Definition str (s : string) : bytes := String.list_byte_of_string s.

Section hash.
Context `{Sha256Impl}.

Definition Digest (bs : bytes) : bytes := SHA256 bs.

Definition Sha256 (bs : bytes) : bytes := Digest bs.

Definition DoubleSha256 (bs : bytes) : bytes :=
  let first := Sha256 bs in Sha256 first.

(** The bytes [TaggedHash] digests: the tag's hash twice, then the message. *)
Definition tagged_preimage (tag message : bytes) : bytes :=
  let tag_hash := Sha256 tag in
  let prefix := tag_hash ++ tag_hash in
  prefix ++ message.

Definition TaggedHash (tag message : bytes) : bytes :=
  Sha256 (tagged_preimage tag message).

Lemma DoubleSha256_is_hash bs : is_hash (DoubleSha256 bs).
Proof. apply SHA256_length. Qed.

Lemma TaggedHash_is_hash tag m : is_hash (TaggedHash tag m).
Proof. apply SHA256_length. Qed.

(** A collision among preimages that were actually digested: two different
    byte strings, one from each list, with one SHA-256. *)
Definition Collision (ps qs : list bytes) : Prop :=
  exists p q, p ∈ ps /\ q ∈ qs /\ p <> q /\ SHA256 p = SHA256 q.

Lemma Collision_weaken ps qs ps' qs' :
  Collision ps qs -> ps ⊆ ps' -> qs ⊆ qs' -> Collision ps' qs'.
Proof. intros (p & q & Hp & Hq & Hne & E) H1 H2. exists p, q. auto. Qed.

Lemma SHA256_binds p q ps qs : SHA256 p = SHA256 q -> p ∈ ps -> q ∈ qs ->
  p = q \/ Collision ps qs.
Proof. intros. destruct (decide (p = q)); [by left|right; by exists p, q]. Qed.

Lemma tagged_preimage_inj tag m1 m2 :
  tagged_preimage tag m1 = tagged_preimage tag m2 -> m1 = m2.
Proof. unfold tagged_preimage. apply app_inv_head. Qed.
End hash.

#[export] Hint Resolve DoubleSha256_is_hash TaggedHash_is_hash : amarian.

(** A concrete 32-byte digest, to run the model on examples: the input's
    little-endian number, its 31-byte words folded together, cut to 254 bits. *)
Fixpoint fold_words (k : nat) (n acc : Z) : Z :=
  match k with
  | O => acc
  | S k => fold_words k (Z.shiftr n 248) (acc * 5 + Z.land n (Z.ones 248))
  end.

Definition toy_sha256 (m : bytes) : bytes :=
  le_split 32 (Z.land (fold_words (S (length m / 31)) (le_combine m) (zlen m + 1)) (Z.ones 254)).

Definition toy_Sha256Impl : Sha256Impl :=
  {| SHA256 := toy_sha256; SHA256_length m := zlen_le_split 32 _ |}.

Module Signature.

Inductive SchemeClass := Classical | PostQuantum.

Record SchemeSpec := mkSchemeSpec {
  id : Z;
  name : string;
  public_key_bytes : Z;
  signature_bytes : Z;
  scheme_class : SchemeClass;
  backend : string }.

Definition SCHEME_RESERVED := 0.
Definition SCHEME_SCHNORR_SECP256K1 := 1.
Definition SCHEME_ML_DSA_44 := 2.
Definition SCHEME_SLH_DSA_SHA2_128S := 3.

Definition SCHEMES : list SchemeSpec :=
  [ mkSchemeSpec SCHEME_SCHNORR_SECP256K1 "schnorr-secp256k1" 32 64 Classical "libsecp256k1";
    mkSchemeSpec SCHEME_ML_DSA_44 "ml-dsa-44" 1312 2420 PostQuantum "openssl";
    mkSchemeSpec SCHEME_SLH_DSA_SHA2_128S "slh-dsa-sha2-128s" 32 7856 PostQuantum "openssl" ].

Inductive VerifyResult := Valid | Invalid | Reserved | UnknownScheme | Malformed.

#[global] Instance VerifyResult_eq_dec : EqDecision VerifyResult.
Proof. solve_decision. Defined.

(** The third-party verification libraries.  A backend only answers; nothing in
    the model depends on what it answers. *)
Class SignatureBackends := {
  (** [secp256k1_xonly_pubkey_parse] succeeded. *)
  xonly_pubkey_parse : bytes -> bool;
  (** [secp256k1_schnorrsig_verify]: signature, message, key. *)
  schnorrsig_verify : bytes -> bytes -> bytes -> bool;
  (** [EVP_SIGNATURE_fetch] found the named algorithm. *)
  evp_fetch : string -> bool;
  (** [EVP_PKEY_new_raw_public_key_ex] for an algorithm and key. *)
  evp_raw_public_key : string -> bytes -> bool;
  (** A context was created and [EVP_PKEY_verify_message_init] succeeded. *)
  evp_verify_init : string -> bytes -> bool;
  (** [EVP_PKEY_verify]: algorithm, key, signature, message. *)
  evp_verify : string -> bytes -> bytes -> bytes -> bool }.

Section verify.
Context `{SignatureBackends}.

Definition KnownSchemes : list SchemeSpec := SCHEMES.

Definition FindScheme (scheme : Z) : option SchemeSpec :=
  List.find (fun spec => id spec =? scheme) SCHEMES.

Definition HasWellFormedSizes (scheme public_key_size signature_size : Z) : bool :=
  match FindScheme scheme with
  | None => false
  | Some spec =>
      (public_key_bytes spec =? public_key_size) && (signature_bytes spec =? signature_size)
  end.

Definition OpenSslName (scheme : Z) : option string :=
  if scheme =? SCHEME_ML_DSA_44 then Some "ML-DSA-44"%string
  else if scheme =? SCHEME_SLH_DSA_SHA2_128S then Some "SLH-DSA-SHA2-128s"%string
  else None.

(** Whether the process-wide fetched algorithm object is non-null. *)
Definition FetchedAlgorithm (scheme : Z) : bool :=
  if scheme =? SCHEME_ML_DSA_44 then evp_fetch "ML-DSA-44"
  else if scheme =? SCHEME_SLH_DSA_SHA2_128S then evp_fetch "SLH-DSA-SHA2-128s"
  else false.

Fixpoint first_unavailable (specs : list SchemeSpec) : Z :=
  match specs with
  | [] => SCHEME_RESERVED
  | spec :: specs =>
      match OpenSslName (id spec) with
      | Some _ => if FetchedAlgorithm (id spec) then first_unavailable specs else id spec
      | None => first_unavailable specs
      end
  end.

Definition FirstUnavailableScheme : Z := first_unavailable SCHEMES.

Definition VerifySchnorr (public_key signature message : bytes) : VerifyResult :=
  if xonly_pubkey_parse public_key then
    if schnorrsig_verify signature message public_key then Valid else Invalid
  else Malformed.

Definition VerifyWithOpenSsl (scheme : Z) (public_key signature message : bytes)
    : VerifyResult :=
  match OpenSslName scheme with
  | None => Malformed
  | Some algorithm =>
      if negb (FetchedAlgorithm scheme) then Malformed
      else if negb (evp_raw_public_key algorithm public_key) then Malformed
      else if negb (evp_verify_init algorithm public_key) then Malformed
      else if evp_verify algorithm public_key signature message then Valid else Invalid
  end.

Definition Verify (scheme : Z) (public_key signature message : bytes) : VerifyResult :=
  if scheme =? SCHEME_RESERVED then Reserved
  else match FindScheme scheme with
  | None => UnknownScheme
  | Some spec =>
      if negb (zlen public_key =? public_key_bytes spec)
         || negb (zlen signature =? signature_bytes spec) then Malformed
      else if scheme =? SCHEME_SCHNORR_SECP256K1 then VerifySchnorr public_key signature message
      else if (scheme =? SCHEME_ML_DSA_44) || (scheme =? SCHEME_SLH_DSA_SHA2_128S)
      then VerifyWithOpenSsl scheme public_key signature message
      else Malformed
  end.

Lemma FindScheme_Some scheme spec :
  FindScheme scheme = Some spec -> id spec = scheme /\ 1 <= scheme <= 3.
Proof.
  unfold FindScheme, SCHEMES. cbn [List.find id].
  repeat match goal with |- context [?a =? ?b] => destruct (Z.eqb_spec a b) end;
    intros [= <-]; subst; cbn [id]; split; try done; unfold SCHEME_SCHNORR_SECP256K1,
    SCHEME_ML_DSA_44, SCHEME_SLH_DSA_SHA2_128S; lia.
Qed.

Lemma FindScheme_known scheme : 1 <= scheme <= 3 -> is_Some (FindScheme scheme).
Proof.
  intros Hs. assert (scheme = 1 \/ scheme = 2 \/ scheme = 3) as [-> | [-> | ->]] by lia;
    eexists; reflexivity.
Qed.

Lemma Verify_unknown scheme pk sg msg :
  Verify scheme pk sg msg = UnknownScheme <-> scheme <> 0 /\ ~ 1 <= scheme <= 3.
Proof.
  unfold Verify, SCHEME_RESERVED. destruct (Z.eqb_spec scheme 0); [naive_solver|].
  destruct (FindScheme scheme) as [spec|] eqn:E.
  - apply FindScheme_Some in E as [_ ?]. split; [|lia].
    unfold VerifySchnorr, VerifyWithOpenSsl. repeat case_match; done.
  - split; [|done]. intros _. split; [done|]. intros [s Hs]%FindScheme_known. congruence.
Qed.

Lemma Verify_reserved scheme pk sg msg :
  Verify scheme pk sg msg = Reserved <-> scheme = 0.
Proof.
  unfold Verify, SCHEME_RESERVED, VerifySchnorr, VerifyWithOpenSsl.
  destruct (Z.eqb_spec scheme 0); [done|]. split; [|done]. repeat case_match; done.
Qed.
End verify.

(** ** Claims *)

(** No backend is ever handed a buffer of a size it does not expect. Whenever the
    key or the signature has another length than the registry's entry for the
    scheme, or the scheme is reserved or unknown, the verdict is the same
    whatever the cryptographic libraries would answer, and it is never Valid. *)
Theorem verify_sizes_guard_backends (B1 B2 : SignatureBackends) scheme pk sg msg :
  HasWellFormedSizes scheme (zlen pk) (zlen sg) = false ->
  Verify (H := B1) scheme pk sg msg = Verify (H := B2) scheme pk sg msg /\
  Verify (H := B1) scheme pk sg msg <> Valid.
Proof.
  unfold HasWellFormedSizes, Verify. destruct (scheme =? SCHEME_RESERVED); [done|].
  destruct (FindScheme scheme) as [spec|]; [|done].
  rewrite (Z.eqb_sym (public_key_bytes spec)), (Z.eqb_sym (signature_bytes spec)).
  destruct (zlen pk =? _), (zlen sg =? _); cbn [negb orb andb]; done.
Qed.

(** Backends that accept everything: the interesting case for the guard. *)
Definition yes_backends : SignatureBackends :=
  {| xonly_pubkey_parse _ := true; schnorrsig_verify _ _ _ := true; evp_fetch _ := true;
     evp_raw_public_key _ _ := true; evp_verify_init _ _ := true; evp_verify _ _ _ _ := true |}.

Definition no_backends : SignatureBackends :=
  {| xonly_pubkey_parse _ := false; schnorrsig_verify _ _ _ := false; evp_fetch _ := false;
     evp_raw_public_key _ _ := false; evp_verify_init _ _ := false; evp_verify _ _ _ _ := false |}.

Lemma verify_sizes_guard_backends_witness :
  Verify (H := yes_backends) 1 (replicate 32 Byte.x00) (replicate 63 Byte.x00) [] <> Valid.
Proof.
  apply (verify_sizes_guard_backends yes_backends no_backends 1
           (replicate 32 Byte.x00) (replicate 63 Byte.x00) []).
  reflexivity.
Defined.

End Signature.
