(* ===== verification/SchemeLifecycle.v ===== *)
(** * Scheme lifecycles (consensus/scheme_lifecycle.hpp, src/consensus/scheme_lifecycle.cpp)

    The registry of signature-scheme timelines: a vector of entries searched by
    identifier, and the state a height puts a scheme in. *)

From S2P Require Import Prelude Serialize Crypto.
From stdpp Require Import list.
#[local] Open Scope Z_scope.

Module SchemeLifecycle.

Inductive SchemeState := Pending | Active | Deprecated | Retired.

#[global] Instance SchemeState_eq_dec : EqDecision SchemeState.
Proof. solve_decision. Defined.

Record SchemeLifecycle := mkLifecycle {
  scheme_id : Z;
  activation_height : Z;
  deprecation_height : Z;
  retirement_height : Z }.

(** [entries_] *)
Definition Registry := list SchemeLifecycle.

Definition NEVER : Z := 0xFFFFFFFF.

(** The constructor: every known scheme active from genesis. *)
Definition SchemeLifecycleRegistry : Registry :=
  map (fun spec => mkLifecycle (Signature.id spec) 0 NEVER NEVER) Signature.KnownSchemes.

(** The search shared by [GetState] and [GetLifecycle]: the first entry of that id. *)
Fixpoint find_entry (id : Z) (entries : Registry) : option SchemeLifecycle :=
  match entries with
  | [] => None
  | entry :: entries => if scheme_id entry =? id then Some entry else find_entry id entries
  end.

Definition GetState (r : Registry) (id height : Z) : SchemeState :=
  if id =? 0 then Retired
  else match find_entry id r with
       | None => Pending
       | Some entry =>
           if height <? activation_height entry then Pending
           else if retirement_height entry <=? height then Retired
           else if deprecation_height entry <=? height then Deprecated
           else Active
       end.

Definition MayCreateOutput (r : Registry) (id height : Z) : bool :=
  bool_decide (GetState r id height = Active).

Definition IsSpendable (r : Registry) (id height : Z) : bool := negb (id =? 0).

(** Replace the first entry of that id in place, or append. *)
Fixpoint Register (lifecycle : SchemeLifecycle) (entries : Registry) : Registry :=
  match entries with
  | [] => [lifecycle]
  | entry :: entries =>
      if scheme_id entry =? scheme_id lifecycle then lifecycle :: entries
      else entry :: Register lifecycle entries
  end.

Definition GetLifecycle (r : Registry) (id : Z) : option SchemeLifecycle :=
  if id =? 0 then None else find_entry id r.

Definition Size (r : Registry) : Z := zlen r.

(** ** Lemmas *)

(** How far along its life a scheme is. *)
Definition stage (s : SchemeState) : Z :=
  match s with Pending => 0 | Active => 1 | Deprecated => 2 | Retired => 3 end.

Lemma find_Register l r id :
  find_entry id (Register l r) = if id =? scheme_id l then Some l else find_entry id r.
Proof.
  induction r as [|e r IH]; cbn [Register find_entry].
  - by rewrite (Z.eqb_sym (scheme_id l) id).
  - destruct (Z.eqb_spec (scheme_id e) (scheme_id l)) as [E|E]; cbn [find_entry].
    + rewrite E, (Z.eqb_sym (scheme_id l) id). by destruct (id =? scheme_id l).
    + rewrite IH. destruct (Z.eqb_spec (scheme_id e) id) as [<-|]; [|done].
      by rewrite (proj2 (Z.eqb_neq _ _) E).
Qed.

Lemma Register_ids l r : NoDup (map scheme_id r) ->
  NoDup (map scheme_id (Register l r)) /\
  forall i, i ∈ map scheme_id (Register l r) <-> i = scheme_id l \/ i ∈ map scheme_id r.
Proof.
  induction r as [|e r IH]; cbn [Register map]; intros Hd.
  - split; [apply NoDup_singleton|]. intros i. rewrite list_elem_of_singleton. split; [by left|].
    intros [?|[]%elem_of_nil]; done.
  - apply NoDup_cons in Hd as [Hn Hd]. destruct (Z.eqb_spec (scheme_id e) (scheme_id l)) as [E|E]; cbn [map].
    + rewrite E in *. split; [by constructor|]. intros i. rewrite !elem_of_cons. tauto.
    + destruct (IH Hd) as [Hd' Hi]. split.
      * constructor; [|done]. rewrite Hi. by intros [?|?].
      * intros i. rewrite !elem_of_cons, Hi. tauto.
Qed.

Lemma known_ids_unique : NoDup (map scheme_id SchemeLifecycleRegistry).
Proof. apply (bool_decide_unpack _). vm_compute. exact I. Qed.

Lemma registered_unique ls : forall r, NoDup (map scheme_id r) ->
  NoDup (map scheme_id (fold_left (fun r l => Register l r) ls r)).
Proof.
  induction ls as [|l ls IH]; intros r Hd; [done|]. cbn [fold_left]. apply IH. by apply Register_ids.
Qed.

(** ** The theorems *)

(** A scheme only ages.  In a registry reached by any registrations, ids stay
    unique, the last registration of an id is the one looked up and disturbs no
    other id; the state of a scheme never moves back as height grows, whatever
    the order of its three heights; only an active scheme takes new outputs; and
    every scheme but the reserved one stays spendable at every height. *)
Theorem lifecycle_only_ages (ls : list SchemeLifecycle) (l : SchemeLifecycle) (id h h' : Z) (Hh : h <= h') :
  let r := fold_left (fun r l => Register l r) ls SchemeLifecycleRegistry in
  NoDup (map scheme_id r) /\
  GetLifecycle (Register l r) id =
    (if id =? 0 then None else if id =? scheme_id l then Some l else GetLifecycle r id) /\
  stage (GetState r id h) <= stage (GetState r id h') /\
  (MayCreateOutput r id h = true -> IsSpendable r id h' = true) /\
  (IsSpendable r id h = true <-> id <> 0).
Proof.
  cbv zeta. set (r := fold_left _ ls _). split_and!.
  - apply registered_unique, known_ids_unique.
  - unfold GetLifecycle. destruct (id =? 0); [done|]. apply find_Register.
  - unfold GetState. destruct (id =? 0); [done|]. destruct (find_entry id r) as [e|]; [|done].
    destruct (Z.ltb_spec h (activation_height e)), (Z.ltb_spec h' (activation_height e)),
      (Z.leb_spec (retirement_height e) h), (Z.leb_spec (retirement_height e) h'),
      (Z.leb_spec (deprecation_height e) h), (Z.leb_spec (deprecation_height e) h'); cbn; lia.
  - unfold MayCreateOutput, IsSpendable, GetState. destruct (id =? 0); [|done]. by rewrite bool_decide_eq_true.
  - unfold IsSpendable. rewrite negb_true_iff, Z.eqb_neq. done.
Qed.

Lemma lifecycle_only_ages_witness :
  let r := fold_left (fun r l => Register l r) [mkLifecycle 2 10 20 30] SchemeLifecycleRegistry in
  stage (GetState r 2 15) <= stage (GetState r 2 25) /\
  GetState r 2 15 = Active /\ GetState r 2 25 = Deprecated /\ GetState r 2 5 = Pending.
Proof.
  cbv zeta. split; [|vm_compute; auto].
  apply (lifecycle_only_ages [mkLifecycle 2 10 20 30] (mkLifecycle 1 0 0 0) 2 15 25). lia.
Defined.

(** The sentinel for "never" is an ordinary height: at the last one the default
    registry reports every scheme retired. *)
Lemma never_is_a_height :
  GetState SchemeLifecycleRegistry 1 0xFFFFFFFE = Active /\
  GetState SchemeLifecycleRegistry 1 0xFFFFFFFF = Retired.
Proof. vm_compute. auto. Qed.

End SchemeLifecycle.
