(* ===== verification/Primitives.v ===== *)
(** * Primitives: the data and its one encoding (src/primitives/, include/amarian/primitives/)

    Every structure has its record, its [Serialize], its [Deserialize], the
    well-formedness its C++ field types and decode limits impose, and a [Codec]
    instance: one byte string per value and one value per byte string. *)

From S2P Require Import Prelude Overflow Serialize Hex Crypto.

(** ** Amounts (amount.hpp) *)

Definition MAX_MONEY : Z := 83999999932170000.

Definition IsValidAmount (amount : Z) : bool := (0 <=? amount) && (amount <=? MAX_MONEY).

(** ** Outpoints (outpoint.hpp, outpoint.cpp) *)

Record OutPoint := mkOutPoint { op_txid : bytes; op_index : Z }.

#[global] Instance OutPoint_eq_dec : EqDecision OutPoint.
Proof. solve_decision. Defined.

#[global] Program Instance OutPoint_countable : Countable OutPoint :=
  inj_countable' (fun o => (op_txid o, op_index o)) (fun p => mkOutPoint p.1 p.2) _.
Next Obligation. by intros []. Qed.

Definition OutPoint_SERIALIZED_SIZE : Z := 32 + 4.

Definition OutPoint_Serialize (o : OutPoint) (w : Writer) : Writer :=
  WriteU32 (op_index o) (WriteHash256 (op_txid o) w).

Definition OutPoint_Deserialize : Read OutPoint :=
  txid ← ReadHash256; index ← ReadU32; mret (mkOutPoint txid index).

Definition OutPoint_ok (o : OutPoint) : Prop := is_hash (op_txid o) /\ u32 (op_index o).

(** [std::hash<OutPoint>]: eight txid bytes mixed with the index. *)
Definition OutPoint_hash (o : OutPoint) : Z :=
  Z.lxor (le_combine (take 8 (op_txid o)))
         (wrapu 64 (op_index o * 0x9E3779B97F4A7C15)).

(** ** Locks (lock.hpp, lock.cpp) *)

Definition LOCK_VERSION_UNSPENDABLE : Z := 0.
Definition LOCK_VERSION_CONDITION_COMMITMENT : Z := 1.

Record Lock := mkLock { lock_version : Z; lock_program : bytes }.

#[global] Instance Lock_eq_dec : EqDecision Lock.
Proof. solve_decision. Defined.

Definition Lock_IsUnspendable (l : Lock) : bool := lock_version l =? LOCK_VERSION_UNSPENDABLE.

Definition Lock_Serialize (l : Lock) (w : Writer) : Writer :=
  WriteByteString (lock_program l) (WriteU8 (lock_version l) w).

Definition Lock_Deserialize (max_program_size : Z) : Read Lock :=
  version ← ReadU8; program ← ReadByteString max_program_size; mret (mkLock version program).

Definition Lock_ok (max_program_size : Z) (l : Lock) : Prop :=
  u8 (lock_version l) /\ zlen (lock_program l) <= max_program_size.

(** ** Keys, signatures and spend conditions (spend_condition.hpp, spend_condition.cpp) *)

Definition SCHEME_RESERVED : Z := 0.
Definition CONDITION_VERSION_RESERVED : Z := 0.
Definition CONDITION_VERSION_THRESHOLD : Z := 1.

Record PublicKey := mkPublicKey { key_scheme : Z; key_bytes : bytes }.
Record Signature := mkSignature { sig_scheme : Z; sig_bytes : bytes }.

#[global] Instance PublicKey_eq_dec : EqDecision PublicKey.
Proof. solve_decision. Defined.
#[global] Instance Signature_eq_dec : EqDecision Signature.
Proof. solve_decision. Defined.

Definition PublicKey_MIN_SERIALIZED_SIZE : Z := 3.
Definition Signature_MIN_SERIALIZED_SIZE : Z := 3.

Definition PublicKey_Serialize (k : PublicKey) (w : Writer) : Writer :=
  WriteByteString (key_bytes k) (WriteU16 (key_scheme k) w).

Definition PublicKey_Deserialize (max_key_size : Z) : Read PublicKey :=
  scheme ← ReadU16; bs ← ReadByteString max_key_size; mret (mkPublicKey scheme bs).

Definition PublicKey_ok (max_key_size : Z) (k : PublicKey) : Prop :=
  u16 (key_scheme k) /\ zlen (key_bytes k) <= max_key_size.

(** [operator<=>]: by scheme, then lexicographically by bytes. *)
Definition PublicKey_compare (a b : PublicKey) : comparison :=
  match key_scheme a ?= key_scheme b with
  | Eq => lex_compare (key_bytes a) (key_bytes b)
  | c => c
  end.

Definition PublicKey_lt (a b : PublicKey) : bool :=
  match PublicKey_compare a b with Lt => true | _ => false end.

Definition Signature_Serialize (s : Signature) (w : Writer) : Writer :=
  WriteByteString (sig_bytes s) (WriteU16 (sig_scheme s) w).

Definition Signature_Deserialize (max_signature_size : Z) : Read Signature :=
  scheme ← ReadU16; bs ← ReadByteString max_signature_size; mret (mkSignature scheme bs).

Definition Signature_ok (max_signature_size : Z) (s : Signature) : Prop :=
  u16 (sig_scheme s) /\ zlen (sig_bytes s) <= max_signature_size.

Record SpendCondition := mkSpendCondition {
  cond_version : Z; cond_threshold : Z; cond_keys : list PublicKey }.

#[global] Instance SpendCondition_eq_dec : EqDecision SpendCondition.
Proof. solve_decision. Defined.

Definition SpendCondition_MIN_SERIALIZED_SIZE : Z := 3.

Definition SpendCondition_Serialize (c : SpendCondition) (w : Writer) : Writer :=
  write_all PublicKey_Serialize (cond_keys c)
    (WriteCompactSize (zlen (cond_keys c))
      (WriteU8 (cond_threshold c) (WriteU8 (cond_version c) w))).

Definition SpendCondition_Deserialize (max_keys max_key_size : Z) : Read SpendCondition :=
  version ← ReadU8;
  threshold ← ReadU8;
  keys ← read_vector max_keys PublicKey_MIN_SERIALIZED_SIZE (PublicKey_Deserialize max_key_size);
  mret (mkSpendCondition version threshold keys).

Definition SpendCondition_ok (max_keys max_key_size : Z) (c : SpendCondition) : Prop :=
  u8 (cond_version c) /\ u8 (cond_threshold c) /\
  Forall (PublicKey_ok max_key_size) (cond_keys c) /\ zlen (cond_keys c) <= max_keys.

(** ** Witnesses (witness.hpp, witness.cpp) *)

Record Witness := mkWitness { wit_condition : SpendCondition; wit_signatures : list Signature }.

#[global] Instance Witness_eq_dec : EqDecision Witness.
Proof. solve_decision. Defined.

Definition Witness_MIN_SERIALIZED_SIZE : Z := SpendCondition_MIN_SERIALIZED_SIZE + 1.

Definition Witness_Serialize (x : Witness) (w : Writer) : Writer :=
  write_all Signature_Serialize (wit_signatures x)
    (WriteCompactSize (zlen (wit_signatures x))
      (SpendCondition_Serialize (wit_condition x) w)).

Definition Witness_Deserialize (max_keys max_key_size max_signatures max_signature_size : Z)
    : Read Witness :=
  condition ← SpendCondition_Deserialize max_keys max_key_size;
  signatures ← read_vector max_signatures Signature_MIN_SERIALIZED_SIZE
                 (Signature_Deserialize max_signature_size);
  mret (mkWitness condition signatures).

(** ** Transactions (transaction.hpp, transaction.cpp) *)

Definition WITNESS_SCALE_FACTOR : Z := 4.

Record TxLimits := mkTxLimits {
  max_inputs : Z;
  max_outputs : Z;
  max_witnesses : Z;
  max_lock_program_size : Z;
  max_keys : Z;
  max_key_size : Z;
  max_signatures : Z;
  max_signature_size : Z;
  max_coinbase_data_size : Z }.

(** Every bound is a [size_t]. *)
Definition TxLimits_ok (l : TxLimits) : Prop :=
  u64 (max_inputs l) /\ u64 (max_outputs l) /\ u64 (max_witnesses l) /\
  u64 (max_lock_program_size l) /\ u64 (max_keys l) /\ u64 (max_key_size l) /\
  u64 (max_signatures l) /\ u64 (max_signature_size l) /\ u64 (max_coinbase_data_size l).

Definition COINBASE_OUTPOINT_INDEX : Z := 0xFFFFFFFF.

Record TxInput := mkTxInput { in_outpoint : OutPoint; in_sequence : Z }.
Record TxOutput := mkTxOutput { out_amount : Z; out_lock : Lock }.

#[global] Instance TxInput_eq_dec : EqDecision TxInput.
Proof. solve_decision. Defined.
#[global] Instance TxOutput_eq_dec : EqDecision TxOutput.
Proof. solve_decision. Defined.

Definition TxInput_SERIALIZED_SIZE : Z := OutPoint_SERIALIZED_SIZE + 4.
Definition TxOutput_MIN_SERIALIZED_SIZE : Z := 8 + 2.

Definition TxInput_Serialize (i : TxInput) (w : Writer) : Writer :=
  WriteU32 (in_sequence i) (OutPoint_Serialize (in_outpoint i) w).

Definition TxInput_Deserialize : Read TxInput :=
  outpoint ← OutPoint_Deserialize; sequence ← ReadU32; mret (mkTxInput outpoint sequence).

Definition TxInput_ok (i : TxInput) : Prop := OutPoint_ok (in_outpoint i) /\ u32 (in_sequence i).

Definition TxOutput_Serialize (o : TxOutput) (w : Writer) : Writer :=
  Lock_Serialize (out_lock o) (WriteI64 (out_amount o) w).

Definition TxOutput_Deserialize (max_lock_program : Z) : Read TxOutput :=
  amount ← ReadI64;
  lock ← Lock_Deserialize max_lock_program;
  if negb (IsValidAmount amount) then Fail
  else mret (mkTxOutput amount lock).

Definition TxOutput_ok (max_lock_program : Z) (o : TxOutput) : Prop :=
  IsValidAmount (out_amount o) = true /\ Lock_ok max_lock_program (out_lock o).

Record Transaction := mkTransaction {
  tx_version : Z;
  tx_inputs : list TxInput;
  tx_outputs : list TxOutput;
  tx_locktime : Z;
  tx_witnesses : list Witness;
  tx_coinbase_data : bytes }.

#[global] Instance Transaction_eq_dec : EqDecision Transaction.
Proof. solve_decision. Defined.

Definition Transaction_MIN_SERIALIZED_SIZE : Z := 4 + 3 + 4.

(** The inputs alone decide it. *)
Definition is_coinbase_inputs (inputs : list TxInput) : bool :=
  match inputs with
  | [i] => Hex.Hash256_IsZero (op_txid (in_outpoint i))
           && (op_index (in_outpoint i) =? COINBASE_OUTPOINT_INDEX)
  | _ => false
  end.

Definition IsCoinbase (tx : Transaction) : bool := is_coinbase_inputs (tx_inputs tx).

Definition SerializeWithoutWitnesses (tx : Transaction) (w : Writer) : Writer :=
  let w := WriteU32 (tx_version tx) w in
  let w := write_all TxInput_Serialize (tx_inputs tx) (WriteCompactSize (zlen (tx_inputs tx)) w) in
  let w := write_all TxOutput_Serialize (tx_outputs tx)
             (WriteCompactSize (zlen (tx_outputs tx)) w) in
  WriteU32 (tx_locktime tx) w.

Definition Transaction_Serialize (tx : Transaction) (w : Writer) : Writer :=
  let w := SerializeWithoutWitnesses tx w in
  if IsCoinbase tx then WriteByteString (tx_coinbase_data tx) w
  else write_all Witness_Serialize (tx_witnesses tx)
         (WriteCompactSize (zlen (tx_witnesses tx)) w).

Definition Transaction_Deserialize (limits : TxLimits) : Read Transaction :=
  version ← ReadU32;
  inputs ← read_vector (max_inputs limits) TxInput_SERIALIZED_SIZE TxInput_Deserialize;
  outputs ← read_vector (max_outputs limits) TxOutput_MIN_SERIALIZED_SIZE
              (TxOutput_Deserialize (max_lock_program_size limits));
  locktime ← ReadU32;
  if is_coinbase_inputs inputs then
    coinbase_data ← ReadByteString (max_coinbase_data_size limits);
    mret (mkTransaction version inputs outputs locktime [] coinbase_data)
  else
    witnesses ← read_vector (max_witnesses limits) Witness_MIN_SERIALIZED_SIZE
                  (Witness_Deserialize (max_keys limits) (max_key_size limits)
                     (max_signatures limits) (max_signature_size limits));
    mret (mkTransaction version inputs outputs locktime witnesses []).

Definition Witness_ok (l : TxLimits) (x : Witness) : Prop :=
  SpendCondition_ok (max_keys l) (max_key_size l) (wit_condition x) /\
  Forall (Signature_ok (max_signature_size l)) (wit_signatures x) /\
  zlen (wit_signatures x) <= max_signatures l.

(** What a decoded transaction satisfies: field widths, the limits, valid
    amounts, and exactly one of the two witness-section forms. *)
Definition Transaction_ok (l : TxLimits) (tx : Transaction) : Prop :=
  u32 (tx_version tx) /\
  (Forall TxInput_ok (tx_inputs tx) /\ zlen (tx_inputs tx) <= max_inputs l) /\
  (Forall (TxOutput_ok (max_lock_program_size l)) (tx_outputs tx) /\
   zlen (tx_outputs tx) <= max_outputs l) /\
  u32 (tx_locktime tx) /\
  (if IsCoinbase tx
   then tx_witnesses tx = [] /\ zlen (tx_coinbase_data tx) <= max_coinbase_data_size l
   else tx_coinbase_data tx = [] /\ Forall (Witness_ok l) (tx_witnesses tx) /\
        zlen (tx_witnesses tx) <= max_witnesses l).

(** [size_t] arithmetic wraps. *)
Definition Transaction_Weight (tx : Transaction) : Z :=
  let base_only := SerializeWithoutWitnesses tx new_Writer in
  let full := Transaction_Serialize tx new_Writer in
  let base := zlen base_only in
  wrapu 64 (base * WITNESS_SCALE_FACTOR + (zlen full - base)).

Definition MakeCoinbaseInput (height : Z) : TxInput :=
  mkTxInput (mkOutPoint (replicate 32 Byte.x00) COINBASE_OUTPOINT_INDEX) height.

(** ** Blocks (block.hpp, block.cpp) *)

Record BlockHeader := mkBlockHeader {
  hdr_version : Z;
  hdr_height : Z;
  hdr_prev_block : bytes;
  hdr_merkle_root : bytes;
  hdr_timestamp : Z;
  hdr_target_bits : Z;
  hdr_nonce : Z }.

#[global] Instance BlockHeader_eq_dec : EqDecision BlockHeader.
Proof. solve_decision. Defined.

Definition BlockHeader_SERIALIZED_SIZE : Z := 92.

Definition BlockHeader_Serialize (h : BlockHeader) (w : Writer) : Writer :=
  let w := WriteU32 (hdr_version h) w in
  let w := WriteU32 (hdr_height h) w in
  let w := WriteHash256 (hdr_prev_block h) w in
  let w := WriteHash256 (hdr_merkle_root h) w in
  let w := WriteI64 (hdr_timestamp h) w in
  let w := WriteU32 (hdr_target_bits h) w in
  WriteU64 (hdr_nonce h) w.

Definition BlockHeader_Deserialize : Read BlockHeader :=
  version ← ReadU32;
  height ← ReadU32;
  prev_block ← ReadHash256;
  merkle_root ← ReadHash256;
  timestamp ← ReadI64;
  target_bits ← ReadU32;
  nonce ← ReadU64;
  mret (mkBlockHeader version height prev_block merkle_root timestamp target_bits nonce).

Definition BlockHeader_ok (h : BlockHeader) : Prop :=
  u32 (hdr_version h) /\ u32 (hdr_height h) /\ is_hash (hdr_prev_block h) /\
  is_hash (hdr_merkle_root h) /\ i64 (hdr_timestamp h) /\ u32 (hdr_target_bits h) /\
  u64 (hdr_nonce h).

Record BlockLimits := mkBlockLimits { max_transactions : Z; limits_tx : TxLimits }.

Definition BlockLimits_ok (l : BlockLimits) : Prop :=
  u64 (max_transactions l) /\ TxLimits_ok (limits_tx l).

Record Block := mkBlock { blk_header : BlockHeader; blk_transactions : list Transaction }.

#[global] Instance Block_eq_dec : EqDecision Block.
Proof. solve_decision. Defined.

Definition Block_Serialize (b : Block) (w : Writer) : Writer :=
  write_all Transaction_Serialize (blk_transactions b)
    (WriteCompactSize (zlen (blk_transactions b)) (BlockHeader_Serialize (blk_header b) w)).

Definition Block_Deserialize (limits : BlockLimits) : Read Block :=
  header ← BlockHeader_Deserialize;
  transactions ← read_vector (max_transactions limits) Transaction_MIN_SERIALIZED_SIZE
                   (Transaction_Deserialize (limits_tx limits));
  mret (mkBlock header transactions).

Definition Block_ok (l : BlockLimits) (b : Block) : Prop :=
  BlockHeader_ok (blk_header b) /\
  Forall (Transaction_ok (limits_tx l)) (blk_transactions b) /\
  zlen (blk_transactions b) <= max_transactions l.

Definition Block_Weight (b : Block) : Z :=
  fold_left (fun weight tx => wrapu 64 (weight + Transaction_Weight tx)) (blk_transactions b)
    (wrapu 64 ((BlockHeader_SERIALIZED_SIZE + CompactSizeLen (zlen (blk_transactions b)))
               * WITNESS_SCALE_FACTOR)).

(** ** Coins (coin.hpp, coin.cpp) *)

Record Coin := mkCoin { coin_output : TxOutput; coin_height : Z; coin_is_coinbase : bool }.

#[global] Instance Coin_eq_dec : EqDecision Coin.
Proof. solve_decision. Defined.

Definition Coin_MIN_SERIALIZED_SIZE : Z := 4 + 1 + TxOutput_MIN_SERIALIZED_SIZE.

Definition Coin_Serialize (c : Coin) (w : Writer) : Writer :=
  let w := WriteU32 (coin_height c) w in
  let w := WriteU8 (if coin_is_coinbase c then 1 else 0) w in
  TxOutput_Serialize (coin_output c) w.

Definition Coin_Deserialize (max_lock_program : Z) : Read Coin :=
  height ← ReadU32;
  flag ← ReadU8;
  if flag >? 1 then Fail else
  output ← TxOutput_Deserialize max_lock_program;
  mret (mkCoin output height (flag =? 1)).

Definition Coin_ok (max_lock_program : Z) (c : Coin) : Prop :=
  u32 (coin_height c) /\ TxOutput_ok max_lock_program (coin_output c).

(** ** Identifiers *)

Section ids.
Context `{Sha256Impl}.

Definition Txid (tx : Transaction) : bytes :=
  DoubleSha256 (SerializeWithoutWitnesses tx new_Writer).

Definition Wtxid (tx : Transaction) : bytes :=
  DoubleSha256 (Transaction_Serialize tx new_Writer).

Definition BlockHeader_Hash (h : BlockHeader) : bytes :=
  DoubleSha256 (BlockHeader_Serialize h new_Writer).

Definition Block_Hash (b : Block) : bytes := BlockHeader_Hash (blk_header b).
End ids.

(** ** Codecs *)

#[global] Instance appends_OutPoint o : Appends (OutPoint_Serialize o).
Proof. solve_appends OutPoint_Serialize. Qed.
#[export] Hint Rewrite (fun x w => snoc_enc OutPoint_Serialize x w (appends_OutPoint x)) : enc.

#[global] Instance appends_Lock l : Appends (Lock_Serialize l).
Proof. solve_appends Lock_Serialize. Qed.
#[export] Hint Rewrite (fun x w => snoc_enc Lock_Serialize x w (appends_Lock x)) : enc.

#[global] Instance appends_PublicKey k : Appends (PublicKey_Serialize k).
Proof. solve_appends PublicKey_Serialize. Qed.
#[global] Instance appends_Signature s : Appends (Signature_Serialize s).
Proof. solve_appends Signature_Serialize. Qed.
#[export] Hint Rewrite (fun xs w => snoc_vector PublicKey_Serialize xs w appends_PublicKey)
  (fun xs w => snoc_vector Signature_Serialize xs w appends_Signature) : enc.

#[global] Instance appends_SpendCondition c : Appends (SpendCondition_Serialize c).
Proof. solve_appends SpendCondition_Serialize. Qed.
#[export] Hint Rewrite
  (fun x w => snoc_enc SpendCondition_Serialize x w (appends_SpendCondition x)) : enc.

#[global] Instance appends_Witness x : Appends (Witness_Serialize x).
Proof. solve_appends Witness_Serialize. Qed.
#[global] Instance appends_TxInput i : Appends (TxInput_Serialize i).
Proof. solve_appends TxInput_Serialize. Qed.
#[global] Instance appends_TxOutput o : Appends (TxOutput_Serialize o).
Proof. solve_appends TxOutput_Serialize. Qed.
#[export] Hint Rewrite (fun xs w => snoc_vector Witness_Serialize xs w appends_Witness)
  (fun xs w => snoc_vector TxInput_Serialize xs w appends_TxInput)
  (fun xs w => snoc_vector TxOutput_Serialize xs w appends_TxOutput)
  (fun x w => snoc_enc TxOutput_Serialize x w (appends_TxOutput x)) : enc.

#[global] Instance appends_WithoutWitnesses tx : Appends (SerializeWithoutWitnesses tx).
Proof. solve_appends SerializeWithoutWitnesses. Qed.
#[export] Hint Rewrite
  (fun x w => snoc_enc SerializeWithoutWitnesses x w (appends_WithoutWitnesses x)) : enc.

#[global] Instance appends_Transaction tx : Appends (Transaction_Serialize tx).
Proof. solve_appends Transaction_Serialize. Qed.
#[global] Instance appends_BlockHeader h : Appends (BlockHeader_Serialize h).
Proof. solve_appends BlockHeader_Serialize. Qed.
#[export] Hint Rewrite (fun xs w => snoc_vector Transaction_Serialize xs w appends_Transaction)
  (fun x w => snoc_enc BlockHeader_Serialize x w (appends_BlockHeader x)) : enc.

#[global] Instance appends_Block b : Appends (Block_Serialize b).
Proof. solve_appends Block_Serialize. Qed.
#[global] Instance appends_Coin c : Appends (Coin_Serialize c).
Proof. solve_appends Coin_Serialize. Qed.
#[export] Hint Rewrite (fun x w => snoc_enc Coin_Serialize x w (appends_Coin x)) : enc.

(** *** Encodings, flattened *)

Lemma flat_OutPoint o :
  encode OutPoint_Serialize o =
  encode WriteHash256 (op_txid o) ++ encode WriteU32 (op_index o) ++ [].
Proof. flat_enc OutPoint_Serialize. Qed.

Lemma flat_Lock l :
  encode Lock_Serialize l =
  encode WriteU8 (lock_version l) ++ encode WriteByteString (lock_program l) ++ [].
Proof. flat_enc Lock_Serialize. Qed.

Lemma flat_PublicKey k :
  encode PublicKey_Serialize k =
  encode WriteU16 (key_scheme k) ++ encode WriteByteString (key_bytes k) ++ [].
Proof. flat_enc PublicKey_Serialize. Qed.

Lemma flat_Signature s :
  encode Signature_Serialize s =
  encode WriteU16 (sig_scheme s) ++ encode WriteByteString (sig_bytes s) ++ [].
Proof. flat_enc Signature_Serialize. Qed.

Lemma flat_SpendCondition c :
  encode SpendCondition_Serialize c =
  encode WriteU8 (cond_version c) ++ encode WriteU8 (cond_threshold c) ++
  encode (write_vector PublicKey_Serialize) (cond_keys c) ++ [].
Proof. flat_enc SpendCondition_Serialize. Qed.

Lemma flat_Witness x :
  encode Witness_Serialize x =
  encode SpendCondition_Serialize (wit_condition x) ++
  encode (write_vector Signature_Serialize) (wit_signatures x) ++ [].
Proof. flat_enc Witness_Serialize. Qed.

Lemma flat_TxInput i :
  encode TxInput_Serialize i =
  encode OutPoint_Serialize (in_outpoint i) ++ encode WriteU32 (in_sequence i) ++ [].
Proof. flat_enc TxInput_Serialize. Qed.

Lemma flat_TxOutput o :
  encode TxOutput_Serialize o =
  encode WriteI64 (out_amount o) ++ encode Lock_Serialize (out_lock o) ++ [].
Proof. flat_enc TxOutput_Serialize. Qed.

Lemma flat_WithoutWitnesses tx :
  encode SerializeWithoutWitnesses tx =
  encode WriteU32 (tx_version tx) ++ encode (write_vector TxInput_Serialize) (tx_inputs tx) ++
  encode (write_vector TxOutput_Serialize) (tx_outputs tx) ++ encode WriteU32 (tx_locktime tx).
Proof. flat_enc SerializeWithoutWitnesses. Qed.

Definition witness_section (tx : Transaction) : bytes :=
  if IsCoinbase tx then encode WriteByteString (tx_coinbase_data tx)
  else encode (write_vector Witness_Serialize) (tx_witnesses tx).

Lemma Transaction_split tx :
  encode Transaction_Serialize tx = encode SerializeWithoutWitnesses tx ++ witness_section tx.
Proof.
  unfold encode at 1, Transaction_Serialize, witness_section, new_Writer.
  destruct (IsCoinbase tx); autorewrite with enc; by rewrite app_nil_l.
Qed.

Lemma flat_BlockHeader h :
  encode BlockHeader_Serialize h =
  encode WriteU32 (hdr_version h) ++ encode WriteU32 (hdr_height h) ++
  encode WriteHash256 (hdr_prev_block h) ++ encode WriteHash256 (hdr_merkle_root h) ++
  encode WriteI64 (hdr_timestamp h) ++ encode WriteU32 (hdr_target_bits h) ++
  encode WriteU64 (hdr_nonce h) ++ [].
Proof. flat_enc BlockHeader_Serialize. Qed.

Lemma flat_Block b :
  encode Block_Serialize b =
  encode BlockHeader_Serialize (blk_header b) ++
  encode (write_vector Transaction_Serialize) (blk_transactions b) ++ [].
Proof. flat_enc Block_Serialize. Qed.

Lemma flat_Coin c :
  encode Coin_Serialize c =
  encode WriteU32 (coin_height c) ++ encode WriteU8 (if coin_is_coinbase c then 1 else 0) ++
  encode TxOutput_Serialize (coin_output c) ++ [].
Proof. flat_enc Coin_Serialize. Qed.

(** *** Smallest encodings: the floors the allocation bounds divide by *)

Lemma PublicKey_min k : PublicKey_MIN_SERIALIZED_SIZE <= zlen (encode PublicKey_Serialize k).
Proof.
  rewrite flat_PublicKey. autorewrite with amarian.
  pose proof (zlen_ByteString_pos (key_bytes k)). unfold PublicKey_MIN_SERIALIZED_SIZE. lia.
Qed.

Lemma Signature_min s : Signature_MIN_SERIALIZED_SIZE <= zlen (encode Signature_Serialize s).
Proof.
  rewrite flat_Signature. autorewrite with amarian.
  pose proof (zlen_ByteString_pos (sig_bytes s)). unfold Signature_MIN_SERIALIZED_SIZE. lia.
Qed.

Lemma Witness_min x : Witness_MIN_SERIALIZED_SIZE <= zlen (encode Witness_Serialize x).
Proof.
  rewrite flat_Witness, flat_SpendCondition. autorewrite with amarian.
  pose proof (zlen_vector_pos Signature_Serialize (wit_signatures x) _).
  pose proof (zlen_vector_pos PublicKey_Serialize (cond_keys (wit_condition x)) _).
  unfold Witness_MIN_SERIALIZED_SIZE, SpendCondition_MIN_SERIALIZED_SIZE. lia.
Qed.

Lemma TxInput_size i : TxInput_ok i -> zlen (encode TxInput_Serialize i) = TxInput_SERIALIZED_SIZE.
Proof.
  intros [[Hh _] _]. rewrite flat_TxInput, flat_OutPoint. autorewrite with amarian.
  rewrite Hh. reflexivity.
Qed.

Lemma TxOutput_min o : TxOutput_MIN_SERIALIZED_SIZE <= zlen (encode TxOutput_Serialize o).
Proof.
  rewrite flat_TxOutput, flat_Lock. autorewrite with amarian.
  pose proof (zlen_ByteString_pos (lock_program (out_lock o))).
  unfold TxOutput_MIN_SERIALIZED_SIZE. lia.
Qed.

Lemma Transaction_min tx :
  Transaction_MIN_SERIALIZED_SIZE <= zlen (encode Transaction_Serialize tx).
Proof.
  rewrite Transaction_split, flat_WithoutWitnesses. autorewrite with amarian.
  pose proof (zlen_vector_pos TxInput_Serialize (tx_inputs tx) _).
  pose proof (zlen_vector_pos TxOutput_Serialize (tx_outputs tx) _).
  assert (1 <= zlen (witness_section tx)).
  { unfold witness_section. case_match; [apply zlen_ByteString_pos|apply zlen_vector_pos, _]. }
  unfold Transaction_MIN_SERIALIZED_SIZE. lia.
Qed.

Lemma Coin_min c : Coin_MIN_SERIALIZED_SIZE <= zlen (encode Coin_Serialize c).
Proof.
  rewrite flat_Coin. autorewrite with amarian. pose proof (TxOutput_min (coin_output c)).
  unfold Coin_MIN_SERIALIZED_SIZE. lia.
Qed.

(** *** The contracts *)

#[global] Instance codec_OutPoint :
  Codec (encode OutPoint_Serialize) OutPoint_Deserialize OutPoint_ok.
Proof.
  eapply codec_struct; [|exact flat_OutPoint]. field op_txid. field op_index. struct_done.
Qed.

#[global] Instance codec_TxInput : Codec (encode TxInput_Serialize) TxInput_Deserialize TxInput_ok.
Proof.
  eapply codec_struct; [|exact flat_TxInput]. field in_outpoint. field in_sequence. struct_done.
Qed.

#[global] Instance codec_BlockHeader :
  Codec (encode BlockHeader_Serialize) BlockHeader_Deserialize BlockHeader_ok.
Proof.
  eapply codec_struct; [|exact flat_BlockHeader].
  field hdr_version. field hdr_height. field hdr_prev_block. field hdr_merkle_root.
  field hdr_timestamp. field hdr_target_bits. field hdr_nonce. struct_done.
Qed.

Section lock_codecs.
Context (max : Z) (Hmax : u64 max).
#[local] Instance codec_bytes : Codec (encode WriteByteString) (ReadByteString max)
  (fun bs => zlen bs <= max).
Proof. apply codec_ByteString, Hmax. Qed.

Lemma codec_Lock : Codec (encode Lock_Serialize) (Lock_Deserialize max) (Lock_ok max).
Proof.
  eapply codec_struct; [|exact flat_Lock]. field lock_version. field lock_program. struct_done.
Qed.

Lemma codec_PublicKey :
  Codec (encode PublicKey_Serialize) (PublicKey_Deserialize max) (PublicKey_ok max).
Proof.
  eapply codec_struct; [|exact flat_PublicKey]. field key_scheme. field key_bytes. struct_done.
Qed.

Lemma codec_Signature :
  Codec (encode Signature_Serialize) (Signature_Deserialize max) (Signature_ok max).
Proof.
  eapply codec_struct; [|exact flat_Signature]. field sig_scheme. field sig_bytes. struct_done.
Qed.
End lock_codecs.

Lemma IsValidAmount_spec a : IsValidAmount a = true <-> 0 <= a <= MAX_MONEY.
Proof. unfold IsValidAmount. rewrite andb_true_iff. lia. Qed.

Lemma IsValidAmount_i64 a : IsValidAmount a = true -> i64 a.
Proof. rewrite IsValidAmount_spec. unfold MAX_MONEY, i64. lia. Qed.

Lemma codec_TxOutput max :
  u64 max -> Codec (encode TxOutput_Serialize) (TxOutput_Deserialize max) (TxOutput_ok max).
Proof.
  intros Hmax. pose proof (codec_Lock max Hmax).
  eapply codec_struct; [|exact flat_TxOutput].
  eapply (codec_field out_amount);
    [apply _|intros a ?|intros b _ [? ?]; by apply IsValidAmount_i64].
  field out_lock. destruct (IsValidAmount a) eqn:E; cbn [negb].
  - struct_done.
  - apply codec_refuse. intros b [[[_ <-] _] [? _]]. congruence.
Qed.

Lemma codec_Coin max :
  u64 max -> Codec (encode Coin_Serialize) (Coin_Deserialize max) (Coin_ok max).
Proof.
  intros Hmax. pose proof (codec_TxOutput max Hmax).
  eapply codec_struct; [|exact flat_Coin]. field coin_height.
  eapply (codec_field (fun c => if coin_is_coinbase c then 1 else 0));
    [apply _|intros flag Hflag|intros b _ _; by destruct (coin_is_coinbase b)].
  rewrite Z.gtb_ltb. destruct (Z.ltb_spec 1 flag).
  - apply codec_refuse. intros b [[_ Hf] _]. destruct (coin_is_coinbase b); lia.
  - field coin_output. assert (flag = 0 \/ flag = 1) as Hb by mlia.
    apply codec_done; [|hnf; naive_solver|].
    + destruct Hb as [-> | ->]; naive_solver.
    + intros []; simpl. intros [[[_ ->] Hf] ->] _. f_equal. destruct coin_is_coinbase0; subst; done.
Qed.

Section transaction_codecs.
Context (l : TxLimits) (Hl : TxLimits_ok l).

#[local] Instance codec_keys :
  Codec (encode (write_vector PublicKey_Serialize))
    (read_vector (max_keys l) PublicKey_MIN_SERIALIZED_SIZE (PublicKey_Deserialize (max_key_size l)))
    (fun ks => Forall (PublicKey_ok (max_key_size l)) ks /\ zlen ks <= max_keys l).
Proof.
  destruct Hl as (? & ? & ? & ? & ? & ? & _). eapply (codec_vector _ _ _ (Happ := appends_PublicKey)).
  - by apply codec_PublicKey.
  - done.
  - mlia.
  - intros. apply PublicKey_min.
Qed.

#[local] Instance codec_signatures :
  Codec (encode (write_vector Signature_Serialize))
    (read_vector (max_signatures l) Signature_MIN_SERIALIZED_SIZE
      (Signature_Deserialize (max_signature_size l)))
    (fun ss => Forall (Signature_ok (max_signature_size l)) ss /\ zlen ss <= max_signatures l).
Proof.
  destruct Hl as (? & ? & ? & ? & ? & ? & ? & ? & _). eapply (codec_vector _ _ _ (Happ := appends_Signature)).
  - by apply codec_Signature.
  - done.
  - mlia.
  - intros. apply Signature_min.
Qed.

#[local] Instance codec_SpendCondition :
  Codec (encode SpendCondition_Serialize) (SpendCondition_Deserialize (max_keys l) (max_key_size l))
    (SpendCondition_ok (max_keys l) (max_key_size l)).
Proof.
  eapply codec_struct; [|exact flat_SpendCondition].
  field cond_version. field cond_threshold. field cond_keys. struct_done.
Qed.

#[local] Instance codec_Witness :
  Codec (encode Witness_Serialize)
    (Witness_Deserialize (max_keys l) (max_key_size l) (max_signatures l) (max_signature_size l))
    (Witness_ok l).
Proof.
  eapply codec_struct; [|exact flat_Witness].
  field wit_condition. field wit_signatures. struct_done.
Qed.

#[local] Instance codec_inputs :
  Codec (encode (write_vector TxInput_Serialize))
    (read_vector (max_inputs l) TxInput_SERIALIZED_SIZE TxInput_Deserialize)
    (fun xs => Forall TxInput_ok xs /\ zlen xs <= max_inputs l).
Proof.
  destruct Hl as (? & _). eapply (codec_vector _ _ _ (Happ := appends_TxInput)).
  - apply _.
  - done.
  - mlia.
  - intros x Hx. by rewrite TxInput_size.
Qed.

#[local] Instance codec_outputs :
  Codec (encode (write_vector TxOutput_Serialize))
    (read_vector (max_outputs l) TxOutput_MIN_SERIALIZED_SIZE
      (TxOutput_Deserialize (max_lock_program_size l)))
    (fun xs => Forall (TxOutput_ok (max_lock_program_size l)) xs /\ zlen xs <= max_outputs l).
Proof.
  destruct Hl as (? & ? & ? & ? & _). eapply (codec_vector _ _ _ (Happ := appends_TxOutput)).
  - by apply codec_TxOutput.
  - done.
  - mlia.
  - intros. apply TxOutput_min.
Qed.

#[local] Instance codec_witnesses :
  Codec (encode (write_vector Witness_Serialize))
    (read_vector (max_witnesses l) Witness_MIN_SERIALIZED_SIZE
      (Witness_Deserialize (max_keys l) (max_key_size l) (max_signatures l) (max_signature_size l)))
    (fun xs => Forall (Witness_ok l) xs /\ zlen xs <= max_witnesses l).
Proof.
  destruct Hl as (? & ? & ? & _). eapply (codec_vector _ _ _ (Happ := appends_Witness)).
  - apply _.
  - done.
  - mlia.
  - intros. apply Witness_min.
Qed.

#[local] Instance codec_coinbase_data :
  Codec (encode WriteByteString) (ReadByteString (max_coinbase_data_size l))
    (fun bs => zlen bs <= max_coinbase_data_size l).
Proof. apply codec_ByteString. destruct Hl as (? & ? & ? & ? & ? & ? & ? & ? & ?). mlia. Qed.

Lemma flat_Transaction tx :
  encode Transaction_Serialize tx =
  encode WriteU32 (tx_version tx) ++ encode (write_vector TxInput_Serialize) (tx_inputs tx) ++
  encode (write_vector TxOutput_Serialize) (tx_outputs tx) ++
  encode WriteU32 (tx_locktime tx) ++ witness_section tx.
Proof. by rewrite Transaction_split, flat_WithoutWitnesses, <- !app_assoc. Qed.

Lemma codec_Transaction :
  Codec (encode Transaction_Serialize) (Transaction_Deserialize l) (Transaction_ok l).
Proof.
  eapply codec_struct; [|exact flat_Transaction].
  field tx_version. field tx_inputs. field tx_outputs. field tx_locktime.
  destruct (is_coinbase_inputs a0) eqn:Ecb.
  - eapply (codec_reenc (fun tx => encode WriteByteString (tx_coinbase_data tx) ++ [])).
    + eapply (codec_field tx_coinbase_data); [apply _|intros data ?|].
      * apply codec_done; [by split_and!| |].
        -- unfold Transaction_ok, IsCoinbase. cbn. by rewrite Ecb.
        -- intros []; unfold Transaction_ok, IsCoinbase; cbn.
           intros [[[[[_ ->] ->] ->] ->] ->] W. rewrite Ecb in W. naive_solver.
      * intros b Hk W. unfold Transaction_ok, IsCoinbase in W.
        destruct Hk as [[[_ E] _] _]. rewrite E, Ecb in W. naive_solver.
    + intros b [[[[_ E] _] _] _]. unfold witness_section, IsCoinbase.
      rewrite E, Ecb. by rewrite app_nil_r.
  - eapply (codec_reenc (fun tx => encode (write_vector Witness_Serialize) (tx_witnesses tx) ++ [])).
    + eapply (codec_field tx_witnesses); [apply _|intros ws ?|].
      * apply codec_done; [by split_and!| |].
        -- unfold Transaction_ok, IsCoinbase. cbn. by rewrite Ecb.
        -- intros []; unfold Transaction_ok, IsCoinbase; cbn.
           intros [[[[[_ ->] ->] ->] ->] ->] W. rewrite Ecb in W. naive_solver.
      * intros b Hk W. unfold Transaction_ok, IsCoinbase in W.
        destruct Hk as [[[_ E] _] _]. rewrite E, Ecb in W. naive_solver.
    + intros b [[[[_ E] _] _] _]. unfold witness_section, IsCoinbase.
      rewrite E, Ecb. by rewrite app_nil_r.
Qed.
End transaction_codecs.

Lemma codec_Block l :
  BlockLimits_ok l ->
  Codec (encode Block_Serialize) (Block_Deserialize l) (Block_ok l).
Proof.
  intros [Hm Hl]. pose proof (codec_Transaction (limits_tx l) Hl) as CT.
  assert (Codec (encode (write_vector Transaction_Serialize))
    (read_vector (max_transactions l) Transaction_MIN_SERIALIZED_SIZE
       (Transaction_Deserialize (limits_tx l)))
    (fun xs => Forall (Transaction_ok (limits_tx l)) xs /\ zlen xs <= max_transactions l)).
  { eapply (codec_vector _ _ _ (Happ := appends_Transaction)); [done|done|mlia|].
    intros. apply Transaction_min. }
  eapply codec_struct; [|exact flat_Block].
  field blk_header. field blk_transactions. struct_done.
Qed.

#[global] Instance sticky_Transaction l : Sticky (Transaction_Deserialize l).
Proof. apply _. Qed.
#[global] Instance sticky_Block l : Sticky (Block_Deserialize l).
Proof. apply _. Qed.

(** ** Order on keys *)

Lemma PublicKey_lt_irrefl k : PublicKey_lt k k = false.
Proof.
  unfold PublicKey_lt, PublicKey_compare. rewrite Z.compare_refl.
  by rewrite (proj2 (lex_compare_eq _ _) eq_refl).
Qed.

Lemma PublicKey_lt_trans a b c :
  PublicKey_lt a b = true -> PublicKey_lt b c = true -> PublicKey_lt a c = true.
Proof.
  unfold PublicKey_lt, PublicKey_compare.
  destruct (Z.compare_spec (key_scheme a) (key_scheme b)),
    (Z.compare_spec (key_scheme b) (key_scheme c)),
    (Z.compare_spec (key_scheme a) (key_scheme c)); try done; try lia.
  destruct (lex_compare (key_bytes a) (key_bytes b)) eqn:E1; try done.
  destruct (lex_compare (key_bytes b) (key_bytes c)) eqn:E2; try done.
  by rewrite (lex_compare_lt_trans _ _ _ E1 E2).
Qed.

(** ** Weights *)

(** The bytes that carry no authorisation: what a block would be without its
    witness sections. *)
Definition base_bytes (b : Block) : bytes :=
  encode BlockHeader_Serialize (blk_header b) ++
  encode WriteCompactSize (zlen (blk_transactions b)) ++
  write_all SerializeWithoutWitnesses (blk_transactions b) [].

Lemma weight_split tx :
  3 * zlen (encode SerializeWithoutWitnesses tx) + zlen (encode Transaction_Serialize tx) < 2 ^ 64 ->
  Transaction_Weight tx =
  3 * zlen (encode SerializeWithoutWitnesses tx) + zlen (encode Transaction_Serialize tx).
Proof.
  intros Hb. unfold Transaction_Weight. cbv zeta. fold (encode SerializeWithoutWitnesses tx).
  fold (encode Transaction_Serialize tx). rewrite wrapu_small.
  - unfold WITNESS_SCALE_FACTOR. lia.
  - pose proof (zlen_nonneg (encode SerializeWithoutWitnesses tx)).
    rewrite Transaction_split, zlen_app in *. pose proof (zlen_nonneg (witness_section tx)).
    unfold WITNESS_SCALE_FACTOR. lia.
Qed.

Lemma BlockHeader_size h :
  BlockHeader_ok h -> zlen (encode BlockHeader_Serialize h) = BlockHeader_SERIALIZED_SIZE.
Proof.
  intros (_ & _ & Hp & Hm & _). rewrite flat_BlockHeader. autorewrite with amarian.
  rewrite Hp, Hm. reflexivity.
Qed.

Lemma weight_fold txs : forall acc,
  0 <= acc ->
  acc + 3 * zlen (write_all SerializeWithoutWitnesses txs []) +
    zlen (write_all Transaction_Serialize txs []) < 2 ^ 64 ->
  fold_left (fun weight tx => wrapu 64 (weight + Transaction_Weight tx)) txs acc =
  acc + 3 * zlen (write_all SerializeWithoutWitnesses txs []) +
    zlen (write_all Transaction_Serialize txs []).
Proof.
  induction txs as [|tx txs IH]; intros acc Ha; [unfold write_all; cbn [fold_left]; rewrite (zlen_nil (A := Init.Byte.byte)); lia|].
  rewrite !write_all_cons by apply _. rewrite !zlen_app. cbn [fold_left]. intros Hb.
  pose proof (zlen_nonneg (encode SerializeWithoutWitnesses tx)).
  pose proof (zlen_nonneg (encode Transaction_Serialize tx)).
  pose proof (zlen_nonneg (write_all SerializeWithoutWitnesses txs [])).
  pose proof (zlen_nonneg (write_all Transaction_Serialize txs [])).
  rewrite weight_split by lia. rewrite wrapu_small by lia. rewrite IH by lia. lia.
Qed.

Lemma encode_compact_len n : 0 <= n < 2 ^ 64 -> zlen (encode WriteCompactSize n) = CompactSizeLen n.
Proof. apply zlen_compact. Qed.

(** ** Identifiers *)

Definition with_witnesses (tx : Transaction) (ws : list Witness) (data : bytes) : Transaction :=
  mkTransaction (tx_version tx) (tx_inputs tx) (tx_outputs tx) (tx_locktime tx) ws data.

(** ** A sample, to run the model on *)

Definition sample_limits : BlockLimits :=
  mkBlockLimits 100 (mkTxLimits 10 10 10 128 16 4096 16 8192 100).

Definition sample_coinbase (height amount : Z) : Transaction :=
  mkTransaction 1 [MakeCoinbaseInput height]
    [mkTxOutput amount (mkLock 1 (replicate 32 Byte.x11))] 0 [] (replicate 4 Byte.x2a).

Definition sample_spend (txid : bytes) (amount : Z) : Transaction :=
  mkTransaction 1 [mkTxInput (mkOutPoint txid 0) 0]
    [mkTxOutput amount (mkLock 2 [Byte.x01])] 0
    [mkWitness (mkSpendCondition 1 1 [mkPublicKey 1 (replicate 32 Byte.x02)])
               [mkSignature 1 (replicate 64 Byte.x03)]] [].

Definition sample_block : Block :=
  mkBlock (mkBlockHeader 1 7 (replicate 32 Byte.x00) (replicate 32 Byte.x05) 1788598800 0x207fffff 3)
    [sample_coinbase 7 50; sample_spend (replicate 32 Byte.x09) 40].

(** Decides the well-formedness of a concrete value by evaluation. *)
Ltac eval_ok :=
  repeat match goal with
  | |- _ /\ _ => split
  | |- Forall _ [] => constructor
  | |- Forall _ (_ :: _) => constructor
  | |- Forall ?P ?l => let l' := eval hnf in l in progress change (Forall P l')
  | |- _ <= _ < _ => split
  | |- _ <= _ => vm_compute; congruence
  | |- _ < _ => vm_compute; reflexivity
  | |- _ = _ => vm_compute; reflexivity
  | |- _ => progress hnf
  end.

Lemma sample_limits_ok : BlockLimits_ok sample_limits.
Proof. eval_ok. Qed.

Lemma sample_block_ok : Block_ok sample_limits sample_block.
Proof. eval_ok. Qed.

(** ** Claims *)

(** A block has exactly one encoding and the decoder accepts nothing else. On any
    addressable buffer, parsing with the consensus limits succeeds with [b]
    exactly when [b] respects the field widths, limits and amount range, and the
    buffer is byte for byte the serialisation of [b]; in particular
    deserialisation inverts serialisation, and trailing bytes are refused. *)
Theorem block_parse_canonical (l : BlockLimits) (bs : bytes) (b : Block) :
  BlockLimits_ok l -> zlen bs < 2 ^ 64 ->
  Parse (Block_Deserialize l) bs = Some b <->
  Block_ok l b /\ bs = encode Block_Serialize b.
Proof. intros Hl Hbs. by apply (codec_parse _ _ _ (codec_Block l Hl)). Qed.

Lemma block_parse_canonical_witness :
  Parse (Block_Deserialize sample_limits) (encode Block_Serialize sample_block) = Some sample_block.
Proof.
  apply (block_parse_canonical sample_limits (encode Block_Serialize sample_block) sample_block);
    [exact sample_limits_ok | reflexivity | split; [exact sample_block_ok | reflexivity]].
Defined.

(** A transaction has exactly one encoding, in whichever of the two forms its
    witness section takes, and the decoder accepts nothing else. *)
Theorem transaction_parse_canonical (l : TxLimits) (bs : bytes) (tx : Transaction) :
  TxLimits_ok l -> zlen bs < 2 ^ 64 ->
  Parse (Transaction_Deserialize l) bs = Some tx <->
  Transaction_ok l tx /\ bs = encode Transaction_Serialize tx.
Proof. intros Hl Hbs. by apply (codec_parse _ _ _ (codec_Transaction l Hl)). Qed.

Lemma transaction_parse_canonical_witness :
  Parse (Transaction_Deserialize (limits_tx sample_limits))
    (encode Transaction_Serialize (sample_coinbase 7 50)) = Some (sample_coinbase 7 50).
Proof.
  apply (transaction_parse_canonical (limits_tx sample_limits)
           (encode Transaction_Serialize (sample_coinbase 7 50)) (sample_coinbase 7 50));
    [eval_ok | reflexivity | split; [eval_ok | reflexivity]].
Defined.

(** Decoding a block is memory-safe and its failure is sticky. From any reader
    whose position is inside its buffer, the decoder never moves outside it and
    never changes the buffer; it reports failure exactly by leaving the reader
    failed; and a reader that had already failed is not moved at all. *)
Theorem block_decode_safe (l : BlockLimits) (r r' : Reader) (o : option Block) :
  BlockLimits_ok l -> Reader_inv r -> Block_Deserialize l r = (o, r') ->
  Reader_inv r' /\ bytes_ r' = bytes_ r /\ ok_ r' = bool_decide (is_Some o) /\
  (ok_ r = false -> o = None /\ r' = r).
Proof.
  intros Hl Hr E. pose proof (codec_Block l Hl) as C.
  destruct (ok_ r) eqn:Hk.
  - destruct o as [b|].
    + apply codec_iff in E as (W & [t T] & ->); try done.
      split_and!; [by eapply advance_inv|done|exact Hk|done].
    + apply codec_fail in E as (-> & ? & ?); done.
  - rewrite (sticky (dec := Block_Deserialize l) r Hk) in E. by injection E as <- <-.
Qed.

Lemma block_decode_safe_witness :
  Reader_inv (snd (Block_Deserialize sample_limits (new_Reader [Byte.x01]))) /\
  ok_ (snd (Block_Deserialize sample_limits (new_Reader [Byte.x01]))) = false.
Proof.
  destruct (block_decode_safe sample_limits (new_Reader [Byte.x01])
    (snd (Block_Deserialize sample_limits (new_Reader [Byte.x01]))) None)
    as (H1 & _ & H2 & _); [exact sample_limits_ok | eval_ok | vm_compute; reflexivity | auto].
Defined.

(** A transaction id ignores authorisation and commits to everything else. Changing
    the witnesses or the coinbase bytes leaves the txid alone; and the txid
    preimages of two decoded transactions coincide only if version, inputs,
    outputs and locktime all do. *)
Theorem txid_commits `{Sha256Impl} (l : TxLimits) (tx tx' : Transaction) ws data :
  TxLimits_ok l -> Transaction_ok l tx -> Transaction_ok l tx' ->
  zlen (encode SerializeWithoutWitnesses tx) < 2 ^ 63 ->
  Txid (with_witnesses tx ws data) = Txid tx /\
  (encode SerializeWithoutWitnesses tx = encode SerializeWithoutWitnesses tx' ->
   tx_version tx = tx_version tx' /\ tx_inputs tx = tx_inputs tx' /\
   tx_outputs tx = tx_outputs tx' /\ tx_locktime tx = tx_locktime tx').
Proof.
  intros Hl W W' Hlen. split; [done|]. intros E.
  (* Give both the empty witness section their inputs call for. *)
  set (strip t := with_witnesses t [] []).
  assert (forall t, Transaction_ok l t -> Transaction_ok l (strip t)) as Hs.
  { intros t (H1 & H2 & H3 & H4 & _). unfold Transaction_ok, strip, with_witnesses, IsCoinbase.
    cbn. pose proof Hl as (? & ? & ? & ? & ? & ? & ? & ? & ?).
    split_and!; try tauto. case_match; split_and!; try done; try constructor; rewrite zlen_nil; mlia. }
  assert (strip tx = strip tx') as Es; [|by injection Es].
  pose proof (codec_Transaction l Hl) as C.
  assert (forall t, witness_section (strip t) = [z2b 0]) as Hsec.
  { intros t. unfold witness_section. case_match; reflexivity. }
  apply (codec_inj _ _ _ C (strip tx) (strip tx') [] []); auto.
  - rewrite app_nil_r, Transaction_split, Hsec, zlen_app.
    change (zlen [z2b 0]) with 1. change (encode SerializeWithoutWitnesses (strip tx))
      with (encode SerializeWithoutWitnesses tx). lia.
  - rewrite !app_nil_r, !Transaction_split, !Hsec.
    f_equal. exact E.
Qed.

Lemma txid_commits_witness :
  Txid (H := toy_Sha256Impl) (with_witnesses (sample_coinbase 7 50) [] [Byte.xff]) =
  Txid (H := toy_Sha256Impl) (sample_coinbase 7 50).
Proof.
  apply (txid_commits (H := toy_Sha256Impl) (limits_tx sample_limits)
           (sample_coinbase 7 50) (sample_coinbase 7 50) [] [Byte.xff]);
    [eval_ok | eval_ok | eval_ok | reflexivity].
Defined.

(** Block weight is what the encodings say: four units per byte outside the witness
    sections and one per byte inside them, measured on the serialisation itself
    (a serialised block and three copies of its witness-free bytes), whenever
    that total is a [size_t]. *)
Theorem block_weight_formula (l : BlockLimits) (b : Block) :
  BlockLimits_ok l -> Block_ok l b ->
  3 * zlen (base_bytes b) + zlen (encode Block_Serialize b) < 2 ^ 64 ->
  Block_Weight b = 3 * zlen (base_bytes b) + zlen (encode Block_Serialize b).
Proof.
  intros [Hm _] (Hh & _ & Hn) Hb.
  unfold Block_Weight, base_bytes in *. rewrite flat_Block, encode_write_vector in * by apply _.
  fold (encode WriteCompactSize (zlen (blk_transactions b))) in *.
  change (WriteCompactSize (zlen (blk_transactions b)) [])
    with (encode WriteCompactSize (zlen (blk_transactions b))) in *.
  autorewrite with amarian in *.
  rewrite (BlockHeader_size _ Hh), zlen_compact in * by
    (pose proof (zlen_nonneg (blk_transactions b)); mlia).
  set (c := CompactSizeLen (zlen (blk_transactions b))) in *.
  assert (0 <= c <= 9) by (unfold c, CompactSizeLen; repeat case_match; lia).
  pose proof (zlen_nonneg (write_all SerializeWithoutWitnesses (blk_transactions b) [])).
  pose proof (zlen_nonneg (write_all Transaction_Serialize (blk_transactions b) [])).
  unfold BlockHeader_SERIALIZED_SIZE, WITNESS_SCALE_FACTOR in *.
  rewrite wrapu_small by lia. rewrite weight_fold by lia. lia.
Qed.

Lemma block_weight_formula_witness :
  Block_Weight sample_block =
  3 * zlen (base_bytes sample_block) + zlen (encode Block_Serialize sample_block).
Proof.
  apply (block_weight_formula sample_limits sample_block);
    [exact sample_limits_ok | exact sample_block_ok | reflexivity].
Defined.
