(* ===== verification/Target.v ===== *)
(** * Compact targets (consensus/target.hpp, src/consensus/target.cpp)

    A [Target] is 32 bytes, most significant first.  The compact form packs a
    byte-size exponent and a 23-bit mantissa.  The central lemma is
    [TargetToCompact_spec]: the encoder returns the normalised pair whose
    interval contains the target's value, and that pair is unique; canonicality
    of the decoder follows from uniqueness. *)

From S2P Require Import Prelude Serialize.

Module Target.

Definition MANTISSA_SIGN_BIT : Z := 0x00800000.
Definition TARGET_BYTES : Z := 32.

Definition is_target (t : bytes) : Prop := length t = 32%nat.

(** [while (first < target.size() && target[first] == 0) ++first;] *)
Fixpoint first_nonzero (t : bytes) : Z :=
  match t with
  | [] => 0
  | b :: t => if b2z b =? 0 then 1 + first_nonzero t else 0
  end.

(** One step of the mantissa loop: reading past the end contributes zero. *)
Definition mantissa_step (t : bytes) (first : Z) (mantissa offset : Z) : Z :=
  let mantissa := wrapu 32 (Z.shiftl mantissa 8) in
  if first + offset <? zlen t
  then Z.lor mantissa (b2z (t !!! Z.to_nat (first + offset)))
  else mantissa.

Definition TargetToCompact (t : bytes) : Z :=
  let first := first_nonzero t in
  if first =? zlen t then 0 else
  let size := zlen t - first in
  let mantissa := fold_left (mantissa_step t first) [0; 1; 2] 0 in
  let '(size, mantissa) :=
    if negb (Z.land mantissa MANTISSA_SIGN_BIT =? 0)
    then (size + 1, Z.shiftr mantissa 8) else (size, mantissa) in
  Z.lor (wrapu 32 (Z.shiftl size 24)) mantissa.

(** One step of the decoding loop: a nonzero byte outside the array is fatal. *)
Definition decode_step (mantissa most_significant : Z) (t : option bytes) (offset : Z)
    : option bytes :=
  match t with
  | None => None
  | Some t =>
      let byte := z2b (Z.land (Z.shiftr mantissa (8 * (2 - offset))) 0xFF) in
      let index := most_significant + offset in
      if (index <? 0) || (TARGET_BYTES <=? index)
      then if negb (b2z byte =? 0) then None else Some t
      else Some (<[Z.to_nat index := byte]> t)
  end.

Definition CompactToTarget (bits : Z) : option bytes :=
  let exponent := Z.shiftr bits 24 in
  let mantissa := Z.land bits 0x00FFFFFF in
  if negb (Z.land mantissa MANTISSA_SIGN_BIT =? 0) then None
  else if mantissa =? 0 then None
  else
    let most_significant := TARGET_BYTES - exponent in
    match fold_left (decode_step mantissa most_significant) [0; 1; 2]
            (Some (replicate 32 Byte.x00)) with
    | None => None
    | Some target => if TargetToCompact target =? bits then Some target else None
    end.

(** The comparison loop, over the digest in display order. *)
Fixpoint meets_loop (digest target : bytes) : bool :=
  match digest, target with
  | h :: digest, t :: target =>
      if negb (b2z h =? b2z t) then b2z h <? b2z t else meets_loop digest target
  | _, _ => true
  end.

Definition HashMeetsTarget (hash target : bytes) : bool := meets_loop (rev hash) target.

Definition CheckProofOfWork (hash : bytes) (bits : Z) : bool :=
  match CompactToTarget bits with
  | None => false
  | Some target => HashMeetsTarget hash target
  end.

(** ** Bit operations as arithmetic *)

Lemma land_bit_high m k : 0 <= k -> 0 <= m < 2 ^ (k + 1) ->
  (Z.land m (2 ^ k) =? 0) = (m <? 2 ^ k).
Proof.
  intros Hk Hm. assert (2 ^ (k + 1) = 2 * 2 ^ k) by (rewrite Z.pow_add_r by lia; lia).
  destruct (Z.ltb_spec m (2 ^ k)).
  - apply Z.eqb_eq. apply Z.bits_inj'. intros n Hn. rewrite Z.bits_0, Z.land_spec, Z.pow2_bits_eqb by lia.
    destruct (Z.eqb_spec k n) as [<-|]; [|by rewrite andb_false_r].
    rewrite <- (Z.mod_small m (2 ^ k)) by lia. by rewrite Z.mod_pow2_bits_high by lia.
  - apply Z.eqb_neq. intros E. assert (Z.testbit (Z.land m (2 ^ k)) k = false) as F
      by (rewrite E; apply Z.bits_0).
    rewrite Z.land_spec, Z.pow2_bits_true, andb_true_r in F by lia.
    replace m with (1 * 2 ^ k + (m - 2 ^ k)) in F by lia.
    rewrite <- lor_add, Z.lor_spec in F by lia.
    apply orb_false_iff in F as [F _]. rewrite Z.mul_1_l, Z.pow2_bits_true in F by lia. done.
Qed.

Lemma sign_bit_test m : 0 <= m < 2 ^ 24 -> (Z.land m MANTISSA_SIGN_BIT =? 0) = (m <? 2 ^ 23).
Proof. intros. apply (land_bit_high m 23); lia. Qed.

(** ** Values of byte arrays *)

Lemma first_nonzero_spec t :
  exists z b rest, t = replicate z Byte.x00 ++ rest /\ first_nonzero t = Z.of_nat z /\
    (rest = [] \/ exists rest', rest = b :: rest' /\ 0 < b2z b).
Proof.
  induction t as [|x t (z & b & rest & -> & E & H)]; [exists 0%nat, Byte.x00, []; auto|].
  cbn [first_nonzero]. destruct (Z.eqb_spec (b2z x) 0) as [Hx|Hx].
  - assert (x = Byte.x00) as -> by (by apply b2z_inj). exists (S z), b, rest.
    split_and!; [done|lia|done].
  - exists 0%nat, x, (x :: replicate z Byte.x00 ++ rest). split_and!; [done|done|].
    right. exists (replicate z Byte.x00 ++ rest). pose proof (b2z_range x). split; [done|lia].
Qed.

Lemma be_val_replicate_0 n : be_val (replicate n Byte.x00) = 0.
Proof. induction n as [|n IH]; [done|]. cbn [replicate]. rewrite be_val_cons, IH. reflexivity. Qed.

Lemma zlen_replicate {A} n (x : A) : zlen (replicate n x) = Z.of_nat n.
Proof. unfold zlen. by rewrite length_replicate. Qed.

Lemma be_val_insert l i b : (i < length l)%nat ->
  be_val (<[i := b]> l) =
  be_val l + (b2z b - b2z (l !!! i)) * 256 ^ (zlen l - 1 - Z.of_nat i).
Proof.
  revert i. induction l as [|x l IH]; intros i Hi; [simpl in *; lia|].
  destruct i as [|i].
  - change (<[0%nat := b]> (x :: l)) with (b :: l). rewrite !be_val_cons, zlen_cons.
    change ((x :: l) !!! 0%nat) with x.
    replace (1 + zlen l - 1 - Z.of_nat 0) with (zlen l) by lia. lia.
  - change (<[S i := b]> (x :: l)) with (x :: <[i := b]> l). rewrite !be_val_cons, zlen_cons.
    change ((x :: l) !!! S i) with (l !!! i). rewrite IH by (simpl in *; lia).
    replace (1 + zlen l - 1 - Z.of_nat (S i)) with (zlen l - 1 - Z.of_nat i) by lia.
    unfold zlen at 1. rewrite length_insert. fold (zlen l). lia.
Qed.

(** ** The encoder *)

(** [e] and [m] are the normalised exponent and mantissa of value [v]: the
    mantissa's interval at that exponent contains [v], exactly so when the
    exponent is too small for any byte to be dropped. *)
Definition normal_form (v e m : Z) : Prop :=
  1 <= e <= 33 /\ 2 ^ 15 <= m < 2 ^ 23 /\
  m * 256 ^ e <= v * 256 ^ 3 < (m + 1) * 256 ^ e /\
  (e <= 3 -> m * 256 ^ e = v * 256 ^ 3).

Lemma normal_exponent_le v e m e' m' :
  normal_form v e m -> normal_form v e' m' -> e <= e'.
Proof.
  intros (He & Hm & Hv & _) (He' & Hm' & Hv' & _).
  destruct (Z.le_gt_cases e e') as [|L]; [done|exfalso].
  replace e with (e' + 1 + (e - e' - 1)) in Hv by lia.
  rewrite !Z.pow_add_r in Hv by lia.
  assert (1 <= 256 ^ (e - e' - 1)) by (apply Z.lt_pred_le, Z.pow_pos_nonneg; lia).
  assert (0 < 256 ^ e') by (apply Z.pow_pos_nonneg; lia). nia.
Qed.

Lemma normal_form_unique v e m e' m' :
  normal_form v e m -> normal_form v e' m' -> e = e' /\ m = m'.
Proof.
  intros H H'. assert (e = e') as -> by (apply Z.le_antisymm; eauto using normal_exponent_le).
  split; [done|]. destruct H as (? & ? & ? & _), H' as (? & ? & ? & _).
  assert (0 < 256 ^ e') by (apply Z.pow_pos_nonneg; lia). nia.
Qed.

(** What the three-byte mantissa loop reads, on a value with [z] leading
    zeros: its leading three bytes, padded with zeros. *)
Definition raw_form (v s m : Z) : Prop :=
  2 ^ 16 <= m < 2 ^ 24 /\ m * 256 ^ s <= v * 256 ^ 3 < (m + 1) * 256 ^ s /\
  (s <= 3 -> m * 256 ^ s = v * 256 ^ 3).

Lemma mantissa_step_spec t first m k : 0 <= m < 2 ^ 16 -> 0 <= first + k ->
  mantissa_step t first m k =
  m * 256 + (if first + k <? zlen t then b2z (t !!! Z.to_nat (first + k)) else 0).
Proof.
  intros Hm Hk. unfold mantissa_step. rewrite Z.shiftl_mul_pow2, wrapu_small by lia.
  destruct (_ <? _); [|lia]. apply (lor_add m _ 8); [lia|apply b2z_range].
Qed.

Lemma lookup_total_skip (z : nat) (l : bytes) k : 0 <= k ->
  (replicate z Byte.x00 ++ l) !!! Z.to_nat (Z.of_nat z + k) = l !!! Z.to_nat k.
Proof.
  intros. rewrite lookup_total_app_r by (rewrite length_replicate; lia).
  f_equal. rewrite length_replicate. lia.
Qed.

Lemma mantissa_loop_spec z b rest : 0 < b2z b ->
  let t := replicate z Byte.x00 ++ b :: rest in
  raw_form (be_val t) (1 + zlen rest)
    (fold_left (mantissa_step t (Z.of_nat z)) [0; 1; 2] 0).
Proof.
  intros Hb t.
  assert (be_val t = be_val (b :: rest)) as ->.
  { unfold t. rewrite be_val_app, be_val_replicate_0. lia. }
  set (d k := if k <? 1 + zlen rest then b2z ((b :: rest) !!! Z.to_nat k) else 0).
  assert (forall k, 0 <= d k < 256) as Hd.
  { intros k. unfold d. destruct (_ <? _); [apply b2z_range|lia]. }
  assert (forall k m, 0 <= k -> 0 <= m < 2 ^ 16 ->
    mantissa_step t (Z.of_nat z) m k = m * 256 + d k) as Step.
  { intros k m Hk Hm. rewrite mantissa_step_spec by lia. unfold t, d.
    rewrite lookup_total_skip, zlen_app, zlen_replicate, zlen_cons by lia.
    by replace (Z.of_nat z + k <? Z.of_nat z + (1 + zlen rest)) with (k <? 1 + zlen rest) by lia. }
  pose proof (Hd 0). pose proof (Hd 1). pose proof (Hd 2).
  cbn [fold_left]. rewrite (Step 0), (Step 1), (Step 2) by lia.
  assert (d 0 = b2z b) as E0.
  { unfold d. rewrite (proj2 (Z.ltb_lt _ _)) by (pose proof (zlen_nonneg rest); lia). done. }
  destruct rest as [|x [|y r]].
  - change (d 1) with 0. change (d 2) with 0. rewrite E0, be_val_cons, be_val_nil, !zlen_nil.
    unfold raw_form. lia.
  - pose proof (b2z_range x). change (d 1) with (b2z x). change (d 2) with 0.
    rewrite E0, !be_val_cons, be_val_nil, !zlen_cons, !zlen_nil. unfold raw_form. lia.
  - assert (d 1 = b2z x) as -> by
      (unfold d; rewrite (proj2 (Z.ltb_lt _ _)) by (rewrite !zlen_cons; pose proof (zlen_nonneg r); lia); done).
    assert (d 2 = b2z y) as -> by
      (unfold d; rewrite (proj2 (Z.ltb_lt _ _)) by (rewrite !zlen_cons; pose proof (zlen_nonneg r); lia); done).
    pose proof (b2z_range x). pose proof (b2z_range y). pose proof (zlen_nonneg r).
    pose proof (be_val_range r). rewrite E0, !be_val_cons, !zlen_cons.
    unfold raw_form. rewrite !Z.pow_add_r by lia.
    set (p := 256 ^ zlen r) in *. split; [lia|]. split; [lia|].
    intros. assert (zlen r = 0) as E by lia. subst p. rewrite E in *. lia.
Qed.

Lemma TargetToCompact_spec t : is_target t -> 0 < be_val t ->
  exists e m, TargetToCompact t = e * 2 ^ 24 + m /\ normal_form (be_val t) e m.
Proof.
  intros Ht Hv. destruct (first_nonzero_spec t) as (z & b & rest & Et & Ef & Hr).
  destruct Hr as [->|(r & -> & Hb)].
  { rewrite app_nil_r in Et. rewrite Et, be_val_replicate_0 in Hv. lia. }
  assert (zlen t = 32) as Hl by (unfold is_target in Ht; mlia).
  assert (Z.of_nat z + 1 + zlen r = 32) as Hz.
  { rewrite Et, zlen_app, zlen_replicate, zlen_cons in Hl. lia. }
  pose proof (mantissa_loop_spec z b r Hb) as Raw. cbv zeta in Raw. rewrite <- Et in Raw.
  unfold TargetToCompact. rewrite Ef, Hl, (proj2 (Z.eqb_neq _ _)) by (pose proof (zlen_nonneg r); lia).
  cbv zeta. set (m0 := fold_left _ _ _) in *. replace (32 - Z.of_nat z) with (1 + zlen r) by lia.
  pose proof (zlen_nonneg r). assert (1 <= 1 + zlen r <= 32) by lia.
  set (s := 1 + zlen r) in *. clearbody s.
  destruct Raw as (Hm & Hv' & Hex). assert (0 < 256 ^ s) by (apply Z.pow_pos_nonneg; lia).
  rewrite sign_bit_test by lia. destruct (Z.ltb_spec m0 (2 ^ 23)); cbn [negb].
  - exists s, m0. rewrite Z.shiftl_mul_pow2, wrapu_small, lor_add by lia.
    split; [done|]. unfold normal_form. lia.
  - exists (s + 1), (m0 / 256). rewrite Z.shiftr_div_pow2 by lia. change (2 ^ 8) with 256.
    assert (2 ^ 15 <= m0 / 256 < 2 ^ 16) by (split; [apply Z.div_le_lower_bound|apply Z.div_lt_upper_bound]; lia).
    rewrite Z.shiftl_mul_pow2, wrapu_small, lor_add by lia.
    split; [done|]. unfold normal_form. rewrite Z.pow_add_r by lia. change (256 ^ 1) with 256.
    split; [lia|]. split; [lia|].
    pose proof (Z.div_mod m0 256 ltac:(lia)). pose proof (Z.mod_pos_bound m0 256 ltac:(lia)).
    split; [nia|]. intros Hs.
    specialize (Hex ltac:(lia)).
    assert (s = 1 \/ s = 2) as [Es|Es] by lia; rewrite Es in *;
      clearbody m0; dlia.
Qed.

(** ** The decoder *)

(** Byte [k] of the mantissa, most significant first. *)
Definition mantissa_byte (m k : Z) : Z := (m / 256 ^ (2 - k)) mod 256.

Lemma mantissa_byte_shift m k : 0 <= k <= 2 ->
  Z.land (Z.shiftr m (8 * (2 - k))) 0xFF = mantissa_byte m k.
Proof.
  intros. change 0xFF with (Z.ones 8). rewrite Z.land_ones, Z.shiftr_div_pow2 by lia.
  unfold mantissa_byte. rewrite Z.pow_mul_r by lia. reflexivity.
Qed.

Lemma mantissa_bytes m : 0 <= m < 2 ^ 24 ->
  m = mantissa_byte m 0 * 256 ^ 2 + mantissa_byte m 1 * 256 + mantissa_byte m 2.
Proof. intros. unfold mantissa_byte. simpl Z.sub. simpl Z.pow. dlia. Qed.

(** Bytes from index [i] of a target on are zero. *)
Definition clear_from (t : bytes) (i : Z) : Prop :=
  forall j : nat, i <= Z.of_nat j < 32 -> t !!! j = Byte.x00.

Lemma decode_step_Some m e t k t' : 0 <= e -> 0 <= k <= 2 -> is_target t ->
  clear_from t (32 - e + k) -> decode_step m (32 - e) (Some t) k = Some t' ->
  is_target t' /\ clear_from t' (32 - e + (k + 1)) /\
  be_val t' * 256 ^ 3 = be_val t * 256 ^ 3 + mantissa_byte m k * 256 ^ (e + 2 - k).
Proof.
  intros He Hk Ht Hc. unfold decode_step, TARGET_BYTES. rewrite mantissa_byte_shift by lia.
  assert (0 <= mantissa_byte m k < 256) as Hb by (apply Z.mod_pos_bound; lia).
  rewrite b2z_z2b_small by lia.
  destruct (_ || _) eqn:Ei.
  - destruct (Z.eqb_spec (mantissa_byte m k) 0) as [Z0|]; [|done]. cbn [negb]. intros [= <-].
    split; [done|]. split; [intros j Hj; apply Hc; lia|]. rewrite Z0. lia.
  - bprop. intros [= <-]. unfold is_target in *. rewrite length_insert. split; [done|]. split.
    + intros j Hj. rewrite list_lookup_total_insert_ne by lia. apply Hc. lia.
    + rewrite be_val_insert by lia. unfold zlen. rewrite Ht, (Hc (Z.to_nat (32 - e + k))) by lia.
      rewrite b2z_z2b_small by lia. change (b2z Byte.x00) with 0.
      replace (Z.of_nat 32 - 1 - Z.of_nat (Z.to_nat (32 - e + k))) with (e - 1 - k) by lia.
      replace (e + 2 - k) with (e - 1 - k + 3) by lia. rewrite Z.pow_add_r by lia. lia.
Qed.

Lemma decode_step_total m e t k : 0 <= k <= 2 ->
  (e - 1 - k < 0 \/ 32 <= e - 1 - k -> mantissa_byte m k = 0) ->
  exists t', decode_step m (32 - e) (Some t) k = Some t'.
Proof.
  intros Hk Hz. unfold decode_step, TARGET_BYTES. rewrite mantissa_byte_shift by lia.
  destruct (_ || _) eqn:Ei; [|eauto].
  rewrite Hz; [eauto|]. apply orb_true_iff in Ei as [Ei|Ei]; bprop; lia.
Qed.

Abbreviation decode_bytes m e :=
  (fold_left (decode_step m (32 - e)) [0; 1; 2] (Some (replicate 32 Byte.x00))).

Lemma decode_value m e t : 0 <= e -> 0 <= m < 2 ^ 24 -> decode_bytes m e = Some t ->
  is_target t /\ be_val t * 256 ^ 3 = m * 256 ^ e.
Proof.
  intros He Hm. cbn [fold_left].
  destruct (decode_step m (32 - e) (Some (replicate 32 Byte.x00)) 0) as [t0|] eqn:E0; [|done].
  destruct (decode_step m (32 - e) (Some t0) 1) as [t1|] eqn:E1; [|done]. intros E2.
  apply decode_step_Some in E0 as (L0 & C0 & V0); try done; try lia;
    [|intros j Hj; apply lookup_total_replicate_2; lia].
  apply decode_step_Some in E1 as (L1 & C1 & V1); try done; try lia.
  apply decode_step_Some in E2 as (L2 & _ & V2); try done; try lia.
  split; [done|]. rewrite V2, V1, V0, be_val_replicate_0.
  replace (e + 2 - 0) with (e + 2) by lia. replace (e + 2 - 1) with (e + 1) by lia.
  replace (e + 2 - 2) with e by lia. rewrite !Z.pow_add_r by lia.
  pose proof (mantissa_bytes m Hm) as Em. set (p := 256 ^ e). clearbody p.
  rewrite Em at 4. change (256 ^ 2) with 65536. change (256 ^ 1) with 256. ring.
Qed.

(** A digit that would land outside the array is zero in a normal form. *)
Lemma normal_form_fits v e m k : 0 < v < 256 ^ 32 -> normal_form v e m -> 0 <= k <= 2 ->
  e - 1 - k < 0 \/ 32 <= e - 1 - k -> mantissa_byte m k = 0.
Proof.
  intros Hv (He & Hm & Hi & Hex) Hk [Ho|Ho]; unfold mantissa_byte.
  - assert (e = 1 \/ e = 2) as [E|E] by lia; subst e; specialize (Hex ltac:(lia));
      assert (k = 0 \/ k = 1 \/ k = 2) as [E|[E|E]] by lia; subst k; try lia;
      simpl Z.sub; simpl Z.pow in *; clear Hi; dlia.
  - assert (e = 33 /\ k = 0) as [-> ->] by lia.
    rewrite Z.div_small; [done|]. lia.
Qed.

Lemma decode_normal v e m : 0 < v < 256 ^ 32 -> normal_form v e m ->
  exists t, decode_bytes m e = Some t.
Proof.
  intros Hv H. cbn [fold_left].
  assert (forall t k, 0 <= k <= 2 -> exists t', decode_step m (32 - e) (Some t) k = Some t') as D.
  { intros t k Hk. apply decode_step_total; [done|]. by apply (normal_form_fits v). }
  destruct (D (replicate 32 Byte.x00) 0) as [t0 ->]; [lia|].
  destruct (D t0 1) as [t1 ->]; [lia|]. apply D. lia.
Qed.

Lemma target_range t : is_target t -> 0 <= be_val t < 256 ^ 32.
Proof. intros H. pose proof (be_val_range t) as R. unfold zlen in R. rewrite H in R. exact R. Qed.

Lemma compact_split e m : 0 <= m < 2 ^ 24 ->
  Z.shiftr (e * 2 ^ 24 + m) 24 = e /\ Z.land (e * 2 ^ 24 + m) 0x00FFFFFF = m.
Proof.
  intros. change 0x00FFFFFF with (Z.ones 24). rewrite Z.land_ones, Z.shiftr_div_pow2 by lia.
  split; [rewrite Z.div_add_l, Z.div_small by lia; lia|].
  rewrite Z.add_comm, Z_mod_plus_full. by apply Z.mod_small.
Qed.

(** Everything a successful decoding says. *)
Lemma CompactToTarget_Some bits t : u32 bits -> CompactToTarget bits = Some t ->
  is_target t /\ 0 < be_val t /\ TargetToCompact t = bits /\
  be_val t * 256 ^ 3 = Z.land bits 0x00FFFFFF * 256 ^ Z.shiftr bits 24.
Proof.
  unfold CompactToTarget, u32, TARGET_BYTES. intros Hb.
  assert (0 <= Z.land bits 0x00FFFFFF < 2 ^ 24) as Hm.
  { change 0x00FFFFFF with (Z.ones 24). rewrite Z.land_ones by lia. apply Z.mod_pos_bound. lia. }
  assert (0 <= Z.shiftr bits 24) as He by (apply Z.shiftr_nonneg; lia).
  set (m := Z.land _ _) in *. set (e := Z.shiftr _ _) in *.
  destruct (negb _); [done|]. destruct (Z.eqb_spec m 0); [done|]. cbv zeta.
  destruct (decode_bytes m e) as [t'|] eqn:D; [|done].
  destruct (Z.eqb_spec (TargetToCompact t') bits); [|done]. intros [= <-].
  apply decode_value in D as [L V]; try done. split_and!; try done.
  assert (0 < 256 ^ e) by (apply Z.pow_pos_nonneg; lia). nia.
Qed.

Lemma CompactToTarget_normal v e m : 0 < v < 256 ^ 32 -> normal_form v e m ->
  exists t, CompactToTarget (e * 2 ^ 24 + m) = Some t /\ is_target t /\
    be_val t * 256 ^ 3 = m * 256 ^ e.
Proof.
  intros Hv H. pose proof H as (He & Hm & Hi & Hex). destruct (decode_normal v e m Hv H) as [t D].
  pose proof D as D'. apply decode_value in D' as [L V]; try lia.
  exists t. split; [|done]. unfold CompactToTarget, TARGET_BYTES.
  destruct (compact_split e m ltac:(lia)) as [-> ->].
  rewrite sign_bit_test, (proj2 (Z.ltb_lt m _)), (proj2 (Z.eqb_neq m 0)) by lia. cbn [negb].
  cbv zeta. rewrite D.
  assert (0 < 256 ^ e) by (apply Z.pow_pos_nonneg; lia).
  destruct (TargetToCompact_spec t) as (e' & m' & -> & N); [done|nia|].
  assert (normal_form (be_val t) e m) as N' by (unfold normal_form; nia).
  destruct (normal_form_unique _ _ _ _ _ N N') as [-> ->]. by rewrite Z.eqb_refl.
Qed.

Lemma CompactToTarget_iff bits t : u32 bits ->
  CompactToTarget bits = Some t <->
  is_target t /\ 0 < be_val t /\ TargetToCompact t = bits /\
  be_val t * 256 ^ 3 = Z.land bits 0x00FFFFFF * 256 ^ Z.shiftr bits 24.
Proof.
  intros Hbits.
  split; [by apply CompactToTarget_Some|]. intros (L & P & E & V).
  pose proof (target_range t L).
  destruct (TargetToCompact_spec t L P) as (e & m & E' & N).
  destruct (CompactToTarget_normal (be_val t) e m ltac:(lia) N) as (t' & D & L' & V').
  rewrite <- E, E' in V |- *. destruct (compact_split e m) as [Ee Em]; [unfold normal_form in N; lia|].
  rewrite Ee, Em in V. rewrite D. f_equal. apply be_val_inj; [unfold is_target in *; lia|lia].
Qed.

Lemma TargetToCompact_decodes t : is_target t -> 0 < be_val t ->
  exists t', CompactToTarget (TargetToCompact t) = Some t' /\ is_target t' /\
    be_val t' <= be_val t /\ (be_val t - be_val t') * 2 ^ 15 < be_val t' /\
    TargetToCompact t' = TargetToCompact t.
Proof.
  intros Ht Hnz.  pose proof (target_range t Ht).
  destruct (TargetToCompact_spec t Ht Hnz) as (e & m & E & N). rewrite E.
  destruct (CompactToTarget_normal (be_val t) e m ltac:(lia) N) as (t' & D & L & V).
  destruct N as (He & Hm & Hi & _). assert (0 < 256 ^ e) by (apply Z.pow_pos_nonneg; lia).
  exists t'. split_and!; [done|done|lia|nia|].
  apply CompactToTarget_Some in D; [naive_solver|]. unfold u32. lia.
Qed.

Lemma TargetToCompact_u32 t : is_target t -> u32 (TargetToCompact t).
Proof.
  intros Ht. destruct (Z.eq_dec (be_val t) 0) as [E|E].
  - assert (t = replicate 32 Byte.x00) as -> by
      (apply be_val_inj; [done|by rewrite be_val_replicate_0]). vm_compute. done.
  - pose proof (target_range t Ht). destruct (TargetToCompact_spec t) as (e & m & -> & N); [done|lia|].
    unfold u32, normal_form in *. lia.
Qed.

(** Rounding to a compact encoding preserves order. *)
Lemma TargetToCompact_mono t1 t2 d1 d2 : is_target t1 -> is_target t2 ->
  0 < be_val t1 <= be_val t2 ->
  CompactToTarget (TargetToCompact t1) = Some d1 ->
  CompactToTarget (TargetToCompact t2) = Some d2 -> be_val d1 <= be_val d2.
Proof.
  intros H1 H2 Hle D1 D2. pose proof (target_range t1 H1). pose proof (target_range t2 H2).
  destruct (TargetToCompact_spec t1 H1 ltac:(lia)) as (e1 & m1 & E1 & N1).
  destruct (TargetToCompact_spec t2 H2 ltac:(lia)) as (e2 & m2 & E2 & N2).
  destruct (CompactToTarget_normal (be_val t1) e1 m1 ltac:(lia) N1) as (? & D1' & _ & V1).
  destruct (CompactToTarget_normal (be_val t2) e2 m2 ltac:(lia) N2) as (? & D2' & _ & V2).
  rewrite E1, D1' in D1. rewrite E2, D2' in D2. injection D1 as ->. injection D2 as ->.
  destruct N1 as (R1 & M1 & I1 & _), N2 as (R2 & M2 & I2 & _).
  assert (0 < 256 ^ e1) by (apply Z.pow_pos_nonneg; lia).
  assert (0 < 256 ^ e2) by (apply Z.pow_pos_nonneg; lia).
  destruct (Z.lt_trichotomy e1 e2) as [L|[->|L]].
  - pose proof (Z.pow_le_mono_r 256 (e1 + 1) e2 ltac:(lia) ltac:(lia)) as P.
    rewrite Z.pow_add_r in P by lia. nia.
  - assert (m1 <= m2) by nia. nia.
  - pose proof (Z.pow_le_mono_r 256 (e2 + 1) e1 ltac:(lia) ltac:(lia)) as P.
    rewrite Z.pow_add_r in P by lia. nia.
Qed.

(** ** The theorems *)

(** [CompactToTarget] accepts exactly one encoding per target: it succeeds
    on [bits] with [target] just when [target] is a nonzero 32-byte value whose
    re-encoding is [bits] and which [bits] represents exactly
    ([mantissa * 256^(exponent-3)]). In particular two accepted encodings of one
    target are equal, and so are two targets of one encoding. *)
Theorem compact_decoding_canonical (bits : Z) (t : bytes) (Hbits : u32 bits) :
  CompactToTarget bits = Some t <->
  is_target t /\ 0 < be_val t /\ TargetToCompact t = bits /\
  be_val t * 256 ^ 3 = Z.land bits 0x00FFFFFF * 256 ^ Z.shiftr bits 24.
Proof.
  by apply CompactToTarget_iff.
Qed.

Lemma compact_decoding_canonical_witness :
  u32 0x1d00ffff /\
  CompactToTarget 0x1d00ffff =
    Some (replicate 4 Byte.x00 ++ [Byte.xff; Byte.xff] ++ replicate 26 Byte.x00).
Proof.
  split; [vm_compute; split; congruence|].
  apply (compact_decoding_canonical 0x1d00ffff); vm_compute; repeat split; congruence.
Defined.

(** Encoding a nonzero target and decoding it back always succeeds and
    rounds the target down, losing less than one part in 2^15: the decoded value
    is at most the original and the original is below [1 + 2^-15] times it; and
    the decoded target's encoding is the same. *)
Theorem compact_rounds_down (t : bytes) (Ht : is_target t) (Hnz : 0 < be_val t) :
  exists t', CompactToTarget (TargetToCompact t) = Some t' /\ is_target t' /\
    be_val t' <= be_val t /\ (be_val t - be_val t') * 2 ^ 15 < be_val t' /\
    TargetToCompact t' = TargetToCompact t.
Proof. by apply TargetToCompact_decodes. Qed.

Lemma compact_rounds_down_witness :
  let t := replicate 4 Byte.x00 ++ replicate 28 Byte.x81 in
  exists t', CompactToTarget (TargetToCompact t) = Some t' /\ is_target t' /\
    be_val t' <= be_val t /\ (be_val t - be_val t') * 2 ^ 15 < be_val t' /\
    TargetToCompact t' = TargetToCompact t.
Proof. intros t. apply (compact_rounds_down t); vm_compute; reflexivity. Defined.

Lemma meets_loop_lex d t : length d = length t ->
  meets_loop d t = negb (lex_gt d t).
Proof.
  revert t. unfold lex_gt. induction d as [|x d IH]; intros [|y t] Hl; try done.
  cbn [meets_loop lex_compare]. rewrite IH by (simpl in *; lia).
  destruct (Z.compare_spec (b2z x) (b2z y)) as [->|L|L].
  - by rewrite Z.eqb_refl.
  - by rewrite (proj2 (Z.eqb_neq _ _)), (proj2 (Z.ltb_lt _ _)) by lia.
  - by rewrite (proj2 (Z.eqb_neq _ _)), (proj2 (Z.ltb_ge _ _)) by lia.
Qed.

Lemma HashMeetsTarget_spec h t : is_hash h -> is_target t ->
  HashMeetsTarget h t = (le_combine h <=? be_val t).
Proof.
  intros Hh Ht. unfold HashMeetsTarget, is_hash, is_target in *.
  rewrite meets_loop_lex, lex_gt_be_val by (rewrite length_rev; mlia).
  unfold be_val at 2. rewrite rev_involutive, Z.leb_antisym. done.
Qed.

(** Proof of work means what it says: [CheckProofOfWork hash bits] holds
    exactly when [bits] is the canonical encoding of some target and the digest,
    read as a little-endian number, is at most that target (equality included). *)
Theorem proof_of_work_iff (hash : bytes) (bits : Z) (Hh : is_hash hash) (Hb : u32 bits) :
  CheckProofOfWork hash bits = true <->
  exists t, is_target t /\ 0 < be_val t /\ TargetToCompact t = bits /\
    be_val t * 256 ^ 3 = Z.land bits 0x00FFFFFF * 256 ^ Z.shiftr bits 24 /\
    le_combine hash <= be_val t.
Proof.
  unfold CheckProofOfWork. split.
  - destruct (CompactToTarget bits) as [t|] eqn:E; [|done].
    apply CompactToTarget_Some in E as (L & P & C & V); [|done].
    rewrite HashMeetsTarget_spec by done. intros. bprop. exists t. naive_solver.
  - intros (t & L & P & C & V & Hle).
    assert (CompactToTarget bits = Some t) as -> by (by apply CompactToTarget_iff).
    rewrite HashMeetsTarget_spec by done. by apply Z.leb_le.
Qed.

Lemma proof_of_work_iff_witness :
  CheckProofOfWork (Byte.xff :: replicate 31 Byte.x00) 0x1d00ffff = true <->
  exists t, is_target t /\ 0 < be_val t /\ TargetToCompact t = 0x1d00ffff /\
    be_val t * 256 ^ 3 = Z.land 0x1d00ffff 0x00FFFFFF * 256 ^ Z.shiftr 0x1d00ffff 24 /\
    le_combine (Byte.xff :: replicate 31 Byte.x00) <= be_val t.
Proof. apply (proof_of_work_iff (Byte.xff :: replicate 31 Byte.x00) 0x1d00ffff);
  vm_compute; repeat split; congruence. Defined.

End Target.
