(* ===== verification/Work.v ===== *)
(** * Accumulated work (consensus/work.hpp, src/consensus/work.cpp)

    [Work] is 32 bytes, most significant first.  Every routine is modelled on
    the byte array it manipulates; [be_val] relates the bytes to the number,
    and the theorems say the byte loops compute the arithmetic: restoring long
    division is [2^256 / (target + 1)], addition saturates, and the defaulted
    comparison is numeric order. *)

From S2P Require Import Prelude Serialize Hex Target.

Module Work.

Definition SIZE : Z := 32.
Definition BIT_COUNT : Z := SIZE * 8.

Definition is_work (w : bytes) : Prop := length w = 32%nat.

(** [Work{}] *)
Definition Zero : bytes := replicate 32 Byte.x00.

Definition FromBigEndian (b : bytes) : bytes := b.
Definition BigEndian (w : bytes) : bytes := w.

(** [bytes_[SIZE - 1 - position] = (value >> (position * 8)) & 0xFF] for the
    eight positions of a [uint64_t]. *)
Definition FromU64 (value : Z) : bytes :=
  fold_left (fun w (position : nat) =>
      <[(31 - position)%nat := z2b (Z.land (Z.shiftr value (Z.of_nat position * 8)) 0xFF)]> w)
    (seq 0 8) Zero.

Definition IsZero (w : bytes) : bool := bool_decide (w = Zero).

Definition SetBit (value : bytes) (index : Z) : bytes :=
  let position := Z.to_nat (SIZE - 1 - index / 8) in
  <[position := z2b (Z.lor (b2z (value !!! position)) (Z.shiftl 1 (index mod 8)))]> value.

(** [std::bit_width] *)
Definition bit_width (b : Z) : Z := if b =? 0 then 0 else Z.log2 b + 1.

(** The scan from the most significant byte; [zlen value] after the head is
    [SIZE - 1 - position]. *)
Fixpoint BitLength (value : bytes) : Z :=
  match value with
  | [] => 0
  | b :: value => if negb (b2z b =? 0) then zlen value * 8 + bit_width (b2z b) else BitLength value
  end.

(** The word written to one position of [shifted]. *)
Definition shifted_byte (value : bytes) (byte_shift : nat) (bit_shift : Z) (position : nat)
    : Init.Byte.byte :=
  let source := (position + byte_shift)%nat in
  let word := wrapu 32 (Z.shiftl (b2z (value !!! source)) bit_shift) in
  let word :=
    if negb (bit_shift =? 0) && (S source <? 32)%nat
    then Z.lor word (Z.shiftr (b2z (value !!! S source)) (8 - bit_shift)) else word in
  z2b (Z.land word 0xFF).

Definition ShiftLeft (value : bytes) (shift : Z) : bytes :=
  if shift =? 0 then value
  else if BIT_COUNT <=? shift then Zero
  else
    let byte_shift := Z.to_nat (shift / 8) in
    let bit_shift := shift mod 8 in
    map (fun position =>
           if (position + byte_shift <? 32)%nat
           then shifted_byte value byte_shift bit_shift position
           else Byte.x00)
      (seq 0 32).

(** The byte loop of [Subtract], least significant byte first; the result
    carries the outgoing borrow. *)
Fixpoint subtract_loop (minuend subtrahend : bytes) : bytes * Z :=
  match minuend, subtrahend with
  | m :: minuend, s :: subtrahend =>
      let '(rest, borrow) := subtract_loop minuend subtrahend in
      let left := b2z m in
      let right := b2z s + borrow in
      let borrow := if left <? right then 1 else 0 in
      (z2b (left + borrow * 256 - right) :: rest, borrow)
  | _, _ => ([], 0)
  end.

Definition Subtract (minuend subtrahend : bytes) : bytes := fst (subtract_loop minuend subtrahend).

(** [divisor = target + 1]: the increment loop with its carry. *)
Fixpoint increment_loop (value : bytes) : bytes * bool :=
  match value with
  | [] => ([], true)
  | b :: value =>
      let '(rest, carried) := increment_loop value in
      if carried then (z2b (b2z b + 1) :: rest, b2z b =? 0xFF) else (b :: rest, false)
  end.

Definition complement (value : bytes) : bytes := map (fun b => z2b (Z.lnot (b2z b))) value.

(** [remainder >= aligned] on [std::array]. *)
Definition bytes_ge (a b : bytes) : bool := negb (lex_lt a b).

(** Restoring division, [shift] counting down; [n] is the number of quotient
    bits still to decide. *)
Fixpoint divide_loop (n : nat) (divisor remainder quotient : bytes) : bytes * bytes :=
  match n with
  | O => (remainder, quotient)
  | S n =>
      let shift := Z.of_nat n in
      let aligned := ShiftLeft divisor shift in
      if bytes_ge remainder aligned
      then divide_loop n divisor (Subtract remainder aligned) (SetBit quotient shift)
      else divide_loop n divisor remainder quotient
  end.

(** [operator+=]: the byte loop, then saturation on a carry out of the top. *)
Fixpoint add_loop (a b : bytes) : bytes * Z :=
  match a, b with
  | x :: a, y :: b =>
      let '(rest, carry) := add_loop a b in
      let sum := b2z x + b2z y + carry in
      (z2b (Z.land sum 0xFF) :: rest, Z.shiftr sum 8)
  | _, _ => ([], 0)
  end.

Definition add (a b : bytes) : bytes :=
  let '(sum, carry) := add_loop a b in
  if negb (carry =? 0) then replicate 32 Byte.xff else sum.

Definition OfTarget (target : bytes) : bytes :=
  if bool_decide (target = Zero) then Zero else
  let '(divisor, carried) := increment_loop target in
  if carried then FromU64 1 else
  let dividend := complement target in
  let dividend_bits := BitLength dividend in
  let divisor_bits := BitLength divisor in
  let quotient :=
    if divisor_bits <=? dividend_bits
    then snd (divide_loop (Z.to_nat (dividend_bits - divisor_bits + 1)) divisor dividend Zero)
    else Zero in
  add (FromBigEndian quotient) (FromU64 1).

Definition OfCompactTarget (bits : Z) : bytes :=
  match Target.CompactToTarget bits with
  | None => Zero
  | Some target => OfTarget target
  end.

(** [operator<=>] on the big-endian bytes. *)
Definition compare (a b : bytes) : comparison := lex_compare a b.

Definition ToHex (w : bytes) := Hex.ToHex w.

Example work_regression :
  OfTarget (replicate 31 Byte.x00 ++ [Byte.x02]) =
  replicate 32 Byte.x55.
Proof. vm_compute. reflexivity. Qed.

(** ** Byte arrays as numbers *)

Lemma be_val_lookup l i : (i < length l)%nat ->
  b2z (l !!! i) = (be_val l / 256 ^ (zlen l - 1 - Z.of_nat i)) mod 256.
Proof.
  revert i. induction l as [|x l IH]; intros i Hi; [simpl in *; lia|].
  pose proof (be_val_range l). pose proof (b2z_range x). pose proof (zlen_nonneg l).
  rewrite be_val_cons, zlen_cons. destruct i as [|i].
  - change ((x :: l) !!! 0%nat) with x. replace (1 + zlen l - 1 - Z.of_nat 0) with (zlen l) by lia.
    rewrite Z.div_add_l, Z.div_small, Z.add_0_r, Z.mod_small by lia. done.
  - change ((x :: l) !!! S i) with (l !!! i). rewrite IH by (simpl in *; lia).
    replace (1 + zlen l - 1 - Z.of_nat (S i)) with (zlen l - 1 - Z.of_nat i) by lia.
    assert (0 <= zlen l - 1 - Z.of_nat i) by (unfold zlen; simpl in *; lia).
    set (k := zlen l - 1 - Z.of_nat i) in *.
    replace (256 ^ zlen l) with (256 ^ (Z.of_nat i) * 256 ^ 1 * 256 ^ k).
    2:{ rewrite <- !Z.pow_add_r by lia. f_equal. unfold k. lia. }
    rewrite Z.mul_assoc, Z.div_add_l by (apply Z.pow_nonzero; lia).
    rewrite Z.mul_assoc, Z.add_comm, Z_mod_plus_full. done.
Qed.

Lemma be_val_Zero : be_val Zero = 0.
Proof. apply Target.be_val_replicate_0. Qed.

Lemma work_range w : is_work w -> 0 <= be_val w < 2 ^ 256.
Proof. apply Target.target_range. Qed.

Lemma is_work_Zero : is_work Zero.
Proof. reflexivity. Qed.

Lemma be_val_zero_iff w : is_work w -> be_val w = 0 <-> w = Zero.
Proof.
  intros Hw. split; [|intros ->; apply be_val_Zero].
  intros E. apply be_val_inj; [done|]. by rewrite be_val_Zero.
Qed.

(** ** The loops *)

Lemma subtract_loop_spec m : forall s, length m = length s ->
  let '(r, borrow) := subtract_loop m s in
  length r = length m /\ (borrow = 0 \/ borrow = 1) /\
  be_val r = be_val m - be_val s + borrow * 256 ^ zlen m.
Proof.
  induction m as [|x m IH]; intros [|y s] Hl; try done; [by split_and!; [|left|]|].
  cbn [subtract_loop]. specialize (IH s ltac:(simpl in *; lia)).
  destruct (subtract_loop m s) as [r c]. destruct IH as (L & C & V).
  pose proof (b2z_range x). pose proof (b2z_range y).
  assert (zlen r = zlen m) as Er by mlia.
  assert (zlen s = zlen m) as Es by (unfold zlen; simpl in *; lia).
  rewrite !be_val_cons, V, zlen_cons, Z.pow_add_r by (pose proof (zlen_nonneg m); lia).
  rewrite Er, Es. simpl length. destruct (Z.ltb_spec (b2z x) (b2z y + c));
    rewrite b2z_z2b_small by lia; (split; [lia|]; split; [lia|]); lia.
Qed.

Lemma Subtract_spec m s : is_work m -> is_work s -> be_val s <= be_val m ->
  is_work (Subtract m s) /\ be_val (Subtract m s) = be_val m - be_val s.
Proof.
  unfold is_work, Subtract. intros Hm Hs Hle.
  pose proof (subtract_loop_spec m s ltac:(lia)) as H. destruct (subtract_loop m s) as [r c].
  destruct H as (L & C & V). cbn [fst]. split; [lia|].
  pose proof (work_range m Hm). pose proof (work_range s Hs).
  pose proof (work_range r ltac:(unfold is_work; lia)).
  unfold zlen in V. rewrite Hm in V. change (256 ^ Z.of_nat 32) with (2 ^ 256) in V. lia.
Qed.

Lemma increment_loop_spec v :
  let '(r, carried) := increment_loop v in
  length r = length v /\
  be_val r = be_val v + 1 - (if carried : bool then 256 ^ zlen v else 0).
Proof.
  induction v as [|b v IH]; [split; [done|]; reflexivity|].
  cbn [increment_loop]. destruct (increment_loop v) as [r c]. destruct IH as (L & V).
  assert (zlen r = zlen v) as Hz by mlia. pose proof (b2z_range b).
  destruct c; rewrite !be_val_cons, V, Hz; (split; [simpl; lia|]); [|lia].
  rewrite zlen_cons, Z.pow_add_r, b2z_z2b by (pose proof (zlen_nonneg v); lia).
  destruct (Z.eqb_spec (b2z b) 255) as [->|]; [change ((255 + 1) mod 256) with 0; lia|].
  rewrite Z.mod_small by lia. lia.
Qed.

Lemma complement_spec v :
  length (complement v) = length v /\ be_val (complement v) = 256 ^ zlen v - 1 - be_val v.
Proof.
  unfold complement. induction v as [|b v [L V]]; [done|]. cbn [map].
  rewrite !be_val_cons, V, zlen_map, zlen_cons, Z.pow_add_r by (pose proof (zlen_nonneg v); lia).
  split; [simpl; lia|]. pose proof (b2z_range b).
  rewrite b2z_z2b. unfold Z.lnot. replace (Z.pred (- b2z b)) with (255 - b2z b + (-1) * 256) by lia.
  rewrite Z_mod_plus_full, Z.mod_small by lia. lia.
Qed.

Lemma add_loop_spec a : forall b, length a = length b ->
  let '(r, carry) := add_loop a b in
  length r = length a /\ (carry = 0 \/ carry = 1) /\
  be_val r = be_val a + be_val b - carry * 256 ^ zlen a.
Proof.
  induction a as [|x a IH]; intros [|y b] Hl; try done; [by split_and!; [|left|]|].
  cbn [add_loop]. specialize (IH b ltac:(simpl in *; lia)).
  destruct (add_loop a b) as [r c]. destruct IH as (L & C & V).
  pose proof (b2z_range x). pose proof (b2z_range y).
  assert (zlen r = zlen a) as Er by mlia.
  assert (zlen b = zlen a) as Eb by (unfold zlen; simpl in *; lia).
  rewrite !be_val_cons, V, zlen_cons, Z.pow_add_r by (pose proof (zlen_nonneg a); lia).
  rewrite Er, Eb. change 0xFF with (Z.ones 8). rewrite Z.land_ones, Z.shiftr_div_pow2 by lia.
  change (2 ^ 8) with 256. rewrite b2z_z2b, Z.mod_mod by lia.
  pose proof (Z.div_mod (b2z x + b2z y + c) 256 ltac:(lia)) as D.
  pose proof (Z.mod_pos_bound (b2z x + b2z y + c) 256 ltac:(lia)).
  set (q := _ / 256) in *. set (m := _ mod 256) in *.
  split; [simpl; lia|]. split; [lia|].
  replace m with (b2z x + b2z y + c - 256 * q) by lia. lia.
Qed.

Lemma add_spec a b : is_work a -> is_work b ->
  is_work (add a b) /\ be_val (add a b) = Z.min (be_val a + be_val b) (2 ^ 256 - 1).
Proof.
  unfold is_work, add. intros Ha Hb. pose proof (add_loop_spec a b ltac:(lia)) as H.
  pose proof (work_range a Ha). pose proof (work_range b Hb).
  destruct (add_loop a b) as [r c]. destruct H as (L & C & V).
  pose proof (work_range r ltac:(unfold is_work; lia)).
  unfold zlen in V. rewrite Ha in V. change (256 ^ Z.of_nat 32) with (2 ^ 256) in V.
  destruct C as [->| ->]; cbn [Z.eqb negb].
  - split; [lia|]. lia.
  - split; [done|]. change (be_val (replicate 32 Byte.xff)) with (2 ^ 256 - 1). lia.
Qed.

(** ** Bits *)

Lemma byte_testbit l (p : nat) j : is_work l -> (p < 32)%nat -> 0 <= j < 8 ->
  Z.testbit (b2z (l !!! p)) j = Z.testbit (be_val l) (j + 8 * (31 - Z.of_nat p)).
Proof.
  unfold is_work. intros Hl Hp Hj. rewrite be_val_lookup by lia. unfold zlen. rewrite Hl.
  change 256 with (2 ^ 8). rewrite <- Z.pow_mul_r by lia.
  rewrite Z.mod_pow2_bits_low, Z.div_pow2_bits by lia. reflexivity.
Qed.

(** A byte array is the number whose bits its bytes hold. *)
Lemma be_val_bits l X : is_work l ->
  (forall (p : nat) j, (p < 32)%nat -> 0 <= j < 8 ->
     Z.testbit (b2z (l !!! p)) j = Z.testbit X (j + 8 * (31 - Z.of_nat p))) ->
  be_val l = X mod 2 ^ 256.
Proof.
  intros Hl H. pose proof (work_range l Hl). apply Z.bits_inj'. intros n Hn.
  destruct (Z.lt_ge_cases n 256).
  - rewrite Z.mod_pow2_bits_low by lia.
    pose proof (Z.div_mod n 8 ltac:(lia)) as D. pose proof (Z.mod_pos_bound n 8 ltac:(lia)).
    pose proof (Z.div_pos n 8 ltac:(lia) ltac:(lia)).
    specialize (H (Z.to_nat (31 - n / 8)) (n mod 8)). rewrite byte_testbit in H by (done || lia).
    replace (n mod 8 + 8 * (31 - Z.of_nat (Z.to_nat (31 - n / 8)))) with n in H by lia.
    apply H; lia.
  - rewrite Z.mod_pow2_bits_high by lia.
    rewrite <- (Z.mod_small (be_val l) (2 ^ 256)) by lia. by rewrite Z.mod_pow2_bits_high by lia.
Qed.

Lemma z2b_testbit z j : 0 <= j < 8 -> Z.testbit (b2z (z2b z)) j = Z.testbit z j.
Proof. intros. rewrite b2z_z2b. apply (Z.mod_pow2_bits_low z 8); lia. Qed.

Lemma b2z_testbit_high b j : 8 <= j -> Z.testbit (b2z b) j = false.
Proof.
  intros. pose proof (b2z_range b). rewrite <- (Z.mod_small (b2z b) (2 ^ 8)) by lia.
  by rewrite Z.mod_pow2_bits_high by lia.
Qed.

Lemma is_work_SetBit v i : is_work v -> is_work (SetBit v i).
Proof. unfold is_work, SetBit. by rewrite length_insert. Qed.

Lemma SetBit_lor v i : is_work v -> 0 <= i < 256 ->
  be_val (SetBit v i) = Z.lor (be_val v) (2 ^ i).
Proof.
  intros Hv Hi. pose proof (work_range v Hv). rewrite <- (Z.mod_small (Z.lor _ _) (2 ^ 256)).
  2:{ split; [apply Z.lor_nonneg; lia|]. apply Z.log2_lt_cancel. rewrite Z.log2_lor by lia.
      rewrite !Z.log2_pow2 by lia. apply Z.max_lub_lt; [|lia].
      destruct (Z.eq_dec (be_val v) 0) as [->|]; [done|]. apply Z.log2_lt_pow2; lia. }
  apply be_val_bits; [by apply is_work_SetBit|]. intros p j Hp Hj.
  rewrite Z.lor_spec, <- byte_testbit, Z.pow2_bits_eqb by (done || lia).
  unfold SetBit, SIZE. pose proof (Z.div_mod i 8 ltac:(lia)).
  pose proof (Z.mod_pos_bound i 8 ltac:(lia)).
  assert (0 <= i / 8 <= 31) by dlia.
  destruct (decide (p = Z.to_nat (32 - 1 - i / 8))) as [->|Hne].
  - rewrite list_lookup_total_insert_eq by (unfold is_work in Hv; lia).
    rewrite z2b_testbit, Z.lor_spec, Z.shiftl_1_l, Z.pow2_bits_eqb by lia. f_equal.
    destruct (Z.eqb_spec (i mod 8) j), (Z.eqb_spec i (j + 8 * (31 - Z.of_nat (Z.to_nat (32 - 1 - i / 8))))); lia.
  - rewrite list_lookup_total_insert_ne by done.
    rewrite (proj2 (Z.eqb_neq i _)), orb_false_r by lia. done.
Qed.

Lemma ShiftLeft_spec v s : is_work v -> 0 <= s ->
  is_work (ShiftLeft v s) /\ be_val (ShiftLeft v s) = (be_val v * 2 ^ s) mod 2 ^ 256.
Proof.
  intros Hv Hs. pose proof (work_range v Hv). unfold ShiftLeft, BIT_COUNT, SIZE.
  destruct (Z.eqb_spec s 0) as [->|]; [split; [done|]; rewrite Z.mod_small; lia|].
  destruct (Z.leb_spec (32 * 8) s).
  - split; [done|]. replace s with (256 + (s - 256)) by lia.
    rewrite be_val_Zero, Z.pow_add_r, Z.mul_shuffle3, Z.mul_comm, Z_mod_mult by lia. done.
  - split; [unfold is_work; by rewrite length_map, length_seq|].
    apply be_val_bits; [unfold is_work; by rewrite length_map, length_seq|]. intros p j Hp Hj.
    rewrite lookup_map_seq by done.
    pose proof (Z.div_mod s 8 ltac:(lia)). pose proof (Z.mod_pos_bound s 8 ltac:(lia)).
    assert (0 <= s / 8 <= 31) by dlia. rewrite <- Z.shiftl_mul_pow2 by lia.
    rewrite Z.shiftl_spec by lia.
    destruct (Nat.ltb_spec (p + Z.to_nat (s / 8)) 32).
    2:{ change (b2z Byte.x00) with 0. rewrite Z.bits_0, Z.testbit_neg_r; [done|lia]. }
    unfold shifted_byte. set (src := (p + Z.to_nat (s / 8))%nat) in *. set (b := s mod 8) in *.
    rewrite z2b_testbit by lia. change 0xFF with (Z.ones 8).
    rewrite Z.land_spec, Z.ones_spec_low, andb_true_r by lia.
    replace (j + 8 * (31 - Z.of_nat p) - s) with (j - b + 8 * (31 - Z.of_nat src)) by lia.
    assert (0 <= Z.shiftl (b2z (v !!! src)) b < 2 ^ 32).
    { rewrite Z.shiftl_mul_pow2 by lia. pose proof (b2z_range (v !!! src)).
      pose proof (Z.pow_le_mono_r 2 b 8 ltac:(lia) ltac:(lia)).
      pose proof (Z.pow_pos_nonneg 2 b ltac:(lia) ltac:(lia)). nia. }
    rewrite wrapu_small by done.
    destruct (negb (b =? 0) && (S src <? 32)%nat) eqn:E; rewrite ?Z.lor_spec, Z.shiftl_spec by lia.
    + apply andb_true_iff in E as [E1 E2%Nat.ltb_lt]. bprop.
      rewrite Z.shiftr_spec by lia. destruct (Z.lt_ge_cases j b).
      * rewrite Z.testbit_neg_r by lia. rewrite byte_testbit by (done || lia). cbn [orb]. f_equal. lia.
      * rewrite (b2z_testbit_high _ (j + (8 - b))) by lia.
        rewrite byte_testbit by (done || lia). by rewrite orb_false_r.
    + destruct (Z.lt_ge_cases j b); [|apply byte_testbit; (done || lia)].
      rewrite !Z.testbit_neg_r; [done| |lia].
      apply andb_false_iff in E as [E|E%Nat.ltb_ge]; bprop; lia.
Qed.

Lemma bit_width_spec b : 0 < b -> 2 ^ (bit_width b - 1) <= b < 2 ^ bit_width b /\ 1 <= bit_width b.
Proof.
  intros Hb. unfold bit_width. rewrite (proj2 (Z.eqb_neq b 0)) by lia.
  pose proof (Z.log2_spec b Hb). pose proof (Z.log2_nonneg b).
  replace (Z.log2 b + 1 - 1) with (Z.log2 b) by lia. rewrite Z.add_1_r. lia.
Qed.

Lemma BitLength_spec v :
  0 <= BitLength v <= 8 * zlen v /\ be_val v < 2 ^ BitLength v /\
  (0 < be_val v -> 1 <= BitLength v /\ 2 ^ (BitLength v - 1) <= be_val v).
Proof.
  induction v as [|b v (R & U & L)]; [split_and!; (done || lia)|]. cbn [BitLength].
  rewrite be_val_cons, zlen_cons. pose proof (b2z_range b). pose proof (zlen_nonneg v).
  destruct (Z.eqb_spec (b2z b) 0) as [->|]; cbn [negb]; [rewrite Z.mul_0_l, Z.add_0_l; naive_solver lia|].
  pose proof (be_val_range v). replace (256 ^ zlen v) with (2 ^ (zlen v * 8)) in *
    by (rewrite Z.mul_comm, Z.pow_mul_r by lia; done).
  destruct (bit_width_spec (b2z b) ltac:(lia)) as [B B1].
  assert (bit_width (b2z b) <= 8).
  { destruct (Z.le_gt_cases (bit_width (b2z b)) 8); [done|].
    pose proof (Z.pow_le_mono_r 2 8 (bit_width (b2z b) - 1) ltac:(lia) ltac:(lia)). lia. }
  split; [lia|]. rewrite <- Z.add_sub_assoc, !Z.pow_add_r by lia.
  set (P := 2 ^ (zlen v * 8)) in *. split; [nia|]. split; [lia|]. nia.
Qed.

(** ** Division *)

Lemma bytes_ge_spec a b : length a = length b -> bytes_ge a b = (be_val b <=? be_val a).
Proof.
  intros Hl. unfold bytes_ge, lex_lt. rewrite lex_compare_be_val by done.
  unfold Z.leb. rewrite (Z.compare_antisym (be_val a)). by destruct (be_val a ?= be_val b).
Qed.

(** The division loop, started with [n] quotient bits undecided. *)
Lemma divide_loop_spec n : forall d r q, is_work d -> is_work r -> is_work q ->
  (n <= 256)%nat -> 0 < be_val d -> be_val d * 2 ^ (Z.of_nat n - 1) < 2 ^ 256 ->
  be_val r < be_val d * 2 ^ Z.of_nat n -> (exists k, be_val q = k * 2 ^ Z.of_nat n) ->
  let '(r', q') := divide_loop n d r q in
  is_work r' /\ is_work q' /\ 0 <= be_val r' < be_val d /\
  be_val q' * be_val d + be_val r' = be_val q * be_val d + be_val r.
Proof.
  induction n as [|n IH]; intros d r q Hd Hr Hq Hn Hpos Hfit Hlt [k Ek]; cbn [divide_loop].
  { pose proof (work_range r Hr). split_and!; try done; lia. }
  replace (Z.of_nat (S n) - 1) with (Z.of_nat n) in Hfit by lia.
  rewrite Nat2Z.inj_succ, Z.pow_succ_r in * by lia.
  destruct (ShiftLeft_spec d (Z.of_nat n) Hd ltac:(lia)) as [La Va].
  rewrite Z.mod_small in Va by (pose proof (Z.pow_pos_nonneg 2 (Z.of_nat n)); nia).
  pose proof (Z.pow_pos_nonneg 2 (Z.of_nat n) ltac:(lia) ltac:(lia)).
  assert (be_val d * 2 ^ (Z.of_nat n - 1) < 2 ^ 256).
  { destruct n; [lia|]. pose proof (Z.pow_le_mono_r 2 (Z.of_nat (S n) - 1) (Z.of_nat (S n)) ltac:(lia) ltac:(lia)).
    nia. }
  rewrite bytes_ge_spec by (unfold is_work in *; lia).
  destruct (Z.leb_spec (be_val (ShiftLeft d (Z.of_nat n))) (be_val r)).
  - destruct (Subtract_spec r (ShiftLeft d (Z.of_nat n)) Hr La ltac:(done)) as [Ls Vs].
    assert (be_val (SetBit q (Z.of_nat n)) = be_val q + 2 ^ Z.of_nat n) as Vq.
    { rewrite SetBit_lor by (done || lia). rewrite Ek.
      replace (k * (2 * 2 ^ Z.of_nat n)) with (k * 2 ^ (Z.of_nat n + 1))
        by (rewrite Z.pow_add_r by lia; lia).
      apply lor_add; [lia|]. rewrite Z.pow_add_r by lia. lia. }
    specialize (IH d (Subtract r (ShiftLeft d (Z.of_nat n))) (SetBit q (Z.of_nat n)) Hd Ls
      (is_work_SetBit _ _ Hq) ltac:(lia) Hpos ltac:(done) ltac:(lia)).
    destruct (divide_loop _ _ _ _) as [r' q']. destruct IH as (? & ? & ? & E).
    { exists (2 * k + 1). lia. }
    split_and!; try done; try lia.
  - apply IH; try done; try lia. exists (2 * k). lia.
Qed.

Lemma FromU64_one : is_work (FromU64 1) /\ be_val (FromU64 1) = 1.
Proof. split; reflexivity. Qed.

(** [floor(2^256 / (t+1))] from the complement, as the comment in the code says. *)
Lemma complement_division t : 0 <= t < 2 ^ 256 - 1 ->
  2 ^ 256 / (t + 1) = (2 ^ 256 - 1 - t) / (t + 1) + 1.
Proof.
  intros Ht. replace (2 ^ 256) with (2 ^ 256 - 1 - t + 1 * (t + 1)) at 1 by lia.
  apply Z.div_add. lia.
Qed.

(** The quotient the two branches of the division compute. *)
Lemma quotient_spec n d : is_work n -> is_work d -> 0 < be_val d -> 0 < be_val n ->
  let q := if BitLength d <=? BitLength n
    then snd (divide_loop (Z.to_nat (BitLength n - BitLength d + 1)) d n Zero) else Zero in
  is_work q /\ be_val q = be_val n / be_val d.
Proof.
  intros Hc Hd Pd Pn q. pose proof (work_range n Hc).
  destruct (BitLength_spec d) as (Rd & Ud & Bd). specialize (Bd ltac:(lia)).
  destruct (BitLength_spec n) as (Rn & Un & Bn). specialize (Bn ltac:(lia)).
  unfold zlen in Rn. unfold is_work in Hc. rewrite Hc in Rn. fold (is_work n) in Hc.
  unfold q. destruct (Z.leb_spec (BitLength d) (BitLength n)) as [Hle|Hlt].
  - pose proof (divide_loop_spec (Z.to_nat (BitLength n - BitLength d + 1)) d n Zero
      Hd Hc is_work_Zero) as D. rewrite Z2Nat.id in D by lia.
    destruct (divide_loop _ _ _ _) as [r' q']. cbn [snd].
    destruct D as (_ & Hq' & Hr' & E); try lia.
    + replace (BitLength n - BitLength d + 1 - 1) with (BitLength n - BitLength d) by lia.
      apply (Z.lt_le_trans _ (2 ^ BitLength d * 2 ^ (BitLength n - BitLength d)));
        [apply Z.mul_lt_mono_pos_r; [apply Z.pow_pos_nonneg; lia|done]|].
      rewrite <- Z.pow_add_r by lia. apply Z.pow_le_mono_r; lia.
    + apply (Z.lt_le_trans _ (2 ^ BitLength n)); [done|].
      replace (BitLength n) with (BitLength d - 1 + (BitLength n - BitLength d + 1)) at 1 by lia.
      rewrite Z.pow_add_r by lia. apply Z.mul_le_mono_nonneg_r; [apply Z.pow_nonneg; lia|lia].
    + exists 0. by rewrite be_val_Zero.
    + split; [done|]. rewrite be_val_Zero in E.
      apply (Z.div_unique_pos _ _ _ (be_val r')); lia.
  - split; [done|]. rewrite be_val_Zero, Z.div_small; [done|].
    pose proof (Z.pow_le_mono_r 2 (BitLength n) (BitLength d - 1) ltac:(lia) ltac:(lia)). lia.
Qed.

Lemma OfTarget_value t : Target.is_target t ->
  is_work (OfTarget t) /\
  be_val (OfTarget t) = if be_val t =? 0 then 0 else 2 ^ 256 / (be_val t + 1).
Proof.
  intros Ht. unfold OfTarget. case_bool_decide as Z0.
  { rewrite Z0, be_val_Zero. done. }
  assert (be_val t <> 0) as Hnz by (by rewrite be_val_zero_iff).
  rewrite (proj2 (Z.eqb_neq _ _)) by done.
  pose proof (Target.target_range t Ht) as R. unfold Target.is_target in Ht.
  pose proof (increment_loop_spec t) as I. destruct (increment_loop t) as [d c].
  destruct I as [Ld Vd]. unfold zlen in Vd. rewrite Ht in Vd.
  change (256 ^ Z.of_nat 32) with (2 ^ 256) in Vd. change (256 ^ 32) with (2 ^ 256) in R.
  assert (is_work d) as Hd by (unfold is_work; lia). pose proof (work_range d Hd).
  destruct c.
  { split; [reflexivity|]. replace (be_val t + 1) with (2 ^ 256) by lia. reflexivity. }
  destruct (complement_spec t) as [Lc Vc]. unfold zlen in Vc. rewrite Ht in Vc.
  change (256 ^ Z.of_nat 32) with (2 ^ 256) in Vc.
  assert (is_work (complement t)) as Hc by (unfold is_work; lia).
  set (n := complement t) in *. clearbody n.
  rewrite complement_division by lia.
  destruct (quotient_spec n d Hc Hd ltac:(lia) ltac:(lia)) as [Hq Vq].
  match goal with |- context [add (FromBigEndian ?x) _] => set (q := x) in * end.
  rewrite Vc, Vd in Vq. replace (be_val t + 1 - 0) with (be_val t + 1) in Vq by lia.
  destruct FromU64_one as [H1 V1]. destruct (add_spec (FromBigEndian q) _ Hq H1) as [Ha Va].
  split; [done|]. rewrite Va, V1. unfold FromBigEndian. rewrite Vq.
  pose proof (Z.div_le_upper_bound (2 ^ 256 - 1 - be_val t) (be_val t + 1) (2 ^ 255)). lia.
Qed.

(** ** The theorems *)

(** The work of a target is the expected number of hashes to meet it,
    exactly: the complement trick and the restoring long division on bytes
    compute [floor(2^256 / (target + 1))] for every nonzero target, all-ones
    included, and zero for the zero target. *)
Theorem work_of_target_exact (t : bytes) (Ht : Target.is_target t) :
  is_work (OfTarget t) /\
  be_val (OfTarget t) = if be_val t =? 0 then 0 else 2 ^ 256 / (be_val t + 1).
Proof. by apply OfTarget_value. Qed.

Lemma work_of_target_exact_witness :
  let t := replicate 28 Byte.x00 ++ [Byte.x01; Byte.x23; Byte.x45; Byte.x67] in
  is_work (OfTarget t) /\
  be_val (OfTarget t) = if be_val t =? 0 then 0 else 2 ^ 256 / (be_val t + 1).
Proof. intros t. apply (work_of_target_exact t). reflexivity. Defined.

Lemma OfTarget_pos t : Target.is_target t -> 0 < be_val t -> 1 <= be_val (OfTarget t).
Proof.
  intros Ht Hp. pose proof (Target.target_range t Ht). destruct (OfTarget_value t Ht) as [_ ->].
  rewrite (proj2 (Z.eqb_neq _ _)) by lia. apply Z.div_le_lower_bound; lia.
Qed.

(** Chain selection compares work soundly: with [compare] the numeric
    order, a block with any decodable difficulty adds at least one unit, so it
    makes its chain strictly heavier, unless the total is already saturated at
    [2^256 - 1], where it stays; the sum never wraps. *)
Theorem block_adds_work (chain_work : bytes) (bits : Z) (t : bytes)
    (Hw : is_work chain_work) (Hb : u32 bits) (Hd : Target.CompactToTarget bits = Some t) :
  let total := add chain_work (OfCompactTarget bits) in
  is_work total /\
  be_val total = Z.min (be_val chain_work + 2 ^ 256 / (be_val t + 1)) (2 ^ 256 - 1) /\
  compare chain_work total = (if be_val chain_work =? 2 ^ 256 - 1 then Eq else Lt).
Proof.
  apply Target.CompactToTarget_Some in Hd as D; [|done]. destruct D as (Lt' & Pt & _).
  unfold OfCompactTarget. rewrite Hd. pose proof (OfTarget_pos t Lt' Pt) as One.
  destruct (OfTarget_value t Lt') as [Hwt Vt]. rewrite (proj2 (Z.eqb_neq _ _)) in Vt by lia.
  destruct (add_spec chain_work (OfTarget t) Hw Hwt) as [Ha Va]. cbv zeta.
  split; [done|]. split; [lia|].
  unfold compare. rewrite lex_compare_be_val by (unfold is_work in *; lia). rewrite Va.
  pose proof (work_range chain_work Hw). destruct (Z.eqb_spec (be_val chain_work) (2 ^ 256 - 1)).
  - apply Z.compare_eq_iff. lia.
  - apply Z.compare_lt_iff. lia.
Qed.

Lemma block_adds_work_witness :
  let total := add Zero (OfCompactTarget 0x1d00ffff) in
  is_work total /\
  be_val total = Z.min (0 + 2 ^ 256 / (0xffff * 256 ^ 26 + 1)) (2 ^ 256 - 1) /\
  compare Zero total = (if 0 =? 2 ^ 256 - 1 then Eq else Lt).
Proof.
  apply (block_adds_work Zero 0x1d00ffff
    (replicate 4 Byte.x00 ++ [Byte.xff; Byte.xff] ++ replicate 26 Byte.x00));
    [reflexivity|vm_compute; split; congruence|vm_compute; reflexivity].
Defined.

(** An easier target never counts for more work. *)
Theorem work_antitone (t1 t2 : bytes)
    (H1 : Target.is_target t1) (H2 : Target.is_target t2) (Hpos : 0 < be_val t1)
    (Hle : be_val t1 <= be_val t2) :
  compare (OfTarget t2) (OfTarget t1) <> Gt.
Proof.
  destruct (OfTarget_value t1 H1) as [L1 V1], (OfTarget_value t2 H2) as [L2 V2].
  unfold compare. rewrite lex_compare_be_val by (unfold is_work in *; lia).
  rewrite V1, V2, !(proj2 (Z.eqb_neq _ _)) by lia. apply Z.compare_le_iff.
  apply Z.div_le_compat_l; lia.
Qed.

Lemma work_antitone_witness :
  let t1 := replicate 31 Byte.x00 ++ [Byte.x05] in
  let t2 := replicate 31 Byte.x00 ++ [Byte.x09] in
  compare (OfTarget t2) (OfTarget t1) <> Gt.
Proof. intros t1 t2. apply (work_antitone t1 t2); vm_compute; congruence. Defined.

End Work.
