(* ===== verification/Asert.v ===== *)
(** * The ASERT difficulty rule (consensus/asert.hpp, src/consensus/asert.cpp)

    Targets are scaled in 320-bit fixed point held as five 64-bit limbs, least
    significant first ([Wide]).  Every 64-bit operation of the code is written
    with its wrap-around; the lemmas show none of them loses anything, and the
    theorems that [AsertNextBits] is the arithmetic formula
    [clamp 1 limit (anchor * 2^exponent)] with the published cubic. *)

From S2P Require Import Prelude Serialize Target Work.

Module Asert.

(** [struct Wide { std::array<uint64_t, 5> limb; }] *)
Abbreviation Wide := (list Z).

Definition LIMB_COUNT : nat := 5.
Definition LIMB_BITS : Z := 64.
Definition VALUE_BITS : Z := 5 * LIMB_BITS.
Definition RADIX_BITS : Z := 16.
Definition RADIX : Z := Z.shiftl 1 RADIX_BITS.
Definition EXPONENT_SATURATION : Z := Z.shiftl 1 32.

Definition wide_zero : Wide := replicate LIMB_COUNT 0.

Definition Clamp (value low high : Z) : Z :=
  if value <? low then low else if high <? value then high else value.

Definition IsZero (value : Wide) : bool := forallb (fun limb => limb =? 0) value.

Definition or_byte (f : nat -> Init.Byte.byte) (word : Z) (byte : nat) : Z :=
  Z.lor word (wrapu 64 (Z.shiftl (b2z (f byte)) (Z.of_nat byte * 8))).

Definition FromTarget (target : bytes) : Wide :=
  map (fun limb : nat =>
         fold_left (or_byte (fun byte => target !!! (32 - 1 - (limb * 8 + byte))%nat)) (seq 0 8) 0)
    (seq 0 4) ++ [0].

(** [(lo, hi) = a * b + add] in 32-bit halves. *)
Definition MulAdd64 (a b add : Z) : Z * Z :=
  let a_lo := Z.land a 0xFFFFFFFF in
  let a_hi := Z.shiftr a 32 in
  let b_lo := Z.land b 0xFFFFFFFF in
  let b_hi := Z.shiftr b 32 in
  let p00 := wrapu 64 (a_lo * b_lo) in
  let p01 := wrapu 64 (a_lo * b_hi) in
  let p10 := wrapu 64 (a_hi * b_lo) in
  let p11 := wrapu 64 (a_hi * b_hi) in
  let mid_lo := wrapu 64 (p01 + p10) in
  let mid_carry := if mid_lo <? p01 then 1 else 0 in
  let low := wrapu 64 (wrapu 64 (Z.shiftl mid_lo 32) + p00) in
  let low_carry := if low <? p00 then 1 else 0 in
  let with_add := wrapu 64 (low + add) in
  let add_carry := if with_add <? low then 1 else 0 in
  (with_add,
   wrapu 64 (p11 + wrapu 64 (Z.shiftl mid_carry 32) + Z.shiftr mid_lo 32 + low_carry + add_carry)).

(** The word one destination limb of a right shift receives; past the last
    source limb the loop breaks and the zeros stay. *)
Definition right_word (value : Wide) (limb_shift : nat) (bit_shift : Z) (i : nat) : Z :=
  if (5 <=? i + limb_shift)%nat then 0
  else
    let word := Z.shiftr (value !!! (i + limb_shift)%nat) bit_shift in
    if negb (bit_shift =? 0) && (i + limb_shift + 1 <? 5)%nat
    then Z.lor word (wrapu 64 (Z.shiftl (value !!! (i + limb_shift + 1)%nat) (LIMB_BITS - bit_shift)))
    else word.

Definition ShiftRight (value : Wide) (bits : Z) : Wide :=
  if VALUE_BITS <=? bits then wide_zero
  else map (right_word value (Z.to_nat (bits / LIMB_BITS)) (bits mod LIMB_BITS)) (seq 0 5).

(** The overflow test over the source limbs. *)
Definition shift_overflows (value : Wide) (limb_shift : nat) (bit_shift : Z) : bool :=
  existsb (fun source : nat =>
      if (5 <=? source + limb_shift)%nat then negb (value !!! source =? 0)
      else if negb (bit_shift =? 0) && (source + limb_shift =? 5 - 1)%nat
      then negb (Z.shiftr (value !!! source) (LIMB_BITS - bit_shift) =? 0)
      else false)
    (seq 0 5).

Definition left_word (value : Wide) (limb_shift : nat) (bit_shift : Z) (destination : nat) : Z :=
  if (limb_shift <=? destination)%nat
  then
    let source := (destination - limb_shift)%nat in
    let word := wrapu 64 (Z.shiftl (value !!! source) bit_shift) in
    if negb (bit_shift =? 0) && (1 <=? source)%nat
    then Z.lor word (Z.shiftr (value !!! (source - 1)%nat) (LIMB_BITS - bit_shift))
    else word
  else 0.

Definition ShiftLeft (value : Wide) (bits : Z) : Wide * bool :=
  if bits =? 0 then (value, false)
  else if VALUE_BITS <=? bits then (wide_zero, negb (IsZero value))
  else
    let limb_shift := Z.to_nat (bits / LIMB_BITS) in
    let bit_shift := bits mod LIMB_BITS in
    (map (left_word value limb_shift bit_shift) (seq 0 5),
     shift_overflows value limb_shift bit_shift).

Fixpoint multiply_loop (value : Wide) (factor carry : Z) : Wide * Z :=
  match value with
  | [] => ([], carry)
  | limb :: value =>
      let '(lo, hi) := MulAdd64 limb factor carry in
      let '(rest, carry) := multiply_loop value factor hi in
      (lo :: rest, carry)
  end.

Definition MultiplySmall (value : Wide) (factor : Z) : Wide * bool :=
  let '(product, carry) := multiply_loop value factor 0 in (product, negb (carry =? 0)).

(** Limbs from the most significant down. *)
Fixpoint exceeds_loop (value limit : list Z) : bool :=
  match value, limit with
  | v :: value, l :: limit => if negb (v =? l) then l <? v else exceeds_loop value limit
  | _, _ => false
  end.

Definition Exceeds (value limit : Wide) : bool := exceeds_loop (rev value) (rev limit).

(** Bytes are written from the last position of the target backwards. *)
Definition ToTarget (value : Wide) : bytes :=
  rev (concat (map (fun limb : nat =>
      let word := value !!! limb in
      map (fun byte : nat => z2b (Z.land (Z.shiftr word (Z.of_nat byte * 8)) 0xFF)) (seq 0 8))
    (seq 0 4))).

(** The bit loop of [ScaledQuotient]; [n] is [bit + 1]. *)
Fixpoint quotient_loop (n : nat) (high divisor remainder quotient : Z) : Z :=
  match n with
  | O => quotient
  | S n =>
      let bit := Z.of_nat n in
      let numerator_bit := if 16 <=? bit then Z.land (Z.shiftr high (bit - 16)) 1 else 0 in
      let remainder := Z.lor (wrapu 64 (Z.shiftl remainder 1)) numerator_bit in
      let '(remainder, quotient_bit) :=
        if divisor <=? remainder then (wrapu 64 (remainder - divisor), 1) else (remainder, 0) in
      let quotient := Z.lor (wrapu 64 (Z.shiftl quotient 1)) quotient_bit in
      if EXPONENT_SATURATION <=? quotient then EXPONENT_SATURATION
      else quotient_loop n high divisor remainder quotient
  end.

Definition ScaledQuotient (high divisor : Z) : Z :=
  if (divisor =? 0) || (Z.shiftl 1 62 <? divisor) then EXPONENT_SATURATION
  else quotient_loop 80 high divisor 0 0.

Definition FractionFactor (fraction : Z) : Z :=
  let linear := wrapu 64 (195766423245049 * fraction) in
  let quadratic := wrapu 64 (wrapu 64 (971821376 * fraction) * fraction) in
  let cubic := wrapu 64 (wrapu 64 (wrapu 64 (5127 * fraction) * fraction) * fraction) in
  let rounding := Z.shiftl 1 47 in
  let polynomial :=
    wrapu 64 (wrapu 64 (wrapu 64 (linear + quadratic) + cubic) + rounding) in
  wrapu 64 (RADIX + Z.shiftr polynomial 48).

(** The fixed-point exponent: clamped inputs, truncation toward zero. *)
Definition asert_exponent (anchor_time height_delta tip_time spacing_seconds half_life_seconds : Z) : Z :=
  let bound := Z.shiftl 1 61 in
  let origin := Clamp anchor_time (- bound) bound in
  let observed := Clamp tip_time (- bound) bound in
  let spacing := Clamp spacing_seconds 1 (Z.shiftl 1 31) in
  let height := Clamp height_delta 1 (Z.shiftl 1 31) in
  let time_delta := to_i64 (observed - origin) in
  let expected := to_i64 (spacing * height) in
  let numerator := to_i64 (time_delta - expected) in
  let magnitude :=
    if numerator <? 0 then wrapu 64 (0 - wrapu 64 numerator) else wrapu 64 numerator in
  let half_life := wrapu 64 (Clamp half_life_seconds 1 (Z.shiftl 1 62)) in
  let scaled := ScaledQuotient magnitude half_life in
  if numerator <? 0 then to_i64 (- to_i64 scaled) else to_i64 scaled.

(** The scaling and the clamps, from the anchor's and the limit's limbs. *)
Definition asert_scale (target limit : Wide) (exponent : Z) : Z :=
  let integer_shift := Z.shiftr exponent RADIX_BITS in
  let fraction := Z.land (wrapu 64 exponent) (RADIX - 1) in
  let factor := FractionFactor fraction in
  let '(target, multiplied_overflow) := MultiplySmall target factor in
  let shift := integer_shift - RADIX_BITS in
  let finish (target : Wide) : Z :=
    if IsZero target then Target.TargetToCompact (<[31%nat := Byte.x01]> Work.Zero)
    else if Exceeds target limit then Target.TargetToCompact (ToTarget limit)
    else Target.TargetToCompact (ToTarget target) in
  if 0 <? shift then
    let '(target, overflow) := ShiftLeft target shift in
    if overflow || multiplied_overflow then Target.TargetToCompact (ToTarget limit)
    else finish target
  else if shift <? 0 then finish (ShiftRight target (- shift))
  else finish target.

Definition AsertNextBits (anchor_bits anchor_time height_delta tip_time spacing_seconds
    half_life_seconds pow_limit_bits : Z) : Z :=
  match Target.CompactToTarget pow_limit_bits, Target.CompactToTarget anchor_bits with
  | Some floor, Some anchor =>
      let limit := FromTarget floor in
      let target := FromTarget anchor in
      let target := if Exceeds target limit then limit else target in
      if height_delta <=? 0 then Target.TargetToCompact (ToTarget target)
      else asert_scale target limit
             (asert_exponent anchor_time height_delta tip_time spacing_seconds half_life_seconds)
  | _, _ => pow_limit_bits
  end.

Example asert_on_schedule :
  AsertNextBits 0x1d00ffff 1000 10 (1000 + 6000) 600 172800 0x1d00ffff = 0x1d00ffff.
Proof. vm_compute. reflexivity. Qed.

Example asert_one_half_life_early :
  AsertNextBits 0x1c00ffff 1000000 1000 (1000000 + 600000 - 172800) 600 172800 0x1d00ffff = 0x1b7fff80.
Proof. vm_compute. reflexivity. Qed.

(** ** Limbs as numbers *)

Fixpoint wide_val (w : Wide) : Z :=
  match w with [] => 0 | l :: w => l + 2 ^ 64 * wide_val w end.

Definition wide_ok (w : Wide) : Prop := length w = 5%nat /\ Forall u64 w.

Lemma wide_val_range w : Forall u64 w -> 0 <= wide_val w < 2 ^ (64 * zlen w).
Proof.
  induction 1 as [|l w Hl _ IH]; [split; [cbn [wide_val]; lia|reflexivity]|]. cbn [wide_val]. rewrite zlen_cons.
  rewrite Z.mul_add_distr_l, Z.pow_add_r by (pose proof (zlen_nonneg w); lia).
  unfold u64 in Hl. change (64 * 1) with 64. nia.
Qed.

Lemma wide_ok_range w : wide_ok w -> 0 <= wide_val w < 2 ^ 320.
Proof.
  intros [L F]. pose proof (wide_val_range w F) as R. unfold zlen in R. rewrite L in R. exact R.
Qed.

Lemma wide_ok_lookup w (i : nat) : wide_ok w -> (i < 5)%nat -> u64 (w !!! i).
Proof.
  intros [L F] Hi. eapply (Forall_lookup_1 _ w i); [done|].
  apply list_lookup_lookup_total_lt. lia.
Qed.

Lemma wide_lookup_div w (i : nat) : Forall u64 w -> (i < length w)%nat ->
  w !!! i = (wide_val w / 2 ^ (64 * Z.of_nat i)) mod 2 ^ 64.
Proof.
  revert i. induction w as [|l w IH]; intros i F Hi; [simpl in *; lia|].
  apply Forall_cons_1 in F as [Hl F]. unfold u64 in Hl. cbn [wide_val]. destruct i as [|i].
  - change ((l :: w) !!! 0%nat) with l. change (64 * Z.of_nat 0) with 0.
    rewrite Z.pow_0_r, Z.div_1_r, Z.mul_comm, Z_mod_plus_full. by rewrite Z.mod_small.
  - change ((l :: w) !!! S i) with (w !!! i). rewrite IH by (simpl in *; done || lia).
    replace (64 * Z.of_nat (S i)) with (64 + 64 * Z.of_nat i) by lia.
    rewrite Z.pow_add_r, <- Z.div_div by lia.
    rewrite (Z.mul_comm (2 ^ 64)), Z.div_add, (Z.div_small l) by lia. done.
Qed.

Lemma limb_testbit w (i : nat) j : wide_ok w -> (i < 5)%nat -> 0 <= j < 64 ->
  Z.testbit (w !!! i) j = Z.testbit (wide_val w) (64 * Z.of_nat i + j).
Proof.
  intros [L F] Hi Hj. rewrite wide_lookup_div by (done || lia).
  rewrite Z.mod_pow2_bits_low, Z.div_pow2_bits by lia. f_equal. lia.
Qed.

Lemma u64_testbit_high z j : u64 z -> 64 <= j -> Z.testbit z j = false.
Proof.
  unfold u64. intros Hz Hj. rewrite <- (Z.mod_small z (2 ^ 64)) by lia.
  by rewrite Z.mod_pow2_bits_high by lia.
Qed.

(** A limb array is the number whose bits its limbs hold. *)
Lemma wide_val_bits w X : wide_ok w ->
  (forall (i : nat) j, (i < 5)%nat -> 0 <= j < 64 ->
     Z.testbit (w !!! i) j = Z.testbit X (64 * Z.of_nat i + j)) ->
  wide_val w = X mod 2 ^ 320.
Proof.
  intros Hw H. pose proof (wide_ok_range w Hw). apply Z.bits_inj'. intros n Hn.
  destruct (Z.lt_ge_cases n 320).
  - rewrite Z.mod_pow2_bits_low by lia.
    pose proof (Z.div_mod n 64 ltac:(lia)). pose proof (Z.mod_pos_bound n 64 ltac:(lia)).
    pose proof (Z.div_pos n 64 ltac:(lia) ltac:(lia)).
    specialize (H (Z.to_nat (n / 64)) (n mod 64) ltac:(lia) ltac:(lia)).
    rewrite limb_testbit in H by (done || lia).
    by replace (64 * Z.of_nat (Z.to_nat (n / 64)) + n mod 64) with n in H by lia.
  - rewrite Z.mod_pow2_bits_high by lia.
    rewrite <- (Z.mod_small (wide_val w) (2 ^ 320)) by lia. by rewrite Z.mod_pow2_bits_high by lia.
Qed.

(** ** Shifts *)

Lemma u64_wrapu z : u64 (wrapu 64 z).
Proof. apply wrapu_range. lia. Qed.

Lemma u64_lor x y : u64 x -> u64 y -> u64 (Z.lor x y).
Proof.
  unfold u64. intros Hx Hy. split; [apply Z.lor_nonneg; lia|].
  destruct (Z.eq_dec (Z.lor x y) 0) as [->|]; [lia|].
  apply Z.log2_lt_cancel. rewrite Z.log2_lor by lia. rewrite Z.log2_pow2 by lia.
  assert (forall z, 0 <= z < 2 ^ 64 -> Z.log2 z < 64) as L.
  { intros z Hz. destruct (Z.eq_dec z 0) as [->|]; [done|]. apply Z.log2_lt_pow2; lia. }
  apply Z.max_lub_lt; by apply L.
Qed.

Lemma u64_shiftr x k : u64 x -> 0 <= k -> u64 (Z.shiftr x k).
Proof.
  unfold u64. intros Hx Hk. rewrite Z.shiftr_div_pow2 by done.
  pose proof (Z.pow_pos_nonneg 2 k ltac:(lia) Hk). split; [apply Z.div_pos; lia|].
  apply Z.div_lt_upper_bound; nia.
Qed.

Lemma wrapu_testbit z j : 0 <= j < 64 -> Z.testbit (wrapu 64 z) j = Z.testbit z j.
Proof. intros. unfold wrapu. by rewrite Z.mod_pow2_bits_low by lia. Qed.

Lemma wide_ok_map_seq f : (forall i, (i < 5)%nat -> u64 (f i)) -> wide_ok (map f (seq 0 5)).
Proof. split; [by rewrite length_map, length_seq|by apply Forall_map_seq]. Qed.

Lemma wide_zero_ok : wide_ok wide_zero /\ wide_val wide_zero = 0.
Proof. split; [|done]. split; [done|]. apply Forall_replicate. unfold u64. lia. Qed.

Ltac solve_u64 :=
  repeat first [apply u64_wrapu | apply u64_lor | apply u64_shiftr | apply wide_ok_lookup];
  (done || lia || (unfold u64; lia)).

Lemma ShiftRight_spec w bits : wide_ok w -> 0 <= bits ->
  wide_ok (ShiftRight w bits) /\ wide_val (ShiftRight w bits) = wide_val w / 2 ^ bits.
Proof.
  intros Hw Hb. pose proof (wide_ok_range w Hw). unfold ShiftRight, VALUE_BITS, LIMB_BITS.
  destruct (Z.leb_spec (5 * 64) bits).
  { split; [apply wide_zero_ok|]. rewrite (proj2 wide_zero_ok), Z.div_small; [done|].
    pose proof (Z.pow_le_mono_r 2 320 bits ltac:(lia) ltac:(lia)). lia. }
  pose proof (Z.div_mod bits 64 ltac:(lia)). pose proof (Z.mod_pos_bound bits 64 ltac:(lia)).
  assert (0 <= bits / 64 <= 4) by dlia.
  set (ls := Z.to_nat (bits / 64)). set (b := bits mod 64) in *.
  assert (wide_ok (map (right_word w ls b) (seq 0 5))) as Hok.
  { apply wide_ok_map_seq. intros i Hi. unfold right_word, LIMB_BITS.
    destruct (Nat.leb_spec 5 (i + ls)); [done|]. cbv zeta.
    destruct (negb _ && (_ <? _)%nat) eqn:E; [apply andb_true_iff in E as [_ E%Nat.ltb_lt]|]; solve_u64. }
  split; [done|]. rewrite <- (Z.mod_small (_ / _) (2 ^ 320)).
  2:{ pose proof (Z.pow_pos_nonneg 2 bits ltac:(lia) ltac:(lia)).
      split; [apply Z.div_pos; lia|]. apply Z.div_lt_upper_bound; nia. }
  apply wide_val_bits; [done|]. intros i j Hi Hj. rewrite lookup_map_seq by done.
  rewrite Z.div_pow2_bits by lia. unfold right_word, LIMB_BITS.
  destruct (Nat.leb_spec 5 (i + ls)).
  { rewrite Z.bits_0. symmetry. rewrite <- (Z.mod_small (wide_val w) (2 ^ 320)) by lia.
    apply Z.mod_pow2_bits_high. lia. }
  destruct (negb (b =? 0) && (i + ls + 1 <? 5)%nat) eqn:E; cbv zeta;
    rewrite ?Z.lor_spec, Z.shiftr_spec by lia.
  - apply andb_true_iff in E as [E1 E2%Nat.ltb_lt]. bprop.
    rewrite wrapu_testbit, Z.shiftl_spec by lia. destruct (Z.lt_ge_cases (j + b) 64).
    + rewrite (Z.testbit_neg_r _ (j - _)), orb_false_r by lia.
      rewrite limb_testbit by (done || lia). f_equal. lia.
    + rewrite (u64_testbit_high _ (j + b)) by (solve_u64). cbn [orb].
      rewrite limb_testbit by (done || lia). f_equal. lia.
  - destruct (Z.lt_ge_cases (j + b) 64); [rewrite limb_testbit by (done || lia); f_equal; lia|].
    rewrite u64_testbit_high by (solve_u64). symmetry.
    rewrite <- (Z.mod_small (wide_val w) (2 ^ 320)) by lia. apply Z.mod_pow2_bits_high.
    apply andb_false_iff in E as [E|E%Nat.ltb_ge]; bprop; lia.
Qed.

Lemma IsZero_spec w : Forall u64 w -> IsZero w = (wide_val w =? 0).
Proof.
  unfold IsZero. induction 1 as [|l w Hl F IH]; [done|]. cbn [forallb wide_val]. rewrite IH.
  pose proof (wide_val_range w F). unfold u64 in Hl.
  destruct (Z.eqb_spec l 0), (Z.eqb_spec (wide_val w) 0), (Z.eqb_spec (l + 2 ^ 64 * wide_val w) 0);
    cbn [andb]; done || lia.
Qed.

Lemma shift_overflows_spec w (ls : nat) b : wide_ok w -> (ls < 5)%nat -> 0 <= b < 64 ->
  shift_overflows w ls b = (2 ^ (320 - 64 * Z.of_nat ls - b) <=? wide_val w).
Proof.
  intros [L F] Hls Hb.
  destruct w as [|w0 [|w1 [|w2 [|w3 [|w4 [|? ?]]]]]]; try done.
  repeat match goal with H : Forall _ (_ :: _) |- _ => apply Forall_cons_1 in H as [? H] end.
  unfold u64 in *. clear L F.
  assert (1 <= 2 ^ (64 - b) <= 2 ^ 64) as HQ.
  { split; [apply Z.lt_pred_le, Z.pow_pos_nonneg; lia|apply Z.pow_le_mono_r; lia]. }
  assert (forall x, 0 <= x < 2 ^ 64 -> negb (b =? 0) && negb (Z.shiftr x (64 - b) =? 0)
    = (2 ^ (64 - b) <=? x)) as T.
  { intros x Hx. rewrite Z.shiftr_div_pow2 by lia.
    destruct (Z.leb_spec (2 ^ (64 - b)) x).
    - assert (b <> 0) by (intros ->; change (2 ^ (64 - 0)) with (2 ^ 64) in *; lia).
      rewrite (proj2 (Z.eqb_neq b 0)) by done. cbn [negb andb]. apply negb_true_iff, Z.eqb_neq.
      pose proof (Z.div_le_lower_bound x (2 ^ (64 - b)) 1). lia.
    - by rewrite Z.div_small, andb_false_r by lia. }
  destruct ls as [|[|[|[|[|?]]]]]; [| | | | |lia]; unfold shift_overflows, LIMB_BITS;
    cbn [seq existsb Nat.leb Nat.add Nat.sub Nat.eqb negb]; rewrite ?andb_false_r, ?andb_true_r;
    cbn [orb];
    repeat match goal with |- context [if negb (b =? 0) then negb ?x else false] =>
      change (if negb (b =? 0) then negb x else false) with (negb (b =? 0) && negb x) end;
    cbn [lookup_total list_lookup_total]; rewrite T by lia; cbn [wide_val];
    match goal with |- context [2 ^ (320 - 64 * Z.of_nat ?n - b)] =>
      replace (320 - 64 * Z.of_nat n - b) with (64 * Z.of_nat (4 - n) + (64 - b)) by lia;
      rewrite Z.pow_add_r by lia; cbn [Nat.sub] end;
    set (Q := 2 ^ (64 - b)) in *; clearbody Q;
    repeat match goal with
    | |- context [negb (?x =? 0)] => destruct (Z.eqb_spec x 0); cbn [negb orb]
    | |- context [Q <=? ?x] => is_var x; destruct (Z.leb_spec Q x); cbn [orb]
    end;
    symmetry; first [apply Z.leb_le; lia | apply Z.leb_gt; lia].
Qed.

Lemma wide_ShiftLeft_spec w bits : wide_ok w -> 0 <= bits ->
  let '(r, overflow) := ShiftLeft w bits in
  wide_ok r /\ wide_val r = (wide_val w * 2 ^ bits) mod 2 ^ 320 /\
  overflow = (2 ^ 320 <=? wide_val w * 2 ^ bits).
Proof.
  intros Hw Hb. pose proof (wide_ok_range w Hw) as R. unfold ShiftLeft, VALUE_BITS, LIMB_BITS.
  destruct (Z.eqb_spec bits 0) as [->|].
  { change (2 ^ 0) with 1. rewrite Z.mul_1_r, Z.mod_small by lia. split_and!; try done.
    symmetry. apply Z.leb_gt. lia. }
  destruct (Z.leb_spec (5 * 64) bits).
  { split; [apply wide_zero_ok|]. rewrite (proj2 wide_zero_ok), IsZero_spec by apply Hw.
    replace bits with (bits - 320 + 320) by lia. rewrite Z.pow_add_r, Z.mul_assoc, Z_mod_mult by lia.
    pose proof (Z.pow_pos_nonneg 2 (bits - 320) ltac:(lia) ltac:(lia)). split; [done|].
    destruct (Z.eqb_spec (wide_val w) 0) as [->|]; [done|]. symmetry. apply Z.leb_le. nia. }
  pose proof (Z.div_mod bits 64 ltac:(lia)) as D. pose proof (Z.mod_pos_bound bits 64 ltac:(lia)).
  assert (0 <= bits / 64 <= 4) by dlia. cbv zeta.
  set (ls := Z.to_nat (bits / 64)). set (b := bits mod 64) in *.
  assert (wide_ok (map (left_word w ls b) (seq 0 5))) as Hok.
  { apply wide_ok_map_seq. intros i Hi. unfold left_word, LIMB_BITS.
    destruct (Nat.leb_spec ls i); [|done]. cbv zeta.
    destruct (negb _ && _) eqn:E; [apply andb_true_iff in E as [_ E%Nat.leb_le]|]; solve_u64. }
  split; [done|]. split.
  - apply wide_val_bits; [done|]. intros i j Hi Hj. rewrite lookup_map_seq by done.
    rewrite Z.mul_pow2_bits by lia. unfold left_word, LIMB_BITS.
    destruct (Nat.leb_spec ls i); [|rewrite Z.bits_0, Z.testbit_neg_r by lia; done].
    destruct (negb (b =? 0) && (1 <=? i - ls)%nat) eqn:E; cbv zeta;
      rewrite ?Z.lor_spec, wrapu_testbit, Z.shiftl_spec by lia.
    + apply andb_true_iff in E as [E1 E2%Nat.leb_le]. bprop. rewrite Z.shiftr_spec by lia.
      destruct (Z.lt_ge_cases j b).
      * rewrite (Z.testbit_neg_r _ (j - b)) by lia. cbn [orb].
        rewrite limb_testbit by (done || lia). f_equal. lia.
      * rewrite (u64_testbit_high _ (j + _)) by (solve_u64). rewrite orb_false_r.
        rewrite limb_testbit by (done || lia). f_equal. lia.
    + destruct (Z.lt_ge_cases j b); [|rewrite limb_testbit by (done || lia); f_equal; lia].
      rewrite !Z.testbit_neg_r; [done| |lia].
      apply andb_false_iff in E as [E|E%Nat.leb_gt]; bprop; lia.
  - rewrite shift_overflows_spec by (done || lia).
    replace (320 - 64 * Z.of_nat ls - b) with (320 - bits) by lia.
    replace (2 ^ 320) with (2 ^ (320 - bits) * 2 ^ bits) at 1
      by (rewrite <- Z.pow_add_r by lia; f_equal; lia).
    pose proof (Z.pow_pos_nonneg 2 bits ltac:(lia) ltac:(lia)).
    destruct (Z.leb_spec (2 ^ (320 - bits)) (wide_val w)); symmetry;
      [apply Z.leb_le|apply Z.leb_gt]; nia.
Qed.

(** ** Multiplication *)

(** The carry test [s < x] after [s = x + y] recovers the bit that wrapped. *)
Lemma add_carry x y : u64 x -> u64 y ->
  x + y = wrapu 64 (x + y) + 2 ^ 64 * (if wrapu 64 (x + y) <? x then 1 else 0).
Proof.
  unfold u64, wrapu. intros Hx Hy. destruct (Z.lt_ge_cases (x + y) (2 ^ 64)).
  - rewrite Z.mod_small by lia. rewrite (proj2 (Z.ltb_ge _ _)) by lia. lia.
  - assert ((x + y) mod 2 ^ 64 = x + y - 2 ^ 64) as ->.
    { symmetry. apply (Z.mod_unique_pos _ _ 1); lia. }
    rewrite (proj2 (Z.ltb_lt _ _)) by lia. lia.
Qed.

Lemma split32 x : u64 x ->
  x = Z.shiftr x 32 * 2 ^ 32 + Z.land x 0xFFFFFFFF /\
  0 <= Z.shiftr x 32 < 2 ^ 32 /\ 0 <= Z.land x 0xFFFFFFFF < 2 ^ 32.
Proof.
  unfold u64. intros Hx. change 0xFFFFFFFF with (Z.ones 32).
  rewrite Z.land_ones, Z.shiftr_div_pow2 by lia. dlia.
Qed.

Lemma MulAdd64_spec a b add : u64 a -> u64 b -> u64 add ->
  let '(lo, hi) := MulAdd64 a b add in
  u64 lo /\ u64 hi /\ lo + 2 ^ 64 * hi = a * b + add.
Proof.
  intros Ha Hb Hadd. unfold MulAdd64.
  destruct (split32 a Ha) as (Ea & Rah & Ral), (split32 b Hb) as (Eb & Rbh & Rbl).
  set (ah := Z.shiftr a 32) in *. set (al := Z.land a _) in *.
  set (bh := Z.shiftr b 32) in *. set (bl := Z.land b _) in *. clearbody ah al bh bl.
  rewrite !(wrapu_small 64 (al * bl)), !(wrapu_small 64 (al * bh)), !(wrapu_small 64 (ah * bl)),
    (wrapu_small 64 (ah * bh)) by nia.
  assert (u64 (al * bl) /\ u64 (al * bh) /\ u64 (ah * bl) /\ u64 (ah * bh)) as (U0 & U1 & U2 & U3)
    by (unfold u64; nia).
  pose proof (add_carry _ _ U1 U2) as Em. set (mid := wrapu 64 (al * bh + ah * bl)) in *.
  destruct (split32 mid) as (Emid & Rmh & Rml); [apply u64_wrapu|].
  assert (wrapu 64 (Z.shiftl mid 32) = Z.land mid 0xFFFFFFFF * 2 ^ 32) as Esh.
  { rewrite Z.shiftl_mul_pow2 by lia. rewrite Emid at 1. unfold wrapu.
    symmetry. apply (Z.mod_unique_pos _ _ (Z.shiftr mid 32)); lia. }
  rewrite !Esh. set (mh := Z.shiftr mid 32) in *. set (ml := Z.land mid _) in *.
  set (mc := if mid <? al * bh then 1 else 0) in *.
  assert (0 <= mc <= 1) by (unfold mc; destruct (_ <? _); lia). clearbody mc mh ml mid.
  rewrite (wrapu_small 64 (Z.shiftl mc 32)) by (rewrite Z.shiftl_mul_pow2; lia).
  rewrite Z.shiftl_mul_pow2 by lia.
  pose proof (add_carry (al * bl) (ml * 2 ^ 32) U0 ltac:(unfold u64; lia)) as El.
  rewrite (Z.add_comm (al * bl)) in El. set (low := wrapu 64 (ml * 2 ^ 32 + al * bl)) in *.
  pose proof (add_carry low add (u64_wrapu _) Hadd) as Ew. set (wa := wrapu 64 (low + add)) in *.
  set (lc := if low <? al * bl then 1 else 0) in *. set (ac := if wa <? low then 1 else 0) in *.
  pose proof (u64_wrapu (low + add)) as Uwa. fold wa in Uwa. split; [done|]. split; [apply u64_wrapu|].
  assert (0 <= lc <= 1) by (unfold lc; clearbody low; case_match; lia).
  assert (0 <= ac <= 1) by (unfold ac; clearbody wa lc low; case_match; lia).
  clearbody lc ac wa low.
  assert (wa + 2 ^ 64 * (ah * bh + mc * 2 ^ 32 + mh + lc + ac) = a * b + add) as Eq.
  { rewrite Ea, Eb. lia. }
  rewrite wrapu_small; [done|]. unfold u64 in *.
  assert (a * b <= (2 ^ 64 - 1) * (2 ^ 64 - 1)) by (apply Z.mul_le_mono_nonneg; lia).
  set (ab := a * b) in *. set (hb := ah * bh) in *. clearbody ab hb.
  clear - Eq Uwa U3 Rmh H H0 H1 H2 Hadd. lia.
Qed.

Lemma multiply_loop_spec w f c : Forall u64 w -> u64 f -> u64 c ->
  let '(r, c') := multiply_loop w f c in
  length r = length w /\ Forall u64 r /\ u64 c' /\
  wide_val r + 2 ^ (64 * zlen w) * c' = wide_val w * f + c.
Proof.
  intros F Hf. revert c. induction F as [|l w Hl F IH]; intros c Hc; cbn [multiply_loop].
  { split_and!; try done. cbn [wide_val]. change (2 ^ (64 * zlen [])) with 1. lia. }
  pose proof (MulAdd64_spec l f c Hl Hf Hc) as M. destruct (MulAdd64 l f c) as [lo hi].
  destruct M as (Ulo & Uhi & E). specialize (IH hi Uhi).
  destruct (multiply_loop w f hi) as [r c']. destruct IH as (L & Fr & Uc & Er).
  split_and!; [simpl; lia|by constructor|done|]. cbn [wide_val].
  rewrite zlen_cons, Z.mul_add_distr_l, Z.pow_add_r by (pose proof (zlen_nonneg w); lia).
  change (2 ^ (64 * 1)) with (2 ^ 64). lia.
Qed.

Lemma MultiplySmall_spec w f : wide_ok w -> u64 f -> wide_val w * f < 2 ^ 320 ->
  let '(r, overflow) := MultiplySmall w f in
  wide_ok r /\ overflow = false /\ wide_val r = wide_val w * f.
Proof.
  intros [L F] Hf Hfit. unfold MultiplySmall.
  pose proof (multiply_loop_spec w f 0 F Hf ltac:(unfold u64; lia)) as M.
  destruct (multiply_loop w f 0) as [r c]. destruct M as (Lr & Fr & Uc & E).
  unfold zlen in E. rewrite L in E. change (64 * Z.of_nat 5) with 320 in E.
  pose proof (wide_ok_range r ltac:(split; [lia|done])). unfold u64 in Uc.
  assert (c = 0) as -> by nia. split_and!; [split; [lia|done]|done|lia].
Qed.

(** ** Comparison and conversion *)

Lemma wide_val_app v x : wide_val (v ++ [x]) = wide_val v + 2 ^ (64 * zlen v) * x.
Proof.
  induction v as [|l v IH]; cbn [app wide_val]; [change (2 ^ (64 * zlen [])) with 1; lia|].
  rewrite IH, zlen_cons, (Z.mul_add_distr_l 64), Z.pow_add_r by (pose proof (zlen_nonneg v); lia).
  change (2 ^ (64 * 1)) with (2 ^ 64). lia.
Qed.

Lemma Exceeds_spec v : forall l, length v = length l -> Forall u64 v -> Forall u64 l ->
  Exceeds v l = (wide_val l <? wide_val v).
Proof.
  unfold Exceeds. induction v as [|x v IH] using rev_ind; intros l Hl Fv Fl.
  { by destruct l. }
  destruct l as [|y l _] using rev_ind; rewrite length_app in Hl; [simpl in Hl; lia|].
  rewrite length_app in Hl. simpl in Hl.
  apply Forall_app in Fv as [Fv _], Fl as [Fl _].
  rewrite !rev_app_distr. cbn [rev app exceeds_loop]. rewrite IH by (done || lia).
  rewrite !wide_val_app. assert (zlen l = zlen v) as -> by mlia.
  pose proof (wide_val_range v Fv). pose proof (wide_val_range l Fl) as Rl.
  assert (zlen l = zlen v) as Ez by mlia. rewrite Ez in Rl. set (P := 2 ^ (64 * zlen v)) in *.
  destruct (Z.eqb_spec x y) as [->|]; cbn [negb].
  - destruct (Z.ltb_spec (wide_val l) (wide_val v)); symmetry; [apply Z.ltb_lt|apply Z.ltb_ge]; lia.
  - destruct (Z.ltb_spec y x); symmetry; [apply Z.ltb_lt|apply Z.ltb_ge]; nia.
Qed.

Lemma byte_loop_le_split word (n : nat) : forall k : nat,
  map (fun byte : nat => z2b (Z.land (Z.shiftr word (Z.of_nat byte * 8)) 0xFF)) (seq k n)
  = le_split n (Z.shiftr word (Z.of_nat k * 8)).
Proof.
  induction n as [|n IH]; intros k; [done|]. cbn [seq map].
  match goal with |- _ = le_split (S n) ?z =>
    change (le_split (S n) z) with (z2b z :: le_split n (Z.shiftr z 8)) end.
  f_equal.
  - apply b2z_inj. rewrite !b2z_z2b. change 0xFF with (Z.ones 8).
    rewrite Z.land_ones by lia. by rewrite Z.mod_mod.
  - rewrite IH, Z.shiftr_shiftr by lia. do 2 f_equal. lia.
Qed.

Lemma ToTarget_spec w : wide_ok w -> wide_val w < 2 ^ 256 ->
  Target.is_target (ToTarget w) /\ be_val (ToTarget w) = wide_val w.
Proof.
  intros [L F] Hv. split; [reflexivity|]. unfold ToTarget, be_val. rewrite rev_involutive.
  cbn [seq map]. change [?x; ?a] with (x :: [a]).
  destruct w as [|w0 [|w1 [|w2 [|w3 [|w4 [|? ?]]]]]]; try done.
  repeat match goal with H : Forall _ (_ :: _) |- _ => apply Forall_cons_1 in H as [? H] end.
  cbn [lookup_total list_lookup_total concat]. rewrite app_nil_r.
  pose proof (fun word => byte_loop_le_split word 8 0) as B. cbn [seq map] in B. rewrite !B.
  rewrite !le_combine_app_sum, !zlen_le_split. change (Z.of_nat 0 * 8) with 0. rewrite !Z.shiftr_0_r.
  unfold u64 in *. cbn [wide_val] in *. rewrite !le_combine_le_split by (cbn; lia).
  change (256 ^ Z.of_nat 8) with (2 ^ 64). lia.
Qed.

Lemma or_byte_loop f n : (n <= 8)%nat ->
  fold_left (or_byte f) (seq 0 n) 0 = le_combine (map f (seq 0 n)).
Proof.
  induction n as [|n IH]; intros Hn; [done|].
  rewrite seq_S, fold_left_app, IH, map_app by lia. cbn [fold_left map Nat.add].
  rewrite le_combine_app_sum, le_combine_cons, zlen_map. change (le_combine []) with 0.
  pose proof (le_combine_range (map f (seq 0 n))) as R. rewrite zlen_map in *.
  assert (zlen (seq 0 n) = Z.of_nat n) as Ez by (unfold zlen; by rewrite length_seq).
  rewrite Ez in *. pose proof (b2z_range (f n)). unfold or_byte.
  rewrite Z.shiftl_mul_pow2, Z.mul_comm, (Z.mul_comm (Z.of_nat n) 8), Z.pow_mul_r by lia.
  change (2 ^ 8) with 256. rewrite wrapu_small.
  2:{ split; [apply Z.mul_nonneg_nonneg; [apply Z.pow_nonneg|]; lia|].
      pose proof (Z.pow_le_mono_r 256 (Z.of_nat n) 7 ltac:(lia) ltac:(lia)).
      pose proof (Z.pow_pos_nonneg 256 (Z.of_nat n) ltac:(lia) ltac:(lia)). nia. }
  rewrite Z.lor_comm, Z.mul_comm. change 256 with (2 ^ 8) in *. rewrite <- Z.pow_mul_r in * by lia.
  rewrite lor_add by lia. lia.
Qed.

Lemma four_limbs a b c d : zlen a = 8 -> zlen b = 8 -> zlen c = 8 -> zlen d = 8 ->
  wide_val [le_combine a; le_combine b; le_combine c; le_combine d; 0] =
  le_combine (a ++ b ++ c ++ d ++ []).
Proof.
  intros Ha Hb Hc Hd. rewrite app_nil_r, !le_combine_app_sum, Ha, Hb, Hc. cbn [wide_val].
  change (256 ^ 8) with (2 ^ 64). lia.
Qed.

Lemma FromTarget_spec t : Target.is_target t ->
  wide_ok (FromTarget t) /\ wide_val (FromTarget t) = be_val t.
Proof.
  intros Ht. unfold FromTarget.
  rewrite (map_ext _ (fun limb : nat =>
    le_combine (map (fun byte => t !!! (32 - 1 - (limb * 8 + byte))%nat) (seq 0 8))))
    by (intros; by apply or_byte_loop).
  assert (forall (g : nat -> Init.Byte.byte), 0 <= le_combine (map g (seq 0 8)) < 2 ^ 64) as R.
  { intros g. pose proof (le_combine_range (map g (seq 0 8))) as B.
    rewrite zlen_map in B. exact B. }
  split.
  { split; [done|]. apply Forall_app. split; [|repeat constructor; lia].
    apply Forall_map_seq. intros i Hi. apply R. }
  transitivity (le_combine (concat (map (fun limb : nat =>
    map (fun byte => t !!! (32 - 1 - (limb * 8 + byte))%nat) (seq 0 8)) (seq 0 4)))).
  - by apply (four_limbs _ _ _ _).
  - unfold be_val. f_equal. unfold Target.is_target in Ht.
    do 32 (destruct t as [|? t]; [done|]). destruct t; [reflexivity|done].
Qed.

(** ** The exponent *)

Lemma shiftl1_lor x c : 0 <= x -> 0 <= c <= 1 -> Z.lor (Z.shiftl x 1) c = 2 * x + c.
Proof.
  intros. rewrite Z.shiftl_mul_pow2 by lia. rewrite lor_add by lia. lia.
Qed.

Lemma numerator_bit_spec high (n : nat) : 0 <= high ->
  (high * 2 ^ 16) / 2 ^ Z.of_nat n =
  2 * ((high * 2 ^ 16) / 2 ^ Z.of_nat (S n)) +
  (if 16 <=? Z.of_nat n then Z.land (Z.shiftr high (Z.of_nat n - 16)) 1 else 0).
Proof.
  intros Hh. set (N := high * 2 ^ 16).
  replace (2 ^ Z.of_nat (S n)) with (2 ^ Z.of_nat n * 2)
    by (rewrite Nat2Z.inj_succ, Z.pow_succ_r by lia; lia).
  rewrite <- Z.div_div by lia. set (X := N / 2 ^ Z.of_nat n).
  rewrite (Z.div_mod X 2) at 1 by lia. f_equal.
  unfold X. rewrite <- Z.bit0_mod, Z.div_pow2_bits by lia.
  unfold N. rewrite Z.mul_pow2_bits by lia.
  rewrite Z.add_0_l. destruct (Z.leb_spec 16 (Z.of_nat n)).
  - change 1 with (Z.ones 1). rewrite Z.land_ones by lia. change (2 ^ 1) with 2.
    rewrite <- Z.bit0_mod, Z.shiftr_spec by lia. by rewrite Z.add_0_l.
  - by rewrite Z.testbit_neg_r by lia.
Qed.

Lemma quotient_loop_spec high d n : forall r q, u64 high -> 0 < d <= 2 ^ 62 ->
  0 <= r < d -> 0 <= q < 2 ^ 32 -> (high * 2 ^ 16) / 2 ^ Z.of_nat n = q * d + r ->
  quotient_loop n high d r q = Z.min ((high * 2 ^ 16) / d) (2 ^ 32).
Proof.
  unfold u64. induction n as [|n IH]; intros r q Hh Hd Hr Hq E; cbn [quotient_loop].
  { change (2 ^ Z.of_nat 0) with 1 in E. rewrite Z.div_1_r in E.
    rewrite <- (Z.div_unique_pos (high * 2 ^ 16) d q r); lia. }
  pose proof (numerator_bit_spec high n ltac:(lia)) as B. rewrite E in B.
  set (c := if 16 <=? Z.of_nat n then _ else 0) in *.
  assert (0 <= c <= 1) as Hc.
  { unfold c. destruct (_ <=? _); [|lia].
    pose proof (Z.land_ones (Z.shiftr high (Z.of_nat n - 16)) 1 ltac:(lia)) as L.
    change (Z.ones 1) with 1 in L. rewrite L.
    pose proof (Z.mod_pos_bound (Z.shiftr high (Z.of_nat n - 16)) (2 ^ 1)). lia. }
  clearbody c. rewrite (wrapu_small 64 (Z.shiftl r 1)) by (rewrite Z.shiftl_mul_pow2; lia).
  rewrite (wrapu_small 64 (Z.shiftl q 1)) by (rewrite Z.shiftl_mul_pow2; lia).
  rewrite shiftl1_lor by lia.
  assert (exists qb r', (if d <=? 2 * r + c then (wrapu 64 (2 * r + c - d), 1) else (2 * r + c, 0))
     = (r', qb) /\ 0 <= qb <= 1 /\ 0 <= r' < d /\ 2 * r + c = qb * d + r') as (qb & r' & -> & Hqb & Hr' & Er).
  { destruct (Z.leb_spec d (2 * r + c)).
    - rewrite wrapu_small by lia. exists 1, (2 * r + c - d). split_and!; lia || done.
    - exists 0, (2 * r + c). split_and!; lia || done. }
  rewrite shiftl1_lor by lia. change EXPONENT_SATURATION with (2 ^ 32).
  destruct (Z.leb_spec (2 ^ 32) (2 * q + qb)) as [Hs|Hs].
  - symmetry. apply Z.min_r. apply Z.div_le_lower_bound; [lia|].
    assert ((high * 2 ^ 16) / 2 ^ Z.of_nat n <= high * 2 ^ 16).
    { pose proof (Z.pow_pos_nonneg 2 (Z.of_nat n) ltac:(lia) ltac:(lia)).
      apply Z.div_le_upper_bound; nia. }
    nia.
  - apply IH; lia.
Qed.

Lemma ScaledQuotient_spec high d : u64 high -> 0 < d <= 2 ^ 62 ->
  ScaledQuotient high d = Z.min (high * 2 ^ 16 / d) (2 ^ 32).
Proof.
  intros Hh Hd. unfold ScaledQuotient. change (Z.shiftl 1 62) with (2 ^ 62).
  rewrite (proj2 (Z.eqb_neq d 0)), (proj2 (Z.ltb_ge _ d)) by lia. cbn [orb].
  apply quotient_loop_spec; try done; try lia. unfold u64 in Hh.
  rewrite Z.mul_0_l. apply Z.div_small. change (2 ^ Z.of_nat 80) with (2 ^ 64 * 2 ^ 16). lia.
Qed.

(** The published exponent: the deviation from schedule in half-lives, in
    sixteenths of binary fixed point, truncated toward zero and saturated. *)
Definition ref_exponent (anchor_time height_delta tip_time spacing half_life : Z) : Z :=
  let deviation := Clamp tip_time (- 2 ^ 61) (2 ^ 61) - Clamp anchor_time (- 2 ^ 61) (2 ^ 61)
    - Clamp spacing 1 (2 ^ 31) * Clamp height_delta 1 (2 ^ 31) in
  Z.max (- 2 ^ 32) (Z.min (2 ^ 32) (Z.quot (deviation * 2 ^ 16) (Clamp half_life 1 (2 ^ 62)))).

Lemma Clamp_range v lo hi : lo <= hi -> lo <= Clamp v lo hi <= hi.
Proof. unfold Clamp. intros. destruct (Z.ltb_spec v lo), (Z.ltb_spec hi v); lia. Qed.

Lemma asert_exponent_spec at_ h tt sp hl :
  asert_exponent at_ h tt sp hl = ref_exponent at_ h tt sp hl.
Proof.
  unfold asert_exponent, ref_exponent. change (Z.shiftl 1 61) with (2 ^ 61).
  change (Z.shiftl 1 31) with (2 ^ 31). change (Z.shiftl 1 62) with (2 ^ 62).
  pose proof (Clamp_range at_ (- 2 ^ 61) (2 ^ 61) ltac:(lia)).
  pose proof (Clamp_range tt (- 2 ^ 61) (2 ^ 61) ltac:(lia)).
  pose proof (Clamp_range sp 1 (2 ^ 31) ltac:(lia)). pose proof (Clamp_range h 1 (2 ^ 31) ltac:(lia)).
  pose proof (Clamp_range hl 1 (2 ^ 62) ltac:(lia)).
  set (o := Clamp at_ _ _) in *. set (t := Clamp tt _ _) in *. set (s := Clamp sp _ _) in *.
  set (k := Clamp h _ _) in *. set (d := Clamp hl _ _) in *. clearbody o t s k d.
  assert (1 <= s * k <= 2 ^ 62) by nia. cbv zeta.
  rewrite (to_i64_small (t - o)), (to_i64_small (s * k)), (to_i64_small (t - o - s * k))
    by (unfold i64; lia).
  set (num := t - o - s * k) in *. assert (- 2 ^ 63 <= num <= 2 ^ 62) by lia. clearbody num.
  rewrite (wrapu_small 64 d) by lia. destruct (Z.ltb_spec num 0).
  - assert (wrapu 64 (0 - wrapu 64 num) = - num) as ->.
    { unfold wrapu. rewrite Zminus_mod_idemp_r. rewrite Z.sub_0_l, Z.mod_small; lia. }
    rewrite ScaledQuotient_spec by (unfold u64; lia).
    replace (num * 2 ^ 16) with (- (- num * 2 ^ 16)) by lia.
    rewrite Z.quot_opp_l, Z.quot_div_nonneg by lia.
    pose proof (Z.div_pos (- num * 2 ^ 16) d ltac:(lia) ltac:(lia)).
    rewrite (to_i64_small (Z.min _ _)), to_i64_small by (unfold i64; lia). lia.
  - rewrite (wrapu_small 64 num), ScaledQuotient_spec by (unfold u64; lia).
    rewrite Z.quot_div_nonneg by lia. pose proof (Z.div_pos (num * 2 ^ 16) d ltac:(lia) ltac:(lia)).
    rewrite to_i64_small by (unfold i64; lia). lia.
Qed.

(** ** The cubic *)

Definition ref_factor (f : Z) : Z :=
  2 ^ 16 + (195766423245049 * f + 971821376 * f ^ 2 + 5127 * f ^ 3 + 2 ^ 47) / 2 ^ 48.

Lemma FractionFactor_spec f : 0 <= f < 2 ^ 16 -> FractionFactor f = ref_factor f.
Proof.
  intros Hf. unfold FractionFactor, ref_factor.
  assert (0 <= f * f <= 65535 * 65535) by nia. assert (0 <= f * f * f <= 65535 * 65535 * 65535) by nia.
  replace (f ^ 2) with (f * f) by lia. replace (f ^ 3) with (f * f * f) by lia.
  rewrite (wrapu_small 64 (195766423245049 * f)), (wrapu_small 64 (971821376 * f)),
    (wrapu_small 64 (5127 * f)) by lia.
  replace (971821376 * f * f) with (971821376 * (f * f)) by lia.
  replace (5127 * f * f) with (5127 * (f * f)) by lia.
  rewrite (wrapu_small 64 (5127 * (f * f))), (wrapu_small 64 (971821376 * (f * f))) by lia.
  replace (5127 * (f * f) * f) with (5127 * (f * f * f)) by lia.
  set (f2 := f * f) in *. set (f3 := f2 * f) in *. clearbody f3. clearbody f2.
  rewrite (wrapu_small 64 (5127 * f3)) by lia.
  change (Z.shiftl 1 47) with (2 ^ 47). change RADIX with (2 ^ 16).
  rewrite (wrapu_small 64 (195766423245049 * f + 971821376 * f2)) by lia.
  rewrite (wrapu_small 64 (195766423245049 * f + 971821376 * f2 + 5127 * f3)) by lia.
  rewrite (wrapu_small 64 (195766423245049 * f + 971821376 * f2 + 5127 * f3 + 2 ^ 47)) by lia.
  rewrite Z.shiftr_div_pow2 by lia.
  apply wrapu_small. dlia.
Qed.

Lemma ref_factor_range f : 0 <= f < 2 ^ 16 -> 2 ^ 16 <= ref_factor f <= 2 ^ 17.
Proof.
  intros Hf. unfold ref_factor. assert (0 <= f ^ 2 <= 65535 * 65535) by nia.
  assert (0 <= f ^ 3 <= 65535 * 65535 * 65535) by nia. dlia.
Qed.

Lemma ref_factor_mono f g : 0 <= f <= g -> ref_factor f <= ref_factor g.
Proof.
  intros H. unfold ref_factor. apply Z.add_le_mono_l, Z.div_le_mono; [lia|].
  pose proof (Z.pow_le_mono_l f g 2 ltac:(lia)). pose proof (Z.pow_le_mono_l f g 3 ltac:(lia)). lia.
Qed.

(** ** Scaling *)

(** The target the published rule prescribes: [value * 2^exponent], the integer
    part as a shift and the fraction by the cubic, clamped to [1, limit]. *)
Definition ref_target (value limit exponent : Z) : Z :=
  let shift := exponent / 2 ^ 16 - 16 in
  let product := value * ref_factor (exponent mod 2 ^ 16) in
  Z.max 1 (Z.min limit (if 0 <=? shift then product * 2 ^ shift else product / 2 ^ (- shift))).

(** The last three returns of the function. *)
Definition encodes (bits v : Z) : Prop :=
  exists t, Target.is_target t /\ be_val t = v /\ bits = Target.TargetToCompact t.

Lemma finish_spec r limit : wide_ok r -> wide_ok limit -> 0 < wide_val limit < 2 ^ 256 ->
  encodes
    (if IsZero r then Target.TargetToCompact (<[31%nat := Byte.x01]> Work.Zero)
     else if Exceeds r limit then Target.TargetToCompact (ToTarget limit)
     else Target.TargetToCompact (ToTarget r))
    (Z.max 1 (Z.min (wide_val limit) (wide_val r))).
Proof.
  intros Hr Hl HL. pose proof (wide_ok_range r Hr).
  rewrite IsZero_spec, Exceeds_spec by (apply Hr || apply Hl || (destruct Hr, Hl; lia)).
  destruct (Z.eqb_spec (wide_val r) 0) as [E|E].
  { eexists. split_and!; [| |reflexivity]; [reflexivity|].
    rewrite E. change (be_val _) with 1. lia. }
  destruct (Z.ltb_spec (wide_val limit) (wide_val r)).
  - destruct (ToTarget_spec limit Hl ltac:(lia)) as [Lt Vt]. exists (ToTarget limit). split_and!; done || lia.
  - destruct (ToTarget_spec r Hr ltac:(lia)) as [Lt Vt]. exists (ToTarget r). split_and!; done || lia.
Qed.

Lemma asert_scale_spec target limit e : wide_ok target -> wide_ok limit ->
  0 < wide_val limit < 2 ^ 256 -> 0 <= wide_val target < 2 ^ 256 ->
  encodes (asert_scale target limit e) (ref_target (wide_val target) (wide_val limit) e).
Proof.
  intros Ht Hl HL HT. unfold asert_scale, ref_target.
  change RADIX_BITS with 16. change (RADIX - 1) with (Z.ones 16).
  rewrite Z.shiftr_div_pow2, Z.land_ones by lia.
  assert (wrapu 64 e mod 2 ^ 16 = e mod 2 ^ 16) as ->.
  { unfold wrapu. change (2 ^ 64) with (2 ^ 16 * 2 ^ 48). rewrite Z.rem_mul_r by lia.
    rewrite (Z.mul_comm (2 ^ 16)), Z_mod_plus_full. by apply Z.mod_mod. }
  pose proof (Z.mod_pos_bound e (2 ^ 16) ltac:(lia)) as Hf. rewrite FractionFactor_spec by done.
  pose proof (ref_factor_range _ Hf) as HF. set (F := ref_factor (e mod 2 ^ 16)) in *. clearbody F.
  pose proof (MultiplySmall_spec target F Ht ltac:(unfold u64; lia) ltac:(nia)) as M.
  destruct (MultiplySmall target F) as [w o]. destruct M as (Hw & -> & Vw).
  set (shift := e / 2 ^ 16 - 16). rewrite <- Vw. destruct (Z.ltb_spec 0 shift).
  - rewrite (proj2 (Z.leb_le 0 shift)) by lia.
    pose proof (wide_ShiftLeft_spec w shift Hw ltac:(lia)) as S. destruct (ShiftLeft w shift) as [r ov].
    destruct S as (Hr & Vr & ->). rewrite orb_false_r.
    destruct (Z.leb_spec (2 ^ 320) (wide_val w * 2 ^ shift)).
    + destruct (ToTarget_spec limit Hl ltac:(lia)) as [Lt Vt]. exists (ToTarget limit).
      split_and!; done || lia.
    + rewrite Z.mod_small in Vr.
      2:{ pose proof (wide_ok_range w Hw). pose proof (Z.pow_pos_nonneg 2 shift). nia. }
      rewrite <- Vr. by apply finish_spec.
  - destruct (Z.ltb_spec shift 0).
    + rewrite (proj2 (Z.leb_gt 0 shift)) by lia.
      destruct (ShiftRight_spec w (- shift) Hw ltac:(lia)) as [Hr Vr]. rewrite <- Vr.
      by apply finish_spec.
    + assert (shift = 0) as -> by lia. cbn [Z.leb Z.compare]. rewrite Z.mul_1_r. by apply finish_spec.
Qed.


(** What [AsertNextBits] computes on decodable parameters, in numbers. *)
Definition ref_next (anchor_value anchor_time height_delta tip_time spacing half_life limit : Z) : Z :=
  if height_delta <=? 0 then Z.min anchor_value limit
  else ref_target (Z.min anchor_value limit) limit
         (ref_exponent anchor_time height_delta tip_time spacing half_life).

Lemma ref_next_range a at_ h tt sp hl l : 0 < a -> 0 < l -> 1 <= ref_next a at_ h tt sp hl l <= l.
Proof. intros. unfold ref_next, ref_target. destruct (h <=? 0); lia. Qed.

Lemma AsertNextBits_spec ab at_ h tt sp hl lb a l : u32 ab -> u32 lb ->
  Target.CompactToTarget ab = Some a -> Target.CompactToTarget lb = Some l ->
  encodes (AsertNextBits ab at_ h tt sp hl lb)
    (ref_next (be_val a) at_ h tt sp hl (be_val l)).
Proof.
  intros Ua Ul Da Dl. unfold AsertNextBits, ref_next. rewrite Da, Dl.
  apply Target.CompactToTarget_Some in Da as (La & Pa & _), Dl as (Ll & Pl & _); try done.
  pose proof (Target.target_range a La) as Ra. pose proof (Target.target_range l Ll) as Rl.
  change (256 ^ 32) with (2 ^ 256) in *.
  destruct (FromTarget_spec a La) as [Wa Va], (FromTarget_spec l Ll) as [Wl Vl].
  rewrite Exceeds_spec by (apply Wa || apply Wl || (destruct Wa, Wl; lia)). rewrite Va, Vl.
  set (t := if _ <? _ then FromTarget l else FromTarget a).
  assert (wide_ok t /\ wide_val t = Z.min (be_val a) (be_val l)) as [Wt Vt].
  { unfold t. destruct (Z.ltb_spec (be_val l) (be_val a)); split; done || lia. }
  clearbody t. destruct (h <=? 0).
  - destruct (ToTarget_spec t Wt ltac:(lia)) as [Lt Vt']. exists (ToTarget t). split_and!; done || lia.
  - rewrite asert_exponent_spec, <- Vt, <- Vl. apply asert_scale_spec; done || lia.
Qed.

(** ** Monotonicity *)

Definition scale (x k : Z) : Z := if 0 <=? k then x * 2 ^ k else x / 2 ^ (- k).

Lemma scale_mono x y k : x <= y -> scale x k <= scale y k.
Proof.
  intros. unfold scale. destruct (Z.leb_spec 0 k).
  - apply Z.mul_le_mono_nonneg_r; [apply Z.pow_nonneg; lia|done].
  - apply Z.div_le_mono; [apply Z.pow_pos_nonneg; lia|done].
Qed.

Lemma scale_pow x k n : 0 <= n -> scale (x * 2 ^ n) k = scale x (k + n).
Proof.
  intros Hn. unfold scale. destruct (Z.leb_spec 0 k), (Z.leb_spec 0 (k + n)); try lia.
  - rewrite <- Z.mul_assoc, <- Z.pow_add_r by lia. do 2 f_equal. lia.
  - replace n with (- k + (k + n)) at 1 by lia. rewrite Z.pow_add_r by lia.
    rewrite (Z.mul_comm (2 ^ (- k))), Z.mul_assoc. apply Z.div_mul. apply Z.pow_nonzero; lia.
  - replace (- k) with (- (k + n) + n) by lia. rewrite Z.pow_add_r by lia.
    apply Z.div_mul_cancel_r; apply Z.pow_nonzero; lia.
Qed.

Lemma scale_mono_shift x k k' : 0 <= x -> k <= k' -> scale x k <= scale x k'.
Proof.
  intros Hx Hk. replace k' with (k + (k' - k)) by lia. rewrite <- scale_pow by lia.
  apply scale_mono. pose proof (Z.pow_pos_nonneg 2 (k' - k) ltac:(lia) ltac:(lia)). nia.
Qed.

Lemma ref_target_mono v l e e' : 0 <= v -> e <= e' -> ref_target v l e <= ref_target v l e'.
Proof.
  intros Hv He. unfold ref_target.
  change (if 0 <=? ?k then ?x * 2 ^ ?k else ?x / 2 ^ (- ?k)) with (scale x k).
  apply Z.max_le_compat_l, Z.min_le_compat_l.
  pose proof (Z.div_mod e (2 ^ 16) ltac:(lia)). pose proof (Z.div_mod e' (2 ^ 16) ltac:(lia)).
  pose proof (Z.mod_pos_bound e (2 ^ 16) ltac:(lia)) as M.
  pose proof (Z.mod_pos_bound e' (2 ^ 16) ltac:(lia)) as M'.
  pose proof (ref_factor_range _ M). pose proof (ref_factor_range _ M').
  pose proof (Z.div_le_mono e e' (2 ^ 16) ltac:(lia) He).
  destruct (Z.eq_dec (e / 2 ^ 16) (e' / 2 ^ 16)) as [E|E].
  - rewrite E. apply scale_mono.
    pose proof (ref_factor_mono (e mod 2 ^ 16) (e' mod 2 ^ 16) ltac:(lia)). nia.
  - transitivity (scale (v * 2 ^ 17) (e / 2 ^ 16 - 16)); [apply scale_mono; nia|].
    replace (v * 2 ^ 17) with (v * 2 ^ 16 * 2 ^ 1) by lia. rewrite scale_pow by lia.
    transitivity (scale (v * 2 ^ 16) (e' / 2 ^ 16 - 16)); [apply scale_mono_shift; lia|].
    apply scale_mono. nia.
Qed.

Lemma Clamp_mono x y lo hi : lo <= hi -> x <= y -> Clamp x lo hi <= Clamp y lo hi.
Proof.
  unfold Clamp. intros. destruct (Z.ltb_spec x lo), (Z.ltb_spec y lo), (Z.ltb_spec hi x), (Z.ltb_spec hi y); lia.
Qed.

Lemma ref_exponent_mono at_ h t t' sp hl : t <= t' ->
  ref_exponent at_ h t sp hl <= ref_exponent at_ h t' sp hl.
Proof.
  intros Ht. unfold ref_exponent. apply Z.max_le_compat_l, Z.min_le_compat_l.
  pose proof (Clamp_range hl 1 (2 ^ 62) ltac:(lia)).
  pose proof (Clamp_mono t t' (- 2 ^ 61) (2 ^ 61) ltac:(lia) Ht).
  apply Z.quot_le_mono; lia.
Qed.

Lemma ref_next_mono a at_ h t t' sp hl l : 0 < a -> 0 < l -> t <= t' ->
  ref_next a at_ h t sp hl l <= ref_next a at_ h t' sp hl l.
Proof.
  intros. unfold ref_next. destruct (h <=? 0); [lia|].
  apply ref_target_mono; [lia|]. by apply ref_exponent_mono.
Qed.

(** An encoded value decodes to its rounding. *)
Lemma encodes_decodes bits v : encodes bits v -> 0 < v ->
  u32 bits /\ exists t, Target.CompactToTarget bits = Some t /\ Target.is_target t /\
    0 < be_val t <= v.
Proof.
  intros (t & Lt & Vt & ->) Hv. split; [by apply Target.TargetToCompact_u32|].
  destruct (Target.TargetToCompact_decodes t Lt ltac:(lia)) as (t' & D & L & Hle & _).
  exists t'. split_and!; try done; [|lia].
  apply Target.CompactToTarget_Some in D; [naive_solver|by apply Target.TargetToCompact_u32].
Qed.

Lemma AsertNextBits_valid anchor_bits anchor_time height_delta tip_time spacing half_life
    pow_limit_bits limit : u32 anchor_bits -> u32 pow_limit_bits ->
  Target.CompactToTarget pow_limit_bits = Some limit ->
  let bits := AsertNextBits anchor_bits anchor_time height_delta tip_time spacing half_life
    pow_limit_bits in
  u32 bits /\ exists t, Target.CompactToTarget bits = Some t /\ 0 < be_val t <= be_val limit.
Proof.
  intros Ha Hl Dl. cbv zeta. destruct (Target.CompactToTarget anchor_bits) as [anchor|] eqn:Da.
  - pose proof (AsertNextBits_spec anchor_bits anchor_time height_delta tip_time spacing half_life
      pow_limit_bits anchor limit Ha Hl Da Dl) as E.
    apply Target.CompactToTarget_Some in Da as (_ & Pa & _), Dl as (_ & Pl & _); try done.
    match type of E with encodes _ ?v => assert (1 <= v <= be_val limit) by (by apply ref_next_range) end.
    apply encodes_decodes in E as [U (t & D & _ & R)]; [|lia]. split; [done|].
    exists t. split; [done|]. lia.
  - unfold AsertNextBits. rewrite Da, Dl. split; [done|]. exists limit. split; [done|].
    apply Target.CompactToTarget_Some in Dl as (_ & Pl & _); [lia|done].
Qed.

(** ** The theorems *)

(** C21: the limb arithmetic implements the published rule.  For decodable anchor
    and limit, [AsertNextBits] is the compact encoding of
    [clamp(1, limit, min(anchor, limit) * 2^exponent)], where the exponent is the
    schedule deviation over the half-life truncated toward zero in 16-bit fixed
    point, saturated at 2^32 (2^16 half-lives, where the code puts the bound that the
    header's comment puts at 2^20), and [2^fraction] is the cubic: no multiplication,
    shift or conversion in 320-bit limbs or in 64-bit words loses a bit for any input. *)
Theorem asert_implements_formula (anchor_bits anchor_time height_delta tip_time spacing half_life
    pow_limit_bits : Z) (anchor limit : bytes)
    (Ha : u32 anchor_bits) (Hl : u32 pow_limit_bits)
    (Da : Target.CompactToTarget anchor_bits = Some anchor)
    (Dl : Target.CompactToTarget pow_limit_bits = Some limit) :
  exists t, Target.is_target t /\
    be_val t = ref_next (be_val anchor) anchor_time height_delta tip_time spacing half_life (be_val limit) /\
    AsertNextBits anchor_bits anchor_time height_delta tip_time spacing half_life pow_limit_bits
      = Target.TargetToCompact t.
Proof. by apply AsertNextBits_spec. Qed.

Lemma asert_implements_formula_witness :
  exists t, Target.is_target t /\
    be_val t = ref_next (0xffff * 256 ^ 25) 1000000 1000 1500000 600 172800 (0xffff * 256 ^ 26) /\
    AsertNextBits 0x1c00ffff 1000000 1000 1500000 600 172800 0x1d00ffff = Target.TargetToCompact t.
Proof.
  apply (asert_implements_formula 0x1c00ffff 1000000 1000 1500000 600 172800 0x1d00ffff
    (replicate 5 Byte.x00 ++ [Byte.xff; Byte.xff] ++ replicate 25 Byte.x00)
    (replicate 4 Byte.x00 ++ [Byte.xff; Byte.xff] ++ replicate 26 Byte.x00));
    try (vm_compute; reflexivity); vm_compute; split; congruence.
Defined.

(** Where the header's comment saturates the exponent, at 2^20 or 16 half-lives, the
    difficulty still moves: behind schedule and ahead of it, 17 half-lives give another
    target than 16. *)
Example moves_past_documented_bound :
  let after k := AsertNextBits 0x1800ffff 0 1 (600 + k * 172800) 600 172800 0x2000ffff in
  let before k := AsertNextBits 0x1d00ffff 0 1 (600 - k * 172800) 600 172800 0x2000ffff in
  (after 16, after 17) = (0x1a00ffff, 0x1a01fffe) /\ (before 16, before 17) = (0x1b00ffff, 0x1a7fff80).
Proof. vm_compute. split; reflexivity. Qed.

(** The required difficulty is always usable.  Whatever the times, heights
    and half-life (any integers at all), if the limit decodes then the result
    is a canonical encoding of a nonzero target no easier than the limit. *)
Theorem asert_result_valid (anchor_bits anchor_time height_delta tip_time spacing half_life
    pow_limit_bits : Z) (limit : bytes) (Ha : u32 anchor_bits) (Hl : u32 pow_limit_bits)
    (Dl : Target.CompactToTarget pow_limit_bits = Some limit) :
  let bits := AsertNextBits anchor_bits anchor_time height_delta tip_time spacing half_life
    pow_limit_bits in
  u32 bits /\ exists t, Target.CompactToTarget bits = Some t /\ 0 < be_val t <= be_val limit.
Proof. by apply AsertNextBits_valid. Qed.

Lemma asert_result_valid_witness :
  let bits := AsertNextBits 0 (-5) 7 (2 ^ 62) 0 0 0x1d00ffff in
  u32 bits /\ exists t, Target.CompactToTarget bits = Some t /\ 0 < be_val t <= 0xffff * 256 ^ 26.
Proof.
  apply (asert_result_valid 0 (-5) 7 (2 ^ 62) 0 0 0x1d00ffff
    (replicate 4 Byte.x00 ++ [Byte.xff; Byte.xff] ++ replicate 26 Byte.x00));
    try (vm_compute; reflexivity); vm_compute; split; congruence.
Defined.

(** The rule steers the right way: a later tip time at the same height never
    makes the next target harder, even after compact rounding and across the
    seam between the cubic and the integer shift. *)
Theorem asert_monotone (anchor_bits anchor_time height_delta tip_time tip_time' spacing half_life
    pow_limit_bits : Z) (Ha : u32 anchor_bits) (Hl : u32 pow_limit_bits)
    (Hle : tip_time <= tip_time') (t t' : bytes)
    (Ht : Target.CompactToTarget
      (AsertNextBits anchor_bits anchor_time height_delta tip_time spacing half_life pow_limit_bits) = Some t)
    (Ht' : Target.CompactToTarget
      (AsertNextBits anchor_bits anchor_time height_delta tip_time' spacing half_life pow_limit_bits) = Some t') :
  be_val t <= be_val t'.
Proof.
  destruct (Target.CompactToTarget anchor_bits) as [anchor|] eqn:Da,
    (Target.CompactToTarget pow_limit_bits) as [limit|] eqn:Dl.
  2-4: revert Ht Ht'; unfold AsertNextBits; rewrite Da, Dl; congruence || (intros; simplify_eq; done).
  pose proof (fun tt => AsertNextBits_spec anchor_bits anchor_time height_delta tt spacing half_life
      pow_limit_bits anchor limit Ha Hl Da Dl) as E.
  apply Target.CompactToTarget_Some in Da as (_ & Pa & _), Dl as (_ & Pl & _); try done.
  destruct (E tip_time) as (c & Lc & Vc & Ec), (E tip_time') as (c' & Lc' & Vc' & Ec').
  rewrite Ec in Ht. rewrite Ec' in Ht'.
  pose proof (ref_next_range (be_val anchor) anchor_time height_delta tip_time spacing half_life
    (be_val limit) Pa Pl).
  pose proof (ref_next_mono (be_val anchor) anchor_time height_delta tip_time tip_time' spacing half_life
    (be_val limit) Pa Pl Hle).
  apply (Target.TargetToCompact_mono c c'); done || lia.
Qed.

Lemma asert_monotone_witness :
  exists t t',
    Target.CompactToTarget (AsertNextBits 0x1c00ffff 0 100 50000 600 172800 0x1d00ffff) = Some t /\
    Target.CompactToTarget (AsertNextBits 0x1c00ffff 0 100 70000 600 172800 0x1d00ffff) = Some t' /\
    be_val t <= be_val t'.
Proof.
  eexists. eexists. split; [vm_compute; reflexivity|]. split; [vm_compute; reflexivity|].
  apply (asert_monotone 0x1c00ffff 0 100 50000 70000 600 172800 0x1d00ffff);
    try (vm_compute; reflexivity); try (vm_compute; split; congruence). lia.
Defined.

(** A chain exactly on schedule keeps its anchor difficulty: when the tip is
    [height_delta] spacings after the anchor and the anchor is within the limit,
    the next bits are the anchor's own bits. *)
Theorem asert_on_schedule_fixed (anchor_bits anchor_time height_delta spacing half_life
    pow_limit_bits : Z) (anchor limit : bytes)
    (Ha : u32 anchor_bits) (Hl : u32 pow_limit_bits)
    (Da : Target.CompactToTarget anchor_bits = Some anchor)
    (Dl : Target.CompactToTarget pow_limit_bits = Some limit)
    (Hle : be_val anchor <= be_val limit)
    (Hh : 1 <= height_delta <= 2 ^ 31) (Hs : 1 <= spacing <= 2 ^ 31)
    (Ht : - 2 ^ 61 <= anchor_time) (Ht' : anchor_time + spacing * height_delta <= 2 ^ 61) :
  AsertNextBits anchor_bits anchor_time height_delta (anchor_time + spacing * height_delta)
    spacing half_life pow_limit_bits = anchor_bits.
Proof.
  destruct (AsertNextBits_spec anchor_bits anchor_time height_delta
    (anchor_time + spacing * height_delta) spacing half_life pow_limit_bits anchor limit Ha Hl Da Dl)
    as (t & Lt & Vt & ->).
  apply Target.CompactToTarget_Some in Da as (La & Pa & <- & _); [|done]. f_equal.
  apply be_val_inj; [unfold Target.is_target in *; lia|]. rewrite Vt. unfold ref_next.
  rewrite (proj2 (Z.leb_gt height_delta 0)) by lia.
  assert (ref_exponent anchor_time height_delta (anchor_time + spacing * height_delta) spacing half_life = 0) as ->.
  { unfold ref_exponent. assert (forall v lo hi, lo <= v <= hi -> Clamp v lo hi = v) as C.
    { unfold Clamp. intros v lo hi Hv. rewrite !(proj2 (Z.ltb_ge _ _)) by lia. done. }
    rewrite !(C anchor_time), !(C spacing), !(C height_delta), !(C (_ + _)) by nia.
    replace (_ - _ - _) with 0 by lia. rewrite Z.mul_0_l, Z.quot_0_l; [done|].
    pose proof (Clamp_range half_life 1 (2 ^ 62)). lia. }
  unfold ref_target. change (ref_factor (0 mod 2 ^ 16)) with (2 ^ 16). cbn [Z.leb Z.compare].
  change (0 / 2 ^ 16 - 16) with (-16). cbn [Z.leb Z.compare]. change (- -16) with 16.
  rewrite Z.div_mul by lia. lia.
Qed.

Lemma asert_on_schedule_fixed_witness :
  AsertNextBits 0x1c00ffff 1000000 2016 (1000000 + 600 * 2016) 600 172800 0x1d00ffff = 0x1c00ffff.
Proof.
  apply (asert_on_schedule_fixed 0x1c00ffff 1000000 2016 600 172800 0x1d00ffff
    (replicate 5 Byte.x00 ++ [Byte.xff; Byte.xff] ++ replicate 25 Byte.x00)
    (replicate 4 Byte.x00 ++ [Byte.xff; Byte.xff] ++ replicate 26 Byte.x00));
    try (vm_compute; reflexivity); vm_compute; (congruence || (split; congruence)).
Defined.

End Asert.
