(* ===== verification/Issuance.v ===== *)
(** * The issuance schedule (consensus/issuance.hpp)

    The reward is a function of the height alone: era by era, [reward * 7 / 8]
    in [int64_t].  The two [while] loops run on fuel and return [None] if it
    runs out; [era_loop_terminates] shows 512 steps are enough for every
    [int64_t] reward whose product by seven fits, because six retentions at
    least halve a reward. *)

From S2P Require Import Prelude Serialize Primitives.

Module Issuance.

Definition FACETS_PER_AMR : Z := 10000000000.
Definition REWARD_RETENTION_NUMERATOR : Z := 7.
Definition REWARD_RETENTION_DENOMINATOR : Z := 8.

Record IssuanceParams := { era_blocks : Z; initial_reward : Z }.

Definition MAINNET_ISSUANCE : IssuanceParams :=
  {| era_blocks := 105000; initial_reward := 10 * FACETS_PER_AMR |}.

(** [reward * 7 / 8] on [int64_t]; C++ division truncates. *)
Definition retain (reward : Z) : Z :=
  Z.quot (to_i64 (reward * REWARD_RETENTION_NUMERATOR)) REWARD_RETENTION_DENOMINATOR.

Definition EraOfHeight (height : Z) (params : IssuanceParams) : Z :=
  if era_blocks params =? 0 then 0 else height / era_blocks params.

(** The [for] loop, with its early return; [n] is [era - index]. *)
Fixpoint reward_loop (n : nat) (reward : Z) : Z :=
  match n with
  | O => if 0 <? reward then reward else 0
  | S n => if reward <=? 0 then 0 else reward_loop n (retain reward)
  end.

Definition BlockReward (height : Z) (params : IssuanceParams) : Z :=
  let era := EraOfHeight height params in
  if era_blocks params =? 0 then 0
  else reward_loop (Z.to_nat era) (initial_reward params).

Definition LOOP_FUEL : nat := 512.

Fixpoint era_loop (fuel : nat) (reward eras : Z) : option Z :=
  if 0 <? reward
  then match fuel with
       | O => None
       | S fuel => era_loop fuel (retain reward) (wrapu 32 (eras + 1))
       end
  else Some eras.

Definition EraCountWithReward (params : IssuanceParams) : option Z :=
  if era_blocks params =? 0 then Some 0
  else era_loop LOOP_FUEL (initial_reward params) 0.

Definition IssuanceEndHeight (params : IssuanceParams) : option Z :=
  eras ← EraCountWithReward params; Some (wrapu 64 (eras * era_blocks params)).

Fixpoint total_loop (fuel : nat) (blocks reward total : Z) : option Z :=
  if 0 <? reward
  then match fuel with
       | O => None
       | S fuel => total_loop fuel blocks (retain reward) (to_i64 (total + to_i64 (reward * blocks)))
       end
  else Some total.

Definition TotalIssuance (params : IssuanceParams) : option Z :=
  total_loop LOOP_FUEL (era_blocks params) (initial_reward params) 0.

(** The compile-time vectors of the header. *)
Example mainnet_total : TotalIssuance MAINNET_ISSUANCE = Some MAX_MONEY.
Proof. vm_compute. reflexivity. Qed.
Example mainnet_eras : EraCountWithReward MAINNET_ISSUANCE = Some 179.
Proof. vm_compute. reflexivity. Qed.
Example mainnet_end : IssuanceEndHeight MAINNET_ISSUANCE = Some 18795000.
Proof. vm_compute. reflexivity. Qed.
Example reward_vectors :
  map (fun h => BlockReward h MAINNET_ISSUANCE) [18795000; 18794999; 0; 104999; 105000; 420000; 1155000]
  = [0; 1; 100000000000; 100000000000; 87500000000; 58618164062; 23019112912].
Proof. vm_compute. reflexivity. Qed.

(** ** Retention *)

(** Parameters under which no [int64_t] of the schedule overflows. *)
Definition sane (p : IssuanceParams) : Prop :=
  0 < era_blocks p < 2 ^ 32 /\ 0 <= initial_reward p /\
  8 * (initial_reward p * era_blocks p) < 2 ^ 63.

Definition small_reward (r : Z) : Prop := 0 <= r < 2 ^ 60.

Lemma sane_small p : sane p -> small_reward (initial_reward p).
Proof. unfold sane, small_reward. nia. Qed.

Lemma retain_eq r : small_reward r -> retain r = r * 7 / 8.
Proof.
  unfold small_reward, retain, to_i64, REWARD_RETENTION_NUMERATOR, REWARD_RETENTION_DENOMINATOR.
  intros. rewrite Z.mod_small by lia. rewrite Z.quot_div_nonneg by lia. f_equal. lia.
Qed.

Lemma retain_small r : small_reward r -> small_reward (retain r) /\ retain r <= r.
Proof. intros H. rewrite retain_eq by done. unfold small_reward in *. dlia. Qed.

(** The reward of an era, without the loop's early return. *)
Fixpoint era_reward (n : nat) (r : Z) : Z :=
  match n with O => r | S n => era_reward n (retain r) end.

Lemma era_reward_small n r : small_reward r -> small_reward (era_reward n r) /\ era_reward n r <= r.
Proof.
  revert r. induction n as [|n IH]; intros r H; cbn [era_reward]; [split; [done|lia]|].
  destruct (retain_small r H) as [H' ?]. destruct (IH _ H'). split; [done|lia].
Qed.

Lemma era_reward_plus m n r : era_reward (m + n) r = era_reward n (era_reward m r).
Proof. revert r. induction m as [|m IH]; intros r; [done|]. apply IH. Qed.

Lemma era_reward_zero n : era_reward n 0 = 0.
Proof. induction n as [|n IH]; [done|exact IH]. Qed.

Lemma reward_loop_eq n r : small_reward r -> reward_loop n r = era_reward n r.
Proof.
  revert r. induction n as [|n IH]; intros r H; cbn [reward_loop era_reward].
  - unfold small_reward in H. destruct (Z.ltb_spec 0 r); lia.
  - destruct (Z.leb_spec r 0).
    + assert (r = 0) as -> by (unfold small_reward in H; lia). by rewrite era_reward_zero.
    + apply IH. by apply retain_small.
Qed.

Lemma era_reward_antitone m n r : small_reward r -> (m <= n)%nat -> era_reward n r <= era_reward m r.
Proof.
  intros H Hmn. replace n with (m + (n - m))%nat by lia. rewrite era_reward_plus.
  by apply era_reward_small, era_reward_small.
Qed.

(** Six retentions at least halve a reward. *)
Lemma era_reward_six r : small_reward r -> 2 * era_reward 6 r <= r.
Proof.
  intros H. cbn [era_reward]. assert (small_reward (retain r)) as H1 by (by apply retain_small).
  assert (small_reward (retain (retain r))) as H2 by (by apply retain_small).
  assert (small_reward (retain (retain (retain r)))) as H3 by (by apply retain_small).
  assert (small_reward (retain (retain (retain (retain r))))) as H4 by (by apply retain_small).
  assert (small_reward (retain (retain (retain (retain (retain r)))))) as H5 by (by apply retain_small).
  rewrite (retain_eq _ H5), (retain_eq _ H4), (retain_eq _ H3), (retain_eq _ H2), (retain_eq _ H1),
    (retain_eq _ H). unfold small_reward in H. dlia.
Qed.

Lemma era_reward_halvings k r : small_reward r -> 2 ^ Z.of_nat k * era_reward (k * 6) r <= r.
Proof.
  revert r. induction k as [|k IH]; intros r H; [cbn; lia|].
  replace (S k * 6)%nat with (6 + k * 6)%nat by lia. rewrite era_reward_plus.
  pose proof (IH (era_reward 6 r) ltac:(by apply era_reward_small)).
  pose proof (era_reward_six r H). rewrite Nat2Z.inj_succ, Z.pow_succ_r by lia. lia.
Qed.

Lemma era_reward_vanishes n r : small_reward r -> (360 <= n)%nat -> era_reward n r = 0.
Proof.
  intros H Hn. pose proof (era_reward_halvings 60 r H) as B. change (60 * 6)%nat with 360%nat in B.
  pose proof (era_reward_antitone 360 n r H Hn). destruct (era_reward_small n r H) as [[? _] _].
  destruct (era_reward_small 360 r H) as [[? _] _]. unfold small_reward in H.
  change (2 ^ Z.of_nat 60) with (2 ^ 60) in B. lia.
Qed.

(** ** The loops *)

(** The first [k] era rewards, summed. *)
Fixpoint era_sum (k : nat) (r : Z) : Z :=
  match k with O => 0 | S k => r + era_sum k (retain r) end.

Lemma era_sum_S k r : era_sum (S k) r = era_sum k r + era_reward k r.
Proof.
  revert r. induction k as [|k IH]; intros r; [cbn; lia|].
  change (era_sum (S (S k)) r) with (r + era_sum (S k) (retain r)). rewrite IH. cbn [era_sum era_reward]. lia.
Qed.

Lemma era_sum_nonneg k r : small_reward r -> 0 <= era_sum k r.
Proof.
  revert r. induction k as [|k IH]; intros r H; cbn [era_sum]; [lia|].
  pose proof (IH _ (proj1 (retain_small r H))). unfold small_reward in H. lia.
Qed.

Lemma era_loop_spec fuel r eras : small_reward r -> era_reward fuel r = 0 ->
  0 <= eras -> eras + Z.of_nat fuel < 2 ^ 32 ->
  exists k, (k <= fuel)%nat /\ era_loop fuel r eras = Some (eras + Z.of_nat k) /\
    era_reward k r = 0 /\ forall j, (j < k)%nat -> 0 < era_reward j r.
Proof.
  revert r eras. induction fuel as [|fuel IH]; intros r eras H Hz He Hf; cbn [era_loop].
  - cbn [era_reward] in Hz. subst r. exists 0%nat. split_and!; [lia| |done|lia].
    cbn [Z.ltb Z.compare]. f_equal. lia.
  - destruct (Z.ltb_spec 0 r).
    + destruct (IH (retain r) (wrapu 32 (eras + 1))) as (k & Hk & Ek & Zk & Pk).
      * by apply retain_small.
      * done.
      * apply wrapu_range; lia.
      * rewrite wrapu_small by lia. lia.
      * exists (S k). rewrite Ek, wrapu_small by lia. split_and!; [lia|f_equal; lia|done|].
        intros [|j] Hj; [done|]. apply Pk. lia.
    + exists 0%nat. split_and!; [lia|f_equal; lia| |lia]. cbn. unfold small_reward in H. lia.
Qed.

Lemma total_loop_spec fuel b r total : small_reward r -> era_reward fuel r = 0 ->
  0 <= total -> 0 < b -> total + 8 * (r * b) < 2 ^ 63 ->
  exists k, (k <= fuel)%nat /\ total_loop fuel b r total = Some (total + b * era_sum k r) /\
    era_reward k r = 0.
Proof.
  revert r total. induction fuel as [|fuel IH]; intros r total H Hz Ht Hb Hf; cbn [total_loop].
  - cbn [era_reward] in Hz. subst r. exists 0%nat. cbn [Z.ltb Z.compare era_sum].
    split_and!; [lia|f_equal; lia|done].
  - destruct (Z.ltb_spec 0 r).
    + pose proof (retain_eq r H) as Er. destruct (retain_small r H) as [Hs _].
      assert (8 * retain r <= 7 * r) by (rewrite Er; dlia).
      assert (0 < r * b) by nia.
      assert (to_i64 (total + to_i64 (r * b)) = total + r * b) as E.
      { unfold to_i64. rewrite (Z.mod_small (r * b + _)) by lia. rewrite Z.mod_small by lia. lia. }
      rewrite E. destruct (IH (retain r) (total + r * b)) as (k & Hk & Ek & Zk); try done; [lia|nia|].
      exists (S k). rewrite Ek. cbn [era_sum era_reward]. split_and!; [lia|f_equal; lia|done].
    + exists 0%nat. cbn [era_sum era_reward]. unfold small_reward in H. split_and!; [lia|f_equal; lia|lia].
Qed.

Lemma era_sum_stable k m r : small_reward r -> era_reward k r = 0 -> (k <= m)%nat -> era_sum m r = era_sum k r.
Proof.
  intros H Hz Hm. induction m as [|m IH]; [by replace k with 0%nat by lia|].
  destruct (decide (k = S m)) as [->|]; [done|]. rewrite era_sum_S, IH by lia.
  pose proof (era_reward_antitone k m r H ltac:(lia)). destruct (era_reward_small m r H) as [[? _] _]. lia.
Qed.

Lemma era_sum_mono m k r : small_reward r -> (m <= k)%nat -> era_sum m r <= era_sum k r.
Proof.
  intros H Hm. induction Hm as [|k Hm IH]; [lia|]. rewrite era_sum_S.
  destruct (era_reward_small k r H) as [[? _] _]. lia.
Qed.

(** The facets the first [n] blocks may claim. *)
Fixpoint emitted (n : nat) (p : IssuanceParams) : Z :=
  match n with O => 0 | S n => emitted n p + BlockReward (Z.of_nat n) p end.

Lemma BlockReward_eq h p : sane p -> 0 <= h ->
  BlockReward h p = era_reward (Z.to_nat (h / era_blocks p)) (initial_reward p).
Proof.
  intros Hs Hh. pose proof (sane_small p Hs). unfold BlockReward, EraOfHeight. destruct Hs as (? & _ & _).
  rewrite (proj2 (Z.eqb_neq (era_blocks p) 0)) by lia. by apply reward_loop_eq.
Qed.

(** Summed by height, the schedule is the schedule summed by era. *)
Lemma emitted_by_era n p : sane p ->
  emitted n p = era_blocks p * era_sum (Z.to_nat (Z.of_nat n / era_blocks p)) (initial_reward p)
    + (Z.of_nat n mod era_blocks p) * era_reward (Z.to_nat (Z.of_nat n / era_blocks p)) (initial_reward p).
Proof.
  intros Hs. pose proof Hs as (HE & _ & _). set (E := era_blocks p) in *.
  induction n as [|n IH].
  { cbn [emitted]. change (Z.of_nat 0) with 0. rewrite Z.div_0_l, Z.mod_0_l by lia. change (Z.to_nat 0) with 0%nat. cbn [era_sum]. lia. }
  cbn [emitted]. rewrite IH, BlockReward_eq by (done || lia). fold E.
  pose proof (Z.div_mod (Z.of_nat n) E ltac:(lia)). pose proof (Z.mod_pos_bound (Z.of_nat n) E ltac:(lia)).
  pose proof (Z.div_pos (Z.of_nat n) E ltac:(lia) ltac:(lia)).
  set (q := Z.of_nat n / E) in *. set (m := Z.of_nat n mod E) in *.
  destruct (Z.eq_dec m (E - 1)) as [Em|Em].
  - assert (Z.of_nat (S n) / E = q + 1) as -> by (symmetry; apply (Z.div_unique_pos _ _ _ 0); lia).
    assert (Z.of_nat (S n) mod E = 0) as -> by (symmetry; apply (Z.mod_unique_pos _ _ (q + 1)); lia).
    replace (Z.to_nat (q + 1)) with (S (Z.to_nat q)) by lia. rewrite era_sum_S. nia.
  - assert (Z.of_nat (S n) / E = q) as -> by (symmetry; apply (Z.div_unique_pos _ _ _ (m + 1)); lia).
    assert (Z.of_nat (S n) mod E = m + 1) as -> by (symmetry; apply (Z.mod_unique_pos _ _ q); lia). lia.
Qed.

Lemma emitted_bound n k p : sane p -> era_reward k (initial_reward p) = 0 ->
  emitted n p <= era_blocks p * era_sum k (initial_reward p) /\
  (era_blocks p * Z.of_nat k <= Z.of_nat n ->
   emitted n p = era_blocks p * era_sum k (initial_reward p)).
Proof.
  intros Hs Hz. pose proof (sane_small p Hs) as Hr. rewrite emitted_by_era by done.
  destruct Hs as (HE & _ & _). set (E := era_blocks p) in *. set (r := initial_reward p) in *.
  pose proof (Z.mod_pos_bound (Z.of_nat n) E ltac:(lia)) as Hm.
  pose proof (Z.div_pos (Z.of_nat n) E ltac:(lia) ltac:(lia)).
  pose proof (Z.div_mod (Z.of_nat n) E ltac:(lia)).
  destruct (decide (k <= Z.to_nat (Z.of_nat n / E))%nat) as [Hk|Hk].
  - rewrite (era_sum_stable k) by done. pose proof (era_reward_antitone k _ r Hr Hk).
    destruct (era_reward_small (Z.to_nat (Z.of_nat n / E)) r Hr) as [[? _] _].
    assert (era_reward (Z.to_nat (Z.of_nat n / E)) r = 0) as -> by lia. split; intros; lia.
  - set (q := Z.to_nat (Z.of_nat n / E)) in *.
    pose proof (era_sum_mono (S q) k r Hr ltac:(lia)) as M. rewrite era_sum_S in M.
    destruct (era_reward_small q r Hr) as [[? _] _]. split; [nia|].
    intros. exfalso. nia.
Qed.

(** ** The theorems *)

(** The supply cap.  For every schedule whose products fit an [int64_t],
    the two loops terminate, no sequence of blocks can be paid more than
    [TotalIssuance], a chain that reaches [IssuanceEndHeight] has been offered
    exactly that amount, and the reward is positive at a height just when the
    height is below [IssuanceEndHeight]. *)
Theorem issuance_supply_cap (p : IssuanceParams) (Hs : sane p) :
  exists total end_height, TotalIssuance p = Some total /\ IssuanceEndHeight p = Some end_height /\
    (forall n, emitted n p <= total) /\
    (forall n, end_height <= Z.of_nat n -> emitted n p = total) /\
    (forall h, 0 <= h -> (0 < BlockReward h p <-> h < end_height)).
Proof.
  pose proof (sane_small p Hs) as Hr. pose proof Hs as (HE & Hr0 & Hfit).
  pose proof (era_reward_vanishes 512 _ Hr ltac:(lia)) as V.
  destruct (era_loop_spec 512 (initial_reward p) 0 Hr V) as (k & Hk & Ek & Zk & Pk); [lia..|].
  destruct (total_loop_spec 512 (era_blocks p) (initial_reward p) 0 Hr V) as (m & Hm & Em & Zm); [lia..|].
  exists (era_blocks p * era_sum k (initial_reward p)), (era_blocks p * Z.of_nat k).
  assert (era_sum m (initial_reward p) = era_sum k (initial_reward p)) as Esum.
  { destruct (decide (k <= m)%nat); [by apply era_sum_stable|symmetry; apply era_sum_stable; done || lia]. }
  split_and!.
  - unfold TotalIssuance, LOOP_FUEL. by rewrite Em, Esum.
  - unfold IssuanceEndHeight, EraCountWithReward, LOOP_FUEL.
    rewrite (proj2 (Z.eqb_neq (era_blocks p) 0)), Ek by lia. cbn. f_equal.
    rewrite wrapu_small; nia.
  - intros n. by apply emitted_bound.
  - intros n. by apply emitted_bound.
  - intros h Hh. rewrite BlockReward_eq by done.
    pose proof (Z.div_mod h (era_blocks p) ltac:(lia)). pose proof (Z.mod_pos_bound h (era_blocks p) ltac:(lia)).
    pose proof (Z.div_pos h (era_blocks p) ltac:(lia) ltac:(lia)). split.
    + intros Hp. destruct (Z.lt_ge_cases (h / era_blocks p) (Z.of_nat k)); [nia|].
      pose proof (era_reward_antitone k (Z.to_nat (h / era_blocks p)) _ Hr ltac:(lia)). lia.
    + intros Hlt. apply Pk. nia.
Qed.

Lemma mainnet_sane : sane MAINNET_ISSUANCE.
Proof. repeat split; vm_compute; congruence. Qed.

Lemma issuance_supply_cap_witness :
  exists total end_height, TotalIssuance MAINNET_ISSUANCE = Some total /\
    IssuanceEndHeight MAINNET_ISSUANCE = Some end_height /\
    (forall n, emitted n MAINNET_ISSUANCE <= total) /\
    (forall n, end_height <= Z.of_nat n -> emitted n MAINNET_ISSUANCE = total) /\
    (forall h, 0 <= h -> (0 < BlockReward h MAINNET_ISSUANCE <-> h < end_height)).
Proof. apply (issuance_supply_cap MAINNET_ISSUANCE). apply mainnet_sane. Defined.

Lemma mainnet_emitted n : emitted n MAINNET_ISSUANCE <= MAX_MONEY /\
  (18795000 <= Z.of_nat n -> emitted n MAINNET_ISSUANCE = MAX_MONEY).
Proof.
  assert (era_reward 179 (initial_reward MAINNET_ISSUANCE) = 0) as Z0 by (vm_compute; reflexivity).
  assert (MAX_MONEY = era_blocks MAINNET_ISSUANCE * era_sum 179 (initial_reward MAINNET_ISSUANCE)) as ->
    by (vm_compute; reflexivity).
  destruct (emitted_bound n 179 MAINNET_ISSUANCE mainnet_sane Z0) as [B E].
  split; [done|]. intros Hn. apply E. cbn. lia.
Qed.

(** On mainnet the cap is [MAX_MONEY], reached at height 18 795 000 and never
    exceeded by any number of blocks. *)
Theorem mainnet_cap_is_max_money :
  (forall n, emitted n MAINNET_ISSUANCE <= MAX_MONEY) /\
  (forall n, 18795000 <= Z.of_nat n -> emitted n MAINNET_ISSUANCE = MAX_MONEY).
Proof. split; intros n; apply mainnet_emitted. Qed.

Lemma BlockReward_range h p : sane p -> 0 <= h -> 0 <= BlockReward h p <= initial_reward p.
Proof.
  intros Hs Hh. rewrite BlockReward_eq by done.
  destruct (era_reward_small (Z.to_nat (h / era_blocks p)) _ (sane_small p Hs)) as [[? _] ?]. lia.
Qed.

(** The reward never rises with height, starts at the initial reward and is
    never negative, so a schedule can only tighten. *)
Theorem reward_never_rises (p : IssuanceParams) (h h' : Z) (Hs : sane p) (Hh : 0 <= h <= h') :
  0 <= BlockReward h' p <= BlockReward h p /\ BlockReward 0 p = initial_reward p.
Proof.
  pose proof (sane_small p Hs) as Hr. pose proof (BlockReward_range h' p Hs ltac:(lia)).
  destruct Hs as (HE & Hi) eqn:Es. rewrite !BlockReward_eq in * by (done || lia). split.
  - split; [lia|]. apply era_reward_antitone; [done|].
    apply Z2Nat.inj_le; [apply Z.div_pos; lia..|]. apply Z.div_le_mono; lia.
  - by rewrite Z.div_0_l by lia.
Qed.

Lemma reward_never_rises_witness :
  0 <= BlockReward 400000 MAINNET_ISSUANCE <= BlockReward 300000 MAINNET_ISSUANCE /\
  BlockReward 0 MAINNET_ISSUANCE = initial_reward MAINNET_ISSUANCE.
Proof. apply (reward_never_rises MAINNET_ISSUANCE 300000 400000); [apply mainnet_sane|lia]. Defined.

End Issuance.
