(* ===== verification/Params.v ===== *)
(** * Network parameters (consensus/params.hpp)

    The shared constants, the derived decode limits and the three networks, as
    the header writes them.  The separation the header checks with
    [static_assert] is proved here over the whole table. *)

From Stdlib Require Import String.
From S2P Require Import Prelude Serialize Hex Crypto Primitives Target Asert Issuance.
#[local] Open Scope Z_scope.

Module Params.

Inductive Network := Mainnet | Testnet | Regtest.

#[global] Instance Network_eq_dec : EqDecision Network.
Proof. solve_decision. Defined.

Definition MAX_BLOCK_WEIGHT : Z := 2000000.
Definition TARGET_BLOCK_SECONDS : Z := 300.
Definition COINBASE_MATURITY : Z := 200.
Definition MAX_FUTURE_BLOCK_SECONDS : Z := 3600.
Definition MEDIAN_TIME_SPAN : Z := 11.
Definition MAX_SPEND_CONDITION_KEYS : Z := 16.
Definition MAX_LOCK_PROGRAM_BYTES : Z := 128.
Definition MAX_PUBLIC_KEY_BYTES : Z := 4096.
Definition MAX_SIGNATURE_BYTES : Z := 8192.
Definition MAX_COINBASE_DATA_BYTES : Z := 100.

Definition WeightBoundedCount (min_base_bytes : Z) : Z :=
  MAX_BLOCK_WEIGHT / (WITNESS_SCALE_FACTOR * min_base_bytes).

Definition CONSENSUS_TX_LIMITS : TxLimits := {|
  max_inputs := WeightBoundedCount TxInput_SERIALIZED_SIZE;
  max_outputs := WeightBoundedCount TxOutput_MIN_SERIALIZED_SIZE;
  max_witnesses := WeightBoundedCount TxInput_SERIALIZED_SIZE;
  max_lock_program_size := MAX_LOCK_PROGRAM_BYTES;
  max_keys := MAX_SPEND_CONDITION_KEYS;
  max_key_size := MAX_PUBLIC_KEY_BYTES;
  max_signatures := MAX_SPEND_CONDITION_KEYS;
  max_signature_size := MAX_SIGNATURE_BYTES;
  max_coinbase_data_size := MAX_COINBASE_DATA_BYTES |}.

Definition CONSENSUS_BLOCK_LIMITS : BlockLimits := {|
  max_transactions := WeightBoundedCount Transaction_MIN_SERIALIZED_SIZE;
  limits_tx := CONSENSUS_TX_LIMITS |}.

Record ChainParams := {
  network : Network;
  net_name : string;
  chain_id : bytes;
  magic : bytes;
  default_p2p_port : Z;
  default_rpc_port : Z;
  pow_limit_bits : Z;
  genesis_bits : Z;
  genesis_timestamp : Z;
  genesis_nonce : Z;
  genesis_hash : bytes;
  target_block_seconds : Z;
  asert_half_life_seconds : Z;
  coinbase_maturity : Z;
  max_block_weight : Z;
  block_limits : BlockLimits;
  issuance : Issuance.IssuanceParams;
  allow_min_difficulty_blocks : bool;
  trivial_difficulty : bool }.

Definition MAINNET_CHAIN_ID : bytes :=
  map z2b [
     0x4C; 0x6C; 0x27; 0xEC; 0x0A; 0xA1; 0xB5; 0x9E; 0x12; 0x5E; 0x4B;
     0x9D; 0xAE; 0x51; 0x55; 0x99; 0x30; 0xEF; 0xDE; 0xC0; 0x1A; 0xD1;
     0xA6; 0xE0; 0x35; 0x0F; 0x66; 0x76; 0x9D; 0x6A; 0x8B; 0xB9].

Definition TESTNET_CHAIN_ID : bytes :=
  map z2b [
     0xE2; 0x9A; 0x85; 0xD4; 0x36; 0x91; 0x6C; 0xF8; 0x6E; 0x92; 0x07;
     0x4F; 0x76; 0xF3; 0x0B; 0x4A; 0x7D; 0x7F; 0xAA; 0x5B; 0x07; 0x4C;
     0xBA; 0xDE; 0xB5; 0x9D; 0xA8; 0x28; 0xA5; 0xF4; 0x67; 0xFE].

Definition REGTEST_CHAIN_ID : bytes :=
  map z2b [
     0x75; 0xB9; 0xD4; 0xC0; 0x43; 0xF1; 0xDD; 0x98; 0x8B; 0x02; 0x03;
     0x5A; 0x28; 0xC6; 0xA2; 0x26; 0x74; 0x1C; 0x9F; 0x91; 0xEF; 0xC3;
     0x5B; 0xD3; 0xCD; 0xE7; 0x65; 0x53; 0xE0; 0x1F; 0xA5; 0xCC].

Definition MagicFromChainId (chain_id : bytes) : bytes :=
  [z2b (Z.lor (b2z (chain_id !!! 0%nat)) 0x80); chain_id !!! 1%nat; chain_id !!! 2%nat; chain_id !!! 3%nat].

Definition MAINNET_P2P_PORT : Z := 12500.
Definition MAINNET_RPC_PORT : Z := 12501.
Definition TESTNET_P2P_PORT : Z := 12510.
Definition TESTNET_RPC_PORT : Z := 12511.
Definition REGTEST_P2P_PORT : Z := 12520.
Definition REGTEST_RPC_PORT : Z := 12521.

Definition POW_LIMIT_BITS : Z := 0x1D00FFFF.
Definition REGTEST_POW_LIMIT_BITS : Z := 0x207FFFFF.

Definition MAINNET_ASERT_HALF_LIFE_SECONDS : Z := 172800.
Definition TESTNET_ASERT_HALF_LIFE_SECONDS : Z := 3600.
Definition REGTEST_ASERT_HALF_LIFE_SECONDS : Z := 3600.

Definition GENESIS_TIMESTAMP : Z := 1788598800.

Definition MAINNET_GENESIS_HASH : bytes :=
  map z2b [
     0x2F; 0x66; 0x76; 0xB3; 0x1A; 0xFE; 0x1F; 0x1F; 0x56; 0xAF; 0x82;
     0xF5; 0x43; 0xC2; 0x6B; 0xF0; 0x62; 0xF5; 0xD2; 0x94; 0xBE; 0x25;
     0x6E; 0xF3; 0x49; 0xD6; 0x72; 0x18; 0x00; 0x00; 0x00; 0x00].
Definition MAINNET_GENESIS_NONCE : Z := 570575708.

Definition TESTNET_GENESIS_HASH : bytes :=
  map z2b [
     0xC0; 0x76; 0x28; 0x33; 0xD5; 0xC2; 0x45; 0x50; 0x40; 0x06; 0xF8;
     0x76; 0xE4; 0x93; 0x33; 0x1E; 0x93; 0x23; 0x2E; 0xBB; 0x05; 0xC9;
     0x36; 0x25; 0x18; 0xC1; 0xC5; 0x37; 0x00; 0x00; 0x00; 0x00].
Definition TESTNET_GENESIS_NONCE : Z := 2119016593.

Definition REGTEST_GENESIS_HASH : bytes :=
  map z2b [
     0x67; 0xA9; 0xBD; 0x37; 0x62; 0xBA; 0x7A; 0x70; 0x1C; 0x3F; 0x2C;
     0x88; 0x2E; 0xCF; 0x3A; 0xCA; 0xFB; 0x1E; 0x4C; 0xA4; 0xF7; 0x63;
     0x9A; 0xFD; 0x96; 0xC1; 0x61; 0xA7; 0x2F; 0x8D; 0x24; 0x02].
Definition REGTEST_GENESIS_NONCE : Z := 3.

Definition MAINNET_PARAMS : ChainParams := {|
  network := Mainnet;
  net_name := "mainnet"%string;
  chain_id := MAINNET_CHAIN_ID;
  magic := MagicFromChainId MAINNET_CHAIN_ID;
  default_p2p_port := MAINNET_P2P_PORT;
  default_rpc_port := MAINNET_RPC_PORT;
  pow_limit_bits := POW_LIMIT_BITS;
  genesis_bits := POW_LIMIT_BITS;
  genesis_timestamp := GENESIS_TIMESTAMP;
  genesis_nonce := MAINNET_GENESIS_NONCE;
  genesis_hash := MAINNET_GENESIS_HASH;
  target_block_seconds := TARGET_BLOCK_SECONDS;
  asert_half_life_seconds := MAINNET_ASERT_HALF_LIFE_SECONDS;
  coinbase_maturity := COINBASE_MATURITY;
  max_block_weight := MAX_BLOCK_WEIGHT;
  block_limits := CONSENSUS_BLOCK_LIMITS;
  issuance := Issuance.MAINNET_ISSUANCE;
  allow_min_difficulty_blocks := false;
  trivial_difficulty := false |}.

Definition TESTNET_PARAMS : ChainParams := {|
  network := Testnet;
  net_name := "testnet"%string;
  chain_id := TESTNET_CHAIN_ID;
  magic := MagicFromChainId TESTNET_CHAIN_ID;
  default_p2p_port := TESTNET_P2P_PORT;
  default_rpc_port := TESTNET_RPC_PORT;
  pow_limit_bits := POW_LIMIT_BITS;
  genesis_bits := POW_LIMIT_BITS;
  genesis_timestamp := GENESIS_TIMESTAMP;
  genesis_nonce := TESTNET_GENESIS_NONCE;
  genesis_hash := TESTNET_GENESIS_HASH;
  target_block_seconds := TARGET_BLOCK_SECONDS;
  asert_half_life_seconds := TESTNET_ASERT_HALF_LIFE_SECONDS;
  coinbase_maturity := COINBASE_MATURITY;
  max_block_weight := MAX_BLOCK_WEIGHT;
  block_limits := CONSENSUS_BLOCK_LIMITS;
  issuance := {|
    Issuance.era_blocks := Issuance.era_blocks Issuance.MAINNET_ISSUANCE / 100;
    Issuance.initial_reward := Issuance.initial_reward Issuance.MAINNET_ISSUANCE |};
  allow_min_difficulty_blocks := true;
  trivial_difficulty := false |}.

Definition REGTEST_PARAMS : ChainParams := {|
  network := Regtest;
  net_name := "regtest"%string;
  chain_id := REGTEST_CHAIN_ID;
  magic := MagicFromChainId REGTEST_CHAIN_ID;
  default_p2p_port := REGTEST_P2P_PORT;
  default_rpc_port := REGTEST_RPC_PORT;
  pow_limit_bits := REGTEST_POW_LIMIT_BITS;
  genesis_bits := REGTEST_POW_LIMIT_BITS;
  genesis_timestamp := GENESIS_TIMESTAMP;
  genesis_nonce := REGTEST_GENESIS_NONCE;
  genesis_hash := REGTEST_GENESIS_HASH;
  target_block_seconds := TARGET_BLOCK_SECONDS;
  asert_half_life_seconds := REGTEST_ASERT_HALF_LIFE_SECONDS;
  coinbase_maturity := 20;
  max_block_weight := MAX_BLOCK_WEIGHT;
  block_limits := CONSENSUS_BLOCK_LIMITS;
  issuance := {|
    Issuance.era_blocks := Issuance.era_blocks Issuance.MAINNET_ISSUANCE / 1000;
    Issuance.initial_reward := Issuance.initial_reward Issuance.MAINNET_ISSUANCE |};
  allow_min_difficulty_blocks := true;
  trivial_difficulty := true |}.

Definition ParamsFor (network : Network) : ChainParams :=
  match network with
  | Testnet => TESTNET_PARAMS
  | Regtest => REGTEST_PARAMS
  | Mainnet => MAINNET_PARAMS
  end.

Definition NetworkFromName (name : string) : option Network :=
  if String.eqb name (net_name MAINNET_PARAMS) then Some Mainnet
  else if String.eqb name (net_name TESTNET_PARAMS) then Some Testnet
  else if String.eqb name (net_name REGTEST_PARAMS) then Some Regtest
  else None.

(** [AsertNextBits(const ChainParams&, tip_height, tip_time)] (asert.cpp). *)
Definition AsertNextBitsFor (params : ChainParams) (tip_height tip_time : Z) : Z :=
  Asert.AsertNextBits (genesis_bits params) (genesis_timestamp params) tip_height tip_time
    (target_block_seconds params) (asert_half_life_seconds params) (pow_limit_bits params).

(** ** Facts about the table *)

Lemma consensus_limits_ok : BlockLimits_ok CONSENSUS_BLOCK_LIMITS.
Proof. repeat split; vm_compute; congruence. Qed.

Lemma params_sane n : Issuance.sane (issuance (ParamsFor n)).
Proof. destruct n; repeat split; vm_compute; congruence. Qed.

Lemma params_pow_limit n :
  u32 (pow_limit_bits (ParamsFor n)) /\ u32 (genesis_bits (ParamsFor n)) /\
  is_Some (Target.CompactToTarget (pow_limit_bits (ParamsFor n))).
Proof. destruct n; repeat split; try (vm_compute; congruence); eexists; vm_compute; reflexivity. Qed.

(** ** The theorems *)

(** The networks cannot be confused.  Two different networks differ in chain
    id, in the first byte of the magic, in genesis hash, in name and in ports;
    every magic begins with a non-ASCII byte; names parse back to the network
    they name and no other string parses; and the mainnet carries neither
    relaxation. *)
Theorem networks_separated :
  (forall n n', n <> n' ->
     chain_id (ParamsFor n) <> chain_id (ParamsFor n') /\
     head (magic (ParamsFor n)) <> head (magic (ParamsFor n')) /\
     genesis_hash (ParamsFor n) <> genesis_hash (ParamsFor n') /\
     default_p2p_port (ParamsFor n) <> default_p2p_port (ParamsFor n') /\
     default_rpc_port (ParamsFor n) <> default_rpc_port (ParamsFor n')) /\
  (forall n, exists b, head (magic (ParamsFor n)) = Some b /\ 128 <= b2z b) /\
  (forall n s, NetworkFromName s = Some n <-> s = net_name (ParamsFor n)) /\
  (forall n, network (ParamsFor n) = n) /\
  allow_min_difficulty_blocks (ParamsFor Mainnet) = false /\ trivial_difficulty (ParamsFor Mainnet) = false.
Proof.
  split_and!; try done.
  - intros [] []; try done; intros _; repeat split; vm_compute; congruence.
  - intros []; eexists; (split; [vm_compute; reflexivity|vm_compute; congruence]).
  - intros n s. unfold NetworkFromName.
    destruct (String.eqb_spec s (net_name MAINNET_PARAMS)) as [->|N1];
      [destruct n; split; intros; try done; discriminate|].
    destruct (String.eqb_spec s (net_name TESTNET_PARAMS)) as [->|N2];
      [destruct n; split; intros; try done; discriminate|].
    destruct (String.eqb_spec s (net_name REGTEST_PARAMS)) as [->|N3];
      [destruct n; split; intros; try done; discriminate|].
    destruct n; split; intros; done.
  - by intros [].
Qed.

(** On every network and for every height and time, the difficulty the node
    demands of the next block decodes to a target at least one and no easier
    than that network's proof-of-work limit. *)
Theorem next_difficulty_usable (n : Network) (tip_height tip_time : Z) :
  exists t limit,
    Target.CompactToTarget (AsertNextBitsFor (ParamsFor n) tip_height tip_time) = Some t /\
    Target.CompactToTarget (pow_limit_bits (ParamsFor n)) = Some limit /\
    0 < be_val t <= be_val limit.
Proof.
  destruct (params_pow_limit n) as (Ul & Ug & [limit D]).
  destruct (Asert.AsertNextBits_valid (genesis_bits (ParamsFor n)) (genesis_timestamp (ParamsFor n))
    tip_height tip_time (target_block_seconds (ParamsFor n)) (asert_half_life_seconds (ParamsFor n))
    (pow_limit_bits (ParamsFor n)) limit Ug Ul D) as (_ & t & Dt & R).
  by exists t, limit.
Qed.

End Params.
