(* ===== verification/Merkle.v ===== *)
(** * Merkle commitments (src/primitives/merkle.cpp)

    The level loop runs on fuel; [merkle_loop_done] shows the number of leaves
    is always enough.  Binding is stated with an explicit collision: two
    different leaf lists under one root exhibit two different byte strings,
    both digested while computing the two roots, with one SHA-256. *)

From Stdlib Require Import String.
From stdpp Require Import sets.
From S2P Require Import Prelude Serialize Crypto.
#[local] Open Scope Z_scope.

Module Merkle.

Definition MERKLE_LEAF_TAG : bytes := str "Amarian/MerkleLeaf".
Definition MERKLE_BRANCH_TAG : bytes := str "Amarian/MerkleBranch".
Definition MERKLE_ROOT_TAG : bytes := str "Amarian/MerkleRoot".

Section merkle.
Context `{Sha256Impl}.

Definition MerkleBranch (left right : bytes) : bytes :=
  TaggedHash MERKLE_BRANCH_TAG (left ++ right).

(** One pass of the pairing loop; an odd last node is promoted unchanged. *)
Fixpoint next_level (level : list bytes) : list bytes :=
  match level with
  | l :: r :: level => MerkleBranch l r :: next_level level
  | level => level
  end.

(** [while (level.size() > 1)]; [None] if the fuel runs out. *)
Fixpoint merkle_loop (fuel : nat) (level : list bytes) : option (list bytes) :=
  if 1 <? zlen level
  then match fuel with O => None | S fuel => merkle_loop fuel (next_level level) end
  else Some level.

Definition root_preimage (count : Z) (top : bytes) : bytes :=
  WriteHash256 top (WriteCompactSize count new_Writer).

Definition ComputeMerkleRoot (wtxids : list bytes) : option bytes :=
  match wtxids with
  | [] => None
  | _ :: _ =>
      let level := map (TaggedHash MERKLE_LEAF_TAG) wtxids in
      level ← merkle_loop (length level) level;
      top ← head level;
      Some (TaggedHash MERKLE_ROOT_TAG (root_preimage (zlen wtxids) top))
  end.

(** ** The byte strings digested on the way *)

Fixpoint level_preimages (level : list bytes) : list bytes :=
  match level with
  | l :: r :: level => tagged_preimage MERKLE_BRANCH_TAG (l ++ r) :: level_preimages level
  | _ => []
  end.

Fixpoint loop_preimages (fuel : nat) (level : list bytes) : list bytes :=
  match fuel with
  | O => []
  | S fuel => level_preimages level ++ loop_preimages fuel (next_level level)
  end.

Definition preimages (wtxids : list bytes) : list bytes :=
  let level := map (TaggedHash MERKLE_LEAF_TAG) wtxids in
  map (tagged_preimage MERKLE_LEAF_TAG) wtxids ++ loop_preimages (length level) level ++
  match merkle_loop (length level) level with
  | Some (top :: _) => [tagged_preimage MERKLE_ROOT_TAG (root_preimage (zlen wtxids) top)]
  | _ => []
  end.

(** ** The loop *)

Lemma pair_ind (P : list bytes -> Prop) :
  P [] -> (forall x, P [x]) -> (forall x y l, P l -> P (x :: y :: l)) -> forall l, P l.
Proof.
  intros H0 H1 H2 l. enough (P l /\ forall x, P (x :: l)) by tauto.
  induction l as [|y l [IHl IHx]]; split; auto.
Qed.

Lemma next_level_length l : length (next_level l) = Nat.div2 (S (length l)).
Proof. induction l as [| |x y l IH] using pair_ind; [done|done|]. cbn [next_level length]. by rewrite IH. Qed.

Lemma next_level_shrinks l : (1 < length l)%nat ->
  (1 <= length (next_level l))%nat /\ (length (next_level l) < length l)%nat.
Proof.
  intros Hl. rewrite next_level_length, Nat.div2_div.
  pose proof (Nat.div_mod_eq (S (length l)) 2).
  pose proof (Nat.mod_upper_bound (S (length l)) 2 ltac:(lia)). lia.
Qed.

Lemma merkle_loop_done fuel l : (1 <= length l <= S fuel)%nat ->
  exists top, merkle_loop fuel l = Some [top].
Proof.
  revert l. induction fuel as [|fuel IH]; intros l Hl; cbn [merkle_loop];
    destruct (Z.ltb_spec 1 (zlen l)); unfold zlen in *; try lia.
  - destruct l as [|x [|y l]]; simpl in *; try lia. eauto.
  - apply IH. pose proof (next_level_shrinks l ltac:(lia)). lia.
  - destruct l as [|x [|y l]]; simpl in *; try lia. eauto.
Qed.

(** ** Binding *)

Definition hashes (l : list bytes) : Prop := Forall is_hash l.

Lemma next_level_hashes l : hashes l -> hashes (next_level l).
Proof.
  unfold hashes. induction l as [| |x y l IH] using pair_ind; [done|done|]. intros F.
  apply Forall_cons_1 in F as [_ F]. apply Forall_cons_1 in F as [_ F].
  constructor; [apply TaggedHash_is_hash|auto].
Qed.

Lemma next_level_binds l : forall k, length l = length k -> hashes l -> hashes k ->
  next_level l = next_level k -> l = k \/ Collision (level_preimages l) (level_preimages k).
Proof.
  induction l as [|x|x y l IH] using pair_ind; intros k Hl Fl Fk E.
  - destruct k; [by left|done].
  - destruct k as [|x' [|? ?]]; try done. by left.
  - destruct k as [|x' [|y' k]]; try done. cbn [next_level level_preimages] in *.
    injection E as E1 E2.
    apply Forall_cons_1 in Fl as [Hx Fl], Fk as [Hx' Fk].
    apply Forall_cons_1 in Fl as [Hy Fl], Fk as [Hy' Fk].
    destruct (SHA256_binds (tagged_preimage MERKLE_BRANCH_TAG (x ++ y))
      (tagged_preimage MERKLE_BRANCH_TAG (x' ++ y'))
      (tagged_preimage MERKLE_BRANCH_TAG (x ++ y) :: level_preimages l)
      (tagged_preimage MERKLE_BRANCH_TAG (x' ++ y') :: level_preimages k) E1)
      as [E3|C]; [set_solver|set_solver| |by right].
    apply tagged_preimage_inj, app_inj_zlen in E3 as [-> ->]; [|unfold is_hash in *; lia].
    destruct (IH k) as [->|C]; [simpl in *; lia|done|done|done|by left|].
    right. eapply Collision_weaken; [exact C|set_solver|set_solver].
Qed.

Lemma merkle_loop_binds fuel : forall l k t, length l = length k -> hashes l -> hashes k ->
  merkle_loop fuel l = Some t -> merkle_loop fuel k = Some t ->
  l = k \/ Collision (loop_preimages fuel l) (loop_preimages fuel k).
Proof.
  induction fuel as [|fuel IH]; intros l k t Hl Fl Fk; cbn [merkle_loop loop_preimages];
    replace (zlen k) with (zlen l) by (unfold zlen; lia); destruct (Z.ltb_spec 1 (zlen l)); intros El Ek;
    try (left; congruence).
  destruct (IH (next_level l) (next_level k) t) as [E|C]; try done;
    [rewrite !next_level_length; congruence|by apply next_level_hashes..| |].
  - destruct (next_level_binds l k) as [E'|C]; try done; [by left|right].
    eapply Collision_weaken; [exact C|set_solver|set_solver].
  - right. eapply Collision_weaken; [exact C|set_solver|set_solver].
Qed.

Lemma leaves_bind xs : forall ys,
  map (TaggedHash MERKLE_LEAF_TAG) xs = map (TaggedHash MERKLE_LEAF_TAG) ys ->
  xs = ys \/ Collision (map (tagged_preimage MERKLE_LEAF_TAG) xs) (map (tagged_preimage MERKLE_LEAF_TAG) ys).
Proof.
  induction xs as [|x xs IH]; intros [|y ys] E; try done; [by left|]. injection E as E1 E2.
  cbn [map].
  destruct (SHA256_binds (tagged_preimage MERKLE_LEAF_TAG x) (tagged_preimage MERKLE_LEAF_TAG y)
    (tagged_preimage MERKLE_LEAF_TAG x :: map (tagged_preimage MERKLE_LEAF_TAG) xs)
    (tagged_preimage MERKLE_LEAF_TAG y :: map (tagged_preimage MERKLE_LEAF_TAG) ys) E1)
    as [E3%tagged_preimage_inj|C]; [set_solver|set_solver| |by right]. subst y.
  destruct (IH ys E2) as [->|C]; [by left|right].
  eapply Collision_weaken; [exact C|set_solver|set_solver].
Qed.

Lemma root_preimage_flat n t : root_preimage n t = encode WriteCompactSize n ++ encode WriteHash256 t.
Proof. unfold root_preimage, new_Writer. autorewrite with enc. done. Qed.

Lemma root_preimage_inj n t n' t' : u64 n -> u64 n' -> is_hash t -> is_hash t' ->
  root_preimage n t = root_preimage n' t' -> n = n' /\ t = t'.
Proof.
  intros Hn Hn' Ht Ht' E. rewrite !root_preimage_flat in E.
  assert (n = n') as ->.
  { pose proof (zlen_compact n Hn). assert (CompactSizeLen n <= 9) by
      (unfold CompactSizeLen; repeat case_match; lia).
    eapply (codec_inj _ _ _ codec_CompactRaw n n'); try done.
    rewrite zlen_app. change (encode WriteHash256 t) with t. unfold is_hash in Ht. lia. }
  by apply app_inv_head in E.
Qed.

(** A nonempty list always has a root: the loop ends, on one node. *)
Lemma ComputeMerkleRoot_Some xs : xs <> [] ->
  exists top, merkle_loop (length xs) (map (TaggedHash MERKLE_LEAF_TAG) xs) = Some [top] /\
    ComputeMerkleRoot xs = Some (TaggedHash MERKLE_ROOT_TAG (root_preimage (zlen xs) top)).
Proof.
  intros Hx. destruct (merkle_loop_done (length xs) (map (TaggedHash MERKLE_LEAF_TAG) xs)) as [top E].
  { rewrite length_map. destruct xs; [done|simpl; lia]. }
  exists top. split; [done|]. unfold ComputeMerkleRoot. destruct xs; [done|].
  rewrite length_map, E. done.
Qed.

Lemma merkle_loop_hash fuel l top : hashes l -> merkle_loop fuel l = Some [top] -> is_hash top.
Proof.
  revert l. induction fuel as [|fuel IH]; intros l F; cbn [merkle_loop]; destruct (_ <? _);
    try done; try (intros [= ->]; by apply Forall_cons_1 in F as [? _]).
  apply IH. by apply next_level_hashes.
Qed.

Lemma leaves_hashes xs : hashes (map (TaggedHash MERKLE_LEAF_TAG) xs).
Proof. apply Forall_map_iff, Forall_true. intros. apply TaggedHash_is_hash. Qed.

(** ** The theorems *)

(** The Merkle root binds the whole transaction list.  Every nonempty list
    has a root (the level loop terminates), the empty list has none, and two
    lists with one root are the same list, order and length included, unless
    two different byte strings digested while computing those very roots
    collide under SHA-256. *)
Theorem merkle_root_binds (xs ys : list bytes) (Hx : zlen xs < 2 ^ 64) (Hy : zlen ys < 2 ^ 64) :
  (ComputeMerkleRoot xs = None <-> xs = []) /\
  (ComputeMerkleRoot xs = ComputeMerkleRoot ys ->
   xs = ys \/ Collision (preimages xs) (preimages ys)).
Proof.
  split.
  { destruct (decide (xs = [])) as [->|Hne]; [done|].
    destruct (ComputeMerkleRoot_Some xs Hne) as (? & _ & ->). naive_solver. }
  intros E. destruct (decide (xs = [])) as [->|Hxs].
  { destruct (decide (ys = [])) as [->|Hys]; [by left|].
    destruct (ComputeMerkleRoot_Some ys Hys) as (? & _ & Ey). cbn in E. congruence. }
  destruct (ComputeMerkleRoot_Some xs Hxs) as (top & Lx & Ex).
  destruct (decide (ys = [])) as [->|Hys]; [cbn in E; congruence|].
  destruct (ComputeMerkleRoot_Some ys Hys) as (top' & Ly & Ey).
  rewrite Ex, Ey in E. injection E as E.
  unfold preimages. rewrite !length_map, Lx, Ly.
  pose proof (SHA256_binds _ _
    [tagged_preimage MERKLE_ROOT_TAG (root_preimage (zlen xs) top)]
    [tagged_preimage MERKLE_ROOT_TAG (root_preimage (zlen ys) top')] E) as [Er|C];
    [set_solver|set_solver| |right; eapply Collision_weaken; [exact C|set_solver|set_solver]].
  apply tagged_preimage_inj, root_preimage_inj in Er as [En ->];
    try (split; [apply zlen_nonneg|done]);
    try (eapply merkle_loop_hash; [apply leaves_hashes|eassumption]).
  assert (length xs = length ys) as El by (unfold zlen in En; lia). rewrite El in Lx |- *.
  destruct (merkle_loop_binds (length ys) (map (TaggedHash MERKLE_LEAF_TAG) xs)
    (map (TaggedHash MERKLE_LEAF_TAG) ys) [top']) as [Eleaf|C]; try done;
    [by rewrite !length_map|apply leaves_hashes..| |].
  - destruct (leaves_bind xs ys Eleaf) as [->|C]; [by left|right].
    eapply Collision_weaken; [exact C|set_solver|set_solver].
  - right. eapply Collision_weaken; [exact C|set_solver|set_solver].
Qed.
End merkle.

Lemma merkle_root_binds_witness :
  let xs := [replicate 32 Byte.x01; replicate 32 Byte.x02; replicate 32 Byte.x03] in
  let ys := [replicate 32 Byte.x01; replicate 32 Byte.x02] in
  (ComputeMerkleRoot (H := toy_Sha256Impl) xs = None <-> xs = []) /\
  (ComputeMerkleRoot (H := toy_Sha256Impl) xs = ComputeMerkleRoot (H := toy_Sha256Impl) ys ->
   xs = ys \/ Collision (H := toy_Sha256Impl) (preimages (H := toy_Sha256Impl) xs)
                (preimages (H := toy_Sha256Impl) ys)).
Proof.
  intros xs ys. apply (merkle_root_binds (H := toy_Sha256Impl) xs ys); reflexivity.
Defined.

End Merkle.
