(* ===== verification/Sighash.v ===== *)
(** * Signature hashes (primitives/sighash.hpp, src/primitives/sighash.cpp)

    The 181-byte message a spend signature is over, and what it commits to. As
    for Merkle roots, "commits" is stated with an explicit collision among the
    byte strings digested on the two sides. *)

From Stdlib Require Import String.
From stdpp Require Import sets.
From S2P Require Import Prelude Overflow Serialize Hex Crypto Primitives.
#[local] Open Scope Z_scope.

Module Sighash.

Definition SIGHASH_TAG : bytes := str "Amarian/SigHash".
Definition SPEND_CONDITION_TAG : bytes := str "Amarian/SpendCondition".
Definition SIGHASH_PREIMAGE_SIZE : Z := 181.

(** [enum class SigHashDomain : uint8_t] *)
Inductive SigHashDomain := Outpoints | Sequences | Outputs | Input.

Definition domain_byte (d : SigHashDomain) : Z :=
  match d with Outpoints => 1 | Sequences => 2 | Outputs => 3 | Input => 4 end.

Record SigHashMidstates := mkMidstates { mid_outpoints : bytes; mid_sequences : bytes; mid_outputs : bytes }.

#[global] Instance SigHashMidstates_eq_dec : EqDecision SigHashMidstates.
Proof. solve_decision. Defined.

Definition BeginPreimage (domain : SigHashDomain) : Writer := WriteU8 (domain_byte domain) new_Writer.

(** The three list preimages: domain, count, items. *)
Definition outpoints_preimage (tx : Transaction) : bytes :=
  write_all (fun i => OutPoint_Serialize (in_outpoint i)) (tx_inputs tx)
    (WriteCompactSize (zlen (tx_inputs tx)) (BeginPreimage Outpoints)).

Definition sequences_preimage (tx : Transaction) : bytes :=
  write_all (fun i => WriteU32 (in_sequence i)) (tx_inputs tx)
    (WriteCompactSize (zlen (tx_inputs tx)) (BeginPreimage Sequences)).

Definition outputs_preimage (tx : Transaction) : bytes :=
  write_all TxOutput_Serialize (tx_outputs tx)
    (WriteCompactSize (zlen (tx_outputs tx)) (BeginPreimage Outputs)).

Section sighash.
Context `{Sha256Impl}.

Definition SpendConditionCommitment (condition : SpendCondition) : bytes :=
  TaggedHash SPEND_CONDITION_TAG (SpendCondition_Serialize condition new_Writer).

Definition ComputeSigHashMidstates (tx : Transaction) : SigHashMidstates :=
  mkMidstates (TaggedHash SIGHASH_TAG (outpoints_preimage tx))
    (TaggedHash SIGHASH_TAG (sequences_preimage tx))
    (TaggedHash SIGHASH_TAG (outputs_preimage tx)).

Definition SignatureHashPreimage (chain_id : bytes) (tx : Transaction) (midstates : SigHashMidstates)
    (input_index spent_amount : Z) (condition : SpendCondition) : bytes :=
  let w := BeginPreimage Input in
  let w := WriteHash256 chain_id w in
  let w := WriteU32 (tx_version tx) w in
  let w := WriteU32 (tx_locktime tx) w in
  let w := WriteHash256 (mid_outpoints midstates) w in
  let w := WriteHash256 (mid_sequences midstates) w in
  let w := WriteHash256 (mid_outputs midstates) w in
  let w := WriteU32 input_index w in
  let w := WriteI64 spent_amount w in
  WriteHash256 (SpendConditionCommitment condition) w.

Definition SignatureHash (chain_id : bytes) (tx : Transaction) (midstates : SigHashMidstates)
    (input_index spent_amount : Z) (condition : SpendCondition) : bytes :=
  TaggedHash SIGHASH_TAG
    (SignatureHashPreimage chain_id tx midstates input_index spent_amount condition).

(** The byte strings digested for one input's message. *)
Definition preimages (chain_id : bytes) (tx : Transaction) (input_index spent_amount : Z)
    (condition : SpendCondition) : list bytes :=
  [ tagged_preimage SIGHASH_TAG (outpoints_preimage tx);
    tagged_preimage SIGHASH_TAG (sequences_preimage tx);
    tagged_preimage SIGHASH_TAG (outputs_preimage tx);
    tagged_preimage SPEND_CONDITION_TAG (SpendCondition_Serialize condition new_Writer);
    tagged_preimage SIGHASH_TAG
      (SignatureHashPreimage chain_id tx (ComputeSigHashMidstates tx) input_index spent_amount condition) ].

(** ** The preimages, flattened *)

Lemma SignatureHashPreimage_flat c tx m i a cond :
  SignatureHashPreimage c tx m i a cond =
  encode WriteU8 4 ++ encode WriteHash256 c ++ encode WriteU32 (tx_version tx) ++
  encode WriteU32 (tx_locktime tx) ++ encode WriteHash256 (mid_outpoints m) ++
  encode WriteHash256 (mid_sequences m) ++ encode WriteHash256 (mid_outputs m) ++
  encode WriteU32 i ++ encode WriteI64 a ++ encode WriteHash256 (SpendConditionCommitment cond).
Proof.
  unfold SignatureHashPreimage, BeginPreimage, new_Writer. autorewrite with enc.
  rewrite <- ?app_assoc. reflexivity.
Qed.

Lemma list_preimage_flat {A} (ser : A -> Writer -> Writer) xs d :
  (forall x, Appends (ser x)) ->
  write_all ser xs (WriteCompactSize (zlen xs) (BeginPreimage d)) =
  encode WriteU8 (domain_byte d) ++ encode (write_vector ser) xs.
Proof. intros Ha. rewrite (snoc_vector ser xs _ Ha). reflexivity. Qed.

Lemma write_all_map {A B} (ser : B -> Writer -> Writer) (f : A -> B) xs w :
  write_all (fun x => ser (f x)) xs w = write_all ser (map f xs) w.
Proof. revert w. induction xs as [|x xs IH]; intros w; [done|]. apply IH. Qed.

Lemma outpoints_flat tx : outpoints_preimage tx =
  encode WriteU8 1 ++ encode (write_vector OutPoint_Serialize) (map in_outpoint (tx_inputs tx)).
Proof.
  unfold outpoints_preimage. rewrite write_all_map, <- (zlen_map in_outpoint).
  apply (list_preimage_flat _ _ Outpoints). apply _.
Qed.

Lemma sequences_flat tx : sequences_preimage tx =
  encode WriteU8 2 ++ encode (write_vector WriteU32) (map in_sequence (tx_inputs tx)).
Proof.
  unfold sequences_preimage. rewrite write_all_map, <- (zlen_map in_sequence).
  apply (list_preimage_flat _ _ Sequences). apply _.
Qed.

Lemma outputs_flat tx : outputs_preimage tx =
  encode WriteU8 3 ++ encode (write_vector TxOutput_Serialize) (tx_outputs tx).
Proof. apply (list_preimage_flat _ _ Outputs). apply _. Qed.

(** ** Injectivity *)

Lemma encode_inj {A} (enc : A -> bytes) dec wf (C : Codec enc dec wf) x y :
  wf x -> wf y -> zlen (enc x) < 2 ^ 64 -> enc x = enc y -> x = y.
Proof.
  intros Wx Wy Hl E. apply (codec_inj enc dec wf C x y [] []); try done; by rewrite !app_nil_r.
Qed.

Lemma vector_inj {A} (ser : A -> Writer -> Writer) dec wf d xs ys :
  (forall x, Appends (ser x)) -> Codec (encode ser) dec wf ->
  (forall x, wf x -> 1 <= zlen (encode ser x)) ->
  Forall wf xs -> Forall wf ys -> zlen xs < 2 ^ 64 -> zlen ys < 2 ^ 64 ->
  zlen (encode WriteU8 d ++ encode (write_vector ser) xs) < 2 ^ 64 ->
  encode WriteU8 d ++ encode (write_vector ser) xs = encode WriteU8 d ++ encode (write_vector ser) ys ->
  xs = ys.
Proof.
  intros Ha C Hs Wx Wy Lx Ly Hl E%app_inv_head. rewrite zlen_app in Hl.
  pose proof (zlen_nonneg (encode WriteU8 d)).
  apply (encode_inj (encode (write_vector ser)) _ _
    (codec_vector ser dec wf (Happ := Ha) C (2 ^ 64 - 1) 1 ltac:(lia) ltac:(lia) Hs)); try done; try lia;
    split; try done; lia.
Qed.

Definition midstates_ok (m : SigHashMidstates) : Prop :=
  is_hash (mid_outpoints m) /\ is_hash (mid_sequences m) /\ is_hash (mid_outputs m).

Ltac peel E E' := apply app_inj_zlen in E as [E' E];
  [|autorewrite with amarian; unfold is_hash in *; lia].

Lemma SignatureHashPreimage_inj c tx m i a cond c' tx' m' i' a' cond' :
  is_hash c -> is_hash c' -> midstates_ok m -> midstates_ok m' ->
  u32 (tx_version tx) -> u32 (tx_version tx') -> u32 (tx_locktime tx) -> u32 (tx_locktime tx') ->
  u32 i -> u32 i' -> i64 a -> i64 a' ->
  SignatureHashPreimage c tx m i a cond = SignatureHashPreimage c' tx' m' i' a' cond' ->
  c = c' /\ tx_version tx = tx_version tx' /\ tx_locktime tx = tx_locktime tx' /\ m = m' /\
  i = i' /\ a = a' /\ SpendConditionCommitment cond = SpendConditionCommitment cond'.
Proof.
  intros Hc Hc' (M1 & M2 & M3) (M1' & M2' & M3') Hv Hv' Hl Hl' Hi Hi' Ha Ha' E.
  rewrite !SignatureHashPreimage_flat in E. apply app_inv_head in E.
  peel E E1. peel E E2. peel E E3. peel E E4. peel E E5. peel E E6. peel E E7. peel E E8.
  assert (forall x y, u32 x -> u32 y -> encode WriteU32 x = encode WriteU32 y -> x = y) as I32.
  { intros x y Hx Hy. apply (encode_inj _ _ _ codec_U32); [done|done|].
    autorewrite with amarian. lia. }
  destruct m, m'. cbn in *. split_and!; auto.
  - congruence.
  - apply (encode_inj _ _ _ codec_I64); try done.
Qed.

Lemma Midstates_ok tx : midstates_ok (ComputeSigHashMidstates tx).
Proof. repeat split; apply TaggedHash_is_hash. Qed.

Definition addressable (ps : list bytes) : Prop := Forall (fun p => zlen p < 2 ^ 64) ps.

Lemma tagged_preimage_len tag m : zlen m <= zlen (tagged_preimage tag m).
Proof.
  unfold tagged_preimage. rewrite !zlen_app. pose proof (zlen_nonneg (Sha256 tag)). lia.
Qed.

(** Equal digests of two listed preimages under one tag: equal messages, or a
    collision. *)
Lemma tagged_binds tag m m' ps qs : TaggedHash tag m = TaggedHash tag m' ->
  tagged_preimage tag m ∈ ps -> tagged_preimage tag m' ∈ qs -> m = m' \/ Collision ps qs.
Proof.
  intros E Hp Hq. destruct (SHA256_binds _ _ ps qs E Hp Hq) as [E'%tagged_preimage_inj|C]; auto.
Qed.

Lemma Forall_outpoints xs : Forall TxInput_ok xs -> Forall OutPoint_ok (map in_outpoint xs).
Proof. intros F. apply Forall_map_iff. revert F. apply Forall_impl. by intros ? [? _]. Qed.

Lemma Forall_sequences xs : Forall TxInput_ok xs -> Forall u32 (map in_sequence xs).
Proof. intros F. apply Forall_map_iff. revert F. apply Forall_impl. by intros ? [_ ?]. Qed.

(** ** The theorems *)

(** The per-input message has exactly 181 bytes whatever the transaction's
    size, so hashing for signatures is linear in the transaction. *)
Theorem sighash_preimage_size (chain_id : bytes) (tx : Transaction) (i a : Z) (cond : SpendCondition)
    (Hc : is_hash chain_id) :
  zlen (SignatureHashPreimage chain_id tx (ComputeSigHashMidstates tx) i a cond) = SIGHASH_PREIMAGE_SIZE.
Proof.
  rewrite SignatureHashPreimage_flat. destruct (Midstates_ok tx) as (M1 & M2 & M3).
  pose proof (TaggedHash_is_hash SPEND_CONDITION_TAG (SpendCondition_Serialize cond new_Writer)) as M4.
  fold (SpendConditionCommitment cond) in M4. autorewrite with amarian. unfold is_hash in *.
  rewrite Hc, M1, M2, M3, M4. reflexivity.
Qed.

(** A signature hash commits to everything a spend means: two decoded
    transactions give one message for an input only if the chain, the version,
    the locktime, every outpoint, every sequence, every output, the input's
    index, the amount spent and the spend condition all agree, unless two
    different byte strings digested for those very messages collide. *)
Theorem sighash_commits (l : TxLimits) (chain_id chain_id' : bytes) (tx tx' : Transaction)
    (i i' a a' : Z) (cond cond' : SpendCondition)
    (Hl : TxLimits_ok l) (Htx : Transaction_ok l tx) (Htx' : Transaction_ok l tx')
    (Hc : is_hash chain_id) (Hc' : is_hash chain_id')
    (Hi : u32 i) (Hi' : u32 i') (Ha : i64 a) (Ha' : i64 a')
    (Hcond : SpendCondition_ok (max_keys l) (max_key_size l) cond)
    (Hcond' : SpendCondition_ok (max_keys l) (max_key_size l) cond')
    (Hlen : addressable (preimages chain_id tx i a cond))
    (E : SignatureHash chain_id tx (ComputeSigHashMidstates tx) i a cond =
         SignatureHash chain_id' tx' (ComputeSigHashMidstates tx') i' a' cond') :
  (chain_id = chain_id' /\ tx_version tx = tx_version tx' /\ tx_locktime tx = tx_locktime tx' /\
   map in_outpoint (tx_inputs tx) = map in_outpoint (tx_inputs tx') /\
   map in_sequence (tx_inputs tx) = map in_sequence (tx_inputs tx') /\
   tx_outputs tx = tx_outputs tx' /\ i = i' /\ a = a' /\ cond = cond')
  \/ Collision (preimages chain_id tx i a cond) (preimages chain_id' tx' i' a' cond').
Proof.
  destruct Htx as (V & [I LI] & [O LO] & L & _), Htx' as (V' & [I' LI'] & [O' LO'] & L' & _).
  pose proof Hl as (U1 & U2 & _ & U4 & U5 & U6 & _).
  set (ps := preimages chain_id tx i a cond) in *. set (qs := preimages chain_id' tx' i' a' cond').
  destruct (tagged_binds _ _ _ ps qs E) as [Em|C]; [set_solver|set_solver| |by right].
  apply SignatureHashPreimage_inj in Em as (-> & -> & -> & Em & -> & -> & Ec);
    try done; try apply Midstates_ok. injection Em as Eo Es Eu.
  destruct (tagged_binds _ _ _ ps qs Eo) as [Eo'|C]; [set_solver|set_solver| |by right].
  destruct (tagged_binds _ _ _ ps qs Es) as [Es'|C]; [set_solver|set_solver| |by right].
  destruct (tagged_binds _ _ _ ps qs Eu) as [Eu'|C]; [set_solver|set_solver| |by right].
  destruct (tagged_binds _ _ _ ps qs Ec) as [Ec'|C]; [set_solver|set_solver| |by right].
  repeat apply Forall_cons_1 in Hlen as [? Hlen]. left.
  repeat match goal with H : zlen (tagged_preimage ?t ?m) < _ |- _ =>
    apply (Z.le_lt_trans _ _ _ (tagged_preimage_len t m)) in H end.
  rewrite !outpoints_flat in *. rewrite !sequences_flat in *. rewrite !outputs_flat in *.
  unfold u64 in *. split_and!; try done.
  - eapply (vector_inj OutPoint_Serialize OutPoint_Deserialize OutPoint_ok 1);
      rewrite ?zlen_map; try done; try lia; try apply _; try (by apply Forall_outpoints).
    intros o [Ho _]. rewrite flat_OutPoint. autorewrite with amarian. rewrite Ho. lia.
  - eapply (vector_inj WriteU32 ReadU32 u32 2);
      rewrite ?zlen_map; try done; try lia; try apply _; try (by apply Forall_sequences).
  - eapply (vector_inj TxOutput_Serialize _ _ 3); try eassumption; try lia; try apply _;
      [apply codec_TxOutput; exact U4|].
    intros o _. pose proof (TxOutput_min o). unfold TxOutput_MIN_SERIALIZED_SIZE in *. lia.
  - eapply (encode_inj _ _ _ (codec_SpendCondition l Hl)); done.
Qed.
End sighash.

Lemma sighash_preimage_size_witness :
  zlen (SignatureHashPreimage (H := toy_Sha256Impl) (replicate 32 Byte.x07) (sample_coinbase 7 50)
    (ComputeSigHashMidstates (H := toy_Sha256Impl) (sample_coinbase 7 50)) 0 50
    (mkSpendCondition 1 1 [])) = SIGHASH_PREIMAGE_SIZE.
Proof. apply (sighash_preimage_size (H := toy_Sha256Impl)). reflexivity. Defined.

Lemma sighash_commits_witness :
  let tx := sample_coinbase 7 50 in
  let cond := mkSpendCondition 1 1 [] in
  let c := replicate 32 Byte.x07 in
  (map in_sequence (tx_inputs tx) = map in_sequence (tx_inputs tx) /\ cond = cond)
  \/ Collision (H := toy_Sha256Impl) (preimages (H := toy_Sha256Impl) c tx 0 50 cond)
       (preimages (H := toy_Sha256Impl) c tx 0 50 cond).
Proof.
  intros tx cond c.
  destruct (sighash_commits (H := toy_Sha256Impl) (limits_tx sample_limits) c c tx tx 0 0 50 50 cond cond)
    as [D|C]; [eval_ok..| | |by left; split|by right]; [|reflexivity].
  repeat constructor; vm_compute; reflexivity.
Defined.

End Sighash.
