(* ===== verification/Validation.v ===== *)
(** * The consensus rules (consensus/validation.hpp, src/consensus/validation.cpp)

    Every rule function is translated with its checks in the code's order, each
    returning the one error the code names.  The theorems give each function a
    declarative meaning: what exactly it accepts, in terms of sums, orders,
    duplicate-freedom and order-preserving matchings rather than of loops. *)

From Stdlib Require Import String.
From S2P Require Import Prelude Overflow Serialize Hex Crypto Primitives Target Issuance Params Merkle Sighash.
From stdpp Require Import gmap sorting.
#[local] Open Scope Z_scope.

Module Validation.
Import Params.

Inductive ValidationError :=
  | HeaderTargetMalformed
  | HeaderTargetBelowFloor
  | HeaderInsufficientWork
  | HeaderWrongHeight
  | HeaderWrongPrevBlock
  | HeaderUnexpectedTarget
  | HeaderTimestampTooOld
  | HeaderTimestampTooFarAhead
  | TxNoInputs
  | TxNoOutputs
  | TxDuplicateInput
  | TxNullOutpoint
  | TxAmountOutOfRange
  | TxOutputSumOutOfRange
  | TxWeightTooLarge
  | TxTooManyInputs
  | TxTooManyOutputs
  | TxWitnessCountMismatch
  | TxCoinbaseHasWitnesses
  | TxCoinbaseDataTooLarge
  | TxCoinbaseDataOnNonCoinbase
  | ConditionVersionReserved
  | ConditionNoKeys
  | ConditionTooManyKeys
  | ConditionKeysNotStrictlyOrdered
  | ConditionKeySchemeReserved
  | ConditionThresholdZero
  | ConditionThresholdAboveKeyCount
  | WitnessSignatureCountMismatch
  | WitnessSignatureSchemeReserved
  | ConditionKeyWrongSize
  | WitnessSignatureWrongSize
  | TxCoinbaseAuthorisesNothing
  | TxSpentOutputCountMismatch
  | TxSpendsUnspendableOutput
  | TxConditionDoesNotMatchLock
  | TxSignatureDoesNotVerify
  | TxInputSumOutOfRange
  | TxOutputsExceedInputs
  | TxInputMissingOrSpent
  | TxCoinbaseNotMature
  | TxCreatesExistingOutpoint
  | BlockNoTransactions
  | BlockTooManyTransactions
  | BlockFirstTxNotCoinbase
  | BlockMultipleCoinbases
  | BlockWeightTooLarge
  | BlockMerkleRootMismatch
  | BlockCoinbaseWrongHeight
  | BlockDuplicateSpend
  | BlockCoinbasePaysTooMuch
  | BlockFeesOutOfRange.

#[global] Instance ValidationError_eq_dec : EqDecision ValidationError.
Proof. solve_decision. Defined.

(** [std::expected<T, ValidationError>] *)
Inductive Computed (A : Type) := Ok (a : A) | Err (e : ValidationError).
Arguments Ok {A} _.
Arguments Err {A} _.

Abbreviation Verdict := (Computed unit).
Definition Accept : Verdict := Ok tt.
Definition Reject (error : ValidationError) : Verdict := Err error.

#[global] Instance Computed_bind : MBind Computed := fun A B f m =>
  match m with Ok a => f a | Err e => Err e end.

Definition Describe (error : ValidationError) : string :=
  match error with
  | HeaderTargetMalformed => "target_bits is not a valid compact target encoding"
  | HeaderTargetBelowFloor => "target is easier than this network's proof-of-work floor"
  | HeaderInsufficientWork => "block hash does not meet the target the header claims"
  | HeaderWrongHeight => "height is not the predecessor's height plus one"
  | HeaderWrongPrevBlock => "prev_block does not name the predecessor"
  | HeaderUnexpectedTarget => "target_bits is not the target this node computes for this height"
  | HeaderTimestampTooOld => "timestamp is not after the median of the preceding blocks"
  | HeaderTimestampTooFarAhead => "timestamp is too far ahead of this node's clock"
  | TxNoInputs => "transaction has no inputs"
  | TxNoOutputs => "transaction has no outputs"
  | TxDuplicateInput => "transaction spends the same outpoint twice"
  | TxNullOutpoint => "non-coinbase input names the coinbase sentinel outpoint"
  | TxAmountOutOfRange => "output amount is outside [0, MAX_MONEY]"
  | TxOutputSumOutOfRange => "outputs sum above MAX_MONEY"
  | TxWeightTooLarge => "transaction is heavier than a whole block may be"
  | TxTooManyInputs => "transaction has more inputs than consensus permits"
  | TxTooManyOutputs => "transaction has more outputs than consensus permits"
  | TxWitnessCountMismatch => "transaction does not carry exactly one witness per input"
  | TxCoinbaseHasWitnesses => "coinbase carries witnesses, which it authorises nothing with"
  | TxCoinbaseDataTooLarge => "coinbase data exceeds the permitted size"
  | TxCoinbaseDataOnNonCoinbase => "non-coinbase transaction carries coinbase data"
  | ConditionVersionReserved => "spend condition version 0 is reserved and can never be satisfied"
  | ConditionNoKeys => "spend condition has no keys"
  | ConditionTooManyKeys => "spend condition has more keys than consensus permits"
  | ConditionKeysNotStrictlyOrdered => "spend condition keys are not in strictly ascending order"
  | ConditionKeySchemeReserved => "spend condition uses reserved key scheme 0"
  | ConditionThresholdZero => "spend condition threshold is zero"
  | ConditionThresholdAboveKeyCount => "spend condition threshold exceeds its key count"
  | WitnessSignatureCountMismatch => "witness does not carry exactly threshold signatures"
  | WitnessSignatureSchemeReserved => "witness uses reserved signature scheme 0"
  | ConditionKeyWrongSize => "public key is not the length its scheme defines"
  | WitnessSignatureWrongSize => "signature is not the length its scheme defines"
  | TxCoinbaseAuthorisesNothing => "coinbase has no inputs to authorise and pays no fee"
  | TxSpentOutputCountMismatch => "not exactly one spent coin was supplied per input"
  | TxSpendsUnspendableOutput => "input spends an output locked with unspendable lock version 0"
  | TxConditionDoesNotMatchLock => "revealed spend condition is not the one the output committed to"
  | TxSignatureDoesNotVerify => "no key in the spend condition verifies the signature offered"
  | TxInputSumOutOfRange => "spent amounts sum outside [0, MAX_MONEY]"
  | TxOutputsExceedInputs => "transaction pays out more than it spends"
  | TxInputMissingOrSpent => "input spends an outpoint that is not in the UTXO set"
  | TxCoinbaseNotMature => "coinbase output spent before it matured"
  | TxCreatesExistingOutpoint => "output would overwrite an outpoint that is already unspent"
  | BlockNoTransactions => "block has no transactions"
  | BlockTooManyTransactions => "block has more transactions than consensus permits"
  | BlockFirstTxNotCoinbase => "block's first transaction is not a coinbase"
  | BlockMultipleCoinbases => "block contains more than one coinbase"
  | BlockWeightTooLarge => "block weight exceeds the limit"
  | BlockMerkleRootMismatch => "merkle_root does not commit to the block's transactions"
  | BlockCoinbaseWrongHeight => "coinbase input's sequence is not the header's height"
  | BlockDuplicateSpend => "two transactions in the block spend the same outpoint"
  | BlockCoinbasePaysTooMuch => "coinbase claims more than the scheduled reward plus fees"
  | BlockFeesOutOfRange => "the block's fees sum outside [0, MAX_MONEY]"
  end%string.

(** [for (x : xs) if (verdict = f(x); !verdict) return verdict;] *)
Fixpoint check_all {A} (f : A -> Verdict) (xs : list A) : Verdict :=
  match xs with
  | [] => Accept
  | x :: xs => match f x with Ok _ => check_all f xs | Err e => Err e end
  end.

Section rules.
Context `{Sha256Impl} `{Signature.SignatureBackends}.

(** ** Spend conditions and witnesses *)

Definition HasWrongPublicKeySize (key : PublicKey) : bool :=
  match Signature.FindScheme (key_scheme key) with
  | None => false
  | Some spec => negb (zlen (key_bytes key) =? Signature.public_key_bytes spec)
  end.

Definition HasWrongSignatureSize (signature : Signature) : bool :=
  match Signature.FindScheme (sig_scheme signature) with
  | None => false
  | Some spec => negb (zlen (sig_bytes signature) =? Signature.signature_bytes spec)
  end.

Definition MatchesConditionCommitment (lock : Lock) (condition : SpendCondition) : bool :=
  bool_decide (lock_program lock = Sighash.SpendConditionCommitment condition).

(** The key loop; [prev] is [keys[index - 1]] when there is one. *)
Fixpoint check_keys (prev : option PublicKey) (keys : list PublicKey) : Verdict :=
  match keys with
  | [] => Accept
  | key :: keys =>
      if key_scheme key =? SCHEME_RESERVED then Reject ConditionKeySchemeReserved
      else if HasWrongPublicKeySize key then Reject ConditionKeyWrongSize
      else if match prev with Some p => negb (PublicKey_lt p key) | None => false end
      then Reject ConditionKeysNotStrictlyOrdered
      else check_keys (Some key) keys
  end.

Definition CheckSpendCondition (condition : SpendCondition) (params : ChainParams) : Verdict :=
  if cond_version condition =? CONDITION_VERSION_RESERVED then Reject ConditionVersionReserved
  else if negb (cond_version condition =? CONDITION_VERSION_THRESHOLD) then Accept
  else if zlen (cond_keys condition) =? 0 then Reject ConditionNoKeys
  else if max_keys (limits_tx (block_limits params)) <? zlen (cond_keys condition)
  then Reject ConditionTooManyKeys
  else if cond_threshold condition =? 0 then Reject ConditionThresholdZero
  else if zlen (cond_keys condition) <? cond_threshold condition
  then Reject ConditionThresholdAboveKeyCount
  else check_keys None (cond_keys condition).

Definition CheckWitness (witness : Witness) (params : ChainParams) : Verdict :=
  let condition := wit_condition witness in
  match CheckSpendCondition condition params with
  | Err e => Err e
  | Ok _ =>
      if (cond_version condition =? CONDITION_VERSION_THRESHOLD)
         && negb (zlen (wit_signatures witness) =? cond_threshold condition)
      then Reject WitnessSignatureCountMismatch
      else
        _ ← check_all (fun s => if sig_scheme s =? SCHEME_RESERVED
                                then Reject WitnessSignatureSchemeReserved else Accept)
              (wit_signatures witness);
        if cond_version condition =? CONDITION_VERSION_THRESHOLD
        then check_all (fun s => if HasWrongSignatureSize s
                                 then Reject WitnessSignatureWrongSize else Accept)
               (wit_signatures witness)
        else Accept
  end.

(** ** Transactions *)

Definition is_null_outpoint (o : OutPoint) : bool :=
  Hex.Hash256_IsZero (op_txid o) && (op_index o =? COINBASE_OUTPOINT_INDEX).

Fixpoint output_total_loop (outputs : list TxOutput) (total : Z) : Verdict :=
  match outputs with
  | [] => Accept
  | output :: outputs =>
      if negb (IsValidAmount (out_amount output)) then Reject TxAmountOutOfRange
      else let '(ok, total) := Overflow.TryAccumulate Overflow.T_i64 total (out_amount output) in
           if negb ok || negb (IsValidAmount total) then Reject TxOutputSumOutOfRange
           else output_total_loop outputs total
  end.

(** [seen.insert(outpoint).second] over a list of outpoints. *)
Fixpoint insert_distinct (err : ValidationError) (seen : gset OutPoint) (outpoints : list OutPoint)
    : Computed (gset OutPoint) :=
  match outpoints with
  | [] => Ok seen
  | o :: outpoints =>
      if decide (o ∈ seen) then Err err else insert_distinct err ({[o]} ∪ seen) outpoints
  end.

Definition CheckTransaction (tx : Transaction) (params : ChainParams) : Verdict :=
  let limits := limits_tx (block_limits params) in
  if zlen (tx_inputs tx) =? 0 then Reject TxNoInputs
  else if zlen (tx_outputs tx) =? 0 then Reject TxNoOutputs
  else if max_inputs limits <? zlen (tx_inputs tx) then Reject TxTooManyInputs
  else if max_outputs limits <? zlen (tx_outputs tx) then Reject TxTooManyOutputs
  else
    let is_coinbase := IsCoinbase tx in
    _ ← (if is_coinbase then
           if negb (zlen (tx_witnesses tx) =? 0) then Reject TxCoinbaseHasWitnesses
           else if max_coinbase_data_size limits <? zlen (tx_coinbase_data tx)
           then Reject TxCoinbaseDataTooLarge
           else Accept
         else
           if negb (zlen (tx_coinbase_data tx) =? 0) then Reject TxCoinbaseDataOnNonCoinbase
           else if negb (zlen (tx_witnesses tx) =? zlen (tx_inputs tx))
           then Reject TxWitnessCountMismatch
           else check_all (fun input => if is_null_outpoint (in_outpoint input)
                                        then Reject TxNullOutpoint else Accept) (tx_inputs tx));
    _ ← output_total_loop (tx_outputs tx) 0;
    _ ← (if negb is_coinbase then
           _ ← insert_distinct TxDuplicateInput ∅ (map in_outpoint (tx_inputs tx));
           check_all (fun w => CheckWitness w params) (tx_witnesses tx)
         else Accept);
    if max_block_weight params <? Transaction_Weight tx then Reject TxWeightTooLarge
    else Accept.

(** ** Spend authorisation *)

(** The inner [while]: [Some keys] are the keys left once one answered the
    signature, [None] if they ran out. *)
Fixpoint match_key (signature : Signature) (message : bytes) (keys : list PublicKey)
    : Computed (option (list PublicKey)) :=
  match keys with
  | [] => Ok None
  | key :: keys =>
      if negb (key_scheme key =? sig_scheme signature) then match_key signature message keys
      else match Signature.Verify (sig_scheme signature) (key_bytes key) (sig_bytes signature) message with
           | Signature.Valid | Signature.UnknownScheme => Ok (Some keys)
           | Signature.Invalid | Signature.Malformed => match_key signature message keys
           | Signature.Reserved => Err WitnessSignatureSchemeReserved
           end
  end.

Fixpoint satisfies_loop (signatures : list Signature) (message : bytes) (keys : list PublicKey)
    : Verdict :=
  match signatures with
  | [] => Accept
  | signature :: signatures =>
      match match_key signature message keys with
      | Err e => Err e
      | Ok None => Reject TxSignatureDoesNotVerify
      | Ok (Some keys) => satisfies_loop signatures message keys
      end
  end.

Definition SatisfiesThreshold (witness : Witness) (message : bytes) : Verdict :=
  satisfies_loop (wit_signatures witness) message (cond_keys (wit_condition witness)).

(** The three summing loops that report one error. *)
Fixpoint sum_amounts (err : ValidationError) (amounts : list Z) (total : Z) : Computed Z :=
  match amounts with
  | [] => Ok total
  | amount :: amounts =>
      if negb (IsValidAmount amount) then Err err
      else let '(ok, total) := Overflow.TryAccumulate Overflow.T_i64 total amount in
           if negb ok || negb (IsValidAmount total) then Err err
           else sum_amounts err amounts total
  end.

Definition TransactionFee (tx : Transaction) (spent_coins : list Coin) : Computed Z :=
  if IsCoinbase tx then Err TxCoinbaseAuthorisesNothing
  else if negb (zlen spent_coins =? zlen (tx_inputs tx)) then Err TxSpentOutputCountMismatch
  else
    spent ← sum_amounts TxInputSumOutOfRange (map (fun c => out_amount (coin_output c)) spent_coins) 0;
    paid ← sum_amounts TxOutputSumOutOfRange (map out_amount (tx_outputs tx)) 0;
    if spent <? paid then Err TxOutputsExceedInputs else Ok (spent - paid).

(** One iteration of the authorisation loop. *)
Definition authorise_input (tx : Transaction) (params : ChainParams)
    (midstates : Sighash.SigHashMidstates) (index : Z) (spent : TxOutput) (witness : Witness) : Verdict :=
  if Lock_IsUnspendable (out_lock spent) then Reject TxSpendsUnspendableOutput
  else if negb (lock_version (out_lock spent) =? LOCK_VERSION_CONDITION_COMMITMENT) then Accept
  else if negb (MatchesConditionCommitment (out_lock spent) (wit_condition witness))
  then Reject TxConditionDoesNotMatchLock
  else if negb (cond_version (wit_condition witness) =? CONDITION_VERSION_THRESHOLD) then Accept
  else SatisfiesThreshold witness
         (Sighash.SignatureHash (chain_id params) tx midstates (wrapu 32 index)
            (out_amount spent) (wit_condition witness)).

Fixpoint authorise_loop (tx : Transaction) (params : ChainParams)
    (midstates : Sighash.SigHashMidstates) (index : Z) (coins : list Coin) (witnesses : list Witness)
    : Verdict :=
  match coins, witnesses with
  | coin :: coins, witness :: witnesses =>
      match authorise_input tx params midstates index (coin_output coin) witness with
      | Err e => Err e
      | Ok _ => authorise_loop tx params midstates (index + 1) coins witnesses
      end
  | _, _ => Accept
  end.

Definition CheckSpendAuthorisation (tx : Transaction) (spent_coins : list Coin)
    (params : ChainParams) : Verdict :=
  if IsCoinbase tx then Reject TxCoinbaseAuthorisesNothing
  else if negb (zlen spent_coins =? zlen (tx_inputs tx)) then Reject TxSpentOutputCountMismatch
  else if negb (zlen (tx_witnesses tx) =? zlen (tx_inputs tx)) then Reject TxWitnessCountMismatch
  else authorise_loop tx params (Sighash.ComputeSigHashMidstates tx) 0 spent_coins (tx_witnesses tx).

Definition check_maturity (spend_height : Z) (params : ChainParams) (coin : Coin) : Verdict :=
  if negb (coin_is_coinbase coin) then Accept
  else if spend_height - coin_height coin <? coinbase_maturity params
  then Reject TxCoinbaseNotMature else Accept.

Definition CheckTransactionInputs (tx : Transaction) (spent_coins : list Coin) (spend_height : Z)
    (params : ChainParams) : Computed Z :=
  if IsCoinbase tx then Err TxCoinbaseAuthorisesNothing
  else if negb (zlen spent_coins =? zlen (tx_inputs tx)) then Err TxSpentOutputCountMismatch
  else
    _ ← check_all (check_maturity spend_height params) spent_coins;
    fee ← TransactionFee tx spent_coins;
    _ ← CheckSpendAuthorisation tx spent_coins params;
    Ok fee.

(** ** Headers *)

Definition CheckBlockHeader (header : BlockHeader) (params : ChainParams) : Verdict :=
  match Target.CompactToTarget (hdr_target_bits header) with
  | None => Reject HeaderTargetMalformed
  | Some target =>
      match Target.CompactToTarget (pow_limit_bits params) with
      | None => Reject HeaderTargetMalformed
      | Some floor =>
          if lex_gt target floor then Reject HeaderTargetBelowFloor
          else if negb (Target.HashMeetsTarget (BlockHeader_Hash header) target)
          then Reject HeaderInsufficientWork
          else Accept
      end
  end.

(** [std::nth_element] leaves at [middle] what sorting would put there. *)
Definition MedianTimePast (timestamps : list Z) : Z :=
  match timestamps with
  | [] => - 2 ^ 63
  | _ =>
      let window := drop (length timestamps - Nat.min (length timestamps) 11) timestamps in
      merge_sort Z.le window !!! (length window / 2)%nat
  end.

Record HeaderContext := mkHeaderContext {
  prev_hash : bytes;
  prev_height : Z;
  median_time_past : Z;
  expected_bits : Z;
  now : Z }.

Definition ContextualCheckBlockHeader (header : BlockHeader) (context : HeaderContext)
    (params : ChainParams) : Verdict :=
  if negb (bool_decide (hdr_prev_block header = prev_hash context)) then Reject HeaderWrongPrevBlock
  else if (prev_height context =? 2 ^ 32 - 1) || negb (hdr_height header =? wrapu 32 (prev_height context + 1))
  then Reject HeaderWrongHeight
  else if negb (hdr_target_bits header =? expected_bits context) then Reject HeaderUnexpectedTarget
  else if hdr_timestamp header <=? median_time_past context then Reject HeaderTimestampTooOld
  else match Overflow.CheckedAdd Overflow.T_i64 (now context) MAX_FUTURE_BLOCK_SECONDS with
       | None => Reject HeaderTimestampTooFarAhead
       | Some ceiling =>
           if ceiling <? hdr_timestamp header then Reject HeaderTimestampTooFarAhead else Accept
       end.

(** ** Blocks *)

(** [Block::ComputeMerkleRoot] (block.cpp). *)
Definition Block_ComputeMerkleRoot (block : Block) : option bytes :=
  Merkle.ComputeMerkleRoot (map Wtxid (blk_transactions block)).

(** The outpoints of the block-wide double-spend loop, in order. *)
Definition block_outpoints (txs : list Transaction) : list OutPoint :=
  concat (map (fun tx => if IsCoinbase tx then [] else map in_outpoint (tx_inputs tx)) txs).

Definition CheckBlock (block : Block) (params : ChainParams) : Verdict :=
  match CheckBlockHeader (blk_header block) params with
  | Err e => Err e
  | Ok _ =>
      match blk_transactions block with
      | [] => Reject BlockNoTransactions
      | front :: others =>
          if max_transactions (block_limits params) <? zlen (blk_transactions block)
          then Reject BlockTooManyTransactions
          else if negb (IsCoinbase front) then Reject BlockFirstTxNotCoinbase
          else if existsb IsCoinbase others then Reject BlockMultipleCoinbases
          else if negb (in_sequence (default (MakeCoinbaseInput 0) (head (tx_inputs front)))
                        =? hdr_height (blk_header block))
          then Reject BlockCoinbaseWrongHeight
          else if max_block_weight params <? Block_Weight block then Reject BlockWeightTooLarge
          else if negb (bool_decide (Block_ComputeMerkleRoot block
                                     = Some (hdr_merkle_root (blk_header block))))
          then Reject BlockMerkleRootMismatch
          else
            _ ← check_all (fun tx => CheckTransaction tx params) (blk_transactions block);
            _ ← insert_distinct BlockDuplicateSpend ∅ (block_outpoints (blk_transactions block));
            Accept
      end
  end.

Definition CheckCoinbaseAmount (block : Block) (total_fees : Z) (params : ChainParams) : Verdict :=
  match blk_transactions block with
  | [] => Reject BlockFirstTxNotCoinbase
  | front :: _ =>
      if negb (IsCoinbase front) then Reject BlockFirstTxNotCoinbase
      else if negb (IsValidAmount total_fees) then Reject BlockFeesOutOfRange
      else
        claimed ← sum_amounts TxOutputSumOutOfRange (map out_amount (tx_outputs front)) 0;
        let reward := Issuance.BlockReward (hdr_height (blk_header block)) (issuance params) in
        match Overflow.CheckedAdd Overflow.T_i64 reward total_fees with
        | None => Reject BlockCoinbasePaysTooMuch
        | Some permitted => if permitted <? claimed then Reject BlockCoinbasePaysTooMuch else Accept
        end
  end.
End rules.

(** ** The loops, declaratively *)

Lemma then_Accept {A} (m : Computed A) (k : Verdict) :
  (_ ← m; k) = Accept <-> (exists a, m = Ok a) /\ k = Accept.
Proof. destruct m; cbn; naive_solver. Qed.

Lemma bind_Accept {A} (m : Computed A) (f : A -> Verdict) :
  (x ← m; f x) = Accept <-> exists a, m = Ok a /\ f a = Accept.
Proof. destruct m; cbn; naive_solver. Qed.

Lemma ok_unit (m : Verdict) : (exists a, m = Ok a) <-> m = Accept.
Proof. split; [intros [[] ->]; done|intros ->; by exists tt]. Qed.

Lemma bind_Ok {A B} (m : Computed A) (f : A -> Computed B) b :
  (x ← m; f x) = Ok b <-> exists a, m = Ok a /\ f a = Ok b.
Proof. destruct m; cbn; naive_solver. Qed.

Lemma check_all_Ok {A} (f : A -> Verdict) xs :
  check_all f xs = Accept <-> Forall (fun x => f x = Accept) xs.
Proof.
  induction xs as [|x xs IH]; cbn [check_all]; [by split|]. rewrite Forall_cons, <- IH.
  destruct (f x) as [[]|]; naive_solver.
Qed.

Lemma check_if_Ok {A} (bad : A -> bool) e xs :
  check_all (fun x => if bad x then Reject e else Accept) xs = Accept <->
  Forall (fun x => bad x = false) xs.
Proof.
  rewrite check_all_Ok. apply Forall_proper; [|done]. intros x. destruct (bad x); split; done.
Qed.

Lemma accumulate_valid total amount : 0 <= total <= MAX_MONEY -> 0 <= amount <= MAX_MONEY ->
  Overflow.TryAccumulate Overflow.T_i64 total amount = (true, total + amount).
Proof.
  unfold MAX_MONEY. intros. apply Overflow.TryAccumulate_true. split; [done|].
  unfold Overflow.in_type, Overflow.tmin, Overflow.tmax. cbn. lia.
Qed.

Definition amounts_ok (total : Z) (amounts : list Z) : Prop :=
  Forall (fun a => IsValidAmount a = true) amounts /\ total + zsum amounts <= MAX_MONEY.

Lemma valid_nonneg amounts : Forall (fun a => IsValidAmount a = true) amounts ->
  0 <= zsum amounts.
Proof.
  intros F. apply zsum_nonneg. eapply Forall_impl; [exact F|]. intros a.
  rewrite IsValidAmount_spec. lia.
Qed.

Lemma sum_amounts_Ok err amounts : forall total s, 0 <= total <= MAX_MONEY ->
  sum_amounts err amounts total = Ok s <-> amounts_ok total amounts /\ s = total + zsum amounts.
Proof.
  unfold amounts_ok. induction amounts as [|a amounts IH]; intros total s Ht; cbn [sum_amounts].
  - change (zsum []) with 0. rewrite Z.add_0_r. split; [intros [= <-]; split_and!; done || lia|].
    by intros [_ ->].
  - rewrite zsum_cons, Forall_cons. destruct (IsValidAmount a) eqn:Ea; cbn [negb]; [|naive_solver].
    apply IsValidAmount_spec in Ea as Ra. rewrite accumulate_valid by done. cbn [negb orb].
    destruct (IsValidAmount (total + a)) eqn:Et; cbn [negb].
    + apply IsValidAmount_spec in Et. rewrite IH, !Z.add_assoc by done. naive_solver.
    + split; [done|]. intros [[[_ F] B] _]. apply valid_nonneg in F.
      assert (IsValidAmount (total + a) = true) by (apply IsValidAmount_spec; lia). congruence.
Qed.

Lemma output_total_Ok outputs : forall total, 0 <= total <= MAX_MONEY ->
  output_total_loop outputs total = Accept <-> amounts_ok total (map out_amount outputs).
Proof.
  unfold amounts_ok. induction outputs as [|o outputs IH]; intros total Ht; cbn [output_total_loop map].
  - change (zsum []) with 0. split; [intros _; split; [constructor|lia]|done].
  - rewrite zsum_cons, Forall_cons. destruct (IsValidAmount (out_amount o)) eqn:Ea; cbn [negb]; [|naive_solver].
    apply IsValidAmount_spec in Ea as Ra. rewrite accumulate_valid by done. cbn [negb orb].
    destruct (IsValidAmount (total + out_amount o)) eqn:Et; cbn [negb].
    + apply IsValidAmount_spec in Et. rewrite IH, !Z.add_assoc by done. naive_solver.
    + split; [done|]. intros [[_ F] B]. apply valid_nonneg in F.
      assert (IsValidAmount (total + out_amount o) = true) by (apply IsValidAmount_spec; lia). congruence.
Qed.

Lemma insert_distinct_Ok err outpoints : forall seen,
  (exists seen', insert_distinct err seen outpoints = Ok seen') <->
  NoDup outpoints /\ Forall (fun o => o ∉ seen) outpoints.
Proof.
  induction outpoints as [|o outpoints IH]; intros seen; cbn [insert_distinct].
  { split; [|eauto]. intros _. split; [apply NoDup_nil_2|constructor]. }
  rewrite NoDup_cons, Forall_cons. destruct (decide (o ∈ seen)); [naive_solver|].
  rewrite IH, !Forall_forall. set_solver.
Qed.

(** ** Conditions *)

Section conditions.
Definition key_ok (k : PublicKey) : Prop :=
  key_scheme k <> SCHEME_RESERVED /\ HasWrongPublicKeySize k = false.

Definition key_lt (a b : PublicKey) : Prop := PublicKey_lt a b = true.

#[local] Instance key_lt_trans : Transitive key_lt.
Proof. intros a b c. apply PublicKey_lt_trans. Qed.

Lemma check_keys_Ok keys : forall prev,
  check_keys prev keys = Accept <->
  Forall key_ok keys /\ Sorted key_lt keys /\
  match prev, keys with Some p, k :: _ => key_lt p k | _, _ => True end.
Proof.
  unfold key_ok, key_lt. induction keys as [|k keys IH]; intros prev; cbn [check_keys].
  { split; [|done]. intros _. split_and!; [constructor|constructor|by destruct prev]. }
  rewrite Forall_cons. destruct (Z.eqb_spec (key_scheme k) SCHEME_RESERVED); [naive_solver|].
  destruct (HasWrongPublicKeySize k) eqn:Ew; [naive_solver|].
  assert (Sorted key_lt (k :: keys) <-> Sorted key_lt keys /\
    match keys with k' :: _ => key_lt k k' | [] => True end) as Hs.
  { split.
    - intros S. apply Sorted_inv in S as [S Hd]. split; [done|]. destruct keys; [done|].
      by apply HdRel_inv in Hd.
    - intros [S Hd]. constructor; [done|]. destruct keys; by constructor. }
  fold key_lt in *. rewrite Hs. destruct prev as [p|].
  - destruct (PublicKey_lt p k) eqn:El; cbn [negb]; [rewrite IH; naive_solver|].
    split; [done|]. intros (_ & _ & ?). unfold key_lt in *. congruence.
  - rewrite IH. naive_solver.
Qed.

Lemma key_sorted_NoDup keys : Sorted key_lt keys -> NoDup keys.
Proof.
  intros S. apply Sorted_StronglySorted in S; [|intros a b c; apply PublicKey_lt_trans].
  induction S as [|k keys S IH F]; [constructor|]. constructor; [|done].
  intros Hin. rewrite Forall_forall in F. specialize (F k Hin). unfold key_lt in F.
  by rewrite PublicKey_lt_irrefl in F.
Qed.
End conditions.

(** ** What each rule accepts *)

(** A check that fires refutes the declarative side. *)
Ltac refuted := split; [intros; destruct_and?; done|]; intros; destruct_and?; exfalso; (done || lia).

Section meaning.
Context `{SH : Sha256Impl} `{SB : Signature.SignatureBackends}.
Implicit Types (p : ChainParams).

Definition condition_ok p (c : SpendCondition) : Prop :=
  cond_version c <> CONDITION_VERSION_RESERVED /\
  (cond_version c = CONDITION_VERSION_THRESHOLD ->
   cond_keys c <> [] /\ zlen (cond_keys c) <= max_keys (limits_tx (block_limits p)) /\
   cond_threshold c <> 0 /\ cond_threshold c <= zlen (cond_keys c) /\
   Forall key_ok (cond_keys c) /\ Sorted key_lt (cond_keys c)).

Lemma CheckSpendCondition_Ok p c : CheckSpendCondition c p = Accept <-> condition_ok p c.
Proof.
  unfold CheckSpendCondition, condition_ok.
  destruct (Z.eqb_spec (cond_version c) CONDITION_VERSION_RESERVED); [naive_solver|].
  destruct (Z.eqb_spec (cond_version c) CONDITION_VERSION_THRESHOLD); cbn [negb]; [|naive_solver].
  assert (zlen (cond_keys c) = 0 <-> cond_keys c = []) as Hnil.
  { split; [apply zlen_zero_nil|by intros ->]. }
  destruct (Z.eqb_spec (zlen (cond_keys c)) 0); [naive_solver|].
  destruct (Z.ltb_spec (max_keys (limits_tx (block_limits p))) (zlen (cond_keys c))); [naive_solver lia|].
  destruct (Z.eqb_spec (cond_threshold c) 0); [naive_solver|].
  destruct (Z.ltb_spec (zlen (cond_keys c)) (cond_threshold c)); [naive_solver lia|].
  rewrite check_keys_Ok. naive_solver.
Qed.

Definition witness_ok p (w : Witness) : Prop :=
  condition_ok p (wit_condition w) /\
  Forall (fun s => sig_scheme s <> SCHEME_RESERVED) (wit_signatures w) /\
  (cond_version (wit_condition w) = CONDITION_VERSION_THRESHOLD ->
   zlen (wit_signatures w) = cond_threshold (wit_condition w) /\
   Forall (fun s => HasWrongSignatureSize s = false) (wit_signatures w)).

Lemma CheckWitness_Ok p w : CheckWitness w p = Accept <-> witness_ok p w.
Proof.
  unfold CheckWitness, witness_ok. rewrite <- CheckSpendCondition_Ok.
  destruct (CheckSpendCondition (wit_condition w) p) as [[]|e]; [|naive_solver].
  assert (Forall (fun s => (sig_scheme s =? SCHEME_RESERVED) = false) (wit_signatures w) <->
    Forall (fun s => sig_scheme s <> SCHEME_RESERVED) (wit_signatures w)) as Hr.
  { apply Forall_proper; [|done]. intros x. apply Z.eqb_neq. }
  destruct (Z.eqb_spec (cond_version (wit_condition w)) CONDITION_VERSION_THRESHOLD) as [Ev|Ev];
    cbn [andb].
  - destruct (Z.eqb_spec (zlen (wit_signatures w)) (cond_threshold (wit_condition w))); cbn [negb];
      [|naive_solver].
    rewrite then_Accept, ok_unit, !check_if_Ok. naive_solver.
  - rewrite then_Accept, ok_unit, check_if_Ok. naive_solver.
Qed.

Definition coinbase_form p (tx : Transaction) : Prop :=
  tx_witnesses tx = [] /\
  zlen (tx_coinbase_data tx) <= max_coinbase_data_size (limits_tx (block_limits p)).

Definition spend_form p (tx : Transaction) : Prop :=
  tx_coinbase_data tx = [] /\ zlen (tx_witnesses tx) = zlen (tx_inputs tx) /\
  Forall (fun i => is_null_outpoint (in_outpoint i) = false) (tx_inputs tx) /\
  NoDup (map in_outpoint (tx_inputs tx)) /\ Forall (witness_ok p) (tx_witnesses tx).

Definition transaction_valid p (tx : Transaction) : Prop :=
  tx_inputs tx <> [] /\ tx_outputs tx <> [] /\
  zlen (tx_inputs tx) <= max_inputs (limits_tx (block_limits p)) /\
  zlen (tx_outputs tx) <= max_outputs (limits_tx (block_limits p)) /\
  (if IsCoinbase tx then coinbase_form p tx else spend_form p tx) /\
  amounts_ok 0 (map out_amount (tx_outputs tx)) /\
  Transaction_Weight tx <= max_block_weight p.

Lemma zlen_nil_iff {A} (l : list A) : zlen l = 0 <-> l = [].
Proof. split; [apply zlen_zero_nil|by intros ->]. Qed.

Lemma insert_distinct_empty err l :
  (exists s, insert_distinct err ∅ l = Ok s) <-> NoDup l.
Proof.
  rewrite insert_distinct_Ok. split; [by intros [? _]|]. intros Hd. split; [done|].
  apply Forall_true. set_solver.
Qed.

Lemma CheckTransaction_Ok p tx : CheckTransaction tx p = Accept <-> transaction_valid p tx.
Proof.
  unfold CheckTransaction, transaction_valid, coinbase_form, spend_form.
  rewrite <- (zlen_nil_iff (tx_inputs tx)), <- (zlen_nil_iff (tx_outputs tx)).
  destruct (Z.eqb_spec (zlen (tx_inputs tx)) 0); [refuted|].
  destruct (Z.eqb_spec (zlen (tx_outputs tx)) 0); [refuted|].
  destruct (Z.ltb_spec (max_inputs (limits_tx (block_limits p))) (zlen (tx_inputs tx))); [refuted|].
  destruct (Z.ltb_spec (max_outputs (limits_tx (block_limits p))) (zlen (tx_outputs tx))); [refuted|].
  cbv zeta. rewrite !then_Accept, !ok_unit, output_total_Ok by (unfold MAX_MONEY; lia).
  assert ((if max_block_weight p <? Transaction_Weight tx then Reject TxWeightTooLarge else Accept) = Accept
    <-> Transaction_Weight tx <= max_block_weight p) as ->.
  { destruct (Z.ltb_spec (max_block_weight p) (Transaction_Weight tx)); split; (done || lia). }
  destruct (IsCoinbase tx); cbn [negb].
  - rewrite <- (zlen_nil_iff (tx_witnesses tx)).
    destruct (Z.eqb_spec (zlen (tx_witnesses tx)) 0); cbn [negb]; [|refuted].
    destruct (Z.ltb_spec (max_coinbase_data_size (limits_tx (block_limits p)))
      (zlen (tx_coinbase_data tx))); [refuted|naive_solver].
  - rewrite <- (zlen_nil_iff (tx_coinbase_data tx)).
    destruct (Z.eqb_spec (zlen (tx_coinbase_data tx)) 0); cbn [negb]; [|refuted].
    destruct (Z.eqb_spec (zlen (tx_witnesses tx)) (zlen (tx_inputs tx))); cbn [negb]; [|refuted].
    rewrite check_if_Ok, then_Accept, insert_distinct_empty, check_all_Ok.
    assert (Forall (fun w => CheckWitness w p = Accept) (tx_witnesses tx) <->
      Forall (witness_ok p) (tx_witnesses tx)) as ->.
    { apply Forall_proper; [|done]. intros w. apply CheckWitness_Ok. }
    naive_solver.
Qed.

(** *** Threshold matching *)

(** The key answers the signature: same scheme, and verified, or a scheme this
    build does not know. *)
Definition answers (message : bytes) (s : Signature) (k : PublicKey) : Prop :=
  key_scheme k = sig_scheme s /\
  (Signature.Verify (sig_scheme s) (key_bytes k) (sig_bytes s) message = Signature.Valid \/
   Signature.Verify (sig_scheme s) (key_bytes k) (sig_bytes s) message = Signature.UnknownScheme).

(** One iteration of the inner loop. *)
Lemma match_key_cons message s k keys : sig_scheme s <> SCHEME_RESERVED ->
  (answers message s k /\ match_key s message (k :: keys) = Ok (Some keys)) \/
  (~ answers message s k /\ match_key s message (k :: keys) = match_key s message keys).
Proof.
  intros Hs. unfold answers. cbn [match_key].
  destruct (Z.eqb_spec (key_scheme k) (sig_scheme s)); cbn [negb]; [|right; naive_solver].
  destruct (Signature.Verify _ _ _ _) eqn:V; try (left; naive_solver); try (right; naive_solver).
  by apply Signature.Verify_reserved in V.
Qed.

Lemma match_key_sound message s keys keys' : sig_scheme s <> SCHEME_RESERVED ->
  match_key s message keys = Ok (Some keys') -> exists k, answers message s k /\ (k :: keys') `sublist_of` keys.
Proof.
  intros Hs. induction keys as [|k keys IH]; [done|].
  destruct (match_key_cons message s k keys Hs) as [[A E]|[A E]]; rewrite E.
  - intros [= <-]. by exists k.
  - intros (k' & A' & S)%IH. exists k'. split; [done|]. by apply sublist_cons.
Qed.

(** Greedy is complete: if some order-preserving matching exists, the first
    answering key leaves room for the rest of it. *)
Lemma match_key_complete message s k ks keys : sig_scheme s <> SCHEME_RESERVED ->
  answers message s k -> (k :: ks) `sublist_of` keys ->
  exists keys', match_key s message keys = Ok (Some keys') /\ ks `sublist_of` keys'.
Proof.
  intros Hs A. induction keys as [|k0 keys IH]; intros S; [by apply sublist_nil_r in S|].
  destruct (match_key_cons message s k0 keys Hs) as [[A0 E]|[A0 E]]; rewrite E.
  - exists keys. split; [done|]. apply sublist_cons_r in S as [S|(? & [= <- <-] & S)]; [|done].
    transitivity (k :: ks); [by apply sublist_cons|done].
  - apply sublist_cons_r in S as [S|(? & [= -> <-] & S)]; [by apply IH|done].
Qed.

Lemma match_key_never_err message s keys e : sig_scheme s <> SCHEME_RESERVED ->
  match_key s message keys <> Err e.
Proof.
  intros Hs. induction keys as [|k keys IH]; [done|].
  by destruct (match_key_cons message s k keys Hs) as [[A E]|[A E]]; rewrite E.
Qed.

Lemma satisfies_loop_Ok message signatures : forall keys,
  Forall (fun s => sig_scheme s <> SCHEME_RESERVED) signatures ->
  satisfies_loop signatures message keys = Accept <->
  exists ks, ks `sublist_of` keys /\ Forall2 (answers message) signatures ks.
Proof.
  induction signatures as [|s signatures IH]; intros keys F; cbn [satisfies_loop].
  { split; [|done]. intros _. exists []. split; [apply sublist_nil_l|constructor]. }
  apply Forall_cons in F as [Hs F]. split.
  - destruct (match_key s message keys) as [[keys'|]|e] eqn:E; [|done|done].
    intros (ks & Sk & F2)%IH; [|done].
    apply match_key_sound in E as (k & A & S); [|done]. exists (k :: ks). split; [|by constructor].
    transitivity (k :: keys'); [by apply sublist_skip|done].
  - intros (ks & S & F2). apply Forall2_cons_inv_l in F2 as (k & ks' & A & F2 & ->).
    destruct (match_key_complete message s k ks' keys Hs A S) as (keys' & -> & S').
    apply IH; [done|]. by exists ks'.
Qed.

(** *** Fees *)

Definition spent_amounts (coins : list Coin) : list Z := map (fun c => out_amount (coin_output c)) coins.

Lemma TransactionFee_Ok tx coins fee :
  TransactionFee tx coins = Ok fee <->
  IsCoinbase tx = false /\ zlen coins = zlen (tx_inputs tx) /\
  amounts_ok 0 (spent_amounts coins) /\ amounts_ok 0 (map out_amount (tx_outputs tx)) /\
  fee = zsum (spent_amounts coins) - zsum (map out_amount (tx_outputs tx)) /\ 0 <= fee.
Proof.
  unfold TransactionFee. destruct (IsCoinbase tx); [naive_solver|].
  destruct (Z.eqb_spec (zlen coins) (zlen (tx_inputs tx))); cbn [negb]; [|naive_solver].
  rewrite bind_Ok. setoid_rewrite bind_Ok.
  assert (0 <= 0 <= MAX_MONEY) as H0 by (unfold MAX_MONEY; lia).
  setoid_rewrite (fun e l s => sum_amounts_Ok e l 0 s H0). fold (spent_amounts coins). split.
  - intros (s & [As ->] & o & [Ao ->] & E).
    destruct (Z.ltb_spec (0 + zsum (spent_amounts coins)) (0 + zsum (map out_amount (tx_outputs tx))));
      [done|]. injection E as <-. split_and!; try done; lia.
  - intros (_ & _ & As & Ao & Ef & Hf).
    exists (zsum (spent_amounts coins)). split; [split; [done|lia]|].
    exists (zsum (map out_amount (tx_outputs tx))). split; [split; [done|lia]|].
    rewrite (proj2 (Z.ltb_ge _ _)) by lia. congruence.
Qed.

(** *** Authorisation *)

(** What authorises one input: a spendable lock; under a version-1 lock the
    revealed condition is the committed one; and under a threshold condition
    the signatures over this input's message are answered, in order, by the
    condition's keys. *)
Definition authorised p (tx : Transaction) (index : Z) (spent : TxOutput) (w : Witness) : Prop :=
  lock_version (out_lock spent) <> LOCK_VERSION_UNSPENDABLE /\
  (lock_version (out_lock spent) = LOCK_VERSION_CONDITION_COMMITMENT ->
   lock_program (out_lock spent) = Sighash.SpendConditionCommitment (wit_condition w) /\
   (cond_version (wit_condition w) = CONDITION_VERSION_THRESHOLD ->
    exists ks, ks `sublist_of` cond_keys (wit_condition w) /\
      Forall2 (answers (Sighash.SignatureHash (chain_id p) tx (Sighash.ComputeSigHashMidstates tx)
        (wrapu 32 index) (out_amount spent) (wit_condition w))) (wit_signatures w) ks)).

Lemma authorise_input_Ok p tx index spent w :
  Forall (fun s => sig_scheme s <> SCHEME_RESERVED) (wit_signatures w) ->
  authorise_input tx p (Sighash.ComputeSigHashMidstates tx) index spent w = Accept <->
  authorised p tx index spent w.
Proof.
  intros F. unfold authorise_input, authorised, Lock_IsUnspendable, SatisfiesThreshold,
    MatchesConditionCommitment.
  destruct (Z.eqb_spec (lock_version (out_lock spent)) LOCK_VERSION_UNSPENDABLE); [naive_solver|].
  destruct (Z.eqb_spec (lock_version (out_lock spent)) LOCK_VERSION_CONDITION_COMMITMENT);
    cbn [negb]; [|naive_solver].
  case_bool_decide; cbn [negb]; [|naive_solver].
  destruct (Z.eqb_spec (cond_version (wit_condition w)) CONDITION_VERSION_THRESHOLD);
    cbn [negb]; [|naive_solver].
  rewrite satisfies_loop_Ok by done. naive_solver.
Qed.

(** Every input is authorised by its own coin and witness. *)
Fixpoint all_authorised p (tx : Transaction) (index : Z) (coins : list Coin) (ws : list Witness) : Prop :=
  match coins, ws with
  | c :: coins, w :: ws => authorised p tx index (coin_output c) w /\ all_authorised p tx (index + 1) coins ws
  | _, _ => True
  end.

Lemma authorise_loop_Ok p tx coins : forall index ws,
  Forall (fun w => Forall (fun s => sig_scheme s <> SCHEME_RESERVED) (wit_signatures w)) ws ->
  authorise_loop tx p (Sighash.ComputeSigHashMidstates tx) index coins ws = Accept <->
  all_authorised p tx index coins ws.
Proof.
  induction coins as [|c coins IH]; intros index [|w ws] F; cbn [authorise_loop all_authorised]; try done.
  apply Forall_cons in F as [Fw F]. rewrite <- (authorise_input_Ok p tx index _ w Fw).
  destruct (authorise_input _ _ _ _ _ _) as [[]|e]; [|naive_solver].
  rewrite IH by done. naive_solver.
Qed.

Definition mature p (spend_height : Z) (c : Coin) : Prop :=
  coin_is_coinbase c = true -> coin_height c + coinbase_maturity p <= spend_height.

Lemma check_maturity_Ok p h c : check_maturity h p c = Accept <-> mature p h c.
Proof.
  unfold check_maturity, mature. destruct (coin_is_coinbase c); cbn [negb]; [|naive_solver].
  destruct (Z.ltb_spec (h - coin_height c) (coinbase_maturity p)); [|split; [intros; lia|done]].
  split; [done|]. intros Hm. specialize (Hm eq_refl). lia.
Qed.

(** Everything [CheckTransactionInputs] certifies about a structurally valid
    transaction, the coins it spends and the fee it pays. *)
Definition spend_valid p (tx : Transaction) (coins : list Coin) (height fee : Z) : Prop :=
  IsCoinbase tx = false /\ zlen coins = zlen (tx_inputs tx) /\ zlen (tx_witnesses tx) = zlen (tx_inputs tx) /\
  Forall (mature p height) coins /\
  amounts_ok 0 (spent_amounts coins) /\ amounts_ok 0 (map out_amount (tx_outputs tx)) /\
  zsum (spent_amounts coins) = zsum (map out_amount (tx_outputs tx)) + fee /\ 0 <= fee /\
  all_authorised p tx 0 coins (tx_witnesses tx).

Lemma CheckTransactionInputs_Ok p tx coins height fee :
  Forall (fun w => Forall (fun s => sig_scheme s <> SCHEME_RESERVED) (wit_signatures w)) (tx_witnesses tx) ->
  CheckTransactionInputs tx coins height p = Ok fee <-> spend_valid p tx coins height fee.
Proof.
  intros F. unfold CheckTransactionInputs, spend_valid, CheckSpendAuthorisation.
  destruct (IsCoinbase tx) eqn:Ec; [naive_solver|].
  destruct (Z.eqb_spec (zlen coins) (zlen (tx_inputs tx))) as [El|]; cbn [negb]; [|naive_solver].
  rewrite bind_Ok. setoid_rewrite bind_Ok. setoid_rewrite bind_Ok.
  setoid_rewrite TransactionFee_Ok.
  assert (forall u, check_all (check_maturity height p) coins = Ok u <-> Forall (mature p height) coins) as Hm.
  { intros []. change (Ok tt) with Accept. rewrite check_all_Ok. apply Forall_proper; [|done].
    intros c. apply check_maturity_Ok. }
  setoid_rewrite Hm.
  destruct (Z.eqb_spec (zlen (tx_witnesses tx)) (zlen (tx_inputs tx))); cbn [negb]; [|naive_solver].
  assert (forall u, authorise_loop tx p (Sighash.ComputeSigHashMidstates tx) 0 coins (tx_witnesses tx) = Ok u
    <-> all_authorised p tx 0 coins (tx_witnesses tx)) as Ha.
  { intros []. change (Ok tt) with Accept. by apply authorise_loop_Ok. }
  setoid_rewrite Ha. split.
  - intros ([] & M & f & (_ & _ & As & Ao & Ef & Hf) & [] & A & [= <-]). split_and!; done || lia.
  - intros (_ & _ & _ & M & As & Ao & Ef & Hf & A). exists tt. split; [done|]. exists fee.
    split; [split_and!; done || lia|]. by exists tt.
Qed.

(** *** Headers *)

Definition header_work_ok p (h : BlockHeader) : Prop :=
  exists target floor,
    Target.CompactToTarget (hdr_target_bits h) = Some target /\
    Target.CompactToTarget (pow_limit_bits p) = Some floor /\
    be_val target <= be_val floor /\ le_combine (BlockHeader_Hash h) <= be_val target.

Lemma CheckBlockHeader_Ok p h : u32 (hdr_target_bits h) -> u32 (pow_limit_bits p) ->
  CheckBlockHeader h p = Accept <-> header_work_ok p h.
Proof.
  intros Uh Up. unfold CheckBlockHeader, header_work_ok.
  destruct (Target.CompactToTarget (hdr_target_bits h)) as [t|] eqn:Dt; [|naive_solver].
  destruct (Target.CompactToTarget (pow_limit_bits p)) as [f|] eqn:Df; [|naive_solver].
  apply Target.CompactToTarget_Some in Dt as (Lt & _), Df as (Lf & _); try done.
  rewrite lex_gt_be_val by (unfold Target.is_target in *; lia).
  rewrite Target.HashMeetsTarget_spec by (done || apply DoubleSha256_is_hash).
  destruct (Z.ltb_spec (be_val f) (be_val t));
    [split; [done|]; intros (? & ? & ? & ? & ? & _); simplify_eq; lia|].
  destruct (Z.leb_spec (le_combine (BlockHeader_Hash h)) (be_val t)); cbn [negb].
  - split; [|done]. intros _. by exists t, f.
  - split; [done|]. intros (? & ? & ? & ? & _ & ?). simplify_eq. lia.
Qed.

Definition header_context_ok (h : BlockHeader) (c : HeaderContext) : Prop :=
  hdr_prev_block h = prev_hash c /\ hdr_height h = prev_height c + 1 /\
  hdr_target_bits h = expected_bits c /\
  median_time_past c < hdr_timestamp h <= now c + MAX_FUTURE_BLOCK_SECONDS.

Lemma ContextualCheckBlockHeader_Ok p h c : u32 (hdr_height h) -> u32 (prev_height c) -> i64 (now c) ->
  i64 (hdr_timestamp h) -> now c + MAX_FUTURE_BLOCK_SECONDS < 2 ^ 63 ->
  ContextualCheckBlockHeader h c p = Accept <-> header_context_ok h c.
Proof.
  unfold u32, i64, ContextualCheckBlockHeader, header_context_ok, MAX_FUTURE_BLOCK_SECONDS.
  intros Hh Hp Hn Ht Hc. case_bool_decide; cbn [negb]; [|naive_solver].
  destruct (Z.eqb_spec (prev_height c) (2 ^ 32 - 1)); cbn [orb];
    [split; [done|]; intros (_ & ? & _); lia|].
  rewrite wrapu_small by lia. destruct (Z.eqb_spec (hdr_height h) (prev_height c + 1)); cbn [negb]; [|naive_solver].
  destruct (Z.eqb_spec (hdr_target_bits h) (expected_bits c)); cbn [negb]; [|naive_solver].
  destruct (Z.leb_spec (hdr_timestamp h) (median_time_past c)); [split; [done|]; intros (_ & _ & _ & ?); lia|].
  destruct (Overflow.CheckedAdd Overflow.T_i64 (now c) 3600) as [ceil|] eqn:E.
  - apply Overflow.CheckedAdd_Some in E as [-> _].
    destruct (Z.ltb_spec (now c + 3600) (hdr_timestamp h)); split; try done; intros; destruct_and?; lia.
  - exfalso. unfold Overflow.CheckedAdd in E.
    destruct (Overflow.in_typeb _ _) eqn:Et; [done|].
    assert (Overflow.in_typeb Overflow.T_i64 (now c + 3600) = true); [|congruence].
    apply Overflow.in_typeb_spec. unfold Overflow.in_type, Overflow.tmin, Overflow.tmax. cbn. lia.
Qed.

(** *** Blocks *)

Definition block_valid p (b : Block) : Prop :=
  exists coinbase txs, blk_transactions b = coinbase :: txs /\
    CheckBlockHeader (blk_header b) p = Accept /\
    zlen (blk_transactions b) <= max_transactions (block_limits p) /\
    IsCoinbase coinbase = true /\ Forall (fun tx => IsCoinbase tx = false) txs /\
    map in_sequence (tx_inputs coinbase) = [hdr_height (blk_header b)] /\
    Block_Weight b <= max_block_weight p /\
    Block_ComputeMerkleRoot b = Some (hdr_merkle_root (blk_header b)) /\
    Forall (transaction_valid p) (blk_transactions b) /\
    NoDup (block_outpoints (blk_transactions b)).

Lemma existsb_false_Forall {A} (f : A -> bool) l : existsb f l = false <-> Forall (fun x => f x = false) l.
Proof.
  induction l as [|x l IH]; cbn [existsb]; [by split|]. rewrite Forall_cons, orb_false_iff, IH. done.
Qed.

Lemma coinbase_one_input tx : IsCoinbase tx = true -> exists i, tx_inputs tx = [i].
Proof. unfold IsCoinbase, is_coinbase_inputs. destruct (tx_inputs tx) as [|i [|? ?]]; eauto; done. Qed.

Lemma CheckBlock_Ok p b : CheckBlock b p = Accept <-> block_valid p b.
Proof.
  unfold CheckBlock, block_valid. destruct (CheckBlockHeader (blk_header b) p) as [[]|e]; [|naive_solver].
  destruct (blk_transactions b) as [|cb txs] eqn:Et; [naive_solver|].
  destruct (Z.ltb_spec (max_transactions (block_limits p)) (zlen (cb :: txs)));
    [split; [done|]; intros (? & ? & ? & ? & ? & _); lia|].
  destruct (IsCoinbase cb) eqn:Ec; cbn [negb];
    [|split; [done|]; intros (? & ? & [= <- <-] & _ & _ & ? & _); congruence].
  destruct (existsb IsCoinbase txs) eqn:Ex.
  { split; [done|]. intros (? & ? & [= <- <-] & _ & _ & _ & F & _).
    apply existsb_false_Forall in F. congruence. }
  apply existsb_false_Forall in Ex. destruct (coinbase_one_input cb Ec) as [i Ei].
  rewrite Ei. cbn [head default from_option map]. unfold id.
  destruct (Z.eqb_spec (in_sequence i) (hdr_height (blk_header b))) as [Eh|Eh]; cbn [negb].
  2:{ split; [done|]. intros (? & ? & [= <- <-] & _ & _ & _ & _ & E & _).
      rewrite Ei in E. injection E as ?. done. }
  destruct (Z.ltb_spec (max_block_weight p) (Block_Weight b));
    [split; [done|]; intros (? & ? & ? & ? & ? & ? & ? & ? & ? & _); lia|].
  case_bool_decide as Em; cbn [negb];
    [|split; [done|]; intros (? & ? & _ & _ & _ & _ & _ & _ & _ & ? & _); done].
  rewrite !then_Accept, ok_unit, check_all_Ok, insert_distinct_empty.
  assert (Forall (fun tx => CheckTransaction tx p = Accept) (cb :: txs) <->
    Forall (transaction_valid p) (cb :: txs)) as ->.
  { apply Forall_proper; [|done]. intros tx. apply CheckTransaction_Ok. }
  split.
  - intros (F & D & _). exists cb, txs. rewrite Ei, <- Eh. split_and!; done.
  - intros (? & ? & [= <- <-] & _ & _ & _ & _ & _ & _ & _ & F & D). done.
Qed.

Lemma CheckCoinbaseAmount_Ok p b fees : Issuance.sane (issuance p) -> 0 <= hdr_height (blk_header b) ->
  Issuance.initial_reward (issuance p) <= MAX_MONEY ->
  CheckCoinbaseAmount b fees p = Accept <->
  exists coinbase txs, blk_transactions b = coinbase :: txs /\ IsCoinbase coinbase = true /\
    0 <= fees <= MAX_MONEY /\ amounts_ok 0 (map out_amount (tx_outputs coinbase)) /\
    zsum (map out_amount (tx_outputs coinbase))
      <= Issuance.BlockReward (hdr_height (blk_header b)) (issuance p) + fees.
Proof.
  intros Hs Hh Hi. unfold CheckCoinbaseAmount.
  pose proof (Issuance.BlockReward_range _ _ Hs Hh) as R.
  set (reward := Issuance.BlockReward _ _) in *. clearbody reward.
  destruct (blk_transactions b) as [|cb txs]; [naive_solver|].
  destruct (IsCoinbase cb) eqn:Ec; cbn [negb];
    [|split; [done|]; intros (? & ? & [= <- <-] & ? & _); congruence].
  destruct (IsValidAmount fees) eqn:Ef; cbn [negb].
  2:{ split; [done|]. intros (? & ? & _ & _ & V & _). apply IsValidAmount_spec in V. congruence. }
  apply IsValidAmount_spec in Ef. rewrite bind_Accept.
  assert (0 <= 0 <= MAX_MONEY) as H0 by (unfold MAX_MONEY; lia).
  setoid_rewrite (fun e l s => sum_amounts_Ok e l 0 s H0). cbv zeta.
  assert (Overflow.CheckedAdd Overflow.T_i64 reward fees = Some (reward + fees)) as ->.
  { apply Overflow.CheckedAdd_Some. split; [done|]. unfold MAX_MONEY in *.
    unfold Overflow.in_type, Overflow.tmin, Overflow.tmax. cbn. lia. }
  split.
  - intros (s & [A ->] & E). exists cb, txs. split_and!; try done; try lia.
    destruct (Z.ltb_spec (reward + fees) (0 + zsum (map out_amount (tx_outputs cb)))); [done|lia].
  - intros (? & ? & [= <- <-] & _ & _ & A & B). eexists. split; [split; [exact A|reflexivity]|].
    rewrite (proj2 (Z.ltb_ge _ _)) by lia. done.
Qed.
End meaning.

(** ** Median time past *)

Definition median_window (timestamps : list Z) : list Z :=
  drop (length timestamps - Nat.min (length timestamps) 11) timestamps.

Lemma median_window_length ts : length (median_window ts) = Nat.min (length ts) 11.
Proof. unfold median_window. rewrite length_drop. lia. Qed.

#[local] Instance Zle_total : Total Z.le.
Proof. intros x y. lia. Qed.

Lemma filter_none (P : Z -> Prop) `{forall x, Decision (P x)} l :
  Forall (fun x => ~ P x) l -> filter P l = [].
Proof.
  induction 1 as [|x l Hx _ IH]; [done|]. rewrite filter_cons, decide_False by done. exact IH.
Qed.

Lemma filter_whole (P : Z -> Prop) `{forall x, Decision (P x)} l : Forall P l -> filter P l = l.
Proof.
  induction 1 as [|x l Hx _ IH]; [done|]. rewrite filter_cons, decide_True by done. by rewrite IH.
Qed.

Definition count_below (m : Z) (l : list Z) : Z := zlen (filter (fun x => x < m) l).
Definition count_up_to (m : Z) (l : list Z) : Z := zlen (filter (fun x => x <= m) l).

(** The middle of a sorted list splits it. *)
Lemma sorted_middle (l : list Z) (k : nat) (m : Z) : StronglySorted Z.le l -> l !! k = Some m ->
  count_below m l <= Z.of_nat k < count_up_to m l.
Proof.
  intros S E. unfold count_below, count_up_to. rewrite <- (take_drop_middle l k m E) in S.
  pose proof (lookup_lt_Some _ _ _ E) as Hk.
  assert (Forall (fun x => x <= m) (take k l) /\ Forall (fun x => m <= x) (drop (Datatypes.S k) l)) as [Fa Fb].
  { apply StronglySorted_app in S as (Hab & _ & Sb). inversion_clear Sb as [|? ? ? F]. split; [|done].
    apply Forall_forall. intros x Hx. apply (Hab x m); [done|]. left. }
  rewrite <- (take_drop_middle l k m E). rewrite !filter_app, !zlen_app, !filter_cons.
  rewrite decide_False, decide_True by lia.
  rewrite (filter_none (fun x => x < m) (drop _ l)) by (eapply Forall_impl; [exact Fb|]; simpl; lia).
  rewrite (filter_whole (fun x => x <= m) (take k l)) by done.
  pose proof (length_filter (fun x => x < m) (take k l)) as L. rewrite length_take in L.
  unfold zlen. rewrite length_take. simpl. lia.
Qed.

Lemma count_perm m l l' : l ≡ₚ l' -> count_below m l = count_below m l' /\ count_up_to m l = count_up_to m l'.
Proof. intros P. unfold count_below, count_up_to, zlen. by rewrite P. Qed.

Lemma MedianTimePast_spec ts : ts <> [] ->
  let w := median_window ts in
  MedianTimePast ts ∈ w /\
  count_below (MedianTimePast ts) w <= zlen w / 2 < count_up_to (MedianTimePast ts) w.
Proof.
  intros Hne w. assert (0 < length w)%nat as Hw.
  { unfold w. rewrite median_window_length. destruct ts; [done|]. simpl. lia. }
  assert (MedianTimePast ts = merge_sort Z.le w !!! (length w / 2)%nat) as Em by (by destruct ts).
  pose proof (merge_sort_Permutation Z.le w) as Pm.
  assert (length w / 2 < length w)%nat as Hk by (apply Nat.div_lt; lia).
  destruct (lookup_lt_is_Some_2 (merge_sort Z.le w) (length w / 2)) as [m El]; [by rewrite Pm|].
  rewrite Em, (list_lookup_total_correct _ _ _ El). split.
  - rewrite <- Pm. by eapply list_elem_of_lookup_2.
  - destruct (count_perm m _ _ Pm) as [<- <-].
    pose proof (sorted_middle _ _ _ (StronglySorted_merge_sort Z.le w) El) as B.
    unfold zlen at 1. rewrite Nat2Z.inj_div in B. exact B.
Qed.

(** ** Concrete data, to run the rules on *)

Definition sample_key (b : Init.Byte.byte) : PublicKey := mkPublicKey 1 (replicate 32 b).
Definition sample_sig (b : Init.Byte.byte) : Signature := mkSignature 1 (replicate 64 b).
Definition sample_condition : SpendCondition :=
  mkSpendCondition 1 2 [sample_key Byte.x01; sample_key Byte.x02; sample_key Byte.x03].
Definition sample_witness : Witness :=
  mkWitness sample_condition [sample_sig Byte.x0a; sample_sig Byte.x0b].

(** Schnorr verification that accepts a key and a signature by their first bytes. *)
Definition picky_backends : Signature.SignatureBackends :=
  {| Signature.xonly_pubkey_parse _ := true;
     Signature.schnorrsig_verify s _ k := b2z (s !!! 0%nat) =? b2z (k !!! 0%nat) + 8;
     Signature.evp_fetch _ := false; Signature.evp_raw_public_key _ _ := false;
     Signature.evp_verify_init _ _ := false; Signature.evp_verify _ _ _ _ := false |}.

Definition sample_coin (amount : Z) : Coin :=
  mkCoin (mkTxOutput amount
    (mkLock 1 (Sighash.SpendConditionCommitment (H := toy_Sha256Impl) sample_condition))) 5 true.

Definition sample_spend_tx : Transaction :=
  mkTransaction 1 [mkTxInput (mkOutPoint (replicate 32 Byte.x09) 0) 0]
    [mkTxOutput 900 (mkLock 1 (replicate 32 Byte.x05))] 0 [sample_witness] [].

Example sample_rules :
  CheckTransaction sample_spend_tx REGTEST_PARAMS = Accept /\
  CheckTransactionInputs (H := toy_Sha256Impl) (H0 := picky_backends) sample_spend_tx [sample_coin 1000] 25
    REGTEST_PARAMS = Ok 100 /\
  CheckTransactionInputs (H := toy_Sha256Impl) (H0 := picky_backends) sample_spend_tx [sample_coin 1000] 24
    REGTEST_PARAMS = Err TxCoinbaseNotMature.
Proof. vm_compute. auto. Qed.

(** ** The theorems *)

(** A spend condition passes exactly when its version is not reserved and,
    for a threshold condition, the keys are nonempty, within the limit, under no
    reserved scheme, of their scheme's length and strictly ascending, and the
    threshold is between one and the number of keys; strictly ascending keys are
    pairwise distinct, so no key can be counted twice. *)
Theorem spend_condition_rule (p : ChainParams) (c : SpendCondition) :
  (CheckSpendCondition c p = Accept <-> condition_ok p c) /\
  (CheckSpendCondition c p = Accept -> cond_version c = CONDITION_VERSION_THRESHOLD -> NoDup (cond_keys c)).
Proof.
  split; [apply CheckSpendCondition_Ok|]. rewrite CheckSpendCondition_Ok.
  intros [_ Hc] Hv. apply key_sorted_NoDup. by apply Hc.
Qed.

Lemma spend_condition_rule_witness : NoDup (cond_keys sample_condition).
Proof. apply (spend_condition_rule REGTEST_PARAMS sample_condition); reflexivity. Defined.

(** [CheckTransaction] accepts exactly the transactions that are valid on
    their own: inputs and outputs present and within limits; a coinbase with no
    witnesses and bounded data, or a spend with one structurally valid witness
    per input, no null outpoint and no outpoint twice; every output amount and
    their true sum (no overflow) within [MAX_MONEY]; and weight within a block. *)
Theorem transaction_rule (p : ChainParams) (tx : Transaction) :
  CheckTransaction tx p = Accept <-> transaction_valid p tx.
Proof. apply CheckTransaction_Ok. Qed.

(** The greedy one-pass walk over keys accepts a witness exactly when its
    signatures can be matched, in order, to distinct positions of the key list,
    each by a key of the same scheme that verifies it (or whose scheme this
    build does not know): greed never misses a satisfiable witness. *)
Theorem threshold_matching `{Sha256Impl} `{Signature.SignatureBackends} (w : Witness) (message : bytes)
    (F : Forall (fun s => sig_scheme s <> SCHEME_RESERVED) (wit_signatures w)) :
  SatisfiesThreshold w message = Accept <->
  exists ks, ks `sublist_of` cond_keys (wit_condition w) /\
    Forall2 (answers message) (wit_signatures w) ks.
Proof. by apply satisfies_loop_Ok. Qed.

Lemma threshold_matching_witness :
  exists ks, ks `sublist_of` cond_keys sample_condition /\
    Forall2 (answers (SB := picky_backends) []) [sample_sig Byte.x0a; sample_sig Byte.x0b] ks.
Proof.
  apply (threshold_matching (H := toy_Sha256Impl) (H0 := picky_backends) sample_witness []).
  - repeat constructor; discriminate.
  - reflexivity.
Defined.

(** C27: what it takes to spend.  For a transaction with no reserved signature
    scheme, [CheckTransactionInputs] returns a fee exactly when there is one coin
    and one witness per input, every coinbase coin has matured, inputs and
    outputs each sum within [MAX_MONEY], the inputs pay the outputs plus that
    non-negative fee, and every input is authorised: its lock is spendable, a
    version-1 lock's program is the commitment to the revealed condition, and the
    signatures over this very input's message match the condition's keys. *)
Theorem spend_rule `{Sha256Impl} `{Signature.SignatureBackends} (p : ChainParams) (tx : Transaction)
    (coins : list Coin) (height fee : Z)
    (F : Forall (fun w => Forall (fun s => sig_scheme s <> SCHEME_RESERVED) (wit_signatures w)) (tx_witnesses tx)) :
  CheckTransactionInputs tx coins height p = Ok fee <-> spend_valid p tx coins height fee.
Proof. by apply CheckTransactionInputs_Ok. Qed.

Lemma spend_rule_witness :
  spend_valid (SH := toy_Sha256Impl) (SB := picky_backends) REGTEST_PARAMS sample_spend_tx
    [sample_coin 1000] 25 100.
Proof.
  apply (spend_rule (H := toy_Sha256Impl) (H0 := picky_backends)).
  - repeat constructor; discriminate.
  - vm_compute. reflexivity.
Defined.

(** A header passes the context-free check exactly when its compact target
    decodes, is no easier than the network's floor, and the header's hash as a
    number is at most the target. *)
Theorem header_work_rule `{Sha256Impl} (p : ChainParams) (h : BlockHeader)
    (Uh : u32 (hdr_target_bits h)) (Up : u32 (pow_limit_bits p)) :
  CheckBlockHeader h p = Accept <-> header_work_ok p h.
Proof. by apply CheckBlockHeader_Ok. Qed.

Definition sample_header : BlockHeader :=
  mkBlockHeader 1 7 (replicate 32 Byte.x00) (replicate 32 Byte.x01) 100 REGTEST_POW_LIMIT_BITS 0.

Lemma header_work_rule_witness :
  CheckBlockHeader (H := toy_Sha256Impl) sample_header REGTEST_PARAMS = Accept <->
  header_work_ok (SH := toy_Sha256Impl) REGTEST_PARAMS sample_header.
Proof. apply (header_work_rule (H := toy_Sha256Impl)); vm_compute; split; congruence. Defined.

(** The contextual header check accepts exactly a header that names its
    predecessor, has the next height (with no wrap at the top), carries the
    difficulty the node computed, and is stamped strictly after the median and
    at most an hour ahead of the node's clock. *)
Theorem header_context_rule (p : ChainParams) (h : BlockHeader) (c : HeaderContext)
    (Hh : u32 (hdr_height h)) (Hp : u32 (prev_height c)) (Hn : i64 (now c)) (Ht : i64 (hdr_timestamp h))
    (Hc : now c + MAX_FUTURE_BLOCK_SECONDS < 2 ^ 63) :
  ContextualCheckBlockHeader h c p = Accept <-> header_context_ok h c.
Proof. by apply ContextualCheckBlockHeader_Ok. Qed.

Lemma header_context_rule_witness :
  header_context_ok sample_header
    (mkHeaderContext (replicate 32 Byte.x00) 6 99 REGTEST_POW_LIMIT_BITS 50).
Proof.
  apply (header_context_rule REGTEST_PARAMS); [vm_compute; split; congruence..|reflexivity|reflexivity].
Defined.

(** The median is a median: for a nonempty history, [MedianTimePast] is one
    of the last eleven timestamps, at most half of them lie strictly below it
    and more than half at or below it. *)
Theorem median_time_past_is_median (ts : list Z) (Hne : ts <> []) :
  let w := median_window ts in
  MedianTimePast ts ∈ w /\
  count_below (MedianTimePast ts) w <= zlen w / 2 < count_up_to (MedianTimePast ts) w.
Proof. by apply MedianTimePast_spec. Qed.

Lemma median_time_past_is_median_witness :
  let w := median_window [9; 3; 7; 1] in
  MedianTimePast [9; 3; 7; 1] ∈ w /\
  count_below (MedianTimePast [9; 3; 7; 1]) w <= zlen w / 2 < count_up_to (MedianTimePast [9; 3; 7; 1]) w.
Proof. apply (median_time_past_is_median [9; 3; 7; 1]). discriminate. Defined.

(** C26: [CheckBlock] accepts exactly a block with enough work, a coinbase first
    and nowhere else, the header's height in the coinbase, weight and count
    within limits, a Merkle root that commits to its transactions, every
    transaction valid on its own, and no outpoint spent twice anywhere in the
    block. *)
Theorem block_rule `{Sha256Impl} (p : ChainParams) (b : Block) :
  CheckBlock b p = Accept <-> block_valid p b.
Proof. apply CheckBlock_Ok. Qed.

(** The coinbase may claim the scheduled reward plus the fees and not one
    facet more: [CheckCoinbaseAmount] accepts exactly when the first transaction
    is a coinbase, fees and outputs are in the money range, and the outputs' true
    sum is at most the reward for the header's height plus the fees. *)
Theorem coinbase_amount_rule (p : ChainParams) (b : Block) (fees : Z)
    (Hs : Issuance.sane (issuance p)) (Hh : 0 <= hdr_height (blk_header b))
    (Hi : Issuance.initial_reward (issuance p) <= MAX_MONEY) :
  CheckCoinbaseAmount b fees p = Accept <->
  exists coinbase txs, blk_transactions b = coinbase :: txs /\ IsCoinbase coinbase = true /\
    0 <= fees <= MAX_MONEY /\ amounts_ok 0 (map out_amount (tx_outputs coinbase)) /\
    zsum (map out_amount (tx_outputs coinbase))
      <= Issuance.BlockReward (hdr_height (blk_header b)) (issuance p) + fees.
Proof. by apply CheckCoinbaseAmount_Ok. Qed.

Lemma coinbase_amount_rule_witness :
  CheckCoinbaseAmount (mkBlock sample_header [sample_coinbase 7 100000000050]) 49 MAINNET_PARAMS <> Accept.
Proof.
  rewrite (coinbase_amount_rule MAINNET_PARAMS).
  - intros (cb & txs & [= <- <-] & _ & _ & _ & B). vm_compute in B. by apply B.
  - apply (params_sane Mainnet).
  - vm_compute. discriminate.
  - vm_compute. discriminate.
Defined.

(** ** Observations *)

(** Each error has its own description. *)
Lemma Describe_distinct : NoDup (map Describe [
  HeaderTargetMalformed;
  HeaderTargetBelowFloor;
  HeaderInsufficientWork;
  HeaderWrongHeight;
  HeaderWrongPrevBlock;
  HeaderUnexpectedTarget;
  HeaderTimestampTooOld;
  HeaderTimestampTooFarAhead;
  TxNoInputs;
  TxNoOutputs;
  TxDuplicateInput;
  TxNullOutpoint;
  TxAmountOutOfRange;
  TxOutputSumOutOfRange;
  TxWeightTooLarge;
  TxTooManyInputs;
  TxTooManyOutputs;
  TxWitnessCountMismatch;
  TxCoinbaseHasWitnesses;
  TxCoinbaseDataTooLarge;
  TxCoinbaseDataOnNonCoinbase;
  ConditionVersionReserved;
  ConditionNoKeys;
  ConditionTooManyKeys;
  ConditionKeysNotStrictlyOrdered;
  ConditionKeySchemeReserved;
  ConditionThresholdZero;
  ConditionThresholdAboveKeyCount;
  WitnessSignatureCountMismatch;
  WitnessSignatureSchemeReserved;
  ConditionKeyWrongSize;
  WitnessSignatureWrongSize;
  TxCoinbaseAuthorisesNothing;
  TxSpentOutputCountMismatch;
  TxSpendsUnspendableOutput;
  TxConditionDoesNotMatchLock;
  TxSignatureDoesNotVerify;
  TxInputSumOutOfRange;
  TxOutputsExceedInputs;
  TxInputMissingOrSpent;
  TxCoinbaseNotMature;
  TxCreatesExistingOutpoint;
  BlockNoTransactions;
  BlockTooManyTransactions;
  BlockFirstTxNotCoinbase;
  BlockMultipleCoinbases;
  BlockWeightTooLarge;
  BlockMerkleRootMismatch;
  BlockCoinbaseWrongHeight;
  BlockDuplicateSpend;
  BlockCoinbasePaysTooMuch;
  BlockFeesOutOfRange]).
Proof. apply (bool_decide_unpack _). vm_compute. exact I. Qed.

(** Under a scheme this build does not know, any order of any signatures is
    accepted: the uniqueness of the ascending order holds only for schemes that
    are actually verified. *)
Lemma unknown_scheme_order_free `{Sha256Impl} `{Signature.SignatureBackends} (a b message : bytes) :
  let keys := [mkPublicKey 9 [Byte.x01]; mkPublicKey 9 [Byte.x02]] in
  let cond := mkSpendCondition 1 2 keys in
  CheckSpendCondition cond MAINNET_PARAMS = Accept /\
  SatisfiesThreshold (mkWitness cond [mkSignature 9 a; mkSignature 9 b]) message = Accept /\
  SatisfiesThreshold (mkWitness cond [mkSignature 9 b; mkSignature 9 a]) message = Accept.
Proof. split_and!; reflexivity. Qed.

End Validation.
