(* ===== verification/Genesis.v ===== *)
(** * The genesis block (consensus/genesis.hpp, src/consensus/genesis.cpp)

    Genesis is rebuilt from the parameter table; [CheckGenesis] compares it with
    the recorded hash and [FindGenesisNonce] is the search that produced the
    recorded nonce. *)

From Stdlib Require Import String.
From S2P Require Import Prelude Overflow Serialize Hex Crypto Primitives Target Issuance Params Merkle Sighash Validation.
From stdpp Require Import list.
#[local] Open Scope Z_scope.

Module Genesis.
Import Params Validation.

Definition GENESIS_MESSAGE : bytes :=
  str "Reuters 05/Sep/2026 Philippine VP Duterte posts bail after arrest order".

Inductive GenesisFault := NoFault | HashMismatch | MalformedTarget | InsufficientWork | MalformedBlock.

Definition Describe_genesis (fault : GenesisFault) : string :=
  match fault with
  | NoFault => "ok"
  | HashMismatch => "genesis does not hash to the recorded value"
  | MalformedTarget => "genesis target_bits is not a valid compact target"
  | InsufficientWork => "genesis hash does not meet its own target"
  | MalformedBlock => "genesis does not have the shape genesis is defined to have"
  end%string.

Definition BuildGenesisCoinbase (params : ChainParams) : Transaction :=
  mkTransaction 1 [MakeCoinbaseInput 0]
    [mkTxOutput 0 (mkLock LOCK_VERSION_UNSPENDABLE (chain_id params))] 0 [] GENESIS_MESSAGE.

Definition ZERO_HASH : bytes := replicate 32 Byte.x00.

Section genesis.
Context `{Sha256Impl}.

Definition BuildGenesisBlock (params : ChainParams) : Block :=
  let transactions := [BuildGenesisCoinbase params] in
  let header root :=
    mkBlockHeader 1 0 ZERO_HASH root (genesis_timestamp params) (genesis_bits params) (genesis_nonce params) in
  let root := Block_ComputeMerkleRoot (mkBlock (header ZERO_HASH) transactions) in
  mkBlock (header (default ZERO_HASH root)) transactions.

Definition CheckGenesis (params : ChainParams) : GenesisFault :=
  match Target.CompactToTarget (genesis_bits params) with
  | None => MalformedTarget
  | Some target =>
      let genesis := BuildGenesisBlock params in
      if negb (zlen (blk_transactions genesis) =? 1) then MalformedBlock
      else match blk_transactions genesis with
      | [] => MalformedBlock
      | coinbase :: _ =>
          if negb (IsCoinbase coinbase) || negb (zlen (tx_outputs coinbase) =? 1) then MalformedBlock
          else match tx_outputs coinbase with
          | [] => MalformedBlock
          | output :: _ =>
              if negb (out_amount output =? 0) || negb (Lock_IsUnspendable (out_lock output)) then MalformedBlock
              else if negb (hdr_height (blk_header genesis) =? 0)
                      || negb (Hex.Hash256_IsZero (hdr_prev_block (blk_header genesis))) then MalformedBlock
              else if negb (bool_decide (Some (hdr_merkle_root (blk_header genesis))
                                         = Block_ComputeMerkleRoot genesis)) then MalformedBlock
              else
                let hash := Block_Hash genesis in
                if negb (bool_decide (hash = genesis_hash params)) then HashMismatch
                else if negb (Target.HashMeetsTarget hash target) then InsufficientWork
                else NoFault
          end
      end
  end.

Definition with_nonce (h : BlockHeader) (nonce : Z) : BlockHeader :=
  mkBlockHeader (hdr_version h) (hdr_height h) (hdr_prev_block h) (hdr_merkle_root h)
    (hdr_timestamp h) (hdr_target_bits h) nonce.

(** The search loop; [attempts] is the number of offsets left. *)
Fixpoint nonce_loop (header : BlockHeader) (target : bytes) (start_nonce offset : Z) (attempts : nat) : option Z :=
  match attempts with
  | O => None
  | S attempts =>
      let nonce := wrapu 64 (start_nonce + offset) in
      if Target.HashMeetsTarget (BlockHeader_Hash (with_nonce header nonce)) target then Some nonce
      else nonce_loop header target start_nonce (offset + 1) attempts
  end.

Definition FindGenesisNonce (params : ChainParams) (start_nonce attempts : Z) : option Z :=
  match Target.CompactToTarget (genesis_bits params) with
  | None => None
  | Some target =>
      nonce_loop (blk_header (BuildGenesisBlock params)) target start_nonce 0 (Z.to_nat attempts)
  end.

(** ** Lemmas *)

Lemma genesis_root params : exists root,
  Block_ComputeMerkleRoot (BuildGenesisBlock params) = Some root /\
  hdr_merkle_root (blk_header (BuildGenesisBlock params)) = root.
Proof.
  unfold BuildGenesisBlock, Block_ComputeMerkleRoot. cbn [blk_transactions blk_header hdr_merkle_root].
  destruct (Merkle.ComputeMerkleRoot_Some (map Wtxid [BuildGenesisCoinbase params])) as (? & _ & ->); eauto.
Qed.

(** The shape tests cannot fail: what is left is the target, the hash and the work. *)
Lemma CheckGenesis_eq params :
  CheckGenesis params =
  match Target.CompactToTarget (genesis_bits params) with
  | None => MalformedTarget
  | Some target =>
      if negb (bool_decide (Block_Hash (BuildGenesisBlock params) = genesis_hash params)) then HashMismatch
      else if negb (Target.HashMeetsTarget (Block_Hash (BuildGenesisBlock params)) target) then InsufficientWork
      else NoFault
  end.
Proof.
  unfold CheckGenesis. destruct (Target.CompactToTarget _) as [target|]; [|done].
  destruct (genesis_root params) as (root & -> & ->). rewrite bool_decide_eq_true_2 by done. reflexivity.
Qed.

Lemma nonce_loop_spec header target start n : forall offset,
  match nonce_loop header target start offset n with
  | Some nonce => exists k, offset <= k < offset + Z.of_nat n /\ nonce = wrapu 64 (start + k) /\
      Target.HashMeetsTarget (BlockHeader_Hash (with_nonce header nonce)) target = true /\
      forall j, offset <= j < k ->
        Target.HashMeetsTarget (BlockHeader_Hash (with_nonce header (wrapu 64 (start + j)))) target = false
  | None => forall j, offset <= j < offset + Z.of_nat n ->
      Target.HashMeetsTarget (BlockHeader_Hash (with_nonce header (wrapu 64 (start + j)))) target = false
  end.
Proof.
  induction n as [|n IH]; intros offset; cbn [nonce_loop]; [intros; lia|].
  destruct (Target.HashMeetsTarget _ target) eqn:E.
  { exists offset. split_and!; try done; lia. }
  specialize (IH (offset + 1)). destruct (nonce_loop _ _ _ _ n) as [nonce|].
  - destruct IH as (k & Hk & -> & Hm & Hj). exists k. split_and!; try done; try lia.
    intros j ?. destruct (decide (j = offset)) as [->|]; [done|]. apply Hj. lia.
  - intros j ?. destruct (decide (j = offset)) as [->|]; [done|]. apply IH. lia.
Qed.
End genesis.

(** The parameters with a nonce and the hash it gives recorded. *)
Definition record_genesis (p : ChainParams) (nonce : Z) (hash : bytes) : ChainParams := {|
  network := network p; net_name := net_name p; chain_id := chain_id p; magic := magic p;
  default_p2p_port := default_p2p_port p; default_rpc_port := default_rpc_port p;
  pow_limit_bits := pow_limit_bits p; genesis_bits := genesis_bits p;
  genesis_timestamp := genesis_timestamp p; genesis_nonce := nonce; genesis_hash := hash;
  target_block_seconds := target_block_seconds p; asert_half_life_seconds := asert_half_life_seconds p;
  coinbase_maturity := coinbase_maturity p; max_block_weight := max_block_weight p;
  block_limits := block_limits p; issuance := issuance p;
  allow_min_difficulty_blocks := allow_min_difficulty_blocks p; trivial_difficulty := trivial_difficulty p |}.

(** ** The theorems *)

(** The nonce search and the start-up check agree.  [CheckGenesis] passes
    exactly when the bits decode, the rebuilt block hashes to the recorded value
    and that hash meets the target (the shape tests can never fire); a nonce
    found by [FindGenesisNonce], recorded with its hash, always passes it and is
    the first that would; and when the search finds none, no nonce it covered
    meets the target. *)
Theorem genesis_search_passes_check `{Sha256Impl} (p : ChainParams) (start attempts : Z) (target : bytes)
    (Hd : Target.CompactToTarget (genesis_bits p) = Some target) :
  (CheckGenesis p = NoFault <->
     Block_Hash (BuildGenesisBlock p) = genesis_hash p /\
     Target.CheckProofOfWork (genesis_hash p) (genesis_bits p) = true) /\
  match FindGenesisNonce p start attempts with
  | Some nonce =>
      CheckGenesis (record_genesis p nonce
        (BlockHeader_Hash (with_nonce (blk_header (BuildGenesisBlock p)) nonce))) = NoFault
  | None => forall k, 0 <= k < attempts ->
      Target.CheckProofOfWork (BlockHeader_Hash (with_nonce (blk_header (BuildGenesisBlock p))
        (wrapu 64 (start + k)))) (genesis_bits p) = false
  end.
Proof.
  unfold FindGenesisNonce, Target.CheckProofOfWork. rewrite CheckGenesis_eq, Hd. split.
  - case_bool_decide as E; cbn [negb]; [|naive_solver]. rewrite E.
    destruct (Target.HashMeetsTarget _ _); naive_solver.
  - pose proof (nonce_loop_spec (blk_header (BuildGenesisBlock p)) target start (Z.to_nat attempts) 0) as L.
    destruct (nonce_loop _ _ _ _ _) as [nonce|].
    + destruct L as (k & _ & _ & Hm & _). rewrite CheckGenesis_eq. cbn [genesis_bits record_genesis]. rewrite Hd.
      rewrite bool_decide_eq_true_2 by done. cbn [negb].
      change (Block_Hash (BuildGenesisBlock (record_genesis p nonce _)))
        with (BlockHeader_Hash (with_nonce (blk_header (BuildGenesisBlock p)) nonce)). by rewrite Hm.
    + intros k Hk. apply L. lia.
Qed.

Lemma genesis_search_passes_check_witness :
  exists nonce, FindGenesisNonce (H := toy_Sha256Impl) REGTEST_PARAMS 5 10 = Some nonce /\
    CheckGenesis (H := toy_Sha256Impl) (record_genesis REGTEST_PARAMS nonce
      (BlockHeader_Hash (H := toy_Sha256Impl)
        (with_nonce (blk_header (BuildGenesisBlock (H := toy_Sha256Impl) REGTEST_PARAMS)) nonce))) = NoFault.
Proof.
  destruct (Target.CompactToTarget (genesis_bits REGTEST_PARAMS)) as [t|] eqn:E; [|vm_compute in E; discriminate].
  pose (genesis_search_passes_check (H := toy_Sha256Impl) REGTEST_PARAMS 5 10 t) as W0.
  destruct (W0 E) as [_ W]. clear W0.
  destruct (FindGenesisNonce (H := toy_Sha256Impl) REGTEST_PARAMS 5 10) as [nonce|] eqn:F;
    [|vm_compute in F; discriminate].
  exists nonce. split; [reflexivity|exact W].
Defined.

End Genesis.
