(* ===== verification/BlockIndex.v ===== *)
(** * The block index (chain/block_index.hpp, src/chain/block_index.cpp)

    Every known header as a tree, and the best tip among them.  An entry pointer
    is the entry's hash, its key in [entries_]: entries are owned by the index,
    never removed, and looked up again by hash whenever they change, so equality
    of pointers is equality of hashes and following a pointer is a lookup.  Walks
    along parent links take fuel; heights fall along them, so the fuel chosen is
    always enough, which the theorems prove rather than assume. *)

From Stdlib Require Import String.
From S2P Require Import Prelude Overflow Serialize Hex Crypto Primitives Target Work Asert Issuance Params Merkle Sighash Validation Genesis.
From stdpp Require Import gmap.
#[local] Open Scope Z_scope.

Module BlockIndex.
Import Params Validation.

(** ** Entries *)

Inductive BlockValidity := VHeader | VBody | VFull.

(** Declared in ascending order; comparison is by position. *)
Definition validity_level (v : BlockValidity) : Z := match v with VHeader => 0 | VBody => 1 | VFull => 2 end.

Inductive BlockFailure := FNone | FItself | FAncestor.

#[global] Instance BlockValidity_eq_dec : EqDecision BlockValidity.
Proof. solve_decision. Defined.
#[global] Instance BlockFailure_eq_dec : EqDecision BlockFailure.
Proof. solve_decision. Defined.

Record BlockIndexEntry := mkEntry {
  ent_header : BlockHeader;
  ent_hash : bytes;
  ent_height : Z;
  ent_total_work : bytes;
  ent_parent : option bytes;
  ent_validity : BlockValidity;
  ent_failure : BlockFailure;
  ent_sequence : Z }.

Definition IsEligible (e : BlockIndexEntry) : bool := bool_decide (ent_failure e = FNone).

Definition set_validity (v : BlockValidity) (e : BlockIndexEntry) : BlockIndexEntry :=
  mkEntry (ent_header e) (ent_hash e) (ent_height e) (ent_total_work e) (ent_parent e) v (ent_failure e)
    (ent_sequence e).

Definition set_failure (f : BlockFailure) (e : BlockIndexEntry) : BlockIndexEntry :=
  mkEntry (ent_header e) (ent_hash e) (ent_height e) (ent_total_work e) (ent_parent e) (ent_validity e) f
    (ent_sequence e).

Inductive IndexError := UnknownPredecessor | PredecessorInvalid | AlreadyRuledOut.

(** [std::variant<ValidationError, IndexError>] *)
Inductive HeaderError := RuleBroken (e : ValidationError) | NotPlaced (e : IndexError).

Definition Describe_index (error : IndexError) : string :=
  match error with
  | UnknownPredecessor => "the header's predecessor is not known"
  | PredecessorInvalid => "the header builds on a branch that was rejected"
  | AlreadyRuledOut => "the block has already been ruled out"
  end%string.

Definition Describe_header (error : HeaderError) : string :=
  match error with RuleBroken e => Describe e | NotPlaced e => Describe_index e end.

(** [std::expected<const BlockIndexEntry*, HeaderError>] *)
Inductive Indexed := Found (entry : bytes) | Refused (error : HeaderError).

(** ** The index *)

(** [children_] is a multimap; the order of equal keys is unspecified. *)
Record BlockIndex := mkIndex {
  entries_ : gmap bytes BlockIndexEntry;
  children_ : list (bytes * bytes);
  genesis_ : bytes;
  best_header_ : option bytes;
  next_sequence_ : Z }.

Definition Find (idx : BlockIndex) (hash : bytes) : option BlockIndexEntry := entries_ idx !! hash.

(** [e->parent], followed. *)
Definition parent (idx : BlockIndex) (e : BlockIndexEntry) : option BlockIndexEntry :=
  ent_parent e ≫= Find idx.

Definition Genesis (idx : BlockIndex) : option BlockIndexEntry := Find idx (genesis_ idx).
Definition BestHeader (idx : BlockIndex) : option bytes := best_header_ idx.
Definition Size (idx : BlockIndex) : Z := Z.of_nat (size (entries_ idx)).

(** [children_.equal_range(hash)] *)
Definition children_of (idx : BlockIndex) (hash : bytes) : list bytes :=
  (filter (fun pc : bytes * bytes => pc.1 = hash) (children_ idx)).*2.

Definition ChildrenOf (idx : BlockIndex) (e : BlockIndexEntry) : list bytes := children_of idx (ent_hash e).

(** *** Ancestors *)

(** The walk of [Ancestor]; [None] when the fuel runs out, [Some None] for null. *)
Fixpoint ancestor_loop (fuel : nat) (idx : BlockIndex) (walk : option BlockIndexEntry) (wanted : Z)
    : option (option BlockIndexEntry) :=
  match fuel with
  | O => None
  | S fuel =>
      match walk with
      | None => Some None
      | Some e => if wanted <? ent_height e then ancestor_loop fuel idx (parent idx e) wanted else Some walk
      end
  end.

(** Enough for a walk from [e] to the root and past it. *)
Definition walk_fuel (e : BlockIndexEntry) : nat := S (S (Z.to_nat (ent_height e))).

Definition Ancestor (idx : BlockIndex) (e : BlockIndexEntry) (wanted : Z) : option (option BlockIndexEntry) :=
  if ent_height e <? wanted then Some None
  else ancestor_loop (walk_fuel e) idx (Some e) wanted.

(** *** Selection *)

Definition IsBetterTip (candidate incumbent : BlockIndexEntry) : bool :=
  if negb (IsEligible candidate) then false
  else if negb (IsEligible incumbent) then true
  else if negb (bool_decide (ent_total_work candidate = ent_total_work incumbent))
  then match Work.compare (ent_total_work candidate) (ent_total_work incumbent) with Gt => true | _ => false end
  else ent_sequence candidate <? ent_sequence incumbent.

(** *** Context for a child *)

(** At most [count] timestamps, newest first. *)
Fixpoint collect_timestamps (count : nat) (idx : BlockIndex) (walk : option BlockIndexEntry) : list Z :=
  match count, walk with
  | S count, Some e => hdr_timestamp (ent_header e) :: collect_timestamps count idx (parent idx e)
  | _, _ => []
  end.

Definition MedianTimePastAt (idx : BlockIndex) (e : BlockIndexEntry) : Z :=
  MedianTimePast (rev (collect_timestamps (Z.to_nat MEDIAN_TIME_SPAN) idx (Some e))).

Definition NextTargetBits (parent : BlockIndexEntry) (params : ChainParams) : Z :=
  if trivial_difficulty params then pow_limit_bits params
  else AsertNextBitsFor params (ent_height parent) (hdr_timestamp (ent_header parent)).

Definition NextTargetBitsAt (parent : BlockIndexEntry) (candidate_timestamp : Z) (params : ChainParams) : Z :=
  if trivial_difficulty params then pow_limit_bits params
  else
    let spacing := target_block_seconds params in
    let time := hdr_timestamp (ent_header parent) in
    let gap_is_large :=
      (0 <? spacing) && (time <=? (2 ^ 63 - 1) - 2 * spacing) && (time + 2 * spacing <? candidate_timestamp) in
    if allow_min_difficulty_blocks params && gap_is_large then pow_limit_bits params
    else NextTargetBits parent params.

Definition HeaderContextFor (idx : BlockIndex) (parent : BlockIndexEntry) (now : Z) (params : ChainParams)
    (candidate_timestamp : option Z) : HeaderContext :=
  mkHeaderContext (ent_hash parent) (ent_height parent) (MedianTimePastAt idx parent)
    (NextTargetBitsAt parent (default now candidate_timestamp) params) now.

(** *** Planning a switch *)

Record ChainSwitch := mkSwitch {
  fork_point : option bytes;
  disconnect : list bytes;
  connect : list bytes }.

(** [while (older != nullptr && older->height > newer->height)] *)
Fixpoint lower_old (fuel : nat) (idx : BlockIndex) (older : option BlockIndexEntry) (height : Z) (walked : list bytes)
    : option (option BlockIndexEntry * list bytes) :=
  match fuel with
  | O => None
  | S fuel =>
      match older with
      | Some e =>
          if height <? ent_height e then lower_old fuel idx (parent idx e) height (walked ++ [ent_hash e])
          else Some (older, walked)
      | None => Some (None, walked)
      end
  end.

(** [while (newer != nullptr && (older == nullptr || newer->height > older->height))] *)
Fixpoint lower_new (fuel : nat) (idx : BlockIndex) (newer older : option BlockIndexEntry) (walked : list bytes)
    : option (option BlockIndexEntry * list bytes) :=
  match fuel with
  | O => None
  | S fuel =>
      match newer with
      | Some e =>
          if match older with None => true | Some o => ent_height o <? ent_height e end
          then lower_new fuel idx (parent idx e) older (walked ++ [ent_hash e])
          else Some (newer, walked)
      | None => Some (None, walked)
      end
  end.

(** Both back together until they meet. *)
Fixpoint meet (fuel : nat) (idx : BlockIndex) (older newer : option BlockIndexEntry) (old_walked new_walked : list bytes)
    : option (option BlockIndexEntry * option BlockIndexEntry * list bytes * list bytes) :=
  match fuel with
  | O => None
  | S fuel =>
      match older, newer with
      | Some o, Some n =>
          if bool_decide (ent_hash o = ent_hash n) then Some (older, newer, old_walked, new_walked)
          else meet fuel idx (parent idx o) (parent idx n) (old_walked ++ [ent_hash o]) (new_walked ++ [ent_hash n])
      | _, _ => Some (older, newer, old_walked, new_walked)
      end
  end.

Definition entry_fuel (e : option BlockIndexEntry) : nat := match e with Some e => walk_fuel e | None => 1 end.

Definition PlanChainSwitch (idx : BlockIndex) (from to : option BlockIndexEntry) : option ChainSwitch :=
  match to with
  | None => Some (mkSwitch None [] [])
  | Some target =>
      '(older, walked_old) ← lower_old (entry_fuel from) idx from (ent_height target) [];
      '(newer, walked_new) ← lower_new (entry_fuel to) idx to older [];
      '(older, newer, walked_old, walked_new) ← meet (entry_fuel older) idx older newer walked_old walked_new;
      Some (mkSwitch (if bool_decide (ent_hash <$> older = ent_hash <$> newer) then ent_hash <$> older else None)
              walked_old (rev walked_new))
  end.

(** *** Construction and growth *)

Section index.
Context `{Sha256Impl}.

Definition new_BlockIndex (genesis_header : BlockHeader) : BlockIndex :=
  let hash := BlockHeader_Hash genesis_header in
  let entry := mkEntry genesis_header hash (hdr_height genesis_header)
    (Work.OfCompactTarget (hdr_target_bits genesis_header)) None VFull FNone 0 in
  mkIndex {[hash := entry]} [] hash (Some hash) 1.

Definition ForNetwork (params : ChainParams) : BlockIndex :=
  new_BlockIndex (blk_header (Genesis.BuildGenesisBlock params)).

Definition AddHeader (header : BlockHeader) (now : Z) (params : ChainParams) (idx : BlockIndex)
    : Indexed * BlockIndex :=
  let hash := BlockHeader_Hash header in
  match Find idx hash with
  | Some existing => (Found (ent_hash existing), idx)
  | None =>
      match CheckBlockHeader header params with
      | Err e => (Refused (RuleBroken e), idx)
      | Ok _ =>
          match Find idx (hdr_prev_block header) with
          | None => (Refused (NotPlaced UnknownPredecessor), idx)
          | Some parent =>
              if negb (IsEligible parent) then (Refused (NotPlaced PredecessorInvalid), idx)
              else
                let context := HeaderContextFor idx parent now params (Some (hdr_timestamp header)) in
                match ContextualCheckBlockHeader header context params with
                | Err e => (Refused (RuleBroken e), idx)
                | Ok _ =>
                    let entry := mkEntry header hash (hdr_height header)
                      (Work.add (ent_total_work parent) (Work.OfCompactTarget (hdr_target_bits header)))
                      (Some (ent_hash parent)) VHeader FNone (next_sequence_ idx) in
                    let best :=
                      match best_header_ idx ≫= Find idx with
                      | None => Some hash
                      | Some best => if IsBetterTip entry best then Some hash else best_header_ idx
                      end in
                    (Found hash,
                     mkIndex (<[hash := entry]> (entries_ idx)) (children_ idx ++ [(hdr_prev_block header, hash)])
                       (genesis_ idx) best (wrapu 64 (next_sequence_ idx + 1)))
                end
          end
      end
  end.
End index.

(** *** Recording verdicts *)

Definition with_entries (idx : BlockIndex) (entries : gmap bytes BlockIndexEntry) : BlockIndex :=
  mkIndex entries (children_ idx) (genesis_ idx) (best_header_ idx) (next_sequence_ idx).

Definition RecordValidity (hash : bytes) (reached : BlockValidity) (idx : BlockIndex) : BlockIndex :=
  match Find idx hash with
  | None => idx
  | Some stored =>
      if validity_level (ent_validity stored) <? validity_level reached
      then with_entries idx (<[hash := set_validity reached stored]> (entries_ idx))
      else idx
  end.

(** [RescanForBestHeader]'s loop, over the entries in the map's order. *)
Fixpoint rescan (candidates : list BlockIndexEntry) (best : option BlockIndexEntry) : option BlockIndexEntry :=
  match candidates with
  | [] => best
  | candidate :: candidates =>
      if negb (IsEligible candidate) then rescan candidates best
      else rescan candidates
             (match best with
              | None => Some candidate
              | Some b => if IsBetterTip candidate b then Some candidate else best
              end)
  end.

Definition RescanForBestHeader (idx : BlockIndex) : BlockIndex :=
  mkIndex (entries_ idx) (children_ idx) (genesis_ idx)
    (ent_hash <$> rescan (map_to_list (entries_ idx)).*2 None) (next_sequence_ idx).

(** The inner loop of [RecordFailure]: mark the eligible children and push them. *)
Fixpoint mark_children (children : list bytes) (entries : gmap bytes BlockIndexEntry) (marked : Z) (frontier : list bytes)
    : gmap bytes BlockIndexEntry * Z * list bytes :=
  match children with
  | [] => (entries, marked, frontier)
  | child :: children =>
      match entries !! child with
      | Some descendant =>
          if negb (IsEligible descendant) then mark_children children entries marked frontier
          else mark_children children (<[child := set_failure FAncestor descendant]> entries) (marked + 1)
                 (child :: frontier)
      | None => mark_children children entries marked frontier
      end
  end.

(** The worklist, its back at the head of the list. *)
Fixpoint failure_loop (fuel : nat) (idx : BlockIndex) (entries : gmap bytes BlockIndexEntry) (marked : Z)
    (frontier : list bytes) : option (gmap bytes BlockIndexEntry * Z) :=
  match fuel with
  | O => None
  | S fuel =>
      match frontier with
      | [] => Some (entries, marked)
      | current :: frontier =>
          let '(entries, marked, frontier) := mark_children (children_of idx current) entries marked frontier in
          failure_loop fuel idx entries marked frontier
      end
  end.

Definition RecordFailure (hash : bytes) (idx : BlockIndex) : option (Z * BlockIndex) :=
  match Find idx hash with
  | None => Some (0, idx)
  | Some root =>
      if negb (IsEligible root) then Some (0, idx)
      else
        let entries := <[hash := set_failure FItself root]> (entries_ idx) in
        '(entries, marked) ← failure_loop (S (S (size (entries_ idx)))) idx entries 1 [hash];
        let idx := with_entries idx entries in
        let keep := match best_header_ idx ≫= Find idx with None => false | Some best => IsEligible best end in
        Some (marked, if keep then idx else RescanForBestHeader idx)
  end.

(** ** The selection order *)

Definition eligible (e : BlockIndexEntry) : Prop := ent_failure e = FNone.

Lemma IsEligible_true e : IsEligible e = true <-> eligible e.
Proof. apply bool_decide_eq_true. Qed.

Lemma IsEligible_false e : IsEligible e = false <-> ~ eligible e.
Proof. apply bool_decide_eq_false. Qed.

(** The accumulated work as a number. *)
Definition work_of (e : BlockIndexEntry) : Z := be_val (ent_total_work e).

(** More work, or the same work and seen first. *)
Definition heavier (a b : BlockIndexEntry) : Prop :=
  work_of b < work_of a \/ (work_of a = work_of b /\ ent_sequence a < ent_sequence b).

Lemma IsBetterTip_iff a b : Work.is_work (ent_total_work a) -> Work.is_work (ent_total_work b) ->
  IsBetterTip a b = true <-> eligible a /\ (~ eligible b \/ heavier a b).
Proof.
  intros Wa Wb. unfold IsBetterTip, heavier, work_of.
  destruct (IsEligible a) eqn:Ea; cbn [negb];
    [|apply IsEligible_false in Ea; split; [done|]; by intros [? _]].
  apply IsEligible_true in Ea. destruct (IsEligible b) eqn:Eb; cbn [negb].
  2:{ apply IsEligible_false in Eb. tauto. }
  apply IsEligible_true in Eb. case_bool_decide as Ew; cbn [negb].
  - rewrite Ew, Z.ltb_lt. split; [intros; split; [done|]; right; right; lia|].
    intros [_ [N|[?|[? ?]]]]; [by destruct N|lia|lia].
  - assert (be_val (ent_total_work a) <> be_val (ent_total_work b)) as Hne.
    { intros E. apply Ew. apply be_val_inj; [|done]. unfold Work.is_work in *. congruence. }
    unfold Work.compare. rewrite lex_compare_be_val by (unfold Work.is_work in *; congruence).
    destruct (Z.compare_spec (be_val (ent_total_work a)) (be_val (ent_total_work b))) as [E|E|E].
    + by destruct Hne.
    + split; [done|]. intros [_ [N|[?|[? ?]]]]; [by destruct N|lia|lia].
    + split; [|done]. intros _. split; [done|]. right. left. lia.
Qed.

(** ** The invariant of the index *)

Section invariant.
Context `{SH : Sha256Impl}.

(** What links an entry to its predecessor. *)
Definition linked (idx : BlockIndex) (e : BlockIndexEntry) : Prop :=
  exists p pe, ent_parent e = Some p /\ hdr_prev_block (ent_header e) = p /\ Find idx p = Some pe /\
    ent_height e = ent_height pe + 1 /\
    ent_total_work e = Work.add (ent_total_work pe) (Work.OfCompactTarget (hdr_target_bits (ent_header e))) /\
    (eligible e -> eligible pe).

Definition entry_ok (h : bytes) (e : BlockIndexEntry) : Prop :=
  ent_hash e = h /\ BlockHeader_Hash (ent_header e) = h /\ ent_height e = hdr_height (ent_header e) /\
  0 <= ent_height e < 2 ^ 32 /\ Work.is_work (ent_total_work e) /\ u32 (hdr_target_bits (ent_header e)).

(** The best tip is eligible and nothing known is better. *)
Definition best_ok (idx : BlockIndex) : Prop :=
  match best_header_ idx with
  | None => forall h e, Find idx h = Some e -> ~ eligible e
  | Some b => exists be, Find idx b = Some be /\ eligible be /\
      forall h e, Find idx h = Some e -> IsBetterTip e be = false
  end.

Record index_inv (idx : BlockIndex) : Prop := {
  inv_entry h e : Find idx h = Some e -> entry_ok h e;
  inv_genesis : exists g, Find idx (genesis_ idx) = Some g /\ ent_parent g = None /\ ent_height g = 0;
  inv_linked h e : Find idx h = Some e -> h <> genesis_ idx -> linked idx e;
  inv_sequence h e : Find idx h = Some e -> 0 <= ent_sequence e < next_sequence_ idx;
  inv_unique h h' e e' : Find idx h = Some e -> Find idx h' = Some e' ->
    ent_sequence e = ent_sequence e' -> h = h';
  inv_children p c : (p, c) ∈ children_ idx <-> exists e, Find idx c = Some e /\ ent_parent e = Some p;
  inv_next : next_sequence_ idx = Size idx;
  inv_best : best_ok idx }.

Lemma inv_is_work idx h e : index_inv idx -> Find idx h = Some e -> Work.is_work (ent_total_work e).
Proof. intros I E. by apply (inv_entry _ I) in E as (_ & _ & _ & _ & ? & _). Qed.

Lemma inv_hash idx h e : index_inv idx -> Find idx h = Some e -> ent_hash e = h.
Proof. intros I E. by apply (inv_entry _ I) in E as (? & _). Qed.

Lemma inv_height idx h e : index_inv idx -> Find idx h = Some e -> 0 <= ent_height e < 2 ^ 32.
Proof. intros I E. by apply (inv_entry _ I) in E as (_ & _ & _ & ? & _). Qed.

(** Only genesis has no parent. *)
Lemma inv_parent idx h e : index_inv idx -> Find idx h = Some e ->
  (h = genesis_ idx /\ ent_parent e = None /\ ent_height e = 0) \/
  (exists p pe, ent_parent e = Some p /\ Find idx p = Some pe /\ parent idx e = Some pe /\
    ent_height e = ent_height pe + 1 /\ (eligible e -> eligible pe)).
Proof.
  intros I E. destruct (decide (h = genesis_ idx)) as [->|Hne].
  - left. destruct (inv_genesis _ I) as (g & Eg & Pg & Hg). rewrite E in Eg. by injection Eg as <-.
  - right. destruct (inv_linked _ I h e E Hne) as (p & pe & Ep & _ & Fp & Hh & _ & He).
    exists p, pe. unfold parent. rewrite Ep. cbn. done.
Qed.

Lemma OfCompactTarget_is_work bits : u32 bits -> Work.is_work (Work.OfCompactTarget bits).
Proof.
  intros U. unfold Work.OfCompactTarget. destruct (Target.CompactToTarget bits) as [t|] eqn:E; [|done].
  apply (Target.CompactToTarget_iff bits t U) in E as (Ht & _). by apply Work.OfTarget_value.
Qed.

(** *** A fresh index *)

Lemma new_BlockIndex_inv g : hdr_height g = 0 -> u32 (hdr_target_bits g) -> index_inv (new_BlockIndex g).
Proof.
  intros Hh Hb. unfold new_BlockIndex.
  assert (forall h e, Find (new_BlockIndex g) h = Some e -> h = BlockHeader_Hash g /\
    e = mkEntry g (BlockHeader_Hash g) (hdr_height g) (Work.OfCompactTarget (hdr_target_bits g)) None VFull FNone 0)
    as Hf.
  { intros h e. unfold Find. cbn. rewrite lookup_singleton_Some. naive_solver. }
  split; cbn.
  - intros h e [-> ->]%Hf. unfold entry_ok. cbn. rewrite Hh. split_and!; try done. by apply OfCompactTarget_is_work.
  - unfold Find. cbn. rewrite lookup_singleton_eq. eauto.
  - by intros h e [-> ->]%Hf.
  - intros h e [-> ->]%Hf. cbn. lia.
  - by intros h h' e e' [-> ->]%Hf [-> ->]%Hf.
  - intros p c. split; [by intros ?%elem_of_nil|]. by intros (e & [-> ->]%Hf & ?).
  - unfold Size. cbn. by rewrite map_size_singleton.
  - unfold best_ok. cbn. unfold Find at 1. cbn. rewrite lookup_singleton_eq. eexists. split_and!; [done|done|].
    intros h e [-> ->]%Hf. unfold IsBetterTip. cbn. rewrite bool_decide_eq_true_2 by done. done.
Qed.

(** *** Adding a header *)

Lemma contextual_links header ctx params : ContextualCheckBlockHeader header ctx params = Accept ->
  0 <= prev_height ctx < 2 ^ 32 ->
  hdr_prev_block header = prev_hash ctx /\ hdr_height header = prev_height ctx + 1 /\ hdr_height header < 2 ^ 32.
Proof.
  unfold ContextualCheckBlockHeader. intros E Hr. case_bool_decide; cbn [negb] in E; [|done].
  destruct (Z.eqb_spec (prev_height ctx) (2 ^ 32 - 1)); cbn [orb] in E; [done|].
  destruct (Z.eqb_spec (hdr_height header) (wrapu 32 (prev_height ctx + 1))) as [Eh|]; cbn [negb] in E; [|done].
  rewrite wrapu_small in Eh by lia. split_and!; [done|done|lia].
Qed.

(** What a successful insertion knows. *)
Lemma AddHeader_new header now params idx : index_inv idx -> Find idx (BlockHeader_Hash header) = None ->
  (exists error, AddHeader header now params idx = (Refused error, idx)) \/
  (exists pe best, CheckBlockHeader header params = Accept /\
    Find idx (hdr_prev_block header) = Some pe /\ eligible pe /\
    ContextualCheckBlockHeader header
      (HeaderContextFor idx pe now params (Some (hdr_timestamp header))) params = Accept /\
    hdr_height header = ent_height pe + 1 /\ hdr_height header < 2 ^ 32 /\
    let e := mkEntry header (BlockHeader_Hash header) (hdr_height header)
      (Work.add (ent_total_work pe) (Work.OfCompactTarget (hdr_target_bits header)))
      (Some (hdr_prev_block header)) VHeader FNone (next_sequence_ idx) in
    AddHeader header now params idx =
      (Found (BlockHeader_Hash header),
       mkIndex (<[BlockHeader_Hash header := e]> (entries_ idx))
         (children_ idx ++ [(hdr_prev_block header, BlockHeader_Hash header)]) (genesis_ idx) best
         (wrapu 64 (next_sequence_ idx + 1))) /\
    match best_header_ idx ≫= Find idx with
    | None => best = Some (BlockHeader_Hash header)
    | Some b => best = if IsBetterTip e b then Some (BlockHeader_Hash header) else best_header_ idx
    end).
Proof.
  intros I Hn. unfold AddHeader. rewrite Hn. destruct (CheckBlockHeader header params) as [[]|e]; [|left; eauto].
  destruct (Find idx (hdr_prev_block header)) as [pe|] eqn:Ep; [|left; eauto].
  destruct (IsEligible pe) eqn:El; cbn [negb]; [|left; eauto]. apply IsEligible_true in El.
  destruct (ContextualCheckBlockHeader _ _ _) as [[]|e] eqn:C; [|left; eauto].
  pose proof C as (_ & Hh & Hlt)%contextual_links; [|by apply (inv_height _ _ _ I Ep)].
  right. rewrite (inv_hash _ _ _ I Ep). eexists pe, _. split_and!; try done.
  by destruct (best_header_ idx ≫= Find idx).
Qed.

Lemma best_lookup idx : index_inv idx ->
  (best_header_ idx = None /\ forall h e, Find idx h = Some e -> ~ eligible e) \/
  (exists b be, best_header_ idx = Some b /\ (best_header_ idx ≫= Find idx) = Some be /\ Find idx b = Some be /\
    eligible be /\ forall h e, Find idx h = Some e -> IsBetterTip e be = false).
Proof.
  intros I. pose proof (inv_best _ I) as B. unfold best_ok in B. destruct (best_header_ idx) as [b|]; [|by left].
  right. destruct B as (be & Eb & El & Hb). exists b, be. split_and!; done.
Qed.

Lemma AddHeader_inv header now params idx : index_inv idx -> u32 (hdr_target_bits header) ->
  Size idx < 2 ^ 64 - 1 -> index_inv (AddHeader header now params idx).2.
Proof.
  intros I Hb Hs. destruct (Find idx (BlockHeader_Hash header)) as [e|] eqn:Hn.
  { unfold AddHeader. by rewrite Hn. }
  destruct (AddHeader_new header now params idx I Hn)
    as [[error ->]|(pe & best & _ & Ep & El & _ & Hh & Hlt & -> & Hbest)]; [done|]. cbn [snd].
  set (e := mkEntry _ _ _ _ _ _ _ _) in *. set (hash := BlockHeader_Hash header) in *.
  set (idx' := mkIndex _ _ _ _ _).
  assert (forall h x, Find idx' h = Some x <-> (h = hash /\ x = e) \/ (h <> hash /\ Find idx h = Some x)) as Hf.
  { intros h x. unfold Find. cbn. rewrite lookup_insert_Some. naive_solver. }
  assert (forall h x, Find idx h = Some x -> Find idx' h = Some x /\ h <> hash) as Hold.
  { intros h x E. assert (h <> hash) by (intros ->; congruence). rewrite Hf. auto. }
  assert (Work.is_work (ent_total_work e)) as We.
  { apply Work.add_spec; [by eapply inv_is_work|by apply OfCompactTarget_is_work]. }
  assert (next_sequence_ idx' = next_sequence_ idx + 1) as Enext.
  { cbn. pose proof (inv_next _ I). unfold Size in *. rewrite wrapu_small by lia. done. }
  split.
  - intros h x [[-> ->]|[_ E]]%Hf; [|by apply (inv_entry _ I)].
    unfold entry_ok. cbn. pose proof (inv_height _ _ _ I Ep). split_and!; try done; lia.
  - destruct (inv_genesis _ I) as (g & Eg & Hg). exists g. split; [by apply Hold|done].
  - intros h x E Hng. apply Hf in E as [[-> ->]|[_ E]].
    + exists (hdr_prev_block header), pe. cbn. split_and!; try done. by apply Hold.
    + destruct (inv_linked _ I h x E Hng) as (q & qe & ? & ? & Eq & ?). exists q, qe.
      split_and!; try (by destruct_and?); try done. by apply Hold.
  - intros h x E. rewrite Enext. apply Hf in E as [[-> ->]|[_ E]].
    + cbn. pose proof (inv_next _ I). unfold Size in *. lia.
    + pose proof (inv_sequence _ I h x E). lia.
  - assert (forall h x, Find idx h = Some x -> ent_sequence x <> ent_sequence e) as Hd.
    { intros h x E. pose proof (inv_sequence _ I h x E). cbn. lia. }
    intros h h' x x' [[-> ->]|[_ E]]%Hf [[-> ->]|[_ E']]%Hf Hq; [done| | |].
    + symmetry in Hq. by apply Hd in E'.
    + by apply Hd in E.
    + by eapply (inv_unique _ I).
  - intros q c. cbn. rewrite elem_of_app, list_elem_of_singleton, (inv_children _ I). split.
    + intros [(x & E & Px)|[= -> ->]]; [exists x; split; [by apply Hold|done]|].
      exists e. split; [rewrite Hf; by left|done].
    + intros (x & [[-> ->]|[_ E]]%Hf & Px); [right|left; eauto]. cbn in Px. by injection Px as <-.
  - rewrite Enext, (inv_next _ I). unfold Size. cbn. rewrite map_size_insert_None by exact Hn. lia.
  - unfold best_ok. cbn. destruct (best_lookup idx I) as [[Eb Hb0]|(b & be & Eb & Eb' & Fb & Elb & Hbb)].
    + rewrite Eb in Hbest. cbn in Hbest. subst best. exists e. split_and!; [rewrite Hf; by left|done|].
      intros h x [[-> ->]|[_ E]]%Hf.
      * unfold IsBetterTip. cbn. rewrite bool_decide_eq_true_2, Z.ltb_irrefl by done. done.
      * apply Hb0 in E. unfold IsBetterTip. by rewrite (proj2 (IsEligible_false x) E).
    + rewrite Eb' in Hbest. pose proof (inv_is_work _ _ _ I Fb) as Wb. subst best.
      destruct (IsBetterTip e be) eqn:Et.
      * exists e. split_and!; [rewrite Hf; by left|done|]. apply IsBetterTip_iff in Et as [_ [?|Het]]; try done.
        intros h x [[-> ->]|[_ E]]%Hf; apply not_true_iff_false.
        -- intros [_ [?|?]]%IsBetterTip_iff; unfold heavier in *; try done; lia.
        -- pose proof (inv_is_work _ _ _ I E) as Wx. intros [Ex [?|Hx]]%IsBetterTip_iff; try done.
           apply Hbb in E. apply not_true_iff_false in E. apply E. apply IsBetterTip_iff; try done.
           split; [done|]. right. unfold heavier in *. lia.
      * rewrite Eb. exists be. split_and!; [by apply Hold|done|].
        intros h x [[-> ->]|[_ E]]%Hf; [done|by eapply Hbb].
Qed.

(** *** Changing only verdicts *)

(** Equal but for the recorded verdicts. *)
Definition same_place (e e' : BlockIndexEntry) : Prop :=
  ent_header e = ent_header e' /\ ent_hash e = ent_hash e' /\ ent_height e = ent_height e' /\
  ent_total_work e = ent_total_work e' /\ ent_parent e = ent_parent e' /\ ent_sequence e = ent_sequence e'.

(** The same tree with other verdicts on it. *)
Record same_tree (idx idx' : BlockIndex) : Prop := {
  tree_entries h : option_Forall2 same_place (Find idx h) (Find idx' h);
  tree_children : children_ idx' = children_ idx;
  tree_genesis : genesis_ idx' = genesis_ idx;
  tree_next : next_sequence_ idx' = next_sequence_ idx }.

#[global] Instance same_place_equiv : Equivalence same_place.
Proof.
  unfold same_place. split.
  - by intros e.
  - intros e e'. naive_solver.
  - intros e e' e'' H H'. destruct_and?. split_and!; congruence.
Qed.

#[global] Instance same_tree_trans : Transitive same_tree.
Proof.
  intros a b c [E C G N] [E' C' G' N']. split; [|congruence..]. intros h.
  specialize (E h). specialize (E' h). inversion E as [x y S Ex Ey|Ex Ey]; rewrite <- Ey in E';
    inversion E'; constructor. by etrans.
Qed.

Lemma same_tree_find idx idx' h e' : same_tree idx idx' -> Find idx' h = Some e' ->
  exists e, Find idx h = Some e /\ same_place e e'.
Proof. intros T E. pose proof (tree_entries _ _ T h) as S. rewrite E in S. inversion S. eauto. Qed.

Lemma same_tree_find_r idx idx' h e : same_tree idx idx' -> Find idx h = Some e ->
  exists e', Find idx' h = Some e' /\ same_place e e'.
Proof. intros T E. pose proof (tree_entries _ _ T h) as S. rewrite E in S. inversion S. eauto. Qed.

Lemma same_tree_size idx idx' : same_tree idx idx' -> Size idx' = Size idx.
Proof.
  intros T. unfold Size. rewrite <- !size_dom. do 2 f_equal. apply set_eq. intros h.
  rewrite !elem_of_dom. pose proof (tree_entries _ _ T h) as S. unfold Find in S. by destruct S.
Qed.

(** No eligible entry below an ineligible one. *)
Definition closed (idx : BlockIndex) : Prop := forall h e p pe,
  Find idx h = Some e -> ent_parent e = Some p -> Find idx p = Some pe -> eligible e -> eligible pe.

Lemma inv_closed idx : index_inv idx -> closed idx.
Proof.
  intros I h e p pe E Ep Epe El. destruct (inv_parent _ _ _ I E) as [(_ & ? & _)|(q & qe & Eq & Fq & _ & _ & ?)].
  - congruence.
  - rewrite Ep in Eq. injection Eq as <-. rewrite Fq in Epe. injection Epe as <-. auto.
Qed.

Lemma same_tree_inv idx idx' : index_inv idx -> same_tree idx idx' -> closed idx' -> best_ok idx' -> index_inv idx'.
Proof.
  intros I T Hc Hb. pose proof (tree_genesis _ _ T) as G. split.
  - intros h e' E'. destruct (same_tree_find _ _ _ _ T E') as (e & E & S).
    destruct (inv_entry _ I h e E) as (? & ? & ? & ? & ? & ?). destruct S as (S1 & S2 & S3 & S4 & S5 & S6).
    unfold entry_ok. rewrite <- S1, <- S2, <- S3, <- S4. done.
  - rewrite G. destruct (inv_genesis _ I) as (g & Eg & Pg & Hg).
    destruct (same_tree_find_r _ _ _ _ T Eg) as (g' & Eg' & (_ & _ & S3 & _ & S5 & _)).
    exists g'. split_and!; congruence.
  - intros h e' E' Hne. rewrite G in Hne. destruct (same_tree_find _ _ _ _ T E') as (e & E & S).
    destruct (inv_linked _ I h e E Hne) as (q & pe & Eq & Ep & Epe & Hh & Hw & _).
    destruct (same_tree_find_r _ _ _ _ T Epe) as (pe' & Epe' & S').
    destruct S as (S1 & S2 & S3 & S4 & S5 & S6), S' as (S1' & S2' & S3' & S4' & S5' & S6').
    exists q, pe'. rewrite <- S1, <- S3, <- S4, <- S5, <- S3', <- S4'. split_and!; try done.
    apply (Hc h e' q pe'); try done. congruence.
  - intros h e' E'. destruct (same_tree_find _ _ _ _ T E') as (e & E & (_ & _ & _ & _ & _ & S6)).
    rewrite <- S6, (tree_next _ _ T). by apply (inv_sequence _ I h e).
  - intros h h' x' y' Ex' Ey' Eq. destruct (same_tree_find _ _ _ _ T Ex') as (x & Ex & (_ & _ & _ & _ & _ & Sx)),
      (same_tree_find _ _ _ _ T Ey') as (y & Ey & (_ & _ & _ & _ & _ & Sy)).
    eapply (inv_unique _ I); [exact Ex|exact Ey|congruence].
  - intros q c. rewrite (tree_children _ _ T), (inv_children _ I). split.
    + intros (e & E & Ep). destruct (same_tree_find_r _ _ _ _ T E) as (e' & E' & (_ & _ & _ & _ & S5 & _)).
      exists e'. split; congruence.
    + intros (e' & E' & Ep). destruct (same_tree_find _ _ _ _ T E') as (e & E & (_ & _ & _ & _ & S5 & _)).
      exists e. split; congruence.
  - by rewrite (tree_next _ _ T), (same_tree_size _ _ T), (inv_next _ I).
  - done.
Qed.

(** One entry replaced by another in the same place. *)
Lemma same_tree_insert idx h e e' : Find idx h = Some e -> same_place e e' ->
  same_tree idx (with_entries idx (<[h := e']> (entries_ idx))).
Proof.
  intros E S. split; try done. intros k. unfold Find, with_entries in *. cbn.
  destruct (decide (k = h)) as [->|].
  - rewrite E, lookup_insert_eq. by constructor.
  - rewrite lookup_insert_ne by done. destruct (entries_ idx !! k); by constructor.
Qed.

Lemma IsBetterTip_same a b a' b' : same_place a a' -> same_place b b' -> ent_failure a = ent_failure a' ->
  ent_failure b = ent_failure b' -> IsBetterTip a b = IsBetterTip a' b'.
Proof.
  intros (_ & _ & _ & Wa & _ & Sa) (_ & _ & _ & Wb & _ & Sb) Fa Fb. unfold IsBetterTip, IsEligible.
  by rewrite Wa, Wb, Sa, Sb, Fa, Fb.
Qed.

Lemma RecordValidity_inv h v idx : index_inv idx ->
  index_inv (RecordValidity h v idx) /\ same_tree idx (RecordValidity h v idx) /\
  forall k, option_Forall2 (fun e e' => ent_failure e = ent_failure e') (Find idx k) (Find (RecordValidity h v idx) k).
Proof.
  intros I. assert (same_tree idx idx) as T0.
  { by split. }
  assert (forall k, option_Forall2 (fun e e' => ent_failure e = ent_failure e') (Find idx k) (Find idx k)) as F0.
  { intros k. destruct (Find idx k); by constructor. }
  unfold RecordValidity. destruct (Find idx h) as [e|] eqn:E; [|done]. destruct (_ <? _); [|done].
  set (idx' := with_entries _ _).
  assert (same_tree idx idx') as T by (by eapply same_tree_insert).
  assert (forall k, option_Forall2 (fun e e' => ent_failure e = ent_failure e') (Find idx k) (Find idx' k)) as F.
  { intros k. unfold idx', Find, with_entries in *. cbn. destruct (decide (k = h)) as [->|].
    - rewrite E, lookup_insert_eq. by constructor.
    - rewrite lookup_insert_ne by done. destruct (entries_ idx !! k); by constructor. }
  assert (forall k x', Find idx' k = Some x' -> exists x, Find idx k = Some x /\ same_place x x' /\
    ent_failure x = ent_failure x') as Fx.
  { intros k x' Ex'. destruct (same_tree_find _ _ _ _ T Ex') as (x & Ex & S). exists x. split_and!; [done|done|].
    specialize (F k). rewrite Ex, Ex' in F. by inversion F. }
  split_and!; [|done|done]. apply (same_tree_inv idx); try done.
  - intros k x' q qe' (x & Ex & S & Fe)%Fx Eq (qe & Eqe & _ & Fq)%Fx. unfold eligible. rewrite <- Fe, <- Fq.
    destruct S as (_ & _ & _ & _ & S5 & _). rewrite <- S5 in Eq. by apply (inv_closed _ I k x q qe).
  - unfold best_ok. change (best_header_ idx') with (best_header_ idx).
    destruct (best_lookup idx I) as [[-> Hb]|(b & be & -> & _ & Eb & El & Hb)].
    + intros k x' (x & Ex & _ & Fe)%Fx. unfold eligible. rewrite <- Fe. by eapply Hb.
    + destruct (same_tree_find_r _ _ _ _ T Eb) as (be' & Eb' & _).
      pose proof Eb' as (be0 & Eb0 & S & Fe)%Fx. rewrite Eb in Eb0. injection Eb0 as <-.
      exists be'. split_and!; [done|unfold eligible; by rewrite <- Fe|].
      intros k x' (x & Ex & Sx & Fx')%Fx. rewrite <- (IsBetterTip_same x be) by done. by eapply Hb.
Qed.

(** *** Ruling out a branch *)

(** [a] is [c] or an ancestor of it. *)
Inductive descends (idx : BlockIndex) (a : bytes) : bytes -> Prop :=
  | desc_self : descends idx a a
  | desc_child c e p : Find idx c = Some e -> ent_parent e = Some p -> descends idx a p -> descends idx a c.

#[global] Instance eligible_dec e : Decision (eligible e).
Proof. unfold eligible. apply _. Defined.

(** How many entries are still candidates. *)
Definition candidates (m : gmap bytes BlockIndexEntry) : nat :=
  size (filter (fun he : bytes * BlockIndexEntry => eligible he.2) m).

Lemma candidates_mark m h e f : m !! h = Some e -> eligible e -> f <> FNone ->
  S (candidates (<[h := set_failure f e]> m)) = candidates m.
Proof.
  intros E El Hf. unfold candidates. rewrite map_filter_insert_False by done.
  rewrite map_filter_delete. rewrite map_size_delete_Some; [|exists e; by apply map_lookup_filter_Some].
  assert (size (filter (fun he : bytes * BlockIndexEntry => eligible he.2) m) <> 0)%nat; [|lia].
  apply map_size_non_empty_iff. intros Hem. eapply (lookup_empty_Some h e). rewrite <- Hem.
  by apply map_lookup_filter_Some.
Qed.

Lemma candidates_le m : (candidates m <= size m)%nat.
Proof. apply map_size_filter. Qed.

Lemma mark_children_spec cs : forall m k fr m' k' fr', mark_children cs m k fr = (m', k', fr') ->
  exists ms, fr' = ms ++ fr /\ k' = k + zlen ms /\ (candidates m' + length ms = candidates m)%nat /\
    (forall h, h ∈ ms -> h ∈ cs /\ exists e, m !! h = Some e /\ eligible e) /\
    (forall h, m' !! h = if decide (h ∈ ms) then set_failure FAncestor <$> m !! h else m !! h) /\
    (forall c e, c ∈ cs -> m' !! c = Some e -> ~ eligible e).
Proof.
  induction cs as [|c cs IH]; intros m k fr m' k' fr'; cbn [mark_children].
  { intros [= <- <- <-]. exists []. split_and!; [done|unfold zlen; simpl; lia|simpl; lia|set_solver|done|set_solver]. }
  destruct (m !! c) as [d|] eqn:Ed; [destruct (IsEligible d) eqn:Ei; cbn [negb]|].
  - apply IsEligible_true in Ei. intros (ms & -> & -> & Hc & Hm & Hl & Hd)%IH. exists (ms ++ [c]).
    assert (c ∉ ms) as Hn.
    { intros (_ & e & Ee & El)%Hm. rewrite lookup_insert_eq in Ee. by injection Ee as <-. }
    pose proof (candidates_mark m c d FAncestor Ed Ei ltac:(done)).
    split_and!; [by rewrite <- app_assoc|unfold zlen; rewrite length_app; simpl; lia|rewrite length_app; simpl; lia| | |].
    + intros h [Hh%Hm|Hh%list_elem_of_singleton]%elem_of_app; [|subst; by split; [left|exists d]].
      destruct Hh as (? & e & Ee & El). split; [by right|]. destruct (decide (h = c)) as [->|]; [by exists d|].
      rewrite lookup_insert_ne in Ee by done. by exists e.
    + intros h. rewrite Hl. destruct (decide (h = c)) as [->|Hne].
      * rewrite decide_False by done. rewrite decide_True by set_solver. by rewrite lookup_insert_eq, Ed.
      * rewrite lookup_insert_ne by done. destruct (decide (h ∈ ms)); [rewrite decide_True by set_solver|
          rewrite decide_False by set_solver]; done.
    + intros x e [->|Hx]%elem_of_cons Ee; [|by eapply Hd]. rewrite Hl, decide_False, lookup_insert_eq in Ee by done.
      by injection Ee as <-.
  - apply IsEligible_false in Ei. intros (ms & -> & -> & Hc & Hm & Hl & Hd)%IH. exists ms. split_and!; try done.
    + intros h Hh%Hm. destruct Hh as [? ?]. split; [by right|done].
    + intros x e [->|Hx]%elem_of_cons Ee; [|by eapply Hd]. rewrite Hl, Ed in Ee. destruct (decide _); cbn in Ee.
      * by injection Ee as <-.
      * by injection Ee as <-.
  - intros (ms & -> & -> & Hc & Hm & Hl & Hd)%IH. exists ms. split_and!; try done.
    + intros h Hh%Hm. destruct Hh as [? ?]. split; [by right|done].
    + intros x e [->|Hx]%elem_of_cons Ee; [|by eapply Hd]. rewrite Hl, Ed in Ee. by destruct (decide _).
Qed.

Lemma elem_children_of idx p c : c ∈ children_of idx p <-> (p, c) ∈ children_ idx.
Proof.
  unfold children_of. rewrite list_elem_of_fmap. split.
  - intros ([q d] & -> & [Hq Hin]%list_elem_of_filter). cbn in *. by subst.
  - intros Hin. exists (p, c). split; [done|]. by apply list_elem_of_filter.
Qed.

(** What one entry may have become while the branch of [root] is ruled out. *)
Definition fallen (idx : BlockIndex) (root h : bytes) (e e' : BlockIndexEntry) : Prop :=
  same_place e e' /\ ent_validity e = ent_validity e' /\
  (ent_failure e' = ent_failure e \/
   (eligible e /\ descends idx root h /\ ent_failure e' = if decide (h = root) then FItself else FAncestor)).

(** The worklist invariant: an eligible entry under an ineligible parent waits
    for that parent to be popped. *)
Record marking (idx : BlockIndex) (root : bytes) (m : gmap bytes BlockIndexEntry) (k : Z) (frontier : list bytes) : Prop := {
  mk_fallen h : option_Forall2 (fallen idx root h) (entries_ idx !! h) (m !! h);
  mk_pending h e p pe : m !! h = Some e -> ent_parent e = Some p -> m !! p = Some pe -> eligible e ->
    eligible pe \/ p ∈ frontier;
  mk_frontier h : h ∈ frontier -> descends idx root h;
  mk_root e : m !! root = Some e -> ~ eligible e;
  mk_count : k + Z.of_nat (candidates m) = Z.of_nat (candidates (entries_ idx)) }.

Lemma marking_step idx root m k current frontier m' k' frontier' : index_inv idx ->
  marking idx root m k (current :: frontier) ->
  mark_children (children_of idx current) m k frontier = (m', k', frontier') ->
  marking idx root m' k' frontier' /\
  (length frontier' + candidates m' = length frontier + candidates m)%nat.
Proof.
  intros I M (ms & -> & -> & Hc & Hm & Hl & Hd)%mark_children_spec. split; [|rewrite length_app; lia].
  assert (forall h, h ∈ ms -> descends idx root h /\ h <> root) as Hms.
  { intros h Hh. destruct (Hm h Hh) as [Hin (e & Ee & El)]. apply elem_children_of, (inv_children _ I) in Hin as (x & Ex & Px).
    split; [|intros ->; by eapply (mk_root _ _ _ _ _ M)].
    eapply desc_child; [exact Ex|exact Px|]. apply (mk_frontier _ _ _ _ _ M). left. }
  split.
  - intros h. pose proof (mk_fallen _ _ _ _ _ M h) as F. rewrite Hl. destruct (decide (h ∈ ms)) as [Hh|]; [|done].
    destruct (Hms h Hh) as [Hr Hne]. destruct (Hm h Hh) as [_ (e & Ee & El)]. rewrite Ee in *.
    inversion F as [e0 ? (S & V & [Ef|(El0 & _ & Ef)]) E0|]; subst; cbn; constructor.
    + destruct S as (? & ? & ? & ? & ? & ?). split_and!; try done. right. unfold eligible in *. rewrite decide_False by done.
      split_and!; congruence || done.
    + unfold eligible in El. rewrite Ef in El. by destruct (decide _).
  - intros h e q qe Eh Eq Eqe El. rewrite Hl in Eh. destruct (decide (h ∈ ms)) as [Hh|Hh].
    { destruct (m !! h); [|done]. cbn in Eh. injection Eh as <-. done. }
    destruct (decide (q ∈ ms)) as [Hq|Hq]; [right; by apply elem_of_app; left|].
    rewrite Hl, decide_False in Eqe by done.
    destruct (mk_pending _ _ _ _ _ M h e q qe Eh Eq Eqe El) as [?|[->|?]%elem_of_cons]; [by left| |].
    + exfalso. apply (Hd h e); [|by rewrite Hl, decide_False|done]. apply elem_children_of, (inv_children _ I).
      pose proof (mk_fallen _ _ _ _ _ M h) as F. rewrite Eh in F. inversion F as [e0 ? ((_ & _ & _ & _ & Sp & _) & _) E0|].
      exists e0. split; [by symmetry|congruence].
    + right. apply elem_of_app. by right.
  - intros h [Hh|Hh]%elem_of_app; [by apply Hms|]. apply (mk_frontier _ _ _ _ _ M). by right.
  - intros e Er. rewrite Hl, decide_False in Er by (intros ?%Hms; naive_solver). by eapply (mk_root _ _ _ _ _ M).
  - pose proof (mk_count _ _ _ _ _ M). unfold zlen. lia.
Qed.

Lemma failure_loop_spec idx root fuel : forall m k frontier, index_inv idx -> marking idx root m k frontier ->
  (length frontier + candidates m < fuel)%nat ->
  exists m' k', failure_loop fuel idx m k frontier = Some (m', k') /\ marking idx root m' k' [].
Proof.
  induction fuel as [|fuel IH]; intros m k frontier I M Hf; [lia|]. cbn [failure_loop].
  destruct frontier as [|current frontier]; [by exists m, k|].
  destruct (mark_children _ m k frontier) as [[m1 k1] fr1] eqn:E.
  destruct (marking_step _ _ _ _ _ _ _ _ _ I M E) as [M1 L]. apply IH; [done|done|]. simpl in Hf. lia.
Qed.

(** *** The rescan finds the best *)

(** [best] is the best of the entries seen. *)
Definition best_of (seen : list BlockIndexEntry) (best : option BlockIndexEntry) : Prop :=
  match best with
  | None => forall y, y ∈ seen -> ~ eligible y
  | Some x => x ∈ seen /\ eligible x /\ forall y, y ∈ seen -> IsBetterTip y x = false
  end.

Lemma not_better_trans x y z : Work.is_work (ent_total_work x) -> Work.is_work (ent_total_work y) ->
  Work.is_work (ent_total_work z) -> eligible y ->
  IsBetterTip x y = false -> IsBetterTip z y = true -> IsBetterTip x z = false.
Proof.
  intros Wx Wy Wz Ey Hxy [Ez [?|Hz]]%IsBetterTip_iff; try done. apply not_true_iff_false in Hxy.
  apply not_true_iff_false. intros [Ex [?|Hx]]%IsBetterTip_iff; try done. apply Hxy, IsBetterTip_iff; try done.
  split; [done|]. right. unfold heavier in *. lia.
Qed.

Lemma not_better_self x : IsBetterTip x x = false.
Proof.
  unfold IsBetterTip. rewrite bool_decide_eq_true_2, Z.ltb_irrefl by done. by destruct (IsEligible x).
Qed.

Lemma ineligible_not_better x y : ~ eligible x -> IsBetterTip x y = false.
Proof. intros Hx. unfold IsBetterTip. by rewrite (proj2 (IsEligible_false x) Hx). Qed.

Lemma rescan_best l : forall seen best, Forall (fun e => Work.is_work (ent_total_work e)) (seen ++ l) ->
  best_of seen best -> best_of (seen ++ l) (rescan l best).
Proof.
  induction l as [|c l IH]; intros seen best W B; cbn [rescan]; [by rewrite app_nil_r|].
  replace (seen ++ c :: l) with ((seen ++ [c]) ++ l) in * by (by rewrite <- app_assoc).
  assert (forall y, y ∈ seen ++ [c] -> Work.is_work (ent_total_work y)) as Wy.
  { intros y Hy. eapply (proj1 (Forall_forall _ _) W). apply elem_of_app. by left. }
  assert (c ∈ seen ++ [c]) as Hc by (apply elem_of_app; right; by left).
  destruct (IsEligible c) eqn:Ec; cbn [negb]; apply IH; try done.
  - apply IsEligible_true in Ec. destruct best as [b|]; cbn in B.
    + destruct B as (Hb & Eb & Hbest). assert (b ∈ seen ++ [c]) by (apply elem_of_app; by left).
      destruct (IsBetterTip c b) eqn:E; cbn; split_and!; try done.
      * intros y [Hy|Hy%list_elem_of_singleton]%elem_of_app; [|subst; apply not_better_self].
        eapply (not_better_trans y b c); auto. apply Wy, elem_of_app. by left.
      * intros y [Hy|Hy%list_elem_of_singleton]%elem_of_app; [by apply Hbest|by subst].
    + cbn. split_and!; [done|done|]. intros y [Hy|Hy%list_elem_of_singleton]%elem_of_app.
      * apply ineligible_not_better. by apply B.
      * subst. apply not_better_self.
  - apply IsEligible_false in Ec. destruct best as [b|]; cbn in *.
    + destruct B as (Hb & Eb & Hbest). split_and!; [apply elem_of_app; by left|done|].
      intros y [Hy|Hy%list_elem_of_singleton]%elem_of_app; [by apply Hbest|subst; by apply ineligible_not_better].
    + intros y [Hy|Hy%list_elem_of_singleton]%elem_of_app; [by apply B|by subst].
Qed.

Lemma RescanForBestHeader_best idx : (forall h e, Find idx h = Some e -> ent_hash e = h /\ Work.is_work (ent_total_work e)) ->
  best_ok (RescanForBestHeader idx).
Proof.
  intros Hk. set (l := (map_to_list (entries_ idx)).*2).
  assert (forall e, e ∈ l <-> exists h, Find idx h = Some e) as Hl.
  { intros e. unfold l. rewrite list_elem_of_fmap. split.
    - intros ([h x] & -> & Hin%elem_of_map_to_list). by exists h.
    - intros [h E]. exists (h, e). split; [done|]. by apply elem_of_map_to_list. }
  pose proof (rescan_best l [] None) as B. cbn [app] in B. unfold best_ok, RescanForBestHeader. cbn. fold l.
  destruct (rescan l None) as [b|]; cbn in *.
  - destruct B as (Hb & Eb & Hbest); [|by intros y ?%elem_of_nil|].
    { apply Forall_forall. intros e [h E]%Hl. by apply (Hk h). }
    apply Hl in Hb as [h E]. pose proof (Hk h b E) as [<- _]. exists b. split_and!; [done|done|].
    intros k e Ee. apply Hbest, Hl. by exists k.
  - intros h e E. apply B; [|by intros y ?%elem_of_nil|apply Hl; by exists h].
    apply Forall_forall. intros x [k Ek]%Hl. by apply (Hk k).
Qed.

(** *** [RecordFailure] *)

Lemma marking_init idx h root : index_inv idx -> Find idx h = Some root -> eligible root ->
  marking idx h (<[h := set_failure FItself root]> (entries_ idx)) 1 [h].
Proof.
  intros I E El. split.
  - intros x. destruct (decide (x = h)) as [->|Hne].
    + unfold Find in E. rewrite E, lookup_insert_eq. constructor. split_and!; try done. right.
      rewrite decide_True by done. split_and!; [done|constructor|done].
    + rewrite lookup_insert_ne by done. destruct (entries_ idx !! x); constructor. split_and!; try done. by left.
  - intros x e q qe Ex Eq Eqe Ee. destruct (decide (q = h)) as [->|Hq]; [right; by left|].
    rewrite lookup_insert_ne in Eqe by done. left. destruct (decide (x = h)) as [->|Hx].
    + rewrite lookup_insert_eq in Ex. by injection Ex as <-.
    + rewrite lookup_insert_ne in Ex by done. by apply (inv_closed _ I x e q qe).
  - intros x ->%list_elem_of_singleton. constructor.
  - intros e Ee. rewrite lookup_insert_eq in Ee. by injection Ee as <-.
  - pose proof (candidates_mark (entries_ idx) h root FItself E El ltac:(done)). lia.
Qed.

(** At the end of the loop the whole branch is out, and nothing else changed. *)
Lemma marking_done idx root m k : index_inv idx -> marking idx root m k [] ->
  same_tree idx (with_entries idx m) /\ closed (with_entries idx m) /\
  forall x e e', Find idx x = Some e -> m !! x = Some e' ->
    ent_validity e = ent_validity e' /\ (eligible e' <-> eligible e /\ ~ descends idx root x).
Proof.
  intros I M. assert (forall x e e', Find idx x = Some e -> m !! x = Some e' -> fallen idx root x e e') as Fm.
  { intros x e e' E E'. pose proof (mk_fallen _ _ _ _ _ M x) as F. unfold Find in E. rewrite E, E' in F.
    by inversion F. }
  assert (forall x, is_Some (Find idx x) -> is_Some (m !! x)) as Hs.
  { intros x. pose proof (mk_fallen _ _ _ _ _ M x) as F. unfold Find. by destruct F. }
  assert (forall x, descends idx root x -> forall e', m !! x = Some e' -> ~ eligible e') as Hout.
  { induction 1 as [|c e q Ec Eq Hd IH]; [apply (mk_root _ _ _ _ _ M)|]. intros e' E' El.
    destruct (Fm _ _ _ Ec E') as ((_ & _ & _ & _ & Sp & _) & _).
    destruct (inv_parent _ _ _ I Ec) as [(_ & ? & _)|(q' & qe & Eq' & Fq & _)]; [congruence|].
    assert (q' = q) as -> by congruence. destruct (Hs q) as [qe' Eqe]; [by rewrite Fq|].
    destruct (mk_pending _ _ _ _ _ M c e' q qe' E') as [?|?%elem_of_nil]; try done; [congruence|].
    by apply (IH qe'). }
  split_and!.
  - split; try done. intros x. pose proof (mk_fallen _ _ _ _ _ M x) as F. unfold Find in *. cbn.
    inversion F as [? ? [? _]|]; by constructor.
  - intros x e q qe Ex Eq Eqe El.
    by destruct (mk_pending _ _ _ _ _ M x e q qe Ex Eq Eqe El) as [?|?%elem_of_nil].
  - intros x e e' E E'. destruct (Fm x e e' E E') as (S & V & F). split; [done|]. split.
    + intros El. split; [|intros Hd; by apply (Hout x Hd e' E')].
      unfold eligible in *. destruct F as [F|(? & _ & F)]; [congruence|done].
    + intros [El Hn]. destruct F as [F|(_ & ? & _)]; [unfold eligible in *; congruence|done].
Qed.

Lemma descends_indexed idx a x : index_inv idx -> descends idx a x -> is_Some (Find idx x) -> is_Some (Find idx a).
Proof.
  intros I. induction 1 as [|c e q Ec Eq Hd IH]; [done|]. intros _. apply IH.
  destruct (inv_parent _ _ _ I Ec) as [(_ & ? & _)|(q' & qe & Eq' & Fq & _)]; [congruence|].
  assert (q' = q) as -> by congruence. by rewrite Fq.
Qed.

Lemma descends_ineligible idx a x ae : index_inv idx -> descends idx a x -> Find idx a = Some ae -> ~ eligible ae ->
  forall e, Find idx x = Some e -> ~ eligible e.
Proof.
  intros I Hd Ea Hn. induction Hd as [|c e q Ec Eq Hd IH]; intros e' E'; [congruence|]. intros El.
  rewrite Ec in E'. injection E' as <-.
  destruct (inv_parent _ _ _ I Ec) as [(_ & ? & _)|(q' & qe & Eq' & Fq & _ & _ & Hel)]; [congruence|].
  assert (q' = q) as -> by congruence. by apply (IH qe), Hel.
Qed.

(** The best tip after some candidates were removed: the old one while it is
    still a candidate, else what the rescan finds. *)
Lemma best_after_marking idx idx' : index_inv idx -> same_tree idx idx' -> best_header_ idx' = best_header_ idx ->
  (forall x e e', Find idx x = Some e -> Find idx' x = Some e' -> eligible e' -> eligible e) ->
  best_ok (if match best_header_ idx' ≫= Find idx' with None => false | Some best => IsEligible best end
           then idx' else RescanForBestHeader idx').
Proof.
  intros I T Eb Hel. destruct (best_header_ idx' ≫= Find idx') as [be'|] eqn:Fb; [destruct (IsEligible be') eqn:Ei|].
  - apply IsEligible_true in Ei. unfold best_ok. destruct (best_header_ idx') as [b|] eqn:Eb'; [|done]. cbn in Fb.
    destruct (best_lookup idx I) as [[? _]|(b0 & be & Eb0 & _ & Fb0 & El & Hb)]; [congruence|].
    assert (b0 = b) as -> by congruence.
    exists be'. split_and!; [done|done|]. intros x e' Ex'. destruct (IsEligible e') eqn:Ee.
    + apply IsEligible_true in Ee. destruct (same_tree_find _ _ _ _ T Ex') as (e & Ex & S).
      destruct (same_tree_find _ _ _ _ T Fb) as (be0 & Fb1 & S'). rewrite Fb0 in Fb1. injection Fb1 as <-.
      rewrite <- (IsBetterTip_same e be e' be'); [by eapply Hb|done|done| |].
      * rewrite Ee. by apply (Hel x e e').
      * rewrite Ei. exact El.
    + by apply ineligible_not_better, IsEligible_false.
  - apply RescanForBestHeader_best. intros x e' Ex'. destruct (same_tree_find _ _ _ _ T Ex') as (e & Ex & S).
    destruct S as (_ & Sh & _ & Sw & _). rewrite <- Sh, <- Sw. split; [by eapply inv_hash|by eapply inv_is_work].
  - apply RescanForBestHeader_best. intros x e' Ex'. destruct (same_tree_find _ _ _ _ T Ex') as (e & Ex & S).
    destruct S as (_ & Sh & _ & Sw & _). rewrite <- Sh, <- Sw. split; [by eapply inv_hash|by eapply inv_is_work].
Qed.

Lemma RecordFailure_spec h idx : index_inv idx ->
  exists k idx', RecordFailure h idx = Some (k, idx') /\ index_inv idx' /\ same_tree idx idx' /\
    k + Z.of_nat (candidates (entries_ idx')) = Z.of_nat (candidates (entries_ idx)) /\
    forall x e e', Find idx x = Some e -> Find idx' x = Some e' ->
      ent_validity e = ent_validity e' /\ (eligible e' <-> eligible e /\ ~ descends idx h x).
Proof.
  intros I. unfold RecordFailure. assert (same_tree idx idx) as T0 by (by split).
  destruct (Find idx h) as [root|] eqn:E.
  2:{ exists 0, idx. split_and!; try done. intros x e e' Ex Ex'. rewrite Ex in Ex'. injection Ex' as <-.
      split; [done|]. split; [|by intros []]. intros El. split; [done|]. intros Hd.
      destruct (descends_indexed idx h x I Hd) as [? ?]; [by rewrite Ex|congruence]. }
  destruct (IsEligible root) eqn:Er; cbn [negb].
  2:{ apply IsEligible_false in Er. exists 0, idx. split_and!; try done. intros x e e' Ex Ex'.
      rewrite Ex in Ex'. injection Ex' as <-. split; [done|]. split; [|by intros []]. intros El. split; [done|].
      intros Hd. by apply (descends_ineligible idx h x root I Hd E Er e Ex). }
  apply IsEligible_true in Er.
  destruct (failure_loop_spec idx h (S (S (size (entries_ idx)))) _ 1 [h] I (marking_init idx h root I E Er))
    as (m & k & -> & M).
  { pose proof (candidates_mark (entries_ idx) h root FItself E Er ltac:(done)).
    pose proof (candidates_le (entries_ idx)). simpl. lia. }
  destruct (marking_done idx h m k I M) as (T & Hc & Hm). cbn.
  change (match best_header_ idx ≫= Find (with_entries idx m) with Some best => IsEligible best | None => false end)
    with (match best_header_ (with_entries idx m) ≫= Find (with_entries idx m) with
          | Some best => IsEligible best | None => false end).
  pose proof (best_after_marking idx (with_entries idx m) I T eq_refl) as B.
  assert (forall idx', idx' = with_entries idx m \/ idx' = RescanForBestHeader (with_entries idx m) -> best_ok idx' ->
    index_inv idx' /\ same_tree idx idx' /\ entries_ idx' = m) as Hfin.
  { intros idx' Hi Hb. assert (same_tree idx idx' /\ closed idx' /\ entries_ idx' = m) as (T' & Hc' & ?).
    { destruct Hi as [-> | ->]; [done|]. split_and!; [by destruct T; split|exact Hc|done]. }
    split_and!; [by apply (same_tree_inv idx)|done|done]. }
  specialize (B ltac:(intros x e e' Ex Ex' El; by apply (Hm x e e' Ex Ex'))). 
  set (idx' := if match best_header_ (with_entries idx m) ≫= Find (with_entries idx m) with
                  | Some best => IsEligible best | None => false end
               then with_entries idx m else RescanForBestHeader (with_entries idx m)) in *.
  destruct (Hfin idx') as (I' & T' & Em); [unfold idx'; case_match; auto|done|]. exists k, idx'. split; [done|].
  split_and!; [done|done| |].
  - rewrite Em. apply (mk_count _ _ _ _ _ M).
  - intros x e e' Ex Ex'. apply Hm; [done|]. by rewrite <- Em.
Qed.
End invariant.

(** ** Lineages *)

Section lineages.
Context `{SH : Sha256Impl} (idx : BlockIndex) (I : index_inv idx).

(** The entries from [h] down to the root, newest first. *)
Inductive lineage : bytes -> list bytes -> Prop :=
  | lineage_root h e : Find idx h = Some e -> ent_parent e = None -> lineage h [h]
  | lineage_step h e p l : Find idx h = Some e -> ent_parent e = Some p -> lineage p l -> lineage h (h :: l).

Lemma lineage_fun h l l' : lineage h l -> lineage h l' -> l = l'.
Proof.
  intros L. revert l'. induction L as [h e E P|h e p l E P L IH]; intros l'; inversion 1; simplify_eq; [done|].
  f_equal. by apply IH.
Qed.

Lemma lineage_head h l : lineage h l -> exists t, l = h :: t.
Proof. inversion 1; eauto. Qed.

Lemma lineage_total h e : Find idx h = Some e -> exists l, lineage h l /\ zlen l = ent_height e + 1.
Proof.
  intros E. pose proof (inv_height _ _ _ I E) as Hh.
  remember (Z.to_nat (ent_height e)) as n eqn:Hn. revert h e E Hh Hn.
  induction n as [|n IH]; intros h e E Hh Hn;
    destruct (inv_parent _ _ _ I E) as [(_ & P & H0)|(p & pe & P & Ep & _ & Hp & _)];
    pose proof (fun E => inv_height _ p _ I E) as Hp0 || idtac.
  - exists [h]. split; [by econstructor|]. unfold zlen. simpl. lia.
  - pose proof (inv_height _ _ _ I Ep). lia.
  - lia.
  - destruct (IH p pe Ep) as (l & L & Hl); [by eapply inv_height|lia|].
    exists (h :: l). split; [by econstructor|]. unfold zlen in *. simpl. lia.
Qed.

Lemma lineage_length h e l : Find idx h = Some e -> lineage h l -> zlen l = ent_height e + 1.
Proof. intros E L. destruct (lineage_total h e E) as (l' & L' & Hl). by rewrite (lineage_fun _ _ _ L L'). Qed.

(** The [i]-th entry back, with what is left of the lineage. *)
Lemma lineage_lookup h l : lineage h l -> forall i x, l !! i = Some x ->
  exists ex, Find idx x = Some ex /\ lineage x (drop i l).
Proof.
  induction 1 as [h e E P|h e p l E P L IH]; intros i x Hx.
  - destruct i as [|i]; [|by destruct i]. injection Hx as <-. exists e. split; [done|]. by econstructor.
  - destruct i as [|i]; cbn in *; [injection Hx as <-; exists e; split; [done|by econstructor]|by apply IH].
Qed.

Lemma lineage_lookup_height h e l i x ex : Find idx h = Some e -> lineage h l -> l !! i = Some x ->
  Find idx x = Some ex -> ent_height ex = ent_height e - Z.of_nat i.
Proof.
  intros E L Hx Ex. destruct (lineage_lookup h l L i x Hx) as (ex' & Ex' & L'). rewrite Ex in Ex'. injection Ex' as <-.
  pose proof (lineage_length _ _ _ E L). pose proof (lineage_length _ _ _ Ex L').
  apply lookup_lt_Some in Hx. unfold zlen in *. rewrite length_drop in *. lia.
Qed.

Lemma lineage_descends h l a : lineage h l -> a ∈ l <-> descends idx a h /\ is_Some (Find idx a).
Proof.
  induction 1 as [h e E P|h e p l E P L IH].
  - rewrite list_elem_of_singleton. split; [intros ->; split; [constructor|by eexists]|].
    intros [D _]. inversion D; congruence.
  - rewrite elem_of_cons, IH. split.
    + intros [->|[D S]]; [split; [constructor|by eexists]|]. split; [by econstructor|done].
    + intros [D S]. inversion D as [|c e' q Ec Eq D']; [by left|]. subst.
      rewrite E in Ec. injection Ec as <-. rewrite P in Eq. injection Eq as <-. by right.
Qed.

(** The parent's lineage is the tail. *)
Lemma lineage_parent h e l : Find idx h = Some e -> lineage h l -> 0 < ent_height e ->
  exists pe, parent idx e = Some pe /\ ent_height pe = ent_height e - 1 /\ Find idx (ent_hash pe) = Some pe /\
    exists t, l = h :: t /\ lineage (ent_hash pe) t.
Proof.
  intros E L Hh. destruct (inv_parent _ _ _ I E) as [(_ & _ & ?)|(p & pe & P & Ep & Epar & Hp & _)]; [lia|].
  pose proof (inv_hash _ _ _ I Ep) as Hpe. exists pe. rewrite Hpe. split_and!; [done|lia|done|].
  inversion L as [? ? E'|? e' p' t E' P' L']; simplify_eq. eauto.
Qed.

(** ** Walks *)

Lemma ancestor_loop_spec fuel : forall h e l wanted, Find idx h = Some e -> lineage h l ->
  0 <= wanted <= ent_height e -> (Z.to_nat (ent_height e - wanted) < fuel)%nat ->
  exists a, ancestor_loop fuel idx (Some e) wanted = Some (Some a) /\ ent_height a = wanted /\
    l !! Z.to_nat (ent_height e - wanted) = Some (ent_hash a) /\ Find idx (ent_hash a) = Some a.
Proof.
  induction fuel as [|fuel IH]; intros h e l wanted E L Hw Hf; [lia|]. cbn [ancestor_loop].
  destruct (Z.ltb_spec wanted (ent_height e)).
  - destruct (lineage_parent h e l E L ltac:(lia)) as (pe & -> & Hp & Ep & t & -> & L').
    destruct (IH _ _ _ wanted Ep L' ltac:(lia) ltac:(lia)) as (a & -> & Ha & Hl & Ea).
    exists a. split_and!; try done.
    replace (Z.to_nat (ent_height e - wanted)) with (S (Z.to_nat (ent_height pe - wanted))) by lia. done.
  - exists e. replace wanted with (ent_height e) by lia. rewrite Z.sub_diag, (inv_hash _ _ _ I E).
    split_and!; try done. by destruct (lineage_head h l L) as [t ->].
Qed.

Lemma lower_old_spec fuel : forall h e l height w, Find idx h = Some e -> lineage h l -> 0 <= height ->
  (Z.to_nat (ent_height e - height) < fuel)%nat ->
  exists e', let n := Z.to_nat (ent_height e - height) in
    lower_old fuel idx (Some e) height w = Some (Some e', w ++ take n l) /\
    Find idx (ent_hash e') = Some e' /\ lineage (ent_hash e') (drop n l) /\
    ent_height e' = Z.min (ent_height e) height.
Proof.
  induction fuel as [|fuel IH]; intros h e l height w E L Hh Hf; [lia|]. cbn [lower_old].
  pose proof (inv_hash _ _ _ I E) as Hash. destruct (Z.ltb_spec height (ent_height e)).
  - destruct (lineage_parent h e l E L ltac:(lia)) as (pe & -> & Hp & Ep & t & -> & L').
    destruct (IH _ _ _ height (w ++ [ent_hash e]) Ep L' Hh ltac:(lia)) as (e' & -> & E' & L'' & He').
    exists e'. replace (Z.to_nat (ent_height e - height)) with (S (Z.to_nat (ent_height pe - height))) by lia.
    cbn [take drop]. rewrite Hash, <- app_assoc. split_and!; try done. lia.
  - exists e. replace (Z.to_nat (ent_height e - height)) with 0%nat by lia. rewrite take_0, drop_0, app_nil_r, Hash.
    split_and!; try done. lia.
Qed.

Lemma lower_new_old fuel : forall newer o w, lower_new fuel idx newer (Some o) w = lower_old fuel idx newer (ent_height o) w.
Proof.
  induction fuel as [|fuel IH]; intros newer o w; [done|]. cbn [lower_new lower_old].
  destruct newer as [e|]; [|done]. destruct (_ <? _); [apply IH|done].
Qed.

Lemma meet_spec fuel : forall h1 h2 e1 e2 l1 l2 w1 w2, Find idx h1 = Some e1 -> Find idx h2 = Some e2 ->
  lineage h1 l1 -> lineage h2 l2 -> ent_height e1 = ent_height e2 -> (Z.to_nat (ent_height e1) + 1 < fuel + 1)%nat ->
  exists f1 f2 d1 d2 rest, meet fuel idx (Some e1) (Some e2) w1 w2 = Some (Some f1, Some f2, w1 ++ d1, w2 ++ d2) /\
    ent_hash f1 = ent_hash f2 /\ Find idx (ent_hash f1) = Some f1 /\
    l1 = d1 ++ ent_hash f1 :: rest /\ l2 = d2 ++ ent_hash f1 :: rest /\ Forall2 (fun a b => a <> b) d1 d2.
Proof.
  induction fuel as [|fuel IH]; intros h1 h2 e1 e2 l1 l2 w1 w2 E1 E2 L1 L2 Hh Hf;
    [pose proof (inv_height _ _ _ I E1); lia|]. cbn [meet].
  pose proof (inv_hash _ _ _ I E1) as H1. pose proof (inv_hash _ _ _ I E2) as H2. rewrite H1, H2.
  case_bool_decide as Eh.
  - destruct Eh. assert (l2 = l1) as -> by (exact (lineage_fun _ _ _ L2 L1)). destruct (lineage_head h1 l1 L1) as [t ->].
    exists e1, e2, [], [], t. rewrite !app_nil_r, H1, H2. split_and!; done || constructor.
  - assert (0 < ent_height e1) as Hpos.
    { pose proof (inv_height _ _ _ I E1).
      destruct (inv_parent _ _ _ I E1) as [(G1 & _ & ?)|(? & pe & _ & Ep & _ & ? & _)];
        [|pose proof (inv_height _ _ _ I Ep); lia].
      destruct (inv_parent _ _ _ I E2) as [(G2 & _ & ?)|(? & pe & _ & Ep & _ & ? & _)];
        [congruence|pose proof (inv_height _ _ _ I Ep); lia]. }
    destruct (lineage_parent h1 e1 l1 E1 L1 Hpos) as (p1 & -> & Hp1 & Ep1 & t1 & -> & L1').
    destruct (lineage_parent h2 e2 l2 E2 L2 ltac:(lia)) as (p2 & -> & Hp2 & Ep2 & t2 & -> & L2').
    destruct (IH _ _ _ _ _ _ (w1 ++ [h1]) (w2 ++ [h2]) Ep1 Ep2 L1' L2' ltac:(lia) ltac:(lia))
      as (f1 & f2 & d1 & d2 & rest & -> & Hfh & Hff & -> & -> & Hd).
    exists f1, f2, (h1 :: d1), (h2 :: d2), rest. rewrite <- !app_assoc. split_and!; try done. by constructor.
Qed.

(** ** Plans *)

(** The plan splits the two lineages at their deepest common entry. *)
Definition plan_ok (plan : ChainSwitch) (from to : list bytes) : Prop :=
  exists f rest, fork_point plan = Some f /\ from = disconnect plan ++ f :: rest /\
    to = rev (connect plan) ++ f :: rest /\ (forall x, x ∈ disconnect plan -> x ∉ connect plan).

(** Entries at the same height of two lineages that never agree. *)
Lemma splits_disjoint h1 h2 e1 e2 d1 d2 rest1 rest2 n1 n2 : Find idx h1 = Some e1 -> Find idx h2 = Some e2 ->
  lineage h1 (n1 ++ d1 ++ rest1) -> lineage h2 (n2 ++ d2 ++ rest2) ->
  ent_height e1 - zlen n1 = ent_height e2 - zlen n2 -> n1 = [] \/ n2 = [] ->
  Forall2 (fun a b => a <> b) d1 d2 -> forall x, x ∈ n1 ++ d1 -> x ∉ n2 ++ d2.
Proof.
  intros E1 E2 L1 L2 Hh Hn Hd x [i Hi]%list_elem_of_lookup_1 [j Hj]%list_elem_of_lookup_1.
  rewrite app_assoc in L1, L2.
  pose proof (lookup_app_l_Some _ rest1 _ _ Hi) as Hi'. pose proof (lookup_app_l_Some _ rest2 _ _ Hj) as Hj'.
  destruct (lineage_lookup _ _ L1 i x Hi') as (ex & Ex & _).
  pose proof (lineage_lookup_height _ _ _ _ _ _ E1 L1 Hi' Ex) as Hx1.
  pose proof (lineage_lookup_height _ _ _ _ _ _ E2 L2 Hj' Ex) as Hx2.
  pose proof (Forall2_length _ _ _ Hd) as Hl. apply lookup_lt_Some in Hi as Hi2. apply lookup_lt_Some in Hj as Hj2.
  rewrite length_app in Hi2, Hj2. unfold zlen in Hh.
  assert (length n1 <= i)%nat by (destruct Hn as [-> | ->]; simpl in *; lia).
  assert (length n2 <= j)%nat by (destruct Hn as [-> | ->]; simpl in *; lia).
  rewrite lookup_app_r in Hi, Hj by done. replace (j - length n2)%nat with (i - length n1)%nat in Hj by lia.
  by apply (Forall2_lookup_lr _ _ _ _ _ _ Hd Hi Hj).
Qed.

Lemma PlanChainSwitch_spec hf ht ef et lf lt : Find idx hf = Some ef -> Find idx ht = Some et ->
  lineage hf lf -> lineage ht lt ->
  exists plan, PlanChainSwitch idx (Some ef) (Some et) = Some plan /\ plan_ok plan lf lt.
Proof.
  intros Ef Et Lf Lt. unfold PlanChainSwitch.
  pose proof (inv_height _ _ _ I Ef) as Hf. pose proof (inv_height _ _ _ I Et) as Ht.
  destruct (lower_old_spec (entry_fuel (Some ef)) hf ef lf (ent_height et) [] Ef Lf) as (o & -> & Eo & Lo & Ho);
    [lia|unfold entry_fuel, walk_fuel; lia|].
  cbn [mbind option_bind fst snd]. rewrite lower_new_old.
  destruct (lower_old_spec (entry_fuel (Some et)) ht et lt (ent_height o) [] Et Lt) as (n & -> & En & Ln & Hn);
    [lia|unfold entry_fuel, walk_fuel; lia|].
  cbn [mbind option_bind fst snd app].
  destruct (meet_spec (entry_fuel (Some o)) _ _ o n _ _ (take (Z.to_nat (ent_height ef - ent_height et)) lf)
    (take (Z.to_nat (ent_height et - ent_height o)) lt) Eo En Lo Ln) as (f1 & f2 & d1 & d2 & rest & -> & Hfh & _ & D1 & D2 & Hd);
    [lia|unfold entry_fuel, walk_fuel; lia|].
  cbn [mbind option_bind fst snd].
  set (n1 := take _ lf) in *. set (n2 := take _ lt) in *. eexists. split; [reflexivity|].
  rewrite bool_decide_eq_true_2 by (cbn; by rewrite Hfh).
  assert (lf = n1 ++ d1 ++ ent_hash f1 :: rest) as Elf by (rewrite <- D1; symmetry; apply take_drop).
  assert (lt = n2 ++ d2 ++ ent_hash f1 :: rest) as Elt by (rewrite <- D2; symmetry; apply take_drop).
  exists (ent_hash f1), rest. cbn. rewrite rev_involutive, <- !app_assoc. split_and!; try done.
  pose proof (lineage_length _ _ _ Ef Lf) as Zf. pose proof (lineage_length _ _ _ Et Lt) as Zt. unfold zlen in Zf, Zt.
  intros x Hx Hin%list_elem_of_In. rewrite <- in_rev in Hin. apply list_elem_of_In in Hin. revert x Hx Hin.
  apply (splits_disjoint hf ht ef et d1 d2 (ent_hash f1 :: rest) (ent_hash f1 :: rest) n1 n2); try done.
  - by rewrite <- Elf.
  - by rewrite <- Elt.
  - unfold n1, n2, zlen. rewrite !length_take. lia.
  - unfold n1, n2. destruct (Z.le_ge_cases (ent_height ef) (ent_height et)); [left|right].
    + by replace (Z.to_nat (ent_height ef - ent_height et)) with 0%nat by lia.
    + by replace (Z.to_nat (ent_height et - ent_height o)) with 0%nat by lia.
Qed.
End lineages.

(** ** Reachable indexes *)

Section reachable.
Context `{SH : Sha256Impl}.

(** What the node does to an index: build it on a genesis header, offer headers,
    record verdicts.  Target bits are a [uint32_t] field; the size bound keeps
    the 64-bit arrival counter from wrapping. *)
Inductive reachable : BlockIndex -> Prop :=
  | reach_new g : hdr_height g = 0 -> u32 (hdr_target_bits g) -> reachable (new_BlockIndex g)
  | reach_add idx header now params : reachable idx -> u32 (hdr_target_bits header) -> Size idx < 2 ^ 64 - 1 ->
      reachable (AddHeader header now params idx).2
  | reach_validity idx h v : reachable idx -> reachable (RecordValidity h v idx)
  | reach_failure idx h k idx' : reachable idx -> RecordFailure h idx = Some (k, idx') -> reachable idx'.

Lemma reachable_inv idx : reachable idx -> index_inv idx.
Proof.
  induction 1 as [g Hg Hb|idx header now params _ I Hb Hs|idx h v _ I|idx h k idx' _ I E].
  - by apply new_BlockIndex_inv.
  - by apply AddHeader_inv.
  - by apply RecordValidity_inv.
  - destruct (RecordFailure_spec h idx I) as (? & ? & E' & I' & _). rewrite E in E'. by injection E' as <- <-.
Qed.

Lemma reachable_found idx h e : reachable idx -> Find idx h = Some e -> Find idx (ent_hash e) = Some e.
Proof. intros R E. by rewrite (inv_hash idx h e (reachable_inv idx R) E). Qed.

Lemma ForNetwork_reachable n : reachable (ForNetwork (ParamsFor n)).
Proof. apply reach_new; [done|]. by destruct (params_pow_limit n) as (_ & ? & _). Qed.
End reachable.

(** ** Samples *)

Section samples.
#[local] Existing Instance toy_Sha256Impl.

Definition sample_header (prev : bytes) (height salt : Z) : BlockHeader :=
  mkBlockHeader 1 height prev (replicate 32 Byte.x07) (GENESIS_TIMESTAMP + height) REGTEST_POW_LIMIT_BITS salt.

Definition add_sample (idx : BlockIndex) (prev : bytes) (height salt : Z) : BlockIndex :=
  (AddHeader (sample_header prev height salt) (GENESIS_TIMESTAMP + 100) REGTEST_PARAMS idx).2.

Definition sample_genesis : bytes := genesis_ (ForNetwork REGTEST_PARAMS).
Definition sample_a1 : bytes := BlockHeader_Hash (sample_header sample_genesis 1 0).
Definition sample_a2 : bytes := BlockHeader_Hash (sample_header sample_a1 2 0).
Definition sample_b1 : bytes := BlockHeader_Hash (sample_header sample_genesis 1 1).
Definition sample_b2 : bytes := BlockHeader_Hash (sample_header sample_b1 2 1).
Definition sample_b3 : bytes := BlockHeader_Hash (sample_header sample_b2 3 1).

(** Two branches from genesis: two headers, then three. *)
Definition sample_index : BlockIndex :=
  add_sample (add_sample (add_sample (add_sample (add_sample (ForNetwork REGTEST_PARAMS)
    sample_genesis 1 0) sample_a1 2 0) sample_genesis 1 1) sample_b1 2 1) sample_b2 3 1.

Lemma sample_index_reachable : reachable sample_index.
Proof.
  unfold sample_index, add_sample. repeat (apply reach_add; [|vm_compute; intuition congruence|vm_compute; done]).
  apply (ForNetwork_reachable Regtest).
Qed.

Lemma Some_pair_inj {A B} (a c : A) (b d : B) : Some (a, b) = Some (c, d) -> a = c /\ b = d.
Proof. intros E. by injection E. Qed.

Example sample_index_runs :
  Size sample_index = 6 /\ BestHeader sample_index = Some sample_b3 /\
  (RecordFailure sample_b2 sample_index ≫= fun r => Some (r.1, BestHeader r.2)) = Some (2, Some sample_a2).
Proof. vm_compute. auto. Qed.
End samples.

#[local] Opaque sample_index sample_genesis sample_a1 sample_a2 sample_b1 sample_b2 sample_b3.

(** ** The theorems *)

(** C22: every index the node can reach is a tree with its best tip marked.  Each
    entry is filed under its header's hash with a height one above its parent's
    and the parent's work plus its own; only genesis has no parent; the child
    lists are the inverse of the parent links; arrival numbers are unique and
    below the counter; no eligible entry sits under a ruled-out one; and the best
    header is eligible and no known entry beats it. *)
Theorem index_stays_a_tree `{Sha256Impl} (idx : BlockIndex) : reachable idx -> index_inv idx.
Proof. apply reachable_inv. Qed.

Lemma index_stays_a_tree_witness :
  index_inv (SH := toy_Sha256Impl) sample_index /\ BestHeader sample_index = Some sample_b3.
Proof. split; [apply (index_stays_a_tree (H := toy_Sha256Impl)), sample_index_reachable|reflexivity]. Defined.

(** [RecordFailure] rules out a branch and nothing else.  On every reachable
    index the walk over the children ends; afterwards an entry is eligible
    exactly when it was before and does not descend from the failed block, the
    tree is otherwise unchanged, the count returned is the number of entries that
    lost eligibility, and the best header is again the best of what is left. *)
Theorem failure_rules_out_branch `{Sha256Impl} (idx : BlockIndex) (h : bytes) : reachable idx ->
  exists marked idx', RecordFailure h idx = Some (marked, idx') /\ reachable idx' /\
    same_tree idx idx' /\ best_ok idx' /\
    marked + Z.of_nat (candidates (entries_ idx')) = Z.of_nat (candidates (entries_ idx)) /\
    forall x e e', Find idx x = Some e -> Find idx' x = Some e' ->
      (eligible e' <-> eligible e /\ ~ descends idx h x).
Proof.
  intros R. destruct (RecordFailure_spec h idx (reachable_inv idx R)) as (k & idx' & E & I & T & Hk & Hx).
  exists k, idx'. split_and!; try done; [by eapply reach_failure|by apply inv_best|].
  intros x e e' Ex Ex'. by apply (Hx x e e').
Qed.

Lemma failure_rules_out_branch_witness :
  exists idx', RecordFailure sample_b2 sample_index = Some (2, idx') /\ best_ok idx' /\
    BestHeader idx' = Some sample_a2.
Proof.
  destruct (failure_rules_out_branch (H := toy_Sha256Impl) sample_index sample_b2 sample_index_reachable)
    as (marked & idx' & E & _ & _ & B & _).
  pose proof (proj2 (proj2 sample_index_runs)) as R. rewrite E in R.
  destruct (Some_pair_inj _ _ _ _ R) as [Hm Hb]. change (marked = 2) in Hm. subst marked. exists idx'. split; [exact E|]. split; [exact B|exact Hb].
Defined.

(** A plan to switch chains splits the two branches at their fork.  Between
    any two entries of a reachable index planning ends; reading the lineages back
    to genesis, the old one is the blocks to disconnect (tip first) followed by
    the fork point and what is below it, the new one is the blocks to connect (in
    reverse) followed by the very same, and no block is on both lists. *)
Theorem plan_splits_at_fork `{Sha256Impl} (idx : BlockIndex) (from to : BlockIndexEntry) : reachable idx ->
  Find idx (ent_hash from) = Some from -> Find idx (ent_hash to) = Some to ->
  exists plan lf lt, PlanChainSwitch idx (Some from) (Some to) = Some plan /\
    lineage idx (ent_hash from) lf /\ lineage idx (ent_hash to) lt /\ plan_ok plan lf lt.
Proof.
  intros R%reachable_inv Ef Et.
  destruct (lineage_total idx R _ _ Ef) as (lf & Lf & _). destruct (lineage_total idx R _ _ Et) as (lt & Lt & _).
  destruct (PlanChainSwitch_spec idx R _ _ _ _ _ _ Ef Et Lf Lt) as (plan & E & O). by exists plan, lf, lt.
Qed.

Lemma plan_splits_at_fork_witness :
  (PlanChainSwitch sample_index (Find sample_index sample_a2) (Find sample_index sample_b3) =
    Some (mkSwitch (Some sample_genesis) [sample_a2; sample_a1] [sample_b1; sample_b2; sample_b3])) /\
  exists lf lt, plan_ok (mkSwitch (Some sample_genesis) [sample_a2; sample_a1] [sample_b1; sample_b2; sample_b3]) lf lt.
Proof.
  assert (PlanChainSwitch sample_index (Find sample_index sample_a2) (Find sample_index sample_b3) =
    Some (mkSwitch (Some sample_genesis) [sample_a2; sample_a1] [sample_b1; sample_b2; sample_b3])) as P
    by (vm_compute; reflexivity).
  split; [exact P|].
  assert (exists ea, Find sample_index sample_a2 = Some ea) as [ea Ea] by (eexists; vm_compute; reflexivity).
  assert (exists eb, Find sample_index sample_b3 = Some eb) as [eb Eb] by (eexists; vm_compute; reflexivity).
  pose proof (reachable_found (SH := toy_Sha256Impl) sample_index sample_a2 ea sample_index_reachable Ea) as Ha.
  pose proof (reachable_found (SH := toy_Sha256Impl) sample_index sample_b3 eb sample_index_reachable Eb) as Hb.
  destruct (plan_splits_at_fork (H := toy_Sha256Impl) sample_index ea eb sample_index_reachable Ha Hb)
    as (plan & lf & lt & E & _ & _ & O).
  rewrite <- Ea, <- Eb, P in E. exists lf, lt. rewrite (inj Some _ _ E). exact O.
Defined.

Lemma Ancestor_spec `{SH : Sha256Impl} (idx : BlockIndex) (h : bytes) (e : BlockIndexEntry) (wanted : Z) :
  index_inv idx -> Find idx h = Some e -> 0 <= wanted ->
  (ent_height e < wanted -> Ancestor idx e wanted = Some None) /\
  (wanted <= ent_height e -> exists a, Ancestor idx e wanted = Some (Some a) /\ ent_height a = wanted /\
    descends idx (ent_hash a) h /\ Find idx (ent_hash a) = Some a /\
    forall x ex, descends idx x h -> Find idx x = Some ex -> ent_height ex = wanted -> ex = a).
Proof.
  intros R E Hw. unfold Ancestor. destruct (Z.ltb_spec (ent_height e) wanted); split; try done; try lia.
  intros _. destruct (lineage_total idx R _ _ E) as (l & L & _).
  destruct (ancestor_loop_spec idx R (walk_fuel e) h e l wanted E L ltac:(lia)) as (a & -> & Ha & Hl & Ea);
    [unfold walk_fuel; lia|].
  exists a. split_and!; try done.
  { apply (lineage_descends idx h l _ L). by eapply list_elem_of_lookup_2. }
  intros x ex D Ex Hx. assert (x ∈ l) as [i Hi]%list_elem_of_lookup_1 by (apply (lineage_descends idx h l _ L); by eauto).
  pose proof (lineage_lookup_height idx R h e l i x ex E L Hi Ex).
  apply lookup_lt_Some in Hi as Hlt. pose proof (lineage_length idx R h e l E L) as Hz. unfold zlen in Hz.
  replace (Z.to_nat (ent_height e - wanted)) with i in Hl by lia. rewrite Hi in Hl. injection Hl as ->.
  rewrite Ex in Ea. by injection Ea.
Qed.

(** [Ancestor] finds the ancestor.  From any entry of a reachable index the
    walk ends: for a height up to the entry's own it is the entry of that height
    the start descends from (and there is only one), for a greater height null. *)
Theorem ancestor_at_height `{Sha256Impl} (idx : BlockIndex) (h : bytes) (e : BlockIndexEntry) (wanted : Z) :
  reachable idx -> Find idx h = Some e -> 0 <= wanted ->
  (ent_height e < wanted -> Ancestor idx e wanted = Some None) /\
  (wanted <= ent_height e -> exists a, Ancestor idx e wanted = Some (Some a) /\ ent_height a = wanted /\
    descends idx (ent_hash a) h /\
    forall x ex, descends idx x h -> Find idx x = Some ex -> ent_height ex = wanted -> ex = a).
Proof.
  intros R%reachable_inv E Hw. destruct (Ancestor_spec idx h e wanted R E Hw) as [H1 H2]. split; [done|]. intros Hle.
  destruct (H2 Hle) as (a & ? & ? & ? & _ & ?). eauto.
Qed.

Lemma ancestor_at_height_witness :
  (Find sample_index sample_b3 ≫= fun e => Ancestor sample_index e 1) = Some (Find sample_index sample_b1) /\
  exists e a, Find sample_index sample_b3 = Some e /\ Ancestor sample_index e 1 = Some (Some a) /\
    descends sample_index (ent_hash a) sample_b3.
Proof.
  split; [vm_compute; reflexivity|].
  assert (exists e, Find sample_index sample_b3 = Some e /\ ent_height e = 3) as (e & E & H3)
    by (eexists; split; vm_compute; reflexivity).
  destruct (ancestor_at_height (H := toy_Sha256Impl) sample_index sample_b3 e 1 sample_index_reachable E ltac:(lia))
    as [_ A]. destruct A as (a & Ha & _ & D & _); [lia|]. exists e, a. split; [exact E|]. split; [exact Ha|exact D].
Defined.

End BlockIndex.
