(* ===== verification/Coins.v ===== *)
(** * The coins cache (utxo/coins.hpp, src/utxo/coins.cpp)

    [CoinsView] and [CoinsSink] are the code's two interfaces, as classes with
    the law a view owes its clients; [CoinsCache] implements both over any
    lawful view.  Two caches are equivalent when they answer every lookup
    alike: entries that differ only in redundancy are the same set. *)

From S2P Require Import Prelude Overflow Serialize Hex Crypto Primitives.
From stdpp Require Import gmap.
#[local] Open Scope Z_scope.

(** ** The interfaces *)

Class CoinsView (V : Type) := {
  GetCoin : V -> OutPoint -> option Coin;
  HaveCoin : V -> OutPoint -> bool }.

(** What a view promises: presence is a successful lookup. *)
Class LawfulView (V : Type) `{CoinsView V} : Prop :=
  HaveCoin_spec (v : V) o : HaveCoin v o = bool_decide (is_Some (GetCoin v o)).

Class CoinsSink (S : Type) := Write : OutPoint -> option Coin -> S -> S.

(** [class EmptyCoinsView] *)
Inductive EmptyCoinsView := Empty.

#[global] Instance EmptyCoinsView_view : CoinsView EmptyCoinsView :=
  {| GetCoin _ _ := None; HaveCoin _ _ := false |}.

#[global] Instance EmptyCoinsView_lawful : LawfulView EmptyCoinsView.
Proof. intros v o. reflexivity. Qed.

(** ** The cache *)

(** [base_] is a view the cache never writes; [entries_] shadows it, [None]
    being a tombstone. *)
Record CoinsCache (V : Type) := mkCoinsCache {
  base_ : V;
  entries_ : gmap OutPoint (option Coin) }.
Arguments mkCoinsCache {V} _ _.
Arguments base_ {V} _.
Arguments entries_ {V} _.

Section cache.
Context {V : Type} `{CoinsView V}.
Implicit Types (c : CoinsCache V) (o : OutPoint).

Definition Over (base : V) : CoinsCache V := mkCoinsCache base ∅.

Definition CoinsCache_GetCoin c o : option Coin :=
  match entries_ c !! o with
  | Some entry => entry
  | None => GetCoin (base_ c) o
  end.

Definition CoinsCache_HaveCoin c o : bool :=
  match entries_ c !! o with
  | Some entry => bool_decide (is_Some entry)
  | None => HaveCoin (base_ c) o
  end.

#[global] Instance CoinsCache_view : CoinsView (CoinsCache V) :=
  {| GetCoin := CoinsCache_GetCoin; HaveCoin := CoinsCache_HaveCoin |}.

Definition MarkSpent o c : CoinsCache V :=
  if HaveCoin (base_ c) o
  then mkCoinsCache (base_ c) (<[o := None]> (entries_ c))
  else mkCoinsCache (base_ c) (delete o (entries_ c)).

Definition CoinsCache_Write o (coin : option Coin) c : CoinsCache V :=
  match coin with
  | Some _ => mkCoinsCache (base_ c) (<[o := coin]> (entries_ c))
  | None => MarkSpent o c
  end.

#[global] Instance CoinsCache_sink : CoinsSink (CoinsCache V) := CoinsCache_Write.

Definition AddCoin o (coin : Coin) c : bool * CoinsCache V :=
  if HaveCoin c o then (false, c)
  else (true, mkCoinsCache (base_ c) (<[o := Some coin]> (entries_ c))).

Definition SpendCoin o c : option Coin * CoinsCache V :=
  let coin := GetCoin c o in
  (coin, if bool_decide (is_Some coin) then MarkSpent o c else c).

(** The write loop of [Flush], over the entries in the order the hash map
    yields them. *)
Definition flush_entries {S : Type} `{CoinsSink S} (order : list (OutPoint * option Coin)) (sink : S) : S :=
  fold_left (fun sink '(o, coin) => Write o coin sink) order sink.

Definition Flush {S : Type} `{CoinsSink S} c (sink : S) : CoinsCache V * S :=
  (mkCoinsCache (base_ c) ∅, flush_entries (map_to_list (entries_ c)) sink).

Definition Discard c : CoinsCache V := mkCoinsCache (base_ c) ∅.

Definition ChangeCount c : Z := Z.of_nat (size (entries_ c)).
End cache.

(** ** Equivalence of views *)

(** Two views are equivalent when every lookup answers alike. *)
Definition same_coins {V W} `{CoinsView V} `{CoinsView W} (v : V) (w : W) : Prop :=
  forall o, GetCoin v o = GetCoin w o.

Infix "≗" := same_coins (at level 70).

Section equivalence.
Context {V : Type} `{CoinsView V}.

#[global] Instance view_equivalence : Equivalence (same_coins (V := V) (W := V)).
Proof.
  split; [by intros v o|by intros v w E o|]. intros u v w E F o. etrans; [apply E|apply F].
Qed.
End equivalence.

(** One coin written over a lookup function. *)
Definition upd (f : OutPoint -> option Coin) (o : OutPoint) (x : option Coin) : OutPoint -> option Coin :=
  fun o' => if decide (o' = o) then x else f o'.

Lemma upd_eq f o x : upd f o x o = x.
Proof. unfold upd. by rewrite decide_True. Qed.

Lemma upd_ne f o o' x : o' <> o -> upd f o x o' = f o'.
Proof. intros. unfold upd. by rewrite decide_False. Qed.

(** ** The cache refines the set of coins *)

Section refinement.
Context {V : Type} `{CoinsView V} `{!LawfulView V}.
Implicit Types (c : CoinsCache V).

#[global] Instance CoinsCache_lawful : LawfulView (CoinsCache V).
Proof.
  intros c o. cbn. unfold CoinsCache_HaveCoin, CoinsCache_GetCoin.
  destruct (entries_ c !! o); [done|]. apply HaveCoin_spec.
Qed.

Lemma HaveCoin_false c o : HaveCoin c o = false <-> GetCoin c o = None.
Proof. rewrite HaveCoin_spec, bool_decide_eq_false, eq_None_not_Some. done. Qed.

Lemma GetCoin_MarkSpent c o o' : GetCoin (MarkSpent o c) o' = upd (GetCoin c) o None o'.
Proof.
  unfold upd, MarkSpent. cbn. destruct (HaveCoin (base_ c) o) eqn:Hb; unfold CoinsCache_GetCoin; cbn;
    destruct (decide (o' = o)) as [->|].
  - by rewrite lookup_insert_eq.
  - by rewrite lookup_insert_ne.
  - rewrite lookup_delete_eq. rewrite HaveCoin_spec in Hb.
    apply bool_decide_eq_false in Hb. by apply eq_None_not_Some.
  - by rewrite lookup_delete_ne.
Qed.

Lemma GetCoin_insert c o coin o' :
  GetCoin (mkCoinsCache (base_ c) (<[o := Some coin]> (entries_ c))) o' = upd (GetCoin c) o (Some coin) o'.
Proof.
  unfold upd. cbn. unfold CoinsCache_GetCoin. cbn. destruct (decide (o' = o)) as [->|].
  - by rewrite lookup_insert_eq.
  - by rewrite lookup_insert_ne.
Qed.

Lemma GetCoin_Write c o coin o' : GetCoin (Write o coin c) o' = upd (GetCoin c) o coin o'.
Proof. destruct coin; [apply GetCoin_insert|apply GetCoin_MarkSpent]. Qed.

Lemma AddCoin_true c o coin c' : AddCoin o coin c = (true, c') ->
  GetCoin c o = None /\ forall o', GetCoin c' o' = upd (GetCoin c) o (Some coin) o'.
Proof.
  unfold AddCoin. destruct (HaveCoin c o) eqn:E; [done|]. intros [= <-].
  split; [by apply HaveCoin_false|apply GetCoin_insert].
Qed.

Lemma AddCoin_absent c o coin : GetCoin c o = None -> exists c', AddCoin o coin c = (true, c').
Proof. intros E. unfold AddCoin. apply HaveCoin_false in E as ->. eauto. Qed.

Lemma AddCoin_false c o coin c' : AddCoin o coin c = (false, c') <-> c' = c /\ is_Some (GetCoin c o).
Proof.
  unfold AddCoin. rewrite HaveCoin_spec. case_bool_decide; naive_solver.
Qed.

Lemma SpendCoin_spec c o x c' : SpendCoin o c = (x, c') ->
  x = GetCoin c o /\ forall o', GetCoin c' o' = upd (GetCoin c) o None o'.
Proof.
  unfold SpendCoin. intros [= <- <-]. split; [done|]. intros o'. case_bool_decide as Hs.
  - apply GetCoin_MarkSpent.
  - unfold upd. destruct (decide (o' = o)) as [->|]; [|done]. by apply eq_None_not_Some.
Qed.

(** Flushing into a sink that is itself a cache: distinct keys, so the order
    of the hash map does not matter. *)
Lemma GetCoin_flush_entries order : forall c, NoDup order.*1 ->
  forall o, GetCoin (flush_entries order c) o =
    match list_to_map (M := gmap OutPoint (option Coin)) order !! o with
    | Some entry => entry
    | None => GetCoin c o
    end.
Proof.
  induction order as [|[k x] order IH]; intros c Hd o; [cbn; by rewrite lookup_empty|].
  apply NoDup_cons in Hd as [Hk Hd]. cbn [flush_entries fold_left]. fold (flush_entries order (Write k x c)).
  rewrite IH by done. rewrite GetCoin_Write. cbn [list_to_map foldr]. unfold upd.
  destruct (decide (o = k)) as [->|].
  - rewrite (not_elem_of_list_to_map_1 order k) by done. cbn. by rewrite lookup_insert_eq.
  - cbn. by rewrite lookup_insert_ne.
Qed.

Lemma GetCoin_Flush (batch : CoinsCache (CoinsCache V)) order o :
  order ≡ₚ map_to_list (entries_ batch) ->
  GetCoin (flush_entries order (base_ batch)) o = GetCoin batch o.
Proof.
  intros P. rewrite GetCoin_flush_entries by (rewrite P; apply NoDup_fst_map_to_list).
  replace (list_to_map order) with (entries_ batch); [done|].
  rewrite (list_to_map_proper order (map_to_list (entries_ batch))); [by rewrite list_to_map_to_list| |done].
  rewrite P. apply NoDup_fst_map_to_list.
Qed.

Lemma AddCoin_base c o coin : base_ (AddCoin o coin c).2 = base_ c.
Proof. unfold AddCoin. by destruct (HaveCoin c o). Qed.

Lemma SpendCoin_base c o : base_ (SpendCoin o c).2 = base_ c.
Proof. unfold SpendCoin, MarkSpent. cbn. repeat case_match; done. Qed.

(** ** No permanent record of the dead *)

(** Tombstones exist only to hide a coin of the base. *)
Definition lean c : Prop := forall o, entries_ c !! o = Some None -> HaveCoin (base_ c) o = true.

Lemma lean_Write c o x : lean c -> lean (Write o x c).
Proof.
  unfold lean. intros L o'. destruct x; cbn.
  - rewrite lookup_insert_Some. intros [[_ ?]|[_ ?]]; [done|by apply L].
  - unfold MarkSpent. destruct (HaveCoin (base_ c) o) eqn:E; cbn.
    + rewrite lookup_insert_Some. intros [[<- _]|[_ ?]]; [done|by apply L].
    + rewrite lookup_delete_Some. intros [_ ?]. by apply L.
Qed.

Lemma lean_flush order : forall c, lean c -> lean (flush_entries order c).
Proof. induction order as [|[o x] order IH]; intros c L; [done|]. apply IH. by apply lean_Write. Qed.

Lemma lean_AddCoin c o coin : lean c -> lean (AddCoin o coin c).2.
Proof. unfold AddCoin. destruct (HaveCoin c o); [done|]. apply (lean_Write c o (Some coin)). Qed.

Lemma lean_SpendCoin c o : lean c -> lean (SpendCoin o c).2.
Proof. unfold SpendCoin. cbn. case_bool_decide; [|done]. apply (lean_Write c o None). Qed.
End refinement.

(** ** The theorems *)

(** A history of operations on one cache. *)
Inductive CoinsOp := OpWrite (o : OutPoint) (x : option Coin) | OpAdd (o : OutPoint) (x : Coin)
  | OpSpend (o : OutPoint).

Definition run_op {V} `{CoinsView V} (c : CoinsCache V) (op : CoinsOp) : CoinsCache V :=
  match op with
  | OpWrite o x => Write o x c
  | OpAdd o x => (AddCoin o x c).2
  | OpSpend o => (SpendCoin o c).2
  end.

(** The same history on a plain set of coins. *)
Definition run_spec (f : OutPoint -> option Coin) (op : CoinsOp) : OutPoint -> option Coin :=
  match op with
  | OpWrite o x => upd f o x
  | OpAdd o x => if decide (is_Some (f o)) then f else upd f o (Some x)
  | OpSpend o => upd f o None
  end.

Section histories.
Context {V : Type} `{CoinsView V} `{!LawfulView V}.

Lemma run_op_spec (c : CoinsCache V) f op : (forall o, GetCoin c o = f o) ->
  forall o, GetCoin (run_op c op) o = run_spec f op o.
Proof.
  intros E o. destruct op as [k x|k x|k]; cbn [run_op run_spec].
  - rewrite GetCoin_Write. unfold upd. by rewrite E.
  - destruct (AddCoin k x c) as [[] c'] eqn:A; cbn [snd].
    + apply AddCoin_true in A as [N U]. rewrite decide_False by (rewrite <- E, N; by intros []).
      rewrite U. unfold upd. by rewrite E.
    + apply AddCoin_false in A as [-> S]. rewrite decide_True by (by rewrite <- E). apply E.
  - destruct (SpendCoin k c) as [x c'] eqn:A. apply SpendCoin_spec in A as [_ U]. cbn [snd].
    rewrite U. unfold upd. by rewrite E.
Qed.

Lemma run_op_base (c : CoinsCache V) op : base_ (run_op c op) = base_ c.
Proof.
  destruct op as [k [x|]|k x|k]; cbn; unfold MarkSpent, AddCoin, SpendCoin; repeat case_match; done.
Qed.

Lemma run_op_lean (c : CoinsCache V) op : lean c -> lean (run_op c op).
Proof. destruct op; [apply lean_Write|apply lean_AddCoin|apply lean_SpendCoin]. Qed.

Lemma run_ops_spec ops : forall (c : CoinsCache V) f, (forall o, GetCoin c o = f o) -> lean c ->
  (forall o, GetCoin (fold_left run_op ops c) o = fold_left run_spec ops f o) /\
  lean (fold_left run_op ops c) /\ base_ (fold_left run_op ops c) = base_ c.
Proof.
  induction ops as [|op ops IH]; intros c f E L; [done|]. cbn [fold_left].
  destruct (IH (run_op c op) (run_spec f op)) as (G & L' & B);
    [by apply run_op_spec|by apply run_op_lean|]. split_and!; [done|done|].
  by rewrite B, run_op_base.
Qed.
End histories.

(** C31: the cache is the set.  Over any lawful view and after any history of
    writes, adds and spends, every lookup in the cache answers what the plain
    set of coins with the same history would, presence agrees with lookup, and
    a tombstone is kept only where it hides a coin of the base. *)
Theorem cache_refines_set {V} `{CoinsView V} `{!LawfulView V} (base : V) (ops : list CoinsOp) (o : OutPoint) :
  let c := fold_left run_op ops (Over base) in
  GetCoin c o = fold_left run_spec ops (GetCoin base) o /\
  HaveCoin c o = bool_decide (is_Some (GetCoin c o)) /\
  (entries_ c !! o = Some None -> HaveCoin base o = true).
Proof.
  cbv zeta. destruct (run_ops_spec ops (Over base) (GetCoin base)) as (G & L & B).
  - intros k. cbn. unfold CoinsCache_GetCoin. cbn. by rewrite lookup_empty.
  - intros k. cbn. by rewrite lookup_empty.
  - split_and!; [apply G|apply HaveCoin_spec|]. intros E. apply L in E. by rewrite B in E.
Qed.

Definition sample_outpoint : OutPoint := mkOutPoint (replicate 32 Byte.x07) 1.
Definition sample_stored_coin : Coin := mkCoin (mkTxOutput 5 (mkLock 1 [])) 3 false.

Lemma cache_refines_set_witness :
  let ops := [OpAdd sample_outpoint sample_stored_coin; OpSpend sample_outpoint] in
  GetCoin (fold_left run_op ops (Over (Over Empty))) sample_outpoint =
  fold_left run_spec ops (GetCoin (Over Empty)) sample_outpoint.
Proof. intros ops. apply (cache_refines_set (Over Empty) ops sample_outpoint). Defined.

(** Flushing is atomic in effect.  Writing a batch's entries into the cache
    it was opened over, in whatever order the hash map yields them, makes that
    cache answer every lookup as the batch did. *)
Theorem flush_transfers {V} `{CoinsView V} `{!LawfulView V} (parent : CoinsCache V) (ops : list CoinsOp)
    (order : list (OutPoint * option Coin)) (o : OutPoint)
    (Hp : order ≡ₚ map_to_list (entries_ (fold_left run_op ops (Over parent)))) :
  GetCoin (flush_entries order parent) o = fold_left run_spec ops (GetCoin parent) o.
Proof.
  destruct (run_ops_spec ops (Over parent) (GetCoin parent)) as (G & _ & B).
  - intros k. cbn. unfold CoinsCache_GetCoin at 1. cbn. by rewrite lookup_empty.
  - intros k. cbn. by rewrite lookup_empty.
  - rewrite <- G. rewrite <- (GetCoin_Flush _ order o Hp), B. done.
Qed.

Lemma flush_transfers_witness :
  GetCoin (flush_entries [(sample_outpoint, Some sample_stored_coin)] (Over Empty)) sample_outpoint =
  Some sample_stored_coin.
Proof.
  rewrite (flush_transfers (Over Empty) [OpAdd sample_outpoint sample_stored_coin] _ sample_outpoint);
    [vm_compute; reflexivity|vm_compute; reflexivity].
Defined.
