(* ===== verification/Connect.v ===== *)
(** * Connecting and disconnecting blocks (utxo/connect.hpp, src/utxo/connect.cpp)

    [ConnectBlock] and [DisconnectBlock] as explicit state passing over a batch
    cache, with every early return.  The theorems are about what the loops do
    to the set of coins: disconnecting restores it exactly, and connecting never
    adds more value than the schedule allows. *)

From Stdlib Require Import String.
From S2P Require Import Prelude Overflow Serialize Hex Crypto Primitives Target Issuance Params Merkle Sighash Validation Coins.
From stdpp Require Import gmap.
#[local] Open Scope Z_scope.

Module Connect.
Import Params Validation.
#[local] Abbreviation encode := Serialize.encode.

(** ** The undo record *)

Record TxUndo := mkTxUndo { spent : list Coin }.
Record BlockUndo := mkBlockUndo { undo_transactions : list TxUndo }.

#[global] Instance TxUndo_eq_dec : EqDecision TxUndo.
Proof. solve_decision. Defined.
#[global] Instance BlockUndo_eq_dec : EqDecision BlockUndo.
Proof. solve_decision. Defined.

Definition TxUndo_Serialize (u : TxUndo) (w : Writer) : Writer :=
  write_all Coin_Serialize (spent u) (WriteCompactSize (zlen (spent u)) w).

Definition TxUndo_Deserialize (max_inputs max_lock_program_size : Z) : Read TxUndo :=
  coins ← read_vector max_inputs Coin_MIN_SERIALIZED_SIZE (Coin_Deserialize max_lock_program_size);
  mret (mkTxUndo coins).

Definition BlockUndo_Serialize (u : BlockUndo) (w : Writer) : Writer :=
  write_all TxUndo_Serialize (undo_transactions u)
    (WriteCompactSize (zlen (undo_transactions u)) w).

Definition BlockUndo_Deserialize (params : ChainParams) : Read BlockUndo :=
  txs ← read_vector (max_transactions (block_limits params)) 1
          (TxUndo_Deserialize (max_inputs (limits_tx (block_limits params)))
             (max_lock_program_size (limits_tx (block_limits params))));
  mret (mkBlockUndo txs).

Record ConnectResult := mkConnectResult { undo : BlockUndo; total_fees : Z }.

Inductive DisconnectError :=
  | UndoDoesNotDescribeBlock
  | CreatedCoinMissing
  | CreatedCoinDoesNotMatch
  | SpentOutpointOccupied.

Definition Describe_disconnect (error : DisconnectError) : string :=
  match error with
  | UndoDoesNotDescribeBlock => "undo record does not describe the block being disconnected"
  | CreatedCoinMissing => "an output the block created is not in the UTXO set"
  | CreatedCoinDoesNotMatch => "an output the block created is in the UTXO set with different contents"
  | SpentOutpointOccupied => "an outpoint the block spent is unspent again"
  end%string.

(** [std::expected<void, DisconnectError>], with the state the loops carry. *)
Inductive Disconnected (A : Type) := Done (a : A) | Failed (e : DisconnectError).
Arguments Done {A} _.
Arguments Failed {A} _.

#[global] Instance Disconnected_bind : MBind Disconnected := fun A B f m =>
  match m with Done a => f a | Failed e => Failed e end.

Definition OutPointFor (txid : bytes) (index : Z) : OutPoint := mkOutPoint txid (wrapu 32 index).

Definition IsStored (output : TxOutput) : bool := negb (Lock_IsUnspendable (out_lock output)).

Section connect.
Context `{Sha256Impl} `{Signature.SignatureBackends} {V : Type} `{CoinsView V}.
Abbreviation Batch := (CoinsCache (CoinsCache V)).

(** ** Connect *)

(** [for (input : tx.inputs)]: remove each coin, collecting it. *)
Fixpoint spend_inputs (inputs : list TxInput) (batch : Batch) (collected : list Coin)
    : Computed (list Coin * Batch) :=
  match inputs with
  | [] => Ok (collected, batch)
  | input :: inputs =>
      match SpendCoin (in_outpoint input) batch with
      | (None, _) => Err TxInputMissingOrSpent
      | (Some coin, batch) => spend_inputs inputs batch (collected ++ [coin])
      end
  end.

(** [for (out_index ...)]: add each stored output. *)
Fixpoint add_outputs (txid : bytes) (height : Z) (is_coinbase : bool) (out_index : Z)
    (outputs : list TxOutput) (batch : Batch) : Computed Batch :=
  match outputs with
  | [] => Ok batch
  | output :: outputs =>
      if negb (IsStored output)
      then add_outputs txid height is_coinbase (out_index + 1) outputs batch
      else match AddCoin (OutPointFor txid out_index) (mkCoin output height is_coinbase) batch with
           | (false, _) => Err TxCreatesExistingOutpoint
           | (true, batch) => add_outputs txid height is_coinbase (out_index + 1) outputs batch
           end
  end.

Record ConnectState := mkState { st_batch : Batch; st_undo : list TxUndo; st_fees : Z }.

(** One iteration of the transaction loop. *)
Definition connect_tx (params : ChainParams) (height : Z) (is_coinbase : bool) (tx : Transaction)
    (st : ConnectState) : Computed ConnectState :=
  if negb (Bool.eqb (IsCoinbase tx) is_coinbase) then Err BlockMultipleCoinbases
  else
    st ← (if negb is_coinbase then
            '(coins, batch) ← spend_inputs (tx_inputs tx) (st_batch st) [];
            fee ← CheckTransactionInputs tx coins height params;
            let '(ok, fees) := Overflow.TryAccumulate Overflow.T_i64 (st_fees st) fee in
            if negb ok || negb (IsValidAmount fees) then Err BlockFeesOutOfRange
            else Ok (mkState batch (st_undo st ++ [mkTxUndo coins]) fees)
          else Ok st);
    batch ← add_outputs (Txid tx) height is_coinbase 0 (tx_outputs tx) (st_batch st);
    Ok (mkState batch (st_undo st) (st_fees st)).

Fixpoint connect_loop (params : ChainParams) (height : Z) (first : bool) (txs : list Transaction)
    (st : ConnectState) : Computed ConnectState :=
  match txs with
  | [] => Ok st
  | tx :: txs =>
      st ← connect_tx params height first tx st;
      connect_loop params height false txs st
  end.

(** The result and the caller's set afterwards. *)
Definition ConnectBlock (block : Block) (coins : CoinsCache V) (params : ChainParams)
    : Computed ConnectResult * CoinsCache V :=
  match blk_transactions block with
  | [] => (Err BlockNoTransactions, coins)
  | front :: _ =>
      if negb (IsCoinbase front) then (Err BlockFirstTxNotCoinbase, coins)
      else
        let batch := Over coins in
        let height := hdr_height (blk_header block) in
        match connect_loop params height true (blk_transactions block) (mkState batch [] 0) with
        | Err e => (Err e, coins)
        | Ok st =>
            match CheckCoinbaseAmount block (st_fees st) params with
            | Err e => (Err e, coins)
            | Ok _ =>
                let '(_, coins) := Flush (st_batch st) coins in
                (Ok (mkConnectResult (mkBlockUndo (st_undo st)) (st_fees st)), coins)
            end
        end
  end.

(** ** Disconnect *)

(** [for (out_index ...)]: remove each stored output, checking its contents. *)
Fixpoint remove_outputs (txid : bytes) (height : Z) (is_coinbase : bool) (out_index : Z)
    (outputs : list TxOutput) (batch : Batch) : Disconnected Batch :=
  match outputs with
  | [] => Done batch
  | output :: outputs =>
      if negb (IsStored output)
      then remove_outputs txid height is_coinbase (out_index + 1) outputs batch
      else match SpendCoin (OutPointFor txid out_index) batch with
           | (None, _) => Failed CreatedCoinMissing
           | (Some removed, batch) =>
               if negb (bool_decide (removed = mkCoin output height is_coinbase))
               then Failed CreatedCoinDoesNotMatch
               else remove_outputs txid height is_coinbase (out_index + 1) outputs batch
           end
  end.

(** The input loop, over the inputs and their coins last to first. *)
Fixpoint restore_inputs (pairs : list (TxInput * Coin)) (batch : Batch) : Disconnected Batch :=
  match pairs with
  | [] => Done batch
  | (input, coin) :: pairs =>
      match AddCoin (in_outpoint input) coin batch with
      | (false, _) => Failed SpentOutpointOccupied
      | (true, batch) => restore_inputs pairs batch
      end
  end.

(** One iteration; [tx_undo] is [None] for the coinbase, which has no entry. *)
Definition disconnect_tx (height : Z) (tx : Transaction) (tx_undo : option TxUndo) (batch : Batch)
    : Disconnected Batch :=
  let is_coinbase := match tx_undo with None => true | Some _ => false end in
  batch ← remove_outputs (Txid tx) height is_coinbase 0 (tx_outputs tx) batch;
  match tx_undo with
  | None => Done batch
  | Some u =>
      if negb (zlen (spent u) =? zlen (tx_inputs tx)) then Failed UndoDoesNotDescribeBlock
      else restore_inputs (rev (combine (tx_inputs tx) (spent u))) batch
  end.

(** The transactions from last to first. *)
Fixpoint disconnect_loop (height : Z) (items : list (Transaction * option TxUndo)) (batch : Batch)
    : Disconnected Batch :=
  match items with
  | [] => Done batch
  | (tx, tx_undo) :: items =>
      batch ← disconnect_tx height tx tx_undo batch;
      disconnect_loop height items batch
  end.

(** Each transaction with its undo entry; index zero has none. *)
Definition undo_items (txs : list Transaction) (undos : list TxUndo) : list (Transaction * option TxUndo) :=
  combine txs (None :: map Some undos).

Definition DisconnectBlock (block : Block) (undo : BlockUndo) (coins : CoinsCache V)
    : Disconnected unit * CoinsCache V :=
  if (zlen (blk_transactions block) =? 0)
     || negb (zlen (undo_transactions undo) + 1 =? zlen (blk_transactions block))
  then (Failed UndoDoesNotDescribeBlock, coins)
  else
    let batch := Over coins in
    match disconnect_loop (hdr_height (blk_header block))
            (rev (undo_items (blk_transactions block) (undo_transactions undo))) batch with
    | Failed e => (Failed e, coins)
    | Done batch => let '(_, coins) := Flush batch coins in (Done tt, coins)
    end.
End connect.

(** ** Undoing one loop at a time *)

(** The coins a transaction's stored outputs become. *)
Fixpoint created (txid : bytes) (height : Z) (is_coinbase : bool) (out_index : Z) (outputs : list TxOutput)
    : list (OutPoint * Coin) :=
  match outputs with
  | [] => []
  | output :: outputs =>
      if negb (IsStored output) then created txid height is_coinbase (out_index + 1) outputs
      else (OutPointFor txid out_index, mkCoin output height is_coinbase)
           :: created txid height is_coinbase (out_index + 1) outputs
  end.

(** A set of coins with the coins of a list laid over it. *)
Definition overlay (l : list (OutPoint * Coin)) (f : OutPoint -> option Coin) (o : OutPoint) : option Coin :=
  match list_to_map (M := gmap OutPoint Coin) l !! o with Some c => Some c | None => f o end.

Lemma overlay_nil f o : overlay [] f o = f o.
Proof. unfold overlay. cbn. by rewrite lookup_empty. Qed.

Lemma overlay_cons k c l f o : overlay ((k, c) :: l) f o = if decide (o = k) then Some c else overlay l f o.
Proof.
  unfold overlay. cbn. destruct (decide (o = k)) as [->|]; [by rewrite lookup_insert_eq|].
  by rewrite lookup_insert_ne.
Qed.

Lemma overlay_notin l f o : o ∉ l.*1 -> overlay l f o = f o.
Proof. intros Hn. unfold overlay. by rewrite not_elem_of_list_to_map_1. Qed.

Lemma overlay_in l f o c : NoDup l.*1 -> (o, c) ∈ l -> overlay l f o = Some c.
Proof. intros Hd Hin. unfold overlay. by rewrite (elem_of_list_to_map_1 l o c). Qed.

Section undo.
Context `{SH : Sha256Impl} `{SB : Signature.SignatureBackends} {V : Type} `{CoinsView V} `{!LawfulView V}.
Implicit Types (b : CoinsCache (CoinsCache V)).

Lemma add_outputs_Ok txid h cb outputs : forall i b b',
  add_outputs txid h cb i outputs b = Ok b' ->
  let l := created txid h cb i outputs in
  NoDup l.*1 /\ (forall o, o ∈ l.*1 -> GetCoin b o = None) /\
  (forall o, GetCoin b' o = overlay l (GetCoin b) o).
Proof.
  induction outputs as [|out outputs IH]; intros i b b'; cbn [add_outputs created].
  { intros [= <-]. split_and!; [constructor|by intros o ?%elem_of_nil|intros o; by rewrite overlay_nil]. }
  destruct (IsStored out); cbn [negb]; [|apply IH].
  destruct (AddCoin _ _ b) as [[] b1] eqn:A; [|done]. apply AddCoin_true in A as [N U].
  intros E. apply IH in E as (Hd & Habs & Hget). cbn [fmap list_fmap fst].
  assert (OutPointFor txid i ∉ (created txid h cb (i + 1) outputs).*1) as Hn.
  { intros Hin. apply Habs in Hin. rewrite U, upd_eq in Hin. done. }
  split_and!; [by constructor| |].
  - intros o [->|Hin]%elem_of_cons; [done|]. specialize (Habs o Hin). rewrite U in Habs.
    unfold upd in Habs. by destruct (decide _).
  - intros o. rewrite Hget, overlay_cons. destruct (decide (o = OutPointFor txid i)) as [->|Hne].
    + rewrite overlay_notin by done. by rewrite U, upd_eq.
    + unfold overlay. destruct (list_to_map _ !! o); [done|]. by rewrite U, upd_ne.
Qed.

Lemma remove_outputs_Done txid h cb outputs : forall i b,
  let l := created txid h cb i outputs in
  NoDup l.*1 -> (forall o c, (o, c) ∈ l -> GetCoin b o = Some c) ->
  exists b', remove_outputs txid h cb i outputs b = Done b' /\
    forall o, GetCoin b' o = if decide (o ∈ l.*1) then None else GetCoin b o.
Proof.
  induction outputs as [|out outputs IH]; intros i b; cbn [remove_outputs created].
  { intros _ _. exists b. split; [done|]. intros o. by rewrite decide_False by apply not_elem_of_nil. }
  destruct (IsStored out); cbn [negb]; [|apply IH]. cbn [fmap list_fmap fst].
  intros [Hn Hd]%NoDup_cons Hget.
  destruct (SpendCoin (OutPointFor txid i) b) as [x b1] eqn:S. apply SpendCoin_spec in S as [-> U].
  rewrite (Hget _ _ (list_elem_of_here _ _)). rewrite bool_decide_eq_true_2 by done. cbn [negb].
  destruct (IH (i + 1) b1 Hd) as (b' & E & G).
  { intros o c Hin. rewrite U, upd_ne; [apply Hget; by right|].
    intros ->. apply Hn. apply list_elem_of_fmap. by exists (OutPointFor txid i, c). }
  exists b'. split; [done|]. intros o. rewrite G, U. unfold upd.
  destruct (decide (o = OutPointFor txid i)) as [->|Hne].
  - rewrite (decide_True (P := OutPointFor txid i ∈ _ :: _)) by left. by destruct (decide _).
  - destruct (decide (o ∈ (created txid h cb (i + 1) outputs).*1)) as [Hin|Hout].
    + by rewrite decide_True by (by right).
    + by rewrite decide_False by (by rewrite not_elem_of_cons).
Qed.

Lemma restore_inputs_app xs ys b :
  restore_inputs (xs ++ ys) b = (b ← restore_inputs xs b; restore_inputs ys b).
Proof.
  revert b. induction xs as [|[i c] xs IH]; intros b; [done|]. cbn [app restore_inputs].
  destruct (AddCoin _ _ b) as [[] b1]; [apply IH|done].
Qed.

Lemma disconnect_loop_app h xs ys b :
  disconnect_loop h (xs ++ ys) b = (b ← disconnect_loop h xs b; disconnect_loop h ys b).
Proof.
  revert b. induction xs as [|[tx u] xs IH]; intros b; [done|]. cbn [app disconnect_loop].
  destruct (disconnect_tx h tx u b) as [b1|e]; [apply IH|done].
Qed.

End undo.

(** ** The batch's base is the caller's set *)

Section bases.
Context `{SH : Sha256Impl} `{SB : Signature.SignatureBackends} {V : Type} `{CoinsView V} `{!LawfulView V}.
Implicit Types (b : CoinsCache (CoinsCache V)).

Lemma spend_inputs_base inputs : forall b collected all b',
  spend_inputs inputs b collected = Ok (all, b') -> base_ b' = base_ b.
Proof.
  induction inputs as [|i inputs IH]; intros b collected all b'; cbn [spend_inputs]; [by intros [= _ <-]|].
  pose proof (SpendCoin_base b (in_outpoint i)) as B. destruct (SpendCoin _ b) as [[c|] b1]; [|done].
  intros E%IH. cbn in B. congruence.
Qed.

Lemma add_outputs_base txid h cb outputs : forall i b b',
  add_outputs txid h cb i outputs b = Ok b' -> base_ b' = base_ b.
Proof.
  induction outputs as [|o outputs IH]; intros i b b'; cbn [add_outputs]; [by intros [= <-]|].
  destruct (IsStored o); cbn [negb]; [|apply IH].
  pose proof (AddCoin_base b (OutPointFor txid i) (mkCoin o h cb)) as B.
  destruct (AddCoin _ _ b) as [[] b1]; [|done]. intros E%IH. cbn in B. congruence.
Qed.

Lemma connect_tx_base p h cb tx st st' : connect_tx p h cb tx st = Ok st' ->
  base_ (st_batch st') = base_ (st_batch st).
Proof.
  unfold connect_tx. destruct (negb (Bool.eqb _ _)); [done|]. rewrite bind_Ok.
  intros (st1 & E1 & (b & A%add_outputs_base & [= <-])%bind_Ok). cbn. rewrite A.
  destruct cb; cbn [negb] in E1; [congruence|].
  apply bind_Ok in E1 as ([coins b1] & S%spend_inputs_base & (fee & _ & E1)%bind_Ok).
  destruct (Overflow.TryAccumulate _ _ _) as [ok fees]. destruct (negb ok || _); [done|].
  by injection E1 as <-.
Qed.

Lemma connect_loop_base p h txs : forall first st st', connect_loop p h first txs st = Ok st' ->
  base_ (st_batch st') = base_ (st_batch st).
Proof.
  induction txs as [|tx txs IH]; intros first st st'; cbn [connect_loop]; [by intros [= <-]|].
  rewrite bind_Ok. intros (st1 & T%connect_tx_base & L%IH). congruence.
Qed.

Lemma remove_outputs_base txid h cb outputs : forall i b b',
  remove_outputs txid h cb i outputs b = Done b' -> base_ b' = base_ b.
Proof.
  induction outputs as [|o outputs IH]; intros i b b'; cbn [remove_outputs]; [by intros [= <-]|].
  destruct (IsStored o); cbn [negb]; [|apply IH].
  pose proof (SpendCoin_base b (OutPointFor txid i)) as B. destruct (SpendCoin _ b) as [[c|] b1]; [|done].
  destruct (negb _); [done|]. intros E%IH. cbn in B. congruence.
Qed.

Lemma restore_inputs_base pairs : forall b b', restore_inputs pairs b = Done b' -> base_ b' = base_ b.
Proof.
  induction pairs as [|[i c] pairs IH]; intros b b'; cbn [restore_inputs]; [by intros [= <-]|].
  pose proof (AddCoin_base b (in_outpoint i) c) as B. destruct (AddCoin _ _ b) as [[] b1]; [|done].
  intros E%IH. cbn in B. congruence.
Qed.

Lemma disconnect_tx_base h tx u b b' : disconnect_tx h tx u b = Done b' -> base_ b' = base_ b.
Proof.
  unfold disconnect_tx. destruct (remove_outputs _ _ _ _ _ b) as [b1|e] eqn:R; [|done].
  apply remove_outputs_base in R. destruct u as [u|]; cbn; [|by intros [= <-]].
  destruct (negb _); [done|]. intros E%restore_inputs_base. congruence.
Qed.

Lemma disconnect_loop_base h items : forall b b', disconnect_loop h items b = Done b' -> base_ b' = base_ b.
Proof.
  induction items as [|[tx u] items IH]; intros b b'; cbn [disconnect_loop]; [by intros [= <-]|].
  destruct (disconnect_tx h tx u b) as [b1|e] eqn:D; [|done]. cbn.
  apply disconnect_tx_base in D. intros E%IH. congruence.
Qed.

(** ** Success, unfolded *)

Lemma Over_same (c : CoinsCache V) : Over c ≗ c.
Proof. intros o. cbn. unfold CoinsCache_GetCoin at 1. cbn. by rewrite lookup_empty. Qed.

Lemma ConnectBlock_Ok block (coins coins' : CoinsCache V) p r :
  ConnectBlock block coins p = (Ok r, coins') ->
  exists front txs st1 st, blk_transactions block = front :: txs /\ IsCoinbase front = true /\
    connect_tx p (hdr_height (blk_header block)) true front (mkState (Over coins) [] 0) = Ok st1 /\
    connect_loop p (hdr_height (blk_header block)) false txs st1 = Ok st /\
    CheckCoinbaseAmount block (st_fees st) p = Accept /\
    r = mkConnectResult (mkBlockUndo (st_undo st)) (st_fees st) /\ coins' ≗ st_batch st.
Proof.
  unfold ConnectBlock. destruct (blk_transactions block) as [|front txs] eqn:Et; [done|].
  destruct (IsCoinbase front) eqn:Ec; cbn [negb]; [|done]. cbn [connect_loop].
  destruct (connect_tx p _ true front _) as [st1|e] eqn:T; [|done]. cbn.
  destruct (connect_loop p _ false txs st1) as [st|e] eqn:L; [|done].
  destruct (CheckCoinbaseAmount block (st_fees st) p) as [[]|e] eqn:A; [|done].
  intros [= <- <-]. exists front, txs, st1, st. split_and!; try done.
  intros o. apply connect_tx_base in T. apply connect_loop_base in L. cbn in T.
  rewrite <- (GetCoin_Flush (st_batch st) (map_to_list (entries_ (st_batch st))) o) by done.
  by rewrite L, T.
Qed.

Lemma disconnect_flush block u (coins : CoinsCache V) b :
  zlen (undo_transactions u) + 1 = zlen (blk_transactions block) ->
  disconnect_loop (hdr_height (blk_header block))
    (rev (undo_items (blk_transactions block) (undo_transactions u))) (Over coins) = Done b ->
  exists coins', DisconnectBlock block u coins = (Done tt, coins') /\ coins' ≗ b.
Proof.
  intros Hl D. unfold DisconnectBlock. pose proof (zlen_nonneg (undo_transactions u)).
  rewrite (proj2 (Z.eqb_neq (zlen (blk_transactions block)) 0)), (proj2 (Z.eqb_eq _ _) Hl) by lia.
  cbn [negb orb]. rewrite D. eexists. split; [reflexivity|]. intros o.
  rewrite <- (GetCoin_Flush b (map_to_list (entries_ b)) o) by done.
  apply disconnect_loop_base in D. by rewrite D.
Qed.
End bases.

(** ** The abstract ledger

    What connecting a block means for a set of coins given as a plain function,
    with no caches, batches or loops over outpoints. *)

Definition Ledger := OutPoint -> option Coin.

Definition without (os : list OutPoint) (f : Ledger) : Ledger :=
  fun o => if decide (o ∈ os) then None else f o.

(** [f'] is [f] with the transaction's stored outputs added at free outpoints. *)
Definition creates (txid : bytes) (h : Z) (cb : bool) (outputs : list TxOutput) (f f' : Ledger) : Prop :=
  let l := created txid h cb 0 outputs in
  NoDup l.*1 /\ (forall o, o ∈ l.*1 -> f o = None) /\ forall o, f' o = overlay l f o.

Section ledger.
Context `{SH : Sha256Impl} `{SB : Signature.SignatureBackends}.

(** One transaction: what it records for undo, the fee it pays, the ledger after. *)
Inductive tx_step (p : ChainParams) (h : Z) (f : Ledger) : bool -> Transaction -> list TxUndo -> Z -> Ledger -> Prop :=
  | step_coinbase tx f' :
      IsCoinbase tx = true -> creates (Txid tx) h true (tx_outputs tx) f f' ->
      tx_step p h f true tx [] 0 f'
  | step_spend tx coins fee f' :
      IsCoinbase tx = false -> NoDup (map in_outpoint (tx_inputs tx)) ->
      map f (map in_outpoint (tx_inputs tx)) = map Some coins ->
      CheckTransactionInputs tx coins h p = Ok fee ->
      creates (Txid tx) h false (tx_outputs tx) (without (map in_outpoint (tx_inputs tx)) f) f' ->
      tx_step p h f false tx [mkTxUndo coins] fee f'.

(** A list of transactions, the running fees staying in the money range. *)
Inductive txs_step (p : ChainParams) (h : Z) : bool -> list Transaction -> Ledger -> Z -> list TxUndo -> Z -> Ledger -> Prop :=
  | steps_nil first f fees f' : (forall o, f' o = f o) -> txs_step p h first [] f fees [] fees f'
  | steps_cons first tx txs f f1 f' u us fee fees fees' :
      tx_step p h f first tx u fee f1 -> 0 <= fees + fee <= MAX_MONEY ->
      txs_step p h false txs f1 (fees + fee) us fees' f' ->
      txs_step p h first (tx :: txs) f fees (u ++ us) fees' f'.

Definition block_step (p : ChainParams) (block : Block) (f : Ledger) (r : ConnectResult) (f' : Ledger) : Prop :=
  blk_transactions block <> [] /\
  txs_step p (hdr_height (blk_header block)) true (blk_transactions block) f 0
    (undo_transactions (undo r)) (total_fees r) f' /\
  CheckCoinbaseAmount block (total_fees r) p = Accept.
End ledger.

Section refinement.
Context `{SH : Sha256Impl} `{SB : Signature.SignatureBackends} {V : Type} `{CoinsView V} `{!LawfulView V}.
Implicit Types (b : CoinsCache (CoinsCache V)).

Lemma without_cons o os f k : without (o :: os) f k = without os (upd f o None) k.
Proof.
  unfold without, upd. destruct (decide (k = o)) as [->|Hne].
  - rewrite decide_True by left. by destruct (decide _).
  - destruct (decide (k ∈ os)); [by rewrite decide_True by (by right)|].
    by rewrite decide_False by (by rewrite not_elem_of_cons).
Qed.

Lemma map_upd_notin f o x os : o ∉ os -> map (upd f o x) os = map f os.
Proof.
  intros Hn. apply map_ext_in. intros k Hk%list_elem_of_In. apply upd_ne. by intros ->.
Qed.

Lemma map_upd_in f o os cs : map (upd f o None) os = map Some cs -> o ∉ os.
Proof.
  intros E Hin. apply (list_elem_of_fmap_2 (upd f o None) os o) in Hin.
  change (upd f o None <$> os) with (map (upd f o None) os) in Hin. rewrite E, upd_eq in Hin.
  apply list_elem_of_fmap in Hin as (c & ? & _). done.
Qed.

Lemma spend_inputs_Ok inputs : forall b collected all b',
  spend_inputs inputs b collected = Ok (all, b') ->
  let os := map in_outpoint inputs in
  (exists cs, all = collected ++ cs /\ NoDup os /\ map (GetCoin b) os = map Some cs) /\
  forall o, GetCoin b' o = without os (GetCoin b) o.
Proof.
  induction inputs as [|i inputs IH]; intros b collected all b'; cbn [spend_inputs map].
  { intros [= <- <-]. split; [|done]. exists []. rewrite app_nil_r. split_and!; [done|constructor|done]. }
  destruct (SpendCoin (in_outpoint i) b) as [x b1] eqn:S. apply SpendCoin_spec in S as [Ex U].
  destruct x as [c|]; [|done]. intros ((cs & -> & Hd & Hm) & G)%IH.
  rewrite (map_ext _ _ U) in Hm. pose proof (map_upd_in _ _ _ _ Hm) as Hn.
  rewrite map_upd_notin in Hm by done. split.
  - exists (c :: cs). rewrite <- app_assoc. split_and!; [done|by constructor|]. cbn [map]. by rewrite Hm, Ex.
  - intros o. rewrite G, without_cons. unfold without. by rewrite U.
Qed.

Lemma spend_inputs_total inputs : forall b collected cs,
  let os := map in_outpoint inputs in
  NoDup os -> map (GetCoin b) os = map Some cs ->
  exists b', spend_inputs inputs b collected = Ok (collected ++ cs, b').
Proof.
  induction inputs as [|i inputs IH]; intros b collected cs os Hd Hm; subst os; cbn [map spend_inputs] in *.
  { destruct cs; [|done]. rewrite app_nil_r. by exists b. }
  destruct cs as [|c cs]; [done|]. assert (GetCoin b (in_outpoint i) = Some c) as Ec by (injection Hm; done).
  injection Hm as _ Hm. apply NoDup_cons in Hd as [Hn Hd].
  destruct (SpendCoin (in_outpoint i) b) as [x b1] eqn:S. apply SpendCoin_spec in S as [-> U].
  rewrite Ec. destruct (IH b1 (collected ++ [c]) cs Hd) as [b' E].
  - rewrite (map_ext _ _ U), map_upd_notin by done. exact Hm.
  - exists b'. by rewrite E, <- app_assoc.
Qed.

Lemma overlay_ext l f g : (forall o, f o = g o) -> forall o, overlay l f o = overlay l g o.
Proof. intros E o. unfold overlay. by rewrite E. Qed.

Lemma without_ext os f g : (forall o, f o = g o) -> forall o, without os f o = without os g o.
Proof. intros E o. unfold without. by rewrite E. Qed.

Lemma creates_ext txid h cb outs f g f' : (forall o, f o = g o) ->
  creates txid h cb outs f f' -> creates txid h cb outs g f'.
Proof.
  intros E (D & A & G). split_and!; [done| |].
  - intros o Ho. rewrite <- E. by apply A.
  - intros o. rewrite G. by apply overlay_ext.
Qed.

Lemma add_outputs_total txid h cb outputs : forall i b,
  let l := created txid h cb i outputs in
  NoDup l.*1 -> (forall o, o ∈ l.*1 -> GetCoin b o = None) ->
  exists b', add_outputs txid h cb i outputs b = Ok b'.
Proof.
  induction outputs as [|out outputs IH]; intros i b; cbn [add_outputs created]; [by exists b|].
  destruct (IsStored out); cbn [negb]; [|apply IH]. cbn [fmap list_fmap fst]. intros [Hn Hd]%NoDup_cons Ha.
  destruct (AddCoin_absent b (OutPointFor txid i) (mkCoin out h cb)) as [b1 A]; [by apply Ha; left|].
  rewrite A. apply AddCoin_true in A as [_ U]. apply IH; [done|]. intros o Ho.
  rewrite U, upd_ne; [by apply Ha; right|]. by intros ->.
Qed.

Lemma connect_tx_step p h cb tx st st' : connect_tx p h cb tx st = Ok st' ->
  0 <= st_fees st <= MAX_MONEY ->
  exists u fee, tx_step p h (GetCoin (st_batch st)) cb tx u fee (GetCoin (st_batch st')) /\
    st_undo st' = st_undo st ++ u /\ st_fees st' = st_fees st + fee /\ 0 <= st_fees st' <= MAX_MONEY.
Proof.
  unfold connect_tx. destruct (IsCoinbase tx) eqn:Ec, cb; cbn [Bool.eqb negb]; try done; rewrite bind_Ok.
  - intros (st1 & [= <-] & (b & A%add_outputs_Ok & [= <-])%bind_Ok) R. exists [], 0.
    cbn [st_batch st_undo st_fees] in *. rewrite app_nil_r. split_and!; try (done || lia). by constructor.
  - intros (st1 & E1 & (b & A%add_outputs_Ok & [= <-])%bind_Ok) R.
    apply bind_Ok in E1 as ([coins b1] & S & (fee & Hfee & E1)%bind_Ok).
    destruct (Overflow.TryAccumulate _ _ _) as [ok fees] eqn:Acc.
    destruct ok; cbn [negb orb] in E1; [|done].
    destruct (IsValidAmount fees) eqn:Hv; cbn [negb] in E1; [|done]. injection E1 as <-.
    apply Overflow.TryAccumulate_true in Acc as [-> _]. apply IsValidAmount_spec in Hv.
    apply spend_inputs_Ok in S as ((cs & E & Hd & Hm) & G). cbn in E. subst coins.
    exists [mkTxUndo cs], fee. cbn [st_batch st_undo st_fees] in *.
    split_and!; try (done || lia). apply step_spend; try done.
    by eapply creates_ext; [|exact A].
Qed.

Lemma connect_tx_total p h f cb tx u fee f' st : tx_step p h f cb tx u fee f' ->
  (forall o, GetCoin (st_batch st) o = f o) -> 0 <= st_fees st + fee <= MAX_MONEY ->
  exists b', connect_tx p h cb tx st = Ok (mkState b' (st_undo st ++ u) (st_fees st + fee)) /\
    forall o, GetCoin b' o = f' o.
Proof.
  intros [tx' g Ec (D & A & G)|tx' coins fee' g Ec Hd Hm Hc (D & A & G)] E Hr;
    unfold connect_tx; rewrite Ec; cbn [Bool.eqb negb].
  - destruct (add_outputs_total (Txid tx') h true (tx_outputs tx') 0 (st_batch st) D) as [b' Ab].
    { intros o Ho. rewrite E. by apply A. }
    exists b'. rewrite app_nil_r, Z.add_0_r. cbn. rewrite Ab. split; [done|]. intros o.
    apply add_outputs_Ok in Ab as (_ & _ & Gb). etrans; [apply Gb|]. rewrite G. by apply overlay_ext.
  - destruct (spend_inputs_total (tx_inputs tx') (st_batch st) [] coins Hd) as [b1 S].
    { by rewrite (map_ext _ _ E). }
    rewrite S. cbn. rewrite Hc. cbn.
    rewrite (proj2 (Overflow.TryAccumulate_true Overflow.T_i64 (st_fees st) fee' (st_fees st + fee'))).
    2:{ split; [done|]. unfold Overflow.in_type, Overflow.tmin, Overflow.tmax, MAX_MONEY in *. cbn. lia. }
    rewrite (proj2 (IsValidAmount_spec _) Hr). cbn [negb orb].
    apply spend_inputs_Ok in S as [_ G1].
    assert (forall o, GetCoin b1 o = without (map in_outpoint (tx_inputs tx')) f o) as G2.
    { intros o. rewrite G1. by apply without_ext. }
    destruct (add_outputs_total (Txid tx') h false (tx_outputs tx') 0 b1 D) as [b' Ab].
    { intros o Ho. rewrite G2. by apply A. }
    exists b'. cbn. rewrite Ab. split; [done|]. intros o.
    apply add_outputs_Ok in Ab as (_ & _ & Gb). etrans; [apply Gb|]. rewrite G. by apply overlay_ext.
Qed.

Lemma connect_loop_step p h txs : forall first st st', connect_loop p h first txs st = Ok st' ->
  0 <= st_fees st <= MAX_MONEY ->
  exists us, txs_step p h first txs (GetCoin (st_batch st)) (st_fees st) us (st_fees st') (GetCoin (st_batch st')) /\
    st_undo st' = st_undo st ++ us.
Proof.
  induction txs as [|tx txs IH]; intros first st st'; cbn [connect_loop].
  { intros [= <-] _. exists []. rewrite app_nil_r. split; [by constructor|done]. }
  rewrite bind_Ok. intros (st1 & T & L) R.
  destruct (connect_tx_step _ _ _ _ _ _ T R) as (u & fee & Su & Eu & Ef & R1).
  destruct (IH _ _ _ L R1) as (us & Sus & Eus). exists (u ++ us).
  split; [|by rewrite Eus, Eu, app_assoc]. rewrite Ef in *. by econstructor.
Qed.

Lemma connect_loop_total p h first txs f fees us fees' f' :
  txs_step p h first txs f fees us fees' f' ->
  forall st, (forall o, GetCoin (st_batch st) o = f o) -> st_fees st = fees ->
  exists b', connect_loop p h first txs st = Ok (mkState b' (st_undo st ++ us) fees') /\
    forall o, GetCoin b' o = f' o.
Proof.
  induction 1 as [first f fees f' Ef|first tx txs f f1 f' u us fee fees fees' T R _ IH]; intros st E <-;
    cbn [connect_loop].
  { exists (st_batch st). rewrite app_nil_r. split; [by destruct st|]. intros o. by rewrite Ef. }
  destruct (connect_tx_total _ _ _ _ _ _ _ _ st T E R) as (b1 & -> & E1). cbn.
  destruct (IH (mkState b1 (st_undo st ++ u) (st_fees st + fee)) E1 eq_refl) as (b' & -> & E').
  exists b'. cbn. by rewrite app_assoc.
Qed.

Lemma txs_step_ext p h first txs f g fees us fees' f' : (forall o, f o = g o) ->
  txs_step p h first txs f fees us fees' f' -> txs_step p h first txs g fees us fees' f'.
Proof.
  intros E. inversion 1 as [? ? ? ? Ef|? tx txs' ? f1 ? u us' fee ? ? T]; subst.
  - constructor. intros o. by rewrite Ef.
  - econstructor; [|done|done]. inversion T as [? ? ? C|? coins ? ? ? ? Hm ? C]; subst; constructor; try done.
    + by eapply creates_ext.
    + by rewrite <- (map_ext _ _ E).
    + eapply creates_ext; [|exact C]. by apply without_ext.
Qed.

Lemma txs_step_ext_r p h first txs f fees us fees' f' g' : (forall o, g' o = f' o) ->
  txs_step p h first txs f fees us fees' f' -> txs_step p h first txs f fees us fees' g'.
Proof.
  intros E. induction 1 as [? ? ? ? Ef|]; [|by econstructor; eauto].
  constructor. intros o. by rewrite E, Ef.
Qed.

Lemma block_step_coinbase p block f r f' : block_step p block f r f' ->
  exists front txs, blk_transactions block = front :: txs /\ IsCoinbase front = true.
Proof.
  intros (Hne & T & _). destruct (blk_transactions block) as [|front txs]; [done|].
  exists front, txs. split; [done|]. inversion T as [|? ? ? ? ? ? ? ? ? ? ? S]; subst. by inversion S.
Qed.
End refinement.

(** ** Value *)

Definition coin_value (c : Coin) : Z := out_amount (coin_output c).

(** The money in a finite set of coins. *)
Definition supply (m : gmap OutPoint Coin) : Z := zsum (map coin_value (map_to_list m).*2).

Lemma supply_insert m o c : m !! o = None -> supply (<[o := c]> m) = coin_value c + supply m.
Proof.
  intros E. unfold supply. rewrite <- zsum_cons. apply zsum_perm.
  change (coin_value c :: map coin_value (map_to_list m).*2)
    with (map coin_value ((o, c) :: map_to_list m).*2).
  apply (fmap_Permutation coin_value), fmap_Permutation. by apply map_to_list_insert.
Qed.

Lemma supply_delete m o c : m !! o = Some c -> supply m = coin_value c + supply (delete o m).
Proof.
  intros E. rewrite <- (supply_insert (delete o m) o c) by apply lookup_delete_eq. by rewrite insert_delete_id.
Qed.

Lemma supply_empty : supply ∅ = 0.
Proof. unfold supply. by rewrite map_to_list_empty. Qed.

(** A view whose coins are exactly those of a finite map. *)
Definition represents {V} `{CoinsView V} (m : gmap OutPoint Coin) (v : V) : Prop :=
  forall o, GetCoin v o = m !! o.

Section value.
Context `{SH : Sha256Impl} `{SB : Signature.SignatureBackends} {V : Type} `{CoinsView V} `{!LawfulView V}.
Implicit Types (b : CoinsCache (CoinsCache V)).

Lemma spend_inputs_value inputs : forall b collected all b' m,
  spend_inputs inputs b collected = Ok (all, b') -> represents m b ->
  exists cs m', all = collected ++ cs /\ represents m' b' /\
    supply m = zsum (map coin_value cs) + supply m'.
Proof.
  induction inputs as [|i inputs IH]; intros b collected all b' m; cbn [spend_inputs].
  { intros [= <- <-] R. exists [], m. rewrite app_nil_r. split_and!; done || (cbn; lia). }
  destruct (SpendCoin (in_outpoint i) b) as [x b1] eqn:S. apply SpendCoin_spec in S as [Ex U].
  destruct x as [c|]; [|done]. intros E R. rewrite R in Ex. symmetry in Ex.
  destruct (IH _ _ _ _ (delete (in_outpoint i) m) E) as (cs & m' & -> & R' & Es).
  { intros o. rewrite U. unfold upd. destruct (decide (o = in_outpoint i)) as [->|].
    - by rewrite lookup_delete_eq.
    - by rewrite lookup_delete_ne, R. }
  exists (c :: cs), m'. rewrite <- app_assoc. split_and!; [done|done|].
  rewrite (supply_delete m _ c Ex), Es. cbn [map]. rewrite zsum_cons. lia.
Qed.

Lemma add_outputs_value txid h cb outputs : forall i b b' m,
  add_outputs txid h cb i outputs b = Ok b' -> represents m b ->
  Forall (fun a => 0 <= a) (map out_amount outputs) ->
  exists m', represents m' b' /\ supply m' <= supply m + zsum (map out_amount outputs).
Proof.
  induction outputs as [|out outputs IH]; intros i b b' m; cbn [add_outputs map].
  { intros [= <-] R _. exists m. split; [done|]. cbn. lia. }
  intros E R [Ha F]%Forall_cons. rewrite zsum_cons. destruct (IsStored out); cbn [negb] in E.
  - destruct (AddCoin _ _ b) as [[] b1] eqn:A; [|done]. apply AddCoin_true in A as [N U].
    rewrite R in N.
    destruct (IH _ _ _ (<[OutPointFor txid i := mkCoin out h cb]> m) E) as (m' & R' & B); [|done|].
    { intros o. rewrite U. unfold upd. destruct (decide (o = OutPointFor txid i)) as [->|].
      - by rewrite lookup_insert_eq.
      - by rewrite lookup_insert_ne, R. }
    exists m'. split; [done|]. rewrite supply_insert in B by done. unfold coin_value in B. cbn in B. lia.
  - destruct (IH _ _ _ m E R F) as (m' & R' & B). exists m'. split; [done|]. lia.
Qed.

Lemma amounts_nonneg amounts : Forall (fun a => IsValidAmount a = true) amounts ->
  Forall (fun a => 0 <= a) amounts.
Proof. intros F. eapply Forall_impl; [exact F|]. intros a. rewrite IsValidAmount_spec. lia. Qed.

Lemma CheckTransactionInputs_fee tx coins h p fee :
  CheckTransactionInputs tx coins h p = Ok fee -> TransactionFee tx coins = Ok fee.
Proof.
  unfold CheckTransactionInputs. destruct (IsCoinbase tx); [done|]. destruct (negb _); [done|].
  rewrite bind_Ok. intros (_ & _ & (f & Hf & (_ & _ & [= <-])%bind_Ok)%bind_Ok). done.
Qed.

(** A spend moves value; it adds none, and what it drops is its fee. *)
Lemma connect_spend_value p h tx st st' m :
  connect_tx p h false tx st = Ok st' -> represents m (st_batch st) ->
  exists m', represents m' (st_batch st') /\ supply m' + st_fees st' <= supply m + st_fees st.
Proof.
  unfold connect_tx. destruct (negb (Bool.eqb _ _)); [done|]. cbn [negb]. rewrite bind_Ok.
  intros (st1 & E1 & (b & A & [= <-])%bind_Ok) R.
  apply bind_Ok in E1 as ([coins b1] & S & (fee & Hfee%CheckTransactionInputs_fee & E1)%bind_Ok).
  destruct (Overflow.TryAccumulate _ _ _) as [ok fees] eqn:Acc.
  destruct ok; cbn [negb orb] in E1; [|done]. destruct (negb _); [done|]. injection E1 as <-.
  apply Overflow.TryAccumulate_true in Acc as [-> _]. cbn [st_batch st_fees] in *.
  destruct (spend_inputs_value _ _ _ _ _ _ S R) as (cs & m1 & Ecs & R1 & Es). cbn in Ecs. subst coins.
  apply TransactionFee_Ok in Hfee as (_ & _ & _ & [Fo _] & Ef & _).
  destruct (add_outputs_value _ _ _ _ _ _ _ _ A R1 (amounts_nonneg _ Fo)) as (m' & R' & B).
  exists m'. split; [done|]. unfold spent_amounts in Ef.
  change (map (fun c => out_amount (coin_output c)) cs) with (map coin_value cs) in Ef. lia.
Qed.

Lemma connect_loop_value p h txs : forall st st' m,
  connect_loop p h false txs st = Ok st' -> represents m (st_batch st) ->
  exists m', represents m' (st_batch st') /\ supply m' + st_fees st' <= supply m + st_fees st.
Proof.
  induction txs as [|tx txs IH]; intros st st' m; cbn [connect_loop].
  { intros [= <-] R. exists m. split; [done|lia]. }
  rewrite bind_Ok. intros (st1 & T & L) R.
  destruct (connect_spend_value _ _ _ _ _ _ T R) as (m1 & R1 & B1).
  destruct (IH _ _ _ L R1) as (m2 & R2 & B2). exists m2. split; [done|lia].
Qed.

Lemma connect_coinbase_value p h tx (coins : CoinsCache V) st m :
  connect_tx p h true tx (mkState (Over coins) [] 0) = Ok st -> represents m coins ->
  Forall (fun a => IsValidAmount a = true) (map out_amount (tx_outputs tx)) ->
  exists m', represents m' (st_batch st) /\ st_fees st = 0 /\
    supply m' <= supply m + zsum (map out_amount (tx_outputs tx)).
Proof.
  unfold connect_tx. destruct (negb (Bool.eqb _ _)); [done|]. cbn [negb]. rewrite bind_Ok.
  intros (st1 & [= <-] & (b & A & [= <-])%bind_Ok) R F. cbn [st_batch st_fees] in *.
  destruct (add_outputs_value _ _ _ _ _ _ _ m A) as (m' & R' & B).
  - intros o. rewrite (Over_same coins). apply R.
  - by apply amounts_nonneg.
  - by exists m'.
Qed.

Lemma ConnectBlock_value block (coins coins' : CoinsCache V) p r m :
  Issuance.sane (issuance p) -> Issuance.initial_reward (issuance p) <= MAX_MONEY ->
  0 <= hdr_height (blk_header block) ->
  ConnectBlock block coins p = (Ok r, coins') -> represents m coins ->
  exists m', represents m' coins' /\
    supply m' <= supply m + Issuance.BlockReward (hdr_height (blk_header block)) (issuance p).
Proof.
  intros Hs Hi Hh C R.
  apply ConnectBlock_Ok in C as (front & txs & st1 & st & Et & _ & T & L & A & _ & S).
  apply CheckCoinbaseAmount_Ok in A as (cb & txs' & Et' & _ & _ & [F _] & B); try done.
  rewrite Et in Et'. injection Et' as <- <-.
  destruct (connect_coinbase_value _ _ _ _ _ m T R F) as (m1 & R1 & F0 & B1).
  destruct (connect_loop_value _ _ _ _ _ m1 L R1) as (m2 & R2 & B2).
  exists m2. split; [|lia]. intros o. rewrite (S o). apply R2.
Qed.

(** ** Chains *)

(** Connecting blocks one after another, as long as each is accepted. *)
Fixpoint connect_chain (p : ChainParams) (blocks : list Block) (coins : CoinsCache V) : option (CoinsCache V) :=
  match blocks with
  | [] => Some coins
  | block :: blocks =>
      match ConnectBlock block coins p with
      | (Ok _, coins) => connect_chain p blocks coins
      | (Err _, _) => None
      end
  end.

Definition heights_from (h : nat) (blocks : list Block) : Prop :=
  map (fun blk => hdr_height (blk_header blk)) blocks = map Z.of_nat (seq h (length blocks)).

Lemma chain_value p blocks : Issuance.sane (issuance p) ->
  Issuance.initial_reward (issuance p) <= MAX_MONEY ->
  forall h (coins coins' : CoinsCache V) m, heights_from h blocks ->
  connect_chain p blocks coins = Some coins' -> represents m coins ->
  supply m <= Issuance.emitted h (issuance p) ->
  exists m', represents m' coins' /\ supply m' <= Issuance.emitted (h + length blocks) (issuance p).
Proof.
  intros Hs Hi. induction blocks as [|block blocks IH]; intros h coins coins' m Hh; cbn [connect_chain].
  { intros [= <-] R B. exists m. by rewrite Nat.add_0_r. }
  cbn [length seq map] in Hh. injection Hh as E0 Hh.
  destruct (ConnectBlock block coins p) as [[r|e] coins1] eqn:C; [|done]. intros E R B.
  destruct (ConnectBlock_value block coins coins1 p r m) as (m1 & R1 & B1); try done; [lia|].
  destruct (IH (S h) coins1 coins' m1 Hh E R1) as (m2 & R2 & B2).
  - cbn [Issuance.emitted]. rewrite E0 in B1. lia.
  - exists m2. split; [done|]. by replace (h + length (block :: blocks))%nat with (S h + length blocks)%nat
      by (simpl; lia).
Qed.
End value.

(** ** The undo record's codec *)

Definition TxUndo_ok (l : TxLimits) (u : TxUndo) : Prop :=
  Forall (Coin_ok (max_lock_program_size l)) (spent u) /\ zlen (spent u) <= max_inputs l.

Definition BlockUndo_ok (l : BlockLimits) (u : BlockUndo) : Prop :=
  Forall (TxUndo_ok (limits_tx l)) (undo_transactions u) /\
  zlen (undo_transactions u) <= max_transactions l.

#[global] Instance appends_TxUndo u : Appends (TxUndo_Serialize u).
Proof. change (Appends (write_vector Coin_Serialize (spent u))). apply _. Qed.

Lemma flat_TxUndo u : encode TxUndo_Serialize u = encode (write_vector Coin_Serialize) (spent u) ++ [].
Proof. symmetry. apply app_nil_r. Qed.

Lemma flat_BlockUndo u :
  encode BlockUndo_Serialize u = encode (write_vector TxUndo_Serialize) (undo_transactions u) ++ [].
Proof. symmetry. apply app_nil_r. Qed.

Lemma codec_TxUndo l : TxLimits_ok l ->
  Codec (encode TxUndo_Serialize) (TxUndo_Deserialize (max_inputs l) (max_lock_program_size l)) (TxUndo_ok l).
Proof.
  intros Hl. assert (Codec (encode (write_vector Coin_Serialize))
    (read_vector (max_inputs l) Coin_MIN_SERIALIZED_SIZE (Coin_Deserialize (max_lock_program_size l)))
    (fun xs => Forall (Coin_ok (max_lock_program_size l)) xs /\ zlen xs <= max_inputs l)).
  { eapply (codec_vector _ _ _ (Happ := appends_Coin)).
    - apply codec_Coin. unfold TxLimits_ok in Hl. naive_solver.
    - done.
    - unfold TxLimits_ok, u64 in Hl. naive_solver.
    - intros. apply Coin_min. }
  eapply codec_struct; [|exact flat_TxUndo]. field spent. struct_done.
Qed.

Lemma codec_BlockUndo p : BlockLimits_ok (block_limits p) ->
  Codec (encode BlockUndo_Serialize) (BlockUndo_Deserialize p) (BlockUndo_ok (block_limits p)).
Proof.
  intros [Hm Hl]. pose proof (codec_TxUndo _ Hl).
  assert (Codec (encode (write_vector TxUndo_Serialize))
    (read_vector (max_transactions (block_limits p)) 1
       (TxUndo_Deserialize (max_inputs (limits_tx (block_limits p)))
          (max_lock_program_size (limits_tx (block_limits p)))))
    (fun xs => Forall (TxUndo_ok (limits_tx (block_limits p))) xs /\
       zlen xs <= max_transactions (block_limits p))).
  { eapply (codec_vector _ _ _ (Happ := appends_TxUndo)); [done|done|mlia|].
    intros u _. apply (zlen_vector_pos Coin_Serialize (spent u) _). }
  eapply codec_struct; [|exact flat_BlockUndo]. field undo_transactions. struct_done.
Qed.

(** ** Undoing a step of the ledger *)

Section undoing.
Context `{SH : Sha256Impl} `{SB : Signature.SignatureBackends} {V : Type} `{CoinsView V} `{!LawfulView V}.
Implicit Types (b : CoinsCache (CoinsCache V)).

(** Removing what a transaction created gives back the ledger before. *)
Lemma remove_created txid h cb outs f f' b : creates txid h cb outs f f' -> (forall o, GetCoin b o = f' o) ->
  exists b', remove_outputs txid h cb 0 outs b = Done b' /\ forall o, GetCoin b' o = f o.
Proof.
  intros (Hd & Habs & Hget) G. destruct (remove_outputs_Done txid h cb outs 0 b Hd) as (b' & R & G').
  { intros o c Hin. rewrite G, Hget. by apply overlay_in. }
  exists b'. split; [done|]. intros o. rewrite G', G, Hget. destruct (decide _) as [Hin|Hn].
  - symmetry. by apply Habs.
  - by apply overlay_notin.
Qed.

(** Giving the spent coins back, last to first, restores the inputs. *)
Lemma restore_spent inputs : forall cs f b, NoDup (map in_outpoint inputs) ->
  map f (map in_outpoint inputs) = map Some cs -> (forall o, GetCoin b o = without (map in_outpoint inputs) f o) ->
  exists b', restore_inputs (rev (combine inputs cs)) b = Done b' /\ forall o, GetCoin b' o = f o.
Proof.
  induction inputs as [|i inputs IH]; intros cs f b; cbn [map].
  { intros _ _ G. exists b. split; [done|]. intros o. rewrite G. unfold without. by rewrite decide_False by apply not_elem_of_nil. }
  intros [Hn Hd]%NoDup_cons Hm G. destruct cs as [|c cs]; [done|]. cbn [map] in Hm. injection Hm as Hc Hm.
  destruct (IH cs (upd f (in_outpoint i) None) b Hd) as (b1 & R & G1).
  { by rewrite map_upd_notin. }
  { intros o. by rewrite G, without_cons. }
  cbn [combine rev]. rewrite restore_inputs_app, R. cbn [mbind Disconnected_bind restore_inputs].
  destruct (AddCoin_absent b1 (in_outpoint i) c) as [b2 A]; [by rewrite G1, upd_eq|]. rewrite A.
  exists b2. split; [done|]. apply AddCoin_true in A as [_ U]. intros o. rewrite U. unfold upd.
  destruct (decide (o = in_outpoint i)) as [->|]; [done|]. rewrite G1. by apply upd_ne.
Qed.

Lemma tx_step_undo p h f cb tx u fee f' b : tx_step p h f cb tx u fee f' -> (forall o, GetCoin b o = f' o) ->
  length u = (if cb then 0 else 1)%nat /\
  exists b', disconnect_tx h tx (head u) b = Done b' /\ forall o, GetCoin b' o = f o.
Proof.
  intros [tx' g' _ C|tx' coins fee' g' _ Hd Hm _ C] G; (split; [done|]);
    destruct (remove_created _ _ _ _ _ _ b C G) as (b1 & R & G1); unfold disconnect_tx; cbn [head]; rewrite R; cbn [mbind Disconnected_bind spent].
  - by exists b1.
  - assert (zlen coins = zlen (tx_inputs tx')) as Hl.
    { apply (f_equal length) in Hm. rewrite !length_map in Hm. unfold zlen. lia. }
    rewrite (proj2 (Z.eqb_eq _ _) Hl). cbn [negb]. by apply (restore_spent _ _ f).
Qed.

Lemma txs_step_undo p h first txs f fees us fees' f' : txs_step p h first txs f fees us fees' f' -> first = false ->
  length us = length txs /\ forall b, (forall o, GetCoin b o = f' o) ->
  exists b', disconnect_loop h (rev (combine txs (map Some us))) b = Done b' /\ forall o, GetCoin b' o = f o.
Proof.
  induction 1 as [first f fees f' E|first tx txs f f1 f' u us fee fees fees' T _ _ IH]; intros ->.
  { split; [done|]. intros b G. exists b. split; [done|]. intros o. by rewrite G, E. }
  destruct (IH eq_refl) as (Hl & R). clear IH.
  assert (exists tu, u = [tu]) as [tu ->] by (inversion T; eauto).
  split; [simpl; lia|]. intros b G. destruct (R b G) as (b1 & D1 & G1).
  destruct (tx_step_undo _ _ _ _ _ _ _ _ b1 T G1) as (_ & b2 & D2 & G2). exists b2.
  cbn [app map combine rev]. rewrite disconnect_loop_app, D1. cbn [mbind Disconnected_bind disconnect_loop head app] in D2 |- *. by rewrite D2.
Qed.

(** The undo record of a ledger step takes any cache of the ledger after it back
    to the ledger before. *)
Lemma block_step_undo p block f r f' (coins : CoinsCache V) : block_step p block f r f' ->
  (forall o, GetCoin coins o = f' o) ->
  exists coins', DisconnectBlock block (undo r) coins = (Done tt, coins') /\ forall o, GetCoin coins' o = f o.
Proof.
  intros (Hne & T & _) G. remember (undo_transactions (undo r)) as us0 eqn:Eus.
  remember (blk_transactions block) as txs0 eqn:Etx. remember true as first eqn:Ef.
  destruct T as [|first tx txs f f1 f' u us fee fees fees' T1 _ Ts]; [done|]. subst first.
  destruct (txs_step_undo _ _ _ _ _ _ _ _ _ Ts eq_refl) as (Hl & R).
  destruct (R (Over coins)) as (b1 & D1 & G1); [intros o; by rewrite (Over_same coins o)|].
  destruct (tx_step_undo _ _ _ _ _ _ _ _ b1 T1 G1) as (Hu & b2 & D2 & G2). destruct u; [|done].
  destruct (disconnect_flush block (undo r) coins b2) as (coins' & D & E).
  - rewrite <- Etx, <- Eus. unfold zlen. simpl. lia.
  - rewrite <- Etx, <- Eus. unfold undo_items. cbn [combine rev map app]. rewrite disconnect_loop_app, D1.
    cbn [mbind Disconnected_bind disconnect_loop head] in D2 |- *. by rewrite D2.
  - exists coins'. split; [done|]. intros o. by rewrite (E o), G2.
Qed.
End undoing.

(** ** The theorems *)

Section theorems.
Context `{SH : Sha256Impl} `{SB : Signature.SignatureBackends} {V : Type} `{CoinsView V} `{!LawfulView V}.

(** A refused block leaves the caller's set alone. *)
Lemma ConnectBlock_Err block (coins coins' : CoinsCache V) p e :
  ConnectBlock block coins p = (Err e, coins') -> coins' = coins.
Proof.
  unfold ConnectBlock. destruct (blk_transactions block) as [|front txs]; [by intros [= _ <-]|].
  destruct (negb _); [by intros [= _ <-]|]. destruct (connect_loop _ _ _ _ _) as [st|e']; [|by intros [= _ <-]].
  destruct (CheckCoinbaseAmount _ _ _); [done|by intros [= _ <-]].
Qed.

Lemma ConnectBlock_total block (coins : CoinsCache V) p r f' :
  block_step p block (GetCoin coins) r f' ->
  exists coins', ConnectBlock block coins p = (Ok r, coins') /\ forall o, GetCoin coins' o = f' o.
Proof.
  intros B. destruct (block_step_coinbase _ _ _ _ _ B) as (front & txs & Et & Ec). destruct B as (_ & T & A).
  destruct (connect_loop_total _ _ _ _ _ _ _ _ _ T (mkState (Over coins) [] 0)) as (b & L & G);
    [apply (Over_same coins)|done|].
  unfold ConnectBlock. rewrite Et, Ec. cbn [negb]. rewrite <- Et, L. cbn [st_fees st_batch st_undo]. rewrite A.
  eexists. split; [by destruct r as [[?] ?]|]. intros o. rewrite <- G.
  rewrite <- (GetCoin_Flush b (map_to_list (entries_ b)) o) by done.
  apply connect_loop_base in L. cbn in L. by rewrite L.
Qed.

Lemma ConnectBlock_step block (coins coins' : CoinsCache V) p r :
  ConnectBlock block coins p = (Ok r, coins') ->
  block_step p block (GetCoin coins) r (GetCoin coins').
Proof.
  intros C. pose proof C as (front & txs & st1 & st & Et & _ & T & L & A & -> & S)%ConnectBlock_Ok.
  split_and!; [by rewrite Et| |done].
  assert (connect_loop p (hdr_height (blk_header block)) true (blk_transactions block)
    (mkState (Over coins) [] 0) = Ok st) as L'.
  { rewrite Et. cbn [connect_loop]. by rewrite T. }
  apply connect_loop_step in L' as (us & X & Eus); [|cbn; unfold MAX_MONEY; lia].
  cbn in Eus. cbn [undo total_fees undo_transactions]. rewrite Eus.
  eapply txs_step_ext_r; [exact S|]. eapply txs_step_ext; [|exact X]. intros o. apply (Over_same coins o).
Qed.

Lemma Disconnect_undoes block (coins coins' : CoinsCache V) p r :
  ConnectBlock block coins p = (Ok r, coins') ->
  exists coins'', DisconnectBlock block (undo r) coins' = (Done tt, coins'') /\ coins'' ≗ coins.
Proof. intros C%ConnectBlock_step. by apply (block_step_undo _ _ _ _ _ coins' C). Qed.
End theorems.

(** ** Concrete blocks *)

Section samples.
#[local] Existing Instance toy_Sha256Impl.
#[local] Existing Instance picky_backends.

(** A set with one mature coin, and a block that spends it. *)
Definition funded : CoinsCache EmptyCoinsView :=
  Write (mkOutPoint (replicate 32 Byte.x09) 0) (Some (sample_coin 1000)) (Over Coins.Empty).

Definition block_at (height reward : Z) (txs : list Transaction) : Block :=
  mkBlock (mkBlockHeader 1 height (replicate 32 Byte.x00) (replicate 32 Byte.x01) 100 REGTEST_POW_LIMIT_BITS 0)
    (sample_coinbase height reward :: txs).

Definition spend_block : Block := block_at 25 150 [sample_spend_tx].

(** Accepted, with the fee and the spent coin recorded; one facet over the
    reward plus the fee is refused, as is spending the coin twice. *)
Example spend_block_runs :
  (ConnectBlock spend_block funded REGTEST_PARAMS).1 =
    Ok (mkConnectResult (mkBlockUndo [mkTxUndo [sample_coin 1000]]) 100) /\
  (ConnectBlock (block_at 25 (Issuance.BlockReward 25 (issuance REGTEST_PARAMS) + 101) [sample_spend_tx])
     funded REGTEST_PARAMS).1 = Err BlockCoinbasePaysTooMuch /\
  (ConnectBlock (block_at 25 150 [sample_spend_tx; sample_spend_tx]) funded REGTEST_PARAMS).1 =
    Err TxInputMissingOrSpent.
Proof. vm_compute. auto. Qed.
End samples.

(** C4: disconnecting is the exact inverse of connecting.  Whenever a block
    connects, [DisconnectBlock] with the undo record it produced succeeds on the
    resulting set and gives back a set that answers every lookup as the one
    before the block, whatever the transactions spend from or within the block. *)
Theorem connect_disconnect_roundtrip `{Sha256Impl} `{Signature.SignatureBackends} {V} `{CoinsView V}
    `{!LawfulView V} (p : ChainParams) (block : Block) (coins coins' : CoinsCache V) (r : ConnectResult)
    (C : ConnectBlock block coins p = (Ok r, coins')) :
  exists coins'', DisconnectBlock block (undo r) coins' = (Done tt, coins'') /\ coins'' ≗ coins.
Proof. by eapply Disconnect_undoes. Qed.

Lemma connect_disconnect_roundtrip_witness :
  let '(_, coins') := ConnectBlock (H := toy_Sha256Impl) (H0 := picky_backends) spend_block funded REGTEST_PARAMS in
  exists coins'', DisconnectBlock (H := toy_Sha256Impl) spend_block
    (mkBlockUndo [mkTxUndo [sample_coin 1000]]) coins' = (Done tt, coins'') /\ coins'' ≗ funded.
Proof.
  destruct (ConnectBlock (H := toy_Sha256Impl) (H0 := picky_backends) spend_block funded REGTEST_PARAMS)
    as [o coins'] eqn:E.
  pose proof (proj1 spend_block_runs) as E1. rewrite E in E1. cbn in E1. subst o.
  exact (connect_disconnect_roundtrip (H := toy_Sha256Impl) (H0 := picky_backends) _ _ _ _ _ E).
Defined.

(** C3: [ConnectBlock] implements the abstract ledger.  It succeeds with a result
    exactly when the ledger relation allows that result, and the caller's set is
    then the ledger after it: each spend finds every coin it names, names none
    twice, passes [CheckTransactionInputs], frees those outpoints and occupies
    only free ones; the undo record is exactly the coins spent, the fees stay in
    the money range, and the coinbase claims no more than reward plus fees.  On
    any failure the caller's set is left as it was. *)
Theorem connect_refines_ledger `{Sha256Impl} `{Signature.SignatureBackends} {V} `{CoinsView V}
    `{!LawfulView V} (p : ChainParams) (block : Block) (coins : CoinsCache V) (r : ConnectResult) :
  (forall coins', ConnectBlock block coins p = (Ok r, coins') ->
     block_step p block (GetCoin coins) r (GetCoin coins')) /\
  (forall f', block_step p block (GetCoin coins) r f' ->
     exists coins', ConnectBlock block coins p = (Ok r, coins') /\ forall o, GetCoin coins' o = f' o) /\
  (forall e coins', ConnectBlock block coins p = (Err e, coins') -> coins' = coins).
Proof.
  split_and!; [intros coins'; apply ConnectBlock_step|intros f'; apply ConnectBlock_total|].
  intros e coins'. unfold ConnectBlock. repeat case_match; congruence.
Qed.

Lemma connect_refines_ledger_witness :
  exists f', block_step (SH := toy_Sha256Impl) (SB := picky_backends) REGTEST_PARAMS spend_block
    (GetCoin funded) (mkConnectResult (mkBlockUndo [mkTxUndo [sample_coin 1000]]) 100) f'.
Proof.
  destruct (ConnectBlock (H := toy_Sha256Impl) (H0 := picky_backends) spend_block funded REGTEST_PARAMS)
    as [o coins'] eqn:E.
  pose proof (proj1 spend_block_runs) as E1. rewrite E in E1. cbn in E1. subst o.
  eexists. exact (proj1 (connect_refines_ledger (H := toy_Sha256Impl) (H0 := picky_backends) _ _ _ _) _ E).
Defined.

(** C5: no chain mints more than the schedule.  Starting from the empty set and
    connecting any blocks at consecutive heights from zero, the coins of the
    resulting set are worth at most what the schedule has emitted by then, on
    every network, and on mainnet never more than [MAX_MONEY]. *)
Theorem chain_supply_cap `{Sha256Impl} `{Signature.SignatureBackends} (n : Network) (blocks : list Block)
    (coins' : CoinsCache EmptyCoinsView) (Hh : heights_from 0 blocks)
    (C : connect_chain (ParamsFor n) blocks (Over Coins.Empty) = Some coins') :
  exists m, represents m coins' /\ supply m <= Issuance.emitted (length blocks) (issuance (ParamsFor n)) /\
    (n = Mainnet -> supply m <= MAX_MONEY).
Proof.
  destruct (chain_value (ParamsFor n) blocks (params_sane n)) with (h := 0%nat) (coins := Over Coins.Empty)
    (coins' := coins') (m := (∅ : gmap OutPoint Coin)) as (m & R & B); try done.
  - destruct n; vm_compute; discriminate.
  - exists m. split_and!; [done|done|]. intros ->. etrans; [exact B|]. apply Issuance.mainnet_emitted.
Qed.

Definition chain_of_two : list Block := [block_at 0 7 []; block_at 1 8 []].

Lemma chain_supply_cap_witness :
  exists coins' m, connect_chain (SH := toy_Sha256Impl) (SB := picky_backends) MAINNET_PARAMS chain_of_two
      (Over Coins.Empty) = Some coins' /\ represents m coins' /\ supply m <= MAX_MONEY.
Proof.
  destruct (connect_chain (SH := toy_Sha256Impl) (SB := picky_backends) MAINNET_PARAMS chain_of_two (Over Coins.Empty))
    as [coins'|] eqn:E; [|vm_compute in E; discriminate].
  destruct (chain_supply_cap (H := toy_Sha256Impl) (H0 := picky_backends) Mainnet chain_of_two coins'
    eq_refl E) as (m & R & _ & B).
  exists coins', m. split_and!; [done|done|by apply B].
Defined.

(** An undo record has exactly one encoding and the decoder accepts nothing
    else: on any addressable buffer, parsing under a network's limits succeeds
    with [u] exactly when [u] respects the widths and limits and the buffer is
    its serialisation. *)
Theorem undo_parse_canonical (n : Network) (bs : bytes) (u : BlockUndo) (Hbs : zlen bs < 2 ^ 64) :
  Parse (BlockUndo_Deserialize (ParamsFor n)) bs = Some u <->
  BlockUndo_ok (block_limits (ParamsFor n)) u /\ bs = encode BlockUndo_Serialize u.
Proof.
  apply (codec_parse _ _ _ (codec_BlockUndo (ParamsFor n) ltac:(destruct n; apply consensus_limits_ok))). done.
Qed.

Definition sample_undo : BlockUndo := mkBlockUndo [mkTxUndo [sample_stored_coin]; mkTxUndo []].

Lemma undo_parse_canonical_witness :
  Parse (BlockUndo_Deserialize MAINNET_PARAMS) (encode BlockUndo_Serialize sample_undo) = Some sample_undo.
Proof.
  apply (undo_parse_canonical Mainnet); [reflexivity|]. split; [eval_ok|reflexivity].
Defined.

End Connect.
