(* ===== verification/BlockStore.v ===== *)
(** * Block bodies and undo records (chain/block_store.hpp, src/chain/block_store.cpp)

    [BlockStore] is the code's interface as a class, [LawfulStore] the contract
    its comments state and [ChainState] relies on, [MemoryBlockStore] the
    in-memory implementation, which discharges it. *)

From S2P Require Import Prelude Overflow Serialize Hex Crypto Primitives Params Connect.
From stdpp Require Import gmap.
#[local] Open Scope Z_scope.

Module BlockStore.
Import Connect.

(** ** The interface *)

Class BlockStore (S : Type) := {
  HaveBlock : S -> bytes -> bool;
  GetBlock : S -> bytes -> option Block;
  GetUndo : S -> bytes -> option BlockUndo;
  PutBlock : bytes -> Block -> S -> S;
  PutUndo : bytes -> BlockUndo -> S -> S }.

(** Presence is a successful read; a body is kept once stored, an undo record is
    replaced; bodies and undo records are independent. *)
Class LawfulStore (S : Type) `{BlockStore S} : Prop := {
  HaveBlock_spec s h : HaveBlock s h = bool_decide (is_Some (GetBlock s h));
  GetBlock_PutBlock s h b k :
    GetBlock (PutBlock h b s) k = if decide (k = h) then Some (default b (GetBlock s h)) else GetBlock s k;
  GetUndo_PutBlock s h b k : GetUndo (PutBlock h b s) k = GetUndo s k;
  GetUndo_PutUndo s h u k : GetUndo (PutUndo h u s) k = if decide (k = h) then Some u else GetUndo s k;
  GetBlock_PutUndo s h u k : GetBlock (PutUndo h u s) k = GetBlock s k }.

(** ** The in-memory store *)

Record MemoryBlockStore := mkMemoryBlockStore {
  blocks_ : gmap bytes Block;
  undo_ : gmap bytes BlockUndo }.

Definition new_MemoryBlockStore : MemoryBlockStore := mkMemoryBlockStore ∅ ∅.

Definition Memory_HaveBlock (s : MemoryBlockStore) (hash : bytes) : bool :=
  bool_decide (is_Some (blocks_ s !! hash)).

Definition Memory_GetBlock (s : MemoryBlockStore) (hash : bytes) : option Block := blocks_ s !! hash.

Definition Memory_GetUndo (s : MemoryBlockStore) (hash : bytes) : option BlockUndo := undo_ s !! hash.

(** [blocks_.emplace(hash, block)]: a body already there stays. *)
Definition Memory_PutBlock (hash : bytes) (block : Block) (s : MemoryBlockStore) : MemoryBlockStore :=
  match blocks_ s !! hash with
  | Some _ => s
  | None => mkMemoryBlockStore (<[hash := block]> (blocks_ s)) (undo_ s)
  end.

(** [undo_.insert_or_assign(hash, undo)] *)
Definition Memory_PutUndo (hash : bytes) (undo : BlockUndo) (s : MemoryBlockStore) : MemoryBlockStore :=
  mkMemoryBlockStore (blocks_ s) (<[hash := undo]> (undo_ s)).

Definition BlockCount (s : MemoryBlockStore) : Z := Z.of_nat (size (blocks_ s)).
Definition UndoCount (s : MemoryBlockStore) : Z := Z.of_nat (size (undo_ s)).

#[global] Instance MemoryBlockStore_store : BlockStore MemoryBlockStore := {|
  HaveBlock := Memory_HaveBlock; GetBlock := Memory_GetBlock; GetUndo := Memory_GetUndo;
  PutBlock := Memory_PutBlock; PutUndo := Memory_PutUndo |}.

#[global] Instance MemoryBlockStore_lawful : LawfulStore MemoryBlockStore.
Proof.
  split; cbn; unfold Memory_HaveBlock, Memory_GetBlock, Memory_GetUndo, Memory_PutBlock, Memory_PutUndo; try done.
  - intros s h b k. destruct (blocks_ s !! h) as [x|] eqn:E; cbn; destruct (decide (k = h)) as [->|Hne]; try done.
    + by rewrite lookup_insert_eq.
    + by rewrite lookup_insert_ne.
  - intros s h b k. by destruct (blocks_ s !! h).
  - intros s h u k. destruct (decide (k = h)) as [->|Hne]; cbn; [by rewrite lookup_insert_eq|by rewrite lookup_insert_ne].
Qed.

End BlockStore.
