(* ===== verification/ChainState.v ===== *)
(** * The active chain (chain/chain_state.hpp, src/chain/chain_state.cpp)

    The index, the coins set, the block store and the chain of applied blocks
    moved together.  An operation takes the state and gives an outcome and the
    state after it; [None] stands for what the code leaves undefined (reading the
    tip of an empty chain, following a pointer into no index) or for fuel that ran
    out, and the theorems show it never happens.  Entry pointers are hashes, as in
    [BlockIndex].  The sink is any type with the interface's three operations and
    the observer is the trace of what it was told. *)

From Stdlib Require Import String.
From S2P Require Import Prelude Overflow Serialize Hex Crypto Primitives Target Work Asert Issuance Params Merkle Sighash Validation Genesis BlockIndex Coins Connect BlockStore.
From stdpp Require Import gmap.
#[local] Open Scope Z_scope.

Module ChainState.
Import Params Validation BlockIndex Connect BlockStore.

(** ** What activation reports *)

Record RejectedBlock := mkRejected { rej_hash : bytes; rej_height : Z; rej_error : ValidationError }.

Record ActivationSummary := mkSummary {
  tip : bytes;
  connected : Z;
  disconnected : Z;
  rejected : list RejectedBlock;
  reached_best_header : bool }.

Definition Reorganised (s : ActivationSummary) : bool := 0 <? disconnected s.

Inductive ActivationError :=
  | BlockBodyUnavailable
  | UndoRecordUnavailable
  | RevertRejected
  | ChainOutOfStep
  | CommitFailed
  | StorageFaulted.

#[global] Instance ActivationError_eq_dec : EqDecision ActivationError.
Proof. solve_decision. Defined.

Definition Describe_activation (error : ActivationError) : string :=
  match error with
  | BlockBodyUnavailable => "a block on the path has no stored body"
  | UndoRecordUnavailable => "a connected block has no stored undo record"
  | RevertRejected => "reversing a block disagreed with the unspent output set"
  | ChainOutOfStep => "the block index and the active chain disagree about what is applied"
  | CommitFailed => "the new tip could not be made durable"
  | StorageFaulted => "storage reported a fault, so a block's verdict cannot be trusted"
  end%string.

Record ActivationFailure := mkFailure {
  fail_error : ActivationError;
  fail_block : bytes;
  fail_revert : option DisconnectError }.

(** [std::expected<A, ActivationFailure>] *)
Inductive Outcome (A : Type) := Value (a : A) | Stop (failure : ActivationFailure).
Arguments Value {A} _.
Arguments Stop {A} _.

(** The helper [Stopped]. *)
Definition Stopped {A} (error : ActivationError) (block : bytes) : Outcome A := Stop (mkFailure error block None).

(** ** The active chain *)

(** [ActiveChain::blocks_], genesis first. *)
Definition AtHeight (blocks : list bytes) (height : Z) : option bytes :=
  if zlen blocks <=? height then None else blocks !! Z.to_nat height.

Definition ActiveChain_Tip (blocks : list bytes) : option bytes := last blocks.

Definition Contains (blocks : list bytes) (entry : BlockIndexEntry) : bool :=
  bool_decide (AtHeight blocks (ent_height entry) = Some (ent_hash entry)).

(** ** The collaborators *)

(** [ChainSink].  [CommitTip] consumes the changes it is given, so it returns the
    coins cache as well as the sink. *)
Class ChainSink (K V : Type) := {
  CommitHeader : BlockIndexEntry -> K -> bool * K;
  CommitTip : CoinsCache V -> bytes -> K -> bool * CoinsCache V * K;
  HasFault : K -> bool }.

(** A successful [CommitTip] moves changes below the cache and loses none: every
    lookup answers as before. *)
Class LawfulSink (K V : Type) `{CoinsView V} `{ChainSink K V} : Prop :=
  CommitTip_keeps changes tip k changes' k' :
    CommitTip changes tip k = (true, changes', k') -> changes' ≗ changes.

(** What a [TipObserver] is told. *)
Inductive TipEvent :=
  | BlockConnected (block : Block) (entry : bytes)
  | BlockDisconnected (block : Block) (entry : bytes).

(** ** The state *)

Record ChainState (V D K : Type) := mkChainState {
  index_ : BlockIndex;
  coins_ : CoinsCache V;
  store_ : D;
  sink_ : option K;
  observer_ : option (list TipEvent);
  chain_ : list bytes }.
Arguments mkChainState {V D K} _ _ _ _ _ _.
Arguments index_ {V D K} _.
Arguments coins_ {V D K} _.
Arguments store_ {V D K} _.
Arguments sink_ {V D K} _.
Arguments observer_ {V D K} _.
Arguments chain_ {V D K} _.

Section state.
Context {V D K : Type}.
Implicit Types (s : ChainState V D K).

Definition with_index (i : BlockIndex) s := mkChainState i (coins_ s) (store_ s) (sink_ s) (observer_ s) (chain_ s).
Definition with_coins (c : CoinsCache V) s := mkChainState (index_ s) c (store_ s) (sink_ s) (observer_ s) (chain_ s).
Definition with_store (b : D) s := mkChainState (index_ s) (coins_ s) b (sink_ s) (observer_ s) (chain_ s).
Definition with_sink (k : option K) s := mkChainState (index_ s) (coins_ s) (store_ s) k (observer_ s) (chain_ s).
Definition with_chain (l : list bytes) s := mkChainState (index_ s) (coins_ s) (store_ s) (sink_ s) (observer_ s) l.

Definition new_ChainState (index : BlockIndex) (coins : CoinsCache V) (store : D) : ChainState V D K :=
  mkChainState index coins store None None [genesis_ index].

Definition PersistTo (sink : K) s : ChainState V D K := with_sink (Some sink) s.

Definition ObserveWith s : ChainState V D K :=
  mkChainState (index_ s) (coins_ s) (store_ s) (sink_ s) (Some []) (chain_ s).

(** [observer_->BlockConnected(...)] when there is an observer. *)
Definition notify (event : TipEvent) s : ChainState V D K :=
  mkChainState (index_ s) (coins_ s) (store_ s) (sink_ s) ((fun trace => trace ++ [event]) <$> observer_ s) (chain_ s).

(** [*chain_.blocks_.back()] *)
Definition Tip s : option bytes := last (chain_ s).

(** [ResumeAt]'s walk to the root. *)
Fixpoint upwards (fuel : nat) (idx : BlockIndex) (entry : option BlockIndexEntry) : option (list bytes) :=
  match fuel with
  | O => None
  | S fuel =>
      match entry with
      | None => Some []
      | Some e => rest ← upwards fuel idx (parent idx e); Some (ent_hash e :: rest)
      end
  end.

Definition ResumeAt (tip : BlockIndexEntry) s : option (ChainState V D K) :=
  up ← upwards (walk_fuel tip) (index_ s) (Some tip);
  Some (with_chain (rev up) s).
End state.

(** ** The operations *)

Section operations.
Context `{Sha256Impl} `{Signature.SignatureBackends} {V D K : Type}.
Context `{CoinsView V} `{BlockStore D} `{ChainSink K V} (params : ChainParams).
Abbreviation State := (ChainState V D K).
Implicit Types (s : State).

Definition CommitEntry (entry : BlockIndexEntry) s : bool * State :=
  match sink_ s with
  | None => (true, s)
  | Some k => let '(ok, k) := CommitHeader entry k in (ok, with_sink (Some k) s)
  end.

(** [(void)CommitEntry( *entry )], the entry read as it now stands. *)
Definition commit_entry (h : bytes) s : option State :=
  entry ← Find (index_ s) h; Some (CommitEntry entry s).2.

Definition StorageHasFault s : bool := match sink_ s with None => false | Some k => HasFault k end.

Definition CommitCurrentTip s : option (bool * State) :=
  match sink_ s with
  | None => Some (true, s)
  | Some k =>
      tip ← Tip s;
      let '(ok, coins, k) := CommitTip (coins_ s) tip k in
      Some (ok, with_sink (Some k) (with_coins coins s))
  end.

Definition AcceptBlock (block : Block) (now : Z) s : option (Indexed * State) :=
  let '(indexed, idx) := AddHeader (blk_header block) now params (index_ s) in
  let s := with_index idx s in
  match indexed with
  | Refused e => Some (Refused e, s)
  | Found h =>
      entry ← Find (index_ s) h;
      if negb (IsEligible entry) then Some (Refused (NotPlaced AlreadyRuledOut), s)
      else if HaveBlock (store_ s) h then Some (Found h, s)
      else match CheckBlock block params with
           | Err e =>
               '(_, idx) ← RecordFailure h (index_ s);
               s ← commit_entry h (with_index idx s);
               Some (Refused (RuleBroken e), s)
           | Ok _ =>
               let s := with_store (PutBlock h block (store_ s)) s in
               let s := with_index (RecordValidity h VBody (index_ s)) s in
               s ← commit_entry h s;
               Some (Found h, s)
           end
  end.

Definition AcceptHeader (header : BlockHeader) (now : Z) s : option (Indexed * State) :=
  let '(indexed, idx) := AddHeader header now params (index_ s) in
  let s := with_index idx s in
  match indexed with
  | Refused e => Some (Refused e, s)
  | Found h =>
      entry ← Find (index_ s) h;
      if negb (IsEligible entry) then Some (Refused (NotPlaced AlreadyRuledOut), s)
      else s ← commit_entry h s; Some (Found h, s)
  end.

Definition set_tip (h : bytes) (m : ActivationSummary) : ActivationSummary :=
  mkSummary h (connected m) (disconnected m) (rejected m) (reached_best_header m).
Definition set_reached (b : bool) (m : ActivationSummary) : ActivationSummary :=
  mkSummary (tip m) (connected m) (disconnected m) (rejected m) b.
Definition count_connected (m : ActivationSummary) : ActivationSummary :=
  mkSummary (tip m) (wrapu 64 (connected m + 1)) (disconnected m) (rejected m) (reached_best_header m).
Definition count_disconnected (m : ActivationSummary) : ActivationSummary :=
  mkSummary (tip m) (connected m) (wrapu 64 (disconnected m + 1)) (rejected m) (reached_best_header m).
Definition push_rejected (r : RejectedBlock) (m : ActivationSummary) : ActivationSummary :=
  mkSummary (tip m) (connected m) (disconnected m) (rejected m ++ [r]) (reached_best_header m).

Definition DisconnectTip (summary : ActivationSummary) s : option (Outcome ActivationSummary * State) :=
  t ← Tip s;
  entry ← Find (index_ s) t;
  match ent_parent entry with
  | None => Some (Stopped ChainOutOfStep (ent_hash entry), s)
  | Some _ =>
      match GetBlock (store_ s) (ent_hash entry) with
      | None => Some (Stopped BlockBodyUnavailable (ent_hash entry), s)
      | Some block =>
          match GetUndo (store_ s) (ent_hash entry) with
          | None => Some (Stopped UndoRecordUnavailable (ent_hash entry), s)
          | Some undo =>
              match DisconnectBlock block undo (coins_ s) with
              | (Failed e, coins) =>
                  Some (Stop (mkFailure RevertRejected (ent_hash entry) (Some e)), with_coins coins s)
              | (Done _, coins) =>
                  let s := with_coins coins s in
                  let s := with_chain (removelast (chain_ s)) s in
                  '(ok, s) ← CommitCurrentTip s;
                  if negb ok then Some (Stopped CommitFailed (ent_hash entry), s)
                  else Some (Value (count_disconnected summary), notify (BlockDisconnected block (ent_hash entry)) s)
              end
          end
      end
  end.

(** A rule refused the block: unless storage faulted, rule it out for good. *)
Definition refuse (entry : BlockIndexEntry) (e : ValidationError) (summary : ActivationSummary) s
    : option (Outcome (bool * ActivationSummary) * State) :=
  if StorageHasFault s then Some (Stopped StorageFaulted (ent_hash entry), s)
  else
    '(_, idx) ← RecordFailure (ent_hash entry) (index_ s);
    s ← commit_entry (ent_hash entry) (with_index idx s);
    Some (Value (false, push_rejected (mkRejected (ent_hash entry) (ent_height entry) e) summary), s).

(** The second half of [ConnectTip]: apply the block, record it, commit. *)
Definition apply_block (entry : BlockIndexEntry) (block : Block) (summary : ActivationSummary) s
    : option (Outcome (bool * ActivationSummary) * State) :=
  match ConnectBlock block (coins_ s) params with
  | (Err e, coins) => refuse entry e summary (with_coins coins s)
  | (Ok applied, coins) =>
      let s := with_coins coins s in
      let s := with_store (PutUndo (ent_hash entry) (undo applied) (store_ s)) s in
      let s := with_chain (chain_ s ++ [ent_hash entry]) s in
      let s := with_index (RecordValidity (ent_hash entry) VFull (index_ s)) s in
      s ← commit_entry (ent_hash entry) s;
      '(ok, s) ← CommitCurrentTip s;
      if negb ok then Some (Stopped CommitFailed (ent_hash entry), s)
      else Some (Value (true, count_connected summary), notify (BlockConnected block (ent_hash entry)) s)
  end.

Definition ConnectTip (h : bytes) (summary : ActivationSummary) s
    : option (Outcome (bool * ActivationSummary) * State) :=
  entry ← Find (index_ s) h;
  t ← Tip s;
  if negb (bool_decide (ent_parent entry = Some t)) then Some (Stopped ChainOutOfStep (ent_hash entry), s)
  else
    match GetBlock (store_ s) (ent_hash entry) with
    | None => Some (Stopped BlockBodyUnavailable (ent_hash entry), s)
    | Some block =>
        if validity_level (ent_validity entry) <? validity_level VBody
        then match CheckBlock block params with
             | Err e => refuse entry e summary s
             | Ok _ => apply_block entry block summary
                         (with_index (RecordValidity (ent_hash entry) VBody (index_ s)) s)
             end
        else apply_block entry block summary s
    end.

(** [while (reachable < plan.connect.size() && store_->HaveBlock(...))]: the
    prefix of the plan whose bodies are all here. *)
Fixpoint reachable_prefix (store : D) (path : list bytes) : list bytes :=
  match path with
  | [] => []
  | h :: path => if HaveBlock store h then h :: reachable_prefix store path else []
  end.

Definition attainable (fork : bytes) (reach : list bytes) : bytes := List.last reach fork.

(** [for (entry : plan.disconnect)] *)
Fixpoint disconnect_all (plan : list bytes) (summary : ActivationSummary) s
    : option (Outcome ActivationSummary * State) :=
  match plan with
  | [] => Some (Value summary, s)
  | entry :: plan =>
      t ← Tip s;
      if negb (bool_decide (entry = t)) then Some (Stopped ChainOutOfStep entry, s)
      else
        '(r, s) ← DisconnectTip summary s;
        match r with
        | Stop f => Some (Stop f, s)
        | Value summary => disconnect_all plan summary s
        end
  end.

(** [for (position < reachable)], left at the first block a rule refuses. *)
Fixpoint connect_all (plan : list bytes) (summary : ActivationSummary) s
    : option (Outcome ActivationSummary * State) :=
  match plan with
  | [] => Some (Value summary, s)
  | entry :: plan =>
      '(r, s) ← ConnectTip entry summary s;
      match r with
      | Stop f => Some (Stop f, s)
      | Value (true, summary) => connect_all plan summary s
      | Value (false, summary) => Some (Value summary, s)
      end
  end.

(** Whether a pass of the [for (;;)] returned or goes round again. *)
Inductive Pass := Return (summary : ActivationSummary) | Again (summary : ActivationSummary).

(** Once the plan is known. *)
Definition follow_plan (plan : ChainSwitch) (target : bytes) (summary : ActivationSummary) s
    : option (Outcome Pass * State) :=
  match fork_point plan with
  | None => Some (Stopped ChainOutOfStep target, s)
  | Some fork =>
      fork_entry ← Find (index_ s) fork;
      if negb (Contains (chain_ s) fork_entry) then Some (Stopped ChainOutOfStep fork, s)
      else
        let reach := reachable_prefix (store_ s) (BlockIndex.connect plan) in
        a ← Find (index_ s) (attainable fork reach);
        t ← Tip s;
        t_entry ← Find (index_ s) t;
        if negb (IsBetterTip a t_entry) then Some (Value (Return (set_tip t summary)), s)
        else
          '(r, s) ← disconnect_all (disconnect plan) summary s;
          match r with
          | Stop f => Some (Stop f, s)
          | Value summary =>
              '(r, s) ← connect_all reach summary s;
              match r with
              | Stop f => Some (Stop f, s)
              | Value summary => t ← Tip s; Some (Value (Again (set_tip t summary)), s)
              end
          end
  end.

Definition activate_pass (summary : ActivationSummary) s : option (Outcome Pass * State) :=
  t ← Tip s;
  match BestHeader (index_ s) with
  | None => Some (Value (Return (set_reached false (set_tip t summary))), s)
  | Some target =>
      if bool_decide (target = t) then Some (Value (Return (set_reached true (set_tip t summary))), s)
      else
        plan ← PlanChainSwitch (index_ s) (Find (index_ s) t) (Find (index_ s) target);
        follow_plan plan target summary s
  end.

Fixpoint activate_loop (fuel : nat) (summary : ActivationSummary) s : option (Outcome ActivationSummary * State) :=
  match fuel with
  | O => None
  | S fuel =>
      '(r, s) ← activate_pass summary s;
      match r with
      | Stop f => Some (Stop f, s)
      | Value (Return summary) => Some (Value summary, s)
      | Value (Again summary) => activate_loop fuel summary s
      end
  end.

(** Every pass but the last two rules a block out. *)
Definition ActivateBestChain s : option (Outcome ActivationSummary * State) :=
  t ← Tip s;
  activate_loop (size (BlockIndex.entries_ (index_ s)) + 2) (mkSummary t 0 0 [] false) s.
End operations.

(** ** Lineages in a changing index *)

Section growth.
Context `{SH : Sha256Impl}.

(** Nothing indexed is lost, and what it descends from never changes. *)
Definition grows (idx idx' : BlockIndex) : Prop :=
  forall h e, Find idx h = Some e -> exists e', Find idx' h = Some e' /\ ent_parent e' = ent_parent e.

Lemma grows_refl idx : grows idx idx.
Proof. intros h e E. eauto. Qed.

Lemma grows_trans idx1 idx2 idx3 : grows idx1 idx2 -> grows idx2 idx3 -> grows idx1 idx3.
Proof. intros G1 G2 h e E. destruct (G1 h e E) as (e1 & E1 & <-). by apply G2. Qed.

Lemma same_tree_grows idx idx' : same_tree idx idx' -> grows idx idx'.
Proof.
  intros T h e E. destruct (same_tree_find_r idx idx' h e T E) as (e' & E' & P). exists e'. split; [done|].
  destruct P as (_ & _ & _ & _ & P & _). by symmetry.
Qed.

Lemma AddHeader_grows header now params idx : index_inv idx -> grows idx (AddHeader header now params idx).2.
Proof.
  intros I. destruct (Find idx (BlockHeader_Hash header)) as [e|] eqn:Hn.
  { unfold AddHeader. rewrite Hn. apply grows_refl. }
  destruct (AddHeader_new header now params idx I Hn) as [[error ->]|(pe & best & _ & _ & _ & _ & _ & _ & -> & _)];
    [apply grows_refl|].
  intros h e E. exists e. split; [|done]. unfold Find in *. cbn. rewrite lookup_insert_ne; [done|]. by intros <-; rewrite Hn in E.
Qed.

Lemma lineage_grows idx idx' h l : grows idx idx' -> lineage idx h l -> lineage idx' h l.
Proof.
  intros G. induction 1 as [h e E P|h e p l E P L IH]; destruct (G h e E) as (e' & E' & P'); econstructor; try done; congruence.
Qed.

Lemma lineage_NoDup idx h l : index_inv idx -> lineage idx h l -> NoDup l.
Proof.
  intros I L. apply NoDup_alt. intros i j x Hi Hj.
  destruct (lineage_head idx h l L) as [tl ->].
  destruct (lineage_lookup idx h (h :: tl) L 0 h eq_refl) as (e & E & _).
  destruct (lineage_lookup idx h _ L i x Hi) as (ex & Ex & _).
  pose proof (lineage_lookup_height idx I h e _ i x ex E L Hi Ex).
  pose proof (lineage_lookup_height idx I h e _ j x ex E L Hj Ex). lia.
Qed.
Lemma lineage_tail idx h x l : lineage idx h (x :: l) -> l <> [] ->
  exists p e, Find idx h = Some e /\ ent_parent e = Some p /\ lineage idx p l.
Proof. intros L Hl. inversion L as [? ? E P|? e p ? E P L']; subst; [done|]. eauto. Qed.

(** The same tree, the same verdicts, the same best header. *)
Definition unjudged (idx idx' : BlockIndex) : Prop :=
  same_tree idx idx' /\ best_header_ idx' = best_header_ idx /\
  forall k, option_Forall2 (fun e e' => ent_failure e = ent_failure e') (Find idx k) (Find idx' k).

Lemma unjudged_refl idx : unjudged idx idx.
Proof. split_and!; [by split|done|]. intros k. destruct (Find idx k); by constructor. Qed.

Lemma unjudged_trans a b c : unjudged a b -> unjudged b c -> unjudged a c.
Proof.
  intros (T & B & F) (T' & B' & F'). split_and!; [by etrans|congruence|]. intros k. specialize (F k). specialize (F' k).
  inversion F as [x y E Ex Ey|Ex Ey]; rewrite <- Ey in F'; inversion F'; constructor. congruence.
Qed.

Lemma RecordValidity_unjudged h v idx : index_inv idx -> unjudged idx (RecordValidity h v idx).
Proof.
  intros I. destruct (RecordValidity_inv h v idx I) as (_ & T & F). split_and!; [done| |done].
  unfold RecordValidity. destruct (Find idx h); [|done]. by destruct (_ <? _).
Qed.

Lemma unjudged_find idx idx' h e : unjudged idx idx' -> Find idx h = Some e ->
  exists e', Find idx' h = Some e' /\ same_place e e' /\ ent_failure e = ent_failure e'.
Proof.
  intros (T & _ & F) E. destruct (same_tree_find_r _ _ _ _ T E) as (e' & E' & P). exists e'. split_and!; try done.
  specialize (F h). rewrite E, E' in F. by inversion F.
Qed.

(** Verdicts only ever take candidates away. *)
Lemma candidates_mono idx idx' : same_tree idx idx' ->
  (forall h e e', Find idx h = Some e -> Find idx' h = Some e' -> eligible e' -> eligible e) ->
  (candidates (entries_ idx') <= candidates (entries_ idx))%nat.
Proof.
  intros T Hm. unfold candidates. rewrite <- !size_dom. apply subseteq_size. intros h.
  rewrite !elem_of_dom. intros [e' [E' El]%map_lookup_filter_Some].
  destruct (same_tree_find _ _ _ _ T E') as (e & E & _). exists e. apply map_lookup_filter_Some.
  split; [done|]. by apply (Hm h e e').
Qed.

Lemma candidates_unjudged idx idx' : unjudged idx idx' -> (candidates (entries_ idx') <= candidates (entries_ idx))%nat.
Proof.
  intros J. apply candidates_mono; [apply J|]. intros x y y' Ey Ey'.
  destruct (unjudged_find _ _ _ _ J Ey) as (y1 & Ey1 & _ & F). rewrite Ey' in Ey1. injection Ey1 as <-.
  unfold eligible. congruence.
Qed.

Lemma candidates_drop idx idx' h e e' : same_tree idx idx' ->
  (forall h e e', Find idx h = Some e -> Find idx' h = Some e' -> eligible e' -> eligible e) ->
  Find idx h = Some e -> eligible e -> Find idx' h = Some e' -> ~ eligible e' ->
  (candidates (entries_ idx') < candidates (entries_ idx))%nat.
Proof.
  intros T Hm E El E' Nl. pose proof (candidates_mark (entries_ idx) h e FItself E El ltac:(done)) as Hc.
  enough (candidates (entries_ idx') <= candidates (<[h := set_failure FItself e]> (entries_ idx)))%nat by lia.
  change (<[h := set_failure FItself e]> (entries_ idx))
    with (entries_ (with_entries idx (<[h := set_failure FItself e]> (entries_ idx)))).
  apply candidates_mono.
  - destruct T as [T1 T2 T3 T4]. split; try done. intros k. unfold Find in *. cbn. destruct (decide (k = h)) as [->|Hk].
    + rewrite lookup_insert_eq. specialize (T1 h). rewrite E in T1. inversion T1 as [? ? S|]; subst.
      constructor. by destruct S as (? & ? & ? & ? & ? & ?).
    + by rewrite lookup_insert_ne.
  - intros k x x'. unfold Find in *. cbn. destruct (decide (k = h)) as [->|Hk].
    + intros _ Ex' El'. by rewrite E' in Ex'; injection Ex' as ->.
    + rewrite lookup_insert_ne by done. apply Hm.
Qed.
End growth.

(** ** The invariant *)

Lemma lookup_rev {A} (l : list A) i : (i < length l)%nat -> rev l !! i = l !! (length l - Datatypes.S i)%nat.
Proof. intros Hi. rewrite rev_alt. by apply (reverse_lookup l). Qed.

Lemma List_last_cons {A} (path : list A) : forall h from, List.last (h :: path) from = List.last path h.
Proof.
  induction path as [|x path IH]; intros h from; [done|].
  change (List.last (x :: path) from = List.last (x :: path) h). by rewrite !IH.
Qed.

Section invariant.
Context `{SH : Sha256Impl} `{SB : Signature.SignatureBackends} {V D K : Type}.
Context `{CoinsView V} `{!LawfulView V} `{BlockStore D} `{!LawfulStore D} `{ChainSink K V} `{!LawfulSink K V}.
Context (params : ChainParams) (f0 : Ledger).
Abbreviation State := (ChainState V D K).
Implicit Types (s : State).

(** The ledger [f] is what applying the stored bodies of the chain, in order, makes
    of the genesis ledger; each applied block's undo record is the one stored. *)
Inductive applied (store : D) : list bytes -> Ledger -> Prop :=
  | applied_genesis g f : (forall o, f o = f0 o) -> applied store [g] f
  | applied_block chain h block r f f' :
      applied store chain f -> GetBlock store h = Some block -> GetUndo store h = Some (undo r) ->
      block_step params block f r f' -> applied store (chain ++ [h]) f'.

(** The index is sound, the chain is a path in it from genesis, every body is
    stored under its own hash, and the coins are those of the chain. *)
Record in_step s : Prop := {
  is_index : index_inv (index_ s);
  is_chain : exists t, lineage (index_ s) t (rev (chain_ s));
  is_store h b : GetBlock (store_ s) h = Some b -> Block_Hash b = h;
  is_coins : applied (store_ s) (chain_ s) (GetCoin (coins_ s)) }.

Lemma applied_ext store chain f f' : (forall o, f' o = f o) -> applied store chain f -> applied store chain f'.
Proof.
  intros E A. revert E. destruct A as [g f E1|c h b r f1 f A B U (Hne & T & C)]; intros E;
    [apply applied_genesis; intros o; by rewrite E|].
  eapply applied_block; [exact A|exact B|exact U|]. split_and!; [done| |done]. by eapply txs_step_ext_r.
Qed.

Lemma applied_store store store' chain f :
  (forall h b, h ∈ chain -> GetBlock store h = Some b -> GetBlock store' h = Some b) ->
  (forall h, h ∈ chain -> GetUndo store' h = GetUndo store h) ->
  applied store chain f -> applied store' chain f.
Proof.
  intros HB HU A. induction A as [g f E|c h b r f f' A IH B U S]; [by constructor|].
  eapply applied_block; [|apply HB; [apply elem_of_app; right; by left|done]| |exact S].
  - apply IH; intros; [apply HB|apply HU]; try done; apply elem_of_app; by left.
  - rewrite HU; [done|]. apply elem_of_app. right. by left.
Qed.

Lemma applied_snoc store chain h f' : applied store (chain ++ [h]) f' -> chain <> [] ->
  exists block r f, applied store chain f /\ GetBlock store h = Some block /\ GetUndo store h = Some (undo r) /\
    block_step params block f r f'.
Proof.
  intros A Hne. remember (chain ++ [h]) as c eqn:E. destruct A as [g f _|c h' b r f f' A B U S].
  - destruct chain as [|x [|y chain]]; done.
  - apply app_inj_tail in E as [-> ->]. eauto 10.
Qed.

Lemma in_step_tip s : in_step s -> exists t e pre, Tip s = Some t /\ Find (index_ s) t = Some e /\
  chain_ s = pre ++ [t] /\ lineage (index_ s) t (rev (chain_ s)).
Proof.
  intros [_ [t L] _ _]. destruct (lineage_head _ _ _ L) as [tl Etl].
  assert (chain_ s = rev tl ++ [t]) as Ec by (rewrite <- (rev_involutive (chain_ s)), Etl; done).
  destruct (lineage_lookup _ _ _ L 0 t) as (e & E & _); [by rewrite Etl|].
  exists t, e, (rev tl). split_and!; try done. unfold Tip. rewrite Ec. apply last_snoc.
Qed.

(** Every block of the chain is found at its height. *)
Lemma chain_contains s x ex : in_step s -> x ∈ chain_ s -> Find (index_ s) x = Some ex ->
  Contains (chain_ s) ex = true.
Proof.
  intros I Hx Ex. destruct (in_step_tip s I) as (t & e & pre & _ & E & _ & L).
  pose proof (is_index _ I) as II. apply bool_decide_eq_true_2. unfold AtHeight.
  rewrite (inv_hash _ _ _ II Ex). assert (x ∈ rev (chain_ s)) as [i Hi]%list_elem_of_lookup_1.
  { apply list_elem_of_In. rewrite <- in_rev. by apply list_elem_of_In. }
  pose proof (lineage_lookup_height _ II _ _ _ _ _ _ E L Hi Ex) as Hh.
  pose proof (lineage_length _ II _ _ _ E L) as Hl. unfold zlen in *. rewrite length_rev in Hl.
  apply lookup_lt_Some in Hi as Hlt. rewrite length_rev in Hlt.
  rewrite (proj2 (Z.leb_gt _ _)) by lia. rewrite lookup_rev in Hi by done. rewrite <- Hi. f_equal. lia.
Qed.

(** *** Commits change nothing the invariant reads *)

Lemma commit_entry_spec h s e : Find (index_ s) h = Some e ->
  exists s', commit_entry h s = Some s' /\ index_ s' = index_ s /\ store_ s' = store_ s /\ coins_ s' = coins_ s /\
    chain_ s' = chain_ s /\ (sink_ s' = None <-> sink_ s = None).
Proof.
  intros E. unfold commit_entry, CommitEntry. rewrite E. cbn. destruct (sink_ s) as [k|] eqn:Ek.
  - destruct (CommitHeader e k) as [ok k']. eexists. split; [reflexivity|]. cbn. split_and!; done.
  - eexists. split; [reflexivity|]. cbn. by rewrite Ek.
Qed.

Lemma CommitCurrentTip_spec s : chain_ s <> [] ->
  exists ok s', CommitCurrentTip s = Some (ok, s') /\ index_ s' = index_ s /\ store_ s' = store_ s /\
    chain_ s' = chain_ s /\ (sink_ s' = None <-> sink_ s = None) /\
    (ok = true -> coins_ s' ≗ coins_ s) /\ (ok = false -> sink_ s <> None).
Proof.
  intros Hne. unfold CommitCurrentTip. destruct (sink_ s) as [k|] eqn:Ek.
  - unfold Tip. destruct (last (chain_ s)) as [t|] eqn:El; [|by apply last_None in El]. cbn.
    destruct (CommitTip (coins_ s) t k) as [[ok coins] k'] eqn:C. exists ok. eexists. split; [reflexivity|]. cbn.
    split_and!; try done. intros ->. by eapply CommitTip_keeps.
  - exists true, s. split_and!; done.
Qed.
(** *** Moving the invariant *)

Lemma in_step_moved s s' : in_step s -> index_inv (index_ s') -> grows (index_ s) (index_ s') ->
  store_ s' = store_ s -> chain_ s' = chain_ s -> coins_ s' ≗ coins_ s -> in_step s'.
Proof.
  intros [I [t L] B A] I' G Es Ec Eo. split; [done| | |].
  - exists t. rewrite Ec. by eapply lineage_grows.
  - by rewrite Es.
  - rewrite Es, Ec. by eapply applied_ext.
Qed.

(** Popping the tip of a chain longer than genesis undoes exactly its block. *)
Lemma DisconnectTip_spec m s pre t : in_step s -> chain_ s = pre ++ [t] -> pre <> [] ->
  exists r s', DisconnectTip m s = Some (r, s') /\ index_ s' = index_ s /\ store_ s' = store_ s /\ chain_ s' = pre /\
    (sink_ s' = None <-> sink_ s = None) /\
    match r with
    | Value m' => in_step s' /\ m' = count_disconnected m
    | Stop f => fail_error f = CommitFailed /\ sink_ s <> None
    end.
Proof.
  intros I Ec Hne. destruct (in_step_tip s I) as (t' & e & pre' & Ht & E & Ec' & L).
  rewrite Ec in Ec'. apply app_inj_tail in Ec' as [<- <-]. destruct I as [I _ B A]. rewrite Ec in A, L.
  destruct (applied_snoc _ _ _ _ A Hne) as (block & r & f & A' & Eb & Eu & S).
  rewrite rev_app_distr in L. cbn in L. destruct (lineage_tail _ _ _ _ L) as (p & e' & E' & P & L').
  { intros Hr. apply Hne. by rewrite <- (rev_involutive pre), Hr. }
  rewrite E in E'. injection E' as <-. destruct (block_step_undo _ _ _ _ _ _ S (fun o => eq_refl)) as (coins & U & G).
  set (s1 := with_chain pre (with_coins coins s)).
  destruct (CommitCurrentTip_spec s1) as (ok & s2 & C & Ei & Es & Ech & Ek & Hok & Hfail); [done|].
  unfold DisconnectTip. rewrite Ht. cbn. rewrite E. cbn. rewrite P, (inv_hash _ _ _ I E), Eb, Eu, U.
  rewrite Ec, removelast_last. fold s1. rewrite C. cbn. destruct ok; cbn [negb].
  - eexists _, _. split; [reflexivity|]. cbn. split_and!; try done. split; cbn.
    + by rewrite Ei.
    + exists p. by rewrite Ech, Ei.
    + by rewrite Es.
    + rewrite Es, Ech. eapply applied_ext; [|exact A']. intros o. etrans; [apply (Hok eq_refl o)|apply G].
  - eexists _, _. split; [reflexivity|]. split_and!; try done. split; [done|]. by apply Hfail.
Qed.
(** Ruling a block out leaves the invariant and takes a candidate away. *)
Lemma rule_out_spec h s e : in_step s -> Find (index_ s) h = Some e ->
  exists k idx s', RecordFailure h (index_ s) = Some (k, idx) /\ commit_entry h (with_index idx s) = Some s' /\
    in_step s' /\ index_ s' = idx /\ same_tree (index_ s) idx /\ store_ s' = store_ s /\ coins_ s' = coins_ s /\
    chain_ s' = chain_ s /\ (sink_ s' = None <-> sink_ s = None) /\
    (forall x e e', Find (index_ s) x = Some e -> Find idx x = Some e' ->
      (eligible e' <-> eligible e /\ ~ descends (index_ s) h x)) /\
    (eligible e -> (candidates (entries_ idx) < candidates (entries_ (index_ s)))%nat).
Proof.
  intros I E. destruct (RecordFailure_spec h (index_ s) (is_index _ I)) as (k & idx & R & I' & T & _ & Hv).
  destruct (same_tree_find_r _ _ _ _ T E) as (e' & E' & _).
  destruct (commit_entry_spec h (with_index idx s) e' E') as (s' & C & Ei & Es & Eo & Ec & Ek). cbn in *.
  exists k, idx, s'. split_and!; try done.
  - apply (in_step_moved s); [done|by rewrite Ei|rewrite Ei; by apply same_tree_grows|done|done|].
    intros o. by rewrite Eo.
  - intros x y y' Ey Ey'. by apply (Hv x y y').
  - intros El. apply (candidates_drop _ _ h e e'); try done.
    + intros x y y' Ey Ey' Hy. by apply (Hv x y y' Ey Ey').
    + intros Hy. apply (Hv h e e' E E') in Hy as [_ Hn]. apply Hn. constructor.
Qed.

(** What [ConnectTip] may do to a state, besides stopping. *)
Definition connected_one (h : bytes) s s' : Prop :=
  in_step s' /\ chain_ s' = chain_ s ++ [h] /\ unjudged (index_ s) (index_ s').

Definition refused_one s s' : Prop :=
  in_step s' /\ chain_ s' = chain_ s /\ same_tree (index_ s) (index_ s') /\
  (candidates (entries_ (index_ s')) < candidates (entries_ (index_ s)))%nat.

(** The bodies and whether there is a sink never change during activation. *)
Definition same_bodies s s' : Prop :=
  (forall x, GetBlock (store_ s') x = GetBlock (store_ s) x) /\ (sink_ s' = None <-> sink_ s = None).

(** The only ways activation stops. *)
Definition stop_ok s (f : ActivationFailure) s' : Prop :=
  sink_ s <> None /\ (fail_error f = CommitFailed \/ (fail_error f = StorageFaulted /\ in_step s')).

Definition connect_outcome (h : bytes) (m : ActivationSummary) s (r : Outcome (bool * ActivationSummary)) s' : Prop :=
  same_bodies s s' /\
  match r with
  | Value (true, m') => connected_one h s s' /\ m' = count_connected m
  | Value (false, m') => refused_one s s' /\ exists rej, m' = push_rejected rej m
  | Stop f => stop_ok s f s'
  end.

Lemma refuse_spec h e error m s : in_step s -> Find (index_ s) h = Some e -> eligible e ->
  exists r s', refuse e error m s = Some (r, s') /\ connect_outcome h m s r s'.
Proof.
  intros I E El. unfold refuse. destruct (StorageHasFault s) eqn:F.
  - eexists _, _. split; [reflexivity|]. split; [done|]. split; [|right; done]. intros Ek. unfold StorageHasFault in F. by rewrite Ek in F.
  - rewrite (inv_hash _ _ _ (is_index _ I) E).
    destruct (rule_out_spec h s e I E) as (k & idx & s' & -> & C & I' & <- & T & Es & _ & Ec & Ek & _ & Hc). cbn.
    rewrite C. cbn. eexists _, _. split; [reflexivity|]. split; [split; [by rewrite Es|done]|].
    split; [|by eexists]. split_and!; try done. by apply Hc.
Qed.

(** Applying the block above the tip. *)
Lemma apply_block_spec h e block m s t : in_step s -> Find (index_ s) h = Some e -> eligible e -> Tip s = Some t ->
  ent_parent e = Some t -> GetBlock (store_ s) h = Some block ->
  exists r s', apply_block params e block m s = Some (r, s') /\ connect_outcome h m s r s'.
Proof.
  intros I E El Ht P Eb. unfold apply_block. destruct (ConnectBlock block (coins_ s) params) as [[r|error] coins] eqn:C.
  2:{ assert (coins = coins_ s) as -> by (by apply ConnectBlock_Err in C).
      assert (in_step (with_coins (coins_ s) s)) as I' by (by destruct s).
      destruct (refuse_spec h e error m _ I' E El) as (r & s' & R & O). exists r, s'. split; [done|]. by destruct s. }
  rewrite (inv_hash _ _ _ (is_index _ I) E). cbn.
  destruct (RecordValidity_inv h VFull (index_ s) (is_index _ I)) as (I1 & T1 & _).
  pose proof (RecordValidity_unjudged h VFull (index_ s) (is_index _ I)) as J1.
  destruct (unjudged_find _ _ _ _ J1 E) as (e1 & E1 & S1 & _).
  set (s1 := with_index _ _). destruct (commit_entry_spec h s1 e1 E1) as (s2 & -> & Ei & Es & Eo & Ec & Ek). cbn.
  destruct (CommitCurrentTip_spec s2) as (ok & s3 & -> & Ei' & Es' & Ec' & Ek' & Hok & Hfail).
  { rewrite Ec. cbn. by destruct (chain_ s). }
  cbn. assert (forall s4, store_ s4 = store_ s3 -> sink_ s4 = sink_ s3 -> same_bodies s s4) as HB.
  { intros s4 Hs Hk. split; [|rewrite Hk, Ek', Ek; done]. intros x. rewrite Hs, Es', Es. cbn. by apply GetBlock_PutUndo. }
  destruct ok; cbn [negb]; eexists _, _; (split; [reflexivity|]); (split; [by apply HB|]).
  2:{ split; [|by left]. intros Hs. apply (Hfail eq_refl). by apply Ek. }
  split; [|done]. destruct (in_step_tip s I) as (t' & et & pre & Ht' & Et & Ech & L).
  rewrite Ht in Ht'. injection Ht' as <-. cbn.
  assert (lineage (index_ s) h (h :: rev (chain_ s))) as Lh by (by econstructor).
  split_and!; [|cbn; rewrite Ec', Ec; done|cbn; by rewrite Ei', Ei].
  split; cbn.
  - by rewrite Ei', Ei.
  - exists h. rewrite Ec', Ec, Ei', Ei. cbn. rewrite rev_app_distr. cbn.
    eapply lineage_grows; [by apply same_tree_grows|done].
  - intros x b. rewrite Es', Es. cbn. rewrite GetBlock_PutUndo. by apply (is_store _ I).
  - rewrite Es', Es, Ec', Ec. cbn. eapply applied_ext; [intros o; apply (Hok eq_refl o)|]. rewrite Eo. cbn.
    eapply (applied_block _ (chain_ s) h block r); [| | |by apply ConnectBlock_step].
    + apply (applied_store (store_ s)); [| |apply (is_coins _ I)].
      * intros x b _. by rewrite GetBlock_PutUndo.
      * intros x Hx. rewrite GetUndo_PutUndo. destruct (decide (x = h)) as [->|]; [|done]. exfalso.
        apply (lineage_NoDup _ _ _ (is_index _ I)), NoDup_cons in Lh as [Hn _]. apply Hn.
        apply list_elem_of_In. rewrite <- in_rev. by apply list_elem_of_In.
    + by rewrite GetBlock_PutUndo.
    + rewrite GetUndo_PutUndo. by rewrite decide_True.
Qed.
(** Only the entry's place matters, not the verdicts recorded on it. *)
Lemma apply_block_same e e' block m s : same_place e e' ->
  apply_block params e block m s = apply_block params e' block m s.
Proof. intros (_ & Hh & He & _). unfold apply_block, refuse. by rewrite Hh, He. Qed.

Lemma connect_outcome_unjudged h m s idx r s' : unjudged (index_ s) idx ->
  connect_outcome h m (with_index idx s) r s' -> connect_outcome h m s r s'.
Proof.
  intros J [B O]. split; [done|]. pose proof (proj1 J) as T. destruct r as [[[] m']|f]; [| |done].
  - destruct O as ((I & C & J') & ?). split; [|done]. split_and!; try done. by eapply unjudged_trans.
  - destruct O as ((I & C & T' & Hc) & ?). split; [|done]. split_and!; try done; [by etrans|]. cbn in Hc.
    eapply Nat.lt_le_trans; [exact Hc|]. by apply candidates_unjudged.
Qed.

Lemma ConnectTip_spec h e t m s : in_step s -> Find (index_ s) h = Some e -> eligible e -> Tip s = Some t ->
  ent_parent e = Some t -> HaveBlock (store_ s) h = true ->
  exists r s', ConnectTip params h m s = Some (r, s') /\ connect_outcome h m s r s'.
Proof.
  intros I E El Ht P Hb. rewrite HaveBlock_spec in Hb. apply bool_decide_eq_true in Hb as [block Eb].
  unfold ConnectTip. rewrite E, Ht. cbn. rewrite bool_decide_eq_true_2 by done. cbn [negb].
  rewrite (inv_hash _ _ _ (is_index _ I) E), Eb.
  destruct (validity_level _ <? 1); [|by apply (apply_block_spec h e block m s t)].
  destruct (CheckBlock block params) as [[]|error]; [|by apply refuse_spec].
  destruct (RecordValidity_inv h VBody (index_ s) (is_index _ I)) as (I1 & T1 & _).
  pose proof (RecordValidity_unjudged h VBody (index_ s) (is_index _ I)) as J1.
  destruct (unjudged_find _ _ _ _ J1 E) as (e1 & E1 & S1 & F1). rewrite (apply_block_same e e1) by done.
  destruct (apply_block_spec h e1 block m (with_index (RecordValidity h VBody (index_ s)) s) t) as (r & s' & R & O);
    [|done|unfold eligible in *; congruence|done|by destruct S1 as (_ & _ & _ & _ & <- & _)|done|].
  - apply (in_step_moved s); [done|done|by apply same_tree_grows|done|done|done].
  - exists r, s'. split; [done|]. by eapply connect_outcome_unjudged.
Qed.

(** *** The loops over a plan *)

(** Each block of the path is eligible and sits on the one before. *)
Fixpoint climbs (idx : BlockIndex) (from : bytes) (path : list bytes) : Prop :=
  match path with
  | [] => True
  | h :: path => (exists e, Find idx h = Some e /\ eligible e /\ ent_parent e = Some from) /\ climbs idx h path
  end.

Lemma climbs_unjudged idx idx' path : unjudged idx idx' -> forall from, climbs idx from path -> climbs idx' from path.
Proof.
  intros J. induction path as [|h path IH]; intros from; [done|]. intros [(e & E & El & P) C]. split; [|by apply IH].
  destruct (unjudged_find _ _ _ _ J E) as (e' & E' & (_ & _ & _ & _ & S & _) & F). exists e'.
  unfold eligible in *. split_and!; congruence.
Qed.

Lemma disconnect_all_spec plan : forall m s rest, in_step s -> chain_ s = rest ++ rev plan -> rest <> [] ->
  exists r s', disconnect_all plan m s = Some (r, s') /\ index_ s' = index_ s /\ same_bodies s s' /\
    match r with
    | Value m' => in_step s' /\ chain_ s' = rest /\ rejected m' = rejected m
    | Stop f => stop_ok s f s'
    end.
Proof.
  induction plan as [|h plan IH]; intros m s rest I Ec Hne; cbn [disconnect_all].
  { eexists _, _. split; [reflexivity|]. cbn in Ec. rewrite app_nil_r in Ec. split_and!; done. }
  cbn [rev] in Ec. rewrite app_assoc in Ec. unfold Tip. rewrite Ec, last_snoc. cbn.
  rewrite bool_decide_eq_true_2 by done. cbn [negb].
  destruct (DisconnectTip_spec m s (rest ++ rev plan) h I Ec) as (r & s1 & -> & Ei & Es & Ech & Ek & O).
  { by destruct rest. }
  cbn. destruct r as [m1|f].
  - destruct O as [I1 ->]. destruct (IH (count_disconnected m) s1 rest I1 Ech Hne) as (r & s2 & -> & Ei2 & [B2 K2] & O2).
    eexists _, _. split; [reflexivity|]. split_and!; [congruence|split|].
    + intros x. by rewrite B2, Es.
    + by rewrite K2.
    + destruct r as [m2|f]; [done|]. destruct O2 as [Hk O2]. split; [|done]. by rewrite <- Ek.
  - destruct O as [Hf Hk]. eexists _, _. split; [reflexivity|]. split_and!; [done|split; [intros x; by rewrite Es|done]|]. split; [done|by left].
Qed.

(** Either the whole path is connected, or a block on it was ruled out. *)
Lemma connect_all_spec path : forall m s t, in_step s -> Tip s = Some t -> climbs (index_ s) t path ->
  Forall (fun h => HaveBlock (store_ s) h = true) path ->
  exists r s', connect_all params path m s = Some (r, s') /\ same_bodies s s' /\
    match r with
    | Value m' =>
        (in_step s' /\ chain_ s' = chain_ s ++ path /\ unjudged (index_ s) (index_ s') /\ rejected m' = rejected m) \/
        (in_step s' /\ same_tree (index_ s) (index_ s') /\ rejected m' <> [] /\
         (candidates (entries_ (index_ s')) < candidates (entries_ (index_ s)))%nat)
    | Stop f => stop_ok s f s'
    end.
Proof.
  induction path as [|h path IH]; intros m s t I Ht Hc Hb; cbn [connect_all].
  { eexists _, _. split; [reflexivity|]. split; [done|]. left. rewrite app_nil_r. split_and!; try done. apply unjudged_refl. }
  destruct Hc as [(e & E & El & P) Hc]. apply Forall_cons in Hb as [Hh Hb].
  destruct (ConnectTip_spec h e t m s I E El Ht P Hh) as (r & s1 & -> & [B1 K1] & O). cbn.
  destruct r as [[[] m1]|f]; [| |eexists _, _; split; [reflexivity|done]].
  2:{ destruct O as ((I1 & _ & T1 & Hlt) & rej & ->). eexists _, _. split; [reflexivity|]. split; [done|].
      right. split_and!; try done. cbn. by destruct (rejected m). }
  destruct O as ((I1 & C1 & J1) & ->).
  destruct (IH (count_connected m) s1 h I1) as (r & s2 & -> & [B2 K2] & O2).
  { unfold Tip. by rewrite C1, last_snoc. }
  { by eapply climbs_unjudged. }
  { eapply Forall_impl; [exact Hb|]. intros x. rewrite !HaveBlock_spec. by rewrite B1. }
  exists r, s2. split; [done|]. split; [split; [intros x; by rewrite B2, B1|by rewrite K2]|].
  destruct r as [m2|f]; [|destruct O2 as [Hk O2]; split; [by rewrite <- K1|done]].
  destruct O2 as [(I2 & C2 & J2 & R2)|(I2 & T2 & R2 & Hlt)]; [left|right].
  - rewrite C2, C1, <- app_assoc. split_and!; try done. by eapply unjudged_trans.
  - split_and!; try done; [destruct J1; by etrans|]. eapply Nat.lt_le_trans; [exact Hlt|].
    by apply candidates_unjudged.
Qed.
(** *** One pass *)

Lemma same_bodies_trans s1 s2 s3 : same_bodies s1 s2 -> same_bodies s2 s3 -> same_bodies s1 s3.
Proof. intros [B K1] [B' K']. split; [intros x; by rewrite B', B|by rewrite K']. Qed.

Lemma stop_ok_from s1 s2 f s3 : same_bodies s1 s2 -> stop_ok s2 f s3 -> stop_ok s1 f s3.
Proof. intros [_ Hk] [Hn O]. split; [by rewrite <- Hk|done]. Qed.

Lemma climbs_app idx path path' : forall from, climbs idx from (path ++ path') <->
  climbs idx from path /\ climbs idx (List.last path from) path'.
Proof.
  induction path as [|h path IH]; intros from; cbn [app climbs]; [cbn; tauto|]. rewrite IH, List_last_cons. tauto.
Qed.

Lemma lineage_climbs idx path : index_inv idx -> forall b be f rest, Find idx b = Some be -> eligible be ->
  lineage idx b (rev path ++ f :: rest) -> climbs idx f path.
Proof.
  intros I. induction path as [|x path IH] using rev_ind; intros b be f rest E El L; [done|].
  rewrite rev_app_distr in L. cbn in L. destruct (lineage_head _ _ _ L) as [tl [= -> Etl]].
  destruct (lineage_tail _ _ _ _ L) as (p & e & E' & P & L'); [by destruct (rev path)|].
  rewrite E in E'. injection E' as <-.
  destruct (inv_parent _ _ _ I E) as [(_ & ? & _)|(p' & pe & P' & Ep & _ & _ & Hel)]; [congruence|].
  assert (p' = p) as -> by congruence. apply climbs_app. split; [by apply (IH p pe f rest Ep (Hel El) L')|].
  split; [|done]. exists be. split_and!; try done. rewrite P. f_equal.
  destruct (lineage_head _ _ _ L') as [tl' Etl']. destruct path as [|y path] using rev_ind.
  - cbn in *. by injection Etl'.
  - rewrite rev_app_distr in Etl'. cbn in Etl'. injection Etl' as -> _. by rewrite last_last.
Qed.

Lemma reachable_prefix_spec store path : exists rest, path = reachable_prefix store path ++ rest /\
  Forall (fun h => HaveBlock store h = true) (reachable_prefix store path) /\
  reachable_prefix store rest = [].
Proof.
  induction path as [|h path (rest & E & F & R)]; cbn; [by exists []|]. destruct (HaveBlock store h) eqn:Hb.
  - exists rest. split_and!; [cbn; by f_equal|by constructor|done].
  - exists (h :: path). cbn. rewrite Hb. by split_and!.
Qed.

Lemma reachable_prefix_same s s' path : same_bodies s s' ->
  reachable_prefix (store_ s') path = reachable_prefix (store_ s) path.
Proof. intros [B _]. induction path as [|h path IH]; cbn; [done|]. by rewrite !HaveBlock_spec, B, IH. Qed.

Lemma last_attainable (l : list bytes) f reach : last (l ++ f :: reach) = Some (attainable f reach).
Proof.
  destruct reach as [|x reach] using rev_ind; unfold attainable; [apply last_snoc|].
  by rewrite List.last_last, app_comm_cons, app_assoc, last_snoc.
Qed.

(** Why a pass returns: at the best header, or nothing better can be reached. *)
Definition rests s (t : bytes) : Prop :=
  match BestHeader (index_ s) with
  | None => True
  | Some b => b = t \/
      exists plan fork a te, PlanChainSwitch (index_ s) (Find (index_ s) t) (Find (index_ s) b) = Some plan /\
        fork_point plan = Some fork /\
        Find (index_ s) (attainable fork (reachable_prefix (store_ s) (BlockIndex.connect plan))) = Some a /\
        Find (index_ s) t = Some te /\ IsBetterTip a te = false
  end.

Definition returned s (m m' : ActivationSummary) : Prop :=
  Tip s = Some (tip m') /\ rests s (tip m') /\ rejected m' = rejected m /\
  (BestHeader (index_ s) = Some (tip m') -> reached_best_header m' = true).

(** The next pass returns at once. *)
Definition settled s : Prop := forall m, exists m', activate_pass params m s = Some (Value (Return m'), s) /\ returned s m m'.

(** The plan of a pass, and what the invariant knows about it. *)
Lemma plan_known s t e b be : in_step s -> Tip s = Some t -> Find (index_ s) t = Some e ->
  Find (index_ s) b = Some be -> eligible be ->
  exists plan f rest fe lt, PlanChainSwitch (index_ s) (Some e) (Some be) = Some plan /\ fork_point plan = Some f /\
    Find (index_ s) f = Some fe /\ Contains (chain_ s) fe = true /\
    chain_ s = rev rest ++ f :: rev (disconnect plan) /\ lineage (index_ s) b lt /\
    lt = rev (BlockIndex.connect plan) ++ f :: rest /\
    climbs (index_ s) f (BlockIndex.connect plan) /\
    (forall x, x ∈ disconnect plan -> x ∉ BlockIndex.connect plan).
Proof.
  intros I Ht E Eb El. pose proof (is_index _ I) as II.
  destruct (in_step_tip s I) as (t' & e' & pre & Ht' & E' & _ & L). rewrite Ht in Ht'. injection Ht' as <-.
  destruct (lineage_total _ II _ _ Eb) as (lt & Lt & _).
  destruct (PlanChainSwitch_spec _ II _ _ _ _ _ _ E Eb L Lt) as (plan & P & f & rest & Hf & Ef & Et & Hd).
  assert (chain_ s = rev rest ++ f :: rev (disconnect plan)) as Ec.
  { rewrite <- (rev_involutive (chain_ s)), Ef, rev_app_distr. cbn. by rewrite <- app_assoc. }
  destruct (lineage_lookup _ _ _ L (length (disconnect plan)) f) as (fe & Efe & _).
  { rewrite Ef. by rewrite lookup_app_r, Nat.sub_diag. }
  exists plan, f, rest, fe, lt. split_and!; try done.
  - apply (chain_contains s f); [done| |done]. rewrite Ec. apply elem_of_app. right. left.
  - rewrite Et in Lt. by apply (lineage_climbs _ _ II b be f rest).
Qed.
Lemma best_known s b : in_step s -> BestHeader (index_ s) = Some b ->
  exists be, Find (index_ s) b = Some be /\ eligible be.
Proof.
  intros I Eb. pose proof (inv_best _ (is_index _ I)) as B. unfold best_ok in B.
  change (best_header_ (index_ s) = Some b) in Eb. rewrite Eb in B. destruct B as (be & E & El & _). eauto.
Qed.

(** The tip is below the best header with no body for the next block up. *)
Lemma settled_below s t b lt rest : in_step s -> Tip s = Some t -> BestHeader (index_ s) = Some b ->
  lineage (index_ s) b lt -> lt = rev rest ++ rev (chain_ s) -> reachable_prefix (store_ s) rest = [] -> settled s.
Proof.
  intros I Ht Hb Lb El Hr m. destruct (in_step_tip s I) as (t' & e & pre & Ht' & E & Ec & L).
  rewrite Ht in Ht'. injection Ht' as <-. destruct (best_known s b I Hb) as (be & Eb & Elb).
  unfold activate_pass. rewrite Ht, Hb. cbn [mbind option_bind]. case_bool_decide as Hbt.
  { subst b. eexists. split; [reflexivity|]. split_and!; try done. unfold rests. rewrite Hb. by left. }
  destruct (plan_known s t e b be I Ht E Eb Elb)
    as (plan & f & low & fe & lt' & P & Hf & Ef & Hcon & Echain & Lb' & Elt' & _ & Hdis).
  rewrite (lineage_fun _ _ _ _ Lb' Lb), El in Elt'. rewrite Echain in Elt'.
  rewrite rev_app_distr in Elt'. cbn [rev] in Elt'. rewrite rev_involutive, rev_involutive, <- !app_assoc in Elt'. cbn in Elt'.
  rewrite app_assoc in Elt'. apply app_inv_tail in Elt'.
  assert (disconnect plan = []) as Hd.
  { destruct (disconnect plan) as [|x d]; [done|]. exfalso. apply (Hdis x); [left|].
    apply list_elem_of_In, in_rev. rewrite <- Elt'. apply in_app_iff. right. by left. }
  rewrite Hd, app_nil_r in Elt'. rewrite Hd in Echain. cbn in Echain. assert (f = t) as ->.
  { rewrite Echain in Ec. by apply app_inj_tail in Ec as [_ ?]. }
  assert (BlockIndex.connect plan = rest) as Hconn.
  { by rewrite <- (rev_involutive rest), Elt', rev_involutive. }
  rewrite E in Ef. injection Ef as <-. rewrite E, Eb, P. cbn [mbind option_bind]. unfold follow_plan.
  rewrite Hf, E. cbn [mbind option_bind]. rewrite Hcon, Hconn, Hr. cbn [negb attainable List.last]. unfold attainable. cbn [List.last].
  rewrite E, Ht. cbn [mbind option_bind]. rewrite E. cbn [mbind option_bind]. rewrite not_better_self. cbn [negb].
  eexists. split; [reflexivity|]. split_and!; try done.
  - unfold rests. rewrite Hb. cbn [tip set_tip]. right. exists plan, t, e, e. rewrite Hconn, Hr, E, Eb. split_and!; try done. apply not_better_self.
  - cbn. rewrite Hb. congruence.
Qed.

(** Tips compared by their entries before the move. *)
Definition improves s s' : Prop :=
  exists t t' e e', Tip s = Some t /\ Tip s' = Some t' /\ Find (index_ s) t = Some e /\ Find (index_ s) t' = Some e' /\
    (t' = t \/ IsBetterTip e' e = true).

(** A pass that goes round again either reached what it could or ruled a block out. *)
Definition again s (m m' : ActivationSummary) s' : Prop :=
  in_step s' /\
  ((settled s' /\ rejected m' = rejected m /\ improves s s') \/
   (rejected m' <> [] /\ (candidates (entries_ (index_ s')) < candidates (entries_ (index_ s)))%nat)).

Definition pass_outcome s (m : ActivationSummary) (r : Outcome Pass) s' : Prop :=
  same_bodies s s' /\
  match r with
  | Value (Return m') => s' = s /\ returned s m m'
  | Value (Again m') => again s m m' s'
  | Stop f => stop_ok s f s'
  end.

Lemma follow_plan_spec s t e b be m : in_step s -> Tip s = Some t -> Find (index_ s) t = Some e ->
  BestHeader (index_ s) = Some b -> Find (index_ s) b = Some be -> eligible be -> b <> t ->
  exists plan r s', PlanChainSwitch (index_ s) (Some e) (Some be) = Some plan /\
    follow_plan params plan b m s = Some (r, s') /\ pass_outcome s m r s'.
Proof.
  intros I Ht E Hb Eb Elb Hne. destruct (plan_known s t e b be I Ht E Eb Elb)
    as (plan & f & low & fe & lt & P & Hf & Ef & Hcon & Echain & Lb & Elt & Hcl & _).
  exists plan. unfold follow_plan. rewrite Hf, Ef. cbn [mbind option_bind]. rewrite Hcon. cbn [negb].
  destruct (reachable_prefix_spec (store_ s) (BlockIndex.connect plan)) as (above & Epath & Hhave & Habove).
  set (reach := reachable_prefix (store_ s) (BlockIndex.connect plan)) in *.
  assert (exists a, Find (index_ s) (attainable f reach) = Some a) as [a Ea].
  { unfold attainable. rewrite Epath in Hcl. apply climbs_app in Hcl as [Hcl _].
    destruct reach as [|x reach] using rev_ind; [by exists fe|]. rewrite List.last_last.
    apply climbs_app in Hcl as [_ [(x' & Ex & _) _]]. eauto. }
  rewrite Ea, Ht. cbn [mbind option_bind]. rewrite E. cbn [mbind option_bind].
  destruct (IsBetterTip a e) eqn:Hbetter; cbn [negb].
  2:{ eexists _, _. split; [done|]. split; [reflexivity|]. split; [done|]. split; [done|]. split_and!; try done.
      - unfold rests. rewrite Hb. cbn [tip set_tip]. right. exists plan, f, a, e. rewrite E, Eb. by split_and!.
      - cbn. rewrite Hb. congruence. }
  destruct (disconnect_all_spec (disconnect plan) m s (rev low ++ [f]) I) as (r1 & s1 & -> & Ei1 & B1 & O1);
    [by rewrite Echain, <- app_assoc|by destruct (rev low)|]. cbn [mbind option_bind].
  destruct r1 as [m1|fail]; [|eexists _, _; split; [done|]; split; [reflexivity|]; by split].
  destruct O1 as (I1 & C1 & R1).
  destruct (connect_all_spec reach m1 s1 f I1) as (r2 & s2 & -> & B2 & O2); [unfold Tip; by rewrite C1, last_snoc| | |].
  { rewrite Ei1. rewrite Epath in Hcl. by apply climbs_app in Hcl as [Hcl _]. }
  { eapply Forall_impl; [exact Hhave|]. intros x. rewrite !HaveBlock_spec. by rewrite (proj1 B1). }
  cbn [mbind option_bind]. pose proof (same_bodies_trans _ _ _ B1 B2) as B12.
  destruct r2 as [m2|fail].
  2:{ eexists _, _. split; [done|]. split; [reflexivity|]. split; [done|]. by apply (stop_ok_from s s1). }
  assert (in_step s2) as I2 by (by destruct O2 as [(? & _)|(? & _)]).
  destruct (in_step_tip s2 I2) as (t2 & e2 & pre2 & Ht2 & E2 & _). rewrite Ht2. cbn [mbind option_bind].
  eexists _, _. split; [done|]. split; [reflexivity|]. split; [done|]. split; [done|]. cbn [rejected set_tip].
  destruct O2 as [(_ & C2 & J2 & R2)|(_ & T2 & R2 & Hlt)]; [left|right; rewrite <- Ei1; by split].
  rewrite C1, <- app_assoc in C2. cbn in C2. rewrite Ei1 in J2.
  assert (t2 = attainable f reach) as ->. { unfold Tip in Ht2. rewrite C2, last_attainable in Ht2. by injection Ht2. }
  split_and!; [|congruence|by exists t, (attainable f reach), e, a; split_and!; try done; right].
  apply (settled_below s2 (attainable f reach) b lt above); try done.
  - destruct J2 as (_ & J2 & _). unfold BestHeader in *. congruence.
  - eapply lineage_grows; [apply same_tree_grows, J2|done].
  - rewrite Elt, Epath, C2, !rev_app_distr. cbn. by rewrite rev_involutive, <- !app_assoc.
  - by rewrite (reachable_prefix_same s s2).
Qed.

Lemma activate_pass_spec s m : in_step s ->
  exists r s', activate_pass params m s = Some (r, s') /\ pass_outcome s m r s'.
Proof.
  intros I. destruct (in_step_tip s I) as (t & e & pre & Ht & E & _). unfold activate_pass. rewrite Ht. cbn [mbind option_bind].
  destruct (BestHeader (index_ s)) as [b|] eqn:Hb.
  2:{ eexists _, _. split; [reflexivity|]. split; [done|]. split; [done|]. split_and!; try done.
      - unfold rests. by rewrite Hb.
      - by rewrite Hb. }
  case_bool_decide as Hbt.
  { subst b. eexists _, _. split; [reflexivity|]. split; [done|]. split; [done|]. split_and!; try done.
    unfold rests. rewrite Hb. by left. }
  destruct (best_known s b I Hb) as (be & Eb & Elb).
  destruct (follow_plan_spec s t e b be m I Ht E Hb Eb Elb Hbt) as (plan & r & s' & P & F & O).
  rewrite E, Eb, P. cbn [mbind option_bind]. eauto.
Qed.

(** *** The loop *)

Definition activation_outcome s (m : ActivationSummary) (r : Outcome ActivationSummary) s' : Prop :=
  same_bodies s s' /\
  match r with
  | Value m' => in_step s' /\ Tip s' = Some (tip m') /\ rests s' (tip m') /\
      (BestHeader (index_ s') = Some (tip m') -> reached_best_header m' = true) /\
      (rejected m' = [] -> rejected m = [] /\ improves s s')
  | Stop f => stop_ok s f s'
  end.

Lemma improves_refl s : in_step s -> improves s s.
Proof. intros I. destruct (in_step_tip s I) as (t & e & _ & Ht & E & _). exists t, t, e, e. split_and!; try done. by left. Qed.

Lemma returned_outcome s m m' : in_step s -> returned s m m' -> activation_outcome s m (Value m') s.
Proof.
  intros I (Ht & R & Hr & Hreach). split; [done|]. split_and!; try done. intros Hm.
  split; [congruence|by apply improves_refl].
Qed.

Lemma activate_loop_spec fuel : forall m s, in_step s ->
  (candidates (entries_ (index_ s)) + 2 <= fuel)%nat ->
  exists r s', activate_loop params fuel m s = Some (r, s') /\ activation_outcome s m r s'.
Proof.
  induction fuel as [|fuel IH]; intros m s I Hfuel; [lia|]. cbn [activate_loop].
  destruct (activate_pass_spec s m I) as (r & s1 & -> & B1 & O). cbn [mbind option_bind].
  destruct r as [[m1|m1]|f]; [|destruct O as [I1 O]|by eexists _, _; split; [reflexivity|]].
  { destruct O as [-> O]. eexists _, _. split; [reflexivity|]. by apply returned_outcome. }
  destruct O as [(Hset & Hr & Himp)|(Hr & Hlt)].
  - destruct fuel as [|fuel]; [lia|]. cbn [activate_loop]. destruct (Hset m1) as (m2 & -> & Ht2 & R2 & Hr2 & Hreach).
    cbn [mbind option_bind]. eexists _, _. split; [reflexivity|]. split; [done|]. split_and!; try done.
    intros Hm. split; [congruence|done].
  - destruct (IH m1 s1 I1 ltac:(lia)) as (r & s2 & -> & B2 & O2). exists r, s2. split; [done|].
    split; [by apply (same_bodies_trans s s1)|]. destruct r as [m2|f]; [|by apply (stop_ok_from s s1)].
    destruct O2 as (I2 & Ht2 & R2 & Hreach & Hrej). split_and!; try done. intros Hm. by destruct (Hrej Hm).
Qed.

Lemma ActivateBestChain_spec s : in_step s ->
  exists m r s', rejected m = [] /\ ActivateBestChain params s = Some (r, s') /\ activation_outcome s m r s'.
Proof.
  intros I. destruct (in_step_tip s I) as (t & e & pre & Ht & _). unfold ActivateBestChain. rewrite Ht. cbn [mbind option_bind].
  destruct (activate_loop_spec (size (entries_ (index_ s)) + 2) (mkSummary t 0 0 [] false) s I) as (r & s' & R & O).
  { pose proof (candidates_le (entries_ (index_ s))). lia. }
  by exists (mkSummary t 0 0 [] false), r, s'.
Qed.
(** *** Accepting headers and blocks *)

Lemma AddHeader_Found header now idx h idx' : index_inv idx -> AddHeader header now params idx = (Found h, idx') ->
  h = BlockHeader_Hash header /\ exists e, Find idx' h = Some e.
Proof.
  intros I A. destruct (Find idx (BlockHeader_Hash header)) as [e|] eqn:Hn.
  { unfold AddHeader in A. rewrite Hn in A. injection A as <- <-. rewrite (inv_hash _ _ _ I Hn). eauto. }
  destruct (AddHeader_new header now params idx I Hn) as [[error A']|(pe & best & _ & _ & _ & _ & _ & _ & A' & _)];
    rewrite A' in A; [done|]. injection A as <- <-. split; [done|]. unfold Find. cbn. rewrite lookup_insert_eq. eauto.
Qed.

Lemma in_step_indexed header now s r idx : in_step s -> u32 (hdr_target_bits header) -> Size (index_ s) < 2 ^ 64 - 1 ->
  AddHeader header now params (index_ s) = (r, idx) -> in_step (with_index idx s).
Proof.
  intros I Hb Hs A. pose proof (AddHeader_inv header now params _ (is_index _ I) Hb Hs) as I1.
  pose proof (AddHeader_grows header now params _ (is_index _ I)) as G. rewrite A in I1, G.
  by apply (in_step_moved s).
Qed.

(** Storing a body under its own hash. *)
Lemma in_step_stored block s : in_step s -> in_step (with_store (PutBlock (Block_Hash block) block (store_ s)) s).
Proof.
  intros [I L B A]. split; cbn; [done|done| |].
  - intros h b. rewrite GetBlock_PutBlock. destruct (decide (h = Block_Hash block)) as [->|]; [|apply B].
    destruct (GetBlock (store_ s) (Block_Hash block)) as [b'|] eqn:E; cbn; intros [= <-]; [by apply B|done].
  - apply (applied_store (store_ s)); [| |done].
    + intros h b _ E. rewrite GetBlock_PutBlock. destruct (decide _) as [->|]; [by rewrite E|done].
    + intros h _. apply GetUndo_PutBlock.
Qed.

Definition accept_outcome (block : Block) s (r : Indexed) s' : Prop :=
  in_step s' /\ chain_ s' = chain_ s /\ coins_ s' = coins_ s /\ (sink_ s' = None <-> sink_ s = None) /\
  match r with
  | Found h => h = Block_Hash block /\ HaveBlock (store_ s') h = true /\
      exists e, Find (index_ s') h = Some e /\ eligible e
  | Refused (NotPlaced AlreadyRuledOut) => exists e, Find (index_ s') (Block_Hash block) = Some e /\ ~ eligible e
  | Refused _ => store_ s' = store_ s
  end.

Lemma AcceptBlock_spec block now s : in_step s -> u32 (hdr_target_bits (blk_header block)) ->
  Size (index_ s) < 2 ^ 64 - 1 ->
  exists r s', AcceptBlock params block now s = Some (r, s') /\ accept_outcome block s r s'.
Proof.
  intros I Hb Hs. unfold AcceptBlock. destruct (AddHeader _ _ _ _) as [r idx] eqn:A.
  pose proof (in_step_indexed _ _ _ _ _ I Hb Hs A) as I1. set (s1 := with_index idx s) in *.
  destruct r as [h|error].
  2:{ eexists _, _. split; [reflexivity|]. split_and!; try done. destruct error as [|[]]; try done.
      exfalso. destruct (Find (index_ s) (BlockHeader_Hash (blk_header block))) as [e|] eqn:Hn.
      { unfold AddHeader in A. by rewrite Hn in A. }
      unfold AddHeader in A. rewrite Hn in A. repeat case_match; by simplify_eq. }
  destruct (AddHeader_Found _ _ _ _ _ (is_index _ I) A) as (-> & e & E).
  change (Find (index_ s1) (BlockHeader_Hash (blk_header block)) = Some e) in E.
  rewrite E. cbn [mbind option_bind]. destruct (IsEligible e) eqn:El; cbn [negb].
  2:{ apply IsEligible_false in El. eexists _, _. split; [reflexivity|]. split_and!; try done. eauto. }
  apply IsEligible_true in El. destruct (HaveBlock (store_ s1) _) eqn:Hh.
  { eexists _, _. split; [reflexivity|]. split_and!; try done. eauto. }
  destruct (CheckBlock block params) as [[]|error].
  - pose proof (in_step_stored block s1 I1) as I2. set (s2 := with_store _ s1) in *.
    fold (Block_Hash block) in *. fold s2.
    pose proof (RecordValidity_unjudged (Block_Hash block) VBody (index_ s2) (is_index _ I2)) as J.
    destruct (RecordValidity_inv (Block_Hash block) VBody (index_ s2) (is_index _ I2)) as (I3 & T3 & _).
    destruct (unjudged_find _ _ _ _ J E) as (e3 & E3 & _ & F3).
    destruct (commit_entry_spec _ (with_index (RecordValidity (Block_Hash block) VBody (index_ s2)) s2) e3 E3)
      as (s4 & -> & Ei & Es & Eo & Ec & Ek). cbn [mbind option_bind].
    eexists _, _. split; [reflexivity|]. split_and!; try done.
    + apply (in_step_moved s2); [done|by rewrite Ei|rewrite Ei; by apply same_tree_grows|done|done|].
      intros o. by rewrite Eo.
    + rewrite Es, HaveBlock_spec. cbn. rewrite GetBlock_PutBlock, decide_True by done. done.
    + exists e3. rewrite Ei. split; [done|]. unfold eligible in *. congruence.
  - destruct (rule_out_spec _ s1 e I1 E) as (k & idx' & s4 & -> & C & I4 & Ei & T & Es & Eo & Ec & Ek & _).
    cbn [mbind option_bind]. rewrite C. cbn [mbind option_bind]. eexists _, _. split; [reflexivity|].
    split_and!; done.
Qed.
Lemma AcceptHeader_spec header now s : in_step s -> u32 (hdr_target_bits header) -> Size (index_ s) < 2 ^ 64 - 1 ->
  exists r s', AcceptHeader params header now s = Some (r, s') /\ in_step s' /\ store_ s' = store_ s /\
    chain_ s' = chain_ s /\ coins_ s' = coins_ s.
Proof.
  intros I Hb Hs. unfold AcceptHeader. destruct (AddHeader _ _ _ _) as [r idx] eqn:A.
  pose proof (in_step_indexed _ _ _ _ _ I Hb Hs A) as I1. set (s1 := with_index idx s) in *.
  destruct r as [h|error]; [|eexists _, _; split; [reflexivity|]; by split_and!].
  destruct (AddHeader_Found _ _ _ _ _ (is_index _ I) A) as (_ & e & E). change (Find (index_ s1) h = Some e) in E.
  rewrite E. cbn [mbind option_bind]. destruct (negb _); [eexists _, _; split; [reflexivity|]; by split_and!|].
  destruct (commit_entry_spec h s1 e E) as (s2 & -> & Ei & Es & Eo & Ec & _). cbn [mbind option_bind].
  eexists _, _. split; [reflexivity|]. split_and!; try done.
  apply (in_step_moved s1); [done|rewrite Ei; apply I1|rewrite Ei; apply grows_refl|done|done|]. intros o. by rewrite Eo.
Qed.

(** *** Starting and resuming *)

Lemma new_ChainState_in_step idx (coins : CoinsCache V) (store : D) : index_inv idx ->
  (forall o, GetCoin coins o = f0 o) -> (forall h b, GetBlock store h = Some b -> Block_Hash b = h) ->
  in_step (new_ChainState idx coins store).
Proof.
  intros I Hf Hs. split; cbn; [done| |done|by apply applied_genesis].
  destruct (inv_genesis _ I) as (g & Eg & Pg & _). exists (genesis_ idx). by econstructor.
Qed.

Lemma upwards_spec idx fuel : index_inv idx -> forall h e l, Find idx h = Some e -> lineage idx h l ->
  (Z.to_nat (ent_height e) + 1 < fuel)%nat -> upwards fuel idx (Some e) = Some l.
Proof.
  intros I. induction fuel as [|fuel IH]; intros h e l E L Hf; [lia|]. cbn [upwards].
  rewrite (inv_hash _ _ _ I E). inversion L as [? e' E' P|? e' p l' E' P L']; subst; rewrite E in E'; injection E' as <-.
  - unfold parent. rewrite P. cbn. destruct fuel; [lia|done].
  - destruct (inv_parent _ _ _ I E) as [(_ & ? & _)|(p' & pe & P' & Ep & Epar & Hh & _)]; [congruence|].
    assert (p' = p) as -> by congruence. pose proof (inv_height _ _ _ I Ep). rewrite Epar, (IH p pe l' Ep L'); [done|lia].
Qed.

Lemma ResumeAt_spec s t e (coins : CoinsCache V) : in_step s -> Tip s = Some t -> Find (index_ s) t = Some e ->
  coins ≗ coins_ s ->
  exists s', ResumeAt e (new_ChainState (index_ s) coins (store_ s)) = Some s' /\ chain_ s' = chain_ s /\ in_step s'.
Proof.
  intros I Ht E Hc. destruct (in_step_tip s I) as (t' & e' & pre & Ht' & _ & _ & L). rewrite Ht in Ht'. injection Ht' as <-.
  unfold ResumeAt. cbn [index_ new_ChainState].
  rewrite (upwards_spec _ _ (is_index _ I) t e (rev (chain_ s)) E L) by (unfold walk_fuel; lia).
  cbn [mbind option_bind]. eexists. split; [reflexivity|]. cbn. rewrite rev_involutive. split; [done|].
  destruct I as [I L' B A]. split; cbn; try done. by apply (applied_ext _ _ (GetCoin (coins_ s))).
Qed.

(** ** Runs *)

(** What a node does with its chain state from start to stop: it offers blocks
    and headers and activates, in any order; it does not go on after a refused
    commit of a tip. *)
Inductive runs : State -> Prop :=
  | run_new idx coins store : reachable idx -> (forall o, GetCoin coins o = f0 o) ->
      (forall h b, GetBlock store h = Some b -> Block_Hash b = h) -> runs (new_ChainState idx coins store)
  | run_persist sink s : runs s -> runs (PersistTo sink s)
  | run_observe s : runs s -> runs (ObserveWith s)
  | run_block block now s r s' : runs s -> u32 (hdr_target_bits (blk_header block)) -> Size (index_ s) < 2 ^ 64 - 1 ->
      AcceptBlock params block now s = Some (r, s') -> runs s'
  | run_header header now s r s' : runs s -> u32 (hdr_target_bits header) -> Size (index_ s) < 2 ^ 64 - 1 ->
      AcceptHeader params header now s = Some (r, s') -> runs s'
  | run_activate s m s' : runs s -> ActivateBestChain params s = Some (Value m, s') -> runs s'
  | run_faulted s f s' : runs s -> ActivateBestChain params s = Some (Stop f, s') -> fail_error f <> CommitFailed -> runs s'.

Lemma runs_in_step s : runs s -> in_step s.
Proof.
  induction 1 as [idx coins store R Hf Hs|sink s _ I|s _ I|block now s r s' _ I Hb Hs E|header now s r s' _ I Hb Hs E
    |s m s' _ I E|s f s' _ I E Hf].
  - apply new_ChainState_in_step; [by apply reachable_inv|done|done].
  - by destruct I.
  - by destruct I.
  - destruct (AcceptBlock_spec block now s I Hb Hs) as (r' & s1 & E' & I' & _). rewrite E in E'. by injection E' as <- <-.
  - destruct (AcceptHeader_spec header now s I Hb Hs) as (r' & s1 & E' & I' & _). rewrite E in E'. by injection E' as <- <-.
  - destruct (ActivateBestChain_spec s I) as (m0 & r & s1 & _ & E' & _ & O). rewrite E in E'. injection E' as <- <-. apply O.
  - destruct (ActivateBestChain_spec s I) as (m0 & r & s1 & _ & E' & _ & O). rewrite E in E'. injection E' as <- <-.
    destruct O as (_ & [?|[_ ?]]); done.
Qed.
End invariant.

(** ** Offering a block again *)

Section offers.
Context `{SH : Sha256Impl} `{SB : Signature.SignatureBackends} {V D K : Type}.
Context `{CoinsView V} `{!LawfulView V} `{BlockStore D} `{!LawfulStore D} `{ChainSink K V} `{!LawfulSink K V}.
Context (params : ChainParams) (f0 : Ledger).
Implicit Types (s : ChainState V D K).

(** A header already indexed is not judged again. *)
Lemma AcceptBlock_known block now s e : index_inv (index_ s) -> Find (index_ s) (Block_Hash block) = Some e ->
  AcceptBlock params block now s =
    (if negb (IsEligible e) then Some (Refused (NotPlaced AlreadyRuledOut), s)
     else if HaveBlock (store_ s) (Block_Hash block) then Some (Found (Block_Hash block), s)
     else AcceptBlock params block now s).
Proof.
  intros I E. destruct (negb (IsEligible e)) eqn:El; [|destruct (HaveBlock _ _) eqn:Hh; [|done]];
    unfold AcceptBlock, AddHeader; fold (Block_Hash block); rewrite E, (inv_hash _ _ _ I E); cbn [index_ with_index];
    rewrite E; cbn [mbind option_bind]; rewrite El; [by destruct s|]. cbn [store_ with_index]. rewrite Hh. by destruct s.
Qed.

Lemma descends_genesis idx h e : index_inv idx -> Find idx h = Some e -> descends idx (genesis_ idx) h.
Proof.
  intros I E. destruct (lineage_total idx I h e E) as (l & L & _). clear e E.
  induction L as [h e E P|h e p l E P L IH]; [|by econstructor].
  destruct (inv_parent _ _ _ I E) as [(-> & _)|(p & ? & ? & _)]; [constructor|congruence].
Qed.

Lemma bad_body_spec bad now s e error : in_step params f0 s -> Find (index_ s) (Block_Hash bad) = Some e -> eligible e ->
  HaveBlock (store_ s) (Block_Hash bad) = false -> CheckBlock bad params = Err error ->
  exists s', AcceptBlock params bad now s = Some (Refused (RuleBroken error), s') /\ in_step params f0 s' /\
    same_tree (index_ s) (index_ s') /\
    forall x ex ex', Find (index_ s) x = Some ex -> Find (index_ s') x = Some ex' ->
      (eligible ex' <-> eligible ex /\ ~ descends (index_ s) (Block_Hash bad) x).
Proof.
  intros I E El Hh Hc. destruct (rule_out_spec params f0 _ s e I E) as (k & idx & s' & R & C & I' & <- & T & _ & _ & _ & _ & Hv & _).
  exists s'. split_and!; try done. unfold AcceptBlock, AddHeader. fold (Block_Hash bad).
  rewrite E, (inv_hash _ _ _ (is_index _ _ _ I) E). cbn [index_ with_index]. rewrite E. cbn [mbind option_bind].
  rewrite (proj2 (IsEligible_true e) El). cbn [negb store_ with_index]. rewrite Hh, Hc, R. cbn [mbind option_bind].
  change (with_index (index_ s') (with_index (index_ s) s)) with (with_index (index_ s') s). by rewrite C.
Qed.
End offers.

(** ** Samples *)

(** A sink that accepts everything and keeps nothing. *)
Inductive NullSink := Null.

#[global] Instance NullSink_sink V : ChainSink NullSink V :=
  {| CommitHeader _ k := (true, k); CommitTip changes _ k := (true, changes, k); HasFault _ := false |}.

#[global] Instance NullSink_lawful V `{CoinsView V} : LawfulSink NullSink V.
Proof. intros changes tip k changes' k' E. cbn in E. by simplify_eq. Qed.

Section samples.
#[local] Existing Instance toy_Sha256Impl.
#[local] Existing Instance picky_backends.
Abbreviation State := (ChainState EmptyCoinsView MemoryBlockStore NullSink).

(** A block with nothing but a coinbase, its Merkle root filled in. *)
Definition sample_body (prev : bytes) (height salt reward : Z) : Block :=
  let txs := [sample_coinbase height reward] in
  mkBlock (mkBlockHeader 1 height prev (default [] (Merkle.ComputeMerkleRoot (map Wtxid txs)))
    (GENESIS_TIMESTAMP + height) REGTEST_POW_LIMIT_BITS salt) txs.

(** Three branches from genesis; the second block of the second pays itself too much. *)
Definition block_a1 : Block := sample_body sample_genesis 1 0 10.
Definition block_a2 : Block := sample_body (Block_Hash block_a1) 2 0 10.
Definition block_b1 : Block := sample_body sample_genesis 1 1 10.
Definition block_b2 : Block := sample_body (Block_Hash block_b1) 2 1 10000000000000.
Definition block_b3 : Block := sample_body (Block_Hash block_b2) 3 1 10.
Definition block_c1 : Block := sample_body sample_genesis 1 2 10.
Definition block_c2 : Block := sample_body (Block_Hash block_c1) 2 2 10.
Definition block_c3 : Block := sample_body (Block_Hash block_c2) 3 2 10.

(** The first branch's first header with nothing under it. *)
Definition hollow_a1 : Block := mkBlock (blk_header block_a1) [].

Definition sample_now : Z := GENESIS_TIMESTAMP + 100.

Definition offer (b : Block) (s : State) : State :=
  match AcceptBlock REGTEST_PARAMS b sample_now s with Some (_, s) => s | None => s end.
Definition announce (b : Block) (s : State) : State :=
  match AcceptHeader REGTEST_PARAMS (blk_header b) sample_now s with Some (_, s) => s | None => s end.
Definition activate (s : State) : State :=
  match ActivateBestChain REGTEST_PARAMS s with Some (Value _, s) => s | _ => s end.

Abbreviation regtest_runs := (runs REGTEST_PARAMS (fun _ => None)).

Definition start_state : State := new_ChainState (ForNetwork REGTEST_PARAMS) (Over Coins.Empty) new_MemoryBlockStore.

(** On the first branch, with the others known. *)
Definition short_state : State := activate (offer block_a2 (offer block_a1 start_state)).
Definition forked_state : State :=
  announce block_c3 (announce block_c2 (announce block_c1 (offer block_b3 (offer block_b2 (offer block_b1 short_state))))).

Lemma start_runs : regtest_runs start_state.
Proof. apply run_new; [apply (ForNetwork_reachable Regtest)|done|done]. Qed.

Lemma offer_runs b s : regtest_runs s -> u32 (hdr_target_bits (blk_header b)) -> Size (index_ s) < 2 ^ 64 - 1 ->
  regtest_runs (offer b s).
Proof.
  intros R Hb Hs. unfold offer. destruct (AcceptBlock _ _ _ _) as [[r s']|] eqn:E; [|done].
  exact (run_block _ _ b sample_now s r s' R Hb Hs E).
Qed.

Lemma announce_runs b s : regtest_runs s -> u32 (hdr_target_bits (blk_header b)) -> Size (index_ s) < 2 ^ 64 - 1 ->
  regtest_runs (announce b s).
Proof.
  intros R Hb Hs. unfold announce. destruct (AcceptHeader _ _ _ _) as [[r s']|] eqn:E; [|done].
  exact (run_header _ _ (blk_header b) sample_now s r s' R Hb Hs E).
Qed.

Lemma activate_runs s : regtest_runs s -> regtest_runs (activate s).
Proof.
  intros R. unfold activate. destruct (ActivateBestChain _ _) as [[[m|f] s']|] eqn:E; [|done|done].
  exact (run_activate _ _ s m s' R E).
Qed.

Lemma sample_bits prev height salt reward : u32 (hdr_target_bits (blk_header (sample_body prev height salt reward))).
Proof. vm_compute. intuition congruence. Qed.

Lemma short_runs : regtest_runs short_state.
Proof.
  apply activate_runs. apply offer_runs; [|apply sample_bits|vm_compute; done].
  apply offer_runs; [apply start_runs|apply sample_bits|vm_compute; done].
Qed.

Lemma forked_runs : regtest_runs forked_state.
Proof.
  unfold forked_state. do 3 (apply announce_runs; [|apply sample_bits|vm_compute; done]).
  do 3 (apply offer_runs; [|apply sample_bits|vm_compute; done]). apply short_runs.
Qed.

Example short_state_runs : Tip short_state = Some (Block_Hash block_a2) /\ Size (index_ short_state) = 3.
Proof. vm_compute. auto. Qed.
End samples.

#[local] Opaque start_state short_state forked_state.

(** ** The theorems *)

(** C1: the coins set always describes the active chain.  In every state a node
    reaches, with any lawful store, coins view and sink: the applied blocks are a
    path of the index from genesis to the tip, every stored body lies under its
    own hash, and the coins are exactly the ledger obtained by applying the
    chain's bodies in order to the genesis ledger, each with its undo record in
    the store.  Only a refused tip commit, after which a node stops, is excluded. *)
Theorem coins_follow_tip `{Sha256Impl} `{Signature.SignatureBackends} {V D K} `{CoinsView V} `{!LawfulView V}
    `{BlockStore D} `{!LawfulStore D} `{ChainSink K V} `{!LawfulSink K V}
    (params : ChainParams) (f0 : Ledger) (s : ChainState V D K) :
  runs params f0 s -> in_step params f0 s.
Proof. apply runs_in_step. Qed.

Lemma coins_follow_tip_witness :
  in_step (SH := toy_Sha256Impl) (SB := picky_backends) REGTEST_PARAMS (fun _ => None) short_state /\
  Tip short_state = Some (Block_Hash (H := toy_Sha256Impl) block_a2).
Proof.
  split; [|exact (proj1 short_state_runs)].
  apply (coins_follow_tip (H := toy_Sha256Impl) (H0 := picky_backends)). exact short_runs.
Defined.

(** C2: activation ends, in a state that explains itself.  From every state a node
    reaches, [ActivateBestChain] returns.  On success the summary's tip is the
    tip, and either it is the best header, or there is none, or the best entry the
    stored bodies reach on the path to the best header does not beat the tip (a stored
    branch that is not on that path is not looked at: [withheld_bodies_lower_tip]).
    It stops only
    when there is a sink, and only because a tip commit was refused or storage
    faulted: never for a missing body or undo record, a failed reversal or a plan
    out of step with the chain. *)
Theorem activation_completes `{Sha256Impl} `{Signature.SignatureBackends} {V D K} `{CoinsView V} `{!LawfulView V}
    `{BlockStore D} `{!LawfulStore D} `{ChainSink K V} `{!LawfulSink K V}
    (params : ChainParams) (f0 : Ledger) (s : ChainState V D K) : runs params f0 s ->
  exists r s', ActivateBestChain params s = Some (r, s') /\
    match r with
    | Value m => Tip s' = Some (tip m) /\ rests s' (tip m) /\
        (BestHeader (index_ s') = Some (tip m) -> reached_best_header m = true)
    | Stop f => sink_ s <> None /\ (fail_error f = CommitFailed \/ fail_error f = StorageFaulted)
    end.
Proof.
  intros R%runs_in_step. destruct (ActivateBestChain_spec params f0 s R) as (m & r & s' & _ & E & _ & O).
  exists r, s'. split; [done|]. destruct r as [m'|f].
  - destruct O as (_ & Ht & Hr & Hb & _). done.
  - destruct O as (Hk & [?|[? _]]); auto.
Qed.

Lemma activation_completes_witness :
  exists m s', ActivateBestChain (H := toy_Sha256Impl) (H0 := picky_backends) REGTEST_PARAMS forked_state = Some (Value m, s') /\
    rests s' (tip m).
Proof.
  destruct (activation_completes (H := toy_Sha256Impl) (H0 := picky_backends) REGTEST_PARAMS (fun _ => None) forked_state
    forked_runs) as (r & s' & E & O).
  destruct r as [m|f]; [exists m, s'; split; [exact E|]; exact (proj1 (proj2 O))|].
  exfalso. apply (proj1 O). vm_compute. reflexivity.
Defined.

(** A block refused by no rule costs no ground.  When an activation that
    succeeds rejected nothing, the new tip is the old one or beats it under
    [IsBetterTip]: no announced but unavailable branch moves the tip down. *)
Theorem activation_never_loses_ground `{Sha256Impl} `{Signature.SignatureBackends} {V D K} `{CoinsView V} `{!LawfulView V}
    `{BlockStore D} `{!LawfulStore D} `{ChainSink K V} `{!LawfulSink K V}
    (params : ChainParams) (f0 : Ledger) (s : ChainState V D K) (m : ActivationSummary) (s' : ChainState V D K) :
  runs params f0 s -> ActivateBestChain params s = Some (Value m, s') -> rejected m = [] -> improves s s'.
Proof.
  intros R%runs_in_step E Hr. destruct (ActivateBestChain_spec params f0 s R) as (m0 & r & s1 & _ & E' & _ & O).
  rewrite E in E'. injection E' as <- <-. destruct O as (_ & _ & _ & _ & Hi). by apply Hi.
Qed.

Lemma activation_never_loses_ground_witness :
  exists m s', ActivateBestChain (H := toy_Sha256Impl) (H0 := picky_backends) REGTEST_PARAMS
    (announce block_c3 (announce block_c2 (announce block_c1 short_state))) = Some (Value m, s') /\
    improves (announce block_c3 (announce block_c2 (announce block_c1 short_state))) s'.
Proof.
  assert (runs (SH := toy_Sha256Impl) (SB := picky_backends) REGTEST_PARAMS (fun _ => None)
    (announce block_c3 (announce block_c2 (announce block_c1 short_state)))) as R.
  { do 3 (apply announce_runs; [|apply sample_bits|vm_compute; reflexivity]). exact short_runs. }
  assert (exists m s', ActivateBestChain (H := toy_Sha256Impl) (H0 := picky_backends) REGTEST_PARAMS
    (announce block_c3 (announce block_c2 (announce block_c1 short_state))) = Some (Value m, s') /\ rejected m = [])
    as (m & s' & E & Hr) by (eexists _, _; split; vm_compute; reflexivity).
  exists m, s'. split; [exact E|].
  exact (activation_never_loses_ground (H := toy_Sha256Impl) (H0 := picky_backends) REGTEST_PARAMS (fun _ => None) _ m s' R E Hr).
Defined.

(** [AcceptBlock] never disturbs the chain and is idempotent.  In every state a
    node reaches it returns, keeps the chain and the coins as they were, and keeps
    the invariant; a block it accepts is stored under its hash with an eligible
    entry, and offering that block again returns the same entry and changes
    nothing. *)
Theorem accept_block_idempotent `{Sha256Impl} `{Signature.SignatureBackends} {V D K} `{CoinsView V} `{!LawfulView V}
    `{BlockStore D} `{!LawfulStore D} `{ChainSink K V} `{!LawfulSink K V}
    (params : ChainParams) (f0 : Ledger) (block : Block) (now now' : Z) (s : ChainState V D K) :
  runs params f0 s -> u32 (hdr_target_bits (blk_header block)) -> Size (index_ s) < 2 ^ 64 - 1 ->
  exists r s', AcceptBlock params block now s = Some (r, s') /\ accept_outcome params f0 block s r s' /\
    forall h, r = Found h -> AcceptBlock params block now' s' = Some (Found h, s').
Proof.
  intros R%runs_in_step Hb Hs. destruct (AcceptBlock_spec params f0 block now s R Hb Hs) as (r & s' & E & O).
  exists r, s'. split_and!; try done. intros h ->. destruct O as (I & _ & _ & _ & -> & Hh & e & Ee & El).
  rewrite (AcceptBlock_known params block now' s' e) by (done || apply I).
  by rewrite (proj2 (IsEligible_true e) El), Hh.
Qed.

Lemma accept_block_idempotent_witness :
  exists r s', AcceptBlock (H := toy_Sha256Impl) REGTEST_PARAMS block_a1 0 short_state = Some (r, s') /\
    accept_outcome (SH := toy_Sha256Impl) (SB := picky_backends) REGTEST_PARAMS (fun _ => None) block_a1 short_state r s'.
Proof.
  destruct (accept_block_idempotent (H := toy_Sha256Impl) (H0 := picky_backends) REGTEST_PARAMS (fun _ => None) block_a1 0 0
    short_state) as (r & s' & E & O & _);
    [exact short_runs|apply sample_bits|rewrite (proj2 short_state_runs); reflexivity|].
  exists r, s'. split; [exact E|exact O].
Defined.

(** Restarting where the last commit left off.  For the tip's entry and any
    coins that answer as the running node's, [ResumeAt] on a fresh state rebuilds
    the same chain, and the invariant holds again. *)
Theorem resume_restores_chain `{Sha256Impl} `{Signature.SignatureBackends} {V D K} `{CoinsView V} `{!LawfulView V}
    `{BlockStore D} `{!LawfulStore D} `{ChainSink K V} `{!LawfulSink K V}
    (params : ChainParams) (f0 : Ledger) (s : ChainState V D K) (t : bytes) (e : BlockIndexEntry) (coins : CoinsCache V) :
  runs params f0 s -> Tip s = Some t -> Find (index_ s) t = Some e -> coins ≗ coins_ s ->
  exists s', ResumeAt e (new_ChainState (K := K) (index_ s) coins (store_ s)) = Some s' /\ chain_ s' = chain_ s /\
    in_step params f0 s'.
Proof. intros R%runs_in_step. by apply ResumeAt_spec. Qed.

Lemma resume_restores_chain_witness :
  exists e s', Find (index_ short_state) (Block_Hash (H := toy_Sha256Impl) block_a2) = Some e /\
    ResumeAt e (new_ChainState (K := NullSink) (index_ short_state) (coins_ short_state) (store_ short_state)) = Some s' /\
    chain_ s' = chain_ short_state.
Proof.
  assert (exists e, Find (index_ short_state) (Block_Hash (H := toy_Sha256Impl) block_a2) = Some e) as [e E]
    by (eexists; vm_compute; reflexivity).
  destruct (resume_restores_chain (H := toy_Sha256Impl) (H0 := picky_backends) REGTEST_PARAMS (fun _ => None) short_state
    (Block_Hash (H := toy_Sha256Impl) block_a2) e (coins_ short_state)) as (s' & Hr & Hc & _);
    [exact short_runs|exact (proj1 short_state_runs)|exact E|intros o; reflexivity|].
  exists e, s'. split; [exact E|]. split; [exact Hr|exact Hc].
Defined.

(** A bad body condemns a good header.  When a header is indexed and eligible
    and its body is not stored, offering any block with that header whose body
    fails [CheckBlock] (an empty one will do) rules out the header's entry and
    every descendant; afterwards the true block is refused as already ruled out,
    whatever its body. *)
Theorem bad_body_condemns_header `{Sha256Impl} `{Signature.SignatureBackends} {V D K} `{CoinsView V} `{!LawfulView V}
    `{BlockStore D} `{!LawfulStore D} `{ChainSink K V} `{!LawfulSink K V}
    (params : ChainParams) (f0 : Ledger) (bad : Block) (now : Z) (s : ChainState V D K) (e : BlockIndexEntry) (error : ValidationError) :
  runs params f0 s -> Find (index_ s) (Block_Hash bad) = Some e -> eligible e ->
  HaveBlock (store_ s) (Block_Hash bad) = false -> CheckBlock bad params = Err error ->
  exists s', AcceptBlock params bad now s = Some (Refused (RuleBroken error), s') /\
    (forall x ex, Find (index_ s') x = Some ex -> descends (index_ s) (Block_Hash bad) x -> ~ eligible ex) /\
    forall good now', blk_header good = blk_header bad ->
      AcceptBlock params good now' s' = Some (Refused (NotPlaced AlreadyRuledOut), s').
Proof.
  intros R%runs_in_step E El Hh Hc.
  destruct (bad_body_spec params f0 bad now s e error R E El Hh Hc) as (s' & A & I' & T & Hv).
  assert (forall x ex, Find (index_ s') x = Some ex -> descends (index_ s) (Block_Hash bad) x -> ~ eligible ex) as Hout.
  { intros x ex Ex Hd Hx. destruct (same_tree_find _ _ _ _ T Ex) as (ex0 & Ex0 & _).
    destruct (proj1 (Hv x ex0 ex Ex0 Ex) Hx) as [_ Hn]. by apply Hn. }
  exists s'. split_and!; try done. intros good now' Hg.
  destruct (same_tree_find_r _ _ _ _ T E) as (e' & E' & _).
  assert (Block_Hash good = Block_Hash bad) as Hgb by (unfold Block_Hash; by rewrite Hg).
  rewrite (AcceptBlock_known params good now' s' e') by (by rewrite ?Hgb || apply I').
  rewrite (proj2 (IsEligible_false e')); [done|]. apply (Hout _ _ E'). constructor.
Qed.

(** The sample block is sound and its header announced; an empty body under it
    condemns it. *)
Lemma bad_body_condemns_header_witness :
  CheckBlock (H := toy_Sha256Impl) block_a1 REGTEST_PARAMS = Accept /\
  exists s', AcceptBlock (H := toy_Sha256Impl) REGTEST_PARAMS hollow_a1 0 (announce block_a1 start_state) =
      Some (Refused (RuleBroken BlockNoTransactions), s') /\
    AcceptBlock (H := toy_Sha256Impl) REGTEST_PARAMS block_a1 0 s' = Some (Refused (NotPlaced AlreadyRuledOut), s').
Proof.
  split; [vm_compute; reflexivity|].
  assert (runs (SH := toy_Sha256Impl) (SB := picky_backends) REGTEST_PARAMS (fun _ => None) (announce block_a1 start_state)) as R.
  { apply announce_runs; [exact start_runs|apply sample_bits|vm_compute; reflexivity]. }
  assert (exists e, Find (index_ (announce block_a1 start_state)) (Block_Hash (H := toy_Sha256Impl) hollow_a1) = Some e /\
    eligible e) as (e & E & El) by (eexists; split; vm_compute; reflexivity).
  destruct (bad_body_condemns_header (H := toy_Sha256Impl) (H0 := picky_backends) REGTEST_PARAMS (fun _ => None) hollow_a1 0
    (announce block_a1 start_state) e BlockNoTransactions R E El) as (s' & A & _ & G);
    [vm_compute; reflexivity|vm_compute; reflexivity|].
  exists s'. split; [exact A|]. apply (G block_a1 0). reflexivity.
Defined.

(** A bad body under the genesis header rules out the whole chain.  Genesis is
    on the chain but its body is not in the store, so a block with its header and
    a body that fails [CheckBlock] leaves no eligible entry and no best header. *)
Theorem hollow_genesis_ends_chain `{Sha256Impl} `{Signature.SignatureBackends} {V D K} `{CoinsView V} `{!LawfulView V}
    `{BlockStore D} `{!LawfulStore D} `{ChainSink K V} `{!LawfulSink K V}
    (params : ChainParams) (f0 : Ledger) (bad : Block) (now : Z) (s : ChainState V D K) (e : BlockIndexEntry) (error : ValidationError) :
  runs params f0 s -> Block_Hash bad = genesis_ (index_ s) -> Find (index_ s) (Block_Hash bad) = Some e -> eligible e ->
  HaveBlock (store_ s) (Block_Hash bad) = false -> CheckBlock bad params = Err error ->
  exists s', AcceptBlock params bad now s = Some (Refused (RuleBroken error), s') /\
    BestHeader (index_ s') = None /\ forall x ex, Find (index_ s') x = Some ex -> ~ eligible ex.
Proof.
  intros R%runs_in_step Hg E El Hh Hc.
  destruct (bad_body_spec params f0 bad now s e error R E El Hh Hc) as (s' & A & I' & T & Hv).
  assert (forall x ex, Find (index_ s') x = Some ex -> ~ eligible ex) as Hout.
  { intros x ex Ex Hx. destruct (same_tree_find _ _ _ _ T Ex) as (ex0 & Ex0 & _).
    destruct (proj1 (Hv x ex0 ex Ex0 Ex) Hx) as [_ Hd]. apply Hd. rewrite Hg.
    by apply (descends_genesis (index_ s) x ex0 (is_index _ _ _ R)). }
  exists s'. split_and!; try done. pose proof (inv_best _ (is_index _ _ _ I')) as B. unfold best_ok in B. unfold BestHeader.
  destruct (best_header_ (index_ s')) as [b|]; [|done]. destruct B as (be & Eb & Elb & _). by destruct (Hout b be Eb).
Qed.

Lemma hollow_genesis_ends_chain_witness :
  exists s', AcceptBlock (H := toy_Sha256Impl) REGTEST_PARAMS
      (mkBlock (blk_header (Genesis.BuildGenesisBlock (H := toy_Sha256Impl) REGTEST_PARAMS)) []) 0 short_state =
      Some (Refused (RuleBroken BlockNoTransactions), s') /\ BestHeader (index_ s') = None.
Proof.
  assert (exists e, Find (index_ short_state) (genesis_ (index_ short_state)) = Some e /\ eligible e) as (e & E & El)
    by (eexists; split; vm_compute; reflexivity).
  set (bad := mkBlock (blk_header (Genesis.BuildGenesisBlock (H := toy_Sha256Impl) REGTEST_PARAMS)) []).
  assert (Block_Hash (H := toy_Sha256Impl) bad = genesis_ (index_ short_state)) as Hg by (vm_compute; reflexivity).
  rewrite <- Hg in E.
  destruct (hollow_genesis_ends_chain (H := toy_Sha256Impl) (H0 := picky_backends) REGTEST_PARAMS (fun _ => None) bad 0
    short_state e BlockNoTransactions short_runs Hg E El) as (s' & A & B & _); [vm_compute; reflexivity|vm_compute; reflexivity|].
  exists s'. split; [exact A|exact B].
Defined.

(** Withheld bodies can lower the tip.  In a run on regtest the node is on a
    valid branch of two blocks; a branch of three, whose second block pays itself
    too much, is stored, and a third branch of three is announced without bodies.
    One activation leaves the node on a chain of one block although the two-block
    branch is stored, eligible and better. *)
Theorem withheld_bodies_lower_tip :
  runs (SH := toy_Sha256Impl) (SB := picky_backends) REGTEST_PARAMS (fun _ => None) forked_state /\
  Tip forked_state = Some (Block_Hash (H := toy_Sha256Impl) block_a2) /\
  match ActivateBestChain (H := toy_Sha256Impl) (H0 := picky_backends) REGTEST_PARAMS forked_state with
  | Some (Value m, s') =>
      Tip s' = Some (Block_Hash (H := toy_Sha256Impl) block_b1) /\
      HaveBlock (store_ s') (Block_Hash (H := toy_Sha256Impl) block_a2) = true /\
      match Find (index_ s') (Block_Hash (H := toy_Sha256Impl) block_a2),
            Find (index_ s') (Block_Hash (H := toy_Sha256Impl) block_b1) with
      | Some a2, Some b1 => ent_validity a2 = VFull /\ IsBetterTip a2 b1 = true
      | _, _ => False
      end
  | _ => False
  end.
Proof. split; [exact forked_runs|]. vm_compute. repeat split. Qed.

End ChainState.
