(* ===== verification/Mempool.v ===== *)
(** * The mempool (mempool.hpp, src/mempool.cpp)

    Unconfirmed transactions keyed by wtxid, linked to their in-pool parents and
    children, with indices by spent outpoint and by txid.  Hash maps and hash sets
    are stdpp's [gmap] and [gset]; the order in which the code's containers iterate
    is unspecified and is the parameter [iter], any permutation of the elements.
    Sums of fees and weights are exact integers: their values are bounded by the
    supply and the pool's weight, far below their 64-bit types. *)

From Stdlib Require Import String.
From S2P Require Import Prelude Overflow Serialize Hex Crypto Primitives Target Work Asert Issuance Params Merkle Sighash Validation Coins.
From stdpp Require Import gmap.
#[local] Open Scope Z_scope.

Module Mempool.
Import Params Validation.

(** ** Constants and reasons *)

Definition MAX_MEMPOOL_WEIGHT : Z := 50000000.
Definition MIN_RELAY_FEERATE : Z := 1.
Definition MAX_MEMPOOL_DESCENDANTS : Z := 25.
Definition MAX_MEMPOOL_ANCESTORS : Z := 25.
Definition MAX_REPLACEMENT_EVICTIONS : Z := 100.

Inductive RejectReason :=
  | Coinbase
  | AlreadyPresent
  | ConsensusRuleFailed
  | MissingOrSpentInput
  | ZeroWeight
  | FeeBelowRelayMinimum
  | TooManyAncestors
  | TooManyDescendants
  | ConflictFeerateTooLow
  | ConflictFeeTooLow
  | ConflictsTooMany
  | PoolFull.

Definition Describe_reject (reason : RejectReason) : string :=
  match reason with
  | Coinbase => "a coinbase exists only inside a block"
  | AlreadyPresent => "already in the mempool"
  | ConsensusRuleFailed => "a consensus rule refused it"
  | MissingOrSpentInput => "an input names an outpoint that is not unspent and not in the mempool"
  | ZeroWeight => "no weight, so no fee rate"
  | FeeBelowRelayMinimum => "pays less than the minimum relay fee rate"
  | TooManyAncestors => "too many unconfirmed ancestors"
  | TooManyDescendants => "would give an ancestor too many unconfirmed descendants"
  | ConflictFeerateTooLow => "conflicts with a mempool package that pays a higher fee rate"
  | ConflictFeeTooLow => "conflicts with mempool transactions paying more in total fees"
  | ConflictsTooMany => "would replace more mempool transactions than one transaction may"
  | PoolFull => "the mempool is full of transactions paying more"
  end%string.

Record Rejection := mkRejection { reason : RejectReason; rule : option ValidationError }.

(** ** Fee rates *)

(** A 128-bit value as two 64-bit halves. *)
Record Product := mkProduct { hi : Z; lo : Z }.

Definition LOW32 : Z := 0xFFFFFFFF.

Definition Mul64 (a b : Z) : Product :=
  let a_lo := Z.land a LOW32 in
  let a_hi := Z.shiftr a 32 in
  let b_lo := Z.land b LOW32 in
  let b_hi := Z.shiftr b 32 in
  let ll := wrapu 64 (a_lo * b_lo) in
  let lh := wrapu 64 (a_lo * b_hi) in
  let hl := wrapu 64 (a_hi * b_lo) in
  let hh := wrapu 64 (a_hi * b_hi) in
  let mid := wrapu 64 (wrapu 64 (Z.shiftr ll 32 + Z.land lh LOW32) + Z.land hl LOW32) in
  mkProduct (wrapu 64 (wrapu 64 (wrapu 64 (hh + Z.shiftr lh 32) + Z.shiftr hl 32) + Z.shiftr mid 32))
            (Z.lor (Z.land ll LOW32) (wrapu 64 (Z.shiftl mid 32))).

Definition CompareProducts (a b : Product) : comparison :=
  if negb (hi a =? hi b) then (if hi a <? hi b then Lt else Gt)
  else if negb (lo a =? lo b) then (if lo a <? lo b then Lt else Gt)
  else Eq.

(** -1, 0 and +1 are [Lt], [Eq] and [Gt]. *)
Definition CompareFeerate (fee_a weight_a fee_b weight_b : Z) : comparison :=
  if (weight_a =? 0) || (weight_b =? 0)
  then if weight_a =? weight_b then Eq else if weight_a =? 0 then Lt else Gt
  else
    let scaled_a := if 0 <? fee_a then fee_a else 0 in
    let scaled_b := if 0 <? fee_b then fee_b else 0 in
    CompareProducts (Mul64 scaled_a weight_b) (Mul64 scaled_b weight_a).

Definition FeerateFloor (fee weight : Z) : Z :=
  if (weight =? 0) || (fee <=? 0) then 0 else fee / weight.

(** *** The arithmetic is exact *)

Lemma land_LOW32 a : Z.land a LOW32 = a mod 2 ^ 32.
Proof. change LOW32 with (Z.ones 32). by rewrite Z.land_ones. Qed.

Lemma lor_halves x y : 0 <= x < 2 ^ 32 -> 0 <= y -> Z.lor x (Z.shiftl y 32) = x + y * 2 ^ 32.
Proof.
  intros Hx Hy. pose proof (Z.add_lor_land x (Z.shiftl y 32)) as E.
  assert (Z.land x (Z.shiftl y 32) = 0) as H0; [|rewrite H0, Z.shiftl_mul_pow2 in E by lia; rewrite Z.shiftl_mul_pow2 by lia; lia].
  apply Z.bits_inj'. intros n Hn. rewrite Z.land_spec, Z.bits_0.
  destruct (Z.ltb_spec n 32); [by rewrite Z.shiftl_spec_low, andb_false_r|].
  rewrite (Z.bits_above_log2 x n); [done|lia|].
  destruct (Z.eq_dec x 0) as [->|]; [cbn; lia|]. apply Z.log2_lt_pow2; [lia|].
  eapply Z.lt_le_trans; [apply Hx|]. apply Z.pow_le_mono_r; lia.
Qed.

(** Splitting a 64-bit value into halves. *)
Lemma halves a : u64 a -> exists h l, a = h * 2 ^ 32 + l /\ Z.land a LOW32 = l /\ Z.shiftr a 32 = h /\
  0 <= h < 2 ^ 32 /\ 0 <= l < 2 ^ 32.
Proof.
  intros Ha. exists (a / 2 ^ 32), (a mod 2 ^ 32). rewrite land_LOW32, Z.shiftr_div_pow2 by lia.
  unfold u64 in Ha. split_and!; try done; try (dlia).
Qed.

Lemma half_product x y : 0 <= x < 2 ^ 32 -> 0 <= y < 2 ^ 32 -> 0 <= x * y <= (2 ^ 32 - 1) * (2 ^ 32 - 1).
Proof. intros. split; [lia|]. apply Z.mul_le_mono_nonneg; lia. Qed.

(** The hand-built product is the product. *)
Lemma Mul64_exact a b : u64 a -> u64 b ->
  hi (Mul64 a b) * 2 ^ 64 + lo (Mul64 a b) = a * b /\ u64 (hi (Mul64 a b)) /\ u64 (lo (Mul64 a b)).
Proof.
  intros Ha Hb. destruct (halves a Ha) as (ah & al & Ea & La & Sa & Hah & Hal).
  destruct (halves b Hb) as (bh & bl & Eb & Lb & Sb & Hbh & Hbl).
  unfold Mul64. rewrite La, Sa, Lb, Sb. cbn [hi lo].
  pose proof (half_product al bl Hal Hbl) as P1. pose proof (half_product al bh Hal Hbh) as P2.
  pose proof (half_product ah bl Hah Hbl) as P3. pose proof (half_product ah bh Hah Hbh) as P4.
  assert (forall x, 0 <= x <= (2 ^ 32 - 1) * (2 ^ 32 - 1) -> wrapu 64 x = x /\ u64 x) as W.
  { intros x Hx. split; [apply wrapu_small|unfold u64]; lia. }
  destruct (W _ P1) as [-> U1]. destruct (W _ P2) as [-> U2]. destruct (W _ P3) as [-> U3]. destruct (W _ P4) as [-> U4].
  destruct (halves _ U1) as (llh & lll & E1 & L1 & S1 & B1 & B1').
  destruct (halves _ U2) as (lhh & lhl & E2 & L2 & S2 & B2 & B2').
  destruct (halves _ U3) as (hlh & hll & E3 & L3 & S3 & B3 & B3').
  rewrite L1, S1, L2, S2, L3, S3.
  rewrite (wrapu_small 64 (llh + lhl)), (wrapu_small 64 (llh + lhl + hll)) by lia.
  destruct (halves (llh + lhl + hll)) as (mh & ml & E5 & L5 & S5 & B5 & B5'); [unfold u64; lia|].
  rewrite S5. assert (wrapu 64 (Z.shiftl (llh + lhl + hll) 32) = Z.shiftl ml 32) as ->.
  { rewrite !Z.shiftl_mul_pow2 by lia. unfold wrapu. rewrite E5.
    replace ((mh * 2 ^ 32 + ml) * 2 ^ 32) with (ml * 2 ^ 32 + mh * 2 ^ 64) by lia.
    rewrite Z.mod_add by lia. apply Z.mod_small. lia. }
  rewrite lor_halves by lia.
  assert (ah * bh + lhh + hlh + mh = (a * b) / 2 ^ 64 /\ 0 <= a * b < 2 ^ 64 * 2 ^ 64) as [Hdiv Hr].
  { unfold u64 in *. split; [|nia]. apply (Z.div_unique _ _ _ (lll + ml * 2 ^ 32)); [left; lia|]. rewrite Ea, Eb. lia. }
  assert (0 <= (a * b) / 2 ^ 64 < 2 ^ 64) by (split; [apply Z.div_pos; lia|apply Z.div_lt_upper_bound; lia]).
  rewrite (wrapu_small 64 (ah * bh + lhh)), (wrapu_small 64 (ah * bh + lhh + hlh)), (wrapu_small 64 (ah * bh + lhh + hlh + mh)) by lia.
  unfold u64. split_and!; try lia.
Qed.

(** The rate a package pays, as the fraction the comparison means. *)
Lemma CompareFeerate_exact fa wa fb wb : i64 fa -> i64 fb -> u64 wa -> u64 wb -> wa <> 0 -> wb <> 0 ->
  CompareFeerate fa wa fb wb = (Z.max 0 fa * wb ?= Z.max 0 fb * wa).
Proof.
  intros Hfa Hfb Hwa Hwb Na Nb. unfold CompareFeerate.
  rewrite (proj2 (Z.eqb_neq wa 0) Na), (proj2 (Z.eqb_neq wb 0) Nb). cbn [orb].
  assert (forall f, (if 0 <? f then f else 0) = Z.max 0 f) as Hm by (intros f; destruct (Z.ltb_spec 0 f); lia).
  rewrite !Hm. destruct (Mul64_exact (Z.max 0 fa) wb) as (E1 & H1 & L1); [mlia|done|].
  destruct (Mul64_exact (Z.max 0 fb) wa) as (E2 & H2 & L2); [mlia|done|].
  rewrite <- E1, <- E2. set (p := Mul64 (Z.max 0 fa) wb) in *. set (q := Mul64 (Z.max 0 fb) wa) in *. unfold CompareProducts.
  unfold u64 in *. destruct (Z.eqb_spec (hi p) (hi q)) as [Eh|Nh]; cbn [negb].
  - destruct (Z.eqb_spec (lo p) (lo q)) as [El|Nl]; cbn [negb]; [rewrite Eh, El; symmetry; apply Z.compare_refl|].
    destruct (Z.ltb_spec (lo p) (lo q)); symmetry; [apply Z.compare_lt_iff|apply Z.compare_gt_iff]; lia.
  - destruct (Z.ltb_spec (hi p) (hi q)); symmetry; [apply Z.compare_lt_iff|apply Z.compare_gt_iff]; lia.
Qed.

(** ** The pool *)

Record Entry := mkEntry {
  ent_tx : Transaction;
  ent_txid : bytes;
  ent_wtxid : bytes;
  ent_fee : Z;
  ent_weight : Z;
  ent_time : Z }.

Record EntryInternal := mkInternal {
  entry : Entry;
  children : gset bytes;
  parents : gset bytes }.

Record Mempool := mkPool {
  entries_ : gmap bytes EntryInternal;
  spent_by_ : gmap OutPoint bytes;
  by_txid_ : gmap bytes bytes;
  total_weight_ : Z;
  total_fees_ : Z }.

Definition new_Mempool : Mempool := mkPool ∅ ∅ ∅ 0 0.

(** The order in which a hash set is walked. *)
Class HashOrder := {
  iter : gset bytes -> list bytes;
  iter_perm s : iter s ≡ₚ elements s }.

(** *** Queries *)

Definition Find (p : Mempool) (wtxid : bytes) : option Entry := entry <$> entries_ p !! wtxid.

Definition FindByTxid (p : Mempool) (txid : bytes) : option Entry := by_txid_ p !! txid ≫= Find p.

Definition SpenderOf (p : Mempool) (o : OutPoint) : option Entry := spent_by_ p !! o ≫= Find p.

Definition Size (p : Mempool) : Z := Z.of_nat (size (entries_ p)).
Definition TotalWeight (p : Mempool) : Z := total_weight_ p.
Definition TotalFees (p : Mempool) : Z := total_fees_ p.

(** *** Walks along the links *)

(** [for (child : links)]: the new ones are marked and queued. *)
Fixpoint enqueue (links : list bytes) (reached : gset bytes) (frontier : list bytes) : gset bytes * list bytes :=
  match links with
  | [] => (reached, frontier)
  | x :: links =>
      if decide (x ∈ reached) then enqueue links reached frontier
      else enqueue links ({[x]} ∪ reached) (frontier ++ [x])
  end.

(** The queue loop.  Every pass takes a different entry off the queue, so a fuel
    of one more than the entries is never used up. *)
Fixpoint walk (fuel : nat) (links : bytes -> list bytes) (frontier : list bytes) (reached : gset bytes) : gset bytes :=
  match fuel, frontier with
  | S fuel, current :: frontier =>
      let '(reached, frontier) := enqueue (links current) reached frontier in
      walk fuel links frontier reached
  | _, _ => reached
  end.

Section pool.
Context `{HashOrder}.

Definition child_links (p : Mempool) (x : bytes) : list bytes :=
  match entries_ p !! x with Some e => iter (children e) | None => [] end.
Definition parent_links (p : Mempool) (x : bytes) : list bytes :=
  match entries_ p !! x with Some e => iter (parents e) | None => [] end.

Definition DescendantsOf (p : Mempool) (wtxid : bytes) : gset bytes :=
  match entries_ p !! wtxid with
  | None => ∅
  | Some _ => walk (S (size (entries_ p))) (child_links p) [wtxid] {[wtxid]}
  end.

Definition AncestorsOf (p : Mempool) (wtxid : bytes) : gset bytes :=
  match entries_ p !! wtxid with
  | None => ∅
  | Some _ => walk (S (size (entries_ p))) (parent_links p) [wtxid] {[wtxid]}
  end.

(** [for (id : ids) if (it != end) total += field]. *)
Definition sum_over (field : Entry -> Z) (p : Mempool) (ids : list bytes) : Z :=
  fold_left (fun total id => match Find p id with Some e => total + field e | None => total end) ids 0.

(** The total fee and weight. *)
Definition DescendantTotals (p : Mempool) (wtxid : bytes) : Z * Z :=
  let ids := iter (DescendantsOf p wtxid) in
  (sum_over ent_fee p ids, sum_over ent_weight p ids).

Definition DirectConflicts (p : Mempool) (tx : Transaction) : gset bytes :=
  fold_left (fun conflicts input =>
    match spent_by_ p !! in_outpoint input with Some w => {[w]} ∪ conflicts | None => conflicts end) (tx_inputs tx) ∅.

Definition Wtxids (p : Mempool) : list bytes := iter (dom (entries_ p)).

(** *** Removal *)

Definition erase_child (wtxid : bytes) (e : EntryInternal) : EntryInternal :=
  mkInternal (entry e) (children e ∖ {[wtxid]}) (parents e).
Definition erase_parent (wtxid : bytes) (e : EntryInternal) : EntryInternal :=
  mkInternal (entry e) (children e) (parents e ∖ {[wtxid]}).
Definition insert_child (wtxid : bytes) (e : EntryInternal) : EntryInternal :=
  mkInternal (entry e) ({[wtxid]} ∪ children e) (parents e).

(** [for (id : ids) if (it != end) f(it->second)]. *)
Definition alter_all (f : EntryInternal -> EntryInternal) (ids : list bytes) (m : gmap bytes EntryInternal)
    : gmap bytes EntryInternal :=
  fold_left (fun m id => alter f id m) ids m.

(** The guarded erase of one outpoint. *)
Definition release (wtxid : bytes) (spent : gmap OutPoint bytes) (o : OutPoint) : gmap OutPoint bytes :=
  match spent !! o with
  | Some w => if decide (w = wtxid) then delete o spent else spent
  | None => spent
  end.

Definition Unlink (wtxid : bytes) (p : Mempool) : Mempool :=
  match entries_ p !! wtxid with
  | None => p
  | Some doomed =>
      let m := alter_all (erase_child wtxid) (iter (parents doomed)) (entries_ p) in
      let m := alter_all (erase_parent wtxid) (iter (children doomed)) m in
      let spent := fold_left (release wtxid) (map in_outpoint (tx_inputs (ent_tx (entry doomed)))) (spent_by_ p) in
      let by_txid :=
        match by_txid_ p !! ent_txid (entry doomed) with
        | Some w => if decide (w = wtxid) then delete (ent_txid (entry doomed)) (by_txid_ p) else by_txid_ p
        | None => by_txid_ p
        end in
      mkPool (delete wtxid m) spent by_txid (total_weight_ p - ent_weight (entry doomed))
        (total_fees_ p - ent_fee (entry doomed))
  end.

Definition Remove (wtxid : bytes) (p : Mempool) : Mempool := Unlink wtxid p.

Definition unlink_all (ids : list bytes) (p : Mempool) : Mempool := fold_left (fun p id => Unlink id p) ids p.

Definition RemoveRecursive (wtxid : bytes) (p : Mempool) : Z * Mempool :=
  let doomed := DescendantsOf p wtxid in
  (Z.of_nat (size doomed), unlink_all (iter doomed) p).

(** The first loop of [RemoveForBlock]. *)
Fixpoint remove_confirmed `{Sha256Impl} (txs : list Transaction) (removed : Z) (p : Mempool) : Z * Mempool :=
  match txs with
  | [] => (removed, p)
  | tx :: txs =>
      match by_txid_ p !! Txid tx with
      | None => remove_confirmed txs removed p
      | Some wtxid => remove_confirmed txs (removed + 1) (Remove wtxid p)
      end
  end.

(** The second: whatever spends an outpoint of the list. *)
Fixpoint remove_spenders (outpoints : list OutPoint) (removed : Z) (p : Mempool) : Z * Mempool :=
  match outpoints with
  | [] => (removed, p)
  | o :: outpoints =>
      match spent_by_ p !! o with
      | None => remove_spenders outpoints removed p
      | Some spender => let '(n, p) := RemoveRecursive spender p in remove_spenders outpoints (removed + n) p
      end
  end.

Definition RemoveForBlock `{Sha256Impl} (block : Block) (p : Mempool) : Z * Mempool :=
  let '(removed, p) := remove_confirmed (blk_transactions block) 0 p in
  remove_spenders (block_outpoints (blk_transactions block)) removed p.

(** *** Eviction *)

(** One candidate against the worst so far. *)
Definition worse (p : Mempool) (worst : option (bytes * Z * Z)) (id : bytes) : option (bytes * Z * Z) :=
  let '(fee, weight) := DescendantTotals p id in
  match worst with
  | None => Some (id, fee, weight)
  | Some (worst_id, worst_fee, worst_weight) =>
      match CompareFeerate fee weight worst_fee worst_weight with
      | Lt => Some (id, fee, weight)
      | Eq => if lex_lt id worst_id then Some (id, fee, weight) else worst
      | Gt => worst
      end
  end.

Definition worst_package (p : Mempool) : option (bytes * Z * Z) := fold_left (worse p) (Wtxids p) None.

(** Every pass evicts an entry, so a fuel of the number of entries is enough. *)
Fixpoint trim_loop (fuel : nat) (target_weight evicted : Z) (p : Mempool) : Z * Mempool :=
  match fuel with
  | O => (evicted, p)
  | S fuel =>
      if (target_weight <? total_weight_ p) && bool_decide (entries_ p <> ∅)
      then match worst_package p with
           | None => (evicted, p)
           | Some (worst, _, _) =>
               let '(n, p) := RemoveRecursive worst p in trim_loop fuel target_weight (evicted + n) p
           end
      else (evicted, p)
  end.

Definition Trim (target_weight : Z) (p : Mempool) : Z * Mempool :=
  trim_loop (size (entries_ p)) target_weight 0 p.

Definition LowestPackageFeerate (p : Mempool) : Z :=
  default 0 (fold_left (fun lowest id =>
    let '(fee, weight) := DescendantTotals p id in
    let rate := FeerateFloor fee weight in
    match lowest with
    | None => Some rate
    | Some l => if rate <? l then Some rate else lowest
    end) (Wtxids p) None).
End pool.

(** *** Acceptance *)

Section accept.
Context `{HashOrder} `{Sha256Impl} `{Signature.SignatureBackends} {V : Type} `{CoinsView V}.

(** The coin of one input, from the chain or from the pool. *)
Definition resolve (base : V) (spend_height : Z) (p : Mempool) (input : TxInput) : option Coin :=
  match GetCoin base (in_outpoint input) with
  | Some confirmed => Some confirmed
  | None =>
      parent ← FindByTxid p (op_txid (in_outpoint input));
      if zlen (tx_outputs (ent_tx parent)) <=? op_index (in_outpoint input) then None
      else output ← tx_outputs (ent_tx parent) !! Z.to_nat (op_index (in_outpoint input));
           Some (mkCoin output spend_height false)
  end.

Fixpoint resolve_all (base : V) (spend_height : Z) (p : Mempool) (inputs : list TxInput) : option (list Coin) :=
  match inputs with
  | [] => Some []
  | input :: inputs =>
      coin ← resolve base spend_height p input;
      coins ← resolve_all base spend_height p inputs;
      Some (coin :: coins)
  end.

Definition ResolveInputs (tx : Transaction) (base : V) (spend_height : Z) (p : Mempool) : option (list Coin) :=
  resolve_all base spend_height p (tx_inputs tx).

(** [std::expected<const Entry*, Rejection>] *)
Inductive Offer := Accepted (wtxid : bytes) | Refused (r : Rejection).

Definition refused (r : RejectReason) : Offer := Refused (mkRejection r None).

(** Everything the arrival displaces. *)
Definition displaced (p : Mempool) (direct : gset bytes) : gset bytes :=
  fold_left (fun doomed id => DescendantsOf p id ∪ doomed) (iter direct) ∅.

(** The two economic rules of a replacement. *)
Definition replacement_refused (p : Mempool) (fee weight : Z) (direct doomed : gset bytes) : option RejectReason :=
  if decide (doomed = ∅) then None
  else if existsb (fun id => let '(cluster_fee, cluster_weight) := DescendantTotals p id in
                     match CompareFeerate fee weight cluster_fee cluster_weight with Gt => false | _ => true end)
            (iter direct)
  then Some ConflictFeerateTooLow
  else if fee <=? sum_over ent_fee p (iter doomed) then Some ConflictFeeTooLow
  else None.

(** The in-pool parents of a transaction. *)
Definition pool_parents (p : Mempool) (tx : Transaction) : gset bytes :=
  fold_left (fun found input =>
    match by_txid_ p !! op_txid (in_outpoint input) with Some w => {[w]} ∪ found | None => found end) (tx_inputs tx) ∅.

(** The ancestors that stay. *)
Definition surviving_ancestors (p : Mempool) (doomed from : gset bytes) : gset bytes :=
  fold_left (fun found parent => (AncestorsOf p parent ∖ doomed) ∪ found) (iter from) ∅.

(** Whether a surviving ancestor would get too many descendants. *)
Definition crowded (p : Mempool) (doomed : gset bytes) (id : bytes) : bool :=
  MAX_MEMPOOL_DESCENDANTS <? Z.of_nat (size (DescendantsOf p id ∖ {[id]} ∖ doomed)) + 1.

(** The insertion. *)
Definition enter_pool (e : Entry) (from : gset bytes) (p : Mempool) : Mempool :=
  let m := <[ent_wtxid e := mkInternal e ∅ from]> (entries_ p) in
  let m := alter_all (insert_child (ent_wtxid e)) (iter from) m in
  let spent := fold_left (fun spent input => <[in_outpoint input := ent_wtxid e]> spent) (tx_inputs (ent_tx e)) (spent_by_ p) in
  mkPool m spent (<[ent_txid e := ent_wtxid e]> (by_txid_ p)) (total_weight_ p + ent_weight e) (total_fees_ p + ent_fee e).

(** Every test between the consensus rules and the insertion. *)
Definition placement (p : Mempool) (tx : Transaction) (fee weight : Z) : Rejection + (gset bytes * gset bytes) :=
  let direct := DirectConflicts p tx in
  let doomed := displaced p direct in
  if MAX_REPLACEMENT_EVICTIONS <? Z.of_nat (size doomed) then inl (mkRejection ConflictsTooMany None)
  else match replacement_refused p fee weight direct doomed with
       | Some r => inl (mkRejection r None)
       | None =>
           let from := pool_parents p tx in
           if existsb (fun parent => bool_decide (parent ∈ doomed)) (iter from)
           then inl (mkRejection MissingOrSpentInput (Some TxInputMissingOrSpent))
           else
             let ancestors := surviving_ancestors p doomed from in
             if MAX_MEMPOOL_ANCESTORS <? Z.of_nat (size ancestors) then inl (mkRejection TooManyAncestors None)
             else if existsb (crowded p doomed) (iter ancestors) then inl (mkRejection TooManyDescendants None)
             else inr (doomed, from)
       end.

Definition AcceptCoins (tx : Transaction) (spent_coins : list Coin) (spend_height now : Z) (params : ChainParams)
    (p : Mempool) : Offer * Mempool :=
  if IsCoinbase tx then (refused Coinbase, p)
  else if bool_decide (is_Some (entries_ p !! Wtxid tx)) then (refused AlreadyPresent, p)
  else match CheckTransaction tx params with
  | Err e => (Refused (mkRejection ConsensusRuleFailed (Some e)), p)
  | Ok _ =>
  match CheckTransactionInputs tx spent_coins spend_height params with
  | Err e => (Refused (mkRejection ConsensusRuleFailed (Some e)), p)
  | Ok fee =>
      let weight := Transaction_Weight tx in
      if weight =? 0 then (refused ZeroWeight, p)
      else if MAX_MEMPOOL_WEIGHT <? weight then (refused PoolFull, p)
      else if fee <? weight * MIN_RELAY_FEERATE then (refused FeeBelowRelayMinimum, p)
      else match placement p tx fee weight with
      | inl r => (Refused r, p)
      | inr (doomed, from) =>
          let p := unlink_all (iter doomed) p in
          let p := enter_pool (mkEntry tx (Txid tx) (Wtxid tx) fee weight now) from p in
          let p := if MAX_MEMPOOL_WEIGHT <? total_weight_ p then (Trim MAX_MEMPOOL_WEIGHT p).2 else p in
          if bool_decide (is_Some (entries_ p !! Wtxid tx)) then (Accepted (Wtxid tx), p)
          else (refused PoolFull, p)
      end
  end
  end.

Definition Accept (tx : Transaction) (base : V) (spend_height now : Z) (params : ChainParams) (p : Mempool)
    : Offer * Mempool :=
  if IsCoinbase tx then (refused Coinbase, p)
  else match CheckTransaction tx params with
  | Err e => (Refused (mkRejection ConsensusRuleFailed (Some e)), p)
  | Ok _ =>
      match ResolveInputs tx base spend_height p with
      | None => (Refused (mkRejection MissingOrSpentInput (Some TxInputMissingOrSpent)), p)
      | Some spent => AcceptCoins tx spent spend_height now params p
      end
  end.

(** *** After a reorganisation *)

(** Whether an entry still holds. *)
Definition holds (tx : Transaction) (base : V) (spend_height : Z) (params : ChainParams) (p : Mempool) : bool :=
  match ResolveInputs tx base spend_height p with
  | None => false
  | Some spent => match CheckTransactionInputs tx spent spend_height params with Ok _ => true | Err _ => false end
  end.

Fixpoint reorg_loop (candidates : list bytes) (base : V) (spend_height : Z) (params : ChainParams) (removed : Z)
    (p : Mempool) : Z * Mempool :=
  match candidates with
  | [] => (removed, p)
  | wtxid :: candidates =>
      match Find p wtxid with
      | None => reorg_loop candidates base spend_height params removed p
      | Some e =>
          if holds (ent_tx e) base spend_height params p then reorg_loop candidates base spend_height params removed p
          else let '(n, p) := RemoveRecursive wtxid p in
               reorg_loop candidates base spend_height params (removed + n) p
      end
  end.

Definition RemoveForReorg (base : V) (spend_height : Z) (params : ChainParams) (p : Mempool) : Z * Mempool :=
  reorg_loop (Wtxids p) base spend_height params 0 p.
End accept.

(** *** Selection *)

Record Candidate := mkCandidate { cand_id : bytes; cand_fee : Z; cand_weight : Z }.

(** The comparator handed to [std::sort]. *)
Definition ranks_before (a b : Candidate) : bool :=
  match CompareFeerate (cand_fee a) (cand_weight a) (cand_fee b) (cand_weight b) with
  | Gt => true
  | Lt => false
  | Eq => lex_lt (cand_id a) (cand_id b)
  end.

Fixpoint insert_ranked (c : Candidate) (l : list Candidate) : list Candidate :=
  match l with
  | [] => [c]
  | x :: l => if ranks_before x c then x :: insert_ranked c l else c :: x :: l
  end.

(** The ids are distinct, so the comparator is a strict total order on the
    candidates and every sort gives this list. *)
Definition sort_ranked (l : list Candidate) : list Candidate := foldr insert_ranked [] l.

(** What the walk has emitted so far. *)
Record Selection := mkSelection { selected : list Entry; included : gset bytes; used : Z }.

(** The first entry of the package that is gone, or whose parents are all in. *)
Fixpoint next_ready (p : Mempool) (inc : gset bytes) (package : list bytes)
    : option (bytes * option EntryInternal * list bytes) :=
  match package with
  | [] => None
  | id :: package =>
      match entries_ p !! id with
      | None => Some (id, None, package)
      | Some e =>
          if bool_decide (parents e ⊆ inc) then Some (id, Some e, package)
          else '(x, found, rest) ← next_ready p inc package; Some (x, found, id :: rest)
      end
  end.

(** [while (!package.empty())]: each pass shortens the package by one, or stops. *)
Fixpoint emit (fuel : nat) (p : Mempool) (package : list bytes) (sel : Selection) : Selection :=
  match fuel with
  | O => sel
  | S fuel =>
      match next_ready p (included sel) package with
      | None => sel
      | Some (_, None, package) => emit fuel p package sel
      | Some (id, Some e, package) =>
          emit fuel p package (mkSelection (selected sel ++ [entry e]) ({[id]} ∪ included sel)
                                 (used sel + ent_weight (entry e)))
      end
  end.

Section select.
Context `{HashOrder}.

Definition take_package (p : Mempool) (available_weight : Z) (sel : Selection) (c : Candidate) : Selection :=
  if bool_decide (cand_id c ∈ included sel) then sel
  else
    let package := filter (fun id => id ∉ included sel /\ is_Some (entries_ p !! id)) (iter (AncestorsOf p (cand_id c))) in
    if available_weight <? used sel + sum_over ent_weight p package then sel
    else emit (length package) p package sel.

Definition ranked (p : Mempool) : list Candidate :=
  sort_ranked (map (fun id => let '(fee, weight) := DescendantTotals p id in mkCandidate id fee weight) (Wtxids p)).

Definition GetTemplates (available_weight : Z) (p : Mempool) : list Entry :=
  selected (fold_left (take_package p available_weight) (ranked p) (mkSelection [] ∅ 0)).
End select.

(** Fee rates are compared exactly: the hand-built 128-bit cross product orders two
    packages as the true fractions fee over weight, at every width of the inputs, a
    negative fee counting as nothing. *)
Theorem fee_rates_compare_exactly (fee_a weight_a fee_b weight_b : Z)
    (Fa : i64 fee_a) (Fb : i64 fee_b) (Wa : u64 weight_a) (Wb : u64 weight_b) (Na : weight_a <> 0) (Nb : weight_b <> 0) :
  CompareFeerate fee_a weight_a fee_b weight_b = (Z.max 0 fee_a * weight_b ?= Z.max 0 fee_b * weight_a).
Proof. by apply CompareFeerate_exact. Qed.

Lemma fee_rates_compare_exactly_witness :
  CompareFeerate (2 ^ 62) (2 ^ 63) (2 ^ 62 + 1) (2 ^ 63 + 1) = Lt.
Proof.
  rewrite (fee_rates_compare_exactly (2 ^ 62) (2 ^ 63) (2 ^ 62 + 1) (2 ^ 63 + 1)); vm_compute; try split; congruence.
Defined.
End Mempool.
