(* ===== verification/MempoolInv.v ===== *)
(** * The mempool's invariant (mempool.hpp, src/mempool.cpp)

    What every sequence of calls on the pool of [Mempool] keeps, and what each call
    does: acceptance and replacement, eviction, removal for a block, the sweep after
    a reorganisation, and the selection of a block's transactions. *)

From Stdlib Require Import String.
From S2P Require Import Prelude Overflow Serialize Hex Crypto Primitives Target Work Asert Issuance Params Merkle Sighash Validation Coins Mempool.
From stdpp Require Import gmap.
#[local] Open Scope Z_scope.

Module MempoolInv.
Import Params Validation Mempool.

(** ** What the walks reach *)

Section walks.
Context (links : bytes -> list bytes) (U : gset bytes).
Context (links_in : forall x y, x ∈ U -> y ∈ links x -> y ∈ U).

Definition linked (x y : bytes) : Prop := y ∈ links x.

Lemma enqueue_spec l : forall r f r' f', enqueue l r f = (r', f') ->
  exists new, f' = f ++ new /\ NoDup new /\ r' = list_to_set new ∪ r /\
    forall x, x ∈ new <-> x ∈ l /\ x ∉ r.
Proof.
  induction l as [|y l IH]; intros r f r' f'; cbn [enqueue].
  { intros [= <- <-]. exists []. rewrite app_nil_r. split_and!; [done|constructor|set_solver|set_solver]. }
  destruct (decide (y ∈ r)) as [Hy|Hy].
  - intros (new & -> & Hd & -> & Hn)%IH. exists new. split_and!; try done. intros x. rewrite Hn, elem_of_cons. naive_solver.
  - intros (new & -> & Hd & -> & Hn)%IH. exists (y :: new). rewrite <- app_assoc. split_and!; try done.
    + constructor; [|done]. rewrite Hn. set_solver.
    + set_solver.
    + intros x. rewrite elem_of_cons, Hn, elem_of_cons. destruct (decide (x = y)) as [->|]; set_solver.
Qed.

Lemma walk_spec w fuel : forall frontier reached, w ∈ reached -> reached ⊆ U ->
  (forall x, x ∈ reached -> rtc linked w x) ->
  (forall x, x ∈ frontier -> x ∈ reached) ->
  (forall x y, x ∈ reached -> linked x y -> x ∈ frontier \/ y ∈ reached) ->
  (length frontier + size (U ∖ reached) <= fuel)%nat ->
  forall x, x ∈ walk fuel links frontier reached <-> rtc linked w x.
Proof.
  induction fuel as [|fuel IH]; intros frontier reached Hw HU Hr Hf Hc Hm x.
  all: assert (frontier = [] -> x ∈ reached <-> rtc linked w x) as Hend
    by (intros ->; split; [apply Hr|]; intros Hx; revert Hw; clear - Hx Hc;
        induction Hx as [|a b c Hab _ IHx]; [done|]; intros Ha; apply IHx;
        destruct (Hc a b Ha Hab) as [?%elem_of_nil|?]; done).
  - destruct frontier; [by apply Hend|simpl in Hm; lia].
  - cbn [walk]. destruct frontier as [|current frontier]; [by apply Hend|].
    destruct (enqueue _ _ _) as [r' f'] eqn:E. apply enqueue_spec in E as (new & -> & Hd & -> & Hn).
    assert (current ∈ reached) as Hcur by (apply Hf; left).
    assert (forall y, y ∈ new -> y ∈ U) as HnU by (intros y [Hy _]%Hn; apply (links_in current); [by apply HU|done]).
    apply IH.
    + set_solver.
    + intros y [Hy%elem_of_list_to_set|Hy]%elem_of_union; [by apply HnU|by apply HU].
    + intros y [Hy%elem_of_list_to_set|Hy]%elem_of_union; [|by apply Hr].
      eapply rtc_r; [by apply Hr|]. by apply Hn in Hy as [? _].
    + intros y [Hy|Hy]%elem_of_app; [|set_solver]. apply elem_of_union_r, Hf. by right.
    + intros a b [Ha%elem_of_list_to_set|Ha]%elem_of_union Hab; [left; apply elem_of_app; by right|].
      destruct (Hc a b Ha Hab) as [[->|Hin]%elem_of_cons|Hin]; [|left; apply elem_of_app; by left|right; set_solver].
      right. destruct (decide (b ∈ reached)); [set_solver|]. apply elem_of_union_l, elem_of_list_to_set, Hn. done.
    + rewrite length_app. simpl in Hm.
      assert (size (U ∖ reached) = size (list_to_set (C := gset bytes) new) + size (U ∖ (list_to_set new ∪ reached)))%nat as Es.
      { rewrite <- size_union by set_solver. f_equal. apply set_eq. intros y.
        rewrite elem_of_union, !elem_of_difference, elem_of_union, elem_of_list_to_set. specialize (Hn y). specialize (HnU y).
        destruct (decide (y ∈ new)); naive_solver. }
      rewrite size_list_to_set in Es by done. lia.
Qed.

Lemma walk_reach w fuel : w ∈ U -> (size U <= fuel)%nat ->
  forall x, x ∈ walk fuel links [w] {[w]} <-> rtc linked w x.
Proof.
  intros Hw Hf. apply walk_spec; [set_solver|set_solver| |set_solver| |].
  - intros x ->%elem_of_singleton. constructor.
  - intros x y ->%elem_of_singleton _. left. by apply list_elem_of_singleton.
  - rewrite size_difference by set_solver. rewrite size_singleton. simpl.
    assert (size U <> 0)%nat; [|lia]. intros E%size_empty_inv. set_solver.
Qed.
End walks.

(** ** The invariant *)

Section order.
Context `{HashOrder}.

Lemma elem_of_iter x s : x ∈ iter s <-> x ∈ s.
Proof. rewrite iter_perm. apply elem_of_elements. Qed.

Lemma NoDup_iter s : NoDup (iter s).
Proof. rewrite iter_perm. apply NoDup_elements. Qed.

Lemma length_iter s : length (iter s) = size s.
Proof. by rewrite iter_perm. Qed.
End order.

(** The sum of a field over the entries of a map. *)
Definition msum (f : Entry -> Z) (m : gmap bytes Entry) : Z := zsum (map f (map_to_list m).*2).

Lemma msum_empty f : msum f ∅ = 0.
Proof. unfold msum. by rewrite map_to_list_empty. Qed.

Lemma msum_insert f m w e : m !! w = None -> msum f (<[w := e]> m) = f e + msum f m.
Proof.
  intros E. unfold msum. erewrite zsum_perm; [|apply fmap_Permutation, fmap_Permutation, map_to_list_insert, E]. done.
Qed.

Lemma msum_delete f m w e : m !! w = Some e -> msum f m = f e + msum f (delete w m).
Proof. intros E. rewrite <- (insert_delete_id m w e E) at 1. apply msum_insert, lookup_delete_eq. Qed.

Lemma msum_nonneg f m : (forall w e, m !! w = Some e -> 0 <= f e) -> 0 <= msum f m.
Proof.
  intros Hf. apply zsum_nonneg, Forall_forall. intros x Hx. apply list_elem_of_fmap in Hx as (e & -> & He).
  apply list_elem_of_fmap in He as ([w e'] & -> & Hm%elem_of_map_to_list). by apply (Hf w).
Qed.

(** The contents: what is in the pool, without the links. *)
Definition contents (p : Mempool) : gmap bytes Entry := entry <$> entries_ p.

Definition outpoints_of (e : Entry) : list OutPoint := map in_outpoint (tx_inputs (ent_tx e)).

Section inv.
Context `{SH : Sha256Impl} `{HO : HashOrder}.

Definition entry_ok (w : bytes) (e : Entry) : Prop :=
  ent_wtxid e = w /\ Wtxid (ent_tx e) = w /\ ent_txid e = Txid (ent_tx e) /\ IsCoinbase (ent_tx e) = false /\
  tx_inputs (ent_tx e) <> [] /\ 0 < ent_weight e <= MAX_MEMPOOL_WEIGHT /\ 0 <= ent_fee e <= MAX_MONEY /\
  ent_weight e = Transaction_Weight (ent_tx e).

(** Entries are sound; the outpoint and txid indices say exactly what the entries
    say, so no outpoint is spent twice and no txid appears twice; links go both
    ways between present entries, from a parent to a child that spends it, and
    never in a circle; the totals are the sums. *)
Record pool_inv (p : Mempool) : Prop := {
  pi_entry w x : entries_ p !! w = Some x -> entry_ok w (entry x);
  pi_spent o w : spent_by_ p !! o = Some w <-> exists x, entries_ p !! w = Some x /\ o ∈ outpoints_of (entry x);
  pi_txid t w : by_txid_ p !! t = Some w <-> exists x, entries_ p !! w = Some x /\ ent_txid (entry x) = t;
  pi_down a x b : entries_ p !! a = Some x -> b ∈ children x -> exists y, entries_ p !! b = Some y /\ a ∈ parents y;
  pi_up b y a : entries_ p !! b = Some y -> a ∈ parents y -> exists x, entries_ p !! a = Some x /\ b ∈ children x /\
    exists o, o ∈ outpoints_of (entry y) /\ op_txid o = ent_txid (entry x);
  pi_acyclic : exists rank : bytes -> nat, forall b y a, entries_ p !! b = Some y -> a ∈ parents y -> (rank a < rank b)%nat;
  pi_weight : total_weight_ p = msum ent_weight (contents p);
  pi_fees : total_fees_ p = msum ent_fee (contents p) }.

Lemma new_Mempool_inv : pool_inv new_Mempool.
Proof.
  split; cbn; try done.
  - intros o w. split; [done|]. intros (x & ? & _). set_solver.
  - intros t w. split; [done|]. intros (x & ? & _). set_solver.
  - exists (fun _ => 0%nat). done.
Qed.

Lemma contents_lookup p w : contents p !! w = entry <$> entries_ p !! w.
Proof. apply lookup_fmap. Qed.

(** *** Unlinking *)

Lemma alter_all_lookup f ids : NoDup ids -> forall m k,
  alter_all f ids m !! k = if decide (k ∈ ids) then f <$> m !! k else m !! k.
Proof.
  induction ids as [|i ids IH]; intros Hd m k; [done|]. apply NoDup_cons in Hd as [Hi Hd].
  change (alter_all f (i :: ids) m) with (alter_all f ids (alter f i m)). rewrite IH by done.
  destruct (decide (k = i)) as [->|Hk].
  - rewrite decide_False by done. rewrite (decide_True (P := i ∈ i :: ids)) by left. by rewrite lookup_alter_eq.
  - rewrite lookup_alter_ne by done. destruct (decide (k ∈ ids)); [rewrite decide_True by (by right)|rewrite decide_False by set_solver]; done.
Qed.

Lemma release_all_lookup w os : forall m o, fold_left (release w) os m !! o =
  if decide (o ∈ os /\ m !! o = Some w) then None else m !! o.
Proof.
  induction os as [|k os IH]; intros m o; cbn [fold_left].
  { rewrite decide_False; [done|]. by intros [?%elem_of_nil _]. }
  rewrite IH. unfold release. destruct (m !! k) as [v|] eqn:Ek; [destruct (decide (v = w)) as [->|Hv]|].
  - destruct (decide (o = k)) as [->|Ho].
    + rewrite lookup_delete_eq. rewrite (decide_True (P := k ∈ k :: os /\ _)) by (split; [left|done]). by destruct (decide _).
    + rewrite lookup_delete_ne by done. destruct (decide (o ∈ os /\ _)) as [[? ?]|Hn];
        [rewrite decide_True by (split; [by right|done])|rewrite decide_False by set_solver]; done.
  - destruct (decide (o ∈ os /\ _)) as [[? ?]|Hn]; [rewrite decide_True by (split; [by right|done]); done|].
    rewrite decide_False; [done|]. intros [[->|?]%elem_of_cons ?]; [congruence|by apply Hn].
  - destruct (decide (o ∈ os /\ _)) as [[? ?]|Hn]; [rewrite decide_True by (split; [by right|done]); done|].
    rewrite decide_False; [done|]. intros [[->|?]%elem_of_cons ?]; [congruence|by apply Hn].
Qed.

(** An entry with a set of ids struck from its links. *)
Definition strip (ids : gset bytes) (x : EntryInternal) : EntryInternal :=
  mkInternal (entry x) (children x ∖ ids) (parents x ∖ ids).

Lemma strip_none ids x : ids ## children x -> ids ## parents x -> strip ids x = x.
Proof. intros. destruct x as [e c q]. unfold strip. cbn in *. f_equal; set_solver. Qed.

Lemma Unlink_entries p w k : pool_inv p -> is_Some (entries_ p !! w) ->
  entries_ (Unlink w p) !! k = if decide (k = w) then None else strip {[w]} <$> entries_ p !! k.
Proof.
  intros I [d Ed]. unfold Unlink. rewrite Ed. cbn. destruct (decide (k = w)) as [->|Hk]; [apply lookup_delete_eq|].
  rewrite lookup_delete_ne by done. rewrite !alter_all_lookup by apply NoDup_iter. rewrite !(decide_ext (_ ∈ iter _) _ _ _ (elem_of_iter _ _)).
  destruct (entries_ p !! k) as [x|] eqn:Ek; [|by repeat destruct (decide _)]. cbn.
  assert (k ∈ parents d <-> w ∈ children x) as Hp.
  { split; intros Hin.
    - destruct (pi_up _ I w d k Ed Hin) as (x' & Ex & Hc & _). congruence.
    - destruct (pi_down _ I k x w Ek Hin) as (d' & Ed' & Hc). congruence. }
  assert (k ∈ children d <-> w ∈ parents x) as Hc.
  { split; intros Hin.
    - destruct (pi_down _ I w d k Ed Hin) as (x' & Ex & Hc). congruence.
    - destruct (pi_up _ I k x w Ek Hin) as (d' & Ed' & Hc & _). congruence. }
  destruct x as [e cs ps]. unfold strip, erase_child, erase_parent. cbn in *.
  destruct (decide (k ∈ parents d)), (decide (k ∈ children d)); cbn; repeat f_equal; set_solver.
Qed.

(** No link names an absent entry. *)
Lemma links_present p w k x : pool_inv p -> entries_ p !! w = None -> entries_ p !! k = Some x -> strip {[w]} x = x.
Proof.
  intros I Ew Ek. apply strip_none; intros b ->%elem_of_singleton Hb.
  - destruct (pi_down _ I k x w Ek Hb) as (y & Ey & _). congruence.
  - destruct (pi_up _ I k x w Ek Hb) as (y & Ey & _). congruence.
Qed.

Lemma Unlink_lookup p w k : pool_inv p ->
  entries_ (Unlink w p) !! k = if decide (k = w) then None else strip {[w]} <$> entries_ p !! k.
Proof.
  intros I. destruct (entries_ p !! w) as [d|] eqn:Ew; [apply Unlink_entries; [done|by eexists]|].
  unfold Unlink. rewrite Ew. destruct (decide (k = w)) as [->|]; [done|]. destruct (entries_ p !! k) as [x|] eqn:Ek; [|done].
  cbn. by rewrite (links_present p w k x).
Qed.

Lemma Unlink_Some p w k y : pool_inv p -> entries_ (Unlink w p) !! k = Some y <->
  k <> w /\ exists x, entries_ p !! k = Some x /\ y = strip {[w]} x.
Proof.
  intros I. rewrite Unlink_lookup by done. destruct (decide (k = w)) as [->|Hk]; [naive_solver|].
  destruct (entries_ p !! k); cbn; naive_solver.
Qed.

Lemma Unlink_contents p w : pool_inv p -> contents (Unlink w p) = delete w (contents p).
Proof.
  intros I. apply map_eq. intros k. rewrite contents_lookup, Unlink_lookup by done.
  destruct (decide (k = w)) as [->|]; [by rewrite lookup_delete_eq|].
  rewrite lookup_delete_ne, contents_lookup by done. by destruct (entries_ p !! k).
Qed.

Lemma Unlink_spent p w o v : pool_inv p ->
  spent_by_ (Unlink w p) !! o = Some v <-> spent_by_ p !! o = Some v /\ v <> w.
Proof.
  intros I. unfold Unlink. destruct (entries_ p !! w) as [d|] eqn:Ed; cbn.
  - rewrite release_all_lookup. destruct (decide _) as [[Hin Hw]|Hn]; [naive_solver|].
    split; [|by intros [? _]]. intros Ho. split; [done|]. intros ->. apply Hn. split; [|done].
    apply (pi_spent _ I) in Ho as (x & Ex & Hx). rewrite Ed in Ex. by injection Ex as <-.
  - split; [|by intros [? _]]. intros Ho. split; [done|]. intros ->.
    apply (pi_spent _ I) in Ho as (x & Ex & _). congruence.
Qed.

Lemma Unlink_by_txid p w t v : pool_inv p ->
  by_txid_ (Unlink w p) !! t = Some v <-> by_txid_ p !! t = Some v /\ v <> w.
Proof.
  intros I. unfold Unlink. destruct (entries_ p !! w) as [d|] eqn:Ed; cbn.
  - assert (by_txid_ p !! ent_txid (entry d) = Some w) as Hd by (apply (pi_txid _ I); eauto).
    rewrite Hd, decide_True by done. destruct (decide (t = ent_txid (entry d))) as [->|Ht].
    + rewrite lookup_delete_eq. naive_solver.
    + rewrite lookup_delete_ne by done. split; [|by intros [? _]]. intros Hv. split; [done|]. intros ->.
      apply (pi_txid _ I) in Hv as (x & Ex & Hx). rewrite Ed in Ex. injection Ex as <-. by apply Ht.
  - split; [|by intros [? _]]. intros Hv. split; [done|]. intros ->. apply (pi_txid _ I) in Hv as (x & Ex & _). congruence.
Qed.

Lemma Unlink_total p w : pool_inv p ->
  total_weight_ (Unlink w p) = msum ent_weight (delete w (contents p)) /\
  total_fees_ (Unlink w p) = msum ent_fee (delete w (contents p)).
Proof.
  intros I. unfold Unlink. destruct (entries_ p !! w) as [d|] eqn:Ed; cbn.
  - assert (contents p !! w = Some (entry d)) as Hc by (by rewrite contents_lookup, Ed).
    rewrite (pi_weight _ I), (pi_fees _ I), (msum_delete ent_weight _ _ _ Hc), (msum_delete ent_fee _ _ _ Hc). lia.
  - rewrite delete_id by (by rewrite contents_lookup, Ed). split; apply I.
Qed.

Lemma Unlink_inv p w : pool_inv p -> pool_inv (Unlink w p).
Proof.
  intros I. split.
  - intros k y (_ & x & Ex & ->)%Unlink_Some; [|done]. exact (pi_entry _ I k x Ex).
  - intros o v. rewrite Unlink_spent, (pi_spent _ I) by done. setoid_rewrite Unlink_Some; [|done]. cbn. naive_solver.
  - intros t v. rewrite Unlink_by_txid, (pi_txid _ I) by done. setoid_rewrite Unlink_Some; [|done]. cbn. naive_solver.
  - intros a y b (Ha & x & Ex & ->)%Unlink_Some Hb; [|done]. cbn in Hb. apply elem_of_difference in Hb as [Hb Hw].
    destruct (pi_down _ I a x b Ex Hb) as (z & Ez & Hz). exists (strip {[w]} z). split; [|cbn; set_solver].
    apply Unlink_Some; [done|]. split; [set_solver|eauto].
  - intros b y a (Hb & x & Ex & ->)%Unlink_Some Ha; [|done]. cbn in Ha. apply elem_of_difference in Ha as [Ha Hw].
    destruct (pi_up _ I b x a Ex Ha) as (z & Ez & Hz & Ho). exists (strip {[w]} z). split; [|split; [cbn; set_solver|done]].
    apply Unlink_Some; [done|]. split; [set_solver|eauto].
  - destruct (pi_acyclic _ I) as [rank Hr]. exists rank. intros b y a (_ & x & Ex & ->)%Unlink_Some Ha; [|done].
    cbn in Ha. apply (Hr b x a); [done|set_solver].
  - rewrite Unlink_contents by done. by apply Unlink_total.
  - rewrite Unlink_contents by done. by apply Unlink_total.
Qed.

(** A list of ids unlinked: what remains is the rest, with those ids struck from
    its links. *)
Lemma unlink_all_spec ids : forall p, pool_inv p ->
  pool_inv (unlink_all ids p) /\
  (forall k, entries_ (unlink_all ids p) !! k = if decide (k ∈ ids) then None else strip (list_to_set ids) <$> entries_ p !! k) /\
  (forall o v, spent_by_ (unlink_all ids p) !! o = Some v <-> spent_by_ p !! o = Some v /\ v ∉ ids) /\
  (forall t v, by_txid_ (unlink_all ids p) !! t = Some v <-> by_txid_ p !! t = Some v /\ v ∉ ids).
Proof.
  induction ids as [|w ids IH]; intros p I.
  { split_and!; try done; try set_solver. intros k. rewrite decide_False by apply not_elem_of_nil. cbn.
    destruct (entries_ p !! k) as [x|] eqn:E; [|done]. cbn. f_equal. symmetry. apply strip_none; set_solver. }
  change (unlink_all (w :: ids) p) with (unlink_all ids (Unlink w p)).
  destruct (IH (Unlink w p) (Unlink_inv p w I)) as (I' & He & Hs & Ht). split_and!; [done| | |].
  - intros k. rewrite He, Unlink_lookup by done. destruct (decide (k = w)) as [->|Hk].
    { rewrite (decide_True (P := w ∈ w :: ids)) by left. by destruct (decide _). }
    destruct (decide (k ∈ ids)); [by rewrite decide_True by (by right)|]. rewrite decide_False by set_solver.
    destruct (entries_ p !! k) as [x|]; [|done]. cbn. f_equal. unfold strip. cbn. f_equal; set_solver.
  - intros o v. rewrite Hs, Unlink_spent by done. rewrite not_elem_of_cons. tauto.
  - intros t v. rewrite Ht, Unlink_by_txid by done. rewrite not_elem_of_cons. tauto.
Qed.

(** *** Descendants and ancestors *)

Definition child_of (p : Mempool) (a b : bytes) : Prop := exists x, entries_ p !! a = Some x /\ b ∈ children x.

Lemma child_links_in p a b : b ∈ child_links p a <-> child_of p a b.
Proof.
  unfold child_links, child_of. destruct (entries_ p !! a) as [x|]; [|set_solver].
  rewrite elem_of_iter. naive_solver.
Qed.

Lemma parent_links_in p a b : pool_inv p -> b ∈ parent_links p a <-> child_of p b a.
Proof.
  intros I. unfold parent_links, child_of. destruct (entries_ p !! a) as [y|] eqn:Ea.
  - rewrite elem_of_iter. split.
    + intros Hb. destruct (pi_up _ I a y b Ea Hb) as (x & Ex & Hx & _). eauto.
    + intros (x & Ex & Hx). destruct (pi_down _ I b x a Ex Hx) as (y' & Ey & Hy). congruence.
  - split; [set_solver|]. intros (x & Ex & Hx). destruct (pi_down _ I b x a Ex Hx) as (y' & Ey & _). congruence.
Qed.

Lemma elem_of_DescendantsOf p w x : pool_inv p ->
  x ∈ DescendantsOf p w <-> is_Some (entries_ p !! w) /\ rtc (child_of p) w x.
Proof.
  intros I. unfold DescendantsOf. destruct (entries_ p !! w) as [d|] eqn:E; [|set_solver].
  rewrite (walk_reach (child_links p) (dom (entries_ p))).
  - split.
    + intros Hr. split; [done|]. clear E. induction Hr as [|a b c Hab _ IH]; [constructor|]. econstructor; [by apply child_links_in|done].
    + intros [_ Hr]. clear E. induction Hr as [|a b c Hab _ IH]; [constructor|]. econstructor; [by apply child_links_in|done].
  - intros a b _ (x' & Ex & Hb)%child_links_in. destruct (pi_down _ I a x' b Ex Hb) as (y & Ey & _). by apply elem_of_dom_2 in Ey.
  - by apply elem_of_dom_2 in E.
  - rewrite size_dom. lia.
Qed.

Lemma elem_of_AncestorsOf p w x : pool_inv p ->
  x ∈ AncestorsOf p w <-> is_Some (entries_ p !! w) /\ rtc (child_of p) x w.
Proof.
  intros I. unfold AncestorsOf. destruct (entries_ p !! w) as [d|] eqn:E; [|set_solver].
  rewrite (walk_reach (parent_links p) (dom (entries_ p))).
  - split.
    + intros Hr. split; [done|]. clear E. induction Hr as [|a b c Hab _ IH]; [constructor|].
      eapply rtc_r; [exact IH|exact (proj1 (parent_links_in p a b I) Hab)].
    + intros [_ Hr]. clear E. induction Hr as [|a b c Hab _ IH]; [constructor|].
      eapply rtc_r; [exact IH|exact (proj2 (parent_links_in p b a I) Hab)].
  - intros a b _ (x' & Ex & Hb)%parent_links_in; [|done]. by apply elem_of_dom_2 in Ex.
  - by apply elem_of_dom_2 in E.
  - rewrite size_dom. lia.
Qed.

Lemma descendant_present p w x : pool_inv p -> rtc (child_of p) w x -> is_Some (entries_ p !! w) -> is_Some (entries_ p !! x).
Proof.
  intros I Hr. induction Hr as [|a b c (x & Ex & Hb) _ IH]; [done|]. intros _. apply IH.
  destruct (pi_down _ I a x b Ex Hb) as (y & Ey & _). eauto.
Qed.

(** *** Removing a package *)

(** What is left has kept its entry and every parent it had. *)
Definition shrinks (p p' : Mempool) : Prop :=
  forall k y, entries_ p' !! k = Some y -> exists x, entries_ p !! k = Some x /\ entry y = entry x /\ parents y = parents x.

Lemma shrinks_refl p : shrinks p p.
Proof. intros k y E. eauto. Qed.

Lemma shrinks_trans p1 p2 p3 : shrinks p1 p2 -> shrinks p2 p3 -> shrinks p1 p3.
Proof.
  intros S1 S2 k z Ez. destruct (S2 k z Ez) as (y & Ey & -> & ->). by apply S1.
Qed.

Lemma unlink_closed (p : Mempool) (D : gset bytes) : pool_inv p -> (forall a b, a ∈ D -> child_of p a b -> b ∈ D) ->
  shrinks p (unlink_all (iter D) p).
Proof.
  intros I HD k y. destruct (unlink_all_spec (iter D) p I) as (_ & He & _). rewrite He.
  rewrite (decide_ext _ _ _ _ (elem_of_iter k D)). destruct (decide (k ∈ D)) as [|Hk]; [done|].
  destruct (entries_ p !! k) as [x|] eqn:Ek; [|done]. cbn. intros [= <-]. exists x. split_and!; try done. cbn.
  apply set_eq. intros a. rewrite elem_of_difference, elem_of_list_to_set, elem_of_iter. split; [by intros [? _]|].
  intros Ha. split; [done|]. intros HaD. apply Hk. destruct (pi_up _ I k x a Ek Ha) as (z & Ez & Hz & _).
  apply (HD a k HaD). by exists z.
Qed.

Lemma DescendantsOf_closed p w a b : pool_inv p -> a ∈ DescendantsOf p w -> child_of p a b -> b ∈ DescendantsOf p w.
Proof.
  intros I Ha Hab. apply elem_of_DescendantsOf in Ha as [Hw Hr]; [|done]. apply elem_of_DescendantsOf; [done|].
  split; [done|]. by eapply rtc_r.
Qed.

Lemma DescendantsOf_self p w : pool_inv p -> is_Some (entries_ p !! w) -> w ∈ DescendantsOf p w.
Proof. intros I Hw. apply elem_of_DescendantsOf; [done|]. split; [done|constructor]. Qed.

Lemma DescendantsOf_dom p w : pool_inv p -> DescendantsOf p w ⊆ dom (entries_ p).
Proof.
  intros I x [Hw Hr]%elem_of_DescendantsOf; [|done]. apply elem_of_dom. by eapply descendant_present.
Qed.

Lemma RemoveRecursive_spec w p : pool_inv p ->
  exists p', RemoveRecursive w p = (Z.of_nat (size (DescendantsOf p w)), p') /\ pool_inv p' /\ shrinks p p' /\
    dom (entries_ p') = dom (entries_ p) ∖ DescendantsOf p w.
Proof.
  intros I. eexists. split; [reflexivity|]. destruct (unlink_all_spec (iter (DescendantsOf p w)) p I) as (I' & He & _).
  split_and!; [done| |].
  - apply unlink_closed; [done|]. intros a b. by apply DescendantsOf_closed.
  - apply set_eq. intros k. rewrite elem_of_difference, !elem_of_dom, He.
    rewrite (decide_ext _ _ _ _ (elem_of_iter k _)). destruct (decide _); [|rewrite fmap_is_Some; tauto].
    split; [by intros [? ?]|tauto].
Qed.

(** *** Sums over a list of ids *)

Definition sum_in (f : Entry -> Z) (m : gmap bytes Entry) (ids : list bytes) : Z :=
  zsum (map (fun id => match m !! id with Some e => f e | None => 0 end) ids).

Lemma sum_over_in f p ids : sum_over f p ids = sum_in f (contents p) ids.
Proof.
  unfold sum_over. enough (forall z, fold_left (fun total id => match Find p id with Some e => total + f e | None => total end)
    ids z = z + sum_in f (contents p) ids) as -> by lia.
  induction ids as [|id ids IH]; intros z; cbn [fold_left]; [unfold sum_in; cbn; lia|].
  rewrite IH. unfold sum_in. cbn [map]. rewrite zsum_cons, contents_lookup. unfold Find. destruct (entries_ p !! id); cbn; lia.
Qed.

Lemma sum_in_delete f m id ids : id ∉ ids -> sum_in f (delete id m) ids = sum_in f m ids.
Proof.
  intros Hn. unfold sum_in. f_equal. apply map_ext_in. intros x Hx%list_elem_of_In. rewrite lookup_delete_ne; [done|]. by intros ->.
Qed.

Lemma sum_in_le f ids : NoDup ids -> forall m, (forall w e, m !! w = Some e -> 0 <= f e) -> 0 <= sum_in f m ids <= msum f m.
Proof.
  induction ids as [|id ids IH]; intros Hd m Hf; [cbn; split; [done|by apply msum_nonneg]|].
  apply NoDup_cons in Hd as [Hn Hd]. unfold sum_in. cbn [map]. rewrite zsum_cons. fold (sum_in f m ids).
  destruct (m !! id) as [e|] eqn:E; [|specialize (IH Hd m Hf); lia].
  assert (forall w e, delete id m !! w = Some e -> 0 <= f e) as Hf' by (intros w x [_ Hx]%lookup_delete_Some; by eapply Hf).
  specialize (IH Hd (delete id m) Hf'). rewrite sum_in_delete in IH by done. rewrite (msum_delete f m id e E).
  specialize (Hf id e E). lia.
Qed.

Lemma contents_ok p w e : pool_inv p -> contents p !! w = Some e -> entry_ok w e.
Proof. intros I. rewrite contents_lookup, fmap_Some. intros (x & Ex & ->). by apply (pi_entry _ I). Qed.

(** The totals fit the types the code keeps them in. *)
Definition fits (p : Mempool) : Prop := total_fees_ p < 2 ^ 63 /\ total_weight_ p < 2 ^ 64.

Lemma DescendantTotals_ok p w fee weight : pool_inv p -> is_Some (entries_ p !! w) -> DescendantTotals p w = (fee, weight) ->
  0 <= fee <= total_fees_ p /\ 0 < weight <= total_weight_ p.
Proof.
  intros I Hw [= <- <-]. rewrite !sum_over_in, (pi_fees _ I), (pi_weight _ I).
  assert (forall f, (forall w e, entry_ok w e -> 0 <= f e) ->
    0 <= sum_in f (contents p) (iter (DescendantsOf p w)) <= msum f (contents p)) as Hle.
  { intros f Hf. apply sum_in_le; [apply NoDup_iter|]. intros k e Ek. eapply Hf. by eapply contents_ok. }
  split; [apply Hle; intros k e He; apply He|].
  split; [|apply Hle; intros k e He; unfold entry_ok in He; lia].
  assert (exists l1 l2, iter (DescendantsOf p w) = l1 ++ w :: l2) as (l1 & l2 & ->).
  { apply list_elem_of_split, elem_of_iter. by apply DescendantsOf_self. }
  assert (forall ids, 0 <= sum_in ent_weight (contents p) ids) as Hn.
  { intros ids. apply zsum_nonneg, Forall_forall. intros z Hz. apply list_elem_of_fmap in Hz as (id & -> & _).
    destruct (contents p !! id) as [e|] eqn:E; [|lia]. apply (contents_ok _ _ _ I) in E. unfold entry_ok in E. lia. }
  unfold sum_in in *. rewrite map_app, zsum_app. cbn [map]. rewrite zsum_cons. destruct Hw as [x Ex].
  rewrite contents_lookup, Ex. cbn. pose proof (pi_entry _ I w x Ex) as He. unfold entry_ok in He.
  pose proof (Hn l1). pose proof (Hn l2). lia.
Qed.

(** *** Eviction *)

(** [a]'s package pays no more per weight unit than [b]'s. *)
Definition no_dearer (p : Mempool) (a b : bytes) : Prop :=
  (DescendantTotals p a).1 * (DescendantTotals p b).2 <= (DescendantTotals p b).1 * (DescendantTotals p a).2.

Lemma elem_of_Wtxids p w : w ∈ Wtxids p <-> is_Some (entries_ p !! w).
Proof. unfold Wtxids. by rewrite elem_of_iter, elem_of_dom. Qed.

(** What the fold over the candidates carries. *)
Definition least_of (p : Mempool) (seen : list bytes) (worst : option (bytes * Z * Z)) : Prop :=
  match worst with
  | None => seen = []
  | Some (w, fee, weight) => w ∈ seen /\ DescendantTotals p w = (fee, weight) /\
      (fits p -> forall id, id ∈ seen -> no_dearer p w id)
  end.

Lemma compare_fits p a b : pool_inv p -> fits p -> is_Some (entries_ p !! a) -> is_Some (entries_ p !! b) ->
  let '(fa, wa) := DescendantTotals p a in let '(fb, wb) := DescendantTotals p b in
  CompareFeerate fa wa fb wb = (fa * wb ?= fb * wa) /\ 0 <= fa /\ 0 <= fb /\ 0 < wa /\ 0 < wb.
Proof.
  intros I [F W] Ha Hb. destruct (DescendantTotals p a) as [fa wa] eqn:Ea. destruct (DescendantTotals p b) as [fb wb] eqn:Eb.
  apply DescendantTotals_ok in Ea as [A1 A2]; [|done|done]. apply DescendantTotals_ok in Eb as [B1 B2]; [|done|done].
  split_and!; try lia. rewrite CompareFeerate_exact by (unfold i64, u64; lia). f_equal; lia.
Qed.

Lemma worse_step p seen id worst : pool_inv p -> (forall x, x ∈ seen ++ [id] -> is_Some (entries_ p !! x)) ->
  least_of p seen worst -> least_of p (seen ++ [id]) (worse p worst id).
Proof.
  intros I Hs L. unfold worse. destruct (DescendantTotals p id) as [fee weight] eqn:Ed.
  assert (id ∈ seen ++ [id]) as Hid by (apply elem_of_app; right; by left).
  destruct worst as [[[w wf] ww]|].
  2:{ cbn in L. subst seen. split_and!; [done|done|]. intros _ x ->%list_elem_of_singleton. unfold no_dearer. lia. }
  destruct L as (Hw & Ew & Hl). assert (w ∈ seen ++ [id]) as Hw' by (apply elem_of_app; by left).
  assert (fits p -> CompareFeerate fee weight wf ww = (fee * ww ?= wf * weight) /\ 0 <= fee /\ 0 <= wf /\ 0 < weight /\ 0 < ww) as Hc.
  { intros F. pose proof (compare_fits p id w I F (Hs _ Hid) (Hs _ Hw')) as C. by rewrite Ed, Ew in C. }
  assert (fits p -> wf * weight <= fee * ww -> forall x, x ∈ seen ++ [id] -> no_dearer p w x) as Hkeep.
  { intros F Hle x [Hx|Hx%list_elem_of_singleton]%elem_of_app; [by apply Hl|]. subst x. unfold no_dearer. by rewrite Ed, Ew. }
  assert (fits p -> fee * ww <= wf * weight -> forall x, x ∈ seen ++ [id] -> no_dearer p id x) as Htake.
  { intros F Hle x [Hx|Hx%list_elem_of_singleton]%elem_of_app; [|subst x; unfold no_dearer; lia].
    specialize (Hl F x Hx). destruct (Hc F) as (_ & B1 & B2 & B3 & B4).
    pose proof (compare_fits p x w I F (Hs x ltac:(apply elem_of_app; by left)) (Hs _ Hw')) as C.
    unfold no_dearer in *. rewrite Ed, Ew in *. destruct (DescendantTotals p x) as [xf xw]. cbn [fst snd] in *.
    destruct C as (_ & X1 & _ & X2 & _).
    assert (fee * xw * ww <= xf * weight * ww); [|nia].
    transitivity (wf * weight * xw); [nia|]. transitivity (wf * xw * weight); [lia|]. nia. }
  destruct (CompareFeerate fee weight wf ww) eqn:C; [destruct (lex_lt id w)| |]; (split_and!; [done|done|]); intros F;
    destruct (Hc F) as (E & _); symmetry in E.
  - apply Htake; [done|]. apply Z.compare_eq in E. lia.
  - apply Hkeep; [done|]. apply Z.compare_eq in E. lia.
  - apply Htake; [done|]. rewrite Z.compare_lt_iff in E. lia.
  - apply Hkeep; [done|]. rewrite Z.compare_gt_iff in E. lia.
Qed.

Lemma worst_package_spec p : pool_inv p -> least_of p (Wtxids p) (worst_package p).
Proof.
  intros I. unfold worst_package.
  enough (forall l seen worst, seen ++ l = Wtxids p -> least_of p seen worst -> least_of p (Wtxids p) (fold_left (worse p) l worst)) as E
    by (by apply (E (Wtxids p) [] None)).
  induction l as [|id l IH]; intros seen worst El L; cbn [fold_left]; [rewrite app_nil_r in El; by subst|].
  apply (IH (seen ++ [id])); [by rewrite <- app_assoc|]. apply worse_step; [done| |done].
  intros x Hx. apply elem_of_Wtxids. rewrite <- El. set_solver.
Qed.

Lemma contents_size p : size (contents p) = size (entries_ p).
Proof. unfold contents. apply map_size_fmap. Qed.

Lemma trim_loop_spec fuel target : forall n p, pool_inv p -> 0 <= target -> (size (entries_ p) <= fuel)%nat ->
  exists p', (trim_loop fuel target n p).2 = p' /\ pool_inv p' /\ shrinks p p' /\ total_weight_ p' <= target.
Proof.
  induction fuel as [|fuel IH]; intros n p I Ht Hf; cbn [trim_loop].
  { exists p. split_and!; [done|done|apply shrinks_refl|]. assert (entries_ p = ∅) as E by (apply map_size_empty_iff; lia).
    rewrite (pi_weight _ I). unfold contents. rewrite E, fmap_empty, msum_empty. done. }
  destruct (_ && _) eqn:C.
  2:{ exists p. split_and!; [done|done|apply shrinks_refl|]. apply andb_false_iff in C as [C|C]; [by apply Z.ltb_ge in C|].
      apply bool_decide_eq_false in C. apply dec_stable in C. rewrite (pi_weight _ I). unfold contents.
      by rewrite C, fmap_empty, msum_empty. }
  apply andb_true_iff in C as [_ Hne%bool_decide_eq_true]. pose proof (worst_package_spec p I) as W.
  destruct (worst_package p) as [[[w wf] ww]|].
  2:{ exfalso. apply Hne, map_size_empty_iff. cbn in W. rewrite <- size_dom, <- length_iter. fold (Wtxids p). by rewrite W. }
  destruct W as (Hw%elem_of_Wtxids & _ & _). destruct (RemoveRecursive_spec w p I) as (p1 & -> & I1 & S1 & D1).
  destruct (IH (n + Z.of_nat (size (DescendantsOf p w))) p1 I1 Ht) as (p2 & E2 & I2 & S2 & T2).
  { rewrite <- size_dom, D1. rewrite size_difference by (by apply DescendantsOf_dom). rewrite size_dom.
    pose proof (DescendantsOf_self p w I Hw) as Hin.
    assert (size (DescendantsOf p w) <> 0)%nat; [|lia]. intros E%size_empty_inv. set_solver. }
  exists p2. split_and!; try done. by eapply shrinks_trans.
Qed.

Lemma Trim_spec target p : pool_inv p -> 0 <= target ->
  exists p', (Trim target p).2 = p' /\ pool_inv p' /\ shrinks p p' /\ total_weight_ p' <= target.
Proof. intros I Ht. by apply trim_loop_spec. Qed.
(** *** Admitting an entry *)

Lemma fold_insert_lookup w os : forall (m : gmap OutPoint bytes) o,
  fold_left (fun spent o => <[o := w]> spent) os m !! o = if decide (o ∈ os) then Some w else m !! o.
Proof.
  induction os as [|k os IH]; intros m o; cbn [fold_left]; [by rewrite decide_False by apply not_elem_of_nil|].
  rewrite IH. destruct (decide (o ∈ os)); [by rewrite decide_True by (by right)|].
  destruct (decide (o = k)) as [->|Hk]; [rewrite lookup_insert_eq, decide_True by left; done|].
  rewrite lookup_insert_ne, decide_False by set_solver. done.
Qed.

Lemma admit_spent e from p o : spent_by_ (enter_pool e from p) !! o =
  if decide (o ∈ outpoints_of e) then Some (ent_wtxid e) else spent_by_ p !! o.
Proof.
  unfold enter_pool, outpoints_of. cbn. rewrite <- fold_insert_lookup. f_equal. generalize (spent_by_ p).
  induction (tx_inputs (ent_tx e)) as [|i l IH]; intros m; [done|]. cbn. apply IH.
Qed.

Lemma admit_lookup e from p k : entries_ p !! ent_wtxid e = None -> ent_wtxid e ∉ from ->
  entries_ (enter_pool e from p) !! k =
    if decide (k = ent_wtxid e) then Some (mkInternal e ∅ from)
    else if decide (k ∈ from) then insert_child (ent_wtxid e) <$> entries_ p !! k else entries_ p !! k.
Proof.
  intros Hw Hf. unfold enter_pool. cbn. rewrite alter_all_lookup by apply NoDup_iter.
  rewrite (decide_ext _ _ _ _ (elem_of_iter k from)). destruct (decide (k = ent_wtxid e)) as [->|Hk].
  - rewrite decide_False by done. by rewrite lookup_insert_eq.
  - by rewrite lookup_insert_ne by done.
Qed.

(** Every entry of the new pool is the arrival or an old entry, which has gained
    the arrival as a child when it is one of the parents. *)
Lemma admit_cases e from p k y : entries_ p !! ent_wtxid e = None -> ent_wtxid e ∉ from ->
  entries_ (enter_pool e from p) !! k = Some y ->
    (k = ent_wtxid e /\ y = mkInternal e ∅ from) \/
    (k <> ent_wtxid e /\ exists x, entries_ p !! k = Some x /\ entry y = entry x /\ parents y = parents x /\
      forall b, b ∈ children y -> b ∈ children x \/ (b = ent_wtxid e /\ k ∈ from)).
Proof.
  intros Hw Hf. rewrite admit_lookup by done. destruct (decide (k = ent_wtxid e)) as [->|Hk]; [intros [= <-]; by left|].
  intros E. right. split; [done|]. destruct (decide (k ∈ from)); destruct (entries_ p !! k) as [x|]; try done; cbn in E;
    injection E as <-; exists x; split_and!; try done; cbn; set_solver.
Qed.

Lemma admit_keeps e from p k x : entries_ p !! ent_wtxid e = None -> ent_wtxid e ∉ from -> entries_ p !! k = Some x ->
  exists y, entries_ (enter_pool e from p) !! k = Some y /\ entry y = entry x /\ parents y = parents x /\
    (forall b, b ∈ children x -> b ∈ children y) /\ (k ∈ from -> ent_wtxid e ∈ children y).
Proof.
  intros Hw Hf Ek. rewrite admit_lookup by done. rewrite decide_False by congruence. rewrite Ek.
  destruct (decide (k ∈ from)); cbn; eexists; split_and!; try done; cbn; set_solver.
Qed.

Lemma admit_self e from p : entries_ p !! ent_wtxid e = None -> ent_wtxid e ∉ from ->
  entries_ (enter_pool e from p) !! ent_wtxid e = Some (mkInternal e ∅ from).
Proof. intros. rewrite admit_lookup by done. by rewrite decide_True. Qed.

Lemma admit_contents e from p : entries_ p !! ent_wtxid e = None -> ent_wtxid e ∉ from ->
  contents (enter_pool e from p) = <[ent_wtxid e := e]> (contents p).
Proof.
  intros Hw Hf. apply map_eq. intros k. rewrite contents_lookup, admit_lookup by done.
  destruct (decide (k = ent_wtxid e)) as [->|Hk]; [by rewrite lookup_insert_eq|].
  rewrite lookup_insert_ne, contents_lookup by done. by destruct (decide _), (entries_ p !! k).
Qed.

(** What the tests of [placement] must have settled before an insertion. *)
Record room_for (e : Entry) (from : gset bytes) (p : Mempool) : Prop := {
  rf_ok : entry_ok (ent_wtxid e) e;
  rf_new : entries_ p !! ent_wtxid e = None;
  rf_unspent o : o ∈ outpoints_of e -> spent_by_ p !! o = None;
  rf_txid : by_txid_ p !! ent_txid e = None;
  rf_from a : a ∈ from -> exists x, entries_ p !! a = Some x /\
    exists o, o ∈ outpoints_of e /\ op_txid o = ent_txid (entry x) }.

Lemma room_not_own e from p : room_for e from p -> ent_wtxid e ∉ from.
Proof. intros R Hin. destruct (rf_from _ _ _ R _ Hin) as (x & Ex & _). pose proof (rf_new _ _ _ R). congruence. Qed.

Section admitted.
Context (e : Entry) (from : gset bytes) (p : Mempool) (I : pool_inv p) (R : room_for e from p).
#[local] Notation p' := (enter_pool e from p).

Lemma admitted_cases k y : entries_ p' !! k = Some y ->
  (k = ent_wtxid e /\ y = mkInternal e ∅ from) \/
  (k <> ent_wtxid e /\ exists x, entries_ p !! k = Some x /\ entry y = entry x /\ parents y = parents x /\
    forall b, b ∈ children y -> b ∈ children x \/ (b = ent_wtxid e /\ k ∈ from)).
Proof. apply admit_cases; [apply R|by eapply room_not_own]. Qed.

Lemma admitted_keeps k x : entries_ p !! k = Some x ->
  exists y, entries_ p' !! k = Some y /\ entry y = entry x /\ parents y = parents x /\
    (forall b, b ∈ children x -> b ∈ children y) /\ (k ∈ from -> ent_wtxid e ∈ children y).
Proof. apply admit_keeps; [apply R|by eapply room_not_own]. Qed.

Lemma admitted_self : entries_ p' !! ent_wtxid e = Some (mkInternal e ∅ from).
Proof. apply admit_self; [apply R|by eapply room_not_own]. Qed.

(** An index over the entries: a key of the arrival maps to the arrival, the rest
    of the index is as it was. *)
Lemma admitted_index {K} (P : K -> Entry -> Prop) (key : K) (old new : option bytes) v :
  (forall w, old = Some w <-> exists x, entries_ p !! w = Some x /\ P key (entry x)) ->
  (P key e -> old = None /\ new = Some (ent_wtxid e)) -> (~ P key e -> new = old) -> (P key e \/ ~ P key e) ->
  new = Some v <-> exists y, entries_ p' !! v = Some y /\ P key (entry y).
Proof.
  intros Hold Hin Hout [He|He].
  - destruct (Hin He) as [Hnone ->]. split; [intros [= <-]; exists (mkInternal e ∅ from); split; [apply admitted_self|done]|].
    intros (y & [[-> _]|(_ & x & Ex & Ey & _)]%admitted_cases & Hy); [done|]. rewrite Ey in Hy.
    assert (old = Some v) by (apply Hold; eauto). congruence.
  - rewrite (Hout He), Hold. split.
    + intros (x & Ex & Hx). destruct (admitted_keeps v x Ex) as (y & Ey & E & _). exists y. by rewrite E.
    + intros (y & [[-> ->]|(_ & x & Ex & Ey & _)]%admitted_cases & Hy); [done|]. exists x. by rewrite <- Ey.
Qed.

Lemma admit_inv : pool_inv p'.
Proof.
  split.
  - intros k y [[-> ->]|(_ & x & Ex & -> & _)]%admitted_cases; [apply R|by apply (pi_entry _ I)].
  - intros o v. apply (admitted_index (fun o x => o ∈ outpoints_of x) o (spent_by_ p !! o)).
    + intros w. apply (pi_spent _ I).
    + intros Ho. split; [by apply R|]. by rewrite admit_spent, decide_True.
    + intros Ho. by rewrite admit_spent, decide_False.
    + destruct (decide (o ∈ outpoints_of e)); tauto.
  - intros t v. apply (admitted_index (fun t x => ent_txid x = t) t (by_txid_ p !! t)).
    + intros w. apply (pi_txid _ I).
    + intros <-. split; [apply R|]. unfold enter_pool. cbn. by rewrite lookup_insert_eq.
    + intros Ho. unfold enter_pool. cbn. by rewrite lookup_insert_ne.
    + destruct (decide (ent_txid e = t)); tauto.
  - intros a y b [[-> ->]|(_ & x & Ex & _ & _ & Hc)]%admitted_cases Hb; [by apply elem_of_empty in Hb|].
    destruct (Hc b Hb) as [Hb'|[-> Ha]]; [|exists (mkInternal e ∅ from); split; [apply admitted_self|done]].
    destruct (pi_down _ I a x b Ex Hb') as (z & Ez & Hz). destruct (admitted_keeps b z Ez) as (z' & Ez' & _ & E & _).
    exists z'. by rewrite E.
  - intros b y a [[-> ->]|(_ & x & Ex & Ey & Ep & _)]%admitted_cases Ha.
    + destruct (rf_from _ _ _ R a Ha) as (x & Ex & Ho). destruct (admitted_keeps a x Ex) as (x' & Ex' & E & _ & _ & Hc).
      exists x'. rewrite E. auto.
    + rewrite Ep in Ha. destruct (pi_up _ I b x a Ex Ha) as (z & Ez & Hz & Ho).
      destruct (admitted_keeps a z Ez) as (z' & Ez' & E & _ & Hc & _). exists z'. rewrite E, Ey. auto.
  - destruct (pi_acyclic _ I) as [rank Hr].
    exists (fun k => if decide (k = ent_wtxid e) then S (list_max (map rank (elements from))) else rank k).
    intros b y a [[-> ->]|(Hb & x & Ex & _ & Ep & _)]%admitted_cases Ha.
    + rewrite (decide_True (P := ent_wtxid e = _)) by done. rewrite decide_False by (intros ->; by eapply room_not_own).
      cbn in Ha. apply Nat.lt_succ_r. pose proof (proj1 (list_max_le (map rank (elements from)) _) (le_n _)) as Hm.
      rewrite List.Forall_forall in Hm. apply Hm, in_map, list_elem_of_In, elem_of_elements, Ha.
    + rewrite Ep in Ha. rewrite (decide_False (P := b = _)) by done. rewrite decide_False; [by apply (Hr b x)|].
      intros ->. destruct (pi_up _ I b x _ Ex Ha) as (z & Ez & _). pose proof (rf_new _ _ _ R). congruence.
  - rewrite admit_contents by (apply R || by eapply room_not_own). rewrite msum_insert by (rewrite contents_lookup, (rf_new _ _ _ R); done).
    unfold enter_pool. cbn. rewrite (pi_weight _ I). lia.
  - rewrite admit_contents by (apply R || by eapply room_not_own). rewrite msum_insert by (rewrite contents_lookup, (rf_new _ _ _ R); done).
    unfold enter_pool. cbn. rewrite (pi_fees _ I). lia.
Qed.
End admitted.
(** *** What an arrival displaces and depends on *)

Lemma fold_found_spec {A} (f : A -> option bytes) l : forall (s : gset bytes) x,
  x ∈ fold_left (fun found a => match f a with Some w => {[w]} ∪ found | None => found end) l s <->
  x ∈ s \/ exists a, a ∈ l /\ f a = Some x.
Proof.
  induction l as [|a l IH]; intros s x; cbn [fold_left]; [set_solver|].
  rewrite IH. setoid_rewrite elem_of_cons. destruct (f a) as [w|] eqn:E; [|naive_solver].
  rewrite elem_of_union, elem_of_singleton. naive_solver.
Qed.

Lemma fold_union_spec (f : bytes -> gset bytes) l : forall (s : gset bytes) x,
  x ∈ fold_left (fun found a => f a ∪ found) l s <-> x ∈ s \/ exists a, a ∈ l /\ x ∈ f a.
Proof.
  induction l as [|a l IH]; intros s x; cbn [fold_left]; [set_solver|].
  rewrite IH, elem_of_union. setoid_rewrite elem_of_cons. naive_solver.
Qed.

(** The outpoints a transaction spends. *)
Definition spends (tx : Transaction) (o : OutPoint) : Prop := o ∈ map in_outpoint (tx_inputs tx).

Lemma elem_of_DirectConflicts p tx w : w ∈ DirectConflicts p tx <-> exists o, spends tx o /\ spent_by_ p !! o = Some w.
Proof.
  unfold DirectConflicts, spends. rewrite fold_found_spec. setoid_rewrite list_elem_of_fmap. set_solver.
Qed.

Lemma elem_of_pool_parents p tx w : w ∈ pool_parents p tx <-> exists o, spends tx o /\ by_txid_ p !! op_txid o = Some w.
Proof.
  unfold pool_parents, spends. rewrite fold_found_spec. setoid_rewrite list_elem_of_fmap. set_solver.
Qed.

Lemma elem_of_displaced p direct x : x ∈ displaced p direct <-> exists c, c ∈ direct /\ x ∈ DescendantsOf p c.
Proof. unfold displaced. rewrite fold_union_spec. setoid_rewrite elem_of_iter. set_solver. Qed.

Lemma elem_of_surviving p doomed from x :
  x ∈ surviving_ancestors p doomed from <-> x ∉ doomed /\ exists a, a ∈ from /\ x ∈ AncestorsOf p a.
Proof. unfold surviving_ancestors. rewrite fold_union_spec. setoid_rewrite elem_of_iter. set_solver. Qed.

Lemma displaced_closed p direct a b : pool_inv p -> a ∈ displaced p direct -> child_of p a b -> b ∈ displaced p direct.
Proof. intros I. rewrite !elem_of_displaced. intros (c & Hc & Ha) Hab. exists c. split; [done|]. by eapply DescendantsOf_closed. Qed.

Lemma existsb_iter (f : bytes -> bool) s : existsb f (iter s) = false <-> forall x, x ∈ s -> f x = false.
Proof.
  rewrite <- not_true_iff_false, existsb_exists. split.
  - intros Hn x Hx. destruct (f x) eqn:E; [|done]. destruct Hn. exists x. rewrite <- list_elem_of_In, elem_of_iter. done.
  - intros Hf (x & Hx & E). rewrite <- list_elem_of_In, elem_of_iter in Hx. rewrite (Hf x Hx) in E. done.
Qed.

(** The tests passed: what is displaced, what it costs, and how much company the
    arrival has. *)
Record placed (p : Mempool) (tx : Transaction) (fee weight : Z) (doomed from : gset bytes) : Prop := {
  pl_doomed : doomed = displaced p (DirectConflicts p tx);
  pl_from : from = pool_parents p tx;
  pl_few : Z.of_nat (size doomed) <= MAX_REPLACEMENT_EVICTIONS;
  pl_rate c : c ∈ DirectConflicts p tx -> doomed <> ∅ ->
    CompareFeerate fee weight (DescendantTotals p c).1 (DescendantTotals p c).2 = Gt;
  pl_fee : doomed <> ∅ -> sum_over ent_fee p (iter doomed) < fee;
  pl_stay a : a ∈ from -> a ∉ doomed;
  pl_ancestors : Z.of_nat (size (surviving_ancestors p doomed from)) <= MAX_MEMPOOL_ANCESTORS;
  pl_descendants a : a ∈ surviving_ancestors p doomed from ->
    Z.of_nat (size (DescendantsOf p a ∖ {[a]} ∖ doomed)) + 1 <= MAX_MEMPOOL_DESCENDANTS }.

Lemma replacement_None p fee weight direct doomed : replacement_refused p fee weight direct doomed = None ->
  doomed <> ∅ -> (forall c, c ∈ direct -> CompareFeerate fee weight (DescendantTotals p c).1 (DescendantTotals p c).2 = Gt) /\
    sum_over ent_fee p (iter doomed) < fee.
Proof.
  unfold replacement_refused. intros E Hne. rewrite decide_False in E by done. destruct (existsb _ _) eqn:Ex; [done|].
  destruct (Z.leb_spec fee (sum_over ent_fee p (iter doomed))); [done|]. split; [|done]. intros c Hc.
  pose proof (proj1 (existsb_iter _ _) Ex c Hc) as H'. cbv beta in H'.
  destruct (DescendantTotals p c) as [cf cw]. cbn [fst snd]. by destruct (CompareFeerate _ _ _ _).
Qed.

Lemma placement_inr p tx fee weight doomed from : placement p tx fee weight = inr (doomed, from) ->
  placed p tx fee weight doomed from.
Proof.
  unfold placement. destruct (Z.ltb_spec MAX_REPLACEMENT_EVICTIONS (Z.of_nat (size (displaced p (DirectConflicts p tx))))); [done|].
  destruct (replacement_refused _ _ _ _ _) eqn:Er; [done|]. destruct (existsb (fun parent => _) _) eqn:Es; [done|].
  destruct (Z.ltb_spec MAX_MEMPOOL_ANCESTORS (Z.of_nat (size (surviving_ancestors p (displaced p (DirectConflicts p tx)) (pool_parents p tx))))); [done|].
  destruct (existsb (crowded _ _) _) eqn:Ed; [done|]. intros [= <- <-].
  pose proof (proj1 (existsb_iter _ _) Es) as Hs. pose proof (proj1 (existsb_iter _ _) Ed) as Hd.
  split; try done.
  - intros c Hc Hne. by apply (replacement_None _ _ _ _ _ Er Hne).
  - intros Hne. by apply (replacement_None _ _ _ _ _ Er Hne).
  - intros a Ha. specialize (Hs a Ha). cbn in Hs. by apply bool_decide_eq_false in Hs.
  - intros a Ha. specialize (Hd a Ha). unfold crowded in Hd. by apply Z.ltb_ge in Hd.
Qed.

(** *** The size of packages *)

(** Nobody has more company than the limits allow. *)
Definition limits (p : Mempool) : Prop := forall w,
  Z.of_nat (size (AncestorsOf p w ∖ {[w]})) <= MAX_MEMPOOL_ANCESTORS /\
  Z.of_nat (size (DescendantsOf p w ∖ {[w]})) <= MAX_MEMPOOL_DESCENDANTS.

(** Fewer links and fewer entries: no package grows. *)
Definition thinner (p p' : Mempool) : Prop :=
  (forall w, is_Some (entries_ p' !! w) -> is_Some (entries_ p !! w)) /\ (forall a b, child_of p' a b -> child_of p a b).

Lemma thinner_reach p p' a b : thinner p p' -> rtc (child_of p') a b -> rtc (child_of p) a b.
Proof. intros [_ Hc] Hr. induction Hr as [|x y z Hxy _ IH]; [constructor|]. econstructor; [by apply Hc|done]. Qed.

Lemma thinner_limits p p' : pool_inv p -> pool_inv p' -> thinner p p' -> limits p -> limits p'.
Proof.
  intros I I' T L w. destruct (L w) as [La Ld]. split.
  - etransitivity; [|exact La]. apply inj_le, subseteq_size. intros x. rewrite !elem_of_difference, !elem_of_AncestorsOf by done.
    intros [[Hw Hr] Hx]. split_and!; [by apply T|by eapply thinner_reach|done].
  - etransitivity; [|exact Ld]. apply inj_le, subseteq_size. intros x. rewrite !elem_of_difference, !elem_of_DescendantsOf by done.
    intros [[Hw Hr] Hx]. split_and!; [by apply T|by eapply thinner_reach|done].
Qed.

Lemma thinner_refl p : thinner p p.
Proof. by split. Qed.

Lemma thinner_trans p q r : thinner p q -> thinner q r -> thinner p r.
Proof. intros [A B] [C D]. split; auto. Qed.

Lemma unlink_all_thinner ids p : pool_inv p -> thinner p (unlink_all ids p).
Proof.
  intros I. destruct (unlink_all_spec ids p I) as (_ & He & _). split.
  - intros w. rewrite He. destruct (decide _); [by intros []|]. by rewrite fmap_is_Some.
  - intros a b (x & Ex & Hb). rewrite He in Ex. destruct (decide _); [done|]. destruct (entries_ p !! a) as [y|] eqn:Ey; [|done].
    injection Ex as <-. exists y. split; [done|]. cbn in Hb. set_solver.
Qed.
(** *** The insertion after the tests *)

(** No two transactions spending different outpoints share a txid: what the
    hash's collision resistance gives, for the pool and one arrival. *)
Definition binds_txid (p : Mempool) (tx : Transaction) : Prop := forall w x,
  entries_ p !! w = Some x -> ent_txid (entry x) = Txid tx -> outpoints_of (entry x) = map in_outpoint (tx_inputs tx).

Section arrival.
Context (p : Mempool) (e : Entry) (doomed from : gset bytes).
Context (I : pool_inv p) (B : binds_txid p (ent_tx e)) (Hok : entry_ok (ent_wtxid e) e).
Context (Hnew : entries_ p !! ent_wtxid e = None).
Context (P : placed p (ent_tx e) (ent_fee e) (ent_weight e) doomed from).
#[local] Notation p1 := (unlink_all (iter doomed) p).

Lemma arrival_conflict w : w ∈ DirectConflicts p (ent_tx e) -> w ∈ doomed.
Proof.
  intros Hw. rewrite (pl_doomed _ _ _ _ _ _ P). apply elem_of_displaced. exists w. split; [done|].
  apply DescendantsOf_self; [done|]. apply elem_of_DirectConflicts in Hw as (o & _ & Ho).
  apply (pi_spent _ I) in Ho as (x & Ex & _). eauto.
Qed.

Lemma arrival_room : room_for e from p1.
Proof.
  destruct (unlink_all_spec (iter doomed) p I) as (I1 & He & Hs & Ht). split.
  - done.
  - rewrite He, Hnew. by destruct (decide _).
  - intros o Ho. destruct (spent_by_ p1 !! o) as [w|] eqn:E; [|done]. apply Hs in E as [E Hw]. exfalso. apply Hw, elem_of_iter.
    apply arrival_conflict, elem_of_DirectConflicts. by exists o.
  - destruct (by_txid_ p1 !! ent_txid e) as [w|] eqn:E; [|done]. apply Ht in E as [E Hw]. exfalso. apply Hw, elem_of_iter.
    apply arrival_conflict, elem_of_DirectConflicts. apply (pi_txid _ I) in E as (x & Ex & Etx).
    destruct Hok as (_ & _ & Et & _ & Hin & _). rewrite Et in Etx. specialize (B w x Ex Etx).
    destruct (tx_inputs (ent_tx e)) as [|i l] eqn:Ei; [done|]. exists (in_outpoint i).
    assert (in_outpoint i ∈ map in_outpoint (i :: l)) as Hi by (cbn; left). unfold spends. rewrite Ei. split; [done|].
    apply (pi_spent _ I). exists x. split; [done|]. by rewrite B.
  - intros a Ha. pose proof (pl_stay _ _ _ _ _ _ P a Ha) as Hd. rewrite (pl_from _ _ _ _ _ _ P) in Ha.
    apply elem_of_pool_parents in Ha as (o & Ho & (x & Ex & Et)%(pi_txid _ I)).
    exists (strip (list_to_set (iter doomed)) x). split; [|by exists o].
    rewrite He, decide_False by (by rewrite elem_of_iter). by rewrite Ex.
Qed.

Lemma arrival_inv : pool_inv (enter_pool e from p1).
Proof. apply admit_inv; [by apply unlink_all_spec|apply arrival_room]. Qed.

(** The links of the new pool. *)
Lemma arrival_child a b : child_of (enter_pool e from p1) a b -> child_of p1 a b \/ (b = ent_wtxid e /\ a ∈ from).
Proof.
  intros (y & Ey & Hb). apply (admitted_cases _ _ _ arrival_room) in Ey as [[-> ->]|(_ & x & Ex & _ & _ & Hc)]; [set_solver|].
  destruct (Hc b Hb) as [?|[-> ?]]; [left; by exists x|by right].
Qed.

Lemma arrival_no_child b : ~ child_of (enter_pool e from p1) (ent_wtxid e) b.
Proof. intros (y & Ey & Hb). rewrite (admitted_self _ _ _ arrival_room) in Ey. injection Ey as <-. set_solver. Qed.

(** A path of the new pool that does not end at the arrival is a path of the old. *)
Lemma arrival_path a b : rtc (child_of (enter_pool e from p1)) a b ->
  rtc (child_of p1) a b \/ (b = ent_wtxid e /\ (a = b \/ exists q, q ∈ from /\ rtc (child_of p1) a q)).
Proof.
  intros Hr. induction Hr as [|a b c Hab Hbc IH]; [by left; constructor|].
  apply arrival_child in Hab as [Hab|[-> Ha]].
  - destruct IH as [IH|[-> [->|(q & Hq & IH)]]]; [left; by econstructor| |].
    + exfalso. destruct Hab as (x & Ex & Hb). destruct (pi_down _ (proj1 (unlink_all_spec (iter doomed) p I)) _ _ _ Ex Hb) as (y & Ey & _).
      rewrite (rf_new _ _ _ arrival_room) in Ey. done.
    + right. split; [done|]. right. exists q. split; [done|]. by econstructor.
  - right. apply rtc_inv in Hbc as [<-|(y & Hy & _)]; [|by apply arrival_no_child in Hy]. split; [done|]. right. exists a. split; [done|constructor].
Qed.

Lemma p1_present w : is_Some (entries_ p1 !! w) <-> is_Some (entries_ p !! w) /\ w ∉ doomed.
Proof.
  destruct (unlink_all_spec (iter doomed) p I) as (_ & He & _). rewrite He, (decide_ext _ _ _ _ (elem_of_iter w doomed)).
  destruct (decide (w ∈ doomed)); [|rewrite fmap_is_Some; tauto]. split; [by intros []|tauto].
Qed.

Lemma p1_path a b : is_Some (entries_ p1 !! b) -> rtc (child_of p1) a b -> rtc (child_of p) a b /\ a ∉ doomed.
Proof.
  intros Hb Hr. split; [by eapply thinner_reach; [apply unlink_all_thinner|]|].
  apply p1_present. destruct Hr as [|? ? ? (x & Ex & _) _]; [done|]. by eexists.
Qed.

Lemma arrival_present w : is_Some (entries_ (enter_pool e from p1) !! w) -> w = ent_wtxid e \/ is_Some (entries_ p1 !! w).
Proof. intros [y [[-> _]|(_ & x & Ex & _)]%(admitted_cases _ _ _ arrival_room)]; [by left|]. right. eauto. Qed.

Lemma from_present q : q ∈ from -> is_Some (entries_ p1 !! q).
Proof. intros Hq. destruct (rf_from _ _ _ arrival_room q Hq) as (x & Ex & _). eauto. Qed.

Lemma p1_limits : limits p -> limits p1.
Proof. apply thinner_limits; [done|by apply unlink_all_spec|by apply unlink_all_thinner]. Qed.

Lemma arrival_ancestors w : limits p -> Z.of_nat (size (AncestorsOf (enter_pool e from p1) w ∖ {[w]})) <= MAX_MEMPOOL_ANCESTORS.
Proof.
  intros L. pose proof arrival_inv as I2. pose proof (proj1 (unlink_all_spec (iter doomed) p I)) as I1.
  destruct (decide (w = ent_wtxid e)) as [->|Hw].
  - etransitivity; [|exact (pl_ancestors _ _ _ _ _ _ P)]. apply inj_le, subseteq_size. intros x.
    rewrite elem_of_difference, elem_of_AncestorsOf, not_elem_of_singleton, elem_of_surviving by done. intros [[_ Hr] Hx].
    apply arrival_path in Hr as [Hr|[_ [?|(q & Hq & Hr)]]]; [|done|].
    + exfalso. apply rtc_inv_r in Hr as [?|(y & _ & (z & Ez & Hz))]; [done|].
      destruct (pi_down _ I1 _ _ _ Ez Hz) as (z' & Ez' & _). rewrite (rf_new _ _ _ arrival_room) in Ez'. done.
    + pose proof (from_present q Hq) as Hqp. apply p1_path in Hr as [Hr Hxd]; [|done]. split; [done|]. exists q. split; [done|].
      apply elem_of_AncestorsOf; [done|]. split; [by apply p1_present in Hqp as [? _]|done].
  - etransitivity; [|exact (proj1 (p1_limits L w))]. apply inj_le, subseteq_size. intros x.
    rewrite !elem_of_difference, !elem_of_AncestorsOf by done. intros [[Hp Hr] Hx].
    apply arrival_present in Hp as [?|Hp]; [done|]. apply arrival_path in Hr as [Hr|[? _]]; [|done]. done.
Qed.

Lemma arrival_descendants w : limits p -> Z.of_nat (size (DescendantsOf (enter_pool e from p1) w ∖ {[w]})) <= MAX_MEMPOOL_DESCENDANTS.
Proof.
  intros L. pose proof arrival_inv as I2. pose proof (proj1 (unlink_all_spec (iter doomed) p I)) as I1.
  assert (forall x, x ∈ DescendantsOf (enter_pool e from p1) w ∖ {[w]} -> x ∈ DescendantsOf p1 w ∖ {[w]} \/
    (x = ent_wtxid e /\ w ∈ surviving_ancestors p doomed from)) as Hcases.
  { intros x. rewrite !elem_of_difference, !elem_of_DescendantsOf, not_elem_of_singleton by done. intros [[Hp Hr] Hx].
    apply arrival_present in Hp as [->|Hp].
    { exfalso. apply rtc_inv in Hr as [?|(y & Hy & _)]; [done|]. by apply arrival_no_child in Hy. }
    apply arrival_path in Hr as [Hr|[-> [?|(q & Hq & Hr)]]]; [by left|done|]. right. split; [done|].
    apply elem_of_surviving. pose proof (from_present q Hq) as Hqp. apply p1_path in Hr as [Hr Hwd]; [|done].
    split; [done|]. exists q. split; [done|]. apply elem_of_AncestorsOf; [done|]. split; [by apply p1_present in Hqp as [? _]|done]. }
  destruct (decide (w ∈ surviving_ancestors p doomed from)) as [Hw|Hw].
  - pose proof (pl_descendants _ _ _ _ _ _ P w Hw) as Hd.
    assert (size (DescendantsOf (enter_pool e from p1) w ∖ {[w]}) <= size ({[ent_wtxid e]} ∪ (DescendantsOf p w ∖ {[w]} ∖ doomed)))%nat as Hs.
    { apply subseteq_size. intros x [Hx|[-> _]]%Hcases; [|set_solver].
      apply elem_of_difference in Hx as [[Hp Hr]%elem_of_DescendantsOf Hxw]; [|done].
      pose proof (descendant_present _ _ _ I1 Hr Hp) as [_ Hxd]%p1_present.
      apply elem_of_union_r. rewrite !elem_of_difference, elem_of_DescendantsOf by done. split_and!; try done.
      - by apply p1_present in Hp as [? _].
      - by eapply thinner_reach; [apply unlink_all_thinner|]. }
    pose proof (size_union_alt {[ent_wtxid e]} (DescendantsOf p w ∖ {[w]} ∖ doomed)) as Hu. rewrite size_singleton in Hu.
    assert (size ((DescendantsOf p w ∖ {[w]} ∖ doomed) ∖ {[ent_wtxid e]}) <= size (DescendantsOf p w ∖ {[w]} ∖ doomed))%nat
      by (apply subseteq_size; set_solver). lia.
  - etransitivity; [|exact (proj2 (p1_limits L w))]. apply inj_le, subseteq_size. intros x [Hx|[_ ?]]%Hcases; done.
Qed.

Lemma arrival_limits : limits p -> limits (enter_pool e from p1).
Proof. intros L w. split; [by apply arrival_ancestors|by apply arrival_descendants]. Qed.
End arrival.
(** *** Acceptance *)

Lemma shrinks_thinner p p' : pool_inv p -> pool_inv p' -> shrinks p p' -> thinner p p'.
Proof.
  intros I I' S. split.
  - intros w [y Ey]. destruct (S w y Ey) as (x & Ex & _). eauto.
  - intros a b (x & Ex & Hb). destruct (pi_down _ I' a x b Ex Hb) as (y & Ey & Ha).
    destruct (S b y Ey) as (z & Ez & _ & Ep). rewrite Ep in Ha. destruct (pi_up _ I b z a Ez Ha) as (q & Eq & Hq & _). by exists q.
Qed.

(** Every input that names a transaction of the pool has its link. *)
Definition links_complete (p : Mempool) : Prop := forall w x o q,
  entries_ p !! w = Some x -> o ∈ outpoints_of (entry x) -> by_txid_ p !! op_txid o = Some q -> q ∈ parents x.

(** The state every operation keeps. *)
Record consistent (p : Mempool) : Prop := {
  co_inv : pool_inv p;
  co_weight : total_weight_ p <= MAX_MEMPOOL_WEIGHT;
  co_limits : limits p }.

(** The same with every link there is to have: what the operations keep as long as no
    transaction arrives after one that spends it. *)
Record sound (p : Mempool) : Prop := {
  so_inv : pool_inv p;
  so_weight : total_weight_ p <= MAX_MEMPOOL_WEIGHT;
  so_limits : limits p;
  so_links : links_complete p }.

Lemma sound_consistent p : sound p -> consistent p.
Proof. by intros []. Qed.

Lemma consistent_sound p : consistent p -> links_complete p -> sound p.
Proof. by intros []. Qed.

Lemma weight_nonneg p : pool_inv p -> 0 <= total_weight_ p.
Proof.
  intros I. rewrite (pi_weight _ I). apply msum_nonneg. intros w e E%(contents_ok _ _ _ I). unfold entry_ok in E. lia.
Qed.

(** The totals after a list of ids went. *)
Lemma unlink_all_totals ids : forall p, pool_inv p -> NoDup ids ->
  total_weight_ (unlink_all ids p) = total_weight_ p - sum_in ent_weight (contents p) ids /\
  total_fees_ (unlink_all ids p) = total_fees_ p - sum_in ent_fee (contents p) ids.
Proof.
  induction ids as [|w ids IH]; intros p I Hd; [unfold sum_in; cbn; lia|]. apply NoDup_cons in Hd as [Hw Hd].
  change (unlink_all (w :: ids) p) with (unlink_all ids (Unlink w p)).
  destruct (IH (Unlink w p) (Unlink_inv p w I) Hd) as [-> ->]. rewrite Unlink_contents, !sum_in_delete by done.
  destruct (Unlink_total p w I) as [-> ->]. unfold sum_in at 2 4. cbn [map]. rewrite !zsum_cons. fold (sum_in ent_weight (contents p) ids) (sum_in ent_fee (contents p) ids).
  rewrite (pi_weight _ I), (pi_fees _ I). destruct (contents p !! w) as [e|] eqn:E.
  - rewrite !(msum_delete _ (contents p) w e E). lia.
  - rewrite !delete_id by done. lia.
Qed.

Lemma sum_ids_nonneg f p ids : pool_inv p -> (forall w e, entry_ok w e -> 0 <= f e) -> 0 <= sum_in f (contents p) ids.
Proof.
  intros I Hf. apply zsum_nonneg, Forall_forall. intros z Hz. apply list_elem_of_fmap in Hz as (id & -> & _).
  destruct (contents p !! id) as [e|] eqn:E; [|lia]. eapply Hf. by eapply contents_ok.
Qed.

(** *** Removal only takes away *)

Record leaner (p p' : Mempool) : Prop := {
  le_inv : pool_inv p';
  le_contents : contents p' ⊆ contents p;
  le_child a b : child_of p' a b -> child_of p a b;
  le_parents w x y a : entries_ p !! w = Some x -> entries_ p' !! w = Some y -> a ∈ parents x ->
    is_Some (entries_ p' !! a) -> a ∈ parents y }.

Lemma leaner_refl p : pool_inv p -> leaner p p.
Proof. intros I. split; [done|done|done|]. congruence. Qed.

Lemma leaner_entry p p' w y : leaner p p' -> entries_ p' !! w = Some y ->
  exists x, entries_ p !! w = Some x /\ entry y = entry x.
Proof.
  intros L E. assert (contents p !! w = Some (entry y)) as H'.
  { eapply lookup_weaken; [|apply L]. by rewrite contents_lookup, E. }
  rewrite contents_lookup in H'. destruct (entries_ p !! w) as [x|]; [|done]. injection H' as <-. eauto.
Qed.

Lemma leaner_trans p q r : leaner p q -> leaner q r -> leaner p r.
Proof.
  intros L1 L2. split; [apply L2|etransitivity; [apply L2|apply L1]|intros a b Hab; by apply L1, L2|].
  intros w x z a Ex Ez Ha [u Eu]. destruct (leaner_entry _ _ _ _ L2 Ez) as (y & Ey & _).
  destruct (leaner_entry _ _ _ _ L2 Eu) as (v & Ev & _). eapply (le_parents _ _ L2 w y); [done|done| |by eexists].
  eapply (le_parents _ _ L1 w x); [done|done|done|by eexists].
Qed.

Lemma leaner_thinner p p' : leaner p p' -> thinner p p'.
Proof. intros L. split; [|apply L]. intros w [y Ey]. destruct (leaner_entry _ _ _ _ L Ey) as (x & -> & _). eauto. Qed.

Lemma leaner_txid p p' t w : pool_inv p -> leaner p p' -> by_txid_ p' !! t = Some w -> by_txid_ p !! t = Some w.
Proof.
  intros I L (y & Ey & Ht)%(pi_txid _ (le_inv _ _ L)). destruct (leaner_entry _ _ _ _ L Ey) as (x & Ex & E).
  apply (pi_txid _ I). exists x. by rewrite <- E.
Qed.

Lemma leaner_spent p p' o w : pool_inv p -> leaner p p' -> spent_by_ p' !! o = Some w -> spent_by_ p !! o = Some w.
Proof.
  intros I L (y & Ey & Ht)%(pi_spent _ (le_inv _ _ L)). destruct (leaner_entry _ _ _ _ L Ey) as (x & Ex & E).
  apply (pi_spent _ I). exists x. by rewrite <- E.
Qed.

Lemma msum_subseteq f m : forall m', m ⊆ m' -> (forall w e, m' !! w = Some e -> 0 <= f e) -> msum f m <= msum f m'.
Proof.
  induction m as [|w e m Hw IH] using map_ind; intros m' Hs Hf; [rewrite msum_empty; by apply msum_nonneg|].
  assert (m' !! w = Some e) as E by (eapply lookup_weaken; [apply lookup_insert_eq|done]).
  rewrite msum_insert, (msum_delete f m' w e E) by done. apply Z.add_le_mono_l, IH.
  - apply map_subseteq_spec. intros k x Hk. assert (k <> w) by congruence. rewrite lookup_delete_ne by done.
    eapply lookup_weaken; [|exact Hs]. by rewrite lookup_insert_ne.
  - intros k x [_ Hk]%lookup_delete_Some. by eapply Hf.
Qed.

Lemma leaner_links p p' : pool_inv p -> leaner p p' -> links_complete p -> links_complete p'.
Proof.
  intros I L C w y o q Ey Ho Hq. destruct (leaner_entry _ _ _ _ L Ey) as (x & Ex & E). rewrite E in Ho.
  eapply (le_parents _ _ L); [done|done| |]; [by eapply C; [done|done|eapply leaner_txid]|].
  apply (pi_txid _ (le_inv _ _ L)) in Hq as (z & Ez & _). eauto.
Qed.

Lemma leaner_consistent p p' : consistent p -> leaner p p' -> consistent p'.
Proof.
  intros S L. split; [apply L| |].
  - etransitivity; [|apply (co_weight _ S)]. rewrite (pi_weight _ (co_inv _ S)), (pi_weight _ (le_inv _ _ L)).
    apply msum_subseteq; [apply L|]. intros w e E%(contents_ok _ _ _ (co_inv _ S)). unfold entry_ok in E. lia.
  - eapply thinner_limits; [apply S|apply L|by apply leaner_thinner|apply S].
Qed.

Lemma leaner_sound p p' : sound p -> leaner p p' -> sound p'.
Proof.
  intros S L. apply consistent_sound; [by eapply leaner_consistent; [apply sound_consistent|]|].
  eapply leaner_links; [apply S|done|apply S].
Qed.

Lemma unlink_all_leaner ids p : pool_inv p -> leaner p (unlink_all ids p).
Proof.
  intros I. destruct (unlink_all_spec ids p I) as (I' & He & _). split; [done| |by apply unlink_all_thinner|].
  - apply map_subseteq_spec. intros k e. rewrite !contents_lookup, He. destruct (decide _); [done|].
    by destruct (entries_ p !! k).
  - intros w x y a Ex. rewrite !He, Ex. destruct (decide _); [done|]. intros [= <-] Ha [z Ez]. destruct (decide (a ∈ ids)); [done|].
    cbn. rewrite elem_of_difference, elem_of_list_to_set. done.
Qed.

Lemma shrinks_leaner p p' : pool_inv p -> pool_inv p' -> shrinks p p' -> leaner p p'.
Proof.
  intros I I' S. split; [done| |by apply shrinks_thinner|].
  - apply map_subseteq_spec. intros k e. rewrite !contents_lookup. destruct (entries_ p' !! k) as [y|] eqn:Ey; [|done].
    destruct (S k y Ey) as (x & -> & E & _). cbn. by rewrite E.
  - intros w x y a Ex Ey Ha _. destruct (S w y Ey) as (x' & Ex' & _ & ->). congruence.
Qed.

Lemma Trim_leaner target p : pool_inv p -> 0 <= target -> leaner p (Trim target p).2.
Proof. intros I Ht. destruct (Trim_spec target p I Ht) as (p' & -> & I' & S & _). by apply shrinks_leaner. Qed.

Lemma RemoveRecursive_leaner w p : pool_inv p -> leaner p (RemoveRecursive w p).2.
Proof. intros I. by apply unlink_all_leaner. Qed.

Section acceptance.
Context `{SB : Signature.SignatureBackends}.

(** What [AcceptCoins] does once nothing is left to refuse. *)
Definition settle_in (e : Entry) (doomed from : gset bytes) (p : Mempool) : Mempool :=
  let p := enter_pool e from (unlink_all (iter doomed) p) in
  if MAX_MEMPOOL_WEIGHT <? total_weight_ p then (Trim MAX_MEMPOOL_WEIGHT p).2 else p.

Definition offered (tx : Transaction) (fee now : Z) : Entry := mkEntry tx (Txid tx) (Wtxid tx) fee (Transaction_Weight tx) now.

(** The tests before the placement passed. *)
Record admissible (params : ChainParams) (tx : Transaction) (coins : list Coin) (h fee : Z) (p : Mempool) : Prop := {
  ad_new : entries_ p !! Wtxid tx = None;
  ad_shape : transaction_valid params tx;
  ad_spend : spend_valid params tx coins h fee;
  ad_weight : 0 < Transaction_Weight tx <= MAX_MEMPOOL_WEIGHT;
  ad_fee : Transaction_Weight tx <= fee }.

Lemma shape_unreserved params tx : IsCoinbase tx = false -> transaction_valid params tx ->
  Forall (fun w => Forall (fun s => sig_scheme s <> SCHEME_RESERVED) (wit_signatures w)) (tx_witnesses tx).
Proof.
  intros Hc (_ & _ & _ & _ & Hf & _). rewrite Hc in Hf. destruct Hf as (_ & _ & _ & _ & F).
  eapply Forall_impl; [exact F|]. by intros w (_ & ? & _).
Qed.

Lemma AcceptCoins_cases tx coins h now params p :
  (exists r, AcceptCoins tx coins h now params p = (Refused r, p)) \/
  exists fee doomed from, admissible params tx coins h fee p /\ placed p tx fee (Transaction_Weight tx) doomed from /\
    let p' := settle_in (offered tx fee now) doomed from p in
    AcceptCoins tx coins h now params p =
      (if bool_decide (is_Some (entries_ p' !! Wtxid tx)) then Accepted (Wtxid tx) else refused PoolFull, p').
Proof.
  unfold AcceptCoins, refused. destruct (IsCoinbase tx) eqn:Ec; [by left; eexists|].
  destruct (bool_decide _) eqn:Ew; [by left; eexists|]. destruct (CheckTransaction tx params) as [[]|] eqn:Es; [|by left; eexists].
  destruct (CheckTransactionInputs tx coins h params) as [fee|] eqn:Ei; [|by left; eexists].
  destruct (Z.eqb_spec (Transaction_Weight tx) 0); [by left; eexists|].
  destruct (Z.ltb_spec MAX_MEMPOOL_WEIGHT (Transaction_Weight tx)); [by left; eexists|].
  destruct (Z.ltb_spec fee (Transaction_Weight tx * MIN_RELAY_FEERATE)); [by left; eexists|].
  destruct (placement _ _ _ _) as [r|[doomed from]] eqn:Ep; [by left; eexists|]. right. exists fee, doomed, from.
  apply CheckTransaction_Ok in Es. apply placement_inr in Ep. split_and!; [split|done|].
  - apply eq_None_not_Some. by apply bool_decide_eq_false in Ew.
  - done.
  - apply CheckTransactionInputs_Ok in Ei; [done|]. by eapply shape_unreserved.
  - assert (0 <= Transaction_Weight tx) by (apply wrapu_range; lia). lia.
  - unfold MIN_RELAY_FEERATE in *. lia.
  - clear Ew. cbv zeta. unfold settle_in, offered. by case_bool_decide.
Qed.

Lemma offered_ok params tx coins h fee p now : admissible params tx coins h fee p -> entry_ok (Wtxid tx) (offered tx fee now).
Proof.
  intros [Hn Hs Hv Hw Hf]. destruct Hs as (Hin & _). destruct Hv as (Hc & _ & _ & _ & [F1 B1] & [F2 B2] & E & ? & _).
  apply valid_nonneg in F2. unfold entry_ok, offered. cbn. split_and!; done || lia.
Qed.

(** Nothing in the pool already spends an output of the arrival. *)
Definition unanticipated (p : Mempool) (tx : Transaction) : Prop := forall o,
  op_txid o = Txid tx -> ~ spends tx o /\ spent_by_ p !! o = None.

Section settled.
Context (params : ChainParams) (tx : Transaction) (coins : list Coin) (h fee now : Z) (p : Mempool) (doomed from : gset bytes).
Context (S : consistent p) (B : binds_txid p tx) (A : admissible params tx coins h fee p).
Context (P : placed p tx fee (Transaction_Weight tx) doomed from).
#[local] Notation e := (offered tx fee now).
#[local] Notation p2 := (enter_pool e from (unlink_all (iter doomed) p)).

Lemma settled_inv : pool_inv p2 /\ limits p2.
Proof.
  pose proof (offered_ok _ _ _ _ _ _ now A) as Hok. split.
  - apply arrival_inv; [apply S|done|done|apply A|done].
  - apply arrival_limits; [apply S|done|done|apply A|done|apply S].
Qed.

Lemma settled_self : entries_ p2 !! Wtxid tx = Some (mkInternal e ∅ from).
Proof.
  apply (admitted_self e from). apply arrival_room; [apply S|done|by eapply offered_ok|apply A|done].
Qed.

Lemma settled_links : links_complete p -> unanticipated p tx -> links_complete p2.
Proof.
  intros C0 U. pose proof (co_inv _ S) as I. assert (room_for e from (unlink_all (iter doomed) p)) as R
    by (apply arrival_room; [done|done|by eapply offered_ok|apply A|done]).
  pose proof (unlink_all_leaner (iter doomed) p I) as L. pose proof (leaner_links _ _ I L C0) as C.
  intros w y o q Ey Ho Hq. unfold enter_pool in Hq. cbn [by_txid_] in Hq.
  apply (admitted_cases _ _ _ R) in Ey as [[-> ->]|(Hw & x & Ex & Ee & Ep & _)].
  - destruct (decide (op_txid o = Txid tx)) as [Et|Et]; [by destruct (U o Et) as [? _]|]. rewrite lookup_insert_ne in Hq by done.
    cbn. rewrite (pl_from _ _ _ _ _ _ P). apply elem_of_pool_parents. exists o. split; [done|].
    exact (leaner_txid _ _ _ _ I L Hq).
  - rewrite Ee in Ho. rewrite Ep. destruct (decide (op_txid o = Txid tx)) as [Et|Et].
    + destruct (U o Et) as [_ Hn]. assert (spent_by_ p !! o = Some w); [|congruence].
      apply (leaner_spent _ _ _ _ I L). apply (pi_spent _ (le_inv _ _ L)). eauto.
    + rewrite lookup_insert_ne in Hq by done. by eapply C.
Qed.

Lemma settle_in_kept : consistent (settle_in e doomed from p) /\ shrinks p2 (settle_in e doomed from p) /\
  (links_complete p -> unanticipated p tx -> links_complete (settle_in e doomed from p)).
Proof.
  destruct settled_inv as [I2 L2]. unfold settle_in. destruct (Z.ltb_spec MAX_MEMPOOL_WEIGHT (total_weight_ p2)) as [Hw|Hw].
  - destruct (Trim_spec MAX_MEMPOOL_WEIGHT p2 I2 ltac:(done)) as (p3 & -> & I3 & S3 & W3). split_and!; [|done|].
    + split; [done|done|]. eapply thinner_limits; [exact I2|done|by apply shrinks_thinner|done].
    + intros C U. eapply leaner_links; [exact I2|by apply shrinks_leaner|by apply settled_links].
  - split_and!; [by split|apply shrinks_refl|apply settled_links].
Qed.

(** The fee and the weight it brings, less what it displaces. *)
Lemma settled_totals :
  total_fees_ p2 = total_fees_ p - sum_over ent_fee p (iter doomed) + fee /\
  total_weight_ p2 <= total_weight_ p + Transaction_Weight tx.
Proof.
  pose proof (co_inv _ S) as I. destruct (unlink_all_totals (iter doomed) p I (NoDup_iter doomed)) as [W F].
  unfold enter_pool. cbn [total_fees_ total_weight_]. rewrite W, F, sum_over_in. cbn. split; [done|].
  assert (0 <= sum_in ent_weight (contents p) (iter doomed)); [|lia].
  apply sum_ids_nonneg; [done|]. intros w x Hx. unfold entry_ok in Hx. lia.
Qed.

(** Where there is room, only the displaced go. *)
Lemma settled_kept k : total_weight_ p + Transaction_Weight tx <= MAX_MEMPOOL_WEIGHT -> is_Some (entries_ p !! k) ->
  entries_ (settle_in e doomed from p) !! k = None -> k ∈ doomed.
Proof.
  intros Hw Hk. unfold settle_in. destruct settled_totals as [_ HW].
  destruct (Z.ltb_spec MAX_MEMPOOL_WEIGHT (total_weight_ p2)); [lia|]. intros Hn.
  destruct (decide (k ∈ doomed)) as [|Hd]; [done|]. exfalso.
  assert (is_Some (entries_ (unlink_all (iter doomed) p) !! k)) as [x Ex] by (apply p1_present; [apply S|done]).
  apply (admitted_keeps e from) in Ex as (y & Ey & _); [congruence|].
  apply arrival_room; [apply S|done|by eapply offered_ok|apply A|done].
Qed.
End settled.
End acceptance.
(** *** Blocks *)

Lemma remove_confirmed_spec txs : forall n p, pool_inv p ->
  leaner p (remove_confirmed txs n p).2 /\ forall tx, tx ∈ txs -> by_txid_ (remove_confirmed txs n p).2 !! Txid tx = None.
Proof.
  induction txs as [|tx txs IH]; intros n p I; cbn [remove_confirmed]; [split; [by apply leaner_refl|set_solver]|].
  destruct (by_txid_ p !! Txid tx) as [w|] eqn:E.
  - pose proof (unlink_all_leaner [w] p I) as L. change (unlink_all [w] p) with (Remove w p) in L.
    destruct (IH (n + 1) (Remove w p) (le_inv _ _ L)) as [L' Hn]. split; [by eapply leaner_trans|].
    intros t [->|Ht]%elem_of_cons; [|by apply Hn]. apply eq_None_not_Some. intros [v Ev].
    apply (leaner_txid _ _ _ _ (le_inv _ _ L) L') in Ev. apply Unlink_by_txid in Ev as [Ev Hv]; [|done]. congruence.
  - destruct (IH n p I) as [L Hn]. split; [done|]. intros t [->|Ht]%elem_of_cons; [|by apply Hn].
    apply eq_None_not_Some. intros [v Ev]. apply (leaner_txid _ _ _ _ I L) in Ev. congruence.
Qed.

Lemma remove_spenders_spec os : forall n p, pool_inv p ->
  leaner p (remove_spenders os n p).2 /\ forall o, o ∈ os -> spent_by_ (remove_spenders os n p).2 !! o = None.
Proof.
  induction os as [|o os IH]; intros n p I; cbn [remove_spenders]; [split; [by apply leaner_refl|set_solver]|].
  destruct (spent_by_ p !! o) as [w|] eqn:E.
  - destruct (RemoveRecursive_spec w p I) as (p1 & Er & I1 & S1 & D1). rewrite Er.
    assert (leaner p p1) as L1 by (by apply shrinks_leaner).
    destruct (IH (n + Z.of_nat (size (DescendantsOf p w))) p1 I1) as [L' Hn]. split; [by eapply leaner_trans|].
    intros k [->|Hk]%elem_of_cons; [|by apply Hn]. apply eq_None_not_Some. intros [v Ev].
    apply (leaner_spent _ _ _ _ I1 L') in Ev. pose proof (leaner_spent _ _ _ _ I L1 Ev) as Ev'. assert (v = w) as -> by congruence.
    apply (pi_spent _ I1) in Ev as (x & Ex & _). apply elem_of_dom_2 in Ex. rewrite D1 in Ex.
    apply elem_of_difference in Ex as [Hd Hn']. destruct Hn'. apply DescendantsOf_self; [done|]. by apply elem_of_dom.
  - destruct (IH n p I) as [L Hn]. split; [done|]. intros k [->|Hk]%elem_of_cons; [|by apply Hn].
    apply eq_None_not_Some. intros [v Ev]. apply (leaner_spent _ _ _ _ I L) in Ev. congruence.
Qed.

Lemma RemoveForBlock_spec block p : pool_inv p -> let p' := (RemoveForBlock block p).2 in
  leaner p p' /\ (forall tx, tx ∈ blk_transactions block -> by_txid_ p' !! Txid tx = None) /\
  forall o, o ∈ block_outpoints (blk_transactions block) -> spent_by_ p' !! o = None.
Proof.
  intros I. unfold RemoveForBlock. destruct (remove_confirmed_spec (blk_transactions block) 0 p I) as [L1 Hn].
  destruct (remove_confirmed _ _ _) as [n p1]. cbn [snd] in L1, Hn. 
  destruct (remove_spenders_spec (block_outpoints (blk_transactions block)) n p1 (le_inv _ _ L1)) as [L2 Hs].
  split_and!; [by eapply leaner_trans| |done]. intros tx Htx. apply eq_None_not_Some. intros [v Ev].
  apply (leaner_txid _ _ _ _ (le_inv _ _ L1) L2) in Ev. rewrite (Hn tx Htx) in Ev. done.
Qed.
(** *** Reorganisations *)

Section reorg.
Context `{SB : Signature.SignatureBackends} {V : Type} `{CV : CoinsView V}.
Context (base : V) (h : Z) (params : ChainParams).

(** An entry that kept its parents resolves as it did. *)
Lemma resolve_stable p p' w x : pool_inv p -> pool_inv p' -> links_complete p -> shrinks p p' ->
  entries_ p' !! w = Some x -> ResolveInputs (ent_tx (entry x)) base h p' = ResolveInputs (ent_tx (entry x)) base h p.
Proof.
  intros I I' C S Ex. unfold ResolveInputs.
  assert (forall i, i ∈ tx_inputs (ent_tx (entry x)) -> resolve base h p' i = resolve base h p i) as Hi.
  { intros i Hi. unfold resolve. destruct (GetCoin base (in_outpoint i)); [done|].
    enough (FindByTxid p' (op_txid (in_outpoint i)) = FindByTxid p (op_txid (in_outpoint i))) as -> by done.
    unfold FindByTxid. destruct (S w x Ex) as (x0 & Ex0 & E & Ep).
    destruct (by_txid_ p !! op_txid (in_outpoint i)) as [q|] eqn:Eq.
    - assert (q ∈ parents x) as Hq by (rewrite Ep; apply (C w x0 (in_outpoint i)); [done| |done];
        rewrite <- E; by apply list_elem_of_fmap_2).
      destruct (pi_up _ I' w x q Ex Hq) as (y & Ey & _). destruct (S q y Ey) as (y0 & Ey0 & Ee & _).
      apply (pi_txid _ I) in Eq as (y1 & Ey1 & Et). assert (y1 = y0) as -> by congruence.
      assert (by_txid_ p' !! op_txid (in_outpoint i) = Some q) as -> by (apply (pi_txid _ I'); exists y; by rewrite Ee).
      unfold Find. cbn. rewrite Ey, Ey0. cbn. by rewrite Ee.
    - destruct (by_txid_ p' !! op_txid (in_outpoint i)) as [q|] eqn:Eq'; [|done].
      apply (leaner_txid p p') in Eq'; [congruence|done|by apply shrinks_leaner]. }
  induction (tx_inputs (ent_tx (entry x))) as [|i l IH]; [done|]. cbn [resolve_all]. rewrite (Hi i) by left.
  rewrite IH; [done|]. intros j Hj. apply Hi. by right.
Qed.

(** An entry of the pool that still holds on the new chain. *)
Definition good (p : Mempool) (w : bytes) : Prop :=
  exists x, entries_ p !! w = Some x /\ holds (ent_tx (entry x)) base h params p = true.

Lemma good_stable p p' w : pool_inv p -> pool_inv p' -> links_complete p -> shrinks p p' ->
  is_Some (entries_ p' !! w) -> good p' w <-> good p w.
Proof.
  intros I I' C S [x Ex]. destruct (S w x Ex) as (x0 & Ex0 & E & _). pose proof (resolve_stable p p' w x I I' C S Ex) as R.
  split.
  - intros (y & Ey & Hy). assert (y = x) as -> by congruence. exists x0. split; [done|]. unfold holds in *.
    by rewrite R, E in Hy.
  - intros (y & Ey & Hy). assert (y = x0) as -> by congruence. exists x. split; [done|]. unfold holds in *.
    by rewrite R, E.
Qed.

(** What the loop over the candidates carries: the start [p0], what is done, and
    the pool now. *)
Record sweeping (p0 : Mempool) (done : list bytes) (p : Mempool) : Prop := {
  sw_inv : pool_inv p;
  sw_shrinks : shrinks p0 p;
  sw_good w : w ∈ done -> is_Some (entries_ p !! w) -> good p0 w;
  sw_gone w : is_Some (entries_ p0 !! w) -> entries_ p !! w = None -> exists a, rtc (child_of p0) a w /\ ~ good p0 a }.

Lemma sweep_step p0 seen w p x : pool_inv p0 -> links_complete p0 -> sweeping p0 seen p -> entries_ p !! w = Some x ->
  holds (ent_tx (entry x)) base h params p = false -> sweeping p0 (seen ++ [w]) (RemoveRecursive w p).2.
Proof.
  intros I0 C W Ex Hh. destruct (RemoveRecursive_spec w p (sw_inv _ _ _ W)) as (p1 & -> & I1 & S1 & D1). cbn [snd].
  assert (thinner p0 p) as T by (apply shrinks_thinner; [done|apply W|apply W]).
  split; [done|by eapply shrinks_trans; [apply W|]| |].
  - intros k Hk Hp. assert (is_Some (entries_ p !! k) /\ k ∉ DescendantsOf p w) as [Hkp Hkd]
      by (rewrite <- !elem_of_dom in *; rewrite D1 in Hp; by apply elem_of_difference in Hp).
    apply elem_of_app in Hk as [Hk| ->%list_elem_of_singleton]; [by apply (sw_good _ _ _ W)|].
    destruct Hkd. apply DescendantsOf_self; [apply W|done].
  - intros k H0 Hn. destruct (entries_ p !! k) as [y|] eqn:Ey; [|by apply (sw_gone _ _ _ W)].
    exists w. assert (k ∈ DescendantsOf p w) as Hk.
    { destruct (decide (k ∈ DescendantsOf p w)) as [|Hnd]; [done|]. apply eq_None_not_Some in Hn. destruct Hn.
      apply elem_of_dom. rewrite D1. apply elem_of_difference. split; [by apply elem_of_dom_2 in Ey|done]. }
    apply elem_of_DescendantsOf in Hk as [_ Hr]; [|apply W]. split; [by eapply thinner_reach|].
    intros Hg. apply (good_stable p0 p) in Hg as (z & Ez & Hz); [|done|apply W|done|apply W|by eexists]. congruence.
Qed.

Lemma sweep_keep p0 seen w p : pool_inv p0 -> links_complete p0 -> sweeping p0 seen p ->
  (is_Some (entries_ p !! w) -> good p w) -> sweeping p0 (seen ++ [w]) p.
Proof.
  intros I0 C W Hg. split; [apply W|apply W| |apply W]. intros k Hk Hp.
  apply elem_of_app in Hk as [Hk| ->%list_elem_of_singleton]; [by apply (sw_good _ _ _ W)|].
  apply (good_stable p0 p); [done|apply W|done|apply W|done|by apply Hg].
Qed.

Lemma reorg_loop_spec p0 todo : pool_inv p0 -> links_complete p0 -> forall seen n p, sweeping p0 seen p ->
  sweeping p0 (seen ++ todo) (reorg_loop todo base h params n p).2.
Proof.
  intros I0 C. induction todo as [|w todo IH]; intros seen n p W; cbn [reorg_loop]; [by rewrite app_nil_r|].
  replace (seen ++ w :: todo) with ((seen ++ [w]) ++ todo) by (by rewrite <- app_assoc).
  unfold Find. destruct (entries_ p !! w) as [x|] eqn:Ex; cbn [fmap option_fmap option_map].
  - destruct (holds _ _ _ _ _) eqn:Hh.
    + apply IH, sweep_keep; [done|done|done|]. intros _. by exists x.
    + pose proof (sweep_step p0 seen w p x I0 C W Ex Hh) as W1. destruct (RemoveRecursive w p) as [k p1]. by apply IH.
  - apply IH, sweep_keep; [done|done|done|]. intros [? ?]. congruence.
Qed.

(** The sweep keeps the entries whose every ancestor still holds, in whatever order
    it walks. *)
Lemma RemoveForReorg_spec p : pool_inv p -> links_complete p -> let p' := (RemoveForReorg base h params p).2 in
  leaner p p' /\
  (forall w, is_Some (entries_ p' !! w) <-> is_Some (entries_ p !! w) /\ forall a, rtc (child_of p) a w -> good p a) /\
  (forall w, is_Some (entries_ p' !! w) -> good p' w).
Proof.
  intros I C p'. assert (sweeping p (Wtxids p) p') as W.
  { apply (reorg_loop_spec p (Wtxids p) I C [] 0 p). split; [done|apply shrinks_refl|set_solver|].
    intros w [x Ex] En. congruence. }
  assert (leaner p p') as L by (apply shrinks_leaner; [done|apply W|apply W]).
  assert (forall w, is_Some (entries_ p' !! w) -> good p w) as Hg.
  { intros w Hw. apply (sw_good _ _ _ W); [|done]. apply elem_of_Wtxids. by apply (leaner_thinner _ _ L). }
  split_and!; [done| |].
  - intros w. split.
    + intros Hw. split; [by apply (leaner_thinner _ _ L)|]. intros a Hr. apply Hg. revert Hw.
      induction Hr as [|a b c (x & Ex & Hb) _ IH]; [done|]. intros Hc. destruct (IH Hc) as [y Ey].
      destruct (sw_shrinks _ _ _ W b y Ey) as (y0 & Ey0 & _ & Ep). destruct (pi_down _ I a x b Ex Hb) as (y1 & Ey1 & Ha).
      assert (y1 = y0) as -> by congruence. rewrite <- Ep in Ha. destruct (pi_up _ (sw_inv _ _ _ W) b y a Ey Ha) as (z & Ez & _). eauto.
    + intros [Hw Ha]. destruct (entries_ p' !! w) as [y|] eqn:Ey; [by eexists|].
      destruct (sw_gone _ _ _ W w Hw Ey) as (a & Hr & Hn). destruct Hn. by apply Ha.
  - intros w Hw. apply (good_stable p p'); [done|apply W|done|apply W|done|by apply Hg].
Qed.
End reorg.
(** *** Every operation keeps the pool sound *)

Section steps.
Context `{SB : Signature.SignatureBackends} {V : Type} `{CV : CoinsView V}.

Lemma reorg_loop_leaner base h params todo : forall n p, pool_inv p -> leaner p (reorg_loop todo (base : V) h params n p).2.
Proof.
  induction todo as [|w todo IH]; intros n p I; cbn [reorg_loop]; [by apply leaner_refl|].
  destruct (Find p w) as [e|]; [|by apply IH]. destruct (holds _ _ _ _ _); [by apply IH|].
  pose proof (RemoveRecursive_leaner w p I) as L. destruct (RemoveRecursive w p) as [k p1]. cbn [snd] in L.
  eapply leaner_trans; [exact L|apply IH, L].
Qed.

(** What an offer of a transaction and its coins comes to. *)
Definition offer_outcome (tx : Transaction) (coins : list Coin) (h now : Z) (params : ChainParams) (p : Mempool)
    (r : Offer) (p' : Mempool) : Prop :=
  match r with
  | Refused rej => p' = p \/ reason rej = PoolFull
  | Accepted w => w = Wtxid tx /\ exists fee doomed from, admissible params tx coins h fee p /\
      placed p tx fee (Transaction_Weight tx) doomed from /\ p' = settle_in (offered tx fee now) doomed from p /\
      Find p' w = Some (offered tx fee now) /\ forall o, spends tx o -> spent_by_ p' !! o = Some w
  end.

Lemma AcceptCoins_kept tx coins h now params p r p' : consistent p -> binds_txid p tx ->
  AcceptCoins tx coins h now params p = (r, p') ->
  consistent p' /\ (links_complete p -> unanticipated p tx -> links_complete p') /\ offer_outcome tx coins h now params p r p'.
Proof.
  intros S B. destruct (AcceptCoins_cases tx coins h now params p) as [[rej ->]|(fee & doomed & from & A & P & E)].
  { intros [= <- <-]. split; [done|]. split; [done|]. by left. }
  cbv zeta in E. rewrite E. destruct (settle_in_kept _ _ _ _ _ now _ _ _ S B A P) as (S' & Hsh & C').
  set (q := settle_in _ _ _ _) in *. intros [= <- <-]. split; [done|]. split; [done|]. case_bool_decide as Hb; [|by right].
  destruct Hb as [x Ex]. destruct (Hsh _ _ Ex) as (y & Ey & Ee & _).
  rewrite (settled_self _ _ _ _ _ now _ _ _ S B A P) in Ey. injection Ey as <-.
  split; [done|]. exists fee, doomed, from. split_and!; try done.
  - unfold Find. rewrite Ex. cbn. by rewrite Ee.
  - intros o Ho. apply (pi_spent _ (co_inv _ S')). exists x. split; [done|]. by rewrite Ee.
Qed.

Lemma Accept_kept tx (base : V) h now params p r p' : consistent p -> binds_txid p tx ->
  Accept tx base h now params p = (r, p') -> consistent p' /\ (links_complete p -> unanticipated p tx -> links_complete p') /\
  match ResolveInputs tx base h p with
  | Some coins => offer_outcome tx coins h now params p r p'
  | None => p' = p /\ exists rej, r = Refused rej
  end.
Proof.
  intros S B. unfold Accept, refused. destruct (IsCoinbase tx).
  { intros [= <- <-]. split; [done|]. split; [done|]. destruct (ResolveInputs _ _ _ _); [by left|eauto]. }
  destruct (CheckTransaction tx params).
  2:{ intros [= <- <-]. split; [done|]. split; [done|]. destruct (ResolveInputs _ _ _ _); [by left|eauto]. }
  destruct (ResolveInputs tx base h p); [by apply AcceptCoins_kept|]. intros [= <- <-]. eauto.
Qed.

Lemma Accept_spec tx (base : V) h now params p r p' : sound p -> binds_txid p tx -> unanticipated p tx ->
  Accept tx base h now params p = (r, p') -> sound p' /\
  match ResolveInputs tx base h p with
  | Some coins => offer_outcome tx coins h now params p r p'
  | None => p' = p /\ exists rej, r = Refused rej
  end.
Proof.
  intros S B U E. apply Accept_kept in E as (S' & C' & O); [|by apply sound_consistent|done]. split; [|done].
  apply consistent_sound; [done|]. apply C'; [apply S|done].
Qed.

(** One call on the pool.  An offer is of a transaction that collides with no other's
    txid; with [fresh] its outputs are moreover not spent in the pool already. *)
Inductive pool_step (fresh : bool) : Mempool -> Mempool -> Prop :=
  | step_accept p tx (base : V) h now params : binds_txid p tx -> (fresh = true -> unanticipated p tx) ->
      pool_step fresh p (Accept tx base h now params p).2
  | step_accept_coins p tx coins h now params : binds_txid p tx -> (fresh = true -> unanticipated p tx) ->
      pool_step fresh p (AcceptCoins tx coins h now params p).2
  | step_remove p w : pool_step fresh p (Remove w p)
  | step_remove_recursive p w : pool_step fresh p (RemoveRecursive w p).2
  | step_block p block : pool_step fresh p (RemoveForBlock block p).2
  | step_reorg p (base : V) h params : pool_step fresh p (RemoveForReorg base h params p).2
  | step_trim p target : 0 <= target -> pool_step fresh p (Trim target p).2.

Lemma new_Mempool_sound : sound new_Mempool.
Proof.
  split; [apply new_Mempool_inv|done| |by intros w x].
  assert (forall (s : gset bytes) w, s = ∅ -> Z.of_nat (size (s ∖ {[w]})) <= 25) as H0.
  { intros s w ->. transitivity (Z.of_nat (size (∅ : gset bytes))); [|by rewrite size_empty]. apply inj_le, subseteq_size. set_solver. }
  intros w. split; by apply H0.
Qed.

(** What a history of calls gives. *)
Definition kept (fresh : bool) (p : Mempool) : Prop := consistent p /\ (fresh = true -> links_complete p).

Lemma leaner_kept fresh p p' : kept fresh p -> leaner p p' -> kept fresh p'.
Proof.
  intros [S C] L. split; [by eapply leaner_consistent|]. intros F. eapply leaner_links; [apply S|done|by apply C].
Qed.

Lemma pool_step_kept fresh p p' : pool_step fresh p p' -> kept fresh p -> kept fresh p'.
Proof.
  intros T K. pose proof K as [S C]. pose proof (co_inv _ S) as I.
  destruct T as [p tx base h now params B U|p tx coins h now params B U|p w|p w|p block|p base h params|p target Ht].
  - destruct (Accept _ _ _ _ _ _) as [r p'] eqn:E. apply Accept_kept in E as (S' & C' & _); [|done..]. split; [done|]. intros F. apply C'; auto.
  - destruct (AcceptCoins _ _ _ _ _ _) as [r p'] eqn:E. apply AcceptCoins_kept in E as (S' & C' & _); [|done..]. split; [done|]. intros F. apply C'; auto.
  - eapply leaner_kept; [done|exact (unlink_all_leaner [w] p I)].
  - eapply leaner_kept; [done|by apply RemoveRecursive_leaner].
  - eapply leaner_kept; [done|by apply RemoveForBlock_spec].
  - eapply leaner_kept; [done|by apply reorg_loop_leaner].
  - eapply leaner_kept; [done|by apply Trim_leaner].
Qed.

Lemma pool_steps_kept fresh p : rtc (pool_step fresh) new_Mempool p -> kept fresh p.
Proof.
  intros R. assert (kept fresh new_Mempool) as K by (split; [apply sound_consistent, new_Mempool_sound|intros _; apply new_Mempool_sound]).
  induction R as [|p q r T _ IH]; [done|]. by eapply IH, pool_step_kept.
Qed.
End steps.
(** *** Selection *)

Lemma insert_ranked_perm c l : insert_ranked c l ≡ₚ c :: l.
Proof.
  induction l as [|x l IH]; cbn [insert_ranked]; [done|]. destruct (ranks_before x c); [|done]. rewrite IH. apply perm_swap.
Qed.

Lemma sort_ranked_perm l : sort_ranked l ≡ₚ l.
Proof. induction l as [|c l IH]; [done|]. change (sort_ranked (c :: l)) with (insert_ranked c (sort_ranked l)). by rewrite insert_ranked_perm, IH. Qed.

Lemma elem_of_ranked p w : w ∈ map cand_id (ranked p) <-> is_Some (entries_ p !! w).
Proof.
  unfold ranked. rewrite sort_ranked_perm, map_map. rewrite <- elem_of_Wtxids. 
  assert (map (fun x => cand_id (let '(fee, weight) := DescendantTotals p x in mkCandidate x fee weight)) (Wtxids p) = Wtxids p) as ->; [|done].
  rewrite <- (map_id (Wtxids p)) at 2. apply map_ext. intros x. by destruct (DescendantTotals p x).
Qed.

Definition ids (l : list Entry) : list bytes := map ent_wtxid l.

(** Every entry of the list is the pool's, after all its parents. *)
Definition parents_first (p : Mempool) (l : list Entry) : Prop := forall pre e post, l = pre ++ e :: post ->
  exists x, entries_ p !! ent_wtxid e = Some x /\ entry x = e /\ forall a, a ∈ parents x -> a ∈ ids pre.

Record sel_ok (p : Mempool) (s : Selection) : Prop := {
  se_order : parents_first p (selected s);
  se_nodup : NoDup (ids (selected s));
  se_included w : w ∈ included s <-> w ∈ ids (selected s);
  se_used : used s = zsum (map ent_weight (selected s)) }.

Lemma parents_first_snoc p l x : parents_first p l -> entries_ p !! ent_wtxid (entry x) = Some x ->
  (forall a, a ∈ parents x -> a ∈ ids l) -> parents_first p (l ++ [entry x]).
Proof.
  intros Hl Ex Hx pre e post E. destruct post as [|e' post _] using rev_ind.
  - apply app_inj_tail in E as [<- <-]. eauto.
  - rewrite app_comm_cons, app_assoc in E. apply app_inj_tail in E as [-> _]. by apply (Hl pre e post).
Qed.

Lemma next_ready_Some p inc package id found rest : (forall w, w ∈ package -> is_Some (entries_ p !! w)) ->
  next_ready p inc package = Some (id, found, rest) ->
  package ≡ₚ id :: rest /\ exists x, found = Some x /\ entries_ p !! id = Some x /\ parents x ⊆ inc.
Proof.
  revert id found rest. induction package as [|w package IH]; intros id found rest Hp; cbn [next_ready]; [done|].
  destruct (Hp w ltac:(left)) as [x Ex]. rewrite Ex. case_bool_decide as Hs; [intros [= <- <- <-]; eauto|].
  destruct (next_ready p inc package) as [[[id' found'] rest']|] eqn:E; [|done]. cbn. intros [= <- <- <-].
  destruct (IH id' found' rest') as [Hperm Hx]; [intros v Hv; apply Hp; by right|done|]. split; [|done].
  rewrite Hperm. apply perm_swap.
Qed.

Lemma next_ready_None p inc package : next_ready p inc package = None ->
  forall w x, w ∈ package -> entries_ p !! w = Some x -> ~ parents x ⊆ inc.
Proof.
  induction package as [|v package IH]; cbn [next_ready]; [set_solver|]. destruct (entries_ p !! v) as [y|] eqn:Ey; [|done].
  case_bool_decide as Hs; [done|]. destruct (next_ready p inc package) as [[[? ?] ?]|] eqn:E; [done|]. intros _ w x.
  intros [->|Hw]%elem_of_cons Ex; [congruence|by eapply IH].
Qed.

(** The lowest of a package by a rank. *)
Lemma least_rank (rank : bytes -> nat) l : l <> [] -> exists w, w ∈ l /\ forall v, v ∈ l -> (rank w <= rank v)%nat.
Proof.
  induction l as [|a l IH]; [done|]. intros _. destruct l as [|b l]; [exists a; set_solver|].
  destruct IH as (w & Hw & Hl); [done|]. destruct (decide (rank a <= rank w)%nat).
  - exists a. split; [by left|]. intros v [->|Hv]%elem_of_cons; [done|]. specialize (Hl v Hv). lia.
  - exists w. split; [by right|]. intros v [->|Hv]%elem_of_cons; [lia|]. by apply Hl.
Qed.

(** Nothing is stuck: some entry of a package closed under parents is ready. *)
Lemma some_ready p inc package : pool_inv p -> package <> [] -> (forall w, w ∈ package -> is_Some (entries_ p !! w)) ->
  (forall w x a, w ∈ package -> entries_ p !! w = Some x -> a ∈ parents x -> a ∈ inc \/ a ∈ package) ->
  next_ready p inc package <> None.
Proof.
  intros I Hne Hp Hc E. destruct (pi_acyclic _ I) as [rank Hr]. destruct (least_rank rank package Hne) as (w & Hw & Hl).
  destruct (Hp w Hw) as [x Ex]. apply (next_ready_None _ _ _ E w x Hw Ex). intros a Ha.
  destruct (Hc w x a Hw Ex Ha) as [|Hin]; [done|]. specialize (Hl a Hin). specialize (Hr w x a Ex Ha). lia.
Qed.

Lemma sum_over_perm f p l l' : l ≡ₚ l' -> sum_over f p l = sum_over f p l'.
Proof. intros E. rewrite !sum_over_in. unfold sum_in. by apply zsum_perm, fmap_Permutation. Qed.

Lemma sum_over_cons f p w x l : entries_ p !! w = Some x -> sum_over f p (w :: l) = f (entry x) + sum_over f p l.
Proof. intros E. rewrite !sum_over_in. unfold sum_in. cbn [map]. rewrite zsum_cons, contents_lookup, E. done. Qed.

Lemma emit_spec p : pool_inv p -> forall fuel package s, sel_ok p s -> length package = fuel -> NoDup package ->
  (forall w, w ∈ package -> is_Some (entries_ p !! w) /\ w ∉ included s) ->
  (forall w x a, w ∈ package -> entries_ p !! w = Some x -> a ∈ parents x -> a ∈ included s \/ a ∈ package) ->
  let s' := emit fuel p package s in
  sel_ok p s' /\ (forall w, w ∈ included s' <-> w ∈ included s \/ w ∈ package) /\
  used s' = used s + sum_over ent_weight p package /\ exists more, selected s' = selected s ++ more.
Proof.
  intros I. induction fuel as [|fuel IH]; intros package s S Hl Hd Hp Hc.
  { apply nil_length_inv in Hl as ->. cbn. split_and!; [done|set_solver|unfold sum_over; cbn; lia|]. exists []. by rewrite app_nil_r. }
  cbn [emit]. destruct (next_ready p (included s) package) as [[[id found] rest]|] eqn:E.
  2:{ apply some_ready in E as []; [done|by intros ->|intros w Hw; by apply Hp|done]. }
  destruct (next_ready_Some _ _ _ _ _ _ (fun w Hw => proj1 (Hp w Hw)) E) as (Hperm & x & -> & Ex & Hx).
  rewrite Hperm in Hd. apply NoDup_cons in Hd as [Hid Hd].
  assert (forall w, w ∈ package <-> w = id \/ w ∈ rest) as Hmem by (intros w; rewrite Hperm; apply elem_of_cons).
  destruct (Hp id ltac:(apply Hmem; by left)) as [_ Hidi]. pose proof (pi_entry _ I id x Ex) as (Ew & _).
  set (s1 := mkSelection _ _ _). assert (sel_ok p s1) as S1.
  { split; cbn.
    - apply parents_first_snoc; [apply S|by rewrite Ew|]. intros a Ha. apply (se_included _ _ S). by apply Hx.
    - unfold ids. rewrite map_app. apply NoDup_app. split_and!; [apply S| |cbn; apply NoDup_singleton].
      intros w Hw ->%list_elem_of_singleton. rewrite Ew in Hw. by apply Hidi, (se_included _ _ S).
    - intros w. unfold ids. rewrite map_app, elem_of_app, elem_of_union, elem_of_singleton, (se_included _ _ S). cbn.
      rewrite list_elem_of_singleton, Ew. tauto.
    - rewrite map_app, zsum_app, (se_used _ _ S). cbn. lia. }
  destruct (IH rest s1 S1) as (S' & Hi & Hu & more & Hm).
  - apply Permutation_length in Hperm. cbn in Hperm. lia.
  - done.
  - intros w Hw. destruct (Hp w ltac:(apply Hmem; by right)) as [Hs Hn]. split; [done|]. cbn. set_solver.
  - intros w y a Hw Ey Ha. destruct (Hc w y a ltac:(apply Hmem; by right) Ey Ha) as [Hin|[->|Hin]%Hmem]; [left; set_solver|left; set_solver|by right].
  - split_and!; [done| | |].
    + intros w. rewrite Hi, Hmem. cbn. set_solver.
    + rewrite Hu, (sum_over_perm _ _ _ _ Hperm), (sum_over_cons _ _ _ x) by done. cbn. lia.
    + exists (entry x :: more). rewrite Hm. cbn. by rewrite <- app_assoc.
Qed.
Lemma sum_over_app f p l k : sum_over f p (l ++ k) = sum_over f p l + sum_over f p k.
Proof. rewrite !sum_over_in. unfold sum_in. by rewrite map_app, zsum_app. Qed.

Lemma sum_over_subset p l k : pool_inv p -> NoDup l -> (forall w, w ∈ l -> w ∈ k) -> sum_over ent_weight p l <= sum_over ent_weight p k.
Proof.
  intros I Hd Hs. destruct (submseteq_Permutation l k) as (r & Hr); [by apply NoDup_submseteq|].
  rewrite (sum_over_perm _ _ _ _ Hr), sum_over_app, (sum_over_in _ _ r).
  assert (0 <= sum_in ent_weight (contents p) r); [|lia]. apply sum_ids_nonneg; [done|]. intros w e He. unfold entry_ok in He. lia.
Qed.

(** The part of an entry's package that is not in a set yet. *)
Definition missing (p : Mempool) (inc : gset bytes) (w : bytes) : list bytes :=
  filter (fun id => id ∉ inc /\ is_Some (entries_ p !! id)) (iter (AncestorsOf p w)).

Lemma elem_of_missing p inc w x : x ∈ missing p inc w <-> (x ∉ inc /\ is_Some (entries_ p !! x)) /\ x ∈ AncestorsOf p w.
Proof. unfold missing. by rewrite list_elem_of_filter, elem_of_iter. Qed.

Lemma NoDup_missing p inc w : NoDup (missing p inc w).
Proof. apply NoDup_filter, NoDup_iter. Qed.

(** One candidate: taken with its ancestors, or left out whole for want of room. *)
Lemma take_package_spec p avail s c : pool_inv p -> sel_ok p s -> used s <= avail -> is_Some (entries_ p !! cand_id c) ->
  let s' := take_package p avail s c in
  sel_ok p s' /\ used s' <= avail /\ (forall w, w ∈ included s -> w ∈ included s') /\
  (forall w, used s + sum_over ent_weight p (missing p (included s) w) <= used s' + sum_over ent_weight p (missing p (included s') w)) /\
  (cand_id c ∈ included s' \/ avail < used s' + sum_over ent_weight p (missing p (included s') (cand_id c))).
Proof.
  intros I S Hu Hc. unfold take_package. fold (missing p (included s) (cand_id c)). case_bool_decide as Hin.
  { split_and!; try done. by left. }
  destruct (Z.ltb_spec avail (used s + sum_over ent_weight p (missing p (included s) (cand_id c)))) as [Hw|Hw].
  { split_and!; try done. by right. }
  destruct (emit_spec p I (length (missing p (included s) (cand_id c))) (missing p (included s) (cand_id c)) s S eq_refl
    (NoDup_missing _ _ _)) as (S' & Hi & Hus & _).
  - intros w [[? ?] _]%elem_of_missing. done.
  - intros w x a [_ Hm]%elem_of_missing Ex Ha. apply elem_of_AncestorsOf in Hm as [_ Hr]; [|done].
    destruct (decide (a ∈ included s)) as [|Hn]; [by left|]. right. destruct (pi_up _ I w x a Ex Ha) as (y & Ey & Hy & _).
    apply elem_of_missing. split; [split; [done|by eexists]|]. apply elem_of_AncestorsOf; [done|]. split; [done|].
    econstructor; [by exists y|done].
  - split_and!; [done|lia| | |].
    + intros w Hw'. apply Hi. by left.
    + intros w. rewrite Hus. assert (sum_over ent_weight p (missing p (included s) w) <= sum_over ent_weight p
        (missing p (included s) (cand_id c) ++ missing p (included (emit (length (missing p (included s) (cand_id c))) p (missing p (included s) (cand_id c)) s)) w)) as Hle.
      { apply sum_over_subset; [done|apply NoDup_missing|]. intros x [[Hx Hp] Ha]%elem_of_missing. apply elem_of_app.
        destruct (decide (x ∈ missing p (included s) (cand_id c))) as [|Hm]; [by left|]. right. apply elem_of_missing.
        split; [split; [|done]|done]. rewrite Hi. tauto. }
      rewrite sum_over_app in Hle. lia.
    + left. apply Hi. right. apply elem_of_missing. split; [done|]. apply elem_of_AncestorsOf; [done|]. split; [done|constructor].
Qed.

Lemma take_all_spec p avail l : pool_inv p -> (forall c, c ∈ l -> is_Some (entries_ p !! cand_id c)) -> forall s,
  sel_ok p s -> used s <= avail ->
  let s' := fold_left (take_package p avail) l s in
  sel_ok p s' /\ used s' <= avail /\ (forall w, w ∈ included s -> w ∈ included s') /\
  (forall w, used s + sum_over ent_weight p (missing p (included s) w) <= used s' + sum_over ent_weight p (missing p (included s') w)) /\
  (forall c, c ∈ l -> cand_id c ∈ included s' \/ avail < used s' + sum_over ent_weight p (missing p (included s') (cand_id c))).
Proof.
  intros I. induction l as [|c l IH]; intros Hl s S Hu; cbn [fold_left].
  { split_and!; try done. set_solver. }
  destruct (take_package_spec p avail s c I S Hu (Hl c ltac:(left))) as (S1 & U1 & N1 & G1 & C1).
  destruct (IH (fun d Hd => Hl d ltac:(by right)) _ S1 U1) as (S2 & U2 & N2 & G2 & C2).
  split_and!; [done|done|auto|intros w; etransitivity; [apply G1|apply G2]|].
  intros d [->|Hd]%elem_of_cons; [|by apply C2]. destruct C1 as [C1|C1]; [left; auto|right]. eapply Z.lt_le_trans; [exact C1|apply G2].
Qed.

Lemma GetTemplates_spec avail p : pool_inv p -> 0 <= avail -> let l := GetTemplates avail p in
  parents_first p l /\ NoDup (ids l) /\ zsum (map ent_weight l) <= avail /\
  forall w, is_Some (entries_ p !! w) -> w ∉ ids l ->
    avail < zsum (map ent_weight l) + sum_over ent_weight p (missing p (list_to_set (ids l)) w).
Proof.
  intros I Ha. unfold GetTemplates.
  destruct (take_all_spec p avail (ranked p) I) with (s := mkSelection [] ∅ 0) as (S & U & _ & _ & C).
  { intros c Hc. apply elem_of_ranked. by apply list_elem_of_fmap_2. }
  { split; cbn; [by intros [] ? ?|constructor|set_solver|done]. }
  { done. }
  set (s := fold_left _ _ _) in *. rewrite <- (se_used _ _ S). split_and!; [apply S|apply S|done|].
  intros w Hw Hn. assert (included s = list_to_set (ids (selected s))) as <-.
  { apply set_eq. intros x. by rewrite (se_included _ _ S), elem_of_list_to_set. }
  apply elem_of_ranked, list_elem_of_fmap in Hw as (c & -> & Hc). destruct (C c Hc) as [Hin|]; [|done].
  by apply (se_included _ _ S) in Hin.
Qed.
End inv.

(** ** Concrete data *)

Definition sorted_order : HashOrder := {| iter := elements; iter_perm s := reflexivity _ |}.

Definition sample_lock : Lock := Eval vm_compute in mkLock 1 (Sighash.SpendConditionCommitment (H := toy_Sha256Impl) sample_condition).
Definition sample_pay (o : OutPoint) (amount : Z) : Transaction :=
  mkTransaction 1 [mkTxInput o 0] [mkTxOutput amount sample_lock] 0 [sample_witness] [].
Definition sample_funds : OutPoint := mkOutPoint (replicate 32 Byte.x09) 0.
Definition sample_base : CoinsCache EmptyCoinsView :=
  mkCoinsCache Coins.Empty {[sample_funds := Some (mkCoin (mkTxOutput 100000 sample_lock) 5 false)]}.

(** A payment, its child, and a rival of the first that pays more than both. *)
Definition tx_parent : Transaction := sample_pay sample_funds 99000.
Definition tx_child : Transaction := Eval vm_compute in sample_pay (mkOutPoint (Txid (H := toy_Sha256Impl) tx_parent) 0) 98200.
Definition tx_rival : Transaction := sample_pay sample_funds 90000.

Section samples.
#[local] Existing Instance toy_Sha256Impl.
#[local] Existing Instance picky_backends.
#[local] Existing Instance sorted_order.

Definition offer (tx : Transaction) (p : Mempool) : Offer * Mempool := Accept tx sample_base 25 7 REGTEST_PARAMS p.
Definition pool_one : Mempool := Eval vm_compute in (offer tx_parent new_Mempool).2.
Definition pool_two : Mempool := Eval vm_compute in (offer tx_child pool_one).2.
Definition pool_rival : Mempool := Eval vm_compute in (offer tx_rival pool_two).2.

(** The three offers, each accepted. *)
Lemma sample_offers :
  offer tx_parent new_Mempool = (Accepted (Wtxid tx_parent), pool_one) /\
  offer tx_child pool_one = (Accepted (Wtxid tx_child), pool_two) /\
  offer tx_rival pool_two = (Accepted (Wtxid tx_rival), pool_rival).
Proof. split_and!; vm_compute; reflexivity. Qed.

Example sample_pools :
  (Size pool_two, TotalFees pool_two) = (2, 1800) /\ (Size pool_rival, TotalFees pool_rival) = (1, 10000) /\
  map ent_fee (GetTemplates 2000 pool_two) = [1000; 800] /\ GetTemplates 600 pool_two = [].
Proof. vm_compute. split_and!; reflexivity. Qed.
End samples.
(** The side conditions of an offer, as tests over the pool's maps. *)
Lemma binds_by_test `{Sha256Impl} (p : Mempool) tx :
  map_Forall (fun _ x => ent_txid (entry x) = Txid tx -> outpoints_of (entry x) = map in_outpoint (tx_inputs tx)) (entries_ p) ->
  binds_txid p tx.
Proof. intros F w x. exact (F w x). Qed.

Lemma unanticipated_by_test `{Sha256Impl} (p : Mempool) tx :
  Forall (fun o => op_txid o <> Txid tx) (map in_outpoint (tx_inputs tx)) ->
  map_Forall (fun o _ => op_txid o <> Txid tx) (spent_by_ p) -> unanticipated p tx.
Proof.
  intros F1 F2 o Ho. split; [intros Hs; rewrite Forall_forall in F1; by apply (F1 o)|].
  apply eq_None_not_Some. intros [w Hw]. by apply (F2 o w).
Qed.

Ltac by_test := first [apply binds_by_test|apply unanticipated_by_test]; apply (bool_decide_unpack _); vm_compute; exact I.

Lemma offer_step p tx : binds_txid (SH := toy_Sha256Impl) p tx -> unanticipated (SH := toy_Sha256Impl) p tx ->
  pool_step (SH := toy_Sha256Impl) (HO := sorted_order) (SB := picky_backends) (V := CoinsCache EmptyCoinsView) true p (offer tx p).2.
Proof. intros B U. by apply (step_accept true p tx sample_base 25 7 REGTEST_PARAMS). Qed.

Lemma pool_two_reached : rtc (pool_step (SH := toy_Sha256Impl) (HO := sorted_order) (SB := picky_backends)
  (V := CoinsCache EmptyCoinsView) true) new_Mempool pool_two.
Proof.
  destruct sample_offers as (E1 & E2 & _).
  pose proof (offer_step new_Mempool tx_parent ltac:(by_test) ltac:(by_test)) as T1. rewrite E1 in T1.
  pose proof (offer_step pool_one tx_child ltac:(by_test) ltac:(by_test)) as T2. rewrite E2 in T2.
  exact (rtc_l _ _ _ _ T1 (rtc_once _ _ T2)).
Qed.

Lemma pool_two_sound : sound (SH := toy_Sha256Impl) (HO := sorted_order) pool_two.
Proof. destruct (pool_steps_kept _ _ pool_two_reached) as [S C]. by apply consistent_sound, C. Qed.

(** ** The theorems *)

(** C8: whatever sequence of calls a pool has seen (offers, removals, blocks,
    reorganisation sweeps, trims), its indices by outpoint and by txid say exactly
    what its entries say, so no outpoint is spent twice; links join present entries,
    both ways, only where one spends another, and never in a circle; the totals are the
    sums; the weight is within the cap; and no entry has more than 25 ancestors or
    25 descendants along the links.  The one thing asked of the offers is that no two
    transactions with different inputs share a txid.  If moreover ([fresh]) no offer was of
    a transaction whose outputs something in the pool spent already, then every input
    that names an entry of the pool has its link. *)
Theorem pool_stays_sound `{Sha256Impl} `{HashOrder} `{Signature.SignatureBackends} {V : Type} `{CoinsView V}
    (fresh : bool) (p : Mempool) (R : rtc (pool_step (V := V) fresh) new_Mempool p) :
  consistent p /\ (fresh = true -> links_complete p).
Proof. exact (pool_steps_kept fresh p R). Qed.

Lemma pool_stays_sound_witness : (consistent (SH := toy_Sha256Impl) (HO := sorted_order) pool_two /\ (true = true -> links_complete pool_two)) /\ Size pool_two = 2.
Proof.
  split; [|vm_compute; reflexivity].
  exact (pool_stays_sound (H := toy_Sha256Impl) (H0 := sorted_order) (H1 := picky_backends) true pool_two pool_two_reached).
Defined.

Section late_parent.
#[local] Existing Instance toy_Sha256Impl.
#[local] Existing Instance sorted_order.
#[local] Existing Instance picky_backends.

(** A parent that comes back is not linked to its child.  A block confirms the parent, so
    it leaves and the child stays; the block is reversed and the parent is offered again:
    it is accepted, but [Accept] looks for the parents of an arrival and never for its
    children, so the two are unlinked.  Removing the parent with its descendants then
    leaves the child behind, without its input. *)
Example late_parent_unlinked :
  let gone := Remove (Wtxid tx_parent) pool_two in
  let back := (offer tx_parent gone).2 in
  (offer tx_parent gone).1 = Accepted (Wtxid tx_parent) /\
  rtc (pool_step (V := CoinsCache EmptyCoinsView) false) new_Mempool back /\
  ~ links_complete back /\
  is_Some (entries_ (RemoveRecursive (Wtxid tx_parent) back).2 !! Wtxid tx_child).
Proof.
  cbv zeta. split_and!; [vm_compute; reflexivity| | |apply (bool_decide_unpack _); vm_compute; exact I].
  - eapply rtc_r; [eapply rtc_r; [|apply (step_remove false pool_two (Wtxid tx_parent))]|].
    + eapply rtc_subrel; [|exact pool_two_reached]. intros x y T. destruct T; constructor; auto.
    + apply (step_accept false _ tx_parent sample_base 25 7 REGTEST_PARAMS); [by_test|discriminate].
  - intros C. set (back := (offer _ _).2) in *.
    assert (exists x o, entries_ back !! Wtxid tx_child = Some x /\ outpoints_of (entry x) = [o] /\
      by_txid_ back !! op_txid o = Some (Wtxid tx_parent) /\ parents x = ∅) as (x & o & Ex & Eo & Et & Ep)
      by (vm_compute; eexists _, _; split_and!; reflexivity).
    assert (Wtxid tx_parent ∈ parents x) as Hin by (apply (C _ x o _ Ex); [rewrite Eo; left|done]).
    rewrite Ep in Hin. exact (not_elem_of_empty _ Hin).
Qed.
End late_parent.



(** Replacement never costs the pool fees.  When an offer is accepted and there is
    room for it, the total of fees strictly rises, even when it displaces others; and
    what it displaces is at most 100 entries, each a rival for one of its outpoints or
    a descendant of one. *)
Theorem replacement_raises_fees `{Sha256Impl} `{HashOrder} `{Signature.SignatureBackends} {V : Type} `{CoinsView V}
    (tx : Transaction) (base : V) (h now : Z) (params : ChainParams) (p p' : Mempool) (w : bytes)
    (S : sound p) (B : binds_txid p tx) (U : unanticipated p tx)
    (E : Accept tx base h now params p = (Accepted w, p'))
    (Room : total_weight_ p + Transaction_Weight tx <= MAX_MEMPOOL_WEIGHT) :
  total_fees_ p < total_fees_ p' /\
  Z.of_nat (size (dom (entries_ p) ∖ dom (entries_ p'))) <= MAX_REPLACEMENT_EVICTIONS /\
  forall k, is_Some (entries_ p !! k) -> entries_ p' !! k = None ->
    exists o c, spends tx o /\ spent_by_ p !! o = Some c /\ k ∈ DescendantsOf p c.
Proof.
  apply Accept_spec in E as [_ O]; [|done..]. destruct (ResolveInputs tx base h p) as [coins|]; [|by destruct O as (_ & ? & ?)].
  destruct O as (-> & fee & doomed & from & A & P & -> & _).
  apply sound_consistent in S. destruct (settled_totals tx fee now p doomed from S) as [F W].
  assert (forall k, is_Some (entries_ p !! k) -> entries_ (settle_in (offered tx fee now) doomed from p) !! k = None -> k ∈ doomed) as K
    by (intros k; by eapply settled_kept).
  split_and!.
  - unfold settle_in. destruct (Z.ltb_spec MAX_MEMPOOL_WEIGHT (total_weight_ (enter_pool (offered tx fee now) from (unlink_all (iter doomed) p)))); [lia|].
    rewrite F. pose proof (ad_weight _ _ _ _ _ _ A). pose proof (ad_fee _ _ _ _ _ _ A).
    destruct (decide (doomed = ∅)) as [->|Hne]; [|pose proof (pl_fee _ _ _ _ _ _ P Hne); lia].
    assert (iter (∅ : gset bytes) = []) as -> by (apply nil_length_inv; by rewrite length_iter, size_empty).
    unfold sum_over. cbn. lia.
  - etransitivity; [|exact (pl_few _ _ _ _ _ _ P)]. apply inj_le, subseteq_size. intros k.
    rewrite elem_of_difference, elem_of_dom, not_elem_of_dom. intros [? ?]. by apply K.
  - intros k Hk Hn. pose proof (K k Hk Hn) as Hd. rewrite (pl_doomed _ _ _ _ _ _ P) in Hd.
    apply elem_of_displaced in Hd as (c & (o & Ho & Hc)%elem_of_DirectConflicts & Hd). eauto.
Qed.
Lemma replacement_raises_fees_witness :
  total_fees_ pool_two < total_fees_ pool_rival /\ entries_ pool_rival !! Wtxid (H := toy_Sha256Impl) tx_child = None.
Proof.
  split; [|vm_compute; reflexivity].
  pose proof (proj2 (proj2 sample_offers)) as E. unfold offer in E.
  exact (proj1 (replacement_raises_fees (H := toy_Sha256Impl) (H0 := sorted_order) (H1 := picky_backends) tx_rival sample_base 25 7
    REGTEST_PARAMS pool_two pool_rival _ pool_two_sound ltac:(by_test) ltac:(by_test) E ltac:(vm_compute; discriminate))).
Defined.

(** After a block is connected the pool holds nothing the block confirmed, by txid,
    and nothing that spends an outpoint the block spent; it gained nothing, and it
    stays sound. *)
Theorem block_leaves_no_conflict `{Sha256Impl} `{HashOrder} (block : Block) (p : Mempool) (S : sound p) :
  let p' := (RemoveForBlock block p).2 in
  sound p' /\ contents p' ⊆ contents p /\
  (forall tx, tx ∈ blk_transactions block -> FindByTxid p' (Txid tx) = None) /\
  (forall o, o ∈ block_outpoints (blk_transactions block) -> SpenderOf p' o = None).
Proof.
  destruct (RemoveForBlock_spec block p (so_inv _ S)) as (L & Ht & Ho). split_and!; [by eapply leaner_sound|apply L| |].
  - intros tx Hx. unfold FindByTxid. by rewrite (Ht tx Hx).
  - intros o Hx. unfold SpenderOf. by rewrite (Ho o Hx).
Qed.

Definition sample_mined : Block := mkBlock sample_header [tx_rival].

Lemma block_leaves_no_conflict_witness :
  let p' := (RemoveForBlock (H := sorted_order) (H0 := toy_Sha256Impl) sample_mined pool_two).2 in
  SpenderOf p' sample_funds = None /\ entries_ p' = ∅.
Proof.
  split; [|vm_compute; reflexivity].
  destruct (block_leaves_no_conflict (H := toy_Sha256Impl) (H0 := sorted_order) sample_mined pool_two pool_two_sound) as (_ & _ & _ & Ho).
  apply Ho. vm_compute. left.
Defined.

(** The sweep after a reorganisation keeps exactly the entries that still hold on
    the new chain together with all their ancestors (an entry holds when its inputs
    resolve and the spending rules accept them at the new height), whatever order it
    walks in; and every entry left holds in the pool that is left. *)
Theorem reorg_keeps_what_holds `{Sha256Impl} `{HashOrder} `{Signature.SignatureBackends} {V : Type} `{CoinsView V}
    (base : V) (h : Z) (params : ChainParams) (p : Mempool) (S : sound p) :
  let p' := (RemoveForReorg base h params p).2 in
  sound p' /\
  (forall w, is_Some (entries_ p' !! w) <->
    is_Some (entries_ p !! w) /\ forall a, a ∈ AncestorsOf p w -> good base h params p a) /\
  (forall w, is_Some (entries_ p' !! w) -> good base h params p' w).
Proof.
  pose proof (so_inv _ S) as I. destruct (RemoveForReorg_spec base h params p I (so_links _ S)) as (L & Hk & Hg).
  split_and!; [by eapply leaner_sound| |done]. intros w. rewrite Hk. split.
  - intros [Hw Ha]. split; [done|]. intros a [_ Hr]%elem_of_AncestorsOf; [by apply Ha|done].
  - intros [Hw Ha]. split; [done|]. intros a Hr. apply Ha, elem_of_AncestorsOf; done.
Qed.

(** The chain on which the funds no longer exist. *)
Lemma reorg_keeps_what_holds_witness :
  let p' := (RemoveForReorg (H := sorted_order) (H0 := toy_Sha256Impl) (H1 := picky_backends) Coins.Empty 25 REGTEST_PARAMS pool_two).2 in
  entries_ p' !! Wtxid (H := toy_Sha256Impl) tx_child = None /\
  (RemoveForReorg (H := sorted_order) (H0 := toy_Sha256Impl) (H1 := picky_backends) sample_base 25 REGTEST_PARAMS pool_two).1 = 0.
Proof.
  split; [|vm_compute; reflexivity].
  destruct (reorg_keeps_what_holds (H := toy_Sha256Impl) (H0 := sorted_order) (H1 := picky_backends) Coins.Empty 25 REGTEST_PARAMS
    pool_two pool_two_sound) as (_ & Hk & _).
  apply eq_None_not_Some. intros Hs. apply Hk in Hs as [_ Ha].
  destruct (Ha (Wtxid (H := toy_Sha256Impl) tx_parent)) as (x & E & Hh); [apply (bool_decide_unpack _); vm_compute; exact I|].
  assert (entries_ pool_two !! Wtxid (H := toy_Sha256Impl) tx_parent =
    Some (mkInternal (offered (SH := toy_Sha256Impl) tx_parent 1000 7) {[Wtxid (H := toy_Sha256Impl) tx_child]} ∅)) as E' by (vm_compute; reflexivity).
  rewrite E' in E. injection E as <-. vm_compute in Hh. discriminate Hh.
Defined.

(** What a template is given can be mined in that order: the entries are the
    pool's, none twice, each after all its parents, within the weight asked for; and
    nothing that fits is left out: the ancestors still missing of any entry not chosen
    would not fit in the room that is left. *)
Theorem templates_fit `{Sha256Impl} `{HashOrder} (available_weight : Z) (p : Mempool) (S : sound p) (A : 0 <= available_weight) :
  let l := GetTemplates available_weight p in
  parents_first p l /\ NoDup (map ent_wtxid l) /\ zsum (map ent_weight l) <= available_weight /\
  forall w, is_Some (entries_ p !! w) -> w ∉ map ent_wtxid l ->
    available_weight < zsum (map ent_weight l) + sum_over ent_weight p (missing p (list_to_set (map ent_wtxid l)) w).
Proof. apply GetTemplates_spec; [apply S|done]. Qed.

Lemma templates_fit_witness : parents_first pool_two (GetTemplates (H := sorted_order) 2000 pool_two).
Proof. exact (proj1 (templates_fit (H := toy_Sha256Impl) (H0 := sorted_order) 2000 pool_two pool_two_sound ltac:(discriminate))). Defined.

(** Trimming ends at or below the weight asked for, by evicting whole packages:
    what stays has every parent it had; the package it evicts first pays the least per
    weight unit of all, and a pool light enough is not touched. *)
Theorem trim_sheds_cheapest `{Sha256Impl} `{HashOrder} (target_weight : Z) (p : Mempool) (S : sound p) (A : 0 <= target_weight) :
  let p' := (Trim target_weight p).2 in
  sound p' /\ total_weight_ p' <= target_weight /\ shrinks p p' /\
  (total_weight_ p <= target_weight -> p' = p) /\
  (forall w fee weight, worst_package p = Some (w, fee, weight) -> fits p -> forall k, is_Some (entries_ p !! k) -> no_dearer p w k).
Proof.
  pose proof (so_inv _ S) as I. destruct (Trim_spec target_weight p I A) as (p' & E & I' & Sh & W). rewrite E.
  split_and!; [eapply leaner_sound; [done|by apply shrinks_leaner]|done|done| |].
  - intros Hle. rewrite <- E. unfold Trim. destruct (size (entries_ p)); cbn [trim_loop]; [done|].
    by rewrite (proj2 (Z.ltb_ge target_weight (total_weight_ p)) Hle).
  - intros w fee weight Ew F k Hk. pose proof (worst_package_spec p I) as L. rewrite Ew in L. destruct L as (_ & _ & L).
    apply L; [done|]. by apply elem_of_Wtxids.
Qed.

Lemma trim_sheds_cheapest_witness :
  total_weight_ (Trim (H := sorted_order) 700 pool_two).2 <= 700 /\ Size (Trim (H := sorted_order) 700 pool_two).2 = 1.
Proof.
  split; [|vm_compute; reflexivity].
  destruct (trim_sheds_cheapest (H := toy_Sha256Impl) (H0 := sorted_order) 700 pool_two pool_two_sound ltac:(discriminate)) as (_ & W & _).
  exact W.
Defined.

End MempoolInv.
