(* ===== verification/BlockAssembler.v ===== *)
(** * Block assembly (mining/block_assembler.hpp, src/mining/block_assembler.cpp)

    The template a miner searches: the coinbase, the transactions the pool selects
    for the room the coinbase leaves, and a header the node's own rules accept; then
    the search for a nonce.  An unchecked dereference of an empty optional, which the
    language leaves undefined, is [None]. *)

From Stdlib Require Import String.
From S2P Require Import Prelude Overflow Serialize Hex Crypto Primitives Target Work Asert Issuance Params Merkle Sighash Validation Genesis BlockIndex Coins Mempool MempoolInv.
From stdpp Require Import gmap.
#[local] Open Scope Z_scope.

Module BlockAssembler.
Import Params Validation Mempool MempoolInv.

Inductive TemplateError :=
  | CoinbaseDataTooLarge
  | HeightOverflow
  | MalformedTarget
  | NoMerkleRoot
  | HeaderRefused
  | RewardRefused.

Definition Describe_template (error : TemplateError) : string :=
  match error with
  | CoinbaseDataTooLarge => "the miner's coinbase data is longer than a block may carry"
  | HeightOverflow => "the chain is at the highest height a header can express"
  | MalformedTarget => "this build's chain parameters produced an unusable target"
  | NoMerkleRoot => "the assembled block committed to no transactions"
  | HeaderRefused => "this node's own header rules refused the assembled header"
  | RewardRefused => "this node's own supply rule refused the assembled reward"
  end%string.

Record BlockTemplate := mkTemplate {
  tmpl_block : Block;
  tmpl_target : bytes;
  tmpl_reward : Z;
  tmpl_fees : Z }.

Section assembler.
Context `{HO : HashOrder} `{SH : Sha256Impl}.

(** The coinbase paying [amount]. *)
Definition build_coinbase (height amount : Z) (payout : Lock) (coinbase_data : bytes) : Transaction :=
  mkTransaction 1 [MakeCoinbaseInput height] [mkTxOutput amount payout] 0 [] coinbase_data.

(** The room a coinbase leaves. *)
Definition available_weight (params : ChainParams) (coinbase : Transaction) : Z :=
  if Transaction_Weight coinbase <? max_block_weight params
  then max_block_weight params - Transaction_Weight coinbase else 0.

(** What the pool, when there is one, has for that room. *)
Definition select (params : ChainParams) (coinbase : Transaction) (pool : option Mempool) : list Entry :=
  match pool with
  | None => []
  | Some p => GetTemplates (available_weight params coinbase) p
  end.

(** Strictly after the median, saturating. *)
Definition template_timestamp (now earliest : Z) : Z :=
  Z.max now (if earliest <? 2 ^ 63 - 1 then earliest + 1 else earliest).

(** [total_fees] and the reward with the fees are [int64_t] sums, taken here as the numbers
    they stand for: the fees of transactions that spend different coins of one chain are
    never more than all the money, which is far below 2^63. *)
Definition BuildBlockTemplate (idx : BlockIndex.BlockIndex) (tip : BlockIndex.BlockIndexEntry) (payout : Lock) (now : Z)
    (coinbase_data : bytes) (params : ChainParams) (pool : option Mempool) : option (TemplateError + BlockTemplate) :=
  if max_coinbase_data_size (limits_tx (block_limits params)) <? zlen coinbase_data then Some (inl CoinbaseDataTooLarge)
  else if BlockIndex.ent_height tip =? 2 ^ 32 - 1 then Some (inl HeightOverflow)
  else
    let height := BlockIndex.ent_height tip + 1 in
    match Target.CompactToTarget (BlockIndex.NextTargetBits tip params) with
    | None => Some (inl MalformedTarget)
    | Some _ =>
        let reward := Issuance.BlockReward height (issuance params) in
        let selected := select params (build_coinbase height reward payout coinbase_data) pool in
        let total_fees := zsum (map ent_fee selected) in
        let coinbase := build_coinbase height (reward + total_fees) payout coinbase_data in
        let transactions := coinbase :: map ent_tx selected in
        let timestamp := template_timestamp now (BlockIndex.MedianTimePastAt idx tip) in
        let bits := BlockIndex.NextTargetBitsAt tip timestamp params in
        target ← Target.CompactToTarget bits;
        let header root := mkBlockHeader 1 height (BlockIndex.ent_hash tip) root timestamp bits 0 in
        match Block_ComputeMerkleRoot (mkBlock (header (replicate 32 Byte.x00)) transactions) with
        | None => Some (inl NoMerkleRoot)
        | Some root =>
            let block := mkBlock (header root) transactions in
            let context := BlockIndex.HeaderContextFor idx tip now params (Some timestamp) in
            match ContextualCheckBlockHeader (blk_header block) context params with
            | Err _ => Some (inl HeaderRefused)
            | Ok _ =>
                match CheckCoinbaseAmount block total_fees params with
                | Err _ => Some (inl RewardRefused)
                | Ok _ => Some (inr (mkTemplate block target (reward + total_fees) total_fees))
                end
            end
        end
    end.

(** [for (tried = 0; tried < attempts; ++tried)] *)
Fixpoint solve_loop (attempts : nat) (header : BlockHeader) (target : bytes) : bool * BlockHeader :=
  match attempts with
  | O => (false, header)
  | S attempts =>
      if Target.HashMeetsTarget (BlockHeader_Hash header) target then (true, header)
      else if hdr_nonce header =? 2 ^ 64 - 1 then (false, header)
      else solve_loop attempts (Genesis.with_nonce header (hdr_nonce header + 1)) target
  end.

Definition SolveHeader (header : BlockHeader) (target : bytes) (attempts : Z) : bool * BlockHeader :=
  solve_loop (Z.to_nat attempts) header target.
End assembler.

(** ** Lemmas *)

Section meaning.
Context `{HO : HashOrder} `{SH : Sha256Impl}.

(** The amount is a fixed-width field. *)
Lemma zlen_WriteI64 a b w : zlen (WriteI64 a w) = zlen (WriteI64 b w).
Proof. unfold WriteI64, AppendLittleEndian. by rewrite !zlen_app, !zlen_le_split. Qed.

Lemma coinbase_weight_amount h a b l d : Transaction_Weight (build_coinbase h a l d) = Transaction_Weight (build_coinbase h b l d).
Proof.
  assert (forall f, Appends f -> forall w w', zlen w = zlen w' -> zlen (f w) = zlen (f w')) as Hf.
  { intros f A w w' E. rewrite (appends (f := f) w), (appends (f := f) w'), !zlen_app. lia. }
  assert (zlen (SerializeWithoutWitnesses (build_coinbase h a l d) new_Writer) =
    zlen (SerializeWithoutWitnesses (build_coinbase h b l d) new_Writer)) as E.
  { unfold SerializeWithoutWitnesses. cbn [build_coinbase tx_version tx_inputs tx_outputs tx_locktime]. apply (Hf (WriteU32 0) _).
    cbn [write_all fold_left]. unfold TxOutput_Serialize. cbn [out_amount out_lock].
    apply (Hf (Lock_Serialize l) _). apply zlen_WriteI64. }
  unfold Transaction_Weight. rewrite E. do 2 f_equal. f_equal. unfold Transaction_Serialize.
  change (IsCoinbase (build_coinbase h a l d)) with true. change (IsCoinbase (build_coinbase h b l d)) with true.
  cbn [build_coinbase tx_coinbase_data]. by apply (Hf (WriteByteString d) _).
Qed.

(** The weight of a block, with the wrap at 64 bits taken once. *)
Definition block_overhead (n : Z) : Z := (BlockHeader_SERIALIZED_SIZE + CompactSizeLen n) * WITNESS_SCALE_FACTOR.

Lemma Block_Weight_sum b : Block_Weight b =
  wrapu 64 (block_overhead (zlen (blk_transactions b)) + zsum (map Transaction_Weight (blk_transactions b))).
Proof.
  unfold Block_Weight. fold (block_overhead (zlen (blk_transactions b))). generalize (block_overhead (zlen (blk_transactions b))).
  induction (blk_transactions b) as [|tx txs IH] using rev_ind; intros z; [cbn; f_equal; lia|].
  rewrite fold_left_app. cbn [fold_left]. rewrite IH, map_app, zsum_app. cbn [map]. unfold wrapu.
  rewrite Z.add_mod_idemp_l by lia. f_equal. cbn. lia.
Qed.
(** What a template that was handed out satisfies. *)
Record assembled (idx : BlockIndex.BlockIndex) (tip : BlockIndex.BlockIndexEntry) (payout : Lock) (now : Z) (data : bytes)
    (params : ChainParams) (pool : option Mempool) (t : BlockTemplate) (selected : list Entry) : Prop := {
  as_data : zlen data <= max_coinbase_data_size (limits_tx (block_limits params));
  as_height : hdr_height (blk_header (tmpl_block t)) = BlockIndex.ent_height tip + 1;
  as_selected : exists amount, selected = select params (build_coinbase (BlockIndex.ent_height tip + 1) amount payout data) pool;
  as_fees : tmpl_fees t = zsum (map ent_fee selected);
  as_reward : tmpl_reward t = Issuance.BlockReward (BlockIndex.ent_height tip + 1) (issuance params) + tmpl_fees t;
  as_txs : blk_transactions (tmpl_block t) =
    build_coinbase (BlockIndex.ent_height tip + 1) (tmpl_reward t) payout data :: map ent_tx selected;
  as_bits : hdr_target_bits (blk_header (tmpl_block t)) =
    BlockIndex.NextTargetBitsAt tip (hdr_timestamp (blk_header (tmpl_block t))) params;
  as_target : Target.CompactToTarget (hdr_target_bits (blk_header (tmpl_block t))) = Some (tmpl_target t);
  as_root : Block_ComputeMerkleRoot (tmpl_block t) = Some (hdr_merkle_root (blk_header (tmpl_block t)));
  as_context : ContextualCheckBlockHeader (blk_header (tmpl_block t))
    (BlockIndex.HeaderContextFor idx tip now params (Some (hdr_timestamp (blk_header (tmpl_block t))))) params = Validation.Accept;
  as_amount : CheckCoinbaseAmount (tmpl_block t) (tmpl_fees t) params = Validation.Accept }.

Lemma BuildBlockTemplate_inr idx tip payout now data params pool t :
  BuildBlockTemplate idx tip payout now data params pool = Some (inr t) ->
  exists selected, assembled idx tip payout now data params pool t selected.
Proof.
  unfold BuildBlockTemplate. destruct (Z.ltb_spec (max_coinbase_data_size (limits_tx (block_limits params))) (zlen data)); [done|].
  destruct (BlockIndex.ent_height tip =? 2 ^ 32 - 1); [done|].
  destruct (Target.CompactToTarget (BlockIndex.NextTargetBits tip params)); [|done].
  set (selected := select _ _ _). set (ts := template_timestamp _ _).
  destruct (Target.CompactToTarget (BlockIndex.NextTargetBitsAt tip ts params)) as [target|] eqn:Et; [|done].
  cbn [mbind option_bind]. destruct (Block_ComputeMerkleRoot _) as [root|] eqn:Er; [|done].
  destruct (ContextualCheckBlockHeader _ _ _) as [[]|] eqn:Ec; [|done].
  destruct (CheckCoinbaseAmount _ _ _) as [[]|] eqn:Ea; [|done]. intros [= <-]. exists selected. split; try done.
  unfold selected. eauto.
Qed.

(** On the networks of the table the difficulty of a child always decodes, within
    the limit. *)
Lemma NextTargetBitsAt_usable n tip ts : exists t limit, u32 (BlockIndex.NextTargetBitsAt tip ts (ParamsFor n)) /\
  Target.CompactToTarget (BlockIndex.NextTargetBitsAt tip ts (ParamsFor n)) = Some t /\
  Target.CompactToTarget (pow_limit_bits (ParamsFor n)) = Some limit /\ be_val t <= be_val limit.
Proof.
  destruct (params_pow_limit n) as (Ul & Ug & [limit D]).
  destruct (Asert.AsertNextBits_valid (genesis_bits (ParamsFor n)) (genesis_timestamp (ParamsFor n))
    (BlockIndex.ent_height tip) (hdr_timestamp (BlockIndex.ent_header tip)) (target_block_seconds (ParamsFor n)) (asert_half_life_seconds (ParamsFor n))
    (pow_limit_bits (ParamsFor n)) limit Ug Ul D) as (Ub & t & Dt & R).
  unfold BlockIndex.NextTargetBitsAt, BlockIndex.NextTargetBits, AsertNextBitsFor.
  destruct (trivial_difficulty (ParamsFor n)); [exists limit, limit; split_and!; done|]. cbv zeta.
  match goal with |- context [if ?c then _ else _] => destruct c end;
    [exists limit, limit; split_and!; done|exists t, limit; split_and!; done || lia].
Qed.

Lemma NextTargetBits_usable n tip : is_Some (Target.CompactToTarget (BlockIndex.NextTargetBits tip (ParamsFor n))).
Proof.
  destruct (params_pow_limit n) as (Ul & Ug & [limit D]).
  unfold BlockIndex.NextTargetBits. destruct (trivial_difficulty _); [by eexists|].
  destruct (next_difficulty_usable n (BlockIndex.ent_height tip) (hdr_timestamp (BlockIndex.ent_header tip))) as (t & _ & E & _). eauto.
Qed.

(** *** The transactions of a template *)

Lemma select_in params cb p e : pool_inv p -> 0 <= available_weight params cb -> e ∈ select params cb (Some p) ->
  exists x, entries_ p !! ent_wtxid e = Some x /\ entry x = e.
Proof.
  intros I Ha He. destruct (GetTemplates_spec (available_weight params cb) p I Ha) as (Ho & _).
  apply list_elem_of_split in He as (pre & post & E). cbn [select] in E. destruct (Ho _ _ _ E) as (x & Ex & <- & _). eauto.
Qed.

Lemma available_nonneg params cb : 0 <= available_weight params cb.
Proof. unfold available_weight. destruct (Z.ltb_spec (Transaction_Weight cb) (max_block_weight params)); lia. Qed.

(** Different entries of a pool share no outpoint. *)
Lemma distinct_outpoints p l : pool_inv p -> NoDup (ids l) ->
  (forall e, e ∈ l -> (exists x, entries_ p !! ent_wtxid e = Some x /\ entry x = e) /\ NoDup (outpoints_of e)) ->
  NoDup (concat (map outpoints_of l)).
Proof.
  intros I Hd Hl. induction l as [|e l IH]; [constructor|]. cbn [map concat]. cbn [ids map] in Hd. apply NoDup_cons in Hd as [He Hd].
  apply NoDup_app. split_and!; [by apply Hl; left| |apply IH; [done|intros x Hx; apply Hl; by right]].
  intros o Ho Hc. apply list_elem_of_In, in_concat in Hc as (os & Hos & Hin).
  apply list_elem_of_In, list_elem_of_fmap in Hos as (e' & -> & He').
  destruct (Hl e ltac:(left)) as [(x & Ex & E) _]. destruct (Hl e' ltac:(by right)) as [(x' & Ex' & E') _].
  assert (spent_by_ p !! o = Some (ent_wtxid e)) as H1 by (apply (pi_spent _ I); exists x; by rewrite E).
  assert (spent_by_ p !! o = Some (ent_wtxid e')) as H2 by (apply (pi_spent _ I); exists x'; rewrite E'; split; [done|by apply list_elem_of_In]).
  apply He. apply list_elem_of_fmap. exists e'. split; [congruence|done].
Qed.

Lemma block_outpoints_spends l : Forall (fun tx => IsCoinbase tx = false) (map ent_tx l) ->
  block_outpoints (map ent_tx l) = concat (map outpoints_of l).
Proof.
  unfold block_outpoints, outpoints_of. induction l as [|e l IH]; [done|]. intros [He Hl]%Forall_cons. cbn [map concat].
  rewrite He. f_equal. by apply IH.
Qed.
(** The block of a template once a nonce is found. *)
Definition solved (t : BlockTemplate) (nonce : Z) : Block :=
  mkBlock (Genesis.with_nonce (blk_header (tmpl_block t)) nonce) (blk_transactions (tmpl_block t)).

Definition template_weight (t : BlockTemplate) : Z := zsum (map Transaction_Weight (blk_transactions (tmpl_block t))).

Section template.
Context (n : Network) (idx : BlockIndex.BlockIndex) (tip : BlockIndex.BlockIndexEntry) (payout : Lock) (now : Z) (data : bytes).
Context (p : Mempool) (t : BlockTemplate) (selected : list Entry).
Context (S : sound p) (V : forall w e, Find p w = Some e -> transaction_valid (ParamsFor n) (ent_tx e)).
Context (A : assembled idx tip payout now data (ParamsFor n) (Some p) t selected).

Lemma selected_fact : NoDup (ids selected) /\
  zsum (map ent_weight selected) <= available_weight (ParamsFor n) (build_coinbase (BlockIndex.ent_height tip + 1) 0 payout data) /\
  forall e, e ∈ selected -> transaction_valid (ParamsFor n) (ent_tx e) /\ entry_ok (ent_wtxid e) e /\
    exists x, entries_ p !! ent_wtxid e = Some x /\ entry x = e.
Proof.
  destruct (as_selected _ _ _ _ _ _ _ _ _ A) as [amount E]. pose proof (so_inv _ S) as I.
  destruct (GetTemplates_spec _ p I (available_nonneg (ParamsFor n) (build_coinbase (BlockIndex.ent_height tip + 1) amount payout data))) as (_ & Hd & Hw & _).
  cbn [select] in E. rewrite <- E in *. split_and!; [done| |].
  - unfold available_weight in *. by rewrite (coinbase_weight_amount _ 0 amount).
  - intros e He. rewrite E in He. apply select_in in He as (x & Ex & <-); [|done|apply available_nonneg].
    split_and!; [|by apply (pi_entry _ I)|by eauto]. apply (V (ent_wtxid (entry x))). unfold Find. by rewrite Ex.
Qed.

Lemma coinbase_weight : Transaction_Weight (build_coinbase (BlockIndex.ent_height tip + 1) (tmpl_reward t) payout data) =
  Transaction_Weight (build_coinbase (BlockIndex.ent_height tip + 1) 0 payout data).
Proof. apply coinbase_weight_amount. Qed.

Lemma selected_weight : map Transaction_Weight (map ent_tx selected) = map ent_weight selected.
Proof.
  rewrite map_map. apply map_ext_in. intros e He%list_elem_of_In. destruct selected_fact as (_ & _ & Hs).
  destruct (Hs e He) as (_ & Hok & _). symmetry. apply Hok.
Qed.

Lemma template_weight_split : template_weight t =
  Transaction_Weight (build_coinbase (BlockIndex.ent_height tip + 1) 0 payout data) + zsum (map ent_weight selected).
Proof. unfold template_weight. rewrite (as_txs _ _ _ _ _ _ _ _ _ A). cbn [map]. by rewrite zsum_cons, coinbase_weight, selected_weight. Qed.

Lemma weight_range tx : 0 <= Transaction_Weight tx.
Proof. unfold Transaction_Weight. apply wrapu_range. lia. Qed.

(** The coinbase and the selection fit the limit together: the room was measured
    against it. *)
Lemma template_weight_bound :
  Transaction_Weight (build_coinbase (BlockIndex.ent_height tip + 1) 0 payout data) <= max_block_weight (ParamsFor n) ->
  0 <= template_weight t <= max_block_weight (ParamsFor n).
Proof.
  intros Hc. rewrite template_weight_split. destruct selected_fact as (_ & Hw & Hs). unfold available_weight in Hw.
  assert (0 <= zsum (map ent_weight selected)).
  { apply zsum_nonneg, Forall_forall. intros z Hz. apply list_elem_of_fmap in Hz as (e & -> & He).
    destruct (Hs e He) as (_ & Hok & _). unfold entry_ok in Hok. lia. }
  pose proof (weight_range (build_coinbase (BlockIndex.ent_height tip + 1) 0 payout data)).
  destruct (Z.ltb_spec (Transaction_Weight (build_coinbase (BlockIndex.ent_height tip + 1) 0 payout data)) (max_block_weight (ParamsFor n))); lia.
Qed.

Lemma overhead_range k : 0 <= block_overhead k <= 1000.
Proof.
  unfold block_overhead, BlockHeader_SERIALIZED_SIZE, CompactSizeLen, WITNESS_SCALE_FACTOR.
  repeat match goal with |- context [if ?c then _ else _] => destruct c end; lia.
Qed.

Lemma solved_weight nonce :
  Transaction_Weight (build_coinbase (BlockIndex.ent_height tip + 1) 0 payout data) <= max_block_weight (ParamsFor n) ->
  Block_Weight (solved t nonce) = block_overhead (zlen (blk_transactions (tmpl_block t))) + template_weight t.
Proof.
  intros Hc. rewrite Block_Weight_sum. apply wrapu_small. cbn [solved blk_transactions]. fold (template_weight t).
  pose proof (template_weight_bound Hc). pose proof (overhead_range (zlen (blk_transactions (tmpl_block t)))).
  assert (max_block_weight (ParamsFor n) = MAX_BLOCK_WEIGHT) as E by (by destruct n). unfold MAX_BLOCK_WEIGHT in E. lia.
Qed.

Lemma selected_spends : Forall (fun tx => IsCoinbase tx = false) (map ent_tx selected).
Proof.
  apply Forall_forall. intros tx Htx. apply list_elem_of_fmap in Htx as (e & -> & He). destruct selected_fact as (_ & _ & Hs).
  destruct (Hs e He) as (_ & Hok & _). apply Hok.
Qed.

Lemma template_distinct : NoDup (block_outpoints (blk_transactions (tmpl_block t))).
Proof.
  rewrite (as_txs _ _ _ _ _ _ _ _ _ A). change (block_outpoints (?c :: ?l)) with (block_outpoints l).
  rewrite block_outpoints_spends by apply selected_spends. destruct selected_fact as (Hd & _ & Hs).
  apply (distinct_outpoints p); [apply S|done|]. intros e He. destruct (Hs e He) as (Hv & Hok & Hx). split; [done|].
  destruct Hv as (_ & _ & _ & _ & Hf & _). assert (IsCoinbase (ent_tx e) = false) as Ec by apply Hok. rewrite Ec in Hf. apply Hf.
Qed.

Lemma template_coinbase_valid : 0 <= BlockIndex.ent_height tip ->
  Transaction_Weight (build_coinbase (BlockIndex.ent_height tip + 1) 0 payout data) <= max_block_weight (ParamsFor n) ->
  transaction_valid (ParamsFor n) (build_coinbase (BlockIndex.ent_height tip + 1) (tmpl_reward t) payout data).
Proof.
  intros Hh Hc. pose proof (as_amount _ _ _ _ _ _ _ _ _ A) as Ha. apply CheckCoinbaseAmount_Ok in Ha as (cb & txs & E & _ & _ & Ho & _).
  - rewrite (as_txs _ _ _ _ _ _ _ _ _ A) in E. injection E as <- <-.
    unfold transaction_valid. change (IsCoinbase (build_coinbase ?h ?a ?l ?d)) with true. rewrite coinbase_weight.
    split_and!; try done; try (by destruct n). split; [done|]. apply (as_data _ _ _ _ _ _ _ _ _ A).
  - apply params_sane.
  - rewrite (as_height _ _ _ _ _ _ _ _ _ A). lia.
  - destruct n; vm_compute; discriminate.
Qed.

Lemma solved_header nonce :
  Target.HashMeetsTarget (BlockHeader_Hash (Genesis.with_nonce (blk_header (tmpl_block t)) nonce)) (tmpl_target t) = true ->
  CheckBlockHeader (blk_header (solved t nonce)) (ParamsFor n) = Validation.Accept.
Proof.
  intros Hw. destruct (NextTargetBitsAt_usable n tip (hdr_timestamp (blk_header (tmpl_block t)))) as (g & limit & Ub & Dg & Dl & Hle).
  unfold CheckBlockHeader. cbn [solved blk_header Genesis.with_nonce hdr_target_bits].
  pose proof (as_target _ _ _ _ _ _ _ _ _ A) as Dt. rewrite Dt, Dl.
  assert (g = tmpl_target t) as -> by (rewrite (as_bits _ _ _ _ _ _ _ _ _ A) in Dt; congruence).
  destruct (params_pow_limit n) as (Ul & _).
  apply Target.CompactToTarget_Some in Dg as (Lt & _); [|done]. apply Target.CompactToTarget_Some in Dl as (Ll & _); [|done].
  rewrite lex_gt_be_val by (unfold Target.is_target in *; lia). rewrite (proj2 (Z.ltb_ge _ _)) by lia. by rewrite Hw.
Qed.

Lemma solved_verdict nonce : 0 <= BlockIndex.ent_height tip ->
  Transaction_Weight (build_coinbase (BlockIndex.ent_height tip + 1) 0 payout data) <= max_block_weight (ParamsFor n) ->
  Target.HashMeetsTarget (BlockHeader_Hash (Genesis.with_nonce (blk_header (tmpl_block t)) nonce)) (tmpl_target t) = true ->
  CheckBlock (solved t nonce) (ParamsFor n) = Validation.Accept <->
  block_overhead (zlen (blk_transactions (tmpl_block t))) + template_weight t <= max_block_weight (ParamsFor n) /\
  zlen (blk_transactions (tmpl_block t)) <= max_transactions (block_limits (ParamsFor n)).
Proof.
  intros Hh Hc Hw. rewrite CheckBlock_Ok. pose proof (solved_weight nonce Hc) as Ew. split.
  - intros (cb & txs & _ & _ & Hn & _ & _ & _ & Hb & _). rewrite Ew in Hb. done.
  - intros [Hb Hn]. pose proof (as_txs _ _ _ _ _ _ _ _ _ A) as Et. eexists _, (map ent_tx selected). split_and!.
    + exact Et.
    + by apply solved_header.
    + done.
    + done.
    + apply selected_spends.
    + cbn. by rewrite (as_height _ _ _ _ _ _ _ _ _ A).
    + by rewrite Ew.
    + apply (as_root _ _ _ _ _ _ _ _ _ A).
    + cbn [solved blk_transactions]. rewrite Et. constructor; [by apply template_coinbase_valid|]. apply Forall_forall. intros tx Htx.
      apply list_elem_of_fmap in Htx as (e & -> & He). destruct selected_fact as (_ & _ & Hs). by apply Hs.
    + apply template_distinct.
Qed.
End template.

(** *** The search *)

Lemma solve_loop_spec target m : forall header, 0 <= hdr_nonce header <= 2 ^ 64 - 1 ->
  let k := Z.min (hdr_nonce header + Z.of_nat m) (2 ^ 64 - 1) in
  match solve_loop m header target with
  | (true, h') => exists nonce, h' = Genesis.with_nonce header nonce /\ hdr_nonce header <= nonce <= k /\
      Target.HashMeetsTarget (BlockHeader_Hash h') target = true /\
      forall j, hdr_nonce header <= j < nonce ->
        Target.HashMeetsTarget (BlockHeader_Hash (Genesis.with_nonce header j)) target = false
  | (false, h') => h' = Genesis.with_nonce header k /\
      forall j, hdr_nonce header <= j < hdr_nonce header + Z.of_nat m -> j <= 2 ^ 64 - 1 ->
        Target.HashMeetsTarget (BlockHeader_Hash (Genesis.with_nonce header j)) target = false
  end.
Proof.
  assert (forall h, Genesis.with_nonce h (hdr_nonce h) = h) as Hid by (by intros []).
  induction m as [|m IH]; intros header Hn k; cbn [solve_loop].
  { split; [|lia]. assert (k = hdr_nonce header) as -> by lia. by rewrite Hid. }
  destruct (Target.HashMeetsTarget (BlockHeader_Hash header) target) eqn:E.
  { exists (hdr_nonce header). rewrite Hid. split_and!; try done; lia. }
  destruct (Z.eqb_spec (hdr_nonce header) (2 ^ 64 - 1)) as [Ex|Ex].
  { split; [assert (k = hdr_nonce header) as -> by lia; by rewrite Hid|]. intros j Hj Hj'. assert (j = hdr_nonce header) as -> by lia. by rewrite Hid. }
  specialize (IH (Genesis.with_nonce header (hdr_nonce header + 1))). cbn [Genesis.with_nonce hdr_nonce] in IH. specialize (IH ltac:(lia)).
  cbv zeta in IH. replace (hdr_nonce header + 1 + Z.of_nat m) with (hdr_nonce header + Z.of_nat (S m)) in IH by lia.
  fold k in IH. destruct (solve_loop m _ target) as [[] h'].
  - destruct IH as (nonce & -> & Hr & Hm & Hj). exists nonce. split_and!; try done; try lia. intros j Hr'.
    destruct (decide (j = hdr_nonce header)) as [->|]; [by rewrite Hid|]. apply (Hj j). lia.
  - destruct IH as [-> Hj]. split; [done|]. intros j Hr Hj'.
    destruct (decide (j = hdr_nonce header)) as [->|]; [by rewrite Hid|]. apply (Hj j); lia.
Qed.

Lemma solve_loop_resumes target a b : forall header,
  solve_loop (a + b) header target =
    let '(found, h') := solve_loop a header target in if found then (true, h') else solve_loop b h' target.
Proof.
  induction a as [|a IH]; intros header; cbn [solve_loop Nat.add]; [done|].
  destruct (Target.HashMeetsTarget (BlockHeader_Hash header) target) eqn:E; [done|].
  destruct (Z.eqb_spec (hdr_nonce header) (2 ^ 64 - 1)) as [Ex|Ex]; [|apply IH].
  destruct b; cbn [solve_loop]; [done|]. rewrite E. by rewrite (proj2 (Z.eqb_eq _ _) Ex).
Qed.
End meaning.

(** ** Concrete data *)

Section samples.
#[local] Existing Instance toy_Sha256Impl.
#[local] Existing Instance picky_backends.
#[local] Existing Instance sorted_order.

Definition sample_index : BlockIndex.BlockIndex := Eval vm_compute in BlockIndex.ForNetwork REGTEST_PARAMS.
Definition sample_tip : BlockIndex.BlockIndexEntry :=
  Eval vm_compute in BlockIndex.mkEntry (blk_header (Genesis.BuildGenesisBlock REGTEST_PARAMS)) (BlockIndex.genesis_ sample_index) 0
    (Work.OfCompactTarget REGTEST_POW_LIMIT_BITS) None BlockIndex.VHeader BlockIndex.FNone 0.

(** The regression network with the weight of a block lowered. *)
Definition with_weight (w : Z) (q : ChainParams) : ChainParams :=
  {| network := network q; net_name := net_name q; chain_id := chain_id q; magic := magic q;
     default_p2p_port := default_p2p_port q; default_rpc_port := default_rpc_port q; pow_limit_bits := pow_limit_bits q;
     genesis_bits := genesis_bits q; genesis_timestamp := genesis_timestamp q; genesis_nonce := genesis_nonce q;
     genesis_hash := genesis_hash q; target_block_seconds := target_block_seconds q;
     asert_half_life_seconds := asert_half_life_seconds q; coinbase_maturity := coinbase_maturity q;
     max_block_weight := w; block_limits := block_limits q; issuance := issuance q;
     allow_min_difficulty_blocks := allow_min_difficulty_blocks q; trivial_difficulty := trivial_difficulty q |}.

Definition sample_template (params : ChainParams) : option (TemplateError + BlockTemplate) :=
  BuildBlockTemplate sample_index sample_tip sample_lock (GENESIS_TIMESTAMP + 50) [] params (Some pool_two).
End samples.
Lemma pool_two_valid w e params : limits_tx (block_limits params) = limits_tx (block_limits REGTEST_PARAMS) -> 612 <= max_block_weight params ->
  Find pool_two w = Some e -> transaction_valid params (ent_tx e).
Proof.
  intros Hl Hw E. unfold Find in E. destruct (entries_ pool_two !! w) as [x|] eqn:Ex; [|done]. injection E as <-.
  assert (map_Forall (fun _ x => match CheckTransaction (ent_tx (entry x)) REGTEST_PARAMS with Ok _ => true | Err _ => false end = true /\
      Transaction_Weight (ent_tx (entry x)) = 612)
    (entries_ pool_two)) as F by (apply (bool_decide_unpack _); vm_compute; exact Logic.I).
  destruct (F w x Ex) as [Hc Hx]. destruct (CheckTransaction _ _) as [[]|] eqn:Ec; [|done]. apply CheckTransaction_Ok in Ec as Hc'. clear Hc. rename Hc' into Hc. destruct Hc as (H1 & H2 & H3 & H4 & H5 & H6 & _).
  unfold transaction_valid, coinbase_form, spend_form, witness_ok, condition_ok in *. rewrite Hl. rewrite Hx.
  split_and!; try done. 
Qed.

(** ** The theorems *)

(** C24: A template is a block but for its nonce, and but for one thing.  Take any
    network of the table, a pool in the state its calls keep, of transactions valid on
    their own, and a coinbase that fits a block.  Once a nonce meets the template's
    target, [CheckBlock] accepts the block exactly when the weight of its transactions
    and of its header and transaction count together is within the limit, and the count
    is: every other rule (the work, the coinbase, the Merkle root, each transaction, no
    outpoint spent twice) holds already; and what was selected never weighs more than
    the room the coinbase left. *)
Theorem template_becomes_block `{HashOrder} `{Sha256Impl} (n : Network) (idx : BlockIndex.BlockIndex)
    (tip : BlockIndex.BlockIndexEntry) (payout : Lock) (now : Z) (data : bytes) (p : Mempool) (t : BlockTemplate) (nonce : Z)
    (S : sound p) (V : forall w e, Find p w = Some e -> transaction_valid (ParamsFor n) (ent_tx e))
    (E : BuildBlockTemplate idx tip payout now data (ParamsFor n) (Some p) = Some (inr t))
    (Hh : 0 <= BlockIndex.ent_height tip)
    (Hc : Transaction_Weight (build_coinbase (BlockIndex.ent_height tip + 1) 0 payout data) <= max_block_weight (ParamsFor n))
    (Hw : Target.HashMeetsTarget (BlockHeader_Hash (Genesis.with_nonce (blk_header (tmpl_block t)) nonce)) (tmpl_target t) = true) :
  template_weight t <= max_block_weight (ParamsFor n) /\
  (CheckBlock (solved t nonce) (ParamsFor n) = Validation.Accept <->
   block_overhead (zlen (blk_transactions (tmpl_block t))) + template_weight t <= max_block_weight (ParamsFor n) /\
   zlen (blk_transactions (tmpl_block t)) <= max_transactions (block_limits (ParamsFor n))).
Proof.
  apply BuildBlockTemplate_inr in E as [selected A].
  split; [by eapply (template_weight_bound n idx tip)|by eapply (solved_verdict n idx tip)].
Qed.

Lemma template_becomes_block_witness :
  exists t, sample_template REGTEST_PARAMS = Some (inr t) /\
    CheckBlock (H := toy_Sha256Impl) (solved t 0) REGTEST_PARAMS = Validation.Accept.
Proof.
  destruct (sample_template REGTEST_PARAMS) as [[e|t]|] eqn:E; [exfalso; vm_compute in E; discriminate E| |exfalso; vm_compute in E; discriminate E].
  exists t. split; [reflexivity|].
  assert (sample_template REGTEST_PARAMS = Some (inr t) /\
    Target.HashMeetsTarget (BlockHeader_Hash (H := toy_Sha256Impl) (Genesis.with_nonce (blk_header (tmpl_block t)) 0)) (tmpl_target t) = true /\
    (block_overhead (zlen (blk_transactions (tmpl_block t))) + template_weight t <= max_block_weight (ParamsFor Regtest) /\
     zlen (blk_transactions (tmpl_block t)) <= max_transactions (block_limits (ParamsFor Regtest)))) as (E' & Hw & Hb).
  { split; [exact E|]. vm_compute in E. injection E as <-. vm_compute. split_and!; congruence. }
  apply (template_becomes_block (H := sorted_order) (H0 := toy_Sha256Impl) Regtest sample_index sample_tip sample_lock (GENESIS_TIMESTAMP + 50) []
    pool_two t 0 pool_two_sound (fun w e => pool_two_valid w e REGTEST_PARAMS eq_refl ltac:(vm_compute; discriminate)) E'); [|  |exact Hw|exact Hb]; vm_compute; discriminate.
Defined.

(** The room measured for the pool leaves out the weight of the header and of the
    transaction count, so a pool that fills the room makes a template no nonce turns
    into a block: here a sound pool of valid transactions, and a template that
    [BuildBlockTemplate] hands out and [CheckBlock] refuses as too heavy whatever the
    nonce. *)
Theorem full_template_refused :
  exists params pool t, sound (SH := toy_Sha256Impl) (HO := sorted_order) pool /\
    (forall w e, Find pool w = Some e -> transaction_valid params (ent_tx e)) /\
    BuildBlockTemplate (HO := sorted_order) (SH := toy_Sha256Impl) sample_index sample_tip sample_lock (GENESIS_TIMESTAMP + 50) []
      params (Some pool) = Some (inr t) /\
    template_weight t <= max_block_weight params /\
    (forall nonce, max_block_weight params < Block_Weight (solved t nonce)) /\
    forall nonce, CheckBlock (H := toy_Sha256Impl) (solved t nonce) params <> Validation.Accept.
Proof.
  exists (with_weight 1700 REGTEST_PARAMS), pool_two.
  destruct (sample_template (with_weight 1700 REGTEST_PARAMS)) as [[e|t]|] eqn:E; [exfalso; vm_compute in E; discriminate E| |exfalso; vm_compute in E; discriminate E].
  exists t. assert (template_weight t <= 1700 /\ forall nonce, 1700 < Block_Weight (solved t nonce)) as [Ht Hb].
  { vm_compute in E. injection E as <-. vm_compute. split; [congruence|]. intros _. congruence. }
  split_and!; [exact pool_two_sound| |exact E|exact Ht|exact Hb|].
  - intros w e. apply pool_two_valid; [reflexivity|vm_compute; discriminate].
  - intros nonce (cb & txs & _ & _ & _ & _ & _ & _ & Hw & _)%CheckBlock_Ok. specialize (Hb nonce).
    change (max_block_weight (with_weight 1700 REGTEST_PARAMS)) with 1700 in Hw. lia.
Qed.

#[local] Ltac answered := eexists; split; [reflexivity|cbn; tauto].

Lemma BuildBlockTemplate_answers `{HashOrder} `{Sha256Impl} (n : Network) (idx : BlockIndex.BlockIndex)
    (tip : BlockIndex.BlockIndexEntry) (payout : Lock) (now : Z) (data : bytes) (pool : option Mempool) :
  exists r, BuildBlockTemplate idx tip payout now data (ParamsFor n) pool = Some r /\
    match r with
    | inr _ => True
    | inl e => e = CoinbaseDataTooLarge \/ e = HeightOverflow \/ e = HeaderRefused \/ e = RewardRefused
    end.
Proof.
  unfold BuildBlockTemplate. destruct (_ <? zlen data); [answered|]. destruct (_ =? 2 ^ 32 - 1); [answered|].
  destruct (NextTargetBits_usable n tip) as [t0 ->]. set (selected := select _ _ _). set (ts := template_timestamp _ _).
  destruct (NextTargetBitsAt_usable n tip ts) as (t & _ & _ & -> & _). cbn [mbind option_bind].
  unfold Block_ComputeMerkleRoot. cbn [blk_transactions].
  set (cb := build_coinbase _ _ _ _). destruct (Merkle.ComputeMerkleRoot_Some (map Wtxid (cb :: map ent_tx selected))) as (root & _ & ->); [done|].
  destruct (ContextualCheckBlockHeader _ _ _) as [[]|]; [|answered]. destruct (CheckCoinbaseAmount _ _ _) as [[]|]; answered.
Qed.

(** On the networks of the table assembly always has an answer: it never
    dereferences a target that did not decode, never finds its own parameters
    unusable and never commits to nothing; it fails only for coinbase data over the
    limit, a tip at the last height, or a header or reward its own rules refuse. *)
Theorem assembly_always_answers `{HashOrder} `{Sha256Impl} (n : Network) (idx : BlockIndex.BlockIndex)
    (tip : BlockIndex.BlockIndexEntry) (payout : Lock) (now : Z) (data : bytes) (pool : option Mempool) :
  exists r, BuildBlockTemplate idx tip payout now data (ParamsFor n) pool = Some r /\
    match r with
    | inr _ => True
    | inl e => e = CoinbaseDataTooLarge \/ e = HeightOverflow \/ e = HeaderRefused \/ e = RewardRefused
    end.
Proof. apply BuildBlockTemplate_answers. Qed.

(** The search is live and resumable.  If some nonce from the header's own to the
    last meets the target, an attempt budget that reaches it finds the first such nonce
    and changes nothing else in the header; a budget can be split over calls, each
    going on from the header the last one left. *)
Theorem solve_finds_first `{Sha256Impl} (header : BlockHeader) (target : bytes) (nonce attempts : Z)
    (Hn : 0 <= hdr_nonce header <= nonce) (Hm : nonce <= 2 ^ 64 - 1) (Ha : nonce - hdr_nonce header < attempts)
    (Meets : Target.HashMeetsTarget (BlockHeader_Hash (Genesis.with_nonce header nonce)) target = true)
    (First : forall j, hdr_nonce header <= j < nonce ->
      Target.HashMeetsTarget (BlockHeader_Hash (Genesis.with_nonce header j)) target = false) :
  SolveHeader header target attempts = (true, Genesis.with_nonce header nonce) /\
  forall a b, 0 <= a -> 0 <= b -> SolveHeader header target (a + b) =
    let '(found, h') := SolveHeader header target a in if found then (true, h') else SolveHeader h' target b.
Proof.
  split.
  - unfold SolveHeader. pose proof (solve_loop_spec target (Z.to_nat attempts) header ltac:(lia)) as L. cbv zeta in L.
    destruct (solve_loop _ _ _) as [[] h'].
    + destruct L as (k & -> & Hr & Hk & Hj). assert (k = nonce) as ->; [|done].
      destruct (Z.lt_total k nonce) as [Hl|[->|Hl]]; [|done|].
      * rewrite First in Hk; [done|lia].
      * rewrite Hj in Meets; [done|lia].
    + destruct L as [_ Hj]. rewrite Hj in Meets; [done|lia|lia].
  - intros a b H1 H2. unfold SolveHeader. rewrite Z2Nat.inj_add by done. apply solve_loop_resumes.
Qed.

Definition sample_unsolved : BlockHeader := mkBlockHeader 1 1 (replicate 32 Byte.x00) (replicate 32 Byte.x01) 7 REGTEST_POW_LIMIT_BITS 0.
(** A digest under which a higher nonce gives a lower hash. *)
Definition falling_sha256 (m : bytes) : bytes :=
  if zlen m =? 32 then m else le_split 32 (2 ^ 256 - 1 - le_combine (toy_sha256 m)).

Lemma falling_length m : zlen (falling_sha256 m) = 32.
Proof. unfold falling_sha256. destruct (Z.eqb_spec (zlen m) 32); [done|apply zlen_le_split]. Qed.

Definition falling_Sha256Impl : Sha256Impl := {| SHA256 := falling_sha256; SHA256_length := falling_length |}.

Definition sample_goal : bytes := rev (BlockHeader_Hash (H := falling_Sha256Impl) (Genesis.with_nonce sample_unsolved 3)).

Lemma solve_finds_first_witness :
  SolveHeader (SH := falling_Sha256Impl) sample_unsolved sample_goal 10 = (true, Genesis.with_nonce sample_unsolved 3).
Proof.
  destruct (solve_finds_first (H := falling_Sha256Impl) sample_unsolved sample_goal 3 10) as [E _]; [| | | | |exact E].
  - split; vm_compute; discriminate.
  - vm_compute. discriminate.
  - vm_compute. reflexivity.
  - vm_compute. reflexivity.
  - intros j Hj. cbn in Hj. assert (j = 0 \/ j = 1 \/ j = 2) as [-> | [-> | ->]] by lia; vm_compute; reflexivity.
Defined.

End BlockAssembler.
