(* ===== verification/Message.v ===== *)
(** * Message framing (net/message.hpp, src/net/message.cpp)

    The 14-byte header (magic, command, length, checksum) and the payload behind it:
    [SerialiseMessage] writes one message, [FrameMessage] takes one off the front of a
    buffer of bytes that arrive in pieces. *)

From Stdlib Require Import String.
From S2P Require Import Prelude Overflow Serialize Crypto.
#[local] Open Scope Z_scope.

Module Message.

Definition HEADER_SIZE : Z := 14.
Definition MAX_MESSAGE_SIZE : Z := Z.shiftl 4 20.

Inductive Command :=
  | Hello | HelloAck | GetHeaders | Headers | Inv | GetData | Tx | BlockCmd | GetAddr | Addr | Ping | Pong.

#[global] Instance Command_eq_dec : EqDecision Command.
Proof. solve_decision. Defined.

Definition COMMAND_COUNT : Z := 12.

(** The enumerators' values. *)
Definition command_id (cmd : Command) : Z :=
  match cmd with
  | Hello => 0 | HelloAck => 1 | GetHeaders => 2 | Headers => 3 | Inv => 4 | GetData => 5
  | Tx => 6 | BlockCmd => 7 | GetAddr => 8 | Addr => 9 | Ping => 10 | Pong => 11
  end.

(** [static_cast<Command>(id)]: an id that names no enumerator has no [Command]. *)
Definition command_of (id : Z) : option Command :=
  match id with
  | 0 => Some Hello | 1 => Some HelloAck | 2 => Some GetHeaders | 3 => Some Headers | 4 => Some Inv | 5 => Some GetData
  | 6 => Some Tx | 7 => Some BlockCmd | 8 => Some GetAddr | 9 => Some Addr | 10 => Some Ping | 11 => Some Pong
  | _ => None
  end.

Definition IsKnownCommand (id : Z) : bool := id <? COMMAND_COUNT.

Definition CommandName (cmd : Command) : string :=
  match cmd with
  | Hello => "hello"
  | HelloAck => "hello_ack"
  | GetHeaders => "getheaders"
  | Headers => "headers"
  | Inv => "inv"
  | GetData => "getdata"
  | Tx => "tx"
  | BlockCmd => "block"
  | GetAddr => "getaddr"
  | Addr => "addr"
  | Ping => "ping"
  | Pong => "pong"
  end%string.

(** The parts of a failure text that do not depend on the input. *)
Inductive Failure :=
  | CannotReadMagic | MagicMismatch | CannotReadCommand | UnknownCommand (id : Z) | CannotReadLength
  | MessageTooLarge (length : Z) | CannotReadChecksum | ChecksumMismatch.

(** [struct Framed]: complete with what it consumed, in need of more, or malformed. *)
Inductive Framed :=
  | Complete (command : Command) (payload : bytes) (consumed : Z)
  | NeedMore
  | Malformed (failure : Failure).

Section message.
Context `{Sha256Impl}.

(** The first four bytes of the double hash, as [memcpy] reads them on a
    little-endian machine. *)
Definition Checksum (payload : bytes) : Z :=
  if zlen payload =? 0 then 0 else le_combine (take 4 (DoubleSha256 payload)).

Definition ValidateChecksum (payload : bytes) (checksum : Z) : bool :=
  if zlen payload =? 0 then checksum =? 0 else le_combine (take 4 (DoubleSha256 payload)) =? checksum.

Definition FrameMessage (buffer expected_magic : bytes) : Framed :=
  if zlen buffer <? HEADER_SIZE then NeedMore
  else
    let reader := new_Reader (take (Z.to_nat HEADER_SIZE) buffer) in
    match ReadBytes 4 reader with
    | (None, _) => Malformed CannotReadMagic
    | (Some magic, reader) =>
    if negb (bool_decide (magic = expected_magic)) then Malformed MagicMismatch
    else match ReadU16 reader with
    | (None, _) => Malformed CannotReadCommand
    | (Some cmd_raw, reader) =>
    if negb (IsKnownCommand cmd_raw) then Malformed (UnknownCommand cmd_raw)
    else match ReadU32 reader with
    | (None, _) => Malformed CannotReadLength
    | (Some length, reader) =>
    if MAX_MESSAGE_SIZE <? length then Malformed (MessageTooLarge length)
    else match ReadU32 reader with
    | (None, _) => Malformed CannotReadChecksum
    | (Some checksum, _) =>
        let total_size := HEADER_SIZE + length in
        if zlen buffer <? total_size then NeedMore
        else
          let payload := take (Z.to_nat length) (drop (Z.to_nat HEADER_SIZE) buffer) in
          if negb (ValidateChecksum payload checksum) then Malformed ChecksumMismatch
          else match command_of cmd_raw with
               | Some command => Complete command payload total_size
               | None => Malformed (UnknownCommand cmd_raw)
               end
    end
    end
    end
    end.

(** [static_cast<uint32_t>(payload.size())] truncates. *)
Definition SerialiseMessage (command : Command) (payload magic : bytes) : bytes :=
  let w := WriteBytes magic new_Writer in
  let w := WriteU16 (command_id command) w in
  let w := WriteU32 (wrapu 32 (zlen payload)) w in
  let w := WriteU32 (Checksum payload) w in
  WriteBytes payload w.
End message.
(** ** Lemmas *)

Section meaning.
Context `{Sha256Impl}.

(** The verdict on a header whose fields have been read. *)
Definition judge (magic : bytes) (cmd_raw length checksum : Z) (body expected_magic : bytes) : Framed :=
  if negb (bool_decide (magic = expected_magic)) then Malformed MagicMismatch
  else if negb (IsKnownCommand cmd_raw) then Malformed (UnknownCommand cmd_raw)
  else if MAX_MESSAGE_SIZE <? length then Malformed (MessageTooLarge length)
  else if zlen body <? length then NeedMore
  else if negb (ValidateChecksum (take (Z.to_nat length) body) checksum) then Malformed ChecksumMismatch
  else match command_of cmd_raw with
       | Some command => Complete command (take (Z.to_nat length) body) (HEADER_SIZE + length)
       | None => Malformed (UnknownCommand cmd_raw)
       end.

Lemma FrameMessage_judge b0 b1 b2 b3 b4 b5 b6 b7 b8 b9 b10 b11 b12 b13 body expected :
  FrameMessage (b0 :: b1 :: b2 :: b3 :: b4 :: b5 :: b6 :: b7 :: b8 :: b9 :: b10 :: b11 :: b12 :: b13 :: body) expected =
  judge [b0; b1; b2; b3] (le_combine [b4; b5]) (le_combine [b6; b7; b8; b9]) (le_combine [b10; b11; b12; b13]) body expected.
Proof.
  unfold FrameMessage. assert (zlen (b0 :: b1 :: b2 :: b3 :: b4 :: b5 :: b6 :: b7 :: b8 :: b9 :: b10 :: b11 :: b12 :: b13 :: body) = 14 + zlen body) as E
    by (rewrite !zlen_cons; lia).
  pose proof (zlen_nonneg body). rewrite E. rewrite (proj2 (Z.ltb_ge (14 + zlen body) HEADER_SIZE)) by (unfold HEADER_SIZE; lia).
  change (ReadBytes 4 _) with (Some [b0; b1; b2; b3], mkReader [b0; b1; b2; b3; b4; b5; b6; b7; b8; b9; b10; b11; b12; b13] 4 true).
  cbv beta iota. unfold judge. destruct (negb (bool_decide _)); [done|].
  change (ReadU16 _) with (Some (le_combine [b4; b5]), mkReader [b0; b1; b2; b3; b4; b5; b6; b7; b8; b9; b10; b11; b12; b13] 6 true).
  cbv beta iota. destruct (negb (IsKnownCommand _)); [done|].
  change (ReadU32 {| bytes_ := _; pos_ := 6; ok_ := true |}) with
    (Some (le_combine [b6; b7; b8; b9]), mkReader [b0; b1; b2; b3; b4; b5; b6; b7; b8; b9; b10; b11; b12; b13] 10 true).
  cbv beta iota. destruct (_ <? le_combine [b6; b7; b8; b9]) eqn:El; [done|].
  change (ReadU32 {| bytes_ := _; pos_ := 10; ok_ := true |}) with
    (Some (le_combine [b10; b11; b12; b13]), mkReader [b0; b1; b2; b3; b4; b5; b6; b7; b8; b9; b10; b11; b12; b13] 14 true).
  cbv beta iota zeta. change (drop (Z.to_nat HEADER_SIZE) _) with body.
  assert (forall l, (14 + zlen body <? HEADER_SIZE + l) = (zlen body <? l)) as ->; [|done].
  intros l. unfold HEADER_SIZE. destruct (Z.ltb_spec (zlen body) l), (Z.ltb_spec (14 + zlen body) (14 + l)); lia.
Qed.
(** A buffer long enough for a header, cut into its fields. *)
Lemma header_split (buffer : bytes) : HEADER_SIZE <= zlen buffer ->
  exists m c l k body, buffer = m ++ c ++ l ++ k ++ body /\
    length m = 4%nat /\ length c = 2%nat /\ length l = 4%nat /\ length k = 4%nat.
Proof.
  intros Hb. exists (take 4 buffer), (take 2 (drop 4 buffer)), (take 4 (drop 6 buffer)), (take 4 (drop 10 buffer)), (drop 14 buffer).
  assert (forall n j, (n + j <= 14)%nat -> length (take n (drop j buffer)) = n) as Hl.
  { intros n j Hn. rewrite length_take, length_drop. unfold zlen, HEADER_SIZE in Hb. lia. }
  split; [|split_and!; [apply (Hl 4%nat 0%nat); lia|apply Hl; lia..]].
  rewrite <- (take_drop 4 buffer) at 1. f_equal. rewrite <- (take_drop 2 (drop 4 buffer)) at 1. f_equal. rewrite drop_drop.
  rewrite <- (take_drop 4 (drop (4 + 2) buffer)) at 1. f_equal. rewrite drop_drop.
  rewrite <- (take_drop 4 (drop (4 + 2 + 4) buffer)) at 1. by rewrite drop_drop.
Qed.

Lemma FrameMessage_fields m c l k body expected :
  length m = 4%nat -> length c = 2%nat -> length l = 4%nat -> length k = 4%nat ->
  FrameMessage (m ++ c ++ l ++ k ++ body) expected = judge m (le_combine c) (le_combine l) (le_combine k) body expected.
Proof.
  intros Hm Hc Hl Hk. do 4 (destruct m as [|? m]; [done|]). destruct m; [|done]. do 2 (destruct c as [|? c]; [done|]). destruct c; [|done].
  do 4 (destruct l as [|? l]; [done|]). destruct l; [|done]. do 4 (destruct k as [|? k]; [done|]). destruct k; [|done].
  apply FrameMessage_judge.
Qed.

Lemma MAX_MESSAGE_SIZE_eq : MAX_MESSAGE_SIZE = 4194304.
Proof. reflexivity. Qed.

Lemma SerialiseMessage_fields command payload magic : SerialiseMessage command payload magic =
  magic ++ le_split 2 (command_id command) ++ le_split 4 (wrapu 32 (zlen payload)) ++ le_split 4 (Checksum payload) ++ payload.
Proof.
  unfold SerialiseMessage, WriteBytes, WriteU16, WriteU32, AppendLittleEndian, new_Writer. by rewrite app_nil_l, <- !app_assoc.
Qed.

Lemma command_of_id id command : command_of id = Some command <-> id = command_id command.
Proof.
  split; [|intros ->; by destruct command]. unfold command_of. repeat case_match; try done; by intros [= <-].
Qed.

Lemma command_id_range command : 0 <= command_id command < COMMAND_COUNT.
Proof. destruct command; split; done. Qed.

Lemma Checksum_range payload : 0 <= Checksum payload < 2 ^ 32.
Proof.
  unfold Checksum. destruct (zlen payload =? 0); [done|]. pose proof (le_combine_range (take 4 (DoubleSha256 payload))) as R.
  assert (zlen (take 4 (DoubleSha256 payload)) <= 4) by (unfold zlen; rewrite length_take; lia).
  pose proof (zlen_nonneg (take 4 (DoubleSha256 payload))).
  assert (256 ^ zlen (take 4 (DoubleSha256 payload)) <= 256 ^ 4) by (apply Z.pow_le_mono_r; lia). lia.
Qed.

Lemma ValidateChecksum_spec payload checksum : ValidateChecksum payload checksum = true <-> checksum = Checksum payload.
Proof.
  unfold ValidateChecksum, Checksum. destruct (zlen payload =? 0); rewrite Z.eqb_eq; split; congruence.
Qed.

Lemma judge_Complete magic cmd len checksum body expected command payload consumed : 0 <= len ->
  judge magic cmd len checksum body expected = Complete command payload consumed <->
  magic = expected /\ cmd = command_id command /\ len <= MAX_MESSAGE_SIZE /\ checksum = Checksum payload /\
  zlen payload = len /\ consumed = HEADER_SIZE + len /\ exists tail, body = payload ++ tail.
Proof.
  intros Hlen. unfold judge. rewrite bool_decide_decide. destruct (decide (magic = expected)) as [->|]; cbn [negb]; [|naive_solver].
  destruct (IsKnownCommand cmd) eqn:Ek; cbn [negb].
  2:{ split; [done|]. intros (_ & -> & _). unfold IsKnownCommand in Ek. apply Z.ltb_ge in Ek. pose proof (command_id_range command). lia. }
  destruct (Z.ltb_spec MAX_MESSAGE_SIZE len); [naive_solver lia|].
  destruct (Z.ltb_spec (zlen body) len).
  { split; [done|]. intros (_ & _ & _ & _ & Hl & _ & t & ->). rewrite zlen_app in *. pose proof (zlen_nonneg t). lia. }
  assert (zlen (take (Z.to_nat len) body) = len) as Ht by (unfold zlen in *; rewrite length_take; lia).
  destruct (ValidateChecksum (take (Z.to_nat len) body) checksum) eqn:Ev; cbn [negb].
  - apply ValidateChecksum_spec in Ev. destruct (command_of cmd) as [c|] eqn:Ec.
    + apply command_of_id in Ec. split.
      * intros [= <- <- <-]. split_and!; try done. exists (drop (Z.to_nat len) body). by rewrite take_drop.
      * intros (_ & Hc & _ & _ & Hl & -> & t & ->). rewrite Ec in Hc. assert (c = command) as -> by (destruct c, command; done).
        f_equal. rewrite <- Hl. unfold zlen. by rewrite Nat2Z.id, take_app_length.
    + split; [done|]. intros (_ & Hc & _). apply command_of_id in Hc. congruence.
  - split; [done|]. intros (_ & _ & _ & Hk & Hl & _ & t & ->).
    assert (ValidateChecksum (take (Z.to_nat len) (payload ++ t)) checksum = true); [|congruence].
    apply ValidateChecksum_spec. rewrite <- Hl. unfold zlen at 1. by rewrite Nat2Z.id, take_app_length.
Qed.

Lemma short_needs_more buffer magic : zlen buffer < HEADER_SIZE -> FrameMessage buffer magic = NeedMore.
Proof. intros Hb. unfold FrameMessage. by rewrite (proj2 (Z.ltb_lt _ _) Hb). Qed.

Lemma judge_extend magic cmd len checksum body expected more : 0 <= len ->
  judge magic cmd len checksum body expected <> NeedMore ->
  judge magic cmd len checksum (body ++ more) expected = judge magic cmd len checksum body expected.
Proof.
  intros Hlen. unfold judge. destruct (negb _); [done|]. destruct (negb (IsKnownCommand cmd)); [done|].
  destruct (MAX_MESSAGE_SIZE <? len); [done|]. destruct (Z.ltb_spec (zlen body) len); [done|]. intros _.
  rewrite zlen_app. pose proof (zlen_nonneg more). rewrite (proj2 (Z.ltb_ge _ _)) by lia.
  rewrite take_app_le by (unfold zlen in *; lia). done.
Qed.
Lemma FrameMessage_Complete (buffer magic : bytes) (command : Command) (payload : bytes) (consumed : Z)
    (Hm : zlen magic = 4) :
  FrameMessage buffer magic = Complete command payload consumed <->
  zlen payload <= MAX_MESSAGE_SIZE /\ consumed = HEADER_SIZE + zlen payload /\
  exists tail, buffer = SerialiseMessage command payload magic ++ tail.
Proof.
  assert (length magic = 4%nat) as Lm by (unfold zlen in Hm; lia). split.
  - destruct (Z.lt_ge_cases (zlen buffer) HEADER_SIZE) as [Hs|Hs]; [by rewrite short_needs_more|].
    destruct (header_split buffer Hs) as (m & c & l & k & body & -> & H1 & H2 & H3 & H4).
    rewrite FrameMessage_fields by done. pose proof (le_combine_range l) as Rl.
    intros (-> & Ec & Hl & Ek & Hp & -> & tail & ->)%judge_Complete; [|lia]. rewrite Hp. split_and!; [done|done|]. exists tail.
    rewrite SerialiseMessage_fields, Hp, <- Ec, <- Ek. rewrite wrapu_small by (rewrite MAX_MESSAGE_SIZE_eq in Hl; lia).
    rewrite !le_split_le_combine by done. by rewrite <- !app_assoc.
  - intros (Hp & -> & tail & ->). rewrite SerialiseMessage_fields, <- !app_assoc. pose proof (zlen_nonneg payload).
    assert (zlen payload < 2 ^ 32) as Hs by (rewrite MAX_MESSAGE_SIZE_eq in Hp; lia).
    rewrite FrameMessage_fields by (done || apply length_le_split). pose proof (command_id_range command). pose proof (Checksum_range payload).
    rewrite !le_combine_le_split by (rewrite ?wrapu_small; unfold COMMAND_COUNT in *; lia). rewrite wrapu_small by lia.
    apply judge_Complete; [lia|]. split_and!; try done. by exists tail.
Qed.
End meaning.

(** ** The theorems *)

(** C30: Framing is exact.  A buffer frames as a message exactly when it starts with
    the one serialisation of that message (magic, command, length, checksum, payload)
    of at most the size limit, and exactly that is consumed; nothing a peer can send
    frames as anything else. *)
Theorem framing_exact `{Sha256Impl} (buffer magic : bytes) (command : Command) (payload : bytes) (consumed : Z)
    (Hm : zlen magic = 4) :
  FrameMessage buffer magic = Complete command payload consumed <->
  zlen payload <= MAX_MESSAGE_SIZE /\ consumed = HEADER_SIZE + zlen payload /\
  exists tail, buffer = SerialiseMessage command payload magic ++ tail.
Proof. by apply FrameMessage_Complete. Qed.

Lemma framing_exact_witness :
  FrameMessage (H := toy_Sha256Impl) (SerialiseMessage (H := toy_Sha256Impl) Ping (replicate 8 Byte.x05) (replicate 4 Byte.x01) ++ [Byte.x09])
    (replicate 4 Byte.x01) = Complete Ping (replicate 8 Byte.x05) 22.
Proof.
  apply (framing_exact (H := toy_Sha256Impl)); [reflexivity|]. split; [vm_compute; discriminate|]. split; [reflexivity|]. by exists [Byte.x09].
Defined.

(** Framing a stream is stable and bounded: once a buffer has been judged, whatever
    arrives behind it does not change the judgement; and a reader that waits for more
    holds fewer bytes than a header and the largest payload. *)
Theorem framing_stable `{Sha256Impl} (buffer magic more : bytes) :
  (FrameMessage buffer magic <> NeedMore -> FrameMessage (buffer ++ more) magic = FrameMessage buffer magic) /\
  (FrameMessage buffer magic = NeedMore -> zlen buffer < HEADER_SIZE + MAX_MESSAGE_SIZE).
Proof.
  destruct (Z.lt_ge_cases (zlen buffer) HEADER_SIZE) as [Hs|Hs].
  { rewrite short_needs_more by done. split; [done|]. intros _. rewrite MAX_MESSAGE_SIZE_eq. unfold HEADER_SIZE in *. lia. }
  destruct (header_split buffer Hs) as (m & c & l & k & body & -> & H1 & H2 & H3 & H4). rewrite <- !app_assoc.
  rewrite !FrameMessage_fields by done. pose proof (le_combine_range l). split; [apply judge_extend; lia|].
  unfold judge. destruct (negb _); [done|]. destruct (negb (IsKnownCommand _)); [done|].
  destruct (Z.ltb_spec MAX_MESSAGE_SIZE (le_combine l)); [done|]. destruct (Z.ltb_spec (zlen body) (le_combine l)).
  - intros _. rewrite !zlen_app. unfold zlen in *. rewrite H1, H2, H3, H4. unfold HEADER_SIZE. lia.
  - destruct (negb _); [done|]. by destruct (command_of _).
Qed.

End Message.
