(* ===== verification/Protocol.v ===== *)
(** * Message payloads (net/protocol.hpp, src/net/protocol.cpp)

    The records peers exchange, each with the encoder and the decoder of the source,
    and the contract [Codec] that ties the two together. *)

From S2P Require Import Prelude Overflow Serialize Crypto Primitives.
#[local] Open Scope Z_scope.

Module Protocol.

(** ** Records *)

Definition NODE_NONE : Z := 0.
Definition NODE_HISTORICAL : Z := 1.
Definition NODE_RELAY : Z := 2.

Record HelloPayload := mkHello {
  protocol_version : Z;
  services : Z;
  timestamp : Z;
  hello_chain_id : bytes;
  best_height : Z;
  nonce : Z;
  user_agent : bytes }.

Record HelloAckPayload := mkHelloAck { }.

Record GetHeadersPayload := mkGetHeaders {
  gh_protocol_version : Z;
  locator : list bytes;
  stop_hash : bytes }.

Record HeadersPayload := mkHeaders { headers : list BlockHeader }.
Definition HeadersPayload_MAX_COUNT : Z := 2000.

(** [enum class InventoryType : uint32_t]; a decoded value is any 32-bit number. *)
Definition InventoryType_Error : Z := 0.
Definition InventoryType_Transaction : Z := 1.
Definition InventoryType_Block : Z := 2.

Record Inventory := mkInventory { inv_type : Z; inv_hash : bytes }.

Record GetDataPayload := mkGetData { items : list Inventory }.

Record NetworkAddress := mkAddress { addr_ver : Z; address : bytes; port : Z }.

Record AddrPayload := mkAddr { addresses : list NetworkAddress }.

Record PingPayload := mkPing { ping_nonce : Z }.

#[global] Instance Inventory_eq_dec : EqDecision Inventory.
Proof. solve_decision. Defined.
#[global] Instance NetworkAddress_eq_dec : EqDecision NetworkAddress.
Proof. solve_decision. Defined.

(** ** Encoders and decoders *)

(** [ReadCompactSize], the limit, and that many elements: the statements the vector
    decoders share. *)
Definition read_bounded {A} (max min_element_bytes : Z) (de : Read A) : Read (list A) :=
  count ← ReadCompactSize min_element_bytes;
  if count >? max then Fail else read_many de (Z.to_nat count).

Definition ReadHash256Vec (max_items : Z) : Read (list bytes) := read_bounded max_items 32 ReadHash256.
Definition WriteHash256Vec (vec : list bytes) (w : Writer) : Writer :=
  write_all WriteHash256 vec (WriteCompactSize (zlen vec) w).

Definition SerializeInventory (inv : Inventory) (w : Writer) : Writer :=
  WriteHash256 (inv_hash inv) (WriteU32 (inv_type inv) w).
Definition DeserializeInventory : Read Inventory :=
  raw_type ← ReadU32; hash ← ReadHash256; mret (mkInventory raw_type hash).

Definition HelloPayload_Serialize (h : HelloPayload) (w : Writer) : Writer :=
  let w := WriteU32 (protocol_version h) w in
  let w := WriteU64 (services h) w in
  let w := WriteI64 (timestamp h) w in
  let w := WriteHash256 (hello_chain_id h) w in
  let w := WriteU32 (best_height h) w in
  let w := WriteU64 (nonce h) w in
  WriteByteString (user_agent h) w.

Definition HelloPayload_Deserialize (max_user_agent_len : Z) : Read HelloPayload :=
  version ← ReadU32; services ← ReadU64; timestamp ← ReadI64; chain_id ← ReadHash256;
  height ← ReadU32; nonce ← ReadU64; ua ← ReadByteString max_user_agent_len;
  mret (mkHello version services timestamp chain_id height nonce ua).

Definition HelloAckPayload_Serialize (_ : HelloAckPayload) (w : Writer) : Writer := w.
Definition HelloAckPayload_Deserialize : Read HelloAckPayload := mret mkHelloAck.

Definition GetHeadersPayload_Serialize (g : GetHeadersPayload) (w : Writer) : Writer :=
  WriteHash256 (stop_hash g) (WriteHash256Vec (locator g) (WriteU32 (gh_protocol_version g) w)).
Definition GetHeadersPayload_Deserialize (max_items : Z) : Read GetHeadersPayload :=
  version ← ReadU32; locator ← ReadHash256Vec max_items; stop ← ReadHash256;
  mret (mkGetHeaders version locator stop).

Definition HeadersPayload_Serialize (h : HeadersPayload) (w : Writer) : Writer :=
  write_all BlockHeader_Serialize (headers h) (WriteCompactSize (zlen (headers h)) w).
Definition HeadersPayload_Deserialize : Read HeadersPayload :=
  hs ← read_bounded HeadersPayload_MAX_COUNT BlockHeader_SERIALIZED_SIZE BlockHeader_Deserialize; mret (mkHeaders hs).

Definition GetDataPayload_Serialize (g : GetDataPayload) (w : Writer) : Writer :=
  write_all SerializeInventory (items g) (WriteCompactSize (zlen (items g)) w).
Definition GetDataPayload_Deserialize (max_items : Z) : Read GetDataPayload :=
  l ← read_bounded max_items 36 DeserializeInventory; mret (mkGetData l).

Definition TxPayload_Serialize (tx : Transaction) (w : Writer) : Writer := Transaction_Serialize tx w.
Definition TxPayload_Deserialize (limits : TxLimits) : Read Transaction := Transaction_Deserialize limits.
Definition BlockPayload_Serialize (b : Block) (w : Writer) : Writer := Block_Serialize b w.
Definition BlockPayload_Deserialize (limits : BlockLimits) : Read Block := Block_Deserialize limits.

Definition NetworkAddress_Serialize (a : NetworkAddress) (w : Writer) : Writer :=
  WriteU16 (port a) (WriteBytes (address a) (WriteU8 (addr_ver a) w)).
Definition NetworkAddress_Deserialize : Read NetworkAddress :=
  ver ← ReadU8; bytes ← ReadBytes 16; port ← ReadU16; mret (mkAddress ver bytes port).

Definition AddrPayload_Serialize (a : AddrPayload) (w : Writer) : Writer :=
  write_all NetworkAddress_Serialize (addresses a) (WriteCompactSize (zlen (addresses a)) w).
Definition AddrPayload_Deserialize (max_items : Z) : Read AddrPayload :=
  l ← read_bounded max_items 19 NetworkAddress_Deserialize; mret (mkAddr l).

Definition PingPayload_Serialize (p : PingPayload) (w : Writer) : Writer := WriteU64 (ping_nonce p) w.
Definition PingPayload_Deserialize : Read PingPayload := n ← ReadU64; mret (mkPing n).

(** ** Well-formed payloads *)

Definition Inventory_ok (i : Inventory) : Prop := u32 (inv_type i) /\ is_hash (inv_hash i).
Definition HelloPayload_ok (max : Z) (h : HelloPayload) : Prop :=
  u32 (protocol_version h) /\ u64 (services h) /\ i64 (timestamp h) /\ is_hash (hello_chain_id h) /\
  u32 (best_height h) /\ u64 (nonce h) /\ zlen (user_agent h) <= max.
Definition GetHeadersPayload_ok (max : Z) (g : GetHeadersPayload) : Prop :=
  u32 (gh_protocol_version g) /\ (Forall is_hash (locator g) /\ zlen (locator g) <= max) /\ is_hash (stop_hash g).
Definition HeadersPayload_ok (h : HeadersPayload) : Prop :=
  Forall BlockHeader_ok (headers h) /\ zlen (headers h) <= HeadersPayload_MAX_COUNT.
Definition GetDataPayload_ok (max : Z) (g : GetDataPayload) : Prop :=
  Forall Inventory_ok (items g) /\ zlen (items g) <= max.
Definition NetworkAddress_ok (a : NetworkAddress) : Prop := u8 (addr_ver a) /\ zlen (address a) = 16 /\ u16 (port a).
Definition AddrPayload_ok (max : Z) (a : AddrPayload) : Prop :=
  Forall NetworkAddress_ok (addresses a) /\ zlen (addresses a) <= max.
Definition PingPayload_ok (p : PingPayload) : Prop := u64 (ping_nonce p).
(** ** The contracts *)

(** The count a vector decoder settles on. *)
Definition bounded_count (max m : Z) : Read Z := count ← ReadCompactSize m; if count >? max then Fail else mret count.

Lemma bounded_count_prefix max m : 0 < m -> CountPrefix (bounded_count max m) max m.
Proof.
  intros Hm. eapply limit_prefix; [by apply ReadCompactSize_prefix| |]; unfold bounded_count, mbind, read_bind.
  - intros r v r' -> Hu. by destruct (v >? max).
  - intros r r' ->. auto.
Qed.

Lemma codec_bounded {A} (ser : A -> Writer -> Writer) (dec : Read A) (wf : A -> Prop) max m :
  (forall x, Appends (ser x)) -> Codec (encode ser) dec wf -> 0 < m -> max < 2 ^ 64 ->
  (forall x, wf x -> m <= zlen (encode ser x)) ->
  Codec (encode (write_vector ser)) (read_bounded max m dec) (fun l => Forall wf l /\ zlen l <= max).
Proof.
  intros Happ C Hm Hmax Hsize. apply (codec_ext _ (n ← bounded_count max m; read_many dec (Z.to_nat n))).
  { intros r. unfold bounded_count, read_bounded, mbind, read_bind. destruct (ReadCompactSize m r) as [[v|] r']; [|done].
    by destruct (v >? max). }
  eapply codec_proper; [eapply (codec_counted (bounded_count max m) max m
    (fun n => read_many dec (Z.to_nat n)) (fun l => write_all ser l []) zlen (Forall wf))| |].
  - by apply bounded_count_prefix.
  - done.
  - intros n Hn. eapply codec_proper; [by apply codec_read_many| |done].
    intros l. cbv beta. split; intros []; split; try done; mlia.
  - intros l W. split; [apply zlen_nonneg|by eapply write_all_size].
  - done.
  - intros l _. cbv beta. by rewrite (encode_write_vector ser l Happ).
Qed.

#[global] Instance appends_Inventory i : Appends (SerializeInventory i).
Proof. solve_appends SerializeInventory. Qed.
#[global] Instance appends_NetworkAddress a : Appends (NetworkAddress_Serialize a).
Proof. intros w. unfold NetworkAddress_Serialize, WriteBytes. autorewrite with enc. by rewrite ?app_nil_l, <- ?app_assoc. Qed.

Lemma flat_Inventory i : encode SerializeInventory i = encode WriteU32 (inv_type i) ++ encode WriteHash256 (inv_hash i) ++ [].
Proof. flat_enc SerializeInventory. Qed.

#[global] Instance codec_Inventory : Codec (encode SerializeInventory) DeserializeInventory Inventory_ok.
Proof. eapply codec_struct; [|exact flat_Inventory]. field inv_type. field inv_hash. struct_done. Qed.

Lemma flat_Hello h : encode HelloPayload_Serialize h =
  encode WriteU32 (protocol_version h) ++ encode WriteU64 (services h) ++ encode WriteI64 (timestamp h) ++
  encode WriteHash256 (hello_chain_id h) ++ encode WriteU32 (best_height h) ++ encode WriteU64 (nonce h) ++
  encode WriteByteString (user_agent h) ++ [].
Proof. flat_enc HelloPayload_Serialize. Qed.

Lemma codec_Hello max : u64 max -> Codec (encode HelloPayload_Serialize) (HelloPayload_Deserialize max) (HelloPayload_ok max).
Proof.
  intros Hmax. assert (Codec (encode WriteByteString) (ReadByteString max) (fun b => zlen b <= max)) by (apply codec_ByteString; mlia).
  eapply codec_struct; [|exact flat_Hello]. field protocol_version. field services. field timestamp. field hello_chain_id.
  field best_height. field nonce. field user_agent. struct_done.
Qed.

Lemma flat_GetHeaders g : encode GetHeadersPayload_Serialize g =
  encode WriteU32 (gh_protocol_version g) ++ encode (write_vector WriteHash256) (locator g) ++ encode WriteHash256 (stop_hash g) ++ [].
Proof.
  intros. unfold encode at 1, GetHeadersPayload_Serialize, WriteHash256Vec, new_Writer. rewrite snoc_vector by apply _.
  autorewrite with enc. by rewrite ?app_nil_r, <- ?app_assoc.
Qed.

Lemma codec_GetHeaders max : max < 2 ^ 64 ->
  Codec (encode GetHeadersPayload_Serialize) (GetHeadersPayload_Deserialize max) (GetHeadersPayload_ok max).
Proof.
  intros Hmax. assert (Codec (encode (write_vector WriteHash256)) (ReadHash256Vec max) (fun l => Forall is_hash l /\ zlen l <= max)).
  { apply codec_bounded; [apply _|apply _|done|done|]. intros x Hx. rewrite zlen_Hash256. unfold is_hash in Hx. lia. }
  eapply codec_struct; [|exact flat_GetHeaders]. field gh_protocol_version. field locator. field stop_hash. struct_done.
Qed.

(** A payload that is one vector. *)
Lemma codec_wrapped {A B} (ser : A -> Writer -> Writer) (dec : Read (list A)) (wf : list A -> Prop) (pi : B -> list A) (mk : list A -> B)
    (serB : B -> Writer -> Writer) (wfB : B -> Prop) :
  (forall l, pi (mk l) = l) -> (forall b, mk (pi b) = b) -> (forall b, wfB b <-> wf (pi b)) ->
  (forall b, encode serB b = encode (write_vector ser) (pi b)) ->
  Codec (encode (write_vector ser)) dec wf -> Codec (encode serB) (l ← dec; mret (mk l)) wfB.
Proof.
  intros Hpm Hmp Hwf He C. eapply (codec_struct _ (fun b => encode (write_vector ser) (pi b) ++ []));
    [|intros b; by rewrite He, app_nil_r].
  eapply (codec_field pi); [exact C|intros l Hl|intros b _ Hb; by apply Hwf].
  apply codec_done; [by rewrite Hpm|by apply Hwf; rewrite Hpm|]. intros b [_ Hb] _. by rewrite <- (Hmp b), Hb.
Qed.

Lemma codec_Headers : Codec (encode HeadersPayload_Serialize) HeadersPayload_Deserialize HeadersPayload_ok.
Proof.
  eapply (codec_wrapped BlockHeader_Serialize _ (fun l => Forall BlockHeader_ok l /\ zlen l <= HeadersPayload_MAX_COUNT) headers mkHeaders); [done|by intros []|done|done|].
  apply codec_bounded; [apply _|apply _|done|done|]. intros x Hx. rewrite flat_BlockHeader. autorewrite with amarian.
  destruct Hx as (_ & _ & H1 & H2 & _). rewrite H1, H2. done.
Qed.

Lemma codec_GetData max : max < 2 ^ 64 -> Codec (encode GetDataPayload_Serialize) (GetDataPayload_Deserialize max) (GetDataPayload_ok max).
Proof.
  intros Hmax. eapply (codec_wrapped SerializeInventory _ (fun l => Forall Inventory_ok l /\ zlen l <= max) items mkGetData); [done|by intros []|done|done|].
  apply codec_bounded; [apply _|apply _|done|done|]. intros x [_ Hx]. rewrite flat_Inventory. autorewrite with amarian.
  unfold is_hash in Hx. rewrite Hx. done.
Qed.

Lemma flat_NetworkAddress a : encode NetworkAddress_Serialize a =
  encode WriteU8 (addr_ver a) ++ encode WriteBytes (address a) ++ encode WriteU16 (port a) ++ [].
Proof. unfold encode at 1, NetworkAddress_Serialize, new_Writer, WriteBytes. autorewrite with enc. by rewrite ?app_nil_l, ?app_nil_r, <- ?app_assoc. Qed.

#[global] Instance codec_NetworkAddress : Codec (encode NetworkAddress_Serialize) NetworkAddress_Deserialize NetworkAddress_ok.
Proof.
  assert (Codec (encode WriteBytes) (ReadBytes 16) (fun b => zlen b = 16)).
  { eapply codec_proper; [by apply (codec_Consume 16)|done|done]. }
  eapply codec_struct; [|exact flat_NetworkAddress]. field addr_ver. field address. field port. struct_done.
Qed.

Lemma codec_Addr max : max < 2 ^ 64 -> Codec (encode AddrPayload_Serialize) (AddrPayload_Deserialize max) (AddrPayload_ok max).
Proof.
  intros Hmax. eapply (codec_wrapped NetworkAddress_Serialize _ (fun l => Forall NetworkAddress_ok l /\ zlen l <= max) addresses mkAddr); [done|by intros []|done|done|].
  apply codec_bounded; [apply _|apply _|done|done|]. intros x (_ & Hx & _). rewrite flat_NetworkAddress. autorewrite with amarian.
  change (encode WriteBytes (address x)) with (address x). rewrite Hx. done.
Qed.

Lemma flat_Ping p : encode PingPayload_Serialize p = encode WriteU64 (ping_nonce p) ++ [].
Proof. flat_enc PingPayload_Serialize. Qed.

Lemma codec_Ping : Codec (encode PingPayload_Serialize) PingPayload_Deserialize PingPayload_ok.
Proof. eapply codec_struct; [|exact flat_Ping]. field ping_nonce. struct_done. Qed.

(** ** The theorems *)

(** Every payload has one encoding.  A buffer parses as a hello, a getheaders, a
    headers, an inventory, an addr or a ping exactly when it is the encoding of a
    well-formed one within the limit: its fields fit their widths and its lists the
    limit the caller gives. *)
Theorem payloads_canonical (bs : bytes) (max : Z) (Hb : zlen bs < 2 ^ 64) (Hm : 0 <= max < 2 ^ 64) :
  (forall h, Parse (HelloPayload_Deserialize max) bs = Some h <-> HelloPayload_ok max h /\ bs = encode HelloPayload_Serialize h) /\
  (forall g, Parse (GetHeadersPayload_Deserialize max) bs = Some g <-> GetHeadersPayload_ok max g /\ bs = encode GetHeadersPayload_Serialize g) /\
  (forall h, Parse HeadersPayload_Deserialize bs = Some h <-> HeadersPayload_ok h /\ bs = encode HeadersPayload_Serialize h) /\
  (forall g, Parse (GetDataPayload_Deserialize max) bs = Some g <-> GetDataPayload_ok max g /\ bs = encode GetDataPayload_Serialize g) /\
  (forall a, Parse (AddrPayload_Deserialize max) bs = Some a <-> AddrPayload_ok max a /\ bs = encode AddrPayload_Serialize a) /\
  (forall p, Parse PingPayload_Deserialize bs = Some p <-> PingPayload_ok p /\ bs = encode PingPayload_Serialize p).
Proof.
  split_and!; intros x; apply codec_parse; try done.
  - apply codec_Hello. unfold u64. lia.
  - apply codec_GetHeaders. lia.
  - apply codec_Headers.
  - apply codec_GetData. lia.
  - apply codec_Addr. lia.
  - apply codec_Ping.
Qed.

Definition sample_inventory : GetDataPayload := mkGetData [mkInventory 2 (replicate 32 Byte.x07)].

Lemma payloads_canonical_witness :
  Parse (GetDataPayload_Deserialize 2000) (encode GetDataPayload_Serialize sample_inventory) = Some sample_inventory.
Proof.
  destruct (payloads_canonical (encode GetDataPayload_Serialize sample_inventory) 2000) as (_ & _ & _ & Hg & _);
    [vm_compute; reflexivity|split; [discriminate|reflexivity]|].
  apply (Hg sample_inventory). split; [|reflexivity].
  split; [constructor; [split; [split; [discriminate|reflexivity]|reflexivity]|constructor]|vm_compute; discriminate].
Defined.

End Protocol.
