(* ===== verification/Handshake.v ===== *)
(** * The handshake (net/handshake.hpp, src/net/handshake.cpp)

    The machine that decides when a connection is live: each side sends a hello,
    acknowledges the other's, and is done when its own has been acknowledged. *)

From Stdlib Require Import String.
From S2P Require Import Prelude Overflow Serialize Crypto Primitives Target Work Asert Issuance Params Protocol.
#[local] Open Scope Z_scope.

Module Handshake.
Import Params Protocol.

Record PeerHello := mkPeerHello {
  peer_protocol_version : Z;
  peer_services : Z;
  peer_timestamp : Z;
  peer_chain_id : bytes;
  peer_best_height : Z;
  peer_nonce : Z;
  peer_user_agent : bytes }.

Definition no_peer : PeerHello := mkPeerHello 0 NODE_NONE 0 (replicate 32 Byte.x00) 0 0 [].

Inductive HandshakeState :=
  | AwaitingSendHello
  | AwaitingReceiveHello
  | AwaitingReceiveHelloAck
  | Complete
  | Failed.

#[global] Instance HandshakeState_eq_dec : EqDecision HandshakeState.
Proof. solve_decision. Defined.

Record Handshake := mkHandshake {
  params_ : ChainParams;
  local_nonce_ : Z;
  state_ : HandshakeState;
  peer_ : PeerHello;
  failure_reason_ : string }.

Definition new_Handshake (params : ChainParams) (local_nonce : Z) : Handshake :=
  mkHandshake params local_nonce AwaitingSendHello no_peer "".

Definition State (h : Handshake) : HandshakeState := state_ h.
Definition FailureReason (h : Handshake) : string := failure_reason_ h.

Definition set_state (st : HandshakeState) (h : Handshake) : Handshake :=
  mkHandshake (params_ h) (local_nonce_ h) st (peer_ h) (failure_reason_ h).

Definition fail (reason : string) (h : Handshake) : Handshake :=
  mkHandshake (params_ h) (local_nonce_ h) Failed (peer_ h) reason.

(** ["amarian/0.1"] *)
Definition USER_AGENT : bytes := map z2b [0x61; 0x6d; 0x61; 0x72; 0x69; 0x61; 0x6e; 0x2f; 0x30; 0x2e; 0x31].

Definition BuildHello (h : Handshake) : HelloPayload :=
  mkHello 1 (Z.lor NODE_HISTORICAL NODE_RELAY) (genesis_timestamp (params_ h)) (chain_id (params_ h)) 0 (local_nonce_ h)
    USER_AGENT.

Definition BuildHelloAck : HelloAckPayload := mkHelloAck.

Definition OnSendHello (h : Handshake) : Handshake :=
  match state_ h with AwaitingSendHello => set_state AwaitingReceiveHello h | _ => h end.

Definition OnReceiveHello (h : Handshake) : Handshake :=
  match state_ h with
  | AwaitingSendHello | AwaitingReceiveHello => set_state AwaitingReceiveHelloAck h
  | _ => h
  end.

(** The fields copied out of a hello. *)
Definition peer_of (hello : HelloPayload) : PeerHello :=
  mkPeerHello (protocol_version hello) (services hello) (timestamp hello) (hello_chain_id hello) (best_height hello)
    (nonce hello) (user_agent hello).

Definition ReceiveHello (hello : HelloPayload) (h : Handshake) : option HelloAckPayload * Handshake :=
  if negb (bool_decide (hello_chain_id hello = chain_id (params_ h)))
  then (None, fail "peer is on a different network" h)
  else if nonce hello =? local_nonce_ h then (None, fail "connected to self" h)
  else if protocol_version hello <? 1 then (None, fail "peer protocol version too old" h)
  else (Some mkHelloAck,
        mkHandshake (params_ h) (local_nonce_ h) AwaitingReceiveHelloAck (peer_of hello) (failure_reason_ h)).

Definition OnSendHelloAck (h : Handshake) : Handshake := h.

Definition OnReceiveHelloAck (h : Handshake) : bool * Handshake :=
  match state_ h with
  | AwaitingReceiveHelloAck => (true, set_state Complete h)
  | _ => (false, fail "received HelloAck at unexpected time" h)
  end.

(** The assertion on the state is [None] when it fails. *)
Definition Peer (h : Handshake) : option PeerHello :=
  match state_ h with Complete => Some (peer_ h) | _ => None end.

(** ** What completion means *)

(** The calls a connection makes. *)
Inductive Event := SendHello | ReceivedHello (hello : HelloPayload) | ReceivedHelloAck.

Definition on_event (e : Event) (h : Handshake) : Handshake :=
  match e with
  | SendHello => OnSendHello h
  | ReceivedHello hello => (ReceiveHello hello h).2
  | ReceivedHelloAck => (OnReceiveHelloAck h).2
  end.

(** A peer this node may talk to. *)
Definition vetted (h : Handshake) (hello : HelloPayload) : Prop :=
  hello_chain_id hello = chain_id (params_ h) /\ nonce hello <> local_nonce_ h /\ 1 <= protocol_version hello.

Lemma ReceiveHello_Some hello h ack h' : ReceiveHello hello h = (Some ack, h') <->
  vetted h hello /\ ack = mkHelloAck /\
  h' = mkHandshake (params_ h) (local_nonce_ h) AwaitingReceiveHelloAck (peer_of hello) (failure_reason_ h).
Proof.
  unfold ReceiveHello, vetted. rewrite bool_decide_decide. destruct (decide _); cbn [negb]; [|naive_solver].
  destruct (Z.eqb_spec (nonce hello) (local_nonce_ h)); [naive_solver|].
  destruct (Z.ltb_spec (protocol_version hello) 1); [naive_solver lia|].
  destruct ack. split; [intros [= <-]; naive_solver lia|intros (_ & _ & ->); done].
Qed.

(** What a sequence of events leaves: in the last two states the peer is one of the
    hellos received, and it was vetted; completion needs an acknowledgement after it. *)
Record met (params : ChainParams) (local_nonce : Z) (es : list Event) (h : Handshake) : Prop := {
  met_params : params_ h = params;
  met_nonce : local_nonce_ h = local_nonce;
  met_hello : state_ h = AwaitingReceiveHelloAck \/ state_ h = Complete ->
    exists hello pre post, es = pre ++ ReceivedHello hello :: post /\ vetted h hello /\ peer_ h = peer_of hello;
  met_ack : state_ h = Complete ->
    exists hello pre mid post, es = pre ++ ReceivedHello hello :: mid ++ ReceivedHelloAck :: post /\
      vetted h hello /\ peer_ h = peer_of hello }.

Lemma met_step params n es h e : met params n es h -> met params n (es ++ [e]) (on_event e h).
Proof.
  intros [Hp Hn Hh Ha]. destruct e as [|hello|]; cbn [on_event].
  - unfold OnSendHello. assert (met params n (es ++ [SendHello]) h) as M.
    { split; [done|done| |].
      - intros (hello & pre & post & -> & V & P)%Hh. exists hello, pre, (post ++ [SendHello]). by rewrite <- app_assoc.
      - intros (hello & pre & mid & post & -> & V & P)%Ha. exists hello, pre, mid, (post ++ [SendHello]).
        split_and!; [by rewrite <- !app_assoc; cbn; rewrite <- app_assoc|done|done]. }
    destruct (state_ h) eqn:E; try done. split; cbn; try done. by intros [?|?].
  - destruct (ReceiveHello hello h) as [[ack|] h'] eqn:E; cbn [snd].
    + apply ReceiveHello_Some in E as (V & _ & ->). split; cbn; try done. intros _.
      exists hello, es, []. done.
    + assert (state_ h' = Failed /\ params_ h' = params_ h /\ local_nonce_ h' = local_nonce_ h) as (Es & Ep & En).
      { unfold ReceiveHello in E. repeat case_match; simplify_eq; done. }
      split; [congruence|congruence| |]; rewrite Es; [by intros [?|?]|done].
  - unfold OnReceiveHelloAck. destruct (state_ h) eqn:E; cbn [snd]; (split; [done|done| |]); cbn; try (by intros [?|?]); try done.
    + intros _. destruct Hh as (hello & pre & post & -> & V & P); [by left|]. exists hello, pre, (post ++ [ReceivedHelloAck]).
      by rewrite <- app_assoc.
    + intros _. destruct Hh as (hello & pre & post & -> & V & P); [by left|]. exists hello, pre, post, []. by rewrite <- app_assoc.
Qed.

Lemma met_all params n es : met params n es (fold_left (fun h e => on_event e h) es (new_Handshake params n)).
Proof.
  induction es as [|e es IH] using rev_ind; [split; cbn; try done; by intros [?|?]|].
  rewrite fold_left_app. by apply met_step.
Qed.

(** ** The theorems *)

(** A handshake completes only with a vetted peer: after any sequence of hellos
    sent, hellos received and acknowledgements received, if the machine says complete
    then some hello received before some acknowledgement carried this network's chain
    id, a nonce other than this node's and a supported version, and the peer reported
    is the one in that hello. *)
Theorem handshake_vets_peer (params : ChainParams) (local_nonce : Z) (es : list Event)
    (E : State (fold_left (fun h e => on_event e h) es (new_Handshake params local_nonce)) = Complete) :
  exists hello pre mid post, es = pre ++ ReceivedHello hello :: mid ++ ReceivedHelloAck :: post /\
    hello_chain_id hello = chain_id params /\ nonce hello <> local_nonce /\ 1 <= protocol_version hello /\
    Peer (fold_left (fun h e => on_event e h) es (new_Handshake params local_nonce)) = Some (peer_of hello).
Proof.
  destruct (met_all params local_nonce es) as [Hp Hn _ Ha]. destruct (Ha E) as (hello & pre & mid & post & -> & (V1 & V2 & V3) & P).
  exists hello, pre, mid, post. rewrite Hp, Hn in *. split_and!; try done. unfold Peer. unfold State in E. by rewrite E, P.
Qed.

Definition sample_hello (nonce : Z) : HelloPayload := BuildHello (new_Handshake REGTEST_PARAMS nonce).

Lemma handshake_vets_peer_witness :
  exists hello, nonce hello <> 7 /\ Peer (fold_left (fun h e => on_event e h)
    [SendHello; ReceivedHello (sample_hello 8); ReceivedHelloAck] (new_Handshake REGTEST_PARAMS 7)) = Some (peer_of hello).
Proof.
  destruct (handshake_vets_peer REGTEST_PARAMS 7 [SendHello; ReceivedHello (sample_hello 8); ReceivedHelloAck] ltac:(vm_compute; reflexivity))
    as (hello & _ & _ & _ & _ & _ & Hn & _ & P).
  exists hello. split; [exact Hn|exact P].
Defined.

(** Recording a hello without judging it, as [OnReceiveHello] does, lets an
    acknowledgement complete a handshake with no peer at all. *)
Lemma unjudged_hello_completes params n :
  Peer (OnReceiveHelloAck (OnReceiveHello (new_Handshake params n))).2 = Some no_peer.
Proof. reflexivity. Qed.

(** A failed machine goes on when another hello arrives. *)
Lemma failure_is_not_final params n hello : vetted (new_Handshake params n) hello ->
  State (on_event ReceivedHelloAck (on_event (ReceivedHello hello) (on_event ReceivedHelloAck (new_Handshake params n)))) = Complete.
Proof.
  intros V. change (on_event ReceivedHelloAck (new_Handshake params n)) with (fail "received HelloAck at unexpected time" (new_Handshake params n)).
  set (h := fail _ _). assert (ReceiveHello hello h = (Some mkHelloAck,
    mkHandshake params n AwaitingReceiveHelloAck (peer_of hello) (failure_reason_ h))) as E by (by apply ReceiveHello_Some).
  cbn [on_event]. by rewrite E.
Qed.
End Handshake.
