(* ===== verification/Sync.v ===== *)
(** * Headers-first synchronisation (net/sync.hpp, src/net/sync.cpp)

    The locator a node describes its chain with, and the small machine that asks for
    headers and reports which blocks to fetch.  What is sent through the callbacks is a
    list of messages.  [None] stands for what the code leaves undefined (a null best
    header dereferenced) or for fuel that ran out. *)

From S2P Require Import Prelude Overflow Serialize Hex Crypto Primitives Target Work Asert Issuance Params Merkle Sighash Validation Genesis BlockIndex Message Protocol.
#[local] Open Scope Z_scope.

Module Sync.
Import Params BlockIndex Protocol.

Inductive SyncState := AwaitingGetHeaders | AwaitingHeaders | ValidatingHeaders | DownloadingBlocks | Synced.

Section sync.
Context `{SH : Sha256Impl}.

(** The loop of [BuildLocator]; the fuel is the number of passes allowed.  [uint32_t]
    arithmetic wraps. *)
Fixpoint locator_loop (fuel : nat) (idx : BlockIndex) (step : Z) (entry : option BlockIndexEntry) (locator : list bytes)
    : option (list bytes) :=
  match entry with
  | Some e =>
      if 0 <? ent_height e then
        match fuel with
        | O => None
        | S fuel =>
            let locator := locator ++ [ent_hash e] in
            let step := if 10 <=? zlen locator then wrapu 32 (step * 2) else step in
            let target_height := if step <? ent_height e then ent_height e - step else 0 in
            entry ← Ancestor idx e target_height;
            locator_loop fuel idx step entry locator
        end
      else Some locator
  | None => Some locator
  end.

(** Forty passes are enough for any height of 32 bits. *)
Definition LOCATOR_FUEL : nat := 40.

Definition BuildLocator (idx : BlockIndex) : option (list bytes) :=
  match BestHeader idx ≫= Find idx with
  | None => Some []
  | Some best =>
      locator ← locator_loop LOCATOR_FUEL idx 1 (parent idx best) [ent_hash best];
      Some (locator ++ [genesis_ idx])
  end.

Record Sync := mkSync {
  sync_state : SyncState;
  remote_tip_ : bytes;
  pending_blocks_ : list bytes;
  inflight_count_ : Z;
  sent : list (Message.Command * bytes) }.

Definition new_Sync : Sync := mkSync AwaitingGetHeaders (replicate 32 Byte.x00) [] 0 [].

(** The request both [Start] and [OnHeaders] send. *)
Definition request_headers (idx : BlockIndex) (s : Sync) : option Sync :=
  locator ← BuildLocator idx;
  let payload := encode GetHeadersPayload_Serialize (mkGetHeaders 1 locator (replicate 32 Byte.x00)) in
  Some (mkSync AwaitingHeaders (remote_tip_ s) (pending_blocks_ s) (inflight_count_ s) (sent s ++ [(Message.GetHeaders, payload)])).

Definition Start (idx : BlockIndex) (s : Sync) : option Sync := request_headers idx s.

(** One header: unknown ones are to be fetched; [remote_tip_] is reset each time. *)
Fixpoint scan_headers (idx : BlockIndex) (hs : list BlockHeader) (request : list bytes) (remote_tip : bytes)
    : option (list bytes * bytes) :=
  match hs with
  | [] => Some (request, remote_tip)
  | hdr :: hs =>
      match Find idx (BlockHeader_Hash hdr) with
      | None => scan_headers idx hs (request ++ [BlockHeader_Hash hdr]) (replicate 32 Byte.x00)
      | Some existing =>
          best ← BestHeader idx ≫= Find idx;
          scan_headers idx hs request
            (match Work.compare (ent_total_work existing) (ent_total_work best) with
             | Gt => ent_hash existing
             | _ => replicate 32 Byte.x00
             end)
      end
  end.

Definition OnHeaders (idx : BlockIndex) (payload : HeadersPayload) (s : Sync) : option (list bytes * Sync) :=
  if zlen (headers payload) =? 0
  then Some ([], mkSync Synced (remote_tip_ s) (pending_blocks_ s) (inflight_count_ s) (sent s))
  else
    '(request, remote_tip) ← scan_headers idx (headers payload) [] (remote_tip_ s);
    s ← request_headers idx (mkSync (sync_state s) remote_tip (pending_blocks_ s) (inflight_count_ s) (sent s));
    Some (request, s).

Definition OnBlockReceived (s : Sync) : Sync :=
  let inflight := if 0 <? inflight_count_ s then inflight_count_ s - 1 else inflight_count_ s in
  mkSync (if (zlen (pending_blocks_ s) =? 0) && (inflight =? 0) then Synced else sync_state s)
    (remote_tip_ s) (pending_blocks_ s) inflight (sent s).
End sync.
(** ** The locator *)

Section locator.
Context `{SH : Sha256Impl} (idx : BlockIndex) (I : index_inv idx).

(** Heights strictly fall along a list of hashes, each an ancestor of the one before. *)
Inductive falls : bytes -> list bytes -> Prop :=
  | falls_nil h : falls h []
  | falls_cons h a l e ea : Find idx h = Some e -> Find idx a = Some ea -> ent_height ea < ent_height e ->
      descends idx a h -> falls a l -> falls h (a :: l).

(** The step and the ground covered after [j] passes. *)
Definition step_after (j : Z) : Z := if j <=? 8 then 1 else 2 ^ (j - 8).
Definition covered (j : Z) : Z := if j <=? 8 then j else 8 + 2 ^ (j - 7) - 2.

Lemma step_next j : 0 <= j <= 38 ->
  (if 10 <=? j + 2 then wrapu 32 (step_after j * 2) else step_after j) = step_after (j + 1) /\
  covered (j + 1) = covered j + step_after (j + 1) /\ 0 < step_after (j + 1).
Proof.
  intros Hj. assert (exists k, j = Z.of_nat k /\ (k <= 38)%nat) as (k & -> & Hk) by (exists (Z.to_nat j); lia). clear Hj.
  do 39 (destruct k as [|k]; [vm_compute; split_and!; reflexivity|]). lia.
Qed.

Lemma locator_loop_spec fuel : forall j e h acc, Find idx h = Some e -> zlen acc = j + 1 -> 0 <= j ->
  ent_height e + covered j < 2 ^ 32 \/ ent_height e = 0 -> j + Z.of_nat fuel = 40 ->
  exists l, locator_loop fuel idx (step_after j) (Some e) acc = Some (acc ++ l) /\ zlen l <= Z.of_nat fuel /\
    (l = [] /\ ent_height e = 0 \/ exists l', l = h :: l' /\ 0 < ent_height e /\ falls h l').
Proof.
  induction fuel as [|fuel IH]; intros j e h acc E Ha Hj Hc Hf; cbn [locator_loop]; pose proof (inv_height idx h e I E).
  { exists []. destruct (Z.ltb_spec 0 (ent_height e)); [|rewrite app_nil_r; split_and!; [done|done|left; split; [done|lia]]].
    exfalso. assert (j = 40) as -> by lia. unfold covered in Hc. cbn in Hc. lia. }
  destruct (Z.ltb_spec 0 (ent_height e)) as [Hpos|Hz].
  2:{ exists []. rewrite app_nil_r. split_and!; [done|rewrite zlen_nil; lia|left; split; [done|lia]]. }
  rewrite (BlockIndex.inv_hash idx h e I E), zlen_app, Ha, (zlen_cons h), zlen_nil.
  replace (j + 1 + (1 + 0)) with (j + 2) by lia.
  destruct (step_next j) as (-> & Hcov & Hst).
  { split; [done|]. destruct (decide (j = 39)) as [->|]; [|lia]. exfalso. unfold covered in Hc. cbn in Hc. lia. }
  set (target := if step_after (j + 1) <? ent_height e then ent_height e - step_after (j + 1) else 0).
  assert (0 <= target < ent_height e /\ (target + covered (j + 1) < 2 ^ 32 \/ target = 0)) as (Ht & Hn).
  { unfold target. destruct (Z.ltb_spec (step_after (j + 1)) (ent_height e)); lia. }
  destruct (BlockIndex.Ancestor_spec idx h e target I E ltac:(lia)) as [_ HA]. destruct HA as (a & -> & Hha & D & Fa & _); [lia|].
  cbn [mbind option_bind]. destruct (IH (j + 1) a (ent_hash a) (acc ++ [h]) Fa) as (l & El & Hl & Cases).
  - rewrite zlen_app, Ha. done.
  - lia.
  - by rewrite Hha.
  - lia.
  - exists (h :: l). rewrite El, <- app_assoc. split_and!; [done|rewrite zlen_cons; lia|]. right. exists l. split_and!; [done|done|].
    destruct Cases as [[-> _]|(l' & -> & _ & F)]; [constructor|]. econstructor; [exact E|exact Fa|lia|exact D|exact F].
Qed.

Lemma BuildLocator_spec b best : BestHeader idx = Some b -> Find idx b = Some best ->
  exists l, BuildLocator idx = Some (b :: l ++ [genesis_ idx]) /\ falls b l /\ zlen l <= 40.
Proof.
  intros Hb E. unfold BuildLocator. rewrite Hb. cbn [mbind option_bind]. rewrite E. cbn [mbind option_bind].
  rewrite (BlockIndex.inv_hash idx b best I E). destruct (inv_parent idx b best I E) as [(-> & Hp & _)|(p & pe & Hp & Fp & -> & Hh & _)].
  - unfold parent. rewrite Hp. cbn. exists []. split_and!; [done|constructor|done].
  - pose proof (inv_height idx b best I E). pose proof (inv_height idx p pe I Fp).
    destruct (locator_loop_spec LOCATOR_FUEL 0 pe p [b] Fp eq_refl ltac:(lia)) as (l & El & Hl & Cases); [cbn; lia|done|].
    change (step_after 0) with 1 in El. rewrite El.
    cbn [mbind option_bind]. exists l. split_and!; [by rewrite <- app_assoc| |done].
    destruct Cases as [[-> _]|(l' & -> & _ & F)]; [constructor|]. econstructor; [exact E|exact Fp|lia| |exact F].
    econstructor; [exact E|exact Hp|constructor].
Qed.
End locator.

(** ** The theorems *)

(** The locator loop ends, for any height of 32 bits and although its step is a
    32-bit number that doubles: the locator of a node's index is its best header, then
    at most forty of that header's ancestors at strictly falling heights, then genesis. *)
Theorem locator_descends `{Sha256Impl} (idx : BlockIndex) (b : bytes) (R : reachable idx) (B : BestHeader idx = Some b) :
  exists l, BuildLocator idx = Some (b :: l ++ [genesis_ idx]) /\ falls idx b l /\ zlen l <= 40.
Proof.
  apply reachable_inv in R as I. pose proof (inv_best _ I) as Hb. unfold best_ok, BestHeader in *. rewrite B in Hb.
  destruct Hb as (best & E & _). by eapply BuildLocator_spec.
Qed.

Lemma locator_descends_witness :
  exists l, BuildLocator sample_index = Some (sample_b3 :: l ++ [genesis_ sample_index]) /\
    falls sample_index sample_b3 l /\ zlen l <= 40.
Proof.
  destruct (locator_descends (H := toy_Sha256Impl) sample_index sample_b3 sample_index_reachable) as (l & E & F & L);
    [reflexivity|]. exists l. exact (conj E (conj F L)).
Defined.
End Sync.
