(* ===== verification/Text.v ===== *)
(** * Text: what the code uses of the standard library's number printing and stream
    extraction.

    [std::to_string] and [operator<<] of unsigned integers in decimal and in hexadecimal,
    and [operator>>] of an unsigned integer and of a word. *)

From Stdlib Require Import String Ascii.
From stdpp Require Import strings.
From S2P Require Import Prelude Overflow.
#[local] Open Scope Z_scope.

Module Text.

Definition char (code : Z) : ascii := ascii_of_nat (Z.to_nat code).
Definition code (c : ascii) : Z := Z.of_nat (nat_of_ascii c).

(** The digit characters, lower case. *)
Definition digit (d : Z) : ascii := if d <? 10 then char (48 + d) else char (87 + d).

(** The value of a digit in either case, below 16. *)
Definition digit_value (c : ascii) : option Z :=
  let x := code c in
  if (48 <=? x) && (x <=? 57) then Some (x - 48)
  else if (97 <=? x) && (x <=? 102) then Some (x - 87)
  else if (65 <=? x) && (x <=? 70) then Some (x - 55)
  else None.

Definition is_decimal (c : ascii) : bool := (48 <=? code c) && (code c <=? 57).

Definition is_space (c : ascii) : bool := (code c =? 32) || (9 <=? code c) && (code c <=? 13).

(** ** Printing *)

(** Twenty digits hold any 64-bit number. *)
Fixpoint decimal (fuel : nat) (n : Z) (acc : string) : string :=
  match fuel with
  | O => acc
  | S fuel => if n <? 10 then String (digit n) acc else decimal fuel (n / 10) (String (digit (n mod 10)) acc)
  end.
Definition to_string (n : Z) : string := decimal 20 n "".

(** A byte in hexadecimal, without padding and padded to two digits. *)
Definition hex_short (b : Z) : string :=
  if b <? 16 then String (digit b) "" else String (digit (b / 16)) (String (digit (b mod 16)) "").
Definition hex_padded (b : Z) : string := String (digit (b / 16)) (String (digit (b mod 16)) "").

(** ** Extraction *)

Fixpoint span (p : ascii -> bool) (s : string) : string * string :=
  match s with
  | String c s' => if p c then let '(a, b) := span p s' in (String c a, b) else (""%string, s)
  | EmptyString => (""%string, ""%string)
  end.

Definition skip_space (s : string) : string := (span is_space s).2.

Fixpoint decimal_value (acc : Z) (s : string) : Z :=
  match s with
  | String c s => decimal_value (10 * acc + (code c - 48)) s
  | EmptyString => acc
  end.

(** [stream >> x] for an [unsigned] of 32 bits: white space, a sign, digits.  No digit or
    too large a value fails; a minus sign negates modulo 2^32. *)
Definition read_unsigned (s : string) : option (Z * string) :=
  let s := skip_space s in
  let '(neg, s) := match s with
                   | String "+" s => (false, s)
                   | String "-" s => (true, s)
                   | _ => (false, s)
                   end in
  let '(digits, rest) := span is_decimal s in
  match digits with
  | EmptyString => None
  | _ =>
      let v := decimal_value 0 digits in
      if 2 ^ 32 <=? v then None else Some (if neg then wrapu 32 (- v) else v, rest)
  end.

(** [std::stoul]: the number a text starts with, of 64 bits; the rest is ignored.  [None]
    stands for the exception it throws when there is none or it is too large. *)
Definition stoul (s : string) : option Z :=
  let s := skip_space s in
  let '(neg, s) := match s with
                   | String "+" s => (false, s)
                   | String "-" s => (true, s)
                   | _ => (false, s)
                   end in
  match (span is_decimal s).1 with
  | EmptyString => None
  | digits =>
      let v := decimal_value 0 digits in
      if 2 ^ 64 <=? v then None else Some (if neg then wrapu 64 (- v) else v)
  end.

(** [stream >> word]: at least one character that is not white space. *)
Definition read_word (s : string) : option (string * string) :=
  let '(word, rest) := span (fun c => negb (is_space c)) (skip_space s) in
  match word with EmptyString => None | _ => Some (word, rest) end.

(** [std::istringstream(s) >> std::hex >> byte], truncated to eight bits, for the two
    characters of [s]: a sign, then digits as far as they go; nothing read is nought. *)
Definition read_hex_pair (c1 c2 : ascii) : Z :=
  match digit_value c1, digit_value c2 with
  | Some a, Some b => 16 * a + b
  | Some a, None => a
  | None, Some b => if bool_decide (c1 = "-"%char) then wrapu 8 (- b) else if bool_decide (c1 = "+"%char) then b else 0
  | None, None => 0
  end.

(** ** Lemmas *)

Fixpoint all (p : ascii -> bool) (s : string) : bool :=
  match s with String c s => p c && all p s | EmptyString => true end.

Lemma append_nil (b : string) : "" +:+ b = b.
Proof. done. Qed.
Lemma append_cons c (a b : string) : String c a +:+ b = String c (a +:+ b).
Proof. done. Qed.

#[global] Instance append_assoc : Assoc (=) String.append.
Proof. intros a b c. induction a as [|x a IH]; [done|]. by rewrite !append_cons, IH. Qed.

Lemma all_app p a b : all p (a +:+ b) = all p a && all p b.
Proof. induction a as [|c a IH]; [done|]. rewrite append_cons. cbn. by rewrite <- andb_assoc, <- IH. Qed.

Lemma span_stop p s c rest : all p s = true -> p c = false -> span p (s +:+ String c rest) = (s, String c rest).
Proof.
  intros Hs Hc. induction s as [|d s IH]; [rewrite append_nil; cbn; by rewrite Hc|]. rewrite append_cons. cbn.
  cbn in Hs. apply andb_true_iff in Hs as [-> Hs]. by rewrite (IH Hs).
Qed.

Lemma skip_space_stop c s : is_space c = false -> skip_space (String c s) = String c s.
Proof. intros Hc. unfold skip_space. cbn. by rewrite Hc. Qed.

Lemma skip_space_space c s : is_space c = true -> skip_space (String c s) = skip_space s.
Proof. intros Hc. unfold skip_space. cbn. rewrite Hc. by destruct (span is_space s). Qed.

Lemma read_after_space c s : is_space c = true -> read_unsigned (String c s) = read_unsigned s /\ read_word (String c s) = read_word s.
Proof. intros Hc. unfold read_unsigned, read_word. by rewrite skip_space_space. Qed.

(** A digit reads back; checked for all sixteen. *)
Lemma digit_spec d : 0 <= d < 16 -> digit_value (digit d) = Some d /\ is_space (digit d) = false /\
  (d < 10 -> is_decimal (digit d) = true /\ code (digit d) = 48 + d).
Proof.
  intros Hd. assert (exists k, d = Z.of_nat k /\ (k < 16)%nat) as (k & -> & Hk) by (exists (Z.to_nat d); lia). clear Hd.
  do 10 (destruct k as [|k]; [vm_compute; auto|]). do 6 (destruct k as [|k]; [vm_compute; split_and!; [done|done|discriminate]|]). lia.
Qed.

Lemma read_hex_padded b : 0 <= b < 256 -> read_hex_pair (digit (b / 16)) (digit (b mod 16)) = b.
Proof.
  intros Hb. unfold read_hex_pair. pose proof (Z.div_mod b 16 ltac:(lia)). pose proof (Z.mod_pos_bound b 16 ltac:(lia)).
  assert (0 <= b / 16 < 16) by (split; [apply Z.div_pos; lia|apply Z.div_lt_upper_bound; lia]).
  destruct (digit_spec (b / 16)) as [-> _]; [lia|]. destruct (digit_spec (b mod 16)) as [-> _]; lia.
Qed.

Lemma decimal_app fuel : forall n acc, decimal fuel n acc = decimal fuel n "" +:+ acc.
Proof.
  induction fuel as [|fuel IH]; intros n acc; [done|]. cbn [decimal]. destruct (n <? 10); [done|].
  rewrite IH, (IH _ (String _ "")). by rewrite <- (assoc_L String.append), append_cons.
Qed.

Lemma decimal_value_app a : forall acc b, decimal_value acc (a +:+ b) = decimal_value (decimal_value acc a) b.
Proof. induction a as [|c a IH]; intros acc b; [done|]. rewrite append_cons. cbn. apply IH. Qed.

(** A printed number is digits, at least one, and reads back. *)
Lemma decimal_spec fuel : forall n, (0 < fuel)%nat -> 0 <= n < 10 ^ Z.of_nat fuel ->
  all is_decimal (decimal fuel n "") = true /\ decimal_value 0 (decimal fuel n "") = n /\ exists c s, decimal fuel n "" = String c s.
Proof.
  induction fuel as [|fuel IH]; intros n Hf Hn; [lia|]. cbn [decimal]. destruct (Z.ltb_spec n 10).
  - destruct (digit_spec n) as (_ & _ & D); [lia|]. destruct D as [D1 D2]; [lia|]. split_and!; cbn; [by rewrite D1|lia|eauto].
  - pose proof (Z.div_mod n 10 ltac:(lia)). pose proof (Z.mod_pos_bound n 10 ltac:(lia)). rewrite decimal_app.
    rewrite Nat2Z.inj_succ, Z.pow_succ_r in Hn by lia. assert (0 < fuel)%nat as Hf'.
    { destruct fuel; [cbn in Hn; lia|lia]. }
    destruct (IH (n / 10) Hf') as (A & V & c & s & E); [split; [apply Z.div_pos; lia|apply Z.div_lt_upper_bound; lia]|].
    destruct (digit_spec (n mod 10)) as (_ & _ & D); [lia|]. destruct D as [D1 D2]; [lia|].
    rewrite all_app, A, decimal_value_app, V, E. split_and!; cbn; [by rewrite D1|lia|eauto].
Qed.

Lemma to_string_spec n : 0 <= n < 10 ^ 20 ->
  all is_decimal (to_string n) = true /\ decimal_value 0 (to_string n) = n /\ exists c s, to_string n = String c s.
Proof. intros Hn. apply decimal_spec; [lia|done]. Qed.

Lemma to_string_inj n m : 0 <= n < 10 ^ 20 -> 0 <= m < 10 ^ 20 -> to_string n = to_string m -> n = m.
Proof. intros Hn Hm E. destruct (to_string_spec n Hn) as (_ & <- & _), (to_string_spec m Hm) as (_ & <- & _). by rewrite E. Qed.

Lemma decimal_not_space c : is_decimal c = true -> is_space c = false /\ c <> "+"%char /\ c <> "-"%char.
Proof.
  unfold is_decimal, is_space. intros [H1 H2]%andb_true_iff. apply Z.leb_le in H1, H2. split_and!.
  - destruct (Z.eqb_spec (code c) 32), (Z.leb_spec 9 (code c)), (Z.leb_spec (code c) 13); cbn; lia.
  - intros ->. vm_compute in H1. by apply H1.
  - intros ->. vm_compute in H1. by apply H1.
Qed.

(** A printed number before a character that is no digit is read back. *)
Lemma read_to_string n c rest : 0 <= n < 2 ^ 32 -> is_decimal c = false ->
  read_unsigned (to_string n +:+ String c rest) = Some (n, String c rest).
Proof.
  intros Hn Hc. destruct (to_string_spec n) as (A & V & d & s & E); [lia|]. unfold read_unsigned.
  pose proof A as A'. rewrite E in A'. cbn in A'. apply andb_true_iff in A' as [Hd _]. destruct (decimal_not_space d Hd) as (Hsp & Hp & Hm).
  assert (skip_space (to_string n +:+ String c rest) = to_string n +:+ String c rest) as ->.
  { rewrite E, append_cons. by apply skip_space_stop. }
  assert (match (to_string n +:+ String c rest) with String "+" s => (false, s) | String "-" s => (true, s) | _ => (false, to_string n +:+ String c rest) end
    = (false, to_string n +:+ String c rest)) as ->.
  { rewrite E, append_cons. destruct d as [[] [] [] [] [] [] [] []]; try done. }
  rewrite (span_stop _ _ _ _ A Hc). rewrite V. rewrite E at 1. by rewrite (proj2 (Z.leb_gt _ _)) by lia.
Qed.
End Text.
