(* ===== verification/AddressBook.v ===== *)
(** * The address book ([AddressKey], [AddAddress], [LoadAddresses] and [SaveAddresses]
    of [PeerManager::Impl], src/net/peer_manager.cpp)

    The peers' addresses a node has been told, and the text file it keeps them in. *)

From Stdlib Require Import String Ascii.
From S2P Require Import Prelude Overflow Serialize Crypto Primitives Message Protocol Text.
From stdpp Require Import list strings.
#[local] Open Scope Z_scope.

Module AddressBook.
Import Protocol Text.

(** [out << std::hex << byte] for each byte: no padding. *)
Definition AddressKey (a : NetworkAddress) : string :=
  to_string (addr_ver a) +:+ ":" +:+ to_string (port a) +:+ ":" +:+
  foldr (fun b s => hex_short (b2z b) +:+ s) "" (address a).

Definition AddAddress (a : NetworkAddress) (book : list NetworkAddress) : list NetworkAddress :=
  if (negb (addr_ver a =? 4) && negb (addr_ver a =? 6)) || (port a =? 0) then book
  else if existsb (fun known => bool_decide (AddressKey known = AddressKey a)) book then book
  else (if 1000 <=? zlen book then tail book else book) ++ [a].

Definition newline : string := String (char 10) "".

(** One line of the file. *)
Definition save_line (a : NetworkAddress) : string :=
  to_string (addr_ver a) +:+ " " +:+ to_string (port a) +:+ " " +:+
  foldr (fun b s => hex_padded (b2z b) +:+ s) newline (address a).

Definition SaveAddresses (book : list NetworkAddress) : string := foldr (fun a s => save_line a +:+ s) "" book.

(** The sixteen bytes of a word of 32 characters. *)
Fixpoint hex_bytes (s : string) : bytes :=
  match s with
  | String c1 (String c2 s) => z2b (read_hex_pair c1 c2) :: hex_bytes s
  | _ => []
  end.

(** The loop; each round reads at least three characters, so the length of the file is
    fuel enough. *)
Fixpoint load_loop (fuel : nat) (file : string) (book : list NetworkAddress) : list NetworkAddress :=
  match fuel with
  | O => book
  | S fuel =>
      match read_unsigned file with
      | None => book
      | Some (version, file) =>
      match read_unsigned file with
      | None => book
      | Some (port, file) =>
      match read_word file with
      | None => book
      | Some (word, file) =>
          if negb (Nat.eqb (String.length word) 32) then book
          else load_loop fuel file (AddAddress (mkAddress (wrapu 8 version) (hex_bytes word) (wrapu 16 port)) book)
      end
      end
      end
  end.

Definition LoadAddresses (file : string) : list NetworkAddress := load_loop (String.length file) file [].

(** ** The invariant *)

Definition address_ok (a : NetworkAddress) : Prop :=
  (addr_ver a = 4 \/ addr_ver a = 6) /\ length (address a) = 16%nat /\ 0 < port a < 2 ^ 16.

(** At most a thousand usable addresses, no two with one key. *)
Record book_ok (book : list NetworkAddress) : Prop := {
  bk_addresses : Forall address_ok book;
  bk_keys : NoDup (map AddressKey book);
  bk_size : zlen book <= 1000 }.

Lemma known_key a book : existsb (fun known => bool_decide (AddressKey known = AddressKey a)) book = true <->
  AddressKey a ∈ map AddressKey book.
Proof.
  rewrite existsb_exists, list_elem_of_In, in_map_iff. split; intros (x & H1 & H2); exists x;
    [rewrite bool_decide_eq_true in H2|rewrite bool_decide_eq_true]; done.
Qed.

Lemma AddAddress_fresh a book : address_ok a -> AddressKey a ∉ map AddressKey book -> zlen book < 1000 ->
  AddAddress a book = book ++ [a].
Proof.
  intros (Hv & _ & Hp) Hk Hl. unfold AddAddress. rewrite (proj2 (Z.eqb_neq (port a) 0)) by lia. rewrite orb_false_r.
  assert (negb (addr_ver a =? 4) && negb (addr_ver a =? 6) = false) as -> by (by destruct Hv as [-> | ->]).
  destruct (existsb _ book) eqn:E; [by apply known_key in E|]. by rewrite (proj2 (Z.leb_gt _ _)) by lia.
Qed.

Lemma AddAddress_ok a book : u16 (port a) -> length (address a) = 16%nat -> book_ok book -> book_ok (AddAddress a book).
Proof.
  intros Hp Hl [F N L]. unfold AddAddress. destruct (_ || _) eqn:Ev; [by split|]. destruct (existsb _ book) eqn:E; [by split|].
  apply orb_false_iff in Ev as [Ev Ep]. apply Z.eqb_neq in Ep.
  assert (address_ok a) as Ha.
  { split_and!; [|done|unfold u16 in Hp; lia..]. destruct (Z.eqb_spec (addr_ver a) 4), (Z.eqb_spec (addr_ver a) 6); cbn in Ev; auto; done. }
  assert (AddressKey a ∉ map AddressKey book) as Hk by (intros K; apply known_key in K; congruence).
  set (kept := if 1000 <=? zlen book then tail book else book).
  assert (Forall address_ok kept /\ NoDup (map AddressKey kept) /\ AddressKey a ∉ map AddressKey kept /\ zlen kept < 1000) as (F' & N' & K' & L').
  { unfold kept. destruct (Z.leb_spec 1000 (zlen book)); [|done]. destruct book as [|x book]; [done|]. cbn [tail map] in *.
    apply Forall_cons_1 in F as [_ F]. apply NoDup_cons_1_2 in N. split_and!; [done|done| |rewrite zlen_cons in *; lia].
    intros K. apply Hk. by right. }
  split; [apply Forall_app; split; [done|by apply Forall_singleton]| |rewrite zlen_app, zlen_cons, zlen_nil; lia].
  rewrite map_app. apply NoDup_app. split_and!; [done| |apply NoDup_singleton]. intros k K1 K2. apply list_elem_of_singleton in K2. congruence.
Qed.

(** ** Reading what was written *)

Lemma hex_padded_length bs s : String.length (foldr (fun b s => hex_padded (b2z b) +:+ s) s bs) = (2 * length bs + String.length s)%nat.
Proof. induction bs as [|b bs IH]; [done|]. cbn [foldr]. unfold hex_padded at 1. rewrite !append_cons, append_nil. cbn. rewrite IH. lia. Qed.

Lemma hex_padded_word bs s : foldr (fun b s => hex_padded (b2z b) +:+ s) s bs = foldr (fun b s => hex_padded (b2z b) +:+ s) "" bs +:+ s.
Proof.
  induction bs as [|b bs IH]; [done|]. cbn [foldr]. rewrite IH. unfold hex_padded. rewrite !append_cons, !append_nil. done.
Qed.

Lemma byte_digits b : 0 <= b2z b / 16 < 16 /\ 0 <= b2z b mod 16 < 16.
Proof.
  pose proof (byte.unsigned_range b). split; [|apply Z.mod_pos_bound; lia]. split; [apply Z.div_pos; lia|apply Z.div_lt_upper_bound; lia].
Qed.

Lemma hex_padded_solid bs : all (fun c => negb (is_space c)) (foldr (fun b s => hex_padded (b2z b) +:+ s) "" bs) = true.
Proof.
  induction bs as [|b bs IH]; [done|]. cbn [foldr]. unfold hex_padded at 1. rewrite !append_cons, append_nil. cbn [all].
  destruct (byte_digits b) as [H1 H2]. destruct (digit_spec _ H1) as (_ & -> & _), (digit_spec _ H2) as (_ & -> & _). cbn [negb andb]. done.
Qed.

Lemma hex_bytes_padded bs : hex_bytes (foldr (fun b s => hex_padded (b2z b) +:+ s) "" bs) = bs.
Proof.
  induction bs as [|b bs IH]; [done|]. cbn [foldr]. unfold hex_padded at 1. rewrite !append_cons, append_nil. cbn [hex_bytes].
  pose proof (byte.unsigned_range b). rewrite IH, read_hex_padded by done. f_equal. apply byte.of_Z_unsigned.
Qed.

Lemma load_line fuel a file book : address_ok a -> load_loop (S fuel) (save_line a +:+ file) book = load_loop fuel (newline +:+ file) (AddAddress a book).
Proof.
  intros (Hv & Hl & Hp). unfold save_line. set (word := foldr (fun b s => hex_padded (b2z b) +:+ s) "" (address a)).
  assert (foldr (fun b s => hex_padded (b2z b) +:+ s) newline (address a) = word +:+ newline) as -> by apply hex_padded_word.
  rewrite <- !(assoc_L String.append). cbn [load_loop].
  rewrite (append_cons " " "" (to_string (port a) +:+ _)), append_nil, read_to_string by (done || lia || by destruct Hv as [-> | ->]).
  rewrite (append_cons " " "" (word +:+ _)), append_nil.
  rewrite (proj1 (read_after_space " " _ eq_refl)), read_to_string by (done || lia).
  assert (exists c w, word = String c w /\ is_space c = false) as (c & w & Ew & Hc).
  { unfold word. destruct (address a) as [|b bs]; [done|]. cbn [foldr]. unfold hex_padded at 1. rewrite !append_cons. eexists _, _. split; [done|].
    destruct (byte_digits b) as [H1 _]. by destruct (digit_spec _ H1) as (_ & -> & _). }
  assert (read_word (String " " (word +:+ newline +:+ file)) = Some (word, newline +:+ file)) as ->.
  { rewrite (proj2 (read_after_space " " _ eq_refl)). unfold read_word.
    assert (skip_space (word +:+ newline +:+ file) = word +:+ newline +:+ file) as -> by (rewrite Ew, append_cons; by apply skip_space_stop).
    unfold newline. rewrite !append_cons, !append_nil, (span_stop _ word) by (done || apply hex_padded_solid). by rewrite Ew. }
  unfold word. rewrite hex_padded_length, Hl, hex_bytes_padded. cbn [String.length Nat.mul Nat.add Nat.eqb negb].
  do 2 f_equal. rewrite !wrapu_small by (unfold u8, u16 in *; lia || by destruct Hv as [-> | ->]). by destruct a.
Qed.
Lemma load_newline fuel file book : load_loop fuel (newline +:+ file) book = load_loop fuel file book.
Proof.
  destruct fuel as [|fuel]; [done|]. unfold newline. rewrite append_cons, append_nil. cbn [load_loop].
  by rewrite (proj1 (read_after_space (char 10) file eq_refl)).
Qed.

Lemma load_saved book : forall fuel acc, (length book <= fuel)%nat -> book_ok (acc ++ book) ->
  load_loop fuel (SaveAddresses book) acc = acc ++ book.
Proof.
  induction book as [|a book IH]; intros fuel acc Hf [F N L].
  - rewrite app_nil_r. by destruct fuel.
  - destruct fuel as [|fuel]; [cbn in Hf; lia|]. cbn [SaveAddresses foldr]. fold (SaveAddresses book).
    pose proof (proj1 (Forall_app _ _ _) F) as [_ Ha%Forall_cons_1]. destruct Ha as [Ha _].
    rewrite load_line, load_newline, AddAddress_fresh; [|done| | |done].
    + rewrite IH; [by rewrite <- app_assoc|cbn in Hf; lia|rewrite <- app_assoc; by split].
    + rewrite map_app in N. apply NoDup_app in N as (_ & N & _). intros K. apply (N _ K). by left.
    + rewrite zlen_app, zlen_cons in L. pose proof (zlen_nonneg book). lia.
Qed.

Lemma SaveAddresses_length book : (length book <= String.length (SaveAddresses book))%nat.
Proof.
  assert (forall a b, String.length (a +:+ b) = (String.length a + String.length b)%nat) as Hl.
  { intros a b. induction a as [|c a IH]; [done|]. rewrite append_cons. cbn. by rewrite IH. }
  induction book as [|a book IH]; [done|]. cbn [SaveAddresses foldr length]. fold (SaveAddresses book). unfold save_line.
  rewrite !Hl. cbn [String.length]. lia.
Qed.

Lemma hex_bytes_length n : forall s, String.length s = (2 * n)%nat -> length (hex_bytes s) = n.
Proof.
  induction n as [|n IH]; intros s Hs; [by destruct s|]. destruct s as [|c1 [|c2 s]]; cbn in Hs; [lia|lia|]. cbn. by rewrite IH by lia.
Qed.

Lemma load_loop_ok fuel : forall file book, book_ok book -> book_ok (load_loop fuel file book).
Proof.
  induction fuel as [|fuel IH]; intros file book B; [done|]. cbn [load_loop].
  destruct (read_unsigned file) as [[version f1]|]; [|done]. destruct (read_unsigned f1) as [[p f2]|]; [|done].
  destruct (read_word f2) as [[word f3]|]; [|done]. destruct (Nat.eqb_spec (String.length word) 32); [|done]. cbn [negb].
  apply IH, AddAddress_ok; [apply Z.mod_pos_bound; lia|by apply hex_bytes_length|done].
Qed.

(** ** The theorems *)

(** The book survives a restart: the file written from a sound book (at most a
    thousand usable addresses of distinct keys) reads back as that book, in order; and
    whatever a file holds, and whatever address a peer sends, the book stays sound. *)
Theorem saved_book_loads (book : list NetworkAddress) (B : book_ok book) :
  LoadAddresses (SaveAddresses book) = book /\ (forall file, book_ok (LoadAddresses file)) /\
  forall a, NetworkAddress_ok a -> book_ok (AddAddress a book).
Proof.
  split_and!.
  - unfold LoadAddresses. by rewrite load_saved by (done || apply SaveAddresses_length).
  - intros file. apply load_loop_ok. by split; [constructor|constructor|].
  - intros a (_ & Hl & Hp). apply AddAddress_ok; [done| |done]. unfold zlen in Hl. lia.
Qed.

(** Two addresses the book cannot tell apart. *)
Definition sample_v4 (a b : Z) : NetworkAddress := mkAddress 4 (map z2b [a; b] ++ replicate 14 Byte.x00) 9333.

Lemma saved_book_loads_witness : LoadAddresses (SaveAddresses [sample_v4 10 1; sample_v4 192 168]) = [sample_v4 10 1; sample_v4 192 168].
Proof.
  apply (saved_book_loads [sample_v4 10 1; sample_v4 192 168]). split.
  - repeat (constructor; [vm_compute; intuition congruence|]). constructor.
  - apply (bool_decide_unpack _). vm_compute. exact I.
  - vm_compute. discriminate.
Defined.

(** Keys are not injective.  Bytes are printed in hexadecimal without padding, so
    0x01 0x11 and 0x11 0x01 give one key: once one of two such addresses is in a book, the
    other is never added, although both are usable and they differ. *)
Theorem address_keys_collide (book : list NetworkAddress) :
  sample_v4 0x01 0x11 <> sample_v4 0x11 0x01 /\ address_ok (sample_v4 0x01 0x11) /\ address_ok (sample_v4 0x11 0x01) /\
  AddressKey (sample_v4 0x01 0x11) = AddressKey (sample_v4 0x11 0x01) /\
  AddAddress (sample_v4 0x11 0x01) (AddAddress (sample_v4 0x01 0x11) book) = AddAddress (sample_v4 0x01 0x11) book.
Proof.
  split_and!; [discriminate|vm_compute; intuition congruence..|reflexivity|].
  unfold AddAddress at 1. cbn [addr_ver port sample_v4 andb negb orb]. change (9333 =? 0) with false. cbn [Z.eqb orb andb negb Pos.eqb].
  rewrite (proj2 (known_key _ _)); [done|]. change (AddressKey (sample_v4 0x11 0x01)) with (AddressKey (sample_v4 0x01 0x11)).
  unfold AddAddress. destruct (existsb _ book) eqn:E; [by apply known_key in E|]. cbn [addr_ver port sample_v4 andb negb orb Z.eqb Pos.eqb].
  rewrite map_app. apply elem_of_app. right. by left.
Qed.
End AddressBook.
