(* ===== verification/PeerConnection.v ===== *)
(** * One peer connection (the class [PeerConnection] of src/net/peer_manager.cpp)

    A connection is driven by completions: of a name lookup, of a connect, of reads and
    writes, of timers.  Each handler is a function from the connection to the connection
    and the list of what it does to the outside, in order: the callbacks it makes and the
    asynchronous operations it starts.  A completion carries the text of its error, or
    none when it succeeded.  The socket, the resolver and the timers are the caller's. *)

From Stdlib Require Import String.
From stdpp Require Import strings sets.
From S2P Require Import Prelude Overflow Serialize Crypto Primitives Target Work Asert Issuance Params Message Protocol Handshake Text.
#[local] Open Scope Z_scope.

Module PeerConnection.
Import Params Message Protocol Handshake.

(** The read under way: none, a header, or the body a header announced. *)
Inductive Reading := NoRead | AwaitHeader | AwaitBody.

Record PeerConnection := mkConn {
  conn_params_ : ChainParams;
  host_ : string;
  port_ : Z;
  (** what [socket_.remote_endpoint] prints while the socket is open *)
  remote_ : string;
  open_ : bool;
  handshake_ : Handshake;
  peer_hello_ : PeerHello;
  connected_ : bool;
  inbound_ : bool;
  header_buf_ : bytes;
  body_len_ : Z;
  reading_ : Reading;
  write_queue_ : list bytes;
  writing_ : bool;
  ping_outstanding_ : bool }.

Definition new_outbound (params : ChainParams) (nonce : Z) (host : string) (port : Z) (remote : string) : PeerConnection :=
  mkConn params host port remote true (new_Handshake params nonce) no_peer false false [] 0 NoRead [] false false.

Definition new_inbound (params : ChainParams) (nonce : Z) (remote : string) : PeerConnection :=
  mkConn params "" 0 remote true (new_Handshake params nonce) no_peer false true [] 0 NoRead [] false false.

(** Why a connection says it ended: a fixed text, a text ending in the message of an
    error code, the handshake's reason, or what framing found. *)
Inductive Reason := Text (s : string) | TextCode (s message : string) | FramingError (failure : option Failure).

Inductive Effect :=
  | Disconnected (reason : Reason)
  | Connected (hello : PeerHello)
  | Deliver (command : Z) (payload : bytes)
  | Traffic (sent received : Z)
  | StartResolve
  | StartConnect
  | StartWriteHello (data : bytes)
  | StartWriteReply (data : bytes)
  | StartWriteQueued (data : bytes)
  | ArmPing (seconds : Z)
  | ArmPong (seconds : Z).

Section fields.
Implicit Types (c : PeerConnection).

Definition set_handshake (h : Handshake) c := mkConn (conn_params_ c) (host_ c) (port_ c) (remote_ c) (open_ c) h (peer_hello_ c)
  (connected_ c) (inbound_ c) (header_buf_ c) (body_len_ c) (reading_ c) (write_queue_ c) (writing_ c) (ping_outstanding_ c).
Definition set_peer (p : PeerHello) c := mkConn (conn_params_ c) (host_ c) (port_ c) (remote_ c) (open_ c) (handshake_ c) p
  true (inbound_ c) (header_buf_ c) (body_len_ c) (reading_ c) (write_queue_ c) (writing_ c) (ping_outstanding_ c).
Definition set_read (header : bytes) (len : Z) (r : Reading) c := mkConn (conn_params_ c) (host_ c) (port_ c) (remote_ c) (open_ c)
  (handshake_ c) (peer_hello_ c) (connected_ c) (inbound_ c) header len r (write_queue_ c) (writing_ c) (ping_outstanding_ c).
Definition set_queue (q : list bytes) (w : bool) c := mkConn (conn_params_ c) (host_ c) (port_ c) (remote_ c) (open_ c) (handshake_ c)
  (peer_hello_ c) (connected_ c) (inbound_ c) (header_buf_ c) (body_len_ c) (reading_ c) q w (ping_outstanding_ c).
Definition set_ping (b : bool) c := mkConn (conn_params_ c) (host_ c) (port_ c) (remote_ c) (open_ c) (handshake_ c)
  (peer_hello_ c) (connected_ c) (inbound_ c) (header_buf_ c) (body_len_ c) (reading_ c) (write_queue_ c) (writing_ c) b.

Definition Close c : PeerConnection := mkConn (conn_params_ c) (host_ c) (port_ c) (remote_ c) false (handshake_ c)
  (peer_hello_ c) false (inbound_ c) (header_buf_ c) (body_len_ c) (reading_ c) (write_queue_ c) (writing_ c) (ping_outstanding_ c).

Definition IsConnected c : bool := connected_ c.
Definition conn_Hello c : PeerHello := peer_hello_ c.

Definition EndpointKey c : string :=
  if negb (bool_decide (host_ c = "")%string) then (host_ c +:+ ":" +:+ Text.to_string (port_ c))%string
  else if open_ c then remote_ c else ""%string.
End fields.

Section connection.
Context `{Sha256Impl}.
Implicit Types (c : PeerConnection).

(** ** Writing *)

Definition WriteNext c : PeerConnection * list Effect :=
  match write_queue_ c with
  | [] => (set_queue [] false c, [])
  | front :: _ => (c, [StartWriteQueued front])
  end.

Definition Send (command : Command) (payload : bytes) c : PeerConnection * list Effect :=
  let c := set_queue (write_queue_ c ++ [SerialiseMessage command payload (magic (conn_params_ c))]) (writing_ c) c in
  if writing_ c then (c, []) else WriteNext (set_queue (write_queue_ c) true c).

(** The completion of a queued write, of [message_bytes] bytes. *)
Definition OnQueuedWritten (ec : option string) (message_bytes : Z) c : PeerConnection * list Effect :=
  match ec with
  | Some m => (set_queue (write_queue_ c) false c, [Disconnected (TextCode "send message failed: " m)])
  | None =>
      let c := set_queue (tail (write_queue_ c)) (writing_ c) c in
      match write_queue_ c with
      | [] => (set_queue [] false c, [Traffic message_bytes 0])
      | _ => let '(c, fx) := WriteNext c in (c, Traffic message_bytes 0 :: fx)
      end
  end.

(** ** Keepalive *)

Definition StartKeepalive c : PeerConnection * list Effect := (c, [ArmPing 30]).

Definition OnPingTimer (ec : option string) c : PeerConnection * list Effect :=
  if bool_decide (is_Some ec) || negb (connected_ c) then (c, [])
  else if ping_outstanding_ c then (Close c, [Disconnected (Text "ping timeout")])
  else
    let c := set_ping true c in
    let '(c, fx) := Send Ping (encode PingPayload_Serialize (mkPing 0xA6A6A6A6)) c in
    (c, fx ++ [ArmPong 10]).

Definition OnPongTimer (ec : option string) c : PeerConnection * list Effect :=
  if bool_decide (is_Some ec) || negb (connected_ c) then (c, [])
  else if ping_outstanding_ c then (Close c, [Disconnected (Text "ping timeout")])
  else StartKeepalive c.

(** ** Connecting *)

Definition ReadHeader c : PeerConnection := set_read (header_buf_ c) (body_len_ c) AwaitHeader c.

Definition Start c : PeerConnection * list Effect := (c, [StartResolve]).
Definition StartInbound c : PeerConnection * list Effect := (ReadHeader c, []).

(** [message] is what [ec.message()] prints, also for no error. *)
Definition OnResolve (ec empty : bool) (message : string) c : PeerConnection * list Effect :=
  if ec || empty then (c, [Disconnected (TextCode "resolve failed: " message)]) else (c, [StartConnect]).

Definition SendHello c : PeerConnection * list Effect :=
  let payload := encode HelloPayload_Serialize (BuildHello (handshake_ c)) in
  let message := SerialiseMessage Hello payload (magic (conn_params_ c)) in
  (set_handshake (OnSendHello (handshake_ c)) c, [StartWriteHello message]).

Definition OnConnect (ec : option string) c : PeerConnection * list Effect :=
  match ec with
  | Some m => (c, [Disconnected (TextCode "connect failed: " m)])
  | None => SendHello c
  end.

Definition OnHelloWritten (ec : option string) (count : Z) c : PeerConnection * list Effect :=
  match ec with
  | Some m => (c, [Disconnected (TextCode "send hello failed: " m)])
  | None => (ReadHeader c, [Traffic count 0])
  end.

(** ** Messages *)

Definition answer_hello (payload : bytes) c : PeerConnection * list Effect :=
  match HelloPayload_Deserialize 256 (new_Reader payload) with
  | (None, _) => (Close c, [Disconnected (Text "malformed hello")])
  | (Some hello, _) =>
      let '(ack, h) := ReceiveHello hello (handshake_ c) in
      let c := set_handshake h c in
      match ack with
      | None => (Close c, [Disconnected (Text (FailureReason h))])
      | Some ack =>
          let msg_out := SerialiseMessage HelloAck (encode HelloAckPayload_Serialize ack) (magic (conn_params_ c)) in
          let msg_out :=
            if inbound_ c then
              SerialiseMessage Hello (encode HelloPayload_Serialize (BuildHello h)) (magic (conn_params_ c)) ++ msg_out
            else msg_out in
          (c, [StartWriteReply msg_out])
      end
  end.

(** The completion of the reply to a hello, of [response] bytes. *)
Definition OnReplyWritten (ec : option string) (count response : Z) : list Effect :=
  match ec with
  | Some m => [Disconnected (TextCode "send helloack failed: " m)]
  | None => [Traffic (if count =? 0 then response else count) 0]
  end.

(** The assertion in [Peer] is [None]; it holds after an accepted acknowledgement. *)
Definition take_ack c : PeerConnection * list Effect :=
  let '(ok, h) := OnReceiveHelloAck (handshake_ c) in
  let c := set_handshake h c in
  if ok then
    match Peer h with
    | Some p => let '(c, fx) := StartKeepalive (set_peer p c) in (c, fx ++ [Connected p])
    | None => (c, [])
    end
  else (Close c, [Disconnected (Text (FailureReason h))]).

(** The command is the number on the wire: an empty message may carry one that names
    no enumerator. *)
Definition HandleMessage (command : Z) (payload : bytes) c : PeerConnection * list Effect :=
  match command_of command with
  | Some Hello => answer_hello payload c
  | Some HelloAck => take_ack c
  | Some _ => (set_ping false c, [Deliver command payload])
  | None => (c, [Deliver command payload])
  end.

(** The header read; its 14 bytes are in [header]. *)
Definition OnHeader (ec : option string) (header : bytes) c : PeerConnection * list Effect :=
  match ec with
  | Some m => (set_read header (body_len_ c) NoRead c, [Disconnected (TextCode "read header failed: " m)])
  | None =>
      let c := set_read header (body_len_ c) NoRead c in
      let '(magic', reader) := ReadBytes 4 (new_Reader header) in
      if negb (bool_decide (magic' = Some (magic (conn_params_ c))))
      then (Close c, [Traffic 0 HEADER_SIZE; Disconnected (Text "bad magic")])
      else
        let '(cmd_raw, reader) := ReadU16 reader in
        let '(length, reader) := ReadU32 reader in
        let length := default 0 length in
        if MAX_MESSAGE_SIZE <? length
        then (Close c, [Traffic 0 HEADER_SIZE; Disconnected (Text "oversized message")])
        else if length =? 0 then
          let '(c, fx) := HandleMessage (default 0 cmd_raw) [] (set_read header 0 NoRead c) in
          (ReadHeader c, Traffic 0 HEADER_SIZE :: fx)
        else (set_read header length AwaitBody c, [Traffic 0 HEADER_SIZE])
  end.

(** The body read; its bytes, as many as asked for, are in [body]. *)
Definition OnBody (ec : option string) (body : bytes) c : PeerConnection * list Effect :=
  let c := set_read (header_buf_ c) (body_len_ c) NoRead c in
  match ec with
  | Some m => (c, [Disconnected (TextCode "read body failed: " m)])
  | None =>
      match FrameMessage (header_buf_ c ++ body) (magic (conn_params_ c)) with
      | Message.Complete command payload _ =>
          let '(c, fx) := HandleMessage (command_id command) payload c in
          (ReadHeader c, Traffic 0 (zlen body) :: fx)
      | NeedMore => (Close c, [Traffic 0 (zlen body); Disconnected (FramingError None)])
      | Malformed failure => (Close c, [Traffic 0 (zlen body); Disconnected (FramingError (Some failure))])
      end
  end.

(** ** A stream of bytes *)

(** Reads complete as soon as the bytes they want have come.  One step of that: the
    header or the body at the front of what has arrived. *)
Definition receive_one (input : bytes) c : option (PeerConnection * list Effect * bytes) :=
  match reading_ c with
  | NoRead => None
  | AwaitHeader =>
      if negb (open_ c) || (zlen input <? HEADER_SIZE) then None
      else let '(c, fx) := OnHeader None (take (Z.to_nat HEADER_SIZE) input) c in Some (c, fx, drop (Z.to_nat HEADER_SIZE) input)
  | AwaitBody =>
      if negb (open_ c) || (zlen input <? body_len_ c) then None
      else let n := Z.to_nat (body_len_ c) in let '(c, fx) := OnBody None (take n input) c in Some (c, fx, drop n input)
  end.

(** As far as [input] goes; each step takes at least one byte, so its length is fuel
    enough. *)
Fixpoint receive_loop (fuel : nat) (input : bytes) c : PeerConnection * list Effect * bytes :=
  match fuel with
  | O => (c, [], input)
  | S fuel =>
      match receive_one input c with
      | None => (c, [], input)
      | Some (c, fx, input) => let '(c, fx', rest) := receive_loop fuel input c in (c, fx ++ fx', rest)
      end
  end.
Definition receive (input : bytes) c : PeerConnection * list Effect * bytes := receive_loop (length input) input c.
End connection.

(** ** Reading a stream *)

Section reading.
Context `{SH : Sha256Impl}.
Implicit Types (c : PeerConnection).

(** What the header handler does with the fields of a header. *)
Lemma OnHeader_fields m k l s c : length m = 4%nat -> length k = 2%nat -> length l = 4%nat -> length s = 4%nat ->
  OnHeader None (m ++ k ++ l ++ s) c =
  if negb (bool_decide (m = magic (conn_params_ c)))
  then (Close (set_read (m ++ k ++ l ++ s) (body_len_ c) NoRead c), [Traffic 0 HEADER_SIZE; Disconnected (Text "bad magic")])
  else if MAX_MESSAGE_SIZE <? le_combine l
  then (Close (set_read (m ++ k ++ l ++ s) (body_len_ c) NoRead c), [Traffic 0 HEADER_SIZE; Disconnected (Text "oversized message")])
  else if le_combine l =? 0
  then let '(c, fx) := HandleMessage (le_combine k) [] (set_read (m ++ k ++ l ++ s) 0 NoRead c) in (ReadHeader c, Traffic 0 HEADER_SIZE :: fx)
  else (set_read (m ++ k ++ l ++ s) (le_combine l) AwaitBody c, [Traffic 0 HEADER_SIZE]).
Proof.
  intros Hm Hc Hl Hk. do 4 (destruct m as [|? m]; [done|]). destruct m; [|done]. do 2 (destruct k as [|? k]; [done|]). destruct k; [|done].
  do 4 (destruct l as [|? l]; [done|]). destruct l; [|done]. do 4 (destruct s as [|? s]; [done|]). destruct s; [|done].
  cbn [app]. unfold OnHeader.
  change (ReadBytes 4 _) with (Some [b; b0; b1; b2], mkReader [b; b0; b1; b2; b3; b4; b5; b6; b7; b8; b9; b10; b11; b12] 4 true).
  cbv beta iota. cbn [conn_params_ set_read].
  assert (bool_decide (Some [b; b0; b1; b2] = Some (magic (conn_params_ c))) = bool_decide ([b; b0; b1; b2] = magic (conn_params_ c))) as ->
    by (apply bool_decide_ext; split; congruence).
  destruct (negb _); [done|].
  change (ReadU16 _) with (Some (le_combine [b3; b4]), mkReader [b; b0; b1; b2; b3; b4; b5; b6; b7; b8; b9; b10; b11; b12] 6 true).
  cbv beta iota.
  change (ReadU32 _) with (Some (le_combine [b5; b6; b7; b8]), mkReader [b; b0; b1; b2; b3; b4; b5; b6; b7; b8; b9; b10; b11; b12] 10 true).
  cbv beta iota zeta. cbn [default]. reflexivity.
Qed.

(** Handling a message leaves the read buffers alone. *)
Lemma HandleMessage_set_read command payload header len r c :
  HandleMessage command payload (set_read header len r c) =
  ((set_read header len r (HandleMessage command payload c).1), (HandleMessage command payload c).2).
Proof.
  unfold HandleMessage. destruct (command_of command) as [[]|]; try done.
  - unfold answer_hello. destruct (HelloPayload_Deserialize _ _) as [[hello|] ?]; [|done]. cbn [handshake_ set_read].
    destruct (ReceiveHello hello (handshake_ c)) as [[ack|] h]; done.
  - unfold take_ack. cbn [handshake_ set_read]. destruct (OnReceiveHelloAck (handshake_ c)) as [[] h]; [|done]. by destruct (Peer h).
Qed.

Lemma HandleMessage_params command payload c :
  conn_params_ (HandleMessage command payload c).1 = conn_params_ c /\ inbound_ (HandleMessage command payload c).1 = inbound_ c.
Proof.
  unfold HandleMessage. destruct (command_of command) as [[]|]; try done.
  - unfold answer_hello. destruct (HelloPayload_Deserialize _ _) as [[hello|] ?]; [|done].
    destruct (ReceiveHello hello (handshake_ c)) as [[ack|] h]; done.
  - unfold take_ack. destruct (OnReceiveHelloAck (handshake_ c)) as [[] h]; [|done]. by destruct (Peer h).
Qed.

Definition is_traffic (e : Effect) : bool := match e with Traffic _ _ => true | _ => false end.

(** The one message at the front of a stream is handled, whatever follows it. *)
Lemma receive_message fuel command payload rest c : zlen (magic (conn_params_ c)) = 4 -> zlen payload <= MAX_MESSAGE_SIZE ->
  reading_ c = AwaitHeader -> open_ c = true ->
  exists n header len traffic, (0 < n <= 2)%nat /\ Forall (fun e => is_traffic e = true) traffic /\
    receive_loop (n + fuel) (SerialiseMessage command payload (magic (conn_params_ c)) ++ rest) c =
    let '(c', fx) := HandleMessage (command_id command) payload c in
    let '(c'', fx', rest) := receive_loop fuel rest (set_read header len AwaitHeader c') in (c'', traffic ++ fx ++ fx', rest).
Proof.
  intros Hm Hp Hr Ho. rewrite SerialiseMessage_fields, <- !app_assoc. pose proof (zlen_nonneg payload).
  set (m := magic (conn_params_ c)) in *. assert (length m = 4%nat) as Lm by (unfold zlen in Hm; lia).
  pose proof (command_id_range command) as Rc. unfold COMMAND_COUNT in Rc. pose proof (Checksum_range payload) as Rk.
  rewrite wrapu_small by (rewrite MAX_MESSAGE_SIZE_eq in Hp; lia). set (k := le_split 2 _). set (l := le_split 4 (zlen payload)). set (s := le_split 4 _).
  assert (length k = 2%nat /\ length l = 4%nat /\ length s = 4%nat) as (Lk & Ll & Ls) by (split_and!; apply length_le_split).
  assert (le_combine k = command_id command) as Ek by (apply le_combine_le_split; lia).
  assert (le_combine l = zlen payload) as El by (apply le_combine_le_split; rewrite MAX_MESSAGE_SIZE_eq in Hp; lia).
  set (h := m ++ k ++ l ++ s).
  assert (length h = 14%nat) as Lh by (unfold h; rewrite !length_app; lia).
  assert (forall X, m ++ k ++ l ++ s ++ X = h ++ X) as Eh by (intros X; unfold h; by rewrite <- !app_assoc).
  rewrite Eh.
  assert (forall X, receive_one (h ++ X) c = let '(c, fx) := OnHeader None h c in Some (c, fx, X)) as Hone.
  { intros X. unfold receive_one. rewrite Hr, Ho. rewrite (proj2 (Z.ltb_ge _ _)) by (rewrite zlen_app; unfold HEADER_SIZE, zlen; lia). cbn [negb orb].
    change (Z.to_nat HEADER_SIZE) with 14%nat. by rewrite <- Lh, take_app_length, drop_app_length. }
  assert (OnHeader None h c = if zlen payload =? 0
    then let '(c, fx) := HandleMessage (command_id command) [] (set_read h 0 NoRead c) in (ReadHeader c, Traffic 0 HEADER_SIZE :: fx)
    else (set_read h (zlen payload) AwaitBody c, [Traffic 0 HEADER_SIZE])) as EH.
  { unfold h at 1. rewrite OnHeader_fields by done. rewrite El, Ek, bool_decide_true by done. cbn [negb].
    by rewrite (proj2 (Z.ltb_ge _ _)) by lia. }
  destruct (Z.eqb_spec (zlen payload) 0) as [E0|E0].
  - assert (payload = []) as -> by (destruct payload; [done|rewrite zlen_cons in E0; pose proof (zlen_nonneg payload); lia]).
    exists 1%nat, h, 0, [Traffic 0 HEADER_SIZE]. split; [lia|]. split; [by repeat constructor|]. cbn [Nat.add receive_loop].
    rewrite app_nil_l, Hone, EH, HandleMessage_set_read. destruct (HandleMessage (command_id command) [] c) as [c' fx]. cbn [fst snd ReadHeader].
    unfold ReadHeader. cbn [header_buf_ body_len_ set_read]. change (set_read h 0 AwaitHeader (set_read h 0 NoRead c')) with (set_read h 0 AwaitHeader c').
    destruct (receive_loop fuel rest _) as [[c'' fx'] rest']. done.
  - exists 2%nat, h, (zlen payload), [Traffic 0 HEADER_SIZE; Traffic 0 (zlen payload)]. split; [lia|]. split; [by repeat constructor|].
    cbn [Nat.add receive_loop]. rewrite Hone, EH. unfold receive_one. cbn [reading_ set_read open_ body_len_]. rewrite Ho.
    rewrite (proj2 (Z.ltb_ge _ _)) by (rewrite zlen_app; pose proof (zlen_nonneg rest); lia). cbn [negb orb].
    replace (Z.to_nat (zlen payload)) with (length payload) by (unfold zlen; lia). rewrite take_app_length, drop_app_length. unfold OnBody. cbn [header_buf_ body_len_ set_read conn_params_].
    fold m. rewrite <- Eh, FrameMessage_fields by done. rewrite (proj2 (judge_Complete m (le_combine k) (le_combine l) (le_combine s) payload m command payload (HEADER_SIZE + zlen payload) ltac:(lia)));
      [|split_and!; try done; [lia|apply le_combine_le_split; lia|by rewrite El|by exists []; rewrite app_nil_r]].
    change (set_read h (zlen payload) NoRead (set_read h (zlen payload) AwaitBody c)) with (set_read h (zlen payload) NoRead c).
    rewrite HandleMessage_set_read. destruct (HandleMessage (command_id command) payload c) as [c' fx]. cbn [fst snd].
    unfold ReadHeader. cbn [header_buf_ body_len_ set_read].
    change (set_read h (zlen payload) AwaitHeader (set_read h (zlen payload) NoRead c')) with (set_read h (zlen payload) AwaitHeader c').
    destruct (receive_loop fuel rest _) as [[c'' fx'] rest']. done.
Qed.
(** A body is awaited only after a header, and never of more than the size limit. *)
Definition reads_ok c : Prop :=
  reading_ c = AwaitBody -> 0 < body_len_ c <= MAX_MESSAGE_SIZE /\ zlen (header_buf_ c) = HEADER_SIZE.

Lemma OnHeader_reads header c : zlen header = HEADER_SIZE -> reads_ok (OnHeader None header c).1.
Proof.
  intros Hh. destruct (header_split header) as (m & k & l & s & body & -> & Hm & Hk & Hl & Hs); [lia|].
  assert (body = []) as -> by (destruct body; [done|]; rewrite !zlen_app, zlen_cons in Hh; unfold zlen, HEADER_SIZE in Hh; lia).
  rewrite app_nil_r, OnHeader_fields in * by done. destruct (negb _); [done|]. destruct (Z.ltb_spec MAX_MESSAGE_SIZE (le_combine l)); [done|].
  destruct (Z.eqb_spec (le_combine l) 0).
  - rewrite HandleMessage_set_read. done.
  - intros _. cbn. pose proof (le_combine_range l). split; [lia|done].
Qed.

Lemma OnBody_reads body c : reads_ok (OnBody None body c).1.
Proof.
  unfold OnBody. destruct (FrameMessage _ _); try done. destruct (HandleMessage _ _ _) eqn:E. done.
Qed.

Lemma receive_one_ok input c c' fx rest : reads_ok c -> receive_one input c = Some (c', fx, rest) ->
  reads_ok c' /\ (length rest < length input)%nat.
Proof.
  intros R. unfold receive_one. destruct (reading_ c) eqn:Er; [done|..].
  - destruct (Z.ltb_spec (zlen input) HEADER_SIZE); [by rewrite orb_true_r|]. destruct (negb (open_ c)); [done|]. cbn [orb].
    pose proof (OnHeader_reads (take (Z.to_nat HEADER_SIZE) input) c) as HR. destruct (OnHeader _ _ _) as [c1 fx1]. intros [= <- <- <-].
    unfold HEADER_SIZE, zlen in *. rewrite length_drop. split; [|lia]. apply HR. rewrite length_take. lia.
  - destruct (Z.ltb_spec (zlen input) (body_len_ c)); [by rewrite orb_true_r|]. destruct (negb (open_ c)); [done|]. cbn [orb].
    pose proof (OnBody_reads (take (Z.to_nat (body_len_ c)) input) c) as HR. destruct (OnBody _ _ _) as [c1 fx1]. intros [= <- <- <-].
    destruct (R Er) as [Hb _]. unfold zlen in *. rewrite length_drop. split; [done|lia].
Qed.

(** The length of the input is fuel enough. *)
Lemma receive_fuel fuel : forall input c, reads_ok c -> (length input <= fuel)%nat -> receive_loop fuel input c = receive input c.
Proof.
  unfold receive. induction fuel as [fuel IH] using lt_wf_ind. intros input c R Hf.
  assert (forall f, (length input <= f)%nat -> receive_loop f input c = match receive_one input c with
    | None => (c, [], input)
    | Some (c, fx, rest) => let '(c, fx', rest) := receive_loop (pred f) rest c in (c, fx ++ fx', rest) end) as Hu.
  { intros [|f] Hle; [|done]. cbn. destruct (receive_one input c) as [[[c1 fx1] rest1]|] eqn:E; [|done].
    apply receive_one_ok in E as [_ ?]; [lia|done]. }
  rewrite (Hu fuel Hf), (Hu (length input) ltac:(lia)). destruct (receive_one input c) as [[[c1 fx1] rest1]|] eqn:E; [|done].
  apply receive_one_ok in E as [R1 Hl]; [|done]. rewrite (IH (pred fuel)) by (done || lia).
  destruct (decide (fuel = length input)) as [->|]; [by rewrite (IH (pred (length input))) by (done || lia)|].
  by rewrite (IH (pred (length input))) by (done || lia).
Qed.

(** Effects other than the byte counts. *)
Definition said (fx : list Effect) : list Effect := List.filter (fun e => negb (is_traffic e)) fx.

Lemma said_app fx fx' : said (fx ++ fx') = said fx ++ said fx'.
Proof. apply List.filter_app. Qed.

Lemma said_traffic fx : Forall (fun e => is_traffic e = true) fx -> said fx = [].
Proof. induction 1 as [|e l He _ IH]; [done|]. unfold said. cbn. by rewrite He. Qed.

Lemma HandleMessage_said command payload c : said (HandleMessage command payload c).2 = (HandleMessage command payload c).2.
Proof.
  unfold HandleMessage. destruct (command_of command) as [[]|]; try done.
  - unfold answer_hello. destruct (HelloPayload_Deserialize _ _) as [[hello|] ?]; [|done].
    destruct (ReceiveHello hello (handshake_ c)) as [[ack|] h]; done.
  - unfold take_ack. destruct (OnReceiveHelloAck (handshake_ c)) as [[] h]; [|done]. by destruct (Peer h).
Qed.

(** The message at the front of a stream, without the fuel: it is handled, and then the
    rest of the stream is. *)
Lemma receive_step command payload rest c : zlen (magic (conn_params_ c)) = 4 -> zlen payload <= MAX_MESSAGE_SIZE ->
  reading_ c = AwaitHeader -> open_ c = true ->
  exists header len,
    let '(c', fx) := HandleMessage (command_id command) payload c in
    let '(c'', fx', rest') := receive rest (set_read header len AwaitHeader c') in
    (receive (SerialiseMessage command payload (magic (conn_params_ c)) ++ rest) c).1.1 = c'' /\
    (receive (SerialiseMessage command payload (magic (conn_params_ c)) ++ rest) c).2 = rest' /\
    said (receive (SerialiseMessage command payload (magic (conn_params_ c)) ++ rest) c).1.2 = fx ++ said fx'.
Proof.
  intros Hm Hp Hr Ho. assert (reads_ok c) as R by (unfold reads_ok; by rewrite Hr).
  set (input := _ ++ rest). destruct (receive_message (length input) command payload rest c Hm Hp Hr Ho) as (n & header & len & tr & Hn & Ht & E).
  exists header, len. rewrite receive_fuel in E by (done || (unfold input; lia)). fold input in E. rewrite E.
  pose proof (HandleMessage_said (command_id command) payload c) as Hs. destruct (HandleMessage (command_id command) payload c) as [c1 fx]. cbn [fst snd] in Hs.
  rewrite receive_fuel by (done || (unfold input; rewrite length_app; lia)). destruct (receive rest _) as [[c2 fx2] rest2]. cbn.
  by rewrite !said_app, said_traffic, Hs by done.
Qed.
End reading.

(** ** Several messages *)

Section streams.
Context `{SH : Sha256Impl}.
Implicit Types (c : PeerConnection).

(** The commands the handler of the owner sees. *)
Definition ordinary (command : Command) : Prop := command <> Hello /\ command <> HelloAck.

Lemma HandleMessage_ordinary command payload c : ordinary command ->
  HandleMessage (command_id command) payload c = (set_ping false c, [Deliver (command_id command) payload]).
Proof. intros [? ?]. by destruct command. Qed.

Definition wire (m : bytes) (msgs : list (Command * bytes)) : bytes := concat (map (fun '(k, p) => SerialiseMessage k p m) msgs).

Lemma receive_nothing c : receive [] c = (c, [], []).
Proof. done. Qed.

Lemma receive_all msgs : forall c, zlen (magic (conn_params_ c)) = 4 -> reading_ c = AwaitHeader -> open_ c = true ->
  Forall (fun '(k, p) => ordinary k /\ zlen p <= MAX_MESSAGE_SIZE) msgs ->
  exists c' fx, receive (wire (magic (conn_params_ c)) msgs) c = (c', fx, []) /\
    said fx = map (fun '(k, p) => Deliver (command_id k) p) msgs /\
    open_ c' = true /\ reading_ c' = AwaitHeader /\ handshake_ c' = handshake_ c /\ connected_ c' = connected_ c.
Proof.
  induction msgs as [|[k p] msgs IH]; intros c Hm Hr Ho F; [by exists c, []|]. apply Forall_cons_1 in F as [[Hk Hp] F'].
  unfold wire. cbn [map concat]. fold (wire (magic (conn_params_ c)) msgs).
  destruct (receive_step k p (wire (magic (conn_params_ c)) msgs) c Hm Hp Hr Ho) as (header & len & E).
  rewrite (HandleMessage_ordinary k p c Hk) in E.
  destruct (IH (set_read header len AwaitHeader (set_ping false c)) Hm eq_refl Ho F') as (c' & fx & E' & S & O & R & H & C).
  change (magic (conn_params_ (set_read header len AwaitHeader (set_ping false c)))) with (magic (conn_params_ c)) in E'.
  rewrite E' in E. destruct (receive (_ ++ _) c) as [[c2 fx2] rest2]. cbn [fst snd] in E. destruct E as (-> & -> & S2).
  exists c', fx2. split; [done|]. split; [|done]. by rewrite S2, S.
Qed.

(** What a sender is asked, and the completions of its writes. *)
Inductive SendEvent := Queue (command : Command) (payload : bytes) | Written.

Definition queued (es : list SendEvent) : list (Command * bytes) :=
  omap (fun e => match e with Queue k p => Some (k, p) | Written => None end) es.

(** The data of the writes a list of effects starts. *)
Definition writes (fx : list Effect) : list bytes :=
  omap (fun e => match e with StartWriteQueued d | StartWriteHello d | StartWriteReply d => Some d | _ => None end) fx.

(** A write completes only when one was started. *)
Fixpoint sender (es : list SendEvent) c : PeerConnection * list bytes :=
  match es with
  | [] => (c, [])
  | e :: es =>
      let '(c, fx) :=
        match e with
        | Queue k p => Send k p c
        | Written => if writing_ c then OnQueuedWritten None (zlen (default [] (head (write_queue_ c)))) c else (c, [])
        end in
      let '(c, out) := sender es c in (c, writes fx ++ out)
  end.

(** The flag says whether a write is under way: one is, exactly when something is queued. *)
Definition queue_ok c : Prop := writing_ c = negb (bool_decide (write_queue_ c = [])).

Lemma sender_spec es : forall c, queue_ok c ->
  let '(c', out) := sender es c in
  queue_ok c' /\ out ++ tail (write_queue_ c') =
    tail (write_queue_ c) ++ map (fun '(k, p) => SerialiseMessage k p (magic (conn_params_ c))) (queued es).
Proof.
  induction es as [|e es IH]; intros c Q; [by rewrite app_nil_r|]. unfold queue_ok in Q.
  destruct e as [k p|]; cbn [sender].
  - unfold Send, WriteNext. destruct (write_queue_ c) as [|x t] eqn:Eq; rewrite ?bool_decide_true in Q by done; rewrite ?bool_decide_false in Q by done;
      cbn [negb] in Q; cbn [write_queue_ set_queue writing_]; rewrite Q; cbn [app].
    + specialize (IH (set_queue [SerialiseMessage k p (magic (conn_params_ c))] true (set_queue [SerialiseMessage k p (magic (conn_params_ c))] false c)) eq_refl).
      destruct (sender es _) as [c' out]. destruct IH as [Q' IH]. split; [done|]. cbn. by rewrite IH.
    + specialize (IH (set_queue (x :: t ++ [SerialiseMessage k p (magic (conn_params_ c))]) true c) eq_refl).
      destruct (sender es _) as [c' out]. destruct IH as [Q' IH]. split; [done|]. cbn in IH |- *. rewrite IH. by rewrite <- app_assoc.
  - destruct (write_queue_ c) as [|x t] eqn:Eq; rewrite ?bool_decide_true in Q by done; rewrite ?bool_decide_false in Q by done; cbn [negb] in Q; rewrite Q.
    + specialize (IH c). unfold queue_ok in IH. rewrite Eq, bool_decide_true in IH by done. specialize (IH Q).
      destruct (sender es c) as [c' out]. by cbn in *.
    + unfold OnQueuedWritten, WriteNext. rewrite Eq. cbn [tail write_queue_ set_queue]. destruct t as [|y t].
      * specialize (IH (set_queue [] false (set_queue [] (writing_ c) c)) eq_refl). destruct (sender es _) as [c' out]. by cbn in *.
      * specialize (IH (set_queue (y :: t) (writing_ c) c) Q). destruct (sender es _) as [c' out]. destruct IH as [Q' IH]. split; [done|].
        cbn in *. by rewrite IH.
Qed.

Lemma sent_in_full es c c' out : write_queue_ c = [] -> writing_ c = false -> sender es c = (c', out) -> write_queue_ c' = [] ->
  concat out = wire (magic (conn_params_ c)) (queued es).
Proof.
  intros Eq Ew E Eq'. pose proof (sender_spec es c) as S. rewrite E, Eq in S. destruct S as [_ S].
  { unfold queue_ok. by rewrite Eq, Ew, bool_decide_true by done. }
  rewrite Eq' in S. cbn in S. rewrite app_nil_r in S. by rewrite S.
Qed.
End streams.
(** ** What can be delivered *)

Section deliveries.
Context `{SH : Sha256Impl}.
Implicit Types (c : PeerConnection).

(** A stream with the header already read put back. *)
Definition unread (input : bytes) c : bytes := match reading_ c with AwaitBody => header_buf_ c ++ input | _ => input end.

(** The message was empty, or its exact serialisation is in [stream]. *)
Definition justified (m stream : bytes) (command : Z) (payload : bytes) : Prop :=
  payload = [] \/ zlen payload <= MAX_MESSAGE_SIZE /\ exists k pre post, command = command_id k /\ stream = pre ++ SerialiseMessage k payload m ++ post.

Lemma justified_suffix m pre stream command payload : justified m stream command payload -> justified m (pre ++ stream) command payload.
Proof.
  intros [->|(Hl & k & a & b & -> & ->)]; [by left|]. right. split; [done|]. exists k, (pre ++ a), b. by rewrite <- app_assoc.
Qed.

Lemma HandleMessage_Deliver command payload c k p : Deliver k p ∈ (HandleMessage command payload c).2 -> k = command /\ p = payload.
Proof.
  unfold HandleMessage. destruct (command_of command) as [[]|]; cbn [snd];
    try (intros E; apply list_elem_of_singleton in E; by injection E as <- <-).
  - unfold answer_hello. destruct (HelloPayload_Deserialize _ _) as [[hello|] ?]; [|set_solver].
    destruct (ReceiveHello hello (handshake_ c)) as [[ack|] h]; set_solver.
  - unfold take_ack. destruct (OnReceiveHelloAck (handshake_ c)) as [[] h]; [|set_solver]. destruct (Peer h); set_solver.
Qed.

Lemma OnHeader_Deliver header c k p : Deliver k p ∈ (OnHeader None header c).2 -> p = [].
Proof.
  unfold OnHeader. destruct (ReadBytes _ _) as [mm r]. destruct (negb _); [set_solver|]. destruct (ReadU16 r) as [cmd r2].
  destruct (ReadU32 r2) as [len r3]. destruct (_ <? _); [set_solver|]. destruct (_ =? _); [|set_solver].
  pose proof (HandleMessage_Deliver (default 0 cmd) [] (set_read header 0 NoRead (set_read header (body_len_ c) NoRead c)) k p) as H.
  destruct (HandleMessage _ _ _) as [c' fx]. cbn [snd] in *. intros [E|E]%elem_of_cons; [done|]. by apply H.
Qed.

Lemma OnHeader_unread header rest c : zlen header = HEADER_SIZE ->
  exists pre, header ++ rest = pre ++ unread rest (OnHeader None header c).1.
Proof.
  intros Hh. unfold unread. destruct (reading_ (OnHeader None header c).1) eqn:E; [by exists header..|]. exists [].
  enough (header_buf_ (OnHeader None header c).1 = header) as -> by done. revert E.
  unfold OnHeader. destruct (ReadBytes _ _) as [mm r]. destruct (negb _); [done|]. destruct (ReadU16 r) as [cmd r2].
  destruct (ReadU32 r2) as [len r3]. destruct (_ <? _); [done|]. destruct (_ =? _); [|done]. by rewrite HandleMessage_set_read.
Qed.

Lemma handlers_params header body c :
  conn_params_ (OnHeader None header c).1 = conn_params_ c /\ conn_params_ (OnBody None body c).1 = conn_params_ c.
Proof.
  split.
  - unfold OnHeader. destruct (ReadBytes _ _) as [mm r]. destruct (negb _); [done|]. destruct (ReadU16 r) as [cmd r2].
    destruct (ReadU32 r2) as [len r3]. destruct (_ <? _); [done|]. destruct (_ =? _); [|done].
    pose proof (HandleMessage_params (default 0 cmd) [] (set_read header 0 NoRead (set_read header (body_len_ c) NoRead c))) as [P _].
    by destruct (HandleMessage _ _ _).
  - unfold OnBody. destruct (FrameMessage _ _) as [k p n| |]; try done.
    pose proof (HandleMessage_params (command_id k) p (set_read (header_buf_ c) (body_len_ c) NoRead c)) as [P _]. by destruct (HandleMessage _ _ _).
Qed.

Lemma OnBody_Deliver body c k p : zlen (magic (conn_params_ c)) = 4 -> Deliver k p ∈ (OnBody None body c).2 ->
  justified (magic (conn_params_ c)) (header_buf_ c ++ body) k p.
Proof.
  intros Hm. unfold OnBody. cbn [header_buf_ set_read conn_params_]. destruct (FrameMessage _ _) as [cmd payload n| |] eqn:E; [|set_solver..].
  apply FrameMessage_Complete in E as (Hp & _ & t & ->); [|done].
  pose proof (HandleMessage_Deliver (command_id cmd) payload (set_read (header_buf_ c) (body_len_ c) NoRead c) k p) as H.
  destruct (HandleMessage _ _ _) as [c' fx]. cbn [snd] in *. intros [E|E]%elem_of_cons; [done|]. destruct (H E) as [-> ->].
  right. split; [done|]. by exists cmd, [], t.
Qed.

Lemma receive_loop_justified fuel : forall input c c' fx rest, zlen (magic (conn_params_ c)) = 4 -> reads_ok c ->
  receive_loop fuel input c = (c', fx, rest) -> reads_ok c' /\
  forall k p, Deliver k p ∈ fx -> justified (magic (conn_params_ c)) (unread input c) k p.
Proof.
  induction fuel as [|fuel IH]; intros input c c' fx rest Hm R; cbn [receive_loop]; [by intros [= <- <- <-]; split; [|set_solver]|].
  destruct (receive_one input c) as [[[c1 fx1] rest1]|] eqn:E1; [|by intros [= <- <- <-]; split; [|set_solver]].
  destruct (receive_loop fuel rest1 c1) as [[c2 fx2] rest2] eqn:E2. intros [= <- <- <-].
  destruct (receive_one_ok _ _ _ _ _ R E1) as [R1 _].
  assert (conn_params_ c1 = conn_params_ c /\ (exists pre, unread input c = pre ++ unread rest1 c1) /\
    forall k p, Deliver k p ∈ fx1 -> justified (magic (conn_params_ c)) (unread input c) k p) as (P1 & (pre & U) & D1).
  { unfold receive_one in E1. unfold unread at 1 3. destruct (reading_ c) eqn:Er; [done|..].
    - destruct (Z.ltb_spec (zlen input) HEADER_SIZE); [by rewrite orb_true_r in E1|]. destruct (negb (open_ c)); [done|]. cbn [orb] in E1.
      set (header := take (Z.to_nat HEADER_SIZE) input) in *. set (tail := drop (Z.to_nat HEADER_SIZE) input) in *.
      assert (zlen header = HEADER_SIZE) as Hh by (unfold header, zlen, HEADER_SIZE in *; rewrite length_take; lia).
      pose proof (OnHeader_unread header tail c Hh) as [pre U]. pose proof (handlers_params header [] c) as [P _].
      pose proof (OnHeader_Deliver header c) as D. destruct (OnHeader _ _ _) as [c3 fx3]. cbn [fst snd] in *. injection E1 as <- <- <-.
      split; [done|]. split; [exists pre; rewrite <- U; symmetry; apply take_drop|]. intros k p E. left. by eapply D.
    - destruct (Z.ltb_spec (zlen input) (body_len_ c)); [by rewrite orb_true_r in E1|]. destruct (negb (open_ c)); [done|]. cbn [orb] in E1.
      set (body := take _ input) in *. set (tail := drop _ input) in *. assert (input = body ++ tail) as Ei by (symmetry; apply take_drop).
      pose proof (OnBody_Deliver body c) as D. pose proof (handlers_params [] body c) as [_ P].
      assert (reading_ (OnBody None body c).1 <> AwaitBody) as Hr.
      { unfold OnBody. destruct (FrameMessage _ _); try done. by destruct (HandleMessage _ _ _). }
      destruct (OnBody _ _ _) as [c3 fx3]. cbn [fst snd] in *. injection E1 as <- <- <-. split; [done|]. rewrite Ei. split.
      + exists (header_buf_ c ++ body). unfold unread. rewrite <- app_assoc. by destruct (reading_ c3).
      + intros k p E. rewrite app_assoc. destruct (D k p Hm E) as [->|(Hp & cmd & a & b & -> & Eb)]; [by left|]. right. split; [done|].
        exists cmd, a, (b ++ tail). split; [done|]. by rewrite Eb, <- !app_assoc. }
  destruct (IH rest1 c1 c2 fx2 rest2) as [R2 D2]; [by rewrite P1|done|done|]. split; [done|].
  intros k p [E|E]%elem_of_app; [by apply D1|]. rewrite U. apply justified_suffix. rewrite <- P1. by apply D2.
Qed.
End deliveries.
(** ** Hellos on the wire *)

Section hellos.
Context `{SH : Sha256Impl}.
Implicit Types (c : PeerConnection).

Lemma hello_size params n : is_hash (chain_id params) -> zlen (encode HelloPayload_Serialize (BuildHello (new_Handshake params n))) = 76.
Proof.
  intros Hc. rewrite flat_Hello. cbn [BuildHello protocol_version services timestamp hello_chain_id best_height nonce user_agent params_ new_Handshake].
  rewrite 7 zlen_app.
  assert (zlen (encode WriteHash256 (chain_id params)) = 32) as -> by exact Hc. reflexivity.
Qed.

Lemma decode_hello hello : HelloPayload_ok 256 hello -> zlen (encode HelloPayload_Serialize hello) < 2 ^ 64 ->
  (HelloPayload_Deserialize 256 (new_Reader (encode HelloPayload_Serialize hello))).1 = Some hello.
Proof.
  intros Hok Hl. assert (u64 256) as Hmax by done. pose proof (codec_Hello 256 Hmax) as C.
  rewrite (proj2 (codec_iff (Codec := C) (new_Reader (encode HelloPayload_Serialize hello)) hello
    (advance (new_Reader (encode HelloPayload_Serialize hello)) (zlen (encode HelloPayload_Serialize hello))) (new_Reader_inv _ Hl) eq_refl)); [done|].
  split; [done|]. split; [|done]. exists []. by rewrite rest_new, app_nil_r.
Qed.

(** A good hello is answered. *)
Lemma answer_good hello c : HelloPayload_ok 256 hello -> zlen (encode HelloPayload_Serialize hello) < 2 ^ 64 -> vetted (handshake_ c) hello ->
  HandleMessage (command_id Hello) (encode HelloPayload_Serialize hello) c =
  (let h := mkHandshake (params_ (handshake_ c)) (local_nonce_ (handshake_ c)) AwaitingReceiveHelloAck (peer_of hello) (failure_reason_ (handshake_ c)) in
   (set_handshake h c,
    [StartWriteReply ((if inbound_ c then SerialiseMessage Hello (encode HelloPayload_Serialize (BuildHello h)) (magic (conn_params_ c)) else [])
       ++ SerialiseMessage HelloAck [] (magic (conn_params_ c)))])).
Proof.
  intros Hok Hl V. change (HandleMessage (command_id Hello)) with answer_hello. unfold answer_hello.
  pose proof (decode_hello hello Hok Hl) as D. destruct (HelloPayload_Deserialize _ _) as [? ?]. cbn in D. subst.
  rewrite (proj2 (ReceiveHello_Some hello (handshake_ c) mkHelloAck _) (conj V (conj eq_refl eq_refl))).
  cbn [inbound_ set_handshake conn_params_]. change (encode HelloAckPayload_Serialize mkHelloAck) with (@nil Init.Byte.byte). by destruct (inbound_ c).
Qed.

(** An expected acknowledgement completes. *)
Lemma ack_completes c : state_ (handshake_ c) = AwaitingReceiveHelloAck ->
  HandleMessage (command_id HelloAck) [] c =
  (set_peer (peer_ (handshake_ c)) (set_handshake (set_state Handshake.Complete (handshake_ c)) c), [ArmPing 30; Connected (peer_ (handshake_ c))]).
Proof.
  intros E. change (HandleMessage (command_id HelloAck) []) with take_ack. unfold take_ack, OnReceiveHelloAck. by rewrite E.
Qed.

(** Receiving one message alone. *)
Lemma receive_single command payload c c' fx : zlen (magic (conn_params_ c)) = 4 -> zlen payload <= MAX_MESSAGE_SIZE ->
  reading_ c = AwaitHeader -> open_ c = true -> HandleMessage (command_id command) payload c = (c', fx) ->
  exists header len fx', receive (SerialiseMessage command payload (magic (conn_params_ c))) c = (set_read header len AwaitHeader c', fx', []) /\ said fx' = fx.
Proof.
  intros Hm Hp Hr Ho E. destruct (receive_step command payload [] c Hm Hp Hr Ho) as (header & len & S).
  rewrite E, receive_nothing, app_nil_r in S. destruct (receive _ c) as [[c2 fx2] rest2]. cbn [fst snd] in S. destruct S as (-> & -> & S).
  exists header, len, fx2. split; [done|]. rewrite S. apply app_nil_r.
Qed.

Lemma writes_said fx : writes (said fx) = writes fx.
Proof. induction fx as [|[] fx IH]; cbn; unfold writes, said in *; cbn; rewrite ?IH; done. Qed.

Lemma said_elem fx e : e ∈ said fx -> e ∈ fx.
Proof. unfold said. intros E%list_elem_of_In. apply list_elem_of_In. by apply filter_In in E as [E _]. Qed.
End hellos.


(** ** The theorems *)

(** C28: What one side queues is what the other side is given.  However queued sends and
    completed writes interleave, the writes a connection starts carry its messages whole
    and in the order they were queued; and a connection that reads them, in any state of
    its handshake, hands its owner exactly those commands and payloads in that order,
    reads every byte and stays open. *)
Theorem wire_delivers `{Sha256Impl} (es : list SendEvent) (a a' b : PeerConnection) (out : list bytes)
    (Hm : zlen (magic (conn_params_ b)) = 4) (Hs : magic (conn_params_ a) = magic (conn_params_ b))
    (Ha : write_queue_ a = [] /\ writing_ a = false) (Hb : reading_ b = AwaitHeader /\ open_ b = true)
    (Hok : Forall (fun '(k, p) => ordinary k /\ zlen p <= MAX_MESSAGE_SIZE) (queued es))
    (Hrun : sender es a = (a', out)) (Hend : write_queue_ a' = []) :
  exists b' fx, receive (concat out) b = (b', fx, []) /\
    said fx = map (fun '(k, p) => Deliver (command_id k) p) (queued es) /\ open_ b' = true /\ reading_ b' = AwaitHeader.
Proof.
  destruct Ha as [Eq Ew], Hb as [Er Eo]. rewrite (sent_in_full es a a' out Eq Ew Hrun Hend), Hs.
  destruct (receive_all (queued es) b Hm Er Eo Hok) as (b' & fx & E & S & O & R & _). by exists b', fx.
Qed.

Definition sample_sends : list SendEvent :=
  [Queue Ping (replicate 8 Byte.x05); Queue GetAddr []; Written; Queue Pong [Byte.x01]; Written; Written].

Lemma wire_delivers_witness :
  exists b' fx, receive (H := toy_Sha256Impl) (concat (sender (SH := toy_Sha256Impl) sample_sends (new_outbound REGTEST_PARAMS 7 "a" 1 "a")).2)
      (ReadHeader (new_inbound REGTEST_PARAMS 8 "b")) = (b', fx, []) /\
    said fx = [Deliver 10 (replicate 8 Byte.x05); Deliver 8 []; Deliver 11 [Byte.x01]] /\ open_ b' = true /\ reading_ b' = AwaitHeader.
Proof.
  destruct (sender (SH := toy_Sha256Impl) sample_sends (new_outbound REGTEST_PARAMS 7 "a" 1 "a")) as [a' out] eqn:E.
  apply (wire_delivers (H := toy_Sha256Impl) sample_sends (new_outbound REGTEST_PARAMS 7 "a" 1 "a") a' (ReadHeader (new_inbound REGTEST_PARAMS 8 "b")) out);
    [reflexivity|reflexivity|split; reflexivity|split; reflexivity| |exact E|].
  - repeat constructor; try done; vm_compute; discriminate.
  - change a' with (a', out).1. rewrite <- E. vm_compute. reflexivity.
Defined.

(** C29: Two nodes of one network with different nonces become peers.  The dialler sends
    its hello, the listener answers with its hello and acknowledgement in one write, the
    dialler acknowledges: after these three messages have been carried across, both are
    connected, each has told its owner so, and each knows the hello the other sent. *)
Theorem handshake_completes `{Sha256Impl} (params : ChainParams) (n m : Z) (host : string) (port : Z) (remote remote' : string)
    (Hm : zlen (magic params) = 4) (Hne : n <> m)
    (Hn : HelloPayload_ok 256 (BuildHello (new_Handshake params n))) (Hok : HelloPayload_ok 256 (BuildHello (new_Handshake params m))) :
  let '(o, f1) := OnConnect None (new_outbound params n host port remote) in
  let '(o, _) := OnHelloWritten None (zlen (concat (writes f1))) o in
  let '(i, _) := StartInbound (new_inbound params m remote') in
  let '(i, f2, _) := receive (concat (writes f1)) i in
  let '(o, f3, _) := receive (concat (writes f2)) o in
  let '(i, f4, _) := receive (concat (writes f3)) i in
  let hello_o := peer_of (BuildHello (new_Handshake params n)) in
  let hello_i := peer_of (BuildHello (new_Handshake params m)) in
  connected_ o = true /\ connected_ i = true /\ peer_hello_ o = hello_i /\ peer_hello_ i = hello_o /\
  Connected hello_i ∈ f3 /\ Connected hello_o ∈ f4 /\ open_ o = true /\ open_ i = true.
Proof.
  pose proof (hello_size params n (proj1 (proj2 (proj2 (proj2 Hn))))) as Ln. pose proof (hello_size params m (proj1 (proj2 (proj2 (proj2 Hok))))) as Lm.
  cbn [OnConnect]. unfold SendHello. cbn [OnHelloWritten StartInbound]. set (hn := BuildHello (new_Handshake params n)) in *. set (hm := BuildHello (new_Handshake params m)) in *.
  change (BuildHello (handshake_ (new_outbound params n host port remote))) with hn.
  change (conn_params_ (new_outbound params n host port remote)) with params.
  change (concat (writes [StartWriteHello ?x])) with (x ++ []). rewrite app_nil_r.
  set (o1 := ReadHeader (set_handshake _ _)). set (i0 := ReadHeader (new_inbound params m remote')).
  (* the dialler's hello arrives *)
  assert (vetted (handshake_ i0) hn) as Vi by (split_and!; [done|done|vm_compute; discriminate]).
  pose proof (answer_good hn i0 Hn ltac:(lia) Vi) as A1. cbv zeta in A1. change (conn_params_ i0) with params in A1.
  change (inbound_ i0) with true in A1. cbv iota in A1. change (BuildHello (mkHandshake _ _ _ _ _)) with hm in A1.
  destruct (receive_single Hello _ i0 _ _ Hm ltac:(rewrite Ln; vm_compute; discriminate) eq_refl eq_refl A1) as (h1 & l1 & f1 & E1 & S1).
  change (conn_params_ i0) with params in E1. rewrite E1.
  rewrite <- (writes_said f1), S1. change (concat (writes [StartWriteReply ?x])) with (x ++ []). rewrite app_nil_r.
  set (i1 := set_read h1 l1 AwaitHeader _).
  (* its answer arrives, in two parts *)
  assert (vetted (handshake_ o1) hm) as Vo by (split_and!; [done|cbn; congruence|vm_compute; discriminate]).
  pose proof (answer_good hm o1 Hok ltac:(lia) Vo) as A2. cbv zeta in A2. change (conn_params_ o1) with params in A2. change (inbound_ o1) with false in A2.
  cbv iota in A2. rewrite app_nil_l in A2.
  destruct (receive_step Hello (encode HelloPayload_Serialize hm) (SerialiseMessage HelloAck [] (magic params)) o1 Hm ltac:(rewrite Lm; vm_compute; discriminate) eq_refl eq_refl)
    as (h2 & l2 & S2). rewrite A2 in S2. change (conn_params_ o1) with params in S2. set (o2 := set_read h2 l2 AwaitHeader _) in S2.
  destruct (receive_single HelloAck [] o2 _ _ Hm ltac:(vm_compute; discriminate) eq_refl eq_refl (ack_completes o2 eq_refl)) as (h3 & l3 & f3 & E3 & S3).
  change (conn_params_ o2) with params in E3. rewrite E3 in S2. destruct (receive (_ ++ _) o1) as [[o3 f2] r2]. cbn [fst snd] in S2. destruct S2 as (-> & -> & S2).
  rewrite S3 in S2. rewrite <- (writes_said f2), S2. change (concat (writes _)) with (SerialiseMessage HelloAck [] (magic params) ++ []). rewrite app_nil_r.
  (* its acknowledgement arrives *)
  destruct (receive_single HelloAck [] i1 _ _ Hm ltac:(vm_compute; discriminate) eq_refl eq_refl (ack_completes i1 eq_refl)) as (h4 & l4 & f4 & E4 & S4).
  change (conn_params_ i1) with params in E4. rewrite E4. split_and!; try done.
  - apply said_elem. rewrite S2. right. right. left.
  - apply said_elem. rewrite S4. right. left.
Qed.

Lemma handshake_completes_witness :
  let '(o, f1) := OnConnect (H := toy_Sha256Impl) None (new_outbound REGTEST_PARAMS 7 "a" 1 "a") in
  let '(o, _) := OnHelloWritten None (zlen (concat (writes f1))) o in
  let '(i, _) := StartInbound (new_inbound REGTEST_PARAMS 8 "b") in
  let '(i, f2, _) := receive (H := toy_Sha256Impl) (concat (writes f1)) i in
  let '(o, f3, _) := receive (H := toy_Sha256Impl) (concat (writes f2)) o in
  let '(i, f4, _) := receive (H := toy_Sha256Impl) (concat (writes f3)) i in
  let hello_o := peer_of (BuildHello (new_Handshake REGTEST_PARAMS 7)) in
  let hello_i := peer_of (BuildHello (new_Handshake REGTEST_PARAMS 8)) in
  connected_ o = true /\ connected_ i = true /\ peer_hello_ o = hello_i /\ peer_hello_ i = hello_o /\
  Connected hello_i ∈ f3 /\ Connected hello_o ∈ f4 /\ open_ o = true /\ open_ i = true.
Proof.
  apply (handshake_completes (H := toy_Sha256Impl) REGTEST_PARAMS 7 8 "a" 1 "a" "b"); [reflexivity|discriminate|..].
  - unfold HelloPayload_ok, u32, u64, i64, is_hash. vm_compute. intuition congruence.
  - unfold HelloPayload_ok, u32, u64, i64, is_hash. vm_compute. intuition congruence.
Defined.

(** A connection hands its owner only what was on the wire.  From any bytes at all,
    in any state of the handshake, each message delivered either is empty or is one whose
    exact serialisation (magic, known command, length, checksum, payload) is in the
    stream; and a connection never waits for, or holds room for, a body of more than the
    size limit. *)
Theorem deliveries_checked `{Sha256Impl} (input : bytes) (c c' : PeerConnection) (fx : list Effect) (rest : bytes)
    (Hm : zlen (magic (conn_params_ c)) = 4) (Hr : reading_ c = AwaitHeader) (Hrun : receive input c = (c', fx, rest)) :
  (forall command payload, Deliver command payload ∈ fx -> payload = [] \/
    zlen payload <= MAX_MESSAGE_SIZE /\ exists k pre post, command = command_id k /\
      input = pre ++ SerialiseMessage k payload (magic (conn_params_ c)) ++ post) /\
  (reading_ c' = AwaitBody -> 0 < body_len_ c' <= MAX_MESSAGE_SIZE).
Proof.
  destruct (receive_loop_justified (length input) input c c' fx rest Hm) as [R D]; [unfold reads_ok; by rewrite Hr|exact Hrun|].
  split; [|intros E; by destruct (R E)]. intros k p E. pose proof (D k p E) as J. unfold unread in J. by rewrite Hr in J.
Qed.

Lemma deliveries_checked_witness :
  exists k pre post, 10 = command_id k /\ wire (SH := toy_Sha256Impl) (magic REGTEST_PARAMS) [(Ping, [Byte.x05])] =
    pre ++ SerialiseMessage (H := toy_Sha256Impl) k [Byte.x05] (magic REGTEST_PARAMS) ++ post.
Proof.
  destruct (receive (H := toy_Sha256Impl) (wire (SH := toy_Sha256Impl) (magic REGTEST_PARAMS) [(Ping, [Byte.x05])]) (ReadHeader (new_inbound REGTEST_PARAMS 8 "b")))
    as [[c' fx] rest] eqn:E.
  destruct (deliveries_checked (H := toy_Sha256Impl) _ (ReadHeader (new_inbound REGTEST_PARAMS 8 "b")) c' fx rest eq_refl eq_refl E) as [D _].
  destruct (D 10 [Byte.x05]) as [|[_ J]]; [|discriminate|exact J].
  change fx with (c', fx, rest).1.2. rewrite <- E. vm_compute. do 2 right. left.
Defined.

(** A stranger is served.  On an inbound connection that has had no hello, any ordinary
    message is handed to the owner like a peer's and the connection stays open; and an
    empty one is handed on with any number for a command and any checksum, where
    [FrameMessage] refuses the same bytes unless the command is known and the checksum
    nought. *)
Theorem stranger_is_served `{Sha256Impl} (params : ChainParams) (nonce : Z) (remote : string) (Hm : zlen (magic params) = 4) :
  (forall k p, ordinary k -> zlen p <= MAX_MESSAGE_SIZE ->
    exists c fx, receive (SerialiseMessage k p (magic params)) (StartInbound (new_inbound params nonce remote)).1 = (c, fx, []) /\
      said fx = [Deliver (command_id k) p] /\ open_ c = true /\ State (handshake_ c) = AwaitingSendHello) /\
  (forall id checksum, u16 id -> u32 checksum -> 1 < id ->
    let bs := magic params ++ le_split 2 id ++ le_split 4 0 ++ le_split 4 checksum in
    (exists c fx, receive bs (StartInbound (new_inbound params nonce remote)).1 = (c, fx, []) /\
      said fx = [Deliver id []] /\ open_ c = true) /\
    (COMMAND_COUNT <= id \/ checksum <> 0 -> exists failure, FrameMessage bs (magic params) = Malformed failure)).
Proof.
  split.
  - intros k p Hk Hp. destruct (receive_all [(k, p)] (StartInbound (new_inbound params nonce remote)).1 Hm eq_refl eq_refl) as (c & fx & E & S & O & _ & Eh & _);
      [by repeat constructor; destruct Hk|]. unfold wire in E. cbn [map concat] in E. rewrite app_nil_r in E. exists c, fx. split_and!; try done. by rewrite Eh.
  - intros id checksum Hid Hck H1 bs. assert (length (magic params) = 4%nat) as Lm by (unfold zlen in Hm; lia).
    assert (le_combine (le_split 2 id) = id) as Ei by (apply le_combine_le_split; unfold u16 in Hid; lia).
    assert (le_combine (le_split 4 checksum) = checksum) as Ek by (apply le_combine_le_split; unfold u32 in Hck; lia). split.
    + set (c := (StartInbound _).1). assert (length bs = 14%nat) as Lb by (unfold bs; rewrite !length_app, !length_le_split; lia).
      assert (OnHeader None bs c = let '(c, fx) := HandleMessage id [] (set_read bs 0 NoRead c) in (ReadHeader c, Traffic 0 HEADER_SIZE :: fx)) as E.
      { unfold bs at 1. rewrite OnHeader_fields by (done || apply length_le_split). rewrite bool_decide_true by done. by rewrite Ei. }
      assert (exists c', HandleMessage id [] (set_read bs 0 NoRead c) = (c', [Deliver id []]) /\ open_ c' = true) as (c' & E' & O).
      { unfold HandleMessage. destruct (command_of id) as [k|] eqn:Ec; [|by eexists]. apply command_of_id in Ec. destruct k; cbn in Ec; try lia; by eexists. }
      rewrite E' in E. exists (ReadHeader c'), [Traffic 0 HEADER_SIZE; Deliver id []]. split_and!; [|done|done].
      unfold receive. rewrite Lb. cbn [receive_loop]. unfold receive_one. change (reading_ c) with AwaitHeader. change (open_ c) with true. cbn [negb orb].
      change (Z.to_nat HEADER_SIZE) with 14%nat. unfold zlen. rewrite Lb. change (Z.of_nat 14 <? HEADER_SIZE) with false. cbv iota. rewrite take_ge, drop_ge by lia. rewrite E. cbn. by rewrite O.
    + intros Hbad. unfold bs. rewrite <- (app_nil_r (le_split 4 checksum)), FrameMessage_fields by (done || apply length_le_split). unfold judge.
      rewrite bool_decide_true by done. rewrite Ei, Ek. cbn [negb]. unfold IsKnownCommand. destruct (Z.ltb_spec id COMMAND_COUNT); cbn [negb]; [|by eexists].
      change (le_combine (le_split 4 0)) with 0. change (MAX_MESSAGE_SIZE <? 0) with false. change (zlen [] <? 0) with false. cbv iota.
      change (ValidateChecksum (take (Z.to_nat 0) []) checksum) with (checksum =? 0). destruct (Z.eqb_spec checksum 0); cbn [negb]; [lia|by eexists].
Qed.

Lemma stranger_is_served_witness :
  exists c fx, receive (H := toy_Sha256Impl) (SerialiseMessage (H := toy_Sha256Impl) GetAddr [] (magic REGTEST_PARAMS))
    (StartInbound (new_inbound REGTEST_PARAMS 8 "b")).1 = (c, fx, []) /\ said fx = [Deliver 8 []] /\ open_ c = true /\
    State (handshake_ c) = AwaitingSendHello.
Proof.
  destruct (stranger_is_served (H := toy_Sha256Impl) REGTEST_PARAMS 8 "b" eq_refl) as [S _].
  apply (S GetAddr []); [split; discriminate|vm_compute; discriminate].
Defined.
End PeerConnection.
