(* ===== verification/PeerManager.v ===== *)
(** * The peer manager ([PeerManager] and [PeerManager::Impl], src/net/peer_manager.cpp)

    All connections of a node, the addresses and misbehaviour it remembers, and what each
    message makes it do to the chain state.  A handler runs in a small monad: it changes
    the manager, asks for things to be done (an output), and may be stuck, which stands
    for what the chain state's operations leave undefined.

    The connections are a list that is only ever appended to, so a position names one.
    The owner's hooks (the memory pool behind [accept_transaction], [get_transaction] and
    [chain_changed]) are a record of functions on a node of any type.  The clocks are
    arguments: [now] in seconds for consensus, [clock] for bans. *)

From Stdlib Require Import String Ascii.
From S2P Require Import Prelude Overflow Serialize Hex Crypto Primitives Target Work Asert Issuance Params Merkle Sighash Validation Genesis BlockIndex Coins Connect BlockStore ChainState Message Protocol Handshake Text AddressBook PeerConnection.
From stdpp Require Import gmap strings.
#[local] Open Scope Z_scope.

Module PeerManager.
Import Params Validation BlockIndex Connect BlockStore ChainState Message Protocol Handshake AddressBook PeerConnection.
Abbreviation encode := Serialize.encode.

(** ** Configuration and state *)

Record NetConfig := mkConfig {
  cfg_connect : list string;
  cfg_params : ChainParams;
  max_outbound : Z;
  max_inbound : Z;
  p2p_port : Z;
  reconnect_delay : Z;
  (** whether the path is set *)
  address_book : bool;
  ban_threshold : Z;
  ban_duration : Z }.

Record Hooks (M V D K : Type) := mkHooks {
  accept_transaction : option (ChainState V D K -> Transaction -> M -> bool * M);
  get_transaction : option (ChainState V D K -> M -> bytes -> option Transaction);
  chain_changed : option (ChainState V D K -> M -> M) }.
Arguments accept_transaction {M V D K} _.
Arguments get_transaction {M V D K} _.
Arguments chain_changed {M V D K} _.

(** Which set of callbacks a connection was started with. *)
Inductive Role := InboundPeer | OutboundPeer | ReconnectedPeer.

Record Impl (M V D K : Type) := mkImpl {
  state : ChainState V D K;
  node : M;
  connections : list (PeerConnection * Role);
  announced_blocks : gset bytes;
  announced_transactions : gset bytes;
  misbehavior : gmap string Z;
  bans : gmap string Z;
  book : list NetworkAddress;
  bytes_sent : Z;
  bytes_received : Z;
  started : bool;
  acceptor : bool;
  local_nonce : Z }.
Arguments mkImpl {M V D K} _ _ _ _ _ _ _ _ _ _ _ _ _.
Arguments state {M V D K} _.
Arguments node {M V D K} _.
Arguments connections {M V D K} _.
Arguments announced_blocks {M V D K} _.
Arguments announced_transactions {M V D K} _.
Arguments misbehavior {M V D K} _.
Arguments bans {M V D K} _.
Arguments book {M V D K} _.
Arguments bytes_sent {M V D K} _.
Arguments bytes_received {M V D K} _.
Arguments started {M V D K} _.
Arguments acceptor {M V D K} _.
Arguments local_nonce {M V D K} _.

(** What the manager asks of the outside: operations of connection [i], the file written,
    timers and the listener. *)
Inductive Output :=
  | Op (i : nat) (e : Effect)
  | WriteBook (text : string)
  | ArmReconnect (seconds : Z) (host : string) (port : Z)
  | ArmAccept
  | CloseAccepted.

Section manager.
Context `{Sha256Impl} `{Signature.SignatureBackends} {M V D K : Type}.
Context `{CoinsView V} `{BlockStore D} `{ChainSink K V} (config : NetConfig) (hooks : Hooks M V D K).
Abbreviation World := (Impl M V D K).

(** ** The monad *)

Definition Act (A : Type) : Type := World -> option (A * World * list Output).
#[global] Instance Act_ret : MRet Act := fun A a w => Some (a, w, []).
#[global] Instance Act_bind : MBind Act := fun A B k m w =>
  '(a, w, o) ← m w; '(b, w, o') ← k a w; Some (b, w, o ++ o').
Definition get : Act World := fun w => Some (w, w, []).
Definition modify (f : World -> World) : Act unit := fun w => Some (tt, f w, []).
Definition emit (o : Output) : Act unit := fun w => Some (tt, w, [o]).

Definition set_connections (l : list (PeerConnection * Role)) (w : World) : World :=
  mkImpl (state w) (node w) l (announced_blocks w) (announced_transactions w) (misbehavior w) (bans w) (book w)
    (bytes_sent w) (bytes_received w) (started w) (acceptor w) (local_nonce w).
Definition set_chain (s : ChainState V D K) (w : World) : World :=
  mkImpl s (node w) (connections w) (announced_blocks w) (announced_transactions w) (misbehavior w) (bans w) (book w)
    (bytes_sent w) (bytes_received w) (started w) (acceptor w) (local_nonce w).
Definition set_node (m : M) (w : World) : World :=
  mkImpl (state w) m (connections w) (announced_blocks w) (announced_transactions w) (misbehavior w) (bans w) (book w)
    (bytes_sent w) (bytes_received w) (started w) (acceptor w) (local_nonce w).
Definition set_announced (b t : gset bytes) (w : World) : World :=
  mkImpl (state w) (node w) (connections w) b t (misbehavior w) (bans w) (book w)
    (bytes_sent w) (bytes_received w) (started w) (acceptor w) (local_nonce w).
Definition set_scores (m b : gmap string Z) (w : World) : World :=
  mkImpl (state w) (node w) (connections w) (announced_blocks w) (announced_transactions w) m b (book w)
    (bytes_sent w) (bytes_received w) (started w) (acceptor w) (local_nonce w).
Definition set_book (l : list NetworkAddress) (w : World) : World :=
  mkImpl (state w) (node w) (connections w) (announced_blocks w) (announced_transactions w) (misbehavior w) (bans w) l
    (bytes_sent w) (bytes_received w) (started w) (acceptor w) (local_nonce w).
Definition set_traffic (s r : Z) (w : World) : World :=
  mkImpl (state w) (node w) (connections w) (announced_blocks w) (announced_transactions w) (misbehavior w) (bans w) (book w)
    s r (started w) (acceptor w) (local_nonce w).
Definition set_running (r a : bool) (w : World) : World :=
  mkImpl (state w) (node w) (connections w) (announced_blocks w) (announced_transactions w) (misbehavior w) (bans w) (book w)
    (bytes_sent w) (bytes_received w) r a (local_nonce w).

(** An operation of the chain state; what it leaves undefined is stuck. *)
Definition on_chain {A} (f : ChainState V D K -> option (A * ChainState V D K)) : Act A :=
  fun w => '(a, s) ← f (state w); Some (a, set_chain s w, []).
Definition demand {A} (x : option A) : Act A := fun w => a ← x; Some (a, w, []).

Definition new_Impl (s : ChainState V D K) (m : M) (nonce : Z) (file : string) : World :=
  mkImpl s m [] ∅ ∅ ∅ ∅ (if address_book config then LoadAddresses file else []) 0 0 false false nonce.

(** ** Connections *)

(** [f] on connection [i]; what it starts is put out as operations of that connection. *)
Definition on_conn (i : nat) (f : PeerConnection -> PeerConnection * list Effect) : Act unit :=
  fun w => match connections w !! i with
           | Some (c, r) => let '(c, fx) := f c in Some (tt, set_connections (<[i := (c, r)]> (connections w)) w, Op i <$> fx)
           | None => Some (tt, w, [])
           end.

Definition Impl_Send (i : nat) (command : Command) (payload : bytes) : Act unit := on_conn i (Send command payload).
Definition Impl_Close (i : nat) : Act unit := on_conn i (fun c => (Close c, [])).

Definition TrafficCallback (sent received : Z) : Act unit :=
  modify (fun w => set_traffic (wrapu 64 (bytes_sent w + sent)) (wrapu 64 (bytes_received w + received)) w).

Definition Impl_SaveAddresses : Act unit :=
  w ← get; if address_book config then emit (WriteBook (SaveAddresses (book w))) else mret tt.

(** ** Misbehaviour *)

Definition IsBanned (endpoint : string) (clock : Z) : Act bool :=
  w ← get;
  match bans w !! endpoint with
  | None => mret false
  | Some until =>
      if until <=? clock
      then modify (set_scores (delete endpoint (misbehavior w)) (delete endpoint (bans w))) ;; mret false
      else mret true
  end.

Definition Score (i : nat) (points clock : Z) : Act unit :=
  w ← get;
  match connections w !! i with
  | None => mret tt
  | Some (c, _) =>
      let endpoint := EndpointKey c in
      if bool_decide (endpoint = "")%string then mret tt
      else
        let score := default 0 (misbehavior w !! endpoint) + points in
        modify (set_scores (<[endpoint := score]> (misbehavior w)) (bans w)) ;;
        if ban_threshold config <=? score
        then w ← get; modify (set_scores (misbehavior w) (<[endpoint := clock + ban_duration config]> (bans w))) ;; Impl_Close i
        else mret tt
  end.

(** ** Synchronisation and announcements *)

Definition StartSync (i : nat) : Act unit :=
  w ← get;
  tip ← demand (Tip (state w));
  let genesis := genesis_ (index_ (state w)) in
  let locator := if bool_decide (tip = genesis) then [tip] else [tip; genesis] in
  Impl_Send i GetHeaders (encode GetHeadersPayload_Serialize (mkGetHeaders 1 locator (replicate 32 Byte.x00))).

(** [for (const auto& peer : connections) if (peer->IsConnected()) peer->Send(...)] *)
Fixpoint send_connected (n : nat) (command : Command) (payload : bytes) (i : nat) : Act unit :=
  match n with
  | O => mret tt
  | S n =>
      w ← get;
      match connections w !! i with
      | Some (c, _) => if IsConnected c then Impl_Send i command payload else mret tt
      | None => mret tt
      end ;; send_connected n command payload (S i)
  end.

Definition announce (item : Inventory) : Act unit :=
  w ← get; send_connected (length (connections w)) Inv (encode GetDataPayload_Serialize (mkGetData [item])) 0.

Definition Impl_AnnounceBlock (hash : bytes) : Act unit :=
  w ← get;
  if bool_decide (hash ∈ announced_blocks w) then mret tt
  else modify (set_announced ({[hash]} ∪ announced_blocks w) (announced_transactions w)) ;;
       announce (mkInventory InventoryType_Block hash).

Definition Impl_AnnounceTransaction (hash : bytes) : Act unit :=
  w ← get;
  if bool_decide (hash ∈ announced_transactions w) then mret tt
  else modify (set_announced (announced_blocks w) ({[hash]} ∪ announced_transactions w)) ;;
       announce (mkInventory InventoryType_Transaction hash).

(** ** Answering getheaders *)

(** The height above the one a hash is at, searched from the top. *)
Fixpoint find_height (chain : list bytes) (height : nat) (hash : bytes) : option Z :=
  match height with
  | O => None
  | S h => if bool_decide (AtHeight chain (Z.of_nat h) = Some hash) then Some (Z.of_nat height) else find_height chain h hash
  end.

Fixpoint find_locator (chain : list bytes) (locator : list bytes) : Z :=
  match locator with
  | [] => 0
  | hash :: locator =>
      match find_height chain (length chain) hash with
      | Some start_height => start_height
      | None => find_locator chain locator
      end
  end.

(** The headers from [height] up, at most [room] of them. *)
Fixpoint headers_from (room : nat) (s : ChainState V D K) (stop : bytes) (height : Z) : list BlockHeader :=
  match room with
  | O => []
  | S room =>
      if zlen (chain_ s) <=? height then []
      else match AtHeight (chain_ s) height ≫= Find (index_ s) with
           | None => []
           | Some entry =>
               ent_header entry ::
               (if bool_decide (ent_hash entry = stop) then [] else headers_from room s stop (height + 1))
           end
  end.

Definition on_getheaders (i : nat) (payload : bytes) : Act unit :=
  match Parse (GetHeadersPayload_Deserialize 101) payload with
  | None => Impl_Close i
  | Some request =>
      w ← get;
      let start_height := find_locator (chain_ (state w)) (locator request) in
      let response := headers_from (Z.to_nat HeadersPayload_MAX_COUNT) (state w) (stop_hash request) start_height in
      Impl_Send i Headers (encode HeadersPayload_Serialize (mkHeaders response))
  end.

(** ** The other messages *)

(** The loop over the headers; [None] in the result is the early return. *)
Fixpoint take_headers (hs : list BlockHeader) (now : Z) (items : list Inventory) : Act (option (list Inventory)) :=
  match hs with
  | [] => mret (Some items)
  | header :: hs =>
      accepted ← on_chain (AcceptHeader (cfg_params config) header now);
      match accepted with
      | Refused _ => mret None
      | Found h =>
          w ← get;
          take_headers hs now
            (if HaveBlock (store_ (state w)) h then items else items ++ [mkInventory InventoryType_Block h])
      end
  end.

Definition request_data (i : nat) (items : list Inventory) : Act unit :=
  match items with
  | [] => mret tt
  | _ => Impl_Send i GetData (encode GetDataPayload_Serialize (mkGetData items))
  end.

Definition on_headers (i : nat) (payload : bytes) (now : Z) : Act unit :=
  match Parse HeadersPayload_Deserialize payload with
  | None => Impl_Close i
  | Some hs =>
      items ← take_headers (headers hs) now [];
      match items with
      | None => Impl_Close i
      | Some items => request_data i items
      end
  end.

Fixpoint serve_items (i : nat) (wanted : list Inventory) : Act unit :=
  match wanted with
  | [] => mret tt
  | item :: wanted =>
      w ← get;
      (if inv_type item =? InventoryType_Block then
         match GetBlock (store_ (state w)) (inv_hash item) with
         | None => mret tt
         | Some block => Impl_Send i BlockCmd (encode BlockPayload_Serialize block)
         end
       else if inv_type item =? InventoryType_Transaction then
         match get_transaction hooks with
         | None => mret tt
         | Some find =>
             match find (state w) (node w) (inv_hash item) with
             | None => mret tt
             | Some tx => Impl_Send i Tx (encode TxPayload_Serialize tx)
             end
         end
       else mret tt) ;;
      serve_items i wanted
  end.

Definition on_getdata (i : nat) (payload : bytes) : Act unit :=
  match Parse (GetDataPayload_Deserialize 2000) payload with
  | None => Impl_Close i
  | Some request => serve_items i (items request)
  end.

(** Whether an announced item is to be asked for. *)
Definition unknown (w : World) (item : Inventory) : bool :=
  (inv_type item =? InventoryType_Block) && negb (HaveBlock (store_ (state w)) (inv_hash item)) ||
  (inv_type item =? InventoryType_Transaction) &&
    match get_transaction hooks with
    | Some find => negb (bool_decide (is_Some (find (state w) (node w) (inv_hash item))))
    | None => false
    end.

Definition on_inv (i : nat) (payload : bytes) : Act unit :=
  match Parse (GetDataPayload_Deserialize 2000) payload with
  | None => Impl_Close i
  | Some inventory => w ← get; request_data i (List.filter (unknown w) (items inventory))
  end.

Definition on_block (i : nat) (payload : bytes) (now : Z) : Act unit :=
  match Parse (BlockPayload_Deserialize (block_limits (cfg_params config))) payload with
  | None => Impl_Close i
  | Some block =>
      w ← get;
      let hash := Block_Hash block in
      let already_have := HaveBlock (store_ (state w)) hash in
      accepted ← on_chain (AcceptBlock (cfg_params config) block now);
      match accepted with
      | Refused _ => Impl_Close i
      | Found _ =>
          activated ← on_chain (ActivateBestChain (cfg_params config));
          match activated with
          | ChainState.Stop _ => Impl_Close i
          | Value _ =>
              modify (fun w => match chain_changed hooks with
                               | Some f => set_node (f (state w) (node w)) w
                               | None => w
                               end) ;;
              (if already_have then mret tt else Impl_AnnounceBlock hash) ;;
              StartSync i
          end
      end
  end.

Definition on_tx (i : nat) (payload : bytes) : Act unit :=
  match Parse (TxPayload_Deserialize (limits_tx (block_limits (cfg_params config)))) payload with
  | None => Impl_Close i
  | Some tx =>
      match accept_transaction hooks with
      | None => mret tt
      | Some accept =>
          w ← get;
          let '(ok, m) := accept (state w) tx (node w) in
          modify (set_node m) ;;
          if ok : bool then Impl_AnnounceTransaction (Wtxid tx) else mret tt
      end
  end.

Definition on_getaddr (i : nat) (payload : bytes) (clock : Z) : Act unit :=
  match Parse HelloAckPayload_Deserialize payload with
  | None => Score i 20 clock ;; Impl_Close i
  | Some _ => w ← get; Impl_Send i Addr (encode AddrPayload_Serialize (mkAddr (book w)))
  end.

Definition on_addr (i : nat) (payload : bytes) (clock : Z) : Act unit :=
  match Parse (AddrPayload_Deserialize 1000) payload with
  | None => Score i 20 clock ;; Impl_Close i
  | Some received =>
      modify (fun w => set_book (fold_left (fun b a => AddAddress a b) (addresses received) (book w)) w) ;;
      Impl_SaveAddresses
  end.

Definition on_ping (i : nat) (payload : bytes) : Act unit :=
  match Parse PingPayload_Deserialize payload with
  | None => Impl_Close i
  | Some ping => Impl_Send i Pong (encode PingPayload_Serialize ping)
  end.

Definition on_pong (i : nat) (payload : bytes) : Act unit :=
  match Parse PingPayload_Deserialize payload with
  | None => Impl_Close i
  | Some _ => mret tt
  end.

Definition Impl_HandleMessage (i : nat) (command : Z) (payload : bytes) (now clock : Z) : Act unit :=
  match command_of command with
  | Some GetHeaders => on_getheaders i payload
  | Some Headers => on_headers i payload now
  | Some GetData => on_getdata i payload
  | Some Inv => on_inv i payload
  | Some BlockCmd => on_block i payload now
  | Some Tx => on_tx i payload
  | Some GetAddr => on_getaddr i payload clock
  | Some Addr => on_addr i payload clock
  | Some Ping => on_ping i payload
  | Some Pong => on_pong i payload
  | _ => mret tt
  end.

(** ** The callbacks *)

(** What a connection's effect makes the manager do, by the role it was started in. *)
Definition callback (i : nat) (role : Role) (now clock : Z) (e : Effect) : Act unit :=
  match e with
  | Connected _ =>
      StartSync i ;;
      match role with ReconnectedPeer => mret tt | _ => Impl_Send i GetAddr [] end
  | Disconnected _ =>
      match role with
      | OutboundPeer =>
          w ← get;
          match connections w !! i with
          | Some (c, _) => emit (ArmReconnect (reconnect_delay config) (host_ c) (port_ c))
          | None => mret tt
          end
      | _ => mret tt
      end
  | Deliver command payload => Impl_HandleMessage i command payload now clock
  | Traffic sent received => TrafficCallback sent received
  | _ => emit (Op i e)
  end.

Fixpoint callbacks (i : nat) (role : Role) (now clock : Z) (fx : list Effect) : Act unit :=
  match fx with
  | [] => mret tt
  | e :: fx => callback i role now clock e ;; callbacks i role now clock fx
  end.

(** A completion on connection [i]. *)
Inductive Completion :=
  | Resolved (ec empty : bool) (message : string)
  | ConnectDone (ec : option string)
  | HelloWritten (ec : option string) (count : Z)
  | ReplyWritten (ec : option string) (count response : Z)
  | QueuedWritten (ec : option string) (message_bytes : Z)
  | HeaderRead (ec : option string) (header : bytes)
  | BodyRead (ec : option string) (body : bytes)
  | PingTimer (ec : option string)
  | PongTimer (ec : option string).

Definition complete (e : Completion) (c : PeerConnection) : PeerConnection * list Effect :=
  match e with
  | Resolved ec empty message => OnResolve ec empty message c
  | ConnectDone ec => OnConnect ec c
  | HelloWritten ec count => OnHelloWritten ec count c
  | ReplyWritten ec count response => (c, OnReplyWritten ec count response)
  | QueuedWritten ec n => OnQueuedWritten ec n c
  | HeaderRead ec header => OnHeader ec header c
  | BodyRead ec body => OnBody ec body c
  | PingTimer ec => OnPingTimer ec c
  | PongTimer ec => OnPongTimer ec c
  end.

Definition on_completion (i : nat) (e : Completion) (now clock : Z) : Act unit :=
  fun w => match connections w !! i with
           | Some (c, role) =>
               let '(c, fx) := complete e c in
               callbacks i role now clock fx (set_connections (<[i := (c, role)]> (connections w)) w)
           | None => Some (tt, w, [])
           end.

(** A connection begun: added, and the operations it starts put out. *)
Definition begin (c : PeerConnection) (role : Role) (f : PeerConnection -> PeerConnection * list Effect) : Act unit :=
  fun w => let '(c, fx) := f c in
           Some (tt, set_connections (connections w ++ [(c, role)]) w, Op (length (connections w)) <$> fx).

(** The handler of [async_accept]: [remote] is the endpoint's text, when it has one. *)
Definition OnAccept (ec : bool) (remote : option string) (clock : Z) : Act unit :=
  w ← get;
  (if ec then mret tt
   else if max_inbound config + max_outbound config <=? zlen (connections w) then emit CloseAccepted
   else
     banned ← match remote with Some endpoint => IsBanned endpoint clock | None => mret false end;
     if banned : bool then emit CloseAccepted
     else begin (new_inbound (cfg_params config) (local_nonce w) (default "" remote)) InboundPeer StartInbound) ;;
  w ← get; if acceptor w then emit ArmAccept else mret tt.

Definition OnReconnect (ec : bool) (host : string) (port : Z) : Act unit :=
  if ec then mret tt
  else w ← get; begin (new_outbound (cfg_params config) (local_nonce w) host port "") ReconnectedPeer PeerConnection.Start.

(** The host and port of a configured peer; [None] is what [std::stoul] throws. *)
Definition parse_peer (peer : string) : option (string * Z) :=
  let '(host, rest) := Text.span (fun c => negb (bool_decide (c = ":"%char))) peer in
  match rest with
  | EmptyString => Some (peer, default_p2p_port (cfg_params config))
  | String _ port => n ← Text.stoul port; Some (host, wrapu 16 n)
  end.

Fixpoint dial (n : nat) (peers : list string) : Act unit :=
  match peers, n with
  | peer :: peers, S n =>
      w ← get;
      '(host, port) ← demand (parse_peer peer);
      begin (new_outbound (cfg_params config) (local_nonce w) host port "") OutboundPeer PeerConnection.Start ;; dial n peers
  | _, _ => mret tt
  end.

(** [listen_ec] says whether the listening socket could be set up. *)
Definition Start (listen_ec : bool) : Act unit :=
  w ← get;
  if started w then mret tt
  else
    let listening := negb (p2p_port config =? 0) && negb listen_ec in
    modify (set_running true listening) ;;
    (if listening then emit ArmAccept else mret tt) ;;
    dial (Z.to_nat (max_outbound config)) (cfg_connect config).

Definition Stop : Act unit :=
  w ← get; if started w then modify (fun w => set_connections [] (set_running false false w)) else mret tt.

Definition HasActivePeer (w : World) : bool := existsb (fun '(c, _) => IsConnected c) (connections w).
Definition PeerCount (w : World) : Z := zlen (connections w).
Definition BestPeerHeight (w : World) : Z :=
  fold_left (fun best '(c, _) => if IsConnected c then Z.max best (peer_best_height (conn_Hello c)) else best) (connections w) 0.
Definition AnnounceBlock (hash : bytes) : Act unit := w ← get; if started w then Impl_AnnounceBlock hash else mret tt.
Definition AnnounceTransaction (hash : bytes) : Act unit := w ← get; if started w then Impl_AnnounceTransaction hash else mret tt.

(** ** Everything that happens to a manager *)

Inductive NetEvent :=
  | EvStart (listen_ec : bool)
  | EvAccept (ec : bool) (remote : option string)
  | EvReconnect (ec : bool) (host : string) (port : Z)
  | EvCompletion (i : nat) (e : Completion)
  | EvAnnounceBlock (hash : bytes)
  | EvAnnounceTransaction (hash : bytes)
  | EvStop.

Definition net_step (now clock : Z) (e : NetEvent) : Act unit :=
  match e with
  | EvStart listen_ec => Start listen_ec
  | EvAccept ec remote => OnAccept ec remote clock
  | EvReconnect ec host port => OnReconnect ec host port
  | EvCompletion i e => on_completion i e now clock
  | EvAnnounceBlock hash => AnnounceBlock hash
  | EvAnnounceTransaction hash => AnnounceTransaction hash
  | EvStop => Stop
  end.
End manager.

(** ** Reasoning about handlers *)

Section handlers.
Context `{SH : Sha256Impl} `{SB : Signature.SignatureBackends} {M V D K : Type}.
Context `{CV : CoinsView V} `{BS : BlockStore D} `{CS : ChainSink K V} (config : NetConfig) (hooks : Hooks M V D K).
Abbreviation World := (Impl M V D K).
Implicit Types (w : World).

Lemma bind_step {A B} (m : Act A) (k : A -> Act B) w : (m ≫= k) w =
  match m w with
  | None => None
  | Some (a, w1, o1) => match k a w1 with None => None | Some (b, w2, o2) => Some (b, w2, o1 ++ o2) end
  end.
Proof.
  unfold mbind, Act_bind. destruct (m w) as [[[a w1] o1]|]; [|done]. cbn [mbind option_bind]. by destruct (k a w1) as [[[b w2] o2]|].
Qed.

(** From [w] the handler is not stuck, and what it returns satisfies [Q]. *)
Definition total {A} (m : Act A) w (Q : A -> World -> Prop) : Prop := exists a w' o, m w = Some (a, w', o) /\ Q a w'.

Lemma total_ret {A} (a : A) w (Q : A -> World -> Prop) : Q a w -> total (mret a) w Q.
Proof. intros HQ. by exists a, w, []. Qed.

Lemma total_bind {A B} (m : Act A) (k : A -> Act B) w (P : A -> World -> Prop) (Q : B -> World -> Prop) :
  total m w P -> (forall a w', P a w' -> total (k a) w' Q) -> total (m ≫= k) w Q.
Proof.
  intros (a & w1 & o1 & E1 & HP) Hk. destruct (Hk a w1 HP) as (b & w2 & o2 & E2 & HQ). exists b, w2, (o1 ++ o2).
  unfold mbind, Act_bind. rewrite E1. cbn [mbind option_bind]. by rewrite E2.
Qed.

Lemma total_weaken {A} (m : Act A) w (P Q : A -> World -> Prop) : total m w P -> (forall a w', P a w' -> Q a w') -> total m w Q.
Proof. intros (a & w1 & o1 & E & HP) H. exists a, w1, o1. eauto. Qed.

Lemma total_get_bind {A} (k : World -> Act A) w (Q : A -> World -> Prop) : total (k w) w Q -> total (get ≫= k) w Q.
Proof.
  intros HQ. apply (total_bind _ _ _ (fun a w' => a = w /\ w' = w)); [by exists w, w, []|]. by intros a w' [-> ->].
Qed.

(** A handler that cannot be stuck where the chain has a tip, and leaves the chain
    alone and every connection in its place and role. *)
Definition quiet {A} (m : Act A) : Prop :=
  forall w, is_Some (Tip (state w)) -> total m w (fun _ w' => state w' = state w /\ map snd (connections w') = map snd (connections w)).

Lemma quiet_ret {A} (a : A) : quiet (mret a).
Proof. intros w _. by apply total_ret. Qed.

Lemma quiet_bind {A B} (m : Act A) (k : A -> Act B) : quiet m -> (forall a, quiet (k a)) -> quiet (m ≫= k).
Proof.
  intros Hm Hk w Ht. eapply total_bind; [by apply Hm|]. intros a w1 [E1 E2]. cbn. eapply total_weaken; [apply Hk; by rewrite E1|].
  intros b w2 [-> ->]. done.
Qed.

Lemma quiet_get : quiet get.
Proof. intros w _. by exists w, w, []. Qed.

Lemma quiet_modify (f : World -> World) : (forall w, state (f w) = state w /\ connections (f w) = connections w) -> quiet (modify f).
Proof. intros Hf w _. exists tt, (f w), []. destruct (Hf w) as [-> ->]. done. Qed.

Lemma quiet_emit o : quiet (emit o).
Proof. intros w _. by exists tt, w, [o]. Qed.

Lemma roles_insert (l : list (PeerConnection * Role)) i c c' r : l !! i = Some (c, r) -> map snd (<[i := (c', r)]> l) = map snd l.
Proof.
  intros E. change (map snd (<[i := (c', r)]> l)) with (snd <$> <[i := (c', r)]> l). rewrite list_fmap_insert. cbn.
  apply list_insert_id. change (map snd l) with (snd <$> l). by rewrite list_lookup_fmap, E.
Qed.

Lemma quiet_on_conn i f : quiet (on_conn i f).
Proof.
  intros w _. unfold on_conn, total. destruct (connections w !! i) as [[c r]|] eqn:E; [|by exists tt, w, []].
  destruct (f c) as [c' fx]. eexists tt, _, _. split; [done|]. split; [done|]. cbn. by apply (roles_insert _ _ c).
Qed.
End handlers.

#[export] Hint Resolve quiet_ret quiet_bind quiet_get quiet_emit quiet_on_conn : quiet.

(** Decides a handler built from the quiet parts. *)
Ltac quiet_step :=
  first [ apply quiet_ret | apply quiet_get | apply quiet_emit | apply quiet_on_conn
        | (apply quiet_bind; [|intros ?]) | (apply quiet_modify; by intros ?)
        | match goal with |- quiet (if ?b then _ else _) => destruct b end
        | match goal with |- quiet (match ?x with _ => _ end) => destruct x end
        | match goal with |- quiet (let '(_, _) := ?x in _) => destruct x end ].
Ltac solve_quiet := repeat quiet_step.

Lemma FrameMessage_bound `{SH : Sha256Impl} buffer m k p n : FrameMessage buffer m = Message.Complete k p n -> zlen p <= MAX_MESSAGE_SIZE.
Proof.
  destruct (Z.lt_ge_cases (zlen buffer) HEADER_SIZE) as [Hs|Hs]; [by rewrite short_needs_more|].
  destruct (header_split buffer Hs) as (mm & c & l & s & body & -> & H1 & H2 & H3 & H4). rewrite FrameMessage_fields by done. unfold judge.
  destruct (negb _); [done|]. destruct (negb (IsKnownCommand _)); [done|]. destruct (Z.ltb_spec MAX_MESSAGE_SIZE (le_combine l)); [done|].
  destruct (zlen body <? _); [done|]. destruct (negb _); [done|]. destruct (command_of _); [|done]. intros [= _ <- _].
  pose proof (le_combine_range l). unfold zlen. rewrite length_take. lia.
Qed.

Section quiet_parts.
Context `{SH : Sha256Impl} `{SB : Signature.SignatureBackends} {M V D K : Type}.
Context `{CV : CoinsView V} `{BS : BlockStore D} `{CS : ChainSink K V} (config : NetConfig) (hooks : Hooks M V D K).
Abbreviation World := (Impl M V D K).
Abbreviation quiet := (quiet (M := M) (V := V) (D := D) (K := K)).
Implicit Types (w : World).

Lemma quiet_demand_tip {A} (k : World -> bytes -> Act A) :
  (forall w t, quiet (k w t)) -> quiet (w ← get; t ← demand (Tip (state w)); k w t).
Proof.
  intros Hk w [t Ht]. apply total_get_bind. eapply (total_bind _ _ _ (fun a w' => a = t /\ w' = w)).
  { unfold demand, total. rewrite Ht. by exists t, w, []. }
  intros a w' [-> ->]. apply Hk. eauto.
Qed.

Lemma quiet_Send i k p : quiet (Impl_Send i k p).
Proof. apply quiet_on_conn. Qed.
Lemma quiet_Close i : quiet (Impl_Close i).
Proof. apply quiet_on_conn. Qed.
Lemma quiet_Traffic s r : quiet (TrafficCallback s r).
Proof. by apply quiet_modify. Qed.
Lemma quiet_Save : quiet (Impl_SaveAddresses config).
Proof. unfold Impl_SaveAddresses. solve_quiet. Qed.
Lemma quiet_IsBanned endpoint clock : quiet (IsBanned endpoint clock).
Proof. unfold IsBanned. solve_quiet. Qed.
Lemma quiet_Score i points clock : quiet (Score config i points clock).
Proof. unfold Score. solve_quiet. Qed.
Lemma quiet_StartSync i : quiet (StartSync i).
Proof. apply quiet_demand_tip. intros. apply quiet_Send. Qed.
Lemma quiet_send_connected n k p : forall i, quiet (send_connected n k p i).
Proof. induction n as [|n IH]; intros i; cbn [send_connected]; [apply quiet_ret|]. repeat first [apply IH|apply quiet_Send|quiet_step]. Qed.
Lemma quiet_announce item : quiet (announce item).
Proof. unfold announce. apply quiet_bind; [apply quiet_get|]. intros. apply quiet_send_connected. Qed.
Lemma quiet_AnnounceBlock h : quiet (Impl_AnnounceBlock h).
Proof. unfold Impl_AnnounceBlock. repeat first [apply quiet_announce|quiet_step]. Qed.
Lemma quiet_AnnounceTransaction h : quiet (Impl_AnnounceTransaction h).
Proof. unfold Impl_AnnounceTransaction. repeat first [apply quiet_announce|quiet_step]. Qed.
Lemma quiet_request i l : quiet (request_data i l).
Proof. unfold request_data. repeat first [apply quiet_Send|quiet_step]. Qed.
Lemma quiet_serve i l : quiet (serve_items hooks i l).
Proof. induction l as [|x l IH]; cbn [serve_items]; [apply quiet_ret|]. repeat first [apply IH|apply quiet_Send|quiet_step]. Qed.

(** Every message but headers and blocks. *)
Lemma quiet_message i command payload now clock :
  command_of command <> Some Headers -> command_of command <> Some BlockCmd -> quiet (Impl_HandleMessage config hooks i command payload now clock).
Proof.
  intros H1 H2. unfold Impl_HandleMessage. destruct (command_of command) as [[]|]; try done; try apply quiet_ret.
  - unfold on_getheaders. repeat first [apply quiet_Send|apply quiet_Close|quiet_step].
  - unfold on_inv. repeat first [apply quiet_request|apply quiet_Close|quiet_step].
  - unfold on_getdata. repeat first [apply quiet_serve|apply quiet_Close|quiet_step].
  - unfold on_tx. repeat first [apply quiet_AnnounceTransaction|apply quiet_Close|quiet_step].
  - unfold on_getaddr. repeat first [apply quiet_Send|apply quiet_Close|apply quiet_Score|quiet_step].
  - unfold on_addr. repeat first [apply quiet_Save|apply quiet_Close|apply quiet_Score|quiet_step].
  - unfold on_ping. repeat first [apply quiet_Send|apply quiet_Close|quiet_step].
  - unfold on_pong. repeat first [apply quiet_Close|quiet_step].
Qed.

Definition is_deliver (e : Effect) : bool := match e with Deliver _ _ => true | _ => false end.

Lemma quiet_callback i role now clock e : is_deliver e = false -> quiet (callback config hooks i role now clock e).
Proof.
  intros He. destruct e; try done; cbn [callback]; try apply quiet_emit; [|apply quiet_bind; [apply quiet_StartSync|intros _]|apply quiet_Traffic].
  - solve_quiet.
  - destruct role; [apply quiet_Send|apply quiet_Send|apply quiet_ret].
Qed.

Lemma quiet_callbacks i role now clock fx : Forall (fun e => is_deliver e = false) fx -> quiet (callbacks config hooks i role now clock fx).
Proof. induction 1 as [|e fx He _ IH]; [apply quiet_ret|]. apply quiet_bind; [by apply quiet_callback|done]. Qed.

(** A completion delivers at most one message, last. *)
Lemma complete_shape e c : exists pre, Forall (fun e => is_deliver e = false) pre /\
  ((complete e c).2 = pre \/ exists k p, zlen p <= MAX_MESSAGE_SIZE /\ (complete e c).2 = pre ++ [Deliver k p]).
Proof.
  assert (forall k p c, exists pre, Forall (fun e => is_deliver e = false) pre /\
    ((HandleMessage k p c).2 = pre \/ (HandleMessage k p c).2 = pre ++ [Deliver k p])) as HM.
  { intros k p d. unfold HandleMessage. destruct (command_of k) as [[]|]; try (exists []; split; [constructor|by right]).
    - exists (answer_hello p d).2. split; [|by left]. unfold answer_hello. destruct (HelloPayload_Deserialize _ _) as [[hello|] ?]; [|by repeat constructor].
      destruct (ReceiveHello hello (handshake_ d)) as [[ack|] h]; by repeat constructor.
    - exists (take_ack d).2. split; [|by left]. unfold take_ack. destruct (OnReceiveHelloAck (handshake_ d)) as [[] h]; [|by repeat constructor].
      destruct (Peer h); by repeat constructor. }
  assert (forall fx, Forall (fun e => is_deliver e = false) fx -> exists pre, Forall (fun e => is_deliver e = false) pre /\
    (fx = pre \/ exists k p, zlen p <= MAX_MESSAGE_SIZE /\ fx = pre ++ [Deliver k p])) as Hno by (intros fx F; exists fx; eauto).
  assert (forall k p d, Forall (fun e => is_deliver e = false) (Send k p d).2) as HS.
  { intros k p d. unfold Send, WriteNext. destruct (writing_ _); [constructor|]. destruct (write_queue_ _); by repeat constructor. }
  destruct e as [ec empty m|ec|ec n|ec n r|ec n|ec h|ec b|ec|ec]; cbn [complete].
  - apply Hno. unfold OnResolve. destruct (ec || empty); by repeat constructor.
  - apply Hno. unfold OnConnect, SendHello. destruct ec; by repeat constructor.
  - apply Hno. unfold OnHelloWritten. destruct ec; by repeat constructor.
  - apply Hno. unfold OnReplyWritten. destruct ec; by repeat constructor.
  - apply Hno. unfold OnQueuedWritten, WriteNext. destruct ec; [by repeat constructor|]. repeat case_match; simplify_eq; by repeat constructor.
  - unfold OnHeader. destruct ec; [apply Hno; by repeat constructor|]. destruct (ReadBytes _ _) as [mm r]. destruct (negb _); [apply Hno; by repeat constructor|].
    destruct (ReadU16 r) as [cmd r2]. destruct (ReadU32 r2) as [len r3]. destruct (_ <? _); [apply Hno; by repeat constructor|].
    destruct (_ =? _); [|apply Hno; by repeat constructor].
    destruct (HM (default 0 cmd) [] (set_read h 0 NoRead (set_read h (body_len_ c) NoRead c))) as (pre & F & S). destruct (HandleMessage _ _ _) as [d fx].
    cbn [snd] in *. exists (Traffic 0 HEADER_SIZE :: pre). split; [by constructor|]. destruct S as [-> | ->]; [by left|]. right. eexists _, _. split; [|reflexivity]. vm_compute. discriminate.
  - unfold OnBody. destruct ec; [apply Hno; by repeat constructor|]. destruct (FrameMessage _ _) as [k p n| |] eqn:EF; [|apply Hno; by repeat constructor..].
    apply FrameMessage_bound in EF.
    destruct (HM (command_id k) p (set_read (header_buf_ c) (body_len_ c) NoRead c)) as (pre & F & S). destruct (HandleMessage _ _ _) as [d fx].
    cbn [snd] in *. exists (Traffic 0 (zlen b) :: pre). split; [by constructor|]. destruct S as [-> | ->]; [by left|]. right. eexists _, _. split; [exact EF|reflexivity].
  - apply Hno. unfold OnPingTimer. destruct (_ || _); [constructor|]. destruct (ping_outstanding_ c); [by repeat constructor|].
    pose proof (HS Ping (encode PingPayload_Serialize (mkPing 0xA6A6A6A6)) (set_ping true c)) as F. destruct (Send _ _ _). apply Forall_app. split; [done|by repeat constructor].
  - apply Hno. unfold OnPongTimer, StartKeepalive. destruct (_ || _); [constructor|]. destruct (ping_outstanding_ c); by repeat constructor.
Qed.
End quiet_parts.

(** ** The chain under the network *)

Lemma AddHeader_Size `{SH : Sha256Impl} header now params idx : index_inv idx -> Size (AddHeader header now params idx).2 <= Size idx + 1.
Proof.
  intros I. destruct (Find idx (BlockHeader_Hash header)) as [e|] eqn:Hn; [unfold AddHeader; rewrite Hn; cbn; lia|].
  destruct (AddHeader_new header now params idx I Hn) as [[error ->]|(pe & best & _ & _ & _ & _ & _ & _ & -> & _)]; cbn [snd]; [lia|].
  unfold Size. cbn. rewrite map_size_insert_None by exact Hn. lia.
Qed.

Section chain.
Context `{SH : Sha256Impl} `{SB : Signature.SignatureBackends} {M V D K : Type}.
Context `{CV : CoinsView V} `{!LawfulView V} `{BS : BlockStore D} `{!LawfulStore D} `{CS : ChainSink K V} `{!LawfulSink K V}.
Context (config : NetConfig) (hooks : Hooks M V D K) (f0 : Ledger).
Abbreviation World := (Impl M V D K).
Abbreviation chain_runs := (runs (cfg_params config) f0).
Implicit Types (w : World).

(** The chain stands, or the sink has just refused a tip. *)
Definition chain_holds w : Prop :=
  chain_runs (state w) \/
  exists s f, chain_runs s /\ ActivateBestChain (cfg_params config) s = Some (ChainState.Stop f, state w) /\ fail_error f = CommitFailed.

Lemma runs_tip s : chain_runs s -> is_Some (Tip s).
Proof. intros R%runs_in_step. destruct (in_step_tip _ _ _ R) as (t & _ & _ & -> & _). eauto. Qed.

Lemma AcceptHeader_Size header now s r s' : in_step (cfg_params config) f0 s -> AcceptHeader (cfg_params config) header now s = Some (r, s') ->
  Size (index_ s') <= Size (index_ s) + 1.
Proof.
  intros I. pose proof (AddHeader_Size header now (cfg_params config) (index_ s) (is_index _ _ _ I)) as HS. unfold AcceptHeader.
  destruct (AddHeader _ _ _ _) as [r1 idx] eqn:A. cbn [snd] in HS. destruct r1 as [h|error]; [|by intros [= <- <-]].
  cbn [index_ with_index]. destruct (Find idx h) as [e|] eqn:E; [|done]. cbn [mbind option_bind]. destruct (negb _); [by intros [= <- <-]|].
  destruct (commit_entry_spec h (with_index idx s) e E) as (s2 & -> & Ei & _). cbn [mbind option_bind]. intros [= <- <-]. rewrite Ei. done.
Qed.

Lemma take_headers_total hs now : forall items w, chain_runs (state w) -> Forall (fun h => u32 (hdr_target_bits h)) hs ->
  Size (index_ (state w)) + zlen hs < 2 ^ 64 - 1 -> total (take_headers config hs now items) w (fun _ w' => chain_runs (state w')).
Proof.
  induction hs as [|header hs IH]; intros items w R F Hs; cbn [take_headers]; [by apply total_ret|].
  apply Forall_cons_1 in F as [Hb F]. rewrite zlen_cons in Hs. pose proof (zlen_nonneg hs). pose proof (runs_in_step _ _ _ R) as I.
  destruct (AcceptHeader_spec (cfg_params config) f0 header now (state w) I Hb ltac:(lia)) as (r & s' & E & _).
  pose proof (AcceptHeader_Size _ _ _ _ _ I E) as HS. pose proof (run_header _ _ header now (state w) r s' R Hb ltac:(lia) E) as R'.
  apply (total_bind _ _ _ (fun a w' => a = r /\ w' = set_chain s' w)).
  { unfold on_chain, total. rewrite E. by exists r, (set_chain s' w), []. }
  intros a w' [-> ->]. destruct r as [h|error]; [|by apply total_ret]. apply total_get_bind. apply IH; [done|done|cbn; lia].
Qed.

Lemma quiet_keeps {A} (m : Act A) w : quiet m -> chain_runs (state w) -> total m w (fun _ w' => chain_holds w').
Proof. intros Q R. eapply total_weaken; [apply Q, runs_tip, R|]. intros a w' [E _]. left. by rewrite E. Qed.

Lemma on_headers_total i payload now w : chain_runs (state w) -> zlen payload <= MAX_MESSAGE_SIZE ->
  Size (index_ (state w)) < 2 ^ 64 - 2001 -> total (on_headers config i payload now) w (fun _ w' => chain_holds w').
Proof.
  intros R Hp Hs. unfold on_headers. destruct (Parse HeadersPayload_Deserialize payload) as [hs|] eqn:E; [|by apply quiet_keeps; [apply quiet_Close|]].
  apply (codec_parse _ _ _ codec_Headers) in E as ((F & L) & _); [|rewrite MAX_MESSAGE_SIZE_eq in Hp; lia].
  eapply total_bind; [apply take_headers_total; [done| |unfold HeadersPayload_MAX_COUNT in L; lia]|].
  - revert F. apply List.Forall_impl. by intros h (_ & _ & _ & _ & _ & ? & _).
  - intros [items|] w' R'; [apply quiet_keeps; [apply quiet_request|done]|apply quiet_keeps; [apply quiet_Close|done]].
Qed.

Lemma on_block_total i payload now w : chain_runs (state w) -> zlen payload <= MAX_MESSAGE_SIZE -> BlockLimits_ok (block_limits (cfg_params config)) ->
  Size (index_ (state w)) < 2 ^ 64 - 2001 -> total (on_block config hooks i payload now) w (fun _ w' => chain_holds w').
Proof.
  intros R Hp Hl Hs. unfold on_block. destruct (Parse (BlockPayload_Deserialize _) payload) as [block|] eqn:E; [|by apply quiet_keeps; [apply quiet_Close|]].
  apply (codec_parse _ _ _ (codec_Block _ Hl)) in E as ((Hh & _) & _); [|rewrite MAX_MESSAGE_SIZE_eq in Hp; lia].
  assert (u32 (hdr_target_bits (blk_header block))) as Hb by apply Hh. apply total_get_bind. pose proof (runs_in_step _ _ _ R) as I.
  destruct (AcceptBlock_spec (cfg_params config) f0 block now (state w) I Hb ltac:(lia)) as (r & s1 & E1 & _).
  pose proof (run_block _ _ block now (state w) r s1 R Hb ltac:(lia) E1) as R1.
  apply (total_bind _ _ _ (fun a w' => a = r /\ w' = set_chain s1 w)).
  { unfold on_chain, total. rewrite E1. by exists r, (set_chain s1 w), []. }
  intros a w' [-> ->]. destruct r as [h|error]; [|by apply quiet_keeps; [apply quiet_Close|]].
  destruct (ActivateBestChain_spec (cfg_params config) f0 s1 (runs_in_step _ _ _ R1)) as (m0 & r & s2 & _ & E2 & _ & O).
  apply (total_bind _ _ _ (fun a w' => a = r /\ w' = set_chain s2 (set_chain s1 w))).
  { unfold on_chain, total. cbn [state set_chain]. rewrite E2. by exists r, (set_chain s2 (set_chain s1 w)), []. }
  intros a w' [-> ->]. destruct r as [m|f].
  - pose proof (run_activate _ _ s1 m s2 R1 E2) as R2. apply quiet_keeps; [|done].
    apply quiet_bind; [apply quiet_modify; intros; by destruct (chain_changed hooks)|intros _].
    apply quiet_bind; [destruct (HaveBlock _ _); [apply quiet_ret|apply quiet_AnnounceBlock]|intros _]. apply quiet_StartSync.
  - assert (chain_holds (set_chain s2 (set_chain s1 w))) as HC.
    { destruct O as [_ [Hf|[Hf _]]]; [right; by exists s1, f|]. left. apply (run_faulted _ _ s1 f s2 R1 E2). congruence. }
    unfold Impl_Close, on_conn, total. cbn [connections set_chain]. destruct (connections w !! i) as [[c role]|]; eexists tt, _, _; (split; [done|]); exact HC.
Qed.

Lemma message_total i command payload now clock w : chain_runs (state w) -> zlen payload <= MAX_MESSAGE_SIZE -> BlockLimits_ok (block_limits (cfg_params config)) ->
  Size (index_ (state w)) < 2 ^ 64 - 2001 -> total (Impl_HandleMessage config hooks i command payload now clock) w (fun _ w' => chain_holds w').
Proof.
  intros R Hp Hl Hs. destruct (decide (command_of command = Some Headers)) as [E|H1]; [unfold Impl_HandleMessage; rewrite E; by apply on_headers_total|].
  destruct (decide (command_of command = Some BlockCmd)) as [E|H2]; [unfold Impl_HandleMessage; rewrite E; by apply on_block_total|].
  apply quiet_keeps; [by apply quiet_message|done].
Qed.
Lemma begin_total c role f w : total (begin c role f) w (fun _ w' => state w' = state w /\
  map snd (connections w') = map snd (connections w) ++ [role]).
Proof. unfold begin, total. destruct (f c) as [c' fx]. eexists tt, _, _. split; [done|]. cbn. by rewrite map_app. Qed.

Lemma dial_total n : forall peers w, Forall (fun p => is_Some (parse_peer config p)) peers ->
  total (dial config n peers) w (fun _ w' => state w' = state w).
Proof.
  induction n as [|n IH]; intros [|peer peers] w F; cbn [dial]; try by apply total_ret.
  apply Forall_cons_1 in F as [[[host port] E] F]. apply total_get_bind.
  apply (total_bind _ _ _ (fun a w' => a = (host, port) /\ w' = w)); [unfold demand, total; rewrite E; by exists (host, port), w, []|].
  intros a w' [-> ->]. eapply total_bind; [apply begin_total|]. intros _ w1 [E1 _]. rewrite <- E1. by apply IH.
Qed.

Lemma completion_total i e now clock w : chain_runs (state w) -> BlockLimits_ok (block_limits (cfg_params config)) ->
  Size (index_ (state w)) < 2 ^ 64 - 2001 -> total (on_completion config hooks i e now clock) w (fun _ w' => chain_holds w').
Proof.
  intros R Hl Hs. unfold on_completion, total. destruct (connections w !! i) as [[c role]|]; [|by exists tt, w, []; split; [|left]].
  destruct (complete_shape e c) as (pre & F & S). destruct (complete e c) as [c' fx]. cbn [snd] in S. set (w1 := set_connections _ w).
  change (total (callbacks config hooks i role now clock fx) w1 (fun _ w' => chain_holds w')).
  destruct S as [-> | (k & p & Hp & ->)]; [by apply quiet_keeps; [apply quiet_callbacks|]|].
  assert (forall fx' w, callbacks config hooks i role now clock (pre ++ fx') w =
    (callbacks config hooks i role now clock pre ;; callbacks config hooks i role now clock fx') w) as Happ.
  { clear. induction pre as [|e pre IH]; intros fx' w.
    - cbn [app callbacks]. rewrite bind_step. cbn. by destruct (callbacks _ _ _ _ _ _ fx' w) as [[[[] ?] ?]|].
    - cbn [callbacks app]. rewrite !bind_step. destruct (callback _ _ _ _ _ _ e w) as [[[[] w1] o1]|]; [|done].
      rewrite IH, bind_step. destruct (callbacks _ _ _ _ _ _ pre w1) as [[[[] w2] o2]|]; [|done].
      destruct (callbacks _ _ _ _ _ _ fx' w2) as [[[[] w3] o3]|]; [|done]. by rewrite app_assoc. }
  unfold total. rewrite Happ. change (total (callbacks config hooks i role now clock pre ;; callbacks config hooks i role now clock [Deliver k p]) w1 (fun _ w' => chain_holds w')).
  eapply total_bind; [apply (quiet_callbacks config hooks i role now clock pre F); apply runs_tip, R|]. intros ? w2 [E _].
  cbn [callbacks callback]. eapply total_bind; [apply message_total; rewrite ?E; done|]. intros ? w3 HC. by apply total_ret.
Qed.

Lemma net_step_total now clock e w : chain_runs (state w) -> BlockLimits_ok (block_limits (cfg_params config)) ->
  Forall (fun p => is_Some (parse_peer config p)) (cfg_connect config) -> Size (index_ (state w)) < 2 ^ 64 - 2001 ->
  total (net_step config hooks now clock e) w (fun _ w' => chain_holds w').
Proof.
  intros R Hl Hp Hs. destruct e as [lec|ec remote|ec host port|i e|h|h|]; cbn [net_step].
  - unfold Start. apply total_get_bind. destruct (started w); [by apply total_ret; left|].
    eapply (total_bind _ _ _ (fun _ w' => state w' = state w)); [by exists tt, (set_running true (negb (p2p_port config =? 0) && negb lec) w), []|].
    intros ? w1 E1. eapply (total_bind _ _ _ (fun _ w' => state w' = state w)); [destruct (_ && _); [by eexists tt, w1, _|by apply total_ret]|].
    intros ? w2 E2. eapply total_weaken; [by apply dial_total|]. intros ? w3 E3. left. congruence.
  - unfold OnAccept. apply total_get_bind. eapply (total_bind _ _ _ (fun _ w' => state w' = state w)).
    + destruct ec; [by apply total_ret|]. destruct (_ <=? _); [by eexists tt, w, _|].
      eapply (total_bind _ _ _ (fun _ w' => state w' = state w)).
      { destruct remote; [|by apply total_ret]. eapply total_weaken; [apply quiet_IsBanned, runs_tip, R|]. by intros ? ? [? _]. }
      intros banned w1 E1. destruct banned; [by eexists tt, w1, _|]. eapply total_weaken; [apply begin_total|]. intros ? ? [? _]. congruence.
    + intros ? w1 E1. apply total_get_bind. destruct (acceptor w1); [eexists tt, w1, _; split; [done|]|apply total_ret]; left; congruence.
  - unfold OnReconnect. destruct ec; [by apply total_ret; left|]. apply total_get_bind. eapply total_weaken; [apply begin_total|].
    intros ? ? [? _]. left. congruence.
  - by apply completion_total.
  - apply quiet_keeps; [|done]. unfold AnnounceBlock. apply quiet_bind; [apply quiet_get|]. intros w1. destruct (started w1); [apply quiet_AnnounceBlock|apply quiet_ret].
  - apply quiet_keeps; [|done]. unfold AnnounceTransaction. apply quiet_bind; [apply quiet_get|]. intros w1.
    destruct (started w1); [apply quiet_AnnounceTransaction|apply quiet_ret].
  - unfold Stop. apply total_get_bind. destruct (started w); [|by apply total_ret; left]. eexists tt, _, _. split; [done|]. by left.
Qed.
End chain.

(** ** The list of connections *)

Section slots.
Context `{SH : Sha256Impl} `{SB : Signature.SignatureBackends} {M V D K : Type}.
Context `{CV : CoinsView V} `{BS : BlockStore D} `{CS : ChainSink K V} (config : NetConfig) (hooks : Hooks M V D K).
Abbreviation World := (Impl M V D K).
Implicit Types (w : World).

Definition roles w : list Role := map snd (connections w).

(** The handler neither adds nor removes a connection. *)
Definition steady {A} (m : Act A) : Prop := forall w a w' o, m w = Some (a, w', o) -> roles w' = roles w.

Lemma steady_ret {A} (a : A) : steady (mret a).
Proof. intros w b w' o E. by injection E as _ <- _. Qed.
Lemma steady_bind {A B} (m : Act A) (k : A -> Act B) : steady m -> (forall a, steady (k a)) -> steady (m ≫= k).
Proof.
  intros Hm Hk w b w' o. rewrite bind_step. destruct (m w) as [[[a w1] o1]|] eqn:E1; [|done].
  destruct (k a w1) as [[[b2 w2] o2]|] eqn:E2; [|done]. intros E. injection E as _ <- _. rewrite (Hk _ _ _ _ _ E2). by apply Hm in E1.
Qed.
Lemma steady_get : steady get.
Proof. intros w a w' o E. by injection E as _ <- _. Qed.
Lemma steady_modify (f : World -> World) : (forall w, connections (f w) = connections w) -> steady (modify f).
Proof. intros Hf w a w' o E. injection E as _ <- _. unfold roles. by rewrite Hf. Qed.
Lemma steady_emit x : steady (emit x).
Proof. intros w a w' o E. by injection E as _ <- _. Qed.
Lemma steady_on_conn i f : steady (on_conn i f).
Proof.
  intros w a w' o. unfold on_conn. destruct (connections w !! i) as [[c r]|] eqn:Ei; [|intros E; by injection E as _ <- _].
  destruct (f c) as [c' fx]. intros E. injection E as _ <- _. by apply (roles_insert _ _ c).
Qed.
Lemma steady_on_chain {A} (f : ChainState V D K -> option (A * ChainState V D K)) : steady (on_chain f).
Proof. intros w a w' o. unfold on_chain. destruct (f (state w)) as [[b s]|]; [|done]. intros E. by injection E as _ <- _. Qed.
Lemma steady_demand {A} (x : option A) : steady (demand x).
Proof. intros w a w' o. unfold demand. destruct x; [|done]. intros E. by injection E as _ <- _. Qed.
End slots.

Ltac steady_step :=
  first [ apply steady_ret | apply steady_get | apply steady_emit | apply steady_on_conn | apply steady_on_chain | apply steady_demand
        | (apply steady_bind; [|intros ?]) | (apply steady_modify; by intros ?)
        | match goal with |- steady (if ?b then _ else _) => destruct b end
        | match goal with |- steady (match ?x with _ => _ end) => destruct x end
        | match goal with |- steady (let '(_, _) := ?x in _) => destruct x end ].

Section slot_parts.
Context `{SH : Sha256Impl} `{SB : Signature.SignatureBackends} {M V D K : Type}.
Context `{CV : CoinsView V} `{BS : BlockStore D} `{CS : ChainSink K V} (config : NetConfig) (hooks : Hooks M V D K).
Abbreviation World := (Impl M V D K).
Implicit Types (w : World).

Lemma steady_announce item : steady (M := M) (V := V) (D := D) (K := K) (announce item).
Proof.
  unfold announce. apply steady_bind; [apply steady_get|]. intros w. generalize 0%nat. induction (length (connections w)) as [|n IH]; intros i; cbn [send_connected];
    [apply steady_ret|]. repeat first [apply IH|steady_step].
Qed.
Lemma steady_AnnounceBlock h : steady (M := M) (V := V) (D := D) (K := K) (Impl_AnnounceBlock h).
Proof. unfold Impl_AnnounceBlock. repeat first [apply steady_announce|steady_step]. Qed.
Lemma steady_AnnounceTransaction h : steady (M := M) (V := V) (D := D) (K := K) (Impl_AnnounceTransaction h).
Proof. unfold Impl_AnnounceTransaction. repeat first [apply steady_announce|steady_step]. Qed.
Lemma steady_take_headers hs now : forall l, steady (M := M) (take_headers config hs now l).
Proof. induction hs as [|h hs IH]; intros l; cbn [take_headers]; [apply steady_ret|]. repeat first [apply IH|steady_step]. Qed.
Lemma steady_serve i l : steady (serve_items hooks i l).
Proof. induction l as [|x l IH]; cbn [serve_items]; [apply steady_ret|]. repeat first [apply IH|steady_step]. Qed.

Lemma steady_message i command payload now clock : steady (Impl_HandleMessage config hooks i command payload now clock).
Proof.
  unfold Impl_HandleMessage, on_getheaders, on_headers, on_getdata, on_inv, on_block, on_tx, on_getaddr, on_addr, on_ping, on_pong, Score, StartSync, request_data, Impl_SaveAddresses.
  repeat first [apply steady_take_headers|apply steady_serve|apply steady_AnnounceBlock|apply steady_AnnounceTransaction|steady_step].
  apply steady_modify. intros w. by destruct (chain_changed hooks).
Qed.

Lemma steady_callbacks i role now clock fx : steady (callbacks config hooks i role now clock fx).
Proof.
  induction fx as [|e fx IH]; cbn [callbacks]; [apply steady_ret|]. apply steady_bind; [|done]. unfold callback, StartSync, TrafficCallback.
  repeat first [apply steady_message|steady_step].
Qed.

Lemma begin_roles c role f w a w' o : begin c role f w = Some (a, w', o) -> roles w' = roles w ++ [role].
Proof. unfold begin. destruct (f c) as [c' fx]. intros E. injection E as _ <- _. unfold roles. cbn. by rewrite map_app. Qed.

Lemma dial_roles n : forall peers w a w' o, dial config n peers w = Some (a, w', o) -> exists k, roles w' = roles w ++ replicate k OutboundPeer.
Proof.
  induction n as [|n IH]; intros [|peer peers] w a w' o; cbn [dial]; try (intros E; injection E as _ <- _; exists 0%nat; by rewrite app_nil_r).
  rewrite bind_step. cbn [get]. rewrite bind_step. unfold demand. destruct (parse_peer config peer) as [[host port]|]; [|done]. cbn [mbind option_bind].
  rewrite bind_step. destruct (begin _ _ _ w) as [[[b w1] o1]|] eqn:E1; [|done]. apply begin_roles in E1.
  destruct (dial config n peers w1) as [[[b2 w2] o2]|] eqn:E2; [|done]. apply IH in E2 as [k E2]. intros E. injection E as _ <- _.
  exists (S k). by rewrite E2, E1, <- app_assoc.
Qed.

(** What one event may do to the list: append, and an inbound one only below the limit. *)
Definition appended w w' : Prop :=
  exists new, roles w' = roles w ++ new /\ (max_inbound config + max_outbound config <= zlen (roles w) -> InboundPeer ∉ new).

Lemma appended_same w w' : roles w' = roles w -> appended w w'.
Proof. intros E. exists []. rewrite E, app_nil_r. split; [done|]. intros _ Hx. by apply not_elem_of_nil in Hx. Qed.

Lemma appended_one w w' role : roles w' = roles w ++ [role] ->
  role <> InboundPeer \/ zlen (connections w) < max_inbound config + max_outbound config -> appended w w'.
Proof.
  intros E Hr. exists [role]. split; [done|]. unfold roles, zlen. rewrite length_map. intros Hf Hx. apply list_elem_of_singleton in Hx.
  unfold zlen in Hr. destruct Hr as [Hr|Hr]; [congruence|lia].
Qed.

Lemma start_appended lec w a w' o : Start config lec w = Some (a, w', o) -> appended w w'.
Proof.
  unfold Start. rewrite bind_step. cbn [get]. destruct (started w); [intros E; injection E as _ <- _; by apply appended_same|].
  rewrite bind_step. cbn [modify]. rewrite bind_step. set (w1 := set_running true (negb (p2p_port config =? 0) && negb lec) w).
  destruct ((if negb (p2p_port config =? 0) && negb lec then emit ArmAccept else mret ()) w1) as [[[b w2] o2]|] eqn:E2; [|done].
  assert (roles w2 = roles w) as Er by (destruct (_ && _); injection E2 as _ <- _; done).
  destruct (dial config _ _ w2) as [[[b3 w3] o3]|] eqn:E3; [|done]. apply dial_roles in E3 as [k E3]. intros E. injection E as _ <- _.
  exists (replicate k OutboundPeer). rewrite E3, Er. split; [done|]. intros _ [? _]%elem_of_replicate. done.
Qed.

Lemma accept_appended ec remote clock w a w' o : OnAccept config ec remote clock w = Some (a, w', o) -> appended w w'.
Proof.
  unfold OnAccept. rewrite bind_step. cbn [get]. rewrite bind_step. set (body := if ec then _ else _).
  destruct (body w) as [[[b w2] o2]|] eqn:E2; [|done]. rewrite bind_step. cbn [get].
  destruct ((if acceptor w2 then emit ArmAccept else mret ()) w2) as [[[b3 w3] o3]|] eqn:E3; [|done]. intros E. injection E as _ <- _.
  assert (roles w3 = roles w2) as Er by (destruct (acceptor w2); injection E3 as _ <- _; done). clear E3. unfold body in E2. clear body.
  destruct ec; [injection E2 as _ <- _; by apply appended_same|].
  destruct (Z.leb_spec (max_inbound config + max_outbound config) (zlen (connections w))); [injection E2 as _ <- _; by apply appended_same|].
  rewrite bind_step in E2. set (check := match remote with Some endpoint => IsBanned endpoint clock | None => mret false end) in E2.
  assert (steady check) as Hc by (unfold check, IsBanned; repeat steady_step).
  destruct (check w) as [[[banned w1] o1]|] eqn:E1; [|done]. apply Hc in E1.
  destruct banned; [injection E2 as _ <- _; apply appended_same; congruence|].
  destruct (begin _ _ _ w1) as [[[b4 w4] o4]|] eqn:E4; [|done]. apply begin_roles in E4. injection E2 as _ <- _.
  apply (appended_one _ _ InboundPeer); [congruence|by right].
Qed.

Lemma net_step_roles now clock e w a w' o : net_step config hooks now clock e w = Some (a, w', o) -> e <> EvStop -> appended w w'.
Proof.
  destruct e as [lec|ec remote|ec host port|i e|h|h|]; cbn [net_step]; intros E Hne; try done.
  - by eapply start_appended.
  - by eapply accept_appended.
  - revert E. unfold OnReconnect. destruct ec; [intros E; injection E as _ <- _; by apply appended_same|].
    rewrite bind_step. cbn [get]. destruct (begin _ _ _ w) as [[[b3 w3] o3]|] eqn:E3; [|done]. apply begin_roles in E3. intros E. injection E as _ <- _.
    apply (appended_one _ _ ReconnectedPeer); [done|by left].
  - revert E. unfold on_completion. destruct (connections w !! i) as [[c role]|] eqn:Ei; [|intros E; injection E as _ <- _; by apply appended_same].
    destruct (complete e c) as [c' fx]. intros E. apply steady_callbacks in E. apply appended_same. rewrite E. by apply (roles_insert _ _ c).
  - apply appended_same. refine (steady_bind _ _ _ _ w a w' o E); [apply steady_get|]. intros w1. destruct (started w1); [apply steady_AnnounceBlock|apply steady_ret].
  - apply appended_same. refine (steady_bind _ _ _ _ w a w' o E); [apply steady_get|]. intros w1. destruct (started w1); [apply steady_AnnounceTransaction|apply steady_ret].
Qed.

(** Events one after another, each at its own time. *)
Fixpoint net_run (es : list (Z * Z * NetEvent)) w : option World :=
  match es with
  | [] => Some w
  | (now, clock, e) :: es => '(_, w, _) ← net_step config hooks now clock e w; net_run es w
  end.

Lemma net_run_roles es : forall w w', net_run es w = Some w' -> Forall (fun '(_, _, e) => e <> EvStop) es ->
  max_inbound config + max_outbound config <= zlen (roles w) ->
  exists new, roles w' = roles w ++ new /\ InboundPeer ∉ new.
Proof.
  induction es as [|[[now clock] e] es IH]; intros w w' E F Hf; cbn [net_run] in E.
  - injection E as <-. exists []. rewrite app_nil_r. split; [done|]. intros Hx. by apply not_elem_of_nil in Hx.
  - apply Forall_cons_1 in F as [He F]. destruct (net_step config hooks now clock e w) as [[[a w1] o]|] eqn:E1; [|done]. cbn [mbind option_bind] in E.
    apply net_step_roles in E1 as (new1 & R1 & N1); [|done]. destruct (IH w1 w' E F) as (new2 & R2 & N2).
    { rewrite R1, zlen_app. pose proof (zlen_nonneg new1). lia. }
    exists (new1 ++ new2). rewrite R2, R1, app_assoc. split; [done|]. intros [Hx|Hx]%elem_of_app; [by apply N1|done].
Qed.
End slot_parts.

(** ** Answers and announcements *)

Section answers.
Context `{SH : Sha256Impl} `{SB : Signature.SignatureBackends} {M V D K : Type}.
Context `{CV : CoinsView V} `{BS : BlockStore D} `{CS : ChainSink K V} (params : ChainParams) (f0 : Ledger).
Abbreviation World := (Impl M V D K).
Implicit Types (w : World) (s : ChainState V D K).

Lemma chain_found s h : in_step params f0 s -> h ∈ chain_ s -> exists e, Find (index_ s) h = Some e /\ ent_hash e = h.
Proof.
  intros I Hh. destruct (is_chain _ _ _ I) as [t L]. pose proof (is_index _ _ _ I) as II.
  assert (h ∈ rev (chain_ s)) as Hr by (apply list_elem_of_In; rewrite <- in_rev; by apply list_elem_of_In).
  enough (exists e, Find (index_ s) h = Some e) as [e E] by (exists e; split; [done|by apply (BlockIndex.inv_hash _ _ _ II E)]).
  induction L as [h' e E P|h' e p l E P L IH]; [apply list_elem_of_singleton in Hr as ->; eauto|].
  apply elem_of_cons in Hr as [->|Hr]; [eauto|by apply IH].
Qed.

(** [hdr] is the header of the block [h]. *)
Definition header_of s (h : bytes) (hdr : BlockHeader) : Prop := exists e, Find (index_ s) h = Some e /\ ent_header e = hdr.

Lemma headers_from_spec s stop room : in_step params f0 s -> forall h, (h <= length (chain_ s))%nat ->
  exists run after, drop h (chain_ s) = run ++ after /\ Forall2 (header_of s) run (headers_from room s stop (Z.of_nat h)) /\
    (length run <= room)%nat /\ (after = [] \/ length run = room \/ last run = Some stop).
Proof.
  intros I. induction room as [|room IH]; intros h Hh; cbn [headers_from]; [exists [], (drop h (chain_ s)); by split_and!; [|constructor| |right; left]|].
  unfold zlen. destruct (Z.leb_spec (Z.of_nat (length (chain_ s))) (Z.of_nat h)).
  { exists [], []. rewrite drop_ge by lia. split_and!; [done|constructor|cbn; lia|by left]. }
  destruct (lookup_lt_is_Some_2 (chain_ s) h ltac:(lia)) as [x Hx]. unfold AtHeight, zlen. rewrite (proj2 (Z.leb_gt _ _)) by lia. rewrite Nat2Z.id, Hx.
  cbn [mbind option_bind]. destruct (chain_found s x I) as (e & E & Eh); [by eapply list_elem_of_lookup_2|]. rewrite E.
  rewrite (drop_S _ _ _ Hx). destruct (bool_decide_reflect (ent_hash e = stop)) as [<-|Hs].
  - exists [x], (drop (S h) (chain_ s)). split_and!; [done|constructor; [by exists e|constructor]|cbn; lia|right; right; by rewrite Eh].
  - destruct (IH (S h) ltac:(lia)) as (run & after & Er & F & L & C). replace (Z.of_nat h + 1) with (Z.of_nat (S h)) by lia.
    exists (x :: run), after. split_and!; [by rewrite Er|constructor; [by exists e|done]|cbn; lia|].
    destruct C as [C|[C|C]]; [by left|right; left; cbn; by rewrite C|right; right]. destruct run; [done|]. done.
Qed.

Lemma find_height_spec chain n hash : (n <= length chain)%nat ->
  match find_height chain n hash with
  | Some k => exists i, k = Z.of_nat (S i) /\ chain !! i = Some hash
  | None => forall i, (i < n)%nat -> chain !! i <> Some hash
  end.
Proof.
  induction n as [|n IH]; intros Hn; cbn [find_height]; [lia|].
  assert (AtHeight chain (Z.of_nat n) = chain !! n) as -> by (unfold AtHeight, zlen; rewrite (proj2 (Z.leb_gt _ _)) by lia; by rewrite Nat2Z.id).
  destruct (bool_decide_reflect (chain !! n = Some hash)) as [E|E]; [by exists n|]. specialize (IH ltac:(lia)).
  destruct (find_height chain n hash); [done|]. intros i Hi. destruct (decide (i = n)) as [->|]; [done|]. apply IH. lia.
Qed.

Lemma find_locator_spec chain locator : exists start, find_locator chain locator = Z.of_nat start /\ (start <= length chain)%nat /\
  (start = 0%nat /\ Forall (fun h => h ∉ chain) locator \/
   exists pre h post, locator = pre ++ h :: post /\ Forall (fun x => x ∉ chain) pre /\ last (take start chain) = Some h).
Proof.
  induction locator as [|h locator IH]; cbn [find_locator]; [exists 0%nat; split_and!; [done|lia|by left; split; [|constructor]]|].
  pose proof (find_height_spec chain (length chain) h ltac:(lia)) as F. destruct (find_height chain (length chain) h) as [k|].
  - destruct F as (i & -> & Hi). pose proof (lookup_lt_Some _ _ _ Hi). exists (S i). split_and!; [done|lia|]. right. exists [], h, locator.
    split_and!; [done|constructor|]. rewrite (take_S_r _ _ _ Hi). apply last_snoc.
  - assert (h ∉ chain) as Hn by (intros [i Hi]%list_elem_of_lookup_1; apply (F i); [by eapply lookup_lt_Some|done]).
    destruct IH as (start & E & L & C). exists start. split_and!; [done|done|]. destruct C as [[-> C]|(pre & x & post & -> & C & Hl)].
    + left. split; [done|by constructor].
    + right. exists (h :: pre), x, post. split_and!; [done|by constructor|done].
Qed.

(** What one announcement does to one connection. *)
Definition tell (command : Command) (payload : bytes) (p : PeerConnection * Role) : PeerConnection * Role :=
  if IsConnected p.1 then ((Send command payload p.1).1, p.2) else p.

Lemma send_connected_spec n k p : forall i w, exists o,
  send_connected n k p i w = Some (tt, set_connections (take i (connections w) ++ (tell k p <$> take n (drop i (connections w))) ++ drop n (drop i (connections w))) w, o).
Proof.
  induction n as [|n IH]; intros i w; cbn [send_connected].
  { exists []. rewrite take_0, drop_0. cbn [fmap list_fmap app]. rewrite take_drop. by destruct w. }
  rewrite bind_step. cbn [get]. rewrite bind_step. destruct (connections w !! i) as [[c r]|] eqn:E.
  - set (w1 := set_connections (<[i := tell k p (c, r)]> (connections w)) w).
    assert (exists o, (if IsConnected c then Impl_Send i k p else mret ()) w = Some (tt, w1, o)) as [o ->].
    { unfold w1, tell. cbn [fst snd]. destruct (IsConnected c).
      - unfold Impl_Send, on_conn. rewrite E. destruct (Send k p c) as [c' fx]. by eexists.
      - exists []. rewrite list_insert_id by done. by destruct w. }
    destruct (IH (S i) w1) as [o' ->]. eexists. f_equal. f_equal. unfold w1, set_connections at 1. cbn [connections set_connections].
    pose proof (lookup_lt_Some _ _ _ E) as Hi. rewrite (drop_S (connections w) (c, r) i E). cbn [take drop fmap list_fmap].
    rewrite (take_S_r (<[i := _]> (connections w)) i (tell k p (c, r))) by (by apply list_lookup_insert_eq).
    rewrite take_insert_ge by lia. rewrite (drop_insert_lt (connections w)) by lia. by rewrite <- !app_assoc.
  - assert (length (connections w) <= i)%nat as Hi by (by apply lookup_ge_None). destruct (IH (S i) w) as [o' E'].
    unfold mret, Act_ret. rewrite E'. eexists. f_equal. f_equal.
    rewrite !(drop_ge (connections w)) by lia. rewrite !take_nil, !drop_nil. cbn. by rewrite !take_ge by lia.
Qed.
End answers.

(** ** Samples *)

Definition sample_config (inbound outbound : Z) : NetConfig :=
  mkConfig ["10.0.0.1:9333"%string; "seed"%string] REGTEST_PARAMS outbound inbound 0 30 false 100 86400.
Definition no_hooks {V D K} : Hooks unit V D K := mkHooks _ _ _ _ None None None.
Definition sample_world : Impl unit EmptyCoinsView MemoryBlockStore NullSink :=
  new_Impl (sample_config 32 8) short_state tt 7 "".

(** ** The theorems *)

(** C14: No event from the network harms the chain.  Whatever completes on whatever
    connection, with whatever bytes (and so for every message of any peer), whoever
    connects, the manager has an answer, and the chain state is again one a node can
    reach, so that its index is sound and its coins are those of its chain; the one
    exception is the state after a storage sink refused a tip, which the manager answers
    by closing the peer. *)
Theorem net_keeps_chain `{Sha256Impl} `{Signature.SignatureBackends} {M V D K} `{CoinsView V} `{!LawfulView V}
    `{BlockStore D} `{!LawfulStore D} `{ChainSink K V} `{!LawfulSink K V}
    (config : NetConfig) (hooks : Hooks M V D K) (f0 : Ledger) (w : Impl M V D K) (now clock : Z) (e : NetEvent)
    (R : runs (cfg_params config) f0 (state w)) (L : BlockLimits_ok (block_limits (cfg_params config)))
    (P : Forall (fun p => is_Some (parse_peer config p)) (cfg_connect config)) (S : Size (index_ (state w)) < 2 ^ 64 - 2001) :
  exists w' o, net_step config hooks now clock e w = Some (tt, w', o) /\
    (runs (cfg_params config) f0 (state w') \/
     exists s f, runs (cfg_params config) f0 s /\
       ActivateBestChain (cfg_params config) s = Some (ChainState.Stop f, state w') /\ fail_error f = CommitFailed).
Proof. destruct (net_step_total config hooks f0 now clock e w R L P S) as ([] & w' & o & E & C). by exists w', o. Qed.

Lemma net_keeps_chain_witness :
  exists w' o, net_step (H := toy_Sha256Impl) (H0 := picky_backends) (sample_config 32 8) no_hooks sample_now 0 (EvStart true) sample_world = Some (tt, w', o) /\
    (runs (SH := toy_Sha256Impl) (SB := picky_backends) REGTEST_PARAMS (fun _ => None) (state w') \/
     exists s f, runs (SH := toy_Sha256Impl) (SB := picky_backends) REGTEST_PARAMS (fun _ => None) s /\
       ActivateBestChain (H := toy_Sha256Impl) (H0 := picky_backends) REGTEST_PARAMS s = Some (ChainState.Stop f, state w') /\ fail_error f = CommitFailed).
Proof.
  apply (net_keeps_chain (H := toy_Sha256Impl) (H0 := picky_backends) (sample_config 32 8) no_hooks (fun _ => None) sample_world sample_now 0 (EvStart true)).
  - exact short_runs.
  - vm_compute. intuition congruence.
  - repeat constructor; vm_compute; eexists; reflexivity.
  - vm_compute. reflexivity.
Defined.

(** A slot once taken is never free again.  No event but stopping removes a
    connection, closed or not; so once as many have been made as the limits allow, then
    whatever happens later, and even if every one of them is closed, no inbound peer is
    ever taken again. *)
Theorem slots_never_freed `{Sha256Impl} `{Signature.SignatureBackends} {M V D K} `{CoinsView V} `{BlockStore D} `{ChainSink K V}
    (config : NetConfig) (hooks : Hooks M V D K) (es : list (Z * Z * NetEvent)) (w w' : Impl M V D K)
    (Hrun : net_run config hooks es w = Some w') (Hstop : Forall (fun '(_, _, e) => e <> EvStop) es)
    (Hfull : max_inbound config + max_outbound config <= PeerCount w) :
  PeerCount w <= PeerCount w' /\ exists new, roles w' = roles w ++ new /\ InboundPeer ∉ new.
Proof.
  assert (forall u : Impl M V D K, PeerCount u = zlen (roles u)) as Hc by (intros u; unfold PeerCount, roles, zlen; by rewrite length_map).
  rewrite !Hc in *. destruct (net_run_roles config hooks es w w' Hrun Hstop Hfull) as (new & E & N). rewrite E, zlen_app.
  pose proof (zlen_nonneg new). split; [lia|]. by exists new.
Qed.

(** A world whose only connection is closed. *)
Definition full_world : Impl unit EmptyCoinsView MemoryBlockStore NullSink :=
  set_connections [(Close (new_inbound REGTEST_PARAMS 7 "10.0.0.9:1"), InboundPeer)] (new_Impl (sample_config 1 0) start_state tt 7 "").

Lemma slots_never_freed_witness :
  exists w' : Impl unit EmptyCoinsView MemoryBlockStore NullSink,
    net_run (SH := toy_Sha256Impl) (SB := picky_backends) (sample_config 1 0) no_hooks [(0, 0, EvAccept false (Some "10.0.0.8:1"%string))] full_world = Some w' /\
    exists new, roles w' = roles full_world ++ new /\ InboundPeer ∉ new.
Proof.
  eexists. split; [reflexivity|].
  apply (slots_never_freed (H := toy_Sha256Impl) (H0 := picky_backends) (sample_config 1 0) no_hooks [(0, 0, EvAccept false (Some "10.0.0.8:1"%string))] full_world).
  - reflexivity.
  - repeat constructor. discriminate.
  - vm_compute. discriminate.
Defined.

(** A getheaders request is answered with a stretch of the active chain: the headers
    of consecutive blocks, at most two thousand, that begin just above the first block of
    the locator that is on the chain, or at genesis when none is, and that end at the tip,
    at the stop hash or at two thousand. *)
Theorem getheaders_answered `{Sha256Impl} `{Signature.SignatureBackends} {M V D K} `{CoinsView V} `{!LawfulView V}
    `{BlockStore D} `{!LawfulStore D} `{ChainSink K V} `{!LawfulSink K V}
    (params : ChainParams) (f0 : Ledger) (w : Impl M V D K) (i : nat) (payload : bytes) (request : GetHeadersPayload)
    (R : runs params f0 (state w)) (P : Parse (GetHeadersPayload_Deserialize 101) payload = Some request) :
  exists before run after hs, chain_ (state w) = before ++ run ++ after /\ Forall2 (header_of (state w)) run hs /\
    on_getheaders i payload w = Impl_Send i Headers (encode HeadersPayload_Serialize (mkHeaders hs)) w /\
    zlen run <= 2000 /\ (after = [] \/ zlen run = 2000 \/ last run = Some (stop_hash request)) /\
    (before = [] /\ Forall (fun h => h ∉ chain_ (state w)) (locator request) \/
     exists pre h post, locator request = pre ++ h :: post /\ Forall (fun x => x ∉ chain_ (state w)) pre /\ last before = Some h).
Proof.
  apply runs_in_step in R as I. destruct (find_locator_spec (chain_ (state w)) (locator request)) as (start & Es & Ls & C).
  destruct (headers_from_spec params f0 (state w) (stop_hash request) (Z.to_nat HeadersPayload_MAX_COUNT) I start Ls) as (run & after & Er & F & L & E).
  exists (take start (chain_ (state w))), run, after, (headers_from (Z.to_nat HeadersPayload_MAX_COUNT) (state w) (stop_hash request) (Z.of_nat start)).
  unfold zlen. change (Z.to_nat HeadersPayload_MAX_COUNT) with (Z.to_nat 2000) in *. split_and!; [by rewrite <- Er, take_drop|done| |lia| |].
  - unfold on_getheaders. rewrite P, bind_step. cbn [get]. rewrite Es. change (Z.to_nat HeadersPayload_MAX_COUNT) with (Z.to_nat 2000).
    by destruct (Impl_Send _ _ _ _) as [[[? ?] ?]|].
  - destruct E as [?|[?|?]]; [by left|right; left; lia|by right; right].
  - destruct C as [[-> C]|C]; [by left|by right].
Qed.

Definition sample_request : GetHeadersPayload := mkGetHeaders 1 [sample_genesis] (replicate 32 Byte.x00).

Lemma getheaders_answered_witness :
  exists before run after hs, chain_ short_state = before ++ run ++ after /\ Forall2 (header_of (state sample_world)) run hs /\
    on_getheaders (H := toy_Sha256Impl) 0 (encode GetHeadersPayload_Serialize sample_request) sample_world =
      Impl_Send (H := toy_Sha256Impl) 0 Headers (encode HeadersPayload_Serialize (mkHeaders hs)) sample_world.
Proof.
  destruct (getheaders_answered (H := toy_Sha256Impl) (H0 := picky_backends) REGTEST_PARAMS (fun _ => None) sample_world 0
    (encode GetHeadersPayload_Serialize sample_request) sample_request short_runs) as (before & run & after & hs & E1 & E2 & E3 & _).
  - vm_compute. reflexivity.
  - exists before, run, after, hs. exact (conj E1 (conj E2 E3)).
Defined.

(** A block is announced once.  The first announcement sends every connected peer,
    and no other, one inventory that parses as that block; after it, or when the block was
    announced before, announcing it does nothing at all. *)
Theorem announced_once `{Sha256Impl} {M V D K} (hash : bytes) (w : Impl M V D K) (Hh : is_hash hash) :
  let payload := encode GetDataPayload_Serialize (mkGetData [mkInventory InventoryType_Block hash]) in
  Parse (GetDataPayload_Deserialize 2000) payload = Some (mkGetData [mkInventory InventoryType_Block hash]) /\
  exists w' o, Impl_AnnounceBlock hash w = Some (tt, w', o) /\ Impl_AnnounceBlock hash w' = Some (tt, w', []) /\
    (if bool_decide (hash ∈ announced_blocks w) then w' = w
     else connections w' = tell Inv payload <$> connections w).
Proof.
  intros payload. split.
  { apply (codec_parse _ _ _ (codec_GetData 2000 ltac:(lia))).
    - unfold payload. assert (exists l, encode GetDataPayload_Serialize (mkGetData [mkInventory InventoryType_Block hash]) = l ++ hash /\ zlen l = 5) as (l & -> & Hl).
      { eexists. split; [reflexivity|reflexivity]. }
      rewrite zlen_app. unfold is_hash in Hh. lia.
    - split; [|done]. split; [constructor; [|constructor]|done]. split; [done|exact Hh]. }
  assert (forall u : Impl M V D K, hash ∈ announced_blocks u -> Impl_AnnounceBlock hash u = Some (tt, u, [])) as Hknown.
  { intros u Hu. unfold Impl_AnnounceBlock. rewrite bind_step. cbn [get]. by rewrite bool_decide_true. }
  destruct (bool_decide_reflect (hash ∈ announced_blocks w)) as [Hin|Hin]; [exists w, []; split_and!; [by apply Hknown..|done]|].
  unfold Impl_AnnounceBlock at 1. rewrite bind_step. cbn [get]. rewrite bool_decide_false by done. rewrite bind_step. cbn [modify]. unfold announce. rewrite bind_step.
  set (w1 := set_announced ({[hash]} ∪ announced_blocks w) (announced_transactions w) w).
  cbn [get]. fold payload.
  destruct (send_connected_spec (length (connections w1)) Inv payload 0 w1) as [o E]. rewrite E. eexists _, _. split; [reflexivity|].
  split; [apply Hknown; cbn; set_solver|]. cbn [connections set_connections].
  rewrite take_0, drop_0, take_ge, drop_ge by done. by rewrite app_nil_r.
Qed.

Lemma announced_once_witness :
  exists w' o, Impl_AnnounceBlock (H := toy_Sha256Impl) sample_genesis sample_world = Some (tt, w', o) /\
    Impl_AnnounceBlock (H := toy_Sha256Impl) sample_genesis w' = Some (tt, w', []).
Proof.
  destruct (announced_once (H := toy_Sha256Impl) sample_genesis sample_world) as (_ & w' & o & E1 & E2 & _); [vm_compute; reflexivity|].
  exists w', o. exact (conj E1 E2).
Defined.

(** A peer that hangs up is still counted as connected: a failed read leaves the flag. *)
Lemma hangup_unnoticed `{Sha256Impl} `{Signature.SignatureBackends} {M V D K} `{CoinsView V} `{BlockStore D} `{ChainSink K V}
    (config : NetConfig) (hooks : Hooks M V D K) (w : Impl M V D K) i c ec header now clock :
  connections w !! i = Some (c, InboundPeer) -> connected_ c = true ->
  exists w' o, on_completion config hooks i (HeaderRead (Some ec) header) now clock w = Some (tt, w', o) /\
    HasActivePeer w' = true /\ PeerCount w' = PeerCount w.
Proof.
  intros Ei Ec. unfold on_completion. rewrite Ei. cbn. eexists _, _. split; [reflexivity|]. split.
  - unfold HasActivePeer. apply existsb_exists. eexists. split; [apply list_elem_of_In; eapply list_elem_of_lookup_2; cbn;
      apply list_lookup_insert_eq; by eapply lookup_lt_Some|done].
  - unfold PeerCount, zlen. cbn. by rewrite length_insert.
Qed.
End PeerManager.
