(* ===== verification/Daemon.v ===== *)
(** * The daemon's glue (src/node/amariand.cpp: [PoolKeeper], [Advance], [GenerateBlocks],
    [ExportBlocks], [ImportBlocks] and the hooks handed to the peer manager)

    The pool's keeper is the chain state's observer.  The notifications it is sent are the
    trace the chain state keeps; each is acted on as it is made, and nothing reads the
    pool in between, so acting on those not yet taken just before the pool is next used is
    the same.  Reading and writing files always succeeds; the clock is an argument.

    [None] stands for what the operations underneath leave undefined. *)

From Stdlib Require Import String.
From S2P Require Import Prelude Overflow Serialize Hex Crypto Primitives Target Work Asert Issuance Params Merkle Sighash Validation Genesis BlockIndex Coins Connect BlockStore ChainState Mempool MempoolInv BlockAssembler Message Protocol Handshake AddressBook PeerConnection PeerManager.
From stdpp Require Import gmap strings.
#[local] Open Scope Z_scope.

Module Daemon.
Import Params Validation BlockIndex Connect BlockStore ChainState MempoolInv BlockAssembler.
Abbreviation encode := Serialize.encode.
Abbreviation Pool := Mempool.Mempool.

Record PoolKeeper := mkKeeper {
  pool_ : Pool;
  reorganised_ : bool;
  (** how many notifications have been acted on *)
  taken_ : nat }.

Definition new_PoolKeeper : PoolKeeper := mkKeeper Mempool.new_Mempool false 0.

Section daemon.
Context `{HO : Mempool.HashOrder} `{SH : Sha256Impl} `{SB : Signature.SignatureBackends} {V D K : Type}.
Context `{CV : CoinsView V} `{BS : BlockStore D} `{CS : ChainSink K V} (params : ChainParams).
Abbreviation State := (ChainState V D K).
Implicit Types (s : State) (k : PoolKeeper).

(** ** The keeper *)

Definition BlockConnected (block : Block) k : PoolKeeper :=
  mkKeeper (Mempool.RemoveForBlock block (pool_ k)).2 (reorganised_ k) (taken_ k).

Definition BlockDisconnected k : PoolKeeper := mkKeeper (pool_ k) true (taken_ k).

Definition on_tip_event (e : TipEvent) k : PoolKeeper :=
  match e with
  | ChainState.BlockConnected block _ => BlockConnected block k
  | ChainState.BlockDisconnected _ _ => BlockDisconnected k
  end.

Definition trace s : list TipEvent := default [] (observer_ s).

Definition catch_up s k : PoolKeeper :=
  let k := fold_left (fun k e => on_tip_event e k) (drop (taken_ k) (trace s)) k in
  mkKeeper (pool_ k) (reorganised_ k) (length (trace s)).

(** The height a pool transaction would confirm at. *)
Definition spend_height s : option Z :=
  tip ← Tip s ≫= Find (index_ s);
  Some (if ent_height tip <? 2 ^ 32 - 1 then ent_height tip + 1 else ent_height tip).

Definition Settle s k : option PoolKeeper :=
  if negb (reorganised_ k) then Some k
  else
    h ← spend_height s;
    Some (mkKeeper (Mempool.RemoveForReorg (coins_ s) h params (pool_ k)).2 false (taken_ k)).

(** The logging is left out. *)
Definition Advance s k : option (bool * State * PoolKeeper) :=
  '(activated, s) ← ActivateBestChain params s;
  let k := catch_up s k in
  match activated with
  | ChainState.Stop _ => Some (false, s, k)
  | Value _ => k ← Settle s k; Some (true, s, k)
  end.

(** ** Mining *)

(** One round of [GenerateBlocks]; [false] ends the loop. *)
Definition generate_one (payout : Lock) (attempts now : Z) s k : option (bool * State * PoolKeeper) :=
  tip ← Tip s ≫= Find (index_ s);
  assembled ← BuildBlockTemplate (index_ s) tip payout now [] params (Some (pool_ k));
  match assembled with
  | inl _ => Some (false, s, k)
  | inr t =>
      let '(solved, header) := SolveHeader (blk_header (tmpl_block t)) (tmpl_target t) attempts in
      if negb solved then Some (false, s, k)
      else
        '(accepted, s) ← AcceptBlock params (mkBlock header (blk_transactions (tmpl_block t))) now s;
        match accepted with
        | Refused _ => Some (false, s, k)
        | Found _ => Advance s k
        end
  end.

(** The clock is read once a round: one value for each block to make. *)
Fixpoint GenerateBlocks (payout : Lock) (attempts : Z) (times : list Z) s k : option (bool * State * PoolKeeper) :=
  match times with
  | [] => Some (true, s, k)
  | now :: times =>
      '(ok, s, k) ← generate_one payout attempts now s k;
      if ok : bool then GenerateBlocks payout attempts times s k else Some (false, s, k)
  end.

(** ** Block files *)

Definition BLOCK_RECORD_FRAMING_SIZE : Z := 8.

(** One record; [static_cast<uint32_t>] truncates the length. *)
Definition block_record (block : Block) : bytes :=
  let body := encode Block_Serialize block in
  let w := WriteBytes (magic params) new_Writer in
  let w := WriteU32 (wrapu 32 (zlen body)) w in
  WriteBytes body w.

(** From height [height] up; the chain's length is fuel enough. *)
Fixpoint export_loop (fuel : nat) s (height : Z) (out : bytes) : bool * bytes :=
  match fuel with
  | O => (true, out)
  | S fuel =>
      match AtHeight (chain_ s) height with
      | None => (true, out)
      | Some h =>
          match GetBlock (store_ s) h with
          | None => (false, out)
          | Some block => export_loop fuel s (height + 1) (out ++ block_record block)
          end
      end
  end.
Definition ExportBlocks s : bool * bytes := export_loop (length (chain_ s)) s 1 [].

(** What stands at the front of a file: nothing, a block and what follows it, or
    something the import stops at. *)
Inductive Record_ := EndOfFile | BlockRecord (block : Block) (rest : bytes) | BadRecord.

Definition read_record (file : bytes) : Record_ :=
  match file with
  | [] => EndOfFile
  | _ =>
      if zlen file <? BLOCK_RECORD_FRAMING_SIZE then BadRecord
      else
        let n := Z.to_nat BLOCK_RECORD_FRAMING_SIZE in
        let '(m, reader) := ReadBytes 4 (new_Reader (take n file)) in
        let '(length, reader) := ReadU32 reader in
        match m, length with
        | Some m, Some length =>
            if negb (fst (Finish reader)) then BadRecord
            else if negb (bool_decide (m = magic params)) then BadRecord
            else if (length =? 0) || (max_block_weight params <? length) then BadRecord
            else
              let rest := drop n file in
              if zlen rest <? length then BadRecord
              else match Parse (Block_Deserialize (block_limits params)) (take (Z.to_nat length) rest) with
                   | None => BadRecord
                   | Some block => BlockRecord block (drop (Z.to_nat length) rest)
                   end
        | _, _ => BadRecord
        end
  end.

(** Whether the file was read to its end, and the blocks offered and refused. *)
Record Imported := mkImported { import_ok : bool; offered : Z; refused : Z }.

(** A record takes at least eight bytes, so the file's length is fuel enough. *)
Fixpoint import_loop (fuel : nat) (file : bytes) (now : Z) (r : Imported) s : option (Imported * State) :=
  match fuel with
  | O => Some (r, s)
  | S fuel =>
      match read_record file with
      | EndOfFile => Some (r, s)
      | BadRecord => Some (mkImported false (offered r) (refused r), s)
      | BlockRecord block rest =>
          '(accepted, s) ← AcceptBlock params block now s;
          import_loop fuel rest now
            (mkImported (import_ok r) (offered r + 1) (refused r + match accepted with Found _ => 0 | Refused _ => 1 end)) s
      end
  end.

Definition ImportBlocks (file : bytes) (now : Z) s k : option (bool * State * PoolKeeper) :=
  '(r, s) ← import_loop (S (length file)) file now (mkImported true 0 0) s;
  let done s k := Some (import_ok r && (refused r =? 0), s, k) in
  if offered r =? 0 then done s k
  else '(ok, s, k) ← Advance s k; if ok : bool then done s k else Some (false, s, k).

(** ** What the peer manager is given *)

Definition net_accept_transaction (now : Z) s (tx : Transaction) k : bool * PoolKeeper :=
  let k := catch_up s k in
  match spend_height s with
  | None => (false, k)
  | Some h =>
      match Mempool.Accept tx (coins_ s) h now params (pool_ k) with
      | (Mempool.Accepted _, p) => (true, mkKeeper p (reorganised_ k) (taken_ k))
      | (Mempool.Refused _, p) => (false, mkKeeper p (reorganised_ k) (taken_ k))
      end
  end.

Definition net_get_transaction s k (hash : bytes) : option Transaction :=
  Mempool.ent_tx <$> Mempool.Find (pool_ (catch_up s k)) hash.

(** The wallet is rescanned, the keeper is not called. *)
Definition net_chain_changed s k : PoolKeeper := k.

Definition net_hooks (now : Z) : PeerManager.Hooks PoolKeeper V D K :=
  PeerManager.mkHooks _ _ _ _ (Some (net_accept_transaction now)) (Some net_get_transaction) (Some net_chain_changed).
End daemon.

(** ** The observer's trace *)

Section traces.
Context `{SH : Sha256Impl} `{SB : Signature.SignatureBackends} {V D K : Type}.
Context `{CV : CoinsView V} `{BS : BlockStore D} `{CS : ChainSink K V} (params : ChainParams).
Abbreviation State := (ChainState V D K).
Implicit Types (s : State).

(** Notifications are only ever added. *)
Definition extends s s' : Prop := trace s `prefix_of` trace s'.

#[global] Instance extends_refl : Reflexive extends.
Proof. intros s. by unfold extends. Qed.

Lemma extends_same s s' : observer_ s' = observer_ s -> extends s s'.
Proof. intros E. unfold extends, trace. by rewrite E. Qed.

Lemma extends_trans s1 s2 s3 : extends s1 s2 -> extends s2 s3 -> extends s1 s3.
Proof. apply (transitivity (R := prefix)). Qed.

Lemma extends_notify e s : extends s (notify e s).
Proof. unfold extends, trace, notify. destruct s as [? ? ? ? [t|] ?]; cbn; [by eexists|done]. Qed.

Lemma commit_entry_observer h s s' : commit_entry h s = Some s' -> observer_ s' = observer_ s.
Proof.
  unfold commit_entry, CommitEntry. destruct (Find (index_ s) h); [|done]. cbn. intros [= <-]. destruct (sink_ s); [|done]. by destruct (CommitHeader _ _).
Qed.

Lemma CommitCurrentTip_observer s ok s' : CommitCurrentTip s = Some (ok, s') -> observer_ s' = observer_ s.
Proof.
  unfold CommitCurrentTip. destruct (sink_ s); [|by intros [= _ <-]]. destruct (Tip s); [|done]. cbn. destruct (CommitTip _ _ _) as [[? ?] ?]. by intros [= _ <-].
Qed.

Lemma AcceptHeader_observer header now s r s' : AcceptHeader params header now s = Some (r, s') -> observer_ s' = observer_ s.
Proof.
  unfold AcceptHeader. destruct (AddHeader _ _ _ _) as [[h|e] idx]; [|by intros [= _ <-]]. cbn [index_ with_index]. destruct (Find idx h); [|done].
  cbn [mbind option_bind]. destruct (negb _); [by intros [= _ <-]|]. destruct (commit_entry _ _) as [s1|] eqn:E; [|done]. intros [= _ <-].
  by apply commit_entry_observer in E.
Qed.

Lemma AcceptBlock_observer block now s r s' : AcceptBlock params block now s = Some (r, s') -> observer_ s' = observer_ s.
Proof.
  unfold AcceptBlock. destruct (AddHeader _ _ _ _) as [[h|e] idx]; [|by intros [= _ <-]]. cbn [index_ with_index]. destruct (Find idx h); [|done].
  cbn [mbind option_bind]. destruct (negb _); [by intros [= _ <-]|]. destruct (HaveBlock _ _); [by intros [= _ <-]|]. destruct (CheckBlock _ _).
  - destruct (commit_entry _ _) as [s1|] eqn:E; [|done]. intros [= _ <-]. by apply commit_entry_observer in E.
  - destruct (RecordFailure _ _) as [[? ?]|]; [|done]. cbn [mbind option_bind].
    destruct (commit_entry _ _) as [s1|] eqn:E; [|done]. intros [= _ <-]. by apply commit_entry_observer in E.
Qed.

(** What activation does not change, besides: no entry is added to the index. *)
(** No header is added and none is lost. *)
Definition same_keys (idx idx' : BlockIndex) : Prop :=
  next_sequence_ idx' = next_sequence_ idx /\ dom (entries_ idx') = dom (entries_ idx).

Lemma same_keys_trans a b c : same_keys a b -> same_keys b c -> same_keys a c.
Proof. intros [E1 D1] [E2 D2]. split; congruence. Qed.
Lemma same_keys_find idx idx' h e : same_keys idx idx' -> Find idx h = Some e -> exists e', Find idx' h = Some e'.
Proof.
  intros [_ Hk] E. assert (h ∈ dom (entries_ idx)) as Hd by (apply elem_of_dom; by exists e). rewrite <- Hk in Hd. by apply elem_of_dom in Hd.
Qed.

Definition moves s s' : Prop := extends s s' /\ same_keys (index_ s) (index_ s').

#[global] Instance moves_refl : Reflexive moves.
Proof. intros s. by split. Qed.

Lemma moves_same s s' : observer_ s' = observer_ s -> same_keys (index_ s) (index_ s') -> moves s s'.
Proof. intros E1 E2. split; [by apply extends_same|done]. Qed.

Lemma moves_trans s1 s2 s3 : moves s1 s2 -> moves s2 s3 -> moves s1 s3.
Proof. intros [E1 N1] [E2 N2]. split; [by eapply extends_trans|by eapply same_keys_trans]. Qed.

Lemma moves_notify e s : moves s (notify e s).
Proof. split; [apply extends_notify|done]. Qed.

Lemma commit_entry_index h s s' : commit_entry h s = Some s' -> index_ s' = index_ s.
Proof.
  unfold commit_entry, CommitEntry. destruct (Find (index_ s) h); [|done]. cbn. intros [= <-]. destruct (sink_ s); [|done]. by destruct (CommitHeader _ _).
Qed.

Lemma CommitCurrentTip_index s ok s' : CommitCurrentTip s = Some (ok, s') -> index_ s' = index_ s.
Proof.
  unfold CommitCurrentTip. destruct (sink_ s); [|by intros [= _ <-]]. destruct (Tip s); [|done]. cbn. destruct (CommitTip _ _ _) as [[? ?] ?]. by intros [= _ <-].
Qed.

Lemma RecordValidity_keys h v idx : same_keys idx (RecordValidity h v idx).
Proof.
  unfold RecordValidity. destruct (Find idx h) as [e|] eqn:E; [|done]. destruct (_ <? _); [|done]. split; [done|]. cbn [entries_ with_entries].
  apply dom_insert_lookup_L. by exists e.
Qed.

Lemma mark_children_dom cs : forall m k fr, dom (mark_children cs m k fr).1.1 = dom m.
Proof.
  induction cs as [|c cs IH]; intros m k fr; cbn [mark_children]; [done|]. destruct (m !! c) as [d|] eqn:E; [|apply IH].
  destruct (negb _); rewrite IH; [done|]. apply dom_insert_lookup_L. by exists d.
Qed.

Lemma failure_loop_dom idx fuel : forall m k fr m' k', failure_loop fuel idx m k fr = Some (m', k') -> dom m' = dom m.
Proof.
  induction fuel as [|fuel IH]; intros m k fr m' k'; cbn [failure_loop]; [done|]. destruct fr as [|c fr]; [by intros [= <- _]|].
  pose proof (mark_children_dom (children_of idx c) m k fr) as E. destruct (mark_children _ _ _ _) as [[m1 k1] fr1]. cbn in E. intros H%IH. congruence.
Qed.

Lemma RecordFailure_keys h idx n idx' : RecordFailure h idx = Some (n, idx') -> same_keys idx idx'.
Proof.
  unfold RecordFailure. destruct (Find idx h) as [e|] eqn:Ee; [|by intros [= _ <-]]. destruct (negb _); [by intros [= _ <-]|].
  destruct (failure_loop _ _ _ _ _) as [[entries marked]|] eqn:E; [|done]. apply failure_loop_dom in E. cbn [mbind option_bind].
  assert (dom entries = dom (entries_ idx)) as Hdom by (rewrite E; apply dom_insert_lookup_L; by exists e).
  intros [= _ <-]. by destruct (match _ with None => false | Some _ => _ end).
Qed.

Lemma DisconnectTip_moves m s r s' : DisconnectTip m s = Some (r, s') -> moves s s'.
Proof.
  unfold DisconnectTip. destruct (Tip s) as [t|]; [|done]. cbn [mbind option_bind]. destruct (Find _ t) as [e|]; [|done]. cbn [mbind option_bind].
  destruct (ent_parent e); [|by intros [= _ <-]]. destruct (GetBlock _ _) as [b|]; [|by intros [= _ <-]]. destruct (GetUndo _ _) as [u|]; [|by intros [= _ <-]].
  destruct (DisconnectBlock _ _ _) as [[?|?] coins]; [|intros [= _ <-]; by apply moves_same]. destruct (CommitCurrentTip _) as [[ok s1]|] eqn:E; [|done].
  pose proof (CommitCurrentTip_index _ _ _ E) as Ei. apply CommitCurrentTip_observer in E. cbn [mbind option_bind].
  assert (moves s s1) as X by (apply moves_same; [done|by rewrite Ei]).
  destruct (negb ok); intros [= _ <-]; [done|]. eapply moves_trans; [exact X|apply moves_notify].
Qed.

Lemma refuse_moves e err m s r s' : refuse e err m s = Some (r, s') -> moves s s'.
Proof.
  unfold refuse. destruct (StorageHasFault s); [by intros [= _ <-]|]. destruct (RecordFailure _ _) as [[? ?]|] eqn:Ef; [|done]. cbn [mbind option_bind].
  destruct (commit_entry _ _) as [s1|] eqn:E; [|done]. intros [= _ <-]. pose proof (commit_entry_index _ _ _ E) as Ei. apply commit_entry_observer in E.
  apply moves_same; [done|]. rewrite Ei. by apply RecordFailure_keys in Ef.
Qed.

Lemma apply_block_moves e b m s r s' : apply_block params e b m s = Some (r, s') -> moves s s'.
Proof.
  unfold apply_block. destruct (ConnectBlock _ _ _) as [[a|err] coins].
  - destruct (commit_entry _ _) as [s1|] eqn:E1; [|done]. pose proof (commit_entry_index _ _ _ E1) as I1. apply commit_entry_observer in E1. cbn [mbind option_bind].
    destruct (CommitCurrentTip s1) as [[ok s2]|] eqn:E2; [|done]. pose proof (CommitCurrentTip_index _ _ _ E2) as I2. apply CommitCurrentTip_observer in E2.
    cbn [mbind option_bind]. assert (moves s s2) as X by (apply moves_same; [by rewrite E2, E1|rewrite I2, I1; apply RecordValidity_keys]).
    destruct (negb ok); intros [= _ <-]; [done|]. eapply moves_trans; [exact X|apply moves_notify].
  - intros E. apply refuse_moves in E. eapply moves_trans; [|exact E]. by apply moves_same.
Qed.

Lemma ConnectTip_moves h m s r s' : ConnectTip params h m s = Some (r, s') -> moves s s'.
Proof.
  unfold ConnectTip. destruct (Find _ h) as [e|]; [|done]. cbn [mbind option_bind]. destruct (Tip s) as [t|]; [|done]. cbn [mbind option_bind].
  destruct (negb _); [by intros [= _ <-]|]. destruct (GetBlock _ _) as [b|]; [|by intros [= _ <-]].
  destruct (_ <? _); [|apply apply_block_moves]. destruct (CheckBlock b params); [|apply refuse_moves].
  intros E. apply apply_block_moves in E. eapply moves_trans; [|exact E]. apply moves_same; [done|apply RecordValidity_keys].
Qed.

Lemma disconnect_all_moves plan : forall m s r s', disconnect_all plan m s = Some (r, s') -> moves s s'.
Proof.
  induction plan as [|h plan IH]; intros m s r s'; cbn [disconnect_all]; [by intros [= _ <-]|]. destruct (Tip s) as [t|]; [|done]. cbn [mbind option_bind].
  destruct (negb _); [by intros [= _ <-]|]. destruct (DisconnectTip m s) as [[[m1|f] s1]|] eqn:E; [| |done]; cbn [mbind option_bind]; apply DisconnectTip_moves in E.
  - intros E'. apply IH in E'. by eapply moves_trans.
  - by intros [= _ <-].
Qed.

Lemma connect_all_moves plan : forall m s r s', connect_all params plan m s = Some (r, s') -> moves s s'.
Proof.
  induction plan as [|h plan IH]; intros m s r s'; cbn [connect_all]; [by intros [= _ <-]|].
  destruct (ConnectTip params h m s) as [[[[[] m1]|f] s1]|] eqn:E; [| | |done]; cbn [mbind option_bind]; apply ConnectTip_moves in E; try by intros [= _ <-].
  intros E'. apply IH in E'. by eapply moves_trans.
Qed.

Lemma activate_pass_moves m s r s' : activate_pass params m s = Some (r, s') -> moves s s'.
Proof.
  unfold activate_pass, follow_plan. destruct (Tip s) as [t|] eqn:Et; [|done]. cbn [mbind option_bind]. destruct (BestHeader _) as [b|]; [|by intros [= _ <-]].
  destruct (bool_decide _); [by intros [= _ <-]|]. destruct (PlanChainSwitch _ _ _) as [plan|]; [|done]. cbn [mbind option_bind].
  destruct (fork_point plan) as [f|]; [|by intros [= _ <-]]. destruct (Find _ f) as [fe|]; [|done]. cbn [mbind option_bind].
  destruct (negb _); [by intros [= _ <-]|]. destruct (Find _ (attainable _ _)) as [a|]; [|done]. cbn [mbind option_bind].
  destruct (Find _ t) as [te|]; [|done]. cbn [mbind option_bind]. destruct (negb _); [by intros [= _ <-]|].
  destruct (disconnect_all _ _ _) as [[[m1|e1] s1]|] eqn:E1; [| |done]; cbn [mbind option_bind]; apply disconnect_all_moves in E1; [|by intros [= _ <-]].
  destruct (connect_all _ _ _ _) as [[[m2|e2] s2]|] eqn:E2; [| |done]; cbn [mbind option_bind]; apply connect_all_moves in E2; pose proof (moves_trans _ _ _ E1 E2) as X.
  - destruct (Tip s2); [|done]. by intros [= _ <-].
  - by intros [= _ <-].
Qed.

Lemma ActivateBestChain_moves s r s' : ActivateBestChain params s = Some (r, s') -> moves s s'.
Proof.
  unfold ActivateBestChain. destruct (Tip s) as [t|]; [|done]. cbn [mbind option_bind]. generalize (mkSummary t 0 0 [] false). generalize (size (entries_ (index_ s)) + 2)%nat.
  intros fuel. revert s. induction fuel as [|fuel IH]; intros s m; cbn [activate_loop]; [done|].
  destruct (activate_pass params m s) as [[[[m1|m1]|f] s1]|] eqn:E; [| | |done]; cbn [mbind option_bind]; apply activate_pass_moves in E; try by intros [= _ <-].
  intros E'. apply IH in E'. by eapply moves_trans.
Qed.
End traces.

(** ** A reorganisation not yet settled *)

Section pending.
Context `{HO : Mempool.HashOrder} `{SH : Sha256Impl} `{SB : Signature.SignatureBackends} {V D K : Type}.
Context `{CV : CoinsView V} `{BS : BlockStore D} `{CS : ChainSink K V} (params : ChainParams).
Abbreviation State := (ChainState V D K).
Abbreviation World := (PeerManager.Impl PoolKeeper V D K).
Implicit Types (s : State) (k : PoolKeeper) (w : World).

Definition is_disconnect (e : TipEvent) : bool := match e with ChainState.BlockDisconnected _ _ => true | _ => false end.

Lemma events_flag es : forall k, reorganised_ (fold_left (fun k e => on_tip_event e k) es k) = reorganised_ k || existsb is_disconnect es.
Proof.
  induction es as [|e es IH]; intros k; cbn; [by rewrite orb_false_r|]. rewrite IH. destruct e; cbn; [done|by rewrite orb_true_r].
Qed.

(** The keeper, once it has acted on every notification, has a sweep to make. *)
Definition pending s k : Prop := reorganised_ (catch_up s k) = true.

Lemma pending_iff s k : pending s k <-> reorganised_ k || existsb is_disconnect (drop (taken_ k) (trace s)) = true.
Proof. unfold pending, catch_up. cbn. by rewrite events_flag. Qed.

Lemma pending_extends s s' k : extends s s' -> pending s k -> pending s' k.
Proof.
  rewrite !pending_iff. intros [new E]. rewrite E, drop_app, existsb_app, !orb_true_iff. tauto.
Qed.

Definition waits w : Prop := pending (PeerManager.state w) (PeerManager.node w).

(** The handler settles nothing. *)
Definition carries {A} (m : PeerManager.Act A) : Prop := forall w a w' o, m w = Some (a, w', o) -> waits w -> waits w'.

Lemma carries_same {A} (m : PeerManager.Act A) :
  (forall w a w' o, m w = Some (a, w', o) -> PeerManager.state w' = PeerManager.state w /\ PeerManager.node w' = PeerManager.node w) -> carries m.
Proof. intros H w a w' o E. unfold waits. by destruct (H _ _ _ _ E) as [-> ->]. Qed.

Lemma carries_ret {A} (a : A) : carries (mret a).
Proof. apply carries_same. intros w b w' o E. by injection E as _ <- _. Qed.
Lemma carries_bind {A B} (m : PeerManager.Act A) (f : A -> PeerManager.Act B) : carries m -> (forall a, carries (f a)) -> carries (m ≫= f).
Proof.
  intros Hm Hf w b w' o. rewrite PeerManager.bind_step. destruct (m w) as [[[a w1] o1]|] eqn:E1; [|done].
  destruct (f a w1) as [[[b2 w2] o2]|] eqn:E2; [|done]. intros E Hw. injection E as _ <- _. eapply Hf; [exact E2|]. by eapply Hm.
Qed.
Lemma carries_get : carries PeerManager.get.
Proof. apply carries_same. intros w b w' o E. by injection E as _ <- _. Qed.
Lemma carries_emit x : carries (PeerManager.emit x).
Proof. apply carries_same. intros w b w' o E. by injection E as _ <- _. Qed.
Lemma carries_modify (f : World -> World) :
  (forall w, PeerManager.state (f w) = PeerManager.state w /\ PeerManager.node (f w) = PeerManager.node w) -> carries (PeerManager.modify f).
Proof. intros Hf. apply carries_same. intros w b w' o E. injection E as _ <- _. apply Hf. Qed.
Lemma carries_on_conn i f : carries (PeerManager.on_conn i f).
Proof.
  apply carries_same. intros w b w' o. unfold PeerManager.on_conn. destruct (PeerManager.connections w !! i) as [[c r]|]; [|intros E; by injection E as _ <- _].
  destruct (f c). intros E. by injection E as _ <- _.
Qed.
Lemma carries_begin c r f : carries (PeerManager.begin c r f).
Proof. apply carries_same. intros w b w' o. unfold PeerManager.begin. destruct (f c). intros E. by injection E as _ <- _. Qed.
Lemma carries_demand {A} (x : option A) : carries (PeerManager.demand x).
Proof. apply carries_same. intros w b w' o. unfold PeerManager.demand. destruct x; [|done]. intros E. by injection E as _ <- _. Qed.
Lemma carries_on_chain {A} (f : State -> option (A * State)) : (forall s a s', f s = Some (a, s') -> extends s s') -> carries (PeerManager.on_chain f).
Proof.
  intros Hf w a w' o. unfold PeerManager.on_chain. destruct (f (PeerManager.state w)) as [[b s]|] eqn:Ef; [|done]. intros E Hw. injection E as _ <- _.
  unfold waits in *. cbn. eapply pending_extends; [by eapply Hf|done].
Qed.
End pending.

Ltac carries_step :=
  first [ apply carries_ret | apply carries_get | apply carries_emit | apply carries_on_conn | apply carries_demand | apply carries_begin
        | (apply carries_bind; [|intros ?]) | (apply carries_modify; by intros ?)
        | match goal with |- carries (if ?b then _ else _) => destruct b end
        | match goal with |- carries (match ?x with _ => _ end) => destruct x end
        | match goal with |- carries (let '(_, _) := ?x in _) => destruct x end ].

Section network.
Context `{HO : Mempool.HashOrder} `{SH : Sha256Impl} `{SB : Signature.SignatureBackends} {V D K : Type}.
Context `{CV : CoinsView V} `{BS : BlockStore D} `{CS : ChainSink K V} (config : PeerManager.NetConfig) (params : ChainParams).
Abbreviation World := (PeerManager.Impl PoolKeeper V D K).
Abbreviation carries := (carries (V := V) (D := D) (K := K)).
Import PeerManager.

Lemma carries_announce item : carries (announce item).
Proof.
  unfold announce. apply carries_bind; [apply carries_get|]. intros w. generalize 0%nat. induction (length (connections w)) as [|n IH]; intros i; cbn [send_connected];
    [apply carries_ret|]. repeat first [apply IH|carries_step].
Qed.
Lemma carries_AnnounceBlock h : carries (Impl_AnnounceBlock h).
Proof. unfold Impl_AnnounceBlock. repeat first [apply carries_announce|carries_step]. Qed.
Lemma carries_AnnounceTransaction h : carries (Impl_AnnounceTransaction h).
Proof. unfold Impl_AnnounceTransaction. repeat first [apply carries_announce|carries_step]. Qed.
Lemma carries_take_headers hs now : forall l, carries (take_headers config hs now l).
Proof.
  induction hs as [|h hs IH]; intros l; cbn [take_headers]; [apply carries_ret|]. apply carries_bind; [|intros r; repeat first [apply IH|carries_step]].
  apply carries_on_chain. intros s a s' E. apply extends_same. by eapply AcceptHeader_observer.
Qed.
Lemma carries_serve now i l : carries (serve_items (net_hooks params now) i l).
Proof. induction l as [|x l IH]; cbn [serve_items]; [apply carries_ret|]. repeat first [apply IH|carries_step]. Qed.

Lemma carries_tx now i payload : carries (on_tx config (net_hooks params now) i payload).
Proof.
  unfold on_tx. destruct (Parse _ _) as [tx|]; [|apply carries_on_conn]. cbn [accept_transaction net_hooks]. intros w a w' o.
  rewrite bind_step. cbn [get]. destruct (net_accept_transaction params now (state w) tx (node w)) as [ok k] eqn:Ek. rewrite bind_step. cbn [modify].
  assert (waits w -> waits (set_node k w)) as Hk.
  { unfold waits, pending. cbn [state node set_node]. intros Hp. change (pending (state w) k). apply pending_iff.
    assert (reorganised_ k = reorganised_ (catch_up (state w) (node w))) as ->; [|by rewrite Hp].
    revert Ek. unfold net_accept_transaction. destruct (spend_height (state w)); [|by intros [= _ <-]].
    destruct (Mempool.Accept _ _ _ _ _ _) as [[?|?] p]; by intros [= _ <-]. }
  set (rest := if ok then _ else _). assert (carries rest) as Hr by (unfold rest; destruct ok; [apply carries_AnnounceTransaction|apply carries_ret]).
  destruct (rest (set_node k w)) as [[[a2 w2] o2]|] eqn:E2; [|done]. intros E Hw. injection E as _ <- _. eapply Hr; [exact E2|]. by apply Hk.
Qed.

Lemma carries_block now' i payload now : carries (on_block config (net_hooks params now') i payload now).
Proof.
  unfold on_block. destruct (Parse _ _) as [block|]; [|apply carries_on_conn]. apply carries_bind; [apply carries_get|]. intros w.
  apply carries_bind; [apply carries_on_chain; intros s a s' E; apply extends_same; by eapply AcceptBlock_observer|]. intros [h|e]; [|apply carries_on_conn].
  apply carries_bind; [apply carries_on_chain; intros s a s' E; by eapply ActivateBestChain_moves|]. intros [m|f]; [|apply carries_on_conn].
  unfold StartSync. repeat first [apply carries_AnnounceBlock|carries_step].
Qed.

Lemma carries_message now' i command payload now clock : carries (Impl_HandleMessage config (net_hooks params now') i command payload now clock).
Proof.
  unfold Impl_HandleMessage, on_getheaders, on_headers, on_getdata, on_inv, on_getaddr, on_addr, on_ping, on_pong, Score, request_data, Impl_SaveAddresses.
  repeat first [apply carries_take_headers|apply carries_serve|apply carries_block|apply carries_tx|carries_step].
Qed.

Lemma carries_callbacks now' i role now clock fx : carries (callbacks config (net_hooks params now') i role now clock fx).
Proof.
  induction fx as [|e fx IH]; cbn [callbacks]; [apply carries_ret|]. apply carries_bind; [|done]. unfold callback, StartSync, TrafficCallback.
  repeat first [apply carries_message|carries_step].
Qed.

Lemma carries_step_event now' now clock e : carries (net_step config (net_hooks params now') now clock e).
Proof.
  destruct e as [lec|ec remote|ec host port|i e|h|h|]; cbn [net_step].
  - unfold Start. apply carries_bind; [apply carries_get|]. intros w. destruct (started w); [apply carries_ret|]. apply carries_bind; [by apply carries_modify|].
    intros _. apply carries_bind; [destruct (_ && _); carries_step|]. intros _. generalize (cfg_connect config). induction (Z.to_nat (max_outbound config)) as [|n IH];
      intros [|peer peers]; cbn [dial]; try apply carries_ret. repeat first [apply IH|carries_step].
  - unfold OnAccept, IsBanned. repeat carries_step.
  - unfold OnReconnect. repeat carries_step.
  - intros w a w' o. unfold on_completion. destruct (connections w !! i) as [[c role]|]; [|intros E; by injection E as _ <- _].
    destruct (complete e c) as [c' fx]. intros E Hw. by eapply carries_callbacks.
  - unfold AnnounceBlock. repeat first [apply carries_AnnounceBlock|carries_step].
  - unfold AnnounceTransaction. repeat first [apply carries_AnnounceTransaction|carries_step].
  - unfold Stop. repeat carries_step.
Qed.
End network.

(** ** The pool as the chain moves *)

Section upkeep.
Context `{HO : Mempool.HashOrder} `{SH : Sha256Impl} `{SB : Signature.SignatureBackends} {V D K : Type}.
Context `{CV : CoinsView V} `{!LawfulView V} `{BS : BlockStore D} `{!LawfulStore D} `{CS : ChainSink K V} `{!LawfulSink K V}.
Context (params : ChainParams) (f0 : Ledger).
Abbreviation State := (ChainState V D K).
Implicit Types (s : State) (k : PoolKeeper).

Lemma events_kept fresh es : forall k, kept fresh (pool_ k) -> kept fresh (pool_ (fold_left (fun k e => on_tip_event e k) es k)).
Proof.
  induction es as [|e es IH]; intros k S; cbn; [done|]. apply IH. destruct e as [b h|b h]; cbn; [|done].
  destruct (RemoveForBlock_spec b (pool_ k) (co_inv _ (proj1 S))) as [L _]. by eapply leaner_kept.
Qed.

Lemma catch_up_kept fresh s k : kept fresh (pool_ k) -> kept fresh (pool_ (catch_up s k)).
Proof. intros S. cbn. by apply events_kept. Qed.

(** The chain stands, or the sink has just refused a tip. *)
Definition stands s : Prop :=
  runs params f0 s \/ exists s0 f, runs params f0 s0 /\ ActivateBestChain params s0 = Some (ChainState.Stop f, s) /\ fail_error f = CommitFailed.

Lemma tip_found s : runs params f0 s -> exists t e, Tip s = Some t /\ Find (index_ s) t = Some e.
Proof. intros R%runs_in_step. destruct (in_step_tip _ _ _ R) as (t & e & _ & Ht & E & _). eauto. Qed.

Lemma Advance_total s k : runs params f0 s -> exists ok s' k', Advance params s k = Some (ok, s', k') /\ stands s' /\
  (ok = true -> runs params f0 s' /\ reorganised_ k' = false /\ (forall fresh, kept fresh (pool_ k) -> kept fresh (pool_ k')) /\
    (pending s' k -> kept true (pool_ k) -> exists h, spend_height s' = Some h /\
      forall w, is_Some (Mempool.entries_ (pool_ k') !! w) -> good (coins_ s') h params (pool_ k') w)).
Proof.
  intros R. unfold Advance. destruct (ActivateBestChain_spec params f0 s (runs_in_step _ _ _ R)) as (m0 & r & s' & _ & E & _ & O). rewrite E. cbn [mbind option_bind].
  destruct r as [m|f].
  - pose proof (run_activate _ _ s m s' R E) as R'. destruct (tip_found s' R') as (t & e & Ht & Et).
    unfold Settle. destruct (reorganised_ (catch_up s' k)) eqn:Er; cbn [negb].
    + unfold spend_height at 1. rewrite Ht. cbn [mbind option_bind]. rewrite Et. cbn [mbind option_bind]. set (h := if _ <? _ then _ else _).
      assert (spend_height s' = Some h) as Eh by (unfold spend_height; rewrite Ht; cbn [mbind option_bind]; by rewrite Et).
      eexists true, s', _. split; [reflexivity|]. split; [by left|]. intros _. split_and!; [done|done| |].
      * intros fresh S%(catch_up_kept fresh s'). eapply leaner_kept; [exact S|]. apply reorg_loop_leaner, S.
      * intros _ [S C]%(catch_up_kept true s'). exists h. split; [done|]. intros w Hw. cbn in *.
        destruct (RemoveForReorg_spec (coins_ s') h params _ (co_inv _ S) (C eq_refl)) as (_ & _ & G). by apply G.
    + cbn [mbind option_bind]. eexists true, s', _. split; [reflexivity|]. split; [by left|]. intros _. split_and!; [done|done|intros fresh; apply catch_up_kept|].
      unfold pending. congruence.
  - eexists false, s', _. split; [reflexivity|]. split; [|done]. destruct O as [_ [Hf|[Hf _]]].
    + right. by exists s, f.
    + left. apply (run_faulted _ _ s f s' R E). congruence.
Qed.

(** ** Block files *)

Lemma framing_split (file : bytes) : BLOCK_RECORD_FRAMING_SIZE <= zlen file ->
  exists m l rest, file = m ++ l ++ rest /\ length m = 4%nat /\ length l = 4%nat.
Proof.
  intros Hb. exists (take 4 file), (take 4 (drop 4 file)), (drop 8 file). unfold BLOCK_RECORD_FRAMING_SIZE, zlen in Hb.
  split_and!; [|rewrite length_take; lia|rewrite length_take, length_drop; lia].
  rewrite <- (take_drop 4 file) at 1. f_equal. rewrite <- (take_drop 4 (drop 4 file)) at 1. by rewrite drop_drop.
Qed.

Lemma read_record_fields m l rest : length m = 4%nat -> length l = 4%nat ->
  read_record params (m ++ l ++ rest) =
  if negb (bool_decide (m = magic params)) then BadRecord
  else if (le_combine l =? 0) || (max_block_weight params <? le_combine l) then BadRecord
  else if zlen rest <? le_combine l then BadRecord
  else match Parse (Block_Deserialize (block_limits params)) (take (Z.to_nat (le_combine l)) rest) with
       | None => BadRecord
       | Some block => BlockRecord block (drop (Z.to_nat (le_combine l)) rest)
       end.
Proof.
  intros Hm Hl. do 4 (destruct m as [|? m]; [done|]). destruct m; [|done]. do 4 (destruct l as [|? l]; [done|]). destruct l; [|done].
  cbn [app]. unfold read_record. rewrite (proj2 (Z.ltb_ge _ _)) by (rewrite !zlen_cons; pose proof (zlen_nonneg rest); unfold BLOCK_RECORD_FRAMING_SIZE; lia).
  change (take (Z.to_nat BLOCK_RECORD_FRAMING_SIZE) _) with [b; b0; b1; b2; b3; b4; b5; b6].
  change (ReadBytes 4 _) with (Some [b; b0; b1; b2], mkReader [b; b0; b1; b2; b3; b4; b5; b6] 4 true). cbv beta iota.
  change (ReadU32 _) with (Some (le_combine [b3; b4; b5; b6]), mkReader [b; b0; b1; b2; b3; b4; b5; b6] 8 true). cbv beta iota.
  change (fst (Finish _)) with true. cbv iota. reflexivity.
Qed.

Lemma block_record_fields block : block_record params block =
  magic params ++ le_split 4 (wrapu 32 (zlen (encode Block_Serialize block))) ++ encode Block_Serialize block.
Proof. unfold block_record, WriteBytes, WriteU32, AppendLittleEndian, new_Writer. by rewrite app_nil_l, <- !app_assoc. Qed.

(** A block a record can carry. *)
Definition storable (block : Block) : Prop :=
  Block_ok (block_limits params) block /\ 0 < zlen (encode Block_Serialize block) <= max_block_weight params.

Hypothesis (Hm : zlen (magic params) = 4) (Hl : BlockLimits_ok (block_limits params)) (Hw : max_block_weight params < 2 ^ 32).

Lemma read_written block rest : storable block -> read_record params (block_record params block ++ rest) = BlockRecord block rest.
Proof.
  intros [Hb Hs]. rewrite block_record_fields, <- !app_assoc. rewrite wrapu_small by lia.
  rewrite read_record_fields by (apply length_le_split || (unfold zlen in Hm; lia)). rewrite bool_decide_true by done. cbn [negb].
  rewrite le_combine_le_split by lia. rewrite (proj2 (Z.eqb_neq _ _)), (proj2 (Z.ltb_ge _ _)) by lia. cbn [orb].
  rewrite (proj2 (Z.ltb_ge _ _)) by (rewrite zlen_app; pose proof (zlen_nonneg rest); lia).
  replace (Z.to_nat (zlen (encode Block_Serialize block))) with (length (encode Block_Serialize block)) by (unfold zlen; lia).
  rewrite take_app_length, drop_app_length. by rewrite (proj2 (codec_parse _ _ _ (codec_Block _ Hl) (encode Block_Serialize block) block ltac:(lia)) (conj Hb eq_refl)).
Qed.

(** What a record that reads as a block is. *)
Lemma read_record_block file block rest : read_record params file = BlockRecord block rest ->
  Block_ok (block_limits params) block /\ (length rest < length file)%nat.
Proof.
  destruct (Z.lt_ge_cases (zlen file) BLOCK_RECORD_FRAMING_SIZE) as [Hs|Hs].
  { unfold read_record. destruct file; [done|]. by rewrite (proj2 (Z.ltb_lt _ _) Hs). }
  destruct (framing_split file Hs) as (m & l & tail & -> & H1 & H2). rewrite read_record_fields by done. destruct (negb _); [done|].
  pose proof (le_combine_range l). destruct (Z.eqb_spec (le_combine l) 0); [done|]. destruct (Z.ltb_spec (max_block_weight params) (le_combine l)); [done|]. cbn [orb].
  destruct (Z.ltb_spec (zlen tail) (le_combine l)); [done|]. destruct (Parse _ _) as [b|] eqn:E; [|done]. intros [= <- <-].
  apply (codec_parse _ _ _ (codec_Block _ Hl)) in E as [Hb _]; [|unfold zlen in *; rewrite length_take; lia].
  split; [done|]. rewrite !length_app, length_drop. lia.
Qed.
(** The blocks of a chain above genesis. *)
Definition chain_bodies s : list Block := omap (GetBlock (store_ s)) (tail (chain_ s)).

Lemma applied_bodies store chain f : applied params f0 store chain f -> Forall (fun h => is_Some (GetBlock store h)) (tail chain).
Proof.
  induction 1 as [g f _|chain h block r f f' A IH B _ _]; [constructor|]. destruct chain as [|g chain].
  - cbn. constructor.
  - cbn in *. apply Forall_app. split; [done|]. constructor; [by rewrite B|constructor].
Qed.

Lemma export_loop_spec s : forall n i out, Forall (fun h => is_Some (GetBlock (store_ s) h)) (drop i (chain_ s)) ->
  (length (chain_ s) - i <= n)%nat ->
  export_loop params n s (Z.of_nat i) out = (true, out ++ concat (map (block_record params) (omap (GetBlock (store_ s)) (drop i (chain_ s))))).
Proof.
  induction n as [|n IH]; intros i out F Hn; cbn [export_loop]; [rewrite drop_ge by lia; cbn; by rewrite app_nil_r|].
  unfold AtHeight, zlen. destruct (Z.leb_spec (Z.of_nat (length (chain_ s))) (Z.of_nat i)); [rewrite drop_ge by lia; cbn; by rewrite app_nil_r|].
  rewrite Nat2Z.id. destruct (lookup_lt_is_Some_2 (chain_ s) i ltac:(lia)) as [h Hh]. rewrite Hh. rewrite (drop_S _ _ _ Hh) in F |- *.
  apply Forall_cons_1 in F as [[b Eb] F]. rewrite Eb. replace (Z.of_nat i + 1) with (Z.of_nat (S i)) by lia. rewrite IH by (done || lia).
  cbn [omap list_omap]. rewrite Eb. cbn [map concat]. by rewrite <- app_assoc.
Qed.

Lemma export_spec s : runs params f0 s -> ExportBlocks params s = (true, concat (map (block_record params) (chain_bodies s))).
Proof.
  intros R%runs_in_step. pose proof (applied_bodies _ _ _ (is_coins _ _ _ R)) as F. unfold ExportBlocks, chain_bodies.
  change 1 with (Z.of_nat 1). assert (drop 1 (chain_ s) = tail (chain_ s)) as Ed by (by destruct (chain_ s)).
  rewrite (export_loop_spec s (length (chain_ s)) 1 []) by (rewrite ?Ed; done || lia). by rewrite Ed.
Qed.

(** Offering blocks in order, and counting. *)
Fixpoint offer_all (blocks : list Block) (now : Z) (r : Imported) s : option (Imported * State) :=
  match blocks with
  | [] => Some (r, s)
  | block :: blocks =>
      '(accepted, s) ← AcceptBlock params block now s;
      offer_all blocks now
        (mkImported (import_ok r) (offered r + 1) (refused r + match accepted with Found _ => 0 | Refused _ => 1 end)) s
  end.

Lemma import_written blocks : forall n now r s, Forall storable blocks -> (length blocks < n)%nat ->
  import_loop params n (concat (map (block_record params) blocks)) now r s = offer_all blocks now r s.
Proof.
  induction blocks as [|b blocks IH]; intros n now r s F Hn; (destruct n as [|n]; [lia|]); [done|].
  apply Forall_cons_1 in F as [Hb F]. cbn [import_loop map concat offer_all]. rewrite read_written by done.
  destruct (AcceptBlock params b now s) as [[a s1]|]; [|done]. cbn [mbind option_bind]. apply IH; [done|cbn in Hn; lia].
Qed.

Lemma records_long blocks : Forall storable blocks -> (length blocks <= length (concat (map (block_record params) blocks)))%nat.
Proof.
  induction 1 as [|b blocks [_ Hb] _ IH]; [done|]. cbn [map concat length]. rewrite length_app, block_record_fields, !length_app.
  unfold zlen in Hb. lia.
Qed.

(** *** Every operation returns, and keeps the chain *)

Lemma AcceptBlock_Size block now s r s' : index_inv (index_ s) -> u32 (hdr_target_bits (blk_header block)) -> Size (index_ s) < 2 ^ 64 - 1 ->
  AcceptBlock params block now s = Some (r, s') -> Size (index_ s') <= Size (index_ s) + 1.
Proof.
  intros I Hb Hs. pose proof (PeerManager.AddHeader_Size (blk_header block) now params (index_ s) I) as HS.
  pose proof (AddHeader_inv (blk_header block) now params (index_ s) I Hb Hs) as I1. unfold AcceptBlock.
  destruct (AddHeader _ _ _ _) as [[h|e] idx]; cbn [snd] in HS, I1; [|by intros [= _ <-]].
  cbn [index_ with_index]. destruct (Find idx h); [|done]. cbn [mbind option_bind]. destruct (negb _); [by intros [= _ <-]|].
  destruct (HaveBlock _ _); [by intros [= _ <-]|]. destruct (CheckBlock _ _).
  - destruct (commit_entry _ _) as [s1|] eqn:E; [|done]. intros [= _ <-]. apply commit_entry_index in E. rewrite E. cbn [index_ with_index with_store].
    destruct (RecordValidity_inv h VBody idx I1) as (_ & T & _). rewrite (same_tree_size _ _ T). done.
  - destruct (RecordFailure_spec h idx I1) as (n & idx' & Ef & _ & T & _). rewrite Ef. cbn [mbind option_bind].
    destruct (commit_entry _ _) as [s1|] eqn:E; [|done]. intros [= _ <-]. apply commit_entry_index in E. rewrite E. cbn [index_ with_index]. by rewrite (same_tree_size _ _ T).
Qed.

Lemma activate_Size s r s' : index_inv (index_ s) -> index_inv (index_ s') -> ActivateBestChain params s = Some (r, s') -> Size (index_ s') = Size (index_ s).
Proof.
  intros I I' E. apply ActivateBestChain_moves in E as [_ [E _]].
  by rewrite <- (BlockIndex.inv_next _ I), <- (BlockIndex.inv_next _ I').
Qed.

Lemma import_loop_total n : forall file now r s, runs params f0 s -> Size (index_ s) + zlen file < 2 ^ 64 - 1 ->
  exists r' s', import_loop params n file now r s = Some (r', s') /\ runs params f0 s'.
Proof.
  induction n as [|n IH]; intros file now r s R Hs; cbn [import_loop]; [eauto|].
  destruct (read_record params file) as [|block rest|] eqn:E; [eauto| |eauto]. apply read_record_block in E as [Hb Hr].
  assert (u32 (hdr_target_bits (blk_header block))) as Hbits by apply Hb. pose proof (runs_in_step _ _ _ R) as I. unfold zlen in *.
  destruct (AcceptBlock_spec params f0 block now s I Hbits ltac:(lia)) as (a & s1 & E1 & _). rewrite E1. cbn [mbind option_bind].
  pose proof (AcceptBlock_Size _ _ _ _ _ (is_index _ _ _ I) Hbits ltac:(lia) E1). pose proof (run_block _ _ block now s a s1 R Hbits ltac:(lia) E1) as R1.
  apply IH; [done|]. lia.
Qed.

Lemma ImportBlocks_total file now s k : runs params f0 s -> Size (index_ s) + zlen file < 2 ^ 64 - 1 ->
  exists ok s' k', ImportBlocks params file now s k = Some (ok, s', k') /\ stands s'.
Proof.
  intros R Hs. unfold ImportBlocks. destruct (import_loop_total (S (length file)) file now (mkImported true 0 0) s R Hs) as (r & s1 & -> & R1).
  cbn [mbind option_bind]. destruct (offered r =? 0); [eexists _, s1, k; split; [done|by left]|].
  destruct (Advance_total s1 k R1) as (ok & s2 & k2 & -> & C & _). cbn [mbind option_bind]. destruct ok; by eexists _, s2, k2.
Qed.

Lemma solve_loop_bits n : forall header target, hdr_target_bits (solve_loop n header target).2 = hdr_target_bits header.
Proof.
  induction n as [|n IH]; intros header target; cbn [solve_loop]; [done|]. destruct (Target.HashMeetsTarget _ _); [done|]. destruct (_ =? _); [done|].
  by rewrite IH.
Qed.
End upkeep.

(** ** Mining *)

Section mining.
Context `{HO : Mempool.HashOrder} `{SH : Sha256Impl} `{SB : Signature.SignatureBackends} {V D K : Type}.
Context `{CV : CoinsView V} `{!LawfulView V} `{BS : BlockStore D} `{!LawfulStore D} `{CS : ChainSink K V} `{!LawfulSink K V}.
Context (net : Network) (f0 : Ledger).
Abbreviation params := (ParamsFor net).
Abbreviation State := (ChainState V D K).
Implicit Types (s : State) (k : PoolKeeper).

Lemma generate_one_total payout attempts now s k : runs params f0 s -> Size (index_ s) < 2 ^ 64 - 1 ->
  exists ok s' k', generate_one params payout attempts now s k = Some (ok, s', k') /\ stands params f0 s' /\
    (ok = true -> runs params f0 s' /\ Size (index_ s') <= Size (index_ s) + 1).
Proof.
  intros R Hs. unfold generate_one. destruct (tip_found params f0 s R) as (t & e & Ht & Et). rewrite Ht. cbn [mbind option_bind]. rewrite Et. cbn [mbind option_bind].
  destruct (BuildBlockTemplate_answers net (index_ s) e payout now [] (Some (pool_ k))) as (r & Er & _). rewrite Er. cbn [mbind option_bind].
  destruct r as [err|tm]; [eexists false, s, k; split_and!; [done|by left|done]|].
  apply BuildBlockTemplate_inr in Er as [selected A]. pose proof (solve_loop_bits (Z.to_nat attempts) (blk_header (tmpl_block tm)) (tmpl_target tm)) as Hbits.
  unfold SolveHeader. destruct (solve_loop _ _ _) as [found header]. cbn [snd] in Hbits.
  destruct found; cbn [negb]; [|eexists false, s, k; split_and!; [done|by left|done]].
  assert (u32 (hdr_target_bits (blk_header (mkBlock header (blk_transactions (tmpl_block tm)))))) as Hb.
  { cbn [blk_header]. rewrite Hbits, (as_bits _ _ _ _ _ _ _ _ _ A). by destruct (NextTargetBitsAt_usable net e (hdr_timestamp (blk_header (tmpl_block tm)))) as (? & ? & ? & _). }
  pose proof (runs_in_step _ _ _ R) as I.
  destruct (AcceptBlock_spec params f0 (mkBlock header (blk_transactions (tmpl_block tm))) now s I Hb Hs) as (a & s1 & E1 & _). rewrite E1. cbn [mbind option_bind].
  pose proof (run_block _ _ _ now s a s1 R Hb Hs E1) as R1. pose proof (AcceptBlock_Size params _ _ _ _ _ (is_index _ _ _ I) Hb Hs E1) as S1.
  destruct a as [h|err]; [|eexists false, s1, k; split_and!; [done|by left|done]].
  destruct (Advance_total params f0 s1 k R1) as (ok & s2 & k2 & E2 & C & Hok). exists ok, s2, k2. split_and!; [done|done|]. intros ->.
  destruct (Hok eq_refl) as (R2 & _). split; [done|]. unfold Advance in E2.
  destruct (ActivateBestChain params s1) as [[r s3]|] eqn:E3; [|done]. cbn [mbind option_bind] in E2.
  assert (s3 = s2) as -> by (destruct r; [destruct (Settle _ _ _); [|done]|]; by injection E2).
  rewrite (activate_Size params s1 r s2 (is_index _ _ _ (runs_in_step _ _ _ R1)) (is_index _ _ _ (runs_in_step _ _ _ R2)) E3). done.
Qed.

Lemma GenerateBlocks_total payout attempts times : forall s k, runs params f0 s -> Size (index_ s) + zlen times < 2 ^ 64 - 1 ->
  exists ok s' k', GenerateBlocks params payout attempts times s k = Some (ok, s', k') /\ stands params f0 s'.
Proof.
  induction times as [|now times IH]; intros s k R Hs; cbn [GenerateBlocks]; [eexists true, s, k; split; [done|by left]|].
  rewrite zlen_cons in Hs. pose proof (zlen_nonneg times).
  destruct (generate_one_total payout attempts now s k R ltac:(lia)) as (ok & s1 & k1 & -> & C & Hok). cbn [mbind option_bind].
  destruct ok; [|by eexists false, s1, k1]. destruct (Hok eq_refl) as [R1 S1]. apply IH; [done|lia].
Qed.
End mining.

(** ** Samples *)

(** A chain that will leave its branch of two for one of three. *)
Definition reorg_ready : ChainState EmptyCoinsView MemoryBlockStore NullSink :=
  ChainState.offer block_c3 (ChainState.offer block_c2 (ChainState.offer block_c1 (ObserveWith short_state))).
Definition reorged : ChainState EmptyCoinsView MemoryBlockStore NullSink := activate reorg_ready.
Definition sample_keeper : PoolKeeper := mkKeeper pool_two false 0.

Lemma reorg_ready_runs : runs (SH := toy_Sha256Impl) (SB := picky_backends) REGTEST_PARAMS (fun _ => None) reorg_ready.
Proof.
  do 3 (apply offer_runs; [|apply sample_bits|vm_compute; done]). apply run_observe, short_runs.
Qed.

(** The blocks of the sample chain fit in a file: they parse from their encodings. *)
Lemma sample_storable : Forall (storable REGTEST_PARAMS) (chain_bodies short_state).
Proof.
  assert (chain_bodies short_state = [block_a1; block_a2]) as -> by (vm_compute; reflexivity).
  assert (BlockLimits_ok (block_limits REGTEST_PARAMS)) as L by (vm_compute; intuition congruence).
  assert (forall b, Parse (Block_Deserialize (block_limits REGTEST_PARAMS)) (encode Block_Serialize b) = Some b ->
    0 < zlen (encode Block_Serialize b) <= 1000 -> storable REGTEST_PARAMS b) as Ht.
  { intros b P Hs. apply (codec_parse _ _ _ (codec_Block _ L)) in P as [P _]; [|lia]. split; [done|].
    change (max_block_weight REGTEST_PARAMS) with 2000000. lia. }
  constructor; [|constructor; [|constructor]]; (apply Ht; [vm_compute; reflexivity|vm_compute; intuition congruence]).
Qed.

(** The sample reorganises: two blocks reversed, three applied. *)
Example reorged_trace : map is_disconnect (trace reorged) = [true; true; false; false; false].
Proof. vm_compute. reflexivity. Qed.

(** ** The theorems *)

(** C25: Advancing the chain keeps the pool as good as it was.  From any state a node
    reaches it returns; when it reports success the chain is one a node reaches, nothing
    is left to settle, and a pool that was consistent (with, if [fresh], every link it can
    have: what its calls give it, see [MempoolInv.pool_stays_sound]) still is.  If any block
    was reversed since the keeper last settled, then every transaction left in a pool
    with all its links holds against the coins of the new tip at the height after it. *)
Theorem advance_settles_pool `{Mempool.HashOrder} `{Sha256Impl} `{Signature.SignatureBackends} {V D K} `{CoinsView V} `{!LawfulView V}
    `{BlockStore D} `{!LawfulStore D} `{ChainSink K V} `{!LawfulSink K V} (params : ChainParams) (f0 : Ledger)
    (s : ChainState V D K) (k : PoolKeeper) (fresh : bool) (R : runs params f0 s) (S : kept fresh (pool_ k)) :
  exists ok s' k', Advance params s k = Some (ok, s', k') /\
    (ok = true -> runs params f0 s' /\ ~ reorganised_ k' = true /\ kept fresh (pool_ k') /\
      (fresh = true -> pending s' k -> exists h, spend_height s' = Some h /\
        forall w, is_Some (Mempool.entries_ (pool_ k') !! w) -> good (coins_ s') h params (pool_ k') w)).
Proof.
  destruct (Advance_total params f0 s k R) as (ok & s' & k' & E & _ & Hok). exists ok, s', k'. split; [done|]. intros ->.
  destruct (Hok eq_refl) as (R' & Er & S' & G). split_and!; [done|by rewrite Er|by apply S'|]. intros -> P. by apply G.
Qed.

(** Three blocks replace two, under a pool of two transactions. *)
Lemma advance_settles_pool_witness :
  exists s' k', Advance (HO := sorted_order) (SH := toy_Sha256Impl) (SB := picky_backends) REGTEST_PARAMS reorg_ready sample_keeper = Some (true, s', k') /\
    length (chain_ s') = 4%nat /\ pending (HO := sorted_order) (SH := toy_Sha256Impl) s' sample_keeper /\ ~ reorganised_ k' = true /\
    kept (SH := toy_Sha256Impl) (HO := sorted_order) true (pool_ k') /\
    exists h, spend_height s' = Some h /\ forall w, is_Some (Mempool.entries_ (pool_ k') !! w) ->
      good (SH := toy_Sha256Impl) (SB := picky_backends) (coins_ s') h REGTEST_PARAMS (pool_ k') w.
Proof.
  destruct (advance_settles_pool (H := sorted_order) (H0 := toy_Sha256Impl) (H1 := picky_backends) REGTEST_PARAMS (fun _ => None) reorg_ready sample_keeper true
    reorg_ready_runs (pool_steps_kept _ _ pool_two_reached)) as (ok & s' & k' & E & Hok).
  assert (match Advance (HO := sorted_order) (SH := toy_Sha256Impl) (SB := picky_backends) REGTEST_PARAMS reorg_ready sample_keeper with
    | Some (ok, s, k) => (ok, length (chain_ s), reorganised_ (catch_up (HO := sorted_order) (SH := toy_Sha256Impl) s sample_keeper)) | None => (false, 0%nat, false) end
    = (true, 4%nat, true)) as C by (vm_compute; reflexivity).
  rewrite E in C. injection C as Eo El Ep. subst ok. destruct (Hok eq_refl) as (_ & Hr & Hk & G). exists s', k'.
  split; [exact E|]. split; [exact El|]. split; [exact Ep|]. split; [exact Hr|]. split; [exact Hk|]. exact (G eq_refl Ep).
Defined.

(** The network never settles the pool.  When blocks have been reversed, as they are
    when a peer's block makes the chain change branch, then no network event whatever (a
    block, a transaction, anything) runs the sweep: the keeper still has it to make.  Only
    [Advance] makes it, and the network does not call it. *)
Theorem network_never_settles `{Mempool.HashOrder} `{Sha256Impl} `{Signature.SignatureBackends} {V D K} `{CoinsView V}
    `{BlockStore D} `{ChainSink K V} (config : PeerManager.NetConfig) (params : ChainParams) (unix now clock : Z)
    (e : PeerManager.NetEvent) (w w' : PeerManager.Impl PoolKeeper V D K) (o : list PeerManager.Output)
    (E : PeerManager.net_step config (net_hooks params unix) now clock e w = Some (tt, w', o))
    (P : pending (PeerManager.state w) (PeerManager.node w)) :
  pending (PeerManager.state w') (PeerManager.node w') /\
  (forall s k s' k', Advance params s k = Some (true, s', k') -> ~ pending s' k').
Proof.
  split; [by eapply carries_step_event|]. intros s k s' k'. unfold Advance. destruct (ActivateBestChain params s) as [[[m|f] s1]|]; [| |done]; cbn [mbind option_bind]; [|done].
  unfold Settle. assert (forall k1, reorganised_ k1 = false -> taken_ k1 = length (trace s1) -> ~ pending s1 k1) as Hn.
  { intros k1 E1 E2. rewrite pending_iff, E1, E2, drop_all. cbn. done. }
  destruct (reorganised_ (catch_up s1 k)) eqn:Er; cbn [negb mbind option_bind].
  - destruct (spend_height s1); [|done]. cbn [mbind option_bind]. intros [= <- <-]. by apply Hn.
  - intros [= <- <-]. by apply Hn.
Qed.

Definition reorged_world : PeerManager.Impl PoolKeeper EmptyCoinsView MemoryBlockStore NullSink :=
  PeerManager.new_Impl (PeerManager.sample_config 32 8) reorged sample_keeper 7 "".

Lemma network_never_settles_witness :
  exists w' o, PeerManager.net_step (H := toy_Sha256Impl) (H0 := picky_backends) (PeerManager.sample_config 32 8)
    (net_hooks (HO := sorted_order) (SH := toy_Sha256Impl) (SB := picky_backends) REGTEST_PARAMS 0) 0 0 (PeerManager.EvAccept false None) reorged_world = Some (tt, w', o) /\
    pending (HO := sorted_order) (SH := toy_Sha256Impl) (PeerManager.state w') (PeerManager.node w').
Proof.
  eexists _, _. split; [reflexivity|].
  eapply (network_never_settles (H := sorted_order) (H0 := toy_Sha256Impl) (H1 := picky_backends) (PeerManager.sample_config 32 8) REGTEST_PARAMS 0 0 0
    (PeerManager.EvAccept false None) reorged_world); [reflexivity|].
  apply pending_iff. vm_compute. reflexivity.
Defined.

(** A block file carries a chain across.  What a node writes is one record for each
    block of its chain above genesis, in order; reading that file, a node of the same
    network with any chain of its own offers itself exactly those blocks, in that order,
    and finds the end of the file and nothing wrong. *)
Theorem block_file_roundtrip `{Sha256Impl} `{Signature.SignatureBackends} {V D K} `{CoinsView V} `{!LawfulView V}
    `{BlockStore D} `{!LawfulStore D} `{ChainSink K V} `{!LawfulSink K V} (params : ChainParams) (f0 : Ledger) (s : ChainState V D K)
    (R : runs params f0 s) (Hm : zlen (magic params) = 4) (Hl : BlockLimits_ok (block_limits params)) (Hw : max_block_weight params < 2 ^ 32)
    (F : Forall (storable params) (chain_bodies s)) :
  let '(ok, file) := ExportBlocks params s in
  ok = true /\ length (chain_bodies s) = pred (length (chain_ s)) /\
  forall now (t : ChainState V D K), import_loop params (S (length file)) file now (mkImported true 0 0) t =
    offer_all params (chain_bodies s) now (mkImported true 0 0) t.
Proof.
  rewrite (export_spec params f0 s R). split_and!; [done| |].
  - apply runs_in_step in R. pose proof (applied_bodies _ _ _ _ _ (is_coins _ _ _ R)) as B. unfold chain_bodies.
    destruct (chain_ s) as [|g chain]; [done|]. cbn in *. clear -B. induction B as [|h chain [b E] _ IH]; [done|]. cbn. rewrite E. cbn. by rewrite IH.
  - intros now t. apply import_written; [done..|]. pose proof (records_long params _ F). lia.
Qed.

Lemma block_file_roundtrip_witness :
  let '(ok, file) := ExportBlocks REGTEST_PARAMS short_state in
  ok = true /\ length (chain_bodies short_state) = pred (length (chain_ short_state)).
Proof.
  pose proof (block_file_roundtrip (H := toy_Sha256Impl) (H0 := picky_backends) REGTEST_PARAMS (fun _ => None) short_state short_runs eq_refl) as T.
  destruct (ExportBlocks REGTEST_PARAMS short_state) as [ok file].
  destruct T as (E1 & E2 & _); [vm_compute; intuition congruence|vm_compute; reflexivity|exact sample_storable|exact (conj E1 E2)].
Defined.

(** C16: Nothing the daemon does with its chain is undefined or harms it.  Advancing,
    importing any file at all, and mining any number of blocks return from every state a
    node reaches, and leave such a state again; the one exception is the state after a
    storage sink refused a tip. *)
Theorem daemon_keeps_chain `{Mempool.HashOrder} `{Sha256Impl} `{Signature.SignatureBackends} {V D K} `{CoinsView V} `{!LawfulView V}
    `{BlockStore D} `{!LawfulStore D} `{ChainSink K V} `{!LawfulSink K V} (net : Network) (f0 : Ledger)
    (s : ChainState V D K) (k : PoolKeeper) (file : bytes) (now : Z) (payout : Lock) (attempts : Z) (times : list Z)
    (R : runs (ParamsFor net) f0 s) (L : BlockLimits_ok (block_limits (ParamsFor net))) (W : max_block_weight (ParamsFor net) < 2 ^ 32)
    (S1 : Size (index_ s) + zlen file < 2 ^ 64 - 1) (S2 : Size (index_ s) + zlen times < 2 ^ 64 - 1) :
  (exists ok s' k', Advance (ParamsFor net) s k = Some (ok, s', k') /\ stands (ParamsFor net) f0 s') /\
  (exists ok s' k', ImportBlocks (ParamsFor net) file now s k = Some (ok, s', k') /\ stands (ParamsFor net) f0 s') /\
  (exists ok s' k', GenerateBlocks (ParamsFor net) payout attempts times s k = Some (ok, s', k') /\ stands (ParamsFor net) f0 s').
Proof.
  split_and!.
  - destruct (Advance_total (ParamsFor net) f0 s k R) as (ok & s' & k' & E & C & _). by exists ok, s', k'.
  - by apply ImportBlocks_total.
  - by apply GenerateBlocks_total.
Qed.

Lemma daemon_keeps_chain_witness :
  exists ok s' k', GenerateBlocks (HO := sorted_order) (SH := toy_Sha256Impl) (SB := picky_backends) REGTEST_PARAMS (mkLock 1 []) 1 [sample_now] short_state
    sample_keeper = Some (ok, s', k') /\ stands (SH := toy_Sha256Impl) (SB := picky_backends) REGTEST_PARAMS (fun _ => None) s'.
Proof.
  destruct (daemon_keeps_chain (H := sorted_order) (H0 := toy_Sha256Impl) (H1 := picky_backends) Regtest (fun _ => None) short_state sample_keeper [] 0 (mkLock 1 []) 1
    [sample_now] short_runs) as (_ & _ & G).
  - vm_compute. intuition congruence.
  - vm_compute. reflexivity.
  - vm_compute. reflexivity.
  - vm_compute. reflexivity.
  - exact G.
Defined.
End Daemon.
