(* ===== verification/ChainDb.v ===== *)
(** * The chain database (storage/chain_db.hpp, src/storage/chain_db.cpp)

    The node's state on disk: coins, block bodies, undo records, the header tree and
    the tip, in the column families of one key-value store.  The store is RocksDB, which
    is not in the repository: the class [RocksDB] has the calls the code makes of it and
    [LawfulRocks] what its documentation promises, over the store's contents.  A call can
    fail at any time; a failed write is applied whole or not at all, and nobody knows
    which.

    A database is one object that a node uses as its coins view, block store and sink at
    once, so every operation here, reads included, takes the whole of it and gives it
    back: reads latch [faulted]. *)

From Stdlib Require Import String.
From S2P Require Import Prelude Overflow Serialize Hex Crypto Primitives Params Merkle Validation Genesis BlockIndex Coins Connect.
From stdpp Require Import gmap strings sorting.
#[local] Open Scope Z_scope.

Module ChainDb.
Import Params BlockIndex Connect.
Abbreviation encode := Serialize.encode.

(** ** Errors *)

Inductive DbError := CannotOpen | ReadFailed | WriteFailed | CorruptRecord | WrongNetwork | TipNotIndexed.

#[global] Instance DbError_eq_dec : EqDecision DbError.
Proof. solve_decision. Defined.

Definition Describe_db (error : DbError) : string :=
  match error with
  | CannotOpen => "the chain database could not be opened"
  | ReadFailed => "a read from the chain database failed"
  | WriteFailed => "a write to the chain database was refused"
  | CorruptRecord => "a stored record did not decode or no longer passes its own rules"
  | WrongNetwork => "the data directory holds another network's chain"
  | TipNotIndexed => "the recorded tip is not among the recorded headers"
  end%string.

(** [std::expected<A, DbError>] *)
Abbreviation Expected A := (DbError + A)%type.

(** ** The store underneath *)

Inductive Family := Default | Coins | Blocks | Undo | Index | Meta.

#[global] Instance Family_eq_dec : EqDecision Family.
Proof. solve_decision. Defined.

Definition family_index (f : Family) : Z :=
  match f with Default => 0 | Coins => 1 | Blocks => 2 | Undo => 3 | Index => 4 | Meta => 5 end.

Definition family_at (z : Z) : option Family :=
  if z =? 0 then Some Default else if z =? 1 then Some Coins else if z =? 2 then Some Blocks
  else if z =? 3 then Some Undo else if z =? 4 then Some Index else if z =? 5 then Some Meta else None.

#[global] Instance Family_countable : Countable Family.
Proof. refine (inj_countable family_index family_at _). by intros []. Defined.

(** [rocksdb::Status] of a read. *)
Inductive GetStatus := GetOk (value : bytes) | GetNotFound | GetError.

(** One entry of a [rocksdb::WriteBatch]. *)
Inductive BatchOp := BatchPut (f : Family) (key value : bytes) | BatchDelete (f : Family) (key : bytes).

Class RocksDB (R : Type) := {
  db_Get : Family -> bytes -> R -> GetStatus * R;
  db_Put : Family -> bytes -> bytes -> R -> bool * R;
  (** Adding to a batch can be refused too; what is refused is not in it. *)
  batch_add : BatchOp -> list BatchOp -> bool;
  db_Write : list BatchOp -> R -> bool * R;
  (** The records of a family in key order, and whether the iterator's final status is
      ok; [None] is a null iterator. *)
  db_Iterate : Family -> R -> option (list (bytes * bytes) * bool) * R;
  db_Flush : Family -> R -> bool * R;
  db_SyncWAL : R -> bool * R }.

Definition apply_op (m : gmap (Family * bytes) bytes) (op : BatchOp) : gmap (Family * bytes) bytes :=
  match op with
  | BatchPut f key value => <[(f, key) := value]> m
  | BatchDelete f key => delete (f, key) m
  end.

(** A batch, in order. *)
Definition apply_batch (ops : list BatchOp) (m : gmap (Family * bytes) bytes) : gmap (Family * bytes) bytes :=
  fold_left apply_op ops m.

(** What a read says of the contents. *)
Definition get_says (st : GetStatus) (stored : option bytes) : Prop :=
  match st with GetOk v => stored = Some v | GetNotFound => stored = None | GetError => True end.

Class LawfulRocks (R : Type) `{RocksDB R} := {
  contents : R -> gmap (Family * bytes) bytes;
  db_Get_law f k r st r' : db_Get f k r = (st, r') -> contents r' = contents r /\ get_says st (contents r !! (f, k));
  db_Put_law f k v r ok r' : db_Put f k v r = (ok, r') ->
    contents r' = <[(f, k) := v]> (contents r) \/ ok = false /\ contents r' = contents r;
  db_Write_law ops r ok r' : db_Write ops r = (ok, r') ->
    contents r' = apply_batch ops (contents r) \/ ok = false /\ contents r' = contents r;
  db_Iterate_law f r it r' : db_Iterate f r = (it, r') -> contents r' = contents r /\
    forall records, it = Some (records, true) ->
      NoDup records.*1 /\ forall k v, (k, v) ∈ records <-> contents r !! (f, k) = Some v;
  db_Flush_law f r ok r' : db_Flush f r = (ok, r') -> contents r' = contents r;
  db_SyncWAL_law r ok r' : db_SyncWAL r = (ok, r') -> contents r' = contents r }.

(** ** The handle *)

Definition SCHEMA_VERSION : Z := 1.

(** The bytes of a key's name. *)
Definition name_bytes (s : string) : bytes := list_byte_of_string s.
Definition KEY_SCHEMA : bytes := name_bytes "schema".
Definition KEY_CHAIN_ID : bytes := name_bytes "chain_id".
Definition KEY_TIP : bytes := name_bytes "tip".

Record ChainDb (R : Type) := mkDb { db : R; db_params : ChainParams; faulted : bool }.
Arguments mkDb {R} _ _ _.
Arguments db {R} _.
Arguments db_params {R} _.
Arguments faulted {R} _.

(** [struct StoredHeader] *)
Record StoredHeader := mkStored {
  st_header : BlockHeader;
  st_sequence : Z;
  st_validity : BlockValidity;
  st_failure : BlockFailure }.

Definition StoredHeader_SERIALIZED_SIZE : Z := BlockHeader_SERIALIZED_SIZE + 8 + 2.

Definition failure_level (f : BlockFailure) : Z := match f with FNone => 0 | FItself => 1 | FAncestor => 2 end.

(** [static_cast<BlockValidity>(z)] of a byte in range. *)
Definition validity_of (z : Z) : BlockValidity := if z =? 0 then VHeader else if z =? 1 then VBody else VFull.
Definition failure_of (z : Z) : BlockFailure := if z =? 0 then FNone else if z =? 1 then FItself else FAncestor.

Section operations.
Context `{Sha256Impl} {R : Type} `{RocksDB R}.
Implicit Types (d : ChainDb R).

Definition with_db (r : R) d : ChainDb R := mkDb r (db_params d) (faulted d).
Definition Fault d : ChainDb R := mkDb (db d) (db_params d) true.
Definition Fault_if (b : bool) d : ChainDb R := if b then Fault d else d.

(** The value, the out-parameter [failed], and the latch. *)
Definition Read_ (f : Family) (key : bytes) d : option bytes * bool * ChainDb R :=
  let '(status, r) := db_Get f key (db d) in
  let d := with_db r d in
  match status with
  | GetOk value => (Some value, false, d)
  | GetNotFound => (None, false, d)
  | GetError => (None, true, Fault d)
  end.

Definition Write_ (f : Family) (key value : bytes) d : bool * ChainDb R :=
  let '(ok, r) := db_Put f key value (db d) in
  (ok, Fault_if (negb ok) (with_db r d)).

Definition Exists_ (f : Family) (key : bytes) d : bool * ChainDb R :=
  let '(status, r) := db_Get f key (db d) in
  let d := with_db r d in
  match status with
  | GetOk _ => (true, d)
  | GetNotFound => (false, d)
  | GetError => (false, Fault d)
  end.

Definition CheckSchema d : option DbError * ChainDb R :=
  match Read_ Meta KEY_SCHEMA d with
  | (Some stored, _, d) =>
      match Parse ReadU32 stored with
      | None => (Some CorruptRecord, d)
      | Some version => (if negb (version =? SCHEMA_VERSION) then Some CorruptRecord else None, d)
      end
  | (None, true, d) => (Some ReadFailed, d)
  | (None, false, d) =>
      let '(ok, d) := Write_ Meta KEY_SCHEMA (encode WriteU32 SCHEMA_VERSION) d in
      (if negb ok then Some WriteFailed else None, d)
  end.

Definition CheckNetwork (expected : ChainParams) d : option DbError * ChainDb R :=
  match Read_ Meta KEY_CHAIN_ID d with
  | (Some stored, _, d) =>
      match Parse ReadHash256 stored with
      | None => (Some CorruptRecord, d)
      | Some recorded => (if negb (bool_decide (recorded = chain_id expected)) then Some WrongNetwork else None, d)
      end
  | (None, true, d) => (Some ReadFailed, d)
  | (None, false, d) =>
      let '(ok, d) := Write_ Meta KEY_CHAIN_ID (encode WriteHash256 (chain_id expected)) d in
      (if negb ok then Some WriteFailed else None, d)
  end.

(** [opened] is what [rocksdb::DB::Open] gave: nothing unless the status is ok, there is a
    database, and it has the six families.  The store is given back also on failure: what
    was written to it stays written. *)
Definition Open (opened : option R) (params : ChainParams) : Expected (ChainDb R) * option R :=
  match opened with
  | None => (inl CannotOpen, None)
  | Some r =>
      match CheckSchema (mkDb r params false) with
      | (Some fault, d) => (inl fault, Some (db d))
      | (None, d) =>
          match CheckNetwork params d with
          | (Some fault, d) => (inl fault, Some (db d))
          | (None, d) => (inr d, Some (db d))
          end
      end
  end.

(** *** Coins *)

Definition coin_key (o : OutPoint) : bytes := encode OutPoint_Serialize o.

Definition max_program d : Z := max_lock_program_size (limits_tx (block_limits (db_params d))).

Definition Db_GetCoin (o : OutPoint) d : option Coin * ChainDb R :=
  match Read_ Coins (coin_key o) d with
  | (None, _, d) => (None, d)
  | (Some value, _, d) =>
      match Parse (Coin_Deserialize (max_program d)) value with
      | None => (None, Fault d)
      | Some coin => (Some coin, d)
      end
  end.

Definition Db_HaveCoin (o : OutPoint) d : bool * ChainDb R := Exists_ Coins (coin_key o) d.

(** *** Bodies and undo records *)

Definition Db_HaveBlock (hash : bytes) d : bool * ChainDb R := Exists_ Blocks hash d.

Definition Db_GetBlock (hash : bytes) d : option Block * ChainDb R :=
  match Read_ Blocks hash d with
  | (None, _, d) => (None, d)
  | (Some value, _, d) =>
      match Parse (Block_Deserialize (block_limits (db_params d))) value with
      | None => (None, Fault d)
      | Some block => if negb (bool_decide (Block_Hash block = hash)) then (None, Fault d) else (Some block, d)
      end
  end.

Definition Db_GetUndo (hash : bytes) d : option BlockUndo * ChainDb R :=
  match Read_ Undo hash d with
  | (None, _, d) => (None, d)
  | (Some value, _, d) =>
      match Parse (BlockUndo_Deserialize (db_params d)) value with
      | None => (None, Fault d)
      | Some undo => (Some undo, d)
      end
  end.

Definition Db_PutBlock (hash : bytes) (block : Block) d : ChainDb R :=
  (Write_ Blocks hash (encode Block_Serialize block) d).2.

Definition Db_PutUndo (hash : bytes) (undo : BlockUndo) d : ChainDb R :=
  (Write_ Undo hash (encode BlockUndo_Serialize undo) d).2.

(** *** Headers and the tip *)

Definition write_stored (s : StoredHeader) (w : Writer) : Writer :=
  let w := BlockHeader_Serialize (st_header s) w in
  let w := WriteU64 (st_sequence s) w in
  let w := WriteU8 (validity_level (st_validity s)) w in
  WriteU8 (failure_level (st_failure s)) w.

(** What an entry is stored as. *)
Definition record_of (e : BlockIndexEntry) : StoredHeader :=
  mkStored (ent_header e) (ent_sequence e) (ent_validity e) (ent_failure e).

Definition Db_CommitHeader (e : BlockIndexEntry) d : bool * ChainDb R :=
  Write_ Index (ent_hash e) (encode write_stored (record_of e)) d.

(** [class BatchSink]: the batch so far and the latch. *)
Record BatchSink := mkSink { sink_batch : list BatchOp; sink_failed : bool }.

Definition stage (op : BatchOp) (s : BatchSink) : BatchSink :=
  if batch_add op (sink_batch s) then mkSink (sink_batch s ++ [op]) (sink_failed s)
  else mkSink (sink_batch s) true.

#[global] Instance BatchSink_sink : CoinsSink BatchSink := fun o coin s =>
  match coin with
  | None => stage (BatchDelete Coins (coin_key o)) s
  | Some coin => stage (BatchPut Coins (coin_key o) (encode Coin_Serialize coin)) s
  end.

(** [order] is the order in which the hash map of changes yields its entries.  The changes
    are gone from the cache as soon as they have been flushed to the batch. *)
Definition Db_CommitTip (order : list (OutPoint * option Coin)) (tip : bytes) d : bool * ChainDb R :=
  if faulted d then (false, d)
  else
    let sink := flush_entries order (mkSink [] false) in
    if sink_failed sink then (false, Fault d)
    else
      let staged := BatchPut Meta KEY_TIP tip in
      if negb (batch_add staged (sink_batch sink)) then (false, Fault d)
      else
        let '(ok, r) := db_Write (sink_batch sink ++ [staged]) (db d) in
        (ok, Fault_if (negb ok) (with_db r d)).

Definition Db_HasFault d : bool := faulted d.
End operations.

(** *** Startup *)

(** A record as it is read, its two judgements still bytes. *)
Record RawHeader := mkRaw { raw_header : BlockHeader; raw_sequence : Z; raw_validity : Z; raw_failure : Z }.

Definition read_stored : Read RawHeader :=
  header ← BlockHeader_Deserialize;
  sequence ← ReadU64;
  validity ← ReadU8;
  failure ← ReadU8;
  mret (mkRaw header sequence validity failure).

(** One turn of the loop of [LoadHeaders]; [None] is a corrupt record. *)
Definition parse_stored (value : bytes) : option StoredHeader :=
  raw ← Parse read_stored value;
  if (validity_level VFull <? raw_validity raw) || (failure_level FAncestor <? raw_failure raw) then None
  else Some (mkStored (raw_header raw) (raw_sequence raw) (validity_of (raw_validity raw)) (failure_of (raw_failure raw))).

Definition arrived_before (l r : StoredHeader) : Prop := st_sequence l <= st_sequence r.

#[global] Instance arrived_before_dec : RelDecision arrived_before.
Proof. intros l r. unfold arrived_before. apply _. Defined.

(** [struct LoadedChain]; the tip is a pointer, and so a hash. *)
Record LoadedChain := mkLoaded { loaded_index : BlockIndex; loaded_tip : bytes; restored : Z }.

Section startup.
Context `{Sha256Impl} {R : Type} `{RocksDB R}.
Implicit Types (d : ChainDb R).

(** [std::sort] by arrival; where two records claim one arrival it may put them either way. *)
Definition LoadHeaders d : Expected (list StoredHeader) * ChainDb R :=
  let '(records, r) := db_Iterate Index (db d) in
  let d := with_db r d in
  match records with
  | None => (inl ReadFailed, Fault d)
  | Some (records, ok) =>
      match mapM parse_stored records.*2 with
      | None => (inl CorruptRecord, Fault d)
      | Some headers =>
          if negb ok then (inl ReadFailed, Fault d)
          else (inr (merge_sort arrived_before headers), d)
      end
  end.

Definition LoadTip d : Expected (option bytes) * ChainDb R :=
  match Read_ Meta KEY_TIP d with
  | (None, true, d) => (inl ReadFailed, d)
  | (None, false, d) => (inr None, d)
  | (Some value, _, d) =>
      match Parse ReadHash256 value with
      | None => (inl CorruptRecord, Fault d)
      | Some tip => (inr (Some tip), d)
      end
  end.

(** Each family in turn, whether or not an earlier one failed. *)
Fixpoint flush_families (families : list Family) (flushed : bool) (r : R) : bool * R :=
  match families with
  | [] => (flushed, r)
  | f :: families => let '(ok, r) := db_Flush f r in flush_families families (flushed && ok) r
  end.

Definition Db_Sync d : bool * ChainDb R :=
  let '(flushed, r) := flush_families [Coins; Blocks; Undo; Index; Meta] true (db d) in
  let '(synced, r) := db_SyncWAL r in
  let flushed := flushed && synced in
  (flushed, Fault_if (negb flushed) (with_db r d)).
End startup.

Section load.
Context `{Sha256Impl} (params : ChainParams).

Definition replay_clock (now : Z) (stored : list StoredHeader) : Z :=
  Z.min (fold_left (fun clock record => Z.max clock (hdr_timestamp (st_header record))) stored now)
        (2 ^ 63 - 1 - MAX_FUTURE_BLOCK_SECONDS).

(** The first pass: headers in arrival order; [None] where one is refused. *)
Fixpoint replay_headers (stored : list StoredHeader) (clock : Z) (idx : BlockIndex) (count : Z) : option (BlockIndex * Z) :=
  match stored with
  | [] => Some (idx, count)
  | record :: stored =>
      if bool_decide (Some (st_header record) = ent_header <$> Genesis idx) then replay_headers stored clock idx count
      else match AddHeader (st_header record) clock params idx with
           | (Refused _, _) => None
           | (Found h, idx) => replay_headers stored clock (RecordValidity h (st_validity record) idx) (wrapu 64 (count + 1))
           end
  end.

(** The second pass; [Some None] where a ruled-out header is not indexed. *)
Fixpoint replay_failures (stored : list StoredHeader) (idx : BlockIndex) : option (option BlockIndex) :=
  match stored with
  | [] => Some (Some idx)
  | record :: stored =>
      if negb (bool_decide (st_failure record = FItself)) then replay_failures stored idx
      else match Find idx (BlockHeader_Hash (st_header record)) with
           | None => Some None
           | Some ruled_out => '(_, idx) ← RecordFailure (ent_hash ruled_out) idx; replay_failures stored idx
           end
  end.

(** What [LoadChain] does with what the database gave; [None] is fuel that ran out. *)
Definition rebuild (stored : list StoredHeader) (committed : option bytes) (now : Z) : option (Expected LoadedChain) :=
  match replay_headers stored (replay_clock now stored) (ForNetwork params) 0 with
  | None => Some (inl CorruptRecord)
  | Some (idx, restored) =>
      replayed ← replay_failures stored idx;
      match replayed with
      | None => Some (inl CorruptRecord)
      | Some idx =>
          match committed with
          | None => Some (inr (mkLoaded idx (genesis_ idx) restored))
          | Some tip =>
              match Find idx tip with
              | None => Some (inl TipNotIndexed)
              | Some resumed =>
                  if negb (IsEligible resumed) then Some (inl CorruptRecord)
                  else Some (inr (mkLoaded idx (ent_hash resumed) restored))
              end
          end
      end
  end.

Definition LoadChain {R} `{RocksDB R} (now : Z) (d : ChainDb R) : option (Expected LoadedChain * ChainDb R) :=
  match LoadHeaders d with
  | (inl error, d) => Some (inl error, d)
  | (inr stored, d) =>
      match LoadTip d with
      | (inl error, d) => Some (inl error, d)
      | (inr committed, d) => loaded ← rebuild stored committed now; Some (loaded, d)
      end
  end.
End load.

(** ** Stored headers read back *)

(** The fields a record has on the wire. *)
Definition raw_of (s : StoredHeader) : RawHeader :=
  mkRaw (st_header s) (st_sequence s) (validity_level (st_validity s)) (failure_level (st_failure s)).

Definition raw_ok (x : RawHeader) : Prop :=
  BlockHeader_ok (raw_header x) /\ u64 (raw_sequence x) /\ u8 (raw_validity x) /\ u8 (raw_failure x).

Definition write_raw (x : RawHeader) (w : Writer) : Writer :=
  WriteU8 (raw_failure x) (WriteU8 (raw_validity x) (WriteU64 (raw_sequence x) (BlockHeader_Serialize (raw_header x) w))).

Lemma flat_raw x : encode write_raw x =
  encode BlockHeader_Serialize (raw_header x) ++ encode WriteU64 (raw_sequence x) ++ encode WriteU8 (raw_validity x) ++
  encode WriteU8 (raw_failure x) ++ [].
Proof. flat_enc write_raw. Qed.

Lemma codec_raw : Codec (encode write_raw) read_stored raw_ok.
Proof.
  eapply codec_struct; [|exact flat_raw]. unfold read_stored.
  field raw_header. field raw_sequence. field raw_validity. field raw_failure. struct_done.
Qed.

Definition Stored_ok (s : StoredHeader) : Prop := BlockHeader_ok (st_header s) /\ u64 (st_sequence s).

Lemma zlen_stored s : Stored_ok s -> zlen (encode write_stored s) = StoredHeader_SERIALIZED_SIZE.
Proof.
  intros [Hh _]. change (encode write_stored s) with (encode write_raw (raw_of s)). rewrite flat_raw.
  rewrite !zlen_app, (BlockHeader_size (raw_header (raw_of s)) Hh), zlen_U64, !zlen_U8. reflexivity.
Qed.

Lemma parse_stored_iff bs s : zlen bs < 2 ^ 64 -> parse_stored bs = Some s <-> Stored_ok s /\ bs = encode write_stored s.
Proof.
  intros Hb. unfold parse_stored. change (encode write_stored s) with (encode write_raw (raw_of s)). split.
  - intros (raw & P & E)%bind_Some. apply (codec_parse _ _ _ codec_raw bs raw Hb) in P as ((Oh & Oq & Ov & Of) & ->).
    destruct raw as [h q v f]. cbn [raw_header raw_sequence raw_validity raw_failure] in *. case_match eqn:G; [done|].
    apply orb_false_iff in G as [G1 G2]. apply Z.ltb_ge in G1, G2. cbn in G1, G2. injection E as <-. split; [done|].
    f_equal. unfold raw_of. cbn. unfold u8 in *. f_equal.
    + assert (v = 0 \/ v = 1 \/ v = 2) as [->|[->| ->]] by lia; done.
    + assert (f = 0 \/ f = 1 \/ f = 2) as [->|[->| ->]] by lia; done.
  - intros [[Oh Oq] ->]. apply bind_Some. exists (raw_of s). split.
    + apply (codec_parse _ _ _ codec_raw); [done|]. split; [|done]. unfold raw_ok, u8. destruct s as [h q v f].
      cbn. destruct v, f; cbn; naive_solver lia.
    + by destruct s as [h q [] []].
Qed.

(** ** What the calls do to the contents *)

Section calls.
Context `{Sha256Impl} {R : Type} `{RocksDB R} `{!LawfulRocks R}.
Implicit Types (d : ChainDb R).

(** The latch is only ever set, and the parameters stay. *)
Definition older d d' : Prop := db_params d' = db_params d /\ (faulted d' = false -> faulted d = false).

#[global] Instance older_preorder : PreOrder (older : relation (ChainDb R)).
Proof. split; [done|]. intros a b c [P F] [P' F']. split; [congruence|auto]. Qed.

Abbreviation data d := (contents (db d)).

Lemma Read_spec f k d v failed d' : Read_ f k d = (v, failed, d') ->
  older d d' /\ data d' = data d /\
  (failed = false /\ v = data d !! (f, k) /\ faulted d' = faulted d \/ failed = true /\ v = None /\ faulted d' = true).
Proof.
  unfold Read_. destruct (db_Get f k (db d)) as [st r] eqn:E. apply db_Get_law in E as [C S].
  destruct st; intros [= <- <- <-]; cbn in *; (split_and!; [done|done|auto]).
Qed.

Lemma Exists_spec f k d b d' : Exists_ f k d = (b, d') ->
  older d d' /\ data d' = data d /\ (faulted d' = false -> b = bool_decide (is_Some (data d !! (f, k)))).
Proof.
  unfold Exists_. destruct (db_Get f k (db d)) as [st r] eqn:E. apply db_Get_law in E as [C S].
  destruct st; intros [= <- <-]; cbn in *; (split_and!; [done|done|]); rewrite ?S; done.
Qed.

Lemma Fault_if_older b d : older d (Fault_if b d).
Proof. by destruct b. Qed.

Lemma Write_spec f k v d ok d' : Write_ f k v d = (ok, d') ->
  older d d' /\ (faulted d' = false -> ok = true /\ data d' = <[(f, k) := v]> (data d)) /\
  (data d' = <[(f, k) := v]> (data d) \/ data d' = data d).
Proof.
  unfold Write_. destruct (db_Put f k v (db d)) as [ok' r] eqn:E. apply db_Put_law in E as C.
  intros [= <- <-]. destruct ok'; cbn; (split; [done|]); intuition congruence.
Qed.
End calls.

(** ** The database as a plain store *)

(** What a database is for: five maps and a tip. *)
Record Store := mkStore {
  sp_coins : OutPoint -> option Coin;
  sp_blocks : gmap bytes Block;
  sp_undo : gmap bytes BlockUndo;
  sp_headers : gmap bytes StoredHeader;
  sp_tip : option bytes }.

Definition empty_store : Store := mkStore (fun _ => None) ∅ ∅ ∅ None.

(** What a node asks of it. *)
Inductive DbOp :=
  | OpPutBlock (block : Block)
  | OpPutUndo (hash : bytes) (undo : BlockUndo)
  | OpCommitHeader (entry : BlockIndexEntry)
  | OpCommitTip (order : list (OutPoint * option Coin)) (tip : bytes)
  | OpGetCoin (o : OutPoint)
  | OpHaveCoin (o : OutPoint)
  | OpGetBlock (hash : bytes)
  | OpHaveBlock (hash : bytes)
  | OpGetUndo (hash : bytes)
  | OpLoadHeaders
  | OpLoadTip
  | OpSync.

(** Changes written over a set of coins, in order. *)
Definition write_coins (order : list (OutPoint * option Coin)) (f : OutPoint -> option Coin) : OutPoint -> option Coin :=
  fold_left (fun f '(o, x) => upd f o x) order f.

Section refinement.
Context `{Sha256Impl} {R : Type} `{RocksDB R} `{!LawfulRocks R}.
Implicit Types (d : ChainDb R).

Definition run_db d (op : DbOp) : ChainDb R :=
  match op with
  | OpPutBlock b => Db_PutBlock (Block_Hash b) b d
  | OpPutUndo h u => Db_PutUndo h u d
  | OpCommitHeader e => (Db_CommitHeader e d).2
  | OpCommitTip order tip => (Db_CommitTip order tip d).2
  | OpGetCoin o => (Db_GetCoin o d).2
  | OpHaveCoin o => (Db_HaveCoin o d).2
  | OpGetBlock h => (Db_GetBlock h d).2
  | OpHaveBlock h => (Db_HaveBlock h d).2
  | OpGetUndo h => (Db_GetUndo h d).2
  | OpLoadHeaders => (LoadHeaders d).2
  | OpLoadTip => (LoadTip d).2
  | OpSync => (Db_Sync d).2
  end.

Definition run_store (n : Store) (op : DbOp) : Store :=
  match op with
  | OpPutBlock b => mkStore (sp_coins n) (<[Block_Hash b := b]> (sp_blocks n)) (sp_undo n) (sp_headers n) (sp_tip n)
  | OpPutUndo h u => mkStore (sp_coins n) (sp_blocks n) (<[h := u]> (sp_undo n)) (sp_headers n) (sp_tip n)
  | OpCommitHeader e => mkStore (sp_coins n) (sp_blocks n) (sp_undo n) (<[ent_hash e := record_of e]> (sp_headers n)) (sp_tip n)
  | OpCommitTip order tip => mkStore (write_coins order (sp_coins n)) (sp_blocks n) (sp_undo n) (sp_headers n) (Some tip)
  | _ => n
  end.

(** What the types of the arguments and the rules behind them guarantee. *)
Definition change_ok (p : ChainParams) (c : OutPoint * option Coin) : Prop :=
  OutPoint_ok c.1 /\ match c.2 with
                     | Some x => Coin_ok (max_lock_program_size (limits_tx (block_limits p))) x /\
                                 zlen (encode Coin_Serialize x) < 2 ^ 64
                     | None => True
                     end.

Definition op_ok (p : ChainParams) (op : DbOp) : Prop :=
  match op with
  | OpPutBlock b => Block_ok (block_limits p) b /\ zlen (encode Block_Serialize b) < 2 ^ 64
  | OpPutUndo h u => BlockUndo_ok (block_limits p) u /\ zlen (encode BlockUndo_Serialize u) < 2 ^ 64
  | OpCommitHeader e => Stored_ok (record_of e)
  | OpCommitTip order tip => Forall (change_ok p) order /\ is_hash tip
  | OpGetCoin o => OutPoint_ok o
  | _ => True
  end.

(** The records of a plain store, well formed. *)
Record store_ok (p : ChainParams) (n : Store) : Prop := {
  ok_coins o x : sp_coins n o = Some x -> change_ok p (o, Some x);
  ok_blocks h b : sp_blocks n !! h = Some b -> Block_Hash b = h /\ op_ok p (OpPutBlock b);
  ok_undo h u : sp_undo n !! h = Some u -> op_ok p (OpPutUndo h u);
  ok_headers h s : sp_headers n !! h = Some s -> Stored_ok s;
  ok_tip t : sp_tip n = Some t -> is_hash t }.

(** The coins and the tip, and the rest, as they are on disk. *)
Definition holds_tip (m : gmap (Family * bytes) bytes) (n : Store) : Prop :=
  (forall o, OutPoint_ok o -> m !! (Coins, coin_key o) = encode Coin_Serialize <$> sp_coins n o) /\
  m !! (Meta, KEY_TIP) = sp_tip n.

Definition holds_rest (m : gmap (Family * bytes) bytes) (n : Store) : Prop :=
  (forall h, m !! (Blocks, h) = encode Block_Serialize <$> sp_blocks n !! h) /\
  (forall h, m !! (Undo, h) = encode BlockUndo_Serialize <$> sp_undo n !! h) /\
  (forall h, m !! (Index, h) = encode write_stored <$> sp_headers n !! h).

Lemma coin_key_inj o o' : OutPoint_ok o -> OutPoint_ok o' -> coin_key o = coin_key o' -> o = o'.
Proof.
  intros O O' E. apply (codec_inj _ _ _ codec_OutPoint o o' [] []); [done|done| |by rewrite !app_nil_r].
  rewrite app_nil_r, flat_OutPoint, !zlen_app, zlen_Hash256, zlen_U32. destruct O as [-> _]. done.
Qed.
(** *** Batches *)

Definition change_op (c : OutPoint * option Coin) : BatchOp :=
  match c.2 with
  | None => BatchDelete Coins (coin_key c.1)
  | Some x => BatchPut Coins (coin_key c.1) (encode Coin_Serialize x)
  end.

Lemma flush_batch order : forall s : BatchSink, sink_failed (flush_entries order s) = false ->
  sink_failed s = false /\ sink_batch (flush_entries order s) = sink_batch s ++ map change_op order.
Proof.
  induction order as [|[o x] order IH]; intros s E; [by rewrite app_nil_r|].
  change (flush_entries ((o, x) :: order) s) with (flush_entries order (Write o x s)) in *.
  destruct (IH _ E) as [F ->].
  assert (Write o x s = stage (change_op (o, x)) s) as W by (by destruct x).
  rewrite W in *. unfold stage in *. destruct (batch_add _ _); cbn [sink_failed sink_batch] in *; [|done].
  split; [done|]. by rewrite <- app_assoc.
Qed.

Lemma apply_changes p order : forall m f, Forall (change_ok p) order ->
  (forall o, OutPoint_ok o -> m !! (Coins, coin_key o) = encode Coin_Serialize <$> f o) ->
  forall o, OutPoint_ok o -> apply_batch (map change_op order) m !! (Coins, coin_key o) =
    encode Coin_Serialize <$> write_coins order f o.
Proof.
  induction order as [|[k x] order IH]; intros m f Ho Hm o O; [by apply Hm|]. apply Forall_cons in Ho as [[K _] Ho].
  cbn [map apply_batch write_coins fold_left]. apply IH; [done| |done]. clear o O. intros o O. cbn in K.
  unfold upd, change_op. cbn [fst snd]. destruct (decide (o = k)) as [->|N].
  - destruct x; cbn [apply_op]; [by rewrite lookup_insert_eq|by rewrite lookup_delete_eq].
  - assert (coin_key k <> coin_key o) by (intros E; apply N; symmetry; by apply coin_key_inj).
    destruct x; cbn [apply_op];
      [rewrite lookup_insert_ne by congruence|rewrite lookup_delete_ne by congruence]; by apply Hm.
Qed.

Lemma apply_changes_other order f k : f <> Coins -> forall m, apply_batch (map change_op order) m !! (f, k) = m !! (f, k).
Proof.
  intros N. induction order as [|[o x] order IH]; intros m; [done|]. cbn [map apply_batch fold_left]. rewrite IH.
  unfold change_op. destruct x; cbn; [by rewrite lookup_insert_ne by congruence|by rewrite lookup_delete_ne by congruence].
Qed.

(** A whole commit. *)
Definition commit_batch (order : list (OutPoint * option Coin)) (tip : bytes) : list BatchOp :=
  map change_op order ++ [BatchPut Meta KEY_TIP tip].

Lemma commit_other order tip m f k : f <> Coins -> (f, k) <> (Meta, KEY_TIP) ->
  apply_batch (commit_batch order tip) m !! (f, k) = m !! (f, k).
Proof.
  intros N M. unfold commit_batch, apply_batch. rewrite fold_left_app. cbn [fold_left apply_op].
  rewrite lookup_insert_ne by congruence. by apply apply_changes_other.
Qed.

Lemma commit_holds p order tip m n : Forall (change_ok p) order -> holds_tip m n ->
  holds_tip (apply_batch (commit_batch order tip) m) (run_store n (OpCommitTip order tip)).
Proof.
  intros Ho [Hc Ht]. unfold commit_batch, apply_batch. rewrite fold_left_app. split.
  - intros o O. cbn [fold_left apply_op]. rewrite lookup_insert_ne by done. by apply (apply_changes p).
  - cbn. by rewrite lookup_insert_eq.
Qed.

Lemma CommitTip_spec order tip d ok d' : Db_CommitTip order tip d = (ok, d') ->
  older d d' /\ (faulted d = true -> ok = false /\ d' = d) /\
  (faulted d' = false -> ok = true /\ contents (db d') = apply_batch (commit_batch order tip) (contents (db d))) /\
  (contents (db d') = apply_batch (commit_batch order tip) (contents (db d)) \/
   ok = false /\ contents (db d') = contents (db d)).
Proof.
  unfold Db_CommitTip. destruct (faulted d) eqn:F; [intros [= <- <-]; rewrite F; split_and!; auto; done|].
  destruct (sink_failed _) eqn:Fs; [intros [= <- <-]; split_and!; [done|done|done|by right]|].
  apply flush_batch in Fs as [_ ->]. cbn [sink_batch app].
  destruct (batch_add _ _); cbn [negb]; [|intros [= <- <-]; split_and!; [done|done|done|by right]].
  fold (commit_batch order tip). destruct (db_Write _ _) as [w r] eqn:E. apply db_Write_law in E.
  intros [= <- <-]. destruct w; cbn; (split_and!; [done|done| |]); intuition congruence.
Qed.
(** *** One operation *)

Definition writes (op : DbOp) : bool :=
  match op with OpPutBlock _ | OpPutUndo _ _ | OpCommitHeader _ | OpCommitTip _ _ => true | _ => false end.

Lemma Read_keeps f k d v failed d' : Read_ f k d = (v, failed, d') -> older d d' /\ contents (db d') = contents (db d).
Proof. intros E. by apply Read_spec in E as (? & ? & _). Qed.

Lemma flush_families_keeps fs : forall b r b' r', flush_families fs b r = (b', r') -> contents r' = contents r.
Proof.
  induction fs as [|f fs IH]; intros b r b' r'; cbn; [by intros [= _ <-]|].
  destruct (db_Flush f r) as [ok r1] eqn:E. apply db_Flush_law in E. intros ->%IH. done.
Qed.

Lemma older_Fault d d' : older d d' -> older d (Fault d').
Proof. by intros [P _]. Qed.

Local Ltac kept := repeat case_match; cbn [snd]; (split; [first [done|by apply older_Fault]|done]).

Lemma read_keeps d op : writes op = false -> older d (run_db d op) /\ contents (db (run_db d op)) = contents (db d).
Proof.
  destruct op as [| | | |o|o|h|h|h| | |]; intros W; try done; cbn [run_db].
  - unfold Db_GetCoin. destruct (Read_ _ _ d) as [[v b] d'] eqn:E. apply Read_keeps in E as [O C].
    kept.
  - destruct (Db_HaveCoin o d) as [b d'] eqn:E. by apply Exists_spec in E as (? & ? & _).
  - unfold Db_GetBlock. destruct (Read_ _ _ d) as [[v b] d'] eqn:E. apply Read_keeps in E as [O C].
    kept.
  - destruct (Db_HaveBlock h d) as [b d'] eqn:E. by apply Exists_spec in E as (? & ? & _).
  - unfold Db_GetUndo. destruct (Read_ _ _ d) as [[v b] d'] eqn:E. apply Read_keeps in E as [O C].
    kept.
  - unfold LoadHeaders. destruct (db_Iterate Index (db d)) as [it r] eqn:E. apply db_Iterate_law in E as [C _].
    kept.
  - unfold LoadTip. destruct (Read_ _ _ d) as [[v b] d'] eqn:E. apply Read_keeps in E as [O C].
    kept.
  - unfold Db_Sync. destruct (flush_families _ _ _) as [b r] eqn:E. apply flush_families_keeps in E.
    destruct (db_SyncWAL r) as [b' r'] eqn:E'. apply db_SyncWAL_law in E'. cbn [snd].
    split; [|destruct (negb _); cbn; congruence]. by destruct (negb _).
Qed.

Lemma run_db_older d op : older d (run_db d op).
Proof.
  destruct (writes op) eqn:W; [|by apply read_keeps]. destruct op as [b|h u|e|order tip| | | | | | | |]; try done; cbn [run_db].
  - unfold Db_PutBlock. destruct (Write_ _ _ _ d) as [ok d'] eqn:E. by apply Write_spec in E as (? & _).
  - unfold Db_PutUndo. destruct (Write_ _ _ _ d) as [ok d'] eqn:E. by apply Write_spec in E as (? & _).
  - destruct (Db_CommitHeader e d) as [ok d'] eqn:E. by apply Write_spec in E as (? & _).
  - destruct (Db_CommitTip order tip d) as [ok d'] eqn:E. by apply CommitTip_spec in E as (? & _).
Qed.

(** The family and key a single write goes to. *)
Lemma insert_holds_tip m n f k v : f <> Coins -> f <> Meta -> holds_tip m n -> holds_tip (<[(f, k) := v]> m) n.
Proof. intros N1 N2 [Hc Ht]. split; [intros o O|]; rewrite lookup_insert_ne by congruence; auto. Qed.

(** The coins and the tip move only together, and not once the latch is set. *)
Lemma run_db_tip p d op n : op_ok p op -> holds_tip (contents (db d)) n ->
  (holds_tip (contents (db (run_db d op))) n \/ holds_tip (contents (db (run_db d op))) (run_store n op)) /\
  (faulted d = true -> holds_tip (contents (db (run_db d op))) n).
Proof.
  intros O T. destruct (writes op) eqn:W.
  2:{ apply (read_keeps d) in W as [_ ->]. auto. }
  assert (forall f k v ok d', f <> Coins -> f <> Meta -> Write_ f k v d = (ok, d') -> holds_tip (contents (db d')) n) as K.
  { intros f k v ok d' N1 N2 E. apply Write_spec in E as (_ & _ & [->| ->]); [by apply insert_holds_tip|done]. }
  destruct op as [b|h u|e|order tip| | | | | | | |]; try done; cbn [run_db].
  - unfold Db_PutBlock. destruct (Write_ _ _ _ d) as [ok d'] eqn:E. apply K in E; auto.
  - unfold Db_PutUndo. destruct (Write_ _ _ _ d) as [ok d'] eqn:E. apply K in E; auto.
  - destruct (Db_CommitHeader e d) as [ok d'] eqn:E. apply K in E; auto.
  - destruct (Db_CommitTip order tip d) as [ok d'] eqn:E. apply CommitTip_spec in E as (_ & F & _ & C). cbn [snd]. split.
    + destruct C as [->|[_ ->]]; [right|by left]. by apply (commit_holds p); [destruct O|].
    + by intros [_ ->]%F.
Qed.

(** While the latch is clear, the contents follow the plain store. *)
Lemma run_db_holds p d op n : op_ok p op -> holds_tip (contents (db d)) n -> holds_rest (contents (db d)) n ->
  faulted (run_db d op) = false ->
  holds_tip (contents (db (run_db d op))) (run_store n op) /\ holds_rest (contents (db (run_db d op))) (run_store n op).
Proof.
  intros O T (Hb & Hu & Hi) F. destruct (writes op) eqn:W.
  2:{ pose proof (read_keeps d op W) as [_ ->]. by destruct op. }
  destruct op as [b|h u|e|order tip| | | | | | | |]; try done; cbn [run_db run_store] in *.
  - unfold Db_PutBlock in *. destruct (Write_ _ _ _ d) as [ok d'] eqn:E. apply Write_spec in E as (_ & C & _).
    cbn [snd] in *. destruct (C F) as [_ ->]. split; [by apply (insert_holds_tip _ n)|]. split_and!; intros k.
    + cbn [sp_blocks]. destruct (decide (k = Block_Hash b)) as [->|]; [by rewrite !lookup_insert_eq|].
      by rewrite !lookup_insert_ne by congruence.
    + by rewrite lookup_insert_ne.
    + by rewrite lookup_insert_ne.
  - unfold Db_PutUndo in *. destruct (Write_ _ _ _ d) as [ok d'] eqn:E. apply Write_spec in E as (_ & C & _).
    cbn [snd] in *. destruct (C F) as [_ ->]. split; [by apply (insert_holds_tip _ n)|]. split_and!; intros k.
    + by rewrite lookup_insert_ne.
    + cbn [sp_undo]. destruct (decide (k = h)) as [->|]; [by rewrite !lookup_insert_eq|].
      by rewrite !lookup_insert_ne by congruence.
    + by rewrite lookup_insert_ne.
  - destruct (Db_CommitHeader e d) as [ok d'] eqn:E. apply Write_spec in E as (_ & C & _).
    cbn [snd] in *. destruct (C F) as [_ ->]. split; [by apply (insert_holds_tip _ n)|]. split_and!; intros k.
    + by rewrite lookup_insert_ne.
    + by rewrite lookup_insert_ne.
    + cbn [sp_headers]. destruct (decide (k = ent_hash e)) as [->|]; [by rewrite !lookup_insert_eq|].
      by rewrite !lookup_insert_ne by congruence.
  - destruct (Db_CommitTip order tip d) as [ok d'] eqn:E. apply CommitTip_spec in E as (_ & _ & C & _).
    cbn [snd] in *. destruct (C F) as [_ ->]. split; [by apply (commit_holds p); [destruct O|]|].
    split_and!; intros k; rewrite commit_other by done; auto.
Qed.
(** *** Histories *)

Lemma store_ok_empty p : store_ok p empty_store.
Proof. split; [done| | | |done]; intros *; cbn; by rewrite lookup_empty. Qed.

Lemma write_coins_ok p order : forall f, Forall (change_ok p) order ->
  (forall o x, f o = Some x -> change_ok p (o, Some x)) -> forall o x, write_coins order f o = Some x -> change_ok p (o, Some x).
Proof.
  induction order as [|[k y] order IH]; intros f Ho Hf; [done|]. apply Forall_cons in Ho as [K Ho].
  cbn [write_coins fold_left]. apply IH; [done|]. intros o x. unfold upd. destruct (decide (o = k)) as [->|]; [|apply Hf].
  by intros ->.
Qed.

Lemma run_store_ok p n op : op_ok p op -> store_ok p n -> store_ok p (run_store n op).
Proof.
  intros O [Hc Hb Hu Hh Ht]. destruct op as [b|h u|e|order tip| | | | | | | |]; try done; split; cbn [run_store sp_coins sp_blocks sp_undo sp_headers sp_tip]; try done.
  - intros h x. rewrite lookup_insert_Some. intros [[<- <-]|[_ ?]]; [done|by apply Hb].
  - intros k x. rewrite lookup_insert_Some. intros [[<- <-]|[_ ?]]; [done|by apply Hu].
  - intros k x. rewrite lookup_insert_Some. intros [[<- <-]|[_ E]]; [done|by apply Hh in E].
  - destruct O as [Ho _]. by apply write_coins_ok.
  - destruct O as [_ Ho]. by intros t [= <-].
Qed.

Lemma run_db_params ops : forall d, db_params (fold_left run_db ops d) = db_params d.
Proof.
  induction ops as [|op ops IH]; intros d; [done|]. cbn [fold_left]. rewrite IH. apply run_db_older.
Qed.

Lemma run_ops_older ops : forall d, older d (fold_left run_db ops d).
Proof. induction ops as [|op ops IH]; intros d; [done|]. cbn [fold_left]. etrans; [apply run_db_older|apply IH]. Qed.

Lemma run_ops_hold p ops : forall d n, Forall (op_ok p) ops ->
  holds_tip (contents (db d)) n -> holds_rest (contents (db d)) n -> store_ok p n ->
  faulted (fold_left run_db ops d) = false ->
  let d' := fold_left run_db ops d in let n' := fold_left run_store ops n in
  holds_tip (contents (db d')) n' /\ holds_rest (contents (db d')) n' /\ store_ok p n'.
Proof.
  induction ops as [|op ops IH]; intros d n Ho T Hr S F; [done|]. apply Forall_cons in Ho as [O Ho]. cbn [fold_left] in *.
  destruct (run_db_holds p d op n O T Hr) as [T' R'].
  { apply (run_ops_older ops (run_db d op)). done. }
  apply IH; [done|done|done| |done]. by apply run_store_ok.
Qed.

(** Once the latch is set, nothing moves them. *)
Lemma latched_tip p ops : forall d n, Forall (op_ok p) ops -> faulted d = true -> holds_tip (contents (db d)) n ->
  holds_tip (contents (db (fold_left run_db ops d))) n.
Proof.
  induction ops as [|op ops IH]; intros d n Ho F T; [done|]. apply Forall_cons in Ho as [O Ho]. cbn [fold_left].
  apply IH; [done| |by apply (run_db_tip p)].
  destruct (faulted (run_db d op)) eqn:F'; [done|]. apply (run_db_older d op) in F'. congruence.
Qed.

Lemma CommitTip_done order tip d : (Db_CommitTip order tip d).1 = true -> faulted (Db_CommitTip order tip d).2 = false.
Proof.
  unfold Db_CommitTip. destruct (faulted d) eqn:F; [done|]. repeat case_match; try done. cbn. by intros ->.
Qed.

(** The commits reported done are among the first [m] operations. *)
Definition done_within (m : nat) (ops : list DbOp) d : Prop := forall i order tip, ops !! i = Some (OpCommitTip order tip) ->
  (Db_CommitTip order tip (fold_left run_db (take i ops) d)).1 = true -> (i < m)%nat.

Lemma latched_done ops d : faulted d = true -> done_within 0 ops d.
Proof.
  intros F i order tip _ C%CommitTip_done. set (d' := fold_left run_db (take i ops) d) in *.
  destruct (Db_CommitTip order tip d') as [ok d2] eqn:E. apply CommitTip_spec in E as [[_ O] _]. apply O in C.
  apply (run_ops_older (take i ops) d) in C. congruence.
Qed.

(** Whatever fails, and whenever. *)
Lemma run_ops_tip p ops : forall d n, Forall (op_ok p) ops -> holds_tip (contents (db d)) n -> holds_rest (contents (db d)) n ->
  exists m, (m <= length ops)%nat /\ holds_tip (contents (db (fold_left run_db ops d))) (fold_left run_store (take m ops) n) /\
    done_within m ops d.
Proof.
  induction ops as [|op ops IH]; intros d n Ho T Hr; [by exists O|]. apply Forall_cons in Ho as [O Ho]. cbn [fold_left].
  destruct (run_db_tip p d op n O T) as [A _]. destruct (faulted (run_db d op)) eqn:F.
  - assert (done_within 0 (op :: ops) d) as D.
    { intros [|i] order tip E C; cbn in E, C.
      - injection E as ->. apply CommitTip_done in C. cbn in F. congruence.
      - apply (latched_done ops _ F) in C; [lia|done]. }
    assert (done_within 1 (op :: ops) d) as D1 by (intros i order tip E C; apply (D i order tip E) in C; lia).
    pose proof (latched_tip p ops (run_db d op)) as K.
    destruct A as [A|A]; [exists 0%nat|exists 1%nat]; cbn; (split_and!; [lia|by apply K|done]).
  - destruct (run_db_holds p d op n O T Hr F) as [T' R']. destruct (IH _ _ Ho T' R') as (m & Hm & E & D).
    exists (S m). cbn. split_and!; [lia|done|]. intros [|i] order tip Ei C; [lia|]. cbn in Ei, C.
    apply (D i order tip Ei) in C. lia.
Qed.
(** *** Reads *)

Definition limits_ok (p : ChainParams) : Prop :=
  BlockLimits_ok (block_limits p) /\ u64 (max_lock_program_size (limits_tx (block_limits p))).

(** Unless it latches, a read says what the plain store says. *)
Record reads_as d (n : Store) : Prop := {
  as_GetCoin o x d' : OutPoint_ok o -> Db_GetCoin o d = (x, d') -> faulted d' = false -> x = sp_coins n o;
  as_HaveCoin o b d' : OutPoint_ok o -> Db_HaveCoin o d = (b, d') -> faulted d' = false -> b = bool_decide (is_Some (sp_coins n o));
  as_GetBlock h x d' : Db_GetBlock h d = (x, d') -> faulted d' = false -> x = sp_blocks n !! h;
  as_HaveBlock h b d' : Db_HaveBlock h d = (b, d') -> faulted d' = false -> b = bool_decide (is_Some (sp_blocks n !! h));
  as_GetUndo h x d' : Db_GetUndo h d = (x, d') -> faulted d' = false -> x = sp_undo n !! h;
  as_LoadTip x d' : LoadTip d = (x, d') -> faulted d' = false -> x = inr (sp_tip n);
  as_LoadHeaders x d' : LoadHeaders d = (x, d') -> faulted d' = false ->
    exists l, x = inr l /\ l ≡ₚ (map_to_list (sp_headers n)).*2 /\ StronglySorted arrived_before l }.

(** A read that does not latch, and decodes what it finds. *)
Lemma Read_unlatched f k d v failed d' : Read_ f k d = (v, failed, d') -> faulted d' = false ->
  failed = false /\ v = contents (db d) !! (f, k) /\ db_params d' = db_params d.
Proof. intros E F. apply Read_spec in E as ((P & _) & _ & [(-> & -> & _)|(_ & _ & F')]); [done|congruence]. Qed.

Lemma parsed {A} (enc : A -> bytes) dec wf (C : Codec enc dec wf) x : wf x -> zlen (enc x) < 2 ^ 64 -> Parse dec (enc x) = Some x.
Proof. intros W L. by apply (codec_parse enc dec wf C). Qed.

#[local] Instance arrived_before_total : Total arrived_before.
Proof. intros l r. unfold arrived_before. lia. Qed.

#[local] Instance arrived_before_trans : Transitive arrived_before.
Proof. intros x y z. unfold arrived_before. lia. Qed.

(** Decoding what some list encodes, whatever the order, gives that list in that order. *)
Lemma mapM_decodes {A B} (f : A -> option B) (g : B -> A) (xs : list A) (ss : list B) :
  (forall s, s ∈ ss -> f (g s) = Some s) -> xs ≡ₚ g <$> ss -> exists l, mapM f xs = Some l /\ l ≡ₚ ss.
Proof.
  intros Hd P. destruct (mapM_is_Some_2 f xs) as [l E].
  { rewrite P. apply Forall_fmap, Forall_forall. intros s I. unfold compose. rewrite Hd by done. eauto. }
  exists l. split; [done|]. apply mapM_Some in E.
  assert (l = omap f xs) as ->.
  { clear P. induction E as [|x y xs' l' Hx _ IH]; [done|]. cbn. rewrite Hx. f_equal. apply IH. }
  rewrite P. clear P. induction ss as [|s ss IH]; [done|]. cbn. rewrite (Hd s) by constructor.
  f_equiv. apply IH. intros x I. apply Hd. by constructor.
Qed.

(** The iterator yields the stored records and each of them parses. *)
Lemma records_parse (records : list (bytes * bytes)) (m : gmap bytes StoredHeader) :
  (forall h s, m !! h = Some s -> Stored_ok s) -> NoDup records.*1 ->
  (forall k v, (k, v) ∈ records <-> encode write_stored <$> m !! k = Some v) ->
  exists l, mapM parse_stored records.*2 = Some l /\ l ≡ₚ (map_to_list m).*2.
Proof.
  intros Ok Nd Hr. apply (mapM_decodes parse_stored (encode write_stored)).
  - intros s ([k s'] & -> & I)%list_elem_of_fmap. apply elem_of_map_to_list, Ok in I. cbn [snd].
    apply parse_stored_iff; [rewrite zlen_stored by done; done|done].
  - assert (records ≡ₚ map_to_list (encode write_stored <$> m)) as ->.
    { apply NoDup_Permutation; [by eapply NoDup_fmap_1|apply NoDup_map_to_list|]. intros [k v].
      by rewrite Hr, elem_of_map_to_list, lookup_fmap. }
    rewrite map_to_list_fmap, <- !list_fmap_compose. reflexivity.
Qed.

Lemma LoadTip_exact d tip x d' : contents (db d) !! (Meta, KEY_TIP) = tip -> (forall t, tip = Some t -> is_hash t) ->
  LoadTip d = (x, d') -> faulted d' = false -> x = inr tip.
Proof.
  intros Tt Ht. unfold LoadTip. destruct (Read_ _ _ d) as [[v b] d1] eqn:E. intros E' F.
  apply Read_unlatched in E as (-> & -> & P1); [|repeat case_match; by injection E' as <- <-].
  rewrite Tt in E'. destruct tip as [t|]; [|congruence].
  pose proof (Ht t eq_refl) as Hl. rewrite <- (app_nil_l t) in E' at 1. change ([] ++ t) with (encode WriteHash256 t) in E'.
  rewrite (parsed _ _ _ codec_Hash256) in E'; [congruence|done|rewrite zlen_Hash256; unfold is_hash in Hl; lia].
Qed.

Lemma LoadHeaders_exact d (log : gmap bytes StoredHeader) x d' : (forall h s, log !! h = Some s -> Stored_ok s) ->
  (forall h, contents (db d) !! (Index, h) = encode write_stored <$> log !! h) ->
  LoadHeaders d = (x, d') -> faulted d' = false ->
  exists l, x = inr l /\ l ≡ₚ (map_to_list log).*2 /\ StronglySorted arrived_before l.
Proof.
  intros Hh Ri. unfold LoadHeaders. destruct (db_Iterate Index (db d)) as [it r] eqn:E. intros E' F.
  apply db_Iterate_law in E as [_ I]. destruct it as [[records ok]|]; [|injection E' as <- <-; done].
  destruct ok; [|repeat case_match; injection E' as <- <-; done]. destruct (I records eq_refl) as [Nd Hr].
  destruct (records_parse records log Hh Nd) as (l & M & Pl); [intros k v; by rewrite Hr, Ri|].
  rewrite M in E'. cbn in E'. injection E' as <- <-. exists (merge_sort arrived_before l). split_and!; [done| |].
  - by rewrite merge_sort_Permutation.
  - apply StronglySorted_merge_sort; apply _.
Qed.

(** A load that gives an answer has not latched. *)
Lemma LoadHeaders_quiet d l d' : LoadHeaders d = (inr l, d') -> faulted d' = faulted d.
Proof.
  unfold LoadHeaders. destruct (db_Iterate Index (db d)) as [it r]. intros E. repeat (case_match; try done). by injection E as _ <-.
Qed.

Lemma LoadTip_quiet d t d' : LoadTip d = (inr t, d') -> faulted d' = faulted d.
Proof.
  unfold LoadTip. destruct (Read_ _ _ d) as [[v b] d1] eqn:E. apply Read_spec in E as (_ & _ & [(-> & _ & F)|(-> & -> & _)]); [|done].
  intros E'. repeat (case_match; try done); by injection E' as _ <-.
Qed.

Lemma reads_exact p d n : db_params d = p -> limits_ok p -> store_ok p n ->
  holds_tip (contents (db d)) n -> holds_rest (contents (db d)) n -> reads_as d n.
Proof.
  intros P [L Lc] [Hc Hb Hu Hh Ht] [Tc Tt] (Rb & Ru & Ri). split.
  - intros o x d' O. unfold Db_GetCoin. destruct (Read_ _ _ d) as [[v b] d1] eqn:E. intros E' F.
    apply Read_unlatched in E as (_ & -> & P1); [|repeat case_match; by injection E' as <- <-].
    rewrite Tc in E' by done. destruct (sp_coins n o) as [c|] eqn:C; cbn in E'; [|congruence].
    apply Hc in C as [_ [Oc Lc']]. cbn in Oc. unfold max_program in E'. rewrite P1, P in E'.
    rewrite (parsed _ _ _ (codec_Coin _ Lc)) in E' by done. congruence.
  - intros o b d' O E F. apply Exists_spec in E as (_ & _ & E). rewrite E, Tc by done.
    by destruct (sp_coins n o).
  - intros h x d'. unfold Db_GetBlock. destruct (Read_ _ _ d) as [[v b] d1] eqn:E. intros E' F.
    apply Read_unlatched in E as (_ & -> & P1); [|repeat case_match; by injection E' as <- <-].
    rewrite Rb in E'. destruct (sp_blocks n !! h) as [c|] eqn:C; cbn in E'; [|congruence].
    apply Hb in C as [Hn [Oc Lc']]. rewrite P1, P in E'.
    rewrite (parsed _ _ _ (codec_Block _ L)), bool_decide_eq_true_2 in E' by done. cbn in E'. congruence.
  - intros h b d' E F. apply Exists_spec in E as (_ & _ & E). rewrite E, Rb by done. by destruct (sp_blocks n !! h).
  - intros h x d'. unfold Db_GetUndo. destruct (Read_ _ _ d) as [[v b] d1] eqn:E. intros E' F.
    apply Read_unlatched in E as (_ & -> & P1); [|repeat case_match; by injection E' as <- <-].
    rewrite Ru in E'. destruct (sp_undo n !! h) as [c|] eqn:C; cbn in E'; [|congruence].
    apply Hu in C as [Oc Lc']. rewrite P1, P in E'.
    rewrite (parsed _ _ _ (codec_BlockUndo _ L)) in E' by done. congruence.
  - intros x d'. by apply LoadTip_exact.
  - intros x d'. by apply LoadHeaders_exact.
Qed.


(** *** Opening *)

(** The identity of a database. *)
Definition stamped (p : ChainParams) (m : gmap (Family * bytes) bytes) : Prop :=
  m !! (Meta, KEY_SCHEMA) = Some (encode WriteU32 SCHEMA_VERSION) /\
  m !! (Meta, KEY_CHAIN_ID) = Some (encode WriteHash256 (chain_id p)).

(** A successful check finds the stamp, or writes it where there is none. *)
Lemma CheckSchema_spec d d' : CheckSchema d = (None, d') -> (forall v, contents (db d) !! (Meta, KEY_SCHEMA) = Some v -> zlen v < 2 ^ 64) ->
  older d d' /\ contents (db d') = <[(Meta, KEY_SCHEMA) := encode WriteU32 SCHEMA_VERSION]> (contents (db d)) /\
  (faulted d = false -> faulted d' = false).
Proof.
  unfold CheckSchema. intros E Hl. destruct (Read_ _ _ d) as [[v b] d1] eqn:Er.
  apply Read_spec in Er as (O & C & [(-> & Ev & F)|(-> & -> & F)]); [|done]. destruct v as [v|].
  - destruct (Parse ReadU32 v) as [version|] eqn:P; [|done]. apply (codec_parse _ _ _ codec_U32) in P as [_ ->]; [|by apply Hl].
    destruct (Z.eqb_spec version SCHEMA_VERSION) as [->|]; [|done]. injection E as <-. split_and!; [done| |by intros; congruence].
    rewrite C. symmetry. by apply insert_id.
  - destruct (Write_ _ _ _ d1) as [ok d2] eqn:W. unfold Write_ in W. destruct (db_Put _ _ _ _) as [ok' r] eqn:Ep.
    apply db_Put_law in Ep. injection W as <- <-. destruct ok'; [|done]. injection E as <-. cbn [db with_db Fault_if negb faulted]. rewrite <- C.
    split_and!; [by destruct O|by destruct Ep as [?|[? _]]|by intros; congruence].
Qed.

Lemma CheckNetwork_spec p d d' : CheckNetwork p d = (None, d') -> is_hash (chain_id p) ->
  (forall v, contents (db d) !! (Meta, KEY_CHAIN_ID) = Some v -> zlen v < 2 ^ 64) ->
  older d d' /\ contents (db d') = <[(Meta, KEY_CHAIN_ID) := encode WriteHash256 (chain_id p)]> (contents (db d)) /\
  (contents (db d) !! (Meta, KEY_CHAIN_ID) = None \/
   contents (db d) !! (Meta, KEY_CHAIN_ID) = Some (encode WriteHash256 (chain_id p))) /\
  (faulted d = false -> faulted d' = false).
Proof.
  unfold CheckNetwork. intros E Hh Hl. destruct (Read_ _ _ d) as [[v b] d1] eqn:Er.
  apply Read_spec in Er as (O & C & [(-> & Ev & F)|(-> & -> & F)]); [|done]. destruct v as [v|].
  - destruct (Parse ReadHash256 v) as [recorded|] eqn:P; [|done]. apply (codec_parse _ _ _ codec_Hash256) in P as [_ ->]; [|by apply Hl].
    case_bool_decide as G; [|done]. subst recorded. injection E as <-. split_and!; [done| |by right|by intros; congruence].
    rewrite C. symmetry. by apply insert_id.
  - destruct (Write_ _ _ _ d1) as [ok d2] eqn:W. unfold Write_ in W. destruct (db_Put _ _ _ _) as [ok' r] eqn:Ep.
    apply db_Put_law in Ep. injection W as <- <-. destruct ok'; [|done]. injection E as <-. cbn [db with_db Fault_if negb faulted]. rewrite <- C.
    split_and!; [by destruct O|by destruct Ep as [?|[? _]]|left; by rewrite C|by intros; congruence].
Qed.

Lemma Open_spec r p d r' : Open (Some r) p = (inr d, r') -> is_hash (chain_id p) ->
  (forall k v, contents r !! (Meta, k) = Some v -> zlen v < 2 ^ 64) ->
  db_params d = p /\ faulted d = false /\ stamped p (contents (db d)) /\
  (contents r !! (Meta, KEY_CHAIN_ID) = None \/ contents r !! (Meta, KEY_CHAIN_ID) = Some (encode WriteHash256 (chain_id p))) /\
  forall f k, (f, k) <> (Meta, KEY_SCHEMA) -> (f, k) <> (Meta, KEY_CHAIN_ID) -> contents (db d) !! (f, k) = contents r !! (f, k).
Proof.
  unfold Open. intros E Hh Hl. destruct (CheckSchema _) as [[e|] d1] eqn:E1; [done|].
  apply CheckSchema_spec in E1 as ([P1 _] & C1 & F1); [|by intros; eapply Hl].
  destruct (CheckNetwork p d1) as [[e|] d2] eqn:E2; [done|]. injection E as <- _.
  apply CheckNetwork_spec in E2 as ([P2 _] & C2 & S & F2); [|done|].
  2:{ intros v. rewrite C1, lookup_insert_ne by done. apply Hl. }
  cbn in C1. rewrite C1, lookup_insert_ne in S by done. split_and!; [by rewrite P2, P1|by apply F2, F1| |done|].
  - split; rewrite C2; [|by rewrite lookup_insert_eq]. by rewrite lookup_insert_ne, C1, lookup_insert_eq by done.
  - intros f k N1 N2. rewrite C2, lookup_insert_ne by (by apply not_eq_sym). rewrite C1, lookup_insert_ne by (by apply not_eq_sym). done.
Qed.

(** A fresh database is the empty store. *)
Lemma Open_fresh r p d r' : Open (Some r) p = (inr d, r') -> is_hash (chain_id p) -> contents r = ∅ ->
  db_params d = p /\ holds_tip (contents (db d)) empty_store /\ holds_rest (contents (db d)) empty_store.
Proof.
  intros E Hh C. apply Open_spec in E as (P & _ & _ & _ & K); [|done|by intros k v; rewrite C, lookup_empty].
  split; [done|]. unfold holds_tip, holds_rest. split_and!; intros; cbn [empty_store sp_coins sp_blocks sp_undo sp_headers sp_tip];
    rewrite K by done; rewrite C, ?lookup_empty; done.
Qed.

(** No operation touches the identity. *)
Lemma run_db_meta d op k : k <> KEY_TIP -> contents (db (run_db d op)) !! (Meta, k) = contents (db d) !! (Meta, k).
Proof.
  intros N. destruct (writes op) eqn:W; [|by apply (read_keeps d) in W as [_ ->]].
  assert (forall f key v ok d', f <> Meta -> Write_ f key v d = (ok, d') ->
    contents (db d') !! (Meta, k) = contents (db d) !! (Meta, k)) as K.
  { intros f key v ok d' Nf E. apply Write_spec in E as (_ & _ & [->| ->]); [|done]. by rewrite lookup_insert_ne by congruence. }
  destruct op as [b|h u|e|order tip| | | | | | | |]; try done; cbn [run_db].
  - unfold Db_PutBlock. destruct (Write_ _ _ _ d) as [ok d'] eqn:E. by apply K in E.
  - unfold Db_PutUndo. destruct (Write_ _ _ _ d) as [ok d'] eqn:E. by apply K in E.
  - destruct (Db_CommitHeader e d) as [ok d'] eqn:E. by apply K in E.
  - destruct (Db_CommitTip order tip d) as [ok d'] eqn:E. apply CommitTip_spec in E as (_ & _ & _ & [C|[_ C]]); cbn [snd]; rewrite C; [|done].
    by rewrite commit_other by congruence.
Qed.

Lemma run_ops_meta ops k : k <> KEY_TIP -> forall d, contents (db (fold_left run_db ops d)) !! (Meta, k) = contents (db d) !! (Meta, k).
Proof.
  intros N. induction ops as [|op ops IH]; intros d; [done|]. cbn [fold_left]. by rewrite IH, run_db_meta.
Qed.
End refinement.
(** ** A store that keeps its promises *)

(** A map whose writes fail as the list says, and succeed once it is used up. *)
Record Disk := mkDisk { disk : gmap (Family * bytes) bytes; failing : list bool }.

Definition fails (r : Disk) : bool := List.hd false (failing r).

Definition disk_write (m : gmap (Family * bytes) bytes) (r : Disk) : bool * Disk :=
  (negb (fails r), mkDisk (if fails r then disk r else m) (tail (failing r))).

Definition records_in (f : Family) (m : gmap (Family * bytes) bytes) : list (bytes * bytes) :=
  omap (fun x : Family * bytes * bytes => if decide (x.1.1 = f) then Some (x.1.2, x.2) else None) (map_to_list m).

#[global] Instance Disk_rocks : RocksDB Disk := {|
  db_Get f k r := (match disk r !! (f, k) with Some v => GetOk v | None => GetNotFound end, r);
  db_Put f k v r := disk_write (<[(f, k) := v]> (disk r)) r;
  batch_add _ _ := true;
  db_Write ops r := disk_write (apply_batch ops (disk r)) r;
  db_Iterate f r := (Some (records_in f (disk r), true), r);
  db_Flush _ r := (true, r);
  db_SyncWAL r := (true, r) |}.

Lemma elem_records_in f m k v : (k, v) ∈ records_in f m <-> m !! (f, k) = Some v.
Proof.
  unfold records_in. rewrite list_elem_of_omap. split.
  - intros ([[f' k'] v'] & I%elem_of_map_to_list & E). cbn in E. case_decide as G; [|done]. cbn in G. by simplify_eq.
  - intros E. exists (f, k, v). rewrite elem_of_map_to_list. cbn. by rewrite decide_True.
Qed.

Lemma NoDup_records_in f m : NoDup (records_in f m).*1.
Proof.
  unfold records_in. pose proof (NoDup_fst_map_to_list m) as Nd. induction (map_to_list m) as [|[[f' k] v] l IH]; [constructor|].
  cbn in Nd. apply NoDup_cons in Nd as [N Nd]. cbn. case_decide as G; [|by apply IH]. cbn in G. subst f'. cbn.
  apply NoDup_cons. split; [|by apply IH]. intros ([k' v'] & -> & I)%list_elem_of_fmap. apply N.
  apply list_elem_of_omap in I as ([[f2 k2] v2] & I & E). cbn in E. case_decide as G; [|done]. cbn in G. simplify_eq.
  apply list_elem_of_fmap. by exists (f, k', v').
Qed.

Lemma disk_write_law m r ok r' : disk_write m r = (ok, r') -> disk r' = m \/ ok = false /\ disk r' = disk r.
Proof. unfold disk_write. intros [= <- <-]. destruct (fails r); cbn; auto. Qed.

#[global] Instance Disk_lawful : LawfulRocks Disk.
Proof.
  refine {| contents := disk |}.
  - intros f k r st r' [= <- <-]. by destruct (disk r !! (f, k)).
  - intros f k v r ok r'. apply disk_write_law.
  - intros ops r ok r'. apply disk_write_law.
  - intros f r it r' [= <- <-]. split; [done|]. intros records [= <-]. split; [apply NoDup_records_in|apply elem_records_in].
  - by intros f r ok r' [= _ <-].
  - by intros r ok r' [= _ <-].
Defined.

(** ** Samples *)

Section samples.
#[local] Existing Instance toy_Sha256Impl.

Definition fresh_db (r : Disk) : ChainDb Disk :=
  match (Open (Some r) REGTEST_PARAMS).1 with inr d => d | inl _ => mkDb r REGTEST_PARAMS true end.

Lemma fresh_stamps k v : contents (db (fresh_db (mkDisk ∅ []))) !! (Meta, k) = Some v -> zlen v < 2 ^ 64.
Proof.
  destruct (Open_spec (mkDisk ∅ []) REGTEST_PARAMS (fresh_db (mkDisk ∅ [])) (Some (db (fresh_db (mkDisk ∅ [])))))
    as (_ & _ & [S1 S2] & _ & K); [vm_compute; reflexivity|reflexivity|cbn; intros ? ?; by rewrite lookup_empty|].
  intros E. destruct (decide (k = KEY_SCHEMA)) as [->|N1]; [rewrite S1 in E; by injection E as <-|].
  destruct (decide (k = KEY_CHAIN_ID)) as [->|N2]; [rewrite S2 in E; by injection E as <-|].
  rewrite K in E by (intros [= ?]; done). cbn in E. by rewrite lookup_empty in E.
Qed.

Definition sample_change : OutPoint * option Coin := (sample_outpoint, Some sample_stored_coin).
Definition sample_tip_hash : bytes := replicate 32 Byte.x07.

Definition sample_ops : list DbOp :=
  [OpPutUndo sample_tip_hash sample_undo; OpCommitTip [sample_change] sample_tip_hash; OpGetCoin sample_outpoint; OpSync;
   OpCommitTip [(sample_outpoint, None)] sample_genesis].

Lemma sample_ops_ok : Forall (op_ok REGTEST_PARAMS) sample_ops.
Proof.
  repeat constructor; cbn; unfold change_ok, OutPoint_ok, Coin_ok, TxOutput_ok, is_hash, u32; cbn; repeat split; try done; try lia;
    vm_compute; try done; try congruence.
Qed.
End samples.

(** ** The theorems *)

(** C10: The database is a plain store.  Open a fresh one and use it in any way at all:
    store bodies, undo records and headers, commit tips, read, list, synchronise, with
    calls underneath failing at will.  As long as the latch is clear at the end, every
    read either latches or says exactly what five maps and a tip with the same history
    would; and the headers come back complete, in the order they arrived. *)
Theorem database_refines_store `{Sha256Impl} {R} `{RocksDB R} `{!LawfulRocks R} (p : ChainParams) (r : R) (d : ChainDb R) (r' : option R)
    (ops : list DbOp) (L : limits_ok p) (Hid : is_hash (chain_id p)) (Hr : contents r = ∅) (Ho : Open (Some r) p = (inr d, r'))
    (Hops : Forall (op_ok p) ops) (F : faulted (fold_left run_db ops d) = false) :
  reads_as (fold_left run_db ops d) (fold_left run_store ops empty_store).
Proof.
  destruct (Open_fresh r p d r' Ho Hid Hr) as (P & T & Re).
  destruct (run_ops_hold p ops d empty_store Hops T Re (store_ok_empty p) F) as (T' & R' & S').
  apply (reads_exact p); [by rewrite run_db_params|done|done|done|done].
Qed.

Lemma database_refines_store_witness :
  let d := fold_left (run_db (H := toy_Sha256Impl)) (take 4 sample_ops) (fresh_db (mkDisk ∅ [])) in
  (Db_GetCoin sample_outpoint d).1 = Some sample_stored_coin /\ (LoadTip d).1 = inr (Some sample_tip_hash).
Proof.
  intros d.
  assert (reads_as (H := toy_Sha256Impl) d (fold_left (run_store (H := toy_Sha256Impl)) (take 4 sample_ops) empty_store)) as A.
  { apply (database_refines_store (H := toy_Sha256Impl) REGTEST_PARAMS (mkDisk ∅ []) (fresh_db (mkDisk ∅ [])) (Some (db (fresh_db (mkDisk ∅ []))))).
    - split; [apply consensus_limits_ok|vm_compute; split; congruence].
    - reflexivity.
    - reflexivity.
    - vm_compute; reflexivity.
    - apply Forall_take, sample_ops_ok.
    - vm_compute; reflexivity. }
  split.
  - rewrite (as_GetCoin _ _ A sample_outpoint (Db_GetCoin sample_outpoint d).1 (Db_GetCoin sample_outpoint d).2);
      [reflexivity|split; [reflexivity|vm_compute; split; congruence]|by destruct (Db_GetCoin sample_outpoint d)|vm_compute; reflexivity].
  - rewrite (as_LoadTip _ _ A (LoadTip d).1 (LoadTip d).2); [reflexivity|by destruct (LoadTip d)|vm_compute; reflexivity].
Defined.

(** C17: The stored coins and the stored tip are of one moment.  Whatever calls fail and
    whenever, in the middle of whatever history, what is on disk is the coins set and the
    tip as they stood after some one point of the history, and every commit that was
    reported done came before that point. *)
Theorem tip_matches_coins `{Sha256Impl} {R} `{RocksDB R} `{!LawfulRocks R} (p : ChainParams) (r : R) (d : ChainDb R) (r' : option R)
    (ops : list DbOp) (Hid : is_hash (chain_id p)) (Hr : contents r = ∅) (Ho : Open (Some r) p = (inr d, r')) (Hops : Forall (op_ok p) ops) :
  exists m, (m <= length ops)%nat /\
    holds_tip (contents (db (fold_left run_db ops d))) (fold_left run_store (take m ops) empty_store) /\ done_within m ops d.
Proof. destruct (Open_fresh r p d r' Ho Hid Hr) as (P & T & Re). by apply (run_ops_tip p). Qed.

Lemma tip_matches_coins_witness :
  let d := fresh_db (mkDisk ∅ [false; false; false; false; true]) in
  exists m, (m <= 5)%nat /\ done_within (H := toy_Sha256Impl) m sample_ops d /\
    holds_tip (contents (db (fold_left (run_db (H := toy_Sha256Impl)) sample_ops d)))
      (fold_left (run_store (H := toy_Sha256Impl)) (take m sample_ops) empty_store) /\
    faulted (fold_left (run_db (H := toy_Sha256Impl)) sample_ops d) = true.
Proof.
  intros d.
  destruct (tip_matches_coins (H := toy_Sha256Impl) REGTEST_PARAMS (mkDisk ∅ [false; false; false; false; true]) d
    (Some (db d)) sample_ops) as (m & Hm & T & D);
    [reflexivity|reflexivity|vm_compute; reflexivity|apply sample_ops_ok|].
  exists m. split; [exact Hm|]. split; [exact D|]. split; [exact T|]. vm_compute. reflexivity.
Defined.

(** A directory belongs to one network.  A database that has been opened for one
    network, whatever was done with it since, opens again only for a network with the
    same chain id. *)
Theorem directory_keeps_network `{Sha256Impl} {R} `{RocksDB R} `{!LawfulRocks R} (p q : ChainParams) (r : R) (d d' : ChainDb R)
    (r' r'' : option R) (ops : list DbOp) (Hp : is_hash (chain_id p)) (Hq : is_hash (chain_id q)) (Ho : Open (Some r) p = (inr d, r'))
    (Hs : forall k v, contents (db (fold_left run_db ops d)) !! (Meta, k) = Some v -> zlen v < 2 ^ 64)
    (Hz : forall k v, contents r !! (Meta, k) = Some v -> zlen v < 2 ^ 64)
    (Hagain : Open (Some (db (fold_left run_db ops d))) q = (inr d', r'')) :
  chain_id q = chain_id p.
Proof.
  apply Open_spec in Ho as (_ & _ & [_ S] & _); [|done|done].
  apply Open_spec in Hagain as (_ & _ & _ & E & _); [|done|done].
  rewrite run_ops_meta, S in E by done. destruct E as [|E]; [done|]. injection E as E.
  apply (codec_inj _ _ _ codec_Hash256 _ _ [] []); [done|done| |by rewrite !app_nil_r].
  rewrite app_nil_r, zlen_Hash256, Hq. done.
Qed.

Lemma directory_keeps_network_witness : chain_id REGTEST_PARAMS = chain_id REGTEST_PARAMS /\
  (Open (Some (db (fresh_db (mkDisk ∅ [])))) MAINNET_PARAMS).1 = inl WrongNetwork.
Proof.
  split; [|vm_compute; reflexivity].
  apply (directory_keeps_network (H := toy_Sha256Impl) REGTEST_PARAMS REGTEST_PARAMS (mkDisk ∅ []) (fresh_db (mkDisk ∅ []))
    (fresh_db (mkDisk ∅ [])) (Some (db (fresh_db (mkDisk ∅ [])))) (Some (db (fresh_db (mkDisk ∅ [])))) []);
    [reflexivity|reflexivity|vm_compute; reflexivity| | |vm_compute; reflexivity].
  - exact fresh_stamps.
  - intros k v E. cbn in E. by rewrite lookup_empty in E.
Defined.
End ChainDb.
