(* ===== verification/Restart.v ===== *)
(** * Starting again ([LoadChain] of src/storage/chain_db.cpp against the index it was
    written from)

    A running node's index is rebuilt from the records it left: the headers are offered
    again in the order they arrived, then the failures are recorded again.  This file
    shows that the second index is the first: what a history of the index keeps
    ([history]), that the replay meets each header with the context it was first judged
    in, and that a node whose database never faulted has left exactly what the replay
    needs ([HeaderLog]). *)

From S2P Require Import Prelude Overflow Serialize Hex Crypto Primitives Target Work Asert Issuance Params Merkle Sighash Validation Genesis BlockIndex Coins Connect BlockStore ChainState ChainDb.
From stdpp Require Import gmap sorting.
#[local] Open Scope Z_scope.

Module Restart.
Import Params Validation BlockIndex Connect ChainDb.

(** ** One tree inside another *)

Section context.
Context `{SH : Sha256Impl}.

(** Every entry of [idx] is in [idx'], in the same place. *)
Definition sub (idx idx' : BlockIndex) : Prop :=
  forall h e, Find idx h = Some e -> exists e', Find idx' h = Some e' /\ same_place e e'.

Lemma same_tree_sub idx idx' : same_tree idx idx' -> sub idx idx'.
Proof. intros T h e E. by apply (same_tree_find_r idx). Qed.

Lemma same_tree_sub_r idx idx' : same_tree idx idx' -> sub idx' idx.
Proof. intros T h e E. destruct (same_tree_find _ _ _ _ T E) as (x & Ex & S). exists x. split; [done|by symmetry]. Qed.

Lemma sub_place idx idx' h e e' : sub idx idx' -> Find idx h = Some e -> Find idx' h = Some e' -> same_place e e'.
Proof. intros S E E'. destruct (S h e E) as (x & Ex & P). by simplify_eq. Qed.

Lemma sub_descends idx idx' a h : sub idx idx' -> descends idx a h -> descends idx' a h.
Proof.
  intros S. induction 1 as [|c e p Ec Ep D IH]; [constructor|]. destruct (S c e Ec) as (e' & Ec' & P).
  destruct P as (_ & _ & _ & _ & P & _). eapply desc_child; [exact Ec'|by rewrite <- P|done].
Qed.

Lemma collect_sub idx idx' n : index_inv idx -> sub idx idx' -> forall h e e', Find idx h = Some e -> Find idx' h = Some e' ->
  collect_timestamps n idx (Some e) = collect_timestamps n idx' (Some e').
Proof.
  intros I S. induction n as [|n IH]; intros h e e' E E'; [done|].
  pose proof (sub_place _ _ _ _ _ S E E') as (Ph & _ & _ & _ & Pp & _). cbn. rewrite Ph. f_equal. unfold parent. rewrite <- Pp.
  destruct (inv_parent _ _ _ I E) as [(_ & -> & _)|(p & pe & -> & Ep & _)]; [by destruct n|].
  cbn. rewrite Ep. destruct (S p pe Ep) as (pe' & Ep' & _). rewrite Ep'. by apply (IH p).
Qed.

(** A header is judged alike in both. *)
Lemma context_sub idx idx' h e e' now params ts : index_inv idx -> sub idx idx' -> Find idx h = Some e -> Find idx' h = Some e' ->
  HeaderContextFor idx e now params ts = HeaderContextFor idx' e' now params ts.
Proof.
  intros I S E E'. pose proof (sub_place _ _ _ _ _ S E E') as (Ph & Pa & Pt & _).
  unfold HeaderContextFor, MedianTimePastAt, NextTargetBitsAt, NextTargetBits. rewrite Ph, Pa, Pt.
  by rewrite (collect_sub idx idx' _ I S h e e' E E').
Qed.

(** What a verdict does to each entry. *)
Lemma RecordFailure_fallen h idx k idx' x e e' : index_inv idx -> RecordFailure h idx = Some (k, idx') ->
  Find idx x = Some e -> Find idx' x = Some e' -> fallen idx h x e e'.
Proof.
  intros I R E E'. unfold RecordFailure in R. assert (forall e, fallen idx h x e e) as Same by (intros ?; split_and!; [done|done|by left]).
  destruct (Find idx h) as [root|] eqn:Er; [|injection R as <- <-; simplify_eq; apply Same].
  destruct (IsEligible root) eqn:El; cbn [negb] in R; [|injection R as <- <-; simplify_eq; apply Same].
  apply IsEligible_true in El.
  destruct (failure_loop_spec idx h (S (S (size (BlockIndex.entries_ idx)))) _ 1 [h] I (marking_init idx h root I Er El)) as (m & j & Fl & M).
  { pose proof (candidates_mark (BlockIndex.entries_ idx) h root FItself Er El ltac:(done)).
    pose proof (candidates_le (BlockIndex.entries_ idx)). simpl. lia. }
  rewrite Fl in R. cbn in R. injection R as _ <-.
  assert (Find (with_entries idx m) x = Some e') as E'' by (by case_match).
  pose proof (mk_fallen _ _ _ _ _ M x) as F. unfold Find in E, E''. cbn in E''. rewrite E, E'' in F. by inversion F.
Qed.
End context.

(** ** What a history keeps *)

Section history.
Context `{SH : Sha256Impl} (net : Network).
Abbreviation params := (ParamsFor net).

(** A node's index, from its network's genesis on: the fields of a header fit their
    types, and the clock its own. *)
Inductive grown : BlockIndex -> Prop :=
  | grown_new : grown (ForNetwork params)
  | grown_add idx header now : grown idx -> BlockHeader_ok header -> i64 now -> Size idx < 2 ^ 64 - 1 ->
      grown (AddHeader header now params idx).2
  | grown_validity idx h v : grown idx -> grown (RecordValidity h v idx)
  | grown_failure idx h k idx' : grown idx -> RecordFailure h idx = Some (k, idx') -> grown idx'.

Definition genesis_header : BlockHeader := blk_header (Genesis.BuildGenesisBlock params).

(** How an entry was let in. *)
Definition judged (idx : BlockIndex) (e : BlockIndexEntry) : Prop :=
  exists pe now, Find idx (hdr_prev_block (ent_header e)) = Some pe /\ ent_sequence pe < ent_sequence e /\ i64 now /\
    CheckBlockHeader (ent_header e) params = Accept /\
    ContextualCheckBlockHeader (ent_header e) (HeaderContextFor idx pe now params (Some (hdr_timestamp (ent_header e)))) params = Accept.

(** Why an entry is out. *)
Definition blamed (idx : BlockIndex) (h : bytes) : Prop :=
  exists a ae, descends idx a h /\ Find idx a = Some ae /\ ent_failure ae = FItself.

Record history (idx : BlockIndex) : Prop := {
  hi_inv : index_inv idx;
  hi_root : genesis_ idx = BlockHeader_Hash genesis_header;
  hi_genesis g : Find idx (genesis_ idx) = Some g ->
    exists g0, Find (ForNetwork params) (genesis_ idx) = Some g0 /\ same_place g0 g /\ ent_validity g = VFull;
  hi_header h e : Find idx h = Some e -> h <> genesis_ idx -> BlockHeader_ok (ent_header e);
  hi_judged h e : Find idx h = Some e -> h <> genesis_ idx -> judged idx e;
  hi_dense k : 0 <= k < next_sequence_ idx -> exists h e, Find idx h = Some e /\ ent_sequence e = k;
  hi_blamed h e : Find idx h = Some e -> ~ eligible e -> blamed idx h }.

Lemma judged_sub idx idx' e e' : index_inv idx -> sub idx idx' -> same_place e e' -> judged idx e -> judged idx' e'.
Proof.
  intros I S (Ph & _ & _ & _ & _ & Ps) (pe & now & Ep & Lt & Hn & C & X). destruct (S _ _ Ep) as (pe' & Ep' & (_ & _ & _ & _ & _ & Pq)).
  exists pe', now. rewrite <- Ph, <- Ps, <- Pq. split_and!; try done.
  by rewrite <- (context_sub idx idx' _ pe pe' now params _ I S Ep Ep').
Qed.

Lemma ForNetwork_find h e : Find (ForNetwork params) h = Some e ->
  h = BlockHeader_Hash genesis_header /\ ent_header e = genesis_header /\ ent_validity e = VFull /\ ent_failure e = FNone /\ ent_sequence e = 0.
Proof. unfold ForNetwork, new_BlockIndex, Find. cbn [BlockIndex.entries_]. rewrite lookup_singleton_Some. by intros [<- <-]. Qed.

Lemma ForNetwork_history : history (ForNetwork params).
Proof.
  pose proof (reachable_inv _ (ForNetwork_reachable net)) as I. split; [done|done| | | | |].
  - intros g E. exists g. split_and!; [done|done|]. by apply ForNetwork_find in E as (_ & _ & ? & _).
  - intros h e [-> _]%ForNetwork_find N. by destruct N.
  - intros h e [-> _]%ForNetwork_find N. by destruct N.
  - intros k Hk. destruct (inv_genesis _ I) as (g & E & _). exists (genesis_ (ForNetwork params)), g. split; [done|].
    apply ForNetwork_find in E as (_ & _ & _ & _ & ->). cbn in Hk. lia.
  - intros h e (_ & _ & _ & F & _)%ForNetwork_find N. by destruct N.
Qed.

Lemma AddHeader_history idx header now : history idx -> BlockHeader_ok header -> i64 now -> Size idx < 2 ^ 64 - 1 ->
  history (AddHeader header now params idx).2.
Proof.
  intros [I Hr Hg Hh Hj Hd Hb] Ok Hn Hs. pose proof (AddHeader_inv header now params idx I) as I'.
  destruct (Find idx (BlockHeader_Hash header)) as [x|] eqn:Ex.
  { unfold AddHeader. rewrite Ex. by split. }
  specialize (I' ltac:(by destruct Ok as (_ & _ & _ & _ & _ & ? & _)) Hs).
  destruct (AddHeader_new header now params idx I Ex) as [[e A]|(pe & best & C & Ep & Ele & X & _ & _ & A & _)]; rewrite A in *; cbn [snd] in *; [by split|].
  set (new := mkEntry _ _ _ _ _ _ _ _) in *. set (idx' := mkIndex _ _ _ _ _) in *.
  assert (forall h e, Find idx h = Some e -> Find idx' h = Some e) as Old.
  { intros h e E. unfold Find, idx' in *. cbn. rewrite lookup_insert_ne; [done|]. intros <-. congruence. }
  assert (forall h e, Find idx' h = Some e -> Find idx h = Some e \/ h = BlockHeader_Hash header /\ e = new) as Inv.
  { intros h e. unfold Find, idx'. cbn. rewrite lookup_insert_Some. naive_solver. }
  assert (sub idx idx') as S by (intros h e E; exists e; split; [by apply Old|done]).
  assert (next_sequence_ idx' = next_sequence_ idx + 1) as Nx.
  { cbn. apply wrapu_small. rewrite (inv_next _ I). unfold Size in *. lia. }
  destruct (inv_genesis _ I) as (g & Eg & _).
  split; [done|done| | | | |].
  - intros g' E'. change (genesis_ idx') with (genesis_ idx) in *. rewrite (Old _ _ Eg) in E'. injection E' as <-. by apply Hg.
  - intros h e [E|[-> ->]]%Inv N; [by eapply Hh|done].
  - intros h e [E|[-> ->]]%Inv N; [by apply (judged_sub idx idx' e e I S); [|eapply Hj]|].
    exists pe, now. split_and!; [by apply Old|by apply (inv_sequence _ I _ _ Ep)|done|done|].
    cbn [ent_header new]. by rewrite <- (context_sub idx idx' _ pe pe now params _ I S Ep (Old _ _ Ep)).
  - intros k Hk. rewrite Nx in Hk. destruct (decide (k = next_sequence_ idx)) as [->|].
    + exists (BlockHeader_Hash header), new. split; [|done]. unfold Find, idx'. cbn. by rewrite lookup_insert_eq.
    + destruct (Hd k ltac:(lia)) as (h & e & E & Eq). exists h, e. auto.
  - intros h e [E|[-> ->]]%Inv N; [|by destruct N]. destruct (Hb h e E N) as (a & ae & D & Ea & F).
    exists a, ae. split_and!; [by apply (sub_descends idx)|by apply Old|done].
Qed.

(** Verdicts change the history only in who is out. *)
Lemma verdict_history idx idx' : history idx -> index_inv idx' -> same_tree idx idx' ->
  (forall x e e', Find idx x = Some e -> Find idx' x = Some e' -> x = genesis_ idx -> ent_validity e = VFull -> ent_validity e' = VFull) ->
  (forall h e, Find idx' h = Some e -> ~ eligible e -> blamed idx' h) -> history idx'.
Proof.
  intros [I Hr Hg Hh Hj Hd Hb] I' T Hv B. pose proof (tree_genesis _ _ T) as G. split; [done|congruence| | | | |done].
  - intros g' E'. rewrite G in *. destruct (same_tree_find _ _ _ _ T E') as (g & E & P).
    destruct (Hg g E) as (g0 & E0 & P0 & V0). exists g0. split_and!; [done|by etrans|by eapply Hv].
  - intros h e' E' N. rewrite G in N. destruct (same_tree_find _ _ _ _ T E') as (e & E & (P & _)). rewrite <- P. by eapply Hh.
  - intros h e' E' N. rewrite G in N. destruct (same_tree_find _ _ _ _ T E') as (e & E & P).
    apply (judged_sub idx idx' e e' I (same_tree_sub _ _ T) P). by eapply Hj.
  - intros k Hk. rewrite (tree_next _ _ T) in Hk. destruct (Hd k Hk) as (h & e & E & <-).
    destruct (same_tree_find_r _ _ _ _ T E) as (e' & E' & (_ & _ & _ & _ & _ & P)). exists h, e'. split; congruence.
Qed.

Lemma RecordValidity_history idx h v : history idx -> history (RecordValidity h v idx).
Proof.
  intros Hi. destruct (RecordValidity_inv h v idx (hi_inv _ Hi)) as (I' & T & F). apply (verdict_history idx); try done.
  - intros x e e' E E' _ V. unfold RecordValidity in E'. destruct (Find idx h) as [s|] eqn:Es; [|congruence].
    destruct (Z.ltb_spec (validity_level (ent_validity s)) (validity_level v)) as [L|]; [|congruence].
    unfold Find, with_entries in *. cbn in E'. destruct (decide (x = h)) as [->|N]; [|rewrite lookup_insert_ne in E' by done; congruence].
    rewrite Es in E. injection E as ->. rewrite V in L. destruct v; cbn in L; lia.
  - intros x e' E' N. destruct (same_tree_find _ _ _ _ T E') as (e & E & P). specialize (F x) as Fx. rewrite E, E' in Fx.
    inversion Fx as [? ? Fe|]; subst. unfold eligible in N. rewrite <- Fe in N.
    destruct (hi_blamed _ Hi x e E N) as (a & ae & D & Ea & Fa). destruct (same_tree_find_r _ _ _ _ T Ea) as (ae' & Ea' & _).
    exists a, ae'. split_and!; [by apply (sub_descends idx _ _ _ (same_tree_sub _ _ T))|done|].
    specialize (F a). rewrite Ea, Ea' in F. inversion F as [? ? Fe'|]; subst. congruence.
Qed.

Lemma RecordFailure_history idx h k idx' : history idx -> RecordFailure h idx = Some (k, idx') -> history idx'.
Proof.
  intros Hi R. pose proof (hi_inv _ Hi) as I. destruct (RecordFailure_spec h idx I) as (k2 & i2 & R2 & I' & T & _ & V).
  rewrite R in R2. injection R2 as <- <-. pose proof (same_tree_sub _ _ T) as S.
  apply (verdict_history idx); try done.
  - intros x e e' E E' _ Ve. by destruct (V x e e' E E') as [<- _].
  - intros x e' E' N. destruct (same_tree_find _ _ _ _ T E') as (e & E & _).
    pose proof (RecordFailure_fallen h idx k idx' x e e' I R E E') as (_ & _ & [Fe|(El & D & _)]).
    + unfold eligible in N. rewrite Fe in N. destruct (hi_blamed _ Hi x e E N) as (a & ae & D & Ea & Fa).
      destruct (S a ae Ea) as (ae' & Ea' & _). exists a, ae'. split_and!; [by apply (sub_descends idx)|done|].
      pose proof (RecordFailure_fallen h idx k idx' a ae ae' I R Ea Ea') as (_ & _ & [Fe'|(El & _)]); [congruence|].
      unfold eligible in El. congruence.
    + destruct (descends_indexed idx h x I D) as [root Er]; [by rewrite E|].
      destruct (S h root Er) as (root' & Er' & _). exists h, root'. split_and!; [by apply (sub_descends idx)|done|].
      destruct (V h root root' Er Er') as [_ Ve].
      pose proof (RecordFailure_fallen h idx k idx' h root root' I R Er Er') as (_ & _ & [Fe'|(_ & _ & ->)]); [|by rewrite decide_True].
      destruct (decide (ent_failure root = FNone)) as [Er0|Er0].
      * assert (eligible root') as El' by (unfold eligible; congruence). apply Ve in El' as [_ []]. constructor.
      * destruct (descends_ineligible idx h x root I D Er Er0 e E El).
Qed.

Lemma grown_history idx : grown idx -> history idx.
Proof.
  induction 1 as [|idx header now _ IH Ok Hn Hs|idx h v _ IH|idx h k idx' _ IH R].
  - apply ForNetwork_history.
  - by apply AddHeader_history.
  - by apply RecordValidity_history.
  - by eapply RecordFailure_history.
Qed.
End history.
(** ** The replay *)

(** A record says of an entry all that cannot be derived. *)
Definition describes (s : StoredHeader) (e : BlockIndexEntry) : Prop :=
  st_header s = ent_header e /\ st_sequence s = ent_sequence e /\ st_validity s = ent_validity e /\
  (st_failure s = FItself <-> ent_failure e = FItself).

(** The records a node leaves: one for every entry but perhaps genesis, which is a
    parameter, unless genesis itself was ruled out. *)
Record current (log : gmap bytes StoredHeader) (idx : BlockIndex) : Prop := {
  cur_describes h s : log !! h = Some s -> exists e, Find idx h = Some e /\ describes s e;
  cur_complete h e : Find idx h = Some e -> h <> genesis_ idx \/ ent_failure e = FItself -> is_Some (log !! h) }.

Section replay.
Context `{SH : Sha256Impl} (net : Network) (idx : BlockIndex) (Hi : history net idx).
Abbreviation params := (ParamsFor net).

(** The first [k] arrivals are back, and nobody is out. *)
Record stage (k : Z) (j : BlockIndex) : Prop := {
  sg_inv : index_inv j;
  sg_genesis : genesis_ j = genesis_ idx;
  sg_next : next_sequence_ j = k;
  sg_back h e : Find idx h = Some e -> ent_sequence e < k ->
    exists e', Find j h = Some e' /\ same_place e e' /\ ent_validity e' = ent_validity e /\ eligible e';
  sg_known h e' : Find j h = Some e' -> exists e, Find idx h = Some e /\ ent_sequence e < k }.

Lemma stage_sub k j : stage k j -> sub j idx.
Proof.
  intros [I G N B K] h e' E'. destruct (K h e' E') as (e & E & L). destruct (B h e E L) as (x & Ex & P & _).
  simplify_eq. exists e. split; [done|by symmetry].
Qed.

Lemma stage_start : stage 1 (ForNetwork params).
Proof.
  pose proof (hi_inv _ _ Hi) as I. destruct (inv_genesis _ I) as (g & Eg & _).
  destruct (hi_genesis _ _ Hi g Eg) as (g0 & E0 & P & V). pose proof (hi_root _ _ Hi) as Gr.
  apply ForNetwork_find in E0 as F0. destruct F0 as (_ & _ & V0 & F0 & S0). split.
  - apply (reachable_inv _ (ForNetwork_reachable net)).
  - by rewrite Gr.
  - done.
  - intros h e E L. pose proof (inv_sequence _ I h e E) as B. destruct P as (P1 & P2 & P3 & P4 & P5 & P6).
    assert (h = genesis_ idx) as -> by (eapply (inv_unique _ I); [exact E|exact Eg|lia]).
    rewrite Eg in E. injection E as <-. exists g0. split_and!; [done|by repeat split|congruence|done].
  - intros h e' E'. pose proof (ForNetwork_find net h e' E') as (-> & _ & _ & _ & Sq). rewrite <- Gr. exists g. split; [done|].
    destruct P as (_ & _ & _ & _ & _ & P). lia.
Qed.

(** The clock a replay needs for a header. *)
Definition clock_ok (clock : Z) (header : BlockHeader) : Prop :=
  i64 clock /\ clock + MAX_FUTURE_BLOCK_SECONDS < 2 ^ 63 /\ hdr_timestamp header <= clock + MAX_FUTURE_BLOCK_SECONDS.

(** What was let in once is let in again, whatever the clock says now. *)
Lemma contextual_again header c c' : BlockHeader_ok header -> u32 (prev_height c) -> i64 (now c) ->
  prev_hash c' = prev_hash c -> prev_height c' = prev_height c -> median_time_past c' = median_time_past c ->
  expected_bits c' = expected_bits c -> clock_ok (now c') header ->
  ContextualCheckBlockHeader header c params = Accept -> ContextualCheckBlockHeader header c' params = Accept.
Proof.
  intros (_ & Oh & _ & _ & Ot & _) Hp Hn E1 E2 E3 E4 (Cc & Co & Ct) A.
  destruct (decide (now c + MAX_FUTURE_BLOCK_SECONDS < 2 ^ 63)) as [L|L].
  - apply ContextualCheckBlockHeader_Ok in A; try done. destruct A as (A1 & A2 & A3 & A4).
    apply ContextualCheckBlockHeader_Ok; try done; [by rewrite E2|]. unfold header_context_ok. rewrite E1, E2, E3, E4. split_and!; try done. lia.
  - exfalso. unfold ContextualCheckBlockHeader in A. repeat (case_match; try done).
    match goal with X : Overflow.CheckedAdd _ _ _ = Some _ |- _ => apply Overflow.CheckedAdd_Some in X as [-> X] end.
    unfold Overflow.in_type, Overflow.tmax in *. cbn in *. lia.
Qed.

Lemma replay_one k j h e clock : stage k j -> Find idx h = Some e -> ent_sequence e = k -> 1 <= k ->
  Size idx < 2 ^ 64 -> clock_ok clock (ent_header e) ->
  exists j', AddHeader (ent_header e) clock params j = (Found h, j') /\ stage (k + 1) (RecordValidity h (ent_validity e) j').
Proof.
  intros Sg E Sq K1 Hs Ck. pose proof (hi_inv _ _ Hi) as I. destruct Sg as [Ij G N B K].
  pose proof (stage_sub k j ltac:(by split)) as Sb.
  assert (h <> genesis_ idx) as Ng.
  { intros ->. destruct (hi_genesis _ _ Hi e E) as (g0 & E0 & P & _). apply ForNetwork_find in E0 as (_ & _ & _ & _ & S0).
    destruct P as (_ & _ & _ & _ & _ & P). lia. }
  destruct (inv_entry _ I h e E) as (Eh & Hh & Hht & Hr & Hw & Hb).
  destruct (hi_judged _ _ Hi h e E Ng) as (pe & nw & Ep & Lt & Hn & C & X). rewrite Sq in Lt.
  destruct (inv_linked _ I h e E Ng) as (p & pe' & Pp & Pq & Ep' & Ht & Wk & _). rewrite <- Pq in Pp, Ep'. rewrite Ep in Ep'. injection Ep' as <-.
  destruct (B _ _ Ep Lt) as (pj & Epj & Pj & Vj & Elj).
  assert (Find j h = None) as Fr.
  { destruct (Find j h) as [x|] eqn:Ex; [|done]. destruct (K h x Ex) as (y & Ey & L). simplify_eq. lia. }
  destruct (AddHeader_new (ent_header e) clock params j Ij) as [[er A]|(pe2 & best & _ & Ep2 & _ & _ & _ & _ & A & _)]; [by rewrite Hh| |].
  { exfalso. unfold AddHeader in A. rewrite Hh, Fr, C, Epj in A. apply IsEligible_true in Elj as El2. rewrite El2 in A. cbn [negb] in A.
    pose proof (context_sub j idx _ pj pe clock params (Some (hdr_timestamp (ent_header e))) Ij Sb Epj Ep) as Cx.
    rewrite (contextual_again (ent_header e) (HeaderContextFor idx pe nw params (Some (hdr_timestamp (ent_header e))))) in A;
      [done|by eapply hi_header|apply (inv_height _ _ _ I Ep)|done|by rewrite Cx..|done|done]. }
  rewrite Epj in Ep2. injection Ep2 as <-. rewrite Hh in A.
  assert (index_inv (AddHeader (ent_header e) clock params j).2) as I2.
  { apply AddHeader_inv; [done|done|]. rewrite <- (inv_next _ Ij), N. pose proof (inv_sequence _ I h e E). rewrite (inv_next _ I) in *. lia. }
  rewrite A in I2. cbn [snd] in I2. set (j' := mkIndex _ _ _ _ _) in *. exists j'. split; [exact A|].
  set (new := mkEntry _ _ _ _ _ _ _ _) in *.
  assert (same_place e new) as Pn.
  { destruct Pj as (_ & _ & _ & Pw & _). unfold new. split_and!; cbn; try done; [|by rewrite Sq, N]. rewrite Wk. by rewrite Pw. }
  destruct (RecordValidity_inv h (ent_validity e) j' I2) as (I3 & T & Fv).
  assert (Find j' h = Some new) as Fn by (unfold Find, j'; cbn; by rewrite lookup_insert_eq).
  assert (forall x, x <> h -> Find (RecordValidity h (ent_validity e) j') x = Find j x) as Oth.
  { intros x Nx. assert (Find j' x = Find j x) as Ej by (unfold Find, j'; cbn; by rewrite lookup_insert_ne).
    unfold RecordValidity. rewrite Fn. case_match; [|done]. unfold Find, with_entries. cbn. rewrite lookup_insert_ne by done. exact Ej. }
  assert (Find (RecordValidity h (ent_validity e) j') h = Some (set_validity (ent_validity e) new)) as Fh.
  { unfold RecordValidity. rewrite Fn. destruct (Z.ltb_spec (validity_level (ent_validity new)) (validity_level (ent_validity e))) as [L|L].
    - unfold Find, with_entries. cbn. by rewrite lookup_insert_eq.
    - rewrite Fn. f_equal. cbn in L. by destruct (ent_validity e). }
  split; [done| | | |].
  - rewrite (tree_genesis _ _ T). exact G.
  - rewrite (tree_next _ _ T). cbn. rewrite N. apply wrapu_small. pose proof (inv_sequence _ I h e E). rewrite (inv_next _ I) in *. lia.
  - intros x ex Ex L. destruct (decide (x = h)) as [->|Nx].
    + rewrite E in Ex. injection Ex as <-. exists (set_validity (ent_validity e) new). split_and!; done.
    + rewrite Oth by done. apply B; [done|]. destruct (decide (ent_sequence ex = k)) as [Ek|]; [|lia].
      destruct Nx. eapply (inv_unique _ I); [exact Ex|exact E|congruence].
  - intros x ex Ex. destruct (decide (x = h)) as [->|Nx]; [exists e; split; [done|lia]|].
    rewrite Oth in Ex by done. destruct (K x ex Ex) as (y & Ey & L). exists y. split; [done|lia].
Qed.
(** Strictly by arrival. *)
Definition arrived (l r : StoredHeader) : Prop := st_sequence l < st_sequence r.

(** The rest of the records, from the [k]-th arrival on. *)
Definition remaining (k : Z) (l : list StoredHeader) : Prop :=
  StronglySorted arrived l /\
  (forall s, s ∈ l -> exists h e, Find idx h = Some e /\ describes s e /\ k <= ent_sequence e) /\
  (forall h e, Find idx h = Some e -> k <= ent_sequence e -> exists s, s ∈ l /\ describes s e).

Lemma genesis_sequence h e : Find idx h = Some e -> h = genesis_ idx <-> ent_sequence e = 0.
Proof.
  intros E. pose proof (hi_inv _ _ Hi) as I. destruct (inv_genesis _ I) as (g & Eg & _).
  assert (ent_sequence g = 0) as S0.
  { destruct (hi_genesis _ _ Hi g Eg) as (g0 & E0 & (_ & _ & _ & _ & _ & <-) & _). by apply ForNetwork_find in E0 as (_ & _ & _ & _ & ->). }
  split; [intros ->; by simplify_eq|]. intros S. eapply (inv_unique _ I); [exact E|exact Eg|congruence].
Qed.

(** Only genesis has its header. *)
Lemma genesis_by_header j h e : genesis_ j = genesis_ idx -> index_inv j -> Find idx h = Some e ->
  Some (ent_header e) = ent_header <$> Genesis j -> h = genesis_ idx.
Proof.
  intros G Ij E Eq. pose proof (hi_inv _ _ Hi) as I. destruct (inv_genesis _ Ij) as (g & Eg & _). unfold Genesis in Eq. rewrite Eg in Eq.
  cbn in Eq. injection Eq as Eq. destruct (inv_entry _ I h e E) as (_ & <- & _). destruct (inv_entry _ Ij _ g Eg) as (_ & Hg & _).
  rewrite Eq, Hg. done.
Qed.

Lemma replay_headers_spec clock l : forall k j count, stage k j -> 1 <= k -> Size idx < 2 ^ 64 -> remaining k l ->
  Forall (fun s => clock_ok clock (st_header s)) l ->
  exists j' count', replay_headers params l clock j count = Some (j', count') /\ stage (next_sequence_ idx) j'.
Proof.
  induction l as [|s l IH]; intros k j count Sg K1 Hs (So & Fr & To) Ck.
  - exists j, count. split; [done|]. replace (next_sequence_ idx) with k; [done|].
    pose proof (hi_inv _ _ Hi) as I. assert (next_sequence_ j <= next_sequence_ idx) as Le.
    { destruct (decide (next_sequence_ j <= next_sequence_ idx)) as [|L]; [done|]. exfalso.
      pose proof (stage_sub k j Sg) as Sb.
      assert (Size j <= Size idx) as Sz.
      { unfold Size. apply inj_le. rewrite <- !size_dom. apply subseteq_size. intros x [y Ey]%elem_of_dom.
        destruct (Sb x y Ey) as (z & Ez & _). apply elem_of_dom. eauto. }
      rewrite <- (inv_next _ (sg_inv _ _ Sg)), <- (inv_next _ I) in Sz. lia. }
    rewrite (sg_next _ _ Sg) in Le. destruct (decide (k = next_sequence_ idx)) as [|Ne]; [done|].
    destruct (hi_dense _ _ Hi k ltac:(lia)) as (h & e & E & Q). destruct (To h e E ltac:(lia)) as (s & In & _). by apply elem_of_nil in In.
  - apply Forall_cons in Ck as [Ck1 Ck]. apply StronglySorted_inv in So as [So Hd].
    destruct (Fr s ltac:(constructor)) as (h & e & E & D & Le). pose proof (hi_inv _ _ Hi) as I.
    assert (ent_sequence e = k) as Eq.
    { pose proof (inv_sequence _ I h e E). destruct (hi_dense _ _ Hi k ltac:(lia)) as (hk & ek & Ek & Qk).
      destruct (To hk ek Ek ltac:(lia)) as (sk & [-> | In]%elem_of_cons & Dk).
      - destruct D as (_ & D & _), Dk as (_ & Dk & _). congruence.
      - apply (proj1 (Forall_forall _ _) Hd) in In. unfold arrived in In. destruct D as (_ & D & _), Dk as (_ & Dk & _). lia. }
    cbn [replay_headers]. destruct D as (Dh & Dq & Dv & Df). rewrite Dh, bool_decide_eq_false_2.
    2:{ intros X. apply (genesis_by_header j h e (sg_genesis _ _ Sg) (sg_inv _ _ Sg) E), (genesis_sequence h e E) in X. lia. }
    destruct (replay_one k j h e clock Sg E Eq K1 Hs) as (j' & -> & Sg'); [by rewrite <- Dh|]. rewrite Dv.
    apply (IH (k + 1)); [done|lia|done| |done]. split_and!; [done| |].
    + intros s' In. destruct (Fr s' ltac:(by constructor)) as (h' & e' & E' & D' & L'). exists h', e'. split_and!; [done|done|].
      apply (proj1 (Forall_forall _ _) Hd) in In. unfold arrived in In. destruct D' as (_ & D' & _). lia.
    + intros h' e' E' L'. destruct (To h' e' E' ltac:(lia)) as (s' & [-> | In]%elem_of_cons & D'); [|eauto].
      destruct D' as (_ & D' & _). lia.
Qed.

(** *** Failures *)

(** Everybody back, out exactly below the failures recorded so far. *)
Record rejudged (seen : list StoredHeader) (j : BlockIndex) : Prop := {
  rj_inv : index_inv j;
  rj_genesis : genesis_ j = genesis_ idx;
  rj_next : next_sequence_ j = next_sequence_ idx;
  rj_entries h : option_Forall2 (fun e e' => same_place e e' /\ ent_validity e' = ent_validity e) (Find idx h) (Find j h);
  rj_out h e : Find j h = Some e -> eligible e <->
    forall s, s ∈ seen -> st_failure s = FItself -> ~ descends idx (BlockHeader_Hash (st_header s)) h }.

Lemma rejudged_sub seen j : rejudged seen j -> sub idx j /\ sub j idx.
Proof.
  intros [_ _ _ En _]. split; intros h e E; specialize (En h); rewrite E in En; inversion En as [x y [P V] Ex Ey|]; subst.
  - exists y. done.
  - exists x. split; [done|by symmetry].
Qed.

Lemma stage_rejudged j : stage (next_sequence_ idx) j -> rejudged [] j.
Proof.
  intros Sg. pose proof (hi_inv _ _ Hi) as I. split.
  - apply Sg.
  - apply Sg.
  - apply Sg.
  - intros h. destruct (Find idx h) as [e|] eqn:E.
    + destruct (sg_back _ _ Sg h e E) as (e' & -> & P & V & _); [by apply (inv_sequence _ I h e E)|]. by constructor.
    + destruct (Find j h) as [e'|] eqn:E'; [|constructor]. destruct (sg_known _ _ Sg h e' E') as (e & E2 & _). congruence.
  - intros h e' E'. split; [intros _ s In; by apply elem_of_nil in In|]. intros _.
    destruct (sg_known _ _ Sg h e' E') as (e & E & L). destruct (sg_back _ _ Sg h e E L) as (x & Ex & _ & _ & El). by simplify_eq.
Qed.

Lemma replay_failures_spec l : forall seen j, rejudged seen j ->
  (forall s, s ∈ l -> exists h e, Find idx h = Some e /\ describes s e) ->
  exists j', replay_failures l j = Some (Some j') /\ rejudged (seen ++ l) j'.
Proof.
  induction l as [|s l IH]; intros seen j Rj De; [exists j; by rewrite app_nil_r|]. cbn [replay_failures].
  assert (forall x, x ∈ l -> exists h e, Find idx h = Some e /\ describes x e) as De' by (intros x In; apply De; by constructor).
  assert (forall j', rejudged (seen ++ [s]) j' -> exists j2, replay_failures l j' = Some (Some j2) /\ rejudged (seen ++ s :: l) j2) as Go.
  { intros j' R'. destruct (IH _ _ R' De') as (j2 & E2 & R2). exists j2. split; [done|]. by rewrite <- app_assoc in R2. }
  case_bool_decide as Ff; cbn [negb].
  2:{ apply Go. destruct Rj as [Ij G N En Ou]. split; try done. intros h e E. rewrite (Ou h e E). split.
      - intros Al x [In|In%list_elem_of_singleton]%elem_of_app F; [by apply Al|congruence].
      - intros Al x In. apply Al. apply elem_of_app. by left. }
  destruct (De s ltac:(constructor)) as (h & e & E & (Dh & _)). pose proof (hi_inv _ _ Hi) as I.
  destruct (inv_entry _ I h e E) as (_ & Hh & _). rewrite Dh, Hh. destruct (rejudged_sub seen j Rj) as [S1 S2].
  destruct (S1 h e E) as (e' & E' & P). rewrite E'. destruct Rj as [Ij G N En Ou].
  rewrite (BlockIndex.inv_hash _ _ _ Ij E'). destruct (RecordFailure_spec h j Ij) as (k & j' & -> & Ij' & T & _ & V). cbn [mbind option_bind].
  apply Go. split.
  - done.
  - rewrite (tree_genesis _ _ T). done.
  - rewrite (tree_next _ _ T). done.
  - intros x. specialize (En x). destruct (Find idx x) as [a|] eqn:Ea, (Find j x) as [b|] eqn:Eb; inversion En as [? ? [Pa Va]|]; subst.
    + destruct (same_tree_find_r _ _ _ _ T Eb) as (c & Ec & Pc). rewrite Ec. constructor. split; [by etrans|].
      destruct (V x b c Eb Ec) as [Vc _]. congruence.
    + destruct (Find j' x) as [c|] eqn:Ec; [|constructor]. destruct (same_tree_find _ _ _ _ T Ec) as (b & Eb' & _). congruence.
  - intros x c Ec. destruct (same_tree_find _ _ _ _ T Ec) as (b & Eb & _). destruct (V x b c Eb Ec) as [_ ->]. rewrite (Ou x b Eb). split.
    + intros [Al Nd] y [In|In%list_elem_of_singleton]%elem_of_app F; [by apply Al|]. subst y. rewrite Dh, Hh. intros Dd. apply Nd. by apply (sub_descends idx).
    + intros Al. split; [intros y In; apply Al; apply elem_of_app; by left|]. intros Dd.
      apply (Al s); [apply elem_of_app; right; constructor|done|]. rewrite Dh, Hh. by apply (sub_descends j).
Qed.
(** *** All of it *)

(** The same index: place, progress and verdict of every entry, and the choice of tip. *)
Record restored_as (j : BlockIndex) : Prop := {
  rs_inv : index_inv j;
  rs_genesis : genesis_ j = genesis_ idx;
  rs_next : next_sequence_ j = next_sequence_ idx;
  rs_best : best_header_ j = best_header_ idx;
  rs_entries h : option_Forall2 (fun e e' => same_place e e' /\ ent_validity e' = ent_validity e /\ (eligible e' <-> eligible e))
    (Find idx h) (Find j h) }.

(** The best tip is determined by the entries. *)
Lemma best_agree j : index_inv j ->
  (forall h, option_Forall2 (fun e e' => same_place e e' /\ (eligible e' <-> eligible e)) (Find idx h) (Find j h)) ->
  best_header_ j = best_header_ idx.
Proof.
  intros Ij En. pose proof (hi_inv _ _ Hi) as I.
  assert (forall h e, Find idx h = Some e -> exists e', Find j h = Some e' /\ same_place e e' /\ (eligible e' <-> eligible e)) as To.
  { intros h e E. specialize (En h). rewrite E in En. inversion En as [x y [P V] Ex Ey|]; subst. exists y. done. }
  assert (forall h e', Find j h = Some e' -> exists e, Find idx h = Some e /\ same_place e e' /\ (eligible e' <-> eligible e)) as Fr.
  { intros h e E. specialize (En h). rewrite E in En. inversion En as [x y [P V] Ex Ey|]; subst. exists x. done. }
  destruct (best_lookup j Ij) as [[-> Nj]|(b & be & Eb & _ & Fb & El & Hb)], (best_lookup idx I) as [[-> Ni]|(c & ce & Ec & _ & Fc & El' & Hc)].
  - done.
  - destruct (To c ce Fc) as (ce' & Fc' & _ & V). destruct (Nj c ce' Fc'). by apply V.
  - destruct (Fr b be Fb) as (be' & Fb' & _ & V). destruct (Ni b be' Fb'). by apply V.
  - rewrite Eb, Ec. f_equal. destruct (To c ce Fc) as (ce' & Fc' & Pc & Vc), (Fr b be Fb) as (be' & Fb' & Pb & Vb).
    specialize (Hb c ce' Fc'). specialize (Hc b be' Fb').
    assert (Work.is_work (ent_total_work ce')) as W1 by exact (inv_is_work j c ce' Ij Fc').
    assert (Work.is_work (ent_total_work be)) as W2 by exact (inv_is_work j b be Ij Fb).
    assert (Work.is_work (ent_total_work be')) as W3 by exact (inv_is_work idx b be' I Fb').
    assert (Work.is_work (ent_total_work ce)) as W4 by exact (inv_is_work idx c ce I Fc).
    apply not_true_iff_false in Hb, Hc. rewrite IsBetterTip_iff in Hb, Hc by done.
    destruct Pc as (_ & _ & _ & Wc & _ & Sc), Pb as (_ & _ & _ & Wb & _ & Sb). unfold heavier, work_of in *. rewrite Wb, Sb in Hc. rewrite <- Wc, <- Sc in Hb.
    assert (ent_sequence be = ent_sequence ce) as Sq.
    { destruct (Z.lt_trichotomy (be_val (ent_total_work be)) (be_val (ent_total_work ce))) as [L|[L|L]].
      - destruct Hb. split; [by apply Vc|]. right. by left.
      - destruct (Z.lt_trichotomy (ent_sequence be) (ent_sequence ce)) as [Q|[Q|Q]]; [|done|].
        + destruct Hc. split; [by apply Vb|]. right. right. done.
        + destruct Hb. split; [by apply Vc|]. right. right. done.
      - destruct Hc. split; [by apply Vb|]. right. by left. }
    eapply (inv_unique _ I); [exact Fb'|exact Fc|congruence].
Qed.

(** Out is below a failure on record. *)
Lemma out_iff log h e : current log idx -> Find idx h = Some e ->
  eligible e <-> forall s, s ∈ (map_to_list log).*2 -> st_failure s = FItself -> ~ descends idx (BlockHeader_Hash (st_header s)) h.
Proof.
  intros Cu E. pose proof (hi_inv _ _ Hi) as I. split.
  - intros El s ([a s'] & -> & In%elem_of_map_to_list)%list_elem_of_fmap F D. cbn [snd] in *.
    destruct (cur_describes _ _ Cu a s' In) as (ae & Ea & (Dh & _ & _ & Df)). apply Df in F.
    destruct (inv_entry _ I a ae Ea) as (_ & Hh & _). rewrite Dh, Hh in D.
    apply (descends_ineligible idx a h ae I D Ea) with (e := e); [unfold eligible; congruence|done|done].
  - intros Al. destruct (decide (ent_failure e = FNone)) as [|N]; [done|]. exfalso.
    destruct (hi_blamed _ _ Hi h e E N) as (a & ae & D & Ea & Fa).
    destruct (cur_complete _ _ Cu a ae Ea ltac:(by right)) as [s Es]. destruct (cur_describes _ _ Cu a s Es) as (ae' & Ea' & (Dh & _ & _ & Df)).
    rewrite Ea in Ea'. injection Ea' as <-. destruct (inv_entry _ I a ae Ea) as (_ & Hh & _).
    apply (Al s); [apply list_elem_of_fmap; exists (a, s); split; [done|by apply elem_of_map_to_list]|by apply Df|by rewrite Dh, Hh].
Qed.

Lemma clock_covers l now : i64 now -> forall c, c = replay_clock now l -> Forall (fun s => hdr_timestamp (st_header s) < 2 ^ 63) l ->
  Forall (fun s => clock_ok c (st_header s)) l.
Proof.
  intros Hn c -> Ht. unfold replay_clock, clock_ok, MAX_FUTURE_BLOCK_SECONDS, i64 in *.
  assert (forall n, n <= fold_left (fun clock s => Z.max clock (hdr_timestamp (st_header s))) l n /\
    Forall (fun s => hdr_timestamp (st_header s) <= fold_left (fun clock s => Z.max clock (hdr_timestamp (st_header s))) l n) l) as K.
  { induction l as [|s l IH]; intros n; [split; [done|constructor]|]. apply Forall_cons in Ht as [_ Ht]. cbn [fold_left].
    destruct (IH Ht (Z.max n (hdr_timestamp (st_header s)))) as [L F]. split; [lia|]. constructor; [lia|done]. }
  destruct (K now) as [L F]. apply Forall_forall. intros s In. apply (proj1 (Forall_forall _ _) F) in In as L'.
  apply (proj1 (Forall_forall _ _) Ht) in In as L''. lia.
Qed.

Lemma sorted_strictly l : StronglySorted arrived_before l -> NoDup (st_sequence <$> l) -> StronglySorted arrived l.
Proof.
  induction 1 as [|s l So IH Hd]; intros Nd; [constructor|]. cbn in Nd. apply NoDup_cons in Nd as [Ni Nd].
  constructor; [by apply IH|]. apply Forall_forall. intros x In. apply (proj1 (Forall_forall _ _) Hd) in In as Le. unfold arrived_before, arrived in *.
  destruct (decide (st_sequence s = st_sequence x)) as [Eq|]; [|lia]. destruct Ni. rewrite Eq. apply list_elem_of_fmap. eauto.
Qed.

Lemma log_sequences log : current log idx -> NoDup (st_sequence <$> (map_to_list log).*2).
Proof.
  intros Cu. pose proof (hi_inv _ _ Hi) as I. rewrite <- list_fmap_compose. apply NoDup_fmap_2_strong; [|apply NoDup_map_to_list].
  intros [a s] [b t] Ia%elem_of_map_to_list Ib%elem_of_map_to_list Eq. cbn in Eq.
  destruct (cur_describes _ _ Cu a s Ia) as (ae & Ea & (_ & Da & _)), (cur_describes _ _ Cu b t Ib) as (be & Eb & (_ & Db & _)).
  assert (a = b) as -> by (eapply (inv_unique _ I); [exact Ea|exact Eb|congruence]). congruence.
Qed.
Lemma log_remaining log l : current log idx -> l ≡ₚ (map_to_list log).*2 -> StronglySorted arrived_before l ->
  remaining 1 l \/ exists s t, l = s :: t /\ st_header s = genesis_header net /\ remaining 1 t.
Proof.
  intros Cu P So. pose proof (hi_inv _ _ Hi) as I.
  assert (StronglySorted arrived l) as Ss by (apply sorted_strictly; [done|rewrite P; by apply log_sequences]).
  assert (forall s, s ∈ l -> exists h e, Find idx h = Some e /\ describes s e) as De.
  { intros s In. rewrite P in In. apply list_elem_of_fmap in In as ([h s'] & -> & In%elem_of_map_to_list). cbn.
    destruct (cur_describes _ _ Cu h s' In) as (e & E & D). eauto. }
  assert (forall h e, Find idx h = Some e -> 1 <= ent_sequence e -> exists s, s ∈ l /\ describes s e) as To.
  { intros h e E L. destruct (cur_complete _ _ Cu h e E) as [s Es]; [left; rewrite (genesis_sequence h e E); lia|].
    destruct (cur_describes _ _ Cu h s Es) as (e' & E' & D). simplify_eq. exists s. split; [|done]. rewrite P.
    apply list_elem_of_fmap. exists (h, s). split; [done|by apply elem_of_map_to_list]. }
  destruct l as [|s l]; [left; unfold remaining; split_and!; [done|by intros s ?%elem_of_nil|done]|].
  destruct (De s ltac:(constructor)) as (h & e & E & D). pose proof (inv_sequence _ I h e E) as Bo.
  apply StronglySorted_inv in Ss as Si. destruct Si as [Sl Hd].
  destruct (decide (ent_sequence e = 0)) as [Z|Nz].
  - right. exists s, l. destruct D as (Dh & Dq & _). unfold remaining. split_and!; [done| |done| |].
    + apply (genesis_sequence h e E) in Z as ->. destruct (hi_genesis _ _ Hi e E) as (g0 & E0 & (Ph & _) & _).
      apply ForNetwork_find in E0 as (_ & Hg & _). congruence.
    + intros x In. destruct (De x ltac:(by constructor)) as (hx & ex & Ex & Dx). exists hx, ex. split_and!; [done|done|].
      apply (proj1 (Forall_forall _ _) Hd) in In. unfold arrived in In. destruct Dx as (_ & Dx & _). lia.
    + intros hx ex Ex L. destruct (To hx ex Ex L) as (x & [-> | In]%elem_of_cons & Dx); [|eauto]. destruct Dx as (_ & Dx & _). lia.
  - left. unfold remaining. split_and!; [done| |done]. intros x In. destruct (De x In) as (hx & ex & Ex & Dx). exists hx, ex. split_and!; [done|done|].
    apply elem_of_cons in In as [->|In]; [destruct D as (_ & Dq & _), Dx as (_ & Dx & _); lia|].
    apply (proj1 (Forall_forall _ _) Hd) in In. unfold arrived in In. destruct D as (_ & Dq & _), Dx as (_ & Dx & _). lia.
Qed.

Lemma entry_timestamp h e : Find idx h = Some e -> hdr_timestamp (ent_header e) < 2 ^ 63.
Proof.
  intros E. destruct (decide (h = genesis_ idx)) as [->|N].
  - destruct (hi_genesis _ _ Hi e E) as (g0 & E0 & (Ph & _) & _). apply ForNetwork_find in E0 as (_ & Hg & _). rewrite <- Ph, Hg.
    destruct net; vm_compute; reflexivity.
  - destruct (hi_header _ _ Hi h e E N) as (_ & _ & _ & _ & T & _). unfold i64 in T. lia.
Qed.

(** Whether an entry is known and not out. *)
Definition eligible_at (t : bytes) : bool := match Find idx t with Some e => IsEligible e | None => false end.

Lemma rebuild_spec log l committed now : current log idx -> l ≡ₚ (map_to_list log).*2 -> StronglySorted arrived_before l ->
  Size idx < 2 ^ 64 -> i64 now -> (forall t, committed = Some t -> is_Some (Find idx t)) ->
  exists j count, restored_as j /\
    rebuild params l committed now = Some (match committed with
      | None => inr (mkLoaded j (genesis_ idx) count)
      | Some t => if eligible_at t then inr (mkLoaded j t count) else inl CorruptRecord
      end).
Proof.
  intros Cu P So Hs Hn Ht. pose proof (hi_inv _ _ Hi) as I.
  assert (forall s, s ∈ l -> exists h e, Find idx h = Some e /\ describes s e) as De.
  { intros s In. rewrite P in In. apply list_elem_of_fmap in In as ([h s'] & -> & In%elem_of_map_to_list).
    destruct (cur_describes _ _ Cu h s' In) as (e & E & D). eauto. }
  assert (Forall (fun s => clock_ok (replay_clock now l) (st_header s)) l) as Ck.
  { apply (clock_covers l now Hn); [done|]. apply Forall_forall. intros s In. destruct (De s In) as (h & e & E & (-> & _)).
    by apply (entry_timestamp h). }
  assert (exists j count, replay_headers params l (replay_clock now l) (ForNetwork params) 0 = Some (j, count) /\
    stage (next_sequence_ idx) j) as (j & count & Er & Sg).
  { clear De. revert Ck. generalize (replay_clock now l) as c. intros c Ck.
    destruct (log_remaining log l Cu P So) as [Re|(s & t & El & Hh & Re)].
    - by apply (replay_headers_spec _ l 1); [apply stage_start|lia|..].
    - rewrite El in Ck |- *. cbn [replay_headers]. rewrite Hh, bool_decide_eq_true_2.
      + apply Forall_cons in Ck as [_ Ck]. by apply (replay_headers_spec _ t 1); [apply stage_start|lia|..].
      + destruct (inv_genesis _ (reachable_inv _ (ForNetwork_reachable net))) as (g & Eg & _). unfold Genesis. rewrite Eg.
        apply ForNetwork_find in Eg as (_ & Hg & _). cbn. by rewrite Hg. }
  destruct (replay_failures_spec l [] j (stage_rejudged j Sg) De) as (j' & Ef & Rj). cbn [app] in Rj.
  assert (restored_as j') as Rs.
  { assert (forall h, option_Forall2 (fun e e' => same_place e e' /\ ent_validity e' = ent_validity e /\ (eligible e' <-> eligible e))
      (Find idx h) (Find j' h)) as En.
    { intros h. pose proof (rj_entries _ _ Rj h) as R. destruct (Find idx h) as [e|] eqn:E, (Find j' h) as [e'|] eqn:E';
        inversion R as [? ? [Pl V]|]; subst; constructor. split_and!; [done|done|].
      rewrite (rj_out _ _ Rj h e' E'), (out_iff log h e Cu E). setoid_rewrite P. done. }
    split; [apply Rj|apply Rj|apply Rj| |done]. apply best_agree; [apply Rj|]. intros h. specialize (En h).
    inversion En as [? ? (? & ? & ?)|]; by constructor. }
  exists j', count. split; [done|]. unfold rebuild. rewrite Er, Ef. cbn [mbind option_bind].
  destruct committed as [t|]; [|by rewrite (rs_genesis _ Rs)]. destruct (Ht t eq_refl) as [e E].
  pose proof (rs_entries _ Rs t) as En. rewrite E in En. inversion En as [? e' (Pl & _ & El) Eq1 Eq2|]; subst.
  unfold eligible_at. rewrite E. assert (IsEligible e' = IsEligible e) as ->.
  { unfold IsEligible. by apply bool_decide_ext. }
  rewrite (BlockIndex.inv_hash _ _ _ (rs_inv _ Rs) (eq_sym Eq2)). by destruct (IsEligible e).
Qed.
End replay.
End Restart.
