(* ===== verification/HeaderLog.v ===== *)
(** * The headers a node leaves behind (src/chain/chain_state.cpp with
    src/storage/chain_db.cpp under it)

    A node tells its sink of every entry it adds and of every verdict it records, and of
    every tip it moves to.  [HeaderLog] is what a sink that keeps them promises; under it,
    a node whose sink never faulted has left a complete log of its index
    ([Restart.current]) and its tip.  The chain database is such a sink, so the node can
    be started again from it: the index and the chain are the ones it had. *)

From S2P Require Import Prelude Overflow Serialize Hex Crypto Primitives Target Work Asert Issuance Params Merkle Sighash Validation Genesis BlockIndex Coins Connect BlockStore ChainState ChainDb Restart.
From stdpp Require Import gmap sorting.
#[local] Open Scope Z_scope.

Module HeaderLog.
Import Params Validation BlockIndex Connect BlockStore ChainState ChainDb Restart.

(** ** The promise *)

(** [Logs k log] and [Committed k tip]: what the sink has kept. *)
Class HeaderLog (K V : Type) `{ChainSink K V} := {
  Logs : K -> gmap bytes StoredHeader -> Prop;
  Committed : K -> option bytes -> Prop;
  CommitHeader_logs e k ok k' log tip : CommitHeader e k = (ok, k') -> HasFault k' = false -> Stored_ok (record_of e) ->
    HasFault k = false /\ (Logs k log -> Logs k' (<[ent_hash e := record_of e]> log)) /\ (Committed k tip -> Committed k' tip);
  CommitTip_logs changes t k ok changes' k' log : CommitTip changes t k = (ok, changes', k') -> HasFault k' = false ->
    HasFault k = false /\ (Logs k log -> Logs k' log) /\ Committed k' (Some t) }.

(** ** The log while an entry is being changed *)

(** Complete but for the entry [x] names. *)
Record but_for (x : option bytes) (log : gmap bytes StoredHeader) (idx : BlockIndex) : Prop := {
  bf_describes h s : log !! h = Some s -> exists e, Find idx h = Some e /\ (Some h <> x -> describes s e);
  bf_complete h e : Find idx h = Some e -> Some h <> x -> h <> genesis_ idx \/ ent_failure e = FItself -> is_Some (log !! h) }.

Lemma but_for_current log idx : but_for None log idx <-> current log idx.
Proof.
  split; intros [D C]; split.
  - intros h s E. destruct (D h s E) as (e & Ee & De). eauto.
  - eauto.
  - intros h s E. destruct (D h s E) as (e & Ee & De). eauto.
  - eauto.
Qed.

Lemma but_for_weaken x log idx : but_for None log idx -> but_for x log idx.
Proof. intros [D C]. split; [|eauto]. intros h s E. destruct (D h s E) as (e & Ee & De). eauto. Qed.

Section changes.
Context `{SH : Sha256Impl}.

Lemma but_for_commit h e log idx : index_inv idx -> Find idx h = Some e -> but_for (Some h) log idx ->
  but_for None (<[ent_hash e := record_of e]> log) idx.
Proof.
  intros I E [D C]. rewrite (BlockIndex.inv_hash _ _ _ I E). split.
  - intros x s. rewrite lookup_insert_Some. intros [[<- <-]|[N Es]]; [exists e; split; [done|]; by repeat split|].
    destruct (D x s Es) as (ex & Ex & Dx). exists ex. split; [done|]. intros _. apply Dx. congruence.
  - intros x ex Ex _ G. destruct (decide (x = h)) as [->|N]; [rewrite lookup_insert_eq; eauto|]. rewrite lookup_insert_ne by done.
    apply (C x ex Ex); [congruence|done].
Qed.

Lemma but_for_add header now params log idx : index_inv idx -> but_for None log idx ->
  but_for (Some (BlockHeader_Hash header)) log (AddHeader header now params idx).2.
Proof.
  intros I B. destruct (Find idx (BlockHeader_Hash header)) as [x|] eqn:Ex.
  { unfold AddHeader. rewrite Ex. by apply but_for_weaken. }
  destruct (AddHeader_new header now params idx I Ex) as [[e A]|(pe & best & _ & _ & _ & _ & _ & _ & A & _)]; rewrite A; cbn [snd];
    [by apply but_for_weaken|].
  set (idx' := mkIndex _ _ _ _ _). assert (forall h, h <> BlockHeader_Hash header -> Find idx' h = Find idx h) as Oth.
  { intros h N. unfold Find, idx'. cbn. by rewrite lookup_insert_ne. }
  destruct B as [D C]. split.
  - intros h s E. destruct (D h s E) as (e & Ee & De). exists e. split; [|intros _; by apply De].
    rewrite Oth; [done|]. congruence.
  - intros h e E N G. rewrite Oth in E by congruence. by apply (C h e).
Qed.

(** Changes that move nothing and blame nobody else. *)
Lemma but_for_verdict h log idx idx' : same_tree idx idx' ->
  (forall x e e', Find idx x = Some e -> Find idx' x = Some e' -> x <> h ->
    ent_validity e' = ent_validity e /\ (ent_failure e' = FItself <-> ent_failure e = FItself)) ->
  but_for (Some h) log idx -> but_for (Some h) log idx'.
Proof.
  intros T V [D C]. split.
  - intros x s E. destruct (D x s E) as (e & Ee & De). destruct (same_tree_find_r _ _ _ _ T Ee) as (e' & Ee' & P).
    exists e'. split; [done|]. intros N. destruct (De N) as (D1 & D2 & D3 & D4). destruct P as (P1 & _ & _ & _ & _ & P6).
    destruct (V x e e' Ee Ee') as [V1 V2]; [congruence|]. split_and!; [congruence|congruence|congruence|]. by rewrite V2.
  - intros x e' E' N G. destruct (same_tree_find _ _ _ _ T E') as (e & E & _). destruct (V x e e' E E') as [_ V2]; [congruence|].
    apply (C x e E N). rewrite (tree_genesis _ _ T), V2 in G. done.
Qed.

Lemma but_for_validity h v log idx : index_inv idx -> but_for (Some h) log idx -> but_for (Some h) log (RecordValidity h v idx).
Proof.
  intros I. destruct (RecordValidity_inv h v idx I) as (_ & T & F). apply but_for_verdict; [done|]. intros x e e' E E' N. split.
  - unfold RecordValidity in E'. destruct (Find idx h) as [s|]; [|congruence]. case_match; [|congruence].
    unfold Find, with_entries in *. cbn in E'. rewrite lookup_insert_ne in E' by done. congruence.
  - specialize (F x). rewrite E, E' in F. inversion F as [? ? Fe|]; subst. by rewrite Fe.
Qed.

Lemma but_for_failure h k log idx idx' : index_inv idx -> RecordFailure h idx = Some (k, idx') ->
  but_for (Some h) log idx -> but_for (Some h) log idx'.
Proof.
  intros I R. destruct (RecordFailure_spec h idx I) as (k2 & i2 & R2 & _ & T & _ & V). rewrite R in R2. injection R2 as <- <-.
  apply but_for_verdict; [done|]. intros x e e' E E' N. destruct (V x e e' E E') as [Va _]. split; [done|].
  pose proof (RecordFailure_fallen h idx k idx' x e e' I R E E') as (_ & _ & [->|(El & _ & ->)]); [done|].
  rewrite decide_False by done. unfold eligible in El. rewrite El. split; done.
Qed.
End changes.

(** ** The log along a run *)

Section logging.
Context `{SH : Sha256Impl} `{SB : Signature.SignatureBackends} {V D K : Type} (net : Network).
Context `{CoinsView V} `{BlockStore D} `{!LawfulStore D} `{CS : ChainSink K V} `{HL : @HeaderLog K V CS}.
Abbreviation params := (ParamsFor net).
Implicit Types (s : ChainState V D K).

(** The tip on record is the chain's; none is on record while the chain never moved. *)
Definition tip_ok (t : option bytes) s : Prop :=
  match t with None => chain_ s = [genesis_ (index_ s)] | Some t => Tip s = Some t end.

(** The applied blocks, genesis first, are a path of the index. *)
Definition path (idx : BlockIndex) (l : list bytes) : Prop := exists t, last l = Some t /\ lineage idx t (rev l).

Lemma path_sub idx idx' l : sub idx idx' -> path idx l -> path idx' l.
Proof.
  intros S (t & Et & L). exists t. split; [done|]. clear Et. induction L as [h e E P|h e p l' E P L IH];
    destruct (S h e E) as (e' & E' & (_ & _ & _ & _ & Pp & _)).
  - eapply lineage_root; [exact E'|congruence].
  - eapply lineage_step; [exact E'|by rewrite <- Pp|done].
Qed.

Lemma path_extend idx l h e t : path idx l -> last l = Some t -> Find idx h = Some e -> ent_parent e = Some t -> path idx (l ++ [h]).
Proof.
  intros (t' & Et' & L) Et E P. rewrite Et in Et'. injection Et' as <-. exists h. split; [by rewrite last_snoc|].
  rewrite rev_app_distr. by eapply lineage_step.
Qed.

Lemma path_shorten idx l t e p : path idx l -> last l = Some t -> Find idx t = Some e -> ent_parent e = Some p -> path idx (removelast l).
Proof.
  intros (t' & Et' & L) Et E P. rewrite Et in Et'. injection Et' as <-. apply last_Some in Et as [pre ->].
  rewrite removelast_last. rewrite rev_app_distr in L. cbn in L. inversion L as [? e' E' P' Eq|? e' p' l' E' P' L' Eq]; subst; simplify_eq.
  exists p. split; [|done]. apply lineage_head in L' as [tl Eq]. rewrite <- (rev_involutive pre), Eq. cbn. by rewrite last_snoc.
Qed.

(** [x] is an entry not yet committed again; [moved], that the tip is not. *)
Record logging (x : option bytes) (moved : bool) s : Prop := {
  lg_history : history net (index_ s);
  lg_size : Size (index_ s) < 2 ^ 64;
  lg_bodies h : HaveBlock (store_ s) h = true -> is_Some (Find (index_ s) h);
  lg_chain : path (index_ s) (chain_ s);
  lg_sink : exists k, sink_ s = Some k /\ (HasFault k = false -> exists log t, Logs k log /\ Committed k t /\
    but_for x log (index_ s) /\ (moved = false -> tip_ok t s)) }.

Lemma genesis_header_ok : BlockHeader_ok (genesis_header net).
Proof.
  assert (forall o, (forall r, o = Some r -> is_hash r) -> is_hash (default Genesis.ZERO_HASH o)) as Hd.
  { intros [r|] Hr; cbn; [by apply Hr|done]. }
  assert (is_hash (hdr_merkle_root (genesis_header net))) as Hm.
  { unfold genesis_header, Genesis.BuildGenesisBlock. cbn [blk_header hdr_merkle_root]. apply Hd. intros r E.
    unfold Block_ComputeMerkleRoot, Merkle.ComputeMerkleRoot in E. case_match; [done|].
    apply bind_Some in E as (level & _ & E). apply bind_Some in E as (top & _ & E). injection E as <-. apply TaggedHash_is_hash. }
  destruct net; (split_and!; [vm_compute; split; congruence|vm_compute; split; congruence|done|exact Hm|..]); vm_compute; split; congruence.
Qed.

Lemma entry_storable idx h e : history net idx -> Size idx < 2 ^ 64 -> Find idx h = Some e -> Stored_ok (record_of e).
Proof.
  intros Hi Hs E. pose proof (hi_inv _ _ Hi) as I. split; cbn.
  - destruct (decide (h = genesis_ idx)) as [->|N]; [|by eapply hi_header].
    destruct (hi_genesis _ _ Hi e E) as (g0 & E0 & (P & _) & _). apply ForNetwork_find in E0 as (_ & Hg & _). rewrite <- P, Hg. apply genesis_header_ok.
  - pose proof (inv_sequence _ I h e E). rewrite (inv_next _ I) in *. unfold u64. lia.
Qed.

(** Telling the sink. *)
Lemma commit_entry_logging h moved s s' : logging (Some h) moved s -> commit_entry h s = Some s' ->
  logging None moved s' /\ index_ s' = index_ s /\ chain_ s' = chain_ s /\ store_ s' = store_ s.
Proof.
  intros [Hi Hs Hb Hp (k & Ek & Hk)] E. unfold commit_entry in E. apply bind_Some in E as (e & Ee & E). injection E as <-.
  unfold CommitEntry. rewrite Ek. destruct (CommitHeader e k) as [ok k'] eqn:C. cbn. split_and!; try done.
  split; [done|done|done|done|]. exists k'. split; [done|]. intros F.
  assert (forall log t, HasFault k = false /\ (Logs k log -> Logs k' (<[ent_hash e := record_of e]> log)) /\ (Committed k t -> Committed k' t)) as L
    by (intros log t; by apply (CommitHeader_logs e k ok k' log t C F), (entry_storable (index_ s) h)).
  destruct (Hk (proj1 (L ∅ None))) as (log & t & Lk & Ct & B & T). destruct (L log t) as (_ & L1 & L2).
  exists (<[ent_hash e := record_of e]> log), t. split_and!; [auto|auto| |done].
  apply (but_for_commit h); [apply (hi_inv _ _ Hi)|done|done].
Qed.

Lemma CommitCurrentTip_logging moved s ok s' : logging None moved s -> CommitCurrentTip s = Some (ok, s') ->
  logging None false s' /\ index_ s' = index_ s /\ chain_ s' = chain_ s /\ store_ s' = store_ s.
Proof.
  intros [Hi Hs Hb Hp (k & Ek & Hk)] E. unfold CommitCurrentTip in E. rewrite Ek in E. apply bind_Some in E as (t & Et & E).
  destruct (CommitTip (coins_ s) t k) as [[ok' c] k'] eqn:C. injection E as <- <-. cbn. split_and!; try done.
  split; [done|done|done|done|]. exists k'. split; [done|]. intros F.
  pose proof (fun log => CommitTip_logs (coins_ s) t k ok' c k' log C F) as L. destruct (Hk (proj1 (L ∅))) as (log & t0 & Lk & Ct & B & T).
  destruct (L log) as (_ & L1 & L2). exists log, (Some t). split_and!; [auto|done|done|done].
Qed.

Lemma logging_weaken x s : logging None false s -> logging x true s.
Proof.
  intros [Hi Hs Hb Hp (k & Ek & Hk)]. split; [done|done|done|done|]. exists k. split; [done|]. intros F.
  destruct (Hk F) as (log & t & Lk & Ct & B & T). exists log, t. split_and!; try done. by apply but_for_weaken.
Qed.

Lemma logging_entry x moved s : logging None moved s -> logging x moved s.
Proof.
  intros [Hi Hs Hb Hp (k & Ek & Hk)]. split; [done|done|done|done|]. exists k. split; [done|]. intros F.
  destruct (Hk F) as (log & t & Lk & Ct & B & T). exists log, t. split_and!; try done. by apply but_for_weaken.
Qed.

(** The rest of the state is not logged. *)
Lemma logging_coins x moved c s : logging x moved s -> logging x moved (with_coins c s).
Proof. by intros []. Qed.

Lemma logging_notify x moved e s : logging x moved s -> logging x moved (notify e s).
Proof. by intros []. Qed.

Lemma logging_chain x moved l s : logging x moved s -> path (index_ s) l -> logging x true (with_chain l s).
Proof.
  intros [Hi Hs Hb Hp (k & Ek & Hk)] Hl. split; [done|done|done|done|]. exists k. split; [done|]. intros F.
  destruct (Hk F) as (log & t & Lk & Ct & B & T). exists log, t. split_and!; done.
Qed.

Lemma logging_undo x moved h u s : logging x moved s -> logging x moved (with_store (PutUndo h u (store_ s)) s).
Proof.
  intros [Hi Hs Hb Hp Hk]. split; [done|done| |done|done]. intros y. cbn. rewrite HaveBlock_spec, GetBlock_PutUndo, <- HaveBlock_spec. apply Hb.
Qed.

Lemma logging_body x moved h b e s : logging x moved s -> Find (index_ s) h = Some e -> logging x moved (with_store (PutBlock h b (store_ s)) s).
Proof.
  intros [Hi Hs Hb Hp Hk] E. split; [done|done| |done|done]. intros y. cbn. rewrite HaveBlock_spec, GetBlock_PutBlock. case_decide as Ey.
  - subst y. intros _. rewrite E. eauto.
  - rewrite <- HaveBlock_spec. apply Hb.
Qed.

(** A verdict on one entry. *)
Lemma logging_index h moved idx s : logging (Some h) moved s -> history net idx -> same_tree (index_ s) idx ->
  (forall log, but_for (Some h) log (index_ s) -> but_for (Some h) log idx) -> logging (Some h) moved (with_index idx s).
Proof.
  intros [Hi Hs Hb Hp (k & Ek & Hk)] Hi' T B'. split; cbn; [done|by rewrite (same_tree_size _ _ T)| |by apply (path_sub (index_ s)), Hp; apply same_tree_sub|].
  - intros x Hx. destruct (Hb x Hx) as [e E]. destruct (same_tree_find_r _ _ _ _ T E) as (e' & E' & _). eauto.
  - exists k. split; [done|]. intros F. destruct (Hk F) as (log & t & Lk & Ct & B & Tk). exists log, t. split_and!; [done|done|by apply B'|].
    intros M. specialize (Tk M). unfold tip_ok in *. cbn. by rewrite (tree_genesis _ _ T).
Qed.

Lemma logging_validity h v moved s : logging (Some h) moved s -> logging (Some h) moved (with_index (RecordValidity h v (index_ s)) s).
Proof.
  intros L. pose proof (lg_history _ _ _ L) as Hi. pose proof (hi_inv _ _ Hi) as I.
  apply logging_index; [done|by apply RecordValidity_history|by apply RecordValidity_inv|].
  intros log. by apply but_for_validity.
Qed.

Lemma logging_failure h k idx moved s : logging (Some h) moved s -> RecordFailure h (index_ s) = Some (k, idx) ->
  logging (Some h) moved (with_index idx s).
Proof.
  intros L R. pose proof (lg_history _ _ _ L) as Hi. pose proof (hi_inv _ _ Hi) as I.
  destruct (RecordFailure_spec h (index_ s) I) as (k2 & i2 & R2 & _ & T & _). rewrite R in R2. injection R2 as <- <-.
  apply logging_index; [done|by eapply RecordFailure_history|done|]. intros log. by eapply but_for_failure.
Qed.

Lemma logging_add header now s r idx : logging None false s -> BlockHeader_ok header -> i64 now -> Size (index_ s) < 2 ^ 64 - 1 ->
  AddHeader header now params (index_ s) = (r, idx) ->
  logging (Some (BlockHeader_Hash header)) false (with_index idx s) /\
  match r with
  | Refused _ => logging None false (with_index idx s)
  | Found h => h = BlockHeader_Hash header /\
      forall e, Find idx h = Some e -> ~ eligible e \/ HaveBlock (store_ s) h = true -> logging None false (with_index idx s)
  end.
Proof.
  intros L Ok Hn Hs A. pose proof (lg_history _ _ _ L) as Hi. pose proof (hi_inv _ _ Hi) as I.
  pose proof (AddHeader_history net (index_ s) header now Hi Ok Hn Hs) as Hi'. rewrite A in Hi'. cbn [snd] in Hi'.
  destruct (Find (index_ s) (BlockHeader_Hash header)) as [x|] eqn:Ex.
  { unfold AddHeader in A. rewrite Ex in A. injection A as <- <-. rewrite (BlockIndex.inv_hash _ _ _ I Ex).
    assert (logging None false (with_index (index_ s) s)) as L' by (by destruct s). split; [by apply logging_entry|]. split; [done|]. done. }
  destruct (AddHeader_new header now params (index_ s) I Ex) as [[e A']|(pe & best & _ & _ & _ & _ & _ & _ & A' & _)];
    rewrite A in A'; injection A' as -> ->.
  { assert (logging None false (with_index (index_ s) s)) as L' by (by destruct s). split; [by apply logging_entry|done]. }
  set (idx' := mkIndex _ _ _ _ _) in *. destruct L as [_ Hz Hb Hp (k & Ek & Hk)]. split.
  - split; cbn [index_ with_index store_ sink_ chain_]; [done| | | |].
    + unfold Size, idx'. cbn [BlockIndex.entries_]. rewrite map_size_insert_None by done. unfold Size in Hs. lia.
    + intros h Hh. destruct (Hb h Hh) as [e E]. unfold Find, idx'. cbn [BlockIndex.entries_]. rewrite lookup_insert_is_Some. by destruct (decide (BlockHeader_Hash header = h)); [left|right; split; [|exists e]].
    + apply (path_sub (index_ s)); [|done]. intros h e E. exists e. split; [|done]. unfold Find, idx' in *. cbn.
      rewrite lookup_insert_ne; [done|]. intros <-. congruence.
    + exists k. split; [done|]. intros F. destruct (Hk F) as (log & t & Lk & Ct & B & T). exists log, t. split_and!; [done|done| |done].
      pose proof (but_for_add header now params log (index_ s) I B) as B'. rewrite A in B'. exact B'.
  - split; [done|]. intros e E [N|Hh].
    + unfold Find, idx' in E. cbn in E. rewrite lookup_insert_eq in E. injection E as <-. by destruct N.
    + destruct (Hb _ Hh) as [e' E']. congruence.
Qed.
Lemma AcceptHeader_logging header now s r s' : logging None false s -> BlockHeader_ok header -> i64 now -> Size (index_ s) < 2 ^ 64 - 1 ->
  AcceptHeader params header now s = Some (r, s') -> logging None false s'.
Proof.
  intros L Ok Hn Hs E. unfold AcceptHeader in E. destruct (AddHeader header now params (index_ s)) as [indexed idx] eqn:A.
  destruct (logging_add header now s indexed idx L Ok Hn Hs A) as [La Lr]. destruct indexed as [h|e]; [|by injection E as _ <-].
  destruct Lr as [-> Lr]. apply bind_Some in E as (e & Ee & E). destruct (IsEligible e) eqn:El; cbn [negb] in E.
  - apply bind_Some in E as (s1 & C & E). injection E as _ <-. by apply (commit_entry_logging _ _ _ _ La) in C as (? & _).
  - injection E as _ <-. apply (Lr e Ee). left. by apply IsEligible_false.
Qed.

Lemma AcceptBlock_logging block now s r s' : logging None false s -> BlockHeader_ok (blk_header block) -> i64 now ->
  Size (index_ s) < 2 ^ 64 - 1 -> AcceptBlock params block now s = Some (r, s') -> logging None false s'.
Proof.
  intros L Ok Hn Hs E. unfold AcceptBlock in E. destruct (AddHeader (blk_header block) now params (index_ s)) as [indexed idx] eqn:A.
  destruct (logging_add (blk_header block) now s indexed idx L Ok Hn Hs A) as [La Lr]. destruct indexed as [h|e]; [|by injection E as _ <-].
  destruct Lr as [-> Lr]. set (h := BlockHeader_Hash (blk_header block)) in *. apply bind_Some in E as (e & Ee & E).
  destruct (IsEligible e) eqn:El; cbn [negb] in E; [|injection E as _ <-; apply (Lr e Ee); left; by apply IsEligible_false].
  cbn [store_ with_index] in E. destruct (HaveBlock (store_ s) h) eqn:Hh; [injection E as _ <-; apply (Lr e Ee); by right|].
  destruct (CheckBlock block params) as [[]|err].
  - apply bind_Some in E as (s1 & C & E). injection E as _ <-. eapply commit_entry_logging in C as (? & _); [done|].
    apply (logging_validity h VBody false (with_store (PutBlock h block (store_ s)) (with_index idx s))).
    by apply (logging_body _ _ h block e (with_index idx s)).
  - apply bind_Some in E as ([k idx2] & Rf & E). apply bind_Some in E as (s1 & C & E). injection E as _ <-.
    eapply commit_entry_logging in C as (? & _); [done|]. by apply (logging_failure h k idx2 false (with_index idx s)).
Qed.

Lemma refuse_logging entry err summary s r s' : logging (Some (ent_hash entry)) false s ->
  refuse entry err summary s = Some (r, s') -> logging None false s'.
Proof.
  intros L E. unfold refuse in E. destruct (StorageHasFault s) eqn:F.
  - injection E as _ <-. destruct L as [Hi Hs Hb Hp (k & Ek & Hk)]. split; [done|done|done|done|]. exists k. split; [done|].
    unfold StorageHasFault in F. rewrite Ek in F. congruence.
  - apply bind_Some in E as ([k idx2] & Rf & E). apply bind_Some in E as (s1 & C & E). injection E as _ <-.
    eapply commit_entry_logging in C as (? & _); [done|]. by eapply logging_failure.
Qed.

Lemma apply_block_logging entry e t block summary s r s' : logging (Some (ent_hash entry)) false s ->
  Find (index_ s) (ent_hash entry) = Some e -> ent_parent e = Some t -> Tip s = Some t ->
  apply_block params entry block summary s = Some (r, s') -> logging None false s'.
Proof.
  intros L Ee Pe Et E. unfold apply_block in E. destruct (ConnectBlock block (coins_ s) params) as [[applied|err] coins].
  2:{ apply refuse_logging in E; [done|]. by apply logging_coins. }
  apply bind_Some in E as (s1 & C & E). apply bind_Some in E as ([ok s2] & C2 & E).
  eapply commit_entry_logging in C as (L1 & _).
  - eapply CommitCurrentTip_logging in C2 as (L2 & _); [|exact L1]. destruct ok; cbn [negb] in E; injection E as _ <-; [by apply logging_notify|done].
  - match type of C with commit_entry _ (with_index _ ?s0) = _ => apply (logging_validity _ VFull true s0) end.
    eapply logging_chain; [apply logging_undo, logging_coins; exact L|]. cbn. eapply path_extend; [apply (lg_chain _ _ _ L)|exact Et|exact Ee|exact Pe].
Qed.

Lemma ConnectTip_logging h summary s r s' : logging None false s -> ConnectTip params h summary s = Some (r, s') -> logging None false s'.
Proof.
  intros L E. unfold ConnectTip in E. apply bind_Some in E as (entry & Ee & E). apply bind_Some in E as (t & Et & E).
  case_bool_decide as Pe; cbn [negb] in E; [|by injection E as _ <-]. destruct (GetBlock _ _) as [block|]; [|by injection E as _ <-].
  pose proof (logging_entry (Some (ent_hash entry)) _ _ L) as L'. pose proof (hi_inv _ _ (lg_history _ _ _ L)) as I.
  rewrite <- (BlockIndex.inv_hash _ _ _ I Ee) in Ee. destruct (_ <? _); [|by eapply apply_block_logging].
  destruct (CheckBlock block params) as [[]|err]; [|by apply refuse_logging in E].
  destruct (RecordValidity_inv (ent_hash entry) VBody _ I) as (_ & T & _). destruct (same_tree_find_r _ _ _ _ T Ee) as (e' & Ee' & (_ & _ & _ & _ & Pp & _)).
  eapply apply_block_logging; [by apply logging_validity|exact Ee'|by rewrite <- Pp|exact Et|exact E].
Qed.

Lemma DisconnectTip_logging summary s r s' : logging None false s -> DisconnectTip summary s = Some (r, s') -> logging None false s'.
Proof.
  intros L E. unfold DisconnectTip in E. apply bind_Some in E as (t & Et & E). apply bind_Some in E as (entry & Ee & E).
  destruct (ent_parent entry) as [p|] eqn:Ep; [|by injection E as _ <-]. destruct (GetBlock _ _) as [block|]; [|by injection E as _ <-].
  destruct (GetUndo _ _) as [undo|]; [|by injection E as _ <-]. destruct (DisconnectBlock _ _ _) as [[|] coins]; [|injection E as _ <-; by apply logging_coins].
  apply bind_Some in E as ([ok s2] & C2 & E). eapply CommitCurrentTip_logging in C2 as (L2 & _).
  - destruct ok; cbn [negb] in E; injection E as _ <-; [by apply logging_notify|done].
  - eapply logging_chain; [apply logging_coins; exact L|]. cbn. eapply path_shorten; [apply (lg_chain _ _ _ L)|exact Et|exact Ee|exact Ep].
Qed.

Lemma disconnect_all_logging plan : forall summary s r s', logging None false s -> disconnect_all plan summary s = Some (r, s') -> logging None false s'.
Proof.
  induction plan as [|h plan IH]; intros summary s r s' L E; cbn in E; [by injection E as _ <-|]. apply bind_Some in E as (t & _ & E).
  case_bool_decide; cbn [negb] in E; [|by injection E as _ <-]. apply bind_Some in E as ([r1 s1] & D1 & E).
  apply (DisconnectTip_logging _ _ _ _ L) in D1. destruct r1; [by eapply IH|by injection E as _ <-].
Qed.

Lemma connect_all_logging plan : forall summary s r s', logging None false s -> connect_all params plan summary s = Some (r, s') -> logging None false s'.
Proof.
  induction plan as [|h plan IH]; intros summary s r s' L E; cbn in E; [by injection E as _ <-|]. apply bind_Some in E as ([r1 s1] & D1 & E).
  apply (ConnectTip_logging _ _ _ _ _ L) in D1. destruct r1 as [[[] ?]|]; [by eapply IH|by injection E as _ <-..].
Qed.

Lemma activate_pass_logging summary s r s' : logging None false s -> activate_pass params summary s = Some (r, s') -> logging None false s'.
Proof.
  intros L E. unfold activate_pass in E. apply bind_Some in E as (t & _ & E). destruct (BestHeader (index_ s)) as [target|]; [|by injection E as _ <-].
  case_bool_decide; [by injection E as _ <-|]. apply bind_Some in E as (plan & _ & E). unfold follow_plan in E.
  destruct (fork_point plan) as [fork|]; [|by injection E as _ <-]. apply bind_Some in E as (fe & _ & E).
  destruct (Contains _ _); cbn [negb] in E; [|by injection E as _ <-]. apply bind_Some in E as (a & _ & E).
  apply bind_Some in E as (t' & _ & E). apply bind_Some in E as (te & _ & E). destruct (IsBetterTip _ _); cbn [negb] in E; [|by injection E as _ <-].
  apply bind_Some in E as ([r1 s1] & D1 & E). apply (disconnect_all_logging _ _ _ _ _ L) in D1. destruct r1 as [m1|]; [|by injection E as _ <-].
  apply bind_Some in E as ([r2 s2] & D2 & E). apply (connect_all_logging _ _ _ _ _ D1) in D2. destruct r2 as [m2|]; [|by injection E as _ <-].
  apply bind_Some in E as (t2 & _ & E). by injection E as _ <-.
Qed.

Lemma ActivateBestChain_logging s r s' : logging None false s -> ActivateBestChain params s = Some (r, s') -> logging None false s'.
Proof.
  intros L E. unfold ActivateBestChain in E. apply bind_Some in E as (t & _ & E). revert L E. generalize (mkSummary t 0 0 [] false) as m.
  generalize (size (BlockIndex.entries_ (index_ s)) + 2)%nat as fuel. intros fuel. revert s. induction fuel as [|fuel IH]; intros s m L E; [done|].
  cbn in E. apply bind_Some in E as ([r1 s1] & D1 & E). apply (activate_pass_logging _ _ _ _ L) in D1.
  destruct r1 as [[|]|]; [by injection E as _ <-|by eapply IH|by injection E as _ <-].
Qed.

(** *** The tip is not ruled out *)

(** The last block applied is eligible. *)
Definition stands (idx : BlockIndex) (l : list bytes) : Prop := exists t e, last l = Some t /\ Find idx t = Some e /\ eligible e.

Abbreviation sound_at idx := (fun h => exists e, Find idx h = Some e /\ eligible e).

Lemma stands_snoc idx l h : sound_at idx h -> stands idx (l ++ [h]).
Proof. intros (e & E & El). exists h, e. by rewrite last_snoc. Qed.

Lemma sound_unjudged idx idx' h : unjudged idx idx' -> sound_at idx h -> sound_at idx' h.
Proof. intros J (e & E & El). destruct (unjudged_find _ _ _ _ J E) as (e' & E' & _ & F). exists e'. unfold eligible in *. by rewrite <- F. Qed.

Lemma stands_unjudged idx idx' l : unjudged idx idx' -> stands idx l -> stands idx' l.
Proof. intros J (t & e & Et & E & El). destruct (sound_unjudged idx idx' t J) as (e' & ? & ?); [by exists e|]. by exists t, e'. Qed.

Lemma stands_add header now idx l : index_inv idx -> stands idx l -> stands (AddHeader header now params idx).2 l.
Proof.
  intros I (t & e & Et & E & El). exists t, e. split_and!; [done| |done]. destruct (Find idx (BlockHeader_Hash header)) as [x|] eqn:Ex.
  { unfold AddHeader. by rewrite Ex. }
  destruct (AddHeader_new header now params idx I Ex) as [[err ->]|(pe & best & _ & _ & _ & _ & _ & _ & -> & _)]; [done|].
  unfold Find in *. cbn. rewrite lookup_insert_ne; [done|congruence].
Qed.

(** A block on the tip can be ruled out without the tip. *)
Lemma stands_failure idx l h e t k idx' : index_inv idx -> last l = Some t -> Find idx h = Some e -> ent_parent e = Some t ->
  RecordFailure h idx = Some (k, idx') -> stands idx l -> stands idx' l.
Proof.
  intros I Et E P R (t' & te & Et' & E' & El). rewrite Et in Et'. injection Et' as <-.
  destruct (RecordFailure_spec h idx I) as (k2 & i2 & R2 & _ & T & _ & Hx). rewrite R in R2. injection R2 as <- <-.
  destruct (same_tree_find_r _ _ _ _ T E') as (te' & Ete' & _). exists t, te'. split_and!; [done|done|]. apply (Hx t te te' E' Ete'). split; [done|].
  intros Dt. destruct (lineage_total _ I _ _ E') as (lt & Lt & _).
  assert (h ∈ lt) as [i Hi]%list_elem_of_lookup by (apply (lineage_descends idx t lt h Lt); split; [done|by exists e]).
  pose proof (lineage_lookup_height idx I t te lt i h e E' Lt Hi E) as Hh.
  destruct (inv_parent _ _ _ I E) as [(_ & N & _)|(p & pe & P' & Ep & _ & Hp & _)]; [congruence|]. simplify_eq. lia.
Qed.

Lemma path_parent idx l t e p : path idx l -> last l = Some t -> Find idx t = Some e -> ent_parent e = Some p -> last (removelast l) = Some p.
Proof.
  intros (t' & Et' & L) Et E P. rewrite Et in Et'. injection Et' as <-. apply last_Some in Et as [pre ->]. rewrite removelast_last.
  rewrite rev_app_distr in L. cbn in L. inversion L as [? e' E' P' Eq|? e' p' l' E' P' L' Eq]; subst; simplify_eq.
  apply lineage_head in L' as [tl Eq]. rewrite <- (rev_involutive pre), Eq. cbn. by rewrite last_snoc.
Qed.

Lemma commit_entry_same h s s' : commit_entry h s = Some s' -> index_ s' = index_ s /\ chain_ s' = chain_ s.
Proof.
  intros E. unfold commit_entry in E. apply bind_Some in E as (e & _ & E). injection E as <-. unfold CommitEntry.
  destruct (sink_ s); [|done]. by destruct (CommitHeader _ _).
Qed.

Lemma CommitCurrentTip_same s ok s' : CommitCurrentTip s = Some (ok, s') -> index_ s' = index_ s /\ chain_ s' = chain_ s.
Proof.
  unfold CommitCurrentTip. destruct (sink_ s); [|by intros [= _ <-]]. intros (t & _ & E)%bind_Some.
  destruct (CommitTip _ _ _) as [[ok' c] k']. by injection E as _ <-.
Qed.

(** A block that is taken rules nothing out. *)
Lemma AcceptBlock_stands block now s h s' : logging None false s -> BlockHeader_ok (blk_header block) -> Size (index_ s) < 2 ^ 64 - 1 ->
  AcceptBlock params block now s = Some (Found h, s') -> stands (index_ s) (chain_ s) -> stands (index_ s') (chain_ s').
Proof.
  intros L Ok Hs E St. pose proof (hi_inv _ _ (lg_history _ _ _ L)) as I. apply (stands_add (blk_header block) now _ _ I) in St.
  assert (index_inv (AddHeader (blk_header block) now params (index_ s)).2) as I' by (apply AddHeader_inv; [done|apply Ok|done]).
  unfold AcceptBlock in E. destruct (AddHeader _ _ _ _) as [[h'|e] idx]; [|done]. cbn [snd] in St, I'. apply bind_Some in E as (e & _ & E).
  destruct (IsEligible e); cbn [negb] in E; [|done]. destruct (HaveBlock _ h'); [by injection E as _ <-|].
  destruct (CheckBlock block params) as [[]|err].
  - apply bind_Some in E as (s1 & C & E). injection E as _ <-. apply commit_entry_same in C as [-> ->]. cbn [index_ chain_ with_index with_store].
    by apply (stands_unjudged idx); [apply RecordValidity_unjudged|].
  - apply bind_Some in E as ([k idx2] & _ & E). by apply bind_Some in E as (s1 & _ & E).
Qed.

Lemma refuse_stands entry err summary s r s' e t : index_inv (index_ s) -> Find (index_ s) (ent_hash entry) = Some e -> ent_parent e = Some t ->
  Tip s = Some t -> refuse entry err summary s = Some (r, s') -> stands (index_ s) (chain_ s) ->
  stands (index_ s') (chain_ s') /\ forall m, r <> Value (true, m).
Proof.
  intros I E P Et R St. unfold refuse in R. destruct (StorageHasFault s); [by injection R as <- <-|].
  apply bind_Some in R as ([k idx] & Rf & R). apply bind_Some in R as (s1 & C & R). injection R as <- <-. split; [|done].
  apply commit_entry_same in C as [-> ->]. cbn [index_ chain_ with_index]. by eapply stands_failure.
Qed.

(** A step up: onto an eligible block, and nothing is ruled out. *)
Definition step_stands s (r : Outcome (bool * ActivationSummary)) s' : Prop :=
  stands (index_ s') (chain_ s') /\ forall m, r = Value (true, m) -> unjudged (index_ s) (index_ s').

Lemma apply_block_stands entry e t block summary s r s' : index_inv (index_ s) -> Find (index_ s) (ent_hash entry) = Some e -> eligible e ->
  ent_parent e = Some t -> Tip s = Some t -> apply_block params entry block summary s = Some (r, s') -> stands (index_ s) (chain_ s) ->
  step_stands s r s'.
Proof.
  intros I Ee El Pe Et E St. unfold apply_block in E. destruct (ConnectBlock block (coins_ s) params) as [[applied|err] coins].
  2:{ apply (refuse_stands _ _ _ (with_coins coins s) _ _ e t I Ee Pe Et) in E as [? N]; [|done]. split; [done|]. intros m ->. by destruct (N m). }
  apply bind_Some in E as (s1 & C & E). apply bind_Some in E as ([ok s2] & C2 & E).
  apply commit_entry_same in C as [Ci Cc]. apply CommitCurrentTip_same in C2 as [Di Dc]. cbn in Ci, Cc.
  assert (index_ s' = RecordValidity (ent_hash entry) VFull (index_ s) /\ chain_ s' = chain_ s ++ [ent_hash entry]) as [Ei Ec].
  { destruct ok; cbn [negb] in E; injection E as _ <-; cbn; by rewrite Di, Dc, Ci, Cc. }
  pose proof (RecordValidity_unjudged (ent_hash entry) VFull _ I) as J. split; rewrite Ei; [|by intros].
  rewrite Ec. apply stands_snoc. eapply sound_unjudged; [exact J|by exists e].
Qed.

Lemma ConnectTip_stands h summary s r s' : logging None false s -> sound_at (index_ s) h -> ConnectTip params h summary s = Some (r, s') ->
  stands (index_ s) (chain_ s) -> step_stands s r s'.
Proof.
  intros L (e & Eh & El) E St. unfold ConnectTip in E. apply bind_Some in E as (entry & Ee & E). assert (e = entry) as -> by congruence. apply bind_Some in E as (t & Et & E).
  case_bool_decide as Pe; cbn [negb] in E; [|by injection E as <- <-]. destruct (GetBlock _ _) as [block|]; [|by injection E as <- <-].
  pose proof (hi_inv _ _ (lg_history _ _ _ L)) as I. rewrite <- (BlockIndex.inv_hash _ _ _ I Ee) in Ee.
  destruct (_ <? _); [|by eapply apply_block_stands]. destruct (CheckBlock block params) as [[]|err].
  2:{ apply (refuse_stands _ _ _ _ _ _ entry t I Ee Pe Et) in E as [? N]; [|done]. split; [done|]. intros m ->. by destruct (N m). }
  pose proof (RecordValidity_unjudged (ent_hash entry) VBody _ I) as J. destruct (RecordValidity_inv (ent_hash entry) VBody _ I) as (I' & _).
  destruct (unjudged_find _ _ _ _ J Ee) as (e' & Ee' & (_ & _ & _ & _ & Pp & _) & Fe).
  eapply (apply_block_stands entry e' t) in E as [? U]; [|done|done|unfold eligible in *; congruence|congruence|done|by eapply stands_unjudged].
  split; [done|]. intros m Em. eapply unjudged_trans; [exact J|exact (U m Em)].
Qed.

Lemma DisconnectTip_stands summary s r s' : logging None false s -> DisconnectTip summary s = Some (r, s') -> stands (index_ s) (chain_ s) ->
  stands (index_ s') (chain_ s') /\ index_ s' = index_ s.
Proof.
  intros L E (t0 & e0 & Et0 & E0 & El). unfold DisconnectTip in E. apply bind_Some in E as (t & Et & E). apply bind_Some in E as (entry & Ee & E).
  assert (t0 = t) as -> by (unfold Tip in Et; congruence). simplify_eq.
  assert (stands (index_ s) (chain_ s)) as St by (by exists t, entry).
  destruct (ent_parent entry) as [p|] eqn:Ep; [|by injection E as _ <-]. destruct (GetBlock _ _) as [block|]; [|by injection E as _ <-].
  destruct (GetUndo _ _) as [undo|]; [|by injection E as _ <-]. destruct (DisconnectBlock _ _ _) as [[|] coins]; [|by injection E as _ <-].
  apply bind_Some in E as ([ok s2] & C2 & E). apply CommitCurrentTip_same in C2 as [Di Dc]. cbn in Di, Dc.
  assert (index_ s' = index_ s /\ chain_ s' = removelast (chain_ s)) as [-> ->] by (destruct ok; cbn [negb] in E; by injection E as _ <-).
  split; [|done]. pose proof (hi_inv _ _ (lg_history _ _ _ L)) as I.
  destruct (inv_parent _ _ _ I Ee) as [(_ & N & _)|(p' & pe & P' & Epe & _ & _ & Hel)]; [congruence|]. simplify_eq.
  exists p, pe. split_and!; [by eapply path_parent; [apply (lg_chain _ _ _ L)|..]|done|by apply Hel].
Qed.

Lemma disconnect_all_stands plan : forall summary s r s', logging None false s -> disconnect_all plan summary s = Some (r, s') ->
  stands (index_ s) (chain_ s) -> stands (index_ s') (chain_ s') /\ index_ s' = index_ s.
Proof.
  induction plan as [|h plan IH]; intros summary s r s' L E St; cbn in E; [by injection E as _ <-|]. apply bind_Some in E as (t & _ & E).
  case_bool_decide; cbn [negb] in E; [|by injection E as _ <-]. apply bind_Some in E as ([r1 s1] & D1 & E).
  destruct (DisconnectTip_stands _ _ _ _ L D1 St) as [S1 I1]. apply (DisconnectTip_logging _ _ _ _ L) in D1.
  destruct r1; [|by injection E as _ <-]. destruct (IH _ _ _ _ D1 E S1) as [S2 I2]. split; [done|congruence].
Qed.

Lemma connect_all_stands plan : forall summary s r s', logging None false s -> Forall (sound_at (index_ s)) plan ->
  connect_all params plan summary s = Some (r, s') -> stands (index_ s) (chain_ s) -> stands (index_ s') (chain_ s').
Proof.
  induction plan as [|h plan IH]; intros summary s r s' L F E St; cbn in E; [by injection E as _ <-|]. apply Forall_cons in F as [Fh F].
  apply bind_Some in E as ([r1 s1] & D1 & E). destruct (ConnectTip_stands _ _ _ _ _ L Fh D1 St) as [S1 J1].
  apply (ConnectTip_logging _ _ _ _ _ L) in D1. destruct r1 as [[[] m]|]; [|by injection E as _ <-..].
  eapply (IH m s1); [done| |done|done]. eapply Forall_impl; [exact F|]. intros x. apply sound_unjudged. by eapply J1.
Qed.

(** The way up to the best header leads over eligible blocks. *)
Lemma plan_sound s t b plan : logging None false s -> Tip s = Some t -> BestHeader (index_ s) = Some b ->
  PlanChainSwitch (index_ s) (Find (index_ s) t) (Find (index_ s) b) = Some plan -> Forall (sound_at (index_ s)) (BlockIndex.connect plan).
Proof.
  intros L Et Eb E. pose proof (hi_inv _ _ (lg_history _ _ _ L)) as I. pose proof (inv_best _ I) as B. unfold best_ok in B.
  change (best_header_ (index_ s) = Some b) in Eb. rewrite Eb in B. destruct B as (be & Ebe & El & _).
  destruct (lg_chain _ _ _ L) as (t' & Et' & Lt). unfold Tip in Et. rewrite Et in Et'. injection Et' as <-.
  assert (exists te, Find (index_ s) t = Some te) as [te Ete] by (inversion Lt; eauto).
  destruct (lineage_total _ I _ _ Ebe) as (lb & Lb & _). rewrite Ete, Ebe in E.
  destruct (PlanChainSwitch_spec _ I _ _ _ _ _ _ Ete Ebe Lt Lb) as (plan' & P & f & rest & _ & _ & Elb & _).
  rewrite E in P. injection P as <-. rewrite Elb in Lb. pose proof (lineage_climbs _ _ I b be f rest Ebe El Lb) as C. clear -C. revert f C.
  induction (BlockIndex.connect plan) as [|h l IH]; intros f C; [done|]. destruct C as [(e & E & El & _) C]. constructor; [eauto|by eapply IH].
Qed.

Lemma activate_pass_stands summary s r s' : logging None false s -> activate_pass params summary s = Some (r, s') ->
  stands (index_ s) (chain_ s) -> stands (index_ s') (chain_ s').
Proof.
  intros L E St. unfold activate_pass in E. apply bind_Some in E as (t & Et & E). destruct (BestHeader (index_ s)) as [target|] eqn:Eb; [|by injection E as _ <-].
  case_bool_decide; [by injection E as _ <-|]. apply bind_Some in E as (plan & Ep & E). pose proof (plan_sound s t target plan L Et Eb Ep) as Fp.
  unfold follow_plan in E. destruct (fork_point plan) as [fork|]; [|by injection E as _ <-]. apply bind_Some in E as (fe & _ & E).
  destruct (Contains _ _); cbn [negb] in E; [|by injection E as _ <-]. apply bind_Some in E as (a & _ & E).
  apply bind_Some in E as (t' & _ & E). apply bind_Some in E as (te & _ & E). destruct (IsBetterTip _ _); cbn [negb] in E; [|by injection E as _ <-].
  apply bind_Some in E as ([r1 s1] & D1 & E). destruct (disconnect_all_stands _ _ _ _ _ L D1 St) as [S1 I1].
  apply (disconnect_all_logging _ _ _ _ _ L) in D1. destruct r1 as [m1|]; [|by injection E as _ <-].
  apply bind_Some in E as ([r2 s2] & D2 & E). destruct (reachable_prefix_spec (store_ s) (BlockIndex.connect plan)) as (rest & Er & _).
  rewrite Er in Fp. apply Forall_app in Fp as [Fp _]. rewrite <- I1 in Fp. apply (connect_all_stands _ _ _ _ _ D1 Fp) in D2; [|done].
  destruct r2 as [m2|]; [|by injection E as _ <-]. apply bind_Some in E as (t2 & _ & E). by injection E as _ <-.
Qed.

Lemma ActivateBestChain_stands s r s' : logging None false s -> ActivateBestChain params s = Some (r, s') ->
  stands (index_ s) (chain_ s) -> stands (index_ s') (chain_ s').
Proof.
  intros L E. unfold ActivateBestChain in E. apply bind_Some in E as (t & _ & E). revert L E. generalize (mkSummary t 0 0 [] false) as m.
  generalize (size (BlockIndex.entries_ (index_ s)) + 2)%nat as fuel. intros fuel. revert s. induction fuel as [|fuel IH]; intros s m L E St; [done|].
  cbn in E. apply bind_Some in E as ([r1 s1] & D1 & E). pose proof (activate_pass_stands _ _ _ _ L D1 St) as S1. apply (activate_pass_logging _ _ _ _ L) in D1.
  destruct r1 as [[|]|]; [by injection E as _ <-|by eapply IH|by injection E as _ <-].
Qed.

(** A node from its first start on: an empty store and sink, then blocks, headers and
    activations. *)
Inductive started : ChainState V D K -> Prop :=
  | start_fresh coins store k : (forall h, HaveBlock store h = false) -> Logs k ∅ -> Committed k None ->
      started (PersistTo k (new_ChainState (ForNetwork params) coins store))
  | start_observed s : started s -> started (ObserveWith s)
  | start_block block now s r s' : started s -> BlockHeader_ok (blk_header block) -> i64 now -> Size (index_ s) < 2 ^ 64 - 1 ->
      AcceptBlock params block now s = Some (r, s') -> started s'
  | start_header header now s r s' : started s -> BlockHeader_ok header -> i64 now -> Size (index_ s) < 2 ^ 64 - 1 ->
      AcceptHeader params header now s = Some (r, s') -> started s'
  | start_activate s r s' : started s -> ActivateBestChain params s = Some (r, s') -> started s'.

Lemma started_logging s : started s -> logging None false s.
Proof.
  induction 1 as [coins store k He Hl Hc|s _ IH|block now s r s' _ IH Ok Hn Hs E|header now s r s' _ IH Ok Hn Hs E|s r s' _ IH E].
  - split; cbn [index_ store_ sink_ PersistTo with_sink new_ChainState].
    + apply ForNetwork_history.
    + unfold Size, ForNetwork, new_BlockIndex. cbn [BlockIndex.entries_]. by rewrite map_size_singleton.
    + intros h Hh. by rewrite He in Hh.
    + exists (genesis_ (ForNetwork params)). split; [done|]. cbn. destruct (inv_genesis _ (reachable_inv _ (ForNetwork_reachable net))) as (g & Eg & Pg & _).
      by eapply lineage_root.
    + exists k. split; [done|]. intros F. exists ∅, None. split_and!; [done|done| |done]. split; [intros h s; by rewrite lookup_empty|].
      intros h e E _ G. apply ForNetwork_find in E as (-> & _ & _ & Fe & _). destruct G as [G|G]; [by destruct G|congruence].
  - by destruct IH.
  - by eapply AcceptBlock_logging.
  - by eapply AcceptHeader_logging.
  - by eapply ActivateBestChain_logging.
Qed.
End logging.
(** ** The chain database as the sink *)

Section database.
Context `{SH : Sha256Impl} {R : Type} `{RocksDB R} `{!LawfulRocks R}.
Implicit Types (d : ChainDb R).

#[global] Instance ChainDb_view : CoinsView (ChainDb R) :=
  {| GetCoin d o := (Db_GetCoin o d).1; HaveCoin d o := (Db_HaveCoin o d).1 |}.

(** The coins cache is over the same database, so after a commit it is over what the
    database has become; unless the commit was refused outright the changes are flushed. *)
#[global] Instance ChainDb_sink : ChainSink (ChainDb R) (ChainDb R) := {|
  CommitHeader := Db_CommitHeader;
  CommitTip changes tip d :=
    let '(ok, d') := Db_CommitTip (map_to_list (Coins.entries_ changes)) tip d in
    (ok, if faulted d then changes else mkCoinsCache d' ∅, d');
  HasFault := Db_HasFault |}.

#[global] Instance ChainDb_log : HeaderLog (ChainDb R) (ChainDb R).
Proof.
  refine {| Logs d log := (forall h, contents (db d) !! (Index, h) = encode write_stored <$> log !! h) /\
              (forall h s, log !! h = Some s -> Stored_ok s);
            Committed d tip := contents (db d) !! (Meta, KEY_TIP) = tip |}.
  - intros e d ok d' log tip E F Ok. cbn in E, F. apply Write_spec in E as ([_ O] & C & _). destruct (C F) as [_ Cd].
    split_and!; [by apply O| |].
    + intros [Lg So]. split; [|intros h s; rewrite lookup_insert_Some; naive_solver]. intros h. rewrite Cd.
      destruct (decide (h = ent_hash e)) as [->|N]; [by rewrite !lookup_insert_eq|]. by rewrite !lookup_insert_ne by congruence.
    + intros <-. rewrite Cd, lookup_insert_ne by done. done.
  - intros changes t d ok changes' d' log E F. cbn in E, F. destruct (Db_CommitTip _ t d) as [ok0 d0] eqn:C. injection E as <- <- <-.
    apply CommitTip_spec in C as ([_ O] & _ & C & _). destruct (C F) as [_ Cd]. split_and!; [by apply O| |].
    + intros [Lg So]. split; [|done]. intros h. rewrite Cd, commit_other by done. apply Lg.
    + rewrite Cd. unfold commit_batch, apply_batch. rewrite fold_left_app. cbn. by rewrite lookup_insert_eq.
Defined.

(** Loading what was logged. *)
Lemma LoadChain_logged net idx d log tip now : history net idx -> Size idx < 2 ^ 64 -> i64 now -> current log idx ->
  Logs d log -> Committed d tip -> (forall t, tip = Some t -> is_Some (Find idx t)) -> faulted d = false ->
  exists r d', LoadChain (ParamsFor net) now d = Some (r, d') /\ (faulted d' = true \/
    exists j count, restored_as idx j /\ r = match tip with
      | None => inr (mkLoaded j (genesis_ idx) count)
      | Some t => if eligible_at idx t then inr (mkLoaded j t count) else inl CorruptRecord
      end).
Proof.
  intros Hi Hs Hn Cu [Lg So] Ct Ht Fd. pose proof (hi_inv _ _ Hi) as I. unfold LoadChain.
  destruct (LoadHeaders d) as [x d1] eqn:E1. destruct (read_keeps d OpLoadHeaders eq_refl) as [_ K1]. cbn [run_db] in K1. rewrite E1 in K1. cbn [snd] in K1.
  destruct (faulted d1) eqn:F1.
  { destruct x as [error|l]; [exists (inl error), d1; auto|]. apply LoadHeaders_quiet in E1. congruence. }
  destruct (LoadHeaders_exact d log x d1 So Lg E1 F1) as (l & -> & P & So').
  destruct (LoadTip d1) as [y d2] eqn:E2. destruct (faulted d2) eqn:F2.
  { destruct y as [error|t]; [exists (inl error), d2; auto|]. apply LoadTip_quiet in E2. congruence. }
  change (contents (db d) !! (Meta, KEY_TIP) = tip) in Ct. rewrite <- K1 in Ct. 
  assert (forall t, tip = Some t -> is_hash t) as Hh.
  { intros t Et. destruct (Ht t Et) as [e E]. destruct (inv_entry _ I t e E) as (_ & <- & _). apply DoubleSha256_is_hash. }
  pose proof (LoadTip_exact d1 tip y d2 Ct Hh E2 F2) as ->.
  destruct (rebuild_spec net idx Hi log l tip now Cu P So' Hs Hn Ht) as (j & count & Rs & ->).
  eexists _, d2. split; [reflexivity|]. right. exists j, count. done.
Qed.
End database.
(** ** Starting again *)

Section restart.
Context `{SH : Sha256Impl} `{SB : Signature.SignatureBackends} {R D : Type} `{RocksDB R} `{!LawfulRocks R} `{BlockStore D} `{!LawfulStore D}.
Context (net : Network).
Abbreviation params := (ParamsFor net).
Implicit Types (s : ChainState (ChainDb R) D (ChainDb R)) (d : ChainDb R).

(** The start finds the index of [s] and the tip [t], and resuming there, over any coins
    and bodies, gives back the chain of [s]. *)
Definition resumed s (t : bytes) (r : Expected LoadedChain) : Prop :=
  exists j count te, r = inr (mkLoaded j t count) /\ restored_as (index_ s) j /\ Find j t = Some te /\
    forall (coins : CoinsCache (ChainDb R)) (store : D), exists s', ResumeAt te (new_ChainState (K := ChainDb R) j coins store) = Some s' /\ chain_ s' = chain_ s.

(** What a start from the database of [s] gives. *)
Definition resumes s (t : bytes) (r : Expected LoadedChain) : Prop :=
  (eligible_at (index_ s) t = true -> resumed s t r) /\
  (eligible_at (index_ s) t = false -> (1 < length (chain_ s))%nat -> r = inl CorruptRecord).

Lemma restored_sub idx j : restored_as idx j -> sub idx j.
Proof. intros Rs h e E. pose proof (rs_entries _ _ Rs h) as En. rewrite E in En. inversion En as [x y (P & _) Ex Ey|]; subst. eauto. Qed.

Lemma resume_path idx j l t (coins : CoinsCache (ChainDb R)) (store : D) : restored_as idx j -> path idx l -> last l = Some t ->
  exists te, Find j t = Some te /\
    exists s', ResumeAt te (new_ChainState (K := ChainDb R) j coins store) = Some s' /\ chain_ s' = l.
Proof.
  intros Rs Pa Et. apply (path_sub idx j) in Pa as (t' & Et' & L); [|by apply restored_sub]. rewrite Et in Et'. injection Et' as <-.
  assert (exists te, Find j t = Some te) as [te E] by (inversion L; eauto). exists te. split; [done|].
  unfold ResumeAt. cbn [index_ new_ChainState]. rewrite (upwards_spec j _ (rs_inv _ _ Rs) t te (rev l) E L) by (unfold walk_fuel; lia).
  cbn [mbind option_bind]. eexists. split; [reflexivity|]. cbn. apply rev_involutive.
Qed.

Lemma logged_restart s d now : logging net None false s -> sink_ s = Some d -> faulted d = false -> i64 now ->
  exists t r d', Tip s = Some t /\ LoadChain params now d = Some (r, d') /\ (faulted d' = true \/ resumes s t r).
Proof.
  intros [Hi Hs Hb Hp (k & Ek & Hk)] E F Hn. rewrite E in Ek. injection Ek as <-.
  destruct (Hk F) as (log & tip & Lg & Ct & Cu%but_for_current & T). specialize (T eq_refl). pose proof Hp as (t & Et & L).
  assert (is_Some (Find (index_ s) t)) as St by (inversion L; eauto).
  destruct (LoadChain_logged net (index_ s) d log tip now Hi Hs Hn Cu Lg Ct) as (r & d' & El & Or); [|done|].
  { intros t' ->. cbn in T. unfold Tip in T. by simplify_eq. }
  exists t, r, d'. split_and!; [done|done|]. destruct Or as [?|(j & count & Rs & Er)]; [by left|right].
  assert (Er' : (eligible_at (index_ s) t = true -> r = inr (mkLoaded j t count)) /\
                (eligible_at (index_ s) t = false -> (1 < length (chain_ s))%nat -> r = inl CorruptRecord)).
  { destruct tip as [t'|]; cbn in T.
    - unfold Tip in T. rewrite Et in T. injection T as <-. split; intros Ea; rewrite Ea in Er; done.
    - rewrite T in *. cbn in Et. injection Et as <-. split; [done|]. cbn. lia. }
  split; [|apply Er']. intros Ea. assert (exists te, Find j t = Some te) as [te Ej].
  { destruct St as [e0 E0]. destruct (restored_sub _ _ Rs t e0 E0) as (te & ? & _). eauto. }
  exists j, count, te. split_and!; [by apply Er'|done|done|]. intros coins store.
  destruct (resume_path _ j (chain_ s) t coins store Rs Hp Et) as (te' & Ej' & s' & ? & ?). simplify_eq. eauto.
Qed.

(** Where the tip stands there is nothing to refuse. *)
Lemma standing_resumed s t r : stands (index_ s) (chain_ s) -> Tip s = Some t -> resumes s t r -> resumed s t r.
Proof.
  intros (t' & e & Et' & E & El) Et [Rs _]. apply Rs. unfold Tip in Et. rewrite Et in Et'. injection Et' as <-. unfold eligible_at. rewrite E.
  by apply IsEligible_true.
Qed.

Lemma restart_spec s d now : started net s -> sink_ s = Some d -> faulted d = false -> i64 now ->
  exists t r d', Tip s = Some t /\ LoadChain params now d = Some (r, d') /\ (faulted d' = true \/ resumes s t r).
Proof. intros S. exact (logged_restart s d now (started_logging net s S)). Qed.
End restart.

(** ** Samples *)

Section samples.
#[local] Existing Instance toy_Sha256Impl.
#[local] Existing Instance picky_backends.
Abbreviation State := (ChainState (ChainDb Disk) MemoryBlockStore (ChainDb Disk)).

Definition blank_db : ChainDb Disk := fresh_db (mkDisk ∅ []).

Definition first_state : State :=
  PersistTo blank_db (new_ChainState (ForNetwork REGTEST_PARAMS) (Over blank_db) new_MemoryBlockStore).

Definition take_block (b : Block) (s : State) : State :=
  match AcceptBlock REGTEST_PARAMS b sample_now s with Some (_, s) => s | None => s end.
Definition follow_best (s : State) : State :=
  match ActivateBestChain REGTEST_PARAMS s with Some (_, s) => s | None => s end.

(** Two blocks on the chain. *)
Definition grown_state : State := follow_best (take_block block_a2 (take_block block_a1 first_state)).

Lemma first_started : started Regtest first_state.
Proof.
  destruct (Open_fresh (mkDisk ∅ []) REGTEST_PARAMS blank_db (Some (db blank_db))) as (_ & [_ Ht] & (_ & _ & Hi));
    [vm_compute; reflexivity|reflexivity|reflexivity|].
  apply start_fresh; [reflexivity|split; [exact Hi|intros h s; by rewrite lookup_empty]|exact Ht].
Qed.

Lemma take_block_started b s : started Regtest s -> BlockHeader_ok (blk_header b) -> Size (index_ s) < 2 ^ 64 - 1 -> started Regtest (take_block b s).
Proof.
  intros S Ok Hs. unfold take_block. destruct (AcceptBlock _ _ _ _) as [[r s']|] eqn:E; [|done].
  refine (start_block Regtest b sample_now s r s' S Ok _ Hs E). vm_compute. split; congruence.
Qed.

Lemma follow_best_started s : started Regtest s -> started Regtest (follow_best s).
Proof.
  intros S. unfold follow_best. destruct (ActivateBestChain _ _) as [[r s']|] eqn:E; [|done]. exact (start_activate Regtest s r s' S E).
Qed.

Lemma sample_header_ok b : b = block_a1 \/ b = block_a2 -> BlockHeader_ok (blk_header b).
Proof. intros [->| ->]; (split_and!; vm_compute; first [reflexivity|split; congruence]). Qed.

Lemma grown_started : started Regtest grown_state.
Proof.
  apply follow_best_started, take_block_started; [|apply sample_header_ok; auto|vm_compute; reflexivity].
  apply take_block_started; [apply first_started|apply sample_header_ok; auto|vm_compute; reflexivity].
Qed.

Definition grown_db : ChainDb Disk := default blank_db (sink_ grown_state).

Lemma grown_facts : sink_ grown_state = Some grown_db /\ faulted grown_db = false /\ length (chain_ grown_state) = 3%nat /\
  HaveBlock (store_ grown_state) (genesis_ (index_ grown_state)) = false /\ eligible_at (index_ grown_state) (genesis_ (index_ grown_state)) = true.
Proof. split_and!; vm_compute; reflexivity. Qed.
End samples.

#[local] Opaque grown_state grown_db.

(** ** The theorems *)

(** C11: A first run can be picked up.  Run a node from nothing on an empty database,
    offering it any blocks and headers and activating as often as you like; stop it between
    two of these operations while its database has not faulted.  Loading the chain from that database then either latches a fault or,
    as long as the tip has not been ruled out, gives back the index the node had (every
    entry in its place, as far validated and as eligible as it was, the same best header),
    and resuming at its tip gives back the chain.  If the tip has been ruled out and the
    chain had ever left genesis, the database does not load. *)
Theorem restart_resumes `{Sha256Impl} `{Signature.SignatureBackends} {R D} `{RocksDB R} `{!LawfulRocks R} `{BlockStore D} `{!LawfulStore D}
    (net : Network) (s : ChainState (ChainDb R) D (ChainDb R)) (d : ChainDb R) (now : Z)
    (S : started net s) (E : sink_ s = Some d) (F : faulted d = false) (Hn : i64 now) :
  exists t r d', Tip s = Some t /\ LoadChain (ParamsFor net) now d = Some (r, d') /\ (faulted d' = true \/ resumes s t r).
Proof. by apply restart_spec. Qed.

Lemma restart_resumes_witness : exists t r d', Tip grown_state = Some t /\
  LoadChain (H := toy_Sha256Impl) REGTEST_PARAMS 0 grown_db = Some (r, d') /\ (faulted d' = true \/ resumes (SH := toy_Sha256Impl) grown_state t r).
Proof.
  apply (restart_resumes (H := toy_Sha256Impl) (H0 := picky_backends) Regtest grown_state grown_db 0).
  - exact grown_started.
  - exact (proj1 grown_facts).
  - exact (proj1 (proj2 grown_facts)).
  - vm_compute. split; congruence.
Defined.


(** The state a crash leaves between the two writes of [AcceptBlock]: the body of a side
    branch's first block is stored, its header is not. *)
Definition interrupted_state : ChainState (ChainDb Disk) MemoryBlockStore (ChainDb Disk) :=
  with_store (PutBlock (Block_Hash (H := toy_Sha256Impl) block_b1) block_b1 (store_ grown_state)) grown_state.

(** A body without its header is lost for good.  Stop a node between the two writes that
    store a block, so that the body is there and the header is not.  Offered again, the
    block is found in the store and its header is indexed but never committed; the header
    of its child is; and the database, which never faulted, does not load. *)
Theorem lost_header_bricks_node :
  let s := follow_best (take_block block_b2 (take_block block_b1 interrupted_state)) in
  Tip s = Tip grown_state /\
  exists d d', sink_ s = Some d /\ faulted d = false /\
    LoadChain (H := toy_Sha256Impl) REGTEST_PARAMS sample_now d = Some (inl CorruptRecord, d') /\ faulted d' = false.
Proof.
  intros s. split; [with_strategy transparent [grown_state] (vm_compute; reflexivity)|].
  assert (match sink_ s with
    | Some d => negb (faulted d) && match LoadChain (H := toy_Sha256Impl) REGTEST_PARAMS sample_now d with
                                    | Some (inl CorruptRecord, d') => negb (faulted d')
                                    | _ => false end
    | None => false end = true) as C by with_strategy transparent [grown_state] (vm_compute; reflexivity).
  destruct (sink_ s) as [d|]; [|done]. apply andb_true_iff in C as [F C].
  destruct (LoadChain _ _ d) as [[[[]|] d']|] eqn:El; try done. apply negb_true_iff in F, C. by exists d, d'.
Qed.
End HeaderLog.
