(* ===== verification/Address.v ===== *)
(** * Addresses (wallet/address.cpp): bech32m text of a lock

    A text is a list of bytes, a value of the code's five-bit alphabet is a [Z] below
    32.  The checksum is a remainder modulo a polynomial of degree six over the field
    of 32 elements; its linearity gives the round trip, the canonical spelling and the
    detection of errors. *)

From Stdlib Require Import String.
From S2P Require Import Prelude Serialize Crypto Primitives.
From stdpp Require Import pmap.
#[local] Open Scope Z_scope.

Module Address.

(** ** The alphabet and the checksum *)

Definition CHARSET : bytes := str "qpzry9x8gf2tvdw0s3jn54khce6mua7l".
Definition GEN : list Z := [0x3B6A57B2; 0x26508E6D; 0x1EA119FA; 0x3D4233DD; 0x2A1462B3].
Definition BECH32M_CONST : Z := 0x2BC830A3.
Definition ADDRESS_VERSION_CONDITION : Z := 1.
Definition ADDRESS_PROGRAM_BYTES : Z := 32.

Definition lower (c : Init.Byte.byte) : Init.Byte.byte :=
  if (65 <=? b2z c) && (b2z c <=? 90) then z2b (b2z c - 65 + 97) else c.

(** [std::string_view::find] of one character. *)
Fixpoint find (c : Init.Byte.byte) (s : bytes) : option Z :=
  match s with
  | [] => None
  | x :: s => if b2z x =? b2z c then Some 0 else option_map (Z.add 1) (find c s)
  end.

Definition CharToValue (c : Init.Byte.byte) : Z :=
  match find (lower c) CHARSET with
  | Some found => wrapu 8 found
  | None => 0xFF
  end.

Definition PolyModStep (chk value : Z) : Z :=
  let top := Z.shiftr chk 25 in
  let chk := Z.lxor (wrapu 32 (Z.shiftl (Z.land chk 0x1FFFFFF) 5)) value in
  foldl (fun chk i => if Z.land (Z.shiftr top i) 1 =? 0 then chk
                      else Z.lxor chk (default 0 (GEN !! Z.to_nat i))) chk [0; 1; 2; 3; 4].

Definition PolyMod (values : list Z) : Z := foldl PolyModStep 1 values.

(** ** Regrouping of bits: the code's buffer, bit count and result so far *)

Record Regroup (A : Type) := mkRegroup { buffer : Z; bits : Z; result : list A }.
Arguments mkRegroup {A} _ _ _.
Arguments buffer {A} _.
Arguments bits {A} _.
Arguments result {A} _.

(** [while (bits >= 5)]; every turn takes five bits away. *)
Fixpoint drain (fuel : nat) (g : Regroup Z) : Regroup Z :=
  match fuel with
  | O => g
  | S fuel =>
      if bits g >=? 5 then
        let left := bits g - 5 in
        drain fuel (mkRegroup (buffer g) left (result g ++ [Z.land (Z.shiftr (buffer g) left) 0x1F]))
      else g
  end.

Definition split_byte (g : Regroup Z) (b : Init.Byte.byte) : Regroup Z :=
  let more := mkRegroup (Z.lor (wrapu 32 (Z.shiftl (buffer g) 8)) (b2z b)) (bits g + 8) (result g) in
  drain (Z.to_nat (bits more)) more.

Definition Convert8To5 (data : bytes) : list Z :=
  let g := foldl split_byte (mkRegroup 0 0 []) data in
  if bits g >? 0 then result g ++ [Z.land (wrapu 32 (Z.shiftl (buffer g) (5 - bits g))) 0x1F]
  else result g.

Definition join_value (g : Regroup Init.Byte.byte) (v : Z) : option (Regroup Init.Byte.byte) :=
  if v >? 31 then None
  else
    let buffer := Z.lor (wrapu 32 (Z.shiftl (buffer g) 5)) v in
    let more := bits g + 5 in
    Some (if more >=? 8 then
            mkRegroup buffer (more - 8) (result g ++ [z2b (Z.land (Z.shiftr buffer (more - 8)) 0xFF)])
          else mkRegroup buffer more (result g)).

Fixpoint join_values (g : Regroup Init.Byte.byte) (data : list Z) : option (Regroup Init.Byte.byte) :=
  match data with
  | [] => Some g
  | v :: data => g ← join_value g v; join_values g data
  end.

Definition Convert5To8 (data : list Z) (expected_bytes : Z) : option bytes :=
  g ← join_values (mkRegroup 0 0 []) data;
  if (bits g >=? 5) ||
     ((bits g >? 0) && negb (Z.land (wrapu 32 (Z.shiftl (buffer g) (8 - bits g))) 0xFF =? 0)) then None
  else if negb (zlen (result g) =? expected_bytes) then None
  else Some (result g).

(** ** Addresses *)

Fixpoint HrpExpand (hrp : bytes) : list Z :=
  match hrp with
  | [] => [0]
  | c :: hrp => Z.land (Z.shiftr (char_value c) 5) 0x1F :: Z.land (char_value c) 0x1F :: HrpExpand hrp
  end.

Definition ComputeChecksum5 (hrp_expand data_5bit : list Z) : list Z :=
  let input := hrp_expand ++ data_5bit ++ [0; 0; 0; 0; 0; 0] in
  let poly := Z.lxor (PolyMod input) BECH32M_CONST in
  map (fun i => Z.land (Z.shiftr poly (5 * (5 - i))) 0x1F) [0; 1; 2; 3; 4; 5].

(** [CHARSET\[v\]]. *)
Definition ValueToChar (v : Z) : Init.Byte.byte := default Byte.x00 (CHARSET !! Z.to_nat v).

Definition SEPARATOR : Init.Byte.byte := z2b 49.

Definition EncodeAddress (hrp : bytes) (version : Z) (program : bytes) : bytes :=
  if zlen program =? 2 ^ 64 - 1 then []
  else if version >? 31 then []
  else
    let five_bit := version :: Convert8To5 program in
    let checksum := ComputeChecksum5 (HrpExpand hrp) five_bit in
    hrp ++ [SEPARATOR] ++ map ValueToChar five_bit ++ map ValueToChar checksum.

Record DecodedAddress := mkDecodedAddress { decoded_version : Z; decoded_program : bytes }.

Fixpoint find_last_of (c : Init.Byte.byte) (s : bytes) : option Z :=
  match s with
  | [] => None
  | x :: s =>
      match find_last_of c s with
      | Some i => Some (i + 1)
      | None => if b2z x =? b2z c then Some 0 else None
      end
  end.

Fixpoint decode_chars (data_part : bytes) : option (list Z) :=
  match data_part with
  | [] => Some []
  | c :: data_part =>
      let v := CharToValue c in
      if v >? 31 then None else vs ← decode_chars data_part; Some (v :: vs)
  end.

Definition DecodeAddress (hrp address : bytes) : option DecodedAddress :=
  if (zlen address <? 8) || (zlen address >? 90) then None
  else
    match find_last_of SEPARATOR address with
    | None => None
    | Some sep =>
        if (sep =? 0) || (sep + 7 >? zlen address) then None
        else
          let actual_hrp := take (Z.to_nat sep) address in
          if negb (bool_decide (actual_hrp = hrp)) then None
          else
            let data_part := drop (Z.to_nat (sep + 1)) address in
            if existsb (fun c => (char_value c <? 33) || (char_value c >? 126)) actual_hrp then None
            else
              data_values ← decode_chars data_part;
              if zlen data_values <? 6 then None
              else if negb (PolyMod (HrpExpand actual_hrp ++ data_values) =? BECH32M_CONST) then None
              else
                match take (length data_values - 6) data_values with
                | [] => None
                | version :: program_5bit =>
                    if version >? 16 then None
                    else
                      program ← Convert5To8 program_5bit ADDRESS_PROGRAM_BYTES;
                      Some (mkDecodedAddress version program)
                end
    end.

Definition LockToAddress (lock : Lock) (hrp : bytes) : option bytes :=
  if negb (lock_version lock =? LOCK_VERSION_CONDITION_COMMITMENT) then None
  else if negb (zlen (lock_program lock) =? ADDRESS_PROGRAM_BYTES) then None
  else Some (EncodeAddress hrp ADDRESS_VERSION_CONDITION (lock_program lock)).

Definition AddressToLock (address hrp : bytes) : option Lock :=
  decoded ← DecodeAddress hrp address;
  Some (mkLock LOCK_VERSION_CONDITION_COMMITMENT (decoded_program decoded)).

(** ** The checksum is linear *)

(** The multiple of the generator that clears the five bits shifted out. *)
Definition gens (top : Z) : Z :=
  foldr Z.lxor 0 (map (fun i => if Z.testbit top i then default 0 (GEN !! Z.to_nat i) else 0) [0; 1; 2; 3; 4]).

Lemma bit_test x i : 0 <= i -> (Z.land (Z.shiftr x i) 1 =? 0) = negb (Z.testbit x i).
Proof.
  intros Hi. change 1 with (Z.ones 1). rewrite Z.land_ones by lia.
  rewrite <- (Z.add_0_l i), <- Z.shiftr_spec, Z.bit0_odd, <- Z.negb_even by lia. rewrite Z.add_0_l.
  rewrite Zmod_even. by destruct (Z.even _).
Qed.

Lemma land_mask_range c k : 0 <= k -> 0 <= Z.land c (Z.ones k) < 2 ^ k.
Proof. intros. rewrite Z.land_ones by done. apply Z.mod_pos_bound. lia. Qed.

Lemma PolyModStep_eq c v :
  PolyModStep c v = Z.lxor (Z.lxor (Z.shiftl (Z.land c (Z.ones 25)) 5) v) (gens (Z.shiftr c 25)).
Proof.
  unfold PolyModStep. change 0x1FFFFFF with (Z.ones 25).
  rewrite wrapu_small.
  2:{ pose proof (land_mask_range c 25). rewrite Z.shiftl_mul_pow2 by lia. lia. }
  cbn [foldl]. rewrite !bit_test by lia. unfold gens. cbn [map foldr].
  set (x := Z.lxor (Z.shiftl _ _) v). generalize (Z.shiftr c 25) as t. intros t.
  generalize (default 0 (GEN !! Z.to_nat 0)), (default 0 (GEN !! Z.to_nat 1)), (default 0 (GEN !! Z.to_nat 2)),
    (default 0 (GEN !! Z.to_nat 3)), (default 0 (GEN !! Z.to_nat 4)). intros g0 g1 g2 g3 g4.
  destruct (Z.testbit t 0), (Z.testbit t 1), (Z.testbit t 2), (Z.testbit t 3), (Z.testbit t 4);
    cbn [negb]; rewrite ?Z.lxor_0_r, ?Z.lxor_0_l, ?Z.lxor_assoc; done.
Qed.

(** Equations of exclusive or, bit by bit. *)
Ltac bitwise :=
  apply Z.bits_inj'; intros ? ?; rewrite ?Z.lxor_spec, ?Z.land_spec, ?Z.lxor_spec;
  repeat match goal with |- context [Z.testbit ?a ?b] => destruct (Z.testbit a b) end; reflexivity.

Lemma lxor_swap a b c d : Z.lxor (Z.lxor a b) (Z.lxor c d) = Z.lxor (Z.lxor a c) (Z.lxor b d).
Proof. bitwise. Qed.

Lemma gens_lxor s t : gens (Z.lxor s t) = Z.lxor (gens s) (gens t).
Proof.
  unfold gens. cbn [map foldr]. rewrite !Z.lxor_spec.
  destruct (Z.testbit s 0), (Z.testbit s 1), (Z.testbit s 2), (Z.testbit s 3), (Z.testbit s 4),
   (Z.testbit t 0), (Z.testbit t 1), (Z.testbit t 2), (Z.testbit t 3), (Z.testbit t 4); vm_compute; reflexivity.
Qed.

Lemma PolyModStep_lxor a b v w :
  PolyModStep (Z.lxor a b) (Z.lxor v w) = Z.lxor (PolyModStep a v) (PolyModStep b w).
Proof.
  rewrite !PolyModStep_eq, Z.shiftr_lxor, gens_lxor.
  replace (Z.land (Z.lxor a b) (Z.ones 25)) with (Z.lxor (Z.land a (Z.ones 25)) (Z.land b (Z.ones 25))) by bitwise.
  rewrite Z.shiftl_lxor. bitwise.
Qed.

Lemma PolyModStep_value c v : PolyModStep c v = Z.lxor (PolyModStep c 0) v.
Proof. rewrite !PolyModStep_eq, Z.lxor_0_r. bitwise. Qed.

Lemma lxor_range k a b : 0 <= k -> 0 <= a < 2 ^ k -> 0 <= b < 2 ^ k -> 0 <= Z.lxor a b < 2 ^ k.
Proof.
  intros Hk Ha Hb. split; [apply Z.lxor_nonneg; lia|].
  rewrite <- (Z.mod_small a (2 ^ k)), <- (Z.mod_small b (2 ^ k)) by done.
  rewrite <- !Z.land_ones by done.
  replace (Z.lxor (Z.land a (Z.ones k)) (Z.land b (Z.ones k))) with (Z.land (Z.lxor a b) (Z.ones k)) by bitwise.
  apply land_mask_range. done.
Qed.

Lemma gens_range t : 0 <= gens t < 2 ^ 30.
Proof.
  unfold gens. cbn [map foldr].
  destruct (Z.testbit t 0), (Z.testbit t 1), (Z.testbit t 2), (Z.testbit t 3), (Z.testbit t 4); vm_compute; split; congruence.
Qed.

Definition value_ok (v : Z) : Prop := 0 <= v < 32.

Lemma PolyModStep_range c v : value_ok v -> 0 <= PolyModStep c v < 2 ^ 30.
Proof.
  unfold value_ok. intros Hv. rewrite PolyModStep_eq. pose proof (land_mask_range c 25).
  apply lxor_range; [lia|apply lxor_range; [lia| |lia]|apply gens_range].
  rewrite Z.shiftl_mul_pow2 by lia. lia.
Qed.

(** One zero value appended. *)
Definition T (c : Z) : Z := PolyModStep c 0.

Lemma T_lxor a b : T (Z.lxor a b) = Z.lxor (T a) (T b).
Proof. unfold T. rewrite <- PolyModStep_lxor. done. Qed.
Lemma T_0 : T 0 = 0.
Proof. reflexivity. Qed.
Lemma T_range c : 0 <= T c < 2 ^ 30.
Proof. unfold T. apply (PolyModStep_range c 0). unfold value_ok. lia. Qed.

Lemma T_small c : 0 <= c < 2 ^ 25 -> T c = Z.shiftl c 5.
Proof.
  intros Hc. unfold T. rewrite PolyModStep_eq, Z.land_ones, Z.mod_small by lia.
  rewrite (Z.shiftr_div_pow2 c 25), Z.div_small by lia. by rewrite !Z.lxor_0_r.
Qed.

(** No five bits but zero have a generator multiple ending in five zero bits. *)
Lemma gens_low t : 0 <= t < 32 -> Z.land (gens t) 31 = 0 -> t = 0.
Proof.
  intros Ht. assert (Z.to_nat t < 32)%nat as Hn by lia. replace t with (Z.of_nat (Z.to_nat t)) by lia.
  generalize dependent (Z.to_nat t). intros n Hn. do 32 (destruct n as [|n]; [vm_compute; congruence|]). lia.
Qed.

Lemma T_inj0 c : 0 <= c < 2 ^ 30 -> T c = 0 -> c = 0.
Proof.
  intros Hc H. unfold T in H. rewrite PolyModStep_eq, Z.lxor_0_r in H. apply Z.lxor_eq in H.
  assert (Z.shiftr c 25 = 0) as Ht.
  { apply gens_low; [rewrite Z.shiftr_div_pow2 by lia; dlia|]. rewrite <- H. change 31 with (Z.ones 5).
    rewrite Z.land_ones, Z.shiftl_mul_pow2 by lia. apply Z_mod_mult. }
  rewrite Ht in H. change (gens 0) with 0 in H. rewrite Z.land_ones, Z.shiftl_mul_pow2 in H by lia.
  rewrite Z.shiftr_div_pow2 in Ht by lia. rewrite Z.mod_small in H by dlia. lia.
Qed.

(** ** Runs of the checksum over a difference of two lists *)

Definition run (c : Z) (vs : list Z) : Z := foldl PolyModStep c vs.

Lemma run_app c vs ws : run c (vs ++ ws) = run (run c vs) ws.
Proof. apply foldl_app. Qed.

Lemma run_lxor vs : forall ws c d, length vs = length ws ->
  run (Z.lxor c d) (zip_with Z.lxor vs ws) = Z.lxor (run c vs) (run d ws).
Proof.
  induction vs as [|v vs IH]; intros [|w ws] c d Hl; try done. injection Hl as Hl.
  unfold run in *. cbn [zip_with foldl]. rewrite PolyModStep_lxor. by apply IH.
Qed.

Lemma run_diff c vs ws : length vs = length ws ->
  Z.lxor (run c vs) (run c ws) = run 0 (zip_with Z.lxor vs ws).
Proof. intros Hl. by rewrite <- (run_lxor vs ws c c Hl), Z.lxor_nilpotent. Qed.

Lemma run_range c vs : 0 <= c < 2 ^ 30 -> Forall value_ok vs -> 0 <= run c vs < 2 ^ 30.
Proof.
  intros Hc H. revert c Hc. induction H as [|v vs Hv _ IH]; intros c Hc; [done|].
  apply IH. by apply PolyModStep_range.
Qed.

(** The number six values spell. *)
Definition spell (vs : list Z) : Z := foldl (fun a v => a * 32 + v) 0 vs.

Lemma lxor_add_low a v k : 0 <= k -> 0 <= v < 2 ^ k -> Z.lxor (Z.shiftl a k) v = a * 2 ^ k + v.
Proof.
  intros Hk Hv. rewrite Z.shiftl_mul_pow2 by done. symmetry. apply Z.add_nocarry_lxor.
  apply Z.bits_inj'. intros n Hn. rewrite Z.bits_0, Z.land_spec.
  destruct (Z.lt_ge_cases n k).
  - by rewrite Z.mul_pow2_bits_low.
  - rewrite <- (Z.mod_small v (2 ^ k)), Z.mod_pow2_bits_high by lia. apply andb_false_r.
Qed.

Lemma step_small c v : 0 <= c < 2 ^ 25 -> value_ok v -> PolyModStep c v = c * 32 + v.
Proof.
  intros Hc Hv. rewrite PolyModStep_value. change (PolyModStep c 0) with (T c). rewrite T_small by done.
  by rewrite lxor_add_low by (unfold value_ok in Hv; lia).
Qed.

Lemma run_small vs : Forall value_ok vs -> forall c, 0 <= c < 2 ^ (30 - 5 * zlen vs) ->
  foldl (fun a v => a * 32 + v) c vs = run c vs.
Proof.
  induction 1 as [|v vs Hv _ IH]; intros c Hc; [done|]. unfold run in *. cbn [foldl].
  rewrite zlen_cons in Hc. pose proof (zlen_nonneg vs).
  assert (30 - 5 * (1 + zlen vs) <= 25) as Hle by lia.
  pose proof (Z.pow_le_mono_r 2 _ _ ltac:(lia) Hle). rewrite step_small by (done || lia). apply IH.
  assert (0 <= 30 - 5 * (1 + zlen vs)) by (destruct (Z.lt_ge_cases (30 - 5 * (1 + zlen vs)) 0); [rewrite Z.pow_neg_r in Hc; lia|done]).
  replace (30 - 5 * zlen vs) with (30 - 5 * (1 + zlen vs) + 5) by lia.
  rewrite Z.pow_add_r by lia. unfold value_ok in Hv. lia.
Qed.

(** Appending six values adds, to the remainder for six zeros, the number they spell. *)
Lemma run_six c vs : length vs = 6%nat -> Forall value_ok vs ->
  run c vs = Z.lxor (run c [0; 0; 0; 0; 0; 0]) (spell vs).
Proof.
  intros Hl H. replace (spell vs) with (run 0 vs).
  - rewrite <- (run_lxor _ vs c 0) by (by rewrite Hl). rewrite Z.lxor_0_r. f_equal.
    do 6 (destruct vs as [|? vs]; [done|]). by destruct vs.
  - symmetry. apply (run_small vs H 0). unfold zlen. rewrite Hl. done.
Qed.

(** ** Sparse differences *)

(** The nonzero values of a difference, with their distance from the end. *)
Fixpoint terms (err : list Z) : list (nat * Z) :=
  match err with
  | [] => []
  | e :: err => if e =? 0 then terms err else (length err, e) :: terms err
  end.

Fixpoint iter_T (k : nat) (c : Z) : Z :=
  match k with O => c | S k => T (iter_T k c) end.
Definition synd (ts : list (nat * Z)) : Z := foldr (fun t acc => Z.lxor (iter_T t.1 t.2) acc) 0 ts.

Lemma synd_cons k e ts : synd ((k, e) :: ts) = Z.lxor (iter_T k e) (synd ts).
Proof. done. Qed.

Lemma iter_T_lxor k a b : iter_T k (Z.lxor a b) = Z.lxor (iter_T k a) (iter_T k b).
Proof. induction k as [|k IH]; [done|]. cbn [iter_T]. by rewrite IH, T_lxor. Qed.

Lemma iter_T_comm k c : iter_T k (T c) = T (iter_T k c).
Proof. induction k as [|k IH]; [done|]. cbn [iter_T]. by rewrite IH. Qed.

Lemma iter_T_add j k c : iter_T (j + k) c = iter_T j (iter_T k c).
Proof. induction j as [|j IH]; [done|]. cbn [Nat.add iter_T]. by rewrite IH. Qed.

Lemma iter_T_0 k : iter_T k 0 = 0.
Proof. induction k as [|k IH]; [done|]. cbn [iter_T]. by rewrite IH. Qed.

Lemma iter_T_range k c : 0 <= c < 2 ^ 30 -> 0 <= iter_T k c < 2 ^ 30.
Proof. intros Hc. destruct k as [|k]; [done|]. cbn [iter_T]. apply T_range. Qed.

Lemma iter_T_inj0 k c : 0 <= c < 2 ^ 30 -> iter_T k c = 0 -> c = 0.
Proof.
  intros Hc. induction k as [|k IH]; [done|]. intros H. apply IH.
  apply (T_inj0 (iter_T k c)); [by apply iter_T_range|done].
Qed.

Lemma run_terms err : forall c, run c err = Z.lxor (iter_T (length err) c) (synd (terms err)).
Proof.
  induction err as [|e err IH]; intros c; [by rewrite Z.lxor_0_r|]. unfold run in *. cbn [foldl terms length].
  rewrite IH, PolyModStep_value, iter_T_lxor. change (PolyModStep c 0) with (T c). rewrite iter_T_comm.
  change (iter_T (S (length err)) c) with (T (iter_T (length err) c)).
  destruct (Z.eqb_spec e 0) as [->|]; [by rewrite iter_T_0, Z.lxor_0_r|].
  rewrite synd_cons. apply Z.lxor_assoc.
Qed.

(** Distances that fall strictly below [n], values that are not zero. *)
Fixpoint descending (n : nat) (ts : list (nat * Z)) : Prop :=
  match ts with
  | [] => True
  | (k, e) :: ts => (k < n)%nat /\ 0 < e < 32 /\ descending k ts
  end.

Lemma descending_weaken m n ts : (m <= n)%nat -> descending m ts -> descending n ts.
Proof. destruct ts as [|[k e] ts]; [done|]. cbn. intros ? (? & ? & ?). split; [lia|done]. Qed.

Lemma terms_descending err : Forall value_ok err -> descending (length err) (terms err).
Proof.
  induction 1 as [|e err He _ IH]; [done|]. cbn [terms length].
  destruct (Z.eqb_spec e 0); [apply (descending_weaken (length err)); [lia|done]|].
  unfold value_ok in He. cbn. split; [lia|]. split; [lia|done].
Qed.

Lemma synd_range n ts : descending n ts -> 0 <= synd ts < 2 ^ 30.
Proof.
  revert n. induction ts as [|[k e] ts IH]; intros n H; [cbn; lia|]. destruct H as (_ & He & H).
  rewrite synd_cons. apply lxor_range; [lia|apply iter_T_range; lia|by apply (IH k)].
Qed.

(** Moving every term the same distance. *)
Definition shift_terms (j : nat) (ts : list (nat * Z)) : list (nat * Z) := map (fun t => (t.1 - j, t.2)%nat) ts.

Lemma synd_shift j ts : Forall (fun t => (j <= t.1)%nat) ts -> synd ts = iter_T j (synd (shift_terms j ts)).
Proof.
  induction 1 as [|[k e] ts Hk _ IH]; [by rewrite iter_T_0|]. cbn [fst] in Hk.
  change (shift_terms j ((k, e) :: ts)) with ((k - j, e)%nat :: shift_terms j ts).
  rewrite !synd_cons, iter_T_lxor, <- iter_T_add, IH.
  replace (j + (k - j))%nat with k by lia. done.
Qed.

(** ** Multiplication by the generator of the field of 32 elements, on each of six values *)

Definition mulx (c : Z) : Z :=
  let lo := Z.land c 0x1EF7BDEF in
  let hi := Z.land (Z.shiftr c 4) 0x02108421 in
  Z.lxor (Z.shiftl lo 1) (Z.lxor hi (Z.shiftl hi 3)).

Lemma mulx_lxor a b : mulx (Z.lxor a b) = Z.lxor (mulx a) (mulx b).
Proof.
  unfold mulx. rewrite Z.shiftr_lxor.
  assert (forall x y m, Z.land (Z.lxor x y) m = Z.lxor (Z.land x m) (Z.land y m)) as E by (intros; bitwise).
  rewrite !E, !Z.shiftl_lxor. bitwise.
Qed.

(** Linear functions that agree on the powers of two agree. *)
Lemma linear_ext (f g : Z -> Z) n :
  (forall a b, f (Z.lxor a b) = Z.lxor (f a) (f b)) -> (forall a b, g (Z.lxor a b) = Z.lxor (g a) (g b)) ->
  forallb (fun i => f (2 ^ Z.of_nat i) =? g (2 ^ Z.of_nat i)) (seq 0 n) = true ->
  forall c, 0 <= c < 2 ^ Z.of_nat n -> f c = g c.
Proof.
  intros Hf Hg. induction n as [|n IH]; intros H c Hc.
  - change (2 ^ Z.of_nat 0) with 1 in Hc. replace c with (Z.lxor 0 0) by (change (Z.lxor 0 0) with 0; lia). by rewrite Hf, Hg, !Z.lxor_nilpotent.
  - rewrite seq_S, forallb_app in H. apply andb_true_iff in H as [H Hn]. specialize (IH H).
    cbn in Hn. rewrite andb_true_r in Hn. apply Z.eqb_eq in Hn.
    rewrite Nat2Z.inj_succ, Z.pow_succ_r in Hc by lia.
    destruct (Z.lt_ge_cases c (2 ^ Z.of_nat n)); [apply IH; lia|].
    assert (c = Z.lxor (Z.shiftl 1 (Z.of_nat n)) (c - 2 ^ Z.of_nat n)) as -> by (rewrite lxor_add_low by lia; lia).
    rewrite Hf, Hg, Z.shiftl_1_l, Hn. f_equal. apply IH. lia.
Qed.

Lemma mulx_T c : 0 <= c < 2 ^ 30 -> mulx (T c) = T (mulx c).
Proof.
  change 30 with (Z.of_nat 30). apply (linear_ext (fun c => mulx (T c)) (fun c => T (mulx c)) 30).
  - intros a b. by rewrite T_lxor, mulx_lxor.
  - intros a b. by rewrite mulx_lxor, T_lxor.
  - vm_compute. reflexivity.
Qed.

Lemma mulx_iter_T k c : 0 <= c < 2 ^ 30 -> mulx (iter_T k c) = iter_T k (mulx c).
Proof.
  intros Hc. induction k as [|k IH]; [done|]. change (iter_T (S k) c) with (T (iter_T k c)).
  rewrite mulx_T, IH by (by apply iter_T_range). done.
Qed.

Definition scale_terms (ts : list (nat * Z)) : list (nat * Z) := map (fun t => (t.1, mulx t.2)) ts.


Lemma small_ind (P : Z -> bool) n : forallb P (map Z.of_nat (seq 0 n)) = true -> forall v, 0 <= v < Z.of_nat n -> P v = true.
Proof.
  intros H v Hv. rewrite forallb_forall in H. apply H, in_map_iff. exists (Z.to_nat v). split; [lia|]. apply in_seq. lia.
Qed.

Lemma mulx_value v : 0 < v < 32 -> 0 < mulx v < 32.
Proof.
  intros Hv. pose proof (small_ind (fun v => (v =? 0) || (0 <? mulx v) && (mulx v <? 32)) 32 eq_refl v ltac:(lia)) as H.
  apply orb_true_iff in H as [H|H]; bprop; lia.
Qed.

(** Every nonzero value becomes one. *)
Lemma mulx_one v : 0 < v < 32 -> exists j, Nat.iter j mulx v = 1.
Proof.
  intros Hv. pose proof (small_ind (fun v => (v =? 0) || existsb (fun j => Nat.iter j mulx v =? 1) (seq 0 31)) 32 eq_refl v ltac:(lia)) as H.
  apply orb_true_iff in H as [H|H]; [bprop; lia|]. apply existsb_exists in H as (j & _ & H). exists j. by apply Z.eqb_eq.
Qed.

Lemma synd_scale n ts : descending n ts -> synd (scale_terms ts) = mulx (synd ts).
Proof.
  revert n. induction ts as [|[k e] ts IH]; intros n H; [done|]. destruct H as (_ & He & H).
  change (scale_terms ((k, e) :: ts)) with ((k, mulx e) :: scale_terms ts).
  by rewrite !synd_cons, (IH k H), mulx_lxor, mulx_iter_T by lia.
Qed.

Lemma scale_descending n ts : descending n ts -> descending n (scale_terms ts).
Proof.
  revert n. induction ts as [|[k e] ts IH]; intros n H; [done|]. destruct H as (? & He & H). cbn.
  split; [done|]. split; [by apply mulx_value|by apply IH].
Qed.
(** ** No difference of one to four values among 59 has remainder zero *)

(** The remainder of value [e] at distance [k], without its last value. *)
Definition proj (k : nat) (e : Z) : Z := Z.shiftr (iter_T k e) 5.

Definition key (x : Z) : positive := match x with Zpos p => xI p | _ => xH end.

Definition fresh (seen : Pmap ()) (x : Z) : bool := match seen !! key x with None => true | Some _ => false end.

(** Rows from distance [k] on: [cur] holds the remainders of the 31 values at that
    distance, [prev] the projections at the distances from one below it and [seen] the
    same with zero. *)
Fixpoint scan (n : nat) (cur prev : list Z) (seen : Pmap ()) : bool :=
  match n with
  | O => true
  | S n =>
      match cur with
      | [] => false
      | one :: _ =>
          let a := Z.shiftr one 5 in
          let row := map (fun c => Z.shiftr c 5) cur in
          fresh seen a &&
          forallb (fun y => fresh seen (Z.lxor a y)) prev &&
          scan n (map T cur) (row ++ prev) (foldr (fun y s => <[key y := tt]> s) seen row)
      end
  end.

Definition VALUES : list Z := map Z.of_nat (seq 1 31).

Lemma scan_58 : scan 58 (map T VALUES) [] {[key 0 := tt]} = true.
Proof. vm_compute. reflexivity. Qed.
Definition member (k : nat) (x : Z) : Prop :=
  x = 0 \/ exists j e, (1 <= j < k)%nat /\ 0 < e < 32 /\ x = proj j e.

Lemma VALUES_spec e : In e VALUES <-> 0 < e < 32.
Proof.
  unfold VALUES. rewrite in_map_iff. split.
  - intros (n & <- & H%in_seq). lia.
  - intros H. exists (Z.to_nat e). split; [lia|]. apply in_seq. lia.
Qed.

Lemma member_S k x : member (S k) x -> member k x \/ In x (map (proj k) VALUES) \/ k = O.
Proof.
  intros [->|(j & e & Hj & He & ->)]; [left; by left|]. destruct (decide (j = k)) as [->|].
  - right. left. by apply in_map, VALUES_spec.
  - left. right. exists j, e. split; [lia|done].
Qed.

Lemma seen_row row : forall (seen : Pmap ()) x, (seen !! key x = Some tt \/ In x row) ->
  foldr (fun y s => <[key y := tt]> s) seen row !! key x = Some tt.
Proof.
  induction row as [|y row IH]; intros seen x [H|H]; cbn [foldr]; try done.
  - destruct (decide (key y = key x)) as [->|]; [apply lookup_insert_eq|]. rewrite lookup_insert_ne by done. apply IH. by left.
  - destruct (decide (key y = key x)) as [->|Hn]; [apply lookup_insert_eq|]. rewrite lookup_insert_ne by done. apply IH.
    right. destruct H as [->|H]; done.
Qed.

Lemma fresh_not seen x y : fresh seen x = true -> seen !! key y = Some tt -> x <> y.
Proof. unfold fresh. intros H Hy ->. by rewrite Hy in H. Qed.

(** What a successful scan says of its first row, and that the next scan is well set up. *)
Lemma scan_spec n : forall k prev seen, (1 <= k)%nat ->
  scan n (map (iter_T k) VALUES) prev seen = true ->
  (forall x, member k x -> x = 0 \/ In x prev) -> (forall x, member k x -> seen !! key x = Some tt) ->
  forall k1, (k <= k1 < k + n)%nat -> forall y z, member k1 y -> member k1 z -> Z.lxor (proj k1 1) y <> z.
Proof.
  induction n as [|n IH]; intros k prev seen Hk H Hprev Hseen k1 Hk1 y z Hy Hz; [lia|].
  change (scan (S n) (map (iter_T k) VALUES) prev seen) with
    (fresh seen (proj k 1) && forallb (fun y => fresh seen (Z.lxor (proj k 1) y)) prev &&
     scan n (map T (map (iter_T k) VALUES)) (map (fun c => Z.shiftr c 5) (map (iter_T k) VALUES) ++ prev)
       (foldr (fun y s => <[key y := tt]> s) seen (map (fun c => Z.shiftr c 5) (map (iter_T k) VALUES)))) in H.
  rewrite !map_map in H. change (fun x => Z.shiftr (iter_T k x) 5) with (proj k) in H.
  apply andb_true_iff in H as [[Ha Hb]%andb_true_iff Hnext].
  destruct (decide (k1 = k)) as [->|Hne].
  - destruct (Hprev y Hy) as [->|Hin].
    + rewrite Z.lxor_0_r. eapply fresh_not; [done|]. by apply Hseen.
    + rewrite forallb_forall in Hb. eapply fresh_not; [by apply Hb|]. by apply Hseen.
  - eapply (IH (S k)); [lia|exact Hnext| | |lia|done|done].
    + intros x [Hx|[Hx|Hx]]%member_S; [|right; apply in_or_app; by left|lia].
      destruct (Hprev x Hx); [by left|right; apply in_or_app; by right].
    + intros x [Hx|[Hx|Hx]]%member_S; [|apply seen_row; by right|lia]. apply seen_row. left. by apply Hseen.
Qed.

Lemma proj_clash k1 y z : (1 <= k1 < 59)%nat -> member k1 y -> member k1 z -> Z.lxor (proj k1 1) y <> z.
Proof.
  intros Hk1. apply (scan_spec 58 1 [] {[key 0 := tt]}); [lia|exact scan_58| | |lia].
  - intros x [->|(? & ? & ? & _)]; [by left|lia].
  - intros x [->|(? & ? & ? & _)]; [done|lia].
Qed.

(** *** Normal form: the last term at distance nought, the first of value one *)

Lemma scale_to_one n k e ts : descending n ((k, e) :: ts) -> synd ((k, e) :: ts) = 0 ->
  exists ts', map fst ts' = map fst ts /\ descending n ((k, 1) :: ts') /\ synd ((k, 1) :: ts') = 0.
Proof.
  intros H Hs. destruct (mulx_one e) as [j Hj]; [by destruct H as (_ & ? & _)|]. revert e ts H Hs Hj.
  induction j as [|j IH]; intros e ts H Hs Hj; [cbn in Hj; subst e; by exists ts|].
  rewrite Nat.iter_succ_r in Hj. edestruct (IH (mulx e) (scale_terms ts)) as (ts' & E & Hd & Hs'); [| |done|].
  - exact (scale_descending _ _ H).
  - etransitivity; [exact (synd_scale _ _ H)|]. by rewrite Hs.
  - exists ts'. split; [|done]. rewrite E. unfold scale_terms. by rewrite map_map.
Qed.

Lemma descending_shift j n ts : Forall (fun t => (j <= t.1)%nat) ts -> descending n ts -> descending (n - j) (shift_terms j ts).
Proof.
  intros F. revert n. induction F as [|[k e] ts Hk F IH]; intros n H; [done|]. destruct H as (? & He & H).
  cbn in Hk. cbn. split; [lia|]. split; [done|]. by apply IH.
Qed.

Lemma shift_to_zero n ts : descending n ts -> synd ts = 0 -> forall j, Forall (fun t => (j <= t.1)%nat) ts ->
  descending n (shift_terms j ts) /\ synd (shift_terms j ts) = 0.
Proof.
  intros H Hs j F. pose proof (descending_shift j n ts F H) as H'.
  split; [apply (descending_weaken (n - j)); [lia|done]|]. rewrite (synd_shift j ts F) in Hs.
  apply (iter_T_inj0 j); [by eapply synd_range|done].
Qed.

Lemma shiftr_value e : 0 < e < 32 -> Z.shiftr e 5 = 0.
Proof. intros. rewrite Z.shiftr_div_pow2 by lia. apply Z.div_small. lia. Qed.

(** The remainder without its last value, of terms of which the last is at distance nought. *)
Definition synd_proj (ts : list (nat * Z)) : Z := foldr (fun t acc => Z.lxor (proj t.1 t.2) acc) 0 ts.

Lemma synd_shiftr ts : Z.shiftr (synd ts) 5 = synd_proj ts.
Proof. induction ts as [|[k e] ts IH]; [done|]. rewrite synd_cons, Z.shiftr_lxor, IH. done. Qed.

Lemma normal_form k e ts j : descending 59 ((k, e) :: ts) -> synd ((k, e) :: ts) = 0 ->
  Forall (fun t => (j <= t.1)%nat) ((k, e) :: ts) ->
  exists ts', map fst ts' = map (fun t => t.1 - j)%nat ts /\ descending 59 (((k - j)%nat, 1) :: ts') /\
    synd (((k - j)%nat, 1) :: ts') = 0.
Proof.
  intros H Hs F. destruct (shift_to_zero 59 _ H Hs j F) as [H' Hs'].
  destruct (scale_to_one _ _ _ _ H' Hs') as (ts' & E & Hd & Hs''). exists ts'. split; [|done].
  rewrite E. apply map_map.
Qed.

Lemma member_proj k j e : (1 <= j < k)%nat -> 0 < e < 32 -> member k (proj j e).
Proof. intros. right. by exists j, e. Qed.

Lemma synd_nonzero ts : descending 59 ts -> ts <> [] -> (length ts <= 4)%nat -> synd ts <> 0.
Proof.
  intros H Hne Hl Hs. destruct ts as [|[k e] ts]; [done|].
  destruct ts as [|[k2 e2] [|[k3 e3] [|[k4 e4] [|? ?]]]]; [| | | |cbn in Hl; lia].
  - destruct H as (_ & He & _). rewrite synd_cons in Hs. change (synd []) with 0 in Hs. rewrite Z.lxor_0_r in Hs.
    apply iter_T_inj0 in Hs; lia.
  - destruct (normal_form k e [(k2, e2)] k2 H Hs) as (ts' & E & Hd & Hs').
    { cbn in H. repeat constructor; cbn; lia. }
    destruct ts' as [|[? f2] [|]]; try done. injection E as ->. rewrite Nat.sub_diag in *.
    cbn in Hd. destruct Hd as (? & _ & ? & ? & _). apply (f_equal (fun x => Z.shiftr x 5)) in Hs'.
    rewrite synd_shiftr in Hs'. cbn [synd_proj foldr fst snd] in Hs'.
    rewrite Z.lxor_0_r in Hs'. unfold proj at 2 in Hs'. cbn [iter_T] in Hs'. rewrite shiftr_value in Hs' by done.
    revert Hs'. apply proj_clash; [lia|by left..].
  - destruct (normal_form k e [(k2, e2); (k3, e3)] k3 H Hs) as (ts' & E & Hd & Hs').
    { cbn in H. repeat constructor; cbn; lia. }
    destruct ts' as [|[? f2] [|[? f3] [|]]]; try done. injection E as -> ->. rewrite Nat.sub_diag in *.
    cbn in Hd. destruct Hd as (? & _ & ? & ? & ? & ? & _). apply (f_equal (fun x => Z.shiftr x 5)) in Hs'.
    rewrite synd_shiftr in Hs'. cbn [synd_proj foldr fst snd] in Hs'.
    rewrite Z.lxor_0_r in Hs'. unfold proj at 3 in Hs'. cbn [iter_T] in Hs'. rewrite shiftr_value in Hs' by done.
    rewrite Z.lxor_0_r in Hs'. revert Hs'. apply proj_clash; [lia|apply member_proj; [lia|done]|by left].
  - destruct (normal_form k e [(k2, e2); (k3, e3); (k4, e4)] k4 H Hs) as (ts' & E & Hd & Hs').
    { cbn in H. repeat constructor; cbn; lia. }
    destruct ts' as [|[? f2] [|[? f3] [|[? f4] [|]]]]; try done. injection E as -> -> ->. rewrite Nat.sub_diag in *.
    cbn in Hd. destruct Hd as (? & _ & ? & ? & ? & ? & ? & ? & _). apply (f_equal (fun x => Z.shiftr x 5)) in Hs'.
    rewrite synd_shiftr in Hs'. cbn [synd_proj foldr fst snd] in Hs'.
    rewrite Z.lxor_0_r in Hs'. unfold proj at 4 in Hs'. cbn [iter_T] in Hs'. rewrite shiftr_value in Hs' by done.
    rewrite Z.lxor_0_r, <- Z.lxor_assoc in Hs'. apply Z.lxor_eq in Hs'. revert Hs'.
    apply proj_clash; [lia|apply member_proj; [lia|done]..].
Qed.

(** The positions in which two lists differ. *)
Definition differences {A} `{EqDecision A} (a b : list A) : Z :=
  zlen (filter (fun p => p.1 <> p.2) (zip a b)).

Lemma differences_cons {A} `{EqDecision A} (x y : A) a b :
  differences (x :: a) (y :: b) = (if decide (x = y) then 0 else 1) + differences a b.
Proof.
  unfold differences. cbn [zip zip_with]. rewrite filter_cons. cbn [fst snd].
  destruct (decide (x = y)); [rewrite decide_False by naive_solver|rewrite decide_True by done]; rewrite ?zlen_cons; lia.
Qed.

Lemma terms_differences vs : forall ws, length vs = length ws ->
  zlen (terms (zip_with Z.lxor vs ws)) = differences vs ws.
Proof.
  induction vs as [|v vs IH]; intros [|w ws] Hl; try done. injection Hl as Hl.
  rewrite differences_cons, <- IH by done. cbn [zip_with terms].
  destruct (Z.eqb_spec (Z.lxor v w) 0) as [E|E]; rewrite Z.lxor_eq_0_iff in E.
  - by rewrite decide_True.
  - by rewrite decide_False, zlen_cons.
Qed.

Lemma lxor_values vs ws : Forall value_ok vs -> Forall value_ok ws -> Forall value_ok (zip_with Z.lxor vs ws).
Proof.
  intros H. revert ws. induction H as [|v vs Hv _ IH]; intros ws H; [constructor|].
  destruct H as [|w ws Hw H]; [constructor|]. cbn. constructor; [|by apply IH].
  unfold value_ok in *. apply (lxor_range 5); lia.
Qed.

(** Two lists of at most 59 values with one remainder differ in no place or in five. *)
Lemma run_detects c vs ws : length vs = length ws -> (length vs <= 59)%nat ->
  Forall value_ok vs -> Forall value_ok ws -> run c vs = run c ws ->
  differences vs ws = 0 \/ 5 <= differences vs ws.
Proof.
  intros Hl Hn Hv Hw E. rewrite <- (terms_differences vs ws Hl).
  set (err := zip_with Z.lxor vs ws). assert (length err <= 59)%nat by (unfold err; rewrite length_zip_with; lia).
  assert (synd (terms err) = 0) as Hs.
  { pose proof (run_diff c vs ws Hl) as R. rewrite E, Z.lxor_nilpotent, run_terms, iter_T_0, Z.lxor_0_l in R. done. }
  destruct (decide (terms err = [])) as [->|Hne]; [by left|right].
  destruct (decide (length (terms err) <= 4)%nat) as [Hle|]; [|unfold zlen; lia]. exfalso.
  apply (synd_nonzero (terms err)); [|done..].
  apply (descending_weaken (length err)); [done|]. apply terms_descending. by apply lxor_values.
Qed.
(** ** Regrouping: both directions keep the number spelled *)

Lemma spell_app vs v : spell (vs ++ [v]) = spell vs * 32 + v.
Proof. unfold spell. by rewrite foldl_app. Qed.

Lemma spell_acc vs : forall a, foldl (fun a v => a * 32 + v) a vs = a * 32 ^ zlen vs + spell vs.
Proof.
  unfold spell. induction vs as [|v vs IH]; intros a; cbn [foldl]; [rewrite zlen_nil; lia|].
  rewrite (IH (0 * 32 + v)), IH, zlen_cons, Z.pow_add_r by (try apply zlen_nonneg; lia). lia.
Qed.

Lemma spell_cons v vs : spell (v :: vs) = v * 32 ^ zlen vs + spell vs.
Proof. unfold spell at 1. cbn [foldl]. by rewrite spell_acc. Qed.

Lemma spell_range vs : Forall value_ok vs -> 0 <= spell vs < 32 ^ zlen vs.
Proof.
  induction 1 as [|v vs Hv _ IH]; [done|]. rewrite spell_cons, zlen_cons, Z.pow_add_r by (try apply zlen_nonneg; lia).
  unfold value_ok in Hv. nia.
Qed.

Lemma spell_inj vs : forall ws, length vs = length ws -> Forall value_ok vs -> Forall value_ok ws ->
  spell vs = spell ws -> vs = ws.
Proof.
  induction vs as [|v vs IH]; intros [|w ws] Hl Hv Hw E; try done. injection Hl as Hl.
  apply Forall_cons in Hv as [? Hv]. apply Forall_cons in Hw as [? Hw]. rewrite !spell_cons in E.
  assert (zlen vs = zlen ws) as Ez by (unfold zlen; lia). pose proof (spell_range vs Hv). pose proof (spell_range ws Hw).
  rewrite Ez in *. assert (v = w) as -> by nia. f_equal. apply IH; [done..|lia].
Qed.

(** The buffer keeps the last 32 bits of the number read, which is all that is taken. *)
Lemma buffer_push N m v : 0 <= m <= 32 -> 0 <= v < 2 ^ m ->
  Z.lor (wrapu 32 (Z.shiftl (N mod 2 ^ 32) m)) v = (N * 2 ^ m + v) mod 2 ^ 32.
Proof.
  intros Hm Hv. rewrite <- lxor_add_low by lia. unfold wrapu. rewrite <- !Z.land_ones by lia.
  assert (forall n, m <= n -> Z.testbit v n = false) as Hhigh.
  { intros n Hn. rewrite <- (Z.mod_small v (2 ^ m)) by lia. apply Z.mod_pow2_bits_high. lia. }
  apply Z.bits_inj'. intros n Hn. rewrite Z.lor_spec, !Z.land_spec, Z.lxor_spec, !Z.shiftl_spec, Z.land_spec, !(Z.testbit_ones_nonneg 32 n) by lia.
  destruct (Z.lt_ge_cases n 32); [|rewrite Hhigh by lia; rewrite (proj2 (Z.ltb_ge n 32)) by lia; by rewrite !andb_false_r].
  rewrite (proj2 (Z.ltb_lt n 32)) by lia. rewrite !andb_true_r.
  destruct (Z.lt_ge_cases n m).
  - rewrite !(Z.testbit_neg_r _ (n - m)) by lia. done.
  - rewrite Hhigh, Z.testbit_ones_nonneg, (proj2 (Z.ltb_lt (n - m) 32)) by lia. by destruct (Z.testbit N (n - m)).
Qed.

Lemma buffer_take N k m : 0 <= k -> 0 <= m -> k + m <= 32 ->
  Z.land (Z.shiftr (N mod 2 ^ 32) k) (Z.ones m) = (N / 2 ^ k) mod 2 ^ m.
Proof.
  intros Hk Hm Hs. rewrite <- Z.shiftr_div_pow2, <- !Z.land_ones by lia.
  apply Z.bits_inj'. intros n Hn. rewrite !Z.land_spec, !Z.shiftr_spec, Z.land_spec, !Z.testbit_ones_nonneg by lia.
  destruct (Z.lt_ge_cases n m); [|rewrite (proj2 (Z.ltb_ge n m)) by lia; by rewrite !andb_false_r].
  rewrite (proj2 (Z.ltb_lt (n + k) 32)) by lia. by rewrite andb_true_r.
Qed.

Lemma div_pow_split N k m : 0 <= k -> 0 <= m -> N / 2 ^ k = N / 2 ^ (k + m) * 2 ^ m + (N / 2 ^ k) mod 2 ^ m.
Proof.
  intros. rewrite Z.pow_add_r, <- Z.div_div by lia. pose proof (Z.div_mod (N / 2 ^ k) (2 ^ m)). lia.
Qed.

(** [g] has read the number [N] in [L] bits and written all but the last few of them. *)
Record regrouped {A} (width N L : Z) (num : list A -> Z) (g : Regroup A) : Prop := {
  reg_buffer : buffer g = N mod 2 ^ 32;
  reg_bits : 0 <= bits g;
  reg_num : num (result g) = N / 2 ^ bits g;
  reg_count : L = width * zlen (result g) + bits g }.

Lemma drain_spec fuel : forall N L g, regrouped 5 N L spell g -> Forall value_ok (result g) -> bits g <= 32 ->
  bits g <= 5 * Z.of_nat fuel + 4 ->
  let g' := drain fuel g in regrouped 5 N L spell g' /\ Forall value_ok (result g') /\ bits g' < 5.
Proof.
  induction fuel as [|fuel IH]; intros N L g R F Hb Hf g'; [unfold g'; cbn; split; [done|split; [done|lia]]|].
  unfold g'. cbn [drain]. destruct (Z.geb_spec (bits g) 5) as [H5|]; [|done].
  destruct R as [Rbuf Rb Rn Rc]. rewrite Rbuf. change 0x1F with (Z.ones 5). rewrite buffer_take by lia.
  apply IH; cbn [bits buffer result]; [|apply Forall_app; split; [done|]|lia..].
  - split; cbn [bits buffer result]; [done|lia| |].
    + pose proof (div_pow_split N (bits g - 5) 5 ltac:(lia) ltac:(lia)) as D.
      replace (bits g - 5 + 5) with (bits g) in D by lia. rewrite spell_app, Rn. symmetry. exact D.
    + autorewrite with amarian. lia.
  - apply Forall_singleton. apply Z.mod_pos_bound. lia.
Qed.

Lemma split_bytes data : let g := foldl split_byte (mkRegroup 0 0 []) data in
  regrouped 5 (be_val data) (8 * zlen data) spell g /\ Forall value_ok (result g) /\ bits g < 5.
Proof.
  induction data as [|b data IH] using rev_ind; [by repeat split|]. intros g. unfold g. rewrite foldl_app. cbn [foldl].
  set (h := foldl split_byte (mkRegroup 0 0 []) data) in *. destruct IH as (R & F & Hb). destruct R as [Rbuf Rb Rn Rc].
  unfold split_byte. apply drain_spec; cbn [bits buffer result]; [|done|lia..].
  pose proof (b2z_range b). rewrite be_val_app, be_val_cons, be_val_nil, !zlen_cons, zlen_nil. change (256 ^ (1 + 0)) with (2 ^ 8).
  rewrite Z.pow_0_r, Z.mul_1_r, Z.add_0_r. split; cbn [bits buffer result].
  - rewrite Rbuf. apply buffer_push; lia.
  - lia.
  - rewrite Rn, (Z.add_comm (bits h) 8), Z.pow_add_r, <- Z.div_div by lia. f_equal. rewrite Z.div_add_l by lia.
    rewrite (Z.div_small (b2z b)) by lia. lia.
  - rewrite zlen_app, zlen_cons, zlen_nil. lia.
Qed.

(** Five-bit values spell the bytes followed by the zero bits that fill the last value. *)
Lemma Convert8To5_spec data : let d := Convert8To5 data in
  Forall value_ok d /\ 0 <= 5 * zlen d - 8 * zlen data < 5 /\ spell d = be_val data * 2 ^ (5 * zlen d - 8 * zlen data).
Proof.
  intros d. unfold d, Convert8To5. destruct (split_bytes data) as (R & F & Hb). destruct R as [Rbuf Rb Rn Rc].
  set (g := foldl split_byte _ data) in *. pose proof (be_val_range data).
  destruct (Z.gtb_spec (bits g) 0) as [H0|H0].
  - assert (Z.land (wrapu 32 (Z.shiftl (buffer g) (5 - bits g))) 0x1F = (be_val data mod 2 ^ bits g) * 2 ^ (5 - bits g)) as E.
    { rewrite Rbuf. pose proof (buffer_push (be_val data) (5 - bits g) 0 ltac:(lia) ltac:(lia)) as E.
      rewrite Z.lor_0_r, Z.add_0_r in E. rewrite E. change 0x1F with (Z.ones 5).
      rewrite <- (Z.shiftr_0_r (_ mod 2 ^ 32)), buffer_take, Z.div_1_r by lia.
      rewrite <- (Zmult_mod_distr_r (be_val data)), <- Z.pow_add_r by lia. f_equal. f_equal. lia. }
    rewrite E. pose proof (Z.mod_pos_bound (be_val data) (2 ^ bits g)).
    assert (2 ^ bits g * 2 ^ (5 - bits g) = 32) as E32 by (rewrite <- Z.pow_add_r by lia; by replace (bits g + (5 - bits g)) with 5 by lia).
    repeat split.
    + apply Forall_app. split; [done|]. apply Forall_singleton. unfold value_ok. nia.
    + autorewrite with amarian. lia.
    + autorewrite with amarian. lia.
    + rewrite spell_app, Rn. autorewrite with amarian. replace (5 * (zlen (result g) + (1 + 0)) - 8 * zlen data) with (5 - bits g) by lia.
      rewrite <- E32 at 1. rewrite (Z.div_mod (be_val data) (2 ^ bits g)) at 3 by lia. lia.
  - assert (bits g = 0) as E0 by lia. rewrite E0 in *. repeat split; [done|lia..|].
    replace (5 * zlen (result g) - 8 * zlen data) with 0 by lia. rewrite Rn. change (2 ^ 0) with 1. rewrite Z.div_1_r. lia.
Qed.
Lemma join_values_spec data : forall N L g, Forall value_ok data -> regrouped 8 N L be_val g -> bits g < 8 ->
  exists g', join_values g data = Some g' /\ regrouped 8 (N * 32 ^ zlen data + spell data) (L + 5 * zlen data) be_val g' /\ bits g' < 8.
Proof.
  induction data as [|v data IH]; intros N L g Hv R Hb.
  { exists g. rewrite zlen_nil. change (spell []) with 0. rewrite Z.mul_1_r, !Z.add_0_r. done. }
  apply Forall_cons in Hv as [Hv Hvs]. unfold value_ok in Hv. destruct R as [Rbuf Rb Rn Rc].
  cbn [join_values]. unfold join_value. destruct (Z.gtb_spec v 31); [lia|]. cbn [mbind option_bind].
  rewrite Rbuf, buffer_push by lia. change (2 ^ 5) with 32. rewrite spell_cons, zlen_cons, Z.pow_add_r by (try apply zlen_nonneg; lia).
  replace (N * (32 ^ 1 * 32 ^ zlen data) + (v * 32 ^ zlen data + spell data)) with ((N * 32 + v) * 32 ^ zlen data + spell data) by lia.
  replace (L + 5 * (1 + zlen data)) with (L + 5 + 5 * zlen data) by lia.
  assert (be_val (result g) = (N * 32 + v) / 2 ^ (bits g + 5)) as Rn'.
  { rewrite Rn, (Z.add_comm (bits g) 5), Z.pow_add_r, <- Z.div_div by lia. f_equal. change (2 ^ 5) with 32.
    rewrite Z.div_add_l, (Z.div_small v) by lia. lia. }
  destruct (Z.geb_spec (bits g + 5) 8) as [H8|H8]; apply IH; try done; cbn [bits]; try lia.
  - change 0xFF with (Z.ones 8). rewrite buffer_take by lia. pose proof (Z.mod_pos_bound ((N * 32 + v) / 2 ^ (bits g + 5 - 8)) (2 ^ 8)).
    split; cbn [bits buffer result]; [done|lia| |autorewrite with amarian; lia].
    pose proof (div_pow_split (N * 32 + v) (bits g + 5 - 8) 8 ltac:(lia) ltac:(lia)) as D.
    replace (bits g + 5 - 8 + 8) with (bits g + 5) in D by lia.
    rewrite be_val_app, be_val_cons, be_val_nil, b2z_z2b_small by lia. autorewrite with amarian. rewrite Rn'.
    change (256 ^ (1 + 0)) with (2 ^ 8). rewrite Z.pow_0_r. lia.
  - split; cbn [bits buffer result]; [done|lia|done|lia].
Qed.

(** A list of values is taken for the bytes it spells, if what is left are fewer than
    five bits, all zero. *)
Lemma Convert5To8_spec data n p : Forall value_ok data ->
  Convert5To8 data n = Some p <->
  zlen p = n /\ 0 <= 5 * zlen data - 8 * n < 5 /\ spell data = be_val p * 2 ^ (5 * zlen data - 8 * n).
Proof.
  intros Hv. unfold Convert5To8.
  destruct (join_values_spec data 0 0 (mkRegroup 0 0 []) Hv) as (g & -> & R & Hb); [done..|].
  rewrite Z.mul_0_l, !Z.add_0_l in R. destruct R as [Rbuf Rb Rn Rc]. cbn [mbind option_bind]. set (M := spell data) in *.
  assert (0 < 2 ^ bits g) by lia.
  assert (0 < bits g -> Z.land (wrapu 32 (Z.shiftl (buffer g) (8 - bits g))) 0xFF = (M mod 2 ^ bits g) * 2 ^ (8 - bits g)) as E.
  { intros H0. rewrite Rbuf. pose proof (buffer_push M (8 - bits g) 0 ltac:(lia) ltac:(lia)) as E.
    rewrite Z.lor_0_r, Z.add_0_r in E. rewrite E. change 0xFF with (Z.ones 8).
    rewrite <- (Z.shiftr_0_r (_ mod 2 ^ 32)), buffer_take, Z.div_1_r by lia.
    rewrite <- (Zmult_mod_distr_r M), <- Z.pow_add_r by lia. f_equal. f_equal. lia. }
  destruct (Z.geb_spec (bits g) 5) as [H5|H5]; cbn [orb].
  { split; [done|]. intros (Hl & Hr & _). exfalso. lia. }
  rewrite (Z.gtb_ltb (bits g) 0). assert ((0 <? bits g) && negb (Z.land (wrapu 32 (Z.shiftl (buffer g) (8 - bits g))) 0xFF =? 0) = negb (M mod 2 ^ bits g =? 0)) as ->.
  { destruct (Z.ltb_spec 0 (bits g)) as [H0|H0]; cbn [andb].
    - rewrite E by done. f_equal. pose proof (Z.pow_pos_nonneg 2 (8 - bits g)).
      destruct (Z.eqb_spec (M mod 2 ^ bits g) 0) as [->|]; [done|]. apply Z.eqb_neq. nia.
    - replace (bits g) with 0 by lia. change (2 ^ 0) with 1. by rewrite Z.mod_1_r. }
  pose proof (Z.div_mod M (2 ^ bits g) ltac:(lia)) as D.
  destruct (Z.eqb_spec (M mod 2 ^ bits g) 0) as [Hm|Hm]; cbn [negb].
  - destruct (Z.eqb_spec (zlen (result g)) n) as [Hl|Hl]; cbn [negb].
    + assert (5 * zlen data - 8 * n = bits g) as -> by lia. split.
      * intros [= <-]. split; [done|]. split; [lia|]. rewrite Rn. lia.
      * intros (Hp & _ & Es). f_equal. apply be_val_inj; [unfold zlen in *; lia|]. rewrite Rn. apply Z.mul_cancel_r with (p := 2 ^ bits g); lia.
    + split; [done|]. intros (Hp & Hr & _). exfalso. lia.
  - split; [done|]. intros (Hp & Hr & Es). exfalso. apply Hm. rewrite Es.
    replace (5 * zlen data - 8 * n) with (bits g + (5 * zlen data - 8 * n - bits g)) by lia.
    assert (zlen (result g) = n) by lia. replace (5 * zlen data - 8 * n - bits g) with 0 by lia. rewrite Z.add_0_r. apply Z_mod_mult.
Qed.

Lemma Convert_roundtrip p : Convert5To8 (Convert8To5 p) (zlen p) = Some p.
Proof. destruct (Convert8To5_spec p) as (F & Hr & Hs). by apply Convert5To8_spec. Qed.

Lemma Convert_canonical d p n : Forall value_ok d -> Convert5To8 d n = Some p -> Convert8To5 p = d /\ zlen p = n.
Proof.
  intros Hv H. apply Convert5To8_spec in H as (<- & Hr & Hs); [|done]. split; [|done].
  destruct (Convert8To5_spec p) as (F & Hr' & Hs'). assert (zlen (Convert8To5 p) = zlen d) as El by lia.
  apply spell_inj; [unfold zlen in El; lia|done..|]. by rewrite Hs', Hs, El.
Qed.
(** ** Characters *)

Lemma char_roundtrip v : value_ok v -> CharToValue (ValueToChar v) = v.
Proof.
  intros Hv. apply Z.eqb_eq. apply (small_ind (fun v => CharToValue (ValueToChar v) =? v) 32); [done|exact Hv].
Qed.

Lemma char_plain v : value_ok v -> lower (ValueToChar v) = ValueToChar v /\ b2z (ValueToChar v) <> b2z SEPARATOR.
Proof.
  intros Hv. pose proof (small_ind (fun v => (b2z (lower (ValueToChar v)) =? b2z (ValueToChar v)) &&
    negb (b2z (ValueToChar v) =? b2z SEPARATOR)) 32 eq_refl v Hv) as H. cbv beta in H. bprop. split; [by apply b2z_inj|done].
Qed.

Lemma value_to_char c : CharToValue c <= 31 -> value_ok (CharToValue c) /\ ValueToChar (CharToValue c) = lower c.
Proof. unfold value_ok. destruct c; vm_compute; intros H; first [exfalso; apply H; reflexivity | split; [split; congruence|reflexivity]]. Qed.

Lemma decode_chars_encode vs : Forall value_ok vs -> decode_chars (map ValueToChar vs) = Some vs.
Proof.
  induction 1 as [|v vs Hv _ IH]; [done|]. cbn [map decode_chars]. rewrite char_roundtrip, IH by done.
  destruct (Z.gtb_spec v 31); [unfold value_ok in Hv; lia|done].
Qed.

Lemma decode_chars_spec d : forall vs, decode_chars d = Some vs <-> Forall value_ok vs /\ map ValueToChar vs = map lower d.
Proof.
  induction d as [|c d IH]; intros vs; cbn [decode_chars map].
  { split; [by intros [= <-]|]. intros [_ H]. by destruct vs. }
  destruct (Z.gtb_spec (CharToValue c) 31) as [Hc|Hc].
  - split; [done|]. intros [F E]. exfalso. destruct vs as [|v vs]; [done|]. injection E as E _. apply Forall_cons in F as [Hv _].
    assert (CharToValue c = CharToValue (lower c)) as Hl by (clear; destruct c; reflexivity).
    rewrite Hl, <- E, char_roundtrip in Hc by done. unfold value_ok in Hv. lia.
  - destruct (value_to_char c Hc) as [Hv Hchar]. split.
    + intros H. destruct (decode_chars d) as [us|] eqn:Ed; [|done]. injection H as <-. destruct (proj1 (IH us) eq_refl) as [F E].
      cbn [map]. split; [by constructor|]. by rewrite Hchar, E.
    + intros [F E]. destruct vs as [|v vs]; [done|]. injection E as E1 E2. apply Forall_cons in F as [Hv' F].
      rewrite (proj2 (IH vs)) by done. cbn. do 2 f_equal.
      rewrite <- (char_roundtrip v Hv'), E1. clear. destruct c; reflexivity.
Qed.

Lemma find_last_of_app s d : Forall (fun c => b2z c <> b2z SEPARATOR) d -> find_last_of SEPARATOR (s ++ SEPARATOR :: d) = Some (zlen s).
Proof.
  intros F. assert (find_last_of SEPARATOR d = None) as Hd.
  { induction F as [|c d Hc _ IH]; [done|]. cbn [find_last_of]. rewrite IH. by rewrite (proj2 (Z.eqb_neq _ _)). }
  induction s as [|x s IH]; cbn [app find_last_of]; [by rewrite Hd, Z.eqb_refl|]. rewrite IH, zlen_cons. f_equal. lia.
Qed.

Lemma find_last_of_Some s : forall i, find_last_of SEPARATOR s = Some i ->
  0 <= i /\ s = take (Z.to_nat i) s ++ SEPARATOR :: drop (Z.to_nat (i + 1)) s.
Proof.
  induction s as [|x s IH]; intros i H; [done|]. cbn [find_last_of] in H.
  destruct (find_last_of SEPARATOR s) as [j|].
  - injection H as <-. destruct (IH j eq_refl) as [Hj E]. split; [lia|].
    replace (Z.to_nat (j + 1 + 1)) with (S (Z.to_nat (j + 1))) by lia.
    replace (Z.to_nat (j + 1)) with (S (Z.to_nat j)) in * by lia. cbn [take drop app]. f_equal. exact E.
  - destruct (Z.eqb_spec (b2z x) (b2z SEPARATOR)) as [Ex|]; [|done]. injection H as <-. split; [lia|].
    cbn. by rewrite (b2z_inj _ _ Ex).
Qed.

(** ** What is decoded *)

(** A prefix of graphic characters, short enough to leave room. *)
Definition hrp_ok (hrp : bytes) : Prop :=
  1 <= zlen hrp <= 30 /\ Forall (fun c => 33 <= b2z c <= 126) hrp.

(** The text is [b] but for the case of what follows the prefix. *)
Definition spells (hrp a b : bytes) : Prop :=
  exists d, a = hrp ++ [SEPARATOR] ++ d /\ b = hrp ++ [SEPARATOR] ++ map lower d.

Lemma hrp_graphic hrp : existsb (fun c => (char_value c <? 33) || (char_value c >? 126)) hrp = false <->
  Forall (fun c => 33 <= b2z c <= 126) hrp.
Proof.
  induction hrp as [|c hrp IH]; cbn [existsb]; [done|]. rewrite orb_false_iff, IH, Forall_cons.
  assert ((char_value c <? 33) || (char_value c >? 126) = false <-> 33 <= b2z c <= 126) as ->; [|done].
  pose proof (b2z_range c). unfold char_value. destruct (Z.ltb_spec (b2z c) 128); rewrite orb_false_iff, Z.ltb_ge, Z.gtb_ltb, Z.ltb_ge; lia.
Qed.

Lemma checksum_values x vs : Forall value_ok (ComputeChecksum5 x vs) /\ length (ComputeChecksum5 x vs) = 6%nat.
Proof.
  unfold ComputeChecksum5. cbn [map length]. split; [|done]. change 0x1F with (Z.ones 5).
  repeat constructor; apply (land_mask_range _ 5); lia.
Qed.

Lemma spell_six poly : 0 <= poly < 2 ^ 30 ->
  spell (map (fun i => Z.land (Z.shiftr poly (5 * (5 - i))) 0x1F) [0; 1; 2; 3; 4; 5]) = poly.
Proof.
  intros Hp. change 0x1F with (Z.ones 5). unfold spell. cbn [map foldl].
  rewrite !Z.land_ones, !Z.shiftr_div_pow2 by lia. cbn -[Z.mul Z.add Z.div Z.modulo Z.pow]. dlia.
Qed.

Lemma HrpExpand_ok hrp : Forall value_ok (HrpExpand hrp).
Proof.
  induction hrp as [|c hrp IH]; cbn [HrpExpand]; [by repeat constructor|].
  change 0x1F with (Z.ones 5). repeat constructor; try apply (land_mask_range _ 5); [lia..|done].
Qed.

(** Six values pass the checksum exactly if they are the checksum. *)
Lemma checksum_unique x vs six : Forall value_ok x -> Forall value_ok vs -> Forall value_ok six -> length six = 6%nat ->
  PolyMod (x ++ vs ++ six) = BECH32M_CONST <-> six = ComputeChecksum5 x vs.
Proof.
  intros Fx Fv Fs Hl. change (PolyMod (x ++ vs ++ six)) with (run 1 (x ++ vs ++ six)).
  rewrite !app_assoc, run_app, run_six by done. rewrite <- run_app, <- app_assoc.
  set (r := run 1 (x ++ vs ++ [0; 0; 0; 0; 0; 0])).
  assert (0 <= r < 2 ^ 30) as Hr.
  { apply run_range; [lia|]. apply Forall_app; split; [done|]. apply Forall_app; split; [done|]. repeat constructor; unfold value_ok; lia. }
  assert (0 <= Z.lxor r BECH32M_CONST < 2 ^ 30) as Hx by (apply lxor_range; [lia|done|unfold BECH32M_CONST; lia]).
  destruct (checksum_values x vs) as [Fc Hc].
  assert (spell (ComputeChecksum5 x vs) = Z.lxor r BECH32M_CONST) as Es by (apply spell_six; exact Hx).
  split.
  - intros E. apply spell_inj; [by rewrite Hl, Hc|done..|]. rewrite Es, <- E. bitwise.
  - intros ->. rewrite Es. bitwise.
Qed.
Lemma program_values p : zlen p = 32 -> zlen (Convert8To5 p) = 52.
Proof. intros Hp. destruct (Convert8To5_spec p) as (_ & Hr & _). lia. Qed.

(** The values an address spells after its separator. *)
Definition address_values (hrp : bytes) (v : Z) (p : bytes) : list Z :=
  v :: Convert8To5 p ++ ComputeChecksum5 (HrpExpand hrp) (v :: Convert8To5 p).

Lemma EncodeAddress_eq hrp v p : 0 <= v <= 16 -> zlen p = 32 ->
  EncodeAddress hrp v p = hrp ++ [SEPARATOR] ++ map ValueToChar (address_values hrp v p).
Proof.
  intros Hv Hp. unfold EncodeAddress. rewrite Hp. change (32 =? 2 ^ 64 - 1) with false. cbv iota.
  destruct (Z.gtb_spec v 31); [lia|]. unfold address_values. cbn [map app]. by rewrite map_app.
Qed.

Lemma address_values_ok hrp v p : 0 <= v <= 16 -> Forall value_ok (address_values hrp v p).
Proof.
  intros Hv. constructor; [unfold value_ok; lia|]. apply Forall_app. split; [apply Convert8To5_spec|apply checksum_values].
Qed.

Lemma address_values_length hrp v p : zlen p = 32 -> length (address_values hrp v p) = 59%nat.
Proof.
  intros Hp. unfold address_values. cbn [length]. rewrite length_app, (proj2 (checksum_values _ _)).
  pose proof (program_values p Hp). unfold zlen in *. lia.
Qed.

Lemma lower_SEPARATOR d vs : Forall value_ok vs -> map ValueToChar vs = map lower d ->
  Forall (fun c => b2z c <> b2z SEPARATOR) d.
Proof.
  revert d. induction vs as [|v vs IH]; intros [|c d] F E; try done.
  apply Forall_cons in F as [Hv F]. injection E as E1 E2. constructor; [|by apply IH].
  destruct (char_plain v Hv) as [_ Hn]. rewrite E1 in Hn. intros Hc. apply Hn. by apply b2z_inj in Hc as ->.
Qed.

Lemma decode_valid hrp d v p : hrp_ok hrp -> 0 <= v <= 16 -> zlen p = 32 ->
  map ValueToChar (address_values hrp v p) = map lower d ->
  DecodeAddress hrp (hrp ++ [SEPARATOR] ++ d) = Some (mkDecodedAddress v p).
Proof.
  intros [Hh Hg] Hv Hp E. pose proof (address_values_ok hrp v p Hv) as F. pose proof (address_values_length hrp v p Hp) as Hn.
  assert (zlen d = 59) as Hd by (apply (f_equal length) in E; rewrite !length_map in E; unfold zlen; lia).
  unfold DecodeAddress. cbn [app]. rewrite find_last_of_app by (by eapply lower_SEPARATOR).
  autorewrite with amarian. rewrite Hd.
  assert ((zlen hrp + (1 + 59) <? 8) || (zlen hrp + (1 + 59) >? 90) = false) as -> by (rewrite orb_false_iff, Z.ltb_ge, Z.gtb_ltb, Z.ltb_ge; lia).
  assert ((zlen hrp =? 0) || (zlen hrp + 7 >? zlen hrp + (1 + 59)) = false) as -> by (rewrite orb_false_iff, Z.eqb_neq, Z.gtb_ltb, Z.ltb_ge; lia).
  replace (Z.to_nat (zlen hrp)) with (length hrp) by (unfold zlen; lia). rewrite take_app_length.
  rewrite bool_decide_true by done. cbn [negb]. rewrite (proj2 (hrp_graphic hrp)) by done.
  replace (Z.to_nat (zlen hrp + 1)) with (S (length hrp)) by (unfold zlen; lia).
  replace (drop (S (length hrp)) (hrp ++ SEPARATOR :: d)) with d.
  2:{ change (hrp ++ SEPARATOR :: d) with (hrp ++ [SEPARATOR] ++ d). rewrite app_assoc, drop_app_length'; [done|].
      rewrite length_app. cbn. lia. }
  rewrite (proj2 (decode_chars_spec d (address_values hrp v p))) by done. cbn [mbind option_bind].
  unfold zlen at 1. rewrite Hn. change (Z.of_nat 59 <? 6) with false. cbv iota.
  destruct (checksum_values (HrpExpand hrp) (v :: Convert8To5 p)) as [Fc Hc].
  assert (Forall value_ok (v :: Convert8To5 p)) as Fv by (constructor; [unfold value_ok; lia|apply Convert8To5_spec]).
  pose proof (proj2 (checksum_unique (HrpExpand hrp) (v :: Convert8To5 p) _ (HrpExpand_ok hrp) Fv Fc Hc) eq_refl) as Epm.
  change ((v :: Convert8To5 p) ++ ComputeChecksum5 (HrpExpand hrp) (v :: Convert8To5 p)) with (address_values hrp v p) in Epm.
  rewrite Epm, Z.eqb_refl.
  cbn [negb]. change (59 - 6)%nat with 53%nat. unfold address_values at 1. cbn [take].
  rewrite take_app_length' by (pose proof (program_values p Hp); unfold zlen in *; lia).
  destruct (Z.gtb_spec v 16); [lia|]. pose proof (Convert_roundtrip p) as R. rewrite Hp in R.
  unfold ADDRESS_PROGRAM_BYTES. by rewrite R.
Qed.

Lemma decode_inv hrp a v p : DecodeAddress hrp a = Some (mkDecodedAddress v p) ->
  hrp_ok hrp /\ 0 <= v <= 16 /\ zlen p = 32 /\
  exists d, a = hrp ++ [SEPARATOR] ++ d /\ decode_chars d = Some (address_values hrp v p).
Proof.
  unfold DecodeAddress. intros H. destruct ((zlen a <? 8) || (zlen a >? 90)) eqn:Hl; [done|].
  destruct (find_last_of SEPARATOR a) as [sep|] eqn:Es; [|done]. apply find_last_of_Some in Es as [Hs Ea].
  destruct ((sep =? 0) || (sep + 7 >? zlen a)) eqn:Hs'; [done|].
  destruct (bool_decide_reflect (take (Z.to_nat sep) a = hrp)) as [Eh|]; [|done]. cbn [negb] in H. rewrite Eh in *.
  destruct (existsb _ hrp) eqn:Hg; [done|]. apply hrp_graphic in Hg.
  set (d := drop (Z.to_nat (sep + 1)) a) in *. destruct (decode_chars d) as [dv|] eqn:Ed; [|done]. cbn [mbind option_bind] in H.
  destruct (Z.ltb_spec (zlen dv) 6) as [|H6]; [done|].
  destruct (Z.eqb_spec (PolyMod (HrpExpand hrp ++ dv)) BECH32M_CONST) as [Hpm|]; [|done]. cbn [negb] in H.
  pose proof (proj1 (decode_chars_spec d dv) Ed) as [Fd Echars].
  rewrite <- (take_drop (length dv - 6) dv) in Hpm, Fd. apply Forall_app in Fd as [Fpay Fsix].
  apply checksum_unique in Hpm; [|apply HrpExpand_ok|done..|rewrite length_drop; unfold zlen in *; lia].
  destruct (take (length dv - 6) dv) as [|version prog] eqn:Et; [done|].
  destruct (Z.gtb_spec version 16) as [|Hv]; [done|]. destruct (Convert5To8 prog ADDRESS_PROGRAM_BYTES) as [p'|] eqn:Ec; [|done].
  injection H as -> ->. apply Forall_cons in Fpay as [Hv' Fprog]. apply Convert_canonical in Ec as [Ec Hp]; [|done].
  unfold ADDRESS_PROGRAM_BYTES in Hp.
  assert (dv = address_values hrp v p) as Edv by (rewrite <- (take_drop (length dv - 6) dv), Et, Hpm, <- Ec; done).
  pose proof (address_values_length hrp v p Hp) as Hn. rewrite <- Edv in Hn.
  assert (zlen d = 59) as Hd by (apply (f_equal length) in Echars; rewrite !length_map in Echars; unfold zlen; lia).
  assert (zlen a = zlen hrp + (1 + zlen d)) as Hz by (rewrite Ea; autorewrite with amarian; lia).
  assert (zlen hrp = sep) by (rewrite <- Eh; unfold zlen; rewrite length_take; unfold zlen in Hs'; bprop; rewrite Z.gtb_ltb in *; bprop; lia).
  rewrite !Z.gtb_ltb in *. bprop. unfold value_ok in Hv'.
  split; [split; [lia|done]|]. split; [lia|]. split; [done|]. exists d. split; [exact Ea|]. by rewrite <- Edv.
Qed.

(** Equal characters have equal values. *)
Lemma decode_differences d1 : forall d2 v1 v2, decode_chars d1 = Some v1 -> decode_chars d2 = Some v2 ->
  length d1 = length d2 -> differences v1 v2 <= differences d1 d2.
Proof.
  induction d1 as [|c1 d1 IH]; intros [|c2 d2] v1 v2 H1 H2 Hl; try done.
  { injection H1 as <-. injection H2 as <-. done. }
  injection Hl as Hl. cbn [decode_chars] in H1, H2.
  destruct (CharToValue c1 >? 31); [done|]. destruct (CharToValue c2 >? 31); [done|].
  destruct (decode_chars d1) as [u1|]; [|done]. destruct (decode_chars d2) as [u2|] eqn:E2; [|done].
  injection H1 as <-. injection H2 as <-. rewrite !differences_cons. specialize (IH d2 u1 u2 eq_refl E2 Hl).
  destruct (decide (c1 = c2)) as [->|]; [rewrite decide_True by done; lia|]. destruct (decide (_ = _)); lia.
Qed.

Lemma differences_app {A} `{EqDecision A} (x a b : list A) : differences (x ++ a) (x ++ b) = differences a b.
Proof. induction x as [|y x IH]; [done|]. cbn [app]. rewrite differences_cons, decide_True by done. lia. Qed.

Lemma differences_zero {A} `{EqDecision A} (a : list A) : forall b, length a = length b -> differences a b = 0 -> a = b.
Proof.
  induction a as [|x a IH]; intros [|y b] Hl H; try done. rewrite differences_cons in H. injection Hl as Hl.
  assert (0 <= differences a b) by apply zlen_nonneg. destruct (decide (x = y)) as [->|]; [|lia]. f_equal. apply IH; [done|lia].
Qed.
(** ** Claims *)

(** C32: A text is an address for a prefix, decoded as a version and a program, exactly if
    the prefix is made of graphic characters and leaves room, the version is at most 16,
    the program has 32 bytes and the text is what encoding them gives, but for the case
    of the part after the prefix.  So decoding undoes encoding, nothing else decodes, and
    the bits that fill up the last character and the checksum cannot be chosen. *)
Theorem address_decodes (hrp a p : bytes) (v : Z) :
  DecodeAddress hrp a = Some (mkDecodedAddress v p) <->
  hrp_ok hrp /\ 0 <= v <= 16 /\ zlen p = 32 /\ spells hrp a (EncodeAddress hrp v p).
Proof.
  split.
  - intros (Hh & Hv & Hp & d & -> & Ed)%decode_inv. do 3 (split; [done|]). exists d. split; [done|].
    rewrite EncodeAddress_eq by done. apply decode_chars_spec in Ed as [_ ->]. done.
  - intros (Hh & Hv & Hp & d & -> & E). apply decode_valid; try done.
    rewrite EncodeAddress_eq in E by done. do 2 apply app_inv_head in E. done.
Qed.

(** C33: A mistyped address is noticed: two texts that decode, with one prefix, to
    different versions or programs differ in at least five characters, so changing up to
    four characters of an address never gives an address of something else. *)
Theorem address_errors_detected (hrp a b : bytes) (x y : DecodedAddress) :
  DecodeAddress hrp a = Some x -> DecodeAddress hrp b = Some y -> x <> y -> 5 <= differences a b.
Proof.
  destruct x as [v p], y as [w q].
  intros (Hh & Hv & Hp & d1 & -> & E1)%decode_inv (_ & Hw & Hq & d2 & -> & E2)%decode_inv Hne.
  pose proof (address_values_length hrp v p Hp) as L1. pose proof (address_values_length hrp w q Hq) as L2.
  pose proof (proj1 (decode_chars_spec _ _) E1) as [F1 C1]. pose proof (proj1 (decode_chars_spec _ _) E2) as [F2 C2].
  rewrite !differences_app. etransitivity; [|apply (decode_differences d1 d2 _ _ E1 E2)].
  2:{ apply (f_equal length) in C1, C2. rewrite !length_map in C1, C2. lia. }
  destruct (run_detects (run 1 (HrpExpand hrp)) (address_values hrp v p) (address_values hrp w q)) as [H0|H5]; try done; try lia.
  - assert (forall v p, 0 <= v <= 16 -> zlen p = 32 -> run (run 1 (HrpExpand hrp)) (address_values hrp v p) = BECH32M_CONST) as R.
    { clear. intros v p Hv Hp. rewrite <- run_app. unfold address_values.
      apply (checksum_unique (HrpExpand hrp) (v :: Convert8To5 p)); [apply HrpExpand_ok| |apply checksum_values..|done].
      constructor; [unfold value_ok; lia|apply Convert8To5_spec]. }
    by rewrite !R.
  - exfalso. apply Hne. apply differences_zero in H0; [|lia]. unfold address_values in H0. injection H0 as -> H0.
    apply app_inj_1 in H0 as [Hc _]; [|pose proof (program_values p Hp); pose proof (program_values q Hq); unfold zlen in *; lia].
    f_equal. pose proof (Convert_roundtrip p) as R1. pose proof (Convert_roundtrip q) as R2. rewrite Hc, Hp in R1. rewrite Hq in R2. congruence.
Qed.

(** What [AddressToLock] makes of an address: the version-1 lock of its program,
    whatever version up to 16 the address has; of a version-1 lock's own address, the
    lock. *)
Theorem address_lock_roundtrip (hrp p : bytes) (v : Z) : hrp_ok hrp -> zlen p = 32 -> 0 <= v <= 16 ->
  AddressToLock (EncodeAddress hrp v p) hrp = Some (mkLock LOCK_VERSION_CONDITION_COMMITMENT p) /\
  LockToAddress (mkLock LOCK_VERSION_CONDITION_COMMITMENT p) hrp = Some (EncodeAddress hrp ADDRESS_VERSION_CONDITION p).
Proof.
  intros Hh Hp Hv. split.
  - unfold AddressToLock. rewrite EncodeAddress_eq, (decode_valid hrp _ v p) by
      (done || (symmetry; rewrite map_map; apply map_ext_Forall; eapply Forall_impl; [by apply address_values_ok|];
       intros ? Hx; apply (char_plain _ Hx))). done.
  - unfold LockToAddress. cbn [lock_version lock_program]. by rewrite Z.eqb_refl, Hp.
Qed.

(** The expansion of the prefix the BIP-173 and BIP-350 standards prescribe: all the high
    bits, a zero, all the low bits. *)
Definition bip350_expand (hrp : bytes) : list Z :=
  map (fun c => Z.shiftr (b2z c) 5) hrp ++ [0] ++ map (fun c => Z.land (b2z c) 31) hrp.

Definition bip350_valid (hrp data : bytes) : bool :=
  match decode_chars data with
  | Some vs => PolyMod (bip350_expand hrp ++ vs) =? BECH32M_CONST
  | None => false
  end.

Definition bip350_data : bytes := str "p0xlxvlhemja6c4dqv22uapctqupfhlxm9h8z3k2e72q4k9hcz7vqzk5jj0".

(** These are not the addresses of BIP-350: [HrpExpand] interleaves the high and low
    bits of the prefix, so a valid address of the standard's own test vectors is refused. *)
Theorem standard_address_refused :
  bip350_valid (str "bc") bip350_data = true /\
  DecodeAddress (str "bc") (str "bc1" ++ bip350_data) = None.
Proof. vm_compute. done. Qed.

(** ** Witnesses *)

Definition sample_program : bytes := repeat Byte.x07 32.
Definition other_program : bytes := Byte.x08 :: repeat Byte.x07 31.

Lemma address_errors_detected_witness :
  5 <= differences (EncodeAddress (str "amr") 1 sample_program) (EncodeAddress (str "amr") 1 other_program).
Proof.
  apply (address_errors_detected (str "amr") _ _ (mkDecodedAddress 1 sample_program) (mkDecodedAddress 1 other_program)).
  - vm_compute. reflexivity.
  - vm_compute. reflexivity.
  - discriminate.
Defined.

Lemma address_lock_roundtrip_witness :
  AddressToLock (EncodeAddress (str "tamr") 16 sample_program) (str "tamr") = Some (mkLock 1 sample_program).
Proof.
  apply (address_lock_roundtrip (str "tamr") sample_program 16).
  - split; [vm_compute; split; congruence|]. repeat (constructor; [vm_compute; split; congruence|]). constructor.
  - reflexivity.
  - lia.
Defined.
End Address.
