(* ===== verification/CoinSelection.v ===== *)
(** * Coin selection and fee estimation (wallet/coinselection.cpp, wallet/fees.cpp)

    Selection takes coins in order of falling value until they pay the target and the
    fee for their number.  It is shown to fail only where no choice of coins would do,
    and to take no more coins than any choice must. *)

From S2P Require Import Prelude Overflow Serialize Primitives.
From stdpp Require Import sorting.
#[local] Open Scope Z_scope.

Module CoinSelection.

Definition DUST_THRESHOLD : Z := 1000.

Record UtxoEntry := mkUtxoEntry {
  utxo_outpoint : OutPoint;
  utxo_coin : Coin;
  utxo_confirmed : bool;
  utxo_account_id : Z;
  utxo_derivation_index : Z }.

Record CoinSelection := mkCoinSelection {
  sel_inputs : list UtxoEntry;
  sel_total_selected : Z;
  sel_target : Z;
  sel_change : Z;
  sel_fee : Z;
  sel_success : bool }.

Definition amount (e : UtxoEntry) : Z := out_amount (coin_output (utxo_coin e)).
Definition amounts (l : list UtxoEntry) : Z := zsum (map amount l).

Definition richer (a b : UtxoEntry) : Prop := amount b <= amount a.
#[global] Instance richer_dec : RelDecision richer.
Proof. intros a b. unfold richer. apply _. Defined.

(** [std::sort] with the comparison of [SortByDescendingValue]: some permutation in falling
    order; which of two equal values comes first is not said. *)
Class StdSort := {
  std_sort : list UtxoEntry -> list UtxoEntry;
  std_sort_perm l : std_sort l ≡ₚ l;
  std_sort_sorted l : StronglySorted richer (std_sort l) }.

(** ** Weights and fees; [size_t] and [int64_t] arithmetic at their widths *)

Definition InputWeight (sig_bytes : Z) : Z := wrapu 64 (36 * WITNESS_SCALE_FACTOR + sig_bytes).
Definition OUTPUT_WEIGHT : Z := 4 * (8 + 1 + 1 + 32).

Definition EstimateTxWeight (num_inputs num_outputs input_signature_bytes : Z) : Z :=
  let base_size := 4 + 1 + 1 + 4 in
  let total_input_weight := wrapu 64 (num_inputs * InputWeight (wrapu 64 input_signature_bytes)) in
  let total_output_weight := wrapu 64 (num_outputs * OUTPUT_WEIGHT) in
  wrapu 64 (base_size * WITNESS_SCALE_FACTOR + total_input_weight + total_output_weight).

Definition DustForFeeRate (fee_rate : Z) : Z :=
  let weight := wrapu 64 (InputWeight 72 + OUTPUT_WEIGHT) in
  to_i64 (to_i64 weight * fee_rate).

Definition SIG_BYTES : Z := 2420.

Definition estimated_fee (fee_rate num_inputs num_outputs : Z) : Z :=
  to_i64 (fee_rate * to_i64 (EstimateTxWeight num_inputs num_outputs SIG_BYTES)).

(** ** Selection *)

Section select.
Context `{StdSort}.

Definition SortByDescendingValue (entries : list UtxoEntry) : list UtxoEntry := std_sort entries.

(** The first pass: what the coins taken are worth, and the fee for their number. *)
Fixpoint estimate_pass (target fee_rate : Z) (candidates : list UtxoEntry) (accumulated est_inputs est_fee : Z) : Z * Z :=
  match candidates with
  | [] => (accumulated, est_fee)
  | entry :: candidates =>
      if accumulated >=? to_i64 (target + est_fee) then (accumulated, est_fee)
      else
        let est_inputs := wrapu 64 (est_inputs + 1) in
        estimate_pass target fee_rate candidates (to_i64 (accumulated + amount entry)) est_inputs
          (estimated_fee fee_rate est_inputs 1)
  end.

(** The second pass: the same again, collecting the coins. *)
Fixpoint select_pass (target fee_rate : Z) (candidates : list UtxoEntry) (accumulated est_inputs est_fee : Z)
    : list UtxoEntry * Z * Z :=
  match candidates with
  | [] => ([], accumulated, est_fee)
  | entry :: candidates =>
      if (accumulated >=? to_i64 (target + est_fee)) && (est_inputs >? 0) then ([], accumulated, est_fee)
      else
        let est_inputs := wrapu 64 (est_inputs + 1) in
        let '(inputs, accumulated, est_fee) :=
          select_pass target fee_rate candidates (to_i64 (accumulated + amount entry)) est_inputs
            (estimated_fee fee_rate est_inputs 1) in
        (entry :: inputs, accumulated, est_fee)
  end.

Definition no_selection (target : Z) : CoinSelection := mkCoinSelection [] 0 target 0 0 false.

Definition SelectCoins (utxos : list UtxoEntry) (target fee_rate : Z) : CoinSelection :=
  if (target <=? 0) || bool_decide (utxos = []) then no_selection target
  else
    let candidates := SortByDescendingValue utxos in
    let total := foldl (fun total entry => to_i64 (total + amount entry)) 0 candidates in
    if total <? target then no_selection target
    else
      let est_fee := estimated_fee fee_rate 0 0 in
      let '(accumulated, est_fee) := estimate_pass target fee_rate candidates 0 0 est_fee in
      if accumulated <? to_i64 (target + est_fee) then no_selection target
      else
        let '(inputs, accumulated, est_fee) := select_pass target fee_rate candidates 0 0 est_fee in
        let change := to_i64 (to_i64 (accumulated - target) - est_fee) in
        let dust := DustForFeeRate fee_rate in
        let '(fee, change) :=
          if (change >? 0) && (change <? dust) then (to_i64 (est_fee + change), 0) else (est_fee, change) in
        mkCoinSelection inputs accumulated target change fee (accumulated >=? to_i64 (target + fee)).

End select.

(** ** Fee estimation *)

Record FeeSample := mkFeeSample {
  sample_height : Z;
  sample_median_feerate : Z;
  sample_p10_feerate : Z;
  sample_tx_count : Z }.

Record FeeEstimate := mkFeeEstimate {
  economy_feerate : Z;
  normal_feerate : Z;
  priority_feerate : Z;
  economy_blocks : Z;
  normal_blocks : Z;
  priority_blocks : Z }.

(** [samples_]. *)
Abbreviation FeeEstimator := (list FeeSample).

Definition WINDOW_SIZE : Z := 100.
Definition DEFAULT_FEERATE : Z := 10.
Definition MinFeerate : Z := 1.
Definition HasEnoughData (samples_ : FeeEstimator) : bool := zlen samples_ >=? 3.

Definition at_index (l : list Z) (i : Z) : Z := default 0 (l !! Z.to_nat i).

Definition RecordBlock (height : Z) (tx_feerates : list Z) (samples_ : FeeEstimator) : FeeEstimator :=
  if bool_decide (tx_feerates = []) then samples_
  else
    let sorted := merge_sort Z.le tx_feerates in
    let p10_idx := zlen sorted / 10 in
    let sample := mkFeeSample height (at_index sorted (zlen sorted / 2))
                    (at_index sorted (Z.min p10_idx (zlen sorted - 1))) (zlen tx_feerates) in
    let samples_ := samples_ ++ [sample] in
    if zlen samples_ >? WINDOW_SIZE then drop 1 samples_ else samples_.

Definition sum_i64 (l : list Z) : Z := foldl (fun sum x => to_i64 (sum + x)) 0 l.

Definition Estimate (samples_ : FeeEstimator) : FeeEstimate :=
  if bool_decide (samples_ = []) then mkFeeEstimate DEFAULT_FEERATE (DEFAULT_FEERATE * 2) (DEFAULT_FEERATE * 5) 0 0 0
  else
    let recent := Z.min (zlen samples_) 10 in
    let window := drop (Z.to_nat (zlen samples_ - recent)) samples_ in
    let sum_p10 := sum_i64 (map sample_p10_feerate window) in
    let sum_median := sum_i64 (map sample_median_feerate window) in
    let sum_p90 := sum_i64 (map (fun s => to_i64 (sample_median_feerate s * 2)) window) in
    mkFeeEstimate (Z.max (Z.quot sum_p10 recent) MinFeerate) (Z.max (Z.quot sum_median recent) MinFeerate)
      (Z.max (Z.quot sum_p90 recent) MinFeerate) 6 3 1.

(** ** Lemmas *)

Lemma amounts_app a b : amounts (a ++ b) = amounts a + amounts b.
Proof. unfold amounts. by rewrite map_app, zsum_app. Qed.
Lemma amounts_cons e l : amounts (e :: l) = amount e + amounts l.
Proof. done. Qed.
Lemma amounts_perm a b : a ≡ₚ b -> amounts a = amounts b.
Proof. intros E. apply zsum_perm. by apply Permutation_map. Qed.

Definition priced (l : list UtxoEntry) : Prop := Forall (fun e => 0 <= amount e) l.

Lemma coin_amounts_nonneg l : priced l -> 0 <= amounts l.
Proof. intros H. apply zsum_nonneg. by apply Forall_map_iff. Qed.

(** The estimated weight of a transaction with [k] inputs and one output. *)
Definition weight (k : Z) : Z := 40 + 2564 * k + 168.

(** The values the code's 64-bit sums reach stay in range. *)
Definition affordable_range (utxos : list UtxoEntry) (target fee_rate : Z) : Prop :=
  priced utxos /\ 0 < target /\ 0 <= fee_rate /\
  amounts utxos + target + fee_rate * (weight (zlen utxos) + 384) < 2 ^ 63 /\ weight (zlen utxos) < 2 ^ 63.

Lemma EstimateTxWeight_eq k : 0 <= k -> weight k < 2 ^ 63 -> EstimateTxWeight k 1 SIG_BYTES = weight k.
Proof.
  unfold weight, EstimateTxWeight. intros Hk Hw. change (InputWeight (wrapu 64 SIG_BYTES)) with 2564.
  change (wrapu 64 (1 * OUTPUT_WEIGHT)) with 168. change ((4 + 1 + 1 + 4) * WITNESS_SCALE_FACTOR) with 40.
  rewrite (wrapu_small 64 (k * 2564)), wrapu_small by lia. lia.
Qed.

Lemma estimated_fee_eq utxos target fee_rate k : affordable_range utxos target fee_rate -> 0 <= k <= zlen utxos ->
  estimated_fee fee_rate k 1 = fee_rate * weight k.
Proof.
  intros (Hp & Ht & Hr & Hs & Hw) Hk. pose proof (coin_amounts_nonneg _ Hp).
  assert (weight k <= weight (zlen utxos)) by (unfold weight; lia). assert (0 <= weight k) by (unfold weight; lia).
  unfold estimated_fee. rewrite EstimateTxWeight_eq, (to_i64_small (weight k)), to_i64_small; unfold i64; nia || lia.
Qed.

(** *** The greedy prefix *)

Definition pays (target fee_rate : Z) (l : list UtxoEntry) : Prop := target + fee_rate * weight (zlen l) <= amounts l.

Section passes.
Context (utxos : list UtxoEntry) (target fee_rate : Z) (Hrange : affordable_range utxos target fee_rate).

(** What both passes do from a number of coins taken on, that number being not nought or
    nothing at all having been taken yet. *)
Fixpoint greedy (taken candidates : list UtxoEntry) : list UtxoEntry :=
  match candidates with
  | [] => []
  | entry :: candidates =>
      if (amounts taken >=? target + fee_rate * weight (zlen taken)) && negb (bool_decide (taken = [])) then []
      else entry :: greedy (taken ++ [entry]) candidates
  end.

Lemma range_prefix taken candidates : taken ++ candidates ≡ₚ utxos ->
  0 <= amounts taken /\ amounts taken + target + fee_rate * (weight (zlen taken) + 384) < 2 ^ 63 /\ 0 <= zlen taken <= zlen utxos.
Proof.
  intros E. destruct Hrange as (Hp & Ht & Hr & Hs & Hw). pose proof (amounts_perm _ _ E) as Ea. rewrite amounts_app in Ea.
  assert (priced (taken ++ candidates)) as F by (unfold priced; by rewrite E). apply Forall_app in F as [F1 F2].
  pose proof (coin_amounts_nonneg _ F1). pose proof (coin_amounts_nonneg _ F2).
  assert (zlen taken + zlen candidates = zlen utxos) as El by (rewrite <- zlen_app; unfold zlen; by rewrite E).
  pose proof (zlen_nonneg taken). pose proof (zlen_nonneg candidates). unfold weight in *. split; [done|]. split; [nia|lia].
Qed.

Lemma fee_prefix taken candidates : taken ++ candidates ≡ₚ utxos ->
  estimated_fee fee_rate (zlen taken) 1 = fee_rate * weight (zlen taken) /\
  to_i64 (target + fee_rate * weight (zlen taken)) = target + fee_rate * weight (zlen taken).
Proof.
  intros E. destruct (range_prefix _ _ E) as (Ha & Hs & Hl). split; [by apply (estimated_fee_eq utxos target)|].
  destruct Hrange as (_ & Ht & Hr & _). apply to_i64_small. unfold i64. assert (0 <= weight (zlen taken)) by (unfold weight; lia). nia.
Qed.

Lemma take_one taken entry candidates : taken ++ entry :: candidates ≡ₚ utxos ->
  to_i64 (amounts taken + amount entry) = amounts (taken ++ [entry]) /\
  wrapu 64 (zlen taken + 1) = zlen (taken ++ [entry]) /\
  estimated_fee fee_rate (zlen (taken ++ [entry])) 1 = fee_rate * weight (zlen (taken ++ [entry])).
Proof.
  intros E. assert ((taken ++ [entry]) ++ candidates ≡ₚ utxos) as E' by (by rewrite <- app_assoc).
  destruct (range_prefix _ _ E') as (Ha & Hs & Hl). pose proof (fee_prefix _ _ E') as [Hf _].
  assert (amounts (taken ++ [entry]) = amounts taken + amount entry) as Ea by (rewrite amounts_app, amounts_cons; cbn; lia).
  assert (zlen (taken ++ [entry]) = zlen taken + 1) as El by (by rewrite zlen_app).
  destruct Hrange as (_ & Ht & Hr & _ & Hw). pose proof (zlen_nonneg taken).
  assert (0 <= weight (zlen (taken ++ [entry]))) by (unfold weight; lia).
  split; [rewrite <- Ea; apply to_i64_small; unfold i64; nia|]. split; [|done].
  rewrite El. apply wrapu_small. unfold weight in Hw. lia.
Qed.

Lemma estimate_pass_greedy candidates : forall taken, taken ++ candidates ≡ₚ utxos -> taken <> [] ->
  estimate_pass target fee_rate candidates (amounts taken) (zlen taken) (fee_rate * weight (zlen taken)) =
  (amounts (taken ++ greedy taken candidates), fee_rate * weight (zlen (taken ++ greedy taken candidates))).
Proof.
  induction candidates as [|e candidates IH]; intros taken E Hne; cbn [estimate_pass greedy]; [by rewrite app_nil_r|].
  rewrite (proj2 (fee_prefix _ _ E)), (bool_decide_false (taken = [])), andb_true_r by done.
  destruct (amounts taken >=? _); [by rewrite app_nil_r|]. destruct (take_one _ _ _ E) as (-> & -> & ->).
  rewrite IH; [|by rewrite <- app_assoc|by destruct taken]. by rewrite <- app_assoc.
Qed.

Lemma select_pass_greedy candidates : forall taken, taken ++ candidates ≡ₚ utxos -> taken <> [] ->
  select_pass target fee_rate candidates (amounts taken) (zlen taken) (fee_rate * weight (zlen taken)) =
  (greedy taken candidates, amounts (taken ++ greedy taken candidates), fee_rate * weight (zlen (taken ++ greedy taken candidates))).
Proof.
  induction candidates as [|e candidates IH]; intros taken E Hne; cbn [select_pass greedy]; [by rewrite app_nil_r|].
  rewrite (proj2 (fee_prefix _ _ E)), (bool_decide_false (taken = [])) by done.
  assert (zlen taken >? 0 = true) as -> by (destruct taken; [done|]; rewrite zlen_cons; pose proof (zlen_nonneg taken); apply Z.gtb_lt; lia).
  cbn [negb]. destruct ((amounts taken >=? _) && true); [by rewrite app_nil_r|]. destruct (take_one _ _ _ E) as (-> & -> & ->).
  rewrite IH; [|by rewrite <- app_assoc|by destruct taken]. by rewrite <- app_assoc.
Qed.

(** From nothing, both passes end with the same coins. *)
Lemma passes_agree candidates fee0 fee1 : candidates ≡ₚ utxos -> candidates <> [] -> target + fee0 > 0 -> i64 (target + fee0) ->
  let g := greedy [] candidates in
  estimate_pass target fee_rate candidates 0 0 fee0 = (amounts g, fee_rate * weight (zlen g)) /\
  select_pass target fee_rate candidates 0 0 fee1 = (g, amounts g, fee_rate * weight (zlen g)).
Proof.
  intros E Hne H0 Hi g. destruct candidates as [|e candidates]; [done|]. destruct (take_one [] e candidates E) as (E1 & E2 & E3).
  assert ([e] ++ candidates ≡ₚ utxos) as Ee by done.
  pose proof (estimate_pass_greedy candidates [e] Ee ltac:(done)) as P1. pose proof (select_pass_greedy candidates [e] Ee ltac:(done)) as P2.
  unfold g. cbn [greedy]. rewrite (bool_decide_true ([] = [])), andb_false_r by done. cbn [app] in *.
  change (amounts []) with 0 in E1. change (zlen []) with 0 in E2. cbn [estimate_pass select_pass].
  rewrite (to_i64_small (target + fee0)) by done. rewrite andb_false_r.
  destruct (Z.geb_spec 0 (target + fee0)); [lia|]. rewrite E1, E2, E3, P1, P2. done.
Qed.

Lemma greedy_spec candidates : forall taken, exists left, candidates = greedy taken candidates ++ left /\
  (left = [] \/ pays target fee_rate (taken ++ greedy taken candidates)) /\
  forall m, (m < length (greedy taken candidates))%nat -> taken ++ take m candidates <> [] ->
    ~ pays target fee_rate (taken ++ take m candidates).
Proof.
  unfold pays. induction candidates as [|e candidates IH]; intros taken; cbn [greedy].
  { exists []. split; [done|]. split; [by left|]. cbn. lia. }
  destruct ((amounts taken >=? target + fee_rate * weight (zlen taken)) && negb (bool_decide (taken = []))) eqn:Hstop.
  { exists (e :: candidates). rewrite app_nil_r. split; [done|]. rewrite Z.geb_leb in Hstop. bprop. split; [by right|]. cbn. lia. }
  destruct (IH (taken ++ [e])) as (left & E & Hpay & Hmin). exists left. rewrite <- app_assoc in Hpay.
  split; [cbn; by rewrite <- E|]. split; [exact Hpay|]. intros [|m] Hm Hne.
  - cbn [take] in *. rewrite app_nil_r in *. intros Hp. rewrite Z.geb_leb, (proj2 (Z.leb_le _ _)), bool_decide_false in Hstop by done. done.
  - cbn [take length] in *. specialize (Hmin m ltac:(lia)). rewrite <- app_assoc in Hmin. apply Hmin. by destruct taken.
Qed.
End passes.
(** *** The richest coins first *)

Lemma sorted_take_shift e l m : StronglySorted richer (e :: l) -> priced (e :: l) -> (m <= length l)%nat ->
  amounts (take m l) <= amounts (take m (e :: l)).
Proof.
  revert e m. induction l as [|f l IH]; intros e m S P Hm; [destruct m; cbn in *; [done|lia]|].
  destruct m as [|m]; [done|]. cbn [take]. rewrite !amounts_cons. cbn [length] in Hm.
  apply Forall_cons in P as [_ P]. apply StronglySorted_inv in S as [S F]. apply Forall_cons in F as [Hf _].
  specialize (IH f m S P ltac:(lia)). unfold richer in Hf. lia.
Qed.

(** No choice of as many coins is worth more than the first so many in falling order. *)
Lemma prefix_richest l : StronglySorted richer l -> priced l -> forall S, S ⊆+ l -> amounts S <= amounts (take (length S) l).
Proof.
  intros Hs. induction Hs as [|e l Hs IH F]; intros P S Hsub.
  { apply submseteq_nil_r in Hsub as ->. done. }
  pose proof (Forall_inv_tail P) as P'. apply submseteq_cons_r in Hsub as [Hsub|(S' & E & Hsub)].
  - etransitivity; [by apply IH|]. apply sorted_take_shift; [by constructor|done|]. by apply submseteq_length.
  - rewrite (amounts_perm _ _ E), E. cbn [length take]. rewrite !amounts_cons. specialize (IH P' S' Hsub). lia.
Qed.

Lemma pays_prefix l target fee_rate S : StronglySorted richer l -> priced l -> S ⊆+ l -> pays target fee_rate S ->
  pays target fee_rate (take (length S) l).
Proof.
  unfold pays. intros Hs P Hsub Hp. pose proof (prefix_richest l Hs P S Hsub).
  replace (zlen (take (length S) l)) with (zlen S); [lia|].
  unfold zlen. rewrite length_take_le; [done|]. by apply submseteq_length.
Qed.

(** A sum in 64 bits of values that stay in range. *)
Lemma foldl_i64 {A} (f : A -> Z) (l : list A) : Forall (fun x => 0 <= f x) l -> forall acc, 0 <= acc ->
  acc + zsum (map f l) < 2 ^ 63 -> foldl (fun sum x => to_i64 (sum + f x)) acc l = acc + zsum (map f l).
Proof.
  induction 1 as [|x l Hx F IH]; intros acc H0 H1; cbn [foldl map] in *; [cbn; lia|]. rewrite zsum_cons in *.
  assert (0 <= zsum (map f l)) by (by apply zsum_nonneg, Forall_map_iff).
  rewrite (to_i64_small (acc + f x)) by (unfold i64; lia). rewrite IH; lia.
Qed.

Lemma sum_i64_sum (l : list Z) : Forall (fun x => 0 <= x) l -> zsum l < 2 ^ 63 -> sum_i64 l = zsum l.
Proof.
  intros F Hs. unfold sum_i64. pose proof (foldl_i64 (fun x => x) l F 0 ltac:(lia)) as E. rewrite map_id in E. by apply E.
Qed.

Section selection.
Context `{StdSort} (utxos : list UtxoEntry) (target fee_rate : Z) (Hrange : affordable_range utxos target fee_rate).

Definition chosen : list UtxoEntry := greedy target fee_rate [] (SortByDescendingValue utxos).

Lemma chosen_least : (forall S, S ⊆+ utxos -> S <> [] -> pays target fee_rate S ->
    pays target fee_rate chosen /\ (length chosen <= length S)%nat) /\ chosen ⊆+ utxos.
Proof.
  unfold chosen. set (c := SortByDescendingValue utxos). assert (c ≡ₚ utxos) as Ec by apply std_sort_perm.
  destruct (greedy_spec target fee_rate c []) as (left & E & Hpay & Hmin). cbn [app] in *.
  assert (priced c) as P by (unfold priced; rewrite Ec; apply Hrange).
  split; [|rewrite <- Ec; rewrite E at 2; apply submseteq_inserts_r; done].
  intros S Hsub Hne Hp. rewrite <- Ec in Hsub. pose proof (submseteq_length _ _ Hsub) as Hlen.
  assert (take (length S) c <> []) as Hne' by (intros E0; apply (f_equal length) in E0; rewrite length_take_le in E0 by done; by destruct S).
  pose proof (pays_prefix c target fee_rate S (std_sort_sorted _) P Hsub Hp) as Hp'.
  assert (length (greedy target fee_rate [] c) <= length S)%nat as Hle.
  { destruct (decide (length (greedy target fee_rate [] c) <= length S)%nat) as [|Hgt]; [done|]. exfalso. by apply (Hmin (length S)); [lia| |]. }
  split; [|done]. destruct Hpay as [->|]; [|done]. rewrite app_nil_r in E. rewrite <- E in Hle |- *.
  replace c with (take (length S) c); [done|]. apply take_ge. lia.
Qed.

(** Whether coins are found, and what is chosen if so. *)
Lemma SelectCoins_eq : let s := SelectCoins utxos target fee_rate in
  (bool_decide (chosen <> []) && (target + fee_rate * weight (zlen chosen) <=? amounts chosen) = false -> s = no_selection target) /\
  (chosen <> [] -> pays target fee_rate chosen ->
   let change := amounts chosen - target - fee_rate * weight (zlen chosen) in
   let dust := 384 * fee_rate in
   s = if (change >? 0) && (change <? dust) then mkCoinSelection chosen (amounts chosen) target 0 (fee_rate * weight (zlen chosen) + change) true
       else mkCoinSelection chosen (amounts chosen) target change (fee_rate * weight (zlen chosen)) true).
Proof.
  intros s. unfold s, SelectCoins. pose proof Hrange as (Hp & Ht & Hr & Hs & Hw). pose proof (zlen_nonneg utxos).
  destruct (Z.leb_spec target 0); [lia|]. cbn [orb]. unfold chosen. set (c := SortByDescendingValue utxos).
  assert (c ≡ₚ utxos) as Ec by apply std_sort_perm. assert (priced c) as P by (unfold priced; by rewrite Ec).
  destruct (bool_decide_reflect (utxos = [])) as [->|Hne].
  { assert (c = []) as -> by (by apply Permutation_nil_r). cbn. split; [done|]. done. }
  assert (c <> []) as Hc by (intros E; rewrite E in Ec; by apply Permutation_nil_l in Ec).
  rewrite (foldl_i64 amount c P); [|lia|fold (amounts c); rewrite (amounts_perm _ _ Ec); unfold weight in Hs; nia]. rewrite Z.add_0_l. fold (amounts c).
  assert (estimated_fee fee_rate 0 0 = fee_rate * 40) as E0.
  { unfold estimated_fee. change (to_i64 (EstimateTxWeight 0 0 SIG_BYTES)) with 40. apply to_i64_small. unfold i64, weight in *. 
    pose proof (coin_amounts_nonneg _ Hp). nia. }
  destruct (passes_agree utxos target fee_rate Hrange c (fee_rate * 40) (fee_rate * weight (zlen (greedy target fee_rate [] c))) Ec Hc)
    as [E1 E2]; [nia|unfold i64, weight in *; pose proof (coin_amounts_nonneg _ Hp); nia|].
  set (g := greedy target fee_rate [] c) in *. destruct (greedy_spec target fee_rate c []) as (left & Eg & _). fold g in Eg. cbn [app] in Eg.
  assert (g ++ left ≡ₚ utxos) as Egu by (by rewrite <- Eg).
  destruct (range_prefix utxos target fee_rate Hrange g left Egu) as (Hg0 & Hgs & Hgl).
  destruct (fee_prefix utxos target fee_rate Hrange g left Egu) as [_ Hf].
  assert (amounts g <= amounts c) as Hgc.
  { rewrite Eg, amounts_app. rewrite Eg in P. apply Forall_app in P as [_ P]. pose proof (coin_amounts_nonneg _ P). lia. }
  assert (0 <= weight (zlen g)) as Hwg by (unfold weight; lia).
  rewrite E0, E1, Hf, E2. split.
  - intros Hno. assert (g <> []) as Hg by (destruct c; [done|]; unfold g; cbn [greedy]; rewrite (bool_decide_true ([] = [])), andb_false_r by done; done).
    rewrite bool_decide_true in Hno by done. apply Z.leb_gt in Hno. destruct (Z.ltb_spec (amounts c) target); [done|].
    by rewrite (proj2 (Z.ltb_lt _ _)).
  - unfold pays. intros Hg Hpay. rewrite (proj2 (Z.ltb_ge (amounts c) target)) by nia.
    rewrite (proj2 (Z.ltb_ge (amounts g) _)) by lia.
    rewrite (to_i64_small (amounts g - target)) by (unfold i64; lia).
    rewrite (to_i64_small (amounts g - target - _)) by (unfold i64; nia).
    assert (DustForFeeRate fee_rate = 384 * fee_rate) as ->.
    { unfold DustForFeeRate. change (to_i64 (wrapu 64 (InputWeight 72 + OUTPUT_WEIGHT))) with 384. apply to_i64_small. unfold i64. nia. }
    destruct ((_ >? 0) && (_ <? 384 * fee_rate)) eqn:Ed.
    + rewrite Z.gtb_ltb in Ed. bprop. rewrite (to_i64_small (fee_rate * weight (zlen g) + _)) by (unfold i64; lia).
      f_equal. rewrite to_i64_small by (unfold i64; lia). apply Z.geb_le. lia.
    + f_equal. rewrite Hf. by apply Z.geb_le.
Qed.

End selection.

Lemma SelectCoins_spec `{StdSort} (utxos : list UtxoEntry) (target fee_rate : Z) :
  affordable_range utxos target fee_rate ->
  let s := SelectCoins utxos target fee_rate in
  (sel_success s = true <-> exists S, S ⊆+ utxos /\ S <> [] /\ pays target fee_rate S) /\
  (sel_success s = true ->
    sel_inputs s ⊆+ utxos /\ sel_inputs s <> [] /\
    (forall S, S ⊆+ utxos -> S <> [] -> pays target fee_rate S -> (length (sel_inputs s) <= length S)%nat) /\
    sel_total_selected s = amounts (sel_inputs s) /\ sel_target s = target /\
    amounts (sel_inputs s) = target + sel_fee s + sel_change s /\
    (sel_change s = 0 \/ 0 < sel_change s /\ DustForFeeRate fee_rate <= sel_change s) /\
    let due := fee_rate * EstimateTxWeight (zlen (sel_inputs s)) 1 SIG_BYTES in
    (sel_fee s = due \/ sel_change s = 0 /\ due < sel_fee s < due + DustForFeeRate fee_rate)).
Proof.
  intros Hrange s. destruct (SelectCoins_eq utxos target fee_rate Hrange) as [Hno Hyes]. fold s in Hno, Hyes.
  destruct (chosen_least utxos target fee_rate Hrange) as [Hleast Hsub].
  pose proof Hrange as (Hp & Ht & Hr & Hs & Hw).
  assert (DustForFeeRate fee_rate = 384 * fee_rate) as ->.
  { unfold DustForFeeRate. change (to_i64 (wrapu 64 (InputWeight 72 + OUTPUT_WEIGHT))) with 384. apply to_i64_small. unfold i64.
    pose proof (coin_amounts_nonneg _ Hp). pose proof (zlen_nonneg utxos). unfold weight in *. nia. }
  set (g := chosen utxos target fee_rate) in *.
  destruct (bool_decide (g <> []) && (target + fee_rate * weight (zlen g) <=? amounts g)) eqn:Eb.
  - apply andb_true_iff in Eb as [Hne%bool_decide_eq_true Hpay%Z.leb_le]. specialize (Hyes Hne Hpay).
    assert (EstimateTxWeight (zlen g) 1 SIG_BYTES = weight (zlen g)) as Ew.
    { apply EstimateTxWeight_eq; [apply zlen_nonneg|]. apply submseteq_length in Hsub. unfold weight, zlen in *. lia. }
    unfold pays in Hpay. cbv zeta in Hyes.
    match type of Hyes with _ = (if ?b then _ else _) => destruct b eqn:Ed end; rewrite Hyes; cbn [sel_success sel_inputs sel_total_selected sel_target sel_fee sel_change].
    + rewrite Z.gtb_ltb in Ed. bprop. split; [split; [intros _; by exists g|done]|]. intros _. rewrite Ew.
      repeat split; try done; try lia. intros S HS HSne HSp. by apply Hleast.
    + split; [split; [intros _; by exists g|done]|]. intros _. rewrite Ew.
      apply andb_false_iff in Ed. rewrite Z.gtb_ltb, !Z.ltb_ge in Ed.
      repeat split; try done; try lia. intros S HS HSne HSp. by apply Hleast.
  - rewrite (Hno eq_refl). cbn. split; [|done]. split; [done|]. intros (S & HS & HSne & HSp). exfalso.
    destruct (Hleast S HS HSne HSp) as [Hpay _]. apply andb_false_iff in Eb as [Eb|Eb].
    + apply bool_decide_eq_false, dec_stable in Eb. rewrite Eb in Hpay. unfold pays in Hpay. change (weight (zlen [])) with 208 in Hpay.
      change (amounts []) with 0 in Hpay. lia.
    + apply Z.leb_gt in Eb. unfold pays in Hpay. lia.
Qed.

(** ** Claims *)

(** Coin selection is right and best for what it estimates a transaction to weigh,
    while 64-bit sums do not overflow.  It succeeds exactly if some choice of the coins pays the target
    and the estimated fee of that many inputs.  What it selects are coins of the
    wallet, each at most once, and no choice that pays has fewer of them; their value is
    the target, the fee and the change; the fee is the estimated one, to which change
    below the dust of the fee rate is added, and so no change is below that. *)
Theorem select_coins_best `{StdSort} (utxos : list UtxoEntry) (target fee_rate : Z) :
  affordable_range utxos target fee_rate ->
  let s := SelectCoins utxos target fee_rate in
  (sel_success s = true <-> exists S, S ⊆+ utxos /\ S <> [] /\ pays target fee_rate S) /\
  (sel_success s = true ->
    sel_inputs s ⊆+ utxos /\ sel_inputs s <> [] /\
    (forall S, S ⊆+ utxos -> S <> [] -> pays target fee_rate S -> (length (sel_inputs s) <= length S)%nat) /\
    sel_total_selected s = amounts (sel_inputs s) /\ sel_target s = target /\
    amounts (sel_inputs s) = target + sel_fee s + sel_change s /\
    (sel_change s = 0 \/ 0 < sel_change s /\ DustForFeeRate fee_rate <= sel_change s) /\
    let due := fee_rate * EstimateTxWeight (zlen (sel_inputs s)) 1 SIG_BYTES in
    (sel_fee s = due \/ sel_change s = 0 /\ due < sel_fee s < due + DustForFeeRate fee_rate)).
Proof. apply SelectCoins_spec. Qed.

(** *** Fee estimates *)

Definition sample_ok (s : FeeSample) : Prop :=
  0 <= sample_p10_feerate s <= sample_median_feerate s /\ sample_median_feerate s < 2 ^ 58.

Definition estimator_ok (samples_ : FeeEstimator) : Prop :=
  zlen samples_ <= WINDOW_SIZE /\ Forall sample_ok samples_.

Lemma at_index_ok l i : 0 <= i < zlen l -> l !! Z.to_nat i = Some (at_index l i).
Proof.
  intros Hi. unfold at_index, zlen in *. destruct (l !! Z.to_nat i) eqn:E; [done|]. apply lookup_ge_None in E. lia.
Qed.

Lemma sorted_index l i j : StronglySorted Z.le l -> 0 <= i <= j -> j < zlen l -> at_index l i <= at_index l j.
Proof.
  intros Hs Hij Hj. pose proof (at_index_ok l i ltac:(lia)) as Ei. pose proof (at_index_ok l j ltac:(lia)) as Ej.
  destruct (Z.eq_dec i j) as [->|]; [lia|]. assert (Z.to_nat i < Z.to_nat j)%nat as Hn by lia. revert Ei Ej Hn.
  generalize (at_index l i) (at_index l j) (Z.to_nat i) (Z.to_nat j). clear -Hs. intros x y m n.
  revert m n. induction Hs as [|z l Hs IH F]; intros m n Hx Hy Hn; [done|].
  destruct m as [|m], n as [|n]; cbn in Hx, Hy; try lia.
  - injection Hx as <-. eapply Forall_forall in F; [exact F|]. apply list_elem_of_lookup. eauto.
  - eapply IH; eauto with lia.
Qed.

Lemma zsum_le {A} (f g : A -> Z) l : Forall (fun x => f x <= g x) l -> zsum (map f l) <= zsum (map g l).
Proof. induction 1 as [|x l Hx _ IH]; [done|]. cbn [map]. rewrite !zsum_cons. lia. Qed.

Lemma RecordBlock_ok height rates s : estimator_ok s -> Forall (fun r => 0 <= r < 2 ^ 58) rates -> estimator_ok (RecordBlock height rates s).
Proof.
  intros [Hl F] Hr. unfold RecordBlock. destruct (bool_decide_reflect (rates = [])) as [->|Hne]; [done|].
  set (sorted := merge_sort Z.le rates). assert (sorted ≡ₚ rates) as Ep by apply merge_sort_Permutation.
  assert (StronglySorted Z.le sorted) as Hs.
  { apply Sorted_StronglySorted; [intros ? ? ?; lia|]. apply Sorted_merge_sort. intros x y. unfold relation. lia. }
  assert (1 <= zlen sorted) as Hn by (unfold zlen; rewrite Ep; destruct rates; [done|]; cbn [length]; lia).
  assert (Forall (fun r => 0 <= r < 2 ^ 58) sorted) as Hr' by (by rewrite Ep).
  assert (forall i, 0 <= i < zlen sorted -> 0 <= at_index sorted i < 2 ^ 58) as Hat.
  { intros i Hi. rewrite Forall_lookup in Hr'. eapply Hr'. by apply at_index_ok. }
  assert (sample_ok (mkFeeSample height (at_index sorted (zlen sorted / 2)) (at_index sorted (Z.min (zlen sorted / 10) (zlen sorted - 1))) (zlen rates))) as Hok.
  { unfold sample_ok. cbn [sample_p10_feerate sample_median_feerate].
    pose proof (Hat (zlen sorted / 2) ltac:(dlia)). pose proof (Hat (Z.min (zlen sorted / 10) (zlen sorted - 1)) ltac:(dlia)).
    pose proof (sorted_index sorted (Z.min (zlen sorted / 10) (zlen sorted - 1)) (zlen sorted / 2) Hs ltac:(dlia) ltac:(dlia)). lia. }
  unfold estimator_ok, WINDOW_SIZE in *. destruct (Z.gtb_spec (zlen (s ++ [mkFeeSample height (at_index sorted (zlen sorted / 2)) (at_index sorted (Z.min (zlen sorted / 10) (zlen sorted - 1))) (zlen rates)])) 100) as [Hg|Hg].
  - split; [|apply Forall_drop, Forall_app; split; [done|by constructor]].
    rewrite zlen_app in Hg. unfold zlen in *. rewrite length_drop, length_app. cbn [length] in *. lia.
  - split; [done|]. apply Forall_app. split; [done|by constructor].
Qed.

(** The estimator keeps at most the last hundred blocks with any transactions, in
    each the cheap tenth no dearer than the median; and its three estimates are in
    order, each at least the minimum rate.  Rates are those below [2^58], far above all
    the money there is. *)
Theorem fee_estimates_ordered (blocks : list (Z * list Z)) :
  Forall (fun b => Forall (fun r => 0 <= r < 2 ^ 58) b.2) blocks ->
  let s := foldl (fun s b => RecordBlock b.1 b.2 s) [] blocks in
  estimator_ok s /\
  MinFeerate <= economy_feerate (Estimate s) <= normal_feerate (Estimate s) /\
  normal_feerate (Estimate s) <= priority_feerate (Estimate s).
Proof.
  intros F s. assert (estimator_ok s) as [Hl Hs].
  { unfold s. assert (estimator_ok []) as H0 by (split; [done|constructor]). revert H0. generalize (@nil FeeSample) as s0.
    induction F as [|b blocks Hb _ IH]; intros s0 H0; [done|]. cbn [foldl]. apply IH. by apply RecordBlock_ok. }
  split; [done|]. clearbody s. unfold Estimate, MinFeerate. destruct (bool_decide_reflect (s = [])) as [|Hne]; [vm_compute; repeat split; congruence|].
  set (recent := Z.min (zlen s) 10). set (w := drop _ s). cbn [economy_feerate normal_feerate priority_feerate].
  assert (1 <= zlen s) by (destruct s; [done|]; rewrite zlen_cons; pose proof (zlen_nonneg s); lia).
  assert (Forall sample_ok w) as Fw by (by apply Forall_drop).
  assert (zlen w <= 10) as Hw by (unfold w, recent, zlen in *; rewrite length_drop; lia).
  assert (forall f, Forall (fun s => 0 <= f s < 2 ^ 59) w -> sum_i64 (map f w) = zsum (map f w)) as E.
  { intros f Ff. apply sum_i64_sum; [apply Forall_map_iff; eapply Forall_impl; [exact Ff|]; cbn; lia|].
    assert (zsum (map f w) <= 2 ^ 59 * zlen w); [|lia]. clear -Ff. induction Ff as [|x w Hx _ IH]; [done|].
    cbn [map]. rewrite zsum_cons, zlen_cons. lia. }
  assert (forall f g, Forall (fun s => 0 <= f s <= g s) w -> 0 <= zsum (map f w) <= zsum (map g w)) as Le.
  { intros f g Fg. split; [apply zsum_nonneg, Forall_map_iff|apply zsum_le]; eapply Forall_impl; try exact Fg; cbn; lia. }
  unfold sample_ok in Fw.
  rewrite !E by (eapply Forall_impl; [exact Fw|]; cbn; intros x Hx; rewrite ?to_i64_small by (unfold i64; lia); lia).
  pose proof (Le sample_p10_feerate sample_median_feerate ltac:(eapply Forall_impl; [exact Fw|]; cbn; lia)) as L1.
  pose proof (Le sample_median_feerate (fun s => to_i64 (sample_median_feerate s * 2))
    ltac:(eapply Forall_impl; [exact Fw|]; cbn; intros x Hx; rewrite to_i64_small by (unfold i64; lia); lia)) as L2.
  pose proof (Z.quot_le_mono _ _ recent ltac:(lia) (proj2 L1)). pose proof (Z.quot_le_mono _ _ recent ltac:(lia) (proj2 L2)). lia.
Qed.

(** ** Witnesses *)

Lemma richer_total : Total richer.
Proof. intros a b. unfold richer. lia. Qed.

Lemma richer_sorted l : StronglySorted richer (merge_sort richer l).
Proof.
  apply Sorted_StronglySorted; [intros ? ? ?; unfold richer; lia|]. apply Sorted_merge_sort. exact richer_total.
Qed.

#[export] Instance merge_StdSort : StdSort :=
  {| std_sort := merge_sort richer; std_sort_perm := merge_sort_Permutation richer; std_sort_sorted := richer_sorted |}.

Definition sample_utxo (index value : Z) : UtxoEntry :=
  mkUtxoEntry (mkOutPoint (repeat Byte.x00 32) index) (mkCoin (mkTxOutput value (mkLock 1 [])) 1 false) true 0 index.

Lemma select_coins_best_witness : exists S, S ⊆+ [sample_utxo 0 50000; sample_utxo 1 90000] /\ S <> [] /\ pays 80000 10 S.
Proof.
  apply (select_coins_best [sample_utxo 0 50000; sample_utxo 1 90000] 80000 10).
  - unfold affordable_range, priced. split; [repeat constructor; vm_compute; congruence|]. vm_compute. repeat split; congruence.
  - vm_compute. reflexivity.
Defined.

Lemma fee_estimates_ordered_witness : estimator_ok (RecordBlock 5 [7; 3; 9] []).
Proof.
  apply (fee_estimates_ordered [(5, [7; 3; 9])]). repeat constructor; vm_compute; congruence.
Defined.
End CoinSelection.
