(* ===== verification/Mnemonic.v ===== *)
(** * Recovery phrases (wallet/backup.cpp): 24 words of a 32-byte seed and its checksum

    The word list has 2047 words, not 2048: the phrase recovers the seed exactly if no
    eleven bits of the seed and its checksum are all ones. *)

From Stdlib Require Import String.
From S2P Require Import Prelude Serialize Crypto.
From stdpp Require Import list.
#[local] Open Scope Z_scope.

Module Mnemonic.

Definition BIP39_WORDS : list string :=
  ["abandon"; "ability"; "able"; "about"; "above"; "absent"; "absorb"; "abstract"; "absurd"; "abuse";
   "access"; "accident"; "account"; "accuse"; "achieve"; "acid"; "acoustic"; "acquire"; "across"; "act";
   "action"; "actor"; "actual"; "adapt"; "add"; "address"; "adjust"; "admit"; "adult"; "advance"; "advice";
   "aerobic"; "affair"; "afford"; "afraid"; "again"; "age"; "agent"; "agree"; "ahead"; "aim"; "air";
   "airport"; "aisle"; "alarm"; "album"; "alcohol"; "alert"; "alien"; "all"; "alley"; "allow"; "almost";
   "alone"; "alpha"; "already"; "also"; "alter"; "always"; "amateur"; "amazing"; "among"; "amount"; "amused";
   "analyst"; "anchor"; "ancient"; "anger"; "angle"; "angry"; "animal"; "ankle"; "announce"; "annual";
   "another"; "answer"; "antenna"; "antique"; "anxiety"; "any"; "apart"; "apology"; "appear"; "apple";
   "approve"; "april"; "arch"; "arctic"; "area"; "arena"; "argue"; "arm"; "armed"; "armor"; "army"; "around";
   "arrange"; "arrest"; "arrive"; "arrow"; "art"; "artefact"; "artist"; "artwork"; "ask"; "aspect"; "assault";
   "asset"; "assist"; "assume"; "asthma"; "athlete"; "atom"; "attack"; "attend"; "attitude"; "attract";
   "auction"; "audit"; "august"; "aunt"; "author"; "auto"; "autumn"; "average"; "avocado"; "avoid"; "awake";
   "aware"; "away"; "awesome"; "awful"; "awkward"; "axis"; "baby"; "bachelor"; "bacon"; "badge"; "bag";
   "balance"; "balcony"; "ball"; "bamboo"; "banana"; "banner"; "bar"; "barely"; "bargain"; "barrel"; "base";
   "basic"; "basket"; "battle"; "beach"; "bean"; "beauty"; "because"; "become"; "beef"; "before"; "begin";
   "behave"; "behind"; "believe"; "below"; "belt"; "bench"; "benefit"; "best"; "betray"; "better"; "between";
   "beyond"; "bicycle"; "bid"; "bike"; "bind"; "biology"; "bird"; "birth"; "bitter"; "black"; "blade";
   "blame"; "blanket"; "blast"; "bleak"; "bless"; "blind"; "blood"; "blossom"; "blouse"; "blue"; "blur";
   "blush"; "board"; "boat"; "body"; "boil"; "bomb"; "bone"; "bonus"; "book"; "boost"; "border"; "boring";
   "borrow"; "boss"; "bottom"; "bounce"; "box"; "boy"; "bracket"; "brain"; "brand"; "brass"; "brave"; "bread";
   "breeze"; "brick"; "bridge"; "brief"; "bright"; "bring"; "brisk"; "broccoli"; "broken"; "bronze"; "broom";
   "brother"; "brown"; "brush"; "bubble"; "buddy"; "budget"; "buffalo"; "build"; "bulb"; "bulk"; "bullet";
   "bundle"; "bunker"; "burden"; "burger"; "burst"; "bus"; "business"; "busy"; "butter"; "buyer"; "buzz";
   "cabbage"; "cabin"; "cable"; "cactus"; "cage"; "cake"; "call"; "calm"; "camera"; "camp"; "can"; "canal";
   "cancel"; "candy"; "cannon"; "canoe"; "canvas"; "canyon"; "capable"; "capital"; "captain"; "car"; "carbon";
   "card"; "cargo"; "carpet"; "carry"; "cart"; "case"; "cash"; "casino"; "castle"; "casual"; "cat"; "catalog";
   "catch"; "category"; "cattle"; "caught"; "cause"; "caution"; "cave"; "ceiling"; "celery"; "cement";
   "census"; "century"; "cereal"; "certain"; "chair"; "chalk"; "champion"; "change"; "chaos"; "chapter";
   "charge"; "chase"; "chat"; "cheap"; "check"; "cheese"; "chef"; "cherry"; "chest"; "chicken"; "chief";
   "child"; "chimney"; "choice"; "choose"; "chronic"; "chuckle"; "chunk"; "churn"; "cigar"; "cinnamon";
   "circle"; "citizen"; "city"; "civil"; "claim"; "clap"; "clarify"; "claw"; "clay"; "clean"; "clerk";
   "clever"; "click"; "client"; "cliff"; "climb"; "clinic"; "clip"; "clock"; "clog"; "close"; "cloth";
   "cloud"; "clown"; "club"; "clump"; "cluster"; "clutch"; "coach"; "coast"; "coconut"; "code"; "coffee";
   "coil"; "coin"; "collect"; "color"; "column"; "combine"; "come"; "comfort"; "comic"; "common"; "company";
   "concert"; "conduct"; "confirm"; "congress"; "connect"; "consider"; "control"; "convince"; "cook"; "cool";
   "copper"; "copy"; "coral"; "core"; "corn"; "correct"; "cost"; "cotton"; "couch"; "country"; "couple";
   "course"; "cousin"; "cover"; "coyote"; "crack"; "cradle"; "craft"; "cram"; "crane"; "crash"; "crater";
   "crawl"; "crazy"; "cream"; "credit"; "creek"; "crew"; "cricket"; "crime"; "crisp"; "critic"; "crop";
   "cross"; "crouch"; "crowd"; "crucial"; "cruel"; "cruise"; "crumble"; "crunch"; "crush"; "cry"; "crystal";
   "cube"; "culture"; "cup"; "cupboard"; "curious"; "current"; "curtain"; "curve"; "cushion"; "custom";
   "cute"; "cycle"; "dad"; "damage"; "damp"; "dance"; "danger"; "daring"; "dark"; "dash"; "daughter"; "dawn";
   "day"; "deal"; "debate"; "debris"; "decade"; "december"; "decide"; "decline"; "decorate"; "decrease";
   "deer"; "defense"; "define"; "defy"; "degree"; "delay"; "deliver"; "demand"; "demise"; "denial"; "dentist";
   "deny"; "depart"; "depend"; "deposit"; "depth"; "deputy"; "derive"; "describe"; "desert"; "design"; "desk";
   "despair"; "destroy"; "detail"; "detect"; "develop"; "device"; "devote"; "diagram"; "dial"; "diamond";
   "diary"; "dice"; "diesel"; "diet"; "differ"; "digital"; "dignity"; "dilemma"; "dinner"; "dinosaur";
   "direct"; "dirt"; "disagree"; "discover"; "disease"; "dish"; "dismiss"; "disorder"; "display"; "distance";
   "divert"; "divide"; "divorce"; "dizzy"; "doctor"; "document"; "dog"; "doll"; "dolphin"; "domain"; "donate";
   "donkey"; "donor"; "door"; "dose"; "double"; "dove"; "draft"; "dragon"; "drama"; "drastic"; "draw";
   "dream"; "dress"; "drift"; "drill"; "drink"; "drip"; "drive"; "drop"; "drum"; "dry"; "duck"; "dumb";
   "dune"; "during"; "dust"; "dutch"; "duty"; "dwarf"; "dynamic"; "eager"; "eagle"; "early"; "earn"; "earth";
   "easily"; "east"; "easy"; "echo"; "ecology"; "economy"; "edge"; "edit"; "educate"; "effort"; "egg";
   "eight"; "either"; "elbow"; "elder"; "electric"; "elegant"; "element"; "elephant"; "elevator"; "elite";
   "else"; "embark"; "embody"; "embrace"; "emerge"; "emotion"; "employ"; "empower"; "empty"; "enable";
   "enact"; "end"; "endless"; "endorse"; "enemy"; "energy"; "enforce"; "engage"; "engine"; "enhance"; "enjoy";
   "enlist"; "enough"; "enrich"; "enroll"; "ensure"; "enter"; "entire"; "entry"; "envelope"; "episode";
   "equal"; "equip"; "era"; "erase"; "erode"; "erosion"; "error"; "erupt"; "escape"; "essay"; "essence";
   "estate"; "eternal"; "ethics"; "evidence"; "evil"; "evoke"; "evolve"; "exact"; "example"; "excess";
   "exchange"; "excite"; "exclude"; "excuse"; "execute"; "exercise"; "exhaust"; "exhibit"; "exile"; "exist";
   "exit"; "exotic"; "expand"; "expect"; "expire"; "explain"; "expose"; "express"; "extend"; "extra"; "eye";
   "eyebrow"; "fabric"; "face"; "faculty"; "fade"; "faint"; "faith"; "fall"; "false"; "fame"; "family";
   "famous"; "fan"; "fancy"; "fantasy"; "farm"; "fashion"; "fat"; "fatal"; "father"; "fatigue"; "fault";
   "favorite"; "feature"; "february"; "federal"; "fee"; "feed"; "feel"; "female"; "fence"; "festival";
   "fetch"; "fever"; "few"; "fiber"; "fiction"; "field"; "figure"; "file"; "film"; "filter"; "final"; "find";
   "fine"; "finger"; "finish"; "fire"; "firm"; "first"; "fiscal"; "fish"; "fit"; "fitness"; "fix"; "flag";
   "flame"; "flash"; "flat"; "flavor"; "flee"; "flight"; "flip"; "float"; "flock"; "floor"; "flower"; "fluid";
   "flush"; "fly"; "foam"; "focus"; "fog"; "foil"; "fold"; "follow"; "food"; "foot"; "force"; "foreign";
   "forest"; "forget"; "fork"; "fortune"; "forum"; "forward"; "fossil"; "foster"; "found"; "fox"; "fragile";
   "frame"; "frequent"; "fresh"; "friend"; "fringe"; "frog"; "front"; "frost"; "frown"; "frozen"; "fruit";
   "fuel"; "fun"; "funny"; "furnace"; "fury"; "future"; "gadget"; "gain"; "galaxy"; "gallery"; "game"; "gap";
   "garage"; "garbage"; "garden"; "garlic"; "garment"; "gas"; "gasp"; "gate"; "gather"; "gauge"; "gaze";
   "general"; "genius"; "genre"; "gentle"; "genuine"; "gesture"; "ghost"; "giant"; "gift"; "giggle"; "ginger";
   "giraffe"; "girl"; "give"; "glad"; "glance"; "glare"; "glass"; "glide"; "glimpse"; "globe"; "gloom";
   "glory"; "glove"; "glow"; "glue"; "goat"; "goddess"; "gold"; "good"; "goose"; "gorilla"; "gospel";
   "gossip"; "govern"; "gown"; "grab"; "grace"; "grain"; "grant"; "grape"; "grass"; "gravity"; "great";
   "green"; "grid"; "grief"; "grit"; "grocery"; "group"; "grow"; "grunt"; "guard"; "guess"; "guide"; "guilt";
   "guitar"; "gun"; "gym"; "habit"; "hair"; "half"; "hammer"; "hamster"; "hand"; "happy"; "harbor"; "hard";
   "harsh"; "harvest"; "hat"; "have"; "hawk"; "hazard"; "head"; "health"; "heart"; "heavy"; "hedgehog";
   "height"; "hello"; "helmet"; "help"; "hen"; "hero"; "hidden"; "high"; "hill"; "hint"; "hip"; "hire";
   "history"; "hobby"; "hockey"; "hold"; "hole"; "holiday"; "hollow"; "home"; "honey"; "hood"; "hope"; "horn";
   "horror"; "horse"; "hospital"; "host"; "hotel"; "hour"; "hover"; "hub"; "huge"; "human"; "humble"; "humor";
   "hundred"; "hungry"; "hunt"; "hurdle"; "hurry"; "hurt"; "husband"; "hybrid"; "ice"; "icon"; "idea";
   "identify"; "idle"; "ignore"; "ill"; "illegal"; "illness"; "image"; "imitate"; "immense"; "immune";
   "impact"; "impose"; "improve"; "impulse"; "inch"; "include"; "income"; "increase"; "index"; "indicate";
   "indoor"; "industry"; "infant"; "inflict"; "inform"; "inhale"; "inherit"; "initial"; "inject"; "injury";
   "inmate"; "inner"; "innocent"; "input"; "inquiry"; "insane"; "insect"; "inside"; "inspire"; "install";
   "intact"; "interest"; "into"; "invest"; "invite"; "involve"; "iron"; "island"; "isolate"; "issue"; "item";
   "ivory"; "jacket"; "jaguar"; "jar"; "jazz"; "jealous"; "jeans"; "jelly"; "jewel"; "job"; "join"; "joke";
   "journey"; "joy"; "judge"; "juice"; "jump"; "jungle"; "junior"; "junk"; "just"; "kangaroo"; "keen"; "keep";
   "ketchup"; "key"; "kick"; "kid"; "kidney"; "kind"; "kingdom"; "kiss"; "kit"; "kitchen"; "kite"; "kitten";
   "kiwi"; "knee"; "knife"; "knock"; "know"; "lab"; "label"; "labor"; "ladder"; "lady"; "lake"; "lamp";
   "language"; "laptop"; "large"; "later"; "latin"; "laugh"; "laundry"; "lava"; "law"; "lawn"; "lawsuit";
   "layer"; "lazy"; "leader"; "leaf"; "learn"; "leave"; "lecture"; "left"; "leg"; "legal"; "legend";
   "leisure"; "lemon"; "lend"; "length"; "lens"; "leopard"; "lesson"; "letter"; "level"; "liar"; "liberty";
   "library"; "license"; "life"; "lift"; "light"; "like"; "limb"; "limit"; "link"; "lion"; "liquid"; "list";
   "little"; "live"; "lizard"; "load"; "loan"; "lobster"; "local"; "lock"; "logic"; "lonely"; "long"; "loop";
   "lottery"; "loud"; "lounge"; "love"; "loyal"; "lucky"; "luggage"; "lumber"; "lunar"; "lunch"; "luxury";
   "lyrics"; "machine"; "mad"; "magic"; "magnet"; "maid"; "mail"; "main"; "major"; "make"; "mammal"; "man";
   "manage"; "mandate"; "mango"; "mansion"; "manual"; "maple"; "marble"; "march"; "margin"; "marine";
   "market"; "marriage"; "mask"; "mass"; "master"; "match"; "material"; "math"; "matrix"; "matter"; "maximum";
   "maze"; "meadow"; "mean"; "measure"; "meat"; "mechanic"; "medal"; "media"; "melody"; "melt"; "member";
   "memory"; "mention"; "menu"; "mercy"; "merge"; "merit"; "merry"; "mesh"; "message"; "metal"; "method";
   "middle"; "midnight"; "milk"; "million"; "mimic"; "mind"; "minimum"; "minor"; "minute"; "miracle";
   "mirror"; "misery"; "miss"; "mistake"; "mix"; "mixed"; "mixture"; "mobile"; "model"; "modify"; "mom";
   "moment"; "monitor"; "monkey"; "monster"; "month"; "moon"; "moral"; "more"; "morning"; "mosquito";
   "mother"; "motion"; "motor"; "mountain"; "mouse"; "move"; "movie"; "much"; "muffin"; "mule"; "multiply";
   "muscle"; "museum"; "mushroom"; "music"; "must"; "mutual"; "myself"; "mystery"; "myth"; "naive"; "name";
   "napkin"; "narrow"; "nasty"; "nation"; "nature"; "near"; "neck"; "need"; "negative"; "neglect"; "neither";
   "nephew"; "nerve"; "nest"; "net"; "network"; "neutral"; "never"; "news"; "next"; "nice"; "night"; "noble";
   "noise"; "nominee"; "noodle"; "normal"; "north"; "nose"; "notable"; "note"; "nothing"; "notice"; "novel";
   "now"; "nuclear"; "number"; "nurse"; "nut"; "oak"; "obey"; "object"; "oblige"; "obscure"; "observe";
   "obtain"; "obvious"; "occur"; "ocean"; "october"; "odor"; "off"; "offend"; "office"; "often"; "oil";
   "okay"; "old"; "olive"; "olympic"; "omit"; "once"; "one"; "onion"; "online"; "only"; "open"; "opera";
   "opinion"; "oppose"; "option"; "orange"; "orbit"; "orchard"; "order"; "ordinary"; "organ"; "orient";
   "original"; "orphan"; "ostrich"; "other"; "outdoor"; "outer"; "output"; "outside"; "oval"; "oven"; "over";
   "own"; "owner"; "oxygen"; "oyster"; "ozone"; "pact"; "paddle"; "page"; "pair"; "palace"; "palm"; "panda";
   "panel"; "panic"; "panther"; "paper"; "parade"; "parent"; "park"; "parrot"; "party"; "pass"; "patch";
   "path"; "patient"; "patrol"; "pattern"; "pause"; "pave"; "payment"; "peace"; "peanut"; "pear"; "peasant";
   "pelican"; "pen"; "penalty"; "pencil"; "people"; "pepper"; "perfect"; "permit"; "person"; "pet"; "phone";
   "photo"; "phrase"; "physical"; "piano"; "picnic"; "picture"; "piece"; "pig"; "pigeon"; "pill"; "pilot";
   "pink"; "pioneer"; "pipe"; "pistol"; "pitch"; "pizza"; "place"; "planet"; "plastic"; "plate"; "play";
   "please"; "pledge"; "pluck"; "plug"; "plunge"; "poem"; "poet"; "point"; "polar"; "pole"; "police"; "pond";
   "pony"; "pool"; "popular"; "portion"; "position"; "possible"; "post"; "potato"; "pottery"; "poverty";
   "powder"; "power"; "practice"; "praise"; "predict"; "prefer"; "prepare"; "present"; "pretty"; "prevent";
   "price"; "pride"; "primary"; "print"; "priority"; "prison"; "private"; "prize"; "problem"; "process";
   "produce"; "profit"; "program"; "project"; "promote"; "proof"; "property"; "prosper"; "protect"; "proud";
   "provide"; "public"; "pudding"; "pull"; "pulp"; "pulse"; "pumpkin"; "punch"; "pupil"; "puppy"; "purchase";
   "purity"; "purpose"; "purse"; "push"; "put"; "puzzle"; "pyramid"; "quality"; "quantum"; "quarter";
   "question"; "quick"; "quit"; "quiz"; "quote"; "rabbit"; "raccoon"; "race"; "rack"; "radar"; "radio";
   "rail"; "rain"; "raise"; "rally"; "ramp"; "ranch"; "random"; "range"; "rapid"; "rare"; "rate"; "rather";
   "raven"; "raw"; "razor"; "ready"; "real"; "reason"; "rebel"; "rebuild"; "recall"; "receive"; "recipe";
   "record"; "recycle"; "reduce"; "reflect"; "reform"; "refuse"; "region"; "regret"; "regular"; "reject";
   "relax"; "release"; "relief"; "rely"; "remain"; "remember"; "remind"; "remove"; "render"; "renew"; "rent";
   "reopen"; "repair"; "repeat"; "replace"; "report"; "require"; "rescue"; "resemble"; "resist"; "resource";
   "response"; "result"; "retire"; "retreat"; "return"; "reunion"; "reveal"; "review"; "reward"; "rhythm";
   "rib"; "ribbon"; "rice"; "rich"; "ride"; "ridge"; "rifle"; "right"; "rigid"; "ring"; "riot"; "ripple";
   "risk"; "ritual"; "rival"; "river"; "road"; "roast"; "robot"; "robust"; "rocket"; "romance"; "roof";
   "rookie"; "room"; "rose"; "rotate"; "rough"; "round"; "route"; "royal"; "rubber"; "rude"; "rug"; "rule";
   "run"; "runway"; "rural"; "sad"; "saddle"; "sadness"; "safe"; "sail"; "salad"; "salmon"; "salon"; "salt";
   "salute"; "same"; "sample"; "sand"; "satisfy"; "satoshi"; "sauce"; "sausage"; "save"; "say"; "scale";
   "scan"; "scare"; "scatter"; "scene"; "scheme"; "school"; "science"; "scissors"; "scorpion"; "scout";
   "scrap"; "screen"; "script"; "scrub"; "sea"; "search"; "season"; "seat"; "second"; "secret"; "section";
   "security"; "seed"; "seek"; "segment"; "select"; "sell"; "seminar"; "senior"; "sense"; "sentence";
   "series"; "service"; "session"; "settle"; "setup"; "seven"; "shadow"; "shaft"; "shallow"; "share"; "shed";
   "shell"; "sheriff"; "shield"; "shift"; "shine"; "ship"; "shiver"; "shock"; "shoe"; "shoot"; "shop";
   "short"; "shoulder"; "shove"; "shrimp"; "shrug"; "shuffle"; "shy"; "sibling"; "sick"; "side"; "siege";
   "sight"; "sign"; "silent"; "silk"; "silly"; "silver"; "similar"; "simple"; "since"; "sing"; "siren";
   "sister"; "situate"; "six"; "size"; "skate"; "sketch"; "ski"; "skill"; "skin"; "skirt"; "skull"; "slab";
   "slam"; "sleep"; "slender"; "slice"; "slide"; "slight"; "slim"; "slogan"; "slot"; "slow"; "slush"; "small";
   "smart"; "smile"; "smoke"; "smooth"; "snack"; "snake"; "snap"; "sniff"; "snow"; "soap"; "soccer"; "social";
   "sock"; "soda"; "soft"; "solar"; "soldier"; "solid"; "solution"; "solve"; "someone"; "song"; "soon";
   "sorry"; "sort"; "soul"; "sound"; "soup"; "source"; "south"; "space"; "spare"; "spatial"; "spawn"; "speak";
   "special"; "speed"; "spell"; "spend"; "sphere"; "spice"; "spider"; "spike"; "spin"; "spirit"; "split";
   "spoil"; "sponsor"; "spoon"; "sport"; "spot"; "spray"; "spread"; "spring"; "spy"; "square"; "squeeze";
   "squirrel"; "stable"; "stadium"; "staff"; "stage"; "stairs"; "stamp"; "stand"; "start"; "state"; "stay";
   "steak"; "steel"; "step"; "stereo"; "stick"; "still"; "sting"; "stock"; "stomach"; "stone"; "stool";
   "story"; "stove"; "strategy"; "street"; "strike"; "strong"; "struggle"; "student"; "stuff"; "stumble";
   "style"; "subject"; "submit"; "subway"; "success"; "such"; "sudden"; "suffer"; "sugar"; "suggest"; "suit";
   "sun"; "sunny"; "sunset"; "super"; "supply"; "support"; "suppose"; "sure"; "surface"; "surge"; "surprise";
   "surround"; "survey"; "suspect"; "sustain"; "swallow"; "swamp"; "swap"; "swarm"; "swear"; "sweet"; "swift";
   "swim"; "swing"; "switch"; "sword"; "symbol"; "symptom"; "syrup"; "system"; "table"; "tackle"; "tag";
   "tail"; "talent"; "talk"; "tank"; "tape"; "target"; "task"; "taste"; "tattoo"; "taxi"; "teach"; "team";
   "tell"; "ten"; "tenant"; "tennis"; "tent"; "term"; "test"; "text"; "thank"; "that"; "theme"; "then";
   "theory"; "there"; "they"; "thing"; "this"; "thought"; "three"; "thrive"; "throw"; "thumb"; "thunder";
   "ticket"; "tide"; "tiger"; "tilt"; "timber"; "time"; "tiny"; "tip"; "tired"; "tissue"; "title"; "toast";
   "tobacco"; "today"; "toddler"; "toe"; "together"; "toilet"; "token"; "tomato"; "tomorrow"; "tone";
   "tongue"; "tonight"; "tool"; "tooth"; "top"; "topic"; "topple"; "torch"; "tornado"; "tortoise"; "toss";
   "total"; "tourist"; "toward"; "tower"; "town"; "toy"; "track"; "trade"; "traffic"; "tragic"; "train";
   "transfer"; "trap"; "trash"; "travel"; "tray"; "treat"; "tree"; "trend"; "trial"; "tribe"; "trick";
   "trigger"; "trim"; "trip"; "trophy"; "trouble"; "truck"; "true"; "truly"; "trumpet"; "trust"; "truth";
   "try"; "tube"; "tuition"; "tumble"; "tuna"; "tunnel"; "turkey"; "turn"; "turtle"; "twelve"; "twenty";
   "twice"; "twin"; "twist"; "two"; "type"; "typical"; "ugly"; "umbrella"; "unable"; "unaware"; "uncle";
   "uncover"; "under"; "undo"; "unfair"; "unfold"; "unhappy"; "uniform"; "unique"; "unit"; "universe";
   "unknown"; "unlock"; "until"; "unusual"; "unveil"; "update"; "upgrade"; "uphold"; "upon"; "upper"; "upset";
   "urban"; "urge"; "usage"; "use"; "used"; "useful"; "useless"; "usual"; "utility"; "vacant"; "vacuum";
   "vague"; "valid"; "valley"; "valve"; "van"; "vanish"; "vapor"; "various"; "vast"; "vault"; "vehicle";
   "velvet"; "vendor"; "venture"; "venue"; "verb"; "verify"; "version"; "very"; "vessel"; "veteran"; "viable";
   "vibrant"; "vicious"; "victory"; "video"; "view"; "village"; "vintage"; "violin"; "virtual"; "virus";
   "visa"; "visit"; "visual"; "vital"; "vivid"; "vocal"; "voice"; "void"; "volcano"; "volume"; "vote";
   "voyage"; "wage"; "wagon"; "wait"; "walk"; "wall"; "walnut"; "want"; "warfare"; "warm"; "warrior"; "wash";
   "wasp"; "waste"; "water"; "wave"; "way"; "wealth"; "weapon"; "wear"; "weasel"; "weather"; "web"; "wedding";
   "weekend"; "weird"; "welcome"; "west"; "wet"; "whale"; "what"; "wheat"; "wheel"; "when"; "where"; "whip";
   "whisper"; "wide"; "width"; "wife"; "wild"; "will"; "win"; "window"; "wine"; "wing"; "wink"; "winner";
   "winter"; "wire"; "wisdom"; "wise"; "wish"; "witness"; "wolf"; "woman"; "wonder"; "wood"; "wool"; "word";
   "work"; "world"; "worry"; "worth"; "wrap"; "wreck"; "wrestle"; "wrist"; "write"; "wrong"; "yard"; "year";
   "yellow"; "you"; "young"; "youth"; "zebra"; "zero"; "zone"; "zoo"]%string.

Definition BIP39_WORD_COUNT : Z := zlen BIP39_WORDS.
Definition BIP39_WORDLIST_SIZE : Z := 2048.
Definition MNEMONIC_WORD_COUNT : Z := 24.
Definition SEED_BYTES : Z := 32.

(** The loop from index [i] on. *)
Fixpoint find_word (word : string) (words : list string) (i : Z) : Z :=
  match words with
  | [] => -1
  | w :: words => if String.eqb w word then i else find_word word words (i + 1)
  end.

Definition FindBip39Word (word : string) : Z := find_word word BIP39_WORDS 0.

Definition Bip39Word (index : Z) : string :=
  if index >=? BIP39_WORDLIST_SIZE then ""%string
  else default ""%string (BIP39_WORDS !! Z.to_nat (index mod BIP39_WORD_COUNT)).

Definition byte_at (bits : bytes) (i : Z) : Z := b2z (default Byte.x00 (bits !! Z.to_nat i)).

Definition BITS : list Z := [0; 1; 2; 3; 4; 5; 6; 7; 8; 9; 10].
Definition WORDS : list Z := map Z.of_nat (seq 0 (Z.to_nat MNEMONIC_WORD_COUNT)).

(** The eleven bits of word [i]. *)
Definition word_index (bits : bytes) (i : Z) : Z :=
  let bit_offset := i * 11 in
  foldl (fun word_idx bit =>
    let offset := bit_offset + bit in
    let bit_value := Z.land (Z.shiftr (byte_at bits (offset / 8)) (7 - offset mod 8)) 1 in
    Z.lor (wrapu 32 (Z.shiftl word_idx 1)) bit_value) 0 BITS.

(** [bits\[offset / 8\] |= 1U << (7U - offset % 8U)]. *)
Definition set_bit (bits : bytes) (offset : Z) : bytes :=
  <[Z.to_nat (offset / 8) := z2b (Z.lor (byte_at bits (offset / 8)) (Z.shiftl 1 (7 - offset mod 8)))]> bits.

Definition put_word (idx bit_offset : Z) (bits : bytes) : bytes :=
  foldl (fun bits bit => if Z.land idx (Z.shiftl 1 (10 - bit)) =? 0 then bits else set_bit bits (bit_offset + bit)) bits BITS.

Fixpoint put_words (words : list string) (i : Z) (bits : bytes) : option bytes :=
  match words with
  | [] => Some bits
  | word :: words =>
      let idx := FindBip39Word word in
      if idx <? 0 then None else put_words words (i + 1) (put_word idx (i * 11) bits)
  end.

Section mnemonic.
Context `{Sha256Impl}.

(** The seed followed by the first byte of its hash. *)
Definition seed_bits (seed : bytes) : bytes := seed ++ take 1 (Sha256 seed).

Definition GenerateMnemonic (seed : bytes) : list string :=
  map (fun i => Bip39Word (word_index (seed_bits seed) i)) WORDS.

Definition SeedFromMnemonic (words : list string) : option bytes :=
  if negb (zlen words =? MNEMONIC_WORD_COUNT) then None
  else
    bits ← put_words words 0 (repeat Byte.x00 33);
    let hash := Sha256 (take 32 bits) in
    if negb (byte_at hash 0 =? byte_at bits 32) then None else Some (take 32 bits).

End mnemonic.

(** ** Words *)

(** Each word comes before the next, so none occurs twice. *)
Fixpoint increasing (ws : list bytes) : bool :=
  match ws with
  | a :: (b :: _) as ws => lex_lt a b && increasing ws
  | _ => true
  end.

Lemma increasing_cons a ws : increasing (a :: ws) = true -> increasing ws = true /\ Forall (fun b => lex_compare a b = Lt) ws.
Proof.
  revert a. induction ws as [|b ws IH]; intros a H; [by split|]. cbn [increasing] in H. apply andb_true_iff in H as [Hab H].
  split; [done|]. unfold lex_lt in Hab. destruct (lex_compare a b) eqn:E; try done. constructor; [done|].
  destruct (IH b H) as [_ F]. eapply Forall_impl; [exact F|]. intros c. by apply lex_compare_lt_trans.
Qed.

Lemma increasing_NoDup ws : increasing ws = true -> NoDup ws.
Proof.
  induction ws as [|a ws IH]; intros H; [constructor|]. apply increasing_cons in H as [H F]. constructor; [|by apply IH].
  intros Hin. rewrite Forall_forall in F. specialize (F a Hin). by rewrite (proj2 (lex_compare_eq a a) eq_refl) in F.
Qed.

Lemma words_NoDup : NoDup BIP39_WORDS.
Proof. apply (NoDup_fmap_1 str), increasing_NoDup. vm_compute. reflexivity. Qed.

Lemma word_count : BIP39_WORD_COUNT = 2047.
Proof. vm_compute. reflexivity. Qed.

Lemma find_word_spec w ws : forall i, find_word w ws i = -1 \/ exists n, find_word w ws i = i + Z.of_nat n /\ ws !! n = Some w.
Proof.
  induction ws as [|x ws IH]; intros i; cbn [find_word]; [by left|].
  destruct (String.eqb_spec x w) as [->|]; [right; exists O; split; [lia|done]|].
  destruct (IH (i + 1)) as [E|(n & E & Hn)]; [by left|right]. exists (S n). split; [lia|done].
Qed.

Lemma find_word_lookup w ws : NoDup ws -> forall i n, ws !! n = Some w -> find_word w ws i = i + Z.of_nat n.
Proof.
  induction 1 as [|x ws Hx _ IH]; intros i n Hn; [done|]. cbn [find_word].
  destruct (String.eqb_spec x w) as [->|Hne].
  - destruct n as [|n]; [lia|]. exfalso. apply Hx. apply list_elem_of_lookup. by exists n.
  - destruct n as [|n]; [cbn in Hn; congruence|]. rewrite (IH (i + 1) n Hn). lia.
Qed.

Lemma FindBip39Word_range w : 0 <= FindBip39Word w -> FindBip39Word w < 2047 /\ Bip39Word (FindBip39Word w) = w.
Proof.
  unfold FindBip39Word. destruct (find_word_spec w BIP39_WORDS 0) as [->|(n & -> & Hn)]; [lia|]. intros _.
  pose proof (lookup_lt_Some _ _ _ Hn) as Hl. pose proof word_count as Hc. unfold BIP39_WORD_COUNT, zlen in Hc.
  split; [lia|]. unfold Bip39Word, BIP39_WORDLIST_SIZE. destruct (Z.geb_spec (0 + Z.of_nat n) 2048); [lia|].
  rewrite word_count, Z.mod_small by lia. replace (Z.to_nat (0 + Z.of_nat n)) with n by lia. by rewrite Hn.
Qed.

(** A word of the list is found where it stands; the index past the list is the first
    word's. *)
Lemma FindBip39Word_Bip39Word k : 0 <= k < 2048 -> FindBip39Word (Bip39Word k) = if k =? 2047 then 0 else k.
Proof.
  intros Hk. assert (forall n, 0 <= n < 2047 -> FindBip39Word (default ""%string (BIP39_WORDS !! Z.to_nat n)) = n) as Hf.
  { intros n Hn. pose proof word_count as Hc. unfold BIP39_WORD_COUNT, zlen in Hc.
    destruct (lookup_lt_is_Some_2 BIP39_WORDS (Z.to_nat n)) as [w Hw]; [lia|]. rewrite Hw. cbn [default from_option id].
    unfold FindBip39Word. rewrite (find_word_lookup w BIP39_WORDS words_NoDup 0 (Z.to_nat n) Hw). lia. }
  unfold Bip39Word, BIP39_WORDLIST_SIZE. destruct (Z.geb_spec k 2048); [lia|]. rewrite word_count.
  destruct (Z.eqb_spec k 2047) as [->|Hne]; [apply (Hf 0); lia|]. rewrite Z.mod_small by lia. apply Hf. lia.
Qed.

(** ** Bits *)

(** Bit [o] of an array, counted from the most significant bit of its first byte. *)
Definition bit (bits : bytes) (o : Z) : bool := Z.testbit (byte_at bits (o / 8)) (7 - o mod 8).

Lemma land_bit x k : 0 <= k -> Z.land (Z.shiftr x k) 1 = Z.b2z (Z.testbit x k).
Proof.
  intros Hk. change 1 with (Z.ones 1). rewrite Z.land_ones by lia. change (2 ^ 1) with 2.
  rewrite <- Z.bit0_mod, Z.shiftr_spec by lia. by rewrite Z.add_0_l.
Qed.

Lemma bits_fold l : forall a, 0 <= a < 2 ^ (32 - zlen l) ->
  let r := foldl (fun idx t => Z.lor (wrapu 32 (Z.shiftl idx 1)) (Z.b2z t)) a l in
  a * 2 ^ zlen l <= r < (a + 1) * 2 ^ zlen l /\
  forall k, 0 <= k < zlen l -> Z.testbit r (zlen l - 1 - k) = default false (l !! Z.to_nat k).
Proof.
  induction l as [|t l IH]; intros a Ha; cbn [foldl].
  { rewrite zlen_nil. split; [lia|]. lia. }
  rewrite zlen_cons in *. pose proof (zlen_nonneg l).
  assert (0 <= 32 - (1 + zlen l)) by (destruct (Z.lt_ge_cases (32 - (1 + zlen l)) 0); [rewrite Z.pow_neg_r in Ha; lia|done]).
  assert (2 ^ (32 - (1 + zlen l)) <= 2 ^ 31) by (apply Z.pow_le_mono_r; lia).
  assert (Z.lor (wrapu 32 (Z.shiftl a 1)) (Z.b2z t) = 2 * a + Z.b2z t) as E.
  { rewrite Z.shiftl_mul_pow2, wrapu_small by lia. change (2 ^ 1) with 2. rewrite Z.mul_comm.
    destruct t; cbn [Z.b2z]; [|by rewrite Z.lor_0_r, Z.add_0_r]. destruct a as [|p|p]; [done..|lia]. }
  rewrite E. destruct (IH (2 * a + Z.b2z t)) as [Hr Hb].
  { replace (32 - zlen l) with (1 + (32 - (1 + zlen l))) by lia. rewrite Z.pow_add_r by lia. destruct t; cbn [Z.b2z]; lia. }
  rewrite Z.pow_add_r by lia. change (2 ^ 1) with 2. set (r := foldl _ _ _) in *.
  split; [destruct t; cbn [Z.b2z] in *; nia|]. intros k Hk. destruct (Z.eq_dec k 0) as [->|Hk0].
  - cbn. replace (1 + zlen l - 1 - 0) with (zlen l) by lia. rewrite Z.testbit_odd, Z.shiftr_div_pow2 by lia.
    replace (r / 2 ^ zlen l) with (2 * a + Z.b2z t); [by rewrite Z.odd_add, Z.odd_mul; destruct t|].
    apply (Z.div_unique _ _ _ (r - (2 * a + Z.b2z t) * 2 ^ zlen l)); lia.
  - replace (1 + zlen l - 1 - k) with (zlen l - 1 - (k - 1)) by lia. rewrite Hb by lia.
    replace (Z.to_nat k) with (S (Z.to_nat (k - 1))) by lia. done.
Qed.

Lemma word_index_spec bits i : 0 <= word_index bits i < 2048 /\
  forall b, 0 <= b <= 10 -> Z.testbit (word_index bits i) (10 - b) = bit bits (i * 11 + b).
Proof.
  assert (word_index bits i = foldl (fun idx t => Z.lor (wrapu 32 (Z.shiftl idx 1)) (Z.b2z t)) 0 (map (fun b => bit bits (i * 11 + b)) BITS)) as E.
  { unfold word_index, bit. cbn [BITS map foldl]. rewrite !land_bit by dlia. done. }
  destruct (bits_fold (map (fun b => bit bits (i * 11 + b)) BITS) 0) as [Hr Hb]; [rewrite zlen_map; vm_compute; split; congruence|].
  rewrite <- E in *. rewrite zlen_map in *. change (zlen BITS) with 11 in *. change (2 ^ 11) with 2048 in *. split; [lia|].
  intros b Hbr. replace (10 - b) with (11 - 1 - b) by lia. rewrite Hb by lia.
  assert (b = 0 \/ b = 1 \/ b = 2 \/ b = 3 \/ b = 4 \/ b = 5 \/ b = 6 \/ b = 7 \/ b = 8 \/ b = 9 \/ b = 10) as Hc by lia.
  repeat destruct Hc as [->|Hc]; try subst b; reflexivity.
Qed.

Lemma length_set_bit bits o : length (set_bit bits o) = length bits.
Proof. apply length_insert. Qed.

Lemma bit_set_bit bits o p : length bits = 33%nat -> 0 <= o < 264 -> 0 <= p ->
  bit (set_bit bits o) p = (p =? o) || bit bits p.
Proof.
  intros Hl Ho Hp. unfold bit, set_bit, byte_at at 1.
  destruct (Z.eq_dec (o / 8) (p / 8)) as [E|E].
  - rewrite E, list_lookup_insert_eq by (rewrite Hl; dlia). cbn [default from_option id].
    pose proof (b2z_range (default Byte.x00 (bits !! Z.to_nat (p / 8)))) as Hb. fold (byte_at bits (p / 8)) in Hb.
    rewrite b2z_z2b. change 256 with (2 ^ 8). rewrite Z.mod_pow2_bits_low by dlia.
    rewrite Z.lor_spec, Z.shiftl_spec by dlia. rewrite orb_comm. f_equal.
    destruct (Z.eqb_spec p o) as [->|Hne]; [by rewrite Z.sub_diag|].
    destruct (Z.lt_ge_cases (7 - p mod 8) (7 - o mod 8)); [apply Z.testbit_neg_r; lia|].
    apply (Z.bits_above_log2 1); [lia|]. cbn. dlia.
  - rewrite list_lookup_insert_ne by dlia. fold (byte_at bits (p / 8)).
    destruct (Z.eqb_spec p o) as [->|]; [by destruct E|done].
Qed.

Lemma land_pow x k : 0 <= k -> (Z.land x (Z.shiftl 1 k) =? 0) = negb (Z.testbit x k).
Proof.
  intros Hk. rewrite Z.shiftl_1_l. destruct (Z.testbit x k) eqn:Hx; cbn [negb].
  - apply Z.eqb_neq. intros H. apply (f_equal (fun z => Z.testbit z k)) in H. rewrite Z.land_spec, Hx, Z.pow2_bits_true, Z.bits_0 in H by done. done.
  - apply Z.eqb_eq, Z.bits_inj'. intros n Hn. rewrite Z.land_spec, Z.bits_0. destruct (Z.eq_dec n k) as [->|]; [by rewrite Hx|].
    rewrite Z.pow2_bits_false by done. apply andb_false_r.
Qed.
Lemma put_bits_spec idx off l : forall bits, length bits = 33%nat ->
  Forall (fun b => 0 <= b <= 10) l -> 0 <= off -> off + 10 < 264 ->
  let r := foldl (fun bits b => if Z.land idx (Z.shiftl 1 (10 - b)) =? 0 then bits else set_bit bits (off + b)) bits l in
  length r = 33%nat /\ forall p, 0 <= p -> bit r p = bit bits p || existsb (fun b => (p =? off + b) && Z.testbit idx (10 - b)) l.
Proof.
  induction l as [|b l IH]; intros bits Hl F H0 H1; cbn [foldl existsb].
  { split; [done|]. intros. by rewrite orb_false_r. }
  apply Forall_cons in F as [Hb F]. rewrite land_pow by lia. destruct (Z.testbit idx (10 - b)) eqn:Ht; cbn [negb].
  - destruct (IH (set_bit bits (off + b))) as [Hr Hbit]; [by rewrite length_set_bit|done..|]. split; [done|].
    intros p Hp. rewrite Hbit, bit_set_bit by (done || lia). rewrite andb_true_r. by destruct (p =? off + b), (bit bits p).
  - destruct (IH bits) as [Hr Hbit]; [done..|]. split; [done|]. intros p Hp. rewrite Hbit by done. by rewrite andb_false_r.
Qed.

Lemma put_word_spec idx off bits : length bits = 33%nat -> 0 <= off -> off + 10 < 264 ->
  length (put_word idx off bits) = 33%nat /\
  forall p, 0 <= p -> bit (put_word idx off bits) p = bit bits p || ((off <=? p) && (p <=? off + 10) && Z.testbit idx (10 - (p - off))).
Proof.
  intros Hl H0 H1. destruct (put_bits_spec idx off BITS bits) as [Hr Hb]; [done|repeat constructor; lia|done..|].
  split; [exact Hr|]. intros p Hp. unfold put_word. rewrite Hb by done. f_equal.
  destruct ((off <=? p) && (p <=? off + 10)) eqn:E; cbn [andb].
  - bprop. destruct (Z.testbit idx (10 - (p - off))) eqn:Ht.
    + apply existsb_exists. exists (p - off). split; [|rewrite Ht, andb_true_r; apply Z.eqb_eq; lia].
      assert (p - off = 0 \/ p - off = 1 \/ p - off = 2 \/ p - off = 3 \/ p - off = 4 \/ p - off = 5 \/ p - off = 6 \/ p - off = 7 \/
        p - off = 8 \/ p - off = 9 \/ p - off = 10) as Hc by lia. cbn. lia.
    + apply not_true_iff_false. intros (b & _ & Hx)%existsb_exists. bprop.
      replace (p - off) with b in Ht by lia. congruence.
  - apply not_true_iff_false. intros (b & Hin & Hx)%existsb_exists. bprop.
    assert (0 <= b <= 10) by (cbn in Hin; lia). apply andb_false_iff in E as [E|E]; bprop; lia.
Qed.

Lemma put_words_spec ws : forall i bits out, length bits = 33%nat -> 0 <= i -> i + zlen ws <= 24 ->
  put_words ws i bits = Some out ->
  length out = 33%nat /\ Forall (fun w => 0 <= FindBip39Word w) ws /\
  forall p, 0 <= p -> bit out p = bit bits p ||
    ((i * 11 <=? p) && match ws !! Z.to_nat (p / 11 - i) with Some w => Z.testbit (FindBip39Word w) (10 - p mod 11) | None => false end).
Proof.
  induction ws as [|w ws IH]; intros i bits out Hl Hi Hn H; cbn [put_words] in H.
  { injection H as <-. split; [done|]. split; [constructor|]. intros p Hp. by rewrite lookup_nil, andb_false_r, orb_false_r. }
  rewrite zlen_cons in Hn. pose proof (zlen_nonneg ws). destruct (Z.ltb_spec (FindBip39Word w) 0) as [|Hw]; [done|].
  destruct (put_word_spec (FindBip39Word w) (i * 11) bits Hl) as [Hl' Hb']; [lia..|].
  destruct (IH (i + 1) _ out Hl' ltac:(lia) ltac:(lia) H) as (Ho & F & Hb). split; [done|]. split; [by constructor|].
  intros p Hp. rewrite Hb, Hb' by done. rewrite <- orb_assoc. f_equal.
  destruct (Z.leb_spec (i * 11) p) as [H1|H1]; cbn [andb].
  2:{ rewrite (proj2 (Z.leb_gt ((i + 1) * 11) p)) by lia. done. }
  destruct (Z.leb_spec p (i * 11 + 10)) as [H2|H2]; cbn [andb].
  - rewrite (proj2 (Z.leb_gt ((i + 1) * 11) p)), orb_false_r by lia. assert (p / 11 = i) as -> by dlia. rewrite Z.sub_diag.
    change (Z.to_nat 0) with O. cbn [lookup list_lookup]. replace (p mod 11) with (p - i * 11) by dlia. done.
  - rewrite (proj2 (Z.leb_le ((i + 1) * 11) p)) by lia. cbn [orb andb].
    replace (Z.to_nat (p / 11 - i)) with (S (Z.to_nat (p / 11 - (i + 1)))) by dlia. done.
Qed.

Lemma put_words_Some ws : forall i bits, Forall (fun w => 0 <= FindBip39Word w) ws -> is_Some (put_words ws i bits).
Proof.
  induction ws as [|w ws IH]; intros i bits F; cbn [put_words]; [by eexists|]. apply Forall_cons in F as [Hw F].
  destruct (Z.ltb_spec (FindBip39Word w) 0); [lia|]. by apply IH.
Qed.

Lemma bits_inj a b : length a = 33%nat -> length b = 33%nat -> (forall p, 0 <= p < 264 -> bit a p = bit b p) -> a = b.
Proof.
  intros Ha Hb H. apply list_eq_same_length with 33%nat; [lia..|]. intros n x y Hn Hx Hy. apply b2z_inj.
  assert (byte_at a (Z.of_nat n) = b2z x /\ byte_at b (Z.of_nat n) = b2z y) as [<- <-] by (unfold byte_at; rewrite Nat2Z.id, Hx, Hy; done).
  apply Z.bits_inj'. intros k Hk. destruct (Z.lt_ge_cases k 8) as [Hk8|Hk8].
  - specialize (H (8 * Z.of_nat n + (7 - k)) ltac:(lia)). unfold bit in H.
    replace ((8 * Z.of_nat n + (7 - k)) / 8) with (Z.of_nat n) in H by dlia.
    replace (7 - (8 * Z.of_nat n + (7 - k)) mod 8) with k in H by dlia. done.
  - assert (forall l, Z.testbit (byte_at l (Z.of_nat n)) k = false) as Hhigh; [|by rewrite !Hhigh].
    intros l. unfold byte_at. pose proof (b2z_range (default Byte.x00 (l !! Z.to_nat (Z.of_nat n)))).
    rewrite <- (Z.mod_small (b2z _) (2 ^ 8)) by lia. apply Z.mod_pow2_bits_high. lia.
Qed.

Lemma zero_bits p : bit (repeat Byte.x00 33) p = false.
Proof.
  unfold bit, byte_at. replace (default Byte.x00 (repeat Byte.x00 33 !! Z.to_nat (p / 8))) with Byte.x00; [apply Z.bits_0|].
  destruct (repeat Byte.x00 33 !! Z.to_nat (p / 8)) as [x|] eqn:E; [|done]. change (repeat Byte.x00 33) with (replicate 33 Byte.x00) in E.
  by apply lookup_replicate in E as [-> _].
Qed.

Section correctness.
Context `{Sha256Impl}.

Definition seed_ok (seed : bytes) : Prop := zlen seed = SEED_BYTES.

Lemma length_seed_bits seed : seed_ok seed -> length (seed_bits seed) = 33%nat.
Proof.
  unfold seed_ok, SEED_BYTES, seed_bits. intros Hs. pose proof (SHA256_length seed) as Hh. unfold Sha256, Digest.
  rewrite length_app, length_take. unfold zlen in *. lia.
Qed.

Lemma take_seed_bits seed : seed_ok seed -> take 32 (seed_bits seed) = seed.
Proof. unfold seed_ok, SEED_BYTES, seed_bits, zlen. intros. apply take_app_length'. lia. Qed.

(** The checksum test accepts exactly the arrays that are some seed's. *)
Lemma checksum_seed out : length out = 33%nat ->
  byte_at (Sha256 (take 32 out)) 0 = byte_at out 32 <-> out = seed_bits (take 32 out).
Proof.
  intros Hl. assert (seed_ok (take 32 out)) as Hs by (unfold seed_ok, SEED_BYTES, zlen; rewrite length_take; lia).
  unfold byte_at, seed_bits. pose proof (SHA256_length (take 32 out)) as Hh. unfold Sha256, Digest in *.
  change (Z.to_nat 0) with 0%nat. change (Z.to_nat 32) with 32%nat.
  destruct (SHA256 (take 32 out)) as [|h hs] eqn:Eh; [done|]. cbn [lookup list_lookup take default from_option id].
  destruct (lookup_lt_is_Some_2 out 32) as [c Hc]; [lia|]. rewrite Hc. cbn [default from_option id].
  assert (out = take 32 out ++ [c]) as Ec.
  { rewrite <- (take_drop 32 out) at 1. f_equal. apply list_eq_same_length with 1%nat; [done|by rewrite length_drop, Hl|].
    intros [|] x y Hn Hx Hy; [|lia]. rewrite lookup_drop, Nat.add_0_r, Hc in Hx. cbn in Hy. congruence. }
  split; [intros ->%b2z_inj; done|]. intros E. rewrite E in Ec at 1. apply app_inv_head in Ec. by injection Ec as ->.
Qed.

(** What is read back is the array whose eleven bits are the words' places. *)
Lemma SeedFromMnemonic_spec ws seed :
  SeedFromMnemonic ws = Some seed <->
  seed_ok seed /\ zlen ws = 24 /\ Forall (fun w => 0 <= FindBip39Word w) ws /\
  forall i w, ws !! i = Some w -> word_index (seed_bits seed) (Z.of_nat i) = FindBip39Word w.
Proof.
  unfold SeedFromMnemonic, MNEMONIC_WORD_COUNT. destruct (Z.eqb_spec (zlen ws) 24) as [Hn|Hn]; cbn [negb]; [|naive_solver].
  assert (forall out, put_words ws 0 (repeat Byte.x00 33) = Some out -> length out = 33%nat /\ Forall (fun w => 0 <= FindBip39Word w) ws /\
    forall i w b, ws !! i = Some w -> 0 <= b <= 10 -> bit out (Z.of_nat i * 11 + b) = Z.testbit (FindBip39Word w) (10 - b)) as Hput.
  { intros out Hout. destruct (put_words_spec ws 0 _ out (repeat_length _ _) ltac:(lia) ltac:(lia) Hout) as (Ho & F & Hb).
    split; [done|]. split; [done|]. intros i w b Hw Hbr. rewrite Hb, zero_bits by lia. rewrite (proj2 (Z.leb_le _ _)) by lia. cbn [orb andb].
    replace (Z.to_nat ((Z.of_nat i * 11 + b) / 11 - 0)) with i by dlia. rewrite Hw. f_equal. dlia. }
  assert (forall x y, 0 <= x < 2048 -> 0 <= y < 2048 -> (forall b, 0 <= b <= 10 -> Z.testbit x (10 - b) = Z.testbit y (10 - b)) -> x = y) as Heq.
  { intros x y Hx Hy Hb. apply Z.bits_inj'. intros k Hk. destruct (Z.le_gt_cases k 10).
    - specialize (Hb (10 - k) ltac:(lia)). by replace (10 - (10 - k)) with k in Hb by lia.
    - rewrite <- (Z.mod_small x (2 ^ 11)), <- (Z.mod_small y (2 ^ 11)), !Z.mod_pow2_bits_high by lia. done. }
  split.
  - destruct (put_words ws 0 _) as [out|] eqn:Eout; [|done]. cbn [mbind option_bind]. destruct (Hput out eq_refl) as (Ho & F & Hb).
    destruct (Z.eqb_spec (byte_at (Sha256 (take 32 out)) 0) (byte_at out 32)) as [Ec|]; cbn [negb]; [|done]. intros [= <-].
    apply checksum_seed in Ec; [|done]. split; [unfold seed_ok, SEED_BYTES, zlen; rewrite length_take; lia|]. split; [done|]. split; [done|].
    intros i w Hw. rewrite <- Ec. destruct (word_index_spec out (Z.of_nat i)) as [Hr Hbits].
    pose proof (FindBip39Word_range w) as Hfw. rewrite Forall_lookup in F. specialize (F i w Hw). specialize (Hfw F).
    apply Heq; [done|lia|]. intros b Hbr. rewrite Hbits by done. by apply Hb.
  - intros (Hs & _ & F & Hw). destruct (put_words_Some ws 0 (repeat Byte.x00 33) F) as [out Eout]. rewrite Eout. cbn [mbind option_bind].
    destruct (Hput out Eout) as (Ho & _ & Hb). assert (out = seed_bits seed) as ->.
    { apply bits_inj; [done|by apply length_seed_bits|]. intros p Hp.
      destruct (lookup_lt_is_Some_2 ws (Z.to_nat (p / 11))) as [w Hlw]; [unfold zlen in Hn; dlia|].
      specialize (Hb _ w (p mod 11) Hlw ltac:(dlia)). specialize (Hw _ w Hlw).
      destruct (word_index_spec (seed_bits seed) (Z.of_nat (Z.to_nat (p / 11)))) as [_ Hbits]. rewrite Hw in Hbits.
      replace (Z.of_nat (Z.to_nat (p / 11)) * 11 + p mod 11) with p in * by dlia.
      rewrite Hb. specialize (Hbits (p mod 11) ltac:(dlia)). replace (Z.of_nat (Z.to_nat (p / 11)) * 11 + p mod 11) with p in Hbits by dlia. done. }
    rewrite take_seed_bits by done.
    pose proof (proj2 (checksum_seed (seed_bits seed) (length_seed_bits seed Hs))) as Ec. rewrite take_seed_bits in Ec by done.
    rewrite (Ec eq_refl), Z.eqb_refl. done.
Qed.
End correctness.
Lemma mnemonic_iff `{Sha256Impl} (seed : bytes) : zlen seed = SEED_BYTES ->
  SeedFromMnemonic (GenerateMnemonic seed) = Some seed <->
  Forall (fun i => word_index (seed_bits seed) i <> 2047) WORDS.
Proof.
  intros Hs. rewrite SeedFromMnemonic_spec.
  assert (forall i, GenerateMnemonic seed !! i = (fun i => Bip39Word (word_index (seed_bits seed) i)) <$> (WORDS !! i)) as Hg
    by (intros i; apply list_lookup_fmap).
  assert (forall i k, WORDS !! i = Some k -> k = Z.of_nat i) as Hk.
  { intros i k Hi. unfold WORDS in Hi. apply list_lookup_fmap_Some in Hi as (n & -> & Hn). by apply lookup_seq in Hn as [-> _]. }
  split.
  - intros (_ & _ & _ & Hw). apply Forall_lookup. intros i k Hi E. pose proof (Hk i k Hi) as ->.
    specialize (Hw i (Bip39Word (word_index (seed_bits seed) (Z.of_nat i))) ltac:(by rewrite Hg, Hi)).
    rewrite (FindBip39Word_Bip39Word _ (proj1 (word_index_spec _ _))), E in Hw. done.
  - intros F. split; [done|]. split; [done|]. split.
    + apply Forall_map_iff, Forall_true. intros i. rewrite (FindBip39Word_Bip39Word _ (proj1 (word_index_spec _ _))).
      destruct (word_index_spec (seed_bits seed) i) as [? _]. destruct (_ =? _); lia.
    + intros i w Hw. rewrite Hg in Hw. apply fmap_Some in Hw as (k & Hi & ->).
      rewrite Forall_lookup in F. specialize (F i k Hi). pose proof (Hk i k Hi) as ->.
      rewrite (FindBip39Word_Bip39Word _ (proj1 (word_index_spec _ _))). by destruct (Z.eqb_spec (word_index (seed_bits seed) (Z.of_nat i)) 2047).
Qed.

(** ** Claims *)

(** A recovery phrase brings back the seed it was made of exactly if no eleven bits
    of the seed and its checksum that make a word are all ones.  For those the list has no
    word of its own, the first word is written, and the phrase is refused or brings back
    another seed. *)
Theorem mnemonic_recovers `{Sha256Impl} (seed : bytes) : zlen seed = SEED_BYTES ->
  SeedFromMnemonic (GenerateMnemonic seed) = Some seed <->
  Forall (fun i => word_index (seed_bits seed) i <> 2047) WORDS.
Proof. apply mnemonic_iff. Qed.

(** A phrase that is accepted is the phrase of the seed it gives, so no two phrases
    give one seed and no word of a phrase can be changed for another seed's without its
    checksum. *)
Theorem mnemonic_unique `{Sha256Impl} (words : list string) (seed : bytes) :
  SeedFromMnemonic words = Some seed -> GenerateMnemonic seed = words /\ zlen seed = SEED_BYTES.
Proof.
  intros (Hs & Hn & F & Hw)%SeedFromMnemonic_spec. split; [|done]. unfold zlen in Hn.
  apply list_eq_same_length with 24%nat; [lia|done|]. intros i x y Hi Hx Hy. specialize (Hw i y Hy).
  unfold GenerateMnemonic in Hx. apply list_lookup_fmap_Some in Hx as (k & -> & Hk).
  unfold WORDS in Hk. apply list_lookup_fmap_Some in Hk as (n & -> & [-> _]%lookup_seq). change (0 + i)%nat with i. rewrite Hw.
  apply FindBip39Word_range. rewrite Forall_lookup in F. by apply (F i).
Qed.

(** ** Witnesses *)

Definition sample_seed : bytes := map (fun i => z2b (Z.of_nat i * 7)) (seq 0 32).
Definition ones_seed : bytes := repeat Byte.xff 32.

Definition recoverable `{Sha256Impl} (seed : bytes) : bool :=
  forallb (fun i => negb (word_index (seed_bits seed) i =? 2047)) WORDS.

Lemma recoverable_spec `{Sha256Impl} seed :
  recoverable seed = true <-> Forall (fun i => word_index (seed_bits seed) i <> 2047) WORDS.
Proof.
  unfold recoverable. rewrite forallb_forall, <- List.Forall_forall.
  apply Forall_proper; [|done]. intros i. rewrite negb_true_iff. apply Z.eqb_neq.
Qed.

Lemma mnemonic_recovers_witness :
  SeedFromMnemonic (H := toy_Sha256Impl) (GenerateMnemonic (H := toy_Sha256Impl) sample_seed) = Some sample_seed /\
  SeedFromMnemonic (H := toy_Sha256Impl) (GenerateMnemonic (H := toy_Sha256Impl) ones_seed) <> Some ones_seed.
Proof.
  split.
  - apply (mnemonic_recovers (H := toy_Sha256Impl) sample_seed); [reflexivity|].
    apply recoverable_spec. vm_compute. reflexivity.
  - intros E. apply (mnemonic_recovers (H := toy_Sha256Impl) ones_seed) in E; [|reflexivity].
    apply recoverable_spec in E. vm_compute in E. discriminate.
Defined.

Lemma mnemonic_unique_witness :
  GenerateMnemonic (H := toy_Sha256Impl) sample_seed = GenerateMnemonic (H := toy_Sha256Impl) sample_seed /\ zlen sample_seed = SEED_BYTES.
Proof.
  apply (mnemonic_unique (H := toy_Sha256Impl) (GenerateMnemonic (H := toy_Sha256Impl) sample_seed) sample_seed).
  vm_compute. reflexivity.
Defined.
End Mnemonic.
