(* ===== verification/Signing.v ===== *)
(** * Keys and signatures of the wallet (wallet/seed.cpp, wallet/signing.cpp, wallet/hybrid.hpp)

    Key derivation is the code's own HMAC and HKDF over SHA-256.  Key pairs and
    signatures come from libsecp256k1 and OpenSSL, which are parameters here; what is
    relied on is that a signature they make is one they verify. *)

From Stdlib Require Import String.
From S2P Require Import Prelude Overflow Serialize Hex Crypto Primitives Params Sighash Validation.
From stdpp Require Import list sets.
#[local] Open Scope Z_scope.

Import Params.Params.

Module Signing.

(** ** Key derivation *)

Section derive.
Context `{Sha256Impl}.

(** [memcpy] of the shorter of the two into an array of [n] zero bytes. *)
Definition padded (n : nat) (bs : bytes) : bytes := take n bs ++ repeat Byte.x00 (n - length bs).

Definition xor_pad (pad : Z) (k0 : bytes) : bytes := map (fun b => z2b (Z.lxor (b2z b) pad)) k0.

Definition HmacSha256 (key data : bytes) : bytes :=
  let k0 := if zlen key <=? 64 then padded 64 key else repeat Byte.x00 64 in
  let ipad := xor_pad 0x36 k0 in
  let opad := xor_pad 0x5C k0 in
  let inner := Sha256 (WriteBytes data (WriteBytes ipad new_Writer)) in
  Sha256 (WriteHash256 inner (WriteBytes opad new_Writer)).

Definition HkdfExtract (salt ikm : bytes) : bytes := HmacSha256 salt ikm.

(** The loop of [HkdfExpand], from what is produced; [size] is what is still to come, at
    least one byte less in every turn. *)
Fixpoint expand (fuel : nat) (prk info prev : bytes) (produced : bool) (counter size : Z) : bytes :=
  match fuel with
  | O => []
  | S fuel =>
      if size <=? 0 then []
      else
        let w := if produced then WriteBytes prev new_Writer else new_Writer in
        let block := HmacSha256 prk (WriteU8 counter (WriteBytes info w)) in
        let to_copy := Z.min 32 size in
        take (Z.to_nat to_copy) block ++ expand fuel prk info block true (wrapu 8 (counter + 1)) (size - to_copy)
  end.

Definition HkdfExpand (prk info : bytes) (size : Z) : bytes :=
  expand (Z.to_nat size) prk info (repeat Byte.x00 32) false 1 size.

Definition DERIVATION_DOMAIN : bytes := str "Amarian/KeyDeriv/v1".

Definition BuildSalt (scheme_name : bytes) : bytes :=
  padded 64 (WriteBytes scheme_name (WriteU8 0 (WriteBytes DERIVATION_DOMAIN new_Writer))).

Definition DeriveKeyBytes (seed scheme_name : bytes) (account index size : Z) : bytes :=
  let salt := BuildSalt scheme_name in
  let prk := HkdfExtract salt seed in
  HkdfExpand prk (WriteU32 index (WriteU32 account new_Writer)) size.

Definition DeriveSecp256k1Key (seed : bytes) (account index : Z) : bytes :=
  DeriveKeyBytes seed (str "schnorr-secp256k1") account index 32.

Definition DeriveMldsa44Seed (seed : bytes) (account index size : Z) : bytes :=
  DeriveKeyBytes seed (str "ml-dsa-44") account index size.

Definition DeriveSlhDsaSeeds (seed : bytes) (account index : Z) : bytes * bytes * bytes :=
  let all := DeriveKeyBytes seed (str "slh-dsa-sha2-128s") account index 48 in
  (take 16 all, take 16 (drop 16 all), take 16 (drop 32 all)).

End derive.

(** ** Signing *)

(** The calls that make keys and signatures; verification is [Signature.SignatureBackends]. *)
Class SigningBackends := {
  (** [secp256k1_context_create]. *)
  secp_context : bool;
  (** [secp256k1_keypair_create] accepts the secret key. *)
  keypair_create : bytes -> bool;
  (** [secp256k1_keypair_xonly_pub] and [secp256k1_xonly_pubkey_serialize] of it. *)
  keypair_xonly_pub : bytes -> option bytes;
  (** [secp256k1_schnorrsig_sign32]: secret key, message. *)
  schnorrsig_sign32 : bytes -> bytes -> option bytes;
  (** [EVP_PKEY_new_raw_private_key_ex] for ML-DSA-44. *)
  evp_raw_private_key : bytes -> bool;
  (** A context was created and [EVP_PKEY_sign_message_init] succeeded. *)
  evp_sign_init : bytes -> bool;
  (** [EVP_PKEY_sign]: private key, message. *)
  evp_sign : bytes -> bytes -> option bytes;
  (** [EVP_PKEY_keygen] for ML-DSA-44 and the raw keys of the result. *)
  evp_keygen : option (bytes * bytes) }.

Record KeyPair := mkKeyPair { private_key : bytes; public_key : bytes }.

Section sign.
Context `{Sha256Impl} `{Signature.SignatureBackends} `{SigningBackends}.

Definition SignMldsa44 (private_key message : bytes) : option bytes :=
  if negb (Signature.evp_fetch "ML-DSA-44") then None
  else if (zlen private_key <? 2550) || (zlen private_key >? 2600) then None
  else if negb (evp_raw_private_key private_key) then None
  else if negb (evp_sign_init private_key) then None
  else evp_sign private_key message.

Definition SignSchnorr (private_key message : bytes) : option bytes :=
  if negb (zlen private_key =? 32) then None
  else if negb secp_context then None
  else if negb (keypair_create private_key) then None
  else schnorrsig_sign32 private_key message.

Definition GenerateMldsa44Key : option KeyPair :=
  match evp_keygen with
  | Some (priv, pub) => Some (mkKeyPair priv pub)
  | None => None
  end.

Definition GenerateSchnorrKey (seed : bytes) : option KeyPair :=
  if negb (zlen seed =? 32) then None
  else if negb secp_context then None
  else if negb (keypair_create seed) then None
  else match keypair_xonly_pub seed with
       | Some xonly => Some (mkKeyPair seed xonly)
       | None => None
       end.

(** ** Hybrid ownership *)

Definition MakeHybridCondition (schnorr_pubkey mldsa44_pubkey : bytes) : SpendCondition :=
  mkSpendCondition CONDITION_VERSION_THRESHOLD 2
    [mkPublicKey Signature.SCHEME_SCHNORR_SECP256K1 schnorr_pubkey; mkPublicKey Signature.SCHEME_ML_DSA_44 mldsa44_pubkey].

Definition with_tx_witnesses (tx : Transaction) (ws : list Witness) : Transaction :=
  mkTransaction (tx_version tx) (tx_inputs tx) (tx_outputs tx) (tx_locktime tx) ws (tx_coinbase_data tx).

Definition SignHybridInput (tx : Transaction) (spent_coin : Coin) (input_index : Z) (condition : SpendCondition)
    (schnorr_privkey mldsa44_privkey : bytes) (params : ChainParams) : option Transaction :=
  if input_index >=? zlen (tx_inputs tx) then None
  else if input_index >=? zlen (tx_witnesses tx) then None
  else
    let midstates := Sighash.ComputeSigHashMidstates tx in
    let sighash := Sighash.SignatureHash (chain_id params) tx midstates (wrapu 32 input_index)
                     (out_amount (coin_output spent_coin)) condition in
    schnorr_sig ← SignSchnorr schnorr_privkey sighash;
    mldsa_sig ← SignMldsa44 mldsa44_privkey sighash;
    let witness := mkWitness condition
      [mkSignature Signature.SCHEME_SCHNORR_SECP256K1 schnorr_sig; mkSignature Signature.SCHEME_ML_DSA_44 mldsa_sig] in
    Some (with_tx_witnesses tx (<[Z.to_nat input_index := witness]> (tx_witnesses tx))).

Definition VerifyHybridTransaction (tx : Transaction) (spent_coins : list Coin) (params : ChainParams) : bool :=
  match Validation.CheckSpendAuthorisation tx spent_coins params with
  | Validation.Ok _ => true
  | Validation.Err _ => false
  end.

End sign.

(** ** Derivation separates seeds, schemes, accounts and indices *)

Section binding.
Context `{Sha256Impl}.

(** The 64-byte block a key is made into. *)
Definition key_block (key : bytes) : bytes := if zlen key <=? 64 then padded 64 key else repeat Byte.x00 64.

Definition inner_preimage (key data : bytes) : bytes := xor_pad 0x36 (key_block key) ++ data.
Definition outer_preimage (key data : bytes) : bytes := xor_pad 0x5C (key_block key) ++ SHA256 (inner_preimage key data).
Definition hmac_preimages (key data : bytes) : list bytes := [inner_preimage key data; outer_preimage key data].

Lemma HmacSha256_eq key data : HmacSha256 key data = SHA256 (outer_preimage key data).
Proof. done. Qed.

Lemma HmacSha256_length key data : zlen (HmacSha256 key data) = 32.
Proof. apply SHA256_length. Qed.

Lemma length_padded n bs : length (padded n bs) = n.
Proof. unfold padded. rewrite length_app, length_take, repeat_length. lia. Qed.

Lemma length_key_block key : length (key_block key) = 64%nat.
Proof. unfold key_block. destruct (zlen key <=? 64); [apply length_padded|done]. Qed.

Lemma xor_pad_inj pad a b : 0 <= pad < 256 -> xor_pad pad a = xor_pad pad b -> a = b.
Proof.
  intros Hp. revert b. induction a as [|x a IH]; intros [|y b] E; try done. injection E as E1 E2. f_equal; [|by apply IH].
  apply b2z_inj. apply (f_equal b2z) in E1. rewrite !b2z_z2b in E1. change 256 with (2 ^ 8) in E1.
  rewrite <- !Z.land_ones in E1 by lia. apply (f_equal (fun z => Z.lxor z pad)) in E1.
  assert (forall u, Z.lxor (Z.land (Z.lxor (b2z u) pad) (Z.ones 8)) pad = b2z u) as Hx; [|by rewrite !Hx in E1].
  intros u. pose proof (b2z_range u). assert (Z.land pad (Z.ones 8) = pad) as Ep by (rewrite Z.land_ones, Z.mod_small; lia).
  assert (Z.land (b2z u) (Z.ones 8) = b2z u) as Eu by (rewrite Z.land_ones, Z.mod_small; lia).
  rewrite <- Ep at 2. rewrite <- Eu at 2. apply Z.bits_inj'. intros n _. rewrite !Z.lxor_spec, !Z.land_spec, Z.lxor_spec.
  by destruct (Z.testbit (b2z u) n), (Z.testbit pad n), (Z.testbit (Z.ones 8) n).
Qed.

Lemma zlen_xor_pad pad key : zlen (xor_pad pad (key_block key)) = 64.
Proof. unfold xor_pad. rewrite zlen_map. unfold zlen. by rewrite length_key_block. Qed.

Lemma HmacSha256_binds k d k' d' ps qs : HmacSha256 k d = HmacSha256 k' d' ->
  hmac_preimages k d ⊆ ps -> hmac_preimages k' d' ⊆ qs -> (key_block k = key_block k' /\ d = d') \/ Collision ps qs.
Proof.
  intros E Hp Hq. rewrite !HmacSha256_eq in E.
  destruct (SHA256_binds _ _ ps qs E) as [Eo|]; [apply Hp; set_solver|apply Hq; set_solver| |by right].
  apply app_inj_zlen in Eo as [Ek Ei]; [|by rewrite !zlen_xor_pad].
  destruct (SHA256_binds _ _ ps qs Ei) as [Ein|]; [apply Hp; set_solver|apply Hq; set_solver| |by right].
  apply app_inj_zlen in Ein as [_ Ed]; [|by rewrite !zlen_xor_pad]. left. split; [|done]. by apply xor_pad_inj in Ek.
Qed.

Definition derive_info (account index : Z) : bytes := WriteU8 1 (WriteU32 index (WriteU32 account new_Writer)).
Definition derive_prk (seed scheme_name : bytes) : bytes := HmacSha256 (BuildSalt scheme_name) seed.

(** Everything that is digested for the first 32 bytes. *)
Definition derive_preimages (seed scheme_name : bytes) (account index : Z) : list bytes :=
  hmac_preimages (BuildSalt scheme_name) seed ++ hmac_preimages (derive_prk seed scheme_name) (derive_info account index).

Lemma DeriveKeyBytes_head seed s a i n : 32 <= n ->
  take 32 (DeriveKeyBytes seed s a i n) = HmacSha256 (derive_prk seed s) (derive_info a i).
Proof.
  intros Hn. unfold DeriveKeyBytes, HkdfExpand. destruct (Z.to_nat n) as [|fuel] eqn:Ef; [lia|]. cbn [expand].
  destruct (Z.leb_spec n 0); [lia|]. rewrite Z.min_l by lia.
  change (WriteU8 1 (WriteBytes (WriteU32 i (WriteU32 a new_Writer)) new_Writer)) with (derive_info a i).
  change (HkdfExtract (BuildSalt s) seed) with (derive_prk seed s).
  pose proof (HmacSha256_length (derive_prk seed s) (derive_info a i)) as Hl. unfold zlen in Hl.
  rewrite take_app_le, take_take by (rewrite length_take; lia). apply take_ge. lia.
Qed.

Lemma zeros_tail a m : forall b n, Forall (fun c => c <> Byte.x00) a -> Forall (fun c => c <> Byte.x00) b ->
  a ++ repeat Byte.x00 m = b ++ repeat Byte.x00 n -> a = b.
Proof.
  induction a as [|x a IH]; intros [|y b] n Fa Fb E; try done.
  - apply Forall_cons in Fb as [Hy _]. destruct m; [done|]. injection E as E _. congruence.
  - apply Forall_cons in Fa as [Hx _]. destruct n; [done|]. injection E as E _. congruence.
  - apply Forall_cons in Fa as [_ Fa]. apply Forall_cons in Fb as [_ Fb]. injection E as -> E. f_equal. by eapply IH.
Qed.

Definition name_ok (name : bytes) : Prop := zlen name <= 44 /\ Forall (fun c => c <> Byte.x00) name.

Lemma BuildSalt_inj s s' : name_ok s -> name_ok s' -> key_block (BuildSalt s) = key_block (BuildSalt s') -> s = s'.
Proof.
  assert (forall x, name_ok x -> key_block (BuildSalt x) = DERIVATION_DOMAIN ++ [Byte.x00] ++ x ++ repeat Byte.x00 (44 - length x)) as E.
  { intros x [Hx _]. unfold key_block, BuildSalt. unfold zlen at 1. rewrite length_padded. change (Z.of_nat 64 <=? 64) with true. cbv iota.
    unfold padded at 1. rewrite length_padded, Nat.sub_diag, app_nil_r. rewrite take_ge by (by rewrite length_padded).
    unfold padded. change (WriteBytes x (WriteU8 0 (WriteBytes DERIVATION_DOMAIN new_Writer))) with ((DERIVATION_DOMAIN ++ [Byte.x00]) ++ x).
    rewrite take_ge by (rewrite length_app; change (length (DERIVATION_DOMAIN ++ [Byte.x00])) with 20%nat; unfold zlen in Hx; lia).
    rewrite length_app. change (length (DERIVATION_DOMAIN ++ [Byte.x00])) with 20%nat. rewrite <- !app_assoc.
    by replace (64 - (20 + length x))%nat with (44 - length x)%nat by lia. }
  intros Hs Hs'. rewrite !E by done. intros H1. do 2 apply app_inv_head in H1. destruct Hs, Hs'. by eapply zeros_tail.
Qed.

Lemma key_block_inj p q : zlen p = 32 -> zlen q = 32 -> key_block p = key_block q -> p = q.
Proof.
  intros Hp Hq. unfold key_block. rewrite Hp, Hq. change (32 <=? 64) with true. cbv iota. unfold padded, zlen in *.
  rewrite !take_ge by lia. intros E. apply app_inj_1 in E as [E _]; [done|lia].
Qed.
End binding.

(** ** Signatures that are made are verified *)

(** What is documented of the two libraries: a key pair's public key is one that parses,
    and what is signed with the secret key verifies under the public key. *)
Class SigningLaws `{Signature.SignatureBackends} `{SigningBackends} := {
  mldsa_pair : bytes -> bytes -> Prop;
  xonly_parses k P : keypair_create k = true -> keypair_xonly_pub k = Some P -> zlen P = 32 /\ Signature.xonly_pubkey_parse P = true;
  xonly_total k : keypair_create k = true -> is_Some (keypair_xonly_pub k);
  schnorr_verifies k P m s : keypair_create k = true -> keypair_xonly_pub k = Some P -> schnorrsig_sign32 k m = Some s ->
    zlen s = 64 /\ Signature.schnorrsig_verify s m P = true;
  mldsa_public k P : mldsa_pair k P -> zlen P = 1312 /\ Signature.evp_raw_public_key "ML-DSA-44" P = true /\
    Signature.evp_verify_init "ML-DSA-44" P = true;
  mldsa_verifies k P m s : mldsa_pair k P -> evp_raw_private_key k = true -> evp_sign k m = Some s ->
    zlen s = 2420 /\ Signature.evp_verify "ML-DSA-44" P s m = true }.

Section signed.
Context `{Sha256Impl} `{Signature.SignatureBackends} `{SigningBackends} `{!SigningLaws}.

Lemma SignSchnorr_verifies k kp m s : GenerateSchnorrKey k = Some kp -> SignSchnorr k m = Some s ->
  Signature.Verify Signature.SCHEME_SCHNORR_SECP256K1 (public_key kp) s m = Signature.Valid.
Proof.
  unfold GenerateSchnorrKey, SignSchnorr. destruct (zlen k =? 32); cbn [negb]; [|done]. destruct secp_context; cbn [negb]; [|done].
  destruct (keypair_create k) eqn:Ec; cbn [negb]; [|done]. destruct (keypair_xonly_pub k) as [P|] eqn:Ep; [|done]. intros [= <-] Hs.
  destruct (xonly_parses k P Ec Ep) as [Hl Hparse]. destruct (schnorr_verifies k P m s Ec Ep Hs) as [Hsl Hv].
  unfold Signature.Verify. cbn -[zlen]. rewrite Hl, Hsl. cbn. unfold Signature.VerifySchnorr. by rewrite Hparse, Hv.
Qed.

Lemma SignMldsa44_verifies k P m s : mldsa_pair k P -> SignMldsa44 k m = Some s ->
  Signature.Verify Signature.SCHEME_ML_DSA_44 P s m = Signature.Valid.
Proof.
  unfold SignMldsa44. intros Hk. destruct (Signature.evp_fetch "ML-DSA-44") eqn:Ef; cbn [negb]; [|done].
  destruct ((_ <? _) || _); [done|]. destruct (evp_raw_private_key k) eqn:Er; cbn [negb]; [|done].
  destruct (evp_sign_init k); cbn [negb]; [|done]. intros Hs. destruct (mldsa_public k P Hk) as (Hl & Hp & Hi).
  destruct (mldsa_verifies k P m s Hk Er Hs) as [Hsl Hv]. unfold Signature.Verify. cbn -[zlen]. rewrite Hl, Hsl. cbn.
  unfold Signature.VerifyWithOpenSsl. cbn. by rewrite Ef, Hp, Hi, Hv.
Qed.

(** Witnesses are not part of what is signed. *)
Lemma sighash_witnesses c tx ws m i a cond : Sighash.SignatureHash c (with_tx_witnesses tx ws) m i a cond = Sighash.SignatureHash c tx m i a cond.
Proof. done. Qed.
Lemma midstates_witnesses tx ws : Sighash.ComputeSigHashMidstates (with_tx_witnesses tx ws) = Sighash.ComputeSigHashMidstates tx.
Proof. done. Qed.
End signed.

(** ** Claims *)

(** Keys are separated: the same 32 or more key bytes derived twice come from the same
    seed, scheme, account and index, or two of the byte strings digested on the way are a
    collision of SHA-256.  (Scheme names are up to 44 bytes without a zero byte: longer ones
    are cut off in the salt.) *)
Theorem derivation_binds `{Sha256Impl} (seed seed' s s' : bytes) (a i a' i' n : Z) :
  name_ok s -> name_ok s' -> u32 a -> u32 i -> u32 a' -> u32 i' -> 32 <= n ->
  DeriveKeyBytes seed s a i n = DeriveKeyBytes seed' s' a' i' n ->
  (seed = seed' /\ s = s' /\ a = a' /\ i = i') \/ Collision (derive_preimages seed s a i) (derive_preimages seed' s' a' i').
Proof.
  intros Hs Hs' Ha Hi Ha' Hi' Hn E. apply (f_equal (take 32)) in E. rewrite !DeriveKeyBytes_head in E by done.
  unfold derive_preimages. set (ps := hmac_preimages (BuildSalt s) seed ++ _). set (qs := hmac_preimages (BuildSalt s') seed' ++ _).
  destruct (HmacSha256_binds _ _ _ _ ps qs E) as [[Ek Ed]|]; [unfold ps; set_solver|unfold qs; set_solver| |by right].
  apply key_block_inj in Ek; [|apply HmacSha256_length..].
  destruct (HmacSha256_binds _ _ _ _ ps qs Ek) as [[Es Eseed]|]; [unfold ps; set_solver|unfold qs; set_solver| |by right].
  left. apply BuildSalt_inj in Es; [|done..]. split; [done|]. split; [done|].
  unfold derive_info, WriteU8, WriteU32, AppendLittleEndian, new_Writer in Ed. cbn [app] in Ed. rewrite <- !app_assoc in Ed.
  apply app_inj_zlen in Ed as [E1 E2]; [|by rewrite !zlen_le_split]. apply app_inj_zlen in E2 as [E2 _]; [|by rewrite !zlen_le_split].
  split; [apply (le_split_inj 4)|apply (le_split_inj 4)]; try done; unfold u32 in *; lia.
Qed.
(** A hybrid output is spent by what [SignHybridInput] makes: if the coin's lock commits to
    the 2-of-2 condition of the two public keys, the signed input is authorised under the
    consensus rules, and nothing else of the transaction has changed, nor what authorises
    its other inputs. *)
Theorem hybrid_input_authorised `{Sha256Impl} `{Signature.SignatureBackends} `{SigningBackends} `{!SigningLaws}
    (tx tx' : Transaction) (coin : Coin) (i : Z) (kp : KeyPair) (k1 k2 P2 : bytes) (params : ChainParams) :
  let condition := MakeHybridCondition (public_key kp) P2 in
  0 <= i -> GenerateSchnorrKey k1 = Some kp -> mldsa_pair k2 P2 ->
  out_lock (coin_output coin) = mkLock LOCK_VERSION_CONDITION_COMMITMENT (Sighash.SpendConditionCommitment condition) ->
  SignHybridInput tx coin i condition k1 k2 params = Some tx' ->
  (exists w, tx_witnesses tx' !! Z.to_nat i = Some w /\
    Validation.authorise_input tx' params (Sighash.ComputeSigHashMidstates tx') i (coin_output coin) w = Validation.Accept) /\
  tx_inputs tx' = tx_inputs tx /\ tx_outputs tx' = tx_outputs tx /\ Txid tx' = Txid tx /\
  forall j spent w, Z.to_nat j <> Z.to_nat i ->
    (tx_witnesses tx' !! Z.to_nat j = Some w <-> tx_witnesses tx !! Z.to_nat j = Some w) /\
    Validation.authorise_input tx' params (Sighash.ComputeSigHashMidstates tx') j spent w =
    Validation.authorise_input tx params (Sighash.ComputeSigHashMidstates tx) j spent w.
Proof.
  intros condition Hi Hk1 Hk2 Hlock. unfold SignHybridInput. destruct (Z.geb_spec i (zlen (tx_inputs tx))); [done|].
  destruct (Z.geb_spec i (zlen (tx_witnesses tx))) as [|Hw]; [done|]. set (m := Sighash.SignatureHash _ _ _ _ _ _).
  destruct (SignSchnorr k1 m) as [s1|] eqn:E1; [|done]. cbn [mbind option_bind].
  destruct (SignMldsa44 k2 m) as [s2|] eqn:E2; [|done]. cbn [mbind option_bind]. intros [= <-].
  split; [|split; [done|split; [done|split; [done|]]]].
  - eexists. split; [cbn [tx_witnesses with_tx_witnesses]; apply list_lookup_insert_eq; unfold zlen in Hw; lia|].
    apply Validation.authorise_input_Ok; [by repeat constructor|].
    unfold Validation.authorised. rewrite Hlock. cbn [lock_version lock_program wit_condition]. split; [done|]. intros _. split; [done|].
    intros _. exists (cond_keys condition). split; [done|]. rewrite midstates_witnesses, sighash_witnesses. fold m.
    constructor; [|constructor; [|constructor]]; unfold Validation.answers; cbn [sig_scheme sig_bytes key_scheme key_bytes].
    + split; [done|]. left. by apply (SignSchnorr_verifies k1).
    + split; [done|]. left. by apply (SignMldsa44_verifies k2).
  - intros j spent w Hj. split; [|done]. cbn [tx_witnesses with_tx_witnesses]. by rewrite list_lookup_insert_ne.
Qed.
(** ** Witnesses *)

(** Libraries whose signature is the public key and the message. *)
Definition toy_mldsa (m : bytes) : bytes := padded 2420 m.

#[export] Instance toy_verify : Signature.SignatureBackends := {|
  Signature.xonly_pubkey_parse P := zlen P =? 32;
  Signature.schnorrsig_verify s m P := bool_decide (s = P ++ m);
  Signature.evp_fetch _ := true;
  Signature.evp_raw_public_key _ _ := true;
  Signature.evp_verify_init _ _ := true;
  Signature.evp_verify _ _ s m := bool_decide (s = toy_mldsa m) |}.

#[export] Instance toy_signing : SigningBackends := {|
  secp_context := true;
  keypair_create k := zlen k =? 32;
  keypair_xonly_pub k := Some k;
  schnorrsig_sign32 k m := if zlen m =? 32 then Some (k ++ m) else None;
  evp_raw_private_key _ := true;
  evp_sign_init _ := true;
  evp_sign _ m := Some (toy_mldsa m);
  evp_keygen := Some (repeat Byte.x01 2560, repeat Byte.x02 1312) |}.

#[export, program] Instance toy_laws : SigningLaws := {| mldsa_pair _ P := zlen P = 1312 |}.
Next Obligation. intros k P Hk [= <-]. cbn in *. split; [by apply Z.eqb_eq|done]. Qed.
Next Obligation. intros k _. by eexists. Qed.
Next Obligation.
  intros k P m s Hk [= <-]. cbn in *. destruct (Z.eqb_spec (zlen m) 32) as [Hm|]; [|done]. intros [= <-]. apply Z.eqb_eq in Hk.
  split; [rewrite zlen_app; lia|by apply bool_decide_true].
Qed.
Next Obligation. done. Qed.
Next Obligation.
  intros k P m s _ _ [= <-]. cbn. split; [unfold zlen, toy_mldsa; by rewrite length_padded|by apply bool_decide_true].
Qed.

Definition toy_key : bytes := repeat Byte.x05 32.
Definition toy_hybrid : SpendCondition := MakeHybridCondition toy_key (repeat Byte.x02 1312).
Definition toy_coin : Coin :=
  mkCoin (mkTxOutput 700 (mkLock 1 (Sighash.SpendConditionCommitment (H := toy_Sha256Impl) toy_hybrid))) 3 false.
Definition toy_unsigned : Transaction :=
  mkTransaction 1 [mkTxInput (mkOutPoint (repeat Byte.x09 32) 0) 0] [mkTxOutput 600 (mkLock 1 [])] 0 [mkWitness (mkSpendCondition 1 1 []) []] [].

Lemma derivation_binds_witness :
  DeriveKeyBytes (H := toy_Sha256Impl) toy_key (str "ml-dsa-44") 1 2 32 = DeriveKeyBytes (H := toy_Sha256Impl) toy_key (str "ml-dsa-44") 1 2 32 /\
  ((toy_key = toy_key /\ str "ml-dsa-44" = str "ml-dsa-44" /\ 1 = 1 /\ 2 = 2) \/
   Collision (H := toy_Sha256Impl) (derive_preimages (H := toy_Sha256Impl) toy_key (str "ml-dsa-44") 1 2)
     (derive_preimages (H := toy_Sha256Impl) toy_key (str "ml-dsa-44") 1 2)).
Proof.
  split; [reflexivity|].
  assert (name_ok (str "ml-dsa-44")) as Hn by (split; [vm_compute; congruence|repeat constructor; discriminate]).
  apply (derivation_binds (H := toy_Sha256Impl) toy_key toy_key (str "ml-dsa-44") (str "ml-dsa-44") 1 2 1 2 32); try done; unfold u32; lia.
Defined.

Lemma hybrid_input_authorised_witness : exists tx',
  SignHybridInput (H := toy_Sha256Impl) toy_unsigned toy_coin 0 toy_hybrid toy_key (repeat Byte.x01 2560) REGTEST_PARAMS = Some tx' /\
  tx_inputs tx' = tx_inputs toy_unsigned.
Proof.
  eexists. split; [lazy; reflexivity|].
  apply (hybrid_input_authorised (H := toy_Sha256Impl) toy_unsigned _ toy_coin 0 (mkKeyPair toy_key toy_key) toy_key (repeat Byte.x01 2560) (repeat Byte.x02 1312) REGTEST_PARAMS).
  - lia.
  - reflexivity.
  - reflexivity.
  - reflexivity.
  - reflexivity.
Defined.
End Signing.
