(* ===== verification/TxBuilder.v ===== *)
(** * Transaction building (wallet/txbuilder.cpp)

    From coins and recipients to a signed transaction: what is paid, what is left as fee,
    and that the consensus rules take the signatures. *)

From Stdlib Require Import String.
From S2P Require Import Prelude Overflow Serialize Hex Crypto Primitives Params Sighash Validation CoinSelection Signing.
From stdpp Require Import list.
#[local] Open Scope Z_scope.
Import Params.Params CoinSelection.CoinSelection Signing.Signing.

Module TxBuilder.

Record UnsignedTx := mkUnsignedTx {
  utx_tx : Transaction;
  utx_spent_coins : list Coin;
  utx_input_private_keys : list bytes;
  utx_input_schemes : list Z }.

Record SignedTx := mkSignedTx { stx_tx : Transaction; stx_txid : bytes; stx_fee : Z }.

Record TxBuilder := mkTxBuilder {
  seed_ : bytes;
  scheme_name_ : bytes;
  account_ : Z;
  recipients_ : list (Lock * Z);
  fee_rate_ : Z;
  chain_id_ : bytes;
  utxos_ : list UtxoEntry }.

Definition SCHNORR_NAME : bytes := str "schnorr-secp256k1".
Definition ML_DSA_NAME : bytes := str "ml-dsa-44".
Definition SLH_DSA_NAME : bytes := str "slh-dsa-sha2-128s".

Definition SchemeIdFromName (name : bytes) : Z :=
  if bool_decide (name = SCHNORR_NAME) then Signature.SCHEME_SCHNORR_SECP256K1
  else if bool_decide (name = ML_DSA_NAME) then Signature.SCHEME_ML_DSA_44
  else if bool_decide (name = SLH_DSA_NAME) then Signature.SCHEME_SLH_DSA_SHA2_128S
  else 0.

Definition new_TxBuilder (seed scheme_name : bytes) (account : Z) : TxBuilder :=
  mkTxBuilder seed scheme_name account [] DEFAULT_FEERATE (repeat Byte.x00 32) [].

Definition AddRecipient (lock : Lock) (amount : Z) (b : TxBuilder) : TxBuilder :=
  mkTxBuilder (seed_ b) (scheme_name_ b) (account_ b) (recipients_ b ++ [(lock, amount)]) (fee_rate_ b) (chain_id_ b) (utxos_ b).
Definition SetFeeRate (feerate : Z) (b : TxBuilder) : TxBuilder :=
  mkTxBuilder (seed_ b) (scheme_name_ b) (account_ b) (recipients_ b) feerate (chain_id_ b) (utxos_ b).
Definition SetChainId (chain_id : bytes) (b : TxBuilder) : TxBuilder :=
  mkTxBuilder (seed_ b) (scheme_name_ b) (account_ b) (recipients_ b) (fee_rate_ b) chain_id (utxos_ b).
Definition SetUtxos (utxos : list UtxoEntry) (b : TxBuilder) : TxBuilder :=
  mkTxBuilder (seed_ b) (scheme_name_ b) (account_ b) (recipients_ b) (fee_rate_ b) (chain_id_ b) utxos.

Section build.
Context `{Sha256Impl} `{StdSort}.

Definition DerivePrivkey (seed : bytes) (account index : Z) : bytes := DeriveSecp256k1Key seed account index.

(** The key one selected coin is signed with. *)
Definition input_key (b : TxBuilder) (entry : UtxoEntry) : bytes :=
  DerivePrivkey (seed_ b) (if utxo_account_id entry =? 0 then account_ b else utxo_account_id entry) (utxo_derivation_index entry).

Definition Build (b : TxBuilder) : option UnsignedTx :=
  if bool_decide (recipients_ b = []) || bool_decide (utxos_ b = []) then None
  else
    let target := foldl (fun target r => to_i64 (target + r.2)) 0 (recipients_ b) in
    let selection := SelectCoins (utxos_ b) target (fee_rate_ b) in
    if negb (sel_success selection) then None
    else
      let inputs := map (fun entry => mkTxInput (utxo_outpoint entry) 0) (sel_inputs selection) in
      let outputs := map (fun r => mkTxOutput r.2 r.1) (recipients_ b) in
      let change_outputs :=
        if (sel_change selection >? 0) && (sel_change selection >=? DUST_THRESHOLD) then
          [mkTxOutput (sel_change selection)
             match utxos_ b with
             | first :: _ => out_lock (coin_output (utxo_coin first))
             | [] => mkLock 1 (repeat Byte.x00 32)
             end]
        else [] in
      Some (mkUnsignedTx (mkTransaction 1 inputs (outputs ++ change_outputs) 0 [] [])
              (map utxo_coin (sel_inputs selection)) (map (input_key b) (sel_inputs selection))
              (map (fun _ => SchemeIdFromName (scheme_name_ b)) (sel_inputs selection))).

End build.

Section sign.
Context `{Sha256Impl} `{Signature.SignatureBackends} `{SigningBackends}.

Definition BuildSpendCondition (privkey_bytes : bytes) (scheme_id : Z) : SpendCondition :=
  let key :=
    if scheme_id =? Signature.SCHEME_SCHNORR_SECP256K1 then
      match GenerateSchnorrKey privkey_bytes with
      | Some keypair => public_key keypair
      | None => []
      end
    else privkey_bytes in
  mkSpendCondition 1 1 [mkPublicKey scheme_id key].

Definition SignInput (b : TxBuilder) (tx : Transaction) (midstates : Sighash.SigHashMidstates) (input_index spent_amount : Z)
    (condition : SpendCondition) (privkey_bytes : bytes) (scheme_id : Z) : option bytes :=
  let sighash := Sighash.SignatureHash (chain_id_ b) tx midstates (wrapu 32 input_index) spent_amount condition in
  if scheme_id =? Signature.SCHEME_SCHNORR_SECP256K1 then SignSchnorr privkey_bytes sighash
  else if scheme_id =? Signature.SCHEME_ML_DSA_44 then SignMldsa44 privkey_bytes sighash
  else None.

(** The loop of [Sign], which appends a witness for every input. *)
Fixpoint sign_loop (b : TxBuilder) (midstates : Sighash.SigHashMidstates) (i : Z) (signed_tx : Transaction)
    (coins : list Coin) (keys : list bytes) (schemes : list Z) : option Transaction :=
  match coins, keys, schemes with
  | coin :: coins, key :: keys, scheme :: schemes =>
      let condition := BuildSpendCondition key scheme in
      sig ← SignInput b signed_tx midstates i (out_amount (coin_output coin)) condition key scheme;
      let witness := mkWitness condition [mkSignature scheme sig] in
      sign_loop b midstates (i + 1) (with_tx_witnesses signed_tx (tx_witnesses signed_tx ++ [witness])) coins keys schemes
  | _, _, _ => Some signed_tx
  end.

Definition Sign (b : TxBuilder) (utx : UnsignedTx) : option SignedTx :=
  if negb (zlen (tx_inputs (utx_tx utx)) =? zlen (utx_spent_coins utx)) then None
  else if negb (zlen (tx_inputs (utx_tx utx)) =? zlen (utx_input_private_keys utx)) then None
  else
    let midstates := Sighash.ComputeSigHashMidstates (utx_tx utx) in
    signed_tx ← sign_loop b midstates 0 (utx_tx utx) (utx_spent_coins utx) (utx_input_private_keys utx) (utx_input_schemes utx);
    let input_total := sum_i64 (map (fun coin => out_amount (coin_output coin)) (utx_spent_coins utx)) in
    let output_total := sum_i64 (map out_amount (tx_outputs signed_tx)) in
    Some (mkSignedTx signed_tx (Txid signed_tx) (to_i64 (input_total - output_total))).

End sign.

(** ** Lemmas: what is built *)

Lemma DeriveSecp256k1Key_length `{Sha256Impl} seed a i : zlen (DeriveSecp256k1Key seed a i) = 32.
Proof.
  unfold DeriveSecp256k1Key, DeriveKeyBytes, HkdfExpand. set (prk := HkdfExtract _ _). set (info := WriteU32 _ _).
  destruct (Z.to_nat 32) as [|fuel] eqn:Ef; [done|]. cbn [expand]. change (32 <=? 0) with false. cbv iota.
  replace (expand fuel _ _ _ _ _ (32 - Z.min 32 32)) with (@nil Init.Byte.byte) by (by destruct fuel).
  rewrite app_nil_r. pose proof (HmacSha256_length prk (WriteU8 1 (WriteBytes info new_Writer))) as E.
  unfold zlen in *. rewrite length_take. lia.
Qed.

Definition recipient_total (b : TxBuilder) : Z := zsum (map snd (recipients_ b)).

(** Recipients are paid positive amounts, and the 64-bit sums do not overflow. *)
Definition builder_ok (b : TxBuilder) : Prop :=
  Forall (fun r => 0 < r.2) (recipients_ b) /\ recipients_ b <> [] /\
  affordable_range (utxos_ b) (recipient_total b) (fee_rate_ b).

Definition input_total (utx : UnsignedTx) : Z := zsum (map (fun c => out_amount (coin_output c)) (utx_spent_coins utx)).
Definition output_total (tx : Transaction) : Z := zsum (map out_amount (tx_outputs tx)).

Lemma target_total b : builder_ok b ->
  foldl (fun target r => to_i64 (target + r.2)) 0 (recipients_ b) = recipient_total b.
Proof.
  intros (F & _ & (Hp & _ & Hr & Hs & _)). pose proof (coin_amounts_nonneg _ Hp) as Ha. pose proof (zlen_nonneg (utxos_ b)).
  unfold recipient_total in *. set (R := recipients_ b) in *.
  rewrite (foldl_i64 snd R); [done| |lia|unfold weight in Hs; nia]. eapply Forall_impl; [exact F|]. cbn. lia.
Qed.

Section built.
Context `{Sha256Impl} `{StdSort}.

Definition change_lock (b : TxBuilder) : Lock :=
  match utxos_ b with first :: _ => out_lock (coin_output (utxo_coin first)) | [] => mkLock 1 (repeat Byte.x00 32) end.

Definition change_outputs (b : TxBuilder) (change : Z) : list TxOutput :=
  if (change >? 0) && (change >=? DUST_THRESHOLD) then [mkTxOutput change (change_lock b)] else [].

(** The transaction made of a selection. *)
Definition built (b : TxBuilder) (s : CoinSelection) : UnsignedTx :=
  mkUnsignedTx (mkTransaction 1 (map (fun e => mkTxInput (utxo_outpoint e) 0) (sel_inputs s))
                 (map (fun r => mkTxOutput r.2 r.1) (recipients_ b) ++ change_outputs b (sel_change s)) 0 [] [])
    (map utxo_coin (sel_inputs s)) (map (input_key b) (sel_inputs s)) (map (fun _ => SchemeIdFromName (scheme_name_ b)) (sel_inputs s)).

Lemma Build_eq b utx : builder_ok b -> Build b = Some utx <->
  let s := SelectCoins (utxos_ b) (recipient_total b) (fee_rate_ b) in sel_success s = true /\ utx = built b s.
Proof.
  intros Hb. cbv zeta. unfold Build. rewrite (target_total b Hb). set (s := SelectCoins _ _ _). destruct Hb as (F & Hr & _).
  rewrite (bool_decide_false (recipients_ b = [])) by done. cbn [orb].
  destruct (bool_decide_reflect (utxos_ b = [])) as [Eu|Eu].
  { split; [done|]. intros [Hs _]. unfold s, SelectCoins in Hs. rewrite Eu, (bool_decide_true ([] = [])), orb_true_r in Hs by done. done. }
  destruct (sel_success s); cbn [negb]; [|naive_solver]. split; [by intros [= <-]|]. by intros [_ ->].
Qed.

Lemma recipients_sum b : zsum (map out_amount (map (fun r : Lock * Z => mkTxOutput r.2 r.1) (recipients_ b))) = recipient_total b.
Proof. unfold recipient_total. by rewrite map_map. Qed.

Lemma Build_spec b utx : builder_ok b -> Build b = Some utx ->
  let s := SelectCoins (utxos_ b) (recipient_total b) (fee_rate_ b) in
  utx = built b s /\ sel_inputs s ⊆+ utxos_ b /\ sel_inputs s <> [] /\
  input_total utx = amounts (sel_inputs s) /\
  0 <= output_total (utx_tx utx) <= input_total utx /\
  fee_rate_ b * EstimateTxWeight (zlen (sel_inputs s)) 1 SIG_BYTES <= input_total utx - output_total (utx_tx utx)
    < fee_rate_ b * EstimateTxWeight (zlen (sel_inputs s)) 1 SIG_BYTES + Z.max DUST_THRESHOLD (DustForFeeRate (fee_rate_ b)).
Proof.
  intros Hb Hbuild s. apply Build_eq in Hbuild as [Hok ->]; [|done]. fold s in Hok |- *.
  pose proof Hb as (F & Hr & Hrange). pose proof Hrange as (Hp & Ht & Hrate & Hsum & Hw).
  destruct (SelectCoins_spec _ _ _ Hrange) as [_ Hsel]. fold s in Hsel. specialize (Hsel Hok) as (Hsub & Hne & _ & _ & _ & Hbal & Hch & Hfee).
  split; [done|]. split; [done|]. split; [done|].
  assert (input_total (built b s) = amounts (sel_inputs s)) as Ei by (unfold input_total, built, amounts; cbn [utx_spent_coins]; by rewrite map_map).
  split; [done|]. assert (0 <= EstimateTxWeight (zlen (sel_inputs s)) 1 SIG_BYTES) as Hwt by (apply wrapu_range; lia).
  rewrite Ei, Hbal. unfold output_total, built, change_outputs. cbn [utx_tx tx_outputs]. rewrite map_app, zsum_app, recipients_sum.
  assert (0 < recipient_total b) by done. assert (0 <= fee_rate_ b * EstimateTxWeight (zlen (sel_inputs s)) 1 SIG_BYTES) by nia.
  unfold DUST_THRESHOLD in *. rewrite Z.gtb_ltb, Z.geb_leb.
  destruct (Z.ltb_spec 0 (sel_change s)), (Z.leb_spec 1000 (sel_change s)); cbn [andb map zsum foldr out_amount]; lia.
Qed.

End built.

(** ** Lemmas: what is signed *)

Section signed.
Context `{Sha256Impl} `{Signature.SignatureBackends} `{SigningBackends} `{!SigningLaws}.

(** The lock a wallet key answers. *)
Definition key_lock (key : bytes) : Lock :=
  mkLock LOCK_VERSION_CONDITION_COMMITMENT
    (Sighash.SpendConditionCommitment (BuildSpendCondition key Signature.SCHEME_SCHNORR_SECP256K1)).

Lemma all_authorised_witnesses p tx ws coins : forall i us,
  Validation.all_authorised p (with_tx_witnesses tx ws) i coins us = Validation.all_authorised p tx i coins us.
Proof. induction coins as [|c coins IH]; intros i [|u us]; try done. cbn [Validation.all_authorised]. by rewrite IH. Qed.

Lemma SignSchnorr_key k m s : SignSchnorr k m = Some s -> is_Some (GenerateSchnorrKey k).
Proof.
  unfold SignSchnorr, GenerateSchnorrKey. destruct (zlen k =? 32); [|done]. destruct secp_context; [|done].
  destruct (keypair_create k) eqn:E; [|done]. intros _. cbn [negb]. destruct (xonly_total k E) as [P ->]. by eexists.
Qed.

(** The limits on sizes, which neither [Build] nor [Sign] looks at. *)
Definition within_limits (p : ChainParams) (tx : Transaction) : Prop :=
  let limits := limits_tx (block_limits p) in
  1 <= max_keys limits /\ zlen (tx_inputs tx) <= max_inputs limits /\ zlen (tx_outputs tx) <= max_outputs limits /\
  Transaction_Weight tx <= max_block_weight p.

(** One key, one signature, each of the size its scheme has. *)
Lemma signed_witness_ok p k kp m sig : 1 <= max_keys (limits_tx (block_limits p)) -> GenerateSchnorrKey k = Some kp -> SignSchnorr k m = Some sig ->
  Validation.witness_ok p (mkWitness (BuildSpendCondition k Signature.SCHEME_SCHNORR_SECP256K1) [mkSignature Signature.SCHEME_SCHNORR_SECP256K1 sig]).
Proof.
  intros Hm Ek Es. pose proof (SignSchnorr_verifies k kp m sig Ek Es) as V. unfold BuildSpendCondition. rewrite Z.eqb_refl, Ek.
  unfold Signature.Verify in V. destruct (Signature.FindScheme Signature.SCHEME_SCHNORR_SECP256K1) as [spec|] eqn:Ef; [|done].
  change (Signature.SCHEME_SCHNORR_SECP256K1 =? Signature.SCHEME_RESERVED) with false in V. cbv iota in V.
  destruct (negb (zlen (public_key kp) =? _)) eqn:E1; [done|]. destruct (negb (zlen sig =? _)) eqn:E2; [done|]. clear V.
  split; [|split; [by repeat constructor|]].
  - split; [done|]. intros _. cbn [cond_keys cond_threshold wit_condition]. split_and!; [done|done|done|done| |by repeat constructor].
    constructor; [|constructor]. split; [done|]. unfold Validation.HasWrongPublicKeySize. cbn [key_scheme key_bytes]. by rewrite Ef.
  - intros _. split; [done|]. constructor; [|constructor]. unfold Validation.HasWrongSignatureSize. cbn [sig_scheme sig_bytes]. by rewrite Ef.
Qed.

Lemma sign_loop_spec b coins : forall keys schemes i tx tx',
  length keys = length coins -> length schemes = length coins ->
  Forall (fun s => s = Signature.SCHEME_SCHNORR_SECP256K1) schemes ->
  sign_loop b (Sighash.ComputeSigHashMidstates tx) i tx coins keys schemes = Some tx' ->
  exists ws, tx' = with_tx_witnesses tx (tx_witnesses tx ++ ws) /\ length ws = length coins /\
    Forall (fun w => Forall (fun s => sig_scheme s <> SCHEME_RESERVED) (wit_signatures w)) ws /\
    (forall p, 1 <= max_keys (limits_tx (block_limits p)) -> Forall (Validation.witness_ok p) ws) /\
    forall p, chain_id p = chain_id_ b -> Forall2 (fun c k => out_lock (coin_output c) = key_lock k) coins keys ->
      Validation.all_authorised p tx i coins ws.
Proof.
  induction coins as [|c coins IH]; intros keys schemes i tx tx' Hk Hs F Hsign.
  { exists []. destruct keys; [|done]. injection Hsign as <-. rewrite app_nil_r. by destruct tx. }
  destruct keys as [|k keys]; [done|]. destruct schemes as [|s schemes]; [done|]. injection Hk as Hk. injection Hs as Hs.
  apply Forall_cons in F as [-> F]. cbn [sign_loop] in Hsign. set (cond := BuildSpendCondition k _) in *.
  destruct (SignInput b tx _ i (out_amount (coin_output c)) cond k _) as [sig|] eqn:Esig; [|done]. cbn [mbind option_bind] in Hsign.
  set (w := mkWitness cond _) in *.
  destruct (IH keys schemes (i + 1) (with_tx_witnesses tx (tx_witnesses tx ++ [w])) tx') as (ws & -> & Hl & Fw & Fok & Hauth); [done..|].
  exists (w :: ws). cbn [tx_witnesses with_tx_witnesses length]. rewrite <- app_assoc. split; [done|]. split; [by rewrite Hl|].
  split; [constructor; [by repeat constructor|done]|].
  assert (SignSchnorr k (Sighash.SignatureHash (chain_id_ b) tx (Sighash.ComputeSigHashMidstates tx) (wrapu 32 i) (out_amount (coin_output c)) cond) = Some sig) as Es
    by (unfold SignInput in Esig; by rewrite Z.eqb_refl in Esig).
  destruct (SignSchnorr_key _ _ _ Es) as [kp Ekp].
  split; [intros p Hm; constructor; [by eapply signed_witness_ok|by apply Fok]|]. intros p Hp F2. apply Forall2_cons in F2 as [Hlock F2].
  cbn [Validation.all_authorised]. split; [|specialize (Hauth p Hp F2); by rewrite all_authorised_witnesses in Hauth].
  unfold Validation.authorised. rewrite Hlock. cbn [lock_version lock_program key_lock wit_condition w]. split; [done|]. intros _. split; [done|].
  intros _. exists (cond_keys cond). split; [done|]. rewrite Hp. constructor; [|constructor].
  unfold Validation.answers. cbn [sig_scheme sig_bytes]. unfold cond, BuildSpendCondition. rewrite Z.eqb_refl. rewrite Ekp.
  cbn [key_scheme key_bytes]. split; [done|]. left. apply (SignSchnorr_verifies k); [done|].
  unfold cond, BuildSpendCondition in Es. rewrite Z.eqb_refl in Es. by rewrite Ekp in Es.
Qed.

End signed.
(** Coins of valid amounts that together do not exceed all the money. *)
Definition coins_valid (utxos : list UtxoEntry) : Prop :=
  Forall (fun e => IsValidAmount (amount e) = true) utxos /\ amounts utxos <= MAX_MONEY.

Lemma coins_valid_sub s utxos : s ⊆+ utxos -> coins_valid utxos -> coins_valid s.
Proof.
  intros Hs [F Hm]. destruct (submseteq_Permutation _ _ Hs) as [k E]. rewrite E in F. apply Forall_app in F as [F Fk]. split; [done|].
  rewrite (amounts_perm _ _ E), amounts_app in Hm.
  assert (0 <= amounts k); [|lia]. apply coin_amounts_nonneg. eapply Forall_impl; [exact Fk|]. intros e He%IsValidAmount_spec. lia.
Qed.

(** An outpoint no coinbase input has. *)
Definition spendable_outpoint (e : UtxoEntry) : Prop := op_index (utxo_outpoint e) <> COINBASE_OUTPOINT_INDEX.

Lemma not_coinbase s : Forall spendable_outpoint s -> is_coinbase_inputs (map (fun e => mkTxInput (utxo_outpoint e) 0) s) = false.
Proof.
  intros F. destruct s as [|e [|? ?]]; try done. apply Forall_cons in F as [He _]. cbn.
  rewrite (proj2 (Z.eqb_neq _ _) He). apply andb_false_r.
Qed.

Lemma distinct_sub (s utxos : list UtxoEntry) : s ⊆+ utxos -> NoDup (map utxo_outpoint utxos) -> NoDup (map utxo_outpoint s).
Proof.
  intros Hs Hd. destruct (submseteq_Permutation _ _ Hs) as [rest Ep]. rewrite Ep, map_app in Hd. by apply NoDup_app in Hd as [? _].
Qed.

(** What the rules that need no coins ask of it. *)
Lemma signed_form `{Sha256Impl} `{StdSort} `{Signature.SignatureBackends} p b s ws : let tx := with_tx_witnesses (utx_tx (built b s)) ws in
  sel_inputs s <> [] -> Forall spendable_outpoint (sel_inputs s) -> NoDup (map utxo_outpoint (sel_inputs s)) ->
  tx_outputs tx <> [] -> length ws = length (sel_inputs s) ->
  (1 <= max_keys (limits_tx (block_limits p)) -> Forall (Validation.witness_ok p) ws) ->
  Forall (fun o => IsValidAmount (out_amount o) = true) (tx_outputs tx) -> zsum (map out_amount (tx_outputs tx)) <= MAX_MONEY ->
  within_limits p tx -> Validation.CheckTransaction tx p = Validation.Accept.
Proof.
  intros tx Hne Fout Hd Ho Hl Fok Fo Hs (Hk & Li & Lo & Lw). apply Validation.CheckTransaction_Ok.
  assert (IsCoinbase tx = false) as Hcb by (by apply not_coinbase). unfold Validation.transaction_valid. rewrite Hcb.
  split_and!; [unfold tx, built; cbn; by destruct (sel_inputs s)|done|done|done| |split; [by apply Forall_map_iff|lia]|done].
  unfold Validation.spend_form, tx, built. cbn [utx_tx tx_inputs tx_witnesses tx_coinbase_data with_tx_witnesses].
  split_and!; [done|unfold zlen; by rewrite Hl, length_map| |by rewrite map_map|by apply Fok].
  apply Forall_map_iff. eapply Forall_impl; [exact Fout|]. intros e He. cbn. unfold Validation.is_null_outpoint.
  rewrite (proj2 (Z.eqb_neq _ _) He). apply andb_false_r.
Qed.

(** What makes a signed transaction pass the rules for spending, from what it was built
    of. *)
Lemma Sign_valid `{Sha256Impl} `{StdSort} `{Signature.SignatureBackends} `{SigningBackends} `{!SigningLaws}
    (b : TxBuilder) (utx : UnsignedTx) (st : SignedTx) (p : ChainParams) (height : Z) :
  builder_ok b -> scheme_name_ b = SCHNORR_NAME -> chain_id p = chain_id_ b ->
  Forall (fun r => IsValidAmount r.2 = true) (recipients_ b) -> coins_valid (utxos_ b) ->
  Forall (fun e => out_lock (coin_output (utxo_coin e)) = key_lock (input_key b e)) (utxos_ b) ->
  Forall spendable_outpoint (utxos_ b) -> Forall (fun e => Validation.mature p height (utxo_coin e)) (utxos_ b) ->
  Build b = Some utx -> Sign b utx = Some st ->
  stx_fee st = input_total utx - output_total (utx_tx utx) /\
  stx_tx st = with_tx_witnesses (utx_tx utx) (tx_witnesses (stx_tx st)) /\
  Validation.CheckTransactionInputs (stx_tx st) (utx_spent_coins utx) height p = Validation.Ok (stx_fee st) /\
  (NoDup (map utxo_outpoint (utxos_ b)) -> within_limits p (stx_tx st) -> Validation.CheckTransaction (stx_tx st) p = Validation.Accept).
Proof.
  intros Hb Hscheme Hchain Fr Fc Flock Fout Fmat Hbuild Hsign.
  destruct (Build_spec b utx Hb Hbuild) as (Hutx & Hsub & Hne & Ein & Hout & _). set (s := SelectCoins _ _ _) in *.
  assert (forall P : UtxoEntry -> Prop, Forall P (utxos_ b) -> Forall P (sel_inputs s)) as Hin.
  { intros P. rewrite !Forall_forall. intros HP e He. apply HP. by eapply elem_of_submseteq. }
  destruct (coins_valid_sub _ _ Hsub Fc) as [Fv Hmoney]. unfold Sign in Hsign.
  rewrite Hutx in Hsign. unfold built in Hsign at 1 2 3 4. cbn [utx_tx tx_inputs utx_spent_coins utx_input_private_keys] in Hsign.
  rewrite !zlen_map, Z.eqb_refl in Hsign. cbn [negb] in Hsign. rewrite <- Hutx in Hsign.
  destruct (sign_loop b _ 0 (utx_tx utx) _ _ _) as [tx'|] eqn:Eloop; [|done]. injection Hsign as <-. cbn [stx_fee stx_tx].
  apply sign_loop_spec in Eloop as (ws & -> & Hlen & Fw & Fok & Hauth).
  2-4: rewrite Hutx; unfold built; cbn [utx_spent_coins utx_input_private_keys utx_input_schemes].
  2-3: by rewrite !length_map.
  2: apply Forall_map_iff, Forall_true; intros _; rewrite Hscheme; done.
  assert (tx_witnesses (utx_tx utx) = []) as Ew by (by rewrite Hutx). rewrite Ew in *. cbn [app] in *.
  assert (Forall (fun o => IsValidAmount (out_amount o) = true) (tx_outputs (utx_tx utx))) as Fo.
  { rewrite Hutx. unfold built, change_outputs. cbn [utx_tx tx_outputs]. apply Forall_app. split; [by apply Forall_map_iff|].
    destruct ((_ >? 0) && _) eqn:Ec; [|constructor]. constructor; [|constructor]. cbn [out_amount]. apply IsValidAmount_spec.
    assert (sel_change s <= output_total (utx_tx utx)); [|rewrite Z.gtb_ltb in Ec; bprop; lia].
    rewrite Hutx. unfold output_total, built, change_outputs. cbn [utx_tx tx_outputs]. rewrite Ec, map_app, zsum_app, recipients_sum.
    destruct Hb as (_ & _ & (_ & ? & _)). cbn. lia. }
  assert (Forall (fun x => 0 <= x) (map (fun coin => out_amount (coin_output coin)) (utx_spent_coins utx))) as F1.
  { rewrite Hutx. unfold built. cbn [utx_spent_coins]. rewrite map_map. apply Forall_map_iff. eapply Forall_impl; [exact Fv|]. intros e He%IsValidAmount_spec. unfold amount in He. lia. }
  assert (Forall (fun x => 0 <= x) (map out_amount (tx_outputs (utx_tx utx)))) as F2.
  { apply Forall_map_iff. eapply Forall_impl; [exact Fo|]. intros o He%IsValidAmount_spec. lia. }
  assert (MAX_MONEY < 2 ^ 63) as Hmax by done. unfold input_total, output_total in *.
  assert (zsum (map (fun coin => out_amount (coin_output coin)) (utx_spent_coins utx)) <= MAX_MONEY) as Hmi by (rewrite Ein; exact Hmoney).
  assert (to_i64 (sum_i64 (map (fun coin => out_amount (coin_output coin)) (utx_spent_coins utx)) - sum_i64 (map out_amount (tx_outputs (utx_tx utx)))) =
    zsum (map (fun c => out_amount (coin_output c)) (utx_spent_coins utx)) - zsum (map out_amount (tx_outputs (utx_tx utx)))) as Efee.
  { rewrite !sum_i64_sum by (done || lia). apply to_i64_small. unfold i64. lia. }
  cbn [tx_outputs with_tx_witnesses]. rewrite Efee. split; [done|]. split; [done|].
  split.
  2:{ intros Hd%(distinct_sub _ _ Hsub) Lim.
      rewrite Hutx in *. apply signed_form; [done|by apply Hin|done| | |by apply Fok|done|cbn [tx_outputs with_tx_witnesses]; lia|done].
      - unfold built. cbn [utx_tx tx_outputs with_tx_witnesses]. destruct Hb as (_ & Hr & _). by destruct (recipients_ b).
      - rewrite Hlen. unfold built. cbn [utx_spent_coins]. by rewrite length_map. }
  apply Validation.CheckTransactionInputs_Ok; [done|]. unfold Validation.spend_valid. cbn [tx_inputs tx_witnesses tx_outputs with_tx_witnesses].
  split; [rewrite Hutx; by apply not_coinbase, Hin|].
  split; [rewrite Hutx; unfold built; cbn [utx_spent_coins utx_tx tx_inputs]; by rewrite !zlen_map|].
  split; [unfold zlen; rewrite Hlen, Hutx; unfold built; cbn [utx_spent_coins utx_tx tx_inputs]; by rewrite !length_map|].
  split; [rewrite Hutx; apply Forall_map_iff; by apply Hin|].
  split; [split; [|unfold Validation.spent_amounts; lia]|].
  { rewrite Hutx. unfold Validation.spent_amounts, built. cbn [utx_spent_coins]. rewrite map_map. by apply Forall_map_iff. }
  split; [split; [by apply Forall_map_iff|lia]|]. split; [unfold Validation.spent_amounts; lia|]. split; [lia|].
  rewrite all_authorised_witnesses. apply Hauth; [done|]. rewrite Hutx. unfold built. cbn [utx_spent_coins utx_input_private_keys].
  apply Forall2_fmap_l, Forall2_fmap_r, Forall_Forall2_diag. by apply Hin.
Qed.

(** ** Claims *)

(** What [Build] makes, while 64-bit sums do not overflow.  It gives a transaction exactly if some
    choice of the coins pays the recipients and the estimated fee.  The transaction
    spends coins of the wallet, none twice, pays every recipient in order, and has at most
    one more output: change of at least the dust threshold, to the lock of the first coin
    offered.  What it leaves as fee is at least the estimate for its inputs and exceeds that
    by less than the larger of the two dust bounds. *)
Theorem build_pays `{Sha256Impl} `{StdSort} (b : TxBuilder) : builder_ok b ->
  (is_Some (Build b) <-> exists S, S ⊆+ utxos_ b /\ S <> [] /\ pays (recipient_total b) (fee_rate_ b) S) /\
  forall utx, Build b = Some utx ->
    exists selected change, selected ⊆+ utxos_ b /\ selected <> [] /\
      tx_inputs (utx_tx utx) = map (fun e => mkTxInput (utxo_outpoint e) 0) selected /\
      utx_spent_coins utx = map utxo_coin selected /\
      tx_outputs (utx_tx utx) = map (fun r => mkTxOutput r.2 r.1) (recipients_ b) ++ change /\
      (change = [] \/ exists v, DUST_THRESHOLD <= v /\ change = [mkTxOutput v (change_lock b)]) /\
      let due := fee_rate_ b * EstimateTxWeight (zlen selected) 1 SIG_BYTES in
      due <= input_total utx - output_total (utx_tx utx) < due + Z.max DUST_THRESHOLD (DustForFeeRate (fee_rate_ b)).
Proof.
  intros Hb. pose proof Hb as (_ & _ & Hrange). split.
  - destruct (SelectCoins_spec _ _ _ Hrange) as [<- _]. split.
    + intros [utx Hu]. by apply Build_eq in Hu as [Hok _].
    + intros Hok. eexists. by apply Build_eq.
  - intros utx Hu. destruct (Build_spec b utx Hb Hu) as (Hutx & Hsub & Hne & _ & _ & Hfee). set (s := SelectCoins _ _ _) in *.
    exists (sel_inputs s), (change_outputs b (sel_change s)). do 2 (split; [done|]). rewrite Hutx in *. do 3 (split; [done|]). split; [|done].
    unfold change_outputs. destruct ((_ >? 0) && _) eqn:Ec; [right|by left]. rewrite Z.geb_leb in Ec. bprop. by eexists.
Qed.

(** What the wallet signs, the network accepts: for coins locked to keys derived from the
    seed for their account and index, a transaction that is built and signed under the
    Schnorr scheme passes the consensus rules for spending those coins (maturity, amounts
    and authorisation of every input), with exactly the fee the wallet reports. *)
Theorem signed_spend_valid `{Sha256Impl} `{StdSort} `{Signature.SignatureBackends} `{SigningBackends} `{!SigningLaws}
    (b : TxBuilder) (utx : UnsignedTx) (st : SignedTx) (p : ChainParams) (height : Z) :
  builder_ok b -> scheme_name_ b = SCHNORR_NAME -> chain_id p = chain_id_ b ->
  Forall (fun r => IsValidAmount r.2 = true) (recipients_ b) -> coins_valid (utxos_ b) ->
  Forall (fun e => out_lock (coin_output (utxo_coin e)) = key_lock (input_key b e)) (utxos_ b) ->
  Forall spendable_outpoint (utxos_ b) -> Forall (fun e => Validation.mature p height (utxo_coin e)) (utxos_ b) ->
  Build b = Some utx -> Sign b utx = Some st ->
  stx_fee st = input_total utx - output_total (utx_tx utx) /\
  Validation.CheckTransactionInputs (stx_tx st) (utx_spent_coins utx) height p = Validation.Ok (stx_fee st).
Proof. intros. edestruct Sign_valid as (? & _ & ? & _); eauto. Qed.

(** No other scheme can be signed for: under any scheme name but the Schnorr one, whatever
    is built, [Sign] refuses, since every input's key is the 32-byte Schnorr secret, which
    ML-DSA signing does not take. *)
Theorem other_schemes_unsignable `{Sha256Impl} `{StdSort} `{Signature.SignatureBackends} `{SigningBackends}
    (b : TxBuilder) (utx : UnsignedTx) :
  builder_ok b -> scheme_name_ b <> SCHNORR_NAME -> Build b = Some utx -> Sign b utx = None.
Proof.
  intros Hb Hname Hbuild. destruct (Build_spec b utx Hb Hbuild) as (-> & _ & Hne & _). set (s := SelectCoins _ _ _) in *.
  destruct (sel_inputs s) as [|e es] eqn:Es; [done|]. unfold Sign, built. rewrite Es. cbn [utx_tx tx_inputs utx_spent_coins utx_input_private_keys utx_input_schemes].
  rewrite !zlen_map, Z.eqb_refl. cbn [negb map sign_loop].
  assert (forall tx m i a c, SignInput b tx m i a c (input_key b e) (SchemeIdFromName (scheme_name_ b)) = None) as ->; [|done].
  intros tx m i a c. unfold SignInput, SchemeIdFromName. rewrite (bool_decide_false (scheme_name_ b = SCHNORR_NAME)) by done.
  destruct (bool_decide _).
  - cbn. unfold SignMldsa44. unfold input_key, DerivePrivkey. rewrite DeriveSecp256k1Key_length. by destruct (Signature.evp_fetch _).
  - by destruct (bool_decide _).
Qed.
(** ** Witnesses *)

#[local] Existing Instance toy_Sha256Impl.

Definition toy_utxo (index value : Z) : UtxoEntry :=
  mkUtxoEntry (mkOutPoint (repeat Byte.x09 32) index)
    (mkCoin (mkTxOutput value (key_lock (DerivePrivkey toy_key 0 index))) 1 false) true 0 index.

Definition toy_builder (scheme : bytes) : TxBuilder :=
  SetUtxos [toy_utxo 1 50000; toy_utxo 2 90000]
    (AddRecipient (mkLock 1 (repeat Byte.x03 32)) 40000 (SetChainId (chain_id REGTEST_PARAMS) (new_TxBuilder toy_key scheme 0))).

Definition no_utx : UnsignedTx := mkUnsignedTx toy_unsigned [] [] [].
Definition toy_utx : UnsignedTx := default no_utx (Build (toy_builder SCHNORR_NAME)).
Definition toy_signed : SignedTx := default (mkSignedTx toy_unsigned [] 0) (Sign (toy_builder SCHNORR_NAME) toy_utx).

Lemma toy_builder_ok scheme : builder_ok (toy_builder scheme).
Proof.
  split; [repeat constructor|]. split; [done|]. split; [repeat constructor; vm_compute; congruence|]. vm_compute. repeat split; congruence.
Qed.

Lemma build_pays_witness : is_Some (Build (toy_builder SCHNORR_NAME)).
Proof.
  apply (build_pays (toy_builder SCHNORR_NAME) (toy_builder_ok SCHNORR_NAME)). exists [toy_utxo 2 90000].
  split; [apply submseteq_cons; done|]. split; [done|]. vm_compute. congruence.
Defined.

Lemma signed_spend_valid_witness :
  Validation.CheckTransactionInputs (stx_tx toy_signed) (utx_spent_coins toy_utx) 5 REGTEST_PARAMS = Validation.Ok (stx_fee toy_signed).
Proof.
  apply (signed_spend_valid (toy_builder SCHNORR_NAME) toy_utx toy_signed REGTEST_PARAMS 5).
  - apply toy_builder_ok.
  - reflexivity.
  - reflexivity.
  - repeat constructor.
  - split; [repeat constructor|vm_compute; congruence].
  - repeat (constructor; [vm_compute; reflexivity|]). constructor.
  - repeat constructor; intros E; vm_compute in E; congruence.
  - repeat constructor; intros E; vm_compute in E; congruence.
  - vm_compute. reflexivity.
  - vm_compute. reflexivity.
Defined.

Definition toy_mldsa_utx : UnsignedTx := default no_utx (Build (toy_builder ML_DSA_NAME)).

Lemma other_schemes_unsignable_witness : Sign (toy_builder ML_DSA_NAME) toy_mldsa_utx = None.
Proof.
  apply (other_schemes_unsignable (toy_builder ML_DSA_NAME) toy_mldsa_utx (toy_builder_ok ML_DSA_NAME)).
  - discriminate.
  - vm_compute. reflexivity.
Defined.
End TxBuilder.
