(* ===== verification/WalletDb.v ===== *)
(** * The wallet's store (wallet/wallet.cpp) and its backup metadata (wallet/backup.cpp)

    The store keeps the encrypted seed, the birth height, accounts, transactions and
    metadata, and writes a JSON file after every change.  JSON text is a third-party
    library's: a parameter with its round trip.  Strings are lists of bytes. *)

From Stdlib Require Import String.
From S2P Require Import Prelude Overflow Serialize Hex Crypto Primitives.
From stdpp Require Import gmap list.
#[local] Open Scope Z_scope.

Abbreviation encode := Serialize.encode.

Module WalletDb.

Definition MAX_ACCOUNTS : Z := 64.

Record Account := mkAccount {
  label : bytes;
  scheme_name : bytes;
  account_id : Z;
  highest_derived : Z;
  gap_limit : Z }.

Record StoredTransaction := mkStoredTransaction {
  st_txid : bytes;
  st_height : Z;
  st_timestamp : Z;
  st_received : Z;
  st_sent : Z;
  st_fee : Z;
  st_raw_tx : bytes }.

(** ** The file *)

(** The JSON object that is written. *)
Record Root := mkRoot {
  root_version : Z;
  root_seed : bytes;
  root_birth_height : Z;
  root_accounts : list Account;
  root_metadata : gmap bytes bytes }.

(** [nlohmann::json]: an object as text, and what the code reads of a text; [None] is a
    discarded parse.  Text written is read back, for objects whose strings JSON can hold. *)
Class Json := {
  dump : Root -> bytes;
  parse : bytes -> option Root;
  representable : Root -> Prop;
  parse_dump r : representable r -> parse (dump r) = Some r }.

(** [WalletDb::Impl]; [path_] is whether there is a path and a file can be written there, and
    [file] what the file holds. *)
Record Impl := mkImpl {
  path_ : bool;
  file : option bytes;
  encrypted_seed : bytes;
  birth_height : Z;
  accounts : list Account;
  txs : gmap bytes StoredTransaction;
  metadata : gmap bytes bytes;
  has_seed : bool }.

Section db.
Context `{Sha256Impl} `{Json}.

Definition key_byte (key : bytes) (i : nat) : Z := b2z (default Byte.x00 (key !! (i mod 32)%nat)).

Definition SimpleEncrypt (data password : bytes) : bytes :=
  let key := Sha256 password in
  imap (fun i b => z2b (Z.lxor (b2z b) (key_byte key i))) data.

Definition SimpleDecrypt (data password : bytes) : bytes := SimpleEncrypt data password.

Definition root_of (db : Impl) : Root :=
  mkRoot 1 (Hex.ToHex (encrypted_seed db)) (birth_height db) (accounts db) (metadata db).

Definition Save (db : Impl) : Impl :=
  if negb (path_ db) then db
  else mkImpl (path_ db) (Some (dump (root_of db))) (encrypted_seed db) (birth_height db) (accounts db) (txs db) (metadata db) (has_seed db).

Definition Load (db : Impl) : Impl :=
  if negb (path_ db) then db
  else match file db with
  | None => db
  | Some text =>
      match parse text with
      | None => db
      | Some root =>
          if negb (root_version root =? 1) then db
          else match Hex.FromHex (root_seed root) with
          | None | Some [] => db
          | Some seed =>
              mkImpl (path_ db) (file db) seed (root_birth_height root) (accounts db ++ root_accounts root) (txs db)
                (root_metadata root) true
          end
      end
  end.

Definition empty_Impl (path : bool) (contents : option bytes) : Impl := mkImpl path contents [] 0 [] ∅ ∅ false.

Definition WalletDb_open (path : bool) (contents : option bytes) : Impl := Load (empty_Impl path contents).
Definition WalletDb_memory : Impl := empty_Impl false None.

(** ** Operations *)

Definition HasSeed (db : Impl) : bool := has_seed db.

Definition StoreSeed (seed password : bytes) (db : Impl) : Impl :=
  Save (mkImpl (path_ db) (file db) (SimpleEncrypt seed password) (birth_height db) (accounts db) (txs db) (metadata db) true).

Definition LoadSeed (password : bytes) (db : Impl) : option bytes :=
  if negb (has_seed db) then None else Some (SimpleDecrypt (encrypted_seed db) password).

Definition SetBirthHeight (height : Z) (db : Impl) : Impl :=
  Save (mkImpl (path_ db) (file db) (encrypted_seed db) height (accounts db) (txs db) (metadata db) (has_seed db)).
Definition BirthHeight (db : Impl) : Z := birth_height db.

Definition AccountCount (db : Impl) : Z := zlen (accounts db).
Definition GetAccount (index : Z) (db : Impl) : option Account :=
  if index >=? zlen (accounts db) then None else accounts db !! Z.to_nat index.

Definition with_accounts (l : list Account) (db : Impl) : Impl :=
  mkImpl (path_ db) (file db) (encrypted_seed db) (birth_height db) l (txs db) (metadata db) (has_seed db).

Definition AddAccount (account : Account) (db : Impl) : Impl :=
  if zlen (accounts db) >=? MAX_ACCOUNTS then db else Save (with_accounts (accounts db ++ [account]) db).

(** The first account of that id and scheme replaced, if there is one. *)
Fixpoint replace_account (account : Account) (l : list Account) : option (list Account) :=
  match l with
  | [] => None
  | a :: l =>
      if (account_id a =? account_id account) && bool_decide (scheme_name a = scheme_name account) then Some (account :: l)
      else option_map (cons a) (replace_account account l)
  end.

Definition UpdateAccount (account : Account) (db : Impl) : Impl :=
  match replace_account account (accounts db) with
  | Some l => Save (with_accounts l db)
  | None => db
  end.

Definition RemoveAccount (index : Z) (db : Impl) : Impl :=
  if index >=? zlen (accounts db) then db else Save (with_accounts (delete (Z.to_nat index) (accounts db)) db).

Definition TxCount (db : Impl) : Z := Z.of_nat (size (txs db)).
Definition GetTx (txid : bytes) (db : Impl) : option StoredTransaction := txs db !! txid.

Definition StoreTx (tx : StoredTransaction) (db : Impl) : Impl :=
  Save (mkImpl (path_ db) (file db) (encrypted_seed db) (birth_height db) (accounts db) (<[st_txid tx := tx]> (txs db)) (metadata db) (has_seed db)).

(** In the order of the hash table, of which nothing is said: the list is a permutation. *)
Definition ListTxs (db : Impl) : list StoredTransaction := map snd (map_to_list (txs db)).

Definition SetMetadata (key value : bytes) (db : Impl) : Impl :=
  Save (mkImpl (path_ db) (file db) (encrypted_seed db) (birth_height db) (accounts db) (txs db) (<[key := value]> (metadata db)) (has_seed db)).
Definition GetMetadata (key : bytes) (db : Impl) : option bytes := metadata db !! key.

(** ** Backup metadata *)

Definition Account_Serialise (a : Account) (w : Writer) : Writer :=
  WriteByteString (label a) (WriteU32 (wrapu 32 (gap_limit a)) (WriteU32 (highest_derived a)
    (WriteU32 (account_id a) (WriteByteString (scheme_name a) w)))).

Definition SerialiseMetadata (db : Impl) : bytes :=
  write_all Account_Serialise (accounts db) (WriteCompactSize (AccountCount db) (WriteU32 (BirthHeight db) new_Writer)).

Definition Account_Deserialise : Read Account :=
  scheme ← ReadByteString 64;
  id ← ReadU32;
  highest ← ReadU32;
  gap ← ReadU32;
  label ← ReadByteString 128;
  mret (mkAccount label scheme id highest gap).

(** The loop over accounts, each added as it is read. *)
Fixpoint read_accounts (count : nat) (r : Reader) (db : Impl) : bool * Reader * Impl :=
  match count with
  | O => (true, r, db)
  | S count =>
      match Account_Deserialise r with
      | (Some account, r) => read_accounts count r (AddAccount account db)
      | (None, r) => (false, r, db)
      end
  end.

Definition DeserialiseMetadata (data : bytes) (db : Impl) : bool * Impl :=
  match ReadU32 (new_Reader data) with
  | (None, _) => (false, db)
  | (Some height, r) =>
      let db := SetBirthHeight height db in
      match ReadCompactSize 1 r with
      | (None, _) => (false, db)
      | (Some acct_count, r) =>
          let '(ok, r, db) := read_accounts (Z.to_nat acct_count) r db in
          if ok then ((Finish r).1, db) else (false, db)
      end
  end.

End db.

(** ** Lemmas: metadata *)

(** An account whose strings the reader takes, when it takes [ms] bytes of scheme name and
    [ml] of label. *)
Definition account_fits (ms ml : Z) (a : Account) : Prop :=
  zlen (scheme_name a) <= ms /\ u32 (account_id a) /\ u32 (highest_derived a) /\ u32 (gap_limit a) /\ zlen (label a) <= ml.

Definition read_account (ms ml : Z) : Read Account :=
  scheme ← ReadByteString ms;
  id ← ReadU32;
  highest ← ReadU32;
  gap ← ReadU32;
  label ← ReadByteString ml;
  mret (mkAccount label scheme id highest gap).

#[global] Instance appends_Account a : Appends (Account_Serialise a).
Proof. solve_appends Account_Serialise. Qed.

Lemma flat_Account a : encode Account_Serialise a =
  encode WriteByteString (scheme_name a) ++ encode WriteU32 (account_id a) ++ encode WriteU32 (highest_derived a) ++
  encode WriteU32 (wrapu 32 (gap_limit a)) ++ encode WriteByteString (label a) ++ [].
Proof. flat_enc Account_Serialise. Qed.

Lemma codec_Account ms ml : ms < 2 ^ 64 -> ml < 2 ^ 64 -> Codec (encode Account_Serialise) (read_account ms ml) (account_fits ms ml).
Proof.
  intros Hs Hl. pose proof (codec_ByteString ms Hs) as Cs. pose proof (codec_ByteString ml Hl) as Cl.
  eapply (codec_reenc (fun a => encode WriteByteString (scheme_name a) ++ encode WriteU32 (account_id a) ++
    encode WriteU32 (highest_derived a) ++ encode WriteU32 (gap_limit a) ++ encode WriteByteString (label a) ++ [])).
  - eapply codec_struct; [|done]. field scheme_name. field account_id. field highest_derived. field gap_limit. field label. struct_done.
  - intros a (_ & _ & _ & Hg & _). rewrite flat_Account, wrapu_small by exact Hg. done.
Qed.
Definition accounts_reader (ms ml : Z) : Read (list Account) :=
  n ← ReadCompactSize 1; read_many (read_account ms ml) (Z.to_nat n).

Definition meta_reader (ms ml : Z) : Read (Z * list Account) :=
  h ← ReadU32; l ← accounts_reader ms ml; mret (h, l).

Definition accounts_bytes (l : list Account) : bytes := encode WriteCompactSize (zlen l) ++ write_all Account_Serialise l [].
Definition meta_bytes (m : Z * list Account) : bytes := encode WriteU32 m.1 ++ accounts_bytes m.2.

Definition meta_ok (ms ml : Z) (m : Z * list Account) : Prop := u32 m.1 /\ Forall (account_fits ms ml) m.2 /\ zlen m.2 < 2 ^ 64.

Lemma Account_min a : 1 <= zlen (encode Account_Serialise a).
Proof.
  rewrite flat_Account, !zlen_app, !zlen_U32. pose proof (zlen_nonneg (encode WriteByteString (scheme_name a))).
  pose proof (zlen_nonneg (encode WriteByteString (label a) ++ [])). rewrite zlen_app in *. lia.
Qed.

Lemma codec_accounts ms ml : ms < 2 ^ 64 -> ml < 2 ^ 64 ->
  Codec accounts_bytes (accounts_reader ms ml) (fun l => Forall (account_fits ms ml) l /\ zlen l <= 2 ^ 64 - 1).
Proof.
  intros Hs Hl. eapply (codec_counted (ReadCompactSize 1) (2 ^ 64 - 1) 1 (fun n => read_many (read_account ms ml) (Z.to_nat n))
    (fun l => write_all Account_Serialise l []) zlen (Forall (account_fits ms ml))).
  - by apply ReadCompactSize_prefix.
  - lia.
  - intros n Hn. eapply codec_proper; [apply (codec_read_many _ _ _ (Happ := appends_Account) (codec_Account ms ml Hs Hl))| |done].
    intros l. cbv beta. split; intros []; split; try done; mlia.
  - intros l W. split; [apply zlen_nonneg|]. apply (write_all_size _ (account_fits ms ml) (Happ := appends_Account)); [|done]. intros a _. apply Account_min.
Qed.

Lemma codec_meta ms ml : ms < 2 ^ 64 -> ml < 2 ^ 64 -> Codec meta_bytes (meta_reader ms ml) (meta_ok ms ml).
Proof.
  intros Hs Hl. pose proof (codec_accounts ms ml Hs Hl) as Ca. eapply (codec_struct _ (fun m => encode WriteU32 m.1 ++ accounts_bytes m.2 ++ [])).
  - eapply (codec_field fst); [apply _|intros h Hh|by intros b _ (? & _)].
    eapply (codec_field snd); [exact Ca|intros l Hl'|intros b _ (_ & ? & ?); split; [done|lia]].
    apply codec_done; [done|unfold meta_ok; cbn; split; [done|]; destruct Hl'; split; [done|lia]|]. intros [] [[_ ?] ?] _. cbn in *. by subst.
  - intros b. unfold meta_bytes. by rewrite app_nil_r.
Qed.

Section metadata.
Context `{Sha256Impl} `{Json}.

Definition add_all (l : list Account) (db : Impl) : Impl := foldl (fun db a => AddAccount a db) db l.

Lemma SerialiseMetadata_eq db : SerialiseMetadata db = meta_bytes (birth_height db, accounts db).
Proof.
  unfold SerialiseMetadata, AccountCount, BirthHeight, meta_bytes, accounts_bytes. cbn [fst snd].
  rewrite (snoc_vector Account_Serialise (accounts db) _ appends_Account), (encode_write_vector _ _ appends_Account). done.
Qed.

Lemma read_accounts_many n : forall r db,
  match read_many Account_Deserialise n r with
  | (Some l, r') => read_accounts n r db = (true, r', add_all l db)
  | (None, _) => (read_accounts n r db).1.1 = false
  end.
Proof.
  induction n as [|n IH]; intros r db; [done|]. cbn [read_many read_accounts]. unfold mbind, read_bind at 1.
  destruct (Account_Deserialise r) as [[a|] r1]; [|done]. specialize (IH r1 (AddAccount a db)).
  unfold mbind, read_bind. destruct (read_many Account_Deserialise n r1) as [[l|] r2]; [|done]. exact IH.
Qed.

Lemma DeserialiseMetadata_parse data db :
  match Parse (meta_reader 64 128) data with
  | Some (h, l) => DeserialiseMetadata data db = (true, add_all l (SetBirthHeight h db))
  | None => (DeserialiseMetadata data db).1 = false
  end.
Proof.
  unfold Parse, DeserialiseMetadata, meta_reader, accounts_reader, mbind, read_bind.
  destruct (ReadU32 (new_Reader data)) as [[h|] r]; [|done]. destruct (ReadCompactSize 1 r) as [[n|] r1]; [|done].
  pose proof (read_accounts_many (Z.to_nat n) r1 (SetBirthHeight h db)) as E. change (read_account 64 128) with Account_Deserialise.
  destruct (read_many Account_Deserialise (Z.to_nat n) r1) as [[l|] r2].
  - rewrite E. cbn. destruct (Finish r2) as [ok r3] eqn:Ef. unfold Finish in Ef. injection Ef as <- <-. cbn. by destruct (ok_ _).
  - destruct (read_accounts (Z.to_nat n) r1 (SetBirthHeight h db)) as [[ok r3] db3]. cbn in E. by rewrite E.
Qed.

Lemma Save_fields db : encrypted_seed (Save db) = encrypted_seed db /\ birth_height (Save db) = birth_height db /\ accounts (Save db) = accounts db /\
  txs (Save db) = txs db /\ metadata (Save db) = metadata db /\ has_seed (Save db) = has_seed db /\ path_ (Save db) = path_ db.
Proof. unfold Save. destruct (negb (path_ db)); done. Qed.

Lemma AddAccount_fields a db : zlen (accounts db) < MAX_ACCOUNTS ->
  accounts (AddAccount a db) = accounts db ++ [a] /\ birth_height (AddAccount a db) = birth_height db /\
  encrypted_seed (AddAccount a db) = encrypted_seed db /\ txs (AddAccount a db) = txs db /\ metadata (AddAccount a db) = metadata db.
Proof.
  intros Hn. unfold AddAccount. destruct (Z.geb_spec (zlen (accounts db)) MAX_ACCOUNTS); [lia|].
  destruct (Save_fields (with_accounts (accounts db ++ [a]) db)) as (-> & -> & -> & -> & -> & _). done.
Qed.

Lemma add_all_fields l : forall db, zlen (accounts db) + zlen l <= MAX_ACCOUNTS ->
  accounts (add_all l db) = accounts db ++ l /\ birth_height (add_all l db) = birth_height db /\
  encrypted_seed (add_all l db) = encrypted_seed db /\ txs (add_all l db) = txs db /\ metadata (add_all l db) = metadata db.
Proof.
  induction l as [|a l IH]; intros db Hn; [by rewrite app_nil_r|]. rewrite zlen_cons in Hn. pose proof (zlen_nonneg l).
  destruct (AddAccount_fields a db ltac:(lia)) as (E1 & E2 & E3 & E4 & E5). unfold add_all in *. cbn [foldl].
  destruct (IH (AddAccount a db)) as (-> & -> & -> & -> & ->); [rewrite E1; autorewrite with amarian; lia|]. rewrite E1, <- app_assoc. done.
Qed.

End metadata.

(** ** Lemmas: the seed at rest *)

Section seed.
Context `{Sha256Impl} `{Json}.

Lemma SimpleEncrypt_lookup data pw i : SimpleEncrypt data pw !! i = (fun b => z2b (Z.lxor (b2z b) (key_byte (Sha256 pw) i))) <$> data !! i.
Proof. unfold SimpleEncrypt. apply list_lookup_imap. Qed.

Lemma SimpleEncrypt_length data pw : length (SimpleEncrypt data pw) = length data.
Proof. apply length_imap. Qed.

Lemma key_byte_range key i : 0 <= key_byte key i < 256.
Proof. apply b2z_range. Qed.

Lemma xor_byte b x : 0 <= x < 256 -> b2z (z2b (Z.lxor (b2z b) x)) = Z.lxor (b2z b) x.
Proof.
  intros Hx. apply b2z_z2b_small. pose proof (b2z_range b) as Hb. pose proof (Hex.lxor_byte_range b (z2b x)) as H'.
  rewrite b2z_z2b_small in H' by done. done.
Qed.

(** Decryption under any password gives a seed of the same size; the same one if the two
    passwords have one key, which for a 32-byte seed is the only way. *)
Lemma decrypt_spec seed pw pw' : let out := SimpleDecrypt (SimpleEncrypt seed pw) pw' in
  zlen out = zlen seed /\ (zlen seed = 32 -> out = seed <-> Sha256 pw' = Sha256 pw) /\ (Sha256 pw' = Sha256 pw -> out = seed).
Proof.
  intros out. assert (length out = length seed) as Hl by (unfold out, SimpleDecrypt; by rewrite !SimpleEncrypt_length).
  assert (forall i b, seed !! i = Some b -> exists c, out !! i = Some c /\ b2z c = Z.lxor (Z.lxor (b2z b) (key_byte (Sha256 pw) i)) (key_byte (Sha256 pw') i)) as Hout.
  { intros i b Hb. unfold out, SimpleDecrypt. rewrite !SimpleEncrypt_lookup, Hb. eexists. split; [done|].
    rewrite !xor_byte by apply key_byte_range. done. }
  assert (Sha256 pw' = Sha256 pw -> out = seed) as Hsame.
  { intros E. apply list_eq_same_length with (length seed); [done..|]. intros i x y _ Hx Hy. destruct (Hout i y Hy) as (c & Hc & Ec).
    rewrite Hc in Hx. injection Hx as ->. apply b2z_inj. rewrite Ec, E, Z.lxor_assoc, Z.lxor_nilpotent, Z.lxor_0_r. done. }
  split; [unfold zlen; lia|]. split; [|done]. intros Hs. split; [|done]. intros E.
  pose proof (SHA256_length pw) as H1. pose proof (SHA256_length pw') as H2. unfold Sha256, Digest in *. unfold zlen in *.
  apply list_eq_same_length with 32%nat; [lia..|]. intros i x y Hi Hx Hy.
  destruct (lookup_lt_is_Some_2 seed i) as [b Hb]; [lia|]. destruct (Hout i b Hb) as (c & Hc & Ec). rewrite E, Hb in Hc. injection Hc as <-.
  unfold key_byte in Ec. rewrite Nat.mod_small, Hx, Hy in Ec by lia. cbn in Ec. apply b2z_inj.
  apply Z.lxor_eq. rewrite Z.lxor_assoc in Ec. apply (f_equal (Z.lxor (b2z b))) in Ec.
  rewrite <- (Z.lxor_assoc (b2z b) (b2z b)), Z.lxor_nilpotent, Z.lxor_0_l in Ec. rewrite Z.lxor_comm. done.
Qed.

End seed.
(** ** Lemmas: the file follows the store *)

Section file.
Context `{Sha256Impl} `{Json}.

(** The operations that change the store. *)
Inductive Op :=
  | OpStoreSeed (seed password : bytes)
  | OpSetBirthHeight (height : Z)
  | OpAddAccount (account : Account)
  | OpUpdateAccount (account : Account)
  | OpRemoveAccount (index : Z)
  | OpStoreTx (tx : StoredTransaction)
  | OpSetMetadata (key value : bytes).

Definition exec (op : Op) : Impl -> Impl :=
  match op with
  | OpStoreSeed seed password => StoreSeed seed password
  | OpSetBirthHeight height => SetBirthHeight height
  | OpAddAccount account => AddAccount account
  | OpUpdateAccount account => UpdateAccount account
  | OpRemoveAccount index => RemoveAccount index
  | OpStoreTx tx => StoreTx tx
  | OpSetMetadata key value => SetMetadata key value
  end.

Definition exec_all (ops : list Op) (db : Impl) : Impl := foldl (fun db op => exec op db) db ops.

Definition synced (db : Impl) : Prop := path_ db = true /\ file db = Some (dump (root_of db)) /\ has_seed db = true /\ zlen (accounts db) <= MAX_ACCOUNTS.

Lemma Save_synced db : path_ db = true -> has_seed db = true -> zlen (accounts db) <= MAX_ACCOUNTS -> synced (Save db).
Proof. unfold Save. intros Hp Hs Hn. rewrite Hp. cbn. by split. Qed.

Lemma replace_account_length a l l' : replace_account a l = Some l' -> length l' = length l.
Proof.
  revert l'. induction l as [|x l IH]; intros l' E; cbn [replace_account] in E; [done|]. destruct (_ && _); [by injection E as <-|].
  destruct (replace_account a l) as [k|]; [|done]. injection E as <-. cbn. by rewrite (IH k).
Qed.

Lemma exec_synced op db : synced db -> synced (exec op db).
Proof.
  intros (Hp & Hf & Hs & Hn).
  destruct op; cbn [exec]; unfold StoreSeed, SetBirthHeight, AddAccount, UpdateAccount, RemoveAccount, StoreTx, SetMetadata;
    try (apply Save_synced; done).
  - destruct (Z.geb_spec (zlen (accounts db)) MAX_ACCOUNTS); [by split|]. apply Save_synced; try done. cbn. autorewrite with amarian. lia.
  - destruct (replace_account _ _) as [l|] eqn:E; [|by split]. apply Save_synced; try done. cbn. apply replace_account_length in E. unfold zlen in *. lia.
  - destruct (Z.geb_spec index (zlen (accounts db))); [by split|]. apply Save_synced; try done. cbn. unfold zlen in *.
    pose proof (sublist_length _ _ (sublist_delete (accounts db) (Z.to_nat index))). lia.
Qed.

Lemma exec_all_synced ops : forall db, synced db -> synced (exec_all ops db).
Proof. unfold exec_all. induction ops as [|op ops IH]; intros db Hd; [done|]. cbn [foldl]. apply IH. by apply exec_synced. Qed.

Definition forget_txs (db : Impl) : Impl :=
  mkImpl (path_ db) (file db) (encrypted_seed db) (birth_height db) (accounts db) ∅ (metadata db) (has_seed db).

Lemma reopen_synced db : synced db -> representable (root_of db) -> encrypted_seed db <> [] -> WalletDb_open true (file db) = forget_txs db.
Proof.
  intros (Hp & Hf & Hs & _) Hr Hne. unfold WalletDb_open, Load, empty_Impl. cbn [path_ negb file]. rewrite Hf, parse_dump by done.
  cbn [root_of root_version root_seed]. change (1 =? 1) with true. cbn [negb].
  assert (Hex.FromHex (Hex.ToHex (encrypted_seed db)) = Some (encrypted_seed db)) as ->.
  { unfold Hex.FromHex. rewrite Hex.zlen_ToHex, Z.mul_comm, Z.mod_mul by lia. apply Hex.from_hex_loop_ToHex. }
  unfold forget_txs. rewrite Hp, Hf, Hs. destruct (encrypted_seed db) eqn:E; [done|]. unfold root_of. rewrite E. done.
Qed.
End file.

Lemma DeserialiseMetadata_spec `{Sha256Impl} `{Json} (db db' : Impl) :
  u32 (birth_height db) -> zlen (SerialiseMetadata db) < 2 ^ 64 -> zlen (accounts db) < 2 ^ 64 ->
  Forall (account_fits (2 ^ 63) (2 ^ 63)) (accounts db) ->
  let '(ok, out) := DeserialiseMetadata (SerialiseMetadata db) db' in
  (ok = true <-> Forall (account_fits 64 128) (accounts db)) /\
  (ok = true -> zlen (accounts db') + zlen (accounts db) <= MAX_ACCOUNTS ->
   accounts out = accounts db' ++ accounts db /\ birth_height out = birth_height db /\
   encrypted_seed out = encrypted_seed db' /\ txs out = txs db' /\ metadata out = metadata db').
Proof.
  intros Hb Hlen Hn F. pose proof (DeserialiseMetadata_parse (SerialiseMetadata db) db') as E. rewrite SerialiseMetadata_eq in *.
  set (m := (birth_height db, accounts db)) in *.
  assert (meta_ok (2 ^ 63) (2 ^ 63) m) as Wm by done.
  destruct (Parse (meta_reader 64 128) (meta_bytes m)) as [[h l]|] eqn:Ep.
  - apply (codec_parse _ _ _ (codec_meta 64 128 ltac:(lia) ltac:(lia))) in Ep as [W Eb]; [|done]. rewrite E.
    assert (m = (h, l)) as Em.
    { apply (codec_inj _ _ _ (codec_meta (2 ^ 63) (2 ^ 63) ltac:(lia) ltac:(lia)) m (h, l) [] []); try done; rewrite ?app_nil_r; try done.
      destruct W as (? & Fl & ?). split; [done|]. split; [|done]. eapply Forall_impl; [exact Fl|]. intros a (? & ? & ? & ? & ?). unfold account_fits. split_and!; done || lia. }
    injection Em as <- <-. destruct W as (_ & Fl & _). split; [done|]. intros _ Hroom.
    destruct (Save_fields (mkImpl (path_ db') (file db') (encrypted_seed db') (birth_height db) (accounts db') (txs db') (metadata db') (has_seed db')))
      as (E1 & E2 & E3 & E4 & E5 & _). fold (SetBirthHeight (birth_height db) db') in E1, E2, E3, E4, E5. cbn in E1, E2, E3, E4, E5.
    destruct (add_all_fields (accounts db) (SetBirthHeight (birth_height db) db')) as (-> & -> & -> & -> & ->); [by rewrite E3|].
    by rewrite E1, E2, E3, E4, E5.
  - destruct (DeserialiseMetadata (meta_bytes m) db') as [ok out]. cbn in E. subst ok. split; [|done]. split; [done|]. intros Fl.
    assert (Parse (meta_reader 64 128) (meta_bytes m) = Some m) as E'; [|congruence].
    apply (codec_parse _ _ _ (codec_meta 64 128 ltac:(lia) ltac:(lia))); [done|]. done.
Qed.

(** ** Claims *)

(** Backup metadata: what [SerialiseMetadata] writes of a store, [DeserialiseMetadata]
    takes exactly if every scheme name has at most 64 and every label at most 128 bytes,
    which nothing that stores an account checks.  Then, if there is room for them, the
    accounts come after those the store already has, the birth height is replaced, and
    nothing else changes: key-value metadata is not part of a backup. *)
Theorem metadata_roundtrip `{Sha256Impl} `{Json} (db db' : Impl) :
  u32 (birth_height db) -> zlen (SerialiseMetadata db) < 2 ^ 64 -> zlen (accounts db) < 2 ^ 64 ->
  Forall (account_fits (2 ^ 63) (2 ^ 63)) (accounts db) ->
  let '(ok, out) := DeserialiseMetadata (SerialiseMetadata db) db' in
  (ok = true <-> Forall (account_fits 64 128) (accounts db)) /\
  (ok = true -> zlen (accounts db') + zlen (accounts db) <= MAX_ACCOUNTS ->
   accounts out = accounts db' ++ accounts db /\ birth_height out = birth_height db /\
   encrypted_seed out = encrypted_seed db' /\ txs out = txs db' /\ metadata out = metadata db').
Proof. apply DeserialiseMetadata_spec. Qed.

(** The seed at rest opens under every password, and under a wrong one it is another
    seed: [LoadSeed] gives a seed of the same size whatever the password; a 32-byte seed is
    the one stored exactly if the passwords have the same SHA-256. *)
Theorem seed_opens_under_any_password `{Sha256Impl} `{Json} (db : Impl) (seed password other : bytes) :
  LoadSeed password (StoreSeed seed password db) = Some seed /\
  exists out, LoadSeed other (StoreSeed seed password db) = Some out /\ zlen out = zlen seed /\
    (zlen seed = 32 -> out = seed <-> Sha256 other = Sha256 password).
Proof.
  assert (forall pw, LoadSeed pw (StoreSeed seed password db) = Some (SimpleDecrypt (SimpleEncrypt seed password) pw)) as E.
  { intros pw. unfold LoadSeed, StoreSeed. set (d := mkImpl _ _ _ _ _ _ _ _). destruct (Save_fields d) as (-> & _ & _ & _ & _ & -> & _). done. }
  rewrite !E. destruct (decrypt_spec seed password password) as (_ & _ & ->); [|done]. split; [done|].
  destruct (decrypt_spec seed password other) as (Hl & Hiff & _). eexists. split; [done|]. by split.
Qed.

(** A wallet that is opened again is the one that was left, but for its transactions:
    after a seed is stored and any operations follow, opening the file gives the same
    seed, birth height, accounts (never more than 64) and metadata, and no transactions. *)
Theorem wallet_reopens `{Sha256Impl} `{Json} (db : Impl) (seed password : bytes) (ops : list Op) :
  path_ db = true -> zlen (accounts db) <= MAX_ACCOUNTS ->
  let db' := exec_all ops (StoreSeed seed password db) in
  encrypted_seed db' <> [] -> representable (root_of db') ->
  WalletDb_open true (file db') = forget_txs db' /\ zlen (accounts db') <= MAX_ACCOUNTS.
Proof.
  intros Hp Hn db' Hne Hr. assert (synced db') as Hsync.
  { unfold db'. apply exec_all_synced. by apply Save_synced. }
  split; [by apply reopen_synced|]. apply Hsync.
Qed.

(** ** Witnesses *)

#[local] Existing Instance toy_Sha256Impl.

Definition sample_account : Account := mkAccount (str "Everyday Spending") (str "schnorr-secp256k1") 0 3 20.
Definition sample_db : Impl := mkImpl true None [] 7 [sample_account] ∅ ∅ false.
Definition sample_seed : bytes := repeat Byte.x11 32.

(** Text for one root, enough to show that the law can hold. *)
Definition sample_root : Root := mkRoot 1 (Hex.ToHex (SimpleEncrypt sample_seed (str "secret"))) 7 [sample_account] ∅.
Definition toy_Json : Json :=
  {| dump _ := []; parse _ := Some sample_root; representable r := r = sample_root; parse_dump r E := f_equal Some (eq_sym E) |}.
#[local] Existing Instance toy_Json.

Lemma metadata_roundtrip_witness : (DeserialiseMetadata (SerialiseMetadata sample_db) WalletDb_memory).1 = true.
Proof.
  assert (Forall (account_fits (2 ^ 63) (2 ^ 63)) [sample_account]) as F by (repeat constructor; vm_compute; congruence).
  assert (Forall (account_fits 64 128) [sample_account]) as Fs by (repeat constructor; vm_compute; congruence).
  pose proof (metadata_roundtrip sample_db WalletDb_memory ltac:(unfold u32; cbn; lia) eq_refl eq_refl F) as M.
  destruct (DeserialiseMetadata (SerialiseMetadata sample_db) WalletDb_memory) as [ok out]. exact (proj2 (proj1 M) Fs).
Defined.

Lemma wallet_reopens_witness :
  WalletDb_open true (file (StoreSeed sample_seed (str "secret") sample_db)) = forget_txs (StoreSeed sample_seed (str "secret") sample_db).
Proof.
  apply (wallet_reopens sample_db sample_seed (str "secret") []).
  - reflexivity.
  - vm_compute. congruence.
  - vm_compute. congruence.
  - reflexivity.
Defined.

End WalletDb.
