(* ===== verification/Wallet.v ===== *)
(** * The wallet (wallet/wallet_api.cpp)

    Addresses, scanning of the chain, sending, backup and restore, over the store, the
    transaction builder, addresses and recovery phrases. *)

From Stdlib Require Import String.
From S2P Require Import Prelude Overflow Serialize Hex Crypto Primitives Params Sighash Validation Address CoinSelection Mnemonic Signing TxBuilder WalletDb.
From stdpp Require Import gmap list.
#[local] Open Scope Z_scope.
Import Params.Params CoinSelection.CoinSelection Signing.Signing WalletDb.WalletDb.

Abbreviation encode := Serialize.encode.

Module Wallet.

Definition DEFAULT_HRP : bytes := str "amr".
Definition TEST_HRP : bytes := str "tamr".
Definition DEFAULT_ACCOUNT : Z := 0.
Definition DEFAULT_SCHEME : bytes := str "schnorr-secp256k1".

Definition HrpFor (params : ChainParams) : bytes :=
  match network params with
  | Regtest | Testnet => TEST_HRP
  | Mainnet => DEFAULT_HRP
  end.

Record Balance := mkBalance { confirmed : Z; pending : Z }.
Definition Total (b : Balance) : Z := to_i64 (confirmed b + pending b).

Record AddressInfo := mkAddressInfo { info_address : bytes; info_lock : Lock; info_account_id : Z; info_index : Z }.
Record SendResult := mkSendResult { res_txid : bytes; res_fee : Z; res_raw_tx_hex : bytes }.
Record WalletBackup := mkWalletBackup { backup_mnemonic : list string; backup_metadata : bytes }.

Record Wallet := mkWallet {
  seed_ : bytes;
  db_ : Impl;
  balance_ : Balance;
  params_ : ChainParams;
  utxos_ : list UtxoEntry;
  tip_height_ : Z;
  fee_preference_ : bytes;
  node_url_ : bytes }.

(** One of the wallet's own locks. *)
Record OwnedLock := mkOwnedLock { own_lock : Lock; own_account : Z; own_index : Z }.

Definition to_i32 (z : Z) : Z := (z + 2 ^ 31) mod 2 ^ 32 - 2 ^ 31.

Definition with_db (db : Impl) (w : Wallet) : Wallet :=
  mkWallet (seed_ w) db (balance_ w) (params_ w) (utxos_ w) (tip_height_ w) (fee_preference_ w) (node_url_ w).
Definition with_seed (seed : bytes) (w : Wallet) : Wallet :=
  mkWallet seed (db_ w) (balance_ w) (params_ w) (utxos_ w) (tip_height_ w) (fee_preference_ w) (node_url_ w).

Definition SetBalance (balance : Balance) (w : Wallet) : Wallet :=
  mkWallet (seed_ w) (db_ w) balance (params_ w) (utxos_ w) (tip_height_ w) (fee_preference_ w) (node_url_ w).
Definition SetFeePreference (preference : bytes) (w : Wallet) : Wallet :=
  mkWallet (seed_ w) (db_ w) (balance_ w) (params_ w) (utxos_ w) (tip_height_ w) preference (node_url_ w).
Definition SetNodeUrl (url : bytes) (w : Wallet) : Wallet :=
  mkWallet (seed_ w) (db_ w) (balance_ w) (params_ w) (utxos_ w) (tip_height_ w) (fee_preference_ w) url.

(** ** Scanning: the outputs a transaction spends and receives *)

Definition is_outpoint (o : OutPoint) (e : UtxoEntry) : bool := bool_decide (utxo_outpoint e = o).

(** One input: every entry of that outpoint goes. *)
Definition spend_input (acc : list UtxoEntry * Z * bool) (input : TxInput) : list UtxoEntry * Z * bool :=
  let '(utxos, my_spent, touches) := acc in
  let spent := List.filter (is_outpoint (in_outpoint input)) utxos in
  (List.filter (fun e => negb (is_outpoint (in_outpoint input) e)) utxos,
   foldl (fun total e => to_i64 (total + amount e)) my_spent spent,
   touches || negb (bool_decide (spent = []))).

(** The first of the wallet's locks an output has. *)
Definition owner (owned : list OwnedLock) (lock : Lock) : option OwnedLock :=
  List.find (fun o => bool_decide (lock = own_lock o)) owned.

Fixpoint receive_outputs (owned : list OwnedLock) (txid : bytes) (height : Z) (is_coinbase : bool) (output_index : Z)
    (outputs : list TxOutput) (acc : list UtxoEntry * Z * bool) : list UtxoEntry * Z * bool :=
  match outputs with
  | [] => acc
  | output :: outputs =>
      let '(utxos, my_received, touches) := acc in
      let acc :=
        match owner owned (out_lock output) with
        | None => acc
        | Some o =>
            (utxos ++ [mkUtxoEntry (mkOutPoint txid (wrapu 32 output_index)) (mkCoin output height is_coinbase) true (own_account o) (own_index o)],
             to_i64 (my_received + out_amount output), true)
        end in
      receive_outputs owned txid height is_coinbase (output_index + 1) outputs acc
  end.

Section wallet.
Context `{Sha256Impl} `{Json} `{StdSort} `{Signature.SignatureBackends} `{SigningBackends}.

(** ** Opening *)

(** [RandomBytes] into a zeroed array, its failure ignored. *)
Definition GenerateSeed (entropy : option bytes) : bytes := default (repeat Byte.x00 32) entropy.

Definition default_account : Account := mkAccount (str "Everyday Spending") DEFAULT_SCHEME DEFAULT_ACCOUNT 0 20.

Definition new_Wallet (path : bool) (contents : option bytes) (password : bytes) (params : ChainParams) (entropy : option bytes) : Wallet :=
  let db := WalletDb_open path contents in
  let fresh :=
    let seed := GenerateSeed entropy in
    let db := AddAccount default_account (SetBirthHeight 0 (StoreSeed seed password db)) in
    mkWallet seed db (mkBalance 0 0) params [] 0 (str "normal") [] in
  if HasSeed db then
    match LoadSeed password db with
    | Some stored => if zlen stored =? 32 then mkWallet stored db (mkBalance 0 0) params [] 0 (str "normal") [] else fresh
    | None => fresh
    end
  else fresh.

Definition Open (path : bool) (contents : option bytes) (password : bytes) (params : ChainParams) (entropy : option bytes) : option Wallet :=
  let wallet := new_Wallet path contents password params entropy in
  if negb (HasSeed (db_ wallet)) then None
  else match LoadSeed password (db_ wallet) with
  | Some seed_bytes =>
      if negb (zlen seed_bytes =? 32) then None
      else Some (with_seed seed_bytes wallet)
  | None => None
  end.

(** ** Addresses *)

Definition UNKNOWN_LOCK : Lock := mkLock 1 (repeat Byte.x00 32).

Definition DeriveLock (account_id index : Z) (w : Wallet) : Lock :=
  match GetAccount account_id (db_ w) with
  | None => UNKNOWN_LOCK
  | Some _ =>
      let key_bytes := DeriveSecp256k1Key (seed_ w) account_id index in
      match GenerateSchnorrKey key_bytes with
      | None => UNKNOWN_LOCK
      | Some keypair =>
          let condition := mkSpendCondition 1 1 [mkPublicKey Signature.SCHEME_SCHNORR_SECP256K1 (public_key keypair)] in
          mkLock LOCK_VERSION_CONDITION_COMMITMENT (Sighash.SpendConditionCommitment condition)
      end
  end.

Definition address_info (account_id index : Z) (w : Wallet) : AddressInfo :=
  let lock := DeriveLock account_id index w in
  mkAddressInfo (default [] (Address.LockToAddress lock (HrpFor (params_ w)))) lock account_id index.

Definition no_address : AddressInfo := mkAddressInfo [] (mkLock 0 []) 0 0.

Definition GetNewAddress (account_id : Z) (w : Wallet) : AddressInfo * Wallet :=
  match GetAccount account_id (db_ w) with
  | None => (no_address, w)
  | Some acct =>
      let index := wrapu 32 (highest_derived acct + 1) in
      let acct := mkAccount (label acct) (scheme_name acct) (WalletDb.account_id acct) index (gap_limit acct) in
      (address_info account_id index w, with_db (UpdateAccount acct (db_ w)) w)
  end.

(** [for (uint32_t i = 0; i <= highest; ++i)], while [highest] is below 2^32 - 1: there the
    comparison always holds and the loop does not end. *)
Definition indices (highest : Z) : list Z := map Z.of_nat (seq 0 (Z.to_nat (highest + 1))).

Definition ListAddresses (account_id : Z) (w : Wallet) : list AddressInfo :=
  match GetAccount account_id (db_ w) with
  | None => []
  | Some acct => map (fun i => address_info account_id i w) (indices (highest_derived acct))
  end.

(** ** Scanning *)

Definition owned_locks (w : Wallet) : list OwnedLock :=
  flat_map (fun account => map (fun index => mkOwnedLock (DeriveLock (WalletDb.account_id account) index w) (WalletDb.account_id account) index)
                             (indices (highest_derived account)))
    (accounts (db_ w)).

Definition scan_tx (owned : list OwnedLock) (height : Z) (acc : list UtxoEntry * Impl) (tx : Transaction) : list UtxoEntry * Impl :=
  let '(utxos, db) := acc in
  let '(utxos, my_spent, touches) := foldl spend_input (utxos, 0, false) (tx_inputs tx) in
  let '(utxos, my_received, touches) :=
    receive_outputs owned (Txid tx) height (IsCoinbase tx) 0 (tx_outputs tx) (utxos, 0, touches) in
  let db :=
    if touches then
      StoreTx (mkStoredTransaction (Txid tx) (to_i32 height) 0 my_received my_spent
                 (if (my_spent >? my_received) && negb (IsCoinbase tx) then to_i64 (my_spent - my_received) else 0) []) db
    else db in
  (utxos, db).

(** The test of the balance loop of [Rescan]. *)
Definition is_mature (params : ChainParams) (tip_height : Z) (e : UtxoEntry) : bool :=
  negb (coin_is_coinbase (utxo_coin e)) || (tip_height >=? wrapu 32 (coin_height (utxo_coin e) + coinbase_maturity params)).

Definition add_balance (params : ChainParams) (tip_height : Z) (b : Balance) (e : UtxoEntry) : Balance :=
  if is_mature params tip_height e then mkBalance (to_i64 (confirmed b + amount e)) (pending b)
  else mkBalance (confirmed b) (to_i64 (pending b + amount e)).

Definition Rescan (blocks : list (Block * Z)) (w : Wallet) : Wallet :=
  let tip_height := match last blocks with Some (_, height) => height | None => 0 end in
  let owned := owned_locks w in
  let '(utxos, db) :=
    foldl (fun acc '(block, height) => foldl (scan_tx owned height) acc (blk_transactions block)) ([], db_ w) blocks in
  mkWallet (seed_ w) db (foldl (add_balance (params_ w) tip_height) (mkBalance 0 0) utxos) (params_ w) utxos tip_height
    (fee_preference_ w) (node_url_ w).

Definition GetBalance (w : Wallet) : Balance := balance_ w.

(** ** Sending *)

(** The test of [SendToLock] for a reward that is too young. *)
Definition is_immature (params : ChainParams) (tip_height : Z) (e : UtxoEntry) : bool :=
  coin_is_coinbase (utxo_coin e) && (tip_height <? wrapu 32 (coin_height (utxo_coin e) + coinbase_maturity params)).

(** The coins offered to the builder. *)
Definition spendable (w : Wallet) : list UtxoEntry :=
  List.filter (fun e => utxo_confirmed e && negb (is_immature (params_ w) (tip_height_ w) e)) (utxos_ w).

Definition send_builder (lock : Lock) (amount fee_rate : Z) (w : Wallet) : TxBuilder.TxBuilder :=
  let fee_rate := if fee_rate <=? 0 then DEFAULT_FEERATE else fee_rate in
  TxBuilder.SetFeeRate fee_rate (TxBuilder.SetUtxos (spendable w) (TxBuilder.AddRecipient lock amount
    (TxBuilder.SetChainId (chain_id (params_ w)) (TxBuilder.new_TxBuilder (seed_ w) DEFAULT_SCHEME DEFAULT_ACCOUNT)))).

Definition SendToLock (lock : Lock) (amount fee_rate : Z) (w : Wallet) : option (SendResult * Wallet) :=
  let builder := send_builder lock amount fee_rate w in
  utx ← TxBuilder.Build builder;
  signed_tx ← TxBuilder.Sign builder utx;
  let result := mkSendResult (TxBuilder.stx_txid signed_tx) (TxBuilder.stx_fee signed_tx)
                  (Hex.ToHex (Transaction_Serialize (TxBuilder.stx_tx signed_tx) new_Writer)) in
  let stx := mkStoredTransaction (res_txid result) (-1) 0 0 amount (res_fee result) [] in
  Some (result, with_db (StoreTx stx (db_ w)) w).

Definition Send (address : bytes) (amount fee_rate : Z) (w : Wallet) : option (SendResult * Wallet) :=
  lock ← Address.AddressToLock address (HrpFor (params_ w));
  SendToLock lock amount fee_rate w.

(** ** Transactions, backup *)

Definition ListTransactions (w : Wallet) : list StoredTransaction := ListTxs (db_ w).
Definition AddTransaction (tx : StoredTransaction) (w : Wallet) : Wallet := with_db (StoreTx tx (db_ w)) w.

Definition ExportBackup (w : Wallet) : WalletBackup :=
  mkWalletBackup (Mnemonic.GenerateMnemonic (seed_ w)) (SerialiseMetadata (db_ w)).

Definition RestoreFromBackup (backup : WalletBackup) (w : Wallet) : bool * Wallet :=
  match Mnemonic.SeedFromMnemonic (backup_mnemonic backup) with
  | None => (false, w)
  | Some seed =>
      let w := with_db (StoreSeed seed [] (db_ w)) (with_seed seed w) in
      if bool_decide (backup_metadata backup = []) then (true, with_db (SetBirthHeight 0 (db_ w)) w)
      else
        let '(ok, db) := DeserialiseMetadata (backup_metadata backup) (db_ w) in
        (ok, with_db db w)
  end.

End wallet.

(** ** The chain's coins, all of them *)

Definition spend_all (inputs : list TxInput) (coins : gmap OutPoint Coin) : gmap OutPoint Coin :=
  foldl (fun coins input => delete (in_outpoint input) coins) coins inputs.

Fixpoint ledger_outputs (txid : bytes) (height : Z) (is_coinbase : bool) (i : Z) (outputs : list TxOutput)
    (coins : gmap OutPoint Coin) : gmap OutPoint Coin :=
  match outputs with
  | [] => coins
  | output :: outputs =>
      ledger_outputs txid height is_coinbase (i + 1) outputs (<[mkOutPoint txid i := mkCoin output height is_coinbase]> coins)
  end.

Section ledger.
Context `{Sha256Impl}.

Definition ledger_tx (height : Z) (coins : gmap OutPoint Coin) (tx : Transaction) : gmap OutPoint Coin :=
  ledger_outputs (Txid tx) height (IsCoinbase tx) 0 (tx_outputs tx) (spend_all (tx_inputs tx) coins).

(** The coins a chain of blocks leaves unspent. *)
Definition ledger (blocks : list (Block * Z)) : gmap OutPoint Coin :=
  foldl (fun coins '(block, height) => foldl (ledger_tx height) coins (blk_transactions block)) ∅ blocks.

End ledger.

(** ** Lemmas: the scan tracks the ledger *)

(** The entries are the ledger's coins under the wallet's locks, each once and with the
    account and index of its lock. *)
Record tracks (owned : list OwnedLock) (utxos : list UtxoEntry) (coins : gmap OutPoint Coin) : Prop := {
  tracks_nodup : NoDup (map utxo_outpoint utxos);
  tracks_iff o c : (exists e, e ∈ utxos /\ utxo_outpoint e = o /\ utxo_coin e = c) <->
    coins !! o = Some c /\ is_Some (owner owned (out_lock (coin_output c)));
  tracks_own : Forall (fun e => utxo_confirmed e = true /\ exists own, owner owned (out_lock (coin_output (utxo_coin e))) = Some own /\
    utxo_account_id e = own_account own /\ utxo_derivation_index e = own_index own) utxos }.

Lemma elem_of_List_filter {A} (f : A -> bool) l x : x ∈ List.filter f l <-> x ∈ l /\ f x = true.
Proof. rewrite !list_elem_of_In. apply filter_In. Qed.

Lemma List_filter_sublist {A} (f : A -> bool) l : List.filter f l `sublist_of` l.
Proof. induction l as [|x l IH]; [done|]. cbn. destruct (f x); [by apply sublist_skip|by apply sublist_cons]. Qed.

Lemma Forall_List_filter {A} (P : A -> Prop) f l : Forall P l -> Forall P (List.filter f l).
Proof. rewrite !Forall_forall. intros HP x [Hx _]%elem_of_List_filter. by apply HP. Qed.

Lemma tracks_empty owned : tracks owned [] ∅.
Proof. split; [constructor| |constructor]. intros o c. rewrite lookup_empty. split; [intros (e & He & _); by apply not_elem_of_nil in He|naive_solver]. Qed.

Lemma tracks_spend owned utxos coins o : tracks owned utxos coins ->
  tracks owned (List.filter (fun e => negb (is_outpoint o e)) utxos) (delete o coins).
Proof.
  intros [Hn Hi Ho]. split; [|intros o' c|by apply Forall_List_filter].
  - eapply sublist_NoDup; [exact Hn|]. apply (fmap_sublist utxo_outpoint), List_filter_sublist.
  - split.
    + intros (e & [He Hf]%elem_of_List_filter & <- & <-). unfold is_outpoint in Hf. apply negb_true_iff, bool_decide_eq_false in Hf.
      destruct (proj1 (Hi (utxo_outpoint e) (utxo_coin e))) as [Hc Hs]; [by exists e|]. split; [|done]. rewrite lookup_delete_ne by congruence. done.
    + intros [Hc Hs]. apply lookup_delete_Some in Hc as [Hne Hc]. destruct (proj2 (Hi o' c)) as (e & He & Eo & Ec); [done|].
      exists e. split; [|done]. apply elem_of_List_filter. split; [done|]. unfold is_outpoint. apply negb_true_iff, bool_decide_eq_false. congruence.
Qed.

Lemma tracks_spend_all owned inputs : forall utxos s t coins, tracks owned utxos coins ->
  tracks owned (foldl spend_input (utxos, s, t) inputs).1.1 (spend_all inputs coins).
Proof.
  induction inputs as [|i inputs IH]; intros utxos s t coins Ht; [done|]. unfold spend_all. cbn [foldl]. apply IH. by apply tracks_spend.
Qed.

Lemma tracks_add owned utxos coins o c own : tracks owned utxos coins -> coins !! o = None ->
  owner owned (out_lock (coin_output c)) = Some own ->
  tracks owned (utxos ++ [mkUtxoEntry o c true (own_account own) (own_index own)]) (<[o := c]> coins).
Proof.
  intros [Hn Hi Ho] Hf Hown. split.
  - rewrite map_app. apply NoDup_app. split; [done|]. split; [|apply NoDup_singleton]. intros o' Hin Ho'. cbn in Ho'.
    apply list_elem_of_singleton in Ho' as ->. apply list_elem_of_fmap in Hin as (e & -> & He).
    destruct (proj1 (Hi (utxo_outpoint e) (utxo_coin e))) as [Hc _]; [by exists e|]. congruence.
  - intros o' c'. split.
    + intros (e & [He|He]%elem_of_app & <- & <-).
      * destruct (proj1 (Hi (utxo_outpoint e) (utxo_coin e))) as [Hc Hs]; [by exists e|]. split; [|done]. rewrite lookup_insert_ne; [done|]. congruence.
      * apply list_elem_of_singleton in He as ->. cbn. rewrite lookup_insert_eq. by rewrite Hown.
    + intros [[[-> ->]|[Hne Hc]]%lookup_insert_Some Hs].
      * eexists. split; [apply elem_of_app; right; by apply list_elem_of_singleton|]. done.
      * destruct (proj2 (Hi o' c')) as (e & He & Ee); [done|]. exists e. split; [|done]. apply elem_of_app. by left.
  - apply Forall_app. split; [done|]. constructor; [|constructor]. cbn. split; [done|]. by exists own.
Qed.

Lemma tracks_skip owned utxos coins o c : tracks owned utxos coins -> coins !! o = None ->
  owner owned (out_lock (coin_output c)) = None -> tracks owned utxos (<[o := c]> coins).
Proof.
  intros [Hn Hi Ho] Hf Hown. split; [done| |done]. intros o' c'. rewrite Hi. split.
  - intros [Hc Hs]. split; [|done]. rewrite lookup_insert_ne; [done|]. congruence.
  - intros [[[-> ->]|[Hne Hc]]%lookup_insert_Some Hs]; [|done]. rewrite Hown in Hs. by destruct Hs.
Qed.

Lemma tracks_receive owned txid height cb outputs : forall i utxos r t coins, tracks owned utxos coins ->
  0 <= i -> i + zlen outputs <= 2 ^ 32 -> (forall j, i <= j -> coins !! mkOutPoint txid j = None) ->
  tracks owned (receive_outputs owned txid height cb i outputs (utxos, r, t)).1.1 (ledger_outputs txid height cb i outputs coins).
Proof.
  induction outputs as [|x outputs IH]; intros i utxos r t coins Ht Hi Hl Hf; [done|]. rewrite zlen_cons in Hl. pose proof (zlen_nonneg outputs).
  cbn [receive_outputs ledger_outputs]. rewrite wrapu_small by lia.
  assert (forall c j, i + 1 <= j -> (<[mkOutPoint txid i := c]> coins : gmap OutPoint Coin) !! mkOutPoint txid j = None) as Hf'.
  { intros c j Hj. rewrite lookup_insert_ne by (intros [= ?]; lia). apply Hf. lia. }
  destruct (owner owned (out_lock x)) as [own|] eqn:Eo; apply IH; try lia; try (by apply Hf').
  - apply (tracks_add owned utxos coins (mkOutPoint txid i) (mkCoin x height cb)); [done|by apply Hf|done].
  - apply tracks_skip; [done|by apply Hf|done].
Qed.

(** Only outputs of the transactions seen so far are coins. *)
Definition from_txids (seen : list bytes) (coins : gmap OutPoint Coin) : Prop := forall o c, coins !! o = Some c -> op_txid o ∈ seen.

Lemma spend_all_subseteq inputs : forall coins, spend_all inputs coins ⊆ coins.
Proof.
  unfold spend_all. induction inputs as [|i inputs IH]; intros coins; [done|]. cbn [foldl]. etransitivity; [apply IH|]. apply delete_subseteq.
Qed.

Lemma ledger_outputs_txids txid height cb outputs seen : forall i coins, txid ∈ seen -> from_txids seen coins ->
  from_txids seen (ledger_outputs txid height cb i outputs coins).
Proof.
  induction outputs as [|x outputs IH]; intros i coins Hin Hc; [done|]. cbn [ledger_outputs]. apply IH; [done|].
  intros o c [[<- _]|[_ Ho]]%lookup_insert_Some; [done|by apply (Hc o c)].
Qed.
Section rescan.
Context `{Sha256Impl} `{Json} `{StdSort} `{Signature.SignatureBackends} `{SigningBackends}.

(** The transactions of a chain in order, with their heights. *)
Definition chain_txs (blocks : list (Block * Z)) : list (Z * Transaction) :=
  flat_map (fun '(block, height) => map (pair height) (blk_transactions block)) blocks.

Lemma foldl_chain {B} (f : Z -> B -> Transaction -> B) blocks : forall acc : B,
  foldl (fun acc '(block, height) => foldl (f height) acc (blk_transactions block)) acc blocks =
  foldl (fun acc '(height, tx) => f height acc tx) acc (chain_txs blocks).
Proof.
  induction blocks as [|[b h] blocks IH]; intros acc; [done|]. cbn [foldl chain_txs flat_map]. rewrite IH, foldl_app. f_equal.
  generalize (blk_transactions b) as txs. clear. intros txs. revert acc. induction txs as [|t txs IH]; intros acc; [done|]. cbn [foldl map]. apply IH.
Qed.

Lemma scan_tx_utxos owned height utxos db tx : (scan_tx owned height (utxos, db) tx).1 =
  (receive_outputs owned (Txid tx) height (IsCoinbase tx) 0 (tx_outputs tx)
    ((foldl spend_input (utxos, 0, false) (tx_inputs tx)).1.1, 0, (foldl spend_input (utxos, 0, false) (tx_inputs tx)).2)).1.1.
Proof.
  unfold scan_tx. destruct (foldl spend_input _ _) as [[u s] t]. cbn [fst snd]. by destruct (receive_outputs _ _ _ _ _ _ _) as [[u' r'] t'].
Qed.

Lemma scan_tracks owned txs : forall utxos db coins seen, tracks owned utxos coins -> from_txids seen coins ->
  NoDup (map (fun t => Txid t.2) txs) -> Forall (fun t => Txid t.2 ∉ seen) txs -> Forall (fun t => zlen (tx_outputs t.2) <= 2 ^ 32) txs ->
  tracks owned (foldl (fun acc '(height, tx) => scan_tx owned height acc tx) (utxos, db) txs).1
    (foldl (fun coins '(height, tx) => ledger_tx height coins tx) coins txs).
Proof.
  induction txs as [|[h tx] txs IH]; intros utxos db coins seen Ht Hs Hn Hf Hl; [done|]. cbn [foldl].
  apply Forall_cons in Hf as [Htx Hf]. apply Forall_cons in Hl as [Hl0 Hl]. cbn [map] in Hn. apply NoDup_cons in Hn as [Hnew Hn]. cbn [snd] in *.
  destruct (scan_tx owned h (utxos, db) tx) as [utxos' db'] eqn:E. apply (IH utxos' db' _ (Txid tx :: seen)); try done.
  - pose proof (scan_tx_utxos owned h utxos db tx) as E'. rewrite E in E'. cbn [fst] in E'. rewrite E'. apply tracks_receive; [by apply tracks_spend_all|done..|].
    intros j _. apply eq_None_not_Some. intros [c Hc]. apply Htx. change (Txid tx) with (op_txid (mkOutPoint (Txid tx) j)). eapply Hs.
    eapply lookup_weaken; [exact Hc|]. apply spend_all_subseteq.
  - apply ledger_outputs_txids; [by constructor|]. intros o c Hc. apply elem_of_cons. right. eapply Hs. eapply lookup_weaken; [exact Hc|]. apply spend_all_subseteq.
  - apply Forall_forall. intros t Hin. apply not_elem_of_cons. split.
    + intros E2. apply Hnew. rewrite <- E2. apply (list_elem_of_fmap_2 (fun t => Txid t.2)), Hin.
    + rewrite Forall_forall in Hf. by apply Hf.
Qed.

(** Whatever every output of the chain has, every coin has. *)
Lemma ledger_Forall (P : OutPoint -> Coin -> Prop) txs : forall coins, map_Forall P coins ->
  Forall (fun t => forall i o, tx_outputs t.2 !! i = Some o -> P (mkOutPoint (Txid t.2) (Z.of_nat i)) (mkCoin o t.1 (IsCoinbase t.2))) txs ->
  map_Forall P (foldl (fun coins '(height, tx) => ledger_tx height coins tx) coins txs).
Proof.
  induction txs as [|[h tx] txs IH]; intros coins Hc F; [done|]. apply Forall_cons in F as [Ft F]. cbn [foldl]. apply IH; [|done]. cbn [fst snd] in Ft.
  assert (map_Forall P (spend_all (tx_inputs tx) coins)) as Hsp by (intros o c Ho; apply Hc; eapply lookup_weaken; [exact Ho|apply spend_all_subseteq]).
  unfold ledger_tx. revert Hsp. generalize (spend_all (tx_inputs tx) coins) as m. clear -Ft.
  assert (forall k outputs m, (forall i o, outputs !! i = Some o -> P (mkOutPoint (Txid tx) (Z.of_nat (k + i))) (mkCoin o h (IsCoinbase tx))) ->
    map_Forall P m -> map_Forall P (ledger_outputs (Txid tx) h (IsCoinbase tx) (Z.of_nat k) outputs m)) as Hadd.
  { intros k outputs. revert k. induction outputs as [|x outputs IH]; intros k m Ho Hm; [done|]. cbn [ledger_outputs].
    replace (Z.of_nat k + 1) with (Z.of_nat (S k)) by lia. apply IH.
    - intros i o Hi. specialize (Ho (S i) o Hi). by replace (k + S i)%nat with (S k + i)%nat in Ho by lia.
    - apply map_Forall_insert_2; [|done]. specialize (Ho O x eq_refl). by rewrite Nat.add_0_r in Ho. }
  intros m Hm. by apply (Hadd O).
Qed.

Lemma Rescan_fields blocks w : seed_ (Rescan blocks w) = seed_ w /\ params_ (Rescan blocks w) = params_ w /\
  tip_height_ (Rescan blocks w) = match last blocks with Some (_, h) => h | None => 0 end /\
  balance_ (Rescan blocks w) = foldl (add_balance (params_ w) (tip_height_ (Rescan blocks w))) (mkBalance 0 0) (utxos_ (Rescan blocks w)).
Proof. unfold Rescan. destruct (foldl _ ([], db_ w) blocks) as [u d]. done. Qed.

(** Chains in which no transaction occurs twice and outputs are fewer than [2^32]. *)
Definition chain_ok (blocks : list (Block * Z)) : Prop :=
  NoDup (map (fun t => Txid t.2) (chain_txs blocks)) /\ Forall (fun t => zlen (tx_outputs t.2) < 2 ^ 32) (chain_txs blocks).

Lemma Rescan_tracks blocks w : chain_ok blocks -> tracks (owned_locks w) (utxos_ (Rescan blocks w)) (ledger blocks).
Proof.
  intros [Hn Hl]. unfold ledger. rewrite foldl_chain.
  assert (utxos_ (Rescan blocks w) = (foldl (fun acc '(block, height) => foldl (scan_tx (owned_locks w) height) acc (blk_transactions block)) ([], db_ w) blocks).1) as ->.
  { unfold Rescan. by destruct (foldl _ ([], db_ w) blocks) as [u d]. }
  rewrite foldl_chain. apply (scan_tracks _ _ _ _ _ []); [apply tracks_empty|intros o c; by rewrite lookup_empty|done| |].
  - apply Forall_true. intros t. apply not_elem_of_nil.
  - eapply Forall_impl; [exact Hl|]. cbn. lia.
Qed.

Lemma ledger_coins (P : OutPoint -> Coin -> Prop) blocks :
  Forall (fun t => forall i o, tx_outputs t.2 !! i = Some o -> P (mkOutPoint (Txid t.2) (Z.of_nat i)) (mkCoin o t.1 (IsCoinbase t.2))) (chain_txs blocks) ->
  map_Forall P (ledger blocks).
Proof. intros F. unfold ledger. rewrite foldl_chain. apply ledger_Forall; [apply map_Forall_empty|done]. Qed.

(** *** Balances *)

Definition mature_amount (params : ChainParams) (tip : Z) (e : UtxoEntry) : Z := if is_mature params tip e then amount e else 0.
Definition immature_amount (params : ChainParams) (tip : Z) (e : UtxoEntry) : Z := if is_mature params tip e then 0 else amount e.

Lemma balance_sums params tip l : forall b, priced l -> 0 <= confirmed b -> 0 <= pending b -> confirmed b + pending b + amounts l < 2 ^ 63 ->
  foldl (add_balance params tip) b l =
  mkBalance (confirmed b + zsum (map (mature_amount params tip) l)) (pending b + zsum (map (immature_amount params tip) l)).
Proof.
  induction l as [|e l IH]; intros [c q] P Hc Hq Hs; cbn [foldl confirmed pending map] in *; [cbn; by rewrite !Z.add_0_r|].
  apply Forall_cons in P as [He P]. rewrite amounts_cons in Hs. pose proof (coin_amounts_nonneg _ P). rewrite !zsum_cons.
  unfold add_balance, mature_amount at 1, immature_amount at 1. cbn [confirmed pending].
  destruct (is_mature params tip e); rewrite to_i64_small by (unfold i64; lia); rewrite IH by (cbn; done || lia); cbn; f_equal; lia.
Qed.

Lemma balance_split params tip l : zsum (map (mature_amount params tip) l) + zsum (map (immature_amount params tip) l) = amounts l.
Proof.
  induction l as [|e l IH]; [done|]. cbn [map]. rewrite !zsum_cons, amounts_cons. unfold mature_amount at 1, immature_amount at 1. destruct (is_mature params tip e); lia.
Qed.

(** *** Ownership *)

Lemma owner_spec owned lock own : owner owned lock = Some own -> In own owned /\ lock = own_lock own.
Proof. unfold owner. intros E. apply find_some in E as [Hin Hb]. split; [done|]. by apply bool_decide_eq_true in Hb. Qed.

(** Account numbers are places in the account list, and every derived key is a key. *)
Definition keys_ok (w : Wallet) : Prop :=
  Forall (fun a => 0 <= WalletDb.account_id a < AccountCount (db_ w)) (accounts (db_ w)) /\
  forall own, In own (owned_locks w) -> is_Some (GenerateSchnorrKey (DeriveSecp256k1Key (seed_ w) (own_account own) (own_index own))).

Lemma owned_lock_key w own : keys_ok w -> In own (owned_locks w) ->
  own_lock own = TxBuilder.key_lock (DeriveSecp256k1Key (seed_ w) (own_account own) (own_index own)).
Proof.
  intros [Ha Hk] Hin. destruct (Hk own Hin) as [kp Ekp]. unfold owned_locks in Hin. apply in_flat_map in Hin as (a & Hina & Hin).
  apply in_map_iff in Hin as (i & <- & _). cbn [own_lock own_account own_index] in *. unfold DeriveLock.
  rewrite Forall_forall in Ha. specialize (Ha a). rewrite list_elem_of_In in Ha. specialize (Ha Hina). unfold AccountCount in Ha.
  unfold GetAccount. destruct (Z.geb_spec (WalletDb.account_id a) (zlen (accounts (db_ w)))); [lia|].
  destruct (accounts (db_ w) !! Z.to_nat (WalletDb.account_id a)) eqn:E; [|apply lookup_ge_None in E; unfold zlen in *; lia].
  rewrite Ekp. unfold TxBuilder.key_lock, TxBuilder.BuildSpendCondition. by rewrite Z.eqb_refl, Ekp.
Qed.

End rescan.
(** *** What is sent *)

Section sending.
Context `{Sha256Impl} `{Json} `{StdSort} `{Signature.SignatureBackends} `{SigningBackends}.

(** Whatever is selected begins with the first coin in falling order. *)
Lemma select_first utxos target fee_rate : sel_success (SelectCoins utxos target fee_rate) = true ->
  exists e rest more, std_sort utxos = e :: rest /\ sel_inputs (SelectCoins utxos target fee_rate) = e :: more.
Proof.
  unfold SelectCoins. destruct ((target <=? 0) || bool_decide (utxos = [])) eqn:E0; [done|]. apply orb_false_iff in E0 as [_ Hne%bool_decide_eq_false].
  destruct (_ <? target); [done|]. destruct (estimate_pass _ _ _ _ _ _) as [a f]. destruct (a <? _); [done|]. unfold SortByDescendingValue.
  destruct (std_sort utxos) as [|e rest] eqn:Es; [exfalso; apply Hne; symmetry; apply Permutation_nil_l; by rewrite <- Es, std_sort_perm|].
  cbn [select_pass]. rewrite andb_false_r. destruct (select_pass _ _ rest _ _ _) as [[ins acc] fee]. destruct ((_ >? 0) && _);
    intros _; by exists e, rest, ins.
Qed.

Lemma sign_loop_inputs b m coins : forall keys schemes i tx tx', TxBuilder.sign_loop b m i tx coins keys schemes = Some tx' -> tx_inputs tx' = tx_inputs tx.
Proof.
  induction coins as [|c coins IH]; intros [|k keys] [|s schemes] i tx tx' E; cbn [TxBuilder.sign_loop] in E; try by injection E as <-.
  destruct (TxBuilder.SignInput _ _ _ _ _ _ _ _) as [sig|]; [|done]. cbn [mbind option_bind] in E. apply IH in E. exact E.
Qed.

(** The transaction sent, and that it spends the richest coin the wallet offers. *)
Lemma SendToLock_spends lock amount fee_rate w res w' : SendToLock lock amount fee_rate w = Some (res, w') ->
  spendable w' = spendable w /\
  exists tx e rest, res_txid res = Txid tx /\ res_raw_tx_hex res = Hex.ToHex (encode Transaction_Serialize tx) /\
    std_sort (spendable w) = e :: rest /\ utxo_outpoint e ∈ map in_outpoint (tx_inputs tx).
Proof.
  unfold SendToLock. set (b := send_builder lock amount fee_rate w). destruct (TxBuilder.Build b) as [utx|] eqn:Eb; [|done]. cbn [mbind option_bind].
  destruct (TxBuilder.Sign b utx) as [st|] eqn:Es; [|done]. cbn [mbind option_bind]. intros [= <- <-]. split; [done|].
  unfold TxBuilder.Build in Eb. destruct (_ || _); [done|]. set (s := SelectCoins _ _ _) in Eb. destruct (sel_success s) eqn:Eok; [|done]. injection Eb as <-.
  destruct (select_first _ _ _ Eok) as (e & rest & more & Esort & Esel). fold s in Esel. unfold TxBuilder.Sign in Es. do 2 (destruct (negb _); [done|]).
  destruct (TxBuilder.sign_loop _ _ _ _ _ _ _) as [tx|] eqn:El; [|done]. injection Es as <-. apply sign_loop_inputs in El.
  exists tx, e, rest. split; [done|]. split; [done|]. split; [exact Esort|]. rewrite El. cbn [TxBuilder.utx_tx tx_inputs]. rewrite Esel. cbn. by constructor.
Qed.

(** What is too young to send is what is not yet counted as confirmed. *)
Lemma immature_spec params tip e : is_immature params tip e = negb (is_mature params tip e).
Proof. unfold is_immature, is_mature. rewrite Z.geb_leb, negb_orb, negb_involutive, Z.leb_antisym, negb_involutive. done. Qed.

Lemma spendable_sub w : spendable w `sublist_of` utxos_ w.
Proof. apply List_filter_sublist. Qed.

End sending.

(** *** Restoring *)

Section restoring.
Context `{Sha256Impl} `{Json} `{StdSort} `{Signature.SignatureBackends} `{SigningBackends}.

Lemma AddAccount_seed a db : encrypted_seed (AddAccount a db) = encrypted_seed db /\ has_seed (AddAccount a db) = has_seed db.
Proof.
  unfold AddAccount. destruct (_ >=? _); [done|]. destruct (Save_fields (with_accounts (accounts db ++ [a]) db)) as (-> & _ & _ & _ & _ & -> & _). done.
Qed.

Lemma read_accounts_seed n : forall r db, let db' := (read_accounts n r db).2 in encrypted_seed db' = encrypted_seed db /\ has_seed db' = has_seed db.
Proof.
  induction n as [|n IH]; intros r db; [done|]. cbn [read_accounts]. destruct (Account_Deserialise r) as [[a|] r1]; [|done].
  destruct (IH r1 (AddAccount a db)) as [-> ->]. apply AddAccount_seed.
Qed.

Lemma SetBirthHeight_seed h db : encrypted_seed (SetBirthHeight h db) = encrypted_seed db /\ has_seed (SetBirthHeight h db) = has_seed db.
Proof. unfold SetBirthHeight. set (d := mkImpl _ _ _ _ _ _ _ _). destruct (Save_fields d) as (-> & _ & _ & _ & _ & -> & _). done. Qed.

Lemma DeserialiseMetadata_seed data db : let db' := (DeserialiseMetadata data db).2 in encrypted_seed db' = encrypted_seed db /\ has_seed db' = has_seed db.
Proof.
  unfold DeserialiseMetadata. destruct (ReadU32 _) as [[h|] r]; [|done]. destruct (ReadCompactSize 1 r) as [[n|] r1]; [|apply SetBirthHeight_seed].
  pose proof (read_accounts_seed (Z.to_nat n) r1 (SetBirthHeight h db)) as E. destruct (read_accounts _ _ _) as [[ok r2] db2]. cbn [snd] in E.
  rewrite (proj1 (SetBirthHeight_seed h db)), (proj2 (SetBirthHeight_seed h db)) in E. by destruct ok.
Qed.

Lemma StoreSeed_fields seed pw db : encrypted_seed (StoreSeed seed pw db) = SimpleEncrypt seed pw /\ has_seed (StoreSeed seed pw db) = true /\
  accounts (StoreSeed seed pw db) = accounts db.
Proof. unfold StoreSeed. set (d := mkImpl _ _ _ _ _ _ _ _). destruct (Save_fields d) as (-> & _ & -> & _ & _ & -> & _). done. Qed.

(** Two wallets with one seed and network, both with an account at a place, have the same
    address there. *)
Lemma address_info_seed id i w w' : seed_ w = seed_ w' -> params_ w = params_ w' ->
  is_Some (GetAccount id (db_ w)) -> is_Some (GetAccount id (db_ w')) -> address_info id i w = address_info id i w'.
Proof.
  intros Es Ep [a Ea] [a' Ea']. unfold address_info, DeriveLock. by rewrite Ea, Ea', Es, Ep.
Qed.

End restoring.

(** ** Claims *)

(** C19: Scanning the chain finds the wallet's coins: for a chain in which no transaction
    occurs twice, the entries after [Rescan] are exactly the coins the chain leaves unspent
    under a lock of the wallet, each once; the two balances add up to their value, and
    the confirmed one is that of the coins which may be spent. *)
Theorem rescan_finds_coins `{Sha256Impl} `{Json} `{StdSort} `{Signature.SignatureBackends} `{SigningBackends}
    (blocks : list (Block * Z)) (w : Wallet) : chain_ok blocks ->
  let w' := Rescan blocks w in
  (forall o c, (exists e, e ∈ utxos_ w' /\ utxo_outpoint e = o /\ utxo_coin e = c) <->
     ledger blocks !! o = Some c /\ is_Some (owner (owned_locks w) (out_lock (coin_output c)))) /\
  NoDup (map utxo_outpoint (utxos_ w')) /\
  (priced (utxos_ w') -> amounts (utxos_ w') < 2 ^ 63 ->
   confirmed (balance_ w') + pending (balance_ w') = amounts (utxos_ w') /\ confirmed (balance_ w') = amounts (spendable w')).
Proof.
  intros Hc w'. destruct (Rescan_tracks blocks w Hc) as [Hn Hi Ho]. fold w' in Hn, Hi, Ho. split; [done|]. split; [done|]. intros Hp Hs.
  destruct (Rescan_fields blocks w) as (_ & Epar & _ & Eb). fold w' in Epar, Eb. rewrite Eb, balance_sums by (cbn; done || lia). cbn [confirmed pending].
  rewrite !Z.add_0_l. split; [apply balance_split|]. unfold spendable. rewrite Epar. clear Eb Hs Hi Hn. revert Ho. generalize (utxos_ w') as l. clear -w'. intros l Ho.
  induction Ho as [|e l [He _] _ IH]; [done|]. cbn [map List.filter]. rewrite zsum_cons, IH, He. unfold mature_amount at 1.
  rewrite immature_spec, negb_involutive. destruct (is_mature (params_ w) (tip_height_ w') e); cbn [andb]; rewrite ?amounts_cons; lia.
Qed.

(** C12: From chain to payment.  Take a wallet that has scanned a chain in which no
    transaction occurs twice, at heights that do not overflow; its derived keys are valid,
    its accounts are numbered by their places, its coins are of valid amounts that together
    do not exceed all the money, the amount is valid, and the 64-bit sums of the coin
    selection do not overflow.  Then what it sends pays the recipient first, spends coins
    the chain leaves unspent, and passes the consensus rules: those for spending these
    coins in the next block, with the fee that is reported, and, if it is within the limits
    on counts and weight, those on the transaction itself (one key and one signature of
    the right sizes per input, no outpoint twice, amounts in range). *)
Theorem wallet_send_valid `{Sha256Impl} `{Json} `{StdSort} `{Signature.SignatureBackends} `{SigningBackends} `{!SigningLaws}
    (blocks : list (Block * Z)) (w0 w' : Wallet) (lock : Lock) (amount fee_rate : Z) (res : SendResult) :
  let w := Rescan blocks w0 in
  chain_ok blocks -> keys_ok w0 -> Forall (fun b => 0 <= b.2 /\ 0 <= b.2 + coinbase_maturity (params_ w0) < 2 ^ 32) blocks ->
  TxBuilder.coins_valid (utxos_ w) -> IsValidAmount amount = true -> TxBuilder.builder_ok (send_builder lock amount fee_rate w) ->
  SendToLock lock amount fee_rate w = Some (res, w') ->
  exists tx coins, TxBuilder.stx_tx <$> (TxBuilder.Build (send_builder lock amount fee_rate w) ≫= TxBuilder.Sign (send_builder lock amount fee_rate w)) = Some tx /\
    res_txid res = Txid tx /\ res_raw_tx_hex res = Hex.ToHex (encode Transaction_Serialize tx) /\
    tx_outputs tx !! 0%nat = Some (mkTxOutput amount lock) /\
    Forall2 (fun i c => ledger blocks !! in_outpoint i = Some c) (tx_inputs tx) coins /\
    Validation.CheckTransactionInputs tx coins (tip_height_ w + 1) (params_ w) = Validation.Ok (res_fee res) /\
    (TxBuilder.within_limits (params_ w) tx -> Validation.CheckTransaction tx (params_ w) = Validation.Accept).
Proof.
  intros w Hc Hk Hh Hv Ha Hb. unfold SendToLock. set (b := send_builder lock amount fee_rate w) in *.
  destruct (TxBuilder.Build b) as [utx|] eqn:Ebuild; [|done]. cbn [mbind option_bind].
  destruct (TxBuilder.Sign b utx) as [st|] eqn:Esign; [|done]. cbn [mbind option_bind]. intros [= <- _]. cbn [res_txid res_fee res_raw_tx_hex].
  destruct (Rescan_tracks blocks w0 Hc) as [Hn Hi Ho]. fold w in Hn, Hi, Ho. destruct (Rescan_fields blocks w0) as (Eseed & Epar & _ & _). fold w in Eseed, Epar.
  assert (forall e, e ∈ spendable w -> e ∈ utxos_ w /\ ledger blocks !! utxo_outpoint e = Some (utxo_coin e)) as Hsp.
  { intros e [He _]%elem_of_List_filter. split; [done|]. apply (proj1 (Hi _ _)). by exists e. }
  assert (map_Forall (fun o c => op_index o <> COINBASE_OUTPOINT_INDEX /\ 0 <= coin_height c + coinbase_maturity (params_ w0) < 2 ^ 32) (ledger blocks)) as Hcoins.
  { apply ledger_coins, Forall_forall. intros [h tx] Hin i o Hio. cbn [fst snd op_index coin_height]. destruct Hc as [_ Hl].
    rewrite Forall_forall in Hl. specialize (Hl _ Hin). cbn [snd] in Hl, Hio. apply lookup_lt_Some in Hio. split; [unfold COINBASE_OUTPOINT_INDEX, zlen in *; lia|].
    apply list_elem_of_In, in_flat_map in Hin as ([blk h'] & Hin & Hin'). apply in_map_iff in Hin' as (t & [= -> _] & _).
    rewrite Forall_forall in Hh. specialize (Hh (blk, h)). rewrite list_elem_of_In in Hh. by apply Hh in Hin as [_ ?]. }
  edestruct (TxBuilder.Sign_valid b utx st (params_ w) (tip_height_ w + 1)) as (_ & Etx & Hvalid & Hform); try done.
  - by repeat constructor.
  - eapply TxBuilder.coins_valid_sub; [|exact Hv]. apply sublist_submseteq, spendable_sub.
  - apply Forall_forall. intros e He. destruct (Hsp e He) as [Hin _]. rewrite Forall_forall in Ho. destruct (Ho e Hin) as (_ & own & Eown & Eacc & Eidx).
    apply owner_spec in Eown as [Hown ->]. rewrite (owned_lock_key w0 own Hk Hown). unfold TxBuilder.input_key, TxBuilder.DerivePrivkey. cbn.
    rewrite Eacc, Eidx, Eseed. destruct (Z.eqb_spec (own_account own) 0) as [->|]; done.
  - apply Forall_forall. intros e He. apply (Hcoins _ (utxo_coin e)). by apply Hsp.
  - apply Forall_forall. intros e He. destruct (Hcoins _ (utxo_coin e) (proj2 (Hsp e He))) as [_ Hr]. apply elem_of_List_filter in He as [_ He].
    apply andb_true_iff in He as [_ He]. rewrite immature_spec, negb_involutive in He. unfold is_mature in He. unfold Validation.mature. intros Hcb. rewrite Hcb, Epar in He. cbn [negb orb] in He.
    rewrite wrapu_small in He by lia. rewrite Epar. apply Z.geb_le in He. lia.
  - destruct (TxBuilder.Build_spec b utx Hb Ebuild) as (Hutx & Hsub & _ & _). set (s := SelectCoins _ _ _) in *.
    exists (TxBuilder.stx_tx st), (TxBuilder.utx_spent_coins utx). split; [done|].
    split; [|split; [done|split; [|split; [|split; [done|]]]]].
    + unfold TxBuilder.Sign in Esign. do 2 (destruct (negb _); [done|]). destruct (TxBuilder.sign_loop _ _ _ _ _ _ _); [|done]. by injection Esign as <-.
    + rewrite Etx, Hutx. done.
    + rewrite Etx, Hutx. cbn [tx_inputs with_tx_witnesses TxBuilder.built TxBuilder.utx_tx TxBuilder.utx_spent_coins].
      apply Forall2_fmap_l, Forall2_fmap_r, Forall_Forall2_diag, Forall_forall. intros e He. cbn. apply Hsp. by eapply elem_of_submseteq.
    + apply Hform, (TxBuilder.distinct_sub _ (utxos_ w)); [apply sublist_submseteq, spendable_sub|done].
Qed.

(** A second payment before the next scan conflicts with the first: [SendToLock] leaves
    the wallet's coins as they were and always spends the richest one, so any two
    transactions it makes without a [Rescan] between them spend a coin in common. *)
Theorem sends_conflict `{Sha256Impl} `{Json} `{StdSort} `{Signature.SignatureBackends} `{SigningBackends}
    (w w1 w2 : Wallet) (l1 l2 : Lock) (a1 a2 r1 r2 : Z) (res1 res2 : SendResult) :
  SendToLock l1 a1 r1 w = Some (res1, w1) -> SendToLock l2 a2 r2 w1 = Some (res2, w2) ->
  exists t1 t2 o, res_raw_tx_hex res1 = Hex.ToHex (encode Transaction_Serialize t1) /\
    res_raw_tx_hex res2 = Hex.ToHex (encode Transaction_Serialize t2) /\
    o ∈ map in_outpoint (tx_inputs t1) /\ o ∈ map in_outpoint (tx_inputs t2).
Proof.
  intros (Esp & t1 & e & rest & _ & R1 & S1 & I1)%SendToLock_spends (_ & t2 & e' & rest' & _ & R2 & S2 & I2)%SendToLock_spends.
  exists t1, t2, (utxo_outpoint e). rewrite Esp, S1 in S2. injection S2 as <- _. done.
Qed.
(** A restored wallet is kept under the empty password: after [RestoreFromBackup] with any
    phrase that is accepted, whatever its metadata, the seed in the store opens as the
    restored one only under a password with the empty password's SHA-256; under the
    wallet's own password it opens as another seed, without an error. *)
Theorem restore_forgets_password `{Sha256Impl} `{Json} `{StdSort} `{Signature.SignatureBackends} `{SigningBackends}
    (w : Wallet) (backup : WalletBackup) (seed password : bytes) :
  Mnemonic.SeedFromMnemonic (backup_mnemonic backup) = Some seed ->
  let w' := (RestoreFromBackup backup w).2 in
  seed_ w' = seed /\ exists out, LoadSeed password (db_ w') = Some out /\ (out = seed <-> Sha256 password = Sha256 []).
Proof.
  intros Es w'. assert (zlen seed = 32) as Hl by (by apply Mnemonic.SeedFromMnemonic_spec in Es as [? _]).
  assert (seed_ w' = seed /\ encrypted_seed (db_ w') = SimpleEncrypt seed [] /\ has_seed (db_ w') = true) as (E1 & E2 & E3).
  { unfold w', RestoreFromBackup. rewrite Es. destruct (StoreSeed_fields seed [] (db_ w)) as (Ea & Eb & _).
    destruct (bool_decide _); cbn [snd db_ seed_ with_db with_seed].
    - destruct (SetBirthHeight_seed 0 (StoreSeed seed [] (db_ w))) as [-> ->]. done.
    - pose proof (DeserialiseMetadata_seed (backup_metadata backup) (StoreSeed seed [] (db_ w))) as [Ec Ed].
      destruct (DeserialiseMetadata _ _) as [ok db]. cbn [snd db_ seed_ with_db with_seed] in *. rewrite Ec, Ed. done. }
  split; [done|]. unfold LoadSeed. rewrite E3, E2. cbn [negb]. eexists. split; [done|]. by apply (decrypt_spec seed [] password).
Qed.

(** A restored wallet hands out addresses again: restoring another wallet's backup into a
    new one puts the accounts of the backup after the new wallet's own first account, whose
    index starts over, so that the first new address is one the other wallet already
    gave out. *)
Theorem restore_reuses_address `{Sha256Impl} `{Json} `{StdSort} `{Signature.SignatureBackends} `{SigningBackends}
    (w0 w : Wallet) (first : Account) (others : list Account) :
  accounts (db_ w) = [default_account] -> params_ w = params_ w0 ->
  accounts (db_ w0) = first :: others -> 1 <= highest_derived first -> Forall (account_fits 64 128) (first :: others) ->
  zlen (first :: others) < MAX_ACCOUNTS -> u32 (birth_height (db_ w0)) -> zlen (SerialiseMetadata (db_ w0)) < 2 ^ 64 ->
  zlen (seed_ w0) = Mnemonic.SEED_BYTES -> Forall (fun i => Mnemonic.word_index (Mnemonic.seed_bits (seed_ w0)) i <> 2047) Mnemonic.WORDS ->
  let '(ok, w') := RestoreFromBackup (ExportBackup w0) w in
  ok = true /\ seed_ w' = seed_ w0 /\ accounts (db_ w') = default_account :: accounts (db_ w0) /\
  (GetNewAddress DEFAULT_ACCOUNT w').1 ∈ ListAddresses DEFAULT_ACCOUNT w0.
Proof.
  intros Ha Hp Ha0 Hh Hfit Hroom Hb Hm Hseed Hwords. unfold RestoreFromBackup, ExportBackup. cbn [backup_mnemonic backup_metadata].
  rewrite (proj2 (Mnemonic.mnemonic_iff (seed_ w0) Hseed) Hwords).
  assert (SerialiseMetadata (db_ w0) <> []) as Hne.
  { rewrite SerialiseMetadata_eq. unfold meta_bytes. cbn [fst snd]. intros E. apply (f_equal zlen) in E. rewrite zlen_app, zlen_U32 in E.
    pose proof (zlen_nonneg (accounts_bytes (accounts (db_ w0)))). rewrite zlen_nil in E. lia. }
  rewrite bool_decide_false by done. cbn [db_ with_db].
  assert (Forall (account_fits (2 ^ 63) (2 ^ 63)) (accounts (db_ w0))) as Hbig.
  { rewrite Ha0. eapply Forall_impl; [exact Hfit|]. intros a (? & ? & ? & ? & ?). unfold account_fits. split_and!; done || lia. }
  assert (zlen (accounts (db_ w0)) < 2 ^ 64) as Hn by (rewrite Ha0; change MAX_ACCOUNTS with 64 in Hroom; lia).
  pose proof (DeserialiseMetadata_spec (db_ w0) (StoreSeed (seed_ w0) [] (db_ w)) Hb Hm Hn Hbig) as E.
  destruct (DeserialiseMetadata _ _) as [ok db]. rewrite Ha0 in E at 1. destruct E as [Eok Efields]. specialize (proj2 Eok Hfit) as ->.
  destruct (StoreSeed_fields (seed_ w0) [] (db_ w)) as (_ & _ & Eacc). rewrite Eacc, Ha in Efields.
  destruct Efields as (E1 & _); [done|rewrite Ha0; unfold zlen in *; cbn [length] in *; unfold MAX_ACCOUNTS in *; lia|]. cbn [app] in E1.
  split; [done|]. split; [done|]. cbn [db_ with_db]. split; [done|].
  assert (forall w a rest, accounts (db_ w) = a :: rest -> GetAccount DEFAULT_ACCOUNT (db_ w) = Some a) as Hget.
  { intros x a rest Ex. unfold GetAccount. rewrite Ex. rewrite zlen_cons. pose proof (zlen_nonneg rest). destruct (Z.geb_spec DEFAULT_ACCOUNT (1 + zlen rest)); [unfold DEFAULT_ACCOUNT in *; lia|done]. }
  unfold GetNewAddress, ListAddresses. cbn [db_ with_db]. set (w' := with_db db _).
  pose proof (Hget w' _ _ E1) as G'. pose proof (Hget w0 _ _ Ha0) as G0. change (GetAccount DEFAULT_ACCOUNT db) with (GetAccount DEFAULT_ACCOUNT (db_ w')).
  rewrite G', G0. cbn [fst]. change (wrapu 32 (highest_derived default_account + 1)) with 1.
  rewrite (address_info_seed DEFAULT_ACCOUNT 1 w' w0); [|done|done|by eexists..].
  apply (list_elem_of_fmap_2 (fun i => address_info DEFAULT_ACCOUNT i w0)). unfold indices. apply list_elem_of_In, in_map_iff.
  exists 1%nat. split; [done|]. apply in_seq. lia.
Qed.

(** Opening always succeeds: whatever the path, the file and the password, while the random
    source gives 32 bytes or fails, [Open] gives a wallet with a 32-byte seed; for a file
    that holds a 32-byte seed it is the stored one under a password with the same SHA-256,
    and another one under any other. *)
Theorem open_never_refuses `{Sha256Impl} `{Json} `{StdSort} `{Signature.SignatureBackends} `{SigningBackends}
    (path : bool) (contents : option bytes) (password : bytes) (params : ChainParams) (entropy : option bytes) :
  (forall e, entropy = Some e -> zlen e = 32) ->
  exists w, Open path contents password params entropy = Some w /\ zlen (seed_ w) = 32 /\
    forall seed old, zlen seed = 32 -> has_seed (WalletDb_open path contents) = true ->
      encrypted_seed (WalletDb_open path contents) = SimpleEncrypt seed old ->
      seed_ w = seed <-> Sha256 password = Sha256 old.
Proof.
  intros He. set (db := WalletDb_open path contents).
  assert (forall w, HasSeed (db_ w) = true -> (exists s, LoadSeed password (db_ w) = Some s /\ zlen s = 32 /\ s = seed_ w) ->
    (if negb (HasSeed (db_ w)) then None else match LoadSeed password (db_ w) with
      | Some s => if negb (zlen s =? 32) then None else Some (with_seed s w) | None => None end) = Some w) as Hopen.
  { intros [] -> (s & -> & Hs & Es). rewrite Hs. cbn in Es |- *. by subst. }
  unfold Open. set (w := new_Wallet path contents password params entropy).
  assert (HasSeed (db_ w) = true /\ (exists s, LoadSeed password (db_ w) = Some s /\ zlen s = 32 /\ s = seed_ w) /\
    forall seed old, zlen seed = 32 -> has_seed db = true -> encrypted_seed db = SimpleEncrypt seed old ->
      seed_ w = seed <-> Sha256 password = Sha256 old) as (E1 & (s & Es & Hs & Ew) & E3).
  2: { exists w. split; [apply Hopen; [done|by exists s]|]. split; [congruence|done]. }
  unfold w, new_Wallet. fold db. set (fresh := mkWallet _ _ _ _ _ _ _ _).
  assert (HasSeed (db_ fresh) = true /\ (exists s, LoadSeed password (db_ fresh) = Some s /\ zlen s = 32 /\ s = seed_ fresh)) as Hfresh.
  { cbn [db_ seed_ fresh]. assert (zlen (GenerateSeed entropy) = 32) as Hl by (unfold GenerateSeed; destruct entropy; [by apply He|done]).
    destruct (StoreSeed_fields (GenerateSeed entropy) password db) as (Ea & Eb & _). set (d := StoreSeed _ _ _) in *.
    unfold HasSeed, LoadSeed. destruct (AddAccount_seed default_account (SetBirthHeight 0 d)) as [-> ->].
    destruct (SetBirthHeight_seed 0 d) as [-> ->]. rewrite Ea, Eb. split; [done|]. eexists. split; [done|].
    destruct (decrypt_spec (GenerateSeed entropy) password password) as (_ & _ & ->); [|done]. done. }
  destruct (HasSeed db) eqn:Eh.
  2: { split_and!; [apply Hfresh..|]. intros seed old _ Hh. unfold HasSeed in Eh. congruence. }
  unfold LoadSeed. unfold HasSeed in Eh. rewrite Eh. cbn [negb]. destruct (Z.eqb_spec (zlen (SimpleDecrypt (encrypted_seed db) password)) 32) as [El|Hl].
  - cbn [db_ seed_]. split; [done|]. split; [eexists; split; [unfold LoadSeed; by rewrite Eh|done]|]. intros seed old Hseed _ ->. by apply decrypt_spec.
  - split_and!; [apply Hfresh..|]. intros seed old Hseed _ Ee. exfalso. apply Hl. rewrite Ee. by rewrite (proj1 (decrypt_spec seed old password)).
Qed.
(** ** Witnesses *)

#[local] Existing Instance toy_Sha256Impl.

(** No file: nothing is written, so the text of one is never asked for. *)
Definition no_Json : Json :=
  {| dump _ := []; parse _ := None; representable _ := False; parse_dump r E := match E with end |}.
#[local] Existing Instance no_Json.

Definition toy_wallet (entropy : bytes) : Wallet := new_Wallet false None (str "secret") REGTEST_PARAMS (Some entropy).
Definition toy_payment (index value : Z) : Transaction :=
  mkTransaction 1 [mkTxInput (mkOutPoint (repeat Byte.x09 32) index) 0] [mkTxOutput value (DeriveLock 0 0 (toy_wallet toy_key))] 0 [] [].
Definition toy_chain : list (Block * Z) :=
  [(mkBlock (mkBlockHeader 1 1 [] [] 0 0 0) [toy_payment 1 50000], 1); (mkBlock (mkBlockHeader 1 2 [] [] 0 0 0) [toy_payment 2 90000], 2)].
Definition toy_lock : Lock := mkLock 1 (repeat Byte.x03 32).
Abbreviation toy_scanned := (Rescan toy_chain (toy_wallet toy_key)).
Definition toy_sent : option (SendResult * Wallet) := SendToLock toy_lock 40000 0 toy_scanned.
Definition no_result : SendResult := mkSendResult [] 0 [].
Definition toy_result : SendResult := default no_result (fst <$> toy_sent).
Definition toy_after : Wallet := default toy_scanned (snd <$> toy_sent).

Lemma toy_chain_ok : chain_ok toy_chain.
Proof.
  split; [|repeat constructor]. apply (bool_decide_unpack _). vm_compute. exact I.
Qed.

Lemma toy_keys_ok : keys_ok (toy_wallet toy_key).
Proof.
  split; [repeat constructor; vm_compute; congruence|]. intros own [<-|[]]. vm_compute. eauto.
Qed.

Definition toy_again : option (SendResult * Wallet) := SendToLock toy_lock 30000 0 toy_after.
Definition toy_result2 : SendResult := default no_result (fst <$> toy_again).
Definition toy_after2 : Wallet := default toy_after (snd <$> toy_again).

Lemma toy_sent_again : SendToLock toy_lock 30000 0 toy_after = Some (toy_result2, toy_after2).
Proof. vm_compute. reflexivity. Qed.

Lemma toy_sent_some : SendToLock toy_lock 40000 0 toy_scanned = Some (toy_result, toy_after).
Proof. vm_compute. reflexivity. Qed.

Lemma rescan_finds_coins_witness :
  confirmed (balance_ toy_scanned) + pending (balance_ toy_scanned) = amounts (utxos_ toy_scanned) /\ amounts (utxos_ toy_scanned) = 140000.
Proof.
  split; [|vm_compute; reflexivity].
  assert (priced (utxos_ toy_scanned)) as P by (unfold priced; apply (bool_decide_unpack _); vm_compute; exact I).
  assert (amounts (utxos_ toy_scanned) < 2 ^ 63) as L by (vm_compute; reflexivity).
  destruct (rescan_finds_coins toy_chain (toy_wallet toy_key) toy_chain_ok) as (_ & _ & E). exact (proj1 (E P L)).
Defined.

Lemma wallet_send_valid_witness : exists tx coins, res_txid toy_result = Txid tx /\
  Validation.CheckTransactionInputs tx coins 3 REGTEST_PARAMS = Validation.Ok (res_fee toy_result) /\
  Validation.CheckTransaction tx REGTEST_PARAMS = Validation.Accept.
Proof.
  destruct (wallet_send_valid toy_chain (toy_wallet toy_key) toy_after toy_lock 40000 0 toy_result) as (tx & coins & E0 & E1 & _ & _ & _ & E2 & E3).
  - apply toy_chain_ok.
  - apply toy_keys_ok.
  - repeat constructor; vm_compute; congruence.
  - unfold TxBuilder.coins_valid. apply (bool_decide_unpack _). vm_compute. exact I.
  - reflexivity.
  - unfold TxBuilder.builder_ok, affordable_range, priced. apply (bool_decide_unpack _). vm_compute. exact I.
  - apply toy_sent_some.
  - exists tx, coins. split; [exact E1|]. split; [exact E2|]. apply E3. clear E1 E2 E3.
    assert (match TxBuilder.stx_tx <$> (TxBuilder.Build (send_builder toy_lock 40000 0 toy_scanned) ≫= TxBuilder.Sign (send_builder toy_lock 40000 0 toy_scanned)) with
      Some tx => let l := limits_tx (block_limits REGTEST_PARAMS) in
        (1 <=? max_keys l) && (zlen (tx_inputs tx) <=? max_inputs l) && (zlen (tx_outputs tx) <=? max_outputs l) && (Transaction_Weight tx <=? max_block_weight REGTEST_PARAMS)
      | None => false end = true) as C by (vm_compute; reflexivity).
    rewrite E0 in C. cbv zeta in C. rewrite !andb_true_iff, !Z.leb_le in C. destruct C as [[[C1 C2] C3] C4].
    exact (conj C1 (conj C2 (conj C3 C4))).
Defined.

Lemma sends_conflict_witness : exists t1 t2 o, res_raw_tx_hex toy_result = Hex.ToHex (encode Transaction_Serialize t1) /\
  o ∈ map in_outpoint (tx_inputs t1) /\ o ∈ map in_outpoint (tx_inputs t2).
Proof.
  destruct (sends_conflict toy_scanned toy_after toy_after2 toy_lock toy_lock 40000 30000 0 0 toy_result toy_result2 toy_sent_some toy_sent_again) as (t1 & t2 & o & E & _ & H1 & H2).
  exists t1, t2, o. split; [exact E|]. split; [exact H1|exact H2].
Defined.

Definition toy_backup : WalletBackup := ExportBackup (GetNewAddress DEFAULT_ACCOUNT (toy_wallet Mnemonic.sample_seed)).2.

Lemma restore_forgets_password_witness :
  seed_ (RestoreFromBackup toy_backup (toy_wallet toy_key)).2 = Mnemonic.sample_seed.
Proof. apply (restore_forgets_password (toy_wallet toy_key) toy_backup Mnemonic.sample_seed (str "secret")). vm_compute. reflexivity. Defined.

Lemma restore_reuses_address_witness :
  (GetNewAddress DEFAULT_ACCOUNT (RestoreFromBackup toy_backup (toy_wallet toy_key)).2).1 ∈
    ListAddresses DEFAULT_ACCOUNT (GetNewAddress DEFAULT_ACCOUNT (toy_wallet Mnemonic.sample_seed)).2.
Proof.
  set (w0 := (GetNewAddress DEFAULT_ACCOUNT (toy_wallet Mnemonic.sample_seed)).2).
  pose proof (restore_reuses_address w0 (toy_wallet toy_key) (mkAccount (str "Everyday Spending") DEFAULT_SCHEME 0 1 20) []) as R.
  destruct (RestoreFromBackup (ExportBackup w0) (toy_wallet toy_key)) as [ok w'] eqn:E. unfold toy_backup. fold w0. rewrite E. apply R.
  - vm_compute. reflexivity.
  - reflexivity.
  - vm_compute. reflexivity.
  - vm_compute. congruence.
  - repeat constructor; vm_compute; congruence.
  - reflexivity.
  - vm_compute. split; congruence.
  - vm_compute. reflexivity.
  - reflexivity.
  - apply Mnemonic.recoverable_spec. vm_compute. reflexivity.
Defined.
Lemma open_never_refuses_witness : exists w, Open false None (str "secret") REGTEST_PARAMS (Some toy_key) = Some w /\ zlen (seed_ w) = 32.
Proof.
  destruct (open_never_refuses false None (str "secret") REGTEST_PARAMS (Some toy_key)) as (w & E & Hl & _); [by intros e [= <-]|]. by exists w.
Defined.
End Wallet.
