(* ===== verification/JsonValue.v ===== *)
(** * JSON values (what rpc/ uses of nlohmann::json)

    The value type, the operations on it, and the text form as a parameter.  An object's
    members are a map: the library keeps them by key. *)

From Stdlib Require Import String.
From S2P Require Import Prelude Overflow Serialize Crypto.
From stdpp Require Import gmap list.
#[local] Open Scope Z_scope.

Module JsonValue.

(** An integer remembers whether the type it came from is signed; a [double] is its bits. *)
Inductive json :=
  | JNull
  | JBool (b : bool)
  | JUnsigned (n : Z)
  | JInteger (n : Z)
  | JFloat (bits : Z)
  | JString (s : bytes)
  | JArray (l : list json)
  | JObject (members : gmap bytes json).

Definition is_null (v : json) : bool := match v with JNull => true | _ => false end.
Definition is_object (v : json) : bool := match v with JObject _ => true | _ => false end.
Definition is_array (v : json) : bool := match v with JArray _ => true | _ => false end.

(** [json{{"key", value}, ...}] *)
Definition object (members : list (string * json)) : json := JObject (list_to_map (map (fun m => (str m.1, m.2)) members)).

(** [value.find(key)] *)
Definition member (key : string) (v : json) : option json := match v with JObject m => m !! str key | _ => None end.

(** [value[key] = x] on an object. *)
Definition set_member (key : string) (x v : json) : json := match v with JObject m => JObject (<[str key := x]> m) | _ => v end.

Definition text (s : string) : json := JString (str s).

(** What a value is once it has been written and read: a number that is not negative is
    read as unsigned. *)
Fixpoint reread (v : json) : json :=
  match v with
  | JInteger n => if 0 <=? n then JUnsigned n else JInteger n
  | JArray l => JArray (map reread l)
  | JObject m => JObject (reread <$> m)
  | v => v
  end.

(** The text form.  [printable] are the values that can be written: strings are UTF-8 and
    floats are finite. *)
Class JsonText := {
  dump : json -> bytes;
  parse : bytes -> option json;
  printable : json -> Prop;
  parse_dump v : printable v -> parse (dump v) = Some (reread v) }.

(** ** Lemmas *)

Lemma reread_null v : is_null (reread v) = is_null v.
Proof. destruct v; cbn; try done. by destruct (0 <=? n). Qed.

Lemma member_reread key v : member key (reread v) = reread <$> member key v.
Proof. destruct v; cbn; try done; [by destruct (0 <=? n)|]. apply lookup_fmap. Qed.
End JsonValue.
