(* ===== verification/Http.v ===== *)
(** * The RPC transport as bytes (rpc/http.cpp)

    Framing of a request, the tests it must pass to be answered, responses, and the cookie
    that is the credential. *)

From Stdlib Require Import String.
From S2P Require Import Prelude Overflow Serialize Hex Text Crypto.
From stdpp Require Import gmap list.
#[local] Open Scope Z_scope.

Module Http.

(** ** Strings: what the code uses of [std::string_view] *)

(** [find]: the position of the first occurrence of a pattern. *)
Fixpoint find (pat s : bytes) : option nat :=
  if bool_decide (take (length pat) s = pat) then Some O
  else match s with
       | [] => None
       | _ :: s => S <$> find pat s
       end.

(** [rfind] of one character. *)
Fixpoint rfind (c : Init.Byte.byte) (s : bytes) : option nat :=
  match s with
  | [] => None
  | x :: s => match rfind c s with
              | Some i => Some (S i)
              | None => if bool_decide (x = c) then Some O else None
              end
  end.

(** The part before a position that was found, or everything; and the part after it. *)
Definition before (i : option nat) (s : bytes) : bytes := match i with Some i => take i s | None => s end.
Definition after (width : nat) (i : option nat) (s : bytes) : bytes := match i with Some i => drop (i + width) s | None => [] end.

Definition to_chars (n : Z) : bytes := str (Text.to_string n).

Definition SP : Init.Byte.byte := Byte.x20.
Definition HT : Init.Byte.byte := Byte.x09.
Definition COLON : Init.Byte.byte := Byte.x3a.
Definition LINE_TERMINATOR : bytes := [Byte.x0d; Byte.x0a].
Definition HEADER_TERMINATOR : bytes := LINE_TERMINATOR ++ LINE_TERMINATOR.

Definition AsciiLower (c : Init.Byte.byte) : Init.Byte.byte :=
  if (65 <=? char_value c) && (char_value c <=? 90) then z2b (char_value c - 65 + 97) else c.

Fixpoint same_letters (a b : bytes) : bool :=
  match a, b with
  | x :: a, y :: b => if negb (bool_decide (AsciiLower x = AsciiLower y)) then false else same_letters a b
  | _, _ => true
  end.
Definition IEquals (a b : bytes) : bool := if negb (zlen a =? zlen b) then false else same_letters a b.

Fixpoint trim_front (text : bytes) : bytes :=
  match text with
  | c :: rest => if bool_decide (c = SP) || bool_decide (c = HT) then trim_front rest else text
  | [] => []
  end.
Definition TrimOws (text : bytes) : bytes := rev (trim_front (rev (trim_front text))).

Definition IsTokenName (name : bytes) : bool :=
  negb (bool_decide (name = [])) &&
  forallb (fun c => negb ((char_value c <=? 32) || (char_value c =? 127) || bool_decide (c = COLON))) name.

Fixpoint parse_digits (limit value : Z) (text : bytes) : option Z :=
  match text with
  | [] => Some value
  | c :: text =>
      if (char_value c <? 48) || (char_value c >? 57) then None
      else
        let digit := char_value c - 48 in
        if value >? wrapu 64 (limit - digit) / 10 then None
        else parse_digits limit (wrapu 64 (value * 10 + digit)) text
  end.
Definition ParseLength (text : bytes) (limit : Z) : option Z :=
  if bool_decide (text = []) || (zlen text >? 20) then None else parse_digits limit 0 text.

(** ** Requests *)

Definition MAX_REQUEST_BYTES : Z := Z.shiftl 8 20.
Definition MAX_HEADER_BYTES : Z := 8192.

Inductive HttpStatus :=
  | Ok | BadRequest | Unauthorized | Forbidden | NotFound | MethodNotAllowed | PayloadTooLarge | UnsupportedMediaType.

#[global] Instance HttpStatus_eq_dec : EqDecision HttpStatus.
Proof. solve_decision. Defined.

Definition status_code (status : HttpStatus) : Z :=
  match status with
  | Ok => 200 | BadRequest => 400 | Unauthorized => 401 | Forbidden => 403 | NotFound => 404 | MethodNotAllowed => 405
  | PayloadTooLarge => 413 | UnsupportedMediaType => 415
  end.

Definition ReasonPhrase (status : HttpStatus) : bytes :=
  match status with
  | Ok => str "OK"
  | BadRequest => str "Bad Request"
  | Unauthorized => str "Unauthorized"
  | Forbidden => str "Forbidden"
  | NotFound => str "Not Found"
  | MethodNotAllowed => str "Method Not Allowed"
  | PayloadTooLarge => str "Payload Too Large"
  | UnsupportedMediaType => str "Unsupported Media Type"
  end.

Record HttpRequest := mkHttpRequest { method : bytes; target : bytes; headers : list (bytes * bytes); body : bytes }.

Definition Header (request : HttpRequest) (name : bytes) : option bytes :=
  snd <$> List.find (fun h => IEquals h.1 name) (headers request).

Definition CountHeader (request : HttpRequest) (name : bytes) : Z :=
  zlen (List.filter (fun h => IEquals h.1 name) (headers request)).

Inductive Framing := Complete | NeedMore | Malformed | TooLarge.

Record Framed := mkFramed { state : Framing; request : HttpRequest; status : HttpStatus; consumed : Z }.

Definition no_request : HttpRequest := mkHttpRequest [] [] [] [].

Definition Refuse (state : Framing) (status : HttpStatus) : Framed := mkFramed state no_request status 0.

(** One header line that is not empty; [None] is a malformed one. *)
Definition parse_line (line : bytes) : option (bytes * bytes) :=
  if match line with front :: _ => bool_decide (front = SP) || bool_decide (front = HT) | [] => false end then None
  else
    colon ← find [COLON] line;
    let name := take colon line in
    if negb (IsTokenName name) then None else Some (name, TrimOws (drop (colon + 1) line)).

(** The header lines; a step leaves less of the text, so its length is enough fuel. *)
Fixpoint read_headers (fuel : nat) (rest : bytes) : option (list (bytes * bytes)) :=
  match fuel, rest with
  | _, [] => Some []
  | O, _ => None
  | S fuel, _ =>
      let line_end := find LINE_TERMINATOR rest in
      let line := before line_end rest in
      let rest := after 2 line_end rest in
      if bool_decide (line = []) then read_headers fuel rest
      else
        header ← parse_line line;
        headers ← read_headers fuel rest;
        Some (header :: headers)
  end.

Definition HTTP_1_1 : bytes := str "HTTP/1.1".
Definition HTTP_1_0 : bytes := str "HTTP/1.0".
Definition TRANSFER_ENCODING : bytes := str "Transfer-Encoding".
Definition CONTENT_LENGTH : bytes := str "Content-Length".
Definition SLASH : Init.Byte.byte := Byte.x2f.

Definition all_digits (text : bytes) : bool := forallb (fun c => (48 <=? char_value c) && (char_value c <=? 57)) text.

(** What the head says of the request: all of it but the body, or [None]. *)
Definition parse_head (head : bytes) : option HttpRequest :=
  let request_line_end := find LINE_TERMINATOR head in
  let request_line := before request_line_end head in
  first_space ← find [SP] request_line;
  let after_first := drop (first_space + 1) request_line in
  gap ← find [SP] after_first;
  let version := drop (gap + 1) after_first in
  if negb (bool_decide (version = HTTP_1_1) || bool_decide (version = HTTP_1_0)) then None
  else
    let method := take first_space request_line in
    let target := take gap after_first in
    if negb (match target with c :: _ => bool_decide (c = SLASH) | [] => false end) then None
    else
      let rest := after 2 request_line_end head in
      headers ← read_headers (length rest) rest;
      Some (mkHttpRequest method target headers []).

Definition FrameRequest (buffer : bytes) : Framed :=
  match find HEADER_TERMINATOR buffer with
  | None => if zlen buffer >? MAX_HEADER_BYTES then Refuse TooLarge PayloadTooLarge else Refuse NeedMore Ok
  | Some header_end =>
      if Z.of_nat header_end >? MAX_HEADER_BYTES then Refuse TooLarge PayloadTooLarge
      else match parse_head (take header_end buffer) with
      | None => Refuse Malformed BadRequest
      | Some request =>
          if negb (CountHeader request TRANSFER_ENCODING =? 0) then Refuse Malformed BadRequest
          else if negb (CountHeader request CONTENT_LENGTH =? 1) then Refuse Malformed BadRequest
          else
            let length_text := default [] (Header request CONTENT_LENGTH) in
            match ParseLength length_text MAX_REQUEST_BYTES with
            | None =>
                if negb (bool_decide (length_text = [])) && all_digits length_text then Refuse TooLarge PayloadTooLarge
                else Refuse Malformed BadRequest
            | Some length =>
                let body_begin := (header_end + 4)%nat in
                if zlen buffer <? Z.of_nat body_begin + length then Refuse NeedMore Ok
                else mkFramed Complete
                       (mkHttpRequest (method request) (target request) (headers request)
                          (take (Z.to_nat length) (drop body_begin buffer)))
                       BadRequest (Z.of_nat body_begin + length)
            end
      end
  end.

(** ** Screening *)

Record AuthPolicy := mkAuthPolicy { expected_authorization : bytes; port : Z }.

Fixpoint differences (diff : Z) (a b : bytes) : Z :=
  match a, b with
  | x :: a, y :: b => differences (Z.lor diff (Z.lxor (b2z x) (b2z y))) a b
  | _, _ => diff
  end.
Definition ConstantTimeEquals (a b : bytes) : bool := differences (if zlen a =? zlen b then 0 else 1) a b =? 0.

(** The colon a trailing port follows. *)
Definition port_colon (host : bytes) : option nat :=
  match rfind COLON host, rfind Byte.x5d host with
  | None, _ => None
  | Some colon, None => if bool_decide (find [COLON] host = Some colon) then Some colon else None
  | Some colon, Some bracket => if bool_decide (bracket < colon)%nat then Some colon else None
  end.

Definition is_loopback_name (name : bytes) : bool :=
  bool_decide (name = str "127.0.0.1") || bool_decide (name = str "localhost") || bool_decide (name = str "[::1]").

Definition IsLoopbackHost (host : bytes) (port : Z) : bool :=
  match port_colon host with
  | Some colon =>
      match ParseLength (drop (colon + 1) host) 65535 with
      | Some given => if negb (wrapu 16 given =? port) then false else is_loopback_name (take colon host)
      | None => false
      end
  | None => is_loopback_name host
  end.

Definition AUTHORIZATION : bytes := str "Authorization".
Definition HOST : bytes := str "Host".
Definition CONTENT_TYPE : bytes := str "Content-Type".
Definition APPLICATION_JSON : bytes := str "application/json".

Definition Screen (request : HttpRequest) (policy : AuthPolicy) : option HttpStatus :=
  if negb (CountHeader request AUTHORIZATION =? 1) then Some Unauthorized
  else if negb (ConstantTimeEquals (default [] (Header request AUTHORIZATION)) (expected_authorization policy)) then Some Unauthorized
  else if negb (CountHeader request HOST =? 1) then Some Forbidden
  else if negb (IsLoopbackHost (default [] (Header request HOST)) (port policy)) then Some Forbidden
  else if negb (bool_decide (method request = str "POST")) then Some MethodNotAllowed
  else if negb (bool_decide (target request = str "/")) then Some NotFound
  else match Header request CONTENT_TYPE with
       | None => Some UnsupportedMediaType
       | Some content_type =>
           let media := TrimOws (before (find [Byte.x3b] content_type) content_type) in
           if negb (IEquals media APPLICATION_JSON) then Some UnsupportedMediaType else None
       end.

(** ** Responses *)

Definition QUOTE : bytes := [Byte.x22].

Definition RenderResponse (status : HttpStatus) (body content_type : bytes) : bytes :=
  str "HTTP/1.1 " ++ to_chars (status_code status) ++ [SP] ++ ReasonPhrase status ++
  LINE_TERMINATOR ++ str "Content-Type: " ++ content_type ++
  LINE_TERMINATOR ++ str "Content-Length: " ++ to_chars (zlen body) ++
  LINE_TERMINATOR ++ str "Connection: close" ++
  LINE_TERMINATOR ++ str "X-Content-Type-Options: nosniff" ++
  (if bool_decide (status = Unauthorized) then
     LINE_TERMINATOR ++ str "WWW-Authenticate: Basic realm=" ++ QUOTE ++ str "amarian" ++ QUOTE
   else []) ++
  HEADER_TERMINATOR ++ body.

Definition RenderRefusal (status : HttpStatus) : bytes :=
  RenderResponse status (to_chars (status_code status) ++ [SP] ++ ReasonPhrase status ++ [Byte.x0a]) (str "text/plain; charset=utf-8").

(** ** The cookie *)

Definition ALPHABET : bytes := str "ABCDEFGHIJKLMNOPQRSTUVWXYZabcdefghijklmnopqrstuvwxyz0123456789+/".

Definition sextet (group shift : Z) : Init.Byte.byte := default Byte.x00 (ALPHABET !! Z.to_nat (Z.land (Z.shiftr group shift) 63)).

Fixpoint Base64Encode (input : bytes) : bytes :=
  match input with
  | x :: y :: z :: rest =>
      let group := Z.lor (Z.lor (Z.shiftl (b2z x) 16) (Z.shiftl (b2z y) 8)) (b2z z) in
      [sextet group 18; sextet group 12; sextet group 6; sextet group 0] ++ Base64Encode rest
  | [x; y] =>
      let group := Z.lor (Z.shiftl (b2z x) 16) (Z.shiftl (b2z y) 8) in
      [sextet group 18; sextet group 12; sextet group 6; Byte.x3d]
  | [x] =>
      let group := Z.shiftl (b2z x) 16 in
      [sextet group 18; sextet group 12; Byte.x3d; Byte.x3d]
  | [] => []
  end.

Definition Authorization (credential_ : bytes) : bytes := str "Basic " ++ Base64Encode credential_.

Definition TOKEN_BYTES : Z := 32.
Definition COOKIE_USER : bytes := str "__cookie__".
Definition credential_of (token : bytes) : bytes := COOKIE_USER ++ [COLON] ++ Hex.ToHex token.

(** *** The cookie's file

    The parts of the disk that matter are files with their contents and whether only their
    owner may read them. *)

Record File := mkFile { owner_only : bool; contents : bytes }.
Abbreviation Disk := (gmap bytes File).

(** What goes wrong underneath: which calls fail, and how much of a failed write arrives. *)
Record FsFaults := mkFsFaults {
  remove_fails : bool;
  create_fails : bool;
  permissions_fail : bool;
  write_fails : bool;
  arrived : nat;
  rename_fails : bool }.

Inductive CookieError :=
  | EntropyFailed | CannotCreate | CannotRestrict | CannotWrite | CannotMove
  | CannotOpen | CannotRead | IsTooLarge | IsEmpty | NoCredential.

(** [WriteOwnerOnly]: what it reports, and the states the disk goes through.  A file that is
    created is readable by others until it is restricted; one that is there keeps its mode. *)
Definition WriteOwnerOnly (path text : bytes) (faults : FsFaults) (disk : Disk) : option CookieError * list Disk :=
  if create_fails faults then (Some CannotCreate, [])
  else
    let opened := <[path := mkFile (match disk !! path with Some f => owner_only f | None => false end) []]> disk in
    if permissions_fail faults then (Some CannotRestrict, [opened])
    else
      let restricted := <[path := mkFile true []]> opened in
      if write_fails faults then (Some CannotWrite, [opened; restricted; <[path := mkFile true (take (arrived faults) text)]> restricted])
      else (None, [opened; restricted; <[path := mkFile true text]> restricted]).

Definition remove (path : bytes) (fails : bool) (disk : Disk) : Disk := if fails then disk else delete path disk.

(** The last state of a run that went through [states] from [disk]. *)
Definition final (disk : Disk) (states : list Disk) : Disk := default disk (last states).

Definition temp_path (path : bytes) : bytes := path ++ str ".tmp".

(** [Cookie::Generate]: the credential or the failure, and the states the disk goes through. *)
Definition Generate (token : bytes) (path : bytes) (faults : FsFaults) (disk : Disk) : (CookieError + bytes) * list Disk :=
  if negb (zlen token =? TOKEN_BYTES) then (inl EntropyFailed, [])
  else
    let credential_ := credential_of token in
    let temp := temp_path path in
    let cleared := remove temp (remove_fails faults) disk in
    let '(failure, states) := WriteOwnerOnly temp credential_ faults cleared in
    let written := final cleared states in
    match failure with
    | Some failure => (inl failure, cleared :: states ++ [remove temp (remove_fails faults) written])
    | None =>
        if rename_fails faults then (inl CannotMove, cleared :: states ++ [remove temp (remove_fails faults) written])
        else (inr credential_, cleared :: states ++ [delete temp (match written !! temp with Some f => <[path := f]> written | None => written end)])
    end.

Fixpoint trim_eol (reversed : bytes) : bytes :=
  match reversed with
  | c :: rest => if bool_decide (c = Byte.x0a) || bool_decide (c = Byte.x0d) then trim_eol rest else reversed
  | [] => []
  end.

(** [Cookie::Read] of a file that opened or not; [bad] is a stream that failed. *)
Definition Cookie_Read (file : option bytes) (bad : bool) : CookieError + bytes :=
  match file with
  | None => inl CannotOpen
  | Some stored =>
      if bad then inl CannotRead
      else
        let buffer := take 256 stored in
        if zlen buffer =? 256 then inl IsTooLarge
        else
          let contents := rev (trim_eol (rev buffer)) in
          if bool_decide (contents = []) then inl IsEmpty
          else if bool_decide (find [COLON] contents = None) then inl NoCredential
          else inr contents
  end.

(** ** Lemmas: searching *)

Lemma find_prefix pat s : find pat (pat ++ s) = Some O.
Proof. destruct pat as [|c pat]; [by destruct s|]. cbn [find app length take]. by rewrite take_app_length, bool_decide_true. Qed.

Lemma find_cons_ne p pat c s : c <> p -> find (p :: pat) (c :: s) = S <$> find (p :: pat) s.
Proof. intros Hc. cbn [find]. rewrite bool_decide_false; [done|]. cbn. congruence. Qed.

(** Characters that do not begin the pattern are passed over. *)
Lemma find_skip p pat l s : Forall (fun c => c <> p) l -> find (p :: pat) (l ++ s) = (fun i => length l + i)%nat <$> find (p :: pat) s.
Proof.
  induction 1 as [|c l Hc _ IH]; [cbn [app length]; by destruct (find (p :: pat) s)|]. cbn [app]. rewrite find_cons_ne by done.
  rewrite IH. by destruct (find (p :: pat) s).
Qed.

Lemma find_absent p pat l : Forall (fun c => c <> p) l -> find (p :: pat) l = None.
Proof. intros F. rewrite <- (app_nil_r l), find_skip by done. done. Qed.

Lemma find_at p pat l s : Forall (fun c => c <> p) l -> find (p :: pat) (l ++ p :: pat ++ s) = Some (length l).
Proof. intros F. rewrite find_skip by done. change (p :: pat ++ s) with ((p :: pat) ++ s). rewrite find_prefix. cbn. by rewrite Nat.add_0_r. Qed.

(** What is found is there, and stays found when more follows. *)
Lemma find_Some pat s : forall i, find pat s = Some i -> take (length pat) (drop i s) = pat /\ (i <= length s)%nat.
Proof.
  induction s as [|c s IH]; intros i; cbn [find].
  - destruct (decide (take (length pat) [] = pat)) as [E|E]; [rewrite bool_decide_true by done|by rewrite bool_decide_false]. intros [= <-]. done.
  - destruct (decide (take (length pat) (c :: s) = pat)) as [E|E]; [rewrite bool_decide_true by done|rewrite bool_decide_false by done].
    + intros [= <-]. split; [done|lia].
    + intros (j & Ej & ->)%fmap_Some. destruct (IH j Ej) as [H1 H2]. cbn. split; [done|lia].
Qed.

Lemma find_Some_fits pat s i : find pat s = Some i -> (i + length pat <= length s)%nat.
Proof.
  intros E. apply find_Some in E as [E Hi]. apply (f_equal length) in E. rewrite length_take, length_drop in E. lia.
Qed.

Lemma find_app pat a b i : find pat a = Some i -> find pat (a ++ b) = Some i.
Proof.
  revert i. induction a as [|c a IH]; intros i; cbn [find app].
  - destruct (decide (take (length pat) [] = pat)) as [E|E]; [rewrite bool_decide_true by done|by rewrite bool_decide_false].
    intros [= <-]. rewrite take_nil in E. subst pat. by destruct b.
  - destruct (decide (take (length pat) (c :: a) = pat)) as [E|E]; [rewrite bool_decide_true by done|rewrite bool_decide_false by done].
    + intros [= <-]. rewrite bool_decide_true; [done|]. rewrite <- E at 2. apply (f_equal length) in E. rewrite length_take in E.
      change (c :: a ++ b) with ((c :: a) ++ b). rewrite take_app_le by lia. done.
    + intros (j & Ej & ->)%fmap_Some. rewrite (IH j Ej). destruct (decide (take (length pat) (c :: a ++ b) = pat)) as [E'|E'].
      * exfalso. apply E. apply find_Some_fits in Ej. rewrite <- E' at 2. change (c :: a ++ b) with ((c :: a) ++ b). rewrite take_app_le by (cbn; lia). done.
      * by rewrite bool_decide_false.
Qed.

(** A pattern that comes up only with more text ends in that text. *)
Lemma find_app_new pat a b i : find pat a = None -> find pat (a ++ b) = Some i -> (length a < i + length pat)%nat.
Proof.
  intros En Es. destruct (decide (length a < i + length pat)%nat) as [|Hge]; [done|]. exfalso.
  apply find_Some in Es as [Es _]. assert (take (length pat) (drop i a) = pat) as Ea.
  { rewrite <- Es at 2. rewrite drop_app_le, take_app_le; [done|rewrite length_drop; lia|lia]. }
  clear Es b. revert i Hge Ea. induction a as [|c a IH]; intros i Hge Ea; cbn [find] in En.
  - rewrite drop_nil in Ea. by rewrite bool_decide_true in En.
  - destruct i as [|i]; [cbn in Ea; by rewrite bool_decide_true in En|]. cbn in Ea, Hge.
    destruct (bool_decide _); [done|]. apply fmap_None in En. apply (IH En i); [lia|done].
Qed.

(** ** Lemmas: framing *)

(** The only frontier a later packet can move: a section that had to be refused for its
    size although its end, which was about to come, is within the bound. *)
Lemma FrameRequest_app a b : state (FrameRequest a) <> NeedMore ->
  FrameRequest (a ++ b) = FrameRequest a \/
  exists i, find HEADER_TERMINATOR (a ++ b) = Some i /\ MAX_HEADER_BYTES - 3 < Z.of_nat i /\ Z.of_nat i <= MAX_HEADER_BYTES /\
    FrameRequest a = Refuse TooLarge PayloadTooLarge.
Proof.
  intros Hs. unfold FrameRequest in Hs |- *. destruct (find HEADER_TERMINATOR a) as [i|] eqn:Ea.
  - left. rewrite (find_app _ _ b _ Ea). apply find_Some_fits in Ea. change (length HEADER_TERMINATOR) with 4%nat in Ea.
    destruct (_ >? _); [done|]. rewrite take_app_le by lia. destruct (parse_head _) as [r|]; [|done].
    do 2 (destruct (negb _); [done|]). destruct (ParseLength _ _) as [n|]; [|done]. rewrite zlen_app. pose proof (zlen_nonneg b).
    destruct (Z.ltb_spec (zlen a) (Z.of_nat (i + 4) + n)); [done|]. destruct (Z.ltb_spec (zlen a + zlen b) (Z.of_nat (i + 4) + n)); [lia|].
    do 2 f_equal. rewrite drop_app_le by lia. rewrite take_app_le; [done|]. rewrite length_drop. unfold zlen in *. lia.
  - destruct (Z.gtb_spec (zlen a) MAX_HEADER_BYTES) as [Hl|]; [|done]. destruct (find HEADER_TERMINATOR (a ++ b)) as [i|] eqn:Eab.
    + destruct (Z.gtb_spec (Z.of_nat i) MAX_HEADER_BYTES); [by left|]. right. exists i. split; [done|].
      apply (find_app_new _ _ _ _ Ea) in Eab. change (length HEADER_TERMINATOR) with 4%nat in Eab. unfold zlen in Hl. split; [lia|done].
    + left. rewrite zlen_app. pose proof (zlen_nonneg b). destruct (Z.gtb_spec (zlen a + zlen b) MAX_HEADER_BYTES); [done|lia].
Qed.

(** *** Text that is framed *)

Definition CR : Init.Byte.byte := Byte.x0d.
Definition no_cr (l : bytes) : Prop := Forall (fun c => c <> CR) l.

(** A first line and the lines after it. *)
Definition section (line : bytes) (lines : list bytes) : bytes := line ++ concat (map (fun l => LINE_TERMINATOR ++ l) lines).

Lemma section_cons line l lines : section line (l :: lines) = line ++ LINE_TERMINATOR ++ section l lines.
Proof. unfold section. cbn. by rewrite <- ?app_assoc. Qed.

Lemma find_terminator line lines rest : no_cr line -> Forall (fun l => no_cr l /\ l <> []) lines ->
  find HEADER_TERMINATOR (section line lines ++ HEADER_TERMINATOR ++ rest) = Some (length (section line lines)).
Proof.
  intros Hl Hls. revert line Hl. induction Hls as [|l lines [Hl Hne] _ IH]; intros line Hline.
  - unfold section. cbn [map concat]. rewrite app_nil_r. apply (find_at Byte.x0d [Byte.x0a; Byte.x0d; Byte.x0a] line rest Hline).
  - rewrite section_cons, <- !app_assoc. unfold HEADER_TERMINATOR in *. cbn [LINE_TERMINATOR app] in *. rewrite find_skip by done.
    destruct l as [|c l]; [done|]. cbn [find]. pose proof (Forall_inv Hl) as Hc. specialize (IH (c :: l) Hl).
    assert (exists t, section (c :: l) lines ++ [Byte.x0d; Byte.x0a; Byte.x0d; Byte.x0a] ++ rest = c :: t) as [t Et] by (unfold section; cbn; eauto).
    cbn [app] in Et, IH. rewrite Et in *. rewrite bool_decide_false by (cbn; intros [= E]; by apply Hc).
    rewrite bool_decide_false by done. rewrite IH. cbn [fmap option_fmap option_map]. f_equal. rewrite length_app. cbn [length]. lia.
Qed.

(** Cutting off the first line. *)
Lemma cut_line line lines : no_cr line ->
  before (find LINE_TERMINATOR (section line lines)) (section line lines) = line /\
  after 2 (find LINE_TERMINATOR (section line lines)) (section line lines) = match lines with [] => [] | l :: lines => section l lines end.
Proof.
  intros Hl. destruct lines as [|l lines].
  - unfold section. cbn [map concat]. rewrite app_nil_r. unfold LINE_TERMINATOR. rewrite find_absent by done. done.
  - rewrite section_cons. assert (find LINE_TERMINATOR (line ++ LINE_TERMINATOR ++ section l lines) = Some (length line)) as ->
      by apply (find_at Byte.x0d [Byte.x0a] line (section l lines) Hl).
    cbn [before after]. split; [apply take_app_length|]. rewrite app_assoc. apply drop_app_length'. by rewrite length_app.
Qed.

Lemma read_headers_step fuel l lines : no_cr l -> l <> [] ->
  read_headers (S fuel) (section l lines) =
  header ← parse_line l; headers ← read_headers fuel (match lines with [] => [] | l :: lines => section l lines end); Some (header :: headers).
Proof.
  intros Hl Hne. destruct (cut_line l lines Hl) as [E1 E2]. destruct (section l lines) as [|c t] eqn:Es; [unfold section in Es; by destruct l|].
  cbn [read_headers]. rewrite E1, E2. by rewrite bool_decide_false.
Qed.

Lemma read_headers_section lines : forall l fuel, Forall (fun l => no_cr l /\ l <> []) (l :: lines) -> (length (section l lines) <= fuel)%nat ->
  read_headers fuel (section l lines) = mapM parse_line (l :: lines).
Proof.
  induction lines as [|l' lines IH]; intros l fuel F Hf; apply Forall_cons in F as [[Hl Hne] F].
  all: destruct fuel as [|fuel]; [unfold section in Hf; destruct l; cbn in Hf; [done|lia]|].
  all: rewrite read_headers_step by done; cbn [mapM].
  - by destruct (parse_line l), fuel.
  - rewrite IH; [done|done|]. rewrite section_cons, !length_app in Hf. cbn in Hf. lia.
Qed.

(** *** A rendered request is framed as it is *)

Definition line_of (h : bytes * bytes) : bytes := h.1 ++ [COLON; SP] ++ h.2.

Definition header_ok (h : bytes * bytes) : Prop := IsTokenName h.1 = true /\ no_cr h.2 /\ TrimOws h.2 = h.2.

Lemma token_chars name : IsTokenName name = true -> name <> [] /\ Forall (fun c => c <> CR /\ c <> SP /\ c <> HT /\ c <> COLON) name.
Proof.
  unfold IsTokenName. intros [Hn Hf]%andb_true_iff. split; [by apply negb_true_iff, bool_decide_eq_false in Hn|].
  apply Forall_forall. intros c Hc. rewrite forallb_forall in Hf. specialize (Hf c). rewrite <- list_elem_of_In in Hf. specialize (Hf Hc).
  split_and!; intros ->; done.
Qed.

Lemma parse_line_of h : header_ok h -> parse_line (line_of h) = Some h.
Proof.
  destruct h as [n v]. intros (Hn & _ & Ht). unfold parse_line, line_of. cbn [fst snd] in *. destruct (token_chars n Hn) as [Hne F].
  destruct n as [|c n]; [done|]. pose proof (Forall_inv F) as (_ & H1 & H2 & _). cbn [app]. rewrite !bool_decide_false by done. cbn [orb].
  assert (Forall (fun x => x <> COLON) (c :: n)) as Hf by (eapply Forall_impl; [exact F|]; naive_solver).
  pose proof (find_at COLON [] (c :: n) (SP :: v) Hf) as E. cbn [app] in E. rewrite E. cbn [mbind option_bind].
  change (c :: n ++ COLON :: SP :: v) with ((c :: n) ++ COLON :: SP :: v). rewrite take_app_length, Hn. cbn [negb].
  rewrite Nat.add_1_r, drop_app_ge by lia. replace (S (length (c :: n)) - length (c :: n))%nat with 1%nat by lia. cbn [drop].
  assert (TrimOws (SP :: v) = TrimOws v) as -> by done. by rewrite Ht.
Qed.

Lemma line_of_plain h : header_ok h -> no_cr (line_of h) /\ line_of h <> [].
Proof.
  destruct h as [n v]. intros (Hn & Hv & _). destruct (token_chars n Hn) as [Hne F]. unfold line_of. cbn [fst snd] in *. split; [|by destruct n].
  apply Forall_app. split; [eapply Forall_impl; [exact F|]; naive_solver|]. repeat (constructor; [done|]). done.
Qed.

Definition request_line (r : HttpRequest) : bytes := method r ++ [SP] ++ target r ++ [SP] ++ HTTP_1_1.
Definition request_text (r : HttpRequest) : bytes :=
  section (request_line r) (map line_of (headers r)) ++ HEADER_TERMINATOR ++ body r.

Record request_ok (r : HttpRequest) : Prop := {
  ok_method : Forall (fun c => c <> SP /\ c <> CR) (method r);
  ok_target : Forall (fun c => c <> SP /\ c <> CR) (target r) /\ exists rest, target r = SLASH :: rest;
  ok_headers : Forall header_ok (headers r);
  ok_encoding : CountHeader r TRANSFER_ENCODING = 0;
  ok_length : CountHeader r CONTENT_LENGTH = 1 /\ ParseLength (default [] (Header r CONTENT_LENGTH)) MAX_REQUEST_BYTES = Some (zlen (body r));
  ok_size : zlen (section (request_line r) (map line_of (headers r))) <= MAX_HEADER_BYTES }.

Lemma parse_head_text r : request_ok r -> parse_head (section (request_line r) (map line_of (headers r))) = Some (mkHttpRequest (method r) (target r) (headers r) []).
Proof.
  intros [Hm [Ht [t Et]] Hh _ _ _]. unfold parse_head.
  assert (no_cr (request_line r)) as Hl.
  { unfold request_line. repeat (apply Forall_app; split); try (eapply Forall_impl; [eassumption|]; naive_solver); repeat constructor; done. }
  destruct (cut_line _ (map line_of (headers r)) Hl) as [-> ->]. unfold request_line. cbn [app].
  assert (Forall (fun c => c <> SP) (method r)) as Hm' by (eapply Forall_impl; [exact Hm|]; naive_solver).
  assert (Forall (fun c => c <> SP) (target r)) as Ht' by (eapply Forall_impl; [exact Ht|]; naive_solver).
  pose proof (find_at SP [] (method r) (target r ++ SP :: HTTP_1_1) Hm') as E1. cbn [app] in E1. rewrite E1. cbn [mbind option_bind].
  assert (drop (length (method r) + 1) (method r ++ SP :: target r ++ SP :: HTTP_1_1) = target r ++ SP :: HTTP_1_1) as ->.
  { rewrite drop_app_ge by lia. by replace (length (method r) + 1 - length (method r))%nat with 1%nat by lia. }
  pose proof (find_at SP [] (target r) HTTP_1_1 Ht') as E2. cbn [app] in E2. rewrite E2. cbn [mbind option_bind].
  assert (drop (length (target r) + 1) (target r ++ SP :: HTTP_1_1) = HTTP_1_1) as ->.
  { rewrite drop_app_ge by lia. by replace (length (target r) + 1 - length (target r))%nat with 1%nat by lia. }
  rewrite !take_app_length. rewrite bool_decide_true by done. cbn [orb negb]. rewrite Et at 1. rewrite bool_decide_true by done. cbn [negb].
  assert (Forall (fun l => no_cr l /\ l <> []) (map line_of (headers r))) as Fl.
  { apply Forall_map_iff. eapply Forall_impl; [exact Hh|]. apply line_of_plain. }
  destruct (headers r) as [|h hs] eqn:Ehs; [done|]. cbn [map] in *. rewrite read_headers_section by done.
  assert (mapM parse_line (line_of h :: map line_of hs) = Some (h :: hs)) as ->; [|done].
  change (line_of h :: map line_of hs) with (map line_of (h :: hs)). clear -Hh. induction Hh as [|x l Hx _ IH]; [done|].
  cbn [map mapM]. rewrite (parse_line_of x Hx), IH. done.
Qed.

Lemma section_plain r : request_ok r -> no_cr (request_line r) /\ Forall (fun l => no_cr l /\ l <> []) (map line_of (headers r)).
Proof.
  intros [Hm [Ht _] Hh _ _ _]. split.
  - unfold request_line. repeat (apply Forall_app; split); try (eapply Forall_impl; [eassumption|]; naive_solver); repeat constructor; done.
  - apply Forall_map_iff. eapply Forall_impl; [exact Hh|]. apply line_of_plain.
Qed.

Lemma request_framed r rest : request_ok r ->
  FrameRequest (request_text r ++ rest) = mkFramed Complete r BadRequest (zlen (request_text r)).
Proof.
  intros Hr. pose proof Hr as [Hm [Ht [t Et]] Hh He [Hc Hp] Hs]. unfold FrameRequest, request_text. rewrite <- !app_assoc.
  set (s := section _ _) in *. assert (find HEADER_TERMINATOR (s ++ HEADER_TERMINATOR ++ body r ++ rest) = Some (length s)) as ->.
  { by apply find_terminator; apply section_plain. }
  unfold zlen in Hs. destruct (Z.gtb_spec (Z.of_nat (length s)) MAX_HEADER_BYTES); [lia|]. rewrite take_app_length. unfold s. rewrite parse_head_text by done. fold s.
  unfold CountHeader, Header in *. cbn [headers]. rewrite He, Hc, Hp. cbn [Z.eqb negb Pos.eqb].
  change (length HEADER_TERMINATOR) with 4%nat in *.
  destruct (Z.ltb_spec (zlen (s ++ HEADER_TERMINATOR ++ body r ++ rest)) (Z.of_nat (length s + 4) + zlen (body r))) as [Hlt|_].
  { exfalso. unfold zlen in Hlt. rewrite !length_app in Hlt. cbn in Hlt. lia. }
  cbn [method target headers]. assert (drop (length s + 4) (s ++ HEADER_TERMINATOR ++ body r ++ rest) = body r ++ rest) as ->.
  { rewrite app_assoc. apply drop_app_length'. rewrite length_app. done. }
  unfold zlen at 1. rewrite Nat2Z.id, take_app_length. destruct r as [m tg hs bd]. cbn [method target headers body] in *. f_equal.
  unfold zlen. rewrite !length_app. cbn. lia.
Qed.

(** A header section that ends within three bytes of its bound is accepted whole, and refused
    when a packet ends before its terminator does. *)
Lemma boundary_refused r : request_ok r -> MAX_HEADER_BYTES - 3 < zlen (section (request_line r) (map line_of (headers r))) ->
  state (FrameRequest (request_text r)) = Complete /\
  exists a b, request_text r = a ++ b /\ FrameRequest a = Refuse TooLarge PayloadTooLarge.
Proof.
  intros Hr Hl. pose proof (request_framed r [] Hr) as E. rewrite app_nil_r in E. split; [by rewrite E|].
  set (k := Z.to_nat (MAX_HEADER_BYTES + 1)). exists (take k (request_text r)), (drop k (request_text r)). rewrite take_drop. split; [done|].
  pose proof (ok_size r Hr) as Hs. assert (length (take k (request_text r)) = k) as Hk.
  { rewrite length_take. unfold request_text. rewrite !length_app. unfold zlen in *. cbn [length HEADER_TERMINATOR LINE_TERMINATOR app]. unfold k, MAX_HEADER_BYTES in *. lia. }
  unfold FrameRequest. destruct (find HEADER_TERMINATOR (take k (request_text r))) as [i|] eqn:Ei.
  - exfalso. pose proof (find_Some_fits _ _ _ Ei) as Hf. apply (find_app _ _ (drop k (request_text r))) in Ei. rewrite take_drop in Ei.
    unfold request_text in Ei. rewrite find_terminator in Ei by (by apply section_plain). injection Ei as <-.
    rewrite Hk in Hf. change (length HEADER_TERMINATOR) with 4%nat in Hf. unfold zlen, k, MAX_HEADER_BYTES in *. lia.
  - unfold zlen. rewrite Hk. unfold k. rewrite Z2Nat.id by (unfold MAX_HEADER_BYTES; lia). done.
Qed.

(** *** Numbers *)

Definition digits_value (text : bytes) : Z := foldl (fun v c => 10 * v + (char_value c - 48)) 0 text.

Lemma digits_value_ge text : all_digits text = true -> forall v, 0 <= v -> v <= foldl (fun v c => 10 * v + (char_value c - 48)) v text.
Proof.
  induction text as [|c text IH]; intros Hd v Hv; [done|]. cbn in Hd |- *. apply andb_true_iff in Hd as [Hc Hd]. bprop.
  etransitivity; [|apply (IH Hd)]; lia.
Qed.

Lemma parse_digits_spec limit text : 9 <= limit < 2 ^ 64 -> forall v n, 0 <= v <= limit ->
  parse_digits limit v text = Some n <-> all_digits text = true /\ foldl (fun v c => 10 * v + (char_value c - 48)) v text = n /\ n <= limit.
Proof.
  intros Hlim. induction text as [|c text IH]; intros v n Hv; cbn [parse_digits foldl all_digits forallb]; [naive_solver lia|].
  destruct (Z.ltb_spec (char_value c) 48), (Z.gtb_spec (char_value c) 57); cbn [orb].
  1-3: split; [done|]; intros [[Hc _]%andb_true_iff _]; bprop; lia.
  rewrite (wrapu_small 64 (limit - _)) by lia. set (d := char_value c - 48) in *.
  assert (v >? (limit - d) / 10 = (10 * v + d >? limit)) as ->.
  { destruct (Z.gtb_spec v ((limit - d) / 10)) as [Hg|Hg], (Z.gtb_spec (10 * v + d) limit); try done.
    - assert (limit - d < 10 * v) by (pose proof (Z.div_mod (limit - d) 10); pose proof (Z.mod_pos_bound (limit - d) 10); lia). lia.
    - pose proof (Z.mul_div_le (limit - d) 10). lia. }
  rewrite (proj2 (Z.leb_le 48 (char_value c))), (proj2 (Z.leb_le (char_value c) 57)) by lia. cbn [andb].
  destruct (Z.gtb_spec (10 * v + d) limit) as [Hg|Hg].
  - split; [done|]. intros (Hd & E & Hn). exfalso. pose proof (digits_value_ge text Hd (10 * v + d)). lia.
  - rewrite wrapu_small by lia. replace (v * 10 + d) with (10 * v + d) by lia. apply IH. lia.
Qed.

Lemma ParseLength_spec text limit n : 9 <= limit < 2 ^ 64 ->
  ParseLength text limit = Some n <-> text <> [] /\ zlen text <= 20 /\ all_digits text = true /\ digits_value text = n /\ n <= limit.
Proof.
  intros Hl. unfold ParseLength. destruct (decide (text = [])) as [->|Hne]; [cbn; naive_solver|]. rewrite bool_decide_false by done. cbn [orb].
  destruct (Z.gtb_spec (zlen text) 20); [naive_solver lia|]. rewrite (parse_digits_spec limit text Hl 0 n) by lia. unfold digits_value. naive_solver.
Qed.

(** Printed numbers are read back. *)
Lemma char_of_ascii c : char_value (Ascii.byte_of_ascii c) = (if Text.code c <? 128 then Text.code c else Text.code c - 256).
Proof. destruct c as [[] [] [] [] [] [] [] []]; reflexivity. Qed.

Lemma str_digits s : Text.all Text.is_decimal s = true ->
  all_digits (str s) = true /\ forall v, foldl (fun v c => 10 * v + (char_value c - 48)) v (str s) = Text.decimal_value v s.
Proof.
  induction s as [|c s IH]; intros Hd; [done|]. cbn in Hd. apply andb_true_iff in Hd as [Hc Hd]. destruct (IH Hd) as [A V].
  unfold Text.is_decimal in Hc. bprop. change (str (String c s)) with (Ascii.byte_of_ascii c :: str s). cbn [all_digits forallb foldl Text.decimal_value].
  assert (char_value (Ascii.byte_of_ascii c) = Text.code c) as Ec by (rewrite char_of_ascii; destruct (Z.ltb_spec (Text.code c) 128); lia).
  rewrite Ec. split; [|intros v; by rewrite V]. apply andb_true_iff. split; [|exact A]. apply andb_true_iff. split; by apply Z.leb_le.
Qed.

Lemma to_chars_digits n : 0 <= n < 10 ^ 20 -> to_chars n <> [] /\ all_digits (to_chars n) = true /\ digits_value (to_chars n) = n.
Proof.
  intros Hn. destruct (Text.to_string_spec n Hn) as (A & V & c & t & E). destruct (str_digits _ A) as [D F]. unfold to_chars. split_and!; [|done|].
  - by rewrite E.
  - unfold digits_value. by rewrite F, V.
Qed.

Lemma str_app a b : str (String.append a b) = str a ++ str b.
Proof. induction a as [|c a IH]; [done|]. rewrite Text.append_cons. change (str (String ?c ?t)) with (Ascii.byte_of_ascii c :: str t). by rewrite IH. Qed.

Lemma decimal_length fuel : forall n, (length (str (Text.decimal fuel n "")) <= fuel)%nat.
Proof.
  induction fuel as [|fuel IH]; intros n; [done|]. cbn [Text.decimal].
  destruct (n <? 10); [change (str (String ?c ?t)) with (Ascii.byte_of_ascii c :: str t); cbn; lia|].
  rewrite Text.decimal_app, str_app, length_app. specialize (IH (n / 10)).
  change (str (String ?c ?t)) with (Ascii.byte_of_ascii c :: str t). cbn. lia.
Qed.

Lemma ParseLength_to_chars n limit : 0 <= n <= limit -> 9 <= limit < 2 ^ 64 -> ParseLength (to_chars n) limit = Some n.
Proof.
  intros Hn Hl. destruct (to_chars_digits n) as (H1 & H2 & H3); [lia|]. apply ParseLength_spec; [done|]. split_and!; try done; [|lia].
  unfold zlen, to_chars, Text.to_string. pose proof (decimal_length 20 n). lia.
Qed.

(** *** Comparison *)

Lemma byte_differences_zero a b : forall d, 0 <= d -> length a = length b -> differences d a b = 0 <-> d = 0 /\ a = b.
Proof.
  revert b. induction a as [|x a IH]; intros [|y b] d Hd Hl; cbn [differences]; try done; [naive_solver|].
  pose proof (byte.unsigned_range x). pose proof (byte.unsigned_range y).
  assert (0 <= Z.lxor (b2z x) (b2z y)) by (apply Z.lxor_nonneg; lia).
  rewrite IH; [|apply Z.lor_nonneg; lia|cbn in Hl; lia]. rewrite Z.lor_eq_0_iff, Z.lxor_eq_0_iff. split.
  - intros [[-> E] ->]. split; [done|]. f_equal. by apply byte.unsigned_inj.
  - by intros [-> [= -> ->]].
Qed.

Lemma differences_one a b : forall d, 1 <= d -> differences d a b <> 0.
Proof.
  revert b. induction a as [|x a IH]; intros [|y b] d Hd; cbn [differences]; try lia. apply IH.
  pose proof (byte.unsigned_range x). pose proof (byte.unsigned_range y).
  assert (0 <= Z.lxor (b2z x) (b2z y)) by (apply Z.lxor_nonneg; lia).
  assert (0 <= Z.lor d (Z.lxor (b2z x) (b2z y))) by (apply Z.lor_nonneg; lia).
  destruct (decide (Z.lor d (Z.lxor (b2z x) (b2z y)) = 0)) as [E|]; [apply Z.lor_eq_0_iff in E|]; lia.
Qed.

Lemma ConstantTimeEquals_spec a b : ConstantTimeEquals a b = true <-> a = b.
Proof.
  unfold ConstantTimeEquals. rewrite Z.eqb_eq. destruct (Z.eqb_spec (zlen a) (zlen b)) as [E|E].
  - unfold zlen in E. rewrite byte_differences_zero by lia. naive_solver.
  - split; [|by intros ->]. intros H0. by apply differences_one in H0.
Qed.

(** *** Hosts *)

Lemma rfind_None c s : Forall (fun x => x <> c) s -> rfind c s = None.
Proof. induction 1 as [|x s Hx _ IH]; [done|]. cbn [rfind]. by rewrite IH, bool_decide_false. Qed.

Lemma rfind_app c a b : Forall (fun x => x <> c) b -> rfind c (a ++ b) = rfind c a.
Proof. intros F. induction a as [|x a IH]; [by apply rfind_None|]. cbn [app rfind]. by rewrite IH. Qed.

Lemma rfind_at c a b : Forall (fun x => x <> c) b -> rfind c (a ++ c :: b) = Some (length a).
Proof.
  intros F. induction a as [|x a IH]; cbn [app rfind length]; [by rewrite rfind_None, bool_decide_true|by rewrite IH].
Qed.

Lemma rfind_Some c s i : rfind c s = Some i -> s = take i s ++ c :: drop (i + 1) s.
Proof.
  revert i. induction s as [|x s IH]; intros i; cbn [rfind]; [done|]. destruct (rfind c s) as [j|].
  - intros [= <-]. cbn. f_equal. by apply IH.
  - destruct (decide (x = c)) as [->|]; [rewrite bool_decide_true by done|by rewrite bool_decide_false]. by intros [= <-].
Qed.

Definition LOOPBACK_NAMES : list bytes := [str "127.0.0.1"; str "localhost"; str "[::1]"].

(** A name of this machine, alone or with this port after a colon, in at most twenty digits. *)
Definition loopback (host : bytes) (port : Z) : Prop :=
  exists name, name ∈ LOOPBACK_NAMES /\
    (host = name \/ exists digits, host = name ++ COLON :: digits /\ digits <> [] /\ zlen digits <= 20 /\ all_digits digits = true /\ digits_value digits = port).

Lemma digits_chars text : all_digits text = true -> Forall (fun c => c <> COLON /\ c <> Byte.x5d /\ c <> CR /\ c <> SP /\ c <> HT) text.
Proof.
  intros Hd. apply Forall_forall. intros c Hc. unfold all_digits in Hd. rewrite forallb_forall in Hd. specialize (Hd c).
  rewrite <- list_elem_of_In in Hd. specialize (Hd Hc). split_and!; intros ->; done.
Qed.

Lemma named_spec name : is_loopback_name name = true <-> name ∈ LOOPBACK_NAMES.
Proof. unfold is_loopback_name, LOOPBACK_NAMES. rewrite !orb_true_iff, !bool_decide_eq_true. set_solver. Qed.

Lemma IsLoopbackHost_spec host port : 0 <= port < 2 ^ 16 -> IsLoopbackHost host port = true <-> loopback host port.
Proof.
  intros Hp. unfold loopback. split.
  - unfold IsLoopbackHost. assert (forall c, port_colon host = Some c -> rfind COLON host = Some c) as Hc.
    { intros c. unfold port_colon. destruct (rfind COLON host), (rfind Byte.x5d host); try done; by destruct (bool_decide _). }
    destruct (port_colon host) as [c|]; [|intros Hn%named_spec; exists host; by split; [|left]]. specialize (Hc c eq_refl). apply rfind_Some in Hc.
    destruct (ParseLength _ _) as [n|] eqn:Ep; [|done]. apply ParseLength_spec in Ep as (H1 & H2 & H3 & H4 & H5); [|lia].
    pose proof (digits_value_ge _ H3 0 ltac:(lia)) as H6. fold (digits_value (drop (c + 1) host)) in H6. rewrite wrapu_small by lia.
    destruct (Z.eqb_spec n port) as [->|]; [|done]. cbn [negb]. intros Hn%named_spec. exists (take c host). split; [done|]. right. eauto 10.
  - intros (name & Hn & [->|(digits & -> & H1 & H2 & H3 & H4)]).
    + unfold LOOPBACK_NAMES in Hn. rewrite !elem_of_cons in Hn. destruct Hn as [->|[->|[->|Hn]]]; [reflexivity..|]. by apply not_elem_of_nil in Hn.
    + pose proof (digits_chars digits H3) as F.
      assert (Forall (fun x => x <> COLON) digits) as F1 by (eapply Forall_impl; [exact F|]; naive_solver).
      assert (Forall (fun x => x <> Byte.x5d) (COLON :: digits)) as F2 by (constructor; [done|]; eapply Forall_impl; [exact F|]; naive_solver).
      assert (ParseLength digits 65535 = Some port) as Ep by (apply ParseLength_spec; [lia|]; split_and!; try done; lia).
      unfold IsLoopbackHost. assert (port_colon (name ++ COLON :: digits) = Some (length name)) as ->.
      { unfold port_colon. rewrite (rfind_at _ _ _ F1), (rfind_app _ _ _ F2). unfold LOOPBACK_NAMES in Hn. rewrite !elem_of_cons in Hn. destruct Hn as [->|[->|[->|Hn]]]; [reflexivity..|]. by apply not_elem_of_nil in Hn. }
      rewrite drop_app_ge by lia. replace (length name + 1 - length name)%nat with 1%nat by lia. change (drop 1 (COLON :: digits)) with digits. rewrite Ep, wrapu_small, Z.eqb_refl by lia.
      cbn [negb]. rewrite take_app_length. by apply named_spec.
Qed.

(** *** Screening *)

(** Exactly one header has the name, in any case, and this is its value. *)
Definition sole_header (r : HttpRequest) (name value : bytes) : Prop := CountHeader r name = 1 /\ Header r name = Some value.

Lemma sole_header_iff r name P : (CountHeader r name = 1 /\ P (default [] (Header r name))) <-> exists v, sole_header r name v /\ P v.
Proof.
  unfold sole_header, CountHeader, Header. split.
  - intros [Hc HP]. induction (headers r) as [|h hs IH]; [done|]. cbn [List.filter List.find] in *. destruct (IEquals h.1 name) eqn:E; [|by apply IH].
    exists h.2. done.
  - intros (v & [Hc Hv] & HP). by rewrite Hv.
Qed.

(** *** The cookie *)

Lemma temp_path_ne path : temp_path path <> path.
Proof. unfold temp_path. intros E. apply (f_equal length) in E. rewrite length_app in E. cbn in E. lia. Qed.

Lemma hex_chars bs : Forall (fun c => c <> Byte.x0a /\ c <> Byte.x0d) (Hex.ToHex bs).
Proof. induction bs as [|b bs IH]; [constructor|]. destruct b; (do 2 (constructor; [done|])); exact IH. Qed.

Lemma trim_eol_plain s : Forall (fun c => c <> Byte.x0a /\ c <> Byte.x0d) s -> trim_eol s = s.
Proof. destruct 1 as [|c s [H1 H2] _]; [done|]. cbn [trim_eol]. by rewrite !bool_decide_false. Qed.

Lemma credential_read token : zlen token = TOKEN_BYTES -> Cookie_Read (Some (credential_of token)) false = inr (credential_of token).
Proof.
  intros Hl. assert (zlen (credential_of token) = 75) as Hz.
  { unfold credential_of. rewrite !zlen_app, Hex.zlen_ToHex, Hl. reflexivity. }
  unfold Cookie_Read. unfold zlen in Hz. rewrite take_ge by lia. unfold zlen. rewrite Hz. cbn [Z.eqb Pos.eqb].
  assert (Forall (fun c => c <> Byte.x0a /\ c <> Byte.x0d) (credential_of token)) as F.
  { unfold credential_of. apply Forall_app. split; [repeat constructor; done|]. constructor; [done|]. apply hex_chars. }
  rewrite trim_eol_plain, rev_involutive by (by apply Forall_rev). rewrite bool_decide_false by done. rewrite bool_decide_false; [done|].
  pose proof (find_at COLON [] COOKIE_USER (Hex.ToHex token) ltac:(repeat constructor; done)) as E. cbn [app] in E. unfold credential_of. cbn [app]. by rewrite E.
Qed.

(** What no state of the disk may break: others' files, the cookie's, the temporary one. *)
Definition safe (token path : bytes) (disk d : Disk) : Prop :=
  (forall p, p <> path -> p <> temp_path path -> d !! p = disk !! p) /\
  (d !! path = disk !! path \/ d !! path = Some (mkFile true (credential_of token))) /\
  (d !! temp_path path = disk !! temp_path path \/ d !! temp_path path = None \/
   exists f, d !! temp_path path = Some f /\ (contents f = [] \/ owner_only f = true)).

Section cookie.
Context (token path : bytes) (disk : Disk).

Lemma safe_remove b d : safe token path disk d -> safe token path disk (remove (temp_path path) b d).
Proof.
  pose proof (temp_path_ne path). unfold remove. destruct b; [done|]. intros (H1 & H2 & _). split_and!.
  - intros p Hp Ht. rewrite lookup_delete_ne by done. by apply H1.
  - rewrite lookup_delete_ne by done. exact H2.
  - right. left. apply lookup_delete_eq.
Qed.

Lemma safe_write f d : contents f = [] \/ owner_only f = true -> safe token path disk d -> safe token path disk (<[temp_path path := f]> d).
Proof.
  pose proof (temp_path_ne path). intros Hf (H1 & H2 & _). split_and!.
  - intros p Hp Ht. rewrite lookup_insert_ne by done. by apply H1.
  - rewrite lookup_insert_ne by done. exact H2.
  - right. right. exists f. by rewrite lookup_insert_eq.
Qed.

Lemma safe_rename d : safe token path disk d ->
  safe token path disk (delete (temp_path path) (<[path := mkFile true (credential_of token)]> d)).
Proof.
  pose proof (temp_path_ne path). intros (H1 & _ & _). split_and!.
  - intros p Hp Ht. rewrite lookup_delete_ne, lookup_insert_ne by done. by apply H1.
  - right. rewrite lookup_delete_ne by done. apply lookup_insert_eq.
  - right. left. apply lookup_delete_eq.
Qed.

Lemma remove_path b d : remove (temp_path path) b d !! path = d !! path.
Proof. pose proof (temp_path_ne path). unfold remove. destruct b; [done|]. by rewrite lookup_delete_ne. Qed.
End cookie.

Create HintDb cookie.
#[local] Hint Resolve safe_remove safe_write safe_rename : cookie.


(** *** Base64 *)

Definition sextet_value (c : Init.Byte.byte) : option Z := Z.of_nat <$> find [c] ALPHABET.

(** RFC 4648, for padded input. *)
Fixpoint base64_decode (s : bytes) : option bytes :=
  match s with
  | [] => Some []
  | a :: b :: c :: d :: rest =>
      x ← sextet_value a; y ← sextet_value b;
      if bool_decide (c = Byte.x3d) then if bool_decide (d = Byte.x3d) && bool_decide (rest = []) then Some [z2b ((x * 64 + y) / 16)] else None
      else
        z ← sextet_value c;
        if bool_decide (d = Byte.x3d) then
          if bool_decide (rest = []) then let g := (x * 64 + y) * 64 + z in Some [z2b (g / 1024); z2b (g / 4)] else None
        else
          w ← sextet_value d;
          let g := ((x * 64 + y) * 64 + z) * 64 + w in
          tail ← base64_decode rest; Some (z2b (g / 65536) :: z2b (g / 256) :: z2b g :: tail)
  | _ => None
  end.

Lemma sextet_spec g shift : 0 <= shift -> let k := (g / 2 ^ shift) mod 64 in
  sextet_value (sextet g shift) = Some k /\ sextet g shift <> Byte.x3d /\ sextet g shift <> CR /\ sextet g shift <> SP /\ sextet g shift <> HT.
Proof.
  intros Hs k. unfold sextet. rewrite Z.shiftr_div_pow2 by lia. change 63 with (Z.ones 6). rewrite Z.land_ones by lia. change (2 ^ 6) with 64. fold k.
  assert (0 <= k < 64) as Hk by (apply Z.mod_pos_bound; lia). clearbody k.
  assert (forallb (fun i => let c := default Byte.x00 (ALPHABET !! i) in
    bool_decide (sextet_value c = Some (Z.of_nat i)) && negb (bool_decide (c = Byte.x3d)) && negb (bool_decide (c = CR)) && negb (bool_decide (c = SP)) && negb (bool_decide (c = HT)))
    (seq 0 64) = true) as A by (vm_compute; reflexivity).
  rewrite forallb_forall in A. specialize (A (Z.to_nat k)). rewrite in_seq in A. specialize (A ltac:(lia)). cbn zeta in A.
  rewrite !andb_true_iff, !negb_true_iff, bool_decide_eq_true, !bool_decide_eq_false in A. rewrite Z2Nat.id in A by lia. naive_solver.
Qed.

Lemma group3 x y z : 0 <= x < 256 -> 0 <= y < 256 -> 0 <= z < 256 ->
  Z.lor (Z.lor (Z.shiftl x 16) (Z.shiftl y 8)) z = x * 65536 + y * 256 + z.
Proof.
  intros. rewrite !Z.shiftl_mul_pow2 by lia. rewrite lor_add by lia. change (x * 2 ^ 16 + y * 2 ^ 8) with (x * (2 ^ 8 * 2 ^ 8) + y * 2 ^ 8).
  rewrite Z.mul_assoc, <- Z.mul_add_distr_r. rewrite lor_add by lia. lia.
Qed.

Lemma z2b_eq x (b : Init.Byte.byte) : x = b2z b -> z2b x = b.
Proof. intros ->. apply byte.of_Z_unsigned. Qed.

(** The sextets put together again, as far as they go. *)
Lemma regroup g : 0 <= g < 2 ^ 24 ->
  (g / 2 ^ 18) mod 64 * 64 + (g / 2 ^ 12) mod 64 = g / 4096 /\
  g / 4096 * 64 + (g / 2 ^ 6) mod 64 = g / 64 /\ g / 64 * 64 + (g / 2 ^ 0) mod 64 = g.
Proof.
  intros Hg. change (2 ^ 18) with (4096 * 64). change (2 ^ 12) with (64 * 64). change (2 ^ 6) with 64. change (2 ^ 0) with 1. rewrite Z.div_1_r.
  rewrite <- (Z.div_div g 4096 64) by lia. change (64 * 64) with 4096. rewrite (Z.mod_small (g / 4096 / 64)).
  2: { split; [apply Z.div_pos; [apply Z.div_pos; lia|lia]|]. apply Z.div_lt_upper_bound; [lia|]. apply Z.div_lt_upper_bound; lia. }
  assert (g / 4096 = g / 64 / 64) as E by (rewrite Z.div_div by lia; done).
  split_and!; [pose proof (Z.div_mod (g / 4096) 64)|rewrite E; pose proof (Z.div_mod (g / 64) 64)|pose proof (Z.div_mod g 64)]; lia.
Qed.

Lemma z2b_byte q (b : Init.Byte.byte) : z2b (256 * q + b2z b) = b.
Proof.
  apply byte.unsigned_inj. rewrite byte.unsigned_of_Z. unfold byte.wrap. change (2 ^ 8) with 256. rewrite Z.add_comm, Z.mul_comm, Z.mod_add by lia.
  apply Z.mod_small, byte.unsigned_range.
Qed.

Lemma base64_decodes s : base64_decode (Base64Encode s) = Some s.
Proof.
  assert (forall n s, (length s <= n)%nat -> base64_decode (Base64Encode s) = Some s) as H; [|by eapply H].
  induction n as [|n IH]; intros [|x [|y [|z rest]]] Hl; try (cbn in Hl; lia); try done.
  all: pose proof (byte.unsigned_range x) as Hx; try pose proof (byte.unsigned_range y) as Hy; try pose proof (byte.unsigned_range z) as Hz.
  - cbn [Base64Encode base64_decode]. pose proof (group3 (b2z x) 0 0 Hx ltac:(lia) ltac:(lia)) as G. rewrite Z.shiftl_0_l, !Z.lor_0_r in G. rewrite G. set (g := _ + 0).
    destruct (sextet_spec g 18) as [-> _]; [lia|]. destruct (sextet_spec g 12) as [-> _]; [lia|]. destruct (regroup g) as (E1 & _); [unfold g; lia|].
    cbn [mbind option_bind]. rewrite !bool_decide_true by done. cbn [andb]. rewrite E1, Z.div_div by lia. do 2 f_equal.
    replace (g / (4096 * 16)) with (256 * 0 + b2z x) by (unfold g; dlia). apply z2b_byte.
  - cbn [Base64Encode base64_decode]. pose proof (group3 (b2z x) (b2z y) 0 Hx Hy ltac:(lia)) as G. rewrite Z.lor_0_r in G. rewrite G. set (g := _ + 0).
    destruct (sextet_spec g 18) as [-> _]; [lia|]. destruct (sextet_spec g 12) as [-> _]; [lia|]. destruct (sextet_spec g 6) as (-> & Hc & _); [lia|].
    destruct (regroup g) as (E1 & E2 & _); [unfold g; lia|].
    cbn [mbind option_bind]. rewrite (bool_decide_false _ Hc), !bool_decide_true by done. cbn [mbind option_bind]. rewrite E1, E2, !Z.div_div by lia.
    replace (g / (64 * 1024)) with (256 * 0 + b2z x) by (unfold g; dlia). replace (g / (64 * 4)) with (256 * b2z x + b2z y) by (unfold g; dlia).
    by rewrite !z2b_byte.
  - cbn [Base64Encode base64_decode app]. rewrite (group3 _ _ _ Hx Hy Hz). set (g := _ + b2z z).
    destruct (sextet_spec g 18) as [-> _]; [lia|]. destruct (sextet_spec g 12) as [-> _]; [lia|].
    destruct (sextet_spec g 6) as (-> & Hc & _); [lia|]. destruct (sextet_spec g 0) as (-> & Hd & _); [lia|].
    destruct (regroup g) as (E1 & E2 & E3); [unfold g; lia|].
    cbn [mbind option_bind]. rewrite (bool_decide_false _ Hc), (bool_decide_false _ Hd). cbn [mbind option_bind]. rewrite IH by (cbn in Hl; lia).
    cbn [mbind option_bind]. rewrite E1, E2, E3.
    replace (g / 65536) with (256 * 0 + b2z x) by (unfold g; dlia). replace (g / 256) with (256 * b2z x + b2z y) by (unfold g; dlia).
    replace g with (256 * (256 * b2z x + b2z y) + b2z z) by (unfold g; lia). by rewrite !z2b_byte.
Qed.

Lemma base64_chars s : Forall (fun c => c <> CR /\ c <> SP /\ c <> HT) (Base64Encode s).
Proof.
  assert (forall n s, (length s <= n)%nat -> Forall (fun c => c <> CR /\ c <> SP /\ c <> HT) (Base64Encode s)) as H; [|by eapply H].
  assert (forall g sh, 0 <= sh -> sextet g sh <> CR /\ sextet g sh <> SP /\ sextet g sh <> HT) as Hs by (intros g sh Hsh; apply (sextet_spec g sh Hsh)).
  induction n as [|n IH]; intros [|x [|y [|z rest]]] Hl; try (cbn in Hl; lia); cbn [Base64Encode app].
  all: repeat first [apply Forall_nil; exact I | apply Forall_cons; split; [first [done | apply Hs; lia]|]]. apply IH. cbn in Hl. lia.
Qed.

(** ** Claims *)

(** Framing does not depend on how the bytes arrive: once a prefix of what a client
    sends is a request or is refused, the whole is the same request or is refused in the
    same way, whatever follows, unless the header section is 8190 to 8192 bytes long, which
    a packet boundary just before its end makes too large. *)
Theorem framing_restartable (a b : bytes) :
  state (FrameRequest a) <> NeedMore ->
  FrameRequest (a ++ b) = FrameRequest a \/
  exists i, find HEADER_TERMINATOR (a ++ b) = Some i /\ 8190 <= Z.of_nat i <= 8192 /\ FrameRequest a = Refuse TooLarge PayloadTooLarge.
Proof.
  intros [E|(i & E & H1 & H2 & H3)]%(fun H => FrameRequest_app a b H); [by left|]. right. exists i. unfold MAX_HEADER_BYTES in *.
  split; [done|]. split; [lia|done].
Qed.

(** C36: What is answered: a request passes the screen exactly if one header gives the expected
    credential, one names this machine as host, without a port or with this server's, it is
    a POST to the root, and its first content type is JSON, parameters aside.  Of the
    content types only the first is read: a second one is not refused. *)
Theorem screen_admits (r : HttpRequest) (policy : AuthPolicy) : 0 <= port policy < 2 ^ 16 ->
  Screen r policy = None <->
  sole_header r AUTHORIZATION (expected_authorization policy) /\
  (exists host, sole_header r HOST host /\ loopback host (port policy)) /\
  method r = str "POST" /\ target r = str "/" /\
  exists value, Header r CONTENT_TYPE = Some value /\ IEquals (TrimOws (before (find [Byte.x3b] value) value)) APPLICATION_JSON = true.
Proof.
  intros Hp. rewrite <- (sole_header_iff r HOST (fun v => loopback v (port policy))).
  assert (sole_header r AUTHORIZATION (expected_authorization policy) <->
    CountHeader r AUTHORIZATION = 1 /\ default [] (Header r AUTHORIZATION) = expected_authorization policy) as ->.
  { rewrite (sole_header_iff r AUTHORIZATION (fun v => v = expected_authorization policy)). naive_solver. }
  rewrite <- ConstantTimeEquals_spec, <- IsLoopbackHost_spec by done. unfold Screen.
  destruct (Z.eqb_spec (CountHeader r AUTHORIZATION) 1); cbn [negb]; [|naive_solver].
  destruct (ConstantTimeEquals _ _); cbn [negb]; [|naive_solver].
  destruct (Z.eqb_spec (CountHeader r HOST) 1); cbn [negb]; [|naive_solver].
  destruct (IsLoopbackHost _ _); cbn [negb]; [|naive_solver].
  destruct (decide (method r = str "POST")); [rewrite bool_decide_true by done|rewrite bool_decide_false by done; naive_solver]. cbn [negb].
  destruct (decide (target r = str "/")); [rewrite bool_decide_true by done|rewrite bool_decide_false by done; naive_solver]. cbn [negb].
  destruct (Header r CONTENT_TYPE) as [v|]; [|naive_solver]. destruct (IEquals _ _) eqn:E; cbn [negb]; (split; [|done || (intros (_ & _ & _ & _ & x & [= <-] & Hx); congruence)]); [by eauto 10|done].
Qed.

Definition sample_text : bytes :=
  str "POST / HTTP/1.1" ++ LINE_TERMINATOR ++ str "host: localhost" ++ LINE_TERMINATOR ++ str "Authorization: Basic eDp5" ++ LINE_TERMINATOR ++
  str "Content-Type: application/JSON; charset=utf-8" ++ LINE_TERMINATOR ++ str "Content-Length: 2" ++ HEADER_TERMINATOR ++ str "{}".
Definition sample_policy : AuthPolicy := mkAuthPolicy (str "Basic eDp5") 9332.

Lemma framing_restartable_witness :
  state (FrameRequest sample_text) = Complete /\
  (FrameRequest (sample_text ++ str "GET") = FrameRequest sample_text \/
   exists i, find HEADER_TERMINATOR (sample_text ++ str "GET") = Some i /\ 8190 <= Z.of_nat i <= 8192 /\
     FrameRequest sample_text = Refuse TooLarge PayloadTooLarge).
Proof. split; [by vm_compute|]. apply framing_restartable. by vm_compute. Defined.

(** A request whose two content types disagree is let through. *)
Example second_content_type_admitted :
  let framed := FrameRequest (str "POST / HTTP/1.1" ++ LINE_TERMINATOR ++ str "Host: localhost:9332" ++ LINE_TERMINATOR ++
    str "Authorization: Basic eDp5" ++ LINE_TERMINATOR ++ str "Content-Type: application/json" ++ LINE_TERMINATOR ++
    str "Content-Type: text/plain" ++ LINE_TERMINATOR ++ str "Content-Length: 2" ++ HEADER_TERMINATOR ++ str "{}") in
  state framed = Complete /\ Screen (request framed) sample_policy = None.
Proof. vm_compute. split; reflexivity. Qed.

Lemma screen_admits_witness :
  let r := request (FrameRequest sample_text) in
  0 <= port sample_policy < 2 ^ 16 /\ sole_header r AUTHORIZATION (expected_authorization sample_policy) /\
  exists host, sole_header r HOST host /\ loopback host (port sample_policy).
Proof.
  assert (0 <= port sample_policy < 2 ^ 16) as Hp by (cbn; lia). intros r. split; [exact Hp|].
  destruct (proj1 (screen_admits r sample_policy Hp)) as (H1 & H2 & _); [by vm_compute|]. by split.
Defined.

(** C37: The cookie is never readable by others and never half there: in every state the disk
    goes through, whatever fails underneath, the cookie's file is the old one or the whole
    new credential, for its owner only; the temporary file is the old one, gone, empty, or
    its owner's only; other files are as they were.  A credential that is returned is in
    place and is what a client reads; otherwise the old file is. *)
Theorem cookie_written_safely (token path : bytes) (faults : FsFaults) (disk : Disk) :
  let '(result, states) := Generate token path faults disk in
  Forall (safe token path disk) states /\
  match result with
  | inr credential_ => final disk states !! path = Some (mkFile true credential_) /\ Cookie_Read (Some credential_) false = inr credential_
  | inl _ => final disk states !! path = disk !! path
  end.
Proof.
  unfold Generate. destruct (Z.eqb_spec (zlen token) TOKEN_BYTES) as [Hl|]; [|by split]. cbn [negb]. pose proof (credential_read token Hl) as Hr.
  pose proof (temp_path_ne path) as Hne. assert (safe token path disk disk) as Hs by (unfold safe; auto).
  unfold WriteOwnerOnly. set (d0 := remove _ _ disk). assert (safe token path disk d0) as H0 by (apply safe_remove; exact Hs).
  assert (d0 !! path = disk !! path) as E0 by apply remove_path. clearbody d0.
  destruct (create_fails faults), (permissions_fail faults), (write_fails faults), (rename_fails faults);
    unfold final; cbn [last app from_option id]; unfold id; rewrite ?lookup_insert_eq.
  all: split; [repeat (apply Forall_cons; split); [..|apply Forall_nil]; auto 10 with cookie|].
  all: rewrite ?remove_path; repeat (rewrite lookup_insert_ne by done); try exact E0.
  split; [|exact Hr]. rewrite lookup_delete_ne by done. apply lookup_insert_eq.
Qed.
End Http.
