(* ===== verification/RpcClient.v ===== *)
(** * The RPC client as bytes (rpc/client.cpp, the call of cli/amarian_cli.cpp)

    The request a client writes, the reply it reads, and that the two sides of the wire
    agree about both. *)

From Stdlib Require Import String.
From S2P Require Import Prelude Overflow Serialize Hex Text Crypto Http.
From stdpp Require Import gmap list.
#[local] Open Scope Z_scope.
Import Http.Http.

Module RpcClient.

Definition MAX_RESPONSE_BYTES : Z := Z.shiftl 16 20.

(** ** Requests *)

Definition RenderCall (authorization host : bytes) (port : Z) (body : bytes) : bytes :=
  str "POST / HTTP/1.1" ++ LINE_TERMINATOR ++
  str "Host: " ++ host ++ [COLON] ++ to_chars port ++ LINE_TERMINATOR ++
  str "Authorization: " ++ authorization ++ LINE_TERMINATOR ++
  str "Content-Type: application/json" ++ LINE_TERMINATOR ++
  str "Connection: close" ++ LINE_TERMINATOR ++
  str "Content-Length: " ++ to_chars (zlen body) ++ HEADER_TERMINATOR ++ body.

(** ** Replies *)

Inductive ResponseState := RComplete | RNeedMore | RMalformed.

Record ParsedResponse := mkParsed { r_state : ResponseState; r_status : Z; r_body : bytes; r_failure : bytes }.

Definition Fail (failure : bytes) : ParsedResponse := mkParsed RMalformed 0 [] failure.
Definition need_more : ParsedResponse := mkParsed RNeedMore 0 [] [].

(** The announced lengths: the last one read, and how many there are.  A step leaves less
    of the text, so its length is enough fuel. *)
Fixpoint scan_lengths (fuel : nat) (rest : bytes) (len : option Z) (count : Z) : option Z * Z :=
  match fuel, rest with
  | _, [] => (len, count)
  | O, _ => (len, count)
  | S fuel, _ =>
      let line_end := find LINE_TERMINATOR rest in
      let line := before line_end rest in
      let rest := after 2 line_end rest in
      match find [COLON] line with
      | None => scan_lengths fuel rest len count
      | Some colon =>
          if IEquals (take colon line) CONTENT_LENGTH then
            scan_lengths fuel rest (ParseLength (TrimOws (drop (colon + 1) line)) MAX_RESPONSE_BYTES) (count + 1)
          else scan_lengths fuel rest len count
      end
  end.

Definition HTTP_1 : bytes := str "HTTP/1.".

(** The status and the announced length of a head, or what is wrong with it. *)
Definition read_head (head : bytes) : bytes + (Z * option Z) :=
  let status_line_end := find LINE_TERMINATOR head in
  let status_line := before status_line_end head in
  match find [SP] status_line with
  | None => inl (str "the reply does not begin with an HTTP status line")
  | Some first_space =>
      if negb (bool_decide (take (length HTTP_1) status_line = HTTP_1)) then inl (str "the reply does not begin with an HTTP status line")
      else
        let code_text := drop (first_space + 1) status_line in
        let code_text := before (find [SP] code_text) code_text in
        match ParseLength code_text 999 with
        | None => inl (str "the reply's status is not a status code")
        | Some code =>
            if code <? 100 then inl (str "the reply's status is not a status code")
            else
              let rest := after 2 status_line_end head in
              let '(len, count) := scan_lengths (length rest) rest None 0 in
              if count >? 1 then inl (str "the reply announced its length twice")
              else if (count =? 1) && bool_decide (len = None) then inl (str "the reply's length is not a number this client can read")
              else inr (code, len)
        end
  end.

Definition Split (buffer : bytes) (at_eof : bool) : ParsedResponse :=
  match find HEADER_TERMINATOR buffer with
  | None =>
      if zlen buffer >? MAX_RESPONSE_BYTES then Fail (str "the reply's headers are larger than this client will read")
      else if at_eof then
        Fail (if bool_decide (buffer = []) then str "the node closed the connection without replying"
              else str "the node closed the connection mid-reply")
      else need_more
  | Some header_end =>
      match read_head (take header_end buffer) with
      | inl failure => Fail failure
      | inr (code, len) =>
          let available := drop (header_end + 4) buffer in
          match len with
          | Some n =>
              if zlen available <? n then
                if at_eof then Fail (str "the node closed the connection before sending the whole reply") else need_more
              else mkParsed RComplete code (take (Z.to_nat n) available) []
          | None =>
              if negb at_eof then
                if zlen buffer >? MAX_RESPONSE_BYTES then Fail (str "the reply is larger than this client will read") else need_more
              else mkParsed RComplete code available []
          end
      end
  end.

Definition ParseResponse (buffer : bytes) : ParsedResponse := Split buffer false.
Definition FinishResponse (buffer : bytes) : ParsedResponse := Split buffer true.

(** ** The exchange *)

(** How a read of the socket ends. *)
Inductive ReadEvent := Chunk (bytes_read : bytes) | Eof (bytes_read : bytes) | ReadFailed (message : bytes) | TimedOut.

(** The loop of [Call] that reads the reply; [None] is a read that is still to end. *)
Fixpoint receive (buffer : bytes) (events : list ReadEvent) : option (bytes + ParsedResponse) :=
  let parsed := ParseResponse buffer in
  match r_state parsed with
  | RComplete => Some (inr parsed)
  | RMalformed => Some (inl (r_failure parsed))
  | RNeedMore =>
      match events with
      | [] => None
      | ReadFailed message :: _ => Some (inl (str "cannot read the reply: " ++ message))
      | TimedOut :: _ => Some (inl (str "timed out waiting for a reply"))
      | Eof got :: _ =>
          let finished := FinishResponse (buffer ++ got) in
          match r_state finished with
          | RComplete => Some (inr finished)
          | _ => Some (inl (r_failure finished))
          end
      | Chunk got :: events =>
          let buffer := buffer ++ got in
          if zlen buffer >? MAX_RESPONSE_BYTES then Some (inl (str "the node's reply is larger than this client will read"))
          else receive buffer events
      end
  end.

(** ** Lemmas: requests *)

(** The request a call is. *)
Definition call_request (authorization host : bytes) (port : Z) (body : bytes) : HttpRequest :=
  mkHttpRequest (str "POST") (str "/")
    [(HOST, host ++ [COLON] ++ to_chars port); (AUTHORIZATION, authorization); (CONTENT_TYPE, APPLICATION_JSON);
     (str "Connection", str "close"); (CONTENT_LENGTH, to_chars (zlen body))] body.

Lemma RenderCall_text authorization host port body : RenderCall authorization host port body = request_text (call_request authorization host port body).
Proof.
  unfold RenderCall, request_text, call_request, request_line. cbn [headers map method target Http.body].
  rewrite !section_cons. unfold section, line_of. cbn [map concat fst snd]. rewrite app_nil_r, <- !app_assoc.
  reflexivity.
Qed.

Lemma TrimOws_plain text : Forall (fun c => c <> SP /\ c <> HT) text -> TrimOws text = text.
Proof.
  assert (forall l, Forall (fun c => c <> SP /\ c <> HT) l -> trim_front l = l) as T.
  { destruct 1 as [|c l [H1 H2] _]; [done|]. cbn [trim_front]. by rewrite !bool_decide_false. }
  intros F. unfold TrimOws. rewrite (T _ F), (T (rev text)), rev_involutive; [done|]. by apply Forall_rev.
Qed.

(** A scheme, a blank and a value of no blanks stand as they are. *)
Lemma TrimOws_scheme scheme value : scheme <> [] -> value <> [] -> Forall (fun c => c <> SP /\ c <> HT) scheme -> Forall (fun c => c <> SP /\ c <> HT) value ->
  TrimOws (scheme ++ [SP] ++ value) = scheme ++ [SP] ++ value.
Proof.
  intros Hs Hv Fs Fv. unfold TrimOws. destruct scheme as [|w scheme]; [done|]. apply Forall_cons in Fs as [[H1 H2] _].
  cbn [app trim_front]. rewrite !bool_decide_false by done. cbn [orb].
  assert (w :: scheme ++ SP :: value = (w :: scheme ++ [SP]) ++ value) as -> by (cbn [app]; by rewrite <- app_assoc).
  destruct (rev value) as [|v rest] eqn:Er; [by apply (f_equal (@rev _)) in Er; rewrite rev_involutive in Er|].
  rewrite rev_app_distr, Er. cbn [app trim_front]. apply Forall_rev in Fv. rewrite Er in Fv. apply Forall_cons in Fv as [[H3 H4] _].
  rewrite !bool_decide_false by done. cbn [orb]. by rewrite app_comm_cons, <- Er, rev_app_distr, !rev_involutive.
Qed.

Lemma Base64Encode_nonempty s : s <> [] -> Base64Encode s <> [].
Proof. destruct s as [|x [|y [|z rest]]]; done. Qed.

Lemma length_Base64Encode s : (length (Base64Encode s) <= 2 * length s + 4)%nat.
Proof.
  assert (forall n s, (length s <= n)%nat -> (length (Base64Encode s) <= 2 * length s + 4)%nat) as H; [|by eapply H].
  induction n as [|n IH]; intros [|x [|y [|z rest]]] Hl; try (cbn in Hl |- *; lia).
  cbn [Base64Encode]. rewrite length_app. specialize (IH rest ltac:(cbn in Hl; lia)). cbn [length] in *. lia.
Qed.

Lemma length_to_chars n : (length (to_chars n) <= 20)%nat.
Proof. apply decimal_length. Qed.

(** What [Cookie_Read] hands out is short and not empty. *)
Lemma Cookie_Read_small file bad cred : Cookie_Read file bad = inr cred -> cred <> [] /\ zlen cred < 256.
Proof.
  unfold Cookie_Read. destruct file as [stored|]; [|done]. destruct bad; [done|]. destruct (Z.eqb_spec (zlen (take 256 stored)) 256) as [|Hne]; [done|].
  destruct (decide (rev (trim_eol (rev (take 256 stored))) = [])) as [|He]; [rewrite bool_decide_true by done; done|]. rewrite bool_decide_false by done.
  destruct (bool_decide _); [done|]. intros [= <-]. split; [done|]. assert (forall l, (length (trim_eol l) <= length l)%nat) as Ht.
  { induction l as [|c l IH]; cbn [trim_eol]; [done|]. destruct (_ || _); cbn [length]; lia. }
  specialize (Ht (rev (take 256 stored))). unfold zlen in *. rewrite !length_rev in *. rewrite length_take in *. lia.
Qed.

Section call.
Context (cred : bytes) (port : Z) (body : bytes).
Context (Hne : cred <> []) (Hcred : zlen cred < 256) (Hport : 0 <= port < 2 ^ 16) (Hbody : zlen body <= MAX_REQUEST_BYTES).

Lemma call_headers_ok : Forall header_ok (headers (call_request (Authorization cred) (str "127.0.0.1") port body)).
Proof using All.
  assert (forall n, 0 <= n < 10 ^ 20 -> Forall (fun c => c <> COLON /\ c <> Byte.x5d /\ c <> CR /\ c <> SP /\ c <> HT) (to_chars n)) as D.
  { intros n Hn. apply digits_chars. by apply to_chars_digits. }
  assert (forall l, Forall (fun c => c <> COLON /\ c <> Byte.x5d /\ c <> CR /\ c <> SP /\ c <> HT) l -> no_cr l /\ TrimOws l = l) as T.
  { intros l F. split; [eapply Forall_impl; [exact F|]; naive_solver|]. apply TrimOws_plain. eapply Forall_impl; [exact F|]; naive_solver. }
  pose proof (base64_chars cred) as B. pose proof (zlen_nonneg body). unfold call_request, Authorization. cbn [headers].
  repeat (apply Forall_cons; split); [..|apply Forall_nil; exact I]; (split; [by vm_compute|]); cbn [fst snd]; try (split; [repeat constructor; done|by vm_compute]).
  - specialize (D port ltac:(lia)). split; [apply Forall_app; split; [repeat constructor; done|]; constructor; [done|by apply T]|].
    apply TrimOws_plain. apply Forall_app. split; [repeat constructor; done|]. constructor; [done|]. eapply Forall_impl; [exact D|]; naive_solver.
  - split; [apply Forall_app; split; [repeat constructor; done|]; eapply Forall_impl; [exact B|]; naive_solver|].
    apply (TrimOws_scheme (str "Basic")); [done|by apply Base64Encode_nonempty|repeat constructor; done|eapply Forall_impl; [exact B|]; naive_solver].
  - apply T, D. unfold MAX_REQUEST_BYTES in Hbody. rewrite Z.shiftl_mul_pow2 in Hbody by lia. lia.
Qed.

Lemma call_section : let r := call_request (Authorization cred) (str "127.0.0.1") port body in
  zlen (section (request_line r) (map line_of (headers r))) < 8190.
Proof using All.
  cbv zeta. unfold section, call_request, Authorization. cbn [headers map]. pose proof (length_Base64Encode cred). pose proof (length_to_chars port). pose proof (length_to_chars (zlen body)).
  unfold zlen in *. cbn [concat line_of fst snd]. unfold line_of. cbn [fst snd]. rewrite !length_app.
  revert H H0 H1. generalize (length (Base64Encode cred)) (length (to_chars port)) (length (to_chars (Z.of_nat (length body)))). intros x y z ???.
  cbn. lia.
Qed.

Lemma call_ok : request_ok (call_request (Authorization cred) (str "127.0.0.1") port body).
Proof using All.
  split.
  - repeat constructor; done.
  - split; [repeat constructor; done|by eexists].
  - apply call_headers_ok.
  - reflexivity.
  - split; [reflexivity|]. change (Header _ CONTENT_LENGTH) with (Some (to_chars (zlen body))). cbn [from_option id].
    apply ParseLength_to_chars; [pose proof (zlen_nonneg body); change (zlen (Http.body _)) with (zlen body); lia|]. unfold MAX_REQUEST_BYTES. rewrite Z.shiftl_mul_pow2 by lia. lia.
  - pose proof call_section as H. cbv zeta in H. unfold MAX_HEADER_BYTES. lia.
Qed.

Lemma call_screened : Screen (call_request (Authorization cred) (str "127.0.0.1") port body) (mkAuthPolicy (Authorization cred) port) = None.
Proof using All.
  unfold Screen. change (CountHeader _ AUTHORIZATION) with 1. change (CountHeader _ HOST) with 1.
  change (Header _ AUTHORIZATION) with (Some (Authorization cred)). change (Header _ HOST) with (Some (str "127.0.0.1" ++ [COLON] ++ to_chars port)).
  cbn [Z.eqb Pos.eqb negb from_option id expected_authorization Http.port]. unfold id. rewrite (proj2 (ConstantTimeEquals_spec _ _) eq_refl). cbn [negb].
  destruct (to_chars_digits port) as (H1 & H2 & H3); [lia|]. rewrite (proj2 (IsLoopbackHost_spec _ _ Hport)); [by vm_compute|].
  exists (str "127.0.0.1"). split; [unfold LOOPBACK_NAMES; set_solver|]. right. exists (to_chars port). split_and!; try done.
  unfold zlen. pose proof (length_to_chars port). lia.
Qed.
End call.

(** ** Lemmas: replies *)

(** The announced length of one line. *)
Definition scan_line (acc : option Z * Z) (line : bytes) : option Z * Z :=
  match find [COLON] line with
  | Some colon =>
      if IEquals (take colon line) CONTENT_LENGTH then (ParseLength (TrimOws (drop (colon + 1) line)) MAX_RESPONSE_BYTES, acc.2 + 1) else acc
  | None => acc
  end.

Lemma scan_lengths_section lines : forall l fuel len count, Forall (fun l => no_cr l /\ l <> []) (l :: lines) -> (length (section l lines) <= fuel)%nat ->
  scan_lengths fuel (section l lines) len count = foldl scan_line (len, count) (l :: lines).
Proof.
  induction lines as [|l' lines IH]; intros l fuel len count F Hf; apply Forall_cons in F as [[Hl Hne] F].
  all: destruct fuel as [|fuel]; [unfold section in Hf; destruct l; cbn in Hf; [done|lia]|].
  1: pose proof (cut_line l [] Hl) as [E1 E2]. 2: pose proof (cut_line l (l' :: lines) Hl) as [E1 E2].
  all: destruct (section l _) as [|c t] eqn:Es; [unfold section in Es; by destruct l|].
  all: cbn [scan_lengths]; rewrite E1, E2; cbn [foldl]; unfold scan_line at 1; cbn [snd].
  - destruct (find [COLON] l) as [i|]; [destruct (IEquals _ _)|]; by destruct fuel.
  - assert (length (section l' lines) <= fuel)%nat as Hf'.
    { rewrite section_cons in Es. apply (f_equal length) in Es. rewrite !length_app in Es. rewrite <- Es in Hf. cbn in Hf. lia. }
    unfold scan_line at 2. destruct (find [COLON] l) as [i|]; [destruct (IEquals _ _)|]; by apply IH.
Qed.

(** The head the server writes. *)
Definition status_line (status : HttpStatus) : bytes := str "HTTP/1.1 " ++ to_chars (status_code status) ++ [SP] ++ ReasonPhrase status.
Definition response_headers (status : HttpStatus) (body content_type : bytes) : list (bytes * bytes) :=
  [(CONTENT_TYPE, content_type); (CONTENT_LENGTH, to_chars (zlen body)); (str "Connection", str "close");
   (str "X-Content-Type-Options", str "nosniff")] ++
  (if bool_decide (status = Unauthorized) then [(str "WWW-Authenticate", str "Basic realm=" ++ QUOTE ++ str "amarian" ++ QUOTE)] else []).
Definition response_head (status : HttpStatus) (body content_type : bytes) : bytes :=
  section (status_line status) (map line_of (response_headers status body content_type)).

Lemma RenderResponse_text status body content_type :
  RenderResponse status body content_type = response_head status body content_type ++ HEADER_TERMINATOR ++ body.
Proof.
  unfold RenderResponse, response_head, response_headers, status_line. rewrite map_app. cbn [map app]. rewrite !section_cons. unfold section, line_of. cbn [map fst snd].
  destruct (bool_decide _); cbn [map concat fst snd]; rewrite ?app_nil_r, <- !app_assoc; reflexivity.
Qed.

Section reply.
Context (status : HttpStatus) (body content_type : bytes) (Hct : no_cr content_type) (Hbody : zlen body <= MAX_RESPONSE_BYTES).
Abbreviation head := (response_head status body content_type).

Lemma length_digits : ParseLength (to_chars (zlen body)) MAX_RESPONSE_BYTES = Some (zlen body) /\
  Forall (fun c => c <> COLON /\ c <> Byte.x5d /\ c <> CR /\ c <> SP /\ c <> HT) (to_chars (zlen body)).
Proof using Hbody.
  pose proof (zlen_nonneg body). unfold MAX_RESPONSE_BYTES in *. rewrite Z.shiftl_mul_pow2 in * by lia.
  split; [apply ParseLength_to_chars; lia|]. apply digits_chars, to_chars_digits. lia.
Qed.

Lemma status_plain : no_cr (status_line status).
Proof. clear. destruct status; repeat constructor; done. Qed.

Lemma lines_plain : Forall (fun l => no_cr l /\ l <> []) (map line_of (response_headers status body content_type)).
Proof using Hct Hbody.
  destruct length_digits as [_ D]. unfold response_headers. rewrite map_app. apply Forall_app. split.
  - unfold line_of. cbn [map fst snd]. repeat (apply Forall_cons; split); try (apply Forall_nil; exact I); (split; [|done]); unfold no_cr; rewrite ?Forall_app; split_and!.
    all: try exact Hct; try (repeat constructor; done).
    eapply Forall_impl; [exact D|]; naive_solver.
  - destruct (bool_decide _); [|done]. repeat constructor; done.
Qed.

Lemma head_read : read_head head = inr (status_code status, Some (zlen body)).
Proof using Hct Hbody.
  unfold read_head. destruct (cut_line _ (map line_of (response_headers status body content_type)) status_plain) as [E1 E2].
  unfold response_head. rewrite E1, E2. destruct length_digits as [P D]. pose proof lines_plain as F. clear E1 E2.
  set (lines := map line_of _) in *. assert (exists l ls, lines = l :: ls) as (l & ls & El) by (unfold lines, response_headers; cbn; eauto).
  rewrite El in *. rewrite scan_lengths_section by done. rewrite <- El. unfold lines. clear El F l ls lines.
  assert (scan_line (None, 0) (line_of (CONTENT_TYPE, content_type)) = (None, 0)) as E1 by reflexivity.
  assert (scan_line (None, 0) (line_of (CONTENT_LENGTH, to_chars (zlen body))) = (Some (zlen body), 1)) as E2.
  { unfold scan_line, line_of. cbn [fst snd]. pose proof (find_at COLON [] CONTENT_LENGTH (SP :: to_chars (zlen body)) ltac:(repeat constructor; done)) as E.
    cbn [app] in E |- *. rewrite E, take_app_length. change (IEquals CONTENT_LENGTH CONTENT_LENGTH) with true. cbv iota.
    rewrite drop_app_ge by lia. replace (length CONTENT_LENGTH + 1 - length CONTENT_LENGTH)%nat with 1%nat by lia. cbn [drop].
    assert (TrimOws (SP :: to_chars (zlen body)) = to_chars (zlen body)) as ->; [|by rewrite P].
    change (TrimOws (SP :: to_chars (zlen body))) with (TrimOws (to_chars (zlen body))). apply TrimOws_plain. eapply Forall_impl; [exact D|]; naive_solver. }
  unfold response_headers. rewrite map_app, foldl_app. cbn [map foldl]. rewrite E1, E2.
  destruct status; reflexivity.
Qed.

Lemma head_found rest : find HEADER_TERMINATOR (head ++ HEADER_TERMINATOR ++ rest) = Some (length head).
Proof using Hct Hbody. apply find_terminator; [apply status_plain|apply lines_plain]. Qed.

Lemma whole_reply rest at_eof : Split (RenderResponse status body content_type ++ rest) at_eof = mkParsed RComplete (status_code status) body [].
Proof using Hct Hbody.
  unfold Split. rewrite RenderResponse_text, <- !app_assoc, head_found, take_app_length, head_read.
  assert (drop (length head + 4) (head ++ HEADER_TERMINATOR ++ body ++ rest) = body ++ rest) as ->.
  { rewrite app_assoc. apply drop_app_length'. by rewrite length_app. }
  rewrite zlen_app. pose proof (zlen_nonneg rest). destruct (Z.ltb_spec (zlen body + zlen rest) (zlen body)); [lia|].
  unfold zlen at 1. by rewrite Nat2Z.id, take_app_length.
Qed.

Lemma cut_reply a b : RenderResponse status body content_type = a ++ b -> b <> [] -> zlen a <= MAX_RESPONSE_BYTES ->
  Split a false = need_more /\ r_state (Split a true) = RMalformed.
Proof using Hct Hbody.
  intros E Hb Ha. rewrite RenderResponse_text in E. unfold Split. destruct (find HEADER_TERMINATOR a) as [i|] eqn:Ei.
  - pose proof (find_Some_fits _ _ _ Ei) as Hf. change (length HEADER_TERMINATOR) with 4%nat in Hf. pose proof (find_app _ _ b _ Ei) as Ei'.
    rewrite <- E, head_found in Ei'. assert (i = length head) as -> by congruence. clear Ei'. assert (take (length head) a = head) as ->.
    { rewrite <- (take_app_le a b) by lia. rewrite <- E. apply take_app_length. }
    rewrite head_read. destruct (Z.ltb_spec (zlen (drop (length head + 4) a)) (zlen body)); [done|]. exfalso.
    apply (f_equal length) in E. rewrite !length_app in E. change (length HEADER_TERMINATOR) with 4%nat in E. unfold zlen in *. rewrite length_drop in *.
    destruct b; [done|]. cbn [length] in E. lia.
  - destruct (Z.gtb_spec (zlen a) MAX_RESPONSE_BYTES); [lia|]. done.
Qed.

Lemma received_whole events : receive (RenderResponse status body content_type) events = Some (inr (mkParsed RComplete (status_code status) body [])).
Proof using Hct Hbody. pose proof (whole_reply [] false) as W. rewrite app_nil_r in W. destruct events; cbn [receive]; unfold ParseResponse; by rewrite W. Qed.

(** Whatever the packets are, the loop reads the reply. *)
Lemma received chunks : forall got, zlen (RenderResponse status body content_type) <= MAX_RESPONSE_BYTES ->
  got ++ concat chunks = RenderResponse status body content_type ->
  receive got (map Chunk chunks) = Some (inr (mkParsed RComplete (status_code status) body [])).
Proof using Hct Hbody.
  induction chunks as [|c chunks IH]; intros got Hs E; cbn [concat] in E.
  - rewrite app_nil_r in E. subst got. by rewrite received_whole.
  - destruct (decide (c ++ concat chunks = [])) as [En|Hn].
    + rewrite En, app_nil_r in E. subst got. by rewrite received_whole.
    + cbn [map receive]. unfold ParseResponse. rewrite <- E in Hs. rewrite !zlen_app in Hs. pose proof (zlen_nonneg c). pose proof (zlen_nonneg (concat chunks)).
      destruct (cut_reply got (c ++ concat chunks)) as [-> _]; [done|done|lia|]. cbn [r_state need_more].
      rewrite zlen_app. destruct (Z.gtb_spec (zlen got + zlen c) MAX_RESPONSE_BYTES); [lia|]. apply IH; [rewrite <- E, !zlen_app; lia|by rewrite <- app_assoc].
Qed.
End reply.

(** ** Claims *)

(** A client that has read the server's cookie is served: the call it writes is framed,
    whatever follows it, as one request with exactly the body the client meant, and passes
    the screen of a server that expects that credential on that port. *)
Theorem client_request_served (file : option bytes) (bad : bool) (cred : bytes) (port : Z) (body rest : bytes) :
  Cookie_Read file bad = inr cred -> 0 <= port < 2 ^ 16 -> zlen body <= MAX_REQUEST_BYTES ->
  let call := RenderCall (Authorization cred) (str "127.0.0.1") port body in
  let framed := FrameRequest (call ++ rest) in
  state framed = Complete /\ Http.body (request framed) = body /\ consumed framed = zlen call /\
  Screen (request framed) (mkAuthPolicy (Authorization cred) port) = None.
Proof.
  intros (Hne & Hl)%Cookie_Read_small Hp Hb call framed. unfold framed, call. rewrite RenderCall_text.
  rewrite request_framed by (by apply call_ok). split_and!; [done..|]. by apply call_screened.
Qed.

Lemma client_request_served_witness :
  let call := RenderCall (Authorization (str "__cookie__:00ff")) (str "127.0.0.1") 9332 (str "{}") in
  Screen (request (FrameRequest (call ++ []))) (mkAuthPolicy (Authorization (str "__cookie__:00ff")) 9332) = None.
Proof.
  intros call. apply (client_request_served (Some (str "__cookie__:00ff" ++ [Byte.x0a])) false (str "__cookie__:00ff") 9332 (str "{}") []).
  - by vm_compute.
  - lia.
  - by vm_compute.
Defined.

(** What the server answers is what the client reads: a response is recognised when it is
    there and not before, an end of the connection before that is a failure and never a
    shorter answer, and the client's loop returns the status and the body however the bytes
    are split into packets. *)
Theorem response_delivered (status : HttpStatus) (body content_type : bytes) :
  no_cr content_type -> zlen (RenderResponse status body content_type) <= MAX_RESPONSE_BYTES ->
  let reply := mkParsed RComplete (status_code status) body [] in
  (forall rest, ParseResponse (RenderResponse status body content_type ++ rest) = reply) /\
  (forall a b, RenderResponse status body content_type = a ++ b -> b <> [] ->
     ParseResponse a = need_more /\ r_state (FinishResponse a) = RMalformed) /\
  (forall chunks, concat chunks = RenderResponse status body content_type -> receive [] (map Chunk chunks) = Some (inr reply)).
Proof.
  intros Hct Hs reply. assert (zlen body <= MAX_RESPONSE_BYTES) as Hb.
  { rewrite RenderResponse_text, !zlen_app in Hs. pose proof (zlen_nonneg (response_head status body content_type)). pose proof (zlen_nonneg HEADER_TERMINATOR). lia. }
  split_and!.
  - intros rest. by apply whole_reply.
  - intros a b E Hne. apply (cut_reply status body content_type Hct Hb a b E Hne). rewrite E, zlen_app in Hs. pose proof (zlen_nonneg b). lia.
  - intros chunks E. apply (received status body content_type Hct Hb); [exact Hs|exact E].
Qed.

Lemma response_delivered_witness :
  zlen (RenderResponse Ok (str "{}") APPLICATION_JSON) <= MAX_RESPONSE_BYTES /\
  forall rest, ParseResponse (RenderResponse Ok (str "{}") APPLICATION_JSON ++ rest) = mkParsed RComplete 200 (str "{}") [].
Proof.
  assert (zlen (RenderResponse Ok (str "{}") APPLICATION_JSON) <= MAX_RESPONSE_BYTES) as H by (by vm_compute).
  split; [exact H|]. apply (response_delivered Ok (str "{}") APPLICATION_JSON); [repeat constructor; done|exact H].
Defined.
End RpcClient.
