(* ===== verification/Rpc.v ===== *)
(** * The methods a node serves (rpc/dispatch.cpp)

    Each method as a computation on the node's chain, pool and wallet that ends in a JSON
    value or an error, with the hashes it hands to the peer manager.  The pool is the one the
    daemon's keeper owns, so it follows the chain state's notifications (Daemon.v). *)

From Stdlib Require Import String.
From S2P Require Import Prelude Overflow Serialize Hex Crypto Primitives Target Work Asert Issuance Params Merkle Sighash Validation Genesis BlockIndex Coins Connect BlockStore ChainState Mempool MempoolInv BlockAssembler Message Protocol Handshake AddressBook PeerConnection PeerManager Daemon Address CoinSelection Mnemonic Signing TxBuilder WalletDb Wallet JsonValue.
From stdpp Require Import gmap strings.
#[local] Open Scope Z_scope.

Module Rpc.
Import Params Validation BlockIndex Connect BlockStore ChainState BlockAssembler Daemon JsonValue.

(** ** Errors *)

Inductive RpcError :=
  | UnknownMethod | InvalidParams | MalformedHex | MalformedBlock | MalformedTransaction | NoPayout | NoMempool
  | TemplateFailed | MiningNotPermitted | NotSolved | SelfRejected | ChainFault.

Definition Describe_rpc (error : RpcError) : string :=
  match error with
  | UnknownMethod => "no such method"
  | InvalidParams => "the arguments are not of the shape this method takes"
  | MalformedHex => "an argument was not hex of the required length"
  | MalformedBlock => "the submitted bytes are not an encoded block"
  | MalformedTransaction => "the submitted bytes are not an encoded transaction"
  | NoPayout => "no payout lock was given and this node was started without one"
  | NoMempool => "this node was started without a transaction pool"
  | TemplateFailed => "this node could not assemble a block it would accept"
  | MiningNotPermitted => "this network's proof of work is real, so mine with getblocktemplate"
  | NotSolved => "the nonce budget ran out before a solution was found"
  | SelfRejected => "this node's own rules refused a block this node built"
  | ChainFault => "this node's storage contradicts its own chain"
  end%string.

Definition Code (error : RpcError) : Z :=
  match error with
  | UnknownMethod => -32601
  | InvalidParams | MalformedHex => -8
  | MalformedBlock | MalformedTransaction => -22
  | NoPayout => -5
  | NoMempool | MiningNotPermitted | NotSolved => -1
  | TemplateFailed | SelfRejected => -25
  | ChainFault => -20
  end.

Record Error := mkError { code : RpcError; detail : string }.

(** ** Arguments *)

Definition Arg (params : json) (index : nat) (name : string) : option json :=
  let found :=
    match params with
    | JArray l => l !! index
    | JObject m => m !! str name
    | _ => None
    end in
  match found with
  | Some v => if is_null v then None else Some v
  | None => None
  end.

Definition AsString (value : json) : Error + bytes :=
  match value with JString s => inr s | _ => inl (mkError InvalidParams "expected a string") end.

Definition AsUint (value : json) : Error + Z :=
  match value with JUnsigned n => inr n | _ => inl (mkError InvalidParams "expected a non-negative integer") end.

Definition AsBytes (value : json) : Error + bytes :=
  match AsString value with
  | inl e => inl e
  | inr text =>
      match Hex.FromHex text with
      | Some bs => inr bs
      | None => inl (mkError MalformedHex "expected an even number of hex digits")
      end
  end.

Definition ParseLock (value : json) (params : ChainParams) : Error + Lock :=
  if negb (is_object value) then inl (mkError InvalidParams "a lock is {version, program}")
  else match Arg value 0 "version", Arg value 1 "program" with
  | Some version, Some program =>
      match AsUint version with
      | inl e => inl e
      | inr raw =>
          if raw >? 0xFF then inl (mkError InvalidParams "a lock version is one byte")
          else if raw =? LOCK_VERSION_UNSPENDABLE then inl (mkError InvalidParams "lock version 0 can never be spent")
          else match AsBytes program with
          | inl e => inl e
          | inr bs =>
              if zlen bs >? max_lock_program_size (limits_tx (block_limits params))
              then inl (mkError InvalidParams "the lock program is longer than a block may carry")
              else inr (mkLock raw bs)
          end
      end
  | _, _ => inl (mkError InvalidParams "a lock needs both version and program")
  end.

Definition hex (bs : bytes) : json := JString (Hex.ToHex bs).
Definition hash_hex (h : bytes) : json := JString (Hex.Hash256_ToHex h).

(** ** The node *)

Record Node (V D K : Type) := mkNode {
  state : ChainState V D K;
  keeper : option PoolKeeper;
  params : ChainParams;
  wallet : option Wallet.Wallet;
  payout : option Lock }.
Arguments mkNode {V D K}.
Arguments state {V D K}.
Arguments keeper {V D K}.
Arguments params {V D K}.
Arguments wallet {V D K}.
Arguments payout {V D K}.

Inductive Relay := RelayBlock (hash : bytes) | RelayTransaction (wtxid : bytes).

(** The callbacks that are set. *)
Record Callbacks (V D K : Type) := mkCallbacks {
  submit_transaction : option (Transaction -> Node V D K -> bool * Node V D K);
  chain_changed : option (Node V D K -> Node V D K);
  relay_block : bool;
  relay_transaction : bool }.
Arguments mkCallbacks {V D K}.
Arguments submit_transaction {V D K}.
Arguments chain_changed {V D K}.
Arguments relay_block {V D K}.
Arguments relay_transaction {V D K}.

Section dispatch.
Context `{HO : Mempool.HashOrder} `{SH : Sha256Impl} `{SB : Signature.SignatureBackends} {V D K : Type}.
Context `{CV : CoinsView V} `{BS : BlockStore D} `{CS : ChainSink K V}.
Context `{WJ : WalletDb.Json} `{SS : CoinSelection.StdSort} `{SG : Signing.SigningBackends} (callbacks : Callbacks V D K).
Abbreviation State := (ChainState V D K).
Abbreviation node := (Node V D K).

(** *** Computations

    [None] is what the operations underneath leave undefined.  An error keeps the changes
    made before it. *)

Definition M (A : Type) : Type := node -> option ((Error + A) * node * list Relay).
#[global] Instance M_ret : MRet M := fun A a n => Some (inr a, n, []).
#[global] Instance M_bind : MBind M := fun A B k m n =>
  match m n with
  | Some (inr a, n, o) => match k a n with Some (r, n, o') => Some (r, n, o ++ o') | None => None end
  | Some (inl e, n, o) => Some (inl e, n, o)
  | None => None
  end.
Definition fail {A} (code : RpcError) (detail : string) : M A := fun n => Some (inl (mkError code detail), n, []).
Definition lift {A} (x : Error + A) : M A := fun n => Some (x, n, []).
Definition get : M node := fun n => Some (inr n, n, []).
Definition modify (f : node -> node) : M unit := fun n => Some (inr tt, f n, []).
Definition emit (r : Relay) : M unit := fun n => Some (inr tt, n, [r]).
Definition demand {A} (x : option A) : M A := fun n => a ← x; Some (inr a, n, []).

Definition with_state (s : State) (n : node) : node := mkNode s (keeper n) (params n) (wallet n) (payout n).
Definition with_keeper (k : PoolKeeper) (n : node) : node := mkNode (state n) (Some k) (params n) (wallet n) (payout n).
Definition with_wallet (w : Wallet.Wallet) (n : node) : node := mkNode (state n) (keeper n) (params n) (Some w) (payout n).

(** [*node.pool], with the notifications that have reached its keeper. *)
Definition pool (n : node) : option Pool := pool_ <$> (catch_up (state n) <$> keeper n).

Definition with_pool (p : Pool) (n : node) : node :=
  match keeper n with
  | Some k => let k := catch_up (state n) k in with_keeper (mkKeeper p (reorganised_ k) (taken_ k)) n
  | None => n
  end.

(** [*node.state->Tip()] *)
Definition the_tip (n : node) : option BlockIndexEntry := Tip (state n) ≫= Find (index_ (state n)).

(** *** What is read *)

Definition ResolvePayout (args : json) (index : nat) (name : string) : M Lock :=
  n ← get;
  match Arg args index name with
  | Some given => lift (ParseLock given (params n))
  | None =>
      match payout n with
      | Some lock => mret lock
      | None => fail NoPayout (Describe_rpc NoPayout)
      end
  end.

Record TipFacts := mkTipFacts { tip_entry : BlockIndexEntry; next_height : Z; next_bits : Z; median_time : Z }.

Definition FactsFor (now : Z) : M TipFacts :=
  n ← get;
  tip ← demand (the_tip n);
  mret (mkTipFacts tip (if ent_height tip <? 2 ^ 32 - 1 then ent_height tip + 1 else ent_height tip)
          (NextTargetBitsAt tip now (params n)) (MedianTimePastAt (index_ (state n)) tip)).

Definition MempoolFacts (pool : option Pool) : json :=
  match pool with
  | None => object [("size", JInteger 0); ("weight", JInteger 0); ("total_fees", JInteger 0);
                    ("lowest_package_feerate", JInteger 0); ("present", JBool false)]%string
  | Some p => object [("size", JUnsigned (Mempool.Size p)); ("weight", JUnsigned (Mempool.TotalWeight p));
                      ("total_fees", JInteger (Mempool.TotalFees p));
                      ("lowest_package_feerate", JInteger (Mempool.LowestPackageFeerate p)); ("present", JBool true)]%string
  end.

Definition GetBlockchainInfo (args : json) (now : Z) : M json :=
  n ← get;
  facts ← FactsFor now;
  let tip := tip_entry facts in
  end_height ← demand (Issuance.IssuanceEndHeight (issuance (params n)));
  mret (object [("chain", text (net_name (params n)));
                ("chain_id", hash_hex (chain_id (params n)));
                ("blocks", JUnsigned (ent_height tip));
                ("best_block_hash", hash_hex (ent_hash tip));
                ("total_work", JString (Work.ToHex (ent_total_work tip)));
                ("median_time", JInteger (median_time facts));
                ("tip_time", JInteger (hdr_timestamp (ent_header tip)));
                ("target_bits", JUnsigned (hdr_target_bits (ent_header tip)));
                ("next_target_bits", JUnsigned (next_bits facts));
                ("trivial_difficulty", JBool (trivial_difficulty (params n)));
                ("issuance_end_height", JUnsigned end_height);
                ("max_money", JInteger MAX_MONEY);
                ("base_unit", text "facet");
                ("units_per_coin", JInteger Issuance.FACETS_PER_AMR);
                ("mempool", MempoolFacts (pool n))]%string).

Definition GetMiningInfo (args : json) (now : Z) : M json :=
  n ← get;
  facts ← FactsFor now;
  let tip := tip_entry facts in
  mret (object [("chain", text (net_name (params n)));
                ("blocks", JUnsigned (ent_height tip));
                ("next_height", JUnsigned (next_height facts));
                ("target_bits", JUnsigned (hdr_target_bits (ent_header tip)));
                ("next_target_bits", JUnsigned (next_bits facts));
                ("next_target", match Target.CompactToTarget (next_bits facts) with Some t => hex t | None => JNull end);
                ("next_reward", JInteger (Issuance.BlockReward (next_height facts) (issuance (params n))));
                ("median_time", JInteger (median_time facts));
                ("max_block_weight", JUnsigned (max_block_weight (params n)));
                ("trivial_difficulty", JBool (trivial_difficulty (params n)));
                ("mempool", MempoolFacts (pool n))]%string).

(** *** Templates *)

Record TimeWindow := mkTimeWindow { min_time : Z; max_time : Z }.

Definition WindowFor (facts : TipFacts) (now : Z) : TimeWindow :=
  let CEILING := 2 ^ 63 - 1 in
  mkTimeWindow (if median_time facts <? CEILING then median_time facts + 1 else median_time facts)
    (if now <? CEILING - MAX_FUTURE_BLOCK_SECONDS then now + MAX_FUTURE_BLOCK_SECONDS else CEILING).

(** One entry of the list of transactions. *)
Definition template_entry (pool : option Pool) (tx : Transaction) : json :=
  let entry := p ← pool; Mempool.Find p (Wtxid tx) in
  object [("data", hex (encode Transaction_Serialize tx));
          ("txid", hash_hex (Txid tx));
          ("wtxid", hash_hex (Wtxid tx));
          ("weight", JUnsigned (Transaction_Weight tx));
          ("fee", match entry with Some e => JInteger (Mempool.ent_fee e) | None => JNull end)]%string.

Definition template_json (n : node) (facts : TipFacts) (built : BlockTemplate) (now : Z) : json :=
  let block := tmpl_block built in
  let window := WindowFor facts now in
  object [("height", JUnsigned (hdr_height (blk_header block)));
          ("version", JUnsigned (hdr_version (blk_header block)));
          ("previous_block_hash", hash_hex (hdr_prev_block (blk_header block)));
          ("merkle_root", hash_hex (hdr_merkle_root (blk_header block)));
          ("timestamp", JInteger (hdr_timestamp (blk_header block)));
          ("min_time", JInteger (min_time window));
          ("max_time", JInteger (max_time window));
          ("target", hex (tmpl_target built));
          ("target_bits", JUnsigned (hdr_target_bits (blk_header block)));
          ("nonce_range", text "0000000000000000ffffffffffffffff");
          ("coinbase_value", JInteger (tmpl_reward built));
          ("fees", JInteger (tmpl_fees built));
          ("coinbase_data_limit", JUnsigned (max_coinbase_data_size (limits_tx (block_limits (params n)))));
          ("weight", JUnsigned (Block_Weight block));
          ("weight_limit", JUnsigned (max_block_weight (params n)));
          ("mutable", JArray [text "nonce"; text "time"; text "coinbase/append"]);
          ("transactions", JArray (map (template_entry (pool n)) (tail (blk_transactions block))));
          ("block", hex (encode Block_Serialize block))]%string.

Definition optional_bytes (args : json) (index : nat) (name : string) : M bytes :=
  match Arg args index name with Some given => lift (AsBytes given) | None => mret [] end.

Definition GetBlockTemplate (args : json) (now : Z) : M json :=
  payout ← ResolvePayout args 0 "payout";
  coinbase_data ← optional_bytes args 1 "coinbase_data";
  n ← get;
  facts ← FactsFor now;
  built ← demand (BuildBlockTemplate (index_ (state n)) (tip_entry facts) payout now coinbase_data (params n) (pool n));
  match built with
  | inl e => fail TemplateFailed (Describe_template e)
  | inr built => mret (template_json n facts built now)
  end.

(** *** Blocks *)

Definition HEAVIER : string := "the block is valid but this node is on a heavier chain".

(** [None] is the empty text: the block is on the active chain. *)
Definition Submit (block : Block) (now : Z) : M (option string) :=
  n ← get;
  '(accepted, s) ← demand (AcceptBlock (params n) block now (state n));
  _ ← modify (with_state s);
  match accepted with
  | BlockIndex.Refused e => mret (Some (Describe_header e))
  | Found h =>
      '(activated, s) ← demand (ActivateBestChain (params n) s);
      _ ← modify (with_state s);
      match activated with
      | ChainState.Stop f => fail ChainFault (Describe_activation (fail_error f))
      | Value m =>
          _ ← (if negb (connected m =? 0) || negb (disconnected m =? 0)
               then match chain_changed callbacks with Some f => modify f | None => mret tt end
               else mret tt);
          match List.find (fun r => bool_decide (rej_hash r = h)) (rejected m) with
          | Some r => mret (Some (Validation.Describe (rej_error r)))
          | None =>
              n ← get;
              entry ← demand (Find (index_ (state n)) h);
              if negb (Contains (chain_ (state n)) entry) then mret (Some HEAVIER)
              else
                _ ← match pool n with
                    | Some p => modify (with_pool (Mempool.RemoveForBlock block p).2)
                    | None => mret tt
                    end;
                _ ← (if relay_block callbacks then emit (RelayBlock h) else mret tt);
                mret None
          end
      end
  end.

Definition SubmitBlock (args : json) (now : Z) : M json :=
  match Arg args 0 "block" with
  | None => fail InvalidParams "submitblock takes one hex-encoded block"
  | Some given =>
      bs ← lift (AsBytes given);
      n ← get;
      match Parse (Block_Deserialize (block_limits (params n))) bs with
      | None => fail MalformedBlock (Describe_rpc MalformedBlock)
      | Some block =>
          outcome ← Submit block now;
          mret (match outcome with None => JNull | Some why => text why end)
      end
  end.

Definition DEFAULT_GENERATE_ATTEMPTS : Z := Z.shiftl 1 26.
Definition MAX_GENERATE_BLOCKS : Z := 1000.

(** The loop of [Generate], with the hashes made so far. *)
Fixpoint generate_loop (blocks : nat) (payout : Lock) (attempts now : Z) (hashes : list json) : M json :=
  match blocks with
  | O => mret (JArray hashes)
  | S blocks =>
      n ← get;
      tip ← demand (the_tip n);
      built ← demand (BuildBlockTemplate (index_ (state n)) tip payout now [] (params n) (pool n));
      match built with
      | inl e => fail TemplateFailed (Describe_template e)
      | inr built =>
          let '(solved, header) := SolveHeader (blk_header (tmpl_block built)) (tmpl_target built) attempts in
          if negb solved then fail NotSolved (Describe_rpc NotSolved)
          else
            outcome ← Submit (mkBlock header (blk_transactions (tmpl_block built))) now;
            match outcome with
            | Some why => fail SelfRejected why
            | None => generate_loop blocks payout attempts now (hashes ++ [hash_hex (BlockHeader_Hash header)])
            end
      end
  end.

Definition optional_uint (args : json) (index : nat) (name : string) (otherwise : Z) : M Z :=
  match Arg args index name with Some given => lift (AsUint given) | None => mret otherwise end.

Definition Generate (args : json) (now : Z) : M json :=
  n ← get;
  if negb (trivial_difficulty (params n)) then fail MiningNotPermitted (Describe_rpc MiningNotPermitted)
  else
    blocks ← optional_uint args 0 "blocks" 1;
    if (blocks =? 0) || (blocks >? MAX_GENERATE_BLOCKS) then fail InvalidParams "generate makes between 1 and 1000 blocks"
    else
      payout ← ResolvePayout args 1 "payout";
      attempts ← optional_uint args 2 "attempts" DEFAULT_GENERATE_ATTEMPTS;
      if attempts =? 0 then fail InvalidParams "a nonce budget of zero searches nothing"
      else generate_loop (Z.to_nat blocks) payout attempts now [].

(** *** The pool and the chain *)

Definition GetMempoolInfo (args : json) (now : Z) : M json :=
  n ← get;
  mret (set_member "min_relay_feerate" (JInteger Mempool.MIN_RELAY_FEERATE)
         (set_member "max_weight" (JUnsigned Mempool.MAX_MEMPOOL_WEIGHT) (MempoolFacts (pool n)))).

(** [std::ranges::sort]: bytewise. *)
Fixpoint lex_le (a b : bytes) : bool :=
  match a, b with
  | [], _ => true
  | _, [] => false
  | x :: a, y :: b => if b2z x <? b2z y then true else if b2z y <? b2z x then false else lex_le a b
  end.
Fixpoint insert_id (x : bytes) (l : list bytes) : list bytes :=
  match l with
  | [] => [x]
  | y :: l => if lex_le x y then x :: y :: l else y :: insert_id x l
  end.
Definition sort_ids (l : list bytes) : list bytes := foldr insert_id [] l.

Definition GetRawMempool (args : json) (now : Z) : M json :=
  n ← get;
  mret (JArray (match pool n with Some p => map hash_hex (sort_ids (Mempool.Wtxids p)) | None => [] end)).

Definition GetBlockHash (args : json) (now : Z) : M json :=
  match Arg args 0 "height" with
  | None => fail InvalidParams "getblockhash takes a height"
  | Some given =>
      height ← lift (AsUint given);
      n ← get;
      match (if height <=? 2 ^ 32 - 1 then AtHeight (chain_ (state n)) height else None) with
      | None => fail InvalidParams "this chain has no block at that height"
      | Some h => mret (hash_hex h)
      end
  end.

Definition rejection_json (r : Mempool.Rejection) : json :=
  object [("accepted", JBool false); ("reason", text (Mempool.Describe_reject (Mempool.reason r)));
          ("rule", match Mempool.rule r with Some e => text (Validation.Describe e) | None => JNull end)]%string.

Definition accepted_json (e : Mempool.Entry) : json :=
  object [("accepted", JBool true); ("txid", hash_hex (Mempool.ent_txid e)); ("wtxid", hash_hex (Mempool.ent_wtxid e));
          ("fee", JInteger (Mempool.ent_fee e)); ("weight", JUnsigned (Mempool.ent_weight e))]%string.

Definition SendRawTransaction (args : json) (now : Z) : M json :=
  n ← get;
  match pool n with
  | None => fail NoMempool (Describe_rpc NoMempool)
  | Some p =>
      match Arg args 0 "transaction" with
      | None => fail InvalidParams "sendrawtransaction takes one hex transaction"
      | Some given =>
          bs ← lift (AsBytes given);
          match Parse (Transaction_Deserialize (limits_tx (block_limits (params n)))) bs with
          | None => fail MalformedTransaction (Describe_rpc MalformedTransaction)
          | Some tx =>
              h ← demand (spend_height (state n));
              let '(offer, p) := Mempool.Accept tx (coins_ (state n)) h now (params n) p in
              _ ← modify (with_pool p);
              match offer with
              | Mempool.Refused r => mret (rejection_json r)
              | Mempool.Accepted w =>
                  entry ← demand (Mempool.Find p w);
                  _ ← (if relay_transaction callbacks then emit (RelayTransaction (Mempool.ent_wtxid entry)) else mret tt);
                  mret (accepted_json entry)
              end
          end
      end
  end.

(** *** The wallet *)

Definition NO_WALLET : string := "this node has no wallet".

Definition GetBalance (args : json) (now : Z) : M json :=
  n ← get;
  match wallet n with
  | None => fail InvalidParams NO_WALLET
  | Some w =>
      let balance := Wallet.GetBalance w in
      mret (object [("confirmed", JInteger (Wallet.confirmed balance)); ("pending", JInteger (Wallet.pending balance));
                    ("total", JInteger (Wallet.Total balance))]%string)
  end.

Definition GetNewAddress (args : json) (now : Z) : M json :=
  n ← get;
  match wallet n with
  | None => fail InvalidParams NO_WALLET
  | Some w =>
      let account_id :=
        match Arg args 0 "account" with
        | Some given => match AsUint given with inr acct => wrapu 32 acct | inl _ => 0 end
        | None => 0
        end in
      let '(info, w) := Wallet.GetNewAddress account_id w in
      _ ← modify (with_wallet w);
      mret (object [("address", JString (Wallet.info_address info)); ("lock", hex (encode Lock_Serialize (Wallet.info_lock info)));
                    ("account_id", JUnsigned (Wallet.info_account_id info)); ("index", JUnsigned (Wallet.info_index info))]%string)
  end.

Definition SendToAddress (args : json) (now : Z) : M json :=
  n ← get;
  match wallet n with
  | None => fail InvalidParams NO_WALLET
  | Some w =>
      match Arg args 0 "address", Arg args 1 "amount" with
      | Some addr, Some amount =>
          address ← lift (AsString addr);
          amt ← lift (AsUint amount);
          match Wallet.Send address (to_i64 amt) 0 w with
          | None => fail InvalidParams "send failed"
          | Some (sent, w) =>
              _ ← modify (with_wallet w);
              _ ← match submit_transaction callbacks with
                  | None => mret tt
                  | Some submit =>
                      match Hex.FromHex (Wallet.res_raw_tx_hex sent) with
                      | None => fail MalformedTransaction (Describe_rpc MalformedTransaction)
                      | Some raw =>
                          match Parse (Transaction_Deserialize (limits_tx (block_limits (params n)))) raw with
                          | None => fail InvalidParams "node rejected wallet transaction"
                          | Some tx =>
                              n ← get;
                              let '(ok, n) := submit tx n in
                              _ ← modify (fun _ => n);
                              if negb ok then fail InvalidParams "node rejected wallet transaction"
                              else if relay_transaction callbacks then emit (RelayTransaction (Wtxid tx)) else mret tt
                          end
                      end
                  end;
              mret (object [("txid", hash_hex (Wallet.res_txid sent)); ("fee", JInteger (Wallet.res_fee sent))]%string)
          end
      | _, _ => fail InvalidParams "sendtoaddress takes address and amount"
      end
  end.

Definition stored_json (tx : WalletDb.StoredTransaction) : json :=
  object [("txid", hash_hex (WalletDb.st_txid tx)); ("height", JInteger (WalletDb.st_height tx));
          ("received", JInteger (WalletDb.st_received tx)); ("sent", JInteger (WalletDb.st_sent tx));
          ("fee", JInteger (WalletDb.st_fee tx))]%string.

Definition ListTransactions (args : json) (now : Z) : M json :=
  n ← get;
  match wallet n with
  | None => fail InvalidParams NO_WALLET
  | Some w => mret (JArray (map stored_json (Wallet.ListTransactions w)))
  end.

(** *** Looking things up *)

Definition header_json (e : BlockIndexEntry) : json :=
  object [("hash", hash_hex (ent_hash e)); ("height", JUnsigned (ent_height e)); ("version", JUnsigned (hdr_version (ent_header e)));
          ("timestamp", JInteger (hdr_timestamp (ent_header e))); ("target_bits", JUnsigned (hdr_target_bits (ent_header e)));
          ("nonce", JUnsigned (hdr_nonce (ent_header e))); ("prev_block", hash_hex (hdr_prev_block (ent_header e)));
          ("merkle_root", hash_hex (hdr_merkle_root (ent_header e)))]%string.

(** [for (uint32_t h = 0; h <= tip; ++h)], while the tip is below the largest height: there
    the comparison always holds and the loop does not end. *)
Definition heights (tip : Z) : list Z := map Z.of_nat (seq 0 (Z.to_nat (tip + 1))).

Definition GetBlock (args : json) (now : Z) : M json :=
  match Arg args 0 "hash" with
  | None => fail InvalidParams "getblock takes a block hash"
  | Some given =>
      bs ← lift (AsBytes given);
      if negb (zlen bs =? 32) then fail MalformedHex "a block hash is 32 bytes"
      else
        hash ← demand (Hex.Hash256_FromBytes bs);
        n ← get;
        tip ← demand (the_tip n);
        match List.find (fun h => bool_decide (AtHeight (chain_ (state n)) h = Some hash)) (heights (ent_height tip)) with
        | None => fail InvalidParams "block not found"
        | Some _ => entry ← demand (Find (index_ (state n)) hash); mret (header_json entry)
        end
  end.

(** A transaction id from an argument. *)
Definition txid_of (given : json) : Error + bytes :=
  match AsString given with
  | inl e => inl e
  | inr text =>
      match Hex.FromHex text with
      | Some bs => if zlen bs =? 32 then inr bs else inl (mkError MalformedHex "txid is 32 bytes hex")
      | None => inl (mkError MalformedHex "txid is 32 bytes hex")
      end
  end.

Definition confirmations (tip height : Z) : Z :=
  if height >=? 0 then if tip >=? wrapu 32 height then wrapu 32 (tip - wrapu 32 height + 1) else 0 else 0.

Definition GetTransaction (args : json) (now : Z) : M json :=
  n ← get;
  match wallet n with
  | None => fail InvalidParams NO_WALLET
  | Some w =>
      match Arg args 0 "txid" with
      | None => fail InvalidParams "gettransaction takes a txid"
      | Some given =>
          bs ← lift (txid_of given);
          txid ← demand (Hex.Hash256_FromBytes bs);
          match List.find (fun t => bool_decide (WalletDb.st_txid t = txid)) (Wallet.ListTransactions w) with
          | Some stored =>
              tip ← demand (the_tip n);
              mret (object [("txid", hash_hex (WalletDb.st_txid stored)); ("height", JInteger (WalletDb.st_height stored));
                            ("confirmations", JUnsigned (confirmations (ent_height tip) (WalletDb.st_height stored)));
                            ("received", JInteger (WalletDb.st_received stored)); ("sent", JInteger (WalletDb.st_sent stored));
                            ("fee", JInteger (WalletDb.st_fee stored)); ("in_wallet", JBool true)]%string)
          | None =>
              mret (object [("txid", hash_hex txid); ("confirmations", JInteger 0); ("in_wallet", JBool false)]%string)
          end
      end
  end.

Definition coin_json (txid : bytes) (vout : Z) (coin : Coin) : json :=
  object [("outpoint", object [("txid", hash_hex txid); ("vout", JUnsigned vout)]);
          ("amount", JInteger (out_amount (coin_output coin))); ("height", JUnsigned (coin_height coin));
          ("coinbase", JBool (coin_is_coinbase coin));
          ("lock", object [("version", JUnsigned (lock_version (out_lock (coin_output coin))));
                           ("program", hex (lock_program (out_lock (coin_output coin))))])]%string.

Definition GetTxOut (args : json) (now : Z) : M json :=
  match Arg args 0 "txid", Arg args 1 "vout" with
  | Some txid_arg, Some vout_arg =>
      bs ← lift (txid_of txid_arg);
      vout ← lift (AsUint vout_arg);
      txid ← demand (Hex.Hash256_FromBytes bs);
      n ← get;
      mret (match GetCoin (coins_ (state n)) (mkOutPoint txid (wrapu 32 vout)) with
            | Some coin => coin_json txid vout coin
            | None => JNull
            end)
  | _, _ => fail InvalidParams "gettxout takes txid and vout"
  end.

(** *** The table *)

Definition METHOD_NAMES : list string :=
  ["generate"; "getblockchaininfo"; "getblockhash"; "getblocktemplate"; "getmempoolinfo"; "getmininginfo"; "getrawmempool";
   "getbalance"; "getblock"; "getnewaddress"; "gettransaction"; "gettxout"; "help"; "listtransactions"; "sendtoaddress";
   "sendrawtransaction"; "submitblock"]%string.

Definition Help (args : json) (now : Z) : M json := mret (JArray (map text METHOD_NAMES)).

Definition METHODS : list (string * (json -> Z -> M json)) :=
  zip METHOD_NAMES
    [Generate; GetBlockchainInfo; GetBlockHash; GetBlockTemplate; GetMempoolInfo; GetMiningInfo; GetRawMempool;
     GetBalance; GetBlock; GetNewAddress; GetTransaction; GetTxOut; Help; ListTransactions; SendToAddress;
     SendRawTransaction; SubmitBlock].

(** A method's name arrives as bytes; [bound] is whether the node has a chain. *)
Definition Dispatch (bound : bool) (method : bytes) (args : json) (now : Z) : M json :=
  if negb bound then fail ChainFault "this RPC node is not bound to a chain"
  else match List.find (fun m => bool_decide (str m.1 = method)) METHODS with
  | Some (_, handler) => handler args now
  | None => fail UnknownMethod (Describe_rpc UnknownMethod)
  end.

(** ** The daemon's callbacks ([ServeRpc] of node/amariand.cpp) *)

Definition submit_to_keeper (clock : Z) (tx : Transaction) (n : node) : bool * node :=
  match keeper n with
  | None => (false, n)
  | Some k => let '(ok, k) := net_accept_transaction (params n) clock (state n) tx k in (ok, with_keeper k n)
  end.

(** The active chain's blocks with their heights, up to a tip below the largest height. *)
Definition chain_blocks (s : State) (tip : Z) : list (Block * Z) :=
  omap (fun height => h ← AtHeight (chain_ s) height; block ← BlockStore.GetBlock (store_ s) h; Some (block, height)) (heights tip).

Definition RescanWallet (s : State) (w : Wallet.Wallet) : Wallet.Wallet :=
  match Tip s ≫= Find (index_ s) with
  | Some tip => Wallet.Rescan (chain_blocks s (ent_height tip)) w
  | None => w
  end.

Definition rescan_on_change (n : node) : node :=
  match wallet n with Some w => with_wallet (RescanWallet (state n) w) n | None => n end.

Definition daemon_callbacks (clock : Z) (peer_manager : bool) : Callbacks V D K :=
  mkCallbacks (Some (submit_to_keeper clock)) (Some rescan_on_change) peer_manager peer_manager.
End dispatch.


(** ** Methods that only read *)

Section reading.
Context {V D K : Type}.
Abbreviation node := (Node V D K).

(** The node is left as it is and nothing is announced. *)
Definition quiet {A} (m : M (V := V) (D := D) (K := K) A) : Prop := forall n r n' o, m n = Some (r, n', o) -> n' = n /\ o = [].

Lemma call_quiet_ret {A} (a : A) : quiet (mret a).
Proof. intros n r n' o E. by injection E as _ <- <-. Qed.
Lemma quiet_fail {A} c d : quiet (fail (A := A) c d).
Proof. intros n r n' o E. by injection E as _ <- <-. Qed.
Lemma quiet_lift {A} (x : Error + A) : quiet (lift x).
Proof. intros n r n' o E. by injection E as _ <- <-. Qed.
Lemma call_quiet_get : quiet get.
Proof. intros n r n' o E. by injection E as _ <- <-. Qed.
Lemma quiet_demand {A} (x : option A) : quiet (demand x).
Proof. intros n r n' o. unfold demand. destruct x; cbn; [|done]. intros E. by injection E as _ <- <-. Qed.
Lemma call_quiet_bind {A B} (m : M (V := V) (D := D) (K := K) A) (f : A -> M B) : quiet m -> (forall a, quiet (f a)) -> quiet (m ≫= f).
Proof.
  intros Hm Hf n r n' o. unfold mbind, M_bind. destruct (m n) as [[[[e|a] n1] o1]|] eqn:Em; [| |done].
  - intros E. injection E as _ <- <-. by eapply Hm.
  - destruct (f a n1) as [[[r2 n2] o2]|] eqn:Ef; [|done]. intros E. injection E as _ <- <-.
    apply Hm in Em as [-> ->]. by apply Hf in Ef as [-> ->].
Qed.
End reading.

Ltac quiet_step :=
  first [ apply call_quiet_ret | apply quiet_fail | apply quiet_lift | apply call_quiet_get | apply quiet_demand
        | (apply call_quiet_bind; [|intros ?])
        | match goal with |- quiet (if ?b then _ else _) => destruct b end
        | match goal with |- quiet (match ?x with _ => _ end) => destruct x end ].

(** ** Calls keep the node *)

(** What a node's callbacks may do: change its pool and its wallet. *)
Record tame {V D K} (callbacks : Callbacks V D K) : Prop := {
  tame_submit f tx n : submit_transaction callbacks = Some f -> state (f tx n).2 = state n /\ params (f tx n).2 = params n;
  tame_changed f n : chain_changed callbacks = Some f -> state (f n) = state n /\ params (f n) = params n }.

Lemma daemon_tame `{Mempool.HashOrder} `{Sha256Impl} `{Signature.SignatureBackends} {V D K} `{CoinsView V} `{BlockStore D}
    `{WalletDb.Json} `{Signing.SigningBackends} clock peer_manager : tame (daemon_callbacks (V := V) (D := D) (K := K) clock peer_manager).
Proof.
  split; cbn; intros f.
  - intros tx n [= <-]. unfold submit_to_keeper. destruct (keeper n); [|done]. by destruct (net_accept_transaction _ _ _ _ _).
  - intros n [= <-]. unfold rescan_on_change. by destruct (wallet n).
Qed.

Section keeping.
Context `{HO : Mempool.HashOrder} `{SH : Sha256Impl} `{SB : Signature.SignatureBackends} {V D K : Type}.
Context `{CV : CoinsView V} `{!LawfulView V} `{BS : BlockStore D} `{!LawfulStore D} `{CS : ChainSink K V} `{!LawfulSink K V}.
Context `{WJ : WalletDb.Json} `{SS : CoinSelection.StdSort} `{SG : Signing.SigningBackends}.
Context (callbacks : Callbacks V D K) (Hcb : tame callbacks) (net : Network) (f0 : Ledger).
Abbreviation node := (Node V D K).

(** The node's chain is one a node reaches, with room for [room] more headers. *)
Definition good (room : Z) (n : node) : Prop :=
  params n = ParamsFor net /\ runs (ParamsFor net) f0 (state n) /\ Size (index_ (state n)) + room < 2 ^ 64 - 1.

(** The same, or storage has just refused a tip. *)
Definition standing (n : node) : Prop := params n = ParamsFor net /\ stands (ParamsFor net) f0 (state n).

Lemma good_standing room n : good room n -> standing n.
Proof. intros (P & R & _). split; [done|by left]. Qed.

Lemma good_less a b n : good a n -> b <= a -> good b n.
Proof. intros (P & R & S) Hle. split_and!; [done|done|lia]. Qed.

Lemma good_moved a n n' : state n' = state n -> params n' = params n -> good a n -> good a n'.
Proof. intros Es Ep (P & R & S). rewrite <- Es in *. split_and!; [congruence|done|done]. Qed.

(** A computation that ends, in an error with the chain standing or in a value and a node
    of which [Q] holds. *)
Definition safe {A} (m : M A) (Q : A -> node -> Prop) (n : node) : Prop :=
  exists r n' o, m n = Some (r, n', o) /\ match r with inl _ => standing n' | inr a => Q a n' end.

Lemma safe_ret {A} (a : A) (Q : A -> node -> Prop) n : Q a n -> safe (mret a) Q n.
Proof. intros H. by exists (inr a), n, []. Qed.
Lemma safe_fail {A} c d (Q : A -> node -> Prop) n : standing n -> safe (fail c d) Q n.
Proof. intros H. by exists (inl (mkError c d)), n, []. Qed.
Lemma safe_lift {A} (x : Error + A) (Q : A -> node -> Prop) n : standing n -> (forall a, x = inr a -> Q a n) -> safe (lift x) Q n.
Proof. intros H1 H2. exists x, n, []. split; [done|]. destruct x; auto. Qed.
Lemma safe_get (Q : node -> node -> Prop) n : Q n n -> safe get Q n.
Proof. intros H. by exists (inr n), n, []. Qed.
Lemma safe_modify f (Q : unit -> node -> Prop) n : Q tt (f n) -> safe (modify f) Q n.
Proof. intros H. by exists (inr tt), (f n), []. Qed.
Lemma safe_emit r (Q : unit -> node -> Prop) n : Q tt n -> safe (emit r) Q n.
Proof. intros H. by exists (inr tt), n, [r]. Qed.
Lemma safe_demand {A} (x : option A) (Q : A -> node -> Prop) n : (exists a, x = Some a /\ Q a n) -> safe (demand x) Q n.
Proof. intros (a & -> & H). by exists (inr a), n, []. Qed.
Lemma safe_bind {A B} (m : M A) (f : A -> M B) Q n : safe m (fun a n' => safe (f a) Q n') n -> safe (m ≫= f) Q n.
Proof.
  intros (r & n1 & o1 & E & H). unfold safe, mbind, M_bind. rewrite E. destruct r as [e|a].
  - by eexists _, _, _.
  - destruct H as (r & n2 & o2 & -> & H). by eexists _, _, _.
Qed.
Lemma safe_weaken {A} (m : M A) (Q Q' : A -> node -> Prop) n : safe m Q n -> (forall a n', Q a n' -> Q' a n') -> safe m Q' n.
Proof. intros (r & n' & o & E & H) HQ. exists r, n', o. split; [done|]. destruct r; auto. Qed.

(** *** The parts *)

Lemma the_tip_found room n : good room n -> exists e, the_tip n = Some e.
Proof. intros (_ & R & _). destruct (tip_found _ _ _ R) as (t & e & Ht & Et). exists e. unfold the_tip. by rewrite Ht. Qed.

Lemma spend_height_found room n : good room n -> exists h, spend_height (state n) = Some h.
Proof. intros G. destruct (the_tip_found _ _ G) as [e E]. unfold the_tip in E. unfold spend_height. rewrite E. cbn. eauto. Qed.

Lemma safe_ResolvePayout room args i name (Q : Lock -> node -> Prop) n : good room n -> (forall l, Q l n) -> safe (ResolvePayout args i name) Q n.
Proof.
  intros G HQ. unfold ResolvePayout. apply safe_bind, safe_get. pose proof (good_standing _ _ G) as St.
  destruct (Arg args i name); [by apply safe_lift|]. destruct (payout n); [by apply safe_ret|by apply safe_fail].
Qed.

Lemma safe_optional_bytes room args i name (Q : bytes -> node -> Prop) n : good room n -> (forall l, Q l n) -> safe (optional_bytes args i name) Q n.
Proof. intros G HQ. unfold optional_bytes. destruct (Arg args i name); [apply safe_lift; [by eapply good_standing|done]|by apply safe_ret]. Qed.

Lemma safe_optional_uint room args i name d (Q : Z -> node -> Prop) n : good room n -> (forall l, Q l n) -> safe (optional_uint args i name d) Q n.
Proof. intros G HQ. unfold optional_uint. destruct (Arg args i name); [apply safe_lift; [by eapply good_standing|done]|by apply safe_ret]. Qed.

Lemma safe_FactsFor room now (Q : TipFacts -> node -> Prop) n : good room n -> (forall f, Q f n) -> safe (FactsFor now) Q n.
Proof.
  intros G HQ. destruct (the_tip_found _ _ G) as [e E]. unfold FactsFor. apply safe_bind, safe_get, safe_bind, safe_demand. exists e. split; [done|].
  by apply safe_ret.
Qed.

Lemma BuildBlockTemplate_found (n : node) tip payout now data p : params n = ParamsFor net ->
  exists r, BuildBlockTemplate (index_ (state n)) tip payout now data (params n) p = Some r.
Proof. intros ->. destruct (BuildBlockTemplate_answers net (index_ (state n)) tip payout now data p) as (r & E & _). eauto. Qed.

(** *** Submitting a block *)

(** What comes of a block that is submitted. *)
Definition submitted (block : Block) (room : Z) (r : Error + option string) (n' : node) (o : list Relay) : Prop :=
  match r with
  | inl e => code e = ChainFault /\ standing n' /\ o = []
  | inr (Some why) => good room n' /\ o = []
  | inr None => good room n' /\ Block_Hash block ∈ chain_ (state n') /\
      o = (if relay_block callbacks then [RelayBlock (Block_Hash block)] else [])
  end.

Lemma Contains_In (chain : list bytes) e : Contains chain e = true -> ent_hash e ∈ chain.
Proof.
  unfold Contains, AtHeight. intros H%bool_decide_eq_true. destruct (_ <=? _); [done|]. by apply list_elem_of_lookup_2 in H.
Qed.

(** The call of [chain_changed]. *)
Lemma change_announced (moved : bool) (n : node) : exists n', state n' = state n /\ params n' = params n /\
  (if moved then match chain_changed callbacks with Some f => modify f | None => mret tt end else mret tt) n = Some (inr tt, n', []).
Proof using Hcb.
  destruct moved; [|by exists n]. destruct (chain_changed callbacks) as [f|] eqn:E; [|by exists n]. destruct (tame_changed _ Hcb f n E). by exists (f n).
Qed.

(** The pool loses what the block confirms. *)
Lemma pool_cleared (block : Block) (n : node) : exists n', state n' = state n /\ params n' = params n /\
  (match pool n with Some p => modify (with_pool (Mempool.RemoveForBlock block p).2) | None => mret tt end) n = Some (inr tt, n', []).
Proof.
  destruct (pool n) as [p|]; [|by exists n]. eexists. split; [|split; [|reflexivity]]; unfold with_pool; by destruct (keeper n).
Qed.

(** The chain after a block is accepted and the best chain activated. *)
Lemma chain_after block now room n : good (1 + room) n -> u32 (hdr_target_bits (blk_header block)) -> 0 <= room ->
  exists a s1, AcceptBlock (params n) block now (state n) = Some (a, s1) /\ good room (with_state s1 n) /\
  forall h, a = Found h -> h = Block_Hash block /\ exists r s2, ActivateBestChain (params n) s1 = Some (r, s2) /\
    match r with
    | Stop _ => standing (with_state s2 n)
    | Value _ => good room (with_state s2 n) /\ exists e, Find (index_ s2) h = Some e /\ ent_hash e = h
    end.
Proof using LawfulView0 LawfulStore0 LawfulSink0.
  intros (P & R & S) Hb Hr. pose proof (runs_in_step _ _ _ R) as I. unfold good, standing. cbn [params state with_state]. rewrite P.
  destruct (AcceptBlock_spec _ _ block now (state n) I Hb ltac:(lia)) as (a & s1 & E1 & O1).
  pose proof (run_block _ _ block now (state n) a s1 R Hb ltac:(lia) E1) as R1.
  pose proof (AcceptBlock_Size _ block now (state n) a s1 (is_index _ _ _ I) Hb ltac:(lia) E1) as S1.
  exists a, s1. split; [done|]. split; [split_and!; [done|done|lia]|]. intros h ->. destruct O1 as (I1 & _ & _ & _ & -> & _ & e & Ee & _).
  split; [done|]. destruct (ActivateBestChain_spec _ _ s1 I1) as (m0 & r & s2 & _ & E2 & _ & O2). exists r, s2. split; [done|]. destruct r as [m|f].
  - pose proof (run_activate _ _ s1 m s2 R1 E2) as R2. pose proof (runs_in_step _ _ _ R2) as I2.
    pose proof (activate_Size _ s1 _ s2 (is_index _ _ _ I1) (is_index _ _ _ I2) E2) as S2. split; [split_and!; [done|done|lia]|].
    destruct (ActivateBestChain_moves _ _ _ _ E2) as [_ Mv]. destruct (same_keys_find _ _ _ _ Mv Ee) as [e2 Ee2].
    exists e2. split; [done|]. by apply (inv_hash _ _ _ (is_index _ _ _ I2)).
  - split; [done|]. destruct O2 as [_ [Hf|[Hf _]]].
    + right. by exists s1, f.
    + left. apply (run_faulted _ _ s1 f s2 R1 E2). congruence.
Qed.

Lemma Submit_spec block now room n : good (1 + room) n -> 0 <= room -> u32 (hdr_target_bits (blk_header block)) ->
  exists r n' o, Submit callbacks block now n = Some (r, n', o) /\ submitted block room r n' o.
Proof using Hcb LawfulView0 LawfulStore0 LawfulSink0.
  intros G Hr Hb. destruct (chain_after block now room n G Hb Hr) as (a & s1 & E1 & G1 & Hf).
  unfold Submit, get, demand, fail. unfold mbind at 1, M_bind at 1. unfold mbind at 1, M_bind at 1. rewrite E1. cbn [mbind option_bind].
  unfold mbind at 1, M_bind at 1. cbn [modify]. unfold modify at 1.
  destruct a as [h|e]; [|eexists _, _, _; split; [reflexivity|]; by split].
  destruct (Hf h eq_refl) as (-> & r & s2 & E2 & O2). unfold mbind at 1, M_bind at 1. rewrite E2. cbn [mbind option_bind].
  unfold mbind at 1, M_bind at 1. unfold modify at 1. destruct r as [m|f]; [|eexists _, _, _; split; [reflexivity|]; by split_and!].
  destruct O2 as (G2 & e & Ee & Eh). change (with_state s2 (with_state s1 n)) with (with_state s2 n).
  destruct (change_announced (negb (connected m =? 0) || negb (disconnected m =? 0)) (with_state s2 n)) as (n1 & Es1 & Ep1 & C1).
  unfold mbind at 1, M_bind at 1. rewrite C1. pose proof (good_moved _ _ _ Es1 Ep1 G2) as G3.
  destruct (List.find _ (rejected m)) as [rej|]; [eexists _, _, _; split; [reflexivity|]; by split|].
  cbn [state with_state] in Es1. unfold mbind at 1, M_bind at 1. unfold mbind at 1, M_bind at 1. rewrite Es1, Ee. cbn [mbind option_bind].
  destruct (Contains (chain_ s2) e) eqn:Ec; cbn [negb]; [|eexists _, _, _; split; [reflexivity|]; by split].
  apply Contains_In in Ec. rewrite Eh in Ec. destruct (pool_cleared block n1) as (n2 & Es2 & Ep2 & C2).
  unfold mbind at 1, M_bind at 1. unfold modify in C2. rewrite C2. pose proof (good_moved _ _ _ Es2 Ep2 G3) as G4. unfold mbind at 1, M_bind at 1.
  destruct (relay_block callbacks) eqn:Er; unfold submitted; eexists _, _, _; (split; [reflexivity|]); rewrite Er, Es2, Es1; by split_and!.
Qed.

Lemma safe_Submit block now room (Q : option string -> node -> Prop) n : good (1 + room) n -> 0 <= room -> u32 (hdr_target_bits (blk_header block)) ->
  (forall a n', good room n' -> Q a n') -> safe (Submit callbacks block now) Q n.
Proof using Hcb LawfulView0 LawfulStore0 LawfulSink0.
  intros G Hr Hb HQ. destruct (Submit_spec block now room n G Hr Hb) as (r & n' & o & E & O). exists r, n', o. split; [done|].
  destruct r as [e|[why|]]; cbn in O; [apply O|apply HQ, O|apply HQ, O].
Qed.

Lemma chain_indexed (s : ChainState V D K) x : in_step (ParamsFor net) f0 s -> x ∈ chain_ s -> exists e, Find (index_ s) x = Some e.
Proof.
  intros I Hx. destruct (in_step_tip _ _ s I) as (t & e & pre & _ & _ & _ & L).
  assert (x ∈ rev (chain_ s)) as [i Hi]%list_elem_of_lookup_1 by (apply list_elem_of_In; rewrite <- in_rev; by apply list_elem_of_In).
  destruct (lineage_lookup _ _ _ L i x Hi) as (ex & Ex & _). eauto.
Qed.

Lemma Accept_found tx (base : CoinsCache V) h now (cp : ChainParams) p w p' : Mempool.Accept tx base h now cp p = (Mempool.Accepted w, p') -> exists e, Mempool.Find p' w = Some e.
Proof.
  unfold Mempool.Accept, Mempool.AcceptCoins, Mempool.refused. intros E. repeat (case_match; try done); simplify_eq.
  all: match goal with H : bool_decide _ = true |- _ => apply bool_decide_eq_true in H as [x Hx] end; exists (Mempool.entry x); unfold Mempool.Find; by rewrite Hx.
Qed.

(** *** The methods *)

Ltac safe_step G :=
  cbv beta;
  lazymatch goal with
  | |- safe (_ ≫= _) _ _ => apply safe_bind
  | |- safe get _ _ => apply safe_get
  | |- safe (mret _) _ _ => apply safe_ret; exact G
  | |- safe (fail _ _) _ _ => apply safe_fail; exact (good_standing _ _ G)
  | |- safe (lift _) _ _ => apply safe_lift; [exact (good_standing _ _ G)|intros ? ?]
  | |- safe (FactsFor _) _ _ => apply (safe_FactsFor _ _ _ _ G); intros ?
  | |- safe (ResolvePayout _ _ _) _ _ => apply (safe_ResolvePayout _ _ _ _ _ _ G); intros ?
  | |- safe (optional_bytes _ _ _) _ _ => apply (safe_optional_bytes _ _ _ _ _ _ G); intros ?
  | |- safe (optional_uint _ _ _ _) _ _ => apply (safe_optional_uint _ _ _ _ _ _ _ G); intros ?
  | |- safe (emit _) _ _ => apply safe_emit
  | |- safe (if ?b then _ else _) _ _ => destruct b eqn:?
  | |- safe (match ?x with _ => _ end) _ _ => destruct x eqn:?
  end.

Lemma hash_of bs : (zlen bs =? 32) = true -> Hex.Hash256_FromBytes bs = Some bs.
Proof. unfold Hex.Hash256_FromBytes. by intros ->. Qed.

Lemma txid_of_bytes given bs : txid_of given = inr bs -> Hex.Hash256_FromBytes bs = Some bs.
Proof.
  unfold txid_of. destruct (AsString given); [done|]. destruct (Hex.FromHex _) as [x|]; [|done]. destruct (zlen x =? 32) eqn:E; [|done].
  intros [= <-]. by apply hash_of.
Qed.

Abbreviation ends room := (fun (_ : json) (n' : node) => good room n').

Lemma safe_GetBlockchainInfo args now room n : good room n -> safe (GetBlockchainInfo args now) (ends room) n.
Proof.
  intros G. unfold GetBlockchainInfo. do 4 safe_step G. apply safe_bind, safe_demand.
  assert (exists h, Issuance.IssuanceEndHeight (issuance (params n)) = Some h) as [h E] by (destruct G as [-> _]; destruct net; by eexists; vm_compute).
  exists h. split; [done|]. safe_step G.
Qed.

Lemma safe_GetBlockTemplate args now room n : good room n -> safe (GetBlockTemplate args now) (ends room) n.
Proof.
  intros G. unfold GetBlockTemplate. do 8 safe_step G. apply safe_bind, safe_demand.
  destruct (BuildBlockTemplate_found n (tip_entry f) l now l0 (pool n)) as [r E]; [apply G|]. exists r. split; [done|]. repeat safe_step G.
Qed.

Lemma limits_ok : BlockLimits_ok (block_limits (ParamsFor net)).
Proof. destruct net; vm_compute; intuition congruence. Qed.

Lemma block_bits bs (n : node) block : params n = ParamsFor net -> zlen bs < 2 ^ 64 -> Parse (Block_Deserialize (block_limits (params n))) bs = Some block ->
  u32 (hdr_target_bits (blk_header block)).
Proof. intros -> Hb E. apply (codec_parse _ _ _ (codec_Block _ limits_ok)) in E as [(Hh & _) _]; [apply Hh|done]. Qed.

(** No string of the arguments is longer than memory. *)
Definition sized (args : json) : Prop := forall i name s, Arg args i name = Some (JString s) -> zlen s < 2 ^ 64.

Lemma from_hex_shorter s bs : Hex.FromHex s = Some bs -> zlen bs <= zlen s.
Proof.
  unfold Hex.FromHex. destruct (negb _); [done|]. revert bs. assert (forall k s, (length s <= k)%nat -> forall bs, Hex.from_hex_loop s = Some bs -> zlen bs <= zlen s) as H.
  { induction k as [|k IH]; intros [|h [|l t]] Hk bs; try (cbn in Hk; lia); try (cbn; intros [= <-]; unfold zlen; cbn; lia). cbn [Hex.from_hex_loop]. destruct (_ || _); [done|].
    destruct (Hex.from_hex_loop t) as [out|] eqn:E; [|done]. intros [= <-]. apply IH in E; [|cbn in Hk; lia]. rewrite !zlen_cons in *. lia. }
  by apply (H (length s)).
Qed.

Lemma AsBytes_sized args i name given bs : sized args -> Arg args i name = Some given -> AsBytes given = inr bs -> zlen bs < 2 ^ 64.
Proof.
  intros Hs Ha. unfold AsBytes, AsString. destruct given; try done. apply Hs in Ha. destruct (Hex.FromHex s) as [x|] eqn:E; [|done].
  intros [= <-]. apply from_hex_shorter in E. lia.
Qed.

Lemma safe_SubmitBlock args now room n : sized args -> good (1 + room) n -> 0 <= room -> safe (SubmitBlock callbacks args now) (ends room) n.
Proof using Hcb LawfulView0 LawfulStore0 LawfulSink0.
  intros Ha G Hr. pose proof (good_less _ room _ G ltac:(lia)) as G'. unfold SubmitBlock. destruct (Arg args 0 "block") as [given|] eqn:Eg; [|safe_step G'].
  apply safe_bind, safe_lift; [by eapply good_standing|]. intros bs Eb. pose proof (AsBytes_sized _ _ _ _ _ Ha Eg Eb) as Hb.
  safe_step G. safe_step G. cbv beta. destruct (Parse _ bs) as [block|] eqn:Ep; [|safe_step G'].
  apply safe_bind. apply (safe_Submit _ now room); [done|done|by eapply block_bits; [apply G|..]|]. intros a n' G1. safe_step G1.
Qed.

Lemma safe_generate_loop payout attempts now blocks : forall hashes room n, good (Z.of_nat blocks + room) n -> 0 <= room ->
  safe (generate_loop callbacks blocks payout attempts now hashes) (ends room) n.
Proof using Hcb LawfulView0 LawfulStore0 LawfulSink0.
  induction blocks as [|blocks IH]; intros hashes room n G Hr; cbn [generate_loop]; [safe_step G|].
  do 3 safe_step G. destruct (the_tip_found _ _ G) as [tip Et]. apply safe_demand. exists tip. split; [done|].
  apply safe_bind, safe_demand. destruct (BuildBlockTemplate_found n tip payout now [] (pool n)) as [r E]; [apply G|]. exists r. split; [done|].
  destruct r as [err|tm]; [safe_step G|]. rewrite (proj1 G) in E. apply BuildBlockTemplate_inr in E as [selected A].
  pose proof (solve_loop_bits (Z.to_nat attempts) (blk_header (tmpl_block tm)) (tmpl_target tm)) as Hbits. unfold SolveHeader.
  destruct (solve_loop _ _ _) as [found header]. cbn [snd] in Hbits.
  destruct found; cbn [negb]; [|safe_step G]. apply safe_bind. apply (safe_Submit _ now (Z.of_nat blocks + room)).
  - eapply good_less; [exact G|lia].
  - lia.
  - cbn [blk_header]. rewrite Hbits, (as_bits _ _ _ _ _ _ _ _ _ A). by destruct (NextTargetBitsAt_usable net tip (hdr_timestamp (blk_header (tmpl_block tm)))) as (? & ? & ? & _).
  - intros a n' G'. destruct a as [why|]; [safe_step G'|]. by apply IH.
Qed.

Lemma safe_Generate args now n room : good (MAX_GENERATE_BLOCKS + room) n -> 0 <= room -> safe (Generate callbacks args now) (ends room) n.
Proof using Hcb LawfulView0 LawfulStore0 LawfulSink0.
  intros G Hr. unfold Generate. assert (good room n) as G' by (eapply good_less; [exact G|unfold MAX_GENERATE_BLOCKS; lia]).
  do 2 safe_step G. safe_step G; [safe_step G'|]. do 2 safe_step G. safe_step G; [safe_step G'|]. do 4 safe_step G. safe_step G; [safe_step G'|].
  apply safe_generate_loop; [|done]. eapply good_less; [exact G|]. apply orb_false_iff in Heqb0 as [H1%Z.eqb_neq H2]. rewrite Z.gtb_ltb, Z.ltb_ge in H2.
  unfold MAX_GENERATE_BLOCKS in *. lia.
Qed.

Lemma good_with_pool room p n : good room n -> good room (with_pool p n).
Proof. unfold with_pool. destruct (keeper n); [|done]. by apply good_moved. Qed.

Lemma safe_SendRawTransaction args now room n : good room n -> safe (SendRawTransaction callbacks args now) (ends room) n.
Proof.
  intros G. unfold SendRawTransaction. do 2 safe_step G. safe_step G; [|safe_step G]. safe_step G; [|safe_step G]. do 2 safe_step G.
  cbv beta. destruct (Parse _ _) as [tx|]; [|safe_step G]. apply safe_bind, safe_demand.
  destruct (spend_height_found _ _ G) as [h Eh]. exists h. split; [done|].
  destruct (Mempool.Accept _ _ _ _ _ _) as [offer p1] eqn:Ea. apply safe_bind, safe_modify. pose proof (good_with_pool room p1 n G) as G1.
  destruct offer as [w|r]; [|safe_step G1]. destruct (Accept_found _ _ _ _ _ _ _ _ Ea) as [e Ee]. apply safe_bind, safe_demand. exists e. split; [done|].
  safe_step G1. safe_step G1; [safe_step G1; safe_step G1|]. apply safe_ret. safe_step G1.
Qed.

Lemma safe_GetNewAddress args now room n : good room n -> safe (GetNewAddress args now) (ends room) n.
Proof.
  intros G. unfold GetNewAddress. do 2 safe_step G. destruct (wallet n) as [w|]; [|safe_step G]. destruct (Wallet.GetNewAddress _ w) as [info w1].
  apply safe_bind, safe_modify. assert (good room (with_wallet w1 n)) as G1 by (by apply (good_moved _ n)). safe_step G1.
Qed.

Lemma safe_SendToAddress args now room n : good room n -> safe (SendToAddress callbacks args now) (ends room) n.
Proof using Hcb.
  intros G. unfold SendToAddress. do 2 safe_step G. destruct (wallet n) as [w|]; [|safe_step G]. destruct (Arg args 0 "address") as [addr|]; [|safe_step G].
  destruct (Arg args 1 "amount") as [amount|]; [|safe_step G]. do 3 safe_step G. safe_step G. cbv beta. destruct (Wallet.Send _ _ _ _) as [[sent w1]|]; [|safe_step G]. apply safe_bind, safe_modify.
  assert (good room (with_wallet w1 n)) as G1 by (by apply (good_moved _ n)). safe_step G1.
  destruct (submit_transaction callbacks) as [f|] eqn:Es; [|apply safe_ret; safe_step G1]. destruct (Hex.FromHex _) as [raw|]; [|safe_step G1].
  destruct (Parse _ _) as [tx|]; [|safe_step G1]. do 2 safe_step G1. cbv beta. destruct (tame_submit _ Hcb f tx (with_wallet w1 n) Es) as [Et Ep].
  destruct (f tx (with_wallet w1 n)) as [ok n2]. cbn [snd] in Et, Ep. assert (good room n2) as G2 by (by apply (good_moved _ (with_wallet w1 n))).
  apply safe_bind, safe_modify. safe_step G2; [safe_step G2|]. safe_step G2; [safe_step G2; safe_step G2|]. apply safe_ret. safe_step G2.
Qed.

Lemma safe_GetBlock args now room n : good room n -> safe (GetBlock args now) (ends room) n.
Proof.
  intros G. unfold GetBlock. destruct (Arg args 0 _) as [given|]; [|safe_step G]. do 2 safe_step G. cbv beta. destruct (zlen a =? 32) eqn:El; cbn [negb]; [|safe_step G].
  apply safe_bind, safe_demand. exists a. split; [by apply hash_of|]. do 3 safe_step G. destruct (the_tip_found _ _ G) as [tip Et]. apply safe_demand. exists tip. split; [done|].
  destruct (List.find _ _) as [h|] eqn:Ef; [|safe_step G]. apply find_some in Ef as [_ Ef%bool_decide_eq_true].
  destruct (chain_indexed (state n) a) as [e Ee]; [by apply runs_in_step, G| |].
  { unfold AtHeight in Ef. destruct (_ <=? _); [done|]. by apply list_elem_of_lookup_2 in Ef. }
  apply safe_bind, safe_demand. exists e. split; [done|]. safe_step G.
Qed.

Lemma safe_GetTransaction args now room n : good room n -> safe (GetTransaction args now) (ends room) n.
Proof.
  intros G. unfold GetTransaction. do 2 safe_step G. destruct (wallet n) as [w|]; [|safe_step G]. destruct (Arg args 0 _) as [given|]; [|safe_step G].
  do 2 safe_step G. apply safe_bind, safe_demand. exists a. split; [by eapply txid_of_bytes|]. safe_step G; [|safe_step G].
  apply safe_bind, safe_demand. destruct (the_tip_found _ _ G) as [tip Et]. exists tip. split; [done|]. safe_step G.
Qed.

Lemma safe_GetTxOut args now room n : good room n -> safe (GetTxOut args now) (ends room) n.
Proof.
  intros G. unfold GetTxOut. destruct (Arg args 0 "txid") as [txid|]; [|safe_step G]. destruct (Arg args 1 "vout") as [vout|]; [|safe_step G].
  do 4 safe_step G. apply safe_bind, safe_demand. exists a. split; [by eapply txid_of_bytes|]. do 2 safe_step G. safe_step G.
Qed.

Lemma safe_Dispatch bound method args now n : sized args -> good MAX_GENERATE_BLOCKS n ->
  safe (Dispatch callbacks bound method args now) (ends 0) n.
Proof using Hcb LawfulView0 LawfulStore0 LawfulSink0.
  intros Ha G. pose proof (good_less _ 0 _ G ltac:(unfold MAX_GENERATE_BLOCKS; lia)) as G0. unfold Dispatch. destruct bound; cbn [negb]; [|safe_step G0].
  destruct (List.find _ (METHODS _)) as [[name handler]|] eqn:Ef; [|safe_step G0]. apply find_some in Ef as [Hin _].
  unfold METHODS, METHOD_NAMES in Hin. cbn [zip zip_with In] in Hin.
  repeat destruct Hin as [Hin|Hin]; try done; injection Hin as _ <-.
  - apply safe_Generate; [|done]. by rewrite Z.add_0_r.
  - by apply safe_GetBlockchainInfo.
  - unfold GetBlockHash. repeat safe_step G0.
  - by apply safe_GetBlockTemplate.
  - unfold GetMempoolInfo. repeat safe_step G0.
  - unfold GetMiningInfo. repeat safe_step G0.
  - unfold GetRawMempool. repeat safe_step G0.
  - unfold GetBalance. repeat safe_step G0.
  - by apply safe_GetBlock.
  - by apply safe_GetNewAddress.
  - by apply safe_GetTransaction.
  - by apply safe_GetTxOut.
  - unfold Help. safe_step G0.
  - unfold ListTransactions. repeat safe_step G0.
  - by apply safe_SendToAddress.
  - by apply safe_SendRawTransaction.
  - apply safe_SubmitBlock; [done| |done]. eapply good_less; [exact G|unfold MAX_GENERATE_BLOCKS; lia].
Qed.
End keeping.

(** ** Mining over the wire *)

Lemma hex_read bs : Hex.FromHex (Hex.ToHex bs) = Some bs.
Proof. unfold Hex.FromHex. rewrite Hex.zlen_ToHex, Z.mul_comm, Z.mod_mul by lia. apply Hex.from_hex_loop_ToHex. Qed.

Lemma ToHex_app a b : Hex.ToHex (a ++ b) = Hex.ToHex a ++ Hex.ToHex b.
Proof. induction a as [|x a IH]; [done|]. cbn [app Hex.ToHex]. by rewrite IH. Qed.

Lemma length_ToHex bs : length (Hex.ToHex bs) = (2 * length bs)%nat.
Proof. pose proof (Hex.zlen_ToHex bs) as E. unfold zlen in E. lia. Qed.

(** What a miner does with the text of a template: write its nonce, little-endian, over the
    last eight bytes of the header. *)
Definition patch_nonce (text : bytes) (nonce : Z) : bytes := take 168 text ++ Hex.ToHex (encode WriteU64 nonce) ++ drop 184 text.

Definition with_nonce (block : Block) (nonce : Z) : Block :=
  mkBlock (Genesis.with_nonce (blk_header block) nonce) (blk_transactions block).

(** The encoding of a block around its nonce. *)
Lemma block_layout (block : Block) : BlockHeader_ok (blk_header block) -> exists before after, length before = 84%nat /\
  forall nonce, encode Block_Serialize (with_nonce block nonce) = before ++ encode WriteU64 nonce ++ after.
Proof.
  intros (_ & _ & Hp & Hm & _). set (h := blk_header block) in *.
  exists (encode WriteU32 (hdr_version h) ++ encode WriteU32 (hdr_height h) ++ encode WriteHash256 (hdr_prev_block h) ++
    encode WriteHash256 (hdr_merkle_root h) ++ encode WriteI64 (hdr_timestamp h) ++ encode WriteU32 (hdr_target_bits h)),
    (encode (write_vector Transaction_Serialize) (blk_transactions block)). split.
  - assert (zlen (hdr_prev_block h) = 32) as E1 by exact Hp. assert (zlen (hdr_merkle_root h) = 32) as E2 by exact Hm.
    apply Nat2Z.inj. change (Z.of_nat (length ?l)) with (zlen l). autorewrite with amarian. rewrite E1, E2. reflexivity.
  - intros nonce. rewrite flat_Block, flat_BlockHeader. cbn [blk_header blk_transactions with_nonce]. unfold Genesis.with_nonce. cbn [hdr_version hdr_height hdr_prev_block hdr_merkle_root hdr_timestamp hdr_target_bits hdr_nonce].
    by rewrite !app_nil_r, <- !app_assoc.
Qed.

Lemma patched block nonce : BlockHeader_ok (blk_header block) ->
  patch_nonce (Hex.ToHex (encode Block_Serialize block)) nonce = Hex.ToHex (encode Block_Serialize (with_nonce block nonce)).
Proof.
  intros Hh. destruct (block_layout block Hh) as (b & a & Hb & E). assert (with_nonce block (hdr_nonce (blk_header block)) = block) as Ew by (by destruct block as [[] txs]).
  rewrite <- Ew at 1. rewrite !E, !ToHex_app. unfold patch_nonce.
  assert (length (Hex.ToHex b) = 168%nat) as H1 by (rewrite length_ToHex; lia).
  assert (length (Hex.ToHex (encode WriteU64 (hdr_nonce (blk_header block)))) = 16%nat) as H2 by (rewrite length_ToHex; reflexivity).
  rewrite take_app_length' by done. f_equal. f_equal. rewrite app_assoc. apply drop_app_length'. rewrite length_app, H1, H2. reflexivity.
Qed.

(** The call once its argument is read. *)
Lemma SubmitBlock_hex `{Mempool.HashOrder} `{Sha256Impl} `{Signature.SignatureBackends} {V D K} `{CoinsView V} `{BlockStore D}
    `{ChainSink K V} (callbacks : Callbacks V D K) bs now (n : Node V D K) :
  SubmitBlock callbacks (JArray [JString (Hex.ToHex bs)]) now n =
  match Parse (Block_Deserialize (block_limits (params n))) bs with
  | None => fail MalformedBlock (Describe_rpc MalformedBlock) n
  | Some block => (outcome ← Submit callbacks block now; mret (match outcome with None => JNull | Some why => text why end)) n
  end.
Proof.
  unfold SubmitBlock. change (Arg (JArray [JString (Hex.ToHex bs)]) 0 "block") with (Some (JString (Hex.ToHex bs))). cbv iota beta.
  unfold mbind at 1, M_bind at 1, lift at 1. unfold AsBytes, AsString. rewrite hex_read. unfold mbind at 1, M_bind at 1, get at 1.
  destruct (Parse _ bs) as [block|]; [|done]. cbn [app]. by destruct (_ ≫= _) as [[[? ?] ?]|].
Qed.

(** The template a call answers with. *)
Lemma GetBlockTemplate_value `{Mempool.HashOrder} `{Sha256Impl} {V D K} (args : json) (now : Z) (n n' : Node V D K) (v : json) (o : list Relay) :
  GetBlockTemplate args now n = Some (inr v, n', o) ->
  exists lock data tip facts t, the_tip n = Some tip /\
    BuildBlockTemplate (index_ (state n)) tip lock now data (params n) (pool n) = Some (inr t) /\ v = template_json n facts t now.
Proof.
  unfold GetBlockTemplate. intros E. unfold mbind at 1, M_bind at 1 in E. destruct (ResolvePayout _ _ _ n) as [[[[e|lock] n1] o1]|] eqn:E1; [done| |done].
  assert (quiet (ResolvePayout (V := V) (D := D) (K := K) args 0 "payout")) as Q1 by (unfold ResolvePayout; repeat quiet_step). apply Q1 in E1 as [-> ->].
  unfold mbind at 1, M_bind at 1 in E. destruct (optional_bytes _ _ _ n) as [[[[e|data] n2] o2]|] eqn:E2; [done| |done].
  assert (quiet (optional_bytes (V := V) (D := D) (K := K) args 1 "coinbase_data")) as Q2 by (unfold optional_bytes; repeat quiet_step). apply Q2 in E2 as [-> ->].
  unfold mbind at 1, M_bind at 1, get at 1 in E. unfold mbind at 1, M_bind at 1 in E. unfold FactsFor at 1, mbind at 1, M_bind at 1, get at 1 in E.
  unfold mbind at 1, M_bind at 1, demand at 1 in E. destruct (the_tip n) as [tip|] eqn:Et; [|done]. cbn [mbind option_bind] in E. unfold mret at 1, M_ret at 1 in E.
  unfold mbind at 1, M_bind at 1, demand at 1 in E. cbn [tip_entry] in E.
  destruct (BuildBlockTemplate _ _ _ _ _ _ _) as [[err|t]|] eqn:Eb; cbn [mbind option_bind] in E; [done| |done].
  injection E as <- _ _. exists lock, data, tip. eexists _, t. split; [done|]. split; [done|]. reflexivity.
Qed.

(** Submitting the text of a block with a nonce. *)
Lemma SubmitBlock_solved `{Mempool.HashOrder} `{Sha256Impl} `{Signature.SignatureBackends} {V D K} `{CoinsView V} `{BlockStore D}
    `{ChainSink K V} (callbacks : Callbacks V D K) limits block nonce later (m : Node V D K) :
  block_limits (params m) = limits -> BlockLimits_ok limits -> Block_ok limits block -> u64 nonce -> zlen (encode Block_Serialize (with_nonce block nonce)) < 2 ^ 64 ->
  SubmitBlock callbacks (JArray [JString (Hex.ToHex (encode Block_Serialize (with_nonce block nonce)))]) later m =
  (outcome ← Submit callbacks (with_nonce block nonce) later; mret (match outcome with None => JNull | Some why => text why end)) m.
Proof.
  intros El Hl Hb Hn Hs. rewrite SubmitBlock_hex. assert (Block_ok limits (with_nonce block nonce)) as Hb'.
  { destruct Hb as ((? & ? & ? & ? & ? & ? & _) & Htx & Hc). unfold with_nonce, Genesis.with_nonce. by split_and!. }
  rewrite El, (proj2 (codec_parse _ _ _ (codec_Block _ Hl) _ (with_nonce block nonce) Hs)) by done.
  unfold mbind, M_bind. destruct (Submit _ _ _ m) as [[[[?|?] ?] ?]|]; [done|cbn; done|done].
Qed.

Section lookup.
Context `{SH : Sha256Impl} `{SB : Signature.SignatureBackends} {V D K : Type}.
Context `{CV : CoinsView V} `{!LawfulView V} `{BS : BlockStore D} `{!LawfulStore D} `{CS : ChainSink K V} `{!LawfulSink K V}.
Context (net : Network) (f0 : Ledger).

(** Searching height by height finds the blocks of the chain. *)
Lemma height_found (n : Node V D K) room tip hash : good net f0 room n -> the_tip n = Some tip ->
  (exists h, List.find (fun h => bool_decide (AtHeight (chain_ (state n)) h = Some hash)) (heights (ent_height tip)) = Some h) <-> hash ∈ chain_ (state n).
Proof.
  intros G Et. pose proof (runs_in_step _ _ _ (proj1 (proj2 G))) as I. split.
  - intros (h & [_ Ef%bool_decide_eq_true]%find_some). unfold AtHeight in Ef. destruct (_ <=? _); [done|]. by apply list_elem_of_lookup_2 in Ef.
  - intros Hin. destruct (chain_indexed net f0 _ _ I Hin) as [e Ee]. pose proof (chain_contains _ _ _ _ _ I Hin Ee) as Hc%bool_decide_eq_true.
    rewrite (inv_hash _ _ _ (is_index _ _ _ I) Ee) in Hc.
    destruct (List.find _ _) as [h|] eqn:Ef; [by exists h|]. exfalso. pose proof (find_none _ _ Ef (ent_height e)) as Hn.
    cbn beta in Hn. rewrite bool_decide_true in Hn by done. assert (true = false) as Hf; [|done]. apply Hn.
    destruct (in_step_tip _ _ _ I) as (t & te & pre & Ht & Ete & _ & L). unfold the_tip in Et. rewrite Ht in Et. cbn in Et. rewrite Ete in Et. injection Et as <-.
    pose proof (lineage_length _ (is_index _ _ _ I) _ _ _ Ete L) as Hl. unfold zlen in Hl. rewrite length_rev in Hl.
    pose proof (inv_height _ _ _ (is_index _ _ _ I) Ee). unfold AtHeight in Hc. destruct (Z.leb_spec (zlen (chain_ (state n))) (ent_height e)); [done|].
    unfold zlen in *. apply in_map_iff. exists (Z.to_nat (ent_height e)). split; [lia|]. apply in_seq. lia.
Qed.
End lookup.

(** An output index past the field's width is another output's. *)
Lemma vout_truncated {V D K} `{CoinsView V} (n : Node V D K) txid vout coin now : zlen txid = 32 -> u32 vout ->
  GetCoin (coins_ (state n)) (mkOutPoint txid vout) = Some coin ->
  GetTxOut (JArray [hex txid; JUnsigned (vout + 2 ^ 32)]) now n = Some (inr (coin_json txid (vout + 2 ^ 32) coin), n, []).
Proof.
  intros Hl Hv E. unfold GetTxOut. change (Arg _ 0 _) with (Some (JString (Hex.ToHex txid))). change (Arg _ 1 _) with (Some (JUnsigned (vout + 2 ^ 32))). cbv iota beta.
  unfold mbind, M_bind, lift, txid_of, AsString, AsUint, demand, get, mret, M_ret. rewrite hex_read.
  rewrite (proj2 (Z.eqb_eq _ _) Hl). unfold Hex.Hash256_FromBytes. rewrite (proj2 (Z.eqb_eq _ _) Hl). cbn [negb mbind option_bind].
  assert (wrapu 32 (vout + 2 ^ 32) = vout) as ->; [|by rewrite E]. unfold wrapu, u32 in *. rewrite Z.add_mod, Z.mod_same, Z.add_0_r, Z.mod_mod, Z.mod_small; lia.
Qed.

(** ** Samples *)

Definition sample_node : Node EmptyCoinsView MemoryBlockStore NullSink :=
  mkNode short_state (Some (mkKeeper Mempool.new_Mempool false 0)) REGTEST_PARAMS None (Some (mkLock 1 (repeat Byte.x07 32))).

Lemma sample_node_good : good (SH := toy_Sha256Impl) (SB := picky_backends) Regtest (fun _ => None) MAX_GENERATE_BLOCKS sample_node.
Proof. split_and!; [done|exact short_runs|vm_compute; done]. Qed.

Lemma sized_strings s : zlen s < 2 ^ 64 -> sized (JArray [JString s]).
Proof. intros H [|i] name t; cbn; [|done]. by intros [= <-]. Qed.

(** ** Claims *)

(** C9: No request harms the node.  Whatever the method and whatever the arguments, a call
    on a node whose chain is one a node reaches ends, in a value or in an error, and leaves
    such a chain again; only a storage sink that refuses a tip ends otherwise, and then the
    call is an error. *)
Theorem rpc_keeps_node `{Mempool.HashOrder} `{Sha256Impl} `{Signature.SignatureBackends} {V D K} `{CoinsView V} `{!LawfulView V}
    `{BlockStore D} `{!LawfulStore D} `{ChainSink K V} `{!LawfulSink K V} `{WalletDb.Json} `{CoinSelection.StdSort} `{Signing.SigningBackends}
    (clock : Z) (peers : bool) (net : Network) (f0 : Ledger) (bound : bool) (method : bytes) (args : json) (now : Z) (n : Node V D K)
    (Ha : sized args) (G : good net f0 MAX_GENERATE_BLOCKS n) :
  exists r n' o, Dispatch (daemon_callbacks clock peers) bound method args now n = Some (r, n', o) /\
    match r with inl _ => standing net f0 n' | inr _ => good net f0 0 n' end.
Proof.
  destruct (safe_Dispatch (daemon_callbacks clock peers) (daemon_tame clock peers) net f0 bound method args now n Ha G) as (r & n' & o & E & O).
  exists r, n', o. split; [exact E|exact O].
Qed.

(** The methods that may change something. *)
Definition CHANGING : list string := ["generate"; "submitblock"; "sendrawtransaction"; "sendtoaddress"; "getnewaddress"]%string.

(** Asking changes nothing.  A call is the handler the table names or an error; every
    handler but five leaves the chain, the pool and the wallet as they are and announces
    nothing, whatever it is asked and whether it answers or not, and so does every error
    made before a handler is called. *)
Theorem reads_change_nothing `{Mempool.HashOrder} `{Sha256Impl} `{Signature.SignatureBackends} {V D K} `{CoinsView V} `{BlockStore D}
    `{ChainSink K V} `{WalletDb.Json} `{CoinSelection.StdSort} `{Signing.SigningBackends}
    (callbacks : Callbacks V D K) (args : json) (now : Z) :
  Forall (fun m => m.1 ∈ CHANGING \/ quiet (m.2 args now)) (METHODS callbacks) /\
  forall bound method, quiet (Dispatch callbacks bound method args now) \/
    exists m, m ∈ METHODS callbacks /\ str m.1 = method /\ Dispatch callbacks bound method args now = m.2 args now.
Proof.
  split.
  - unfold METHODS, METHOD_NAMES. cbn [zip zip_with]. repeat (apply Forall_cons_2; [cbn [fst snd]|]); try apply Forall_nil_2.
    all: try (left; unfold CHANGING; set_solver); right.
    all: unfold GetBlockchainInfo, GetBlockHash, GetBlockTemplate, GetMempoolInfo, GetMiningInfo, GetRawMempool, GetBalance, GetBlock, GetTransaction, GetTxOut, Help,
      ListTransactions, FactsFor, ResolvePayout, optional_bytes; repeat quiet_step.
  - intros bound method. unfold Dispatch. destruct bound; cbn [negb]; [|left; apply quiet_fail].
    destruct (List.find _ (METHODS callbacks)) as [[name handler]|] eqn:E; [|left; apply quiet_fail].
    apply find_some in E as [Hin%list_elem_of_In Hn%bool_decide_eq_true]. right. by exists (name, handler).
Qed.

(** C18: A miner is told the truth.  Submitting the hex of a block ends.  The answer is null
    only if the block is on the active chain then, and only then is it announced, once;
    otherwise the answer is a reason, or the error that the node's storage failed, and
    nothing is announced. *)
Theorem submit_verdict `{Mempool.HashOrder} `{Sha256Impl} `{Signature.SignatureBackends} {V D K} `{CoinsView V} `{!LawfulView V}
    `{BlockStore D} `{!LawfulStore D} `{ChainSink K V} `{!LawfulSink K V} `{WalletDb.Json} `{CoinSelection.StdSort} `{Signing.SigningBackends}
    (clock : Z) (peers : bool) (net : Network) (f0 : Ledger) (block : Block) (now : Z) (n : Node V D K)
    (G : good net f0 1 n) (Hb : Block_ok (block_limits (ParamsFor net)) block) (Hs : zlen (encode Block_Serialize block) < 2 ^ 64) :
  exists r n' o, SubmitBlock (daemon_callbacks clock peers) (JArray [hex (encode Block_Serialize block)]) now n = Some (r, n', o) /\
    match r with
    | inl e => code e = ChainFault /\ standing net f0 n' /\ o = []
    | inr JNull => good net f0 0 n' /\ Block_Hash block ∈ chain_ (state n') /\ o = (if peers then [RelayBlock (Block_Hash block)] else [])
    | inr v => good net f0 0 n' /\ o = [] /\ exists why, v = text why
    end.
Proof.
  destruct (Submit_spec (daemon_callbacks clock peers) (daemon_tame clock peers) net f0 block now 0 n G ltac:(lia)) as (r & n' & o & E & O); [apply Hb|].
  assert (Parse (Block_Deserialize (block_limits (params n))) (encode Block_Serialize block) = Some block) as P.
  { rewrite (proj1 G). by apply (codec_parse _ _ _ (codec_Block _ (limits_ok net))). }
  unfold hex. rewrite SubmitBlock_hex, P. unfold mbind at 1, M_bind at 1. rewrite E.
  destruct r as [e|[why|]]; cbn [submitted] in O; eexists _, _, _; (split; [reflexivity|]); cbn [app].
  - exact O.
  - rewrite app_nil_r. destruct O as [G' ->]. cbn [text]. by eauto.
  - rewrite app_nil_r. exact O.
Qed.

(** Mining over the wire loses nothing.  The template that is handed out carries the hex
    of a block; writing a nonce over its sixteen digits and submitting the text is
    submitting that very block with that nonce, if the block is one the node can read. *)
Theorem template_mined `{Mempool.HashOrder} `{Sha256Impl} `{Signature.SignatureBackends} {V D K} `{CoinsView V} `{BlockStore D}
    `{ChainSink K V} (callbacks : Callbacks V D K) (args : json) (now : Z) (n n' : Node V D K) (v : json) (o : list Relay)
    (E : GetBlockTemplate args now n = Some (inr v, n', o)) :
  exists lock data tip t, let block := tmpl_block t in
    the_tip n = Some tip /\ BuildBlockTemplate (index_ (state n)) tip lock now data (params n) (pool n) = Some (inr t) /\
    member "block" v = Some (hex (encode Block_Serialize block)) /\
    forall limits nonce later (m : Node V D K), block_limits (params m) = limits -> BlockLimits_ok limits ->
      Block_ok limits block -> u64 nonce -> zlen (encode Block_Serialize (with_nonce block nonce)) < 2 ^ 64 ->
      SubmitBlock callbacks (JArray [JString (patch_nonce (Hex.ToHex (encode Block_Serialize block)) nonce)]) later m =
      (outcome ← Submit callbacks (with_nonce block nonce) later; mret (match outcome with None => JNull | Some why => text why end)) m.
Proof.
  apply GetBlockTemplate_value in E as (lock & data & tip & facts & t & Et & Eb & ->). exists lock, data, tip, t. split; [done|]. split; [done|]. split; [reflexivity|].
  intros limits nonce later m El Hl Hb Hn Hs. rewrite patched by apply Hb. by apply (SubmitBlock_solved _ limits).
Qed.

(** A displayed hash is not one that is found.  The node shows a block's hash with its
    bytes reversed and reads one as it stands: asking [getblock] for the text that
    [getblockhash] gave for a block of the chain succeeds exactly if the reversed hash is
    that of a block of the chain too. *)
Theorem displayed_hash_lookup `{Sha256Impl} `{Signature.SignatureBackends} {V D K} `{CoinsView V} `{!LawfulView V}
    `{BlockStore D} `{!LawfulStore D} `{ChainSink K V} `{!LawfulSink K V} (net : Network) (f0 : Ledger) (n : Node V D K) (height now : Z) (h : bytes)
    (G : good net f0 0 n) (Hh : AtHeight (chain_ (state n)) height = Some h) (Hr : 0 <= height < 2 ^ 32) (Hl : zlen h = 32) :
  exists shown r, GetBlockHash (JArray [JUnsigned height]) now n = Some (inr shown, n, []) /\
    GetBlock (JArray [shown]) now n = Some (r, n, []) /\ ((exists v, r = inr v) <-> rev h ∈ chain_ (state n)).
Proof.
  assert (GetBlockHash (JArray [JUnsigned height]) now n = Some (inr (hash_hex h), n, [])) as E.
  { unfold GetBlockHash. change (Arg _ 0 _) with (Some (JUnsigned height)). cbv iota beta. unfold mbind, M_bind, lift, AsUint, get. rewrite (proj2 (Z.leb_le height (2 ^ 32 - 1))) by lia. by rewrite Hh. }
  destruct (the_tip_found net f0 _ _ G) as [tip Et]. pose proof (height_found net f0 n 0 tip (rev h) G Et) as Hf.
  exists (hash_hex h). destruct (safe_GetBlock net f0 (JArray [hash_hex h]) now 0 n G) as (r & n' & o & E' & _).
  assert (quiet (GetBlock (V := V) (D := D) (K := K) (JArray [hash_hex h]) now)) as Q by (unfold GetBlock; repeat quiet_step).
  destruct (Q _ _ _ _ E') as [-> ->]. exists r. split; [done|]. split; [done|]. rewrite <- Hf. clear Hf Q E G.
  unfold GetBlock in E'. change (Arg _ 0 _) with (Some (JString (Hex.ToHex (rev h)))) in E'. cbv iota beta in E'. unfold mbind, M_bind, lift, AsBytes, AsString in E'. rewrite hex_read in E'. unfold Hex.Hash256_FromBytes, demand, get in E'. rewrite zlen_rev, Hl in E'. cbn [Z.eqb Pos.eqb negb mbind option_bind] in E'.
  rewrite Et in E'. cbn [mbind option_bind] in E'. destruct (List.find _ _) as [k|].
  - destruct (Find _ (rev h)) as [e|]; [|done]. cbn [mbind option_bind] in E'. injection E' as <-. split; eauto.
  - injection E' as <-. split; [by intros [v ?]|by intros [k ?]].
Qed.

(** *** Witnesses *)

Section witnesses.
#[local] Existing Instance toy_Sha256Impl.
#[local] Existing Instance picky_backends.
#[local] Existing Instance MempoolInv.sorted_order.

Lemma displayed_hash_lookup_witness :
  exists shown r, GetBlockHash (JArray [JUnsigned 1]) 0 sample_node = Some (inr shown, sample_node, []) /\
    GetBlock (JArray [shown]) 0 sample_node = Some (r, sample_node, []) /\ ~ (exists v, r = inr v).
Proof.
  destruct (displayed_hash_lookup Regtest (fun _ => None) sample_node 1 0 (Block_Hash block_a1)) as (shown & r & E1 & E2 & Hr).
  - split_and!; [done|exact short_runs|vm_compute; done].
  - vm_compute. reflexivity.
  - lia.
  - vm_compute. reflexivity.
  - exists shown, r. split; [exact E1|]. split; [exact E2|]. rewrite Hr. apply (bool_decide_unpack _). vm_compute. exact I.
Defined.

Definition sample_send : Callbacks EmptyCoinsView MemoryBlockStore NullSink := mkCallbacks None None true true.

(** The chain of two is left for one of three when its last block is submitted; the pool is
    not swept. *)
Definition forked_node : Node EmptyCoinsView MemoryBlockStore NullSink :=
  mkNode (ChainState.offer block_c2 (ChainState.offer block_c1 (ObserveWith short_state))) (Some sample_keeper) REGTEST_PARAMS None None.

Example submit_leaves_sweep :
  match Submit sample_send block_c3 sample_now forked_node with
  | Some (inr None, n, [RelayBlock h]) =>
      bool_decide (h = Block_Hash block_c3) && bool_decide (last (chain_ (state n)) = Some h) &&
      match keeper n with Some k => reorganised_ (catch_up (state n) k) | None => false end
  | _ => false
  end = true.
Proof. vm_compute. reflexivity. Qed.

#[local] Existing Instance Wallet.no_Json.
#[local] Existing Instance CoinSelection.merge_StdSort.
#[local] Existing Instance Signing.toy_signing.

Lemma rpc_keeps_node_witness : exists r n' o,
  Dispatch (daemon_callbacks 0 true) true (str "submitblock") (JArray [JString (str "00ff")]) 0 sample_node = Some (r, n', o) /\
  match r with inl _ => standing Regtest (fun _ => None) n' | inr _ => good Regtest (fun _ => None) 0 n' end.
Proof.
  apply (rpc_keeps_node 0 true Regtest (fun _ => None) true (str "submitblock") (JArray [JString (str "00ff")]) 0 sample_node).
  - apply sized_strings. vm_compute. reflexivity.
  - exact sample_node_good.
Defined.

Lemma block_a1_ok : Block_ok (block_limits (ParamsFor Regtest)) block_a1.
Proof.
  pose proof sample_storable as F. assert (chain_bodies short_state = [block_a1; block_a2]) as E by (vm_compute; reflexivity). rewrite E in F.
  exact (proj1 (Forall_inv F)).
Qed.

Lemma submit_verdict_witness : exists r n' o,
  SubmitBlock (daemon_callbacks 0 true) (JArray [hex (encode Block_Serialize block_a1)]) 0 sample_node = Some (r, n', o) /\
  match r with
  | inl e => code e = ChainFault /\ standing Regtest (fun _ => None) n' /\ o = []
  | inr JNull => good Regtest (fun _ => None) 0 n' /\ Block_Hash block_a1 ∈ chain_ (state n') /\ o = [RelayBlock (Block_Hash block_a1)]
  | inr v => good Regtest (fun _ => None) 0 n' /\ o = [] /\ exists why, v = text why
  end.
Proof.
  apply (submit_verdict 0 true Regtest (fun _ => None) block_a1 0 sample_node).
  - split_and!; [done|exact short_runs|vm_compute; done].
  - exact block_a1_ok.
  - vm_compute. reflexivity.
Defined.

Lemma template_mined_witness : exists v n' o block, GetBlockTemplate (JArray []) sample_now sample_node = Some (inr v, n', o) /\
  member "block" v = Some (hex (encode Block_Serialize block)).
Proof.
  assert (match GetBlockTemplate (JArray []) sample_now sample_node with Some (inr _, _, _) => true | _ => false end = true) as B by (vm_compute; reflexivity).
  destruct (GetBlockTemplate (JArray []) sample_now sample_node) as [[[[e|v] n'] o]|] eqn:E; [discriminate B| |discriminate B]. clear B.
  destruct (template_mined sample_send (JArray []) sample_now sample_node n' v o E) as (lock & data & tip & t & _ & _ & Hm & _).
  exists v, n', o, (tmpl_block t). split; [reflexivity|exact Hm].
Defined.
End witnesses.
End Rpc.
