(* ===== verification/RpcServer.v ===== *)
(** * Calls from end to end (rpc/http.cpp: [AnswerJsonRpc]; rpc/server.cpp; the client's side
    of a call in rpc/client.cpp and cli/amarian_cli.cpp)

    A request's body as a call and its answer as a JSON envelope, the life of a connection,
    the limit on open ones, and what the client makes of the reply. *)

From Stdlib Require Import String.
From S2P Require Import Prelude Overflow Serialize Hex Text Crypto Primitives Params Validation BlockIndex Coins BlockStore ChainState Mempool MempoolInv Daemon CoinSelection Signing WalletDb Wallet JsonValue Http RpcClient Rpc.
From stdpp Require Import gmap strings.
#[local] Open Scope Z_scope.

Module RpcServer.
Import BlockStore JsonValue Http RpcClient.

(** ** Envelopes *)

Definition MakeError (code : Z) (message : string) : json := object [("code", JInteger code); ("message", text message)]%string.

Definition Envelope (id payload : json) (is_result : bool) : json :=
  object [("result", if is_result then payload else JNull); ("error", if is_result then JNull else payload); ("id", id)]%string.

Record RpcAnswer := mkAnswer { ans_status : HttpStatus; ans_body : bytes }.

(** ** The client's side *)

Definition RenderCallBody `{JsonText} (method : bytes) (params : json) (id : Z) : bytes :=
  dump (object [("jsonrpc", text "2.0"); ("id", JInteger id); ("method", JString method); ("params", params)]%string).

Definition ParseArgument `{JsonText} (word : bytes) : json :=
  let digits := negb (bool_decide (word = [])) && all_digits word in
  if digits && (zlen word >? 20) then JString word
  else match parse word with
       | None => JString word
       | Some parsed => parsed
       end.

Definition EXIT_SUCCESS : Z := 0.
Definition EXIT_RPC_ERROR : Z := 1.
Definition EXIT_TRANSPORT : Z := 3.
Definition REQUEST_ID : Z := 1.

(** What the program prints, and its exit status. *)
Record Shown := mkShown { exit_status : Z; printed : bytes; complained : bytes }.

Definition newline : bytes := [Byte.x0a].

(** What [%s] prints of a string: the characters before the first zero. *)
Fixpoint c_str (s : bytes) : bytes :=
  match s with
  | [] => []
  | c :: s => if bool_decide (c = Byte.x00) then [] else c :: c_str s
  end.

Definition is_error (envelope : json) : option json :=
  match member "error" envelope with Some e => if is_null e then None else Some e | None => None end.

(** [dump_indented] is [dump(2)]. *)
Definition PrintReply `{JsonText} (dump_indented : json -> bytes) (envelope : json) (raw : bool) : Shown :=
  if raw then mkShown (match is_error envelope with Some _ => EXIT_RPC_ERROR | None => EXIT_SUCCESS end) (c_str (dump envelope) ++ newline) []
  else match is_error envelope with
  | Some error =>
      let words :=
        match member "data" error, member "message" error with
        | Some (JString detail), _ => detail
        | _, Some (JString message) => message
        | _, _ => dump error
        end in
      mkShown EXIT_RPC_ERROR []
        (match member "code" error with
         | Some (JInteger code) | Some (JUnsigned code) =>
             str "amarian-cli: " ++ c_str words ++ str " (code " ++ (if to_i64 code <? 0 then str "-" ++ to_chars (- to_i64 code) else to_chars (to_i64 code)) ++ str ")" ++ newline
         | _ => str "amarian-cli: " ++ c_str words ++ newline
         end)
  | None =>
      match member "result" envelope with
      | None | Some JNull => mkShown EXIT_SUCCESS [] []
      | Some (JString s) => mkShown EXIT_SUCCESS (c_str s ++ newline) []
      | Some result => mkShown EXIT_SUCCESS (c_str (dump_indented result) ++ newline) []
      end
  end.

(** What [Run] does with the reply to its call. *)
Definition HandleReply `{JsonText} (dump_indented : json -> bytes) (cookie_path : bytes) (raw : bool) (reply : bytes + ParsedResponse) : Shown :=
  match reply with
  | inl failure => mkShown EXIT_TRANSPORT [] (str "amarian-cli: " ++ c_str failure ++ newline)
  | inr reply =>
      match parse (r_body reply) with
      | Some (JObject m) =>
          let envelope := JObject m in
          match member "id" envelope with
          | Some (JInteger id) | Some (JUnsigned id) =>
              if to_i64 id =? REQUEST_ID then PrintReply dump_indented envelope raw
              else mkShown EXIT_TRANSPORT [] (str "amarian-cli: the reply does not match the request that was sent" ++ newline)
          | _ => mkShown EXIT_TRANSPORT [] (str "amarian-cli: the reply does not match the request that was sent" ++ newline)
          end
      | _ =>
          mkShown EXIT_TRANSPORT []
            (str "amarian-cli: the node refused the request with HTTP " ++ to_chars (r_status reply) ++ newline ++
             (if bool_decide (r_body reply = []) then []
              else str "  " ++ c_str (r_body reply) ++ (if bool_decide (last (r_body reply) = Some Byte.x0a) then [] else newline)) ++
             (if r_status reply =? 401 then
                str "  the credential in '" ++ c_str cookie_path ++ str "' is not the one this node is using; it is rewritten each time the node starts" ++ newline
              else []))
      end
  end.

Section server.
Context `{HO : Mempool.HashOrder} `{SH : Sha256Impl} `{SB : Signature.SignatureBackends} {V D K : Type}.
Context `{CV : CoinsView V} `{BS : BlockStore D} `{CS : ChainState.ChainSink K V}.
Context `{WJ : WalletDb.Json} `{SS : CoinSelection.StdSort} `{SG : Signing.SigningBackends} `{JT : JsonText}.
Context (callbacks : Rpc.Callbacks V D K).
Abbreviation node := (Rpc.Node V D K).

(** ** Answering *)

(** [None] is what the methods leave undefined. *)
Definition AnswerJsonRpc (bound : bool) (body : bytes) (now : Z) (n : node) : option (RpcAnswer * node * list Rpc.Relay) :=
  match parse body with
  | Some (JObject m) =>
      let request := JObject m in
      let id := default JNull (member "id" request) in
      let refuse code message := Some (mkAnswer BadRequest (dump (Envelope id (MakeError code message) false)), n, []) in
      match member "method" request with
      | Some (JString method) =>
          match (match member "params" request with
                 | None | Some JNull => Some (JArray [])
                 | Some given => if negb (is_array given) && negb (is_object given) then None else Some given
                 end) with
          | None => refuse (-32602) "params must be an array or an object"%string
          | Some params =>
              '(result, n, o) ← Rpc.Dispatch callbacks bound method params now n;
              match result with
              | inr value => Some (mkAnswer Ok (dump (Envelope id value true)), n, o)
              | inl e =>
                  let error := MakeError (Rpc.Code (Rpc.code e)) (Rpc.Describe_rpc (Rpc.code e)) in
                  let error := if bool_decide (Rpc.detail e = EmptyString) then error else set_member "data" (text (Rpc.detail e)) error in
                  let status := match Rpc.code e with Rpc.UnknownMethod => NotFound | _ => Ok end in
                  Some (mkAnswer status (dump (Envelope id error false)), n, o)
              end
          end
      | _ => refuse (-32600) "no method named"%string
      end
  | _ => Some (mkAnswer BadRequest (dump (Envelope JNull (MakeError (-32700) "not a JSON object") false)), n, [])
  end.

(** ** A connection *)

(** What is pending on it: a read, a write, nothing. *)
Inductive Phase := Reading | Writing | Closed.

Record Connection := mkConnection { phase : Phase; buffer_ : bytes; response_ : bytes }.

Definition CHUNK_BYTES : Z := 8192.

Definition Start : Connection := mkConnection Reading [] [].
Definition Close (c : Connection) : Connection := mkConnection Closed (buffer_ c) (response_ c).
Definition Answer (response : bytes) (c : Connection) : Connection := mkConnection Writing (buffer_ c) response.

Definition Advance (bound : bool) (policy : AuthPolicy) (now : Z) (c : Connection) (n : node) : option (Connection * node * list Rpc.Relay) :=
  let framed := FrameRequest (buffer_ c) in
  match Http.state framed with
  | NeedMore => Some (c, n, [])
  | Malformed | TooLarge => Some (Answer (RenderRefusal (Http.status framed)) c, n, [])
  | Complete =>
      match Screen (Http.request framed) policy with
      | Some refusal => Some (Answer (RenderRefusal refusal) c, n, [])
      | None =>
          '(answer, n, o) ← AnswerJsonRpc bound (Http.body (Http.request framed)) now n;
          Some (Answer (RenderResponse (ans_status answer) (ans_body answer) APPLICATION_JSON) c, n, o)
      end
  end.

(** What the event loop reports to a connection. *)
Inductive ConnEvent := ReadSome (chunk : bytes) (now : Z) | ReadError | Written | DeadlineExpired.

(** A handler runs only for what is pending; closing cancels it. *)
Definition conn_step (bound : bool) (policy : AuthPolicy) (e : ConnEvent) (c : Connection) (n : node) : option (Connection * node * list Rpc.Relay) :=
  match e, phase c with
  | ReadSome chunk now, Reading => Advance bound policy now (mkConnection Reading (buffer_ c ++ chunk) (response_ c)) n
  | ReadError, Reading => Some (Close c, n, [])
  | Written, Writing => Some (Close c, n, [])
  | DeadlineExpired, (Reading | Writing) => Some (Close c, n, [])
  | _, _ => Some (c, n, [])
  end.

Fixpoint conn_run (bound : bool) (policy : AuthPolicy) (events : list ConnEvent) (c : Connection) (n : node) : option (Connection * node * list Rpc.Relay) :=
  match events with
  | [] => Some (c, n, [])
  | e :: events =>
      '(c, n, o) ← conn_step bound policy e c n;
      '(c, n, o') ← conn_run bound policy events c n;
      Some (c, n, o ++ o')
  end.

(** ** The server *)

Record ServerConfig := mkConfig { cfg_port : Z; expected_authorization : bytes; request_timeout : Z; max_connections : Z }.

(** The connections that exist, by the order they were accepted in. *)
Record Server := mkServer {
  policy : AuthPolicy;
  limit : Z;
  open : Z;
  accepted : Z;
  connections : gmap Z Connection }.

(** [Bind]; [v4] and [v6] are what binding each loopback address to a port comes to. *)
Definition Bind (bound : bool) (config : ServerConfig) (v4 v6 : Z -> bytes + Z) : bytes + Server :=
  if bool_decide (expected_authorization config = []) then inl (str "refusing to serve RPC with no credential to check requests against")
  else if negb bound then inl (str "refusing to serve RPC on a node with no chain behind it")
  else if request_timeout config <=? 0 then inl (str "an RPC request timeout must be positive")
  else if max_connections config =? 0 then inl (str "an RPC connection limit of zero would answer nobody")
  else
    let four := v4 (cfg_port config) in
    let bound_port := match four with inr got => Some got | inl _ => None end in
    let bound_port := match v6 (default (cfg_port config) bound_port) with inr got => Some (default got bound_port) | inl _ => bound_port end in
    match bound_port, four with
    | Some p, _ => inr (mkServer (mkAuthPolicy (expected_authorization config) p) (max_connections config) 0 0 ∅)
    | None, inl failure => inl failure
    | None, inr _ => inl []
    end.

Inductive ServerEvent := Accepted | AcceptFailed | OnConnection (i : Z) (e : ConnEvent).

(** [Accept]'s handler, and a connection's; one with nothing pending is destroyed. *)
Definition server_step (e : ServerEvent) (s : Server) (n : node) : option (Server * node * list Rpc.Relay) :=
  match e with
  | AcceptFailed => Some (s, n, [])
  | Accepted =>
      if open s >=? limit s then Some (s, n, [])
      else Some (mkServer (policy s) (limit s) (open s + 1) (accepted s + 1) (<[accepted s := Start]> (connections s)), n, [])
  | OnConnection i e =>
      match connections s !! i with
      | None => Some (s, n, [])
      | Some c =>
          '(c, n, o) ← conn_step true (policy s) e c n;
          let s := match phase c with
                   | Closed => mkServer (policy s) (limit s) (open s - 1) (accepted s) (delete i (connections s))
                   | _ => mkServer (policy s) (limit s) (open s) (accepted s) (<[i := c]> (connections s))
                   end in
          Some (s, n, o)
      end
  end.
End server.
(** ** Lemmas: framing *)

Lemma complete_consumed buffer : Http.state (FrameRequest buffer) = Complete -> consumed (FrameRequest buffer) <= zlen buffer.
Proof.
  unfold FrameRequest. destruct (find _ _) as [i|]; [|by destruct (_ >? _)]. destruct (_ >? _); [done|]. destruct (parse_head _) as [r|]; [|done].
  do 2 (destruct (negb _); [done|]). destruct (ParseLength _ _) as [len|]; [|by destruct (negb _ && _)].
  destruct (Z.ltb_spec (zlen buffer) (Z.of_nat (i + 4) + len)); [done|]. cbn. lia.
Qed.

(** A request is not framed before its last byte. *)
Lemma cut_request r a b : request_ok r -> zlen (section (request_line r) (map line_of (headers r))) < 8190 -> request_text r = a ++ b -> b <> [] ->
  Http.state (FrameRequest a) = NeedMore.
Proof.
  intros Hr Hs E Hb. pose proof (request_framed r [] Hr) as F. rewrite app_nil_r in F.
  assert ({Http.state (FrameRequest a) = NeedMore} + {Http.state (FrameRequest a) <> NeedMore}) as [|Hn] by (destruct (Http.state _); auto). 1: done.
  exfalso. destruct (FrameRequest_app a b Hn) as [Ea|(i & Ei & H1 & _)].
  - rewrite <- E, F in Ea. assert (Http.state (FrameRequest a) = Complete) as Ec by (by rewrite <- Ea). apply complete_consumed in Ec. rewrite <- Ea in Ec. cbn in Ec.
    rewrite E, zlen_app in Ec. destruct b as [|x b]; [done|]. rewrite zlen_cons in Ec. pose proof (zlen_nonneg b). lia.
  - rewrite <- E in Ei. unfold request_text in Ei. rewrite find_terminator in Ei by (by apply section_plain). injection Ei as <-. unfold zlen, MAX_HEADER_BYTES in *. lia.
Qed.

(** What a buffer that waits for more can hold. *)
Lemma waiting_bounded buffer : Http.state (FrameRequest buffer) = NeedMore -> zlen buffer <= MAX_HEADER_BYTES + 4 + MAX_REQUEST_BYTES.
Proof.
  assert (0 < MAX_REQUEST_BYTES) as Hm by reflexivity. unfold FrameRequest. destruct (find _ _) as [i|].
  - destruct (Z.gtb_spec (Z.of_nat i) MAX_HEADER_BYTES); [done|]. destruct (parse_head _) as [r|]; [|done].
    do 2 (destruct (negb _); [done|]). destruct (ParseLength _ _) as [len|] eqn:El; [|by destruct (negb _ && _)].
    destruct (Z.ltb_spec (zlen buffer) (Z.of_nat (i + 4) + len)); [|done]. intros _.
    apply ParseLength_spec in El as (_ & _ & _ & _ & Hl); [|by vm_compute]. lia.
  - destruct (Z.gtb_spec (zlen buffer) MAX_HEADER_BYTES); [done|]. lia.
Qed.

(** ** Lemmas: connections *)

Section connections.
Context `{HO : Mempool.HashOrder} `{SH : Sha256Impl} `{SB : Signature.SignatureBackends} {V D K : Type}.
Context `{CV : CoinsView V} `{BS : BlockStore D} `{CS : ChainState.ChainSink K V}.
Context `{WJ : WalletDb.Json} `{SS : CoinSelection.StdSort} `{SG : Signing.SigningBackends} `{JT : JsonText}.
Context (callbacks : Rpc.Callbacks V D K) (bound : bool) (policy : AuthPolicy).
Abbreviation node := (Rpc.Node V D K).

(** A connection that has answered does nothing more. *)
Lemma answered_step e c c' (n n' : node) o : phase c <> Reading -> conn_step callbacks bound policy e c n = Some (c', n', o) ->
  phase c' <> Reading /\ response_ c' = response_ c /\ buffer_ c' = buffer_ c /\ n' = n /\ o = [].
Proof. destruct c as [[] buf resp]; [done| |]; intros _; destruct e; cbn; intros [= <- <- <-]; done. Qed.

Lemma answered_run es : forall c c' (n n' : node) o, phase c <> Reading -> conn_run callbacks bound policy es c n = Some (c', n', o) ->
  phase c' <> Reading /\ response_ c' = response_ c /\ buffer_ c' = buffer_ c /\ n' = n /\ o = [].
Proof.
  induction es as [|e es IH]; intros c c' n n' o Hp; cbn [conn_run]; [by intros [= <- <- <-]|].
  destruct (conn_step _ _ _ e c n) as [[[c1 n1] o1]|] eqn:E1; [|done]. cbn [mbind option_bind].
  destruct (conn_run _ _ _ es c1 n1) as [[[c2 n2] o2]|] eqn:E2; [|done]. cbn [mbind option_bind]. intros [= <- <- <-].
  apply answered_step in E1 as (H1 & R1 & B1 & -> & ->); [|done]. apply IH in E2 as (H2 & R2 & B2 & -> & ->); [|done]. split_and!; try done; congruence.
Qed.

Lemma answered_total es : forall c (n : node), phase c <> Reading -> exists c', conn_run callbacks bound policy es c n = Some (c', n, []).
Proof.
  induction es as [|e es IH]; intros c n Hp; cbn [conn_run]; [by exists c|].
  assert (exists c1, conn_step callbacks bound policy e c n = Some (c1, n, [])) as [c1 E1] by (destruct c as [[] buf resp]; [done| |]; destruct e; cbn; eauto).
  rewrite E1. cbn [mbind option_bind]. apply answered_step in E1 as (H1 & _); [|done]. destruct (IH c1 n H1) as [c2 ->]. by exists c2.
Qed.

(** However the bytes of a request are split into packets, they are acted on together. *)
Lemma request_read r now packets : forall got (n : node), request_ok r ->
  zlen (section (request_line r) (map line_of (headers r))) < 8190 -> got ++ concat packets = request_text r -> concat packets <> [] ->
  match Advance callbacks bound policy now (mkConnection Reading (request_text r) []) n with
  | Some (c, n', o) => exists c', conn_run callbacks bound policy (map (fun p => ReadSome p now) packets) (mkConnection Reading got []) n = Some (c', n', o) /\
      response_ c' = response_ c
  | None => True
  end.
Proof.
  induction packets as [|p packets IH]; intros got n Hr Hs E Hne; [done|]. cbn [concat] in E, Hne.
  cbn [map conn_run conn_step phase buffer_ response_]. rewrite app_assoc in E. destruct (decide (concat packets = [])) as [En|Hn].
  - rewrite En, app_nil_r in E. rewrite E. destruct (Advance _ _ _ _ _ _) as [[[c n'] o]|] eqn:A; [|done]. cbn [mbind option_bind].
    assert (phase c <> Reading) as Hp.
    { unfold Advance in A. cbn [buffer_] in A. pose proof (request_framed r [] Hr) as F. rewrite app_nil_r in F. rewrite F in A. cbn [Http.state Http.request] in A.
      destruct (Screen r policy); [injection A as <- _ _; done|]. destruct (AnswerJsonRpc _ _ _ _ _) as [[[a m] o']|]; [|done]. cbn [mbind option_bind] in A. by injection A as <- _ _. }
    destruct (answered_total (map (fun p => ReadSome p now) packets) c n' Hp) as [c' E']. rewrite E'. cbn [mbind option_bind].
    exists c'. rewrite app_nil_r. split; [done|]. by apply answered_run in E' as (_ & ? & _).
  - assert (Advance callbacks bound policy now (mkConnection Reading (got ++ p) []) n = Some (mkConnection Reading (got ++ p) [], n, [])) as ->.
    { unfold Advance. cbn [buffer_]. rewrite (cut_request r (got ++ p) (concat packets)) by done. done. }
    cbn [mbind option_bind]. specialize (IH (got ++ p) n Hr Hs E Hn). destruct (Advance _ _ _ _ _ _) as [[[c n'] o]|]; [|done].
    destruct IH as (c' & -> & Hc). cbn [mbind option_bind]. by exists c'.
Qed.

(** *** What a connection holds *)

Definition BUFFER_BOUND : Z := MAX_HEADER_BYTES + 4 + MAX_REQUEST_BYTES + CHUNK_BYTES.

Definition conn_inv (c : Connection) : Prop :=
  zlen (buffer_ c) <= BUFFER_BOUND /\ (phase c = Reading -> zlen (buffer_ c) + CHUNK_BYTES <= BUFFER_BOUND).

Definition chunk_ok (e : ConnEvent) : Prop := match e with ReadSome chunk _ => zlen chunk <= CHUNK_BYTES | _ => True end.

Lemma Start_inv : conn_inv Start.
Proof. split; [by vm_compute|]. intros _. by vm_compute. Qed.

Lemma conn_step_inv e c c' (n n' : node) o : conn_inv c -> chunk_ok e -> conn_step callbacks bound policy e c n = Some (c', n', o) -> conn_inv c'.
Proof.
  intros [H1 H2] Hc. destruct c as [p buf resp]. cbn [buffer_ phase] in *.
  assert (forall b, zlen b <= BUFFER_BOUND -> forall q r, q <> Reading -> conn_inv (mkConnection q b r)) as Hq by (intros b Hb q r Hr; by split).
  destruct p; [specialize (H2 eq_refl)|destruct e; cbn; intros [= <- <- <-]; by apply Hq..].
  destruct e as [chunk now| | |]; cbn [conn_step phase buffer_ response_ chunk_ok] in *; [|intros [= <- <- <-]; first [by apply Hq | by split]..].
  assert (zlen (buf ++ chunk) <= BUFFER_BOUND) as Hb by (rewrite zlen_app; lia). unfold Advance. cbn [buffer_].
  destruct (Http.state (FrameRequest (buf ++ chunk))) eqn:Es.
  - destruct (Screen _ _); [intros [= <- <- <-]; by apply Hq|]. destruct (AnswerJsonRpc _ _ _ _ _) as [[[a m] o']|]; [|done]. cbn [mbind option_bind].
    intros [= <- <- <-]. by apply Hq.
  - intros [= <- <- <-]. split; [done|]. intros _. cbn. apply waiting_bounded in Es. unfold BUFFER_BOUND. lia.
  - intros [= <- <- <-]. by apply Hq.
  - intros [= <- <- <-]. by apply Hq.
Qed.
End connections.

(** *** The server *)

Section servers.
Context `{HO : Mempool.HashOrder} `{SH : Sha256Impl} `{SB : Signature.SignatureBackends} {V D K : Type}.
Context `{CV : CoinsView V} `{BS : BlockStore D} `{CS : ChainState.ChainSink K V}.
Context `{WJ : WalletDb.Json} `{SS : CoinSelection.StdSort} `{SG : Signing.SigningBackends} `{JT : JsonText}.
Context (callbacks : Rpc.Callbacks V D K).
Abbreviation node := (Rpc.Node V D K).

Record server_inv (s : Server) : Prop := {
  si_open : open s = Z.of_nat (size (connections s));
  si_limit : open s <= limit s;
  si_fresh i c : connections s !! i = Some c -> i < accepted s;
  si_conns i c : connections s !! i = Some c -> conn_inv c /\ phase c <> Closed }.

(** The states a server that was bound goes through, serving a node. *)
Inductive serves : Server -> node -> Prop :=
  | serve_bound bound config v4 v6 s n : Bind bound config v4 v6 = inr s -> 0 <= max_connections config -> serves s n
  | serve_step e s s' n n' o : serves s n -> (forall i ce, e = OnConnection i ce -> chunk_ok ce) ->
      server_step callbacks e s n = Some (s', n', o) -> serves s' n'
  | serve_elsewhere s n n' : serves s n -> serves s n'.

Lemma Bind_inv bound config v4 v6 s : Bind bound config v4 v6 = inr s -> 0 <= max_connections config -> server_inv s.
Proof.
  unfold Bind. destruct (bool_decide _); [done|]. destruct bound; cbn [negb]; [|done]. destruct (_ <=? _); [done|]. destruct (_ =? _); [done|]. destruct (v4 _) as [f4|p4]; destruct (v6 _) as [f6|p6]; cbn [default]; try done; intros [= <-] Hm.
  all: split; cbn; [done|done|intros i c; by rewrite lookup_empty|intros i c; by rewrite lookup_empty].
Qed.

Lemma server_step_inv e s s' (n n' : node) o : server_inv s -> (forall i ce, e = OnConnection i ce -> chunk_ok ce) ->
  server_step callbacks e s n = Some (s', n', o) -> server_inv s'.
Proof.
  intros [Ho Hl Hf Hc] He. destruct e as [| |i e]; cbn [server_step].
  - destruct (Z.geb_spec (open s) (limit s)); intros [= <- <- <-]; [done|]. assert (connections s !! accepted s = None) as Hnew.
    { destruct (connections s !! accepted s) as [c|] eqn:E; [|done]. apply Hf in E. lia. }
    split; cbn.
    + rewrite map_size_insert_None by done. lia.
    + lia.
    + intros i c. rewrite lookup_insert_Some. intros [[<- _]|[_ E]]; [lia|]. apply Hf in E. lia.
    + intros i c. rewrite lookup_insert_Some. intros [[_ <-]|[_ E]]; [|by eapply Hc]. split; [apply Start_inv|done].
  - by intros [= <- <- <-].
  - destruct (connections s !! i) as [c|] eqn:Ei; [|by intros [= <- <- <-]]. destruct (conn_step _ _ _ e c n) as [[[c1 n1] o1]|] eqn:E; [|done].
    cbn [mbind option_bind]. intros [= <- <- <-]. destruct (Hc i c Ei) as [Ic _]. pose proof (conn_step_inv _ _ _ e c c1 n n1 o1 Ic (He i e eq_refl) E) as I1.
    assert (forall q, phase c1 = q -> q <> Closed -> server_inv (mkServer (policy s) (limit s) (open s) (accepted s) (<[i:=c1]> (connections s)))) as Hq.
    { intros q Eq Hq. split; cbn; [|done| |].
      - rewrite map_size_insert_Some by (by rewrite Ei). done.
      - intros j x. rewrite lookup_insert_Some. intros [[<- _]|[_ Ex]]; by eapply Hf.
      - intros j x. rewrite lookup_insert_Some. intros [[_ <-]|[_ Ex]]; [|by eapply Hc]. split; [done|congruence]. }
    destruct (phase c1) eqn:Ep; [by apply (Hq Reading)|by apply (Hq Writing)|]. split; cbn.
    + rewrite map_size_delete_Some by (by rewrite Ei). rewrite Ho. assert (size (connections s) <> 0%nat) as Hz; [|lia].
      rewrite map_size_ne_0_lookup. by exists i.
    + lia.
    + intros j x. rewrite lookup_delete_Some. intros [_ Ex]. by eapply Hf.
    + intros j x. rewrite lookup_delete_Some. intros [_ Ex]. by eapply Hc.
Qed.

Lemma serves_inv s (n : node) : serves s n -> server_inv s.
Proof.
  induction 1 as [bound config v4 v6 s n E Hm|e s s' n n' o _ I He E|s n n' _ I]; [by eapply Bind_inv|by eapply server_step_inv|done].
Qed.
End servers.

(** ** Lemmas: answering *)

Section answering.
Context `{HO : Mempool.HashOrder} `{SH : Sha256Impl} `{SB : Signature.SignatureBackends} {V D K : Type}.
Context `{CV : CoinsView V} `{BS : BlockStore D} `{CS : ChainState.ChainSink K V}.
Context `{WJ : WalletDb.Json} `{SS : CoinSelection.StdSort} `{SG : Signing.SigningBackends} `{JT : JsonText}.
Context (callbacks : Rpc.Callbacks V D K).
Abbreviation node := (Rpc.Node V D K).

(** The call as a JSON value. *)
Definition call_json (method : bytes) (args : list json) : json :=
  object [("jsonrpc", text "2.0"); ("id", JInteger REQUEST_ID); ("method", JString method); ("params", JArray args)]%string.

(** The object an error is. *)
Definition error_json (e : Rpc.Error) : json :=
  let error := MakeError (Rpc.Code (Rpc.code e)) (Rpc.Describe_rpc (Rpc.code e)) in
  if bool_decide (Rpc.detail e = EmptyString) then error else set_member "data" (text (Rpc.detail e)) error.

(** The status and the envelope of an outcome. *)
Definition outcome_json (id : json) (r : Rpc.Error + json) : HttpStatus * json :=
  match r with
  | inr value => (Ok, Envelope id value true)
  | inl e => (match Rpc.code e with Rpc.UnknownMethod => NotFound | _ => Ok end, Envelope id (error_json e) false)
  end.

(** A call that arrives is dispatched with its arguments, and answered with its id. *)
Lemma call_dispatched method args now (n : node) : printable (call_json method args) ->
  AnswerJsonRpc callbacks true (dump (call_json method args)) now n =
  '(r, n', o) ← Rpc.Dispatch callbacks true method (JArray (map reread args)) now n;
  let '(status, envelope) := outcome_json (JUnsigned REQUEST_ID) r in Some (mkAnswer status (dump envelope), n', o).
Proof.
  intros Hp. unfold AnswerJsonRpc. rewrite (parse_dump _ Hp). unfold call_json at 1, object. cbn [reread].
  set (m := reread <$> _). change (JObject m) with (reread (call_json method args)).
  rewrite !member_reread. change (member "id" _) with (Some (JInteger REQUEST_ID)). change (member "method" _) with (Some (JString method)).
  change (member "params" _) with (Some (JArray args)). cbn [fmap option_fmap option_map reread is_array is_object negb andb from_option].
  destruct (Rpc.Dispatch _ _ _ _ _ _) as [[[[e|v] n'] o]|]; done.
Qed.

(** What the client finds in an envelope. *)
Lemma envelope_members id (r : Rpc.Error + json) : let envelope := reread (outcome_json id r).2 in
  member "id" envelope = Some (reread id) /\
  member "result" envelope = Some (match r with inr v => reread v | inl _ => JNull end) /\
  member "error" envelope = Some (match r with inr _ => JNull | inl e => reread (error_json e) end).
Proof.
  cbv zeta. rewrite !member_reread. destruct r as [e|v]; cbn [outcome_json snd]; unfold Envelope; by split_and!.
Qed.
End answering.

(** ** Claims *)

(** A call is answered.  A client that has read the server's cookie calls a method; its
    request reaches the server in any packets, and the answer comes back in any packets.
    Then the method is run once, on the node as it is then, with the client's arguments; the
    client's loop ends with a reply; and the reply is an envelope with the call's id whose
    result is the method's value, or whose error is the method's. *)
Theorem call_answered `{Mempool.HashOrder} `{Sha256Impl} `{Signature.SignatureBackends} {V D K} `{CoinsView V} `{BlockStore D} `{ChainState.ChainSink K V}
    `{WalletDb.Json} `{CoinSelection.StdSort} `{Signing.SigningBackends} `{JsonText} (callbacks : Rpc.Callbacks V D K)
    (file : option bytes) (bad : bool) (cred : bytes) (port now : Z) (method : bytes) (args : list json) (packets : list bytes)
    (n n' : Rpc.Node V D K) (r : Rpc.Error + json) (o : list Rpc.Relay)
    (Hc : Cookie_Read file bad = inr cred) (Hp : 0 <= port < 2 ^ 16)
    (Hcall : printable (call_json method args)) (Hsize : zlen (RenderCallBody method (JArray args) REQUEST_ID) <= MAX_REQUEST_BYTES)
    (Hpackets : concat packets = RenderCall (Authorization cred) (str "127.0.0.1") port (RenderCallBody method (JArray args) REQUEST_ID))
    (Hrun : Rpc.Dispatch callbacks true method (JArray (map reread args)) now n = Some (r, n', o))
    (Hanswer : printable (outcome_json (JUnsigned REQUEST_ID) r).2) :
  exists c, conn_run callbacks true (mkAuthPolicy (Authorization cred) port) (map (fun p => ReadSome p now) packets) Start n = Some (c, n', o) /\
    (zlen (response_ c) <= MAX_RESPONSE_BYTES ->
     forall chunks, concat chunks = response_ c ->
     let envelope := reread (outcome_json (JUnsigned REQUEST_ID) r).2 in
     exists status body, receive [] (map Chunk chunks) = Some (inr (mkParsed RComplete status body [])) /\
       parse body = Some envelope /\ member "id" envelope = Some (JUnsigned REQUEST_ID) /\
       member "result" envelope = Some (match r with inr v => reread v | inl _ => JNull end) /\
       member "error" envelope = Some (match r with inr _ => JNull | inl e => reread (error_json e) end)).
Proof.
  apply Cookie_Read_small in Hc as [Hne Hl]. set (body := RenderCallBody _ _ _) in *. set (req := call_request (Authorization cred) (str "127.0.0.1") port body).
  assert (request_ok req) as Hreq by (by apply call_ok). assert (zlen (section (request_line req) (map line_of (headers req))) < 8190) as Hsec by (by apply call_section).
  rewrite RenderCall_text in Hpackets. fold req in Hpackets.
  pose proof (request_read callbacks true (mkAuthPolicy (Authorization cred) port) req now packets [] n Hreq Hsec Hpackets) as R.
  assert (concat packets <> []) as Hne2 by (rewrite Hpackets; done). specialize (R Hne2). unfold Advance in R. cbn [buffer_] in R.
  pose proof (request_framed req [] Hreq) as F. rewrite app_nil_r in F. rewrite F in R. cbn [Http.state Http.request] in R.
  unfold req in R at 1. rewrite call_screened in R by done. change (Http.body req) with (dump (call_json method args)) in R.
  rewrite call_dispatched, Hrun in R by done. cbn [mbind option_bind] in R.
  destruct (outcome_json (JUnsigned REQUEST_ID) r) as [status envelope] eqn:Eo. cbn [mbind option_bind ans_status ans_body snd] in *.
  destruct R as (c & E & Hresp). cbn [response_ Answer] in Hresp. exists c. split; [exact E|]. rewrite Hresp. intros Hs chunks Ech.
  exists (status_code status), (dump envelope). split.
  - assert (zlen (dump envelope) <= MAX_RESPONSE_BYTES) as Hb.
    { rewrite RenderResponse_text, !zlen_app in Hs. pose proof (zlen_nonneg (response_head status (dump envelope) APPLICATION_JSON)).
      pose proof (zlen_nonneg HEADER_TERMINATOR). lia. }
    apply (received status (dump envelope) APPLICATION_JSON); [repeat constructor; done|done|done|done].
  - split; [by apply parse_dump|]. pose proof (envelope_members (JUnsigned REQUEST_ID) r) as M. rewrite Eo in M. exact M.
Qed.

(** C38: The server's memory is bounded, whatever its clients do: there are never more
    connections than the limit, each that is counted exists, and none holds more than a
    request at its largest and one read. *)
Theorem server_bounded `{Mempool.HashOrder} `{Sha256Impl} `{Signature.SignatureBackends} {V D K} `{CoinsView V} `{BlockStore D} `{ChainState.ChainSink K V}
    `{WalletDb.Json} `{CoinSelection.StdSort} `{Signing.SigningBackends} `{JsonText} (callbacks : Rpc.Callbacks V D K)
    (s : Server) (n : Rpc.Node V D K) (R : serves callbacks s n) :
  open s = Z.of_nat (size (connections s)) /\ open s <= limit s /\
  forall i c, connections s !! i = Some c -> phase c <> Closed /\ zlen (buffer_ c) <= 8192 + 4 + 8 * 2 ^ 20 + 8192.
Proof.
  pose proof (serves_inv _ _ _ R) as [Ho Hl _ Hc]. split; [done|]. split; [done|]. intros i c Ei. by destruct (Hc i c Ei) as [[Hb _] Hp].
Qed.

(** One connection, one answer.  Once a connection has answered, or was closed, nothing
    it receives changes the answer or the node, and nothing is announced for it. *)
Theorem connection_answers_once `{Mempool.HashOrder} `{Sha256Impl} `{Signature.SignatureBackends} {V D K} `{CoinsView V} `{BlockStore D} `{ChainState.ChainSink K V}
    `{WalletDb.Json} `{CoinSelection.StdSort} `{Signing.SigningBackends} `{JsonText} (callbacks : Rpc.Callbacks V D K)
    (bound : bool) (policy : AuthPolicy) (events : list ConnEvent) (c : Connection) (n : Rpc.Node V D K) :
  phase c = Reading \/ exists c', conn_run callbacks bound policy events c n = Some (c', n, []) /\ phase c' <> Reading /\ response_ c' = response_ c.
Proof.
  destruct (phase c) eqn:Ep; [by left|right..].
  all: assert (phase c <> Reading) as Hp by congruence; destruct (answered_total callbacks bound policy events c n Hp) as [c' E]; exists c'; split; [done|];
    by apply answered_run in E as (? & ? & _).
Qed.

(** *** Witnesses *)

Definition help_call : json := call_json (str "help") [].
Definition help_value : json := JArray (map text Rpc.METHOD_NAMES).
Definition help_reply : json := (outcome_json (JUnsigned REQUEST_ID) (inr help_value)).2.

(** A text form of these two values. *)
Definition two_values : JsonText.
Proof.
  refine {| dump v := match member "method" v with Some _ => str "call" | None => str "reply" end;
            parse s := if bool_decide (s = str "call") then Some (reread help_call) else Some (reread help_reply);
            printable v := v = help_call \/ v = help_reply |}.
  intros v [->| ->]; vm_compute; reflexivity.
Defined.

Section witnesses.
#[local] Existing Instance toy_Sha256Impl.
#[local] Existing Instance Validation.picky_backends.
#[local] Existing Instance MempoolInv.sorted_order.
#[local] Existing Instance Wallet.no_Json.
#[local] Existing Instance CoinSelection.merge_StdSort.
#[local] Existing Instance Signing.toy_signing.
#[local] Existing Instance two_values.

Abbreviation help_text := (RenderCall (Authorization (str "__cookie__:00ff")) (str "127.0.0.1") 9332 (RenderCallBody (str "help") (JArray []) REQUEST_ID)).

Lemma call_answered_witness : exists c,
  conn_run Rpc.sample_send true (mkAuthPolicy (Authorization (str "__cookie__:00ff")) 9332)
    (map (fun p => ReadSome p 0) [take 50 help_text; drop 50 help_text]) Start Rpc.sample_node = Some (c, Rpc.sample_node, []) /\
  exists status body envelope, receive [] (map Chunk [response_ c]) = Some (inr (mkParsed RComplete status body [])) /\
    parse body = Some envelope /\ member "result" envelope = Some (reread help_value).
Proof.
  destruct (call_answered Rpc.sample_send (Some (str "__cookie__:00ff")) false (str "__cookie__:00ff") 9332 0 (str "help") []
    [take 50 help_text; drop 50 help_text] Rpc.sample_node Rpc.sample_node (inr help_value) []) as (c & E & Hc).
  - vm_compute. reflexivity.
  - lia.
  - left. reflexivity.
  - vm_compute. discriminate.
  - cbn [concat]. rewrite app_nil_r. apply take_drop.
  - reflexivity.
  - right. reflexivity.
  - exists c. split; [exact E|]. assert (zlen (response_ c) <= MAX_RESPONSE_BYTES) as Hs.
    { assert (match conn_run Rpc.sample_send true (mkAuthPolicy (Authorization (str "__cookie__:00ff")) 9332)
        (map (fun p => ReadSome p 0) [take 50 help_text; drop 50 help_text]) Start Rpc.sample_node with Some (c, _, _) => zlen (response_ c) <=? MAX_RESPONSE_BYTES | None => false end = true) as B
        by (vm_compute; reflexivity). rewrite E in B. by apply Z.leb_le in B. }
    destruct (Hc Hs [response_ c]) as (status & body & H1 & H2 & _ & H3 & _); [apply app_nil_r|]. eexists status, body, _. exact (conj H1 (conj H2 H3)).
Defined.

Lemma server_bounded_witness : exists s, serves Rpc.sample_send s Rpc.sample_node /\ open s = 1 /\ open s <= limit s.
Proof.
  set (s0 := mkServer (mkAuthPolicy (str "Basic eDp5") 9332) 16 0 0 ∅). set (s1 := mkServer (mkAuthPolicy (str "Basic eDp5") 9332) 16 1 1 {[0 := Start]}).
  assert (serves Rpc.sample_send s0 Rpc.sample_node) as R0.
  { apply (serve_bound _ true (mkConfig 9332 (str "Basic eDp5") 10 16) (fun p => inr p) (fun p => inr p)); [reflexivity|cbn; lia]. }
  assert (serves Rpc.sample_send s1 Rpc.sample_node) as R1 by (apply (serve_step _ Accepted s0 s1 Rpc.sample_node Rpc.sample_node [] R0); [done|reflexivity]).
  exists s1. split; [exact R1|]. destruct (server_bounded Rpc.sample_send s1 Rpc.sample_node R1) as (_ & Hl & _). split; [reflexivity|exact Hl].
Defined.
End witnesses.
End RpcServer.
