(* ===== verification/Args.v ===== *)
(** * Command lines (util/args.cpp)

    The option table, the parser every program of the repository starts with, the
    accessors and the help text.  The parser refines a grammar of command lines. *)

From Stdlib Require Import String Ascii.
From S2P Require Import Prelude Overflow Text.
From stdpp Require Import strings list.
#[local] Open Scope Z_scope.

Module Args.

Abbreviation string := String.string.
#[local] Open Scope string_scope.
#[local] Open Scope Z_scope.

(** [Str] is the source's [String], which is a constructor of the type of strings here. *)
Inductive ArgKind := Flag | Str | Integer.

#[global] Instance ArgKind_eq_dec : EqDecision ArgKind.
Proof. solve_decision. Defined.

(** A [short_name] of code nought is no short name. *)
Record ArgSpec := mkArgSpec {
  name : string;
  kind : ArgKind;
  value_hint : string;
  help : string;
  short_name : ascii
}.

#[global] Instance ArgSpec_eq_dec : EqDecision ArgSpec.
Proof. solve_decision. Defined.

Definition NUL : ascii := Text.char 0.

Record Parsed := mkParsed { parsed_name : string; value : string }.

Record ArgsParser := mkArgsParser {
  program_ : string;
  usage_ : string;
  specs_ : list ArgSpec;
  parsed_ : list Parsed;
  positional_ : list string
}.

(** [Status]: success, or an error code with its detail. *)
Inductive Result (A : Type) := Done (a : A) | Fail (code detail : string).
Arguments Done {A} a.
Arguments Fail {A} code detail.

Definition kTrueWords : list string := ["1"; "true"; "yes"; "on"].
Definition kFalseWords : list string := ["0"; "false"; "no"; "off"].

Definition Contains (words : list string) (v : string) : bool := bool_decide (v ∈ words).

(** ** The option table *)

Definition new_ArgsParser (program usage_line : string) : ArgsParser := mkArgsParser program usage_line [] [] [].

Definition Add (spec : ArgSpec) (a : ArgsParser) : ArgsParser :=
  mkArgsParser (program_ a) (usage_ a) (specs_ a ++ [spec]) (parsed_ a) (positional_ a).

Definition FindLong (a : ArgsParser) (n : string) : option ArgSpec :=
  List.find (fun s => bool_decide (name s = n)) (specs_ a).

Definition FindShort (a : ArgsParser) (c : ascii) : option ArgSpec :=
  if bool_decide (c = NUL) then None else List.find (fun s => bool_decide (short_name s = c)) (specs_ a).

Definition find_parsed (n : string) (parsed : list Parsed) : option Parsed :=
  List.find (fun p => bool_decide (parsed_name p = n)) parsed.

Definition Find (a : ArgsParser) (n : string) : option Parsed := find_parsed n (parsed_ a).

(** ** Values *)

(** [std::from_chars] of a signed 64-bit integer in decimal: a minus sign, digits as far as
    they go, and what is left; [None] is an error. *)
Definition from_chars (s : string) : option (Z * string) :=
  let '(neg, s) := match s with String "-" s => (true, s) | _ => (false, s) end in
  let '(digits, rest) := Text.span Text.is_decimal s in
  match digits with
  | EmptyString => None
  | _ =>
      let v := if neg then - Text.decimal_value 0 digits else Text.decimal_value 0 digits in
      if (- 2 ^ 63 <=? v) && (v <? 2 ^ 63) then Some (v, rest) else None
  end.

(** The whole of a text as an integer. *)
Definition whole_int (s : string) : option Z :=
  match from_chars s with
  | Some (v, EmptyString) => Some v
  | _ => None
  end.

Definition Has (a : ArgsParser) (n : string) : bool := match Find a n with Some _ => true | None => false end.

Definition GetString (a : ArgsParser) (n fallback : string) : string :=
  match Find a n with None => fallback | Some p => value p end.

Definition GetInt (a : ArgsParser) (n : string) (fallback : Z) : Z :=
  match Find a n with
  | None => fallback
  | Some p => match whole_int (value p) with None => fallback | Some out => out end
  end.

Definition GetBool (a : ArgsParser) (n : string) (fallback : bool) : bool :=
  match Find a n with None => fallback | Some p => Contains kTrueWords (value p) end.

(** ** Parsing *)

(** [starts_with] and the text after the prefix. *)
Fixpoint strip (p s : string) : option string :=
  match p, s with
  | EmptyString, _ => Some s
  | String c p, String d s => if bool_decide (c = d) then strip p s else None
  | String _ _, EmptyString => None
  end.

(** An argument that is no option: empty, without a dash in front, or a lone dash. *)
Definition is_positional (arg : string) : bool :=
  match arg with
  | EmptyString => true
  | String c _ => negb (bool_decide (c = "-"%char)) || bool_decide (arg = "-")
  end.

Definition not_equals (c : ascii) : bool := negb (bool_decide (c = "="%char)).

(** The text before the first [=], and what follows it when there is one. *)
Definition split_inline (arg : string) : string * option string :=
  match Text.span not_equals arg with
  | (token, EmptyString) => (token, None)
  | (token, String _ inline_value) => (token, Some inline_value)
  end.

(** The option a token names, and whether it negates it. *)
Definition resolve (a : ArgsParser) (arg token : string) : Result (ArgSpec * bool) :=
  match strip "--" token with
  | Some n =>
      match FindLong a n with
      | Some spec => Done (spec, false)
      | None =>
          match strip "no-" n with
          | Some n => match FindLong a n with
                      | Some spec => Done (spec, true)
                      | None => Fail "args.unknown_option" token
                      end
          | None => Fail "args.unknown_option" token
          end
      end
  | None =>
      match token with
      | String _ (String c EmptyString) =>
          match FindShort a c with
          | Some spec => Done (spec, false)
          | None => Fail "args.unknown_option" token
          end
      | _ => Fail "args.unknown_option" arg
      end
  end.

(** The value of a flag. *)
Definition flag_value (arg : string) (negated : bool) (inline : option string) : Result string :=
  match inline with
  | Some word =>
      if negated then Fail "args.conflicting_value" arg
      else if Contains kTrueWords word then Done "1"
      else if Contains kFalseWords word then Done "0"
      else Fail "args.invalid_boolean" arg
  | None => Done (if negated then "0" else "1")
  end.

(** What one argument asks for: an option and its value, or, for [None], an option whose
    value is the next argument. *)
Definition read_option (a : ArgsParser) (arg : string) : Result (ArgSpec * option string) :=
  let '(token, inline) := split_inline arg in
  match resolve a arg token with
  | Fail code detail => Fail code detail
  | Done (spec, negated) =>
      match kind spec with
      | Flag => match flag_value arg negated inline with
                | Fail code detail => Fail code detail
                | Done v => Done (spec, Some v)
                end
      | _ => if negated then Fail "args.not_a_flag" token else Done (spec, inline)
      end
  end.

Definition commit (spec : ArgSpec) (v : string) (parsed : list Parsed) : Result (list Parsed) :=
  match find_parsed (name spec) parsed with
  | Some _ => Fail "args.duplicate_option" ("--" +:+ name spec)
  | None => Done (parsed ++ [mkParsed (name spec) v])%list
  end.

(** The value is tested if it is to be an integer, and committed. *)
Definition store (spec : ArgSpec) (v : string) (parsed : list Parsed) : Result (list Parsed) :=
  match kind spec, whole_int v with
  | Integer, None => Fail "args.invalid_integer" ("--" +:+ name spec +:+ "=" +:+ v)
  | _, _ => commit spec v parsed
  end.

Fixpoint parse_loop (a : ArgsParser) (options_ended : bool) (parsed : list Parsed) (positional args : list string)
  : Result (list Parsed * list string) :=
  match args with
  | [] => Done (parsed, positional)
  | arg :: args =>
      if options_ended || is_positional arg then parse_loop a options_ended parsed (positional ++ [arg]) args
      else if bool_decide (arg = "--") then parse_loop a true parsed positional args
      else
        match read_option a arg with
        | Fail code detail => Fail code detail
        | Done (spec, Some v) =>
            match store spec v parsed with
            | Fail code detail => Fail code detail
            | Done parsed => parse_loop a false parsed positional args
            end
        | Done (spec, None) =>
            match args with
            | [] => Fail "args.missing_value" ("--" +:+ name spec)
            | v :: args =>
                match store spec v parsed with
                | Fail code detail => Fail code detail
                | Done parsed => parse_loop a false parsed positional args
                end
            end
        end
  end.

(** [args] is [argv] without its first entry. *)
Definition Parse (args : list string) (a : ArgsParser) : Result unit * ArgsParser :=
  match parse_loop a false [] [] args with
  | Fail code detail => (Fail code detail, a)
  | Done (parsed, positional) => (Done tt, mkArgsParser (program_ a) (usage_ a) (specs_ a) parsed positional)
  end.

(** ** Help *)

Definition len (s : string) : Z := Z.of_nat (String.length s).

Fixpoint spaces (n : nat) : string := match n with O => "" | S n => " " +:+ spaces n end.

Definition help_entry (s : ArgSpec) : string :=
  (if bool_decide (short_name s = NUL) then "    " else "-" +:+ String (short_name s) ", ") +:+
  "--" +:+ name s +:+ (if bool_decide (value_hint s = "") then "" else " " +:+ value_hint s).

Definition help_width (specs : list ArgSpec) : Z := fold_left (fun width s => Z.max width (len (help_entry s))) specs 0.

(** One line; the padding is a difference of two [size_t]. *)
Definition help_line (width : Z) (s : ArgSpec) : string :=
  "  " +:+ help_entry s +:+ spaces (Z.to_nat (wrapu 64 (width - len (help_entry s)))) +:+ "  " +:+ help s +:+ String "010"%char "".

Definition concat (l : list string) : string := foldr (fun a b => a +:+ b) "" l.

Definition HelpText (a : ArgsParser) : string :=
  "Usage: " +:+ program_ a +:+ " " +:+ usage_ a +:+ String "010"%char (String "010"%char ("Options:" +:+ String "010"%char ""))
  +:+ concat (map (help_line (help_width (specs_ a))) (specs_ a)).

(** ** A grammar of command lines *)

(** What the assertions of [Add] ask of the table, and that names leave [=] and [-] to the
    parser. *)
Record Registered (specs : list ArgSpec) : Prop := {
  names_distinct : NoDup (map name specs);
  shorts_distinct : forall s t, s ∈ specs -> t ∈ specs -> short_name s = short_name t -> short_name s <> NUL -> s = t;
  names_plain : forall s, s ∈ specs -> Text.all not_equals (name s) = true /\ name s <> "";
  shorts_plain : forall s, s ∈ specs -> short_name s <> "="%char /\ short_name s <> "-"%char
}.

(** The two ways to name an option. *)
Inductive Names (specs : list ArgSpec) : string -> ArgSpec -> Prop :=
  | Names_long s : s ∈ specs -> Names specs ("--" +:+ name s) s
  | Names_short s : s ∈ specs -> short_name s <> NUL -> Names specs ("-" +:+ String (short_name s) "") s.

(** The words for a truth value, with the value that is kept. *)
Inductive Word : string -> string -> Prop :=
  | Word_true w : w ∈ kTrueWords -> Word w "1"
  | Word_false w : w ∈ kFalseWords -> Word w "0".

(** The spellings of a setting; [None] leaves the value to the next argument. *)
Inductive Spelled (specs : list ArgSpec) : string -> ArgSpec -> option string -> Prop :=
  | Spelled_flag token s : Names specs token s -> kind s = Flag -> Spelled specs token s (Some "1")
  | Spelled_word token s w v : Names specs token s -> kind s = Flag -> Word w v -> Spelled specs (token +:+ "=" +:+ w) s (Some v)
  | Spelled_negated s : s ∈ specs -> kind s = Flag -> "no-" +:+ name s ∉ map name specs ->
      Spelled specs ("--no-" +:+ name s) s (Some "0")
  | Spelled_inline token s v : Names specs token s -> kind s <> Flag -> Spelled specs (token +:+ "=" +:+ v) s (Some v)
  | Spelled_next token s : Names specs token s -> kind s <> Flag -> Spelled specs token s None.

(** A value an option of the kind can have. *)
Definition fits (s : ArgSpec) (v : string) : Prop :=
  match kind s with Flag => v = "0" \/ v = "1" | Str => True | Integer => is_Some (whole_int v) end.

Definition Setting : Type := ArgSpec * string.

(** The command lines, with the settings and the positional arguments they stand for. *)
Inductive Reads (specs : list ArgSpec) : list string -> list Setting -> list string -> Prop :=
  | Reads_end : Reads specs [] [] []
  | Reads_stop rest : Reads specs ("--" :: rest) [] rest
  | Reads_positional w args settings words : is_positional w = true -> Reads specs args settings words ->
      Reads specs (w :: args) settings (w :: words)
  | Reads_option arg s v args settings words : Spelled specs arg s (Some v) -> fits s v -> Reads specs args settings words ->
      Reads specs (arg :: args) ((s, v) :: settings) words
  | Reads_value arg s v args settings words : Spelled specs arg s None -> fits s v -> Reads specs args settings words ->
      Reads specs (arg :: v :: args) ((s, v) :: settings) words.

Definition to_parsed (st : Setting) : Parsed := mkParsed (name st.1) st.2.

(** ** Strings *)

Lemma strip_app p s : strip p (p +:+ s) = Some s.
Proof. induction p as [|c p IH]; [done|]. rewrite Text.append_cons. cbn. by rewrite bool_decide_true. Qed.

Lemma strip_Some p : forall s t, strip p s = Some t -> s = p +:+ t.
Proof.
  induction p as [|c p IH]; intros s t; cbn; [by intros [= ->]|]. destruct s as [|d s]; [done|].
  case_bool_decide as E; [|done]. subst. intros H%IH. by subst.
Qed.

Lemma span_all p s : Text.all p s = true -> Text.span p s = (s, "").
Proof. induction s as [|c s IH]; [done|]. cbn. intros [-> Hs]%andb_true_iff. by rewrite (IH Hs). Qed.

Lemma span_parts p s : s = (Text.span p s).1 +:+ (Text.span p s).2 /\ Text.all p (Text.span p s).1 = true /\
  match (Text.span p s).2 with EmptyString => True | String c _ => p c = false end.
Proof.
  induction s as [|c s IH]; [done|]. cbn. destruct (p c) eqn:E; [|done]. destruct (Text.span p s) as [x y]. cbn in *.
  rewrite E. destruct IH as (-> & -> & IH). done.
Qed.

Lemma append_empty (s : string) : s +:+ "" = s.
Proof. induction s as [|c s IH]; [done|]. by rewrite Text.append_cons, IH. Qed.

Lemma append_inj (p s t : string) : p +:+ s = p +:+ t -> s = t.
Proof. induction p as [|c p IH]; [done|]. rewrite !Text.append_cons. intros [= ?]. auto. Qed.

Lemma not_equals_spec c : not_equals c = false <-> c = "="%char.
Proof. unfold not_equals. case_bool_decide; naive_solver. Qed.

Lemma split_inline_some arg token v : Text.all not_equals token = true -> split_inline arg = (token, Some v) <-> arg = token +:+ "=" +:+ v.
Proof.
  intros Ht. unfold split_inline. split.
  - destruct (span_parts not_equals arg) as (E & _ & H). destruct (Text.span not_equals arg) as [x [|c y]]; [done|]. intros [= -> ->]. cbn in *.
    apply not_equals_spec in H as ->. done.
  - intros ->. change ("=" +:+ v) with (String "="%char v). by rewrite Text.span_stop.
Qed.

Lemma split_inline_none arg : Text.all not_equals arg = true -> split_inline arg = (arg, None).
Proof. intros H. unfold split_inline. by rewrite span_all. Qed.

(** What the split gives is the argument again. *)
Lemma split_inline_parts arg : exists token inline, split_inline arg = (token, inline) /\ Text.all not_equals token = true /\
  arg = token +:+ match inline with None => "" | Some v => "=" +:+ v end.
Proof.
  unfold split_inline. destruct (span_parts not_equals arg) as (E & H & G). destruct (Text.span not_equals arg) as [x [|c y]]; cbn in *.
  - exists x, None. auto.
  - apply not_equals_spec in G as ->. by exists x, (Some y).
Qed.

(** ** What the parser looks up *)

Lemma find_bool {A B} `{EqDecision B} (f : A -> B) l y :
  match List.find (fun x => bool_decide (f x = y)) l with
  | Some x => x ∈ l /\ f x = y
  | None => y ∉ map f l
  end.
Proof.
  induction l as [|x l IH]; cbn; [by intros ?%elem_of_nil|]. case_bool_decide as E; [split; [left|done]|].
  destruct (List.find _ l) as [z|].
  - destruct IH as [IH ->]. split; [by right|done].
  - intros [->|H]%elem_of_cons; auto.
Qed.

Lemma find_parsed_in n parsed : match find_parsed n parsed with Some p => p ∈ parsed /\ parsed_name p = n | None => n ∉ map parsed_name parsed end.
Proof. apply find_bool. Qed.

Section Table.
Context (a : ArgsParser) (WF : Registered (specs_ a)).

Lemma same_name s t : s ∈ specs_ a -> t ∈ specs_ a -> name s = name t -> s = t.
Proof.
  intros Hs Ht E. pose proof (names_distinct _ WF) as ND. revert Hs Ht. clear WF. induction (specs_ a) as [|x l IH]; [by intros ?%elem_of_nil|].
  cbn in ND. apply NoDup_cons in ND as [N ND]. assert (forall z, z ∈ l -> name z ∈ map name l) as M by (intros z Hz; by apply (list_elem_of_fmap_2 name)).
  intros [->|Hs]%elem_of_cons [->|Ht]%elem_of_cons; auto.
  - destruct N. rewrite E. auto.
  - destruct N. rewrite <- E. auto.
Qed.

Lemma FindLong_spec n s : FindLong a n = Some s <-> s ∈ specs_ a /\ name s = n.
Proof.
  unfold FindLong. pose proof (find_bool name (specs_ a) n) as H. destruct (List.find _ _) as [t|].
  - destruct H as [Ht <-]. split; [by intros [= ->]|]. intros [Hs E]. f_equal. by apply same_name.
  - split; [done|]. intros [Hs <-]. destruct H. by apply (list_elem_of_fmap_2 name).
Qed.

Lemma FindLong_none n : FindLong a n = None <-> n ∉ map name (specs_ a).
Proof.
  unfold FindLong. pose proof (find_bool name (specs_ a) n) as H. destruct (List.find _ _) as [t|]; [|done].
  destruct H as [Ht <-]. split; [done|]. intros []. by apply (list_elem_of_fmap_2 name).
Qed.

Lemma FindShort_spec c s : FindShort a c = Some s <-> s ∈ specs_ a /\ short_name s = c /\ c <> NUL.
Proof.
  unfold FindShort. case_bool_decide as E; [naive_solver|]. pose proof (find_bool short_name (specs_ a) c) as H. destruct (List.find _ _) as [t|].
  - destruct H as [Ht <-]. split; [by intros [= ->]|]. intros (Hs & Es & _). f_equal. by apply (shorts_distinct _ WF).
  - split; [done|]. intros (Hs & <- & _). destruct H. by apply (list_elem_of_fmap_2 short_name).
Qed.

(** Tokens have no equals sign, and a name of two dashes is long. *)
Lemma Names_plain token s : Names (specs_ a) token s -> Text.all not_equals token = true /\ is_positional token = false /\ token <> "--" /\
  exists rest, token = String "-" rest.
Proof.
  destruct 1 as [s Hs|s Hs N].
  - destruct (names_plain _ WF s Hs) as [P NE]. split_and!; [by rewrite Text.all_app, P| |intros E|by eexists].
    + cbn. done.
    + by apply (append_inj "--" (name s) "") in E.
  - destruct (shorts_plain _ WF s Hs) as [P1 P2]. split_and!; [|by cbn|intros [= E]; done|by eexists].
    change (not_equals "-" && (not_equals (short_name s) && true) = true).
    destruct (not_equals (short_name s)) eqn:E; [done|]. by apply not_equals_spec in E.
Qed.

Lemma resolve_named arg rest s : resolve a arg (String "-" rest) = Done (s, false) <-> Names (specs_ a) (String "-" rest) s.
Proof.
  unfold resolve. split.
  - destruct (strip "--" (String "-" rest)) as [n|] eqn:E.
    + apply strip_Some in E as ->. destruct (FindLong a n) as [t|] eqn:F.
      * intros [= ->]. apply FindLong_spec in F as [F <-]. by constructor.
      * destruct (strip "no-" n) as [m|]; [|done]. by destruct (FindLong a m).
    + destruct rest as [|c []]; try done. destruct (FindShort a c) as [t|] eqn:F; [|done]. intros [= ->].
      apply FindShort_spec in F as (F & <- & N). by apply (Names_short _ s).
  - inversion 1 as [t Ht E|t Ht N E]; subst.
    + change (String "-" ("-" +:+ name s)) with ("--" +:+ name s). rewrite strip_app.
      by rewrite (proj2 (FindLong_spec (name s) s)).
    + destruct (shorts_plain _ WF s Ht) as [_ P].
      assert (strip "--" (String "-" ("" +:+ String (short_name s) "")) = None) as ->.
      { destruct (strip "--" _) eqn:D; [|done]. apply strip_Some in D. by injection D. }
      cbv beta iota zeta delta [String.append].
      by rewrite (proj2 (FindShort_spec (short_name s) s)).
Qed.

Lemma resolve_negated arg rest s : resolve a arg (String "-" rest) = Done (s, true) <->
  String "-" rest = "--no-" +:+ name s /\ s ∈ specs_ a /\ "no-" +:+ name s ∉ map name (specs_ a).
Proof.
  unfold resolve. split.
  - destruct (strip "--" (String "-" rest)) as [n|] eqn:E.
    + apply strip_Some in E as ->. destruct (FindLong a n) as [t|] eqn:F; [done|]. apply FindLong_none in F.
      destruct (strip "no-" n) as [m|] eqn:G; [|done]. apply strip_Some in G as ->. destruct (FindLong a m) as [t|] eqn:L; [|done].
      intros [= ->]. apply FindLong_spec in L as [L <-]. done.
    + destruct rest as [|c []]; try done. by destruct (FindShort a c).
  - intros (-> & Hs & N). change ("--no-" +:+ name s) with ("--" +:+ ("no-" +:+ name s)). rewrite strip_app.
    rewrite (proj2 (FindLong_none _) N), strip_app. by rewrite (proj2 (FindLong_spec (name s) s)).
Qed.

Lemma flag_value_word arg w v : flag_value arg false (Some w) = Done v <-> Word w v.
Proof.
  unfold flag_value, Contains. split.
  - case_bool_decide; [intros [= <-]; by constructor|]. case_bool_decide; [intros [= <-]; by constructor|done].
  - destruct 1 as [w H|w H]; [by rewrite bool_decide_true|]. unfold kFalseWords in H.
    repeat (apply elem_of_cons in H as [->|H]; [done|]). by apply elem_of_nil in H.
Qed.

(** An option is read exactly as one of its spellings. *)
Lemma read_option_spec arg s ov : is_positional arg = false -> read_option a arg = Done (s, ov) <-> Spelled (specs_ a) arg s ov.
Proof.
  intros NP. unfold read_option. split.
  - destruct (split_inline_parts arg) as (token & inline & -> & Ht & Ea).
    assert (exists rest, token = String "-" rest) as [rest ->].
    { destruct token as [|c token].
      - destruct inline; subst arg; done.
      - exists token. subst arg. rewrite Text.append_cons in NP. cbn in NP. apply orb_false_iff in NP as [NP _]. apply negb_false_iff, bool_decide_eq_true in NP. by subst. }
    destruct (resolve a arg _) as [[t negated]|] eqn:R; [|done]. destruct negated.
    + apply resolve_negated in R as (E & Hs & N). destruct (kind t) eqn:K; try done. destruct inline; [done|]. cbn [flag_value]. intros [= <- <-].
      rewrite Ea, append_empty, E. by constructor.
    + apply resolve_named in R. destruct (kind t) eqn:K; [|intros [= <- <-]..].
      * destruct inline as [w|].
        -- destruct (flag_value arg false (Some w)) as [v|] eqn:F; [|done]. intros [= <- <-]. apply flag_value_word in F. rewrite Ea. by constructor.
        -- cbn [flag_value]. intros [= <- <-]. rewrite Ea, append_empty. by constructor.
      * destruct inline; rewrite Ea, ?append_empty; constructor; congruence.
      * destruct inline; rewrite Ea, ?append_empty; constructor; congruence.
  - assert (forall token t, Names (specs_ a) token t -> forall arg, resolve a arg token = Done (t, false)) as R.
    { intros token t H arg'. destruct (Names_plain _ _ H) as (_ & _ & _ & rest & ->). by apply resolve_named. }
    destruct 1 as [token s N K|token s w v N K W|s Hs K N|token s v N K|token s N K].
    + rewrite split_inline_none by apply (Names_plain _ _ N). by rewrite (R _ _ N), K.
    + rewrite (proj2 (split_inline_some _ token w (proj1 (Names_plain _ _ N)))) by done. rewrite (R _ _ N), K.
      by rewrite (proj2 (flag_value_word _ w v)).
    + rewrite split_inline_none by (rewrite Text.all_app; by rewrite (proj1 (names_plain _ WF s Hs))).
      change ("--no-" +:+ name s) with (String "-" ("-no-" +:+ name s)). rewrite (proj2 (resolve_negated _ _ s)) by done. by rewrite K.
    + rewrite (proj2 (split_inline_some _ token v (proj1 (Names_plain _ _ N)))) by done. rewrite (R _ _ N). by destruct (kind s).
    + rewrite split_inline_none by apply (Names_plain _ _ N). rewrite (R _ _ N). by destruct (kind s).
Qed.

(** A spelling is an option to the parser. *)
Lemma Spelled_option arg s ov : Spelled (specs_ a) arg s ov -> is_positional arg = false /\ arg <> "--".
Proof.
  assert (forall token t, Names (specs_ a) token t -> forall x, is_positional (token +:+ "=" +:+ x) = false /\ token +:+ "=" +:+ x <> "--") as E.
  { intros token t H x. assert (Text.all not_equals (token +:+ "=" +:+ x) = false) as F by (rewrite !Text.all_app; apply andb_false_r).
    destruct (Names_plain _ _ H) as (_ & _ & _ & rest & ->). rewrite Text.append_cons in *. split; [|intros D; by rewrite D in F].
    unfold is_positional. case_bool_decide; [|done]. cbn [negb orb]. by apply bool_decide_eq_false; intros D; rewrite D in F. }
  destruct 1 as [token s N K|token s w v N K W|s Hs K N|token s v N K|token s N K]; [|by eauto|done|by eauto|];
    by destruct (Names_plain _ _ N) as (_ & ? & ? & _).
Qed.

Lemma flag_fits arg s v : Spelled (specs_ a) arg s (Some v) -> kind s = Flag -> v = "0" \/ v = "1".
Proof. inversion 1 as [| ? ? ? ? ? ? W | | |]; subst; auto; [destruct W; auto|done]. Qed.

Lemma store_spec s v parsed parsed' : store s v parsed = Done parsed' <->
  (kind s = Integer -> is_Some (whole_int v)) /\ name s ∉ map parsed_name parsed /\ parsed' = (parsed ++ [to_parsed (s, v)])%list.
Proof.
  assert (commit s v parsed = Done parsed' <-> name s ∉ map parsed_name parsed /\ parsed' = (parsed ++ [to_parsed (s, v)])%list) as C.
  { unfold commit. pose proof (find_parsed_in (name s) parsed) as F. destruct (find_parsed _ _) as [p|].
    - destruct F as [F <-]. split; [done|]. intros [[] _]. by apply (list_elem_of_fmap_2 parsed_name).
    - split; [by intros [= <-]|]. by intros [_ ->]. }
  unfold store. destruct (kind s); rewrite ?C; try naive_solver. destruct (whole_int v); rewrite ?C; naive_solver.
Qed.

(** Settings that clash neither with each other nor with what was given before. *)
Definition fresh (parsed : list Parsed) (settings : list Setting) : Prop :=
  NoDup (map (fun st => name st.1) settings) /\ Forall (fun st => name st.1 ∉ map parsed_name parsed) settings.

Lemma fresh_cons parsed s v settings : fresh parsed ((s, v) :: settings) <->
  name s ∉ map parsed_name parsed /\ fresh (parsed ++ [to_parsed (s, v)]) settings.
Proof.
  unfold fresh. cbn. rewrite NoDup_cons, Forall_cons, map_app. cbn.
  assert (Forall (fun st : Setting => name st.1 ∉ (map parsed_name parsed ++ [name s])%list) settings <->
    Forall (fun st : Setting => name st.1 ∉ map parsed_name parsed) settings /\ name s ∉ map (fun st : Setting => name st.1) settings) as ->; [|tauto].
  rewrite !Forall_forall. setoid_rewrite not_elem_of_app. setoid_rewrite list_elem_of_singleton. split.
  - intros H. split; [intros st Hst; by apply H|]. intros (st & E & Hst)%list_elem_of_fmap. by destruct (H st Hst).
  - intros [H1 H2] st Hst. split; [by apply H1|]. intros E. destruct H2. rewrite <- E. by apply (list_elem_of_fmap_2 (fun st : Setting => name st.1)).
Qed.

Lemma loop_ended parsed args : forall positional, parse_loop a true parsed positional args = Done (parsed, (positional ++ args)%list).
Proof. induction args as [|arg args IH]; intros positional; cbn; [by rewrite app_nil_r|]. rewrite IH. by rewrite <- (assoc_L app). Qed.

(** What has been read so far is extended by what the rest of the line stands for. *)
Definition reads_on (parsed parsed' : list Parsed) (positional positional' args : list string) : Prop :=
  exists settings words, Reads (specs_ a) args settings words /\ fresh parsed settings /\
    parsed' = (parsed ++ map to_parsed settings)%list /\ positional' = (positional ++ words)%list.

Lemma reads_on_positional parsed parsed' positional positional' w args : is_positional w = true ->
  reads_on parsed parsed' positional positional' (w :: args) <-> reads_on parsed parsed' (positional ++ [w]) positional' args.
Proof.
  intros P. unfold reads_on. split; intros (settings & words & R & F & -> & ->).
  - inversion R as [|? E|? ? ? ? _ R'|? ? ? ? ? ? S|? ? ? ? ? ? S]; subst;
      [done| |destruct (Spelled_option _ _ _ S); congruence..].
    eexists _, _. split_and!; [done..|]. by rewrite <- (assoc_L app).
  - exists settings, (w :: words). split_and!; [by constructor|done..|]. by rewrite <- (assoc_L app).
Qed.

Lemma reads_on_option parsed parsed' positional positional' arg s v args rest :
  is_positional arg = false -> arg <> "--" ->
  (read_option a arg = Done (s, Some v) /\ args = rest \/ read_option a arg = Done (s, None) /\ args = v :: rest) ->
  reads_on parsed parsed' positional positional' (arg :: args) <->
  exists parsed1, store s v parsed = Done parsed1 /\ reads_on parsed1 parsed' positional positional' rest.
Proof.
  intros NP ND H.
  assert (forall settings words, Reads (specs_ a) (arg :: args) settings words <->
    exists settings1, settings = (s, v) :: settings1 /\ fits s v /\ Reads (specs_ a) rest settings1 words) as C.
  { intros settings words. destruct H as [[H ->]|[H ->]]; pose proof H as H'; apply read_option_spec in H; try done; split.
    - inversion 1 as [|? E|? ? ? ? P|? ? ? ? ? ? S|? ? ? ? ? ? S]; subst; try congruence; apply read_option_spec in S; try done; [|congruence].
      assert (s0 = s /\ v0 = v) as [-> ->] by (split; congruence). eauto.
    - intros (settings1 & -> & F & R). by apply Reads_option.
    - inversion 1 as [|? E|? ? ? ? P|? ? ? ? ? ? S|? ? ? ? ? ? S]; subst; try congruence; apply read_option_spec in S; try done; [congruence|].
      assert (s0 = s) as -> by congruence. eauto.
    - intros (settings1 & -> & F & R). by apply Reads_value. }
  unfold reads_on. split.
  - intros (settings & words & (settings1 & -> & F & R)%C & [Hn Hf]%fresh_cons & -> & ->). eexists. split.
    + apply store_spec. split_and!; [|done..]. intros K. unfold fits in F. by rewrite K in F.
    + exists settings1, words. split_and!; [done..| |done]. cbn. by rewrite <- (assoc_L app).
  - intros (parsed1 & (Hi & Hn & ->)%store_spec & settings1 & words & R & Hf & -> & ->).
    exists ((s, v) :: settings1), words. split_and!; [| |cbn; by rewrite <- (assoc_L app)|done].
    + apply C. exists settings1. split_and!; [done| |done]. unfold fits. destruct (kind s) eqn:K; [|done|by apply Hi].
      destruct H as [[H _]|[H _]]; apply read_option_spec in H; try done; [by eapply flag_fits|].
      inversion H; congruence.
    + by apply fresh_cons.
Qed.

(** The loop reads what the grammar reads. *)
Lemma loop_reads n : forall args parsed parsed' positional positional', (length args <= n)%nat ->
  parse_loop a false parsed positional args = Done (parsed', positional') <-> reads_on parsed parsed' positional positional' args.
Proof.
  induction n as [|n IH]; intros [|arg args] parsed parsed' positional positional' Hn; cbn in Hn; try lia.
  1,2: cbn; split; [intros [= <- <-]; exists [], []; rewrite !app_nil_r; split_and!; [constructor|split; constructor|done..]|].
  1,2: intros (settings & words & R & _ & -> & ->); inversion R; subst; cbn; by rewrite !app_nil_r.
  cbn [parse_loop orb]. destruct (is_positional arg) eqn:P; [rewrite reads_on_positional by done; apply IH; lia|].
  case_bool_decide as D.
  - subst arg. rewrite loop_ended. split.
    + intros [= <- <-]. exists [], args. rewrite app_nil_r. split_and!; [constructor|split; constructor|done..].
    + intros (settings & words & R & _ & -> & ->). inversion R; subst; cbn; [by rewrite app_nil_r|done|..];
        match goal with S : Spelled _ _ _ _ |- _ => by destruct (Spelled_option _ _ _ S) end.
  - destruct (read_option a arg) as [[s [v|]]|] eqn:O.
    + rewrite (reads_on_option _ _ _ _ _ s v args args P D ltac:(auto)). destruct (store s v parsed) as [parsed1|] eqn:St.
      * rewrite IH by lia. naive_solver.
      * naive_solver.
    + destruct args as [|v args].
      * split; [done|]. intros (settings & words & R & _). inversion R as [| | |? ? ? ? ? ? S|]; subst; try congruence.
        apply (read_option_spec _ _ _ P) in S. congruence.
      * rewrite (reads_on_option _ _ _ _ _ s v (v :: args) args P D ltac:(auto)). destruct (store s v parsed) as [parsed1|] eqn:St.
        -- rewrite IH by (cbn in *; lia). naive_solver.
        -- naive_solver.
    + split; [done|]. intros (settings & words & R & _). inversion R as [| | |? ? ? ? ? ? S|? ? ? ? ? ? S]; subst; try congruence;
        apply (read_option_spec _ _ _ P) in S; congruence.
Qed.
End Table.

(** ** Theorems *)

(** C23: The parser refines the grammar of command lines.  It accepts a command line exactly
    if the line reads as settings of registered options in their spellings, each with a value
    of its kind and no option twice, and positional arguments; then these settings and words,
    in order, are what it keeps.  It refuses every other line and keeps nothing of it. *)
Theorem parse_refines_grammar (a : ArgsParser) (WF : Registered (specs_ a)) (args : list string) :
  (forall settings words, Reads (specs_ a) args settings words -> NoDup (map (fun st => name st.1) settings) ->
     Parse args a = (Done tt, mkArgsParser (program_ a) (usage_ a) (specs_ a) (map to_parsed settings) words)) /\
  (forall a', Parse args a = (Done tt, a') -> exists settings words, Reads (specs_ a) args settings words /\
     NoDup (map (fun st => name st.1) settings) /\ parsed_ a' = map to_parsed settings /\ positional_ a' = words) /\
  (forall code detail a', Parse args a = (Fail code detail, a') -> a' = a).
Proof.
  unfold Parse. split_and!.
  - intros settings words R ND.
    assert (parse_loop a false [] [] args = Done (map to_parsed settings, words)) as ->; [|done].
    apply (loop_reads a WF (length args)); [done|]. exists settings, words. split_and!; [done| |done..].
    split; [done|]. apply Forall_forall. intros st _. apply not_elem_of_nil.
  - intros a'. destruct (parse_loop _ _ _ _ _) as [[parsed positional]|] eqn:E; [|done]. intros [= <-].
    apply (loop_reads a WF (length args)) in E as (settings & words & R & [ND _] & -> & ->); [|done]. by exists settings, words.
  - intros code detail a'. destruct (parse_loop _ _ _ _ _) as [[]|]; [done|]. by intros [= _ _ ->].
Qed.

(** What a read setting has as its value. *)
Lemma Reads_fits specs args settings words : Reads specs args settings words -> Forall (fun st => st.1 ∈ specs /\ fits st.1 st.2) settings.
Proof.
  assert (forall arg s ov, Spelled specs arg s ov -> s ∈ specs) as M.
  { intros arg s ov. destruct 1 as [? ? N|? ? ? ? N|? ? ? N|? ? ? N|? ? N]; try done; by destruct N. }
  induction 1; eauto; constructor; eauto.
Qed.

Lemma find_parsed_NoDup settings st : st ∈ settings -> NoDup (map (fun st => name st.1) settings) ->
  find_parsed (name st.1) (map to_parsed settings) = Some (to_parsed st).
Proof.
  induction settings as [|x settings IH]; [by intros ?%elem_of_nil|]. cbn. intros H [N ND]%NoDup_cons. case_bool_decide as E.
  - apply elem_of_cons in H as [->|H]; [done|]. destruct N. rewrite E. by apply (list_elem_of_fmap_2 (fun st : Setting => name st.1)).
  - apply elem_of_cons in H as [->|H]; [done|]. by apply IH.
Qed.

(** C35: What the parser keeps is typed.  After a command line has been accepted, an option that
    was given has a value of its kind and the accessor of that kind returns it, never the
    fallback: the integer that was written, in 64 bits; the truth value; the text.  An option
    that was not given has the fallback. *)
Theorem accessors_typed (a a' : ArgsParser) (WF : Registered (specs_ a)) (args : list string) (Hp : Parse args a = (Done tt, a'))
  (s : ArgSpec) (Hs : s ∈ specs_ a) :
  match Find a' (name s) with
  | None => forall f i b, Has a' (name s) = false /\ GetString a' (name s) f = f /\ GetInt a' (name s) i = i /\ GetBool a' (name s) b = b
  | Some p => Has a' (name s) = true /\ (forall f, GetString a' (name s) f = value p) /\
      match kind s with
      | Flag => exists b : bool, (value p = if b then "1" else "0") /\ forall f, GetBool a' (name s) f = b
      | Str => True
      | Integer => exists n, whole_int (value p) = Some n /\ i64 n /\ forall f, GetInt a' (name s) f = n
      end
  end.
Proof.
  unfold Has, GetString, GetInt, GetBool. destruct (Find a' (name s)) as [p|] eqn:F; [|done]. split_and!; [done..|].
  assert (exists v, p = mkParsed (name s) v /\ fits s v) as (v & -> & Hf).
  { unfold Parse in Hp. destruct (parse_loop _ _ _ _ _) as [[parsed positional]|] eqn:E; [|done]. injection Hp as <-.
    apply (loop_reads a WF (length args)) in E as (settings & words & R & [ND _] & -> & ->); [|done].
    pose proof (find_parsed_in (name s) (map to_parsed settings)) as I. unfold Find in F. cbn [parsed_] in F. change ([] ++ map to_parsed settings)%list with (map to_parsed settings) in F.
    rewrite F in I. destruct I as [I En]. apply list_elem_of_fmap in I as ([t v] & -> & I).
    apply Reads_fits in R. rewrite Forall_forall in R. destruct (R _ I) as [Ht Hf]. cbn in *.
    rewrite (same_name a WF t s Ht Hs En) in *. by exists v. }
  unfold fits in Hf. destruct (kind s); [|done|]; cbn.
  - destruct Hf as [->| ->]; [exists false|exists true]; by split.
  - destruct Hf as [n Hn]. exists n. rewrite Hn. split_and!; [done| |done]. revert Hn. unfold whole_int, from_chars.
    destruct (match v with String "-" s => _ | _ => _ end) as [neg t]. destruct (Text.span _ t) as [[|c digits] rest]; [done|].
    destruct (_ && _) eqn:B; [|done]. destruct rest; [|done]. intros [= <-]. bprop. by split.
Qed.

(** ** Help *)

Lemma length_append (x y : string) : String.length (x +:+ y) = (String.length x + String.length y)%nat.
Proof. induction x as [|c x IH]; [done|]. rewrite Text.append_cons. cbn. by rewrite IH. Qed.

Lemma length_spaces n : String.length (spaces n) = n.
Proof. induction n as [|n IH]; [done|]. cbn [spaces]. by rewrite length_append, IH. Qed.

Lemma help_width_bound specs s : s ∈ specs -> len (help_entry s) <= help_width specs.
Proof.
  unfold help_width. generalize 0 as w. assert (forall l w, w <= fold_left (fun width s => Z.max width (len (help_entry s))) l w) as M.
  { induction l as [|x l IH]; intros w; cbn; [lia|]. etrans; [|apply IH]. lia. }
  induction specs as [|x specs IH]; intros w; [by intros ?%elem_of_nil|]. cbn. intros [->|H]%elem_of_cons; [|by apply IH].
  etrans; [|apply M]. lia.
Qed.

(** The help texts start in one column: the padding never wraps around. *)
Lemma help_aligned a s : s ∈ specs_ a -> help_width (specs_ a) < 2 ^ 64 ->
  exists left, help_line (help_width (specs_ a)) s = left +:+ help s +:+ String "010"%char "" /\ len left = help_width (specs_ a) + 4.
Proof.
  intros Hs Hw. pose proof (help_width_bound _ _ Hs) as B.
  exists ("  " +:+ help_entry s +:+ spaces (Z.to_nat (help_width (specs_ a) - len (help_entry s))) +:+ "  "). split.
  - unfold help_line. rewrite wrapu_small by (unfold len in *; lia). by rewrite <- !(assoc_L String.append).
  - unfold len in *. rewrite !length_append, length_spaces. cbn [String.length]. lia.
Qed.

(** ** Examples *)

Definition example_parser : ArgsParser :=
  Add (mkArgSpec "listen" Flag "" "" NUL) (Add (mkArgSpec "rpcport" Integer "<port>" "RPC port." "p"%char)
    (Add (mkArgSpec "datadir" Str "<dir>" "" NUL) (new_ArgsParser "amariand" "[options]"))).

Lemma example_registered : Registered (specs_ example_parser).
Proof.
  split.
  - apply (bool_decide_unpack _). by vm_compute.
  - intros s t Hs Ht E N. cbn in Hs, Ht. rewrite !elem_of_cons, elem_of_nil in Hs. rewrite !elem_of_cons, elem_of_nil in Ht.
    destruct Hs as [->|[->|[->|[]]]], Ht as [->|[->|[->|[]]]]; first [reflexivity|by destruct N|discriminate E].
  - apply Forall_forall. repeat constructor; done.
  - apply Forall_forall. repeat constructor; done.
Qed.

Definition example_line : list string := ["--no-listen"; "start"; "-p"; "-8"; "--datadir=--x=y"; "--"; "--listen"].

Lemma parse_refines_grammar_witness :
  Parse example_line example_parser = (Done tt, mkArgsParser "amariand" "[options]" (specs_ example_parser)
    [mkParsed "listen" "0"; mkParsed "rpcport" "-8"; mkParsed "datadir" "--x=y"] ["start"; "--listen"]) /\
  Parse ["--datadir=a"; "--datadir=b"] example_parser = (Fail "args.duplicate_option" "--datadir", example_parser) /\
  exists settings words, Reads (specs_ example_parser) example_line settings words.
Proof.
  split; [by vm_compute|]. split; [by vm_compute|].
  destruct (proj1 (proj2 (parse_refines_grammar example_parser example_registered example_line)) _ eq_refl) as (settings & words & R & _).
  by exists settings, words.
Defined.

Lemma accessors_typed_witness :
  exists a', Parse example_line example_parser = (Done tt, a') /\
    exists n, whole_int "-8" = Some n /\ i64 n /\ forall f, GetInt a' "rpcport" f = n.
Proof.
  eexists. split; [reflexivity|].
  exact (proj2 (proj2 (accessors_typed example_parser _ example_registered example_line eq_refl
    (mkArgSpec "rpcport" Integer "<port>" "RPC port." "p"%char) ltac:(apply (bool_decide_unpack _); by vm_compute)))).
Defined.
End Args.
