(* ===== verification/Explorer.v ===== *)
(** * The explorer (explorer/http_api.cpp, explorer/server.cpp)

    The read-only view of the chain: routes and their JSON, the test of the request, and a
    connection from its first byte to its answer. *)

From Stdlib Require Import String.
From S2P Require Import Prelude Overflow Serialize Hex Text Crypto Primitives Work Params Validation BlockIndex Coins Connect BlockStore ChainState Mempool MempoolInv Daemon JsonValue Http Rpc.
From stdpp Require Import gmap strings.
#[local] Open Scope Z_scope.

Module Explorer.
Import BlockIndex ChainState JsonValue Http.

#[local] Abbreviation encode := Serialize.encode.

Definition MAX_PATH_LENGTH : Z := 256.

Record ExplorerReply := mkReply { http_status : Z; reply_body : bytes; content_type : bytes }.

Definition HTML : bytes := str "text/html; charset=utf-8".

(** A path without the slashes in front. *)
Fixpoint strip_slashes (path : bytes) : bytes :=
  match path with
  | c :: rest => if bool_decide (c = SLASH) then strip_slashes rest else path
  | [] => []
  end.

(** The parts between slashes that are not empty; a turn takes something off the path, so
    its length is enough fuel. *)
Fixpoint segments (fuel : nat) (path : bytes) : list bytes :=
  match fuel, path with
  | _, [] => []
  | O, _ => []
  | S fuel, _ =>
      let slash := find [SLASH] path in
      let seg := before slash path in
      let more := match slash with None => [] | Some _ => segments fuel (after 1 slash path) end in
      if bool_decide (seg = []) then more else seg :: more
  end.

Definition PathSegments (path : bytes) : list bytes := let path := strip_slashes path in segments (length path) path.

Definition ParseHash (hex : bytes) : option bytes :=
  match Hex.FromHex hex with
  | Some bs => if negb (zlen bs =? 32) then None else Hex.Hash256_FromBytes bs
  | None => None
  end.

Fixpoint uint32_loop (value : Z) (text : bytes) : option Z :=
  match text with
  | [] => Some value
  | c :: text =>
      if (char_value c <? 48) || (char_value c >? 57) then None
      else
        let digit := wrapu 32 (char_value c - 48) in
        if value >? wrapu 32 (2 ^ 32 - 1 - digit) / 10 then None
        else uint32_loop (wrapu 32 (wrapu 32 (value * 10) + digit)) text
  end.
Definition ParseUint32 (text : bytes) : option Z := if bool_decide (text = []) then None else uint32_loop 0 text.

Section json.
Context `{JsonText}.

Definition reply_json (status : Z) (v : json) : ExplorerReply := mkReply status (dump v) APPLICATION_JSON.

Definition NotFound (detail : bytes) : ExplorerReply := reply_json 404 (object [("error", text "not_found"); ("detail", JString detail)]%string).
Definition BadRequest (detail : bytes) : ExplorerReply := reply_json 400 (object [("error", text "bad_request"); ("detail", JString detail)]%string).
End json.

Definition BlockJson (e : BlockIndexEntry) : json :=
  object [("hash", Rpc.hash_hex (ent_hash e)); ("height", JUnsigned (ent_height e)); ("work", JString (Work.ToHex (ent_total_work e)));
          ("timestamp", JInteger (hdr_timestamp (ent_header e))); ("target_bits", JUnsigned (hdr_target_bits (ent_header e)));
          ("version", JUnsigned (hdr_version (ent_header e))); ("nonce", JUnsigned (hdr_nonce (ent_header e)));
          ("prev_block", Rpc.hash_hex (hdr_prev_block (ent_header e))); ("merkle_root", Rpc.hash_hex (hdr_merkle_root (ent_header e)))]%string.

Section view.
Context `{Mempool.HashOrder} {V D K : Type} `{JsonText}.
#[local] Abbreviation state := (ChainState V D K).

(** The page, and the reply for it. *)
Context (EXPLORER_PAGE : bytes).

Definition tip_entry (s : state) : option BlockIndexEntry := Tip s ≫= Find (index_ s).

Definition TipJson (s : state) : option json := BlockJson <$> tip_entry s.

(** An entry of the list; the rate is a division of signed numbers. *)
Definition entry_json (p : Mempool.Mempool) (id : bytes) : option json :=
  e ← Mempool.Find p id;
  Some (object [("wtxid", Rpc.hash_hex id); ("txid", Rpc.hash_hex (Mempool.ent_txid e)); ("fee", JInteger (Mempool.ent_fee e));
                ("weight", JUnsigned (Mempool.ent_weight e));
                ("fee_rate", JInteger (if (Mempool.ent_weight e =? 0)%Z then 0 else Z.quot (Mempool.ent_fee e) (to_i64 (Mempool.ent_weight e))))]%string).

Definition MempoolJson (pool : option Mempool.Mempool) : json :=
  match pool with
  | None => JArray []
  | Some p => if Mempool.Size p =? 0 then JArray [] else JArray (omap (entry_json p) (Mempool.Wtxids p))
  end.

Definition StatusJson (s : state) (pool : option Mempool.Mempool) : option json :=
  tip ← tip_entry s;
  Some (object [("best_block_hash", Rpc.hash_hex (ent_hash tip)); ("blocks", JUnsigned (ent_height tip));
                ("mempool_size", JUnsigned (match pool with Some p => Mempool.Size p | None => 0 end));
                ("mempool_weight", JUnsigned (match pool with Some p => Mempool.TotalWeight p | None => 0 end));
                ("mempool_fees", JInteger (match pool with Some p => Mempool.TotalFees p | None => 0 end))]%string).

(** [None] is the null pointer a chain without a tip would give. *)
Definition Route (s : state) (pool : option Mempool.Mempool) (path : bytes) : option ExplorerReply :=
  if bool_decide (path = []) || bool_decide (path = [SLASH]) then Some (mkReply 200 EXPLORER_PAGE HTML)
  else if zlen path >? MAX_PATH_LENGTH then
    Some (reply_json 414 (object [("error", text "uri_too_long"); ("detail", text "path exceeds maximum length")]%string))
  else match PathSegments path with
  | [] => Some (reply_json 200 (object [("service", text "amarian explorer API"); ("version", text "0.1")]%string))
  | first :: rest =>
      if bool_decide (first = str "tip") && bool_decide (rest = []) then reply_json 200 <$> TipJson s
      else if bool_decide (first = str "status") && bool_decide (rest = []) then reply_json 200 <$> StatusJson s pool
      else if bool_decide (first = str "mempool") && bool_decide (rest = []) then Some (reply_json 200 (MempoolJson pool))
      else match rest with
      | [argument] =>
          if bool_decide (first = str "block") then
            match ParseHash argument with
            | None => Some (BadRequest (str "block hash must be 64 hex characters (32 bytes)"))
            | Some hash =>
                tip ← tip_entry s;
                match List.find (fun h => bool_decide (AtHeight (chain_ s) h = Some hash)) (Rpc.heights (ent_height tip)) with
                | None => Some (NotFound (str "block not found on the active chain"))
                | Some _ => e ← Find (index_ s) hash; Some (reply_json 200 (BlockJson e))
                end
            end
          else if bool_decide (first = str "block-at") then
            match ParseUint32 argument with
            | None => Some (BadRequest (str "height must be a non-negative integer"))
            | Some height =>
                match AtHeight (chain_ s) height with
                | None => Some (NotFound (str "no block at that height"))
                | Some hash => e ← Find (index_ s) hash; Some (reply_json 200 (BlockJson e))
                end
            end
          else Some (NotFound (str "unknown endpoint: /" ++ first))
      | _ => Some (NotFound (str "unknown endpoint: /" ++ first))
      end
  end.

(** ** The listener *)

Definition MAX_REQUEST : Z := 4096.

Definition CRLF : bytes := LINE_TERMINATOR.

Definition Response (status : Z) (reason body type : bytes) : bytes :=
  str "HTTP/1.1 " ++ to_chars status ++ [SP] ++ reason ++ CRLF ++ str "Content-Type: " ++ type ++ CRLF ++ str "Content-Length: " ++ to_chars (zlen body) ++
  CRLF ++ str "Connection: close" ++ CRLF ++ str "X-Content-Type-Options: nosniff" ++ HEADER_TERMINATOR ++ body.

Definition ErrorResponse (status : Z) (reason detail : string) : bytes :=
  Response status (str reason) (dump (object [("error", JInteger status); ("detail", text detail)]%string)) APPLICATION_JSON.

(** The lines after the first; each is taken off the text, so its length is enough fuel. *)
Fixpoint scan_header (fuel : nat) (rest name : bytes) : bytes :=
  match fuel with
  | O => []
  | S fuel =>
      match find CRLF rest with
      | None | Some O => []
      | Some line_end =>
          let line := take line_end rest in
          let rest := drop (line_end + 2) rest in
          match find [COLON] line with
          | Some colon => if bool_decide (take colon line = name) then trim_front (drop (colon + 1) line) else scan_header fuel rest name
          | None => scan_header fuel rest name
          end
      end
  end.

Definition Header (request name : bytes) : bytes :=
  match find CRLF request with
  | None => []
  | Some line_start => let rest := drop (line_start + 2) request in scan_header (length rest) rest name
  end.

Fixpoint port_loop (value : Z) (text : bytes) : option Z :=
  match text with
  | [] => Some value
  | c :: text =>
      let digit := wrapu 32 (char_value c - 48) in
      if value >? wrapu 32 (65535 - digit) / 10 then None else port_loop (wrapu 32 (wrapu 32 (value * 10) + digit)) text
  end.

Definition LoopbackHost (host : bytes) (expected_port : Z) : bool :=
  let colon := find [COLON] host in
  let name := before colon host in
  if negb (bool_decide (name = str "127.0.0.1")) && negb (bool_decide (name = str "localhost")) then false
  else match colon with
  | None => true
  | Some colon =>
      let port := drop (colon + 1) host in
      if bool_decide (port = []) || negb (all_digits port) then false
      else match port_loop 0 port with None => false | Some value => value =? expected_port end
  end.

Definition EXPLORER : bytes := str "/explorer".

Definition reason_of (status : Z) : bytes :=
  if status =? 200 then str "OK" else if status =? 400 then str "Bad Request" else if status =? 404 then str "Not Found" else str "Error".

(** The path the route sees, if it is one of the explorer's. *)
Definition explorer_path (target : bytes) : option bytes :=
  let path := before (find [Byte.x3f] target) target in
  if bool_decide (path = EXPLORER) then Some [SLASH]
  else if bool_decide (take 10 path = EXPLORER ++ [SLASH]) then Some (drop 9 path)
  else None.

Definition Answer (port : Z) (s : state) (pool : option Mempool.Mempool) (request : bytes) : option bytes :=
  match find CRLF request with
  | None => Some (ErrorResponse 400 "Bad Request" "malformed request")
  | Some line_end =>
      let line := take line_end request in
      let refused := Some (ErrorResponse 405 "Method Not Allowed" "GET HTTP/1.1 required") in
      match find [SP] line with
      | None => refused
      | Some first =>
          let after_first := drop (first + 1) line in
          match find [SP] after_first with
          | None => refused
          | Some second =>
              if negb (bool_decide (take first line = str "GET")) || negb (bool_decide (drop (second + 1) after_first = HTTP_1_1)) then refused
              else if negb (LoopbackHost (Header request HOST) port) then Some (ErrorResponse 403 "Forbidden" "loopback Host required")
              else match explorer_path (take second after_first) with
              | None => Some (ErrorResponse 404 "Not Found" "unknown explorer path")
              | Some path =>
                  reply ← Route s pool path;
                  Some (Response (http_status reply) (reason_of (http_status reply)) (reply_body reply) (content_type reply))
              end
          end
      end
  end.

(** A connection: reading, no longer reading after an error, writing its answer, closed. *)
Inductive Phase := Reading | Idle | Writing (response : bytes) | Closed.
Record Connection := mkConnection { phase : Phase; request_ : bytes }.

Definition new_Connection : Connection := mkConnection Reading [].

Inductive ConnEvent := ReadSome (chunk : bytes) | ReadError | Written | DeadlineExpired.

Definition conn_step (port : Z) (s : state) (pool : option Mempool.Mempool) (e : ConnEvent) (c : Connection) : option Connection :=
  match e, phase c with
  | ReadSome chunk, Reading =>
      let request := request_ c ++ chunk in
      if zlen request >? MAX_REQUEST then Some (mkConnection (Writing (ErrorResponse 413 "Payload Too Large" "request too large")) request)
      else match find HEADER_TERMINATOR request with
      | None => Some (mkConnection Reading request)
      | Some _ => response ← Answer port s pool request; Some (mkConnection (Writing response) request)
      end
  | ReadError, Reading => Some (mkConnection Idle (request_ c))
  | Written, Writing _ => Some (mkConnection Closed (request_ c))
  | DeadlineExpired, _ => Some (mkConnection Closed (request_ c))
  | _, _ => Some c
  end.

Fixpoint conn_run (port : Z) (s : state) (pool : option Mempool.Mempool) (events : list ConnEvent) (c : Connection) : option Connection :=
  match events with
  | [] => Some c
  | e :: events => conn_step port s pool e c ≫= conn_run port s pool events
  end.
End view.

(** ** Lemmas *)

(** The loops are those of the transport, at a smaller width. *)
Lemma uint32_loop_digits text : forall v, 0 <= v < 2 ^ 32 -> uint32_loop v text = parse_digits (2 ^ 32 - 1) v text.
Proof.
  induction text as [|c text IH]; intros v Hv; cbn [uint32_loop parse_digits]; [done|].
  destruct (Z.ltb_spec (char_value c) 48), (Z.gtb_spec (char_value c) 57); cbn [orb]; try done. set (d := char_value c - 48) in *.
  rewrite (wrapu_small 32 d), (wrapu_small 32 (2 ^ 32 - 1 - d)), (wrapu_small 64 (2 ^ 32 - 1 - d)) by lia.
  destruct (Z.gtb_spec v ((2 ^ 32 - 1 - d) / 10)); [done|]. pose proof (Z.mul_div_le (2 ^ 32 - 1 - d) 10).
  rewrite (wrapu_small 32 (v * 10)), (wrapu_small 32 (v * 10 + d)), wrapu_small by lia. apply IH. lia.
Qed.

Lemma port_loop_digits text : all_digits text = true -> forall v, 0 <= v <= 65535 -> port_loop v text = parse_digits 65535 v text.
Proof.
  induction text as [|c text IH]; intros Hd v Hv; cbn [port_loop parse_digits]; [done|]. cbn in Hd. apply andb_true_iff in Hd as [Hc Hd]. bprop.
  destruct (Z.ltb_spec (char_value c) 48), (Z.gtb_spec (char_value c) 57); cbn [orb]; try lia. set (d := char_value c - 48) in *.
  rewrite (wrapu_small 32 d), (wrapu_small 32 (65535 - d)), (wrapu_small 64 (65535 - d)) by lia.
  destruct (Z.gtb_spec v ((65535 - d) / 10)); [done|]. pose proof (Z.mul_div_le (65535 - d) 10).
  rewrite (wrapu_small 32 (v * 10)), (wrapu_small 32 (v * 10 + d)), wrapu_small by lia. apply (IH Hd). lia.
Qed.

(** A height is read from its digits if it fits 32 bits, and from nothing else. *)
Lemma ParseUint32_spec text n : ParseUint32 text = Some n <-> text <> [] /\ all_digits text = true /\ digits_value text = n /\ n < 2 ^ 32.
Proof.
  unfold ParseUint32. case_bool_decide as E; [naive_solver|]. rewrite uint32_loop_digits by lia. rewrite parse_digits_spec by lia. unfold digits_value. naive_solver lia.
Qed.

Lemma ParseUint32_to_chars n : 0 <= n < 2 ^ 32 -> ParseUint32 (to_chars n) = Some n.
Proof. intros Hn. apply ParseUint32_spec. destruct (to_chars_digits n) as (H1 & H2 & H3); [lia|]. split_and!; try done; lia. Qed.

(** The names a loopback host has, and the port it may carry. *)
Definition loopback_name (name : bytes) : Prop := name = str "127.0.0.1" \/ name = str "localhost".

Lemma loopback_name_plain name : loopback_name name -> Forall (fun c => c <> COLON) name.
Proof. intros [->| ->]; repeat (constructor; [done|]); constructor. Qed.

Lemma LoopbackHost_spec host port : 0 <= port < 2 ^ 16 ->
  LoopbackHost host port = true <->
  exists name, loopback_name name /\ (host = name \/ exists digits, digits <> [] /\ all_digits digits = true /\ digits_value digits = port /\ host = name ++ COLON :: digits).
Proof.
  intros Hp. unfold LoopbackHost.
  assert (forall name, (negb (bool_decide (name = str "127.0.0.1")) && negb (bool_decide (name = str "localhost"))) = false <-> loopback_name name) as N.
  { intros name. unfold loopback_name. repeat case_bool_decide; cbn; naive_solver. }
  split.
  - destruct (find [COLON] host) as [colon|] eqn:E; cbn [before].
    + destruct (_ && _) eqn:En; [done|]. apply N in En. destruct (bool_decide _ || _) eqn:Ed; [done|]. apply orb_false_iff in Ed as [Ed1%bool_decide_eq_false Ed2%negb_false_iff].
      rewrite port_loop_digits by (done || lia). destruct (parse_digits _ _ _) as [v|] eqn:Ev; [|done]. intros ->%Z.eqb_eq.
      apply parse_digits_spec in Ev as (_ & Ev & _); [|lia|lia]. apply find_Some in E as [E _]. exists (take colon host). split; [done|]. right.
      exists (drop (colon + 1) host). split_and!; try done. rewrite <- (take_drop colon host) at 1. f_equal.
      destruct (drop colon host) as [|c rest] eqn:Edr; [done|]. cbn in E. injection E as ->. f_equal. rewrite <- drop_drop, Edr. reflexivity.
    + destruct (_ && _) eqn:En; [done|]. apply N in En. intros _. exists host. by split; [|left].
  - intros (name & Hn & [->|(digits & Hne & Hd & Hv & ->)]); pose proof (loopback_name_plain name Hn) as F; pose proof (proj2 (N name) Hn) as En.
    + rewrite find_absent by done. cbn [before]. by rewrite En.
    + pose proof (find_at COLON [] name digits F) as E. cbn [app] in E. rewrite E. cbn [before]. rewrite take_app_length, En.
      replace (drop (length name + 1) (name ++ COLON :: digits)) with digits.
      * rewrite bool_decide_false by done. rewrite Hd. cbn [orb negb]. rewrite port_loop_digits by (done || lia).
        rewrite (proj2 (parse_digits_spec 65535 digits ltac:(lia) 0 port ltac:(lia))); [apply Z.eqb_refl|]. split_and!; [done|done|lia].
      * rewrite <- drop_drop, drop_app_length. reflexivity.
Qed.

(** What the request line is. *)
Definition request_of (line : bytes) : option bytes :=
  first ← find [SP] line;
  second ← find [SP] (drop (first + 1) line);
  if bool_decide (take first line = str "GET") && bool_decide (drop (second + 1) (drop (first + 1) line) = HTTP_1_1)
  then Some (take second (drop (first + 1) line)) else None.

Section view.
Context `{Mempool.HashOrder} {V D K : Type} `{JsonText} (EXPLORER_PAGE : bytes).
#[local] Abbreviation state := (ChainState V D K).
#[local] Abbreviation Answer := (Answer EXPLORER_PAGE).
#[local] Abbreviation Route := (Route EXPLORER_PAGE).
#[local] Abbreviation conn_run := (conn_run EXPLORER_PAGE).

Lemma Answer_eq port (s : state) pool request : Answer port s pool request =
  match find CRLF request with
  | None => Some (ErrorResponse 400 "Bad Request" "malformed request")
  | Some line_end =>
      match request_of (take line_end request) with
      | None => Some (ErrorResponse 405 "Method Not Allowed" "GET HTTP/1.1 required")
      | Some target =>
          if negb (LoopbackHost (Header request HOST) port) then Some (ErrorResponse 403 "Forbidden" "loopback Host required")
          else match explorer_path target with
          | None => Some (ErrorResponse 404 "Not Found" "unknown explorer path")
          | Some path =>
              reply ← Route s pool path;
              Some (Response (http_status reply) (reason_of (http_status reply)) (reply_body reply) (content_type reply))
          end
      end
  end.
Proof.
  unfold Explorer.Answer, request_of. destruct (find CRLF request) as [line_end|]; [|done]. destruct (find [SP] (take line_end request)) as [first|]; [|done].
  cbn [mbind option_bind]. destruct (find [SP] (drop _ _)) as [second|]; [|done]. cbn [mbind option_bind]. by repeat case_bool_decide.
Qed.

(** A request in one piece or in many. *)
Lemma explorer_request_read port (s : state) pool line lines packets : forall got r,
  no_cr line -> Forall (fun l => no_cr l /\ l <> []) lines ->
  let text := section line lines ++ HEADER_TERMINATOR in
  zlen text <= MAX_REQUEST -> Answer port s pool text = Some r -> got ++ concat packets = text -> concat packets <> [] ->
  conn_run port s pool (map ReadSome packets) (mkConnection Reading got) = Some (mkConnection (Writing r) text).
Proof.
  induction packets as [|p packets IH]; intros got r Hl Hls text Hs Ha E Hne; [done|]. cbn [map Explorer.conn_run Explorer.conn_step phase request_].
  cbn [concat] in E, Hne. assert (zlen (got ++ p) <= MAX_REQUEST) as Hz.
  { rewrite <- E in Hs. rewrite !zlen_app in Hs. rewrite zlen_app. pose proof (zlen_nonneg (concat packets)). lia. }
  destruct (Z.gtb_spec (zlen (got ++ p)) MAX_REQUEST); [lia|]. destruct (decide (concat packets = [])) as [En|Hn].
  - rewrite En, app_nil_r in E. rewrite E. pose proof (find_terminator line lines [] Hl Hls) as F. rewrite app_nil_r in F. fold text in F. rewrite F, Ha. cbn [mbind option_bind].
    clear -En. induction packets as [|p packets IH]; [done|]. cbn in En. apply app_nil in En as [-> En]. cbn. by apply IH.
  - destruct (find HEADER_TERMINATOR (got ++ p)) as [i|] eqn:Ei.
    + exfalso. pose proof (find_Some_fits _ _ _ Ei) as Hf. apply (find_app _ _ (concat packets)) in Ei. rewrite <- app_assoc, E in Ei.
      pose proof (find_terminator line lines [] Hl Hls) as F. rewrite app_nil_r in F. unfold text in Ei. rewrite F in Ei. injection Ei as <-.
      apply (f_equal (@length _)) in E. rewrite !length_app in E. unfold text in E. rewrite length_app in E. rewrite length_app in Hf.
      destruct (concat packets) as [|x y]; [done|]. cbn [length] in E. lia.
    + cbn [mbind option_bind]. apply IH; try done. by rewrite <- app_assoc.
Qed.

(** The host line, when it comes first, is the header that is found. *)
Lemma Header_first line value lines : no_cr line -> no_cr value -> match value with c :: _ => c <> SP /\ c <> HT | [] => True end ->
  Header (section line ((HOST ++ [COLON; SP] ++ value) :: lines) ++ HEADER_TERMINATOR) HOST = value.
Proof.
  intros Hl Hv Hf. unfold Header. rewrite section_cons, <- !app_assoc. unfold CRLF. pose proof (find_at CR [Byte.x0a] line) as E. cbn [app] in E.
  change (line ++ LINE_TERMINATOR ++ ?x) with (line ++ CR :: Byte.x0a :: x). unfold LINE_TERMINATOR at 1. change Byte.x0d with CR. rewrite E by done.
  rewrite <- drop_drop, drop_app_length. change (drop 2 (CR :: Byte.x0a :: ?x)) with x.
  set (h := HOST ++ [COLON; SP] ++ value). assert (no_cr h) as Hh by (unfold h; repeat (constructor; [done|]); exact Hv).
  assert (exists rest, section h lines ++ HEADER_TERMINATOR = h ++ CR :: Byte.x0a :: rest) as [rest ->].
  { destruct lines as [|l lines]; [exists [CR; Byte.x0a]; unfold section; cbn [map concat]; by rewrite app_nil_r|].
    rewrite section_cons, <- !app_assoc. by eexists. }
  destruct (length (h ++ CR :: Byte.x0a :: rest)) as [|fuel] eqn:El; [by unfold h in El|]. cbn [scan_header]. unfold CRLF, LINE_TERMINATOR. change Byte.x0d with CR.
  pose proof (find_at CR [Byte.x0a] h rest Hh) as Eh. cbn [app] in Eh. rewrite Eh.
  destruct (length h) as [|k] eqn:L; [by unfold h in L|]. cbv iota beta. rewrite <- L. rewrite take_app_length.
  unfold h at 1 2. pose proof (find_at COLON [] HOST (SP :: value) ltac:(repeat (constructor; [done|]); constructor)) as Ec. cbn [app] in Ec.
  change (HOST ++ [COLON; SP] ++ value) with (HOST ++ COLON :: SP :: value). rewrite Ec. rewrite bool_decide_true by apply take_app_length.
  change h with (HOST ++ COLON :: SP :: value). rewrite <- drop_drop, drop_app_length. cbn [drop]. cbn [trim_front]. rewrite bool_decide_true by done. cbn [orb].
  destruct value as [|c value]; [done|]. cbn [trim_front]. destruct Hf. by rewrite !bool_decide_false.
Qed.

Lemma request_of_get target : Forall (fun c => c <> SP) target -> request_of (str "GET" ++ SP :: target ++ SP :: HTTP_1_1) = Some target.
Proof.
  intros F. unfold request_of. pose proof (find_at SP [] (str "GET") (target ++ SP :: HTTP_1_1) ltac:(repeat (constructor; [done|]); constructor)) as E1. cbn [app] in E1. rewrite E1.
  cbn [mbind option_bind]. rewrite <- drop_drop, drop_app_length. change (drop 1 (SP :: ?x)) with x.
  pose proof (find_at SP [] target HTTP_1_1 F) as E2. cbn [app] in E2. rewrite E2. cbn [mbind option_bind]. rewrite take_app_length.
  rewrite <- drop_drop, drop_app_length. change (drop 1 (SP :: ?x)) with x. rewrite take_app_length. by rewrite !bool_decide_true.
Qed.

(** Digits are none of the characters that end a part of a request. *)
Lemma digits_plain text c : all_digits text = true -> char_value c < 48 \/ 57 < char_value c -> Forall (fun x => x <> c) text.
Proof.
  intros Hd Hc. apply Forall_forall. intros x Hx ->. unfold all_digits in Hd. rewrite forallb_forall in Hd.
  apply list_elem_of_In in Hx. apply Hd in Hx. apply andb_true_iff in Hx as [H1 H2]. bprop. lia.
Qed.

(** A route of one word and one argument. *)
Lemma segments_pair word argument : word <> [] -> argument <> [] -> Forall (fun c => c <> SLASH) word -> Forall (fun c => c <> SLASH) argument ->
  PathSegments (SLASH :: word ++ SLASH :: argument) = [word; argument].
Proof.
  intros Hw Ha Fw Fa. unfold PathSegments. cbn [strip_slashes]. rewrite bool_decide_true by done.
  destruct word as [|c word]; [done|]. assert (strip_slashes ((c :: word) ++ SLASH :: argument) = (c :: word) ++ SLASH :: argument) as ->.
  { cbn [app strip_slashes]. rewrite bool_decide_false by (apply (Forall_inv Fw)). done. }
  assert (exists fuel, length ((c :: word) ++ SLASH :: argument) = S (S fuel)) as [fuel ->].
  { rewrite length_app. cbn. exists (length word + length argument)%nat. lia. }
  pose proof (find_at SLASH [] (c :: word) argument Fw) as E. cbn [app] in E.
  cbn [segments app]. rewrite E. cbn [before after]. change (c :: word ++ SLASH :: argument) with ((c :: word) ++ SLASH :: argument). rewrite take_app_length, bool_decide_false by done. f_equal.
  rewrite <- drop_drop, drop_app_length. change (drop 1 (SLASH :: ?x)) with x. destruct argument as [|a argument]; [done|].
  cbn [segments]. rewrite find_absent by done. cbn [before]. by rewrite bool_decide_false by done.
Qed.
End view.

(** ** Theorems *)

(** The explorer tells the chain to local clients only.  Whatever bytes a request is, the
    answer is the same for every node, a refusal, unless the request is a GET of a path of
    the explorer and its Host header names the loopback interface, with this port or none. *)
Theorem explorer_guarded `{Mempool.HashOrder} {V D K} `{JsonText} (page : bytes) (port : Z) (Hp : 0 <= port < 2 ^ 16) (request : bytes) :
  (exists refusal, forall (s : ChainState V D K) pool, Answer page port s pool request = Some refusal) \/
  exists line_end target path name, find CRLF request = Some line_end /\ request_of (take line_end request) = Some target /\
    explorer_path target = Some path /\ loopback_name name /\
    (Header request HOST = name \/
     exists digits, digits <> [] /\ all_digits digits = true /\ digits_value digits = port /\ Header request HOST = name ++ COLON :: digits).
Proof.
  destruct (find CRLF request) as [line_end|] eqn:E; [|left; eexists; intros; rewrite Answer_eq, E; reflexivity].
  destruct (request_of (take line_end request)) as [target|] eqn:Er; [|left; eexists; intros; rewrite Answer_eq, E, Er; reflexivity].
  destruct (LoopbackHost (Header request HOST) port) eqn:Eh; [|left; eexists; intros; rewrite Answer_eq, E, Er, Eh; reflexivity].
  destruct (explorer_path target) as [path|] eqn:Ep; [|left; eexists; intros; rewrite Answer_eq, E, Er, Eh, Ep; reflexivity].
  right. apply LoopbackHost_spec in Eh as (name & Hn & Ho); [|done]. by exists line_end, target, path, name.
Qed.

(** The request a client makes for the block at a height. *)
Definition height_target (height : Z) : bytes := EXPLORER ++ str "/block-at" ++ SLASH :: to_chars height.
Definition height_request (height port : Z) (lines : list bytes) : bytes :=
  section (str "GET" ++ SP :: height_target height ++ SP :: HTTP_1_1)
    ((HOST ++ [COLON; SP] ++ str "127.0.0.1" ++ COLON :: to_chars port) :: lines) ++ HEADER_TERMINATOR.

Lemma height_path height : 0 <= height < 2 ^ 32 -> explorer_path (height_target height) = Some (SLASH :: str "block-at" ++ SLASH :: to_chars height).
Proof.
  intros Hh. destruct (to_chars_digits height) as (_ & Hd & _); [lia|]. unfold explorer_path, height_target.
  rewrite find_absent.
  - cbn [before]. rewrite bool_decide_false by done. rewrite bool_decide_true by done. reflexivity.
  - repeat (constructor; [done|]). apply (digits_plain _ _ Hd). right. by vm_compute.
Qed.

Lemma loopback_port port : 0 <= port < 2 ^ 16 -> LoopbackHost (str "127.0.0.1" ++ COLON :: to_chars port) port = true.
Proof.
  intros Hp. destruct (to_chars_digits port) as (Hne & Hd & Hv); [lia|]. apply LoopbackHost_spec; [done|]. exists (str "127.0.0.1"). split; [by left|]. right.
  by exists (to_chars port).
Qed.

Lemma host_plain port : 0 <= port < 2 ^ 16 -> no_cr (str "127.0.0.1" ++ COLON :: to_chars port).
Proof. intros Hp. destruct (to_chars_digits port) as (_ & Hd & _); [lia|]. repeat (constructor; [done|]). apply (digits_plain _ _ Hd). left. by vm_compute. Qed.

(** A request from this machine is routed. *)
Lemma Answer_local `{Mempool.HashOrder} {V D K} `{JsonText} page port (s : ChainState V D K) pool line target path lines :
  0 <= port < 2 ^ 16 -> no_cr line -> request_of line = Some target -> explorer_path target = Some path ->
  Answer page port s pool (section line ((HOST ++ [COLON; SP] ++ str "127.0.0.1" ++ COLON :: to_chars port) :: lines) ++ HEADER_TERMINATOR) =
  (reply ← Route page s pool path; Some (Response (http_status reply) (reason_of (http_status reply)) (reply_body reply) (content_type reply))).
Proof.
  intros Hp Hl Er Ep. rewrite Answer_eq. rewrite (Header_first line (str "127.0.0.1" ++ COLON :: to_chars port) lines Hl (host_plain port Hp)) by done.
  rewrite section_cons, <- !app_assoc. unfold CRLF. assert (forall x, find LINE_TERMINATOR (line ++ LINE_TERMINATOR ++ x) = Some (length line)) as E.
  { intros x. apply (find_at CR [Byte.x0a] line x Hl). }
  rewrite E, take_app_length, Er, loopback_port, Ep by done. reflexivity.
Qed.

Section served.
Context `{SH : Sha256Impl} `{SB : Signature.SignatureBackends} {V D K : Type}.
Context `{CV : CoinsView V} `{!LawfulView V} `{BS : BlockStore.BlockStore D} `{!BlockStore.LawfulStore D} `{CS : ChainSink K V} `{!LawfulSink K V}.
Context `{Mempool.HashOrder} `{JsonText} (net : Params.Network) (f0 : Connect.Ledger) (page : bytes).

(** The entry of a block of the chain. *)
Lemma chain_entry (n : Rpc.Node V D K) hash : Rpc.good net f0 0 n -> hash ∈ chain_ (Rpc.state n) -> exists e, Find (index_ (Rpc.state n)) hash = Some e.
Proof using Type*. intros G Hin. exact (Rpc.chain_indexed net f0 _ _ (runs_in_step _ _ _ (proj1 (proj2 G))) Hin). Qed.

Lemma at_height_in (chain : list bytes) height hash : AtHeight chain height = Some hash -> hash ∈ chain.
Proof. unfold AtHeight. destruct (_ <=? _); [done|]. apply list_elem_of_lookup_2. Qed.

(** Every route has an answer. *)
Lemma Route_answers (n : Rpc.Node V D K) path : Rpc.good net f0 0 n -> exists reply, Route page (Rpc.state n) (Rpc.pool n) path = Some reply.
Proof using Type*.
  intros G. destruct (Rpc.the_tip_found net f0 0 n G) as [tip Et]. assert (tip_entry (Rpc.state n) = Some tip) as Et' by exact Et.
  unfold Route, TipJson, StatusJson. rewrite Et'. cbn [mbind option_bind fmap option_fmap option_map].
  destruct (_ || _); [by eexists|]. destruct (_ >? _); [by eexists|].
  destruct (PathSegments path) as [|first rest]; [by eexists|]. do 3 (destruct (_ && _); [by eexists|]).
  destruct rest as [|argument [|? ?]]; [by eexists| |by eexists]. destruct (bool_decide _).
  - destruct (ParseHash argument) as [hash|]; [|by eexists].
    destruct (List.find _ _) as [h|] eqn:Ef; [|by eexists]. destruct (chain_entry n hash G) as [e Ee]; [apply (Rpc.height_found net f0 n 0 tip hash G Et); by exists h|].
    rewrite Ee. by eexists.
  - destruct (bool_decide _); [|by eexists]. destruct (ParseUint32 argument) as [height|]; [|by eexists].
    destruct (AtHeight _ _) as [hash|] eqn:Ea; [|by eexists]. destruct (chain_entry n hash G (at_height_in _ _ _ Ea)) as [e Ee]. rewrite Ee. by eexists.
Qed.

Lemma Route_height (n : Rpc.Node V D K) height : 0 <= height < 2 ^ 32 ->
  Route page (Rpc.state n) (Rpc.pool n) (SLASH :: str "block-at" ++ SLASH :: to_chars height) =
  match AtHeight (chain_ (Rpc.state n)) height with
  | None => Some (NotFound (str "no block at that height"))
  | Some hash => e ← Find (index_ (Rpc.state n)) hash; Some (reply_json 200 (BlockJson e))
  end.
Proof.
  intros Hh. destruct (to_chars_digits height) as (Hne & Hd & _); [lia|]. unfold Route. rewrite !bool_decide_false by done. cbn [orb].
  assert (zlen (SLASH :: str "block-at" ++ SLASH :: to_chars height) <= MAX_PATH_LENGTH) as Hl.
  { unfold MAX_PATH_LENGTH. rewrite zlen_cons, zlen_app, zlen_cons. change (zlen (str "block-at")) with 8. pose proof (decimal_length 20 height). unfold zlen, to_chars, Text.to_string in *. lia. }
  destruct (Z.gtb_spec (zlen (SLASH :: str "block-at" ++ SLASH :: to_chars height)) MAX_PATH_LENGTH); [lia|].
  rewrite segments_pair; [|done|done|repeat (constructor; [done|]); constructor|apply (digits_plain _ _ Hd); left; by vm_compute].
  rewrite !bool_decide_false by done. cbn [andb]. rewrite bool_decide_true by done. by rewrite ParseUint32_to_chars.
Qed.
End served.

(** The explorer answers with the chain.  A local client asks for the block at a height; its
    request reaches the listener in any packets, with any other header lines.  The answer is
    the block of the active chain at that height, as JSON with status 200, or status 404
    exactly if the chain is shorter. *)
Theorem explorer_serves_heights `{Sha256Impl} `{Signature.SignatureBackends} {V D K} `{CoinsView V} `{!LawfulView V}
    `{BlockStore.BlockStore D} `{!BlockStore.LawfulStore D} `{ChainSink K V} `{!LawfulSink K V} `{Mempool.HashOrder} `{JsonText}
    (net : Params.Network) (f0 : Connect.Ledger) (page : bytes) (n : Rpc.Node V D K) (height port : Z) (lines packets : list bytes)
    (G : Rpc.good net f0 0 n) (Hh : 0 <= height < 2 ^ 32) (Hp : 0 <= port < 2 ^ 16) (Hlines : Forall (fun l => no_cr l /\ l <> []) lines)
    (Hsize : zlen (height_request height port lines) <= MAX_REQUEST) (Hpackets : concat packets = height_request height port lines) :
  exists reply, conn_run page port (Rpc.state n) (Rpc.pool n) (map ReadSome packets) new_Connection =
      Some (mkConnection (Writing (Response (http_status reply) (reason_of (http_status reply)) (reply_body reply) (content_type reply))) (height_request height port lines)) /\
    match AtHeight (chain_ (Rpc.state n)) height with
    | Some hash => exists e, Find (index_ (Rpc.state n)) hash = Some e /\ reply = reply_json 200 (BlockJson e)
    | None => reply = NotFound (str "no block at that height")
    end.
Proof.
  destruct (Route_answers net f0 page n (SLASH :: str "block-at" ++ SLASH :: to_chars height) G) as [reply Er]. exists reply.
  destruct (to_chars_digits height) as (_ & Hdh & _); [lia|]. destruct (to_chars_digits port) as (_ & Hdp & _); [lia|]. split.
  - assert (Forall (fun c => c <> SP) (height_target height)) as Fs by (repeat (constructor; [done|]); apply (digits_plain _ _ Hdh); left; by vm_compute).
    assert (no_cr (str "GET" ++ SP :: height_target height ++ SP :: HTTP_1_1)) as Hl.
    { repeat (constructor; [done|]). apply Forall_app. split; [|repeat (constructor; [done|]); constructor]. apply (digits_plain _ _ Hdh). left. by vm_compute. }
    assert (no_cr (HOST ++ [COLON; SP] ++ str "127.0.0.1" ++ COLON :: to_chars port)) as Hv by (repeat (constructor; [done|]); apply (digits_plain _ _ Hdp); left; by vm_compute).
    apply (explorer_request_read page port (Rpc.state n) (Rpc.pool n) _ _ packets []).
    + exact Hl.
    + by constructor.
    + exact Hsize.
    + rewrite (Answer_local page port _ _ _ _ _ lines Hp Hl (request_of_get _ Fs) (height_path height Hh)). by rewrite Er.
    + exact Hpackets.
    + rewrite Hpackets. done.
  - rewrite Route_height in Er by done. destruct (AtHeight _ _) as [hash|]; [|by injection Er]. destruct (Find _ hash) as [e|]; [|done]. exists e. by injection Er.
Qed.

Lemma hex_plain bs : Forall (fun c => c <> SLASH) (Hex.ToHex bs).
Proof. induction bs as [|b bs IH]; [constructor|]. cbn [Hex.ToHex]. destruct b; (constructor; [done|]); (constructor; [done|exact IH]). Qed.

(** The hash the explorer shows is not one it finds: it shows the bytes in reverse. *)
Lemma explorer_displayed_hash `{Sha256Impl} `{Signature.SignatureBackends} {V D K} `{CoinsView V} `{!LawfulView V}
    `{BlockStore.BlockStore D} `{!BlockStore.LawfulStore D} `{ChainSink K V} `{!LawfulSink K V} `{Mempool.HashOrder} `{JsonText}
    (net : Params.Network) (f0 : Connect.Ledger) (page : bytes) (n : Rpc.Node V D K) (hash : bytes) :
  Rpc.good net f0 0 n -> zlen hash = 32 -> exists reply, Route page (Rpc.state n) (Rpc.pool n) (SLASH :: str "block" ++ SLASH :: Hex.Hash256_ToHex hash) = Some reply /\
    (http_status reply = 200 <-> rev hash ∈ chain_ (Rpc.state n)).
Proof.
  intros G Hl. pose proof (Rpc.the_tip_found net f0 0 n G) as [tip Et]. assert (tip_entry (Rpc.state n) = Some tip) as Et' by exact Et.
  unfold Hex.Hash256_ToHex. assert (length (rev hash) = 32%nat) as L by (rewrite length_rev; unfold zlen in Hl; lia).
  unfold Route. rewrite !bool_decide_false by done. cbn [orb].
  assert (zlen (SLASH :: str "block" ++ SLASH :: Hex.ToHex (rev hash)) = 71) as E.
  { rewrite zlen_cons, zlen_app, zlen_cons, Hex.zlen_ToHex. change (zlen (str "block")) with 5. unfold zlen. rewrite L. reflexivity. }
  rewrite E. change (71 >? MAX_PATH_LENGTH) with false. cbv iota.
  rewrite segments_pair; [|done|by destruct (rev hash)|repeat (constructor; [done|]); constructor|apply hex_plain].
  rewrite !bool_decide_false by done. cbn [andb]. rewrite bool_decide_true by done. unfold ParseHash. rewrite Rpc.hex_read.
  assert (zlen (rev hash) = 32) as Z32 by (unfold zlen; lia). rewrite (proj2 (Z.eqb_eq _ _) Z32). cbn [negb]. rewrite Rpc.hash_of by (by apply Z.eqb_eq).
  rewrite Et'. cbn [mbind option_bind]. pose proof (Rpc.height_found net f0 n 0 tip (rev hash) G Et) as Hf. destruct (List.find _ _) as [h|].
  - assert (rev hash ∈ chain_ (Rpc.state n)) as Hin by (apply Hf; by exists h). destruct (chain_entry net f0 n (rev hash) G Hin) as [e Ee]. rewrite Ee. by eexists.
  - eexists. split; [reflexivity|]. split; [done|]. intros Hin%Hf. by destruct Hin.
Qed.

(** What a connection holds: a request at its largest and one read. *)
Lemma conn_bounded `{Mempool.HashOrder} {V D K} `{JsonText} page port (s : ChainState V D K) pool events : forall c c',
  Forall (fun e => match e with ReadSome chunk => zlen chunk <= 1024 | _ => True end) events ->
  (phase c = Reading -> zlen (request_ c) <= MAX_REQUEST) -> zlen (request_ c) <= MAX_REQUEST + 1024 ->
  conn_run page port s pool events c = Some c' -> zlen (request_ c') <= MAX_REQUEST + 1024.
Proof.
  induction events as [|e events IH]; intros c c' Hf Hr Hb; cbn [conn_run]; [by intros [= <-]|]. apply Forall_cons in Hf as [He Hf].
  destruct (conn_step _ _ _ _ e c) as [c1|] eqn:E; [|done]. cbn [mbind option_bind]. intros Hrun. apply (IH c1 c' Hf); [| |done]; clear IH Hrun.
  all: unfold conn_step in E; destruct e as [chunk| | |], (phase c) eqn:Ep; try (injection E as <-; cbn; congruence || lia || auto).
  all: try (destruct (Z.gtb_spec (zlen (request_ c ++ chunk)) MAX_REQUEST);
    [injection E as <-; cbn; rewrite ?zlen_app; specialize (Hr eq_refl); try done; lia|]).
  all: destruct (find _ _); [destruct (Answer _ _ _ _ _); [|done]; cbn [mbind option_bind] in E|]; injection E as <-; cbn; try done; lia.
Qed.

(** An answer that has been chosen is not changed by anything that still arrives. *)
Lemma conn_answers_once `{Mempool.HashOrder} {V D K} `{JsonText} page port (s : ChainState V D K) pool events : forall c r c',
  phase c = Writing r \/ phase c = Closed -> conn_run page port s pool events c = Some c' -> phase c' = phase c \/ phase c' = Closed.
Proof.
  induction events as [|e events IH]; intros c r c' Hp; cbn [conn_run]; [intros [= <-]; by left|].
  assert (exists c1, conn_step page port s pool e c = Some c1 /\ (phase c1 = phase c \/ phase c1 = Closed)) as (c1 & E & H1).
  { unfold conn_step. destruct Hp as [Hp|Hp]; rewrite Hp; destruct e; eexists; (split; [reflexivity|]); cbn; auto. }
  rewrite E. cbn [mbind option_bind]. intros Hr. destruct (IH c1 r c') as [H2|H2]; [|done| |by right].
  - destruct H1 as [->| ->]; [done|by right].
  - destruct H1 as [H1|H1]; rewrite H1 in H2; auto.
Qed.

(** Header names are compared as they are written, so a client that writes them in lower case
    is refused. *)
Example header_case : Header (str "GET /explorer/tip HTTP/1.1" ++ CRLF ++ str "host: localhost" ++ HEADER_TERMINATOR) HOST = [] /\
  LoopbackHost [] 12512 = false.
Proof. by vm_compute. Qed.

(** *** Witnesses *)

(** A text form that prints nothing. *)
Definition no_text : JsonText := {| dump _ := []; parse _ := None; printable _ := False; parse_dump v (H : False) := match H with end |}.

Section witnesses.
#[local] Existing Instance toy_Sha256Impl.
#[local] Existing Instance Validation.picky_backends.
#[local] Existing Instance MempoolInv.sorted_order.
#[local] Existing Instance no_text.

Definition sample_request : bytes := height_request 1 12512 [str "Accept: text"].

Lemma explorer_guarded_witness :
  (exists refusal, forall (s : ChainState Coins.EmptyCoinsView BlockStore.MemoryBlockStore NullSink) pool, Answer [] 12512 s pool (str "GET /explorer/tip HTTP/1.1" ++ CRLF ++ str "Host: evil" ++ HEADER_TERMINATOR) = Some refusal) \/
  exists line_end target path name, find CRLF (str "GET /explorer/tip HTTP/1.1" ++ CRLF ++ str "Host: evil" ++ HEADER_TERMINATOR) = Some line_end /\
    request_of (take line_end (str "GET /explorer/tip HTTP/1.1" ++ CRLF ++ str "Host: evil" ++ HEADER_TERMINATOR)) = Some target /\ explorer_path target = Some path /\ loopback_name name /\
    (Header (str "GET /explorer/tip HTTP/1.1" ++ CRLF ++ str "Host: evil" ++ HEADER_TERMINATOR) HOST = name \/
     exists digits, digits <> [] /\ all_digits digits = true /\ digits_value digits = 12512 /\
       Header (str "GET /explorer/tip HTTP/1.1" ++ CRLF ++ str "Host: evil" ++ HEADER_TERMINATOR) HOST = name ++ COLON :: digits).
Proof. apply explorer_guarded. lia. Defined.

Lemma explorer_serves_heights_witness : exists reply,
  conn_run [] 12512 (Rpc.state Rpc.sample_node) (Rpc.pool Rpc.sample_node) (map ReadSome [take 30 sample_request; drop 30 sample_request]) new_Connection =
    Some (mkConnection (Writing (Response (http_status reply) (reason_of (http_status reply)) (reply_body reply) (content_type reply))) sample_request) /\
  exists hash e, AtHeight (chain_ (Rpc.state Rpc.sample_node)) 1 = Some hash /\ Find (index_ (Rpc.state Rpc.sample_node)) hash = Some e /\ reply = reply_json 200 (BlockJson e).
Proof.
  destruct (explorer_serves_heights Params.Regtest (fun _ => None) [] Rpc.sample_node 1 12512 [str "Accept: text"] [take 30 sample_request; drop 30 sample_request])
    as (reply & E & Hr).
  - destruct Rpc.sample_node_good as (P & R & _). split_and!; [exact P|exact R|vm_compute; reflexivity].
  - lia.
  - lia.
  - repeat constructor; done.
  - vm_compute. discriminate.
  - cbn [concat]. rewrite app_nil_r, take_drop. reflexivity.
  - exists reply. split; [exact E|]. destruct (AtHeight (chain_ (Rpc.state Rpc.sample_node)) 1) as [hash|] eqn:Ea; [|by vm_compute in Ea].
    destruct Hr as (e & Ee & ->). exists hash, e. split; [reflexivity|]. split; [exact Ee|reflexivity].
Defined.
End witnesses.
End Explorer.
