(* ===== verification/Gpu.v ===== *)
(** * The proof-of-work search on the graphics card (miner/cuda_sha256.cu)

    SHA-256 as the kernel computes it, with its rolling message schedule and the shared
    state after the first block of a header; SHA-256 as FIPS 180-4 defines it; the kernel
    as threads that interleave; and the call from the host. *)

From Stdlib Require Import String.
From S2P Require Import Prelude Overflow Serialize Hex Crypto Primitives Target Merkle Params Genesis.
From stdpp Require Import list.
#[local] Open Scope Z_scope.

(** ** SHA-256 after FIPS 180-4 *)

Module Fips.

(** The first [n] primes, by trial division, and the integer cube root. *)
Definition is_prime (k : Z) : bool := forallb (fun d => negb (k mod d =? 0)) (seqZ 2 (k - 2)).
Definition primes (n : nat) : list Z := take n (List.filter is_prime (seqZ 2 310)).

(** The greatest number whose cube is at most [x], bit by bit from below the [n]th. *)
Fixpoint cbrt_from (n : nat) (x r : Z) : Z :=
  match n with
  | O => r
  | S n => let r' := r + 2 ^ Z.of_nat n in cbrt_from n x (if r' ^ 3 <=? x then r' else r)
  end.
Definition cbrt (x : Z) : Z := cbrt_from 36 x 0.

(** The first 32 bits of the fractional parts of the cube roots of the first 64 primes. *)
Definition K256 : list Z := Eval vm_compute in map (fun p => cbrt (p * 2 ^ 96) mod 2 ^ 32) (primes 64).

(** The eight working variables, and the hash value between blocks. *)
Definition State : Type := Z * Z * Z * Z * Z * Z * Z * Z.

(** The first 32 bits of the fractional parts of the square roots of the first eight
    primes. *)
Definition H0 : State := Eval vm_compute in
  match map (fun p => Z.sqrt (p * 2 ^ 64) mod 2 ^ 32) (primes 8) with
  | [a; b; c; d; e; f; g; h] => (a, b, c, d, e, f, g, h)
  | _ => (0, 0, 0, 0, 0, 0, 0, 0)
  end.

Definition rotr (n x : Z) : Z := Z.lor (Z.shiftr x n) (wrapu 32 (Z.shiftl x (32 - n))).
Definition Choice (x y z : Z) : Z := Z.lxor (Z.land x y) (Z.land (wrapu 32 (Z.lnot x)) z).
Definition Majority (x y z : Z) : Z := Z.lxor (Z.lxor (Z.land x y) (Z.land x z)) (Z.land y z).
Definition Sigma0 (x : Z) : Z := Z.lxor (Z.lxor (rotr 2 x) (rotr 13 x)) (rotr 22 x).
Definition Sigma1 (x : Z) : Z := Z.lxor (Z.lxor (rotr 6 x) (rotr 11 x)) (rotr 25 x).
Definition sigma0 (x : Z) : Z := Z.lxor (Z.lxor (rotr 7 x) (rotr 18 x)) (Z.shiftr x 3).
Definition sigma1 (x : Z) : Z := Z.lxor (Z.lxor (rotr 17 x) (rotr 19 x)) (Z.shiftr x 10).

(** The word of the schedule after those in [w]. *)
Definition next_word (w : list Z) : Z :=
  let t := length w in
  wrapu 32 (sigma1 (w !!! (t - 2)%nat) + w !!! (t - 7)%nat + sigma0 (w !!! (t - 15)%nat) + w !!! (t - 16)%nat).

Fixpoint extend (n : nat) (w : list Z) : list Z :=
  match n with O => w | S n => extend n (w ++ [next_word w]) end.

(** The four bytes of a word, and the sixteen words of a block. *)
Fixpoint words (n : nat) (block : bytes) : list Z :=
  match n with O => [] | S n => be_val (take 4 block) :: words n (drop 4 block) end.

Definition schedule (block : bytes) : list Z := extend 48 (words 16 block).

Definition round (s : State) (k w : Z) : State :=
  let '(a, b, c, d, e, f, g, h) := s in
  let t1 := wrapu 32 (h + Sigma1 e + Choice e f g + k + w) in
  let t2 := wrapu 32 (Sigma0 a + Majority a b c) in
  (wrapu 32 (t1 + t2), a, b, c, wrapu 32 (d + t1), e, f, g).

Fixpoint rounds (s : State) (ks ws : list Z) : State :=
  match ks, ws with
  | k :: ks, w :: ws => rounds (round s k w) ks ws
  | _, _ => s
  end.

Definition add_state (s r : State) : State :=
  let '(a, b, c, d, e, f, g, h) := s in
  let '(a', b', c', d', e', f', g', h') := r in
  (wrapu 32 (a + a'), wrapu 32 (b + b'), wrapu 32 (c + c'), wrapu 32 (d + d'),
   wrapu 32 (e + e'), wrapu 32 (f + f'), wrapu 32 (g + g'), wrapu 32 (h + h')).

Definition compress (s : State) (block : bytes) : State := add_state s (rounds s K256 (schedule block)).

Definition be_bytes (n : nat) (z : Z) : bytes := rev (le_split n z).

(** The message, a one bit, zeros up to eight bytes short of a block, the length in bits. *)
Definition pad (total : Z) (m : bytes) : bytes :=
  m ++ [Byte.x80] ++ replicate (Z.to_nat ((55 - zlen m) mod 64)) Byte.x00 ++ be_bytes 8 (8 * total).

Fixpoint absorb (n : nat) (s : State) (m : bytes) : State :=
  match n with O => s | S n => absorb n (compress s (take 64 m)) (drop 64 m) end.

Definition digest (s : State) : bytes :=
  let '(a, b, c, d, e, f, g, h) := s in concat (map (be_bytes 4) [a; b; c; d; e; f; g; h]).

Definition sha256 (m : bytes) : bytes :=
  let padded := pad (zlen m) m in digest (absorb (length padded / 64) H0 padded).

Lemma length_sha256 m : zlen (sha256 m) = 32.
Proof.
  unfold sha256, digest. destruct (absorb _ _ _) as [[[[[[[a b] c] d] e] f] g] h]. unfold zlen, be_bytes. cbn [map concat].
  by rewrite !length_app, !length_rev, !length_le_split.
Qed.

(** The hash function of the standard, as the parameter of the model. *)
Definition fips_Sha256Impl : Sha256Impl := {| SHA256 := sha256; SHA256_length := length_sha256 |}.

(** The published digest of "abc", and of 56 bytes, which take two blocks. *)
Example sha256_abc : Hex.ToHex (sha256 (str "abc")) = str "ba7816bf8f01cfea414140de5dae2223b00361a396177a9cb410ff61f20015ad".
Proof. vm_compute. reflexivity. Qed.

Example sha256_two_blocks : Hex.ToHex (sha256 (str "abcdbcdecdefdefgefghfghighijhijkijkljklmklmnlmnomnopnopq")) =
  str "248d6a61d20638b8e5c026930c3e6039a33ce45964ff2167f6ecedd419db06c1".
Proof. vm_compute. reflexivity. Qed.

Example sha256_empty : Hex.ToHex (sha256 []) = str "e3b0c44298fc1c149afbf4c8996fb92427ae41e4649b934ca495991b7852b855".
Proof. vm_compute. reflexivity. Qed.
End Fips.

(** ** The kernel's SHA-256 *)

Module Gpu.
Import Fips.

(** Row by row. *)
Definition K : list Z := Eval cbv in concat
  [[0x428a2f98; 0x71374491; 0xb5c0fbcf; 0xe9b5dba5; 0x3956c25b; 0x59f111f1; 0x923f82a4; 0xab1c5ed5];
   [0xd807aa98; 0x12835b01; 0x243185be; 0x550c7dc3; 0x72be5d74; 0x80deb1fe; 0x9bdc06a7; 0xc19bf174];
   [0xe49b69c1; 0xefbe4786; 0x0fc19dc6; 0x240ca1cc; 0x2de92c6f; 0x4a7484aa; 0x5cb0a9dc; 0x76f988da];
   [0x983e5152; 0xa831c66d; 0xb00327c8; 0xbf597fc7; 0xc6e00bf3; 0xd5a79147; 0x06ca6351; 0x14292967];
   [0x27b70a85; 0x2e1b2138; 0x4d2c6dfc; 0x53380d13; 0x650a7354; 0x766a0abb; 0x81c2c92e; 0x92722c85];
   [0xa2bfe8a1; 0xa81a664b; 0xc24b8b70; 0xc76c51a3; 0xd192e819; 0xd6990624; 0xf40e3585; 0x106aa070];
   [0x19a4c116; 0x1e376c08; 0x2748774c; 0x34b0bcb5; 0x391c0cb3; 0x4ed8aa4a; 0x5b9cca4f; 0x682e6ff3];
   [0x748f82ee; 0x78a5636f; 0x84c87814; 0x8cc70208; 0x90befffa; 0xa4506ceb; 0xbef9a3f7; 0xc67178f2]].

Definition R (x n : Z) : Z := Z.lor (Z.shiftr x n) (wrapu 32 (Z.shiftl x (32 - n))).
Definition Ch (x y z : Z) : Z := Z.lxor (Z.land x y) (Z.land (wrapu 32 (Z.lnot x)) z).
Definition Maj (x y z : Z) : Z := Z.lxor (Z.lxor (Z.land x y) (Z.land x z)) (Z.land y z).
Definition S0 (x : Z) : Z := Z.lxor (Z.lxor (R x 2) (R x 13)) (R x 22).
Definition S1 (x : Z) : Z := Z.lxor (Z.lxor (R x 6) (R x 11)) (R x 25).
Definition s0 (x : Z) : Z := Z.lxor (Z.lxor (R x 7) (R x 18)) (Z.shiftr x 3).
Definition s1 (x : Z) : Z := Z.lxor (Z.lxor (R x 17) (R x 19)) (Z.shiftr x 10).

(** The word at an index of a block. *)
Definition load_word (block : bytes) (i : nat) : Z :=
  Z.lor (Z.lor (Z.lor (Z.shiftl (b2z (block !!! (4 * i)%nat)) 24) (Z.shiftl (b2z (block !!! (4 * i + 1)%nat)) 16))
          (Z.shiftl (b2z (block !!! (4 * i + 2)%nat)) 8)) (b2z (block !!! (4 * i + 3)%nat)).

Definition slot (i : nat) : nat := Nat.land i 15.

(** One turn of the loop: from the sixteenth on, a slot of the window is overwritten. *)
Definition transform_step (i : nat) (ws : list Z * State) : list Z * State :=
  let '(w, s) := ws in
  let w := if (16 <=? i)%nat
           then <[slot i := wrapu 32 (s1 (w !!! slot (i - 2)) + w !!! slot (i - 7) + s0 (w !!! slot (i - 15)) + w !!! slot i)]> w
           else w in
  let '(a, b, c, d, e, f, g, h) := s in
  let t1 := wrapu 32 (h + S1 e + Ch e f g + K !!! i + w !!! slot i) in
  let t2 := wrapu 32 (S0 a + Maj a b c) in
  (w, (wrapu 32 (t1 + t2), a, b, c, wrapu 32 (d + t1), e, f, g)).

(** [state[0]+=a; ...] after the loop. *)
Definition add_to (s r : State) : State :=
  let '(s0, s1, s2, s3, s4, s5, s6, s7) := s in
  let '(a, b, c, d, e, f, g, h) := r in
  (wrapu 32 (s0 + a), wrapu 32 (s1 + b), wrapu 32 (s2 + c), wrapu 32 (s3 + d),
   wrapu 32 (s4 + e), wrapu 32 (s5 + f), wrapu 32 (s6 + g), wrapu 32 (s7 + h)).

Definition Transform (s : State) (block : bytes) : State :=
  let w := map (load_word block) (seq 0 16) in
  add_to s (fold_left (fun ws i => transform_step i ws) (seq 0 64) (w, s)).2.

(** Writing into an array from an index on. *)
Definition put (i : nat) (l block : bytes) : bytes := take i block ++ l ++ drop (i + length l) block.

Definition zeros (n : nat) : bytes := replicate n Byte.x00.

(** [uint8_t(bits >> (56-8*i))] for eight bytes. *)
Definition length_bytes (bits : Z) : bytes := map (fun i => z2b (Z.shiftr bits (56 - 8 * Z.of_nat i))) (seq 0 8).

Definition store_word (w : Z) : bytes := [z2b (Z.shiftr w 24); z2b (Z.shiftr w 16); z2b (Z.shiftr w 8); z2b w].

Definition output (s : State) : bytes :=
  let '(a, b, c, d, e, f, g, h) := s in concat (map store_word [a; b; c; d; e; f; g; h]).

(** The loop over whole blocks, with the array as it leaves it; a turn takes 64 bytes, so the
    length of the input is enough fuel. *)
Fixpoint whole_blocks (fuel : nat) (s : State) (block input : bytes) : State * bytes * bytes :=
  match fuel with
  | O => (s, block, input)
  | S fuel =>
      if 64 <=? zlen input then
        let block := put 0 (take 64 input) block in
        whole_blocks fuel (Transform s block) block (drop 64 input)
      else (s, block, input)
  end.

(** The array [state] of [Sha256]. *)
Definition initial : State :=
  (0x6a09e667, 0xbb67ae85, 0x3c6ef372, 0xa54ff53a, 0x510e527f, 0x9b05688c, 0x1f83d9ab, 0x5be0cd19).

(** What [InitState] assigns. *)
Definition InitState : State :=
  (0x6a09e667, 0xbb67ae85, 0x3c6ef372, 0xa54ff53a, 0x510e527f, 0x9b05688c, 0x1f83d9ab, 0x5be0cd19).

Definition Sha256 (input : bytes) : bytes :=
  let '(s, block, rest_bytes) := whole_blocks (length input) initial (zeros 64) input in
  let rest := length rest_bytes in
  let block := put 0 rest_bytes block in
  let block := put rest [Byte.x80] block in
  let '(s, block) :=
    if (56 <=? rest)%nat then
      let block := put (rest + 1) (zeros (63 - rest)) block in
      (Transform s block, put 0 (zeros 64) block)
    else (s, put (rest + 1) (zeros (55 - rest)) block) in
  let bits := wrapu 64 (zlen input * 8) in
  let block := put 56 (length_bytes bits) block in
  output (Transform s block).

Definition HeaderMidstate (base : bytes) : State := Transform InitState (take 64 base).

(** [block] is what the array holds before it is filled. *)
Definition HeaderHashFromMidstate (block base : bytes) (midstate : State) (nonce : Z) : bytes :=
  let block := put 0 (take 28 (drop 64 base)) block in
  let block := put 20 (map (fun i => z2b (Z.shiftr nonce (8 * Z.of_nat i))) (seq 0 8)) block in
  let block := put 28 [Byte.x80] block in
  let block := put 29 (zeros 27) block in
  let block := put 56 (length_bytes 736) block in
  output (Transform midstate block).

Fixpoint meets_from (digest target : bytes) (i : nat) (n : nat) : bool :=
  match n with
  | O => true
  | S n =>
      let value := b2z (digest !!! (31 - i)%nat) in
      if value <? b2z (target !!! i) then true
      else if value >? b2z (target !!! i) then false
      else meets_from digest target (S i) n
  end.
Definition Meets (digest target : bytes) : bool := meets_from digest target 0 32.

(** What a thread computes for one nonce. *)
Definition solves (stack base target : bytes) (nonce : Z) : bool :=
  Meets (Sha256 (HeaderHashFromMidstate stack base (HeaderMidstate base) nonce)) target.

(** ** The kernel's threads

    A thread is at the head of its loop, about to compare-and-swap [found], about to write
    [answer], or done; the shared state is the two words on the card.  The threads take their
    steps in any order. *)

Inductive Thread := Checking (i : Z) | Swapping (i : Z) | Writing (i : Z) | Finished.

Record Kernel := mkKernel { found : bool; answer : Z; threads : list Thread }.

Section search.
Context (good : Z -> bool) (start count stride : Z).

Definition thread_step (f : bool) (a : Z) (t : Thread) : bool * Z * Thread :=
  match t with
  | Checking i =>
      if negb (i <? count) then (f, a, Finished)
      else if f then (f, a, Finished)
      else if good (wrapu 64 (start + i)) then (f, a, Swapping i)
      else (f, a, Checking (wrapu 64 (i + stride)))
  | Swapping i => if f then (f, a, Checking (wrapu 64 (i + stride))) else (true, a, Writing i)
  | Writing i => (f, wrapu 64 (start + i), Checking (wrapu 64 (i + stride)))
  | Finished => (f, a, Finished)
  end.

(** The thread of an index takes a step. *)
Definition kernel_step (k : Kernel) (j : nat) : Kernel :=
  match threads k !! j with
  | None => k
  | Some t => let '(f, a, t) := thread_step (found k) (answer k) t in mkKernel f a (<[j := t]> (threads k))
  end.

Definition kernel_run (schedule : list nat) (k : Kernel) : Kernel := fold_left kernel_step schedule k.
End search.

(** A grid of blocks of threads, each with its index. *)
Definition launch (initial_answer blocks block_threads : Z) : Kernel :=
  mkKernel false initial_answer
    (concat (map (fun b => map (fun t => Checking (wrapu 64 (b * block_threads + t))) (seqZ 0 block_threads)) (seqZ 0 blocks))).

(** The kernel on a header: what it leaves when the threads were scheduled so. *)
Definition Search (stack base target : bytes) (start count blocks block_threads : Z) (schedule : list nat) (k : Kernel) : Kernel :=
  kernel_run (solves stack base target) start count (wrapu 64 (blocks * block_threads)) schedule k.

(** The calls into the CUDA runtime that fail. *)
Record Faults := mkFaults { alloc_fails : bool; copy_fails : bool; launch_fails : bool; found_unread : bool; answer_unread : bool }.

(** [garbage] is what the card's memory holds before anything is written to it. *)
Definition Mine (faults : Faults) (garbage : Z) (schedule : list nat) (stack header target : bytes) (start attempts blocks block_threads : Z) : option Z :=
  if (attempts =? 0) || (blocks =? 0) || (block_threads =? 0) then None
  else if alloc_fails faults then None
  else if copy_fails faults then None
  else
    let k := Search stack header target start attempts blocks block_threads schedule (launch garbage blocks block_threads) in
    let launched := negb (launch_fails faults) in
    let f := if launched && negb (found_unread faults) then found k else false in
    let f := if launched && negb (found_unread faults) && f && answer_unread faults then false else f in
    if launched && f then Some (answer k) else None.

(** *** The kernel's tables and functions are those of the standard *)

Lemma K_standard : K = Fips.K256.
Proof. reflexivity. Qed.

Lemma initial_standard : initial = H0 /\ InitState = H0.
Proof. split; reflexivity. Qed.

Lemma functions_standard x y z : Ch x y z = Fips.Choice x y z /\ Maj x y z = Fips.Majority x y z /\
  S0 x = Sigma0 x /\ S1 x = Sigma1 x /\ s0 x = sigma0 x /\ s1 x = sigma1 x.
Proof. split_and!; reflexivity. Qed.

Lemma add_to_standard s r : add_to s r = add_state s r.
Proof. reflexivity. Qed.

(** *** The rolling schedule is the schedule *)

Lemma slot_mod i : slot i = (i mod 16)%nat.
Proof. unfold slot. change 15%nat with (Nat.ones 4). by rewrite Nat.land_ones. Qed.

Lemma lor_disjoint a b k : 0 <= k -> 0 <= b < 2 ^ k -> (2 ^ k | a) -> Z.lor a b = a + b.
Proof. intros Hk Hb [q ->]. by apply lor_add. Qed.

Lemma load_word_be block i : (4 * i + 4 <= length block)%nat -> load_word block i = be_val (take 4 (drop (4 * i) block)).
Proof.
  intros Hl. unfold load_word.
  assert (exists b0 b1 b2 b3, take 4 (drop (4 * i) block) = [b0; b1; b2; b3]) as (b0 & b1 & b2 & b3 & E).
  { assert (length (take 4 (drop (4 * i) block)) = 4%nat) as L by (rewrite length_take, length_drop; lia).
    destruct (take 4 _) as [|b0 [|b1 [|b2 [|b3 []]]]]; try discriminate L. by exists b0, b1, b2, b3. }
  assert (forall j b, take 4 (drop (4 * i) block) !! j = Some b -> block !!! (4 * i + j)%nat = b) as L.
  { intros j b H. apply lookup_take_Some in H as [H _]. rewrite lookup_drop in H. by apply list_lookup_total_correct. }
  rewrite E in *. pose proof (L 0%nat b0 eq_refl) as L0. rewrite Nat.add_0_r in L0.
  rewrite L0, (L 1%nat b1 eq_refl), (L 2%nat b2 eq_refl), (L 3%nat b3 eq_refl), !Z.shiftl_mul_pow2 by lia.
  pose proof (b2z_range b0). pose proof (b2z_range b1). pose proof (b2z_range b2). pose proof (b2z_range b3).
  rewrite !be_val_cons, be_val_nil, !zlen_cons. change (zlen []) with 0.
  rewrite (lor_disjoint _ (b2z b1 * 2 ^ 16) 24), (lor_disjoint _ (b2z b2 * 2 ^ 8) 16), (lor_disjoint _ (b2z b3) 8); try lia.
  - exists (b2z b0 * 2 ^ 16 + b2z b1 * 2 ^ 8 + b2z b2). lia.
  - exists (b2z b0 * 2 ^ 8 + b2z b1). lia.
  - by exists (b2z b0).
Qed.

Lemma words_load n : forall block i, (4 * i + 4 * n <= length block)%nat -> words n (drop (4 * i) block) = map (load_word block) (seq i n).
Proof.
  induction n as [|n IH]; intros block i Hl; [done|]. cbn [words seq map]. rewrite load_word_be by lia. f_equal.
  rewrite drop_drop. replace (4 * i + 4)%nat with (4 * S i)%nat by lia. apply IH. lia.
Qed.

Lemma length_words n : forall block, length (words n block) = n.
Proof. induction n as [|n IH]; intros block; cbn; [done|]. by rewrite IH. Qed.

(** The recurrence the schedule satisfies. *)
Definition recurrence (W : list Z) (j : nat) : Z :=
  wrapu 32 (sigma1 (W !!! (j - 2)%nat) + W !!! (j - 7)%nat + sigma0 (W !!! (j - 15)%nat) + W !!! (j - 16)%nat).

Lemma extend_spec n : forall w, (16 <= length w)%nat -> (forall j, (16 <= j < length w)%nat -> w !!! j = recurrence w j) ->
  length (extend n w) = (length w + n)%nat /\ take (length w) (extend n w) = w /\
  forall j, (16 <= j < length w + n)%nat -> extend n w !!! j = recurrence (extend n w) j.
Proof.
  induction n as [|n IH]; intros w Hw Hr; cbn [extend].
  - rewrite Nat.add_0_r, firstn_all. auto.
  - destruct (IH (w ++ [next_word w])) as (L & T & Q); rewrite ?length_app in *; cbn [length] in *; [lia| |].
    + intros j Hj. unfold recurrence. rewrite !(lookup_total_app_l _ _ (j - _)) by lia. destruct (decide (j = length w)) as [->|].
      * by rewrite list_lookup_total_middle.
      * rewrite lookup_total_app_l by lia. apply Hr. lia.
    + split; [lia|]. split; [|intros j Hj; apply Q; lia].
      replace (length w) with (length w `min` (length w + 1))%nat by lia. by rewrite <- take_take, T, take_app_length.
Qed.

(** A window holds the last sixteen words of the schedule. *)
Definition window (W w : list Z) (i : nat) : Prop :=
  length w = 16%nat /\ forall j, (i - 16 <= j < i `max` 16)%nat -> w !!! slot j = W !!! j.

Lemma slot_lt i : (slot i < 16)%nat.
Proof. rewrite slot_mod. apply Nat.mod_upper_bound. lia. Qed.

Lemma slot_ne i j : (j < i)%nat -> (i < j + 16)%nat -> slot i <> slot j.
Proof.
  rewrite !slot_mod. intros H1 H2 E. pose proof (Nat.div_mod_eq i 16). pose proof (Nat.div_mod_eq j 16). nia.
Qed.

Lemma slot_16 i : (16 <= i)%nat -> slot i = slot (i - 16).
Proof. intros Hi. rewrite !slot_mod. replace i with (i - 16 + 1 * 16)%nat at 1 by lia. apply Nat.Div0.mod_add. Qed.

Section rolling.
Context (W : list Z) (HW : length W = 64%nat) (HR : forall j, (16 <= j < 64)%nat -> W !!! j = recurrence W j).

Lemma transform_step_round i w s : (i < 64)%nat -> window W w i ->
  exists w', transform_step i (w, s) = (w', round s (K !!! i) (W !!! i)) /\ window W w' (S i).
Proof.
  intros Hi [Hl Hw]. set (w' := if (16 <=? i)%nat then <[slot i := W !!! i]> w else w).
  assert (window W w' (S i)) as Hw'.
  { unfold w'. destruct (Nat.leb_spec 16 i).
    - split; [by rewrite length_insert|]. intros j Hj. destruct (decide (j = i)) as [->|].
      + apply list_lookup_total_insert_eq. rewrite Hl. apply slot_lt.
      + rewrite list_lookup_total_insert_ne by (apply slot_ne; lia). apply Hw. lia.
    - split; [done|]. intros j Hj. apply Hw. lia. }
  exists w'. split; [|done]. unfold transform_step, w' in *. destruct (Nat.leb_spec 16 i).
  - assert (wrapu 32 (s1 (w !!! slot (i - 2)) + w !!! slot (i - 7) + s0 (w !!! slot (i - 15)) + w !!! slot i) = W !!! i) as ->.
    { rewrite HR by lia. unfold recurrence. rewrite (slot_16 i), !Hw by lia. reflexivity. }
    destruct s as [[[[[[[a b] c] d] e] f] g] h]. rewrite (proj2 Hw' i) by lia. reflexivity.
  - destruct s as [[[[[[[a b] c] d] e] f] g] h]. rewrite (Hw i) by lia. reflexivity.
Qed.

Lemma transform_rounds n : forall i w s, (i + n = 64)%nat -> window W w i ->
  (fold_left (fun ws i => transform_step i ws) (seq i n) (w, s)).2 = rounds s (drop i K) (drop i W).
Proof using HW HR.
  induction n as [|n IH]; intros i w s Hn Hw; cbn [seq fold_left].
  - rewrite !drop_ge; [done|lia|cbn; lia].
  - destruct (transform_step_round i w s ltac:(lia) Hw) as (w' & -> & Hw').
    rewrite (IH (S i) w' _ ltac:(lia) Hw').
    rewrite (drop_S K (K !!! i) i) by (apply list_lookup_lookup_total_lt; cbn; lia).
    by rewrite (drop_S W (W !!! i) i) by (apply list_lookup_lookup_total_lt; lia).
Qed.
End rolling.

(** The kernel's transform compresses a block. *)
Lemma Transform_compress s block : length block = 64%nat -> Transform s block = compress s block.
Proof.
  intros Hb. unfold Transform, compress, schedule. f_equal.
  rewrite <- (words_load 16 block 0) by lia. rewrite drop_0. set (w := words 16 block).
  assert (length w = 16%nat) as Hw by apply length_words.
  destruct (extend_spec 48 w) as (L & T & Q); [lia|lia|]. rewrite Hw in *.
  rewrite (transform_rounds (extend 48 w) L Q 64 0 w s); [done|done|]. split; [done|]. intros j Hj.
  rewrite slot_mod, Nat.mod_small by lia. rewrite <- T at 1. apply list_lookup_total_correct. rewrite lookup_take_lt by lia.
  apply list_lookup_lookup_total_lt. lia.
Qed.

(** *** Filling a block *)

Lemma length_put i l block : length block = 64%nat -> (i + length l <= 64)%nat -> length (put i l block) = 64%nat.
Proof. intros Hb Hi. unfold put. rewrite !length_app, length_take, length_drop. lia. Qed.

(** Writing after a part that is settled settles more. *)
Lemma put_after (pre l block : bytes) : length block = 64%nat -> (length pre + length l <= 64)%nat -> take (length pre) block = pre ->
  take (length (pre ++ l)) (put (length pre) l block) = pre ++ l.
Proof.
  intros Hb Hl E. unfold put. rewrite E, app_assoc, take_app_length. done.
Qed.

Lemma block_settled (pre block : bytes) : length block = 64%nat -> length pre = 64%nat -> take (length pre) block = pre -> block = pre.
Proof. intros Hb Hp E. rewrite Hp, take_ge in E by lia. done. Qed.

Lemma length_zeros n : length (zeros n) = n.
Proof. apply length_replicate. Qed.

Lemma put_whole l block : length l = 64%nat -> length block = 64%nat -> put 0 l block = l.
Proof. intros Hl Hb. unfold put. rewrite take_0, drop_ge by lia. by rewrite app_nil_r. Qed.

Lemma le_split_shifts n : forall k z, le_split n (Z.shiftr z (8 * Z.of_nat k)) = map (fun i => z2b (Z.shiftr z (8 * Z.of_nat i))) (seq k n).
Proof.
  induction n as [|n IH]; intros k z; cbn [seq map]; [done|].
  change (le_split (S n) ?x) with (z2b x :: le_split n (Z.shiftr x 8)). rewrite <- IH, Z.shiftr_shiftr by lia. do 3 f_equal. lia.
Qed.

Lemma nonce_bytes_le z : map (fun i => z2b (Z.shiftr z (8 * Z.of_nat i))) (seq 0 8) = le_split 8 z.
Proof. rewrite <- (le_split_shifts 8 0). by rewrite Z.shiftr_0_r. Qed.

Lemma length_bytes_be bits : length_bytes bits = be_bytes 8 bits.
Proof. unfold be_bytes. rewrite <- nonce_bytes_le. reflexivity. Qed.

Lemma store_word_be w : store_word w = be_bytes 4 w.
Proof. unfold be_bytes, store_word. rewrite <- (Z.shiftr_0_r w) at 4 5. rewrite (le_split_shifts 4 0). by rewrite Z.shiftr_0_r at 1. Qed.

Lemma output_digest s : output s = digest s.
Proof. destruct s as [[[[[[[a b] c] d] e] f] g] h]. unfold output, digest. cbn [map]. by rewrite !store_word_be. Qed.

Lemma length_be_bytes n z : length (be_bytes n z) = n.
Proof. unfold be_bytes. by rewrite length_rev, length_le_split. Qed.

(** *** Whole blocks *)

#[local] Opaque Transform compress.

Lemma pad_block total c m : length c = 64%nat -> pad total (c ++ m) = c ++ pad total m.
Proof.
  intros Hc. unfold pad. rewrite <- app_assoc. do 4 f_equal. unfold zlen. rewrite length_app, Hc.
  rewrite Nat2Z.inj_add. replace (55 - (Z.of_nat 64 + Z.of_nat (length m))) with (55 - Z.of_nat (length m) + (-1) * 64) by lia. f_equal.
  f_equal. apply Z_mod_plus_full.
Qed.

Lemma absorb_block n s c m : length c = 64%nat -> absorb (S n) s (c ++ m) = absorb n (compress s c) m.
Proof. intros Hc. cbn [absorb]. by rewrite <- Hc, take_app_length, drop_app_length. Qed.

Lemma whole_blocks_absorb total fuel : forall s block input, length block = 64%nat -> (length input <= fuel)%nat ->
  exists s' block' rest, whole_blocks fuel s block input = (s', block', rest) /\ length block' = 64%nat /\ (length rest < 64)%nat /\
    absorb (length (pad total input) / 64) s (pad total input) = absorb (length (pad total rest) / 64) s' (pad total rest).
Proof.
  induction fuel as [|fuel IH]; intros s block input Hb Hf; cbn [whole_blocks].
  - exists s, block, input. split_and!; try done. lia.
  - destruct (Z.leb_spec 64 (zlen input)) as [Hl|Hl]; unfold zlen in Hl.
    + assert (length (take 64 input) = 64%nat) as Ht by (rewrite length_take; lia). rewrite put_whole by done. rewrite Transform_compress by done.
      destruct (IH (compress s (take 64 input)) (take 64 input) (drop 64 input) Ht) as (s' & block' & rest & E & Hb' & Hr & A); [rewrite length_drop; lia|].
      exists s', block', rest. split_and!; [done..|]. rewrite <- A. rewrite <- (take_drop 64 input) at 1 2. rewrite pad_block, length_app, Ht by done.
      replace (64 + length (pad total (drop 64 input)))%nat with (1 * 64 + length (pad total (drop 64 input)))%nat by lia.
      rewrite Nat.div_add_l by lia. by apply absorb_block.
    + exists s, block, input. split_and!; try done. lia.
Qed.

(** The tail of a message and its padding, as the kernel writes them. *)
Lemma tail_padded s block rest bits : length block = 64%nat -> (length rest < 64)%nat ->
  (let block := put 0 rest block in
   let block := put (length rest) [Byte.x80] block in
   let '(s, block) :=
     if (56 <=? length rest)%nat then
       let block := put (length rest + 1) (zeros (63 - length rest)) block in
       (Transform s block, put 0 (zeros 64) block)
     else (s, put (length rest + 1) (zeros (55 - length rest)) block) in
   Transform s (put 56 (length_bytes (8 * bits)) block)) = absorb (length (pad bits rest) / 64) s (pad bits rest).
Proof.
  intros Hb Hr. cbv zeta.
  assert (length (put 0 rest block) = 64%nat) as L0 by (apply length_put; [done|lia]).
  pose proof (put_after [] rest block Hb ltac:(cbn; lia) eq_refl) as E0. cbn [app length] in E0.
  set (b0 := put 0 rest block) in *.
  assert (length (put (length rest) [Byte.x80] b0) = 64%nat) as L1 by (apply length_put; [done|cbn; lia]).
  pose proof (put_after rest [Byte.x80] b0 L0 ltac:(cbn; lia) E0) as E1. set (b1 := put (length rest) [Byte.x80] b0) in *.
  replace (length rest + 1)%nat with (length (rest ++ [Byte.x80])) by (rewrite length_app; done).
  rewrite length_bytes_be. pose proof (length_be_bytes 8 (8 * bits)) as L8.
  assert (length (rest ++ [Byte.x80]) = S (length rest)) as Lr by (rewrite length_app; cbn; lia).
  destruct (Nat.leb_spec 56 (length rest)) as [H56|H56].
  - set (z := zeros (63 - length rest)). assert (length z = (63 - length rest)%nat) as Lz by apply length_zeros.
    assert (length (put (length (rest ++ [Byte.x80])) z b1) = 64%nat) as L2 by (apply length_put; [done|lia]).
    pose proof (put_after (rest ++ [Byte.x80]) z b1 L1 ltac:(lia) E1) as E2.
    apply block_settled in E2; [|done|rewrite length_app; lia]. rewrite E2.
    rewrite put_whole by (apply length_zeros || by rewrite <- E2).
    assert (put 56 (be_bytes 8 (8 * bits)) (zeros 64) = zeros 56 ++ be_bytes 8 (8 * bits)) as ->.
    { unfold put. rewrite L8. by rewrite app_nil_r. }
    assert (pad bits rest = ((rest ++ [Byte.x80]) ++ z) ++ (zeros 56 ++ be_bytes 8 (8 * bits)) ++ []) as ->.
    { unfold pad, z, zeros. rewrite app_nil_r, <- !app_assoc. do 2 f_equal. rewrite (app_assoc (replicate (63 - _) _)), <- replicate_add. do 2 f_equal.
      unfold zlen. rewrite <- (Z.mod_unique (55 - Z.of_nat (length rest)) 64 (-1) (119 - Z.of_nat (length rest))); lia. }
    replace (length _ / 64)%nat with 2%nat.
    + rewrite absorb_block by (rewrite length_app; lia). rewrite absorb_block by (rewrite length_app, L8, length_zeros; done). cbn [absorb].
      rewrite (Transform_compress s) by (rewrite length_app; lia). rewrite Transform_compress by (rewrite length_app, L8, length_zeros; lia). reflexivity.
    + rewrite !length_app, L8, !length_zeros. cbn [length]. rewrite Lz. replace (_ + _)%nat with 128%nat by lia. done.
  - set (z := zeros (55 - length rest)). assert (length z = (55 - length rest)%nat) as Lz by apply length_zeros.
    assert (length (put (length (rest ++ [Byte.x80])) z b1) = 64%nat) as L2 by (apply length_put; [done|lia]).
    pose proof (put_after (rest ++ [Byte.x80]) z b1 L1 ltac:(lia) E1) as E2. set (b2 := put _ z b1) in *.
    assert (length ((rest ++ [Byte.x80]) ++ z) = 56%nat) as L56 by (rewrite length_app; lia).
    pose proof (put_after ((rest ++ [Byte.x80]) ++ z) (be_bytes 8 (8 * bits)) b2 L2 ltac:(lia) E2) as E3. rewrite L56 in E3.
    apply block_settled in E3; [|apply length_put; [done|lia]|rewrite length_app; lia]. rewrite E3.
    assert (pad bits rest = (((rest ++ [Byte.x80]) ++ z) ++ be_bytes 8 (8 * bits)) ++ []) as ->.
    { unfold pad, z, zeros. rewrite app_nil_r, <- !app_assoc. do 4 f_equal. unfold zlen. rewrite Z.mod_small by lia. lia. }
    replace (length _ / 64)%nat with 1%nat.
    + rewrite absorb_block by (rewrite length_app; lia). cbn [absorb]. rewrite Transform_compress; [done|]. rewrite length_app. lia.
    + rewrite !length_app in *. cbn [length] in *. replace (_ + _)%nat with 64%nat by lia. done.
Qed.

Lemma Sha256_standard m : 8 * zlen m < 2 ^ 64 -> Sha256 m = sha256 m.
Proof.
  intros Hm. unfold Sha256, sha256.
  destruct (whole_blocks_absorb (zlen m) (length m) initial (zeros 64) m (length_zeros 64) (le_n _)) as (s' & block' & rest & E & Hb & Hr & A).
  rewrite E. cbv zeta. rewrite (proj1 initial_standard) in *. rewrite A, <- (tail_padded s' block' rest (zlen m) Hb Hr), <- output_digest.
  rewrite wrapu_small by (pose proof (zlen_nonneg m); lia). replace (zlen m * 8) with (8 * zlen m) by lia.
  cbv zeta. by destruct (_ <=? _)%nat.
Qed.

(** *** One header *)

Lemma header_hash stack base nonce : length stack = 64%nat -> length base = 92%nat ->
  HeaderHashFromMidstate stack base (HeaderMidstate base) nonce = sha256 (take 84 base ++ le_split 8 nonce).
Proof.
  intros Hs Hb. unfold HeaderHashFromMidstate, HeaderMidstate. cbv zeta. rewrite nonce_bytes_le, length_bytes_be.
  set (tail := take 20 (drop 64 base)). set (n := le_split 8 nonce).
  assert (length tail = 20%nat) as Lt by (unfold tail; rewrite length_take, length_drop; lia).
  assert (length n = 8%nat) as Ln by apply length_le_split.
  assert (length (take 28 (drop 64 base)) = 28%nat) as L28 by (rewrite length_take, length_drop; lia).
  pose proof (length_put 0 (take 28 (drop 64 base)) stack Hs ltac:(lia)) as L0.
  assert (take (length tail) (put 0 (take 28 (drop 64 base)) stack) = tail) as E0.
  { unfold put. rewrite take_0. cbn [app]. rewrite take_app_le by lia. rewrite Lt, take_take. done. }
  set (b0 := put 0 _ stack) in *.
  pose proof (put_after tail n b0 L0 ltac:(lia) E0) as E1. pose proof (length_put (length tail) n b0 L0 ltac:(lia)) as L1. rewrite Lt in E1, L1 at 1.
  set (b1 := put 20 n b0) in *. assert (length (tail ++ n) = 28%nat) as L2 by (rewrite length_app; lia).
  pose proof (put_after (tail ++ n) [Byte.x80] b1 L1 ltac:(cbn [length]; lia) E1) as E2. pose proof (length_put 28 [Byte.x80] b1 L1 ltac:(cbn; lia)) as L3. rewrite L2 in E2.
  set (b2 := put 28 _ b1) in *. assert (length ((tail ++ n) ++ [Byte.x80]) = 29%nat) as L4 by (rewrite length_app; cbn; lia).
  pose proof (put_after ((tail ++ n) ++ [Byte.x80]) (zeros 27) b2 L3 ltac:(rewrite length_zeros; lia) E2) as E3. pose proof (length_put 29 (zeros 27) b2 L3 ltac:(rewrite length_zeros; lia)) as L5. rewrite L4 in E3.
  set (b3 := put 29 _ b2) in *. assert (length (((tail ++ n) ++ [Byte.x80]) ++ zeros 27) = 56%nat) as L6 by (rewrite length_app, length_zeros; lia).
  pose proof (length_be_bytes 8 736) as L8.
  pose proof (put_after (((tail ++ n) ++ [Byte.x80]) ++ zeros 27) (be_bytes 8 736) b3 L5 ltac:(lia) E3) as E4. rewrite L6 in E4.
  apply block_settled in E4; [|apply length_put; [done|lia]|rewrite length_app; lia]. rewrite E4.
  assert (length (take 64 base) = 64%nat) as L64 by (rewrite length_take; lia).
  assert (take 84 base = take 64 base ++ tail) as -> by (unfold tail; rewrite <- (take_drop 64 base) at 1; rewrite take_app_ge by lia; by rewrite L64).
  unfold sha256. rewrite <- (app_assoc (take 64 base)). assert (zlen (take 64 base ++ tail ++ n) = 92) as -> by (unfold zlen; rewrite !length_app; lia).
  rewrite pad_block by done.
  assert (pad 92 (tail ++ n) = ((((tail ++ n) ++ [Byte.x80]) ++ zeros 27) ++ be_bytes 8 736) ++ []) as ->.
  { unfold pad. unfold zlen. rewrite L2, app_nil_r, <- !app_assoc. reflexivity. }
  replace (length _ / 64)%nat with 2%nat by (rewrite !length_app, Lt, Ln, L64, L8, length_zeros; reflexivity).
  rewrite !absorb_block by (done || rewrite length_app; lia). cbn [absorb].
  rewrite !Transform_compress by (done || rewrite length_app; lia). apply output_digest.
Qed.

Lemma meets_from_loop digest target n : forall i, length digest = 32%nat -> length target = 32%nat -> (i + n = 32)%nat ->
  meets_from digest target i n = Target.meets_loop (drop i (rev digest)) (drop i target).
Proof.
  induction n as [|n IH]; intros i Hd Ht Hi; cbn [meets_from].
  - rewrite !drop_ge by (rewrite ?length_rev; lia). done.
  - rewrite (drop_S (rev digest) (digest !!! (31 - i)%nat) i), (drop_S target (target !!! i) i).
    + cbn [Target.meets_loop]. rewrite IH by lia. rewrite Z.gtb_ltb. destruct (Z.ltb_spec (b2z (digest !!! (31 - i)%nat)) (b2z (target !!! i))), (Z.ltb_spec (b2z (target !!! i)) (b2z (digest !!! (31 - i)%nat))),
        (Z.eqb_spec (b2z (digest !!! (31 - i)%nat)) (b2z (target !!! i))); cbn [negb]; try lia; done.
    + apply list_lookup_lookup_total_lt. lia.
    + rewrite rev_alt. change (rev_append digest []) with (reverse digest). rewrite reverse_lookup by lia. rewrite Hd. replace (32 - S i)%nat with (31 - i)%nat by lia. apply list_lookup_lookup_total_lt. lia.
Qed.

Lemma solves_spec stack base target nonce : length stack = 64%nat -> length base = 92%nat -> length target = 32%nat ->
  solves stack base target nonce = Target.HashMeetsTarget (@DoubleSha256 fips_Sha256Impl (take 84 base ++ le_split 8 nonce)) target.
Proof.
  intros Hs Hb Ht. unfold solves, Meets. rewrite header_hash by done.
  assert (zlen (sha256 (take 84 base ++ le_split 8 nonce)) = 32) as L by apply length_sha256.
  rewrite Sha256_standard by (rewrite L; lia). pose proof (length_sha256 (sha256 (take 84 base ++ le_split 8 nonce))) as L2. unfold zlen in L2.
  rewrite meets_from_loop by lia. by rewrite !drop_0.
Qed.

(** *** The threads *)

Section threads.
Context (good : Z -> bool) (start count stride : Z).
Context (Hstart : 0 <= start) (Hcount : 0 <= count) (Hstride : 0 < stride) (Hrange : start + count <= 2 ^ 64) (Hwrap : count + stride <= 2 ^ 64).

(** What one thread may have left behind: it has passed no nonce of its own that is good. *)
Definition passed (j i : Z) : Prop := forall x, 0 <= x < count -> x < i -> x mod stride = j -> good (start + x) = false.

(** What holds of a thread while no nonce was found. *)
Definition searching (j : Z) (t : Thread) : Prop :=
  match t with
  | Checking i => 0 <= i < count + stride /\ i mod stride = j /\ passed j i
  | Swapping i => 0 <= i < count /\ i mod stride = j /\ passed j i /\ good (start + i) = true
  | Writing _ => False
  | Finished => passed j count
  end.

(** What holds once one was. *)
Definition winding (t : Thread) : Prop :=
  match t with
  | Checking i => 0 <= i < count + stride
  | Swapping i => 0 <= i < count
  | Writing i => 0 <= i < count /\ good (start + i) = true
  | Finished => True
  end.

Definition is_solution (nonce : Z) : Prop := start <= nonce < start + count /\ good nonce = true.

Definition kernel_inv (k : Kernel) : Prop :=
  length (threads k) = Z.to_nat stride /\
  if found k then (forall j t, threads k !! j = Some t -> winding t) /\ (is_solution (answer k) \/ exists j i, threads k !! j = Some (Writing i))
  else forall j t, threads k !! j = Some t -> searching (Z.of_nat j) t.

Lemma searching_winding j t : searching j t -> winding t.
Proof. destruct t; cbn; naive_solver. Qed.

Lemma next_index j i : 0 <= i < count -> i mod stride = j -> wrapu 64 (i + stride) = i + stride /\ (i + stride) mod stride = j.
Proof.
  intros Hi Hm. split; [apply wrapu_small; lia|]. replace (i + stride) with (i + 1 * stride) by lia. by rewrite Z_mod_plus_full.
Qed.

(** Between an index and the thread's next there is none of its own. *)
Lemma passed_next j i : 0 <= i -> i mod stride = j -> passed j i -> good (start + i) = false \/ count <= i -> passed j (i + stride).
Proof.
  intros Hi Hm P G x Hx Hl Hxm. destruct (Z.lt_trichotomy x i) as [|[->|]]; [by apply P|destruct G; [done|lia]|].
  exfalso. pose proof (Z.div_mod x stride ltac:(lia)). pose proof (Z.div_mod i stride ltac:(lia)).
  set (q := x / stride - i / stride). assert (x - i = stride * q) as E by (unfold q; nia). assert (0 < q) by nia. nia.
Qed.

Lemma kernel_step_inv k j : kernel_inv k -> kernel_inv (kernel_step good start count stride k j).
Proof using Hstart Hcount Hstride Hrange Hwrap.
  intros [Hlen H]. unfold kernel_step. destruct (threads k !! j) as [t|] eqn:Ej; [|by split].
  pose proof (lookup_lt_Some _ _ _ Ej) as Hj.
  assert (forall i, 0 <= i < count -> wrapu 64 (start + i) = start + i) as Hn by (intros i Hi; apply wrapu_small; lia).
  assert (forall i, 0 <= i < count -> wrapu 64 (i + stride) = i + stride) as Hs by (intros i Hi; apply wrapu_small; lia).
  unfold kernel_inv. destruct (found k) eqn:Ef.
  - destruct H as [Hw Ha]. pose proof (Hw _ _ Ej) as Ht.
    assert (forall a t', winding t' -> (is_solution a \/ exists i, t' = Writing i \/ a = answer k /\ forall i, t <> Writing i) ->
      length (<[j:=t']> (threads k)) = Z.to_nat stride /\
      (forall j' t0, <[j:=t']> (threads k) !! j' = Some t0 -> winding t0) /\
      (is_solution a \/ exists j' i, <[j:=t']> (threads k) !! j' = Some (Writing i))) as Step.
    { intros a t' Hw' Ho. split_and!; [by rewrite length_insert| |].
      - intros j' t0. rewrite list_lookup_insert. case_decide; [intros [= <-]; done|apply Hw].
      - destruct Ho as [Ho|(i & [->|[-> Hne]])]; [by left|right; exists j, i; by apply list_lookup_insert_eq|].
        destruct Ha as [Ha|(j' & i' & Ha)]; [by left|]. right. exists j', i'. rewrite list_lookup_insert_ne; [done|]. intros ->. rewrite Ej in Ha. by destruct (Hne i'); injection Ha. }
    destruct t as [i|i|i|]; cbn [thread_step winding searching] in *.
    + destruct (negb (i <? count)); apply Step; try done; right; exists 0; right; (split; [done|]); by intros.
    + apply Step; [cbn; rewrite Hs by lia; lia|]. right. exists 0. right. split; [done|]. by intros.
    + destruct Ht as [Hi Hg]. apply Step; [cbn; rewrite Hs by lia; lia|]. left. rewrite Hn by lia. cbn. split; [lia|done].
    + apply Step; [done|]. right. exists 0. right. split; [done|]. by intros.
  - pose proof (H _ _ Ej) as Ht.
    assert (forall t', searching (Z.of_nat j) t' -> forall j' t0, <[j:=t']> (threads k) !! j' = Some t0 -> searching (Z.of_nat j') t0) as Step.
    { intros t' Ht' j' t0. rewrite list_lookup_insert. case_decide as D; [destruct D as [-> _]; intros [= <-]; done|apply H]. }
    destruct t as [i|i|i|]; cbn [thread_step winding searching] in *.
    + destruct Ht as (Hi & Hm & P). destruct (Z.ltb_spec i count); cbn [negb].
      * rewrite Hn by lia. destruct (good (start + i)) eqn:G; cbn [found answer threads]; (split; [by rewrite length_insert|]); apply Step; cbn.
        -- split_and!; try done; lia.
        -- rewrite Hs by lia. split_and!; [lia|lia|by apply (next_index _ i ltac:(lia) Hm)|]. apply passed_next; [lia|done|done|by left].
      * cbn [found threads]. split; [by rewrite length_insert|]. apply Step. intros x Hx _ Hxm. apply P; [lia|lia|done].
    + destruct Ht as (Hi & Hm & P & G). cbn [found answer threads]. split; [by rewrite length_insert|]. split.
      * intros j' t0. rewrite list_lookup_insert. case_decide; [intros [= <-]; cbn; split; [lia|done]|]. intros E. eapply searching_winding, H, E.
      * right. exists j, i. by apply list_lookup_insert_eq.
    + done.
    + cbn [found threads]. split; [by rewrite length_insert|]. by apply Step.
Qed.

Lemma kernel_run_inv schedule : forall k, kernel_inv k -> kernel_inv (kernel_run good start count stride schedule k).
Proof using Hstart Hcount Hstride Hrange Hwrap. unfold kernel_run. induction schedule as [|j schedule IH]; intros k Hk; [done|]. apply IH. by apply kernel_step_inv. Qed.

(** When all threads are done, the answer is right either way. *)
Lemma kernel_result k : kernel_inv k -> Forall (eq Finished) (threads k) ->
  if found k then is_solution (answer k) else forall nonce, start <= nonce < start + count -> good nonce = false.
Proof using Hcount Hstride.
  intros [Hlen H] F. rewrite Forall_lookup in F. destruct (found k).
  - destruct H as [_ [H|(j & i & H)]]; [done|]. by apply F in H.
  - intros nonce Hn. set (x := nonce - start). pose proof (Z.mod_pos_bound x stride Hstride) as Hm.
    destruct (lookup_lt_is_Some_2 (threads k) (Z.to_nat (x mod stride)) ltac:(lia)) as [t Et].
    pose proof (H _ _ Et) as Ht. rewrite <- (F _ _ Et) in Ht. cbn in Ht. rewrite Z2Nat.id in Ht by lia.
    replace nonce with (start + x) by lia. apply Ht; lia.
Qed.

(** A bound on the steps a thread has left. *)
Definition turns (t : Thread) : Z :=
  match t with
  | Checking i => 3 * (count + stride - i) + 1
  | Swapping i => 3 * (count + stride - i)
  | Writing i => 3 * (count + stride - i) - 1
  | Finished => 0
  end.

Lemma kernel_inv_winding k j t : kernel_inv k -> threads k !! j = Some t -> winding t.
Proof.
  intros [_ H] E. destruct (found k); [by apply (proj1 H j)|]. by eapply searching_winding, H.
Qed.

Lemma kernel_step_turns k j t : kernel_inv k -> threads k !! j = Some t ->
  exists t', threads (kernel_step good start count stride k j) !! j = Some t' /\ (t' = Finished \/ turns t' <= turns t - 1).
Proof using Hstart Hcount Hstride Hrange Hwrap.
  intros Hk Ej. pose proof (kernel_inv_winding _ _ _ Hk Ej) as W. unfold kernel_step. rewrite Ej. pose proof (lookup_lt_Some _ _ _ Ej) as Hj.
  assert (forall i, 0 <= i < count -> wrapu 64 (i + stride) = i + stride) as Hs by (intros i Hi; apply wrapu_small; lia).
  destruct (thread_step good start count stride (found k) (answer k) t) as [[f a] t'] eqn:E. exists t'. split; [by apply list_lookup_insert_eq|].
  destruct t as [i|i|i|]; cbn [thread_step winding turns] in *.
  - destruct (Z.ltb_spec i count); cbn [negb] in E; [|injection E as <- <- <-; by left].
    destruct (found k); [injection E as <- <- <-; by left|]. destruct (good _); injection E as <- <- <-; right; cbn [turns]; rewrite ?Hs by lia; lia.
  - destruct (found k); injection E as <- <- <-; right; cbn [turns]; rewrite ?Hs by lia; lia.
  - injection E as <- <- <-; right; cbn [turns]; rewrite ?Hs by lia; lia.
  - injection E as <- <- <-. by left.
Qed.

Lemma kernel_step_other k j j' : j <> j' -> threads (kernel_step good start count stride k j) !! j' = threads k !! j'.
Proof.
  intros Hne. unfold kernel_step. destruct (threads k !! j) as [t|]; [|done]. destruct (thread_step _ _ _ _ _ _ _) as [[f a] t'].
  by apply list_lookup_insert_ne.
Qed.

(** A thread that is scheduled as often as it has steps left is done. *)
Lemma thread_finishes schedule : forall k j t, kernel_inv k -> threads k !! j = Some t ->
  turns t <= Z.of_nat (count_occ Nat.eq_dec schedule j) -> threads (kernel_run good start count stride schedule k) !! j = Some Finished.
Proof using Hstart Hcount Hstride Hrange Hwrap.
  unfold kernel_run. induction schedule as [|x schedule IH]; intros k j t Hk Ej Ht; cbn [fold_left].
  - pose proof (kernel_inv_winding _ _ _ Hk Ej) as W. cbn in Ht. destruct t as [i|i|i|]; cbn in W, Ht; try lia. done.
  - cbn [count_occ] in Ht. destruct (Nat.eq_dec x j) as [->|Hne].
    + destruct (kernel_step_turns k j t Hk Ej) as (t' & Et & Hdec). apply (IH _ j t'); [by apply kernel_step_inv|done|].
      destruct Hdec as [->|Hdec]; [cbn [turns]|]; lia.
    + apply (IH _ j t); [by apply kernel_step_inv|by rewrite kernel_step_other|lia].
Qed.
End threads.

Lemma launch_indices n bt : 0 <= bt -> Z.of_nat n * bt <= 2 ^ 64 ->
  concat (map (fun b => map (fun t => Checking (wrapu 64 (b * bt + t))) (seqZ 0 bt)) (seqZ 0 (Z.of_nat n))) = map Checking (seqZ 0 (Z.of_nat n * bt)).
Proof.
  intros Hb. induction n as [|n IH]; intros Hn; [done|]. rewrite seqZ_S, map_app, concat_app, IH by lia. cbn [map concat]. rewrite app_nil_r.
  replace (Z.of_nat (S n) * bt) with (Z.of_nat n * bt + bt) by lia. rewrite seqZ_app by lia. rewrite map_app. f_equal.
  rewrite !Z.add_0_l. assert (seqZ (Z.of_nat n * bt) bt = Z.add (Z.of_nat n * bt) <$> seqZ 0 bt) as -> by (rewrite fmap_add_seqZ; f_equal; lia).
  change (map Checking) with (fmap (M := list) Checking). rewrite <- list_fmap_compose. apply list_fmap_ext. intros i x Hx. apply lookup_seqZ in Hx as [-> Hx]. cbn. rewrite wrapu_small; [done|]. nia.
Qed.

Section grid.
Context (good : Z -> bool) (start count blocks block_threads garbage : Z).
Context (Hrange : 0 <= start /\ 0 <= count /\ start + count <= 2 ^ 64).
Context (Hgrid : 0 < blocks /\ 0 < block_threads /\ count + blocks * block_threads <= 2 ^ 64).

Lemma launch_threads j t : threads (launch garbage blocks block_threads) !! j = Some t ->
  t = Checking (Z.of_nat j) /\ Z.of_nat j < blocks * block_threads.
Proof using Hrange Hgrid.
  unfold launch. cbn [threads]. pose proof (launch_indices (Z.to_nat blocks) block_threads ltac:(lia) ltac:(rewrite Z2Nat.id; lia)) as E. rewrite Z2Nat.id in E by lia. rewrite E.
  intros H. apply list_lookup_fmap_Some in H as (x & -> & H). apply lookup_seqZ in H as [-> H]. split; [done|lia].
Qed.

Lemma launch_size : length (threads (launch garbage blocks block_threads)) = Z.to_nat (blocks * block_threads).
Proof using Hrange Hgrid.
  unfold launch. cbn [threads]. pose proof (launch_indices (Z.to_nat blocks) block_threads ltac:(lia) ltac:(rewrite Z2Nat.id; lia)) as E. rewrite Z2Nat.id in E by lia. rewrite E.
  by rewrite length_map, length_seqZ.
Qed.

Lemma launch_inv : kernel_inv good start count (blocks * block_threads) (launch garbage blocks block_threads).
Proof using Hrange Hgrid.
  split; [apply launch_size|]. intros j t [-> Hj]%launch_threads. cbn. split_and!; [lia|lia|apply Z.mod_small; lia|].
  intros x Hx Hlt Hm. rewrite Z.mod_small in Hm; lia.
Qed.

(** A fair schedule, of any order, searches the whole range. *)
Lemma grid_searched schedule :
  (forall j, (j < Z.to_nat (blocks * block_threads))%nat -> 3 * (count + blocks * block_threads) + 1 <= Z.of_nat (count_occ Nat.eq_dec schedule j)) ->
  let k := kernel_run good start count (blocks * block_threads) schedule (launch garbage blocks block_threads) in
  if found k then is_solution good start count (answer k) else forall nonce, start <= nonce < start + count -> good nonce = false.
Proof using Hrange Hgrid.
  intros Hfair k. pose proof (kernel_run_inv good start count (blocks * block_threads) ltac:(lia) ltac:(lia) ltac:(lia) ltac:(lia) ltac:(lia) schedule _ launch_inv) as Hk.
  apply (kernel_result good start count (blocks * block_threads)); [lia|lia|exact Hk|]. apply Forall_lookup. intros j t Et.
  assert (j < Z.to_nat (blocks * block_threads))%nat as Hj by (rewrite <- (proj1 Hk); by eapply lookup_lt_Some).
  destruct (lookup_lt_is_Some_2 (threads (launch garbage blocks block_threads)) j ltac:(rewrite launch_size; lia)) as [t0 E0].
  pose proof (launch_threads _ _ E0) as [-> Hjs].
  pose proof (thread_finishes good start count (blocks * block_threads) ltac:(lia) ltac:(lia) ltac:(lia) ltac:(lia) ltac:(lia) schedule _ j _ launch_inv E0) as F.
  unfold k in Et. rewrite F in Et; [by injection Et|]. cbn [turns]. specialize (Hfair j Hj). lia.
Qed.
End grid.

(** ** Theorems *)

Lemma header_layout h : BlockHeader_ok h -> exists pre, length pre = 84%nat /\
  forall nonce, encode BlockHeader_Serialize (Genesis.with_nonce h nonce) = pre ++ le_split 8 nonce.
Proof.
  intros (_ & _ & Hp & Hm & _).
  exists (encode WriteU32 (hdr_version h) ++ encode WriteU32 (hdr_height h) ++ encode WriteHash256 (hdr_prev_block h) ++
    encode WriteHash256 (hdr_merkle_root h) ++ encode WriteI64 (hdr_timestamp h) ++ encode WriteU32 (hdr_target_bits h)). split.
  - assert (zlen (hdr_prev_block h) = 32) as E1 by exact Hp. assert (zlen (hdr_merkle_root h) = 32) as E2 by exact Hm.
    apply Nat2Z.inj. change (Z.of_nat (length ?l)) with (zlen l). autorewrite with amarian. rewrite E1, E2. reflexivity.
  - intros nonce. rewrite flat_BlockHeader. by rewrite !app_nil_r, <- !app_assoc.
Qed.

Lemma same_nonce h : Genesis.with_nonce h (hdr_nonce h) = h.
Proof. by destruct h. Qed.

(** C20: The kernel computes the hash the node judges by.  Its SHA-256, with sixteen words of
    schedule that roll and an array that is filled by hand, is that of the standard on every
    input; and from the shared state after the first 64 bytes of any header, whatever the
    thread's memory held, it gives for every nonce the block hash of the header with that
    nonce. *)
Theorem gpu_hashes_header (stack : bytes) (h : BlockHeader) (nonce : Z) (Hs : length stack = 64%nat) (Hh : BlockHeader_ok h) :
  (forall m, 8 * zlen m < 2 ^ 64 -> Sha256 m = sha256 m) /\
  Sha256 (HeaderHashFromMidstate stack (encode BlockHeader_Serialize h) (HeaderMidstate (encode BlockHeader_Serialize h)) nonce) =
  @BlockHeader_Hash fips_Sha256Impl (Genesis.with_nonce h nonce).
Proof.
  split; [apply Sha256_standard|]. destruct (header_layout h Hh) as (pre & Lp & E). rewrite <- (same_nonce h) at 1 2. rewrite E.
  assert (length (pre ++ le_split 8 (hdr_nonce h)) = 92%nat) as L by (rewrite length_app, length_le_split; lia).
  rewrite header_hash by done. rewrite Sha256_standard by (rewrite length_sha256; lia).
  rewrite take_app_le, take_ge by lia. rewrite <- E. reflexivity.
Qed.

(** Whether a call into the runtime fails. *)
Definition faulty (f : Faults) : bool := alloc_fails f || copy_fails f || launch_fails f || found_unread f || answer_unread f.

(** The search, for the claim below and the program that uses it. *)
Lemma mine_searches (faults : Faults) (garbage : Z) (schedule : list nat) (stack : bytes) (h : BlockHeader) (target : bytes)
    (start attempts blocks block_threads : Z) (Hh : BlockHeader_ok h) (Hs : length stack = 64%nat) (Ht : length target = 32%nat)
    (Hrange : 0 <= start /\ 0 <= attempts /\ start + attempts <= 2 ^ 64)
    (Hgrid : 0 < blocks /\ 0 < block_threads /\ attempts + blocks * block_threads <= 2 ^ 64)
    (Hfair : forall j, (j < Z.to_nat (blocks * block_threads))%nat ->
       3 * (attempts + blocks * block_threads) + 1 <= Z.of_nat (count_occ Nat.eq_dec schedule j)) :
  let meets nonce := Target.HashMeetsTarget (@BlockHeader_Hash fips_Sha256Impl (Genesis.with_nonce h nonce)) target in
  match Mine faults garbage schedule stack (encode BlockHeader_Serialize h) target start attempts blocks block_threads with
  | Some nonce => start <= nonce < start + attempts /\ meets nonce = true
  | None => faulty faults = true \/ forall nonce, start <= nonce < start + attempts -> meets nonce = false
  end.
Proof.
  intros meets. set (base := encode BlockHeader_Serialize h).
  assert (forall nonce, solves stack base target nonce = meets nonce) as Hm.
  { intros nonce. destruct (header_layout h Hh) as (pre & Lp & E). unfold base. rewrite <- (same_nonce h) at 1. rewrite E.
    rewrite solves_spec by (rewrite ?length_app, ?length_le_split; lia). rewrite take_app_le, take_ge by lia. rewrite <- E. done. }
  pose proof (grid_searched (solves stack base target) start attempts blocks block_threads garbage Hrange Hgrid schedule Hfair) as G. cbv zeta in G.
  unfold Mine, Search.
  destruct ((attempts =? 0) || (blocks =? 0) || (block_threads =? 0)) eqn:Z0.
  { right. intros nonce Hn. destruct (Z.eqb_spec attempts 0), (Z.eqb_spec blocks 0), (Z.eqb_spec block_threads 0); cbn in Z0; lia || done. }
  assert (attempts <> 0) by (destruct (Z.eqb_spec attempts 0); [done|done]).
  rewrite (wrapu_small 64 (blocks * block_threads)) by lia. set (k := kernel_run _ _ _ _ _ _) in *.
  unfold faulty. destruct faults as [f1 f2 f3 f4 f5]. cbn [alloc_fails copy_fails launch_fails found_unread answer_unread].
  destruct f1; [by left|]. destruct f2; [by left|]. destruct f3; [by left|]. destruct f4; [by left|]. cbn [negb andb orb].
  destruct (found k).
  - destruct f5; [by left|]. cbn [negb andb]. destruct G as [Gr Gs]. rewrite Hm in Gs. done.
  - right. intros nonce Hn. rewrite <- Hm. by apply G.
Qed.

(** The search on the card is exact.  Whatever the order in which its threads run, as long
    as each gets its turns, and whatever was in the card's memory, a nonce that is reported
    lies in the range asked for and solves the header; and if none is reported then either a
    call into the runtime failed or no nonce of the range solves it. *)
Theorem mine_exact (faults : Faults) (garbage : Z) (schedule : list nat) (stack : bytes) (h : BlockHeader) (target : bytes)
    (start attempts blocks block_threads : Z) (Hh : BlockHeader_ok h) (Hs : length stack = 64%nat) (Ht : length target = 32%nat)
    (Hrange : 0 <= start /\ 0 <= attempts /\ start + attempts <= 2 ^ 64)
    (Hgrid : 0 < blocks /\ 0 < block_threads /\ attempts + blocks * block_threads <= 2 ^ 64)
    (Hfair : forall j, (j < Z.to_nat (blocks * block_threads))%nat ->
       3 * (attempts + blocks * block_threads) + 1 <= Z.of_nat (count_occ Nat.eq_dec schedule j)) :
  let meets nonce := Target.HashMeetsTarget (@BlockHeader_Hash fips_Sha256Impl (Genesis.with_nonce h nonce)) target in
  match Mine faults garbage schedule stack (encode BlockHeader_Serialize h) target start attempts blocks block_threads with
  | Some nonce => start <= nonce < start + attempts /\ meets nonce = true
  | None => faulty faults = true \/ forall nonce, start <= nonce < start + attempts -> meets nonce = false
  end.
Proof. by apply mine_searches. Qed.

(** The genesis block of every network is what its parameters say.  With SHA-256 as the
    standard defines it, the block built from the table has the recorded hash, meets its
    target and has its shape: the encodings, the identifiers, the Merkle root and the work
    test of this model give the published values. *)
Theorem genesis_blocks_valid (net : Params.Network) : @Genesis.CheckGenesis fips_Sha256Impl (Params.ParamsFor net) = Genesis.NoFault.
Proof. destruct net; vm_compute; reflexivity. Qed.

(** *** Witnesses *)

Definition sample_header : BlockHeader := blk_header (@Genesis.BuildGenesisBlock fips_Sha256Impl Params.REGTEST_PARAMS).
Definition no_faults : Faults := mkFaults false false false false false.

Lemma gpu_sample_header_ok : BlockHeader_ok sample_header.
Proof. vm_compute. repeat split; discriminate. Qed.

Lemma gpu_hashes_header_witness :
  Sha256 (HeaderHashFromMidstate (zeros 64) (encode BlockHeader_Serialize sample_header) (HeaderMidstate (encode BlockHeader_Serialize sample_header)) (hdr_nonce sample_header)) =
  Params.genesis_hash Params.REGTEST_PARAMS.
Proof.
  rewrite (proj2 (gpu_hashes_header (zeros 64) sample_header (hdr_nonce sample_header) eq_refl gpu_sample_header_ok)). vm_compute. reflexivity.
Defined.

Definition easy_target : bytes := replicate 32 Byte.xff.
Definition two_threads : list nat := concat (replicate 13 [0; 1]%nat).

Lemma mine_exact_witness : exists nonce,
  Mine no_faults 7 two_threads (zeros 64) (encode BlockHeader_Serialize sample_header) easy_target 5 2 1 2 = Some nonce /\ 5 <= nonce < 7 /\
  Target.HashMeetsTarget (@BlockHeader_Hash fips_Sha256Impl (Genesis.with_nonce sample_header nonce)) easy_target = true.
Proof.
  pose proof (mine_exact no_faults 7 two_threads (zeros 64) sample_header easy_target 5 2 1 2 gpu_sample_header_ok eq_refl eq_refl ltac:(lia) ltac:(lia)) as M.
  assert (Mine no_faults 7 two_threads (zeros 64) (encode BlockHeader_Serialize sample_header) easy_target 5 2 1 2 = Some 5) as E by (vm_compute; reflexivity).
  exists 5. split; [exact E|]. rewrite E in M. apply M. intros j Hj. change (Z.to_nat (1 * 2)) with 2%nat in Hj.
  destruct j as [|[|j]]; [vm_compute; discriminate|vm_compute; discriminate|lia].
Defined.

(** *** Published values

    What the repository's own tests and protocol document record, on the model with the
    hash function of the standard. *)

Section published.
#[local] Existing Instance fips_Sha256Impl.

Example published_hashes :
  Hex.ToHex (DoubleSha256 (str "abc")) = str "4f8b42c22dd3729b519ba6f68d2da7cc5b2d606d05daed5ad5128cc03e6c6358" /\
  Hex.ToHex (TaggedHash (str "Amarian/MerkleLeaf") [Byte.x00; Byte.x01; Byte.x02; Byte.x03]) =
    str "c5d359e1f85809f86d88386fb2b0ee3b2191b77986ca5f5531918b579a725fcd".
Proof. split; vm_compute; reflexivity. Qed.

Definition test_ids (n : nat) : list bytes := map (fun value => replicate 32 (z2b (Z.of_nat value))) (seq 0 n).

Example published_roots :
  map (fun n => Hex.ToHex <$> Merkle.ComputeMerkleRoot (test_ids n)) [0; 1; 2; 3]%nat =
  [None;
   Some (str "12ffa1211615a6a0f7e887ef8a281c8a160da0bf88da67b73cc3304db0211848");
   Some (str "3bbf1c68180c0302be5e8d0a54f80bc487e9d6dfb999c8291068cadec45c929f");
   Some (str "8bf1e0bcb8ba9c658be180d5428f342c3840a68f53080629300e6f41edb4e4a1")].
Proof. vm_compute. reflexivity. Qed.

Example published_genesis :
  zlen (encode Block_Serialize (Genesis.BuildGenesisBlock Params.MAINNET_PARAMS)) = 257 /\
  Block_Weight (Genesis.BuildGenesisBlock Params.MAINNET_PARAMS) = 812 /\
  Hex.ToHex (rev (Block_Hash (Genesis.BuildGenesisBlock Params.MAINNET_PARAMS))) =
    str "000000001872d649f36e25be94d2f562f06bc243f582af561f1ffe1ab376662f".
Proof. split_and!; vm_compute; reflexivity. Qed.
End published.
End Gpu.
