(* ===== verification/Miner.v ===== *)
(** * The mining program (miner/amarian_miner.cpp)

    Its options, its calls to the node, the search of a template's nonces batch by batch on
    the card (Gpu.v), and what it submits. *)

From Stdlib Require Import String Ascii.
From S2P Require Import Prelude Overflow Serialize Hex Text Crypto Primitives Target Params Validation Genesis Coins BlockStore BlockIndex ChainState Mempool MempoolInv BlockAssembler Daemon Http JsonValue RpcClient Rpc Args Gpu.
From stdpp Require Import gmap strings.
#[local] Open Scope Z_scope.

Module Miner.
Import JsonValue Http RpcClient.

#[local] Abbreviation encode := Serialize.encode.

(** ** Options *)

Definition option_spec (name : string) (kind : Args.ArgKind) (hint help : string) : Args.ArgSpec :=
  Args.mkArgSpec name kind hint help Args.NUL.

Definition OPTIONS : list Args.ArgSpec :=
  [option_spec "help" Args.Flag "" "Show this help.";
   option_spec "chain" Args.Str "<network>" "Must be testnet.";
   option_spec "datadir" Args.Str "<dir>" "Node datadir containing .cookie.";
   option_spec "rpcport" Args.Integer "<port>" "RPC port. Default: 12511.";
   option_spec "wallet" Args.Str "<path>" "Wallet path connected to the node; required for mining.";
   option_spec "blocks" Args.Integer "<n>" "Blocks to mine; 0 means keep mining.";
   option_spec "grid" Args.Integer "<n>" "CUDA blocks per launch. Default: 4096.";
   option_spec "threads" Args.Integer "<n>" "CUDA threads per block. Default: 256."].

Definition Options (p : Args.ArgsParser) : Args.ArgsParser := fold_left (fun p spec => Args.Add spec p) OPTIONS p.

Definition new_parser : Args.ArgsParser :=
  Options (Args.new_ArgsParser "amarian-miner" ("amarian-miner [options]" +:+ String.String "010"%char "CUDA testnet-only proof-of-work miner.")).

Record Settings := mkSettings { port : Z; grid : Z; block_threads : Z; requested_blocks : Z }.

(** What the command line settles: an exit status, or the settings to mine with. *)
Definition read_settings (args : list string) : Z + Settings :=
  match Args.Parse args new_parser with
  | (Args.Fail _ _, _) => inl 2
  | (Args.Done _, parser) =>
      if Args.Has parser "help" then inl 0
      else if negb (Args.Has parser "chain") || negb (bool_decide (Args.GetString parser "chain" "" = "testnet"%string)) then inl 2
      else if negb (Args.Has parser "datadir") || negb (Args.Has parser "wallet") then inl 2
      else
        let raw_port := Args.GetInt parser "rpcport" 12511 in
        let raw_grid := Args.GetInt parser "grid" 4096 in
        let raw_threads := Args.GetInt parser "threads" 256 in
        let requested_blocks := Args.GetInt parser "blocks" 0 in
        if (raw_port <? 1) || (raw_port >? 65535) || (raw_grid <? 1) || (raw_grid >? 65535) ||
           (raw_threads <? 1) || (raw_threads >? 1024) || (requested_blocks <? 0) then inl 2
        else inr (mkSettings (wrapu 16 raw_port) raw_grid raw_threads requested_blocks)
  end.

(** [batch]: the nonces of one launch. *)
Definition batch (s : Settings) : Z := wrapu 64 (wrapu 64 (wrapu 64 (grid s) * wrapu 64 (block_threads s)) * 16).

(** ** Calls *)

(** What a reply's body says: the error in it, or the result.  A member that is missing is
    read as null. *)
Definition unwrap `{JsonText} (body : bytes) : bytes + json :=
  match parse body with
  | Some (JObject m) =>
      let error := default JNull (member "error" (JObject m)) in
      if negb (is_null error) then inl (dump error) else inr (default JNull (member "result" (JObject m)))
  | _ => inl (str "RPC returned malformed JSON")
  end.

(** The loop of [Call] that reads the reply; [None] is a read that is still to end. *)
Fixpoint read_reply `{JsonText} (buffer : bytes) (events : list ReadEvent) : option (bytes + json) :=
  let parsed := ParseResponse buffer in
  match r_state parsed with
  | RComplete => Some (unwrap (r_body parsed))
  | RMalformed => Some (inl (r_failure parsed))
  | RNeedMore =>
      match events with
      | [] | TimedOut :: _ => None
      | Eof _ :: _ =>
          let finished := FinishResponse buffer in
          match r_state finished with
          | RComplete => Some (unwrap (r_body finished))
          | _ => Some (inl (r_failure finished))
          end
      | ReadFailed message :: _ => Some (inl (str "cannot read RPC reply: " ++ message))
      | Chunk got :: events =>
          let buffer := buffer ++ got in
          if zlen buffer >? MAX_RESPONSE_BYTES then Some (inl (str "RPC reply is too large"))
          else read_reply buffer events
      end
  end.

(** [get<std::string>()], which throws on anything else. *)
Definition get_string (v : option json) : option bytes := match v with Some (JString s) => Some s | _ => None end.

(** ** The payout *)

(** The lock in the answer to [getnewaddress], as the payout of a template. *)
Definition payout_of (address : json) : option json :=
  if negb (is_object address) then None
  else match member "lock" address with
  | None => None
  | Some given =>
      s ← get_string (Some given);
      bs ← Hex.FromHex s;
      lock ← Parse (Lock_Deserialize 128) bs;
      if Lock_IsUnspendable lock then None
      else Some (object [("version", JUnsigned (lock_version lock)); ("program", JString (Hex.ToHex (lock_program lock)))]%string)
  end.

(** ** The search *)

(** The block and the target of a template; the outer [None] is an exception. *)
Definition read_template (templ : json) : option (option (bytes * bytes)) :=
  block_text ← get_string (member "block" templ);
  target_text ← get_string (member "target" templ);
  match Hex.FromHex block_text, Hex.FromHexExact target_text 32 with
  | Some block, Some target => Some (if zlen block <? 92 then None else Some (block, target))
  | _, _ => Some None
  end.

(** What a turn of the loop does before it searches: the poll of the tip, when it is due,
    and the age of the template. *)
Inductive Turn := PollFailed (message : bytes) | Stale | Search.

Definition turn (poll : option (bytes + json)) (templ : json) (aged : bool) : option Turn :=
  let go := Some (if aged then Stale else Search) in
  match poll with
  | None => go
  | Some (inl message) => Some (PollFailed message)
  | Some (inr info) =>
      best ← get_string (member "best_block_hash" info);
      previous ← get_string (member "previous_block_hash" templ);
      if negb (bool_decide (best = previous)) then Some Stale else go
  end.

Inductive Outcome := Solved (found dispatched : Z) | Refresh | Exhausted | Lost (message : bytes).

Definition UINT64_MAX : Z := 2 ^ 64 - 1.

(** The loop over batches; [None] when it has taken all its turns and goes on. *)
Fixpoint search_loop (mine : Z -> Z -> option Z) (size : Z) (turns : list Turn) (next_nonce dispatched : Z) : option Outcome :=
  match turns with
  | [] => None
  | PollFailed message :: _ => Some (Lost message)
  | Stale :: _ => Some Refresh
  | Search :: turns =>
      let left := wrapu 64 (UINT64_MAX - next_nonce + 1) in
      let count := if size <=? UINT64_MAX - next_nonce then size else left in
      let dispatched := wrapu 64 (dispatched + count) in
      match mine next_nonce count with
      | Some found => Some (Solved found dispatched)
      | None =>
          if count =? left then Some Exhausted
          else search_loop mine size turns (wrapu 64 (next_nonce + count)) dispatched
      end
  end.

(** [block[84+i] = uint8_t(found >> 8i)] for eight bytes. *)
Definition patch (block : bytes) (found : Z) : bytes :=
  Gpu.put 84 (map (fun i => z2b (Z.shiftr found (8 * Z.of_nat i))) (seq 0 8)) block.

(** The argument of [submitblock]. *)
Definition submission (block : bytes) (found : Z) : json := JArray [JString (Hex.ToHex (patch block found))].

(** ** The program's loop *)

(** One round, as the node's answers make it. *)
Inductive Round := NoTemplate (message : bytes) | BadTemplate | Searched (outcome : Outcome) (submitted : bytes + json).

(** The exit status and the blocks mined; [None] while it goes on. *)
Fixpoint run_loop (requested mined : Z) (rounds : list Round) : option (Z * Z) :=
  match rounds with
  | [] => None
  | NoTemplate _ :: _ => Some (3, mined)
  | BadTemplate :: _ => Some (1, mined)
  | Searched (Lost _) _ :: _ => Some (3, mined)
  | Searched Refresh _ :: rounds => run_loop requested mined rounds
  | Searched Exhausted _ :: _ => Some (1, mined)
  | Searched (Solved _ _) (inl _) :: _ => Some (3, mined)
  | Searched (Solved _ _) (inr result) :: rounds =>
      if negb (is_null result) then run_loop requested mined rounds
      else
        let mined := wrapu 64 (mined + 1) in
        if negb (requested =? 0) && (mined >=? requested) then Some (0, mined) else run_loop requested mined rounds
  end.

(** ** Lemmas *)

Lemma settings_range args s : read_settings args = inr s ->
  1 <= port s <= 65535 /\ 1 <= grid s <= 65535 /\ 1 <= block_threads s <= 1024 /\ 0 <= requested_blocks s /\
  batch s = grid s * block_threads s * 16 /\ 16 <= batch s <= 2 ^ 30.
Proof.
  unfold read_settings. destruct (Args.Parse args new_parser) as [[] parser]; [|done]. destruct (Args.Has parser "help"); [done|].
  destruct (_ || _); [done|]. destruct (_ || _); [done|].
  destruct ((_ <? 1) || _ || _ || _ || _ || _ || _) eqn:B; [done|]. intros [= <-]. unfold batch. cbn [port grid block_threads requested_blocks].
  rewrite !Z.gtb_ltb in B. bprop. set (p := Args.GetInt parser "rpcport" 12511) in *. set (g := Args.GetInt parser "grid" 4096) in *.
  set (t := Args.GetInt parser "threads" 256) in *.
  rewrite (wrapu_small 16 p), (wrapu_small 64 g), (wrapu_small 64 t) by lia. assert (1 <= g * t <= 65535 * 1024) by nia.
  rewrite (wrapu_small 64 (g * t)) by lia. rewrite wrapu_small by lia.
  lia.
Qed.

Section loop.
Context (mine : Z -> Z -> option Z) (size : Z) (Hsize : 0 < size <= 2 ^ 32).

(** A turn asks for a batch that ends within the nonces, and is the last exactly if it ends
    with them. *)
Lemma turn_count next : 0 <= next < 2 ^ 64 ->
  let left := wrapu 64 (UINT64_MAX - next + 1) in
  let count := if size <=? UINT64_MAX - next then size else left in
  0 < count <= size /\ next + count <= 2 ^ 64 /\ (if count =? left then next + count = 2 ^ 64 else count = size /\ next + count < 2 ^ 64).
Proof using Hsize.
  intros Hn. unfold UINT64_MAX. cbv zeta. destruct (Z.leb_spec size (2 ^ 64 - 1 - next)).
  - destruct (Z.eqb_spec size (wrapu 64 (2 ^ 64 - 1 - next + 1))) as [E|]; [|lia]. destruct (Z.eq_dec next 0) as [->|].
    + change (wrapu 64 (2 ^ 64 - 1 - 0 + 1)) with 0 in E. lia.
    + rewrite wrapu_small in E by lia. lia.
  - rewrite wrapu_small by lia. rewrite Z.eqb_refl. lia.
Qed.

Lemma search_solved turns : forall next d found d', 0 <= next < 2 ^ 64 -> search_loop mine size turns next d = Some (Solved found d') ->
  exists start count, 0 <= start /\ 0 < count <= size /\ start + count <= 2 ^ 64 /\ mine start count = Some found.
Proof using Hsize.
  induction turns as [|t turns IH]; intros next d found d' Hn; cbn [search_loop]; [done|]. destruct t; [done|done|].
  pose proof (turn_count next Hn) as C. cbv zeta in *. set (count := if _ <=? _ then _ else _) in *. destruct (mine next count) as [x|] eqn:M.
  - intros [= -> <-]. exists next, count. split_and!; lia || done.
  - destruct (count =? _); [done|]. rewrite wrapu_small by lia. apply IH. lia.
Qed.

Lemma search_exhausted turns : forall next d, 0 <= next < 2 ^ 64 -> search_loop mine size turns next d = Some Exhausted ->
  forall nonce, next <= nonce < 2 ^ 64 ->
  exists start count, 0 <= start <= nonce /\ nonce < start + count /\ count <= size /\ start + count <= 2 ^ 64 /\ mine start count = None.
Proof using Hsize.
  induction turns as [|t turns IH]; intros next d Hn; cbn [search_loop]; [done|]. destruct t; [done|done|].
  pose proof (turn_count next Hn) as C. cbv zeta in *. set (count := if _ <=? _ then _ else _) in *. destruct (mine next count) as [x|] eqn:M; [done|].
  intros H nonce Hnonce. destruct (Z.lt_ge_cases nonce (next + count)) as [Hl|Hl].
  - exists next, count. split_and!; lia || done.
  - destruct (count =? _); [lia|]. rewrite wrapu_small in H by lia. eapply IH; [|exact H|]; lia.
Qed.

(** The nonces run out after as many batches as hold them. *)
Lemma search_ends n : forall next d, 0 <= next < 2 ^ 64 -> 2 ^ 64 <= next + Z.of_nat n * size ->
  exists o, search_loop mine size (replicate n Search) next d = Some o /\ o <> Refresh /\ forall m, o <> Lost m.
Proof using Hsize.
  induction n as [|n IH]; intros next d Hn Hs; [lia|]. cbn [replicate search_loop].
  pose proof (turn_count next Hn) as C. cbv zeta in *. set (count := if _ <=? _ then _ else _) in *. destruct (mine next count) as [x|] eqn:M; [by eexists (Solved _ _)|].
  destruct (count =? _); [by exists Exhausted|]. rewrite wrapu_small by lia. apply IH; [lia|]. rewrite Nat2Z.inj_succ in Hs. lia.
Qed.
End loop.

(** Writing the nonce into a block's bytes. *)
Lemma patch_block block nonce : BlockHeader_ok (blk_header block) ->
  patch (encode Block_Serialize block) nonce = encode Block_Serialize (Rpc.with_nonce block nonce).
Proof.
  intros Hh. destruct (Rpc.block_layout block Hh) as (b & a & Hb & E).
  assert (Rpc.with_nonce block (hdr_nonce (blk_header block)) = block) as Ew by (by destruct block as [[] txs]).
  rewrite <- Ew at 1. rewrite !E. unfold patch, Gpu.put. rewrite Gpu.nonce_bytes_le.
  assert (length (le_split 8 nonce) = 8%nat) as -> by apply length_le_split. rewrite take_app_length' by done. f_equal.
  change (encode WriteU64 nonce) with (le_split 8 nonce). f_equal.
  rewrite app_assoc. apply drop_app_length'. rewrite length_app, Hb. reflexivity.
Qed.

(** The header is the first 92 bytes. *)
Lemma block_header_bytes block : BlockHeader_ok (blk_header block) ->
  take 92 (encode Block_Serialize block) = encode BlockHeader_Serialize (blk_header block) /\ 92 <= zlen (encode Block_Serialize block).
Proof.
  intros Hh. destruct (Gpu.header_layout (blk_header block) Hh) as (pre & Lp & E).
  assert (zlen (encode BlockHeader_Serialize (blk_header block)) = 92) as L.
  { rewrite <- (Gpu.same_nonce (blk_header block)), E, zlen_app, zlen_le_split. unfold zlen. lia. }
  rewrite flat_Block. split; [|rewrite zlen_app, L; match goal with |- _ <= _ + zlen ?x => pose proof (zlen_nonneg x) end; lia].
  apply take_app_length'. unfold zlen in L. lia.
Qed.

(** The miner reads the reply the command-line client reads. *)
Lemma read_reply_receive `{JsonText} chunks : forall buffer parsed, receive buffer (map Chunk chunks) = Some (inr parsed) ->
  read_reply buffer (map Chunk chunks) = Some (unwrap (r_body parsed)).
Proof.
  induction chunks as [|c chunks IH]; intros buffer parsed; cbn [map receive read_reply]; destruct (r_state (ParseResponse buffer)) eqn:E; try done; try (by intros [= <-]).
  destruct (_ >? _); [done|]. apply IH.
Qed.

(** The result of a reply without an error, and the text of one with it. *)
Lemma unwrap_envelope `{JsonText} body envelope result error : parse body = Some envelope -> is_object envelope = true ->
  member "result" envelope = Some result -> member "error" envelope = Some error ->
  unwrap body = if is_null error then inr result else inl (dump error).
Proof. intros P O R E. unfold unwrap. rewrite P. destruct envelope; try done. rewrite E, R. cbn. by destruct (is_null error). Qed.

(** The exit status is nought exactly when the blocks asked for were accepted, and then
    that many were. *)
Lemma run_loop_mined requested rounds : forall mined st m, 0 <= mined < requested -> requested < 2 ^ 63 ->
  run_loop requested mined rounds = Some (st, m) -> st = 0 <-> m = requested.
Proof.
  induction rounds as [|r rounds IH]; intros mined st m Hm Hr; cbn [run_loop]; [done|].
  destruct r as [e| |[f d| | |e] [e'|result]]; try (intros [= <- <-]; lia); try (apply IH; lia).
  destruct (is_null result); cbn [negb]; [|apply IH; lia]. rewrite wrapu_small by lia. destruct (Z.eqb_spec requested 0); [lia|]. cbn [negb andb].
  rewrite Z.geb_leb. destruct (Z.leb_spec requested (mined + 1)); [intros [= <- <-]; lia|apply IH; lia].
Qed.

(** Asked for no number of blocks, it never ends with success. *)
Lemma run_loop_endless rounds : forall mined st m, run_loop 0 mined rounds = Some (st, m) -> st <> 0.
Proof.
  induction rounds as [|r rounds IH]; intros mined st m; cbn [run_loop]; [done|].
  destruct r as [e| |[f d| | |e] [e'|result]]; try (by intros [= <- <-]); try apply IH. destruct (is_null result); cbn [negb Z.eqb andb]; apply IH.
Qed.

(** A card whose threads all run, in some order, once they are launched; [faults] are the
    calls into the runtime that fail in each batch. *)
Definition works (s : Settings) (header target : bytes) (faults : Z -> Z -> Gpu.Faults) (mine : Z -> Z -> option Z) : Prop :=
  forall start count, 0 <= start -> 0 < count <= batch s -> start + count <= 2 ^ 64 -> exists garbage schedule stack,
    length stack = 64%nat /\
    (forall j, (j < Z.to_nat (grid s * block_threads s))%nat -> 3 * (count + grid s * block_threads s) + 1 <= Z.of_nat (count_occ Nat.eq_dec schedule j)) /\
    mine start count = Gpu.Mine (faults start count) garbage schedule stack header target start count (grid s) (block_threads s).

(** Such a card, without faults: its threads take turns. *)
Definition in_turn (threads turns : nat) : list nat := concat (replicate turns (seq 0 threads)).

Lemma in_turn_fair threads turns j : (j < threads)%nat -> count_occ Nat.eq_dec (in_turn threads turns) j = turns.
Proof.
  intros Hj. unfold in_turn. induction turns as [|turns IH]; [done|]. cbn [replicate concat]. rewrite count_occ_app, IH.
  assert (count_occ Nat.eq_dec (seq 0 threads) j = 1%nat) as ->; [|done].
  apply NoDup_count_occ'; [apply seq_NoDup|apply in_seq; lia].
Qed.

Definition a_card (s : Settings) (header target : bytes) (start count : Z) : option Z :=
  Gpu.Mine Gpu.no_faults 0 (in_turn (Z.to_nat (grid s * block_threads s)) (Z.to_nat (3 * (count + grid s * block_threads s) + 1)))
    (Gpu.zeros 64) header target start count (grid s) (block_threads s).

Lemma a_card_works s header target : 0 < grid s * block_threads s -> works s header target (fun _ _ => Gpu.no_faults) (a_card s header target).
Proof.
  intros Hg start count Hs Hc Hr. eexists _, _, _. split_and!; [apply Gpu.length_zeros| |reflexivity]. intros j Hj. rewrite in_turn_fair by done. lia.
Qed.

(** The payout the miner asks for is the lock the wallet gave it. *)
Lemma payout_understood (lock : Lock) (address : bytes) (account index : Z) (params : Params.ChainParams) :
  Lock_ok 128 lock -> Lock_IsUnspendable lock = false -> zlen (lock_program lock) <= max_lock_program_size (limits_tx (Params.block_limits params)) ->
  exists payout, payout_of (object [("address", JString address); ("lock", Rpc.hex (encode Lock_Serialize lock));
      ("account_id", JUnsigned account); ("index", JUnsigned index)]%string) = Some payout /\
    Rpc.ParseLock (reread payout) params = inr lock.
Proof.
  intros Hok Hu Hm. unfold payout_of. cbn [is_object object negb].
  change (member "lock" _) with (Some (Rpc.hex (encode Lock_Serialize lock))). cbn [get_string Rpc.hex mbind option_bind]. rewrite Rpc.hex_read. cbn [mbind option_bind].
  assert (zlen (encode Lock_Serialize lock) < 2 ^ 64) as Hz.
  { rewrite flat_Lock. autorewrite with amarian. rewrite zlen_ByteString, zlen_compact by (destruct Hok; pose proof (zlen_nonneg (lock_program lock)); unfold u64; lia).
    destruct Hok. unfold CompactSizeLen. repeat destruct (_ <? _); repeat destruct (_ <=? _); lia. }
  rewrite (proj2 (codec_parse _ _ _ (codec_Lock 128 ltac:(unfold u64; lia)) _ lock Hz)) by done. cbn [mbind option_bind]. rewrite Hu. eexists. split; [reflexivity|].
  unfold Rpc.ParseLock. change (Rpc.Arg (reread (object ?l)) 0 "version") with (Some (JUnsigned (lock_version lock))).
  change (Rpc.Arg (reread (object ?l)) 1 "program") with (Some (JString (Hex.ToHex (lock_program lock)))).
  cbn [reread is_object object negb Rpc.AsUint]. destruct Hok as [Hv Hp]. rewrite Z.gtb_ltb, (proj2 (Z.ltb_ge _ _)) by (unfold u8 in Hv; lia).
  unfold Lock_IsUnspendable in Hu. rewrite Hu. unfold Rpc.AsBytes, Rpc.AsString. rewrite Rpc.hex_read.
  rewrite Z.gtb_ltb, (proj2 (Z.ltb_ge _ _)) by lia. by destruct lock.
Qed.

(** ** Theorems *)

Section theorems.
#[local] Existing Instance Fips.fips_Sha256Impl.

(** C13: What the node hands out, the miner solves, and what it solves, the node is offered.
    From the JSON of a template the node built the miner reads the block and the target.
    With any settings its options allow and whatever CUDA calls fail, the search ends after
    as many batches as hold the nonces; a nonce it finds makes the block's hash meet the
    target, and its submission is the submission of that very block with that nonce; and it
    gives up only if every nonce either does not, or lies in a batch of which a call failed. *)
Theorem miner_solves_template `{Mempool.HashOrder} `{Signature.SignatureBackends} {V D K} `{CoinsView V} `{BlockStore.BlockStore D}
    `{ChainState.ChainSink K V} (callbacks : Rpc.Callbacks V D K) (n : Rpc.Node V D K) (tip : BlockIndex.BlockIndex.BlockIndexEntry)
    (lock : Lock) (now : Z) (data : bytes) (facts : Rpc.TipFacts) (t : BlockAssembler.BlockTemplate) (limits : BlockLimits)
    (line : list string) (s : Settings) (faults : Z -> Z -> Gpu.Faults) (mine : Z -> Z -> option Z) :
  let block := BlockAssembler.tmpl_block t in let target := BlockAssembler.tmpl_target t in let raw := encode Block_Serialize block in
  let meets nonce := Target.HashMeetsTarget (BlockHeader_Hash (Genesis.with_nonce (blk_header block) nonce)) target in
  BlockAssembler.BuildBlockTemplate (ChainState.index_ (Rpc.state n)) tip lock now data (Rpc.params n) (Rpc.pool n) = Some (inr t) ->
  BlockLimits_ok limits -> Block_ok limits block -> read_settings line = inr s -> works s (take 92 raw) target faults mine ->
  read_template (reread (Rpc.template_json n facts t now)) = Some (Some (raw, target)) /\
  (forall k, 2 ^ 64 <= Z.of_nat k * batch s -> exists o, search_loop mine (batch s) (replicate k Search) 0 0 = Some o) /\
  (forall turns, search_loop mine (batch s) turns 0 0 = Some Exhausted -> forall nonce, u64 nonce ->
     meets nonce = false \/ exists start count, start <= nonce < start + count /\ Gpu.faulty (faults start count) = true) /\
  (forall turns found d, search_loop mine (batch s) turns 0 0 = Some (Solved found d) -> u64 found /\ meets found = true /\
     forall later (m : Rpc.Node V D K), Params.block_limits (Rpc.params m) = limits -> zlen (encode Block_Serialize (Rpc.with_nonce block found)) < 2 ^ 64 ->
     Rpc.SubmitBlock callbacks (submission raw found) later m =
     (outcome ← Rpc.Submit callbacks (Rpc.with_nonce block found) later;
      mret (match outcome with None => JNull | Some why => text why end)) m).
Proof.
  intros block target raw meets Eb Hl Hb Hs Hw.
  assert (BlockHeader_ok (blk_header block)) as Hh by apply Hb. destruct (block_header_bytes block Hh) as [Hhd H92].
  assert (Target.is_target target) as Ht.
  { destruct (BlockAssembler.BuildBlockTemplate_inr _ _ _ _ _ _ _ _ Eb) as [selected A]. apply BlockAssembler.as_target in A.
    apply Target.CompactToTarget_Some in A as [? _]; [done|apply Hh]. }
  apply settings_range in Hs as (_ & Hg & Hbt & _ & Hbatch & Hsize).
  unfold raw in Hw. rewrite Hhd in Hw.
  assert (forall start count, 0 <= start -> 0 < count <= batch s -> start + count <= 2 ^ 64 ->
    match mine start count with
    | Some nonce => start <= nonce < start + count /\ meets nonce = true
    | None => Gpu.faulty (faults start count) = true \/ forall nonce, start <= nonce < start + count -> meets nonce = false
    end) as Hm.
  { intros start count Hst Hc Hr. destruct (Hw start count Hst Hc Hr) as (garbage & schedule & stack & Hstack & Hfair & ->).
    pose proof (Gpu.mine_searches (faults start count) garbage schedule stack (blk_header block) target start count (grid s) (block_threads s) Hh Hstack Ht ltac:(lia) ltac:(nia) Hfair) as M.
    exact M. }
  split_and!.
  - unfold read_template. rewrite !member_reread. change (member "block" _) with (Some (Rpc.hex raw)).
    change (member "target" (Rpc.template_json n facts t now)) with (Some (Rpc.hex target)). cbn [fmap option_fmap option_map reread Rpc.hex get_string mbind option_bind].
    rewrite Rpc.hex_read. unfold Hex.FromHexExact. rewrite Hex.zlen_ToHex. assert (zlen target = 32) as -> by (unfold zlen; rewrite Ht; done). cbn [negb Z.mul Z.eqb].
    rewrite Rpc.hex_read. by rewrite (proj2 (Z.ltb_ge _ _)) by (unfold raw; lia).
  - intros k Hk. destruct (search_ends mine (batch s) ltac:(lia) k 0 0) as (o' & Eo & _); [lia|lia|by exists o'].
  - intros turns Ex nonce Hn. destruct (search_exhausted mine (batch s) ltac:(lia) turns 0 0 ltac:(lia) Ex nonce Hn) as (start & count & B1 & B2 & B3 & B4 & En).
    specialize (Hm start count ltac:(lia) ltac:(lia) ltac:(lia)). rewrite En in Hm.
    destruct Hm as [F|Hm]; [right; exists start, count; split; [lia|exact F]|left; apply Hm; lia].
  - intros turns found d So. destruct (search_solved mine (batch s) ltac:(lia) turns 0 0 found d ltac:(lia) So) as (start & count & B1 & B2 & B3 & En).
    specialize (Hm start count B1 B2 B3). rewrite En in Hm. destruct Hm as [Hf Hmeets]. assert (u64 found) as Hu by (unfold u64; lia).
    split; [exact Hu|]. split; [done|]. intros later m El Hz. unfold submission, raw. rewrite patch_block by done.
    by apply (Rpc.SubmitBlock_solved callbacks limits).
Qed.

(** *** Witness *)

#[local] Existing Instance MempoolInv.sorted_order.
#[local] Existing Instance Validation.picky_backends.

Definition sample_line : list string := ["--chain=testnet"; "--datadir"; "d"; "--wallet=w"; "--grid=2"; "--threads=8"]%string.
Definition sample_settings : Settings := mkSettings 12511 2 8 0.

Abbreviation sample_build tip := (BlockAssembler.BuildBlockTemplate (ChainState.index_ (Rpc.state Rpc.sample_node)) tip (mkLock 1 (repeat Byte.x07 32))
  ChainState.sample_now [] (Rpc.params Rpc.sample_node) (Rpc.pool Rpc.sample_node)).

(** The template of the sample node over its tip. *)
Definition sample_template : option (BlockIndex.BlockIndexEntry * BlockAssembler.BlockTemplate) :=
  match Rpc.the_tip Rpc.sample_node with
  | Some tip => match sample_build tip with Some (inr t) => Some (tip, t) | _ => None end
  | None => None
  end.

Lemma miner_solves_template_witness : exists tip t, sample_template = Some (tip, t) /\
  let raw := encode Block_Serialize (BlockAssembler.tmpl_block t) in let target := BlockAssembler.tmpl_target t in
  (forall facts, read_template (reread (Rpc.template_json Rpc.sample_node facts t ChainState.sample_now)) = Some (Some (raw, target))) /\
  forall k, 2 ^ 64 <= Z.of_nat k * 256 -> exists o, search_loop (a_card sample_settings (take 92 raw) target) 256 (replicate k Search) 0 0 = Some o.
Proof.
  destruct sample_template as [[tip t]|] eqn:E; [|by vm_compute in E]. exists tip, t. split; [done|].
  assert (Block_ok (Params.block_limits Params.REGTEST_PARAMS) (BlockAssembler.tmpl_block t)) as Hb.
  { assert (Parse (Block_Deserialize (Params.block_limits Params.REGTEST_PARAMS)) (encode Block_Serialize (BlockAssembler.tmpl_block t)) =
      (fun p => BlockAssembler.tmpl_block p.2) <$> sample_template) as P.
    { vm_compute in E. injection E as _ <-. vm_compute. reflexivity. }
    rewrite E in P. apply (codec_parse _ _ _ (codec_Block _ (Rpc.limits_ok Params.Regtest))) in P as [? _]; [done|]. vm_compute in E. injection E as _ <-. by vm_compute. }
  assert (sample_build tip = Some (inr t)) as Eb.
  { unfold sample_template in E. destruct (Rpc.the_tip Rpc.sample_node) as [tip'|]; [|done]. destruct (sample_build tip') as [[?|t']|] eqn:Eb; [done| |done]. by injection E as <- <-. }
  intros raw target.
  pose proof (fun facts => miner_solves_template Rpc.sample_send Rpc.sample_node tip (mkLock 1 (repeat Byte.x07 32)) ChainState.sample_now [] facts t
    (Params.block_limits Params.REGTEST_PARAMS) sample_line sample_settings (fun _ _ => Gpu.no_faults) (a_card sample_settings (take 92 raw) target) Eb (Rpc.limits_ok Params.Regtest) Hb eq_refl
    (a_card_works sample_settings (take 92 raw) target eq_refl)) as M.
  split; [intros facts; apply (M facts)|]. intros k Hk. apply (proj1 (proj2 (M (Rpc.mkTipFacts tip 0 0 0)))). exact Hk.
Defined.
End theorems.
End Miner.
