(* ===== verification/Cli.v ===== *)
(** * The command-line client (cli/amarian_cli.cpp)

    The whole program: the options, where the cookie is looked for, the call with everything
    that can go wrong on the way, and what is printed.  What the operating system contributes
    (the environment, the files, the connection, the version of the build) is an argument. *)

From Stdlib Require Import String Ascii.
From S2P Require Import Prelude Overflow Serialize Hex Text Crypto Primitives Params Validation Coins BlockStore BlockIndex ChainState Mempool MempoolInv Wallet WalletDb CoinSelection Signing Http JsonValue RpcClient Rpc RpcServer Args.
From stdpp Require Import gmap strings.
#[local] Open Scope Z_scope.

Module Cli.
Import JsonValue Http RpcClient RpcServer.

Definition EXIT_USAGE : Z := 2.

(** ** Options *)

Definition OPTIONS : list Args.ArgSpec :=
  [Args.mkArgSpec "help" Args.Flag "" "Show this help and exit." "h"%char;
   Args.mkArgSpec "version" Args.Flag "" "Print the version and exit." "v"%char;
   Args.mkArgSpec "chain" Args.Str "<network>" "One of mainnet, testnet, regtest. Default: mainnet." Args.NUL;
   Args.mkArgSpec "datadir" Args.Str "<dir>" "The node's datadir, where its cookie is. Default: $HOME/.amarian/<network>." Args.NUL;
   Args.mkArgSpec "rpcport" Args.Integer "<port>" "Port the node serves on. Default: the network's (12501/12511/12521)." Args.NUL;
   Args.mkArgSpec "cookie" Args.Str "<file>" "Read the credential from this file instead of <datadir>/.cookie." Args.NUL;
   Args.mkArgSpec "timeout" Args.Integer "<seconds>" "Give up on a call after this long. Default: 60." Args.NUL;
   Args.mkArgSpec "raw" Args.Flag "" "Print the reply envelope as the node sent it, unformatted." Args.NUL].

Definition RegisterOptions (p : Args.ArgsParser) : Args.ArgsParser := fold_left (fun p spec => Args.Add spec p) OPTIONS p.

Definition NL : string := String "010"%char "".

Definition new_parser : Args.ArgsParser :=
  RegisterOptions (Args.new_ArgsParser "amarian-cli"
    ("amarian-cli [options] <method> [argument...]" +:+ NL +:+ NL +:+
     "Calls a running Amarian node over its loopback JSON-RPC interface. The" +:+ NL +:+
     "credential comes from the node's cookie file, which means this works" +:+ NL +:+
     "with no configuration when run by the account the node runs as.")).

Definition PrintMethods : bytes :=
  newline ++ str "Methods (arguments are positional; ask the node for `help`):" ++ newline ++
  concat (map (fun name => str "  " ++ str name ++ newline) Rpc.METHOD_NAMES) ++
  newline ++ str "An argument that parses as JSON is sent as that JSON, and one that does not is sent" ++ newline ++
  str "as a string. So `getblockhash 0` sends the number zero and `submitblock deadbeef`" ++ newline ++
  str "sends the string " ++ QUOTE ++ str "deadbeef" ++ QUOTE ++ str "." ++ newline.

Definition SelectNetwork (parser : Args.ArgsParser) : option Params.Network :=
  if negb (Args.Has parser "chain") then Some Params.Mainnet
  else
    let name := Args.GetString parser "chain" "" in
    if String.eqb name "mainnet" then Some Params.Mainnet
    else if String.eqb name "testnet" then Some Params.Testnet
    else if String.eqb name "regtest" then Some Params.Regtest
    else None.

(** [home] is the variable [HOME]; [None] where it is not set. *)
Definition ResolveDataDir (parser : Args.ArgsParser) (home : option string) (params : Params.ChainParams) : option string :=
  if Args.Has parser "datadir" then Some (Args.GetString parser "datadir" "")
  else match home with
  | None | Some EmptyString => None
  | Some home => Some (home +:+ "/.amarian/" +:+ Params.net_name params)
  end.

(** [std::filesystem::path(dir) / name] for a relative name. *)
Definition path_append (dir name : bytes) : bytes :=
  if bool_decide (dir = []) || bool_decide (last dir = Some SLASH) then dir ++ name else dir ++ [SLASH] ++ name.

(** ** The call *)

(** How far an exchange gets. *)
Inductive Attempt :=
  | ConnectTimedOut | ConnectFailed (message : bytes) | SendTimedOut | SendFailed (message : bytes)
  | Exchanged (events : list ReadEvent).

Definition Call (port : Z) (attempt : Attempt) : option (bytes + ParsedResponse) :=
  match attempt with
  | ConnectTimedOut => Some (inl (str "timed out connecting to 127.0.0.1:" ++ to_chars port))
  | ConnectFailed message => Some (inl (str "cannot reach a node at 127.0.0.1:" ++ to_chars port ++ str ": " ++ message))
  | SendFailed message => Some (inl (str "cannot send the request: " ++ message))
  | SendTimedOut => Some (inl (str "timed out sending the request"))
  | Exchanged events => receive [] events
  end.

(** ** The program *)

(** The text of a failure (util/result.hpp). *)
Definition Message (context detail : string) : bytes :=
  if bool_decide (detail = EmptyString) then str context else str context ++ str ": " ++ str detail.

(** The message of a cookie that cannot be read (http.cpp). *)
Definition Describe_cookie (path : bytes) (e : CookieError) : bytes :=
  match e with
  | CannotOpen => str "cannot open " ++ path ++ str " (is the node running, and is this its datadir?)"
  | CannotRead => str "cannot read " ++ path
  | IsTooLarge => path ++ str " is too large to be a cookie file"
  | IsEmpty => path ++ str " is empty"
  | _ => path ++ str " does not hold a `user:token` credential"
  end.

Record Environment := mkEnvironment {
  home : option string;
  (** A file by its path, and whether reading it fails. *)
  files : bytes -> option bytes * bool;
  (** What becomes of a request sent to a port of this machine. *)
  loopback : Z -> bytes -> Attempt;
  version : bytes }.

(** What the command line settles: what to show at once, or a call to make. *)
Record Plan := mkPlan { port : Z; cookie_path : bytes; raw : bool; method : bytes; arguments : list bytes }.

Definition usage (message : bytes) : Shown := mkShown EXIT_USAGE [] (str "amarian-cli: " ++ message ++ newline).

Definition plan (version : bytes) (home : option string) (args : list string) : Shown + Plan :=
  match Args.Parse args new_parser with
  | (Args.Fail code detail, _) =>
      inl (mkShown EXIT_USAGE [] (str "amarian-cli: " ++ Message code detail ++ newline ++ str "Try 'amarian-cli --help'." ++ newline))
  | (Args.Done _, parser) =>
      if Args.Has parser "help" then inl (mkShown EXIT_SUCCESS (str (Args.HelpText parser) ++ PrintMethods) [])
      else if Args.Has parser "version" then inl (mkShown EXIT_SUCCESS (version ++ newline) [])
      else match Args.positional_ parser with
      | [] => inl (usage (str "no method given. Try 'amarian-cli --help'."))
      | method :: words =>
          match SelectNetwork parser with
          | None => inl (usage (str "unknown --chain '" ++ str (Args.GetString parser "chain" "") ++ str "' (expected mainnet, testnet or regtest)"))
          | Some network =>
              let params := Params.ParamsFor network in
              let asked_port := Args.GetInt parser "rpcport" 0 in
              if (asked_port <? 0) || (asked_port >? 65535) then inl (usage (str "--rpcport must be between 0 and 65535"))
              else
                let port := if negb (asked_port =? 0) then wrapu 16 asked_port else Params.default_rpc_port params in
                let asked_timeout := Args.GetInt parser "timeout" 60 in
                if (asked_timeout <=? 0) || (asked_timeout >? 86400) then inl (usage (str "--timeout must be between 1 and 86400 seconds"))
                else
                  let go cookie_path := inr (mkPlan port cookie_path (Args.Has parser "raw") (str method) (map str words)) in
                  if Args.Has parser "cookie" then go (str (Args.GetString parser "cookie" ""))
                  else match ResolveDataDir parser home params with
                  | None => inl (usage (str "HOME is not set, so --datadir must be given"))
                  | Some datadir => go (path_append (str datadir) (str ".cookie"))
                  end
          end
      end
  end.

Section run.
Context `{JT : JsonText} (dump_indented : json -> bytes).

(** The request of a planned call. *)
Definition request (p : Plan) (credential : bytes) : bytes :=
  RenderCall (Authorization credential) (str "127.0.0.1") (port p)
    (RenderCallBody (method p) (JArray (map ParseArgument (arguments p))) REQUEST_ID).

(** [None] while a read is still to end. *)
Definition Run (args : list string) (env : Environment) : option Shown :=
  match plan (version env) (home env) args with
  | inl shown => Some shown
  | inr p =>
      let '(file, bad) := files env (cookie_path p) in
      match Cookie_Read file bad with
      | inl e => Some (mkShown EXIT_TRANSPORT [] (str "amarian-cli: " ++ c_str (Describe_cookie (cookie_path p) e) ++ newline))
      | inr credential =>
          reply ← Call (port p) (loopback env (port p) (request p credential));
          Some (HandleReply dump_indented (cookie_path p) (raw p) reply)
      end
  end.

End run.

(** ** Lemmas *)

Lemma registered : Args.Registered (Args.specs_ new_parser).
Proof.
  split.
  - apply (bool_decide_unpack _). by vm_compute.
  - intros s t Hs Ht E N. cbn in Hs, Ht. rewrite !elem_of_cons, elem_of_nil in Hs. rewrite !elem_of_cons, elem_of_nil in Ht.
    repeat match goal with H : _ \/ _ |- _ => destruct H as [->|H] | H : False |- _ => destruct H end;
      first [reflexivity|by destruct N|discriminate E].
  - apply Forall_forall. repeat constructor; done.
  - apply Forall_forall. repeat constructor; done.
Qed.

(** A planned call goes to a port there is. *)
Lemma plan_port v h args p : plan v h args = inr p -> 0 <= port p < 2 ^ 16.
Proof.
  unfold plan. destruct (Args.Parse args new_parser) as [[] parser]; [|done]. destruct (Args.Has parser "help"); [done|].
  destruct (Args.Has parser "version"); [done|]. destruct (Args.positional_ parser) as [|m words]; [done|].
  destruct (SelectNetwork parser) as [net|]; [|done]. destruct (_ || _) eqn:B; [done|]. destruct ((_ <=? 0) || _); [done|].
  rewrite Z.gtb_ltb in B. bprop. set (q := Args.GetInt parser "rpcport" 0) in *.
  assert (0 <= (if negb (q =? 0) then wrapu 16 q else Params.default_rpc_port (Params.ParamsFor net)) < 2 ^ 16) as R.
  { destruct (negb _); [apply wrapu_range; lia|]. destruct net; vm_compute; split; congruence. }
  destruct (Args.Has parser "cookie"); [by intros [= <-]|]. destruct (ResolveDataDir parser h _); [by intros [= <-]|done].
Qed.

(** The plan is made without a look at a file or the network, and only it exits with 2. *)
Lemma usage_before_contact `{JT : JsonText} dump_indented args env shown :
  Run dump_indented args env = Some shown ->
  (exit_status shown = EXIT_USAGE <-> exists u, plan (version env) (home env) args = inl u /\ exit_status u = EXIT_USAGE /\ shown = u).
Proof.
  unfold Run. destruct (plan _ _ args) as [u|p]; [intros [= <-]; split; [eauto|by intros (? & [= ->] & ? & _)]|].
  intros R. split; [|by intros (? & ? & _)]. intros E. exfalso. revert R E.
  destruct (files env (cookie_path p)) as [file bad]. destruct (Cookie_Read file bad); [by intros [= <-]|].
  destruct (Call _ _) as [[failure|reply]|]; cbn [mbind option_bind]; [by intros [= <-]| |done]. intros [= <-]. unfold HandleReply.
  unfold PrintReply. by repeat case_match.
Qed.

(** ** The theorems *)

(** The text of a number as [%lld] prints it. *)
Definition signed (n : Z) : bytes := if n <? 0 then str "-" ++ to_chars (- n) else to_chars n.

(** What the operator sees of a value, and of an error; with [--raw], of the envelope. *)
Definition shown_value (dump_indented : json -> bytes) (v : json) : Shown :=
  mkShown EXIT_SUCCESS
    match v with JNull => [] | JString s => c_str s ++ newline | _ => c_str (dump_indented v) ++ newline end [].

Definition shown_error (e : Rpc.Error) : Shown :=
  mkShown EXIT_RPC_ERROR []
    (str "amarian-cli: " ++ c_str (str (if bool_decide (Rpc.detail e = EmptyString) then Rpc.Describe_rpc (Rpc.code e) else Rpc.detail e)) ++
     str " (code " ++ signed (Rpc.Code (Rpc.code e)) ++ str ")" ++ newline).

Definition shown_raw `{JT : JsonText} (r : Rpc.Error + json) : Shown :=
  mkShown (match r with inr _ => EXIT_SUCCESS | inl _ => EXIT_RPC_ERROR end)
    (c_str (dump (reread (outcome_json (JUnsigned REQUEST_ID) r).2)) ++ newline) [].

Definition shown_answer `{JT : JsonText} (dump_indented : json -> bytes) (raw : bool) (r : Rpc.Error + json) : Shown :=
  if raw then shown_raw r else match r with inr v => shown_value dump_indented (reread v) | inl e => shown_error e end.

Lemma error_members (e : Rpc.Error) :
  member "code" (reread (error_json e)) = Some (JInteger (Rpc.Code (Rpc.code e))) /\
  member "message" (reread (error_json e)) = Some (text (Rpc.Describe_rpc (Rpc.code e))) /\
  member "data" (reread (error_json e)) = if bool_decide (Rpc.detail e = EmptyString) then None else Some (text (Rpc.detail e)).
Proof.
  destruct e as [c d]. rewrite !member_reread. unfold error_json, MakeError. cbn [Rpc.code Rpc.detail].
  case_bool_decide; split_and!; try reflexivity; destruct c; reflexivity.
Qed.

Lemma error_not_null e : is_null (reread (error_json e)) = false.
Proof. unfold error_json, MakeError. by case_bool_decide. Qed.

Lemma print_outcome `{JT : JsonText} dump_indented raw (r : Rpc.Error + json) : let envelope := reread (outcome_json (JUnsigned REQUEST_ID) r).2 in
  member "result" envelope = Some (match r with inr v => reread v | inl _ => JNull end) ->
  member "error" envelope = Some (match r with inr _ => JNull | inl e => reread (error_json e) end) ->
  PrintReply dump_indented envelope raw = shown_answer dump_indented raw r.
Proof.
  intros envelope R E. unfold PrintReply, is_error, shown_answer. rewrite E, R. destruct raw; [|destruct r as [e|v]].
  - unfold shown_raw. fold envelope. destruct r as [e|v]; [by rewrite error_not_null|done].
  - destruct (error_members e) as (Ec & Em & Ed). rewrite error_not_null, Ec, Em, Ed. unfold shown_error, signed, text.
    assert (to_i64 (Rpc.Code (Rpc.code e)) = Rpc.Code (Rpc.code e)) as -> by (by destruct e as [[] d]).
    by case_bool_decide.
  - cbn [is_null]. by destruct (reread v).
Qed.

(** C7: the command line is answered by the node.  A command line that the client plans a call
    for, with the cookie the node wrote where it looks for it, is a request the node's server
    runs once, on the chain as it is then, with the words as arguments; and however the
    request and the reply are cut into packets the program ends.  It prints the method's value
    and exits with 0, or prints the method's error with its code and exits with 1; with
    [--raw] it prints the whole envelope of the reply in either case, with the same exit.
    This is for arguments and an answer that the JSON library prints and reads back (so of
    valid text), a call within the server's limit on a request and a reply within the
    client's on a response. *)
Theorem cli_shows_answer `{Mempool.HashOrder} `{Sha256Impl} `{Signature.SignatureBackends} {V D K} `{CoinsView V} `{BlockStore.BlockStore D} `{ChainState.ChainSink K V}
    `{WalletDb.Json} `{CoinSelection.StdSort} `{Signing.SigningBackends} `{JT : JsonText} (callbacks : Rpc.Callbacks V D K) (dump_indented : json -> bytes)
    (args : list string) (env : Environment) (p : Plan) (credential : bytes) (now : Z) (packets chunks : list bytes)
    (n n' : Rpc.Node V D K) (r : Rpc.Error + json) (o : list Rpc.Relay)
    (Hplan : plan (version env) (home env) args = inr p)
    (Hcookie : Cookie_Read (files env (cookie_path p)).1 (files env (cookie_path p)).2 = inr credential)
    (Hprint : printable (call_json (method p) (map ParseArgument (arguments p))))
    (Hsize : zlen (RenderCallBody (method p) (JArray (map ParseArgument (arguments p))) REQUEST_ID) <= MAX_REQUEST_BYTES)
    (Hpackets : concat packets = request p credential)
    (Hrun : Rpc.Dispatch callbacks true (method p) (JArray (map reread (map ParseArgument (arguments p)))) now n = Some (r, n', o))
    (Hanswer : printable (outcome_json (JUnsigned REQUEST_ID) r).2) :
  exists c, conn_run callbacks true (mkAuthPolicy (Authorization credential) (port p)) (map (fun x => ReadSome x now) packets) Start n = Some (c, n', o) /\
    (zlen (response_ c) <= MAX_RESPONSE_BYTES -> concat chunks = response_ c ->
     loopback env (port p) (request p credential) = Exchanged (map Chunk chunks) ->
     Run dump_indented args env = Some (shown_answer dump_indented (raw p) r)).
Proof.
  destruct (files env (cookie_path p)) as [file bad] eqn:Ef. cbn [fst snd] in Hcookie.
  destruct (call_answered callbacks file bad credential (port p) now (method p) (map ParseArgument (arguments p)) packets n n' r o
    Hcookie (plan_port _ _ _ _ Hplan) Hprint Hsize Hpackets Hrun Hanswer) as (c & E & A).
  exists c. split; [exact E|]. intros Hs Hc Hl. destruct (A Hs chunks Hc) as (status & body & R & P & Ei & Er & Ee).
  unfold Run. rewrite Hplan, Ef, Hcookie, Hl. cbn [Call]. rewrite R. cbn [mbind option_bind]. f_equal.
  pose proof (print_outcome dump_indented (raw p) r Er Ee) as Pr. cbv zeta in Pr, Ei, Er, Ee. unfold HandleReply. cbn [r_body]. rewrite P.
  destruct (reread (outcome_json (JUnsigned REQUEST_ID) r).2) as [| | | | | | |m]; try done. rewrite Ei.
  change (to_i64 REQUEST_ID =? REQUEST_ID) with true. cbv iota. exact Pr.
Qed.

(** *** Witness: a client and a server on one machine *)

Section witness.
#[local] Existing Instance toy_Sha256Impl.
#[local] Existing Instance Validation.picky_backends.
#[local] Existing Instance MempoolInv.sorted_order.
#[local] Existing Instance Wallet.no_Json.
#[local] Existing Instance CoinSelection.merge_StdSort.
#[local] Existing Instance Signing.toy_signing.
#[local] Existing Instance two_values.

Definition sample_args : list string := ["--chain=regtest"; "--datadir"; "/n"; "--rpcport=9332"; "help"].
Definition sample_plan : Plan := mkPlan 9332 (str "/n/.cookie") false (str "help") [].
Definition sample_cookie : bytes := str "__cookie__:00ff".

(** The server's answer to a request that arrives in two packets. *)
Definition sample_answer (r : bytes) : bytes :=
  match conn_run Rpc.sample_send true (mkAuthPolicy (Authorization sample_cookie) 9332)
    (map (fun x => ReadSome x 0) [take 50 r; drop 50 r]) Start Rpc.sample_node with
  | Some (c, _, _) => response_ c
  | None => []
  end.

Definition sample_environment : Environment :=
  mkEnvironment None (fun path => (if bool_decide (path = str "/n/.cookie") then Some (sample_cookie ++ newline) else None, false))
    (fun port r => if port =? 9332 then Exchanged (map Chunk [take 9 (sample_answer r); drop 9 (sample_answer r)]) else ConnectTimedOut) [].

Lemma cli_shows_answer_witness :
  Run (fun _ => str "[ the methods ]") sample_args sample_environment = Some (mkShown 0 (str "[ the methods ]" ++ newline) []).
Proof.
  set (r := request sample_plan sample_cookie).
  destruct (cli_shows_answer Rpc.sample_send (fun _ => str "[ the methods ]") sample_args sample_environment sample_plan sample_cookie 0
    [take 50 r; drop 50 r] [take 9 (sample_answer r); drop 9 (sample_answer r)] Rpc.sample_node Rpc.sample_node (inr help_value) []) as (c & E & A).
  - vm_compute. reflexivity.
  - vm_compute. reflexivity.
  - left. reflexivity.
  - vm_compute. discriminate.
  - cbn [concat]. rewrite app_nil_r. apply take_drop.
  - reflexivity.
  - right. reflexivity.
  - assert (sample_answer r = response_ c) as Ea by (unfold sample_answer; change 9332 with (port sample_plan); by rewrite E).
    rewrite A; [reflexivity| | |reflexivity].
    + rewrite <- Ea. apply Z.leb_le. vm_compute. reflexivity.
    + cbn [concat]. rewrite app_nil_r, take_drop. exact Ea.
Defined.
End witness.

End Cli.
