(* ===== verification/GenesisTool.v ===== *)
(** * The genesis tool (tools/genesis_tool.cpp)

    Printing and checking the networks' genesis blocks, and the search for their nonces by
    several threads at once.  The threads of a round write to slots of their own and are all
    joined before the round is read, so a run is described by the order in which they finish. *)

From Stdlib Require Import String.
From S2P Require Import Prelude Text Overflow Serialize Hex Crypto Primitives Target Issuance Params Merkle Sighash Validation Genesis Gpu.
From stdpp Require Import list strings.
#[local] Open Scope Z_scope.

Module GenesisTool.
Import Params Genesis.

Definition ALL_NETWORKS : list ChainParams := [MAINNET_PARAMS; TESTNET_PARAMS; REGTEST_PARAMS].

(** ** What is printed *)

Definition newline : bytes := [Byte.x0a].
Definition number (n : Z) : bytes := str (Text.to_string n).
(** [%lld]. *)
Definition signed (n : Z) : bytes := if n <? 0 then str "-" ++ number (- n) else number n.
(** [0x%08x]. *)
Definition hex32 (n : Z) : bytes := str "0x" ++ Hex.ToHex (rev (le_split 4 n)).

Definition upper (c : Init.Byte.byte) : Init.Byte.byte := if 97 <=? b2z c then z2b (b2z c - 32) else c.
(** [0x%02X,]. *)
Definition literal_byte (b : Init.Byte.byte) : bytes := str "0x" ++ map upper (Hex.ToHex [b]) ++ str ",".

Section tool.
Context `{Sha256Impl}.

Definition PrintGenesis (params : ChainParams) : bytes :=
  let genesis := BuildGenesisBlock params in
  let fault := CheckGenesis params in
  let header := blk_header genesis in
  concat
    [ str (net_name params); newline;
      str "  chain_id     "; Hex.Hash256_ToHex (chain_id params); newline;
      str "  timestamp    "; signed (hdr_timestamp header); newline;
      str "  target_bits  "; hex32 (hdr_target_bits header); newline;
      str "  nonce        "; number (hdr_nonce header); newline;
      str "  merkle_root  "; Hex.Hash256_ToHex (hdr_merkle_root header); newline;
      str "  hash         "; Hex.Hash256_ToHex (Block_Hash genesis); newline;
      str "  coinbase     "; Hex.Hash256_ToHex (Txid (BuildGenesisCoinbase params)); newline;
      str "  size         "; number (zlen (encode Block_Serialize genesis)); str " bytes, weight ";
      number (Block_Weight genesis); newline;
      str "  check        "; str (Describe_genesis fault); newline ].

(** ** The search *)

Definition STRIPE : Z := Z.shiftl 1 24.
Definition ROUNDS : Z := Z.shiftl 1 12.

Definition round_base (stripe hardware round : Z) : Z := wrapu 64 (wrapu 64 (round * stripe) * hardware).
Definition worker_start (stripe base worker : Z) : Z := wrapu 64 (base + wrapu 64 (worker * stripe)).

(** One worker: it writes its own slot. *)
Definition worker_run (params : ChainParams) (stripe base : Z) (found : list (option Z)) (worker : nat) : list (option Z) :=
  <[worker := FindGenesisNonce params (worker_start stripe base (Z.of_nat worker)) stripe]> found.

(** The slots once every worker is joined. *)
Definition search_round (params : ChainParams) (stripe base : Z) (hardware : nat) (finished : list nat) : list (option Z) :=
  fold_left (worker_run params stripe base) finished (replicate hardware None).

Definition better (best hit : option Z) : option Z :=
  match hit, best with
  | Some h, Some b => if h <? b then hit else best
  | Some _, None => hit
  | None, _ => best
  end.

Fixpoint search_rounds (rounds : nat) (params : ChainParams) (stripe : Z) (hardware : nat) (finished : Z -> list nat) (round : Z) : option Z :=
  match rounds with
  | O => None
  | S rounds =>
      let base := round_base stripe (Z.of_nat hardware) round in
      match fold_left better (search_round params stripe base hardware (finished round)) None with
      | Some best => Some best
      | None => search_rounds rounds params stripe hardware finished (round + 1)
      end
  end.

(** [finished] is the order in which the threads of a round end. *)
Definition MineSmallestNonce (params : ChainParams) (concurrency : nat) (finished : Z -> list nat) : option Z :=
  search_rounds (Z.to_nat ROUNDS) params STRIPE (Nat.max 1 concurrency) finished 0.

Definition literal_line (hash : bytes) : bytes :=
  concat (imap (fun index b => (if Nat.eqb (index mod 16) 0 then newline ++ str "      " else str " ") ++ literal_byte b) hash).

(** The parameters with the nonce found. *)
Definition mined_params (params : ChainParams) (nonce : Z) : ChainParams := record_genesis params nonce (genesis_hash params).

Definition mined_hash (params : ChainParams) (nonce : Z) : bytes := Block_Hash (BuildGenesisBlock (mined_params params nonce)).

Definition MineGenesis (params : ChainParams) (concurrency : nat) (finished : Z -> list nat) : bytes :=
  str (net_name params) ++ str ": mining genesis at " ++ hex32 (genesis_bits params) ++ newline ++
  match MineSmallestNonce params concurrency finished with
  | None => str "  no nonce found in the searched range" ++ newline
  | Some nonce =>
      let hash := mined_hash params nonce in
      concat
        [ str "  nonce  "; number nonce; newline;
          str "  hash   "; Hex.Hash256_ToHex hash; newline;
          str "  literal {"; literal_line hash; str "}"; newline ]
  end.

(** [--mine] is looked for in the first argument only. *)
Definition main (arguments : list bytes) (concurrency : nat) (finished : ChainParams -> Z -> list nat) : bytes :=
  let mine := match arguments with a :: _ => bool_decide (a = str "--mine") | [] => false end in
  concat (map (fun params => if mine then MineGenesis params concurrency (finished params) else PrintGenesis params) ALL_NETWORKS).

(** ** Lemmas *)

Definition meets (params : ChainParams) (nonce : Z) : bool :=
  Target.CheckProofOfWork (BlockHeader_Hash (with_nonce (blk_header (BuildGenesisBlock params)) nonce)) (genesis_bits params).

(** The first nonce of a range, if there is one. *)
Definition first_in (params : ChainParams) (lo hi : Z) (r : option Z) : Prop :=
  match r with
  | Some n => lo <= n < hi /\ meets params n = true /\ forall m, lo <= m < n -> meets params m = false
  | None => forall m, lo <= m < hi -> meets params m = false
  end.

Lemma first_in_unique params lo hi hi' n n' :
  first_in params lo hi (Some n) -> first_in params lo hi' (Some n') -> n = n'.
Proof.
  intros ([? ?] & A & B) ([? ?] & A' & B'). destruct (Z.lt_trichotomy n n') as [L|[L|L]]; [|done|].
  - rewrite (B' n) in A; [done|lia].
  - rewrite (B n') in A'; [done|lia].
Qed.

Lemma first_in_app params lo mid hi a b :
  lo <= mid <= hi -> first_in params lo mid a -> first_in params mid hi b ->
  first_in params lo hi (match a with Some _ => a | None => b end).
Proof.
  intros L A B. destruct a as [n|]; [|destruct b as [n|]]; unfold first_in in *.
  - destruct A as (? & ? & ?). split_and!; try done; lia.
  - destruct B as (? & ? & B). split_and!; try done; try lia.
    intros m ?. destruct (Z.lt_ge_cases m mid); [apply A|apply B]; lia.
  - intros m ?. destruct (Z.lt_ge_cases m mid); [apply A|apply B]; lia.
Qed.

Lemma FindGenesisNonce_first params start n :
  0 <= start -> 0 <= n -> start + n <= 2 ^ 64 -> first_in params start (start + n) (FindGenesisNonce params start n).
Proof.
  intros S N E. unfold FindGenesisNonce, first_in, meets, Target.CheckProofOfWork.
  destruct (Target.CompactToTarget (genesis_bits params)) as [t|]; [|done].
  pose proof (nonce_loop_spec (blk_header (BuildGenesisBlock params)) t start (Z.to_nat n) 0) as L.
  assert (W : forall k, 0 <= k < n -> wrapu 64 (start + k) = start + k) by (intros; apply wrapu_small; lia).
  destruct (nonce_loop _ _ _ _ _) as [nonce|].
  - destruct L as (k & Hk & -> & Hm & Hj). rewrite W in * by lia. split_and!; try done; try lia.
    intros m ?. specialize (Hj (m - start)). rewrite W in Hj by lia. replace (start + (m - start)) with m in Hj by lia. apply Hj. lia.
  - intros m ?. specialize (L (m - start)). rewrite W in L by lia. replace (start + (m - start)) with m in L by lia. apply L. lia.
Qed.

(** Whatever the order in which the workers finish, each slot ends up with its stripe's
    answer. *)
Lemma search_round_slots params stripe base hardware finished i :
  (i < hardware)%nat -> i ∈ finished ->
  search_round params stripe base hardware finished !! i = Some (FindGenesisNonce params (worker_start stripe base (Z.of_nat i)) stripe).
Proof.
  intros L. unfold search_round.
  assert (G : forall slots, length slots = hardware ->
    length (fold_left (worker_run params stripe base) finished slots) = hardware /\
    (i ∈ finished \/ slots !! i = Some (FindGenesisNonce params (worker_start stripe base (Z.of_nat i)) stripe) ->
     fold_left (worker_run params stripe base) finished slots !! i = Some (FindGenesisNonce params (worker_start stripe base (Z.of_nat i)) stripe))).
  { induction finished as [|j finished IH]; intros slots Hl; cbn [fold_left].
    { split; [done|]. intros [C|]; [by apply not_elem_of_nil in C|done]. }
    destruct (IH (worker_run params stripe base slots j)) as [A B]; [unfold worker_run; by rewrite length_insert|].
    split; [done|]. intros D. apply B. unfold worker_run. destruct (decide (i = j)) as [->|Ne].
    - right. apply list_lookup_insert_eq. lia.
    - destruct D as [D|D]; [left; apply elem_of_cons in D as [|]; done|right; by rewrite list_lookup_insert_ne]. }
  intros I. apply (G (replicate hardware None)); [apply length_replicate|by left].
Qed.

Lemma search_round_length params stripe base hardware finished : length (search_round params stripe base hardware finished) = hardware.
Proof.
  unfold search_round. generalize (length_replicate hardware (None (A := Z))). generalize (replicate hardware (None (A := Z))).
  induction finished as [|j finished IH]; intros slots Hl; cbn [fold_left]; [done|]. apply IH. unfold worker_run. by rewrite length_insert.
Qed.

(** The best of a row of adjacent stripes is the first nonce of the row. *)
Lemma best_first params lo stripe slots :
  0 <= stripe ->
  (forall i r, slots !! i = Some r -> first_in params (lo + Z.of_nat i * stripe) (lo + Z.of_nat (S i) * stripe) r) ->
  first_in params lo (lo + Z.of_nat (length slots) * stripe) (fold_left better slots None).
Proof.
  intros Hs. induction slots as [|r slots IH] using rev_ind; intros A; [intros m ?; cbn in *; lia|].
  rewrite fold_left_app, length_app. cbn [fold_left length].
  pose proof (IH (fun i x L => A i x (lookup_app_l_Some _ _ _ _ L))) as F.
  specialize (A (length slots) r). rewrite lookup_app_r, Nat.sub_diag in A by done. specialize (A eq_refl).
  replace (Z.of_nat (length slots + 1)) with (Z.of_nat (S (length slots))) by lia.
  pose proof (first_in_app params lo (lo + Z.of_nat (length slots) * stripe) (lo + Z.of_nat (S (length slots)) * stripe)
    (fold_left better slots None) r ltac:(nia) F A) as G.
  destruct (fold_left better slots None) as [b|], r as [h|]; cbn [better] in *; try done.
  destruct (Z.ltb_spec h b) as [C|C]; [|done]. destruct F as (? & _), A as (? & _). lia.
Qed.

Section search.
Context (params : ChainParams) (stripe : Z) (hardware : nat) (finished : Z -> list nat).
Context (Hs : 0 < stripe) (Hall : forall round i, (i < hardware)%nat -> i ∈ finished round).
Abbreviation width := (stripe * Z.of_nat hardware).

Lemma round_first round : 0 <= round -> (round + 1) * width <= 2 ^ 64 ->
  first_in params (round * width) ((round + 1) * width)
    (fold_left better (search_round params stripe (round_base stripe (Z.of_nat hardware) round) hardware (finished round)) None).
Proof.
  intros R B.
  assert (Eb : round_base stripe (Z.of_nat hardware) round = round * width).
  { unfold round_base. unfold wrapu. rewrite Z.mul_mod_idemp_l by done. rewrite Z.mod_small; nia. }
  rewrite Eb. pose proof (best_first params (round * width) stripe
    (search_round params stripe (round * width) hardware (finished round)) ltac:(lia)) as F.
  rewrite search_round_length in F. replace ((round + 1) * width) with (round * width + Z.of_nat hardware * stripe) by lia.
  apply F. intros i r L.
  assert (I : (i < hardware)%nat) by (apply lookup_lt_Some in L; by rewrite search_round_length in L).
  rewrite search_round_slots in L by auto. injection L as <-.
  assert (Ew : worker_start stripe (round * width) (Z.of_nat i) = round * width + Z.of_nat i * stripe).
  { unfold worker_start. rewrite (wrapu_small 64 (Z.of_nat i * stripe)) by nia. apply wrapu_small. nia. }
  rewrite Ew. replace (round * width + Z.of_nat (S i) * stripe) with (round * width + Z.of_nat i * stripe + stripe) by lia.
  apply FindGenesisNonce_first; nia.
Qed.

Lemma rounds_first rounds : forall round, 0 <= round -> (round + Z.of_nat rounds) * width <= 2 ^ 64 ->
  first_in params (round * width) ((round + Z.of_nat rounds) * width) (search_rounds rounds params stripe hardware finished round).
Proof.
  induction rounds as [|rounds IH]; intros round R B; cbn [search_rounds]; [intros m ?; lia|].
  pose proof (round_first round R ltac:(nia)) as F.
  specialize (IH (round + 1) ltac:(lia) ltac:(nia)).
  replace (round + Z.of_nat (S rounds)) with (round + 1 + Z.of_nat rounds) by lia.
  destruct (fold_left better _ None) as [best|] eqn:E.
  - apply (first_in_app params _ ((round + 1) * width) _ (Some best) (search_rounds rounds params stripe hardware finished (round + 1))); [nia|done..].
  - apply (first_in_app params _ ((round + 1) * width) _ None); [nia|done..].
Qed.
End search.

Lemma MineSmallestNonce_first params concurrency finished :
  (concurrency <= 2 ^ 28)%nat ->
  (forall round i, (i < Nat.max 1 concurrency)%nat -> i ∈ finished round) ->
  first_in params 0 (2 ^ 36 * Z.of_nat (Nat.max 1 concurrency)) (MineSmallestNonce params concurrency finished).
Proof.
  intros C A.
  assert (C' : Z.of_nat (Nat.max 1 concurrency) <= 2 ^ 28).
  { apply inj_le in C. rewrite Nat2Z.inj_pow in C. change (Z.of_nat 2 ^ Z.of_nat 28) with (2 ^ 28) in C. lia. }
  clear C. unfold MineSmallestNonce.
  pose proof (rounds_first params STRIPE (Nat.max 1 concurrency) finished ltac:(done) A (Z.to_nat ROUNDS) 0 ltac:(lia)) as F.
  rewrite Z2Nat.id in F by done. change STRIPE with (2 ^ 24) in *. change ROUNDS with (2 ^ 12) in *.
  replace (2 ^ 36 * Z.of_nat (Nat.max 1 concurrency)) with ((0 + 2 ^ 12) * (2 ^ 24 * Z.of_nat (Nat.max 1 concurrency))) by lia.
  apply F. lia.
Qed.

(** A nonce that meets the target, recorded with the hash it gives, passes the start-up check. *)
Lemma mined_passes_check params nonce :
  meets params nonce = true -> CheckGenesis (record_genesis params nonce (mined_hash params nonce)) = NoFault.
Proof.
  unfold meets, Target.CheckProofOfWork. rewrite CheckGenesis_eq. cbn [genesis_bits record_genesis genesis_hash].
  destruct (Target.CompactToTarget (genesis_bits params)) as [t|]; [|done]. intros M.
  change (Block_Hash (BuildGenesisBlock (record_genesis params nonce (mined_hash params nonce)))) with (mined_hash params nonce).
  rewrite bool_decide_eq_true_2 by done. cbn [negb].
  change (mined_hash params nonce) with (BlockHeader_Hash (with_nonce (blk_header (BuildGenesisBlock params)) nonce)). by rewrite M.
Qed.
End tool.

Fixpoint contains (pat s : bytes) : bool :=
  bool_decide (take (length pat) s = pat) || match s with [] => false | _ :: s => contains pat s end.

(** ** The theorems *)

(** C39: the genesis nonce does not depend on the machine.  However many threads search and in
    whatever order they finish, what [MineSmallestNonce] finds meets the target and is the
    smallest nonce that does, so two machines that find one find the same; recorded with the
    hash the tool prints it passes the check a node makes at start; and where none is found
    no nonce below two to the thirty-six times the thread count would do. *)
Theorem mined_nonce_smallest `{Sha256Impl} (params : ChainParams) (concurrency concurrency' : nat) (finished finished' : Z -> list nat)
    (Hc : (concurrency <= 2 ^ 28)%nat) (Hc' : (concurrency' <= 2 ^ 28)%nat)
    (Hf : forall round i, (i < Nat.max 1 concurrency)%nat -> i ∈ finished round)
    (Hf' : forall round i, (i < Nat.max 1 concurrency')%nat -> i ∈ finished' round) :
  match MineSmallestNonce params concurrency finished with
  | Some nonce =>
      meets params nonce = true /\ (forall smaller, 0 <= smaller < nonce -> meets params smaller = false) /\
      CheckGenesis (record_genesis params nonce (mined_hash params nonce)) = NoFault /\
      (forall other, MineSmallestNonce params concurrency' finished' = Some other -> other = nonce)
  | None => forall nonce, 0 <= nonce < 2 ^ 36 * Z.of_nat (Nat.max 1 concurrency) -> meets params nonce = false
  end.
Proof.
  pose proof (MineSmallestNonce_first params concurrency finished Hc Hf) as F.
  pose proof (MineSmallestNonce_first params concurrency' finished' Hc' Hf') as F'.
  destruct (MineSmallestNonce params concurrency finished) as [nonce|]; [|exact F].
  pose proof F as (_ & M & L). split_and!; [done|done|by apply mined_passes_check|].
  intros other E. rewrite E in F'. by eapply first_in_unique.
Qed.

Lemma workers_in_turn (concurrency : nat) (round : Z) (i : nat) :
  (i < Nat.max 1 concurrency)%nat -> i ∈ seq 0 (Nat.max 1 concurrency).
Proof. intros ?. apply elem_of_seq. lia. Qed.

Lemma mined_nonce_smallest_witness :
  exists params : ChainParams,
  match MineSmallestNonce (H := toy_Sha256Impl) params 2 (fun _ => rev (seq 0 2)) with
  | Some nonce =>
      meets (H := toy_Sha256Impl) params nonce = true /\
      (forall smaller, 0 <= smaller < nonce -> meets (H := toy_Sha256Impl) params smaller = false) /\
      CheckGenesis (H := toy_Sha256Impl) (record_genesis params nonce (mined_hash (H := toy_Sha256Impl) params nonce)) = NoFault /\
      (forall other, MineSmallestNonce (H := toy_Sha256Impl) params 1 (fun _ => seq 0 1) = Some other -> other = nonce)
  | None => forall nonce, 0 <= nonce < 2 ^ 36 * Z.of_nat (Nat.max 1 2) -> meets (H := toy_Sha256Impl) params nonce = false
  end.
Proof.
  exists REGTEST_PARAMS.
  apply (mined_nonce_smallest (H := toy_Sha256Impl) REGTEST_PARAMS 2 1 (fun _ => rev (seq 0 2)) (fun _ => seq 0 1)).
  - apply (Nat.pow_le_mono_r 2 1 28); lia.
  - apply (Nat.pow_le_mono_r 2 0 28); lia.
  - intros _ i L. apply elem_of_reverse. rewrite <- (rev_alt (seq 0 2)), rev_involutive || idtac. by apply (workers_in_turn 2 0).
  - intros round i L. by apply (workers_in_turn 1 round).
Defined.

(** The search itself on short stripes: both machines find the nonce the table records. *)
Example regtest_nonce_mined :
  search_rounds (H := Fips.fips_Sha256Impl) 4 REGTEST_PARAMS 2 2 (fun _ => [1; 0]%nat) 0 = Some (genesis_nonce REGTEST_PARAMS) /\
  search_rounds (H := Fips.fips_Sha256Impl) 8 REGTEST_PARAMS 1 1 (fun _ => [0]%nat) 0 = Some (genesis_nonce REGTEST_PARAMS).
Proof. vm_compute. split; reflexivity. Qed.

(** What the tool prints for each network, with SHA-256 as the standard defines it, names the
    recorded nonce and ends in the verdict of a node's start-up check. *)
Example networks_printed :
  forallb (fun params =>
    let text := PrintGenesis (H := Fips.fips_Sha256Impl) params in
    contains (str "  nonce        " ++ number (genesis_nonce params) ++ newline) text &&
    contains (str "  hash         " ++ Hex.Hash256_ToHex (genesis_hash params) ++ newline) text &&
    bool_decide (drop (length text - 18) text = str "  check        ok" ++ newline)) ALL_NETWORKS = true.
Proof. vm_compute. reflexivity. Qed.

End GenesisTool.
