(* ===== verification/WalletTool.v ===== *)
(** * The wallet program (wallet/amarian_wallet.cpp)

    The whole program: its options, the commands over a wallet file, the calls to a node and
    what is printed.  A run takes the files, the environment, the random source and the
    machine's loopback network as arguments and gives what is shown and the files it leaves. *)

From Stdlib Require Import String Ascii.
From S2P Require Import Prelude Overflow Serialize Hex Text Crypto Primitives Issuance Params Validation Address CoinSelection Mnemonic Signing TxBuilder WalletDb Wallet Http JsonValue RpcClient Rpc RpcServer Args Cli.
From stdpp Require Import gmap strings.
#[local] Open Scope Z_scope.

Module WalletTool.
Import JsonValue Http RpcClient RpcServer.

Definition EXIT_FAILURE : Z := 1.
Definition EXIT_USAGE : Z := 2.

(** ** Text *)

Definition zeros (n : Z) : bytes := replicate (Z.to_nat n) Byte.x30.

Definition FormatAmr (facets : Z) : bytes :=
  let negative := facets <? 0 in
  let magnitude := if negative then wrapu 64 (wrapu 64 (- (facets + 1)) + 1) else wrapu 64 facets in
  let whole := magnitude / Issuance.FACETS_PER_AMR in
  let fraction := magnitude mod Issuance.FACETS_PER_AMR in
  let fraction_text := to_chars fraction in
  let fraction_text := zeros (wrapu 64 (10 - zlen fraction_text)) ++ fraction_text in
  (if negative then str "-" else []) ++ to_chars whole ++ str "." ++ fraction_text.

Definition JoinWords (words : list string) : string :=
  match words with
  | [] => ""
  | w :: words => fold_left (fun joined w => joined +:+ " " +:+ w) words w
  end.

Definition is_blank (c : ascii) : bool := bool_decide (c = " "%char) || bool_decide (c = "009"%char).

(** The loop of [SplitWords], with the word that is being read. *)
Fixpoint split_loop (text : string) (current : string) : list string :=
  match text with
  | EmptyString => if bool_decide (current = "") then [] else [current]
  | String c text =>
      if is_blank c then
        if bool_decide (current = "") then split_loop text "" else current :: split_loop text ""
      else split_loop text (current +:+ String c "")
  end.

Definition SplitWords (text : string) : list string := split_loop text "".

Definition ParseAmount (text : string) : option Z :=
  match Args.whole_int text with
  | Some amount => if amount <=? 0 then None else Some amount
  | None => None
  end.

Definition BAD_AMOUNT : bytes := str "amount must be a positive integer number of facets".

(** ** Options *)

Definition OPTIONS : list Args.ArgSpec :=
  [Args.mkArgSpec "help" Args.Flag "" "Show this help and exit." "h"%char;
   Args.mkArgSpec "version" Args.Flag "" "Print version and exit." "v"%char;
   Args.mkArgSpec "chain" Args.Str "<network>" "One of mainnet, testnet, regtest. Default: mainnet." Args.NUL;
   Args.mkArgSpec "datadir" Args.Str "<dir>" "The node datadir (for RPC connection). Default: $HOME/.amarian/<network>." Args.NUL;
   Args.mkArgSpec "rpcport" Args.Integer "<port>" "Node RPC port. Default: the network's." Args.NUL;
   Args.mkArgSpec "cookie" Args.Str "<file>" "RPC credential file. Default: <datadir>/.cookie." Args.NUL;
   Args.mkArgSpec "timeout" Args.Integer "<seconds>" "RPC timeout. Default: 60." Args.NUL;
   Args.mkArgSpec "wallet" Args.Str "<path>" "Wallet database path. Default: <datadir>/wallet.dat." Args.NUL;
   Args.mkArgSpec "wallet-password" Args.Str "<password>" "Wallet password. Default: empty." Args.NUL;
   Args.mkArgSpec "raw" Args.Flag "" "Print raw JSON responses." Args.NUL].

Definition RegisterOptions (p : Args.ArgsParser) : Args.ArgsParser := fold_left (fun p spec => Args.Add spec p) OPTIONS p.

Definition new_parser : Args.ArgsParser :=
  RegisterOptions (Args.new_ArgsParser "amarian-wallet" "amarian-wallet [options] <command> [arguments...]").

Definition PrintUsage (version : bytes) (parser : Args.ArgsParser) : bytes :=
  str "Amarian wallet tool " ++ version ++ newline ++ newline ++ str (Args.HelpText parser) ++ newline ++
  newline ++ str "Commands (positional, after options):" ++ newline ++ newline ++
  str "  create              Create a new wallet" ++ newline ++
  str "  getnewaddress       Generate a new receive address" ++ newline ++
  str "  listaddresses       List all derived addresses" ++ newline ++
  str "  getbalance          Get wallet balance" ++ newline ++
  str "  send <addr> <amt>   Send amount (facets) to address" ++ newline ++
  str "  listtransactions    List stored transactions" ++ newline ++
  str "  backup              Export mnemonic backup" ++ newline ++
  str "  restore <mnemonic>  Restore wallet from mnemonic" ++ newline ++
  newline ++ str "Options:" ++ newline ++ newline.

(** What the command line settles. *)
Record Plan := mkPlan {
  params : Params.ChainParams;
  command : string;
  arguments : list string;
  wallet_path : bytes;
  wallet_pass : bytes;
  port : Z;
  cookie_path : bytes }.

Definition plan (version : bytes) (home : option string) (args : list string) : Shown + Plan :=
  match Args.Parse args new_parser with
  | (Args.Fail code detail, _) => inl (mkShown EXIT_USAGE [] (str "amarian-wallet: " ++ Cli.Message code detail ++ newline))
  | (Args.Done _, parser) =>
      if Args.Has parser "help" then inl (mkShown EXIT_SUCCESS (PrintUsage version parser) [])
      else if Args.Has parser "version" then inl (mkShown EXIT_SUCCESS (version ++ newline) [])
      else match Cli.SelectNetwork parser with
      | None => inl (mkShown EXIT_USAGE [] (str "unknown --chain '" ++ str (Args.GetString parser "chain" "") ++ str "'" ++ newline))
      | Some network =>
          let params := Params.ParamsFor network in
          match Args.positional_ parser with
          | [] => inl (mkShown EXIT_USAGE [] (str "amarian-wallet: no command. Try --help." ++ newline))
          | command :: arguments =>
              match Cli.ResolveDataDir parser home params with
              | None => inl (mkShown EXIT_USAGE [] (str "HOME not set, use --datadir" ++ newline))
              | Some datadir =>
                  let asked_port := Args.GetInt parser "rpcport" 0 in
                  inr (mkPlan params command arguments
                         (str (if Args.Has parser "wallet" then Args.GetString parser "wallet" "" else datadir +:+ "/wallet.dat"))
                         (str (Args.GetString parser "wallet-password" ""))
                         (if negb (asked_port =? 0) then wrapu 16 asked_port else Params.default_rpc_port params)
                         (if Args.Has parser "cookie" then str (Args.GetString parser "cookie" "") else Cli.path_append (str datadir) (str ".cookie")))
              end
          end
      end
  end.

(** ** Replies *)

(** A double as [static_cast<long long>] converts it; [None] where it does not fit. *)
Definition trunc_double (bits : Z) : option Z :=
  let e := Z.land (Z.shiftr bits 52) 0x7FF in
  let m := Z.land bits (2 ^ 52 - 1) in
  let magnitude := if e =? 0 then 0 else if 1075 <=? e then (2 ^ 52 + m) * 2 ^ (e - 1075) else (2 ^ 52 + m) / 2 ^ (1075 - e) in
  let value := if Z.testbit bits 63 then - magnitude else magnitude in
  if (- 2 ^ 63 <=? value) && (value <? 2 ^ 63) then Some value else None.

(** [res.value(key, 0LL)]; [None] is an exception, or a conversion that is not defined. *)
Definition value_integer (key : string) (res : json) : option Z :=
  match res with
  | JObject _ =>
      match member key res with
      | None => Some 0
      | Some (JUnsigned n) => Some (to_i64 n)
      | Some (JInteger n) => Some n
      | Some (JBool b) => Some (Z.b2z b)
      | Some (JFloat bits) => trunc_double bits
      | Some _ => None
      end
  | _ => None
  end.

(** [res.value(key, "")]. *)
Definition value_string (key : string) (res : json) : option bytes :=
  match res with
  | JObject _ => match member key res with None => Some [] | Some (JString s) => Some s | Some _ => None end
  | _ => None
  end.

Definition signed (n : Z) : bytes := if n <? 0 then str "-" ++ to_chars (- n) else to_chars n.

Definition balance_line (label : string) (n : Z) : bytes :=
  str label ++ FormatAmr n ++ str " AMR (" ++ signed n ++ str " facets)" ++ newline.

Definition balance_lines (confirmed pending total : Z) : bytes :=
  balance_line "Confirmed: " confirmed ++ balance_line "Pending:   " pending ++ balance_line "Total:     " total.

Abbreviation Disk := (gmap bytes bytes).

Record Environment := mkEnvironment {
  home : option string;
  disk : Disk;
  (** Where a file can be written, and where one fails to be read. *)
  writable : bytes -> bool;
  bad : bytes -> bool;
  entropy : option bytes;
  loopback : Z -> bytes -> Cli.Attempt;
  version : bytes }.

Section run.
Context `{SH : Sha256Impl} `{WJ : WalletDb.Json} `{SS : CoinSelection.StdSort} `{SB : Signature.SignatureBackends} `{SG : Signing.SigningBackends} `{JT : JsonText}.

(** What a whole reply says. *)
Definition read_envelope (body : bytes) : bytes + json :=
  match parse body with
  | Some (JObject m) =>
      match is_error (JObject m) with
      | Some err =>
          inl match member "data" err, member "message" err with
              | Some (JString data), _ => data
              | _, Some (JString message) => message
              | _, _ => dump err
              end
      | None => inr (JObject m)
      end
  | _ => inl (str "non-JSON response from node")
  end.

(** The loop of [RpcCall] that reads the reply; [None] is a read that is still to end. *)
Fixpoint read_loop (buffer : bytes) (events : list ReadEvent) : option (bytes + json) :=
  let parsed := ParseResponse buffer in
  match r_state parsed with
  | RComplete => Some (read_envelope (r_body parsed))
  | RMalformed => Some (inl (r_failure parsed))
  | RNeedMore =>
      match events with
      | [] => None
      | ReadFailed _ :: _ | TimedOut :: _ => Some (inl (str "timed out reading reply"))
      | Eof got :: _ =>
          let finished := FinishResponse (buffer ++ got) in
          match r_state finished with
          | RComplete => Some (match parse (r_body finished) with Some envelope => inr envelope | None => inl (str "non-JSON response") end)
          | _ => Some (inl (if bool_decide (r_failure finished = []) then str "incomplete reply" else r_failure finished))
          end
      | Chunk got :: events => read_loop (buffer ++ got) events
      end
  end.

Definition RpcCall (env : Environment) (credential : bytes) (port : Z) (method : string) (args : json) : option (bytes + json) :=
  let request := RenderCall (Authorization credential) (str "127.0.0.1") port (RenderCallBody (str method) args REQUEST_ID) in
  match loopback env port request with
  | Cli.ConnectTimedOut | Cli.ConnectFailed _ => Some (inl (str "cannot connect to node at 127.0.0.1:" ++ to_chars port))
  | Cli.SendTimedOut | Cli.SendFailed _ => Some (inl (str "cannot send request"))
  | Cli.Exchanged events => read_loop [] events
  end.

(** ** Commands *)

Section commands.
Context (p : Plan) (env : Environment).

Definition can_write : bool := negb (bool_decide (wallet_path p = [])) && writable env (wallet_path p).

(** The constructor of the wallet at the path. *)
Definition construct : Wallet.Wallet :=
  Wallet.new_Wallet can_write (disk env !! wallet_path p) (wallet_pass p) (params p) (entropy env).

(** The files with what the wallet has written. *)
Definition saved (w : Wallet.Wallet) : Disk :=
  match WalletDb.file (Wallet.db_ w) with Some text => <[wallet_path p := text]> (disk env) | None => disk env end.

Definition shown (status : Z) (out err : bytes) (w : Wallet.Wallet) : option (Shown * Disk) := Some (mkShown status out err, saved w).

Definition create : option (Shown * Disk) :=
  let w := construct in
  shown EXIT_SUCCESS
    (str "Wallet created at " ++ wallet_path p ++ newline ++
     str "Mnemonic (backup this):" ++ newline ++ str (JoinWords (Wallet.backup_mnemonic (Wallet.ExportBackup w))) ++ newline) [] w.

Definition restore : option (Shown * Disk) :=
  match arguments p with
  | [] => Some (mkShown EXIT_USAGE [] (str "amarian-wallet: restore needs a mnemonic phrase as argument" ++ newline), disk env)
  | phrase :: _ =>
      let backup := Wallet.mkWalletBackup (SplitWords phrase) [] in
      match Mnemonic.SeedFromMnemonic (Wallet.backup_mnemonic backup) with
      | None => Some (mkShown EXIT_FAILURE [] (str "amarian-wallet: invalid mnemonic" ++ newline), disk env)
      | Some _ =>
          let '(ok, w) := Wallet.RestoreFromBackup backup construct in
          if ok then shown EXIT_SUCCESS (str "Wallet restored at " ++ wallet_path p ++ newline) [] w
          else shown EXIT_FAILURE [] (str "amarian-wallet: restore failed" ++ newline) w
      end
  end.

Definition is_online_command : bool := String.eqb (command p) "getbalance" || String.eqb (command p) "send".

(** [err] is what was complained about the cookie; [credential] is in a cookie that was read. *)
Definition getbalance (credential : option bytes) (err : bytes) (w : Wallet.Wallet) : option (Shown * Disk) :=
  let offline :=
    let bal := Wallet.GetBalance w in
    shown EXIT_SUCCESS (balance_lines (Wallet.confirmed bal) (Wallet.pending bal) (Wallet.Total bal)) err w in
  match credential with
  | None => offline
  | Some credential =>
      rpc_result ← RpcCall env credential (port p) "getbalance" (JArray []);
      match rpc_result with
      | inr envelope =>
          match member "result" envelope with
          | Some res =>
              confirmed ← value_integer "confirmed" res;
              pending ← value_integer "pending" res;
              total ← value_integer "total" res;
              shown EXIT_SUCCESS (balance_lines confirmed pending total) err w
          | None => offline
          end
      | inl _ => offline
      end
  end.

Definition sent_line (txid : bytes) (fee : Z) : bytes := str "Sent. txid: " ++ txid ++ str ", fee: " ++ signed fee ++ newline.

Definition send (credential : option bytes) (err : bytes) (w : Wallet.Wallet) : option (Shown * Disk) :=
  match arguments p with
  | address :: text :: _ =>
      match ParseAmount text with
      | None => shown EXIT_USAGE [] (err ++ str "amarian-wallet: " ++ BAD_AMOUNT ++ newline) w
      | Some amount =>
          match credential with
          | Some credential =>
              rpc_result ← RpcCall env credential (port p) "sendtoaddress" (JArray [JString (str address); JInteger amount]);
              match rpc_result with
              | inl failure => shown EXIT_RPC_ERROR [] (err ++ str "amarian-wallet: RPC send failed: " ++ c_str failure ++ newline) w
              | inr envelope =>
                  match member "result" envelope with
                  | Some (JObject m) =>
                      txid ← value_string "txid" (JObject m);
                      fee ← value_integer "fee" (JObject m);
                      shown EXIT_SUCCESS (sent_line (c_str txid) fee ++ str "Broadcast result: accepted" ++ newline) err w
                  | _ => shown EXIT_RPC_ERROR [] (err ++ str "amarian-wallet: RPC send returned an invalid result" ++ newline) w
                  end
              end
          | None =>
              match Wallet.Send (str address) amount 0 w with
              | None => shown EXIT_FAILURE [] (err ++ str "amarian-wallet: send failed" ++ newline) w
              | Some (result, w) =>
                  let stx := WalletDb.mkStoredTransaction (Wallet.res_txid result) (-1) 0 0 amount (Wallet.res_fee result) [] in
                  shown EXIT_SUCCESS (sent_line (Hex.Hash256_ToHex (Wallet.res_txid result)) (Wallet.res_fee result))
                    (err ++ str "Cannot broadcast: no RPC connection (tx saved locally)" ++ newline) (Wallet.AddTransaction stx w)
              end
          end
      end
  | _ => shown EXIT_USAGE [] (err ++ str "amarian-wallet: send <address> <amount>" ++ newline) w
  end.

Definition address_line (a : Wallet.AddressInfo) : bytes :=
  Wallet.info_address a ++ str "  (account " ++ to_chars (Wallet.info_account_id a) ++ str ", index " ++ to_chars (Wallet.info_index a) ++ str ")" ++ newline.

Definition transaction_line (tx : WalletDb.StoredTransaction) : bytes :=
  Hex.Hash256_ToHex (WalletDb.st_txid tx) ++ str "  height=" ++ signed (WalletDb.st_height tx) ++ str "  received=" ++ signed (WalletDb.st_received tx) ++
  str "  sent=" ++ signed (WalletDb.st_sent tx) ++ str "  fee=" ++ signed (WalletDb.st_fee tx) ++ newline.

(** The commands over a wallet that was opened. *)
Definition execute (w : Wallet.Wallet) : option (Shown * Disk) :=
  let cookie := Cookie_Read (disk env !! cookie_path p) (bad env (cookie_path p)) in
  let credential := match cookie with inr c => Some c | inl _ => None end in
  let err :=
    match cookie with
    | inl e => if is_online_command then str "amarian-wallet: cannot read RPC cookie: " ++ Cli.Describe_cookie (cookie_path p) e ++ newline else []
    | inr _ => []
    end in
  if String.eqb (command p) "getnewaddress" then
    let '(addr, w) := Wallet.GetNewAddress 0 w in shown EXIT_SUCCESS (Wallet.info_address addr ++ newline) err w
  else if String.eqb (command p) "listaddresses" then
    shown EXIT_SUCCESS (concat (map address_line (Wallet.ListAddresses 0 w))) err w
  else if String.eqb (command p) "getbalance" then getbalance credential err w
  else if String.eqb (command p) "send" then send credential err w
  else if String.eqb (command p) "listtransactions" then
    let txs := Wallet.ListTransactions w in
    shown EXIT_SUCCESS (if bool_decide (txs = []) then str "(no transactions)" ++ newline else concat (map transaction_line txs)) err w
  else if String.eqb (command p) "backup" then
    let backup := Wallet.ExportBackup w in
    shown EXIT_SUCCESS
      (str "Mnemonic:" ++ newline ++ str (JoinWords (Wallet.backup_mnemonic backup)) ++ newline ++ newline ++
       str "Metadata:" ++ newline ++ Hex.ToHex (Wallet.backup_metadata backup) ++ newline) err w
  else shown EXIT_USAGE [] (err ++ str "amarian-wallet: unknown command '" ++ str (command p) ++ str "'. Try --help." ++ newline) w.

Definition run_plan : option (Shown * Disk) :=
  if String.eqb (command p) "create" then create
  else if String.eqb (command p) "restore" then restore
  else match Wallet.Open can_write (disk env !! wallet_path p) (wallet_pass p) (params p) (entropy env) with
  | None => shown EXIT_FAILURE [] (str "amarian-wallet: cannot open wallet at " ++ wallet_path p ++ str " (use 'create' first)" ++ newline) construct
  | Some w => execute w
  end.
End commands.

(** What is shown, and the files that are left. *)
Definition Run (args : list string) (env : Environment) : option (Shown * Disk) :=
  match plan (version env) (home env) args with
  | inl shown => Some (shown, disk env)
  | inr p => run_plan p env
  end.
End run.

(** ** Lemmas: text *)

Lemma decimal_width k : forall fuel n, 0 <= n < 10 ^ (Z.of_nat (S k)) -> (length (str (Text.decimal fuel n "")) <= S k)%nat.
Proof.
  induction k as [|k IH]; intros [|fuel] n Hn; cbn [Text.decimal]; try (cbn; lia).
  - change (10 ^ Z.of_nat 1) with 10 in Hn. rewrite (proj2 (Z.ltb_lt n 10)) by lia. cbn. lia.
  - destruct (n <? 10); [cbn; lia|]. rewrite Text.decimal_app, str_app, length_app. cbn [str String.list_byte_of_string String.list_ascii_of_string map length].
    assert (0 <= n / 10 < 10 ^ Z.of_nat (S k)) as Hd.
    { rewrite Nat2Z.inj_succ, Z.pow_succ_r in Hn by lia. split; [apply Z.div_pos; lia|apply Z.div_lt_upper_bound; lia]. }
    specialize (IH fuel (n / 10) Hd). rewrite Nat.add_1_r. lia.
Qed.

Lemma digits_zeros n t : all_digits (replicate n Byte.x30 ++ t) = all_digits t /\ digits_value (replicate n Byte.x30 ++ t) = digits_value t.
Proof. unfold digits_value. induction n as [|n [IH1 IH2]]; [done|]. cbn [replicate app all_digits forallb foldl]. by split. Qed.

(** An amount is printed exactly: a sign, the whole coins and ten digits, for every 64-bit
    number. *)
Lemma format_amr_exact facets : i64 facets -> exists whole fraction digits,
  FormatAmr facets = (if facets <? 0 then str "-" else []) ++ to_chars whole ++ str "." ++ digits /\
  Z.abs facets = whole * 10 ^ 10 + fraction /\ 0 <= whole /\ 0 <= fraction < 10 ^ 10 /\
  length digits = 10%nat /\ all_digits digits = true /\ digits_value digits = fraction.
Proof.
  unfold i64, FormatAmr. intros Hf. change Issuance.FACETS_PER_AMR with (10 ^ 10).
  set (m := if facets <? 0 then wrapu 64 _ else _).
  assert (m = Z.abs facets) as ->.
  { unfold m. destruct (Z.ltb_spec facets 0).
    - rewrite (wrapu_small 64 (- (facets + 1))) by lia. rewrite wrapu_small by lia. lia.
    - rewrite wrapu_small by lia. lia. }
  set (w := Z.abs facets / 10 ^ 10). set (f := Z.abs facets mod 10 ^ 10).
  assert (0 <= f < 10 ^ 10) as Hr by (apply Z.mod_pos_bound; lia).
  assert (0 <= w) as Hw by (apply Z.div_pos; lia).
  assert (zlen (to_chars f) <= 10) as Hl by (unfold zlen, to_chars, Text.to_string; pose proof (decimal_width 9 20 f ltac:(lia)); lia).
  pose proof (zlen_nonneg (to_chars f)). rewrite wrapu_small by lia.
  destruct (to_chars_digits f ltac:(lia)) as (_ & Hd & Hv).
  destruct (digits_zeros (Z.to_nat (10 - zlen (to_chars f))) (to_chars f)) as [E1 E2].
  exists w, f, (zeros (10 - zlen (to_chars f)) ++ to_chars f). unfold zeros. split_and!; try lia; try congruence.
  - unfold w, f. rewrite (Z.div_mod (Z.abs facets) (10 ^ 10)) at 1 by lia. lia.
  - rewrite length_app, length_replicate. unfold zlen in *. lia.
Qed.

(** A word of a phrase. *)
Definition plain (w : string) : bool := negb (bool_decide (w = "")) && Text.all (fun c => negb (is_blank c)) w.

Lemma split_word w : forall rest current, Text.all (fun c => negb (is_blank c)) w = true ->
  split_loop (w +:+ rest) current = split_loop rest (current +:+ w).
Proof.
  induction w as [|c w IH]; intros rest current A; [by rewrite Args.append_empty|]. cbn in A. apply andb_true_iff in A as [Ac A].
  rewrite Text.append_cons. cbn [split_loop]. apply negb_true_iff in Ac. rewrite Ac, IH by done.
  by rewrite <- (assoc_L String.append).
Qed.

Lemma join_tail words : forall first, fold_left (fun joined w => joined +:+ " " +:+ w) words first =
  first +:+ foldr (fun w rest => " " +:+ w +:+ rest) "" words.
Proof.
  induction words as [|w words IH]; intros first; cbn [fold_left foldr]; [by rewrite Args.append_empty|]. rewrite IH.
  by rewrite <- !(assoc_L String.append).
Qed.

Lemma SplitWords_JoinWords words : forallb plain words = true -> SplitWords (JoinWords words) = words.
Proof.
  unfold SplitWords, JoinWords. destruct words as [|first words]; [done|]. cbn [forallb]. intros [Pf Pw]%andb_true_iff. rewrite join_tail.
  apply andb_true_iff in Pf as [Hf Af]. rewrite split_word by done. change ("" +:+ first) with first. apply negb_true_iff, bool_decide_eq_false in Hf.
  clear Af. revert first Hf. induction words as [|w words IH]; intros first Hf; cbn [foldr]; [cbn; by rewrite bool_decide_false|].
  cbn [forallb] in Pw. apply andb_true_iff in Pw as [[Hw Aw]%andb_true_iff Pw]. apply negb_true_iff, bool_decide_eq_false in Hw.
  change (" " +:+ w +:+ foldr (fun w rest => " " +:+ w +:+ rest) "" words) with (String " " (w +:+ foldr (fun w rest => " " +:+ w +:+ rest) "" words)).
  cbn [split_loop]. change (is_blank " ") with true. cbv iota. rewrite bool_decide_false by done. f_equal.
  rewrite split_word by done. change ("" +:+ w) with w. by apply IH.
Qed.

Lemma phrase_plain `{Sha256Impl} seed : forallb plain (Mnemonic.GenerateMnemonic seed) = true.
Proof.
  assert (forallb plain Mnemonic.BIP39_WORDS = true) as F by (vm_compute; reflexivity).
  apply forallb_forall. intros w Hw. unfold Mnemonic.GenerateMnemonic in Hw. apply in_map_iff in Hw as (i & <- & _).
  destruct (Mnemonic.word_index_spec (Mnemonic.seed_bits seed) i) as [Hr _]. set (k := Mnemonic.word_index _ _) in *.
  unfold Mnemonic.Bip39Word. destruct (Z.geb_spec k Mnemonic.BIP39_WORDLIST_SIZE); [change Mnemonic.BIP39_WORDLIST_SIZE with 2048 in *; lia|].
  rewrite Mnemonic.word_count. pose proof (Z.mod_pos_bound k 2047 ltac:(lia)).
  destruct (lookup_lt_is_Some_2 Mnemonic.BIP39_WORDS (Z.to_nat (k mod 2047))) as [w Ew].
  { assert (Z.of_nat (length Mnemonic.BIP39_WORDS) = 2047) as E by exact Mnemonic.word_count. lia. }
  rewrite Ew. cbn. rewrite forallb_forall in F. apply F. apply list_elem_of_In. by eapply list_elem_of_lookup_2.
Qed.

(** ** Lemmas: the wallet's files *)

Section files.
Context `{SH : Sha256Impl} `{WJ : WalletDb.Json} `{SS : CoinSelection.StdSort} `{SB : Signature.SignatureBackends} `{SG : Signing.SigningBackends} `{JT : JsonText}.

(** What a wallet knows when a program has just opened it: nothing but its keys. *)
Lemma opened_blank path contents password params entropy w : Wallet.Open path contents password params entropy = Some w ->
  Wallet.utxos_ w = [] /\ Wallet.balance_ w = Wallet.mkBalance 0 0 /\ WalletDb.txs (Wallet.db_ w) = ∅.
Proof.
  assert (forall db, WalletDb.txs db = ∅ -> WalletDb.txs (WalletDb.Save db) = ∅) as Hs by (intros db; unfold WalletDb.Save; by destruct (negb _)).
  assert (WalletDb.txs (WalletDb.WalletDb_open path contents) = ∅) as Ho.
  { unfold WalletDb.WalletDb_open, WalletDb.Load. repeat case_match; done. }
  assert (Wallet.utxos_ (Wallet.new_Wallet path contents password params entropy) = [] /\
    Wallet.balance_ (Wallet.new_Wallet path contents password params entropy) = Wallet.mkBalance 0 0 /\
    WalletDb.txs (Wallet.db_ (Wallet.new_Wallet path contents password params entropy)) = ∅) as Hn.
  { assert (WalletDb.txs (WalletDb.AddAccount Wallet.default_account (WalletDb.SetBirthHeight 0
        (WalletDb.StoreSeed (Wallet.GenerateSeed entropy) password (WalletDb.WalletDb_open path contents)))) = ∅) as Ht.
    { unfold WalletDb.AddAccount. destruct (_ >=? _); [|apply Hs; cbn]; unfold WalletDb.SetBirthHeight; apply Hs; cbn; unfold WalletDb.StoreSeed; apply Hs; done. }
    unfold Wallet.new_Wallet. repeat case_match; done. }
  unfold Wallet.Open. intros E. repeat case_match; try done. by injection E as <-.
Qed.

(** Without coins nothing is sent. *)
Lemma blank_sends_nothing address amount rate w : Wallet.utxos_ w = [] -> Wallet.Send address amount rate w = None.
Proof.
  intros Hu. unfold Wallet.Send, Wallet.SendToLock. destruct (Address.AddressToLock _ _) as [lock|]; [|done]. cbn [mbind option_bind].
  unfold Wallet.send_builder, TxBuilder.Build. cbn. unfold Wallet.spendable. rewrite Hu. done.
Qed.

(** A new wallet, as it is kept. *)
Definition kept_root (seed password : bytes) : WalletDb.Root :=
  WalletDb.mkRoot 1 (Hex.ToHex (WalletDb.SimpleEncrypt seed password)) 0 [Wallet.default_account] ∅.
Definition kept_db (seed password : bytes) : WalletDb.Impl :=
  WalletDb.mkImpl true (Some (WalletDb.dump (kept_root seed password))) (WalletDb.SimpleEncrypt seed password) 0 [Wallet.default_account] ∅ ∅ true.
Definition kept (params : Params.ChainParams) (seed password : bytes) : Wallet.Wallet :=
  Wallet.mkWallet seed (kept_db seed password) (Wallet.mkBalance 0 0) params [] 0 (str "normal") [].

Lemma construct_kept p env seed : can_write p env = true -> disk env !! wallet_path p = None -> entropy env = Some seed ->
  construct p env = kept (params p) seed (wallet_pass p).
Proof. intros Hw Hn He. unfold construct. rewrite Hw, Hn, He. reflexivity. Qed.

Lemma restore_kept words params seed password seed' : Mnemonic.SeedFromMnemonic words = Some seed ->
  Wallet.RestoreFromBackup (Wallet.mkWalletBackup words []) (kept params seed' password) = (true, kept params seed []).
Proof. intros Hs. unfold Wallet.RestoreFromBackup. cbn [Wallet.backup_mnemonic Wallet.backup_metadata]. by rewrite Hs. Qed.

Lemma open_kept params seed password entropy : WalletDb.representable (kept_root seed password) -> zlen seed = 32 ->
  Wallet.Open true (WalletDb.file (kept_db seed password)) password params entropy = Some (kept params seed password).
Proof.
  intros Hr Hs. assert (WalletDb.WalletDb_open true (WalletDb.file (kept_db seed password)) = kept_db seed password) as Eo.
  { apply (WalletDb.reopen_synced (kept_db seed password)); [done|done|]. cbn. intros E. apply (f_equal length) in E. rewrite WalletDb.SimpleEncrypt_length in E.
    unfold zlen in Hs. cbn in E. lia. }
  assert (WalletDb.LoadSeed password (kept_db seed password) = Some seed) as El.
  { unfold WalletDb.LoadSeed. cbn [kept_db WalletDb.has_seed negb WalletDb.encrypted_seed]. f_equal. by apply (WalletDb.decrypt_spec seed password password). }
  assert (Wallet.new_Wallet true (WalletDb.file (kept_db seed password)) password params entropy = kept params seed password) as En.
  { unfold Wallet.new_Wallet. rewrite Eo, El, Hs. reflexivity. }
  unfold Wallet.Open. rewrite En. cbn [kept Wallet.db_]. rewrite El, Hs. reflexivity.
Qed.

(** The first new address of a new wallet comes from its seed alone. *)
Lemma kept_address params seed password password' :
  Wallet.info_address (Wallet.GetNewAddress 0 (kept params seed password)).1 = Wallet.info_address (Wallet.GetNewAddress 0 (kept params seed password')).1.
Proof.
  assert (forall w, WalletDb.GetAccount 0 (Wallet.db_ w) = Some Wallet.default_account ->
    (Wallet.GetNewAddress 0 w).1 = Wallet.address_info 0 (wrapu 32 (WalletDb.highest_derived Wallet.default_account + 1)) w) as E.
  { intros w Hw. unfold Wallet.GetNewAddress. by rewrite Hw. }
  rewrite (E (kept params seed password) eq_refl), (E (kept params seed password') eq_refl). apply (f_equal Wallet.info_address).
  apply Wallet.address_info_seed; [exact eq_refl|exact eq_refl|exact (ex_intro _ Wallet.default_account eq_refl)..].
Qed.

Lemma new_address_shown p env w : command p = "getnewaddress"%string ->
  exists d, execute p env w = Some (mkShown 0 (Wallet.info_address (Wallet.GetNewAddress 0 w).1 ++ newline) [], d).
Proof.
  intros Hc. unfold execute, is_online_command, shown. rewrite Hc. change (String.eqb "getnewaddress" "getnewaddress") with true. cbv iota.
  destruct (Wallet.GetNewAddress 0 w) as [a w']. eexists. destruct (Cookie_Read _ _); reflexivity.
Qed.
End files.

(** ** The theorems *)

(** C40: the phrase that [create] prints is the wallet.  A wallet is created with a password;
    the printed phrase is given to [restore], for another file; then [getnewaddress] on the
    restored file, which is kept under the empty password whatever was asked for, prints the
    address that it prints on the first file under its own.  This holds for every seed but
    those with a word the list does not have. *)
Theorem phrase_restores_wallet `{Sha256Impl} `{WalletDb.Json} `{CoinSelection.StdSort} `{Signature.SignatureBackends} `{Signing.SigningBackends} `{JT : JsonText}
    (net : Params.ChainParams) (path1 path2 password asked seed : bytes) (port : Z) (cookie : bytes) (env env' : Environment)
    (Hpaths : path1 <> [] /\ path2 <> [] /\ path1 <> path2) (Hwrite : forall path, writable env path = true) (Hwrite' : writable env' = writable env)
    (Hnone : disk env !! path1 = None /\ disk env !! path2 = None)
    (Hseed : entropy env = Some seed) (Hlen : zlen seed = 32) (Hother : is_Some (entropy env'))
    (Hwords : Forall (fun i => Mnemonic.word_index (Mnemonic.seed_bits seed) i <> 2047) Mnemonic.WORDS)
    (Hjson : forall password, WalletDb.representable (kept_root seed password)) :
  let phrase := JoinWords (Mnemonic.GenerateMnemonic seed) in
  let at_path path pass := mkPlan net "getnewaddress" [] path pass port cookie in
  exists disk1 disk2,
    run_plan (mkPlan net "create" [] path1 password port cookie) env =
      Some (mkShown 0 (str "Wallet created at " ++ path1 ++ newline ++ str "Mnemonic (backup this):" ++ newline ++ str phrase ++ newline) [], disk1) /\
    (disk env' = disk1 -> run_plan (mkPlan net "restore" [phrase] path2 asked port cookie) env' =
      Some (mkShown 0 (str "Wallet restored at " ++ path2 ++ newline) [], disk2)) /\
    forall last, disk last = disk2 -> writable last = writable env ->
      exists address disk3 disk4,
        run_plan (at_path path1 password) last = Some (mkShown 0 (address ++ newline) [], disk3) /\
        run_plan (at_path path2 []) last = Some (mkShown 0 (address ++ newline) [], disk4).
Proof.
  intros phrase at_path. destruct Hpaths as (Hp1 & Hp2 & Hp12), Hnone as (Hn1 & Hn2), Hother as [seed' Hother].
  set (disk1 := <[path1 := WalletDb.dump (kept_root seed password)]> (disk env)).
  set (disk2 := <[path2 := WalletDb.dump (kept_root seed [])]> disk1).
  assert (forall c args path pass e, path <> [] -> writable e = writable env -> can_write (mkPlan net c args path pass port cookie) e = true) as Hcan.
  { intros c args path pass e Hp He. unfold can_write. cbn [wallet_path]. rewrite bool_decide_false, He, Hwrite by done. done. }
  exists disk1, disk2. split; [|split].
  - unfold run_plan. change (String.eqb (command _) "create") with true. cbv iota. unfold create.
    rewrite (construct_kept _ env seed) by (done || by apply Hcan). reflexivity.
  - intros Hd. unfold run_plan. change (String.eqb (command _) "create") with false. change (String.eqb (command _) "restore") with true. cbv iota.
    unfold restore. cbn [arguments Wallet.backup_mnemonic]. unfold phrase. rewrite SplitWords_JoinWords by apply phrase_plain.
    rewrite (proj2 (Mnemonic.mnemonic_iff seed Hlen) Hwords).
    rewrite (construct_kept _ env' seed'); [|by apply Hcan| |done].
    2: { cbn [wallet_path]. rewrite Hd. unfold disk1. by rewrite lookup_insert_ne. }
    rewrite (restore_kept _ _ seed) by (by apply Mnemonic.mnemonic_iff). unfold shown, saved. cbn [kept Wallet.db_ kept_db WalletDb.file wallet_path]. by rewrite Hd.
  - intros last Hd Hw. exists (Wallet.info_address (Wallet.GetNewAddress 0 (kept net seed password)).1).
    assert (forall path pass, path <> [] -> disk2 !! path = WalletDb.file (kept_db seed pass) -> exists d,
      run_plan (at_path path pass) last = Some (mkShown 0 (Wallet.info_address (Wallet.GetNewAddress 0 (kept net seed pass)).1 ++ newline) [], d)) as G.
    { intros path pass Hp E. unfold run_plan, at_path. change (String.eqb (command _) "create") with false. change (String.eqb (command _) "restore") with false. cbv iota.
      rewrite Hcan by done. cbn [wallet_path wallet_pass params]. rewrite Hd, E, open_kept by done.
      apply new_address_shown. reflexivity. }
    destruct (G path1 password Hp1) as [d3 E3]; [unfold disk2, disk1; rewrite lookup_insert_ne, lookup_insert_eq by done; done|].
    destruct (G path2 [] Hp2) as [d4 E4]; [unfold disk2; by rewrite lookup_insert_eq|].
    exists d3, d4. split; [exact E3|]. rewrite <- (kept_address net seed [] password). exact E4.
Qed.

(** Offline the program knows no coins.  Whatever is in the wallet's file and whatever the
    random source gives, without a node's cookie a payment is never made, the balance that is
    printed is zero; and with or without one no transaction is listed. *)
Theorem offline_wallet_blind `{Sha256Impl} `{WalletDb.Json} `{CoinSelection.StdSort} `{Signature.SignatureBackends} `{Signing.SigningBackends} `{JT : JsonText}
    (p : Plan) (env : Environment) (seen : Shown) (files : Disk) (Hrun : run_plan p env = Some (seen, files)) (Hok : exit_status seen = 0) :
  (command p = "listtransactions" -> printed seen = str "(no transactions)" ++ newline) /\
  forall e, Cookie_Read (disk env !! cookie_path p) (bad env (cookie_path p)) = inl e ->
    command p <> "send" /\
    (command p = "getbalance" -> printed seen =
       str "Confirmed: 0.0000000000 AMR (0 facets)" ++ newline ++ str "Pending:   0.0000000000 AMR (0 facets)" ++ newline ++
       str "Total:     0.0000000000 AMR (0 facets)" ++ newline).
Proof.
  revert Hrun. unfold run_plan. destruct (String.eqb_spec (command p) "create") as [Ec|_]; [split; [congruence|intros e _; split; congruence]|].
  destruct (String.eqb_spec (command p) "restore") as [Er|_]; [split; [congruence|intros e _; split; congruence]|].
  destruct (Wallet.Open _ _ _ _ _) as [w|] eqn:Eo; [|unfold shown; intros [= <- _]; done].
  apply opened_blank in Eo as (Hu & Hb & Ht). unfold execute.
  destruct (String.eqb_spec (command p) "getnewaddress"); [split; [congruence|intros e _; split; congruence]|].
  destruct (String.eqb_spec (command p) "listaddresses"); [split; [congruence|intros e _; split; congruence]|].
  destruct (String.eqb_spec (command p) "getbalance") as [Eg|Eg].
  { intros Hrun. split; [congruence|]. intros e Ee. split; [congruence|]. intros _. rewrite Ee in Hrun. unfold getbalance, Wallet.GetBalance in Hrun. rewrite Hb in Hrun.
    injection Hrun as <- _. cbn [printed Wallet.confirmed Wallet.pending Wallet.Total]. by vm_compute. }
  destruct (String.eqb_spec (command p) "send") as [Es|Es].
  { intros Hrun. split; [congruence|]. intros e Ee. exfalso. rewrite Ee in Hrun. revert Hrun Hok. unfold send, shown.
    destruct (arguments p) as [|a [|t l]]; [by intros [= <- _]|by intros [= <- _]|]. destruct (ParseAmount t) as [amount|]; [|by intros [= <- _]].
    rewrite blank_sends_nothing by done. by intros [= <- _]. }
  destruct (String.eqb_spec (command p) "listtransactions") as [El|El].
  - intros Hrun. split; [|intros; split; congruence]. intros _. unfold Wallet.ListTransactions, WalletDb.ListTxs in Hrun. rewrite Ht, map_to_list_empty in Hrun.
    by injection Hrun as <- _.
  - intros _. split; [congruence|]. intros; split; congruence.
Qed.

(** *** Witnesses *)

Section witnesses.
#[local] Existing Instance toy_Sha256Impl.
#[local] Existing Instance Validation.picky_backends.
#[local] Existing Instance CoinSelection.merge_StdSort.
#[local] Existing Instance Signing.toy_signing.
#[local] Existing Instance two_values.

(** Files that hold the seed's text, enough for new wallets. *)
Definition kept_Json : WalletDb.Json.
Proof.
  refine {| WalletDb.dump r := WalletDb.root_seed r; WalletDb.parse s := Some (WalletDb.mkRoot 1 s 0 [Wallet.default_account] ∅);
            WalletDb.representable r := r = WalletDb.mkRoot 1 (WalletDb.root_seed r) 0 [Wallet.default_account] ∅ |}.
  intros r Hr. by rewrite <- Hr.
Defined.
#[local] Existing Instance kept_Json.

Definition sample_environment (seed : bytes) (files : gmap bytes bytes) : Environment :=
  mkEnvironment None files (fun _ => true) (fun _ => false) (Some seed) (fun _ _ => Cli.ConnectTimedOut) [].

Lemma phrase_restores_wallet_witness : exists disk1 disk2,
  run_plan (mkPlan Params.TESTNET_PARAMS "create" [] (str "a") (str "secret") 1 []) (sample_environment Mnemonic.sample_seed ∅) =
    Some (mkShown 0 (str "Wallet created at a" ++ newline ++ str "Mnemonic (backup this):" ++ newline ++ str (JoinWords (Mnemonic.GenerateMnemonic Mnemonic.sample_seed)) ++ newline) [], disk1) /\
  exists address disk3 disk4,
    run_plan (mkPlan Params.TESTNET_PARAMS "getnewaddress" [] (str "a") (str "secret") 1 []) (sample_environment [] disk2) = Some (mkShown 0 (address ++ newline) [], disk3) /\
    run_plan (mkPlan Params.TESTNET_PARAMS "getnewaddress" [] (str "b") [] 1 []) (sample_environment [] disk2) = Some (mkShown 0 (address ++ newline) [], disk4).
Proof.
  set (e' := sample_environment Mnemonic.ones_seed ∅).
  destruct (phrase_restores_wallet Params.TESTNET_PARAMS (str "a") (str "b") (str "secret") (str "other") Mnemonic.sample_seed 1 []
    (sample_environment Mnemonic.sample_seed ∅) e') as (d1 & d2 & E1 & _ & G).
  - repeat split; discriminate.
  - reflexivity.
  - reflexivity.
  - split; reflexivity.
  - reflexivity.
  - reflexivity.
  - by eexists.
  - apply Mnemonic.recoverable_spec. vm_compute. reflexivity.
  - reflexivity.
  - exists d1, d2. split; [exact E1|]. apply (G (sample_environment [] d2)); reflexivity.
Defined.

Lemma offline_wallet_blind_witness : exists files,
  run_plan (mkPlan Params.TESTNET_PARAMS "listtransactions" [] (str "a") [] 1 []) (sample_environment Mnemonic.sample_seed ∅) =
    Some (mkShown 0 (str "(no transactions)" ++ newline) [], files).
Proof.
  assert (match run_plan (mkPlan Params.TESTNET_PARAMS "listtransactions" [] (str "a") [] 1 []) (sample_environment Mnemonic.sample_seed ∅) with
    Some (s, _) => (exit_status s =? 0) && bool_decide (complained s = []) | None => false end = true) as B by (vm_compute; reflexivity).
  destruct (run_plan (mkPlan Params.TESTNET_PARAMS "listtransactions" [] (str "a") [] 1 []) (sample_environment Mnemonic.sample_seed ∅)) as [[seen files]|] eqn:E; [|discriminate].
  apply andb_true_iff in B as [Hs%Z.eqb_eq Hc%bool_decide_eq_true].
  exists files. pose proof (offline_wallet_blind _ _ seen files E Hs) as [L _]. specialize (L eq_refl). destruct seen as [s o c]. cbn in *. congruence.
Defined.
End witnesses.

End WalletTool.
