(* ===== verification/Logging.v ===== *)
(** * Logging (util/logging.cpp)

    Levels and categories, the names an operator writes for them, what is let through, and
    the line that is written where.  The sinks and the clock are arguments. *)

From Stdlib Require Import String Ascii.
From S2P Require Import Prelude Overflow Text.
From stdpp Require Import strings list.
#[local] Open Scope Z_scope.

Module Logging.

Abbreviation string := String.string.
#[local] Open Scope string_scope.
#[local] Open Scope Z_scope.

Inductive Level := Error | Warn | Info | Debug | Trace.

#[global] Instance Level_eq_dec : EqDecision Level.
Proof. solve_decision. Defined.

Definition level_value (l : Level) : Z :=
  match l with Error => 0 | Warn => 1 | Info => 2 | Debug => 3 | Trace => 4 end.

Inductive Category := CNone | General | Validation | Net | Mempool | Mining | Wallet | Db | Rpc | Bench | Reorg | All.

#[global] Instance Category_eq_dec : EqDecision Category.
Proof. solve_decision. Defined.

Definition ToBits (c : Category) : Z :=
  match c with
  | CNone => 0
  | General => Z.shiftl 1 0
  | Validation => Z.shiftl 1 1
  | Net => Z.shiftl 1 2
  | Mempool => Z.shiftl 1 3
  | Mining => Z.shiftl 1 4
  | Wallet => Z.shiftl 1 5
  | Db => Z.shiftl 1 6
  | Rpc => Z.shiftl 1 7
  | Bench => Z.shiftl 1 8
  | Reorg => Z.shiftl 1 9
  | All => 0xFFFFFFFF
  end.

Definition CATEGORY_TABLE : list (string * Category) :=
  [("general", General); ("validation", Validation); ("net", Net); ("mempool", Mempool); ("mining", Mining);
   ("wallet", Wallet); ("db", Db); ("rpc", Rpc); ("bench", Bench); ("reorg", Reorg)].

(** The globals of the file; the sink is the path of the file that is open. *)
Record Log := mkLog {
  g_level : Level;
  g_categories : Z;
  g_deterministic : bool;
  file_sink : option string
}.

Definition initial_log : Log := mkLog Info (ToBits General) false None.

Definition SetLevel (level : Level) (g : Log) : Log := mkLog level (g_categories g) (g_deterministic g) (file_sink g).

Definition EnableCategories (mask : Z) (g : Log) : Log :=
  mkLog (g_level g) (Z.lor (g_categories g) mask) (g_deterministic g) (file_sink g).

(** The complement of an unsigned 32-bit mask. *)
Definition complement32 (mask : Z) : Z := Z.lxor mask 0xFFFFFFFF.

Definition DisableCategories (mask : Z) (g : Log) : Log :=
  mkLog (g_level g) (Z.land (g_categories g) (complement32 mask)) (g_deterministic g) (file_sink g).

Definition SetDeterministicOutput (on : bool) (g : Log) : Log := mkLog (g_level g) (g_categories g) on (file_sink g).

Definition CloseFileSink (g : Log) : Log := mkLog (g_level g) (g_categories g) (g_deterministic g) None.

(** [opens]: whether the path can be opened for appending. *)
Definition AddFileSink (path : string) (opens : bool) (g : Log) : bool * Log :=
  let g := CloseFileSink g in
  if opens then (true, mkLog (g_level g) (g_categories g) (g_deterministic g) (Some path)) else (false, g).

Definition WillLog (g : Log) (level : Level) (category : Category) : bool :=
  if level_value level >? level_value (g_level g) then false
  else if bool_decide (level = Error) || bool_decide (level = Warn) then true
  else negb (Z.land (g_categories g) (ToBits category) =? 0).

Definition LevelName (l : Level) : string :=
  match l with Error => "error" | Warn => "warn" | Info => "info" | Debug => "debug" | Trace => "trace" end.

Definition CategoryName (c : Category) : string :=
  match List.find (fun entry => bool_decide (snd entry = c)) CATEGORY_TABLE with
  | Some entry => fst entry
  | None => "general"
  end.

Definition LEVEL_TABLE : list (string * Level) :=
  [("error", Error); ("warn", Warn); ("info", Info); ("debug", Debug); ("trace", Trace)].

Definition ParseLevel (name : string) : option Level :=
  match List.find (fun entry => String.eqb (fst entry) name) LEVEL_TABLE with
  | Some entry => Some (snd entry)
  | None => None
  end.

Definition CategoryNames : string :=
  fold_left (fun out entry => (if String.eqb out "" then out else out +:+ ",") +:+ fst entry) CATEGORY_TABLE "".

Definition Timestamp (clock : string) (g : Log) : string := if g_deterministic g then "" else clock.

Definition NEWLINE : string := String "010" "".

(** What is written where. *)
Inductive Written := ToStderr (line : string) | ToFile (path line : string).

Definition Emit (clock : string) (g : Log) (level : Level) (category : Category) (message : string) : list Written :=
  let line := Timestamp clock g +:+ "[" +:+ LevelName level +:+ "] [" +:+ CategoryName category +:+ "] " +:+ message +:+ NEWLINE in
  ToStderr line :: match file_sink g with Some path => [ToFile path line] | None => [] end.

(** The macro every message goes through. *)
Definition AMARIAN_LOG (clock : string) (g : Log) (level : Level) (category : Category) (message : string) : list Written :=
  if WillLog g level category then Emit clock g level category message else [].

(** ** Names of categories *)

Definition not_comma (c : ascii) : bool := negb (Ascii.eqb c ",").

Definition named (token : string) : option Category :=
  match List.find (fun entry => String.eqb (fst entry) token) CATEGORY_TABLE with
  | Some entry => Some (snd entry)
  | None => None
  end.

(** One token: the mask after it, or [None] where it is not known. *)
Definition category_token (mask : Z) (token : string) : option Z :=
  if String.eqb token "" then Some mask
  else if String.eqb token "all" || String.eqb token "1" then Some (Z.lor mask (ToBits All))
  else if String.eqb token "none" || String.eqb token "0" then Some 0
  else match named token with
  | Some c => Some (Z.lor mask (ToBits c))
  | None => None
  end.

(** The list from [pos] on; the result is the mask and the token that is not known. *)
Fixpoint categories_loop (fuel : nat) (csv : string) (mask : Z) : Z * option string :=
  match fuel with
  | O => (mask, None)
  | S fuel =>
      let '(token, rest) := Text.span not_comma csv in
      match category_token mask token with
      | None => (0, Some token)
      | Some mask =>
          match rest with
          | EmptyString => (mask, None)
          | String _ rest => categories_loop fuel rest mask
          end
      end
  end.

(** The out-parameter [unknown] keeps its value where every token is known. *)
Definition ParseCategories (csv : string) (unknown : string) : Z * string :=
  let '(mask, bad) := categories_loop (S (String.length csv)) csv 0 in (mask, default unknown bad).

(** ** Lists as texts *)

(** The texts between the commas. *)
Fixpoint fields (s : string) : list string :=
  match s with
  | EmptyString => [""]
  | String c s =>
      if not_comma c then match fields s with t :: ts => String c t :: ts | [] => [String c ""] end
      else "" :: fields s
  end.

Fixpoint join (l : list string) : string :=
  match l with
  | [] => ""
  | [t] => t
  | t :: ts => t +:+ "," +:+ join ts
  end.

Lemma fields_cons s : exists t ts, fields s = t :: ts.
Proof. destruct s as [|c s]; cbn; [by exists "", []|]. destruct (not_comma c); [destruct (fields s); eauto|eauto]. Qed.

Lemma fields_span s : fields s =
  match Text.span not_comma s with (t, EmptyString) => [t] | (t, String _ rest) => t :: fields rest end.
Proof.
  induction s as [|c s IH]; [done|]. cbn. destruct (not_comma c); [|done]. rewrite IH.
  destruct (Text.span not_comma s) as [t [|d rest]]; done.
Qed.

Lemma fields_plain s : Text.all not_comma s = true -> fields s = [s].
Proof. induction s as [|c s IH]; cbn; [done|]. intros [Hc Hs]%andb_true_iff. by rewrite Hc, (IH Hs). Qed.

Lemma fields_app t s : Text.all not_comma t = true -> fields (t +:+ "," +:+ s) = t :: fields s.
Proof.
  intros Ht. rewrite fields_span. change ("," +:+ s) with (String "," s). by rewrite (Text.span_stop not_comma t "," s Ht eq_refl).
Qed.

Lemma fields_join l : l <> [] -> Forall (fun t => Text.all not_comma t = true) l -> fields (join l) = l.
Proof.
  induction l as [|t l IH]; [done|]. intros _ [Ht Hl]%Forall_cons. destruct l as [|u l]; [by apply fields_plain|].
  change (join (t :: u :: l)) with (t +:+ "," +:+ join (u :: l)). rewrite fields_app by done. by rewrite IH.
Qed.

Lemma join_fields s : join (fields s) = s.
Proof.
  induction s as [|c s IH]; [done|]. cbn [fields]. destruct (fields_cons s) as (t & ts & E). rewrite E in *. unfold not_comma.
  destruct (Ascii.eqb_spec c ",") as [->|Hc]; cbn [negb].
  - change (join ("" :: t :: ts)) with ("" +:+ "," +:+ join (t :: ts)). by rewrite IH.
  - destruct ts as [|u ts]; cbn in *; [by rewrite IH|]. rewrite <- IH. by rewrite Text.append_cons.
Qed.

Lemma span_length p s : (String.length (Text.span p s).2 <= String.length s)%nat.
Proof. induction s as [|c s IH]; cbn; [lia|]. destruct (p c); [|done]. destruct (Text.span p s). cbn in *. lia. Qed.

(** The mask after a list of tokens. *)
Fixpoint tokens_mask (tokens : list string) (mask : Z) : Z * option string :=
  match tokens with
  | [] => (mask, None)
  | t :: tokens => match category_token mask t with None => (0, Some t) | Some mask => tokens_mask tokens mask end
  end.

Lemma categories_loop_spec fuel : forall csv mask, (String.length csv < fuel)%nat -> categories_loop fuel csv mask = tokens_mask (fields csv) mask.
Proof.
  induction fuel as [|fuel IH]; intros csv mask Hf; [lia|]. cbn [categories_loop]. rewrite fields_span.
  pose proof (span_length not_comma csv) as Hl. destruct (Text.span not_comma csv) as [t rest]. cbn [snd] in Hl.
  destruct rest as [|c rest]; cbn [tokens_mask]; destruct (category_token mask t); try done. apply IH. cbn in Hl. lia.
Qed.

(** A token adds a bit: it names the category, or everything. *)
Definition adds (token : string) (i : Z) : Prop :=
  (token = "all" \/ token = "1") /\ 0 <= i < 32 \/ exists c, named token = Some c /\ ToBits c = Z.shiftl 1 i /\ 0 <= i.

Definition clears (token : string) : Prop := token = "none" \/ token = "0".

Definition known (token : string) : Prop := token = "" \/ token = "all" \/ token = "1" \/ clears token \/ is_Some (named token).

Lemma known_iff mask token : known token <-> is_Some (category_token mask token).
Proof.
  unfold known, clears, category_token. destruct (String.eqb_spec token "") as [->|]; [by naive_solver|].
  destruct (String.eqb_spec token "all") as [->|]; cbn [orb]; [by naive_solver|]. destruct (String.eqb_spec token "1") as [->|]; [by naive_solver|].
  destruct (String.eqb_spec token "none") as [->|]; cbn [orb]; [by naive_solver|]. destruct (String.eqb_spec token "0") as [->|]; [by naive_solver|].
  destruct (named token); split; [eauto|intros _; eauto 6|intros [?|[?|[?|[[?|?]|[? ?]]]]]; done|by intros [? ?]].
Qed.

(** The bit of a category of the table. *)
Lemma named_bit token c : named token = Some c -> exists i, 0 <= i < 10 /\ ToBits c = Z.shiftl 1 i.
Proof.
  unfold named. destruct (List.find _ _) as [[n c']|] eqn:E; [|done]. intros [= <-]. apply List.find_some in E as [E _]. cbn in E.
  repeat destruct E as [[= _ <-]|E]; try done; eexists; (split; [|reflexivity]); lia.
Qed.

Lemma token_bit mask token mask' i : 0 <= i -> category_token mask token = Some mask' ->
  Z.testbit mask' i = true <-> adds token i \/ ~ clears token /\ Z.testbit mask i = true.
Proof.
  intros Hi. unfold category_token, adds, clears. destruct (String.eqb_spec token "") as [->|Ne].
  { intros [= <-]. split; [naive_solver|]. intros [[[[?|?] _]|(c & N & _)]|[_ ?]]; done. }
  destruct (String.eqb token "all" || String.eqb token "1") eqn:Ea.
  - assert (token = "all" \/ token = "1") as Ha by (apply orb_true_iff in Ea as [->%String.eqb_eq| ->%String.eqb_eq]; auto).
    intros [= <-]. rewrite Z.lor_spec. cbn [ToBits]. change 0xFFFFFFFF with (Z.ones 32).
    assert (Z.testbit (Z.ones 32) i = true <-> 0 <= i < 32) as Ho. { rewrite Z.testbit_ones by lia. rewrite andb_true_iff, Z.leb_le, Z.ltb_lt. done. }
    rewrite orb_true_iff, Ho. split; [|intros [[[_ ?]|(c & N & _)]|[_ ?]]; [auto|by destruct Ha as [->| ->]|auto]].
    intros [Hm|Hm]; [right; split; [by destruct Ha as [->| ->]; intros [?|?]|done]|by left; left].
  - apply orb_false_iff in Ea as [Na No]. apply String.eqb_neq in Na, No. destruct (String.eqb token "none" || String.eqb token "0") eqn:Ec.
    + assert (token = "none" \/ token = "0") as Hc by (apply orb_true_iff in Ec as [->%String.eqb_eq| ->%String.eqb_eq]; auto).
      intros [= <-]. rewrite Z.bits_0. split; [done|]. intros [[[[?|?] _]|(c & N & _)]|[? _]]; try done. by destruct Hc as [->| ->].
    + apply orb_false_iff in Ec as [Nn Nz]. apply String.eqb_neq in Nn, Nz. destruct (named token) as [c|] eqn:N; [|done]. intros [= <-].
      destruct (named_bit token c N) as (j & Hj & Bj). rewrite Z.lor_spec, orb_true_iff, Bj.
      assert (Z.testbit (Z.shiftl 1 j) i = true <-> i = j) as Hb.
      { rewrite Z.shiftl_1_l, Z.pow2_bits_eqb by lia. rewrite Z.eqb_eq. lia. }
      rewrite Hb. split; [intros [?| ->]; [right; by naive_solver|left; right; exists c; naive_solver lia]|].
      intros [[[[?|?] _]|(c' & N' & B' & _)]|[_ ?]]; try done; [|by left]. right. simplify_eq.
      rewrite Bj, !Z.shiftl_1_l in B'. symmetry. by apply (Z.pow_inj_r 2) in B'; [|lia..].
Qed.

(** A bit is asked for by a list: by a token that no later token clears. *)
Fixpoint asked (tokens : list string) (i : Z) : Prop :=
  match tokens with
  | [] => False
  | t :: tokens => adds t i /\ Forall (fun u => ~ clears u) tokens \/ asked tokens i
  end.

Lemma tokens_mask_bits tokens i : 0 <= i -> forall mask, Forall known tokens -> exists m, tokens_mask tokens mask = (m, None) /\
  (Z.testbit m i = true <-> asked tokens i \/ Forall (fun u => ~ clears u) tokens /\ Z.testbit mask i = true).
Proof.
  intros Hi. induction tokens as [|t tokens IH]; intros mask K; cbn [tokens_mask asked].
  { exists mask. split; [done|]. naive_solver. }
  apply Forall_cons in K as [[mask' E]%(known_iff mask) K]. rewrite E. destruct (IH mask' K) as (m & -> & B). exists m. split; [done|].
  rewrite B, (token_bit mask t mask' i Hi E), Forall_cons. tauto.
Qed.

(** The tokens that are known, up to the first that is not. *)
Lemma tokens_mask_unknown pre t post mask : Forall known pre -> ~ known t -> tokens_mask (pre ++ t :: post)%list mask = (0, Some t).
Proof.
  intros K N. revert mask. induction K as [|u pre U K IH]; intros mask; cbn [app tokens_mask].
  - destruct (category_token mask t) eqn:E; [|done]. by destruct N; apply (known_iff mask); eauto.
  - apply (known_iff mask) in U as [m ->]. apply IH.
Qed.

#[global] Instance clears_dec t : Decision (clears t).
Proof. unfold clears. apply _. Defined.

#[global] Instance known_dec t : Decision (known t).
Proof. unfold known. apply _. Defined.

(** What the parser of categories answers. *)
Lemma ParseCategories_spec csv unknown :
  (Forall known (fields csv) -> exists m, ParseCategories csv unknown = (m, unknown) /\
    forall i, 0 <= i -> Z.testbit m i = true <-> asked (fields csv) i) /\
  (~ Forall known (fields csv) -> exists t, t ∈ fields csv /\ ~ known t /\ ParseCategories csv unknown = (0, t)).
Proof.
  unfold ParseCategories. rewrite categories_loop_spec by lia. split.
  - intros K. destruct (tokens_mask (fields csv) 0) as [m bad] eqn:E.
    destruct (tokens_mask_bits (fields csv) 0 ltac:(lia) 0 K) as (m0 & E0 & _). rewrite E in E0. injection E0 as -> ->. exists m0. split; [done|].
    intros i Hi. destruct (tokens_mask_bits (fields csv) i Hi 0 K) as (m1 & E1 & B). rewrite E in E1. injection E1 as <-. rewrite B, Z.bits_0. naive_solver.
  - intros N. apply not_Forall_Exists in N; [|apply _].
    assert (exists pre t post, fields csv = (pre ++ t :: post)%list /\ Forall known pre /\ ~ known t) as (pre & t & post & -> & K & Nt).
    { induction N as [t l Nt|t l N IH]; [by exists [], t, l|]. destruct IH as (pre & u & post & -> & K & Nu). destruct (decide (known t)).
      - exists (t :: pre), u, post. split_and!; [done|by constructor|done].
      - by exists [], t, (pre ++ u :: post)%list. }
    exists t. rewrite (tokens_mask_unknown pre t post 0 K Nt). split_and!; [apply elem_of_app; right; left|done|done].
Qed.

Lemma ParseLevel_name l : ParseLevel (LevelName l) = Some l.
Proof. by destruct l. Qed.

Lemma ParseLevel_spec name l : ParseLevel name = Some l <-> name = LevelName l.
Proof.
  split; [|intros ->; apply ParseLevel_name]. unfold ParseLevel. destruct (List.find _ _) as [[n l']|] eqn:E; [|done].
  intros [= ->]. apply List.find_some in E as [E Hn]. apply String.eqb_eq in Hn as <-. cbn in E. repeat destruct E as [[= <- <-]|E]; done.
Qed.

(** Every name of the help text is a category of its own, and together they are ten bits. *)
Example category_names_parse : ParseCategories CategoryNames "" = (0x3FF, "") /\
  map (fun entry => named (fst entry)) CATEGORY_TABLE = map (fun entry => Some (snd entry)) CATEGORY_TABLE.
Proof. vm_compute. done. Qed.

(** What is let through, of a category with a bit of its own. *)
Lemma WillLog_spec g l c i : ToBits c = Z.shiftl 1 i -> 0 <= i ->
  WillLog g l c = true <-> level_value l <= level_value (g_level g) /\ (l = Error \/ l = Warn \/ Z.testbit (g_categories g) i = true).
Proof.
  intros B Hi. unfold WillLog. rewrite Z.gtb_ltb. destruct (Z.ltb_spec (level_value (g_level g)) (level_value l)) as [H|H]; [split; [done|lia]|].
  assert (Z.land (g_categories g) (ToBits c) =? 0 = negb (Z.testbit (g_categories g) i)) as ->.
  { rewrite B, Z.shiftl_1_l. destruct (Z.testbit (g_categories g) i) eqn:T; cbn [negb].
    - apply Z.eqb_neq. intros E. assert (Z.testbit (Z.land (g_categories g) (2 ^ i)) i = true) as C by (rewrite Z.land_spec, T, Z.pow2_bits_true by lia; done).
      by rewrite E, Z.bits_0 in C.
    - apply Z.eqb_eq. apply Z.bits_inj'. intros j Hj. rewrite Z.land_spec, Z.bits_0, Z.pow2_bits_eqb by lia.
      destruct (Z.eqb_spec i j) as [<-|]; [by rewrite T|apply andb_false_r]. }
  rewrite negb_involutive. destruct l; cbn; naive_solver.
Qed.

(** Disabling everything and enabling a mask leaves the mask. *)
Lemma disable_all mask g i : Z.testbit (g_categories (EnableCategories mask (DisableCategories (ToBits All) g))) i = Z.testbit mask i.
Proof.
  cbn [EnableCategories DisableCategories g_categories]. rewrite Z.lor_spec, Z.land_spec.
  replace (complement32 (ToBits All)) with 0 by reflexivity. by rewrite Z.bits_0, andb_false_r.
Qed.

End Logging.
