(* ===== verification/NodeMain.v ===== *)
(** * The node program (node/amariand.cpp)

    What the daemon does around its chain: the options and what they settle, the start from
    a database, the one-shot actions in their order, the service of the RPC port and the
    exit status.  The components themselves are those of the other files. *)

From Stdlib Require Import String Ascii.
From S2P Require Import Prelude Overflow Serialize Hex Text Crypto Primitives Target Params Merkle Validation Genesis BlockIndex Coins Connect BlockStore ChainState Mempool MempoolInv BlockAssembler Daemon ChainDb Restart HeaderLog Address CoinSelection Signing WalletDb Wallet JsonValue Http Rpc RpcServer Args Logging.
From stdpp Require Import gmap strings.
#[local] Open Scope Z_scope.

Module NodeMain.
Import Params JsonValue.

Abbreviation string := String.string.
#[local] Open Scope string_scope.
#[local] Open Scope Z_scope.

Definition EXIT_FAILURE : Z := 1.
Definition EXIT_USAGE : Z := 2.
Definition DEFAULT_GENERATE_ATTEMPTS : Z := Z.shiftl 1 26.

(** ** Options *)

Definition OPTIONS : list Args.ArgSpec :=
  [Args.mkArgSpec "help" Args.Flag "" "Show this help and exit." "h"%char;
   Args.mkArgSpec "version" Args.Flag "" "Print the version and exit." "v"%char;
   Args.mkArgSpec "build-info" Args.Flag "" "Print compiler, hardening and crypto library details, then exit." Args.NUL;
   Args.mkArgSpec "chain" Args.Str "<network>" "One of mainnet, testnet, regtest. Default: mainnet." Args.NUL;
   Args.mkArgSpec "datadir" Args.Str "<dir>" "Where the chain is kept. Default: $HOME/.amarian/<network>." Args.NUL;
   Args.mkArgSpec "generate" Args.Integer "<n>" "Mine n blocks onto the tip. Requires --payout." Args.NUL;
   Args.mkArgSpec "generate-attempts" Args.Integer "<n>" "Nonces to search per block before giving up. Default: 67108864." Args.NUL;
   Args.mkArgSpec "payout" Args.Str "<hex>" "Hex-encoded lock the mined reward pays to." Args.NUL;
   Args.mkArgSpec "rpc" Args.Flag "" "Serve JSON-RPC on loopback until interrupted." Args.NUL;
   Args.mkArgSpec "rpcport" Args.Integer "<port>" "Port for --rpc. Default: the network's (12501/12511/12521)." Args.NUL;
   Args.mkArgSpec "explorer-port" Args.Integer "<port>" "Serve the read-only explorer API on loopback at this port." Args.NUL;
   Args.mkArgSpec "export-blocks" Args.Str "<file>" "Write every block on the active chain to this file." Args.NUL;
   Args.mkArgSpec "import-blocks" Args.Str "<file>" "Validate and accept every block in this file." Args.NUL;
   Args.mkArgSpec "connect" Args.Str "<host:port>" "Connect to a P2P peer on startup. May be repeated." Args.NUL;
   Args.mkArgSpec "p2p-port" Args.Integer "<port>" "Override the P2P port the node advertises. Default: the network's." Args.NUL;
   Args.mkArgSpec "wallet" Args.Str "<path>" "Open or create a wallet at this path; enables wallet RPC." Args.NUL;
   Args.mkArgSpec "wallet-password" Args.Str "<password>" "Password for the wallet database. Default: empty." Args.NUL;
   Args.mkArgSpec "log-level" Args.Str "<level>" "One of error, warn, info, debug, trace. Default: info." Args.NUL;
   Args.mkArgSpec "log-categories" Args.Str "<list>" "Comma-separated categories, 'all', or 'none'. Default: general." Args.NUL;
   Args.mkArgSpec "log-file" Args.Str "<path>" "Also append log output to this file." Args.NUL;
   Args.mkArgSpec "log-deterministic" Args.Flag "" "Omit timestamps so logs from separate nodes can be diffed." Args.NUL].

Definition RegisterOptions (p : Args.ArgsParser) : Args.ArgsParser := fold_left (fun p spec => Args.Add spec p) OPTIONS p.

Definition new_parser : Args.ArgsParser := RegisterOptions (Args.new_ArgsParser "amariand" "[options]").

(** The end of a run, with what it printed; what is logged is left out. *)
Record Ended := mkEnded { status : Z; out : string; err : string }.

Definition usage (message : string) : Ended := mkEnded EXIT_USAGE "" ("amariand: " +:+ message +:+ Logging.NEWLINE).
Definition failed : Ended := mkEnded EXIT_FAILURE "" "".

(** The steps of [Run] after which it returns, or goes on with a value. *)
Definition Step (A : Type) : Type := Ended + A.
#[global] Instance Step_ret : MRet Step := fun A a => inr a.
#[global] Instance Step_bind : MBind Step := fun A B f m => match m with inl e => inl e | inr a => f a end.

Definition check (refused : bool) (message : string) : Step unit := if refused then inl (usage message) else inr ().

(** ** Logging *)

Definition set_level (parser : Args.ArgsParser) (g : Logging.Log) : Step Logging.Log :=
  if Args.Has parser "log-level" then
    let name := Args.GetString parser "log-level" "" in
    match Logging.ParseLevel name with
    | None => inl (usage ("unknown --log-level '" +:+ name +:+ "' (expected error, warn, info, debug or trace)"))
    | Some level => inr (Logging.SetLevel level g)
    end
  else inr g.

Definition set_categories (parser : Args.ArgsParser) (g : Logging.Log) : Step Logging.Log :=
  if Args.Has parser "log-categories" then
    let '(mask, unknown) := Logging.ParseCategories (Args.GetString parser "log-categories" "") "" in
    if negb (String.eqb unknown "") then
      inl (usage ("unknown log category '" +:+ unknown +:+ "' (known: " +:+ Logging.CategoryNames +:+ ", all, none)"))
    else inr (Logging.EnableCategories mask (Logging.DisableCategories (Logging.ToBits Logging.All) g))
  else inr g.

(** [opens]: the files that can be opened for appending. *)
Definition ConfigureLogging (opens : string -> bool) (parser : Args.ArgsParser) (g : Logging.Log) : Step Logging.Log :=
  g ← set_level parser g;
  g ← set_categories parser g;
  let g := if Args.Has parser "log-deterministic" then Logging.SetDeterministicOutput (Args.GetBool parser "log-deterministic" false) g else g in
  if Args.Has parser "log-file" then
    let path := Args.GetString parser "log-file" "" in
    let '(opened, g) := Logging.AddFileSink path (opens path) g in
    if negb opened then inl (usage ("cannot open log file '" +:+ path +:+ "'")) else inr g
  else inr g.

(** ** What the options settle *)

Definition SelectNetwork (parser : Args.ArgsParser) : Step Network :=
  if negb (Args.Has parser "chain") then inr Mainnet
  else
    let name := Args.GetString parser "chain" "" in
    match NetworkFromName name with
    | None => inl (usage ("unknown --chain '" +:+ name +:+ "' (expected mainnet, testnet or regtest)"))
    | Some network => inr network
    end.

Definition ResolveDataDir (home : option string) (parser : Args.ArgsParser) (params : ChainParams) : Step string :=
  if Args.Has parser "datadir" then inr (Args.GetString parser "datadir" "")
  else match home with
  | None | Some EmptyString => inl (usage "HOME is not set, so --datadir must be given")
  | Some home => inr (home +:+ "/.amarian/" +:+ net_name params)
  end.

Definition ParsePayout `{Sha256Impl} (hex : string) (params : ChainParams) : Step Lock :=
  lock ← match Hex.FromHex (str hex) with
         | None =>
             let hrp := str (if bool_decide (network params = Mainnet) then "amr" else "tamr") in
             match Address.AddressToLock (str hex) hrp with
             | None => inl (usage "--payout is neither a lock hex string nor a valid address")
             | Some decoded => inr decoded
             end
         | Some bytes =>
             match Parse (Lock_Deserialize (max_lock_program_size (limits_tx (block_limits params)))) bytes with
             | None => inl (usage "--payout is not a lock this network can decode")
             | Some lock => inr lock
             end
         end;
  if Lock_IsUnspendable lock then inl (usage "--payout is an unspendable lock, so the reward could never be spent by anyone")
  else inr lock.

(** [connect_val.find(',', start)] and the pieces between. *)
Fixpoint peers_loop (fuel : nat) (text : string) : list string :=
  match fuel with
  | O => []
  | S fuel =>
      match Text.span Logging.not_comma text with
      | (piece, EmptyString) => [piece]
      | (piece, String _ rest) => piece :: peers_loop fuel rest
      end
  end.

Definition parse_peers (connect_val : string) : list string :=
  match Text.span Logging.not_comma connect_val with
  | (_, EmptyString) => [connect_val]
  | _ => peers_loop (S (String.length connect_val)) connect_val
  end.

(** What is known once the options have been read. *)
Record Settings := mkSettings {
  network_ : Network;
  payout : option Lock;
  generate : Z;
  attempts : Z;
  rpc : bool;
  rpc_port : Z;
  explorer_port : option Z;
  p2p_port : Z;
  datadir : string;
  wallet_at : option (string * string);
  import_blocks : option string;
  export_blocks : option string;
  peers : list string
}.

Record Environment := mkEnvironment {
  home : option string;
  log_opens : string -> bool;
  version : string;
  version_long : string;
  build_info : string
}.

Section settings.
Context `{SH : Sha256Impl} `{SB : Signature.SignatureBackends}.

Definition CheckSignatureBackends : Step unit :=
  if Signature.FirstUnavailableScheme =? Signature.SCHEME_RESERVED then inr () else inl failed.

Definition ReportChainIdentity (params : ChainParams) : Step unit :=
  match Genesis.CheckGenesis params with Genesis.NoFault => inr () | _ => inl failed end.

Definition option_string (parser : Args.ArgsParser) (name : string) : option string :=
  if Args.Has parser name then Some (Args.GetString parser name "") else None.

Definition payout_of (parser : Args.ArgsParser) (params : ChainParams) : Step (option Lock) :=
  if Args.Has parser "payout" then lock ← ParsePayout (Args.GetString parser "payout" "") params; inr (Some lock) else inr None.

Definition port_of (parser : Args.ArgsParser) (name : string) : Step Z :=
  let asked := Args.GetInt parser name 0 in
  _ ← check ((asked <? 0) || (asked >? 65535)) ("--" +:+ name +:+ " must be between 0 and 65535");
  inr asked.

(** The options, from the check of the network's identity to the data directory. *)
Definition read_settings (parser : Args.ArgsParser) (home : option string) (network : Network) : Step Settings :=
  let params := ParamsFor network in
  payout ← payout_of parser params;
  let generate := Args.GetInt parser "generate" 0 in
  _ ← check (generate <? 0) "--generate cannot be negative";
  _ ← check ((generate >? 0) && bool_decide (payout = None)) "--generate needs --payout to say who is paid";
  let asked_attempts := Args.GetInt parser "generate-attempts" 0 in
  _ ← check (asked_attempts <? 0) "--generate-attempts cannot be negative";
  let attempts := if asked_attempts >? 0 then wrapu 64 asked_attempts else DEFAULT_GENERATE_ATTEMPTS in
  asked_rpc_port ← port_of parser "rpcport";
  _ ← check (negb (asked_rpc_port =? 0) && negb (Args.Has parser "rpc")) "--rpcport does nothing without --rpc";
  let rpc_port := if negb (asked_rpc_port =? 0) then wrapu 16 asked_rpc_port else default_rpc_port params in
  asked_explorer_port ← port_of parser "explorer-port";
  _ ← check (Args.Has parser "explorer-port" && negb (Args.Has parser "rpc")) "--explorer-port requires --rpc";
  let explorer_port := wrapu 16 asked_explorer_port in
  asked_p2p_port ← port_of parser "p2p-port";
  let p2p_port := if negb (asked_p2p_port =? 0) then wrapu 16 asked_p2p_port else default_p2p_port params in
  datadir ← ResolveDataDir home parser params;
  inr (mkSettings network payout generate attempts (Args.Has parser "rpc") rpc_port
    (if Args.Has parser "explorer-port" then Some explorer_port else None) p2p_port datadir
    (if Args.Has parser "wallet" then Some (Args.GetString parser "wallet" "", Args.GetString parser "wallet-password" "") else None)
    (option_string parser "import-blocks") (option_string parser "export-blocks")
    (if Args.Has parser "connect" then parse_peers (Args.GetString parser "connect" "") else [])).

(** The head of [Run], before anything is opened; the log as it was set. *)
Definition plan (args : list string) (env : Environment) (g : Logging.Log) : Step (Settings * Logging.Log) :=
  match Args.Parse args new_parser with
  | (Args.Fail code detail, _) =>
      inl (mkEnded EXIT_USAGE "" ("amariand: " +:+ (if String.eqb detail "" then code else code +:+ ": " +:+ detail) +:+ Logging.NEWLINE +:+
        "Try 'amariand --help'." +:+ Logging.NEWLINE))
  | (Args.Done _, parser) =>
      if Args.Has parser "help" then inl (mkEnded 0 ("Amarian node daemon " +:+ version env +:+ Logging.NEWLINE +:+ Logging.NEWLINE +:+ Args.HelpText parser) "")
      else if Args.Has parser "version" then inl (mkEnded 0 (version_long env +:+ Logging.NEWLINE) "")
      else if Args.Has parser "build-info" then inl (mkEnded 0 ("Amarian build information" +:+ Logging.NEWLINE +:+ build_info env) "")
      else match Args.positional_ parser with
      | word :: _ => inl (usage ("unexpected argument '" +:+ word +:+ "'"))
      | [] =>
          g ← ConfigureLogging (log_opens env) parser g;
          network ← SelectNetwork parser;
          _ ← CheckSignatureBackends;
          _ ← ReportChainIdentity (ParamsFor network);
          s ← read_settings parser (home env) network;
          inr (s, g)
      end
  end.
End settings.

(** ** The node *)

(** What a run finds on the machine. *)
Record Machine := mkMachine {
  (** A file to import, where it can be opened. *)
  read_file : string -> option bytes;
  (** Whether a file can be opened, written and closed. *)
  write_file : string -> bool;
  (** The wallet file at a path, where there is one, and whether it can be written. *)
  wallet_file : string -> option bytes;
  wallet_writable : string -> bool;
  entropy : option bytes;
  (** Whether the data directory can be made. *)
  directory : bool
}.

Section node.
Context `{HO : Mempool.HashOrder} `{SH : Sha256Impl} `{SB : Signature.SignatureBackends} {V D K : Type}.
Context `{CV : CoinsView V} `{BS : BlockStore.BlockStore D} `{CS : ChainState.ChainSink K V}.
Context `{WJ : WalletDb.Json} `{SS : CoinSelection.StdSort} `{SG : Signing.SigningBackends}.
Abbreviation State := (ChainState.ChainState V D K).
Abbreviation node := (Rpc.Node V D K).

(** The chain as it was left, the keeper that observes it, and the catching up. *)
Definition boot (params : ChainParams) (loaded : ChainDb.LoadedChain) (coins : Coins.CoinsCache V) (store : D) (sink : K)
    : option (bool * State * Daemon.PoolKeeper) :=
  let s := ChainState.PersistTo sink (ChainState.new_ChainState (ChainDb.loaded_index loaded) coins store) in
  let s := ChainState.ObserveWith s in
  tip ← BlockIndex.Find (ChainDb.loaded_index loaded) (ChainDb.loaded_tip loaded);
  s ← ChainState.ResumeAt tip s;
  Daemon.Advance params s Daemon.new_PoolKeeper.

(** [--wallet]: what is there is opened, otherwise a wallet is made. *)
Definition open_wallet (m : Machine) (st : Settings) : Step (option Wallet.Wallet) :=
  match wallet_at st with
  | None => inr None
  | Some (path, password) =>
      let params := ParamsFor (network_ st) in
      match wallet_file m path with
      | Some contents =>
          match Wallet.Open (wallet_writable m path) (Some contents) (str password) params (entropy m) with
          | None => inl failed
          | Some w => inr (Some w)
          end
      | None => inr (Some (Wallet.new_Wallet (wallet_writable m path) None (str password) params (entropy m)))
      end
  end.

Definition with_chain (s : State) (k : Daemon.PoolKeeper) (n : node) : node := Rpc.with_keeper k (Rpc.with_state s n).

Definition the_keeper (n : node) : Daemon.PoolKeeper := default Daemon.new_PoolKeeper (Rpc.keeper n).

Definition import_action (m : Machine) (st : Settings) (now : Z) (n : node) : option (bool * node) :=
  match import_blocks st with
  | None => Some (true, n)
  | Some path =>
      match read_file m path with
      | None => Some (false, n)
      | Some file =>
          '(ok, s, k) ← Daemon.ImportBlocks (Rpc.params n) file now (Rpc.state n) (the_keeper n);
          Some (ok, with_chain s k n)
      end
  end.

(** The clock is read once for each block to make. *)
Definition generate_action (st : Settings) (clock : nat -> Z) (n : node) : option (bool * node) :=
  if generate st >? 0 then
    payout ← payout st;
    '(ok, s, k) ← Daemon.GenerateBlocks (Rpc.params n) payout (attempts st) (map clock (seq 0 (Z.to_nat (generate st)))) (Rpc.state n) (the_keeper n);
    Some (ok, with_chain s k n)
  else Some (true, n).

Definition export_action (m : Machine) (st : Settings) (n : node) : bool :=
  match export_blocks st with
  | None => true
  | Some path => write_file m path && (Daemon.ExportBlocks (Rpc.params n) (Rpc.state n)).1
  end.

(** The one-shot actions, up to the last rescan. *)
Definition act (m : Machine) (st : Settings) (now : Z) (clock : nat -> Z) (n : node) : option (bool * node) :=
  '(ok, n) ← import_action m st now n;
  if negb ok then Some (false, n) else
  '(ok, n) ← generate_action st clock n;
  if negb ok then Some (false, n)
  else if negb (export_action m st n) then Some (false, n)
  else Some (true, Rpc.rescan_on_change n).

(** ** The RPC service *)

Context `{JT : JsonText}.

(** What happens at the port, each event with the clock of the time. *)
Fixpoint serve_events (events : list (Z * RpcServer.ServerEvent)) (server : RpcServer.Server) (n : node) : option (RpcServer.Server * node * list Rpc.Relay) :=
  match events with
  | [] => Some (server, n, [])
  | (now, e) :: events =>
      '(server, n, o) ← RpcServer.server_step (Rpc.daemon_callbacks now true) e server n;
      '(server, n, o') ← serve_events events server n;
      Some (server, n, (o ++ o')%list)
  end.

(** The cookie is made, the port bound and served; on every way out the cookie goes. *)
Definition ServeRpc (st : Settings) (token : bytes) (faults : Http.FsFaults) (v4 v6 : Z -> bytes + Z) (events : list (Z * RpcServer.ServerEvent))
    (path : bytes) (disk : Http.Disk) (n : node) : option (bool * node * list Http.Disk) :=
  match Http.Generate token path faults disk with
  | (inl _, states) => Some (false, n, states)
  | (inr credential, states) =>
      let written := Http.final disk states in
      let removed := Http.remove path (Http.remove_fails faults) written in
      let config := RpcServer.mkConfig (rpc_port st) (Http.Authorization credential) 10 16 in
      match RpcServer.Bind true config v4 v6 with
      | inl _ => Some (false, n, (states ++ [removed])%list)
      | inr server =>
          '(_, n, _) ← serve_events events server n;
          Some (true, n, (states ++ [removed])%list)
      end
  end.
End node.

(** ** The run *)

Section run.
Context `{HO : Mempool.HashOrder} `{SH : Sha256Impl} `{SB : Signature.SignatureBackends} {R D : Type}.
Context `{RD : ChainDb.RocksDB R} `{BS : BlockStore.BlockStore D}.
Context `{WJ : WalletDb.Json} `{SS : CoinSelection.StdSort} `{SG : Signing.SigningBackends}.
Abbreviation Db := (ChainDb.ChainDb R).
Abbreviation node := (Rpc.Node Db D Db).

(** Flushing, and the faults of the run; [store_fault] are those of the block bodies. *)
Definition finish (store_fault : bool) (d : Db) : Z * Db :=
  let '(synced, d) := ChainDb.Db_Sync d in
  (if negb synced then EXIT_FAILURE else if ChainDb.Db_HasFault d || store_fault then EXIT_FAILURE else 0, d).

(** A run from the database on: the status and, where it came that far, the node and the
    database it leaves.  [service] is what serving makes of the node. *)
Definition run_node (m : Machine) (st : Settings) (opened : option R) (store : D) (store_fault : D -> bool) (started now : Z) (clock : nat -> Z)
    (service : node -> option (bool * node)) : option (Z * option (node * Db)) :=
  let params := ParamsFor (network_ st) in
  if negb (directory m) then Some (EXIT_FAILURE, None) else
  match ChainDb.Open opened params with
  | (inl _, _) => Some (EXIT_FAILURE, None)
  | (inr d, _) =>
      '(loaded, d) ← ChainDb.LoadChain params started d;
      match loaded with
      | inl _ => Some (EXIT_FAILURE, None)
      | inr loaded =>
          '(ok, s, k) ← boot params loaded (Coins.Over d) store d;
          if negb ok then Some (EXIT_FAILURE, None) else
          match open_wallet m st with
          | inl _ => Some (EXIT_FAILURE, None)
          | inr w =>
              let n := Rpc.rescan_on_change (Rpc.mkNode s (Some k) params w (payout st)) in
              '(ok, n) ← act m st now clock n;
              if negb ok then Some (EXIT_FAILURE, None) else
              '(ok, n) ← (if rpc st then service n else Some (true, n));
              if negb ok then Some (EXIT_FAILURE, None) else
              d ← ChainState.sink_ (Rpc.state n);
              let '(status, d) := finish (store_fault (ChainState.store_ (Rpc.state n))) d in
              Some (status, Some (n, d))
          end
      end
  end.
End run.

(** ** What the options come to *)

Lemma peers_loop_fields fuel : forall text, (String.length text < fuel)%nat -> peers_loop fuel text = Logging.fields text.
Proof.
  induction fuel as [|fuel IH]; intros text Hf; [lia|]. cbn [peers_loop]. rewrite Logging.fields_span.
  pose proof (Logging.span_length Logging.not_comma text) as Hl. destruct (Text.span Logging.not_comma text) as [piece [|c rest]]; [done|].
  cbn [snd String.length] in Hl. rewrite IH by lia. done.
Qed.

Lemma span_whole p text piece : Text.span p text = (piece, "") -> piece = text.
Proof.
  revert piece. induction text as [|c text IH]; intros piece; cbn; [by intros [= <-]|]. destruct (p c); [|done].
  destruct (Text.span p text) as [a b]. intros [= <- ->]. f_equal. by apply IH.
Qed.

(** The peers are the pieces between the commas, so peers without commas come back as they
    were joined. *)
Lemma parse_peers_fields text : parse_peers text = Logging.fields text.
Proof.
  unfold parse_peers. rewrite peers_loop_fields by lia. destruct (Text.span Logging.not_comma text) as [piece [|c rest]] eqn:E; [|done].
  rewrite Logging.fields_span, E. by rewrite (span_whole _ _ _ E).
Qed.

Lemma bind_inr {A B} (x : Step A) (f : A -> Step B) b : (x ≫= f) = inr b -> exists a, x = inr a /\ f a = inr b.
Proof. destruct x as [|a]; [done|]. intros E. by exists a. Qed.

Lemma check_inr refused message u : check refused message = inr u -> refused = false.
Proof. unfold check. by destruct refused. Qed.

(** What a run may count on. *)
Record settings_ok (st : Settings) : Prop := {
  so_rpc_port : 0 <= rpc_port st < 2 ^ 16;
  so_p2p_port : 0 <= p2p_port st < 2 ^ 16;
  so_explorer p : explorer_port st = Some p -> 0 <= p < 2 ^ 16 /\ rpc st = true;
  so_generate : 0 <= generate st < 2 ^ 63;
  so_paid : 0 < generate st -> is_Some (payout st);
  so_attempts : 0 < attempts st < 2 ^ 63;
  so_payout lock : payout st = Some lock -> Lock_IsUnspendable lock = false;
  so_custom_port : rpc st = false -> rpc_port st = default_rpc_port (ParamsFor (network_ st)) }.

Section options.
Context `{SH : Sha256Impl} `{SB : Signature.SignatureBackends}.

Lemma GetInt_range parser name : - 2 ^ 63 <= Args.GetInt parser name 0 < 2 ^ 63.
Proof.
  unfold Args.GetInt. destruct (Args.Find parser name) as [p|]; [|lia]. unfold Args.whole_int. destruct (Args.from_chars (Args.value p)) as [[v rest]|] eqn:E; [|lia].
  destruct rest; [|lia]. unfold Args.from_chars in E. destruct (match Args.value p with String "-" s => (true, s) | _ => (false, Args.value p) end) as [neg s].
  destruct (Text.span _ s) as [digits rest]. destruct digits as [|c digits]; [done|]. revert E. cbv zeta. set (w := if neg then _ else _). intros E. destruct ((- 2 ^ 63 <=? w) && (w <? 2 ^ 63)) eqn:B; [|done].
  injection E as <- _. apply andb_true_iff in B as [B1%Z.leb_le B2%Z.ltb_lt]. done.
Qed.

Lemma port_of_inr parser name p : port_of parser name = inr p -> p = Args.GetInt parser name 0 /\ 0 <= p <= 65535.
Proof. unfold port_of. intros ([] & B%check_inr & [= <-])%bind_inr. rewrite Z.gtb_ltb in B. bprop. lia. Qed.

Lemma ParsePayout_spendable hex params lock : ParsePayout hex params = inr lock -> Lock_IsUnspendable lock = false.
Proof. unfold ParsePayout. intros (l & _ & E)%bind_inr. destruct (Lock_IsUnspendable l) eqn:U; [done|]. by injection E as <-. Qed.

Lemma read_settings_ok parser home network st : read_settings parser home network = inr st -> settings_ok st.
Proof.
  unfold read_settings. intros (pay & Ep & E)%bind_inr. apply bind_inr in E as ([] & Hg%check_inr & E). apply bind_inr in E as ([] & Hp%check_inr & E).
  apply bind_inr in E as ([] & Ha%check_inr & E). apply bind_inr in E as (rp & [-> Hr]%port_of_inr & E). apply bind_inr in E as ([] & Hrp%check_inr & E).
  apply bind_inr in E as (xp & [-> Hx]%port_of_inr & E). apply bind_inr in E as ([] & Hxp%check_inr & E). apply bind_inr in E as (pp & [-> Hpp]%port_of_inr & E).
  apply bind_inr in E as (dir & _ & E). injection E as <-. pose proof (GetInt_range parser "generate"). pose proof (GetInt_range parser "generate-attempts").
  rewrite Z.gtb_ltb in *. assert (0 <= default_rpc_port (ParamsFor network) < 2 ^ 16 /\ 0 <= default_p2p_port (ParamsFor network) < 2 ^ 16) as [D1 D2] by (by destruct network).
  split; cbn [rpc_port p2p_port explorer_port generate payout attempts rpc network_].
  - destruct (negb (Args.GetInt parser "rpcport" 0 =? 0)); [apply wrapu_range; lia|done].
  - destruct (negb (Args.GetInt parser "p2p-port" 0 =? 0)); [apply wrapu_range; lia|done].
  - intros p. destruct (Args.Has parser "explorer-port"); [|done]. intros [= <-]. split; [apply wrapu_range; lia|]. by destruct (Args.Has parser "rpc").
  - bprop. lia.
  - intros Hpos. destruct pay; [eauto|]. rewrite (proj2 (Z.ltb_lt _ _) Hpos) in Hp. discriminate Hp.
  - destruct (Z.ltb_spec 0 (Args.GetInt parser "generate-attempts" 0)); [rewrite wrapu_small by lia; lia|by vm_compute].
  - intros lock ->. unfold payout_of in Ep. destruct (Args.Has parser "payout"); [|done]. apply bind_inr in Ep as (l & El & [= ->]). by eapply ParsePayout_spendable.
  - intros Hrpc. rewrite Hrpc in Hrp. cbn in Hrp. destruct (Args.GetInt parser "rpcport" 0 =? 0); [done|]. discriminate Hrp.
Qed.

(** What is planned is within range, whatever was typed. *)
Lemma plan_ok args env g st g' : plan args env g = inr (st, g') -> settings_ok st.
Proof.
  unfold plan. destruct (Args.Parse args new_parser) as [[] parser]; [|done]. repeat (destruct (Args.Has parser _); [done|]). destruct (Args.positional_ parser); [|done].
  intros (g1 & _ & E)%bind_inr. apply bind_inr in E as (net & _ & E). apply bind_inr in E as ([] & _ & E). apply bind_inr in E as ([] & _ & E).
  apply bind_inr in E as (s & Es & [= -> _]). by eapply read_settings_ok.
Qed.
End options.

(** ** The log of headers through a run *)

Section logged.
Context `{HO : Mempool.HashOrder} `{SH : Sha256Impl} `{SB : Signature.SignatureBackends} {V D K : Type} (net : Network).
Context `{CV : CoinsView V} `{BS : BlockStore.BlockStore D} `{!BlockStore.LawfulStore D} `{CS : ChainState.ChainSink K V} `{HL : @HeaderLog.HeaderLog K V CS}.
Import BlockIndex ChainState Restart HeaderLog BlockAssembler.
Abbreviation params := (ParamsFor net).
Implicit Types (s : ChainState V D K) (k : Daemon.PoolKeeper).

(** The log is complete, and the index has room for [n] more. *)
Definition logged (n : Z) s : Prop := logging net None false s /\ Size (index_ s) + n < 2 ^ 64 - 1.

Lemma logged_inv n s : logged n s -> index_inv (index_ s).
Proof. intros [L _]. exact (hi_inv _ _ (lg_history _ _ _ _ L)). Qed.

(** The tip is not ruled out, and still is not after a step that went well. *)
Abbreviation standing s := (stands (index_ s) (chain_ s)).
Definition keeps (well : Prop) s s' : Prop := well -> standing s -> standing s'.

Lemma logged_block block now n s r s' : logged (n + 1) s -> 0 <= n -> BlockHeader_ok (blk_header block) -> i64 now ->
  AcceptBlock params block now s = Some (r, s') -> logged n s' /\ keeps (exists h, r = Found h) s s'.
Proof.
  intros [L Hs] Hn Ok Hw E. assert (u32 (hdr_target_bits (blk_header block))) as Hb by apply Ok.
  split; [|intros [h ->]; refine (AcceptBlock_stands net block now s h s' L Ok _ E); lia].
  split; [refine (AcceptBlock_logging net block now s r s' L Ok Hw _ E); lia|].
  pose proof (Daemon.AcceptBlock_Size params block now s r s' (logged_inv _ _ (conj L Hs)) Hb ltac:(lia) E). lia.
Qed.

Lemma logged_Advance n s k ok s' k' : logged n s -> Daemon.Advance params s k = Some (ok, s', k') -> logged n s' /\ (standing s -> standing s').
Proof.
  intros [L Hs] E. unfold Daemon.Advance in E. destruct (ActivateBestChain params s) as [[r s1]|] eqn:A; [|done]. cbn [mbind option_bind] in E.
  assert (s1 = s') as -> by (destruct r; [destruct (Daemon.Settle _ _ _); [|done]|]; by injection E).
  pose proof (ActivateBestChain_logging net s r s' L A) as L'. split; [|exact (ActivateBestChain_stands net s r s' L A)]. split; [done|].
  rewrite (Daemon.activate_Size params s r s' (hi_inv _ _ (lg_history _ _ _ _ L)) (hi_inv _ _ (lg_history _ _ _ _ L')) A). done.
Qed.

Lemma network_limits : BlockLimits_ok (block_limits params) /\ max_block_weight params < 2 ^ 32.
Proof. destruct net; (split; [vm_compute; intuition congruence|reflexivity]). Qed.

(** Importing. *)
Lemma logged_import_loop fuel now (Hw : i64 now) : forall file n r s r' s', logged (n + zlen file) s -> 0 <= n ->
  Daemon.import_loop params fuel file now r s = Some (r', s') ->
  logged n s' /\ Daemon.refused r <= Daemon.refused r' /\ keeps (Daemon.refused r' = Daemon.refused r) s s'.
Proof.
  assert (forall (file : bytes) n s r r', logged (n + zlen file) s -> Daemon.refused r' = Daemon.refused r ->
    logged n s /\ Daemon.refused r <= Daemon.refused r' /\ keeps (Daemon.refused r' = Daemon.refused r) s s) as Less.
  { intros file n s r r' [L Hs] Er. split; [split; [done|pose proof (zlen_nonneg file); lia]|]. split; [lia|]. by intros _. }
  induction fuel as [|fuel IH]; intros file n r s r' s' L Hn; cbn [Daemon.import_loop]; [intros [= <- <-]; by eapply Less|].
  destruct (Daemon.read_record params file) as [|block rest|] eqn:E; [intros [= <- <-]; by eapply Less| |intros [= <- <-]; by eapply Less].
  destruct network_limits as [Hl Hm]. apply Daemon.read_record_block in E as [(Hb & _) Hr]; [|done..]. destruct (AcceptBlock params block now s) as [[a s1]|] eqn:A; [|done]. cbn [mbind option_bind].
  pose proof (zlen_nonneg rest). apply (logged_block block now (n + zlen rest) s a s1) in A as [L1 K1]; [|destruct L as [L Hs]; split; [done|unfold zlen in *; lia]|lia|done|done].
  intros Ei. apply (IH rest n) in Ei as (L' & Hle & K'); [|done|done]. cbn [Daemon.refused] in Hle, K'. split; [done|].
  split; [destruct a; lia|]. intros Er St. destruct a as [h|]; [|lia]. apply K'; [lia|]. apply K1; eauto.
Qed.

Lemma logged_import file now n s k ok s' k' : i64 now -> logged (n + zlen file) s -> 0 <= n ->
  Daemon.ImportBlocks params file now s k = Some (ok, s', k') -> logged n s' /\ keeps (ok = true) s s'.
Proof.
  intros Hw L Hn E. unfold Daemon.ImportBlocks in E. destruct (Daemon.import_loop _ _ _ _ _ _) as [[r s1]|] eqn:I; [|done]. cbn [mbind option_bind] in E.
  apply (logged_import_loop _ now Hw _ n _ _ _ _ L Hn) in I as (L1 & _ & K1). cbn [Daemon.refused] in K1.
  assert (keeps (Daemon.import_ok r && (Daemon.refused r =? 0) = true) s s1) as K1'.
  { intros [_ Er%Z.eqb_eq]%andb_true_iff. by apply K1. }
  destruct (Daemon.offered r =? 0); [by injection E as <- <- _|].
  destruct (Daemon.Advance _ s1 k) as [[[ok1 s2] k2]|] eqn:A; [|done]. cbn [mbind option_bind] in E. apply (logged_Advance _ _ _ _ _ _ L1) in A as [L2 K2].
  destruct ok1; injection E as <- <- _; (split; [done|]); [|done]. intros W St. by apply K2, K1'.
Qed.

(** Mining: the header of a template, whatever nonce was found for it. *)
Lemma collected_timestamps count idx walk : history net idx -> Size idx < 2 ^ 64 -> (forall e, walk = Some e -> exists h, Find idx h = Some e) ->
  Forall i64 (collect_timestamps count idx walk).
Proof.
  intros Hi Hs. revert walk. induction count as [|count IH]; intros [e|] Hw; cbn [collect_timestamps]; try constructor.
  - destruct (Hw e eq_refl) as [h E]. destruct (entry_storable net idx h e Hi Hs E) as [(_ & _ & _ & _ & T & _) _]. exact T.
  - apply IH. intros p Hp. unfold parent in Hp. destruct (ent_parent e) as [h|]; [|done]. exists h. exact Hp.
Qed.

Lemma median_i64 idx h tip : history net idx -> Size idx < 2 ^ 64 -> Find idx h = Some tip -> i64 (MedianTimePastAt idx tip).
Proof.
  intros Hi Hs E. unfold MedianTimePastAt. set (ts := rev _).
  assert (Forall i64 ts) as F. { apply Forall_rev, collected_timestamps; [done|done|]. intros e [= <-]. eauto. }
  assert (ts <> []) as N. { intros C%(f_equal length). unfold ts in C. rewrite length_rev in C. change (Z.to_nat MEDIAN_TIME_SPAN) with 11%nat in C. discriminate C. }
  destruct (Validation.MedianTimePast_spec ts N) as [M _]. unfold Validation.median_window in M.
  rewrite Forall_forall in F. apply F. revert M. intros [i Hi']%list_elem_of_lookup. rewrite lookup_drop in Hi'. by apply list_elem_of_lookup_2 in Hi'.
Qed.

Lemma template_header idx h tip payout now data pool t : history net idx -> Size idx < 2 ^ 64 -> Find idx h = Some tip -> i64 now ->
  BuildBlockTemplate idx tip payout now data params pool = Some (inr t) -> BlockHeader_ok (blk_header (tmpl_block t)).
Proof.
  intros Hi Hs E Hw B. pose proof (hi_inv _ _ Hi) as I. pose proof (median_i64 idx h tip Hi Hs E) as Hm. pose proof (inv_height _ _ _ I E) as Hh.
  destruct (inv_entry _ I h tip E) as (_ & Eh & _). assert (ent_hash tip = h) as Et by (exact (BlockIndex.inv_hash _ _ _ I E)).
  unfold BuildBlockTemplate in B. destruct (_ <? _); [done|]. destruct (Z.eqb_spec (ent_height tip) (2 ^ 32 - 1)) as [|Nt]; [done|].
  destruct (Target.CompactToTarget (NextTargetBits _ _)); [|done]. set (ts := template_timestamp _ _) in *.
  destruct (NextTargetBitsAt_usable net tip ts) as (target & limit & Hb & Ec & _). rewrite Ec in B. cbn [mbind option_bind] in B.
  destruct (Validation.Block_ComputeMerkleRoot _) as [root|] eqn:Er; [|done].
  destruct (Validation.ContextualCheckBlockHeader _ _ _) as [[]|]; [|done]. destruct (Validation.CheckCoinbaseAmount _ _ _) as [[]|]; [|done]. injection B as <-.
  unfold BlockHeader_ok. cbn [tmpl_block blk_header hdr_version hdr_height hdr_prev_block hdr_merkle_root hdr_timestamp hdr_target_bits hdr_nonce].
  split; [unfold u32; lia|]. split; [unfold u32; lia|]. split; [rewrite Et, <- Eh; apply DoubleSha256_is_hash|]. split.
  { unfold Validation.Block_ComputeMerkleRoot, Merkle.ComputeMerkleRoot in Er. destruct (map _ _) in Er; [done|].
    destruct (Merkle.merkle_loop _ _) in Er; [|done]. cbn [mbind option_bind] in Er. destruct (head _) in Er; [|done]. cbn [mbind option_bind] in Er. injection Er as <-.
    apply TaggedHash_is_hash. }
  split; [|split; [exact Hb|unfold u64; lia]]. unfold ts, template_timestamp, i64 in *. destruct (Z.ltb_spec (MedianTimePastAt idx tip) (2 ^ 63 - 1)); lia.
Qed.

Lemma solved_header_fits attempts : forall header target found header', BlockHeader_ok header -> solve_loop attempts header target = (found, header') -> BlockHeader_ok header'.
Proof.
  induction attempts as [|attempts IH]; intros header target found header' Ok; cbn [solve_loop]; [by intros [= _ <-]|].
  destruct (Target.HashMeetsTarget _ _); [by intros [= _ <-]|]. destruct (Z.eqb_spec (hdr_nonce header) (2 ^ 64 - 1)) as [|Nn]; [by intros [= _ <-]|].
  apply IH. destruct Ok as (Ov & Oh & Op & Om & Ot & Ob & On). unfold u64 in On. split_and!; try done; unfold u64; cbn; lia.
Qed.

Lemma logged_generate_one payout attempts now n s k ok s' k' : i64 now -> logged (n + 1) s -> 0 <= n ->
  Daemon.generate_one params payout attempts now s k = Some (ok, s', k') -> logged n s' /\ keeps (ok = true) s s'.
Proof.
  intros Hw L Hn E. assert (logged n s /\ keeps (false = true) s s) as L0 by (destruct L; split; [split; [done|lia]|done]). unfold Daemon.generate_one in E.
  destruct (Tip s) as [h|]; [|done]. cbn [mbind option_bind] in E. destruct (Find (index_ s) h) as [tip|] eqn:Ft; [|done]. cbn [mbind option_bind] in E.
  destruct (BuildBlockTemplate _ _ _ _ _ _ _) as [[?|t]|] eqn:B; [by injection E as <- <- _| |done]. cbn [mbind option_bind] in E.
  destruct L as [L Hs]. pose proof (template_header _ h tip _ _ _ _ t (lg_history _ _ _ _ L) (lg_size _ _ _ _ L) Ft Hw B) as Ok.
  unfold SolveHeader in E. destruct (solve_loop _ _ _) as [found header] eqn:So. apply (solved_header_fits _ _ _ _ _ Ok) in So.
  destruct found; cbn [negb] in E; [|by injection E as <- <- _].
  destruct (AcceptBlock _ _ _ _) as [[a s1]|] eqn:A; [|done]. cbn [mbind option_bind] in E.
  apply (logged_block (mkBlock header _) now n s a s1 (conj L Hs) Hn So Hw) in A as [L1 K1]. destruct a as [h0|]; [|by injection E as <- <- _].
  apply (logged_Advance n s1 k ok s' k' L1) in E as [L2 K2]. split; [done|]. intros _ St. apply K2, K1; eauto.
Qed.

Lemma logged_generate payout attempts times : forall n s k ok s' k', Forall i64 times -> logged (n + zlen times) s -> 0 <= n ->
  Daemon.GenerateBlocks params payout attempts times s k = Some (ok, s', k') -> logged n s' /\ keeps (ok = true) s s'.
Proof.
  induction times as [|now times IH]; intros n s k ok s' k' Ht L Hn; cbn [Daemon.GenerateBlocks].
  - intros [= _ <- _]. destruct L as [L Hs]. split; [|by intros _]. split; [done|]. unfold zlen in Hs. cbn [length] in Hs. lia.
  - apply Forall_cons in Ht as [Hw Ht]. rewrite zlen_cons in L. pose proof (zlen_nonneg times).
    destruct (Daemon.generate_one _ _ _ _ _ _) as [[[ok1 s1] k1]|] eqn:G; [|done]. cbn [mbind option_bind].
    apply (logged_generate_one _ _ _ (n + zlen times)) in G as [L1 K1]; [|done|destruct L; split; [done|lia]|lia].
    destruct ok1; [|intros [= <- <- _]; destruct L1; split; [split; [done|lia]|done]].
    intros E. apply (IH n) in E as [L2 K2]; [|done..]. split; [done|]. intros W St. by apply K2, K1.
Qed.

(** Starting on nothing. *)
Lemma boot_fresh n count coins (store : D) sink ok s k : (forall h, BlockStore.HaveBlock store h = false) -> Logs sink ∅ -> Committed sink None ->
  0 <= n < 2 ^ 64 - 2 -> boot params (ChainDb.mkLoaded (ForNetwork params) (genesis_ (ForNetwork params)) count) coins store sink = Some (ok, s, k) -> logged n s /\ standing s.
Proof.
  intros He Lg Ct Hn E. unfold boot in E. cbn [ChainDb.loaded_index ChainDb.loaded_tip] in E.
  pose proof (started_logging net _ (start_observed net _ (start_fresh net coins store sink He Lg Ct))) as L.
  set (s0 := ObserveWith _) in *. pose proof (hi_inv _ _ (lg_history _ _ _ _ L)) as I. change (index_ s0) with (ForNetwork params) in I.
  destruct (inv_genesis _ I) as (g & Eg & Pg & Hg). rewrite Eg in E. cbn [mbind option_bind] in E.
  destruct (ResumeAt g s0) as [s1|] eqn:R; [|done]. cbn [mbind option_bind] in E.
  assert (s1 = s0) as ->.
  { unfold ResumeAt in R. change (index_ s0) with (ForNetwork params) in R. rewrite (upwards_spec _ _ I _ g [genesis_ (ForNetwork params)] Eg) in R;
      [|by eapply lineage_root|unfold walk_fuel; cbn; lia]. cbn [mbind option_bind] in R. by injection R as <-. }
  apply (logged_Advance n) in E as [L' K'].
  - split; [done|]. apply K'. exists (genesis_ (ForNetwork params)), g. split_and!; [done|done|]. by destruct (ForNetwork_find _ _ _ Eg) as (_ & _ & _ & ? & _).
  - split; [done|]. change (index_ s0) with (ForNetwork params). unfold Size, ForNetwork, new_BlockIndex. cbn [BlockIndex.entries_]. rewrite map_size_singleton. lia.
Qed.
End logged.

Section exits.
Context `{HO : Mempool.HashOrder} `{SH : Sha256Impl} `{SB : Signature.SignatureBackends} {R D : Type}.
Context `{RD : ChainDb.RocksDB R} `{!ChainDb.LawfulRocks R} `{BS : BlockStore.BlockStore D} `{!BlockStore.LawfulStore D}.
Context `{WJ : WalletDb.Json} `{SS : CoinSelection.StdSort} `{SG : Signing.SigningBackends} (net : Network).
Import BlockIndex ChainState ChainDb HeaderLog.
Abbreviation params := (ParamsFor net).
Abbreviation Db := (ChainDb R).
Abbreviation node := (Rpc.Node Db D Db).

Lemma LoadChain_fresh d now loaded d' : faulted d = false -> Logs d ∅ -> Committed d None -> LoadChain params now d = Some (inr loaded, d') ->
  (exists count, loaded = mkLoaded (ForNetwork params) (genesis_ (ForNetwork params)) count) /\ Logs d' ∅ /\ Committed d' None.
Proof.
  intros F [Lg So] Ct. unfold LoadChain. destruct (LoadHeaders d) as [x d1] eqn:E1. destruct (read_keeps d OpLoadHeaders eq_refl) as [_ K1].
  cbn [run_db] in K1. rewrite E1 in K1. cbn [snd] in K1. destruct x as [|l]; [done|].
  pose proof (LoadHeaders_quiet d l d1 E1) as F1. rewrite F in F1. destruct (LoadHeaders_exact d ∅ (inr l) d1 So Lg E1 F1) as (l' & [= <-] & P & _).
  rewrite map_to_list_empty in P. apply Permutation_nil_r in P as ->.
  destruct (LoadTip d1) as [y d2] eqn:E2. destruct (read_keeps d1 OpLoadTip eq_refl) as [_ K2]. cbn [run_db] in K2. rewrite E2 in K2. cbn [snd] in K2.
  destruct y as [|t]; [done|]. pose proof (LoadTip_quiet d1 t d2 E2) as F2. rewrite F1 in F2.
  change (contents (db d) !! (Meta, KEY_TIP) = None) in Ct. assert (contents (db d1) !! (Meta, KEY_TIP) = None) as Ct1 by (by rewrite K1).
  pose proof (LoadTip_exact d1 None (inr t) d2 Ct1 ltac:(done) E2 F2) as [= ->]. cbn. intros [= <- <-].
  split; [by eexists|]. rewrite K1 in K2. split; [split; [|done]; intros h; rewrite K2; apply Lg|]. change (contents (db d2) !! (Meta, KEY_TIP) = None). by rewrite K2.
Qed.

(** The actions keep the log, and leave the chain's parameters alone. *)
Lemma act_logged m st now clock (n n' : node) k : i64 now -> (forall i, i64 (clock i)) -> 0 <= generate st -> 0 <= k -> Rpc.params n = params ->
  (forall path file, import_blocks st = Some path -> read_file m path = Some file -> zlen file <= k) ->
  logged net (generate st + k) (Rpc.state n) -> act m st now clock n = Some (true, n') ->
  logged net 0 (Rpc.state n') /\ (stands (index_ (Rpc.state n)) (chain_ (Rpc.state n)) -> stands (index_ (Rpc.state n')) (chain_ (Rpc.state n'))).
Proof.
  intros Hw Hc Hg Hk Hp Hf L. unfold act. destruct (import_action m st now n) as [[ok n1]|] eqn:E1; [|done]. cbn [mbind option_bind].
  destruct ok; cbn [negb]; [|done].
  assert (logged net (generate st) (Rpc.state n1) /\ keeps True (Rpc.state n) (Rpc.state n1) /\ Rpc.params n1 = params) as (L1 & K1 & P1).
  { unfold import_action in E1. destruct (import_blocks st) as [path|] eqn:Ei; [|injection E1 as <-; split; [destruct L; split; [done|lia]|split; [by intros _|done]]].
    destruct (read_file m path) as [file|] eqn:Er; [|done]. rewrite Hp in E1. destruct (Daemon.ImportBlocks _ _ _ _ _) as [[[ok s1] k1]|] eqn:I; [|done].
    cbn [mbind option_bind] in E1. injection E1 as -> <-. specialize (Hf path file eq_refl Er).
    apply (logged_import net file now (generate st)) in I as [L1 K1]; [|done| |done].
    - split; [done|]. split; [|done]. intros _. by apply K1.
    - destruct L as [L Hs]. split; [done|]. lia. }
  destruct (generate_action st clock n1) as [[ok n2]|] eqn:E2; [|done]. cbn [mbind option_bind]. destruct ok; cbn [negb]; [|done].
  assert (logged net 0 (Rpc.state n2) /\ keeps True (Rpc.state n1) (Rpc.state n2)) as [L2 K2].
  { unfold generate_action in E2. rewrite P1, Z.gtb_ltb in E2. destruct (Z.ltb_spec 0 (generate st)); [|injection E2 as <-; destruct L1; split; [split; [done|lia]|by intros _]].
    destruct (payout st) as [lock|]; [|done]. cbn [mbind option_bind] in E2. destruct (Daemon.GenerateBlocks _ _ _ _ _ _) as [[[ok s2] k2]|] eqn:G; [|done].
    cbn [mbind option_bind] in E2. injection E2 as -> <-.
    apply (logged_generate net lock _ _ 0) in G as [L2 K2]; [split; [done|intros _; by apply K2]|by apply Forall_map_iff, Forall_true| |lia].
    unfold zlen. rewrite length_map, length_seq, Z2Nat.id by lia. destruct L1. split; [done|lia]. }
  destruct (export_action m st n2); cbn [negb]; [|done]. intros [= <-]. unfold Rpc.rescan_on_change.
  assert (stands (index_ (Rpc.state n)) (chain_ (Rpc.state n)) -> stands (index_ (Rpc.state n2)) (chain_ (Rpc.state n2))) as K by (intros St; by apply K2, K1).
  by destruct (Rpc.wallet n2).
Qed.

Lemma network_id : is_hash (chain_id params).
Proof. by destruct net. Qed.

Lemma finish_clean fault (d d' : Db) : finish fault d = (0, d') -> faulted d = false /\ faulted d' = false /\ contents (db d') = contents (db d).
Proof.
  unfold finish. destruct (Db_Sync d) as [synced d1] eqn:E. destruct (read_keeps d OpSync eq_refl) as [[_ O] C]. cbn [run_db] in O, C. rewrite E in O, C.
  cbn [snd] in O, C. unfold Db_HasFault. destruct synced; cbn [negb]; [|done]. destruct (faulted d1) eqn:F, fault; cbn [orb]; try done. intros [= <-]. auto.
Qed.

(** The same state over a database with the same contents. *)
Lemma logged_over s (d d' : Db) : logging net None false (s : ChainState Db D Db) -> sink_ s = Some d -> faulted d = false -> contents (db d') = contents (db d) ->
  logging net None false (with_sink (Some d') s).
Proof.
  intros [Hi Hs Hb Hp (k & Ek & Hk)] E F C. rewrite E in Ek. injection Ek as <-. split; try done. exists d'. split; [done|]. intros _.
  destruct (Hk F) as (log & t & [Lg So] & Ct & Bf & T). exists log, t. split_and!; [split; [|done]; intros h; rewrite C; apply Lg| |done|done].
  change (contents (db d') !! (Meta, KEY_TIP) = t). by rewrite C.
Qed.

Lemma run_logged m st r store store_fault started now clock service (n : node) d : network_ st = net -> contents r = ∅ ->
  (forall h, BlockStore.HaveBlock store h = false) -> rpc st = false -> i64 now -> (forall i, i64 (clock i)) -> 0 <= generate st < 2 ^ 63 ->
  (forall path file, import_blocks st = Some path -> read_file m path = Some file -> zlen file < 2 ^ 62) ->
  run_node m st (Some r) store store_fault started now clock service = Some (0, Some (n, d)) ->
  faulted d = false /\ exists d0, sink_ (Rpc.state n) = Some d0 /\ faulted d0 = false /\ contents (db d) = contents (db d0) /\ logging net None false (Rpc.state n) /\
    stands (index_ (Rpc.state n)) (chain_ (Rpc.state n)).
Proof.
  intros En Hr He Hrpc Hw Hc Hg Hf. unfold run_node. rewrite En. destruct (negb (directory m)); [done|].
  destruct (Open (Some r) _) as [[?|d0] r'] eqn:Eo; [done|].
  destruct (Open_spec _ _ _ _ Eo network_id) as (_ & F0 & _); [by intros k v; rewrite Hr, lookup_empty|].
  destruct (Open_fresh _ _ _ _ Eo network_id Hr) as (_ & [_ Ht] & (_ & _ & Hi)).
  destruct (LoadChain _ _ d0) as [[[?|loaded] d1]|] eqn:El; [done| |done]. cbn [mbind option_bind].
  destruct (LoadChain_fresh d0 started loaded d1 F0 ltac:(split; [exact Hi|intros h s; by rewrite lookup_empty]) Ht El) as ([count ->] & Lg & Ct).
  destruct (boot _ _ _ _ _) as [[[ok s] k]|] eqn:Eb; [|done]. cbn [mbind option_bind]. destruct ok; cbn [negb]; [|done].
  apply (boot_fresh net (generate st + (2 ^ 62 - 1))) in Eb as [Lb Sb]; [|done|done|done|lia].
  destruct (open_wallet m st) as [?|w]; [done|]. set (n0 := Rpc.rescan_on_change _).
  destruct (act m st now clock n0) as [[ok n1]|] eqn:Ea; [|done]. cbn [mbind option_bind]. destruct ok; cbn [negb]; [|done].
  rewrite Hrpc. cbn [mbind option_bind negb]. destruct (sink_ (Rpc.state n1)) as [d2|] eqn:Es; [|done]. cbn [mbind option_bind].
  assert (Rpc.state n0 = s /\ Rpc.params n0 = params) as [S0 P0] by (unfold n0, Rpc.rescan_on_change; cbn; by destruct w).
  apply (act_logged m st now clock n0 n1 (2 ^ 62 - 1) Hw Hc) in Ea as [[L _] St]; [|lia|lia|done|intros path file Ei Er; specialize (Hf path file Ei Er); lia|by rewrite S0].
  rewrite S0 in St. specialize (St Sb).
  destruct (finish _ d2) as [status d3] eqn:Ef. intros [= -> <- <-]. apply finish_clean in Ef as (F2 & F3 & C). split; [done|]. exists d2. done.
Qed.

End exits.

(** ** The theorems *)

(** C6: a clean exit can be started again.  Run the node on an empty directory, with any
    options that do not serve RPC: import any file (below 2^62 bytes), mine any number of
    blocks, export, whatever storage call fails underneath.  If it exits with 0, then no
    fault was latched, the tip it reported is not ruled out, and what it leaves on disk
    after the last flush is the chain it reported: a later start on that database, unless a
    read faults, loads the same index and the same tip, and resumes the same chain. *)
Theorem clean_exit_restarts `{Mempool.HashOrder} `{Sha256Impl} `{Signature.SignatureBackends} {R D} `{ChainDb.RocksDB R} `{!ChainDb.LawfulRocks R}
    `{BlockStore.BlockStore D} `{!BlockStore.LawfulStore D} `{WalletDb.Json} `{CoinSelection.StdSort} `{Signing.SigningBackends}
    (m : Machine) (st : Settings) (r : R) (store : D) (store_fault : D -> bool) (started now later : Z) (clock : nat -> Z)
    (service : Rpc.Node (ChainDb.ChainDb R) D (ChainDb.ChainDb R) -> option (bool * Rpc.Node (ChainDb.ChainDb R) D (ChainDb.ChainDb R)))
    (n : Rpc.Node (ChainDb.ChainDb R) D (ChainDb.ChainDb R)) (d : ChainDb.ChainDb R)
    (Hr : ChainDb.contents r = ∅) (He : forall h, BlockStore.HaveBlock store h = false) (Hrpc : rpc st = false)
    (Hnow : i64 now) (Hlater : i64 later) (Hc : forall i, i64 (clock i)) (Hg : 0 <= generate st < 2 ^ 63)
    (Hf : forall path file, import_blocks st = Some path -> read_file m path = Some file -> zlen file < 2 ^ 62)
    (Hrun : run_node m st (Some r) store store_fault started now clock service = Some (0, Some (n, d))) :
  ChainDb.faulted d = false /\
  exists t loaded d', ChainState.Tip (Rpc.state n) = Some t /\ ChainDb.LoadChain (ParamsFor (network_ st)) later d = Some (loaded, d') /\
    (ChainDb.faulted d' = true \/ HeaderLog.resumed (Rpc.state n) t loaded).
Proof.
  destruct (run_logged (network_ st) m st r store store_fault started now clock service n d eq_refl Hr He Hrpc Hnow Hc Hg Hf Hrun)
    as (F & d0 & Es & F0 & C & L & St). split; [done|].
  destruct (HeaderLog.logged_restart (network_ st) _ d later (logged_over (network_ st) _ d0 d L Es F0 C) eq_refl F Hlater)
    as (t & loaded & d' & Et & El & [Fd|Rs]); exists t, loaded, d'; (split; [done|]; split; [done|]); [by left|right].
  exact (HeaderLog.standing_resumed _ t loaded St Et Rs).
Qed.

(** *** Witness: a first run on regtest that mines a block *)

Section witness.
#[local] Existing Instance toy_Sha256Impl.
#[local] Existing Instance Validation.picky_backends.
#[local] Existing Instance MempoolInv.sorted_order.
#[local] Existing Instance Wallet.no_Json.
#[local] Existing Instance CoinSelection.merge_StdSort.
#[local] Existing Instance Signing.toy_signing.

Definition sample_machine : Machine := mkMachine (fun _ => None) (fun _ => true) (fun _ => None) (fun _ => true) None true.
Definition sample_settings : Settings :=
  mkSettings Regtest (Some (mkLock 1 (replicate 32 Byte.x07))) 1 DEFAULT_GENERATE_ATTEMPTS false 12521 None 12520 "/n" None None (Some "/n/blocks") [].

Abbreviation sample_node := (Rpc.Node (ChainDb.ChainDb ChainDb.Disk) BlockStore.MemoryBlockStore (ChainDb.ChainDb ChainDb.Disk)).

Definition sample_run : option (Z * option (sample_node * ChainDb.ChainDb ChainDb.Disk)) :=
  run_node sample_machine sample_settings (Some (ChainDb.mkDisk ∅ [])) BlockStore.new_MemoryBlockStore (fun _ => false) 1800000000 1800000000 (fun _ => 1800000000)
    (fun _ => None).

Lemma sample_run_clean : exists n d, sample_run = Some (0, Some (n, d)) /\ length (ChainState.chain_ (Rpc.state n)) = 2%nat.
Proof.
  assert (match sample_run with Some (0, Some (n, _)) => (length (ChainState.chain_ (Rpc.state n)) =? 2)%nat | _ => false end = true) as C by (vm_compute; reflexivity).
  destruct sample_run as [[[| |] [[n d]|]]|]; try discriminate C. exists n, d. split; [reflexivity|by apply Nat.eqb_eq].
Qed.

Lemma clean_exit_restarts_witness : exists (n : sample_node) d, sample_run = Some (0, Some (n, d)) /\ length (ChainState.chain_ (Rpc.state n)) = 2%nat /\
  ChainDb.faulted d = false /\
  exists t loaded d', ChainState.Tip (Rpc.state n) = Some t /\ ChainDb.LoadChain REGTEST_PARAMS 1800003600 d = Some (loaded, d') /\
    (ChainDb.faulted d' = true \/ HeaderLog.resumed (Rpc.state n) t loaded).
Proof.
  destruct sample_run_clean as (n & d & E & Hl). exists n, d. split; [exact E|]. split; [exact Hl|].
  apply (clean_exit_restarts sample_machine sample_settings (ChainDb.mkDisk ∅ []) BlockStore.new_MemoryBlockStore (fun _ => false) 1800000000 1800000000 1800003600
    (fun _ => 1800000000) (fun _ => None)).
  - reflexivity.
  - reflexivity.
  - reflexivity.
  - vm_compute. split; congruence.
  - vm_compute. split; congruence.
  - intros _. vm_compute. split; congruence.
  - vm_compute. split; congruence.
  - discriminate.
  - exact E.
Defined.
End witness.
(** The log shows what was asked for.  Where the options for the log are accepted, a
    message is let through exactly if it is no finer than the level named (or than the one
    before), and it is an error or a warning, or its category is named in the list by a
    token that no later token clears (or, without a list, was enabled before). *)
Theorem log_filter_exact (opens : string -> bool) (parser : Args.ArgsParser) (g g' : Logging.Log) (l : Logging.Level) (c : Logging.Category) (i : Z)
    (Hc : Logging.ToBits c = Z.shiftl 1 i) (Hi : 0 <= i) (E : ConfigureLogging opens parser g = inr g') :
  exists level, (if Args.Has parser "log-level" then Args.GetString parser "log-level" "" = Logging.LevelName level else level = Logging.g_level g) /\
  (Logging.WillLog g' l c = true <->
   Logging.level_value l <= Logging.level_value level /\
   (l = Logging.Error \/ l = Logging.Warn \/
    if Args.Has parser "log-categories" then Logging.asked (Logging.fields (Args.GetString parser "log-categories" "")) i
    else Z.testbit (Logging.g_categories g) i = true)).
Proof.
  unfold ConfigureLogging in E. apply bind_inr in E as (g1 & E1 & E). apply bind_inr in E as (g2 & E2 & E).
  assert (Logging.g_level g' = Logging.g_level g2 /\ Logging.g_categories g' = Logging.g_categories g2) as [Gl Gc].
  { destruct (Args.Has parser "log-deterministic"), (Args.Has parser "log-file"); cbn in E; try (by injection E as <-);
      destruct (opens _); by try injection E as <-. }
  assert (exists level, (if Args.Has parser "log-level" then Args.GetString parser "log-level" "" = Logging.LevelName level else level = Logging.g_level g) /\
    Logging.g_level g1 = level /\ Logging.g_categories g1 = Logging.g_categories g) as (level & Hl & L1 & C1).
  { unfold set_level in E1. destruct (Args.Has parser "log-level"); [|injection E1 as <-; eauto].
    destruct (Logging.ParseLevel _) as [level|] eqn:P; [|done]. injection E1 as <-. apply Logging.ParseLevel_spec in P. exists level. done. }
  exists level. split; [done|]. rewrite (Logging.WillLog_spec g' l c i Hc Hi), Gl, Gc.
  assert (Logging.g_level g2 = level /\ (Z.testbit (Logging.g_categories g2) i = true <->
    if Args.Has parser "log-categories" then Logging.asked (Logging.fields (Args.GetString parser "log-categories" "")) i
    else Z.testbit (Logging.g_categories g) i = true)) as [-> ->]; [|done].
  unfold set_categories in E2. destruct (Args.Has parser "log-categories"); [|injection E2 as <-; by rewrite C1].
  destruct (Logging.ParseCategories_spec (Args.GetString parser "log-categories" "") "") as [Ok Bad].
  destruct (decide (Forall Logging.known (Logging.fields (Args.GetString parser "log-categories" "")))) as [K|K].
  - destruct (Ok K) as (m & Em & B). rewrite Em in E2. cbn in E2. injection E2 as <-. split; [done|]. rewrite <- B by done. by rewrite Logging.disable_all.
  - destruct (Bad K) as (t & _ & Nt & Em). rewrite Em in E2. destruct t; [destruct Nt; by left|]. discriminate E2.
Qed.

Definition sample_log_args : list string := ["--log-level=debug"; "--log-categories"; "all,none,net,,mempool"].

Lemma log_filter_exact_witness : exists g', ConfigureLogging (fun _ => false) (Args.Parse sample_log_args new_parser).2 Logging.initial_log = inr g' /\
  Logging.WillLog g' Logging.Debug Logging.Net = true.
Proof.
  eexists. split; [vm_compute; reflexivity|].
  destruct (log_filter_exact (fun _ => false) (Args.Parse sample_log_args new_parser).2 Logging.initial_log _ Logging.Debug Logging.Net 2
    eq_refl ltac:(done) ltac:(vm_compute; reflexivity)) as (level & Hl & W).
  apply W. split; [assert (level = Logging.Debug) as -> by (destruct level; vm_compute in Hl; congruence); vm_compute; congruence|].
  right. right. vm_compute. right. right. left. split; [|repeat constructor; intros [C|C]; discriminate C].
  right. exists Logging.Net. split; [reflexivity|]. split; [reflexivity|discriminate].
Defined.

(** ** The cookie *)

(** A service that ends has taken its credential away, unless it could not be removed; one
    that could not write it leaves what was there. *)
Lemma cookie_does_not_outlive `{Mempool.HashOrder} `{Sha256Impl} `{Signature.SignatureBackends} {V D K} `{CoinsView V} `{BlockStore.BlockStore D} `{ChainState.ChainSink K V}
    `{WalletDb.Json} `{CoinSelection.StdSort} `{Signing.SigningBackends} `{JsonText} (st : Settings) token faults v4 v6 events path disk (n n' : Rpc.Node V D K) ok states :
  ServeRpc st token faults v4 v6 events path disk n = Some (ok, n', states) ->
  match Http.Generate token path faults disk with
  | (inr _, _) => Http.remove_fails faults = false -> Http.final disk states !! path = None
  | (inl _, states') => ok = false /\ n' = n /\ states = states'
  end.
Proof.
  unfold ServeRpc. destruct (Http.Generate token path faults disk) as [[e|credential] written]; [by intros [= <- <- <-]|].
  assert (forall d, Http.remove_fails faults = false -> Http.final disk (written ++ [Http.remove path (Http.remove_fails faults) d])%list !! path = None) as Gone.
  { intros d F. unfold Http.final. rewrite last_snoc. cbn. rewrite F. cbn. apply lookup_delete_eq. }
  destruct (RpcServer.Bind _ _ _ _) as [?|server]; [intros [= _ _ <-]; apply Gone|].
  destruct (serve_events _ _ _) as [[[server' n1] o]|]; [|done]. cbn [mbind option_bind]. intros [= _ _ <-]. apply Gone.
Qed.

(** A flag that is switched off counts as given, and starts the server. *)
Example switched_off_serves :
  map (fun args => match read_settings (SH := toy_Sha256Impl) (Args.Parse args new_parser).2 (Some "/home/a") Regtest with inr st => Some (rpc st) | inl _ => None end)
    [["--rpc"]; []; ["--no-rpc"]; ["--rpc=0"]] = [Some true; Some false; Some true; Some true].
Proof. vm_compute. reflexivity. Qed.

End NodeMain.
